(* ===== verification/_CoqProject ===== *)
-Q . S2P
Prelude.v
Registrations.v
Utf8.v
StringInterner.v
CallGraph.v
CallGraphInv.v
CallGraphQuery.v
CallGraphRemove.v
CallGraphCompact.v
CallGraphMerge.v
PathSearch.v
PathSearchCorrect.v
Impact.v
Ordering.v
Query.v
ControlFlowIndex.v
ControlFlowInv.v
ControlFlowMerge.v
ControlFlowRemove.v
ControlFlowQuery.v
Text.v
TypoDistance.v
Results.v
Suggest.v
Identity.v
Codec.v
SnapshotMeta.v
Staleness.v
SnapshotGraph.v
SnapshotGraphRoundtrip.v
ChannelIndex.v
ChannelInv.v
ChannelRemove.v
ChannelMerge.v
CountingSort.v
SnapshotControlFlow.v
SnapshotControlFlowRoundtrip.v
MappedControlFlow.v
MappedEquiv.v
SnapshotChannels.v
SnapshotFile.v
SnapshotFileRoundtrip.v
SnapshotMerge.v
SnapshotMergeTheorems.v
Oracle.v
OracleCorrect.v
OracleNearest.v
OracleTheorems.v
SemanticContext.v
SortedMap.v
PatchMapping.v
PatchMappingCorrect.v
PatchParse.v
SemanticIdentity.v
SemanticDiff.v
SemanticIdentityCorrect.v
SemanticDiffCorrect.v
SemanticDiffTheorems.v
Upsert.v
GlobalIndex.v
GlobalIndexCorrect.v
GlobalIndexTheorems.v
ReachAnalyses.v
EscapeCorrect.v
InitOrderCorrect.v
HazardsCorrect.v
IndexAnalyses.v
IndexAnalysesCorrect.v
OverloadChecks.v
Checkpoint.v
CheckpointCodec.v
CheckpointJournal.v
DeadCode.v
DeadCodeTool.v
CheckSet.v
Report.v
ReportCorrect.v
BaselineCorrect.v
WorkerPool.v
WorkerPoolCorrect.v
