(* ===== verification/Prelude.v ===== *)
(** * Verification of vycor-cpp

    vycor-cpp indexes C++ programs and answers questions about them: who calls a function,
    along which paths, under which guards and handlers, which functions a change can reach,
    what two versions of a program differ in, and which constructs break when several
    translation units are linked.  This library models the parts of it that carry that logic
    and proves what they promise.

    ** The program and how its parts interact

    A frontend visits every translation unit and registers nodes, edges, call-site contexts
    and channel sites in shards; the bake merges the shards ([absorb]) into one
    [CallGraph], one [ControlFlowIndex] and one [ChannelIndex], all over interned strings
    that are valid UTF-8.  [SnapshotIO] saves the three with a meta section and loads them
    again; a warm start compares the recorded stamps with the files, removes the stale
    units ([removeTUs]), parses them again and absorbs the new shards.  The query tools
    resolve a name to one identity, run a search over the graph (caller paths, impact,
    exception protection, dead code) or a lookup in an index, and answer with a JSON payload
    that is filtered, sorted, paged and stamped with a status.  The semantic diff compares
    two indexes, and patch mapping finds the indexed functions a patch touches.

    The check tool has an index of its own: an indexer fills a [GlobalIndex] per unit, the
    indexes are absorbed into one, and analyses over it and over the call graph give
    diagnostics.  A journal records every finished unit so that a killed run resumes, and
    workers hand their units over in shard files.  The diagnostics become findings, inline
    suppressions, a baseline and a changed-lines filter remove some, and the rest is
    rendered and decides the exit code.

    ** The files and what they model

    Shared:
    - [Prelude]: bytes and their order, 32-bit wrap-around, notations, tactics, hint
      database and the list, option and map lemmas the components share;
    - [Ordering]: lexicographic comparators, [std::sort] as an interface ([StdSort]) and sorts
      that do not depend on input order; [SortedMap]: [std::map] and the walk over two of them;
      [Upsert]: tables with a key index that are inserted into or updated;
    - [Registrations]: multisets of registrations per unit and tables indexed by vectors of
      positions, the two patterns the graph and the channel index share.

    Text (include/vycor/callgraph/Utf8.h, StringInterner.h; src/callgraph/CollapseFilter.cpp):
    - [Utf8]: [toIndexText], [fromIndexText], [lookupText];
    - [StringInterner]: the table and its ids; [Concurrent] is the step relation of callers
      interleaved at the boundaries of the shared and exclusive locks;
    - [Text]: substring and character searches, splits, number readers and the path collapse
      filter.

    Call graph (include/vycor/callgraph/CallGraph.h, src/callgraph/CallGraph.cpp):
    - [CallGraph]: the record of the class's fields, every mutator and every query;
    - [CallGraphInv]: the representation invariant [cg_ok] and its preservation;
    - [CallGraphQuery]: what the queries answer; [CallGraphRemove], [CallGraphCompact],
      [CallGraphMerge]: [removeTUs], [compact] and [absorb].

    Searches:
    - [PathSearch], [PathSearchCorrect]: src/callgraph/PathSearch.cpp;
    - [Impact]: src/impact/ImpactSearch.cpp.

    Control flow (src/callgraph/ControlFlowIndex.cpp, ControlFlowOracle.cpp):
    - [ControlFlowIndex] has the data, the mutators of the resident form, and the queries
      over a [ContextView], which both forms provide; [ControlFlowInv] the set keys and the
      invariant, [ControlFlowMerge], [ControlFlowRemove] the mutators, [ControlFlowQuery] the
      refinement to a list of contexts;
    - [MappedControlFlow]: the mapped form of a read-only load, which looks strings and
      records up in the file, and that its reads stay inside its arrays; [MappedEquiv]: it
      answers like the resident form;
    - [Oracle], [OracleCorrect], [OracleNearest], [OracleTheorems]: what becomes of an
      exception along paths, the verdict over all paths, the nearest-catch search.

    Channels (include/vycor/callgraph/ChannelIndex.h, src/callgraph/ChannelIndex.cpp):
    - [ChannelIndex], [ChannelInv], [ChannelRemove], [ChannelMerge].

    Saved indexes (src/callgraph/Snapshot.cpp, include/vycor/callgraph/Snapshot.h):
    - [Codec]: little-endian emitters and the bounds-checked reader as a state monad;
    - [SnapshotMeta]: the meta section; [Staleness]: which units a warm start parses again;
    - [SnapshotGraph], [SnapshotGraphRoundtrip]: the graph section in both load modes;
    - [CountingSort], [SnapshotControlFlow], [SnapshotControlFlowRoundtrip]: the control-flow
      section with its lookup arrays;
    - [SnapshotChannels]: the channels section;
    - [SnapshotFile], [SnapshotFileRoundtrip]: the header with its section table and
      checksums, [save], [verify] and [load];
    - [SnapshotMerge], [SnapshotMergeTheorems]: [SnapshotIO::merge], proved against [UnitLedger],
      what the three indexes promise to a merge, with an instance for each.

    Worker isolation (src/callgraph/WorkerPool.cpp, src/callgraph/Interrupt.cpp):
    - [WorkerPool]: the registry of children, the markers of a log, the wait for a process,
      the dispatcher with its threads ([Pool], one atomic step each in [fire]: a critical
      section that may put its thread to sleep on a condition variable, a notification, a
      spurious wakeup) and the bake over it; [WorkerPoolCorrect]: its correctness over all
      schedules.

    Comparing and mapping (src/impact/):
    - [SemanticContext], [SemanticIdentity], [SemanticDiff]: context signatures, identity
      keys and the change list of src/impact/SemanticDiff.cpp; [SemanticIdentityCorrect],
      [SemanticDiffCorrect], [SemanticDiffTheorems] their correctness;
    - [PatchMapping], [PatchMappingCorrect], [PatchParse]: src/impact/PatchMapping.cpp.

    Queries (src/query/):
    - [Query]: enum spellings, canonical edge order, edge filter, paging, limits;
    - [Results]: payloads, statuses, error payloads and the envelope;
    - [TypoDistance], [Suggest], [Identity]: src/query/Identity.cpp;
    - [DeadCodeTool]: src/query/DeadCodeTools.cpp with the two layers of the answer cache.

    The check tool (src/check/, include/vycor/check/):
    - [GlobalIndex], [GlobalIndexCorrect], [GlobalIndexTheorems]: GlobalIndex.cpp;
    - [ReachAnalyses]: the diagnostics and the analyses of Analyzer.cpp that search the calls,
      with [EscapeCorrect], [InitOrderCorrect], [HazardsCorrect]; [IndexAnalyses]: those that
      group entries, with [IndexAnalysesCorrect]; [OverloadChecks]: the
      normalization of types (TypeNormalize.h) and the scoring of overloads, guides and
      specializations a unit does not see;
    - [Checkpoint], [CheckpointCodec], [CheckpointJournal]: Checkpoint.cpp, the wire form of
      every entry (class [Wire], an instance per entry type), the journal and the shards;
    - [DeadCode]: DeadCodeAnalyzer.cpp;
    - [CheckSet]: CheckSet.cpp and the selection of checks by the command;
    - [Report], [ReportCorrect], [BaselineCorrect]: Report.cpp and the report stage of the
      check command (src/main.cpp).

    ** What the theorems show

    - Representation invariants: every sequence of operations keeps the invariant of the
      graph, of the control-flow index and of the channel index.
    - Refinement: [absorb] adds exactly a shard's facts whatever ids it uses, [removeTUs]
      takes back exactly the registrations of the removed units, [compact] changes no
      answer; the control-flow index acts as a list of contexts and the channel index as a
      ledger of registrations; absorbing a [GlobalIndex] is replaying the calls that built it.
    - Searches: what is reported is a real walk, and a result that calls itself complete or
      exhaustive holds everything within the bound or at all; both ends of the claim are
      proved, and where a hypothesis is needed a concrete counterexample shows it.
    - Exceptions: a universal verdict holds of every path, the report of a path is the one
      fate the propagation rules give, and the nearest catches are exactly those reached.
    - Round trips and damage: text escape, set keys, and every section of a saved index and
      the file as a whole read back as what was saved, in both load modes; a section or a
      file cut short or extended is refused, no section is decoded whose checksum does not
      match, and every refusal says why.
    - Two forms of one index: the mapped form answers every query as the resident form a
      mutable load builds from the same bytes, and on damaged bytes never reads outside.
    - Merging saved indexes: a merge succeeds exactly when its inputs load and agree, and
      every unit's facts come from the first input that lists the unit.
    - Warm start: exactly the units whose inputs changed, or were recorded while they could
      still change, are parsed again.
    - Comparing: the diff lists exactly the functions whose facts differ and is refused
      exactly on a configuration mismatch; a patch maps to exactly the functions its ranges
      touch.
    - Queries: ranking, suggestions, identity resolution, filters, pages and limits answer
      as documented, independently of hash order.
    - Checks: each whole-program analysis reports exactly the entities its documentation
      names, over shortest chains where it shows one, except in two corners the theorems set
      apart and examples show: a [noexcept] function is also reported for the throw of a
      [noexcept] callee ([noexcept_callee_is_crossed]), and some methods of a class that is
      flagged for the one-definition rule are reported beside it ([flagged_class_is_echoed]);
      liveness is the least relation in which functions and constructed classes unlock each
      other.
    - Resuming: a run killed at any byte loses at most the record it was writing, what is
      appended after damage is found again, replaying a unit is absorbing its parse, and a
      unit is given up exactly after two attempts since its last completion.
    - Reporting: the report does not depend on the order of diagnostics, fingerprints survive
      edits, suppressions remove exactly what their comments say, a baseline is a difference
      of multisets, and a run with the baseline it wrote passes.
    - Worker isolation: under every schedule of the dispatcher and whatever the workers do,
      every unit is consumed or given up exactly once, after at most three runs; the
      dispatcher loses no wakeup, so it cannot deadlock, and its runs are bounded; with exact
      markers and at most two deadly units in a batch only those are given up; an isolated
      bake reports every unit.

    Where the code does not do what it means to, a concrete example shows it: a path missed
    for a shared display name, a search for catches that never ends, a removed line of a
    patch that hides the hunks after it, a cache key two requests share, a batch lost to three
    of its units.

    ** Modelling conventions

    A mutator is a function from state to state and a query a function from state to
    result; a method that holds its mutex for its whole body is one transition, and a
    critical section or a notification of the dispatcher is one step.  [uint32_t] ids are [N] with [u32] written where the code casts; [size_t] positions and sizes are
    [nat], signed counts [Z], and a signed sum that overflows has no value.  Hash maps are
    [gmap]s; where the code's answer could depend on the order a hash map is walked in, the
    order is an argument of the definition and the theorem holds for every order.  Fallible
    code returns [option], a sum, or a reader whose failure is sticky.  An out-of-range index
    is written out where the code relies on it.  A file is its bytes, and an append that fails
    says how many bytes land.

    Fuel: a loop that is not structural runs on a number computed from its input and a
    theorem shows that it suffices: the length of the string for the escape loops and for
    walks up a path, the number of interned strings for closures and searches, each of which
    visits a string once, twice that for the rounds of the dead-code search, each of which
    finds a class or a function, the width of the range for a bisection, the bytes of a
    journal for its records.  Where the code itself bounds a loop (depth, expansions), the
    bound is the code's.

    Code outside the repository is a parameter: [isValidUtf8] (llvm::json::isUTF8),
    [toLower], [stat], JSON accessors and the JSON reader, the checksum of a byte range, the
    hash of fingerprints, what a worker process does with its batch ([Runner]), LLVM's path
    functions ([PathOps]) and regular expressions, and the casts of a byte to an enumeration, which are fixed only on the codes of the enumerators.

    ** Not modelled

    - The frontends that walk clang syntax trees (CallGraphBuilder, ControlFlowContextVisitor,
      Indexer, Analyzer's visitors, morph, plugin): their input is the compiler's tree, which
      is not part of the repository; they reach the indexes only through the mutators above.
    - Signals and files (the signal handling of Interrupt, CrashGuard, AtomicFile,
      RetainUntilExit, PchCache) and the threads of the in-process bake and of the check run
      (MegascopeBridge, runAnalysis): effects of the operating system around the modelled
      merges.
    - Command-line glue (main.cpp outside the report stage and the selection of checks,
      src/cli), tool schemas, and the fuzz drivers.
    - The handlers of the graph, lock, exception, channel and impact tools, which format the
      answers of the searches above, and the JSON objects of single records
      (src/query/Serialize.cpp). *)

From stdpp Require Export sorting base gmap sets list countable strings.
From Stdlib Require Strings.Byte.
From Stdlib Require Export ZArith.

(** * Bytes and byte strings

    A C++ [char] read through [unsigned char] is a [byte]; a [std::string] is
    a list of bytes.  [std::string::operator<] compares byte values
    lexicographically, a shorter prefix first. *)

#[global] Instance byte_eq_dec : EqDecision Byte.byte := Byte.byte_eq_dec.

#[global] Program Instance byte_countable : Countable Byte.byte :=
  inj_countable Byte.to_N Byte.of_N _.
Next Obligation. intros x. apply Byte.of_to_N. Qed.

Abbreviation bytes := (list Byte.byte).

(** The byte string of a literal, for examples and witnesses. *)
Definition str (s : string) : bytes := String.list_byte_of_string s.

Fixpoint bytes_cmp (a b : bytes) : comparison :=
  match a, b with
  | [], [] => Eq
  | [], _ :: _ => Lt
  | _ :: _, [] => Gt
  | x :: a', y :: b' =>
      match N.compare (Byte.to_N x) (Byte.to_N y) with
      | Eq => bytes_cmp a' b'
      | c => c
      end
  end.

Definition bytes_ltb (a b : bytes) : bool :=
  match bytes_cmp a b with Lt => true | _ => false end.

Definition bytes_le (a b : bytes) : Prop := bytes_cmp a b <> Gt.

#[global] Instance bytes_le_dec : RelDecision bytes_le.
Proof.
  intros a b. unfold bytes_le.
  destruct (bytes_cmp a b); [left|left|right]; congruence.
Defined.

Lemma to_N_inj x y : Byte.to_N x = Byte.to_N y -> x = y.
Proof.
  intros H. apply (f_equal Byte.of_N) in H.
  rewrite !Byte.of_to_N in H. congruence.
Qed.

Lemma bytes_cmp_refl a : bytes_cmp a a = Eq.
Proof. induction a as [|x a IH]; simpl; [done|]. by rewrite N.compare_refl. Qed.

Lemma bytes_cmp_eq a b : bytes_cmp a b = Eq <-> a = b.
Proof.
  split; [|intros ->; apply bytes_cmp_refl].
  revert b. induction a as [|x a IH]; intros [|y b]; simpl; try done.
  destruct (N.compare_spec (Byte.to_N x) (Byte.to_N y)); try done.
  intros ->%IH. f_equal. by apply to_N_inj.
Qed.

Lemma bytes_cmp_antisym a b : bytes_cmp b a = CompOpp (bytes_cmp a b).
Proof.
  revert b. induction a as [|x a IH]; intros [|y b]; simpl; try done.
  rewrite N.compare_antisym.
  destruct (N.compare (Byte.to_N x) (Byte.to_N y)); simpl; auto.
Qed.

Lemma bytes_cmp_lt_trans a b c :
  bytes_cmp a b = Lt -> bytes_cmp b c = Lt -> bytes_cmp a c = Lt.
Proof.
  revert b c. induction a as [|x a IH]; intros [|y b] [|z c]; simpl; try done.
  destruct (N.compare_spec (Byte.to_N x) (Byte.to_N y)) as [E|L|L]; try done;
  destruct (N.compare_spec (Byte.to_N y) (Byte.to_N z)) as [E'|L'|L'];
    intros H1 H2; try done;
  destruct (N.compare_spec (Byte.to_N x) (Byte.to_N z)); try lia; try done; eauto.
Qed.

#[global] Instance bytes_le_total : Total bytes_le.
Proof.
  intros a b. unfold bytes_le. rewrite (bytes_cmp_antisym a b).
  destruct (bytes_cmp a b); simpl; auto.
Qed.

#[global] Instance bytes_le_refl : Reflexive bytes_le.
Proof. intros a. unfold bytes_le. by rewrite bytes_cmp_refl. Qed.

#[global] Instance bytes_le_trans : Transitive bytes_le.
Proof.
  intros a b c. unfold bytes_le. intros H1 H2.
  destruct (bytes_cmp a b) eqn:E1; [apply bytes_cmp_eq in E1 as ->; done| |done].
  destruct (bytes_cmp b c) eqn:E2; [apply bytes_cmp_eq in E2 as ->; congruence| |done].
  by rewrite (bytes_cmp_lt_trans a b c).
Qed.

#[global] Instance bytes_le_antisymm : AntiSymm (=) bytes_le.
Proof.
  intros a b H1 H2. apply bytes_cmp_eq. unfold bytes_le in *.
  rewrite (bytes_cmp_antisym a b) in H2. by destruct (bytes_cmp a b).
Qed.

Lemma bytes_ltb_lt a b : bytes_ltb a b = true <-> bytes_le a b /\ a <> b.
Proof.
  unfold bytes_ltb, bytes_le. rewrite <- bytes_cmp_eq.
  destruct (bytes_cmp a b); naive_solver.
Qed.

(** Linear arithmetic with division and remainder by constants. *)
Ltac divlia := zify; Z.to_euclidean_division_equations; lia.

(** * Machine integers

    [uint32_t] values are kept as [N] with the wrap-around written out. *)

Definition two32 : N := 4294967296.
Definition u32 (n : N) : N := (n mod two32)%N.

Lemma u32_small n : (n < two32)%N -> u32 n = n.
Proof. apply N.mod_small. Qed.

Lemma u32_lt n : (u32 n < two32)%N.
Proof. by apply N.mod_lt. Qed.

(** * Standard containers

    [std::unordered_map] and [std::unordered_set] promise that an iteration
    visits every entry exactly once, in an order the standard does not fix.
    The model takes that order as an interface: [UnorderedIter] is any pair of
    enumeration functions with that promise, and every theorem about code that
    iterates over a hash container holds for all of them. *)

Class UnorderedIter := {
  map_iter : forall {V : Type}, gmap N V -> list (N * V);
  set_iter : gset N -> list N;
  map_iter_perm : forall V (m : gmap N V), map_iter m ≡ₚ map_to_list m;
  set_iter_perm : forall s : gset N, set_iter s ≡ₚ elements s
}.

(** One order that exists: the enumeration order of [gmap] itself. *)
Definition canonical_iter : UnorderedIter := {|
  map_iter := fun V m => map_to_list m;
  set_iter := fun s => elements s;
  map_iter_perm := fun V m => reflexivity _;
  set_iter_perm := fun s => reflexivity _
|}.

(** [m\[k\]]: [operator\[\]] on a map of vectors, a missing entry being empty. *)
Definition vec_at `{HK : Countable K} {A} (m : gmap K (list A)) (k : K) : list A := default [] (m !! k).

(** [m\[k\].push_back(v)]. *)
Definition push_back `{HK : Countable K} {A} (k : K) (v : A) (m : gmap K (list A)) : gmap K (list A) :=
  <[k := vec_at m k ++ [v]]> m.

(** [auto &vec = m\[k\]; if (std::find(vec, v) == end) vec.push_back(v);] *)
Definition push_unique (k v : N) (m : gmap N (list N)) : gmap N (list N) :=
  <[k := if decide (v ∈ vec_at m k) then vec_at m k else vec_at m k ++ [v]]> m.

(** [m\[k\]] on a map of [std::set]. *)
Definition set_at (m : gmap N (gset N)) (k : N) : gset N := default ∅ (m !! k).

(** [m\[k\].insert(v)]; the insertion is new iff [v] was absent. *)
Definition set_insert (k v : N) (m : gmap N (gset N)) : gmap N (gset N) :=
  <[k := {[v]} ∪ set_at m k]> m.

(** Iteration over a [std::set<uint32_t>] is in increasing order. *)
Definition set_order (s : gset N) : list N := merge_sort N.le (elements s).

Lemma elem_of_set_order s x : x ∈ set_order s <-> x ∈ s.
Proof. unfold set_order. by rewrite merge_sort_Permutation, elem_of_elements. Qed.

Lemma NoDup_set_order s : NoDup (set_order s).
Proof. unfold set_order. rewrite merge_sort_Permutation. apply NoDup_elements. Qed.

Lemma vec_at_insert `{HK : Countable K} {A} (m : gmap K (list A)) k k' l :
  vec_at (<[k := l]> m) k' = if decide (k = k') then l else vec_at m k'.
Proof. unfold vec_at. rewrite lookup_insert. by case_decide. Qed.

Lemma vec_at_push_back `{HK : Countable K} {A} (m : gmap K (list A)) k k' v :
  vec_at (push_back k v m) k' = vec_at m k' ++ (if decide (k = k') then [v] else []).
Proof.
  unfold push_back. rewrite vec_at_insert.
  case_decide; subst; [done|by rewrite app_nil_r].
Qed.

Lemma elem_of_push_back `{HK : Countable K} {A} (m : gmap K (list A)) k k' (v x : A) :
  x ∈ vec_at (push_back k v m) k' <-> x ∈ vec_at m k' \/ (k = k' /\ x = v).
Proof.
  rewrite vec_at_push_back, elem_of_app.
  case_decide; rewrite ?list_elem_of_singleton, ?elem_of_nil; naive_solver.
Qed.

Lemma elem_of_push_unique (m : gmap N (list N)) k k' v x :
  x ∈ vec_at (push_unique k v m) k' <-> x ∈ vec_at m k' \/ (k = k' /\ x = v).
Proof.
  unfold push_unique. rewrite vec_at_insert. repeat case_decide; subst;
    rewrite ?elem_of_app, ?list_elem_of_singleton; naive_solver.
Qed.

Lemma NoDup_push_unique (m : gmap N (list N)) k k' v :
  NoDup (vec_at m k') -> NoDup (vec_at (push_unique k v m) k').
Proof.
  unfold push_unique. rewrite vec_at_insert. intros H.
  repeat case_decide; subst; auto.
  apply NoDup_app. repeat split; auto using NoDup_singleton.
  intros x Hx ->%list_elem_of_singleton. done.
Qed.

Lemma elem_of_set_insert (m : gmap N (gset N)) k k' v x :
  x ∈ set_at (set_insert k v m) k' <-> x ∈ set_at m k' \/ (k = k' /\ x = v).
Proof.
  unfold set_insert, set_at. rewrite lookup_insert. case_decide; subst; simpl; set_solver.
Qed.

Lemma elem_of_rev {A} (x : A) l : x ∈ rev l <-> x ∈ l.
Proof. rewrite !list_elem_of_In. symmetry. apply in_rev. Qed.

(** Evaluate a decidable closed goal. *)
Ltac by_computation :=
  match goal with
  | |- ?P => refine (bool_decide_unpack P _); vm_compute; exact I
  end.

(** * Lists *)

Lemma StronglySorted_filter {A} (R : relation A) (P : A -> Prop) `{!forall x, Decision (P x)}
    (l : list A) : StronglySorted R l -> StronglySorted R (filter P l).
Proof.
  induction l as [|x l IH]; [done|]. rewrite StronglySorted_cons. intros [Hx Hl].
  rewrite filter_cons. case_decide; [|by apply IH]. apply StronglySorted_cons.
  split; [|by apply IH]. apply Forall_forall. intros y [_ Hy]%list_elem_of_filter.
  by eapply Forall_forall in Hx.
Qed.

(** What is distinct in a list is distinct in a part of it. *)
Lemma NoDup_fmap_filter_sub {A B} (f : A -> B) (P : A -> Prop) `{!forall x, Decision (P x)} (l : list A) :
  NoDup (f <$> l) -> NoDup (f <$> filter P l).
Proof.
  induction l as [|a l IH]; [done|]. intros [Ha Hl]%NoDup_cons. rewrite filter_cons. case_decide; [|by apply IH].
  apply NoDup_cons. split; [|by apply IH]. intros (x & E & [_ Hx]%list_elem_of_filter)%list_elem_of_fmap. apply Ha. rewrite E. by apply list_elem_of_fmap_2.
Qed.

Lemma filter_id {A} (P : A -> Prop) `{!forall x, Decision (P x)} (l : list A) :
  (forall x, x ∈ l -> P x) -> filter P l = l.
Proof.
  induction l as [|x l IH]; intros H'; [done|]. rewrite filter_cons_True by (apply H'; left).
  f_equal. apply IH. intros y Hy. apply H'. by right.
Qed.

Lemma filter_ext_in {A} (P Q : A -> Prop) `{!forall x, Decision (P x)} `{!forall x, Decision (Q x)}
    (l : list A) : (forall x, x ∈ l -> P x <-> Q x) -> filter P l = filter Q l.
Proof.
  induction l as [|x l IH]; intros Hpq; [done|]. rewrite !filter_cons, IH; [|intros; apply Hpq; by right].
  assert (P x <-> Q x) by (apply Hpq; left). do 2 case_decide; tauto.
Qed.

Lemma omap_cons_eq {A B} (f : A -> option B) x (l : list A) :
  omap f (x :: l) = match f x with Some y => y :: omap f l | None => omap f l end.
Proof. done. Qed.

Lemma omap_ext_in {A B} (f g : A -> option B) (l : list A) :
  (forall x, x ∈ l -> f x = g x) -> omap f l = omap g l.
Proof.
  intros H. apply list_omap_ext. induction l as [|x l IH]; constructor.
  - apply H. left.
  - apply IH. intros y Hy. apply H. by right.
Qed.

Lemma seq_sorted k n : StronglySorted lt (seq k n).
Proof.
  revert k. induction n as [|n IH]; intros k; simpl; constructor; [apply IH|].
  apply Forall_forall. intros i Hi%elem_of_seq. lia.
Qed.

Lemma sorted_lt_NoDup (l : list nat) : StronglySorted lt l -> NoDup l.
Proof.
  induction 1 as [|a l Hs IH Ha]; constructor; [|done].
  intros Hin. eapply Forall_forall in Ha; [|done]. lia.
Qed.

Lemma sorted_lt_ext (l k : list nat) :
  StronglySorted lt l -> StronglySorted lt k -> (forall x, x ∈ l <-> x ∈ k) -> l = k.
Proof.
  intros Hl Hk H. apply (StronglySorted_unique_strong lt); [|done|done|].
  - intros x y _ _ ??. lia.
  - by apply NoDup_Permutation; [apply sorted_lt_NoDup|apply sorted_lt_NoDup|].
Qed.
