(* ===== verification/Registrations.v ===== *)
(** Registrations of table positions by translation units: the call graph and the channel
    index keep, per unit, the vector of the positions it registered, one entry per
    registration.  [occ] counts a position in one vector and [regs] over all units.

    Tables whose entries are found through vectors of positions: the program keeps its
    records in a deque, marks removed ones, and lists the positions of the records with a
    given key in a map.  [listed] says that the vectors of such a map hold exactly the
    positions of the records they should, in table order; the lemmas say how the
    operations on tables keep it.  [new_pos] is where a kept record moves when a table is
    compacted. *)

From S2P Require Import Prelude.

(** Occurrences of a position in a vector, and over all units. *)
Definition occ (i : nat) (l : list nat) : nat := length (filter (fun j => j = i) l).

Definition regs `{HK : Countable K} (m : gmap K (list nat)) (i : nat) : nat :=
  map_fold (fun _ l n => occ i l + n) 0 m.

Lemma vec_at_elem_Some `{HK : Countable K} {A} (m : gmap K (list A)) k x : x ∈ vec_at m k -> is_Some (m !! k).
Proof. unfold vec_at. destruct (m !! k); [by eexists|]. by intros ?%not_elem_of_nil. Qed.

Lemma vec_at_delete `{HK : Countable K} {A} (m : gmap K (list A)) k k' :
  vec_at (delete k m) k' = if decide (k = k') then [] else vec_at m k'.
Proof. unfold vec_at. rewrite lookup_delete. by case_decide. Qed.

Lemma occ_app i l k : occ i (l ++ k) = occ i l + occ i k.
Proof. unfold occ. by rewrite filter_app, length_app. Qed.

Lemma occ_nil i : occ i [] = 0.
Proof. done. Qed.

Lemma occ_cons i j l : occ i (j :: l) = (if decide (j = i) then 1 else 0) + occ i l.
Proof. unfold occ. rewrite filter_cons. by case_decide. Qed.

Lemma occ_pos i l : 0 < occ i l <-> i ∈ l.
Proof.
  induction l as [|j l IH].
  - rewrite occ_nil. split; [lia|]. by intros ?%not_elem_of_nil.
  - rewrite occ_cons, elem_of_cons. case_decide; [subst; split; [by left|lia]|].
    rewrite <- IH. naive_solver lia.
Qed.

Lemma occ_replicate i j n : occ i (replicate n j) = if decide (j = i) then n else 0.
Proof. induction n as [|n IH]; [by case_decide|]. cbn [replicate]. rewrite occ_cons, IH. case_decide; lia. Qed.

Lemma regs_fold_insert i `{HK : Countable K} (m : gmap K (list nat)) k l :
  m !! k = None -> regs (<[k := l]> m) i = occ i l + regs m i.
Proof.
  intros Hk. unfold regs. rewrite map_fold_insert_L; [done| |done].
  intros. lia.
Qed.

Lemma regs_delete i `{HK : Countable K} (m : gmap K (list nat)) k :
  regs m i = regs (delete k m) i + occ i (vec_at m k).
Proof.
  unfold vec_at. destruct (m !! k) as [l|] eqn:Hk; simpl.
  - rewrite <- (insert_delete_id m k l) at 1 by done.
    rewrite regs_fold_insert by apply lookup_delete_eq. lia.
  - rewrite delete_id by done. unfold occ. simpl. lia.
Qed.

Lemma regs_insert i `{HK : Countable K} (m : gmap K (list nat)) k l :
  regs (<[k := l]> m) i + occ i (vec_at m k) = regs m i + occ i l.
Proof.
  rewrite <- insert_delete_eq, regs_fold_insert by apply lookup_delete_eq.
  rewrite (regs_delete i m k). lia.
Qed.

Lemma regs_push_back `{HK : Countable K} i (m : gmap K (list nat)) k j :
  regs (push_back k j m) i = regs m i + (if decide (j = i) then 1 else 0).
Proof.
  unfold push_back. pose proof (regs_insert i m k (vec_at m k ++ [j])) as H.
  rewrite occ_app, occ_cons, occ_nil in H. lia.
Qed.

Lemma regs_pos `{HK : Countable K} (m : gmap K (list nat)) i : 0 < regs m i <-> exists tu, i ∈ vec_at m tu.
Proof.
  split.
  - unfold regs. induction m as [|tu l m Hm Hf IH] using map_first_key_ind.
    { rewrite map_fold_empty. lia. }
    rewrite map_fold_insert_L by (done || intros; lia). intros H.
    destruct (decide (i ∈ l)) as [Hin|Hin].
    + exists tu. by rewrite vec_at_insert, decide_True.
    + assert (occ i l = 0) by (rewrite <- occ_pos in Hin; lia).
      destruct IH as [tu' Htu']; [lia|]. exists tu'. rewrite vec_at_insert, decide_False; [done|].
      intros ->. unfold vec_at in Htu'. rewrite Hm in Htu'. by apply not_elem_of_nil in Htu'.
  - intros [tu H%occ_pos]. rewrite (regs_delete i m tu). lia.
Qed.

Lemma regs_ext `{HK : Countable K} (m m' : gmap K (list nat)) i : (forall tu, vec_at m tu = vec_at m' tu) -> regs m i = regs m' i.
Proof.
  revert m'. induction m as [|k l m Hm Hf IH] using map_first_key_ind; intros m' H.
  - unfold regs at 1. rewrite map_fold_empty. destruct (decide (0 < regs m' i)) as [Hp|]; [|lia].
    apply regs_pos in Hp as [tu Hin]. rewrite <- H in Hin. unfold vec_at in Hin.
    rewrite lookup_empty in Hin. by apply not_elem_of_nil in Hin.
  - rewrite (regs_delete i _ k), (regs_delete i m' k), H. f_equal.
    rewrite delete_insert_id by done. apply IH. intros tu. rewrite vec_at_delete, <- H, vec_at_insert.
    case_decide; [subst|done]. unfold vec_at. by rewrite Hm.
Qed.

Lemma regs_fmap `{HK : Countable K} (f : nat -> option nat) (m : gmap K (list nat)) i j :
  (forall x, f x = Some j <-> x = i) -> regs (fmap (M := gmap K) (omap (M := list) f) m) j = regs m i.
Proof.
  intros Hf. assert (Hocc : forall l, occ j (omap f l) = occ i l).
  { induction l as [|x l IH]; [done|]. rewrite (occ_cons i).
    rewrite omap_cons_eq.
    destruct (f x) as [y|] eqn:E; simpl; rewrite ?occ_cons, IH; f_equal; specialize (Hf x);
      rewrite E in Hf; repeat case_decide; naive_solver. }
  induction m as [|k l m Hm Hk IH] using map_first_key_ind; [by rewrite fmap_empty|].
  rewrite fmap_insert, (regs_delete j _ k), (regs_delete i (<[k:=l]> m) k).
  rewrite !vec_at_insert, !decide_True, Hocc by done.
  rewrite !delete_insert_id by (rewrite ?lookup_fmap, ?Hm; done). by rewrite IH.
Qed.

(** * Registrations turned round: the units that registered a position *)

(** How often an element occurs in a list. *)
Definition times {A} {HA : EqDecision A} (x : A) (l : list A) : nat := length (filter (fun y => y = x) l).

Section Times.
Context {A : Type} {HA : EqDecision A}.

Lemma times_app (x : A) l k : times x (l ++ k) = times x l + times x k.
Proof. unfold times. by rewrite filter_app, length_app. Qed.

Lemma times_cons (x y : A) l : times x (y :: l) = (if decide (y = x) then 1 else 0) + times x l.
Proof. unfold times. rewrite filter_cons. by case_decide. Qed.

Lemma times_replicate (x y : A) n : times x (replicate n y) = if decide (y = x) then n else 0.
Proof. induction n as [|n IH]; [by case_decide|]. cbn [replicate]. rewrite times_cons, IH. case_decide; lia. Qed.

Lemma times_pos (x : A) l : 0 < times x l <-> x ∈ l.
Proof.
  induction l as [|y l IH]; [unfold times; cbn; rewrite elem_of_nil; split; [lia|done]|].
  rewrite times_cons, elem_of_cons, <- IH. case_decide; split; intros; [by left|lia|right; lia|naive_solver lia].
Qed.

#[global] Instance times_proper (x : A) : Proper ((≡ₚ) ==> (=)) (times x).
Proof. intros l k H. unfold times. by rewrite H. Qed.
End Times.

Section Inversion.
Context {K : Type} {EK : EqDecision K} {HK : Countable K}.

(** The unit of each registration of a position. *)
Definition registrations (m : gmap K (list nat)) (i : nat) : list K :=
  map_to_list m ≫= fun p => replicate (occ i p.2) p.1.

Lemma registrations_times m i tu : times tu (registrations m i) = occ i (vec_at m tu).
Proof.
  unfold registrations. induction m as [|k l m Hm Hk IH] using map_first_key_ind; [by rewrite map_to_list_empty|].
  rewrite (map_to_list_insert m k l Hm), bind_cons, times_app, times_replicate, IH. cbn [fst snd]. rewrite vec_at_insert.
  case_decide as E; [|done]. subst tu. unfold vec_at. rewrite Hm. cbn. lia.
Qed.

Lemma registrations_length m i : length (registrations m i) = regs m i.
Proof.
  unfold registrations, regs. rewrite map_fold_foldr. induction (map_to_list m) as [|[k l] es IH]; [done|].
  by rewrite bind_cons, length_app, length_replicate, IH.
Qed.

Lemma elem_of_registrations m i tu : tu ∈ registrations m i -> is_Some (m !! tu).
Proof.
  unfold registrations. rewrite list_elem_of_bind.
  intros ([k l] & [-> _]%elem_of_replicate & Hin%elem_of_map_to_list). by exists l.
Qed.

(** The map a saver builds: position -> units, for the positions it keeps, from the
    entries of the map unit -> positions in the order they are visited. *)
Definition add_unit (keep : nat -> bool) (tu : K) (m : gmap nat (list K)) (idx : nat) : gmap nat (list K) :=
  if keep idx then push_back idx tu m else m.

Definition units_at (keep : nat -> bool) (entries : list (K * list nat)) : gmap nat (list K) :=
  foldl (fun m '(tu, idxs) => foldl (add_unit keep tu) m idxs) ∅ entries.

Lemma add_units_at keep tu idxs m i :
  keep i = true -> vec_at (foldl (add_unit keep tu) m idxs) i = vec_at m i ++ replicate (occ i idxs) tu.
Proof.
  intros Hi. revert m. induction idxs as [|j idxs IH]; intros m; [by rewrite app_nil_r|]. cbn [foldl].
  rewrite IH, occ_cons. unfold add_unit. destruct (decide (j = i)) as [->|Hne].
  - rewrite Hi, vec_at_push_back, decide_True by done. by rewrite <- (assoc_L (++)).
  - destruct (keep j); [|done]. rewrite vec_at_push_back, decide_False by done. by rewrite app_nil_r.
Qed.

Lemma units_at_perm keep entries m i :
  keep i = true -> entries ≡ₚ map_to_list m -> vec_at (units_at keep entries) i ≡ₚ registrations m i.
Proof.
  intros Hi Hp. unfold registrations. rewrite <- Hp. unfold units_at.
  assert (H : forall es acc, vec_at (foldl (fun m '(tu, idxs) => foldl (add_unit keep tu) m idxs) acc es) i =
    vec_at acc i ++ (es ≫= fun p => replicate (occ i p.2) p.1)).
  { induction es as [|[tu idxs] es IH]; intros acc; [by rewrite app_nil_r|]. cbn [foldl].
    rewrite IH, add_units_at, bind_cons by done. by rewrite (assoc_L (++)). }
  rewrite H. unfold vec_at. by rewrite lookup_empty.
Qed.
End Inversion.

(** One position pushed for each unit of a list, as a loader does. *)
Section Pushes.
Context {K : Type} {EK : EqDecision K} {HK : Countable K} (idx : nat).

Definition push_units (m : gmap K (list nat)) (tus : list K) : gmap K (list nat) :=
  foldl (fun m tu => push_back tu idx m) m tus.

Lemma push_units_at m tus u : vec_at (push_units m tus) u = vec_at m u ++ replicate (times u tus) idx.
Proof.
  revert m. induction tus as [|tu tus IH]; intros m; cbn [push_units foldl]; [by rewrite app_nil_r|].
  unfold push_units in IH. rewrite IH, vec_at_push_back, times_cons, <- (assoc_L (++)). by case_decide.
Qed.

Lemma push_units_regs m tus j : regs (push_units m tus) j = regs m j + (if decide (j = idx) then length tus else 0).
Proof.
  revert m. induction tus as [|tu tus IH]; intros m; cbn [push_units foldl length]; [case_decide; lia|].
  unfold push_units in IH. rewrite IH, regs_push_back. repeat case_decide; subst; try done; lia.
Qed.

Lemma push_units_named m tus u : is_Some (push_units m tus !! u) -> is_Some (m !! u) \/ u ∈ tus.
Proof.
  revert m. induction tus as [|tu tus IH]; intros m; cbn [push_units foldl]; [by left|].
  intros [H|H]%IH; [|by right; right]. unfold push_back in H. rewrite lookup_insert in H.
  destruct (decide (tu = u)) as [->|]; [right; left|by left].
Qed.
End Pushes.

(** * Compaction *)

(** The position a kept entry moves to. *)
Definition new_pos {E} (P : E -> Prop) `{HP : !forall e, Decision (P e)} (l : list E) (old : nat) : nat :=
  length (filter P (take old l)).

Section NewPos.
Context {E : Type} {P : E -> Prop} `{HP : !forall e, Decision (P e)}.
Implicit Types (l : list E) (e : E).

Lemma new_pos_lookup l i e : l !! i = Some e -> P e -> filter P l !! new_pos P l i = Some e.
Proof.
  intros Hi Hl. unfold new_pos. pose proof (take_drop_middle l i e Hi) as H.
  apply (f_equal (filter P)) in H. rewrite filter_app, filter_cons_True in H by done.
  rewrite <- H, lookup_app_r, Nat.sub_diag by lia. done.
Qed.

Lemma new_pos_surj l j e : filter P l !! j = Some e -> exists i, l !! i = Some e /\ P e /\ new_pos P l i = j.
Proof.
  revert j. induction l as [|x l IH]; intros j; [done|]. rewrite filter_cons.
  destruct (decide (P x)) as [Hx|Hx].
  - destruct j as [|j]; simpl.
    + intros [= ->]. by exists 0.
    + intros (i & Hi & Hs & <-)%IH. exists (S i). split; [done|]. split; [done|].
      unfold new_pos. simpl. by rewrite filter_cons_True.
  - intros (i & Hi & Hs & <-)%IH. exists (S i). split; [done|]. split; [done|].
    unfold new_pos. simpl. by rewrite filter_cons_False.
Qed.

Lemma new_pos_lt l i j e : l !! i = Some e -> P e -> i < j -> new_pos P l i < new_pos P l j.
Proof.
  intros Hi Hl Hj. unfold new_pos. pose proof (take_drop_middle (take j l) i e) as H.
  rewrite lookup_take_lt, take_take, Nat.min_l in H by lia. rewrite <- H by done.
  rewrite filter_app, length_app, filter_cons_True by done. simpl. lia.
Qed.

Lemma new_pos_inj l i j a b :
  l !! i = Some a -> P a -> l !! j = Some b -> P b -> new_pos P l i = new_pos P l j -> i = j.
Proof.
  intros Hi Ha Hj Hb H. destruct (Nat.lt_trichotomy i j) as [Hlt|[?|Hlt]]; [|done|].
  - pose proof (new_pos_lt l i j a Hi Ha Hlt). lia.
  - pose proof (new_pos_lt l j i b Hj Hb Hlt). lia.
Qed.

Lemma new_pos_app l tail i : i <= length l -> new_pos P (l ++ tail) i = new_pos P l i.
Proof. intros H. unfold new_pos. by rewrite take_app_le. Qed.
End NewPos.

(** * Position vectors *)

(** The entry at a position satisfies a predicate. *)
Definition holds_at {E} (Q : E -> Prop) (l : list E) (i : nat) : Prop :=
  match l !! i with Some e => Q e | None => False end.

#[global] Instance holds_at_dec {E} (Q : E -> Prop) `{HQ : !forall e, Decision (Q e)} l i : Decision (holds_at Q l i).
Proof. unfold holds_at. destruct (l !! i); apply _. Defined.

Section Listed.
Context {E : Type} `{HK : Countable K} (sel : K -> E -> Prop) `{HS : !forall k e, Decision (sel k e)}.
Implicit Types (l : list E) (m : gmap K (list nat)) (e : E) (k : K) (i : nat).

(** The vector of [k] lists the positions of the entries selected under [k]. *)
Definition listed l m : Prop :=
  forall k, StronglySorted lt (vec_at m k) /\
    forall i, i ∈ vec_at m k <-> exists e, l !! i = Some e /\ sel k e.

Lemma listed_empty : listed [] ∅.
Proof.
  intros k. unfold vec_at. rewrite lookup_empty. cbn. split; [constructor|]. intros i. rewrite elem_of_nil.
  split; [done|]. by intros (e & ? & _).
Qed.

Lemma omap_positions (Q : E -> Prop) `{HQ : !forall e, Decision (Q e)} l :
  omap (fun i => l !! i) (filter (holds_at Q l) (seq 0 (length l))) = filter Q l.
Proof.
  induction l as [|x l IH] using rev_ind; [done|].
  rewrite length_app, seq_app, filter_app, omap_app, filter_app, <- IH. f_equal.
  - rewrite (filter_ext_in _ (holds_at Q l)).
    + apply omap_ext_in. intros i [_ Hi%elem_of_seq]%list_elem_of_filter. by rewrite lookup_app_l by lia.
    + intros i Hi%elem_of_seq. unfold holds_at. by rewrite lookup_app_l by lia.
  - cbn [seq length]. rewrite !filter_cons, !filter_nil. cbn [Nat.add].
    assert (Hx : (l ++ [x]) !! length l = Some x) by (by rewrite lookup_app_r, Nat.sub_diag by lia).
    destruct (decide (holds_at Q (l ++ [x]) (length l))) as [Hq|Hq]; unfold holds_at in Hq; rewrite Hx in Hq;
      [rewrite decide_True by done; rewrite omap_cons_eq, Hx|rewrite decide_False by done]; done.
Qed.

(** Read through the table, the vector is a filter of the table. *)
Lemma listed_view l m k : listed l m -> omap (fun i => l !! i) (vec_at m k) = filter (sel k) l.
Proof.
  intros Hm. destruct (Hm k) as [Hs Hc]. rewrite <- omap_positions. f_equal. apply sorted_lt_ext; [done| |].
  - apply StronglySorted_filter, seq_sorted.
  - intros i. rewrite Hc, list_elem_of_filter, elem_of_seq. split.
    + intros (e & Hi & He). unfold holds_at. rewrite Hi. split; [done|]. apply lookup_lt_Some in Hi. lia.
    + unfold holds_at. destruct (l !! i) as [e|]; [|tauto]. intros [He _]. by exists e.
Qed.

(** Replacing an entry by one with the same keys. *)
Lemma listed_update l m i e e' :
  l !! i = Some e -> (forall k, sel k e' <-> sel k e) -> listed l m -> listed (<[i := e']> l) m.
Proof.
  intros Hi He Hm k. destruct (Hm k) as [Hs Hc]. split; [done|]. intros j. rewrite Hc.
  destruct (decide (i = j)) as [<-|Hne]; [|by rewrite list_lookup_insert_ne].
  rewrite list_lookup_insert_eq by (by eapply lookup_lt_Some). rewrite Hi. naive_solver.
Qed.

Lemma listed_skip l m e : (forall k, ~ sel k e) -> listed l m -> listed (l ++ [e]) m.
Proof.
  intros He Hm k. destruct (Hm k) as [Hs Hc]. split; [done|]. intros j. rewrite Hc. split; intros (x & Hx & Hk).
  - exists x. split; [by apply lookup_app_l_Some|done].
  - apply lookup_app_Some in Hx as [Hx|[_ Hx]]; [by exists x|]. apply list_lookup_singleton_Some in Hx as [_ <-]. by destruct (He k).
Qed.

Lemma listed_push l m k0 e : (forall k, sel k e <-> k = k0) -> listed l m -> listed (l ++ [e]) (push_back k0 (length l) m).
Proof.
  intros He Hm k. destruct (Hm k) as [Hs Hc]. split.
  - rewrite vec_at_push_back. case_decide; [subst k|by rewrite app_nil_r].
    apply StronglySorted_app_2; [|done|repeat constructor].
    intros i j (x & Hx & _)%Hc ->%list_elem_of_singleton. by apply lookup_lt_Some in Hx.
  - intros i. rewrite elem_of_push_back, Hc. split.
    + intros [(x & Hx & ?)|[<- ->]].
      * exists x. split; [|done]. by apply lookup_app_l_Some.
      * exists e. rewrite lookup_app_r, Nat.sub_diag by done. by rewrite He.
    + intros (x & [Hx|[Hge Hx]]%lookup_app_Some & Hk); [left; by exists x|].
      apply list_lookup_singleton_Some in Hx as [? <-]. apply He in Hk as ->. right. split; [done|lia].
Qed.

(** Removing entries: the positions of [dead] leave every vector that held one. *)
Lemma listed_scrub l l' m m' (dead : gset nat) :
  (forall k, vec_at m' k = filter (fun i => i ∉ dead) (vec_at m k)) ->
  (forall i k, (exists e, l' !! i = Some e /\ sel k e) <-> (exists e, l !! i = Some e /\ sel k e) /\ (i ∉ dead)) ->
  listed l m -> listed l' m'.
Proof.
  intros Hv Hl Hm k. destruct (Hm k) as [Hs Hc]. rewrite Hv. split; [by apply StronglySorted_filter|].
  intros i. rewrite list_elem_of_filter, Hl, Hc. tauto.
Qed.

(** Compacting the table. *)
Lemma listed_compact (P : E -> Prop) `{HP : !forall e, Decision (P e)} l m m' :
  (forall k e, sel k e -> P e) ->
  (forall k, vec_at m' k = new_pos P l <$> vec_at m k) -> listed l m -> listed (filter P l) m'.
Proof.
  intros Hsel Hv Hm k. destruct (Hm k) as [Hs Hc]. rewrite Hv. split.
  - assert (Hin : forall i, i ∈ vec_at m k -> exists e, l !! i = Some e /\ P e) by (intros i (e & ? & ?)%Hc; eauto).
    clear Hv Hc. induction Hs as [|i v Hs IH Hi]; [constructor|]. rewrite fmap_cons. apply StronglySorted_cons. split.
    + apply Forall_forall. intros j (i' & -> & Hi')%list_elem_of_fmap. destruct (Hin i ltac:(left)) as (e & He & HPe).
      eapply new_pos_lt; [done|done|]. by eapply Forall_forall in Hi.
    + apply IH. intros i' Hi'. apply Hin. by right.
  - intros j. rewrite list_elem_of_fmap. split.
    + intros (i & -> & (e & He & Hk)%Hc). exists e. split; [|done]. apply new_pos_lookup; eauto.
    + intros (e & (i & Hi & HPe & <-)%new_pos_surj & Hk). exists i. split; [done|]. apply Hc. eauto.
Qed.
End Listed.

(** * Records written of the kept entries *)

(** A pass over a table that writes a record of every entry with [P], which may depend on
    the entry's position. *)
Section Written.
Context {E R : Type} (P : E -> Prop) `{HP : !forall e, Decision (P e)} (f : nat -> E -> option R) (mk : nat -> E -> R).
Hypothesis f_kept : forall i e, P e -> f i e = Some (mk i e).
Hypothesis f_dropped : forall i e, ~ P e -> f i e = None.

Definition written (l : list E) : list R := omap (fun p => f p.1 p.2) (zip (seq 0 (length l)) l).

Lemma written_from k l :
  let out := omap (fun p => f p.1 p.2) (zip (seq k (length l)) l) in
  length out = length (filter P l) /\
  forall i e, l !! i = Some e -> P e -> out !! new_pos P l i = Some (mk (k + i) e).
Proof.
  revert k. induction l as [|e0 l IH]; intros k; [done|]. cbn [length seq zip_with].
  rewrite omap_cons_eq. cbn [fst snd]. destruct (IH (S k)) as [H1 H2]. destruct (decide (P e0)) as [H0|H0].
  - rewrite f_kept, filter_cons_True by done. split; [cbn; by rewrite H1|]. intros [|i] e Hi He.
    + injection Hi as ->. rewrite Nat.add_0_r. done.
    + unfold new_pos. rewrite firstn_cons, filter_cons_True by done. cbn [length]. cbn.
      replace (k + S i) with (S k + i) by lia. by apply H2.
  - rewrite f_dropped, filter_cons_False by done. split; [done|]. intros [|i] e Hi He; [by injection Hi as ->|].
    unfold new_pos. rewrite firstn_cons, filter_cons_False by done. replace (k + S i) with (S k + i) by lia. by apply H2.
Qed.

Lemma length_written l : length (written l) = length (filter P l).
Proof. apply (written_from 0 l). Qed.

Lemma written_at l i e : l !! i = Some e -> P e -> written l !! new_pos P l i = Some (mk i e).
Proof. apply (written_from 0 l). Qed.

Lemma written_lookup l j r :
  written l !! j = Some r -> exists i e, l !! i = Some e /\ P e /\ new_pos P l i = j /\ r = mk i e.
Proof.
  intros Hj. destruct (lookup_lt_is_Some_2 (filter P l) j) as [e He].
  { rewrite <- length_written. by eapply lookup_lt_Some. }
  destruct (new_pos_surj _ _ _ He) as (i & Hi & Hp & <-). exists i, e. split_and!; try done.
  rewrite (written_at l i e Hi Hp) in Hj. by injection Hj.
Qed.

Lemma written_entries (proj : R -> E) l : (forall i e, proj (mk i e) = e) -> proj <$> written l = filter P l.
Proof.
  intros Hproj. apply list_eq. intros j. rewrite list_lookup_fmap.
  destruct (written l !! j) as [r|] eqn:Ej; cbn.
  - destruct (written_lookup l j r Ej) as (i & e & Hi & He & <- & ->). rewrite Hproj. symmetry. by apply new_pos_lookup.
  - symmetry. apply lookup_ge_None. rewrite <- length_written. by apply lookup_ge_None.
Qed.
End Written.
