(* ===== verification/Utf8.v ===== *)
(** Index text: the escape of include/vycor/callgraph/Utf8.h.

    Every string of the indexes is valid UTF-8; [toIndexText] makes it so and
    [fromIndexText] undoes it.  A position [i] of a [StringRef s] is modelled by
    the suffix of [s] that starts there, so [s\[i + k\]] is the [k]-th byte of
    the suffix and [s.size() - i] its length.  The loops advance by 1 to 4 bytes
    and run on fuel; the length of the string is always enough. *)

From S2P Require Import Prelude.
From Stdlib Require Strings.Byte.
From Stdlib Require Import ZifyBool.

Local Open Scope N_scope.

(** * The code *)

(** [static_cast<unsigned char>(s\[i + k\])], as a number.  The code reads only
    positions below the length; past the end the model reads 0. *)
Definition at_ (t : bytes) (k : nat) : N :=
  match t !! k with Some b => Byte.to_N b | None => 0 end.

(** [static_cast<char>(n)]. *)
Definition to_char (n : N) : Byte.byte := default Byte.x00 (Byte.of_N (n mod 256)).

Definition kEscapeBase : N := 0x10FF00.

Definition isCont (c : N) : bool := N.land c 0xC0 =? 0x80.

Definition seqLen (t : bytes) : nat :=
  let c := at_ t 0 in
  let left := length t in
  if c <? 0x80 then 1%nat
  else if (0xC2 <=? c) && (c <=? 0xDF) then
    (if (2 <=? left)%nat && isCont (at_ t 1) then 2%nat else 0%nat)
  else if (0xE0 <=? c) && (c <=? 0xEF) then
    (if (left <? 3)%nat || negb (isCont (at_ t 1)) || negb (isCont (at_ t 2)) then 0%nat
     else if (c =? 0xE0) && (at_ t 1 <? 0xA0) then 0%nat
     else if (c =? 0xED) && (0x9F <? at_ t 1) then 0%nat
     else 3%nat)
  else if (0xF0 <=? c) && (c <=? 0xF4) then
    (if (left <? 4)%nat || negb (isCont (at_ t 1)) || negb (isCont (at_ t 2))
        || negb (isCont (at_ t 3)) then 0%nat
     else if (c =? 0xF0) && (at_ t 1 <? 0x90) then 0%nat
     else if (c =? 0xF4) && (0x8F <? at_ t 1) then 0%nat
     else 4%nat)
  else 0%nat.

Definition isEscapeCodePoint (t : bytes) : bool :=
  (at_ t 0 =? 0xF4) && (at_ t 1 =? 0x8F) && (0xBE <=? at_ t 2).

(** The bytes [appendEscape] appends for [b]. *)
Definition appendEscape (b : N) : bytes :=
  let cp := kEscapeBase + b in
  [ to_char (N.lor 0xF0 (N.shiftr cp 18));
    to_char (N.lor 0x80 (N.land (N.shiftr cp 12) 0x3F));
    to_char (N.lor 0x80 (N.land (N.shiftr cp 6) 0x3F));
    to_char (N.lor 0x80 (N.land cp 0x3F)) ].

(** The test both scans make at a position. *)
Definition mustEscape (t : bytes) (n : nat) : bool :=
  (n =? 0)%nat || ((n =? 4)%nat && isEscapeCodePoint t).

Fixpoint needsIndexEscape_loop (fuel : nat) (t : bytes) : bool :=
  match fuel, t with
  | S fuel', _ :: t' =>
      if at_ t 0 <? 0x80 then needsIndexEscape_loop fuel' t'
      else
        let n := seqLen t in
        if mustEscape t n then true
        else needsIndexEscape_loop fuel' (drop n t)
  | _, _ => false
  end.

Definition needsIndexEscape (s : bytes) : bool := needsIndexEscape_loop (length s) s.

Fixpoint toIndexText_loop (fuel : nat) (t : bytes) : bytes :=
  match fuel, t with
  | S fuel', _ :: t' =>
      let n := seqLen t in
      if mustEscape t n then appendEscape (at_ t 0) ++ toIndexText_loop fuel' t'
      else take n t ++ toIndexText_loop fuel' (drop n t)
  | _, _ => []
  end.

Definition toIndexText (s : bytes) : bytes :=
  if needsIndexEscape s then toIndexText_loop (length s) s else s.

Definition makeIndexText (s : bytes) : bytes :=
  if needsIndexEscape s then toIndexText s else s.

Fixpoint fromIndexText_loop (fuel : nat) (t : bytes) : bytes :=
  match fuel, t with
  | S fuel', _ :: _ =>
      let n := seqLen t in
      if (n =? 4)%nat && isEscapeCodePoint t then
        let cp :=
          N.lor (N.lor (N.lor (N.shiftl (N.land (at_ t 0) 0x07) 18)
                              (N.shiftl (N.land (at_ t 1) 0x3F) 12))
                       (N.shiftl (N.land (at_ t 2) 0x3F) 6))
                (N.land (at_ t 3) 0x3F) in
        to_char (cp - kEscapeBase) :: fromIndexText_loop fuel' (drop 4 t)
      else
        let len := if (n =? 0)%nat then 1%nat else n in
        take len t ++ fromIndexText_loop fuel' (drop len t)
  | _, _ => []
  end.

Definition fromIndexText (t : bytes) : bytes := fromIndexText_loop (length t) t.

(** [isValidUtf8] is [llvm::json::isUTF8], a library function: a parameter. *)
Definition lookupText (isValidUtf8 : bytes -> bool) (s : bytes) : bytes :=
  if isValidUtf8 s then s else toIndexText s.

(** * The standard

    UTF-8 as the Unicode standard defines it, independently of the scanner:
    a string is valid when it is the concatenation of the encodings of scalar
    values.  [decoded] names the scalar values of a string. *)

Definition scalar (cp : N) : Prop := cp < 0xD800 \/ (0xE000 <= cp /\ cp <= 0x10FFFF).

Definition encode (cp : N) : bytes :=
  if cp <? 0x80 then [to_char cp]
  else if cp <? 0x800 then [to_char (0xC0 + cp / 64); to_char (0x80 + cp mod 64)]
  else if cp <? 0x10000 then
    [to_char (0xE0 + cp / 4096); to_char (0x80 + (cp / 64) mod 64); to_char (0x80 + cp mod 64)]
  else
    [to_char (0xF0 + cp / 262144); to_char (0x80 + (cp / 4096) mod 64);
     to_char (0x80 + (cp / 64) mod 64); to_char (0x80 + cp mod 64)].

Definition valid_utf8 (s : bytes) : Prop :=
  exists cps, Forall scalar cps /\ s = concat (encode <$> cps).

(** * Byte arithmetic *)

Abbreviation val := Byte.to_N (only parsing).

Lemma val_lt b : val b < 256.
Proof. destruct b; reflexivity. Qed.

Lemma to_char_val b : to_char (val b) = b.
Proof. by destruct b. Qed.

Lemma val_to_char n : n < 256 -> val (to_char n) = n.
Proof.
  intros H. unfold to_char. rewrite N.mod_small by done.
  destruct (Byte.of_N n) as [b|] eqn:E; simpl.
  - by apply Byte.to_of_N.
  - pose proof (Byte.to_of_N_option_map n) as Hm. rewrite E in Hm.
    destruct (N.leb_spec n 255); [done|lia].
Qed.

Lemma isCont_val b : isCont (val b) = (128 <=? val b) && (val b <=? 191).
Proof. by destruct b. Qed.

(** What [appendEscape] appends for a byte of the upper half. *)
Lemma appendEscape_val b :
  128 <= val b ->
  appendEscape (val b) =
    [Byte.xf4; Byte.x8f; (if val b <? 192 then Byte.xbe else Byte.xbf);
     to_char (128 + val b mod 64)].
Proof. by destruct b; vm_compute. Qed.

(** * Shapes of a sequence *)

Definition cont (b : Byte.byte) : Prop := 128 <= val b <= 191.

Inductive seq_view : bytes -> nat -> Prop :=
| view_ascii b t : val b < 128 -> seq_view (b :: t) 1
| view_two b c t : 0xC2 <= val b <= 0xDF -> cont c -> seq_view (b :: c :: t) 2
| view_three b c d t :
    0xE0 <= val b <= 0xEF -> cont c -> cont d ->
    (val b = 0xE0 -> 0xA0 <= val c) -> (val b = 0xED -> val c <= 0x9F) ->
    seq_view (b :: c :: d :: t) 3
| view_four b c d e t :
    0xF0 <= val b <= 0xF4 -> cont c -> cont d -> cont e ->
    (val b = 0xF0 -> 0x90 <= val c) -> (val b = 0xF4 -> val c <= 0x8F) ->
    seq_view (b :: c :: d :: e :: t) 4.

(** Case on the conditions in the order the scanner tests them. *)
Ltac split_ifs :=
  repeat match goal with
  | |- context [if ?b then _ else _] => destruct b eqn:?; try done
  end.

Lemma seqLen_view t n : t <> [] -> seqLen t = n -> n <> 0%nat -> seq_view t n.
Proof.
  intros Ht <- Hn. destruct t as [|b t]; [done|]. clear Ht. revert Hn.
  unfold seqLen, at_. cbn [lookup list_lookup].
  destruct t as [|c [|d [|e t]]]; cbn [lookup list_lookup length];
    rewrite ?isCont_val; split_ifs; intros _; constructor; unfold cont; lia.
Qed.

Lemma view_seqLen t n : seq_view t n -> seqLen t = n.
Proof.
  destruct 1; unfold cont in *; unfold seqLen, at_;
    cbn [lookup list_lookup length]; rewrite ?isCont_val; split_ifs; lia.
Qed.

Lemma seqLen_prefix t n r :
  t <> [] -> seqLen t = n -> n <> 0%nat -> seqLen (take n t ++ r) = n.
Proof.
  intros Ht Hs Hn. apply view_seqLen.
  destruct (seqLen_view t n Ht Hs Hn); simpl; by constructor.
Qed.

Lemma seqLen_le t : t <> [] -> (seqLen t <= length t)%nat.
Proof.
  intros Ht. destruct (decide (seqLen t = 0%nat)) as [->|H]; [lia|].
  destruct (seqLen_view t _ Ht eq_refl H); simpl; lia.
Qed.

Lemma seqLen_zero_high b t : seqLen (b :: t) = 0%nat -> 128 <= val b.
Proof.
  intros H. destruct (N.ltb_spec (val b) 128) as [L|]; [|done].
  assert (seqLen (b :: t) = 1%nat) by (apply view_seqLen; by constructor). congruence.
Qed.

Lemma isEscape_prefix t r : 
  (3 <= length t)%nat -> isEscapeCodePoint (take 4 t ++ r) = isEscapeCodePoint t.
Proof. destruct t as [|b [|c [|d [|e t]]]]; simpl; try lia; intros _; reflexivity. Qed.

(** * Round trip *)

Lemma appendEscape_length b : length (appendEscape b) = 4%nat.
Proof. done. Qed.

(** One step of the decoder over an escaped byte. *)
Lemma from_escape fuel b r :
  128 <= val b ->
  fromIndexText_loop (S fuel) (appendEscape (val b) ++ r) = b :: fromIndexText_loop fuel r.
Proof. destruct b; vm_compute val; try done; intros _; reflexivity. Qed.

(** One step of the decoder over a copied sequence. *)
Lemma from_copied fuel t r :
  t <> [] -> mustEscape t (seqLen t) = false ->
  fromIndexText_loop (S fuel) (take (seqLen t) t ++ r) =
    take (seqLen t) t ++ fromIndexText_loop fuel r.
Proof.
  intros Ht. unfold mustEscape. set (n := seqLen t). intros [Hn He]%orb_false_iff.
  apply Nat.eqb_neq in Hn. pose proof (seqLen_le t Ht) as Hle. fold n in Hle.
  assert (Hlen : length (take n t) = n) by (rewrite length_take; lia).
  assert (Hs : seqLen (take n t ++ r) = n) by (by apply seqLen_prefix).
  destruct (take n t ++ r) as [|x q] eqn:Eq.
  { destruct t; [done|]. destruct n; [lia|]. done. }
  unfold fromIndexText_loop; fold fromIndexText_loop. rewrite Hs, <- Eq.
  assert (Hesc : (n =? 4)%nat && isEscapeCodePoint (take n t ++ r) = false).
  { destruct (Nat.eqb_spec n 4) as [->|]; [|done].
    rewrite isEscape_prefix by lia. done. }
  rewrite Hesc. destruct (Nat.eqb_spec n 0); [lia|].
  by rewrite take_app_length', drop_app_length' by done.
Qed.

Lemma mustEscape_high b t : mustEscape (b :: t) (seqLen (b :: t)) = true -> 128 <= val b.
Proof.
  unfold mustEscape. intros [H|[_ H]%andb_true_iff]%orb_true_iff.
  - apply Nat.eqb_eq in H. by eapply seqLen_zero_high.
  - unfold isEscapeCodePoint, at_ in H. cbn [lookup list_lookup] in H. lia.
Qed.

Lemma toIndexText_loop_cons fuel b t :
  toIndexText_loop (S fuel) (b :: t) =
    if mustEscape (b :: t) (seqLen (b :: t))
    then appendEscape (val b) ++ toIndexText_loop fuel t
    else take (seqLen (b :: t)) (b :: t) ++ toIndexText_loop fuel (drop (seqLen (b :: t)) (b :: t)).
Proof. done. Qed.

Lemma mustEscape_false_pos t n : mustEscape t n = false -> n <> 0%nat.
Proof. by destruct n. Qed.

Lemma toIndexText_loop_roundtrip fuel t fuel' :
  (length t <= fuel)%nat -> (length (toIndexText_loop fuel t) <= fuel')%nat ->
  fromIndexText_loop fuel' (toIndexText_loop fuel t) = t.
Proof.
  revert t fuel'. induction fuel as [|fuel IH]; intros [|b t] fuel' Ht Hf;
    simpl in Ht; try lia; [by destruct fuel'| by destruct fuel' |].
  rewrite toIndexText_loop_cons in Hf |- *.
  destruct (mustEscape (b :: t) (seqLen (b :: t))) eqn:Em.
  - apply mustEscape_high in Em as Hb.
    rewrite length_app, appendEscape_length in Hf. destruct fuel' as [|fuel']; [lia|].
    rewrite from_escape by done. f_equal. apply IH; lia.
  - apply mustEscape_false_pos in Em as Hn.
    pose proof (seqLen_le (b :: t) ltac:(done)) as Hle.
    rewrite length_app, length_take_le in Hf by done.
    destruct fuel' as [|fuel']; [lia|].
    rewrite from_copied by done. rewrite IH; [apply take_drop| |lia].
    rewrite length_drop. simpl in *; lia.
Qed.

(** A string the scan accepts is copied by both directions. *)
Lemma needsIndexEscape_loop_false fuel t :
  (length t <= fuel)%nat -> needsIndexEscape_loop fuel t = false ->
  toIndexText_loop fuel t = t.
Proof.
  revert t. induction fuel as [|fuel IH]; intros [|b t] Ht; simpl in Ht; try lia; try done.
  rewrite toIndexText_loop_cons. cbn [needsIndexEscape_loop].
  change (at_ (b :: t) 0) with (val b). destruct (N.ltb_spec (val b) 0x80) as [Hb|Hb].
  - assert (Hs : seqLen (b :: t) = 1%nat) by (apply view_seqLen; by constructor).
    intros Hn. rewrite Hs. simpl. f_equal. apply IH; [lia|done].
  - destruct (mustEscape (b :: t) (seqLen (b :: t))) eqn:Em; [done|]. intros Hn.
    apply mustEscape_false_pos in Em.
    rewrite IH; [apply take_drop| |done]. rewrite length_drop. simpl in *; lia.
Qed.

Lemma toIndexText_loop_eq s : toIndexText s = toIndexText_loop (length s) s.
Proof.
  unfold toIndexText. destruct (needsIndexEscape s) eqn:E; [done|].
  by rewrite needsIndexEscape_loop_false.
Qed.

Lemma makeIndexText_eq s : makeIndexText s = toIndexText s.
Proof. unfold makeIndexText, toIndexText. by destruct (needsIndexEscape s). Qed.

Lemma index_text_roundtrip s : fromIndexText (toIndexText s) = s.
Proof. rewrite toIndexText_loop_eq. by apply toIndexText_loop_roundtrip. Qed.

#[global] Instance toIndexText_inj : Inj (=) (=) toIndexText.
Proof.
  intros a b H. apply (f_equal fromIndexText) in H.
  by rewrite !index_text_roundtrip in H.
Qed.

(** * Validity *)

Lemma char_eq b n : val b = n -> b = to_char n.
Proof. intros <-. symmetry. apply to_char_val. Qed.

Ltac charsd := repeat (rewrite val_to_char by divlia).

(** A sequence the scanner accepts is the encoding of a scalar value, below the
    escape range unless the sequence is an escape. *)
Lemma view_encode t n :
  seq_view t n ->
  exists cp, scalar cp /\ take n t = encode cp /\
    (mustEscape t n = false -> cp < 0x10FF80).
Proof.
  unfold scalar, encode, cont. destruct 1 as [b t H|b c t H1 H2|b c d t H1 H2 H3 H4 H5
    |b c d e t H1 H2 H3 H4 H5 H6]; unfold cont in *; cbn [take].
  - exists (val b). rewrite to_char_val. split_ifs; try lia. split_and!; [lia|done|lia].
  - exists ((val b - 0xC0) * 64 + (val c - 0x80)). split_ifs; try lia.
    split_and!; [lia| |lia]. repeat f_equal; apply char_eq; divlia.
  - exists ((val b - 0xE0) * 4096 + (val c - 0x80) * 64 + (val d - 0x80)).
    split_ifs; try lia.
    split_and!; [lia| |lia].
    repeat f_equal; apply char_eq; divlia.
  - exists ((val b - 0xF0) * 262144 + (val c - 0x80) * 4096 + (val d - 0x80) * 64 + (val e - 0x80)).
    split_ifs; try lia.
    split_and!; [lia| |].
    + repeat f_equal; apply char_eq; divlia.
    + unfold mustEscape, isEscapeCodePoint, at_. cbn [lookup list_lookup]. lia.
Qed.

Lemma encode_view cp r : scalar cp -> seq_view (encode cp ++ r) (length (encode cp)).
Proof.
  unfold scalar, encode. intros H. split_ifs; cbn [app length]; constructor;
    unfold cont; charsd; divlia.
Qed.

Lemma escape_valid b :
  128 <= val b -> scalar (kEscapeBase + val b) /\ appendEscape (val b) = encode (kEscapeBase + val b).
Proof.
  intros H. pose proof (val_lt b). split; [right; unfold kEscapeBase; lia|].
  destruct b; vm_compute in H |- *; done.
Qed.

Lemma valid_nil : valid_utf8 [].
Proof. by exists []. Qed.

Lemma valid_cons cp s : scalar cp -> valid_utf8 s -> valid_utf8 (encode cp ++ s).
Proof.
  intros Hc (cps & Hcps & ->). exists (cp :: cps). split; [by constructor|done].
Qed.

Lemma toIndexText_loop_valid fuel t : valid_utf8 (toIndexText_loop fuel t).
Proof.
  revert t. induction fuel as [|fuel IH]; intros [|b t]; try apply valid_nil.
  rewrite toIndexText_loop_cons.
  destruct (mustEscape (b :: t) (seqLen (b :: t))) eqn:Em.
  - apply mustEscape_high in Em. destruct (escape_valid b Em) as [Hs ->].
    by apply valid_cons.
  - apply mustEscape_false_pos in Em.
    destruct (view_encode (b :: t) (seqLen (b :: t))) as (cp & Hs & -> & _).
    { by apply seqLen_view. }
    by apply valid_cons.
Qed.

Lemma toIndexText_valid s : valid_utf8 (toIndexText s).
Proof. rewrite toIndexText_loop_eq. apply toIndexText_loop_valid. Qed.

(** Text without escapes: valid UTF-8 whose scalar values stay below U+10FF80. *)
Definition plain_text (s : bytes) : Prop :=
  exists cps, Forall (fun cp => scalar cp /\ cp < 0x10FF80) cps /\ s = concat (encode <$> cps).

Lemma encode_plain cp r :
  scalar cp -> cp < 0x10FF80 -> mustEscape (encode cp ++ r) (length (encode cp)) = false.
Proof.
  unfold scalar, encode, mustEscape, isEscapeCodePoint, at_. intros Hs Hp.
  split_ifs; cbn [app length lookup list_lookup]; try done. charsd. divlia.
Qed.

Lemma encode_pos cp : (0 < length (encode cp))%nat.
Proof. unfold encode. split_ifs; simpl; lia. Qed.

Lemma plain_no_escape fuel s :
  (length s <= fuel)%nat -> plain_text s -> needsIndexEscape_loop fuel s = false.
Proof.
  intros Hl (cps & Hcps & ->). revert fuel Hl.
  induction Hcps as [|cp cps [Hs Hp] _ IH]; intros fuel Hl; [by destruct fuel|].
  cbn [fmap list_fmap concat] in Hl |- *. rewrite length_app in Hl.
  set (r := concat (encode <$> cps)) in *.
  pose proof (encode_view cp r Hs) as Hv. apply view_seqLen in Hv as Hlen.
  pose proof (encode_plain cp r Hs Hp) as Hm. pose proof (encode_pos cp) as Hpos.
  destruct (encode cp ++ r) as [|b u] eqn:Eq; [by inversion Hv|].
  destruct fuel as [|fuel]; [lia|]. cbn [needsIndexEscape_loop].
  change (at_ (b :: u) 0) with (val b).
  destruct (N.ltb_spec (val b) 0x80) as [Hb|Hb].
  - assert (H1 : seqLen (b :: u) = 1%nat) by (apply view_seqLen; by constructor).
    replace u with r; [apply IH; lia|]. rewrite Hlen in H1.
    destruct (encode cp) as [|x [|]]; simplify_eq/=; done.
  - rewrite Hlen, Hm, <- Eq, drop_app_length. apply IH. lia.
Qed.

Lemma no_escape_plain fuel s :
  (length s <= fuel)%nat -> needsIndexEscape_loop fuel s = false -> plain_text s.
Proof.
  revert s. induction fuel as [|fuel IH]; intros [|b t] Hl; simpl in Hl; try lia;
    try by (intros; exists []).
  cbn [needsIndexEscape_loop]. change (at_ (b :: t) 0) with (val b).
  destruct (N.ltb_spec (val b) 0x80) as [Hb|Hb].
  - intros Hn. destruct (IH t ltac:(lia) Hn) as (cps & Hc & ->).
    exists (val b :: cps). split.
    + constructor; [unfold scalar; lia|done].
    + cbn [fmap list_fmap concat]. unfold encode at 2.
      destruct (N.ltb_spec (val b) 0x80); [|lia]. by rewrite to_char_val.
  - destruct (mustEscape (b :: t) (seqLen (b :: t))) eqn:Em; [done|]. intros Hn.
    apply mustEscape_false_pos in Em as Hpos.
    destruct (view_encode (b :: t) (seqLen (b :: t))) as (cp & Hs & Ht & Hp);
      [by apply seqLen_view|].
    destruct (IH (drop (seqLen (b :: t)) (b :: t))) as (cps & Hc & Hd);
      [rewrite length_drop; simpl in *; lia|done|].
    exists (cp :: cps). split; [by constructor; auto|].
    cbn [fmap list_fmap concat]. by rewrite <- Ht, <- Hd, take_drop.
Qed.

Lemma needsIndexEscape_plain s : needsIndexEscape s = false <-> plain_text s.
Proof. split; [by eapply no_escape_plain|by apply plain_no_escape]. Qed.

Lemma toIndexText_loop_grows fuel t :
  (length t <= fuel)%nat -> (length t <= length (toIndexText_loop fuel t))%nat.
Proof.
  revert t. induction fuel as [|fuel IH]; intros [|b t] Hl; simpl in Hl; try lia; try done.
  rewrite toIndexText_loop_cons. destruct (mustEscape _ _) eqn:Em; rewrite length_app.
  - rewrite appendEscape_length. specialize (IH t). simpl. lia.
  - apply mustEscape_false_pos in Em.
    pose proof (seqLen_le (b :: t) ltac:(done)). rewrite length_take_le by done.
    specialize (IH (drop (seqLen (b :: t)) (b :: t))). rewrite length_drop in IH.
    simpl in *. lia.
Qed.

Lemma toIndexText_loop_fixed fuel t :
  (length t <= fuel)%nat -> toIndexText_loop fuel t = t -> plain_text t.
Proof.
  revert t. induction fuel as [|fuel IH]; intros [|b t] Hl; simpl in Hl; try lia;
    try by (exists []).
  rewrite toIndexText_loop_cons. destruct (mustEscape _ _) eqn:Em.
  - intros H%(f_equal length). rewrite length_app, appendEscape_length in H.
    pose proof (toIndexText_loop_grows fuel t). simpl in H. lia.
  - apply mustEscape_false_pos in Em as Hpos. intros H.
    rewrite <- (take_drop (seqLen (b :: t)) (b :: t)) in H at 5.
    apply app_inv_head in H.
    destruct (view_encode (b :: t) (seqLen (b :: t))) as (cp & Hs & Ht & Hp);
      [by apply seqLen_view|].
    destruct (IH (drop (seqLen (b :: t)) (b :: t))) as (cps & Hc & Hd);
      [rewrite length_drop; simpl in *; lia|done|].
    exists (cp :: cps). split; [by constructor; auto|].
    cbn [fmap list_fmap concat]. by rewrite <- Ht, <- Hd, take_drop.
Qed.

Lemma plain_text_fixed s : plain_text s <-> toIndexText s = s.
Proof.
  split.
  - intros H%needsIndexEscape_plain. unfold toIndexText. by rewrite H.
  - rewrite toIndexText_loop_eq. by apply toIndexText_loop_fixed.
Qed.

Lemma plain_text_valid s : plain_text s -> valid_utf8 s.
Proof.
  intros (cps & Hc & ->). exists cps. split; [|done].
  eapply Forall_impl; [done|]. by intros ? [].
Qed.

(** An executable validity test: every position starts a sequence. *)
Fixpoint valid_scan (fuel : nat) (t : bytes) : bool :=
  match fuel, t with
  | S fuel', _ :: _ =>
      let n := seqLen t in
      if (n =? 0)%nat then false else valid_scan fuel' (drop n t)
  | _, _ => true
  end.

Definition valid_utf8b (s : bytes) : bool := valid_scan (length s) s.

Lemma valid_scan_sound fuel t :
  (length t <= fuel)%nat -> valid_scan fuel t = true -> valid_utf8 t.
Proof.
  revert t. induction fuel as [|fuel IH]; intros [|b t] Hl; simpl in Hl; try lia;
    try by (intros; apply valid_nil).
  cbn [valid_scan]. destruct (Nat.eqb_spec (seqLen (b :: t)) 0) as [|Hn]; [done|].
  intros Hv. destruct (view_encode (b :: t) (seqLen (b :: t))) as (cp & Hs & Ht & _);
    [by apply seqLen_view|].
  rewrite <- (take_drop (seqLen (b :: t)) (b :: t)), Ht. apply valid_cons; [done|].
  apply IH; [rewrite length_drop; simpl in *; lia|done].
Qed.

Lemma valid_scan_complete fuel t :
  (length t <= fuel)%nat -> valid_utf8 t -> valid_scan fuel t = true.
Proof.
  intros Hl (cps & Hcps & ->). revert fuel Hl.
  induction Hcps as [|cp cps Hs _ IH]; intros fuel Hl; [by destruct fuel|].
  cbn [fmap list_fmap concat] in Hl |- *. rewrite length_app in Hl.
  set (r := concat (encode <$> cps)) in *.
  pose proof (encode_view cp r Hs) as Hv. apply view_seqLen in Hv as Hlen.
  pose proof (encode_pos cp) as Hpos.
  destruct (encode cp ++ r) as [|b u] eqn:Eq; [by inversion Hv|].
  destruct fuel as [|fuel]; [lia|]. cbn [valid_scan].
  rewrite Hlen. destruct (Nat.eqb_spec (length (encode cp)) 0); [lia|].
  rewrite <- Eq, drop_app_length. apply IH. lia.
Qed.

Lemma valid_utf8b_spec s : valid_utf8b s = true <-> valid_utf8 s.
Proof.
  split; [by apply valid_scan_sound|by apply valid_scan_complete].
Qed.

(** * Properties *)

(** The escape is exact: decoding the index text of any byte string gives the
    string back, the index text is valid UTF-8, and the strings it leaves alone
    are exactly the valid ones without a code point of the escape range. *)
Theorem index_text_exact (s : bytes) :
  fromIndexText (toIndexText s) = s /\
  valid_utf8 (toIndexText s) /\
  (toIndexText s = s <-> plain_text s).
Proof.
  split; [apply index_text_roundtrip|]. split; [apply toIndexText_valid|].
  symmetry. apply plain_text_fixed.
Qed.

Section Lookup.
(** [llvm::json::isUTF8] says whether a string is valid UTF-8. *)
Variable isValidUtf8 : bytes -> bool.
Hypothesis isValidUtf8_spec : forall s, isValidUtf8 s = true <-> valid_utf8 s.

Lemma lookupText_valid s : valid_utf8 (lookupText isValidUtf8 s).
Proof.
  unfold lookupText. destruct (isValidUtf8 s) eqn:E.
  - by apply isValidUtf8_spec.
  - apply toIndexText_valid.
Qed.

Lemma lookupText_fixed s : valid_utf8 s -> lookupText isValidUtf8 s = s.
Proof. intros H%isValidUtf8_spec. unfold lookupText. by rewrite H. Qed.

Lemma lookupText_raw s :
  plain_text s \/ ~ valid_utf8 s -> lookupText isValidUtf8 s = toIndexText s.
Proof.
  intros [H|H].
  - rewrite lookupText_fixed by (by apply plain_text_valid).
    symmetry. by apply plain_text_fixed.
  - unfold lookupText. destruct (isValidUtf8 s) eqn:E; [|done].
    by apply isValidUtf8_spec in E.
Qed.
End Lookup.

(** A lookup key is always valid UTF-8 and converting it again changes nothing;
    index text copied from an output is its own key; and a raw string finds its
    index text unless it is valid UTF-8 that holds an escape code point. *)
Theorem lookup_text_contract (isValidUtf8 : bytes -> bool)
    (Hspec : forall s, isValidUtf8 s = true <-> valid_utf8 s) (s : bytes) :
  valid_utf8 (lookupText isValidUtf8 s) /\
  lookupText isValidUtf8 (lookupText isValidUtf8 s) = lookupText isValidUtf8 s /\
  lookupText isValidUtf8 (toIndexText s) = toIndexText s /\
  (plain_text s \/ ~ valid_utf8 s -> lookupText isValidUtf8 s = toIndexText s).
Proof.
  split; [|split; [|split]].
  - by apply lookupText_valid.
  - apply lookupText_fixed; [done|]. by apply lookupText_valid.
  - apply lookupText_fixed; [done|]. apply toIndexText_valid.
  - by apply lookupText_raw.
Qed.

Lemma lookup_text_contract_witness :
  lookupText valid_utf8b [Byte.x61; Byte.xe9] = toIndexText [Byte.x61; Byte.xe9].
Proof.
  apply (lookup_text_contract valid_utf8b valid_utf8b_spec [Byte.x61; Byte.xe9]).
  right. intros H%valid_utf8b_spec. vm_compute in H. discriminate H.
Defined.
