(* ===== verification/StringInterner.v ===== *)
(** The string interner of include/vycor/callgraph/StringInterner.h.

    An id is the position of a string in [strings_], cast to [uint32_t]; the
    cast wraps, so the theorems say how many strings fit.  [intern] probes under
    a shared lock and, on a miss, probes again and appends under an exclusive
    one: [intern] is the whole call, and the step relation of the module
    [Concurrent] runs any number of callers interleaved at their lock
    boundaries. *)

From S2P Require Import Prelude.

Abbreviation Id := N.

Record StringInterner := MkInterner {
  strings_ : list bytes;
  index_ : gmap bytes Id
}.

#[global] Instance StringInterner_eq_dec : EqDecision StringInterner.
Proof. solve_decision. Defined.

Definition empty_interner : StringInterner := MkInterner [] ∅.

(** [index_.emplace(s, id)]: an entry that is there is kept. *)
Definition emplace (s : bytes) (id : Id) (m : gmap bytes Id) : gmap bytes Id :=
  match m !! s with Some _ => m | None => <[s := id]> m end.

Definition find (t : StringInterner) (s : bytes) : option Id := index_ t !! s.

(** The body of [intern] under the exclusive lock. *)
Definition intern_locked (t : StringInterner) (s : bytes) : StringInterner * Id :=
  match find t s with
  | Some id => (t, id)
  | None =>
      let id := u32 (N.of_nat (length (strings_ t))) in
      (MkInterner (strings_ t ++ [s]) (emplace s id (index_ t)), id)
  end.

Definition intern (t : StringInterner) (s : bytes) : StringInterner * Id :=
  match find t s with
  | Some id => (t, id)
  | None => intern_locked t s
  end.

(** [strings_\[id\]]; an id out of range is undefined behaviour, [None] here. *)
Definition resolve_opt (t : StringInterner) (id : Id) : option bytes :=
  strings_ t !! N.to_nat id.

Definition resolve (t : StringInterner) (id : Id) : bytes := default [] (resolve_opt t id).

Definition table_size (t : StringInterner) : nat := length (strings_ t).

(** [forEachString] visits the strings in id order. *)
Definition forEachString {A} (t : StringInterner) (fn : A -> bytes -> A) (a : A) : A :=
  foldl fn a (strings_ t).

(** The loop [for (i = 0; i < strings_.size(); ++i) index_.emplace(strings_\[i\], i)]. *)
Fixpoint rebuild_from (i : N) (l : list bytes) (m : gmap bytes Id) : gmap bytes Id :=
  match l with
  | [] => m
  | s :: l' => rebuild_from (N.succ i) l' (emplace s (u32 i) m)
  end.

Definition rebuildIndex (l : list bytes) : gmap bytes Id := rebuild_from 0 l ∅.

Definition installStrings (t : StringInterner) (l : list bytes) : bool * StringInterner :=
  match strings_ t with
  | [] => (true, MkInterner l (rebuildIndex l))
  | _ :: _ => (false, t)
  end.

(** The move constructor and assignment: the strings move, the index is rebuilt. *)
Definition move (other : StringInterner) : StringInterner :=
  MkInterner (strings_ other) (rebuildIndex (strings_ other)).

Definition payloadBytes (t : StringInterner) : nat :=
  foldl (fun total s => total + length s) 0 (strings_ t).

(** * Invariant *)

Record interner_ok (t : StringInterner) : Prop := {
  ok_index : forall s id, find t s = Some id <-> resolve_opt t id = Some s;
  ok_fits : (N.of_nat (table_size t) <= two32)%N
}.

(** At least [k] more strings fit in 32-bit ids. *)
Definition room (k : nat) (t : StringInterner) : Prop := (N.of_nat (table_size t + k) <= two32)%N.

(** [t'] keeps every id of [t]. *)
Definition extends (t t' : StringInterner) : Prop := strings_ t `prefix_of` strings_ t'.

#[global] Instance extends_preorder : PreOrder extends.
Proof.
  split; unfold extends; [intros t; done|].
  intros a b c. by etrans.
Qed.

Create HintDb interner.

Section Facts.
Implicit Types (t : StringInterner) (s : bytes) (id : Id).

Lemma resolve_of_opt t id s : resolve_opt t id = Some s -> resolve t id = s.
Proof. unfold resolve. by intros ->. Qed.

Lemma resolve_opt_lt t id s : resolve_opt t id = Some s -> (N.to_nat id < table_size t)%nat.
Proof. apply lookup_lt_Some. Qed.

Lemma resolve_opt_is_Some t id : is_Some (resolve_opt t id) <-> (N.to_nat id < table_size t)%nat.
Proof. apply lookup_lt_is_Some. Qed.

Lemma extends_resolve t t' id s :
  extends t t' -> resolve_opt t id = Some s -> resolve_opt t' id = Some s.
Proof. intros H Hr. by eapply prefix_lookup_Some. Qed.

Lemma extends_size t t' : extends t t' -> (table_size t <= table_size t')%nat.
Proof. apply prefix_length. Qed.

Lemma find_resolve t s id : interner_ok t -> find t s = Some id -> resolve_opt t id = Some s.
Proof. intros H. by apply ok_index. Qed.

Lemma resolve_find t s id : interner_ok t -> resolve_opt t id = Some s -> find t s = Some id.
Proof. intros H. by apply ok_index. Qed.

Lemma extends_find t t' s id :
  interner_ok t -> interner_ok t' -> extends t t' -> find t s = Some id -> find t' s = Some id.
Proof.
  intros Ht Ht' He Hf. apply resolve_find; [done|].
  eapply extends_resolve; [done|]. by apply find_resolve.
Qed.

Lemma resolve_opt_inj t i j s :
  interner_ok t -> resolve_opt t i = Some s -> resolve_opt t j = Some s -> i = j.
Proof.
  intros Ht Hi%resolve_find Hj%resolve_find; [|done|done]. congruence.
Qed.

Lemma interner_ok_NoDup t : interner_ok t -> NoDup (strings_ t).
Proof.
  intros Ht. apply NoDup_alt. intros i j s Hi Hj.
  assert (N.of_nat i = N.of_nat j); [|lia].
  eapply resolve_opt_inj; [done| |]; unfold resolve_opt; by rewrite Nat2N.id.
Qed.

Lemma empty_ok : interner_ok empty_interner.
Proof. by split. Qed.

(** Everything a caller needs of one [intern]. *)
Lemma intern_locked_spec t s t' id :
  intern_locked t s = (t', id) -> interner_ok t -> room 1 t ->
  interner_ok t' /\ extends t t' /\ resolve_opt t' id = Some s /\
  (table_size t' <= table_size t + 1)%nat.
Proof.
  unfold intern_locked, room, table_size. intros H Hok Hroom.
  destruct (find t s) as [i|] eqn:Hf; simplify_eq.
  { split_and!; [done|reflexivity|by apply find_resolve|lia]. }
  unfold emplace. unfold find in Hf. rewrite Hf.
  rewrite u32_small by lia. set (n := length (strings_ t)) in *.
  assert (Hres : forall i u, (strings_ t ++ [s]) !! N.to_nat i = Some u <->
            strings_ t !! N.to_nat i = Some u \/ (i = N.of_nat n /\ u = s)).
  { intros i u. rewrite lookup_app_Some, list_lookup_singleton_Some. unfold n.
    split; [intros [?|[? [? ?]]]; [by left|right; split; [lia|done]]|].
    intros [?|[-> ->]]; [by left|right; split; [lia|split; [lia|done]]]. }
  split_and!.
  - split; [|unfold table_size; simpl; rewrite length_app; simpl; lia].
    intros u i. unfold find, resolve_opt. simpl. rewrite lookup_insert, Hres.
    pose proof (ok_index t Hok u i) as Hi. unfold find, resolve_opt in Hi.
    case_decide as E; [subst u|]; [|naive_solver].
    split; [intros [= <-]; by right|]. intros [Hi'|[-> _]]; [|done].
    apply Hi in Hi'. congruence.
  - by apply prefix_app_r.
  - unfold resolve_opt. simpl. rewrite Hres. by right.
  - simpl. rewrite length_app. simpl. lia.
Qed.

Lemma intern_eq t s : intern t s = intern_locked t s.
Proof. unfold intern, intern_locked. by destruct (find t s). Qed.

Lemma intern_spec t s t' id :
  intern t s = (t', id) -> interner_ok t -> room 1 t ->
  interner_ok t' /\ extends t t' /\ resolve_opt t' id = Some s /\
  (table_size t' <= table_size t + 1)%nat.
Proof. rewrite intern_eq. apply intern_locked_spec. Qed.

Lemma room_weaken k k' t : (k' <= k)%nat -> room k t -> room k' t.
Proof. unfold room. lia. Qed.

(** ** Rebuilding the index *)

Lemma rebuild_from_lookup i l m s :
  (i + N.of_nat (length l) <= two32)%N ->
  rebuild_from i l m !! s =
    match m !! s with
    | Some id => Some id
    | None => (fun p => i + N.of_nat p.1)%N <$> list_find (s =.) l
    end.
Proof.
  revert i m. induction l as [|u l IH]; intros i m Hl; simpl in *.
  { by destruct (m !! s). }
  rewrite IH by lia. unfold emplace. rewrite u32_small by lia.
  destruct (m !! u) as [id|] eqn:Eu.
  - destruct (m !! s) as [id'|] eqn:Es; [done|].
    case_decide as E; [congruence|].
    destruct (list_find (s =.) l) as [[p x]|]; simpl; [f_equal; lia|done].
  - rewrite lookup_insert. case_decide as E.
    + subst u. rewrite Eu. case_decide; [|done]. simpl. f_equal. lia.
    + destruct (m !! s); [done|]. case_decide as E'; [congruence|].
      destruct (list_find (s =.) l) as [[p x]|]; simpl; [f_equal; lia|done].
Qed.

(** The first occurrence of a string gives its id. *)
Lemma rebuildIndex_lookup l s :
  (N.of_nat (length l) <= two32)%N ->
  rebuildIndex l !! s = (fun p => N.of_nat p.1) <$> list_find (s =.) l.
Proof.
  intros H. unfold rebuildIndex. rewrite rebuild_from_lookup by lia.
  rewrite lookup_empty. destruct (list_find _ _) as [[]|]; done.
Qed.

Lemma rebuildIndex_ok l :
  NoDup l -> (N.of_nat (length l) <= two32)%N -> interner_ok (MkInterner l (rebuildIndex l)).
Proof.
  intros Hnd Hl. split; [|done]. intros s id. unfold find, resolve_opt. simpl.
  rewrite rebuildIndex_lookup by done. rewrite fmap_Some. split.
  - intros ([p x] & (Hp & -> & _)%list_find_Some & ->). simpl. by rewrite Nat2N.id.
  - intros Hs. exists (N.to_nat id, s). split; [|simpl; by rewrite N2Nat.id].
    apply list_find_Some. split_and!; [done|done|].
    intros j y Hj Hlt <-.
    pose proof (NoDup_lookup _ _ _ _ Hnd Hs Hj). lia.
Qed.

Lemma interner_ext t t' :
  interner_ok t -> interner_ok t' -> strings_ t = strings_ t' -> t = t'.
Proof.
  intros Ht Ht' E. destruct t as [l m], t' as [l' m']. simpl in E. subst l'. f_equal.
  apply map_eq. intros s. apply option_eq. intros id.
  pose proof (ok_index _ Ht s id) as H1. pose proof (ok_index _ Ht' s id) as H2.
  unfold find, resolve_opt in *. simpl in *. by rewrite H1, H2.
Qed.
End Facts.

#[export] Hint Resolve find_resolve resolve_find extends_resolve extends_find : interner.

(** * Concurrent callers

    Each caller of [intern] is in one of three places: before the shared-lock
    probe, between a missed probe and the exclusive lock, or finished. *)
Module Concurrent.

Inductive caller :=
| Probing (s : bytes)
| Waiting (s : bytes)
| Finished (s : bytes) (id : Id).

Definition probe (t : StringInterner) (s : bytes) : caller :=
  match find t s with Some id => Finished s id | None => Waiting s end.

Inductive step : StringInterner * list caller -> StringInterner * list caller -> Prop :=
| step_probe t cs i s :
    cs !! i = Some (Probing s) ->
    step (t, cs) (t, <[i := probe t s]> cs)
| step_insert t cs i s t' id :
    cs !! i = Some (Waiting s) ->
    intern_locked t s = (t', id) ->
    step (t, cs) (t', <[i := Finished s id]> cs).

Definition steps := rtc step.

(** Callers that may still append a string. *)
Definition pending (c : caller) : bool :=
  match c with Finished _ _ => false | _ => true end.

Definition n_pending (cs : list caller) : nat := length (filter (fun c => pending c) cs).

Definition answered (t : StringInterner) (c : caller) : Prop :=
  match c with Finished s id => resolve_opt t id = Some s | _ => True end.

Definition good (st : StringInterner * list caller) : Prop :=
  interner_ok st.1 /\ room (n_pending st.2) st.1 /\ Forall (answered st.1) st.2.

Lemma n_pending_insert cs i c c' :
  cs !! i = Some c -> pending c = true ->
  (n_pending (<[i := c']> cs) + (if pending c' then 0 else 1) = n_pending cs)%nat.
Proof.
  unfold n_pending. revert i. induction cs as [|x cs IH]; intros [|i] Hi Hp; simplify_eq/=.
  - rewrite !filter_cons. rewrite Hp. destruct (pending c'); simpl; lia.
  - rewrite !filter_cons. specialize (IH i Hi Hp). case_decide; simpl; lia.
Qed.

Lemma answered_extends t t' c : extends t t' -> answered t c -> answered t' c.
Proof. destruct c; simpl; eauto using extends_resolve. Qed.

Lemma step_good st st' : step st st' -> good st -> good st' /\ extends st.1 st'.1.
Proof.
  unfold good. destruct 1 as [t cs i s Hi|t cs i s t' id Hi Ht]; simpl; intros (Hok & Hr & Ha).
  - split; [|done]. split_and!; [done| |].
    + pose proof (n_pending_insert cs i _ (probe t s) Hi eq_refl) as Hp.
      eapply room_weaken; [|done]. lia.
    + apply Forall_insert; [done|]. unfold probe, answered.
      destruct (find t s) eqn:E; [|done]. by apply find_resolve.
  - pose proof (n_pending_insert cs i _ (Finished s id) Hi eq_refl) as Hp. simpl in Hp.
    destruct (intern_locked_spec t s t' id Ht Hok) as (Hok' & He & Hres & Hsz).
    { eapply room_weaken; [|done]. lia. }
    split; [|done]. split_and!; [done|unfold room in *; lia|].
    apply Forall_insert; [|done].
    eapply Forall_impl; [done|]. intros c. by apply answered_extends.
Qed.

Lemma steps_good st st' : steps st st' -> good st -> good st' /\ extends st.1 st'.1.
Proof.
  induction 1 as [st|st1 st2 st3 H _ IH]; intros Hg; [by split|].
  destruct (step_good _ _ H Hg) as [Hg2 He]. destruct (IH Hg2) as [Hg3 He'].
  split; [done|by etrans].
Qed.

(** C39. Any interleaving of [intern] calls, each split at its two critical sections,
    keeps the table consistent and existing ids unchanged; every finished call
    holds an id that resolves to its string, and two finished calls agree on the
    id exactly when they agree on the string. *)
Theorem concurrent_intern_safe t (ss : list bytes) t' cs :
  interner_ok t -> room (length ss) t ->
  steps (t, Probing <$> ss) (t', cs) ->
  interner_ok t' /\ extends t t' /\
  (forall s id, Finished s id ∈ cs -> resolve_opt t' id = Some s) /\
  (forall s id s' id', Finished s id ∈ cs -> Finished s' id' ∈ cs -> (s = s' <-> id = id')).
Proof.
  intros Hok Hr Hs.
  destruct (steps_good _ _ Hs) as [(Hok' & _ & Ha) He].
  { split_and!; [done| |]; simpl.
    - unfold n_pending. eapply room_weaken; [|done].
      etrans; [apply length_filter|]. by rewrite length_fmap.
    - apply Forall_fmap, Forall_true. done. }
  simpl in *. rewrite Forall_forall in Ha.
  assert (Hres : forall s id, Finished s id ∈ cs -> resolve_opt t' id = Some s).
  { intros s id Hin. apply (Ha _ Hin). }
  split_and!; [done|done|done|].
  intros s id s' id' H1%Hres H2%Hres. split; [intros <-|intros <-; congruence].
  by eapply resolve_opt_inj.
Qed.

Lemma concurrent_intern_safe_witness :
  exists t' cs,
    steps (empty_interner, Probing <$> [str "f"; str "f"]) (t', cs) /\
    table_size t' = 1 /\ interner_ok t'.
Proof.
  eexists _, _. split; [|split; [|eapply (concurrent_intern_safe _ [str "f"; str "f"])]].
  - eapply rtc_l; [by apply (step_probe _ _ 0 (str "f"))|].
    eapply rtc_l; [by apply (step_probe _ _ 1 (str "f"))|].
    eapply rtc_l; [by eapply (step_insert _ _ 1 (str "f"))|].
    eapply rtc_l; [by eapply (step_insert _ _ 0 (str "f"))|].
    apply rtc_refl.
  - reflexivity.
  - apply empty_ok.
  - vm_compute. discriminate.
  - eapply rtc_l; [by apply (step_probe _ _ 0 (str "f"))|].
    eapply rtc_l; [by apply (step_probe _ _ 1 (str "f"))|].
    eapply rtc_l; [by eapply (step_insert _ _ 1 (str "f"))|].
    eapply rtc_l; [by eapply (step_insert _ _ 0 (str "f"))|].
    apply rtc_refl.
Defined.

End Concurrent.

(** * Saving and loading the table *)

(** [forEachString] followed by [installStrings] on an empty interner reproduces
    the table with its ids; on a used interner [installStrings] refuses and
    changes nothing; moving an interner keeps it. *)
Theorem strings_roundtrip t :
  interner_ok t ->
  installStrings empty_interner (forEachString t (fun acc s => acc ++ [s]) []) = (true, t) /\
  (forall u l, strings_ u <> [] -> installStrings u l = (false, u)) /\
  move t = t.
Proof.
  intros Hok. assert (Hall : forall (l acc : list bytes), foldl (fun a s => a ++ [s]) acc l = acc ++ l).
  { induction l as [|x l IH]; intros acc; simpl; [by rewrite app_nil_r|].
    by rewrite IH, <- app_assoc. }
  assert (Hr : MkInterner (strings_ t) (rebuildIndex (strings_ t)) = t).
  { apply interner_ext; [|done|done].
    apply rebuildIndex_ok; [by apply interner_ok_NoDup|apply Hok]. }
  split; [|split; [|exact Hr]].
  - unfold installStrings, forEachString. simpl. rewrite Hall. simpl. by rewrite Hr.
  - intros u l Hu. unfold installStrings. by destruct (strings_ u).
Qed.

Lemma strings_roundtrip_witness :
  let t := (intern (intern empty_interner (str "main")).1 (str "f")).1 in
  installStrings empty_interner [str "main"; str "f"] = (true, t).
Proof.
  apply (strings_roundtrip (intern (intern empty_interner (str "main")).1 (str "f")).1).
  apply (intern_spec (intern empty_interner (str "main")).1 (str "f") _ _ eq_refl);
    [|vm_compute; discriminate].
  by apply (intern_spec empty_interner (str "main") _ _ eq_refl empty_ok).
Defined.
