(* ===== verification/CallGraph.v ===== *)
(** The call graph of include/vycor/callgraph/CallGraph.h and
    src/callgraph/CallGraph.cpp: its data, its mutators and its queries.

    A [CallGraph] is a record with the class's fields; a mutator maps a graph to
    a graph.  Strings are interned, ids are [uint32_t], edges live in a deque
    that other maps index by position, and an edge with [refs = 0] is a
    tombstone.  Positions and element counts of containers ([size_t]) are [nat],
    [liveEdgeCount_] is a [Z] because the code decrements it. The mutex is taken
    by every mutator for its whole body, so a call is one transition. *)

From S2P Require Import Prelude Utf8 StringInterner.

Abbreviation SId := Id.

(** * Data *)

Inductive EdgeKind :=
| DirectCall | VirtualDispatch | FunctionPointer | ConstructorCall | DestructorCall
| OperatorCall | TemplateInstantiation | LambdaCall | ThreadEntry | FunctionPointerReturn.

Inductive Confidence := Proven | Plausible | Unknown.

Inductive ExecutionContext := Synchronous | ThreadSpawn | AsyncTask | PackagedTask | Invoke.

#[global] Instance EdgeKind_eq_dec : EqDecision EdgeKind.
Proof. solve_decision. Defined.
#[global] Instance Confidence_eq_dec : EqDecision Confidence.
Proof. solve_decision. Defined.
#[global] Instance ExecutionContext_eq_dec : EqDecision ExecutionContext.
Proof. solve_decision. Defined.

(** [static_cast<uint8_t>] of the enumerators. *)
Definition kind_code (k : EdgeKind) : N :=
  match k with
  | DirectCall => 0 | VirtualDispatch => 1 | FunctionPointer => 2 | ConstructorCall => 3
  | DestructorCall => 4 | OperatorCall => 5 | TemplateInstantiation => 6 | LambdaCall => 7
  | ThreadEntry => 8 | FunctionPointerReturn => 9
  end.

Definition confidence_code (c : Confidence) : N :=
  match c with Proven => 0 | Plausible => 1 | Unknown => 2 end.

Definition exec_code (c : ExecutionContext) : N :=
  match c with
  | Synchronous => 0 | ThreadSpawn => 1 | AsyncTask => 2 | PackagedTask => 3 | Invoke => 4
  end.

Record CallGraphNode := MkNode {
  qualifiedName : bytes;
  file : bytes;
  line : N;
  isEntryPoint : bool;
  isVirtual : bool;
  enclosingClass : bytes;
  usr : bytes
}.

Record CallGraphEdge := MkEdge {
  callerName : bytes;
  calleeName : bytes;
  e_kind : EdgeKind;
  e_confidence : Confidence;
  e_callSite : bytes;
  e_indirectionDepth : N;
  e_execContext : ExecutionContext;
  callerUsr : bytes;
  calleeUsr : bytes
}.

Record EdgeRef := MkRef {
  r_caller : SId;
  r_callee : SId;
  r_callSite : SId;
  r_kind : EdgeKind;
  r_confidence : Confidence;
  r_execContext : ExecutionContext;
  r_indirectionDepth : N
}.

Record StoredEdge := MkStored {
  s_caller : SId;
  s_callee : SId;
  s_callSite : SId;
  s_kind : EdgeKind;
  s_confidence : Confidence;
  s_execContext : ExecutionContext;
  s_indirectionDepth : N;
  s_refs : N
}.

Record EdgeKey := MkKey {
  k_caller : SId;
  k_callee : SId;
  k_callSite : SId;
  k_kind : N;
  k_confidence : N;
  k_execContext : N;
  k_indirectionDepth : N
}.

#[global] Instance EdgeRef_eq_dec : EqDecision EdgeRef.
Proof. solve_decision. Defined.
#[global] Instance StoredEdge_eq_dec : EqDecision StoredEdge.
Proof. solve_decision. Defined.
#[global] Instance EdgeKey_eq_dec : EqDecision EdgeKey.
Proof. solve_decision. Defined.
#[global] Program Instance EdgeKey_countable : Countable EdgeKey :=
  inj_countable'
    (fun k => (k_caller k, k_callee k, k_callSite k, k_kind k, k_confidence k,
               k_execContext k, k_indirectionDepth k))
    (fun '(a, b, c, d, e, f, g) => MkKey a b c d e f g) _.
Next Obligation. by intros []. Qed.

Definition keyOf (se : StoredEdge) : EdgeKey :=
  MkKey (s_caller se) (s_callee se) (s_callSite se) (kind_code (s_kind se))
    (confidence_code (s_confidence se)) (exec_code (s_execContext se))
    (s_indirectionDepth se).

Record CallGraph := MkGraph {
  interner_ : StringInterner;
  nodes_ : gmap SId CallGraphNode;
  byName_ : gmap SId (list SId);
  edges_ : list StoredEdge;
  edgeIndex_ : gmap EdgeKey nat;
  outEdges_ : gmap SId (list nat);
  inEdges_ : gmap SId (list nat);
  derivedClasses_ : gmap SId (list SId);
  methodOverrides_ : gmap SId (list SId);
  overrideBases_ : gmap SId (list SId);
  effectiveImplClasses_ : gmap SId (gset SId);
  functionReturns_ : gmap SId (gset SId);
  returnedBy_ : gmap SId (list SId);
  tuEdges_ : gmap SId (list nat);
  nodeContributors_ : gmap SId (gset SId);
  tuNodes_ : gmap SId (list SId);
  liveEdgeCount_ : Z;
  readOnly_ : bool
}.

(** Assignment to one field. *)
Definition set_interner (v : StringInterner) (g : CallGraph) : CallGraph :=
  MkGraph v (nodes_ g) (byName_ g) (edges_ g) (edgeIndex_ g) (outEdges_ g) (inEdges_ g)
    (derivedClasses_ g) (methodOverrides_ g) (overrideBases_ g)
    (effectiveImplClasses_ g) (functionReturns_ g) (returnedBy_ g) (tuEdges_ g)
    (nodeContributors_ g) (tuNodes_ g) (liveEdgeCount_ g) (readOnly_ g).
Definition set_nodes (v : gmap SId CallGraphNode) (g : CallGraph) : CallGraph :=
  MkGraph (interner_ g) v (byName_ g) (edges_ g) (edgeIndex_ g) (outEdges_ g) (inEdges_ g)
    (derivedClasses_ g) (methodOverrides_ g) (overrideBases_ g)
    (effectiveImplClasses_ g) (functionReturns_ g) (returnedBy_ g) (tuEdges_ g)
    (nodeContributors_ g) (tuNodes_ g) (liveEdgeCount_ g) (readOnly_ g).
Definition set_byName (v : gmap SId (list SId)) (g : CallGraph) : CallGraph :=
  MkGraph (interner_ g) (nodes_ g) v (edges_ g) (edgeIndex_ g) (outEdges_ g) (inEdges_ g)
    (derivedClasses_ g) (methodOverrides_ g) (overrideBases_ g)
    (effectiveImplClasses_ g) (functionReturns_ g) (returnedBy_ g) (tuEdges_ g)
    (nodeContributors_ g) (tuNodes_ g) (liveEdgeCount_ g) (readOnly_ g).
Definition set_edges (v : list StoredEdge) (g : CallGraph) : CallGraph :=
  MkGraph (interner_ g) (nodes_ g) (byName_ g) v (edgeIndex_ g) (outEdges_ g) (inEdges_ g)
    (derivedClasses_ g) (methodOverrides_ g) (overrideBases_ g)
    (effectiveImplClasses_ g) (functionReturns_ g) (returnedBy_ g) (tuEdges_ g)
    (nodeContributors_ g) (tuNodes_ g) (liveEdgeCount_ g) (readOnly_ g).
Definition set_edgeIndex (v : gmap EdgeKey nat) (g : CallGraph) : CallGraph :=
  MkGraph (interner_ g) (nodes_ g) (byName_ g) (edges_ g) v (outEdges_ g) (inEdges_ g)
    (derivedClasses_ g) (methodOverrides_ g) (overrideBases_ g)
    (effectiveImplClasses_ g) (functionReturns_ g) (returnedBy_ g) (tuEdges_ g)
    (nodeContributors_ g) (tuNodes_ g) (liveEdgeCount_ g) (readOnly_ g).
Definition set_outEdges (v : gmap SId (list nat)) (g : CallGraph) : CallGraph :=
  MkGraph (interner_ g) (nodes_ g) (byName_ g) (edges_ g) (edgeIndex_ g) v (inEdges_ g)
    (derivedClasses_ g) (methodOverrides_ g) (overrideBases_ g)
    (effectiveImplClasses_ g) (functionReturns_ g) (returnedBy_ g) (tuEdges_ g)
    (nodeContributors_ g) (tuNodes_ g) (liveEdgeCount_ g) (readOnly_ g).
Definition set_inEdges (v : gmap SId (list nat)) (g : CallGraph) : CallGraph :=
  MkGraph (interner_ g) (nodes_ g) (byName_ g) (edges_ g) (edgeIndex_ g) (outEdges_ g) v
    (derivedClasses_ g) (methodOverrides_ g) (overrideBases_ g)
    (effectiveImplClasses_ g) (functionReturns_ g) (returnedBy_ g) (tuEdges_ g)
    (nodeContributors_ g) (tuNodes_ g) (liveEdgeCount_ g) (readOnly_ g).
Definition set_derivedClasses (v : gmap SId (list SId)) (g : CallGraph) : CallGraph :=
  MkGraph (interner_ g) (nodes_ g) (byName_ g) (edges_ g) (edgeIndex_ g) (outEdges_ g)
    (inEdges_ g) v (methodOverrides_ g) (overrideBases_ g) (effectiveImplClasses_ g)
    (functionReturns_ g) (returnedBy_ g) (tuEdges_ g) (nodeContributors_ g)
    (tuNodes_ g) (liveEdgeCount_ g) (readOnly_ g).
Definition set_methodOverrides (v : gmap SId (list SId)) (g : CallGraph) : CallGraph :=
  MkGraph (interner_ g) (nodes_ g) (byName_ g) (edges_ g) (edgeIndex_ g) (outEdges_ g)
    (inEdges_ g) (derivedClasses_ g) v (overrideBases_ g) (effectiveImplClasses_ g)
    (functionReturns_ g) (returnedBy_ g) (tuEdges_ g) (nodeContributors_ g)
    (tuNodes_ g) (liveEdgeCount_ g) (readOnly_ g).
Definition set_overrideBases (v : gmap SId (list SId)) (g : CallGraph) : CallGraph :=
  MkGraph (interner_ g) (nodes_ g) (byName_ g) (edges_ g) (edgeIndex_ g) (outEdges_ g)
    (inEdges_ g) (derivedClasses_ g) (methodOverrides_ g) v
    (effectiveImplClasses_ g) (functionReturns_ g) (returnedBy_ g) (tuEdges_ g)
    (nodeContributors_ g) (tuNodes_ g) (liveEdgeCount_ g) (readOnly_ g).
Definition set_effectiveImplClasses (v : gmap SId (gset SId)) (g : CallGraph) : CallGraph :=
  MkGraph (interner_ g) (nodes_ g) (byName_ g) (edges_ g) (edgeIndex_ g) (outEdges_ g)
    (inEdges_ g) (derivedClasses_ g) (methodOverrides_ g) (overrideBases_ g) v
    (functionReturns_ g) (returnedBy_ g) (tuEdges_ g) (nodeContributors_ g)
    (tuNodes_ g) (liveEdgeCount_ g) (readOnly_ g).
Definition set_functionReturns (v : gmap SId (gset SId)) (g : CallGraph) : CallGraph :=
  MkGraph (interner_ g) (nodes_ g) (byName_ g) (edges_ g) (edgeIndex_ g) (outEdges_ g)
    (inEdges_ g) (derivedClasses_ g) (methodOverrides_ g) (overrideBases_ g)
    (effectiveImplClasses_ g) v (returnedBy_ g) (tuEdges_ g) (nodeContributors_ g)
    (tuNodes_ g) (liveEdgeCount_ g) (readOnly_ g).
Definition set_returnedBy (v : gmap SId (list SId)) (g : CallGraph) : CallGraph :=
  MkGraph (interner_ g) (nodes_ g) (byName_ g) (edges_ g) (edgeIndex_ g) (outEdges_ g)
    (inEdges_ g) (derivedClasses_ g) (methodOverrides_ g) (overrideBases_ g)
    (effectiveImplClasses_ g) (functionReturns_ g) v (tuEdges_ g)
    (nodeContributors_ g) (tuNodes_ g) (liveEdgeCount_ g) (readOnly_ g).
Definition set_tuEdges (v : gmap SId (list nat)) (g : CallGraph) : CallGraph :=
  MkGraph (interner_ g) (nodes_ g) (byName_ g) (edges_ g) (edgeIndex_ g) (outEdges_ g)
    (inEdges_ g) (derivedClasses_ g) (methodOverrides_ g) (overrideBases_ g)
    (effectiveImplClasses_ g) (functionReturns_ g) (returnedBy_ g) v
    (nodeContributors_ g) (tuNodes_ g) (liveEdgeCount_ g) (readOnly_ g).
Definition set_nodeContributors (v : gmap SId (gset SId)) (g : CallGraph) : CallGraph :=
  MkGraph (interner_ g) (nodes_ g) (byName_ g) (edges_ g) (edgeIndex_ g) (outEdges_ g)
    (inEdges_ g) (derivedClasses_ g) (methodOverrides_ g) (overrideBases_ g)
    (effectiveImplClasses_ g) (functionReturns_ g) (returnedBy_ g) (tuEdges_ g) v
    (tuNodes_ g) (liveEdgeCount_ g) (readOnly_ g).
Definition set_tuNodes (v : gmap SId (list SId)) (g : CallGraph) : CallGraph :=
  MkGraph (interner_ g) (nodes_ g) (byName_ g) (edges_ g) (edgeIndex_ g) (outEdges_ g)
    (inEdges_ g) (derivedClasses_ g) (methodOverrides_ g) (overrideBases_ g)
    (effectiveImplClasses_ g) (functionReturns_ g) (returnedBy_ g) (tuEdges_ g)
    (nodeContributors_ g) v (liveEdgeCount_ g) (readOnly_ g).
Definition set_liveEdgeCount (v : Z) (g : CallGraph) : CallGraph :=
  MkGraph (interner_ g) (nodes_ g) (byName_ g) (edges_ g) (edgeIndex_ g) (outEdges_ g)
    (inEdges_ g) (derivedClasses_ g) (methodOverrides_ g) (overrideBases_ g)
    (effectiveImplClasses_ g) (functionReturns_ g) (returnedBy_ g) (tuEdges_ g)
    (nodeContributors_ g) (tuNodes_ g) v (readOnly_ g).
Definition set_readOnly (v : bool) (g : CallGraph) : CallGraph :=
  MkGraph (interner_ g) (nodes_ g) (byName_ g) (edges_ g) (edgeIndex_ g) (outEdges_ g)
    (inEdges_ g) (derivedClasses_ g) (methodOverrides_ g) (overrideBases_ g)
    (effectiveImplClasses_ g) (functionReturns_ g) (returnedBy_ g) (tuEdges_ g)
    (nodeContributors_ g) (tuNodes_ g) (liveEdgeCount_ g) v.

(** A default-constructed graph. *)
Definition empty_graph : CallGraph :=
  MkGraph empty_interner ∅ ∅ [] ∅ ∅ ∅ ∅ ∅ ∅ ∅ ∅ ∅ ∅ ∅ ∅ 0 false.

(** The move constructor and move assignment: every field is taken over, the
    interner through its own move. *)
Definition move_graph (other : CallGraph) : CallGraph :=
  set_interner (StringInterner.move (interner_ other)) other.

(** * Mutators *)

Definition is_empty (s : bytes) : bool := match s with [] => true | _ => false end.

(** [internRaw]: raw bytes are stored as index text. *)
Definition internRaw (t : StringInterner) (s : bytes) : StringInterner * SId :=
  if needsIndexEscape s then intern t (toIndexText s) else intern t s.

(** The fields [addNode] stores: the usr defaults to the display name, and every
    string becomes index text. *)
Definition normalize_node (node : CallGraphNode) : CallGraphNode :=
  let usr0 := if is_empty (usr node) then qualifiedName node else usr node in
  MkNode (makeIndexText (qualifiedName node)) (makeIndexText (file node)) (line node)
    (isEntryPoint node) (isVirtual node) (makeIndexText (enclosingClass node))
    (makeIndexText usr0).

(** Merging a later registration of a node into the stored one. *)
Definition backfill (old node : CallGraphNode) : CallGraphNode :=
  MkNode (qualifiedName old)
    (if is_empty (file node) then file old else file node)
    (if (line node =? 0)%N then line old else line node)
    (if isEntryPoint node then true else isEntryPoint old)
    (if isVirtual node then true else isVirtual old)
    (if is_empty (enclosingClass node) then enclosingClass old else enclosingClass node)
    (usr old).

(** The find-or-insert of [addNode] and [absorb]: a new node enters [byName_]
    under its display id, a known one is backfilled. *)
Definition store_node (nameId displayId : SId) (node : CallGraphNode) (g : CallGraph)
  : CallGraph :=
  match nodes_ g !! nameId with
  | None =>
      set_nodes (<[nameId := node]> (nodes_ g))
        (set_byName (push_unique displayId nameId (byName_ g)) g)
  | Some old => set_nodes (<[nameId := backfill old node]> (nodes_ g)) g
  end.

(** [if (nodeContributors_\[n\].insert(tu).second) tuNodes_\[tu\].push_back(n);] *)
Definition contribute (nameId tuId : SId) (g : CallGraph) : CallGraph :=
  let g' := set_nodeContributors (set_insert nameId tuId (nodeContributors_ g)) g in
  if decide (tuId ∈ set_at (nodeContributors_ g) nameId) then g'
  else set_tuNodes (push_back tuId nameId (tuNodes_ g)) g'.

Definition addNode (node0 : CallGraphNode) (tuPath : bytes) (g : CallGraph) : CallGraph :=
  if readOnly_ g then g else
  let node := normalize_node node0 in
  let '(t1, nameId) := intern (interner_ g) (usr node) in
  let '(t2, displayId) := intern t1 (qualifiedName node) in
  let g1 := store_node nameId displayId node (set_interner t2 g) in
  if is_empty tuPath then g1
  else
    let '(t3, tuId) := internRaw (interner_ g1) tuPath in
    contribute nameId tuId (set_interner t3 g1).

(** [++edges_\[idx\].refs] and [edges_\[idx\].refs += n], in 32 bits. *)
Definition add_refs (n : N) (se : StoredEdge) : StoredEdge :=
  MkStored (s_caller se) (s_callee se) (s_callSite se) (s_kind se) (s_confidence se)
    (s_execContext se) (s_indirectionDepth se) (u32 (s_refs se + n)).

(** The dedup probe of [addEdge] and [absorb]: a stored edge with the same
    content takes over the registrations, otherwise the edge is appended. *)
Definition store_edge (se : StoredEdge) (g : CallGraph) : CallGraph * nat :=
  match edgeIndex_ g !! keyOf se with
  | Some idx => (set_edges (alter (add_refs (s_refs se)) idx (edges_ g)) g, idx)
  | None =>
      let idx := length (edges_ g) in
      (set_liveEdgeCount (liveEdgeCount_ g + 1)%Z
        (set_edgeIndex (<[keyOf se := idx]> (edgeIndex_ g))
          (set_edges (edges_ g ++ [se])
            (set_inEdges (push_back (s_callee se) idx (inEdges_ g))
              (set_outEdges (push_back (s_caller se) idx (outEdges_ g)) g)))), idx)
  end.

Definition addEdge (edge : CallGraphEdge) (tuPath : bytes) (g : CallGraph) : CallGraph :=
  if readOnly_ g then g else
  let '(t1, caller) := internRaw (interner_ g) (callerName edge) in
  let '(t2, callee) := internRaw t1 (calleeName edge) in
  let '(t3, callSite) := internRaw t2 (e_callSite edge) in
  let se := MkStored caller callee callSite (e_kind edge) (e_confidence edge)
              (e_execContext edge) (e_indirectionDepth edge) 1 in
  let '(g1, idx) := store_edge se (set_interner t3 g) in
  if is_empty tuPath then g1
  else
    let '(t4, tuId) := internRaw (interner_ g1) tuPath in
    set_tuEdges (push_back tuId idx (tuEdges_ g1)) (set_interner t4 g1).

Definition addDerivedClass (baseClass derivedClass : bytes) (g : CallGraph) : CallGraph :=
  if readOnly_ g then g else
  let '(t1, baseId) := internRaw (interner_ g) baseClass in
  let '(t2, derivedId) := internRaw t1 derivedClass in
  set_derivedClasses (push_unique baseId derivedId (derivedClasses_ g)) (set_interner t2 g).

(** The forward and reverse halves of one override, deduplicated. *)
Definition store_override (baseId overrideId : SId) (g : CallGraph) : CallGraph :=
  set_overrideBases (push_unique overrideId baseId (overrideBases_ g))
    (set_methodOverrides (push_unique baseId overrideId (methodOverrides_ g)) g).

Definition addMethodOverride (baseMethod overrideMethod : bytes) (g : CallGraph) : CallGraph :=
  if readOnly_ g then g else
  let '(t1, baseId) := internRaw (interner_ g) baseMethod in
  let '(t2, overrideId) := internRaw t1 overrideMethod in
  store_override baseId overrideId (set_interner t2 g).

Definition addEffectiveImpl (concreteClass implMethod : bytes) (g : CallGraph) : CallGraph :=
  if readOnly_ g then g else
  let '(t1, implId) := internRaw (interner_ g) implMethod in
  let '(t2, classId) := internRaw t1 concreteClass in
  set_effectiveImplClasses (set_insert implId classId (effectiveImplClasses_ g))
    (set_interner t2 g).

(** [if (functionReturns_\[f\].insert(r).second) returnedBy_\[r\].push_back(f);] *)
Definition store_return (funcId retId : SId) (g : CallGraph) : CallGraph :=
  let g' := set_functionReturns (set_insert funcId retId (functionReturns_ g)) g in
  if decide (retId ∈ set_at (functionReturns_ g) funcId) then g'
  else set_returnedBy (push_back retId funcId (returnedBy_ g)) g'.

Definition addFunctionReturn (funcName returnedFunc : bytes) (g : CallGraph) : CallGraph :=
  if readOnly_ g then g else
  let '(t1, funcId) := internRaw (interner_ g) funcName in
  let '(t2, retId) := internRaw t1 returnedFunc in
  store_return funcId retId (set_interner t2 g).

(** ** Merging a worker's shard *)

Section Absorb.
Context `{!UnorderedIter}.

(** [remap\[id\]], for an id of the shard's dense table. *)
Definition remap_at (remap : list SId) (id : SId) : SId := default 0%N (remap !! N.to_nat id).

Definition absorb_strings (shard : StringInterner) (t : StringInterner)
  : StringInterner * list SId :=
  forEachString shard
    (fun '(t, remap) s => let '(t', id) := intern t s in (t', remap ++ [id])) (t, []).

Definition absorb_node (shard : CallGraph) (remap : list SId) (g : CallGraph)
    (entry : SId * CallGraphNode) : CallGraph :=
  let '(shardNameId, node) := entry in
  let nameId := remap_at remap shardNameId in
  let g1 :=
    match nodes_ g !! nameId with
    | None =>
        let '(t, displayId) := intern (interner_ g) (qualifiedName node) in
        store_node nameId displayId node (set_interner t g)
    | Some _ => store_node nameId 0%N node g
    end in
  match nodeContributors_ shard !! shardNameId with
  | None => g1
  | Some tus =>
      foldl (fun g shardTu => contribute nameId (remap_at remap shardTu) g) g1 (set_order tus)
  end.

(** One shard edge; the second component is the edge remap so far, [None] for
    a tombstone ([kDeadEdge]). *)
Definition absorb_edge (remap : list SId) (st : CallGraph * list (option nat))
    (src : StoredEdge) : CallGraph * list (option nat) :=
  let '(g, edgeRemap) := st in
  if (s_refs src =? 0)%N then (g, edgeRemap ++ [None])
  else
    let se := MkStored (remap_at remap (s_caller src)) (remap_at remap (s_callee src))
                (remap_at remap (s_callSite src)) (s_kind src) (s_confidence src)
                (s_execContext src) (s_indirectionDepth src) (s_refs src) in
    let '(g', idx) := store_edge se g in
    (g', edgeRemap ++ [Some idx]).

Definition remap_edges (edgeRemap : list (option nat)) (idxs : list nat) : list nat :=
  omap (fun i => mjoin (edgeRemap !! i)) idxs.

Definition absorb_tu (remap : list SId) (edgeRemap : list (option nat)) (g : CallGraph)
    (entry : SId * list nat) : CallGraph :=
  let '(shardTu, idxs) := entry in
  let tuId := remap_at remap shardTu in
  set_tuEdges (<[tuId := vec_at (tuEdges_ g) tuId ++ remap_edges edgeRemap idxs]> (tuEdges_ g)) g.

Definition absorb_derived (remap : list SId) (g : CallGraph) (entry : SId * list SId)
  : CallGraph :=
  let '(base, vec) := entry in
  let baseId := remap_at remap base in
  (* [auto &dst = derivedClasses_[...]] creates the entry *)
  let g0 := set_derivedClasses
              (<[baseId := vec_at (derivedClasses_ g) baseId]> (derivedClasses_ g)) g in
  foldl (fun g d => set_derivedClasses
                      (push_unique baseId (remap_at remap d) (derivedClasses_ g)) g) g0 vec.

Definition absorb_overrides (remap : list SId) (g : CallGraph) (entry : SId * list SId)
  : CallGraph :=
  let '(base, vec) := entry in
  foldl (fun g o => store_override (remap_at remap base) (remap_at remap o) g) g vec.

Definition absorb_impls (remap : list SId) (g : CallGraph) (entry : SId * gset SId)
  : CallGraph :=
  let '(impl, classes) := entry in
  let implId := remap_at remap impl in
  let g0 := set_effectiveImplClasses
              (<[implId := set_at (effectiveImplClasses_ g) implId]> (effectiveImplClasses_ g)) g in
  foldl (fun g c => set_effectiveImplClasses
                      (set_insert implId (remap_at remap c) (effectiveImplClasses_ g)) g)
    g0 (set_order classes).

Definition absorb_returns (remap : list SId) (g : CallGraph) (entry : SId * gset SId)
  : CallGraph :=
  let '(fn, rets) := entry in
  foldl (fun g r => store_return (remap_at remap fn) (remap_at remap r) g) g (set_order rets).

(** [same] is the test [&shard == this]. *)
Definition absorb (same : bool) (shard : CallGraph) (g : CallGraph) : CallGraph :=
  if same then g
  else if readOnly_ g then g
  else
    let '(t, remap) := absorb_strings (interner_ shard) (interner_ g) in
    let g1 := foldl (absorb_node shard remap) (set_interner t g) (map_iter (nodes_ shard)) in
    let '(g2, edgeRemap) := foldl (absorb_edge remap) (g1, []) (edges_ shard) in
    let g3 := foldl (absorb_tu remap edgeRemap) g2 (map_iter (tuEdges_ shard)) in
    let g4 := foldl (absorb_derived remap) g3 (map_iter (derivedClasses_ shard)) in
    let g5 := foldl (absorb_overrides remap) g4 (map_iter (methodOverrides_ shard)) in
    let g6 := foldl (absorb_impls remap) g5 (map_iter (effectiveImplClasses_ shard)) in
    foldl (absorb_returns remap) g6 (map_iter (functionReturns_ shard)).
End Absorb.

(** ** Removing translation units *)

Section Remove.
Context `{!UnorderedIter}.

(** The known ids among the paths, without duplicates, in argument order. *)
Definition tu_ids (t : StringInterner) (tuPaths : list bytes) : list SId :=
  foldl (fun ids p =>
           match find t (toIndexText p) with
           | Some id => if decide (id ∈ ids) then ids else ids ++ [id]
           | None => ids
           end) [] tuPaths.

Record release_state := MkRelease {
  rl_graph : CallGraph;
  rl_dead : gset nat;
  rl_callers : gset SId;
  rl_callees : gset SId;
  rl_removed : nat
}.

Definition set_refs (n : N) (se : StoredEdge) : StoredEdge :=
  MkStored (s_caller se) (s_callee se) (s_callSite se) (s_kind se) (s_confidence se)
    (s_execContext se) (s_indirectionDepth se) n.

(** One registration of a removed TU: the edge dies with its last one. *)
Definition release_edge (st : release_state) (idx : nat) : release_state :=
  let g := rl_graph st in
  match edges_ g !! idx with
  | None => st
  | Some edge =>
      if (s_refs edge =? 0)%N then st
      else
        let refs' := (s_refs edge - 1)%N in
        let g' := set_edges (<[idx := set_refs refs' edge]> (edges_ g)) g in
        if (0 <? refs')%N then
          MkRelease g' (rl_dead st) (rl_callers st) (rl_callees st) (rl_removed st)
        else
          MkRelease
            (set_liveEdgeCount (liveEdgeCount_ g' - 1)%Z
              (set_edgeIndex (delete (keyOf edge) (edgeIndex_ g')) g'))
            ({[idx]} ∪ rl_dead st) ({[s_caller edge]} ∪ rl_callers st)
            ({[s_callee edge]} ∪ rl_callees st) (S (rl_removed st))
  end.

Definition release_tu (st : release_state) (tuId : SId) : release_state :=
  match tuEdges_ (rl_graph st) !! tuId with
  | None => st
  | Some idxs =>
      let st' := foldl release_edge st idxs in
      let g := rl_graph st' in
      MkRelease (set_tuEdges (delete tuId (tuEdges_ g)) g)
        (rl_dead st') (rl_callers st') (rl_callees st') (rl_removed st')
  end.

(** Erase the dead positions from one adjacency vector. *)
Definition scrub (dead : gset nat) (m : gmap SId (list nat)) (c : SId)
  : gmap SId (list nat) :=
  <[c := filter (fun i => i ∉ dead) (vec_at m c)]> m.

(** Remove a node id from the display-name entry of the node. *)
Definition drop_name (t : StringInterner) (name : bytes) (nodeId : SId)
    (byName : gmap SId (list SId)) : gmap SId (list SId) :=
  match find t name with
  | None => byName
  | Some displayId =>
      match byName !! displayId with
      | None => byName
      | Some vec =>
          let vec' := filter (fun x => x <> nodeId) vec in
          match vec' with
          | [] => delete displayId byName
          | _ :: _ => <[displayId := vec']> byName
          end
      end
  end.

Definition drop_contribution (tuId : SId) (g : CallGraph) (nodeId : SId) : CallGraph :=
  match nodeContributors_ g !! nodeId with
  | None => g
  | Some contributors =>
      let rest := contributors ∖ {[tuId]} in
      if decide (rest = ∅) then
        let g1 :=
          match nodes_ g !! nodeId with
          | None => g
          | Some node =>
              set_nodes (delete nodeId (nodes_ g))
                (set_byName (drop_name (interner_ g) (qualifiedName node) nodeId (byName_ g)) g)
          end in
        set_nodeContributors (delete nodeId (nodeContributors_ g1)) g1
      else set_nodeContributors (<[nodeId := rest]> (nodeContributors_ g)) g
  end.

Definition drop_tu_nodes (g : CallGraph) (tuId : SId) : CallGraph :=
  match tuNodes_ g !! tuId with
  | None => g
  | Some ids =>
      let g' := foldl (drop_contribution tuId) g ids in
      set_tuNodes (delete tuId (tuNodes_ g')) g'
  end.

Definition removeTUs (tuPaths : list bytes) (g : CallGraph) : CallGraph * nat :=
  if readOnly_ g then (g, 0)
  else
    let tuIds := tu_ids (interner_ g) tuPaths in
    let st := foldl release_tu (MkRelease g ∅ ∅ ∅ 0) tuIds in
    let g1 := rl_graph st in
    let g2 := set_outEdges
                (foldl (scrub (rl_dead st)) (outEdges_ g1) (set_iter (rl_callers st))) g1 in
    let g3 := set_inEdges
                (foldl (scrub (rl_dead st)) (inEdges_ g2) (set_iter (rl_callees st))) g2 in
    (foldl drop_tu_nodes g3 tuIds, rl_removed st).

Definition removeTU (tuPath : bytes) (g : CallGraph) : CallGraph * nat := removeTUs [tuPath] g.

(** ** Compaction *)

Record compact_state := MkCompact {
  cp_edges : list StoredEdge;
  cp_index : gmap EdgeKey nat;
  cp_out : gmap SId (list nat);
  cp_in : gmap SId (list nat);
  cp_remap : gmap nat nat;
  cp_old : nat
}.

Definition compact_edge (st : compact_state) (edge : StoredEdge) : compact_state :=
  if (s_refs edge =? 0)%N then
    MkCompact (cp_edges st) (cp_index st) (cp_out st) (cp_in st) (cp_remap st) (S (cp_old st))
  else
    let neu := length (cp_edges st) in
    MkCompact (cp_edges st ++ [edge])
      (match cp_index st !! keyOf edge with
       | Some _ => cp_index st
       | None => <[keyOf edge := neu]> (cp_index st)
       end)
      (push_back (s_caller edge) neu (cp_out st))
      (push_back (s_callee edge) neu (cp_in st))
      (<[cp_old st := neu]> (cp_remap st)) (S (cp_old st)).

Definition compact_tu (remap : gmap nat nat) (m : gmap SId (list nat))
    (entry : SId * list nat) : gmap SId (list nat) :=
  let '(tuId, indices) := entry in
  let vec := vec_at m tuId ++ omap (fun old => remap !! old) indices in
  match vec with
  | [] => delete tuId m
  | _ :: _ => <[tuId := vec]> m
  end.

Definition compact (g : CallGraph) : CallGraph :=
  if readOnly_ g then g
  else
    let st := foldl compact_edge (MkCompact [] ∅ ∅ ∅ ∅ 0) (edges_ g) in
    let newTuEdges := foldl (compact_tu (cp_remap st)) ∅ (map_iter (tuEdges_ g)) in
    set_tuEdges newTuEdges
      (set_inEdges (cp_in st)
        (set_outEdges (cp_out st)
          (set_edgeIndex (cp_index st) (set_edges (cp_edges st) g)))).
End Remove.

(** * Queries *)

(** ** Closure of a relation *)

(** All successors a relation mentions; every round of the closure loop pops one
    entry that was pushed when it was first visited, so [S (size (targets rel))]
    rounds are enough. *)
Definition targets (rel : gmap SId (list SId)) : gset SId :=
  map_fold (fun _ l acc => list_to_set l ∪ acc) ∅ rel.

(** The inner loop over [it->second]; the vectors are kept newest first. *)
Definition closure_push (st : gset SId * list SId * list SId) (next : SId)
  : gset SId * list SId * list SId :=
  let '(visited, result, stack) := st in
  if decide (next ∈ visited) then st
  else ({[next]} ∪ visited, result ++ [next], next :: stack).

Fixpoint closure_loop (fuel : nat) (rel : gmap SId (list SId)) (visited : gset SId)
    (result stack : list SId) : list SId :=
  match fuel, stack with
  | S fuel', cur :: stack' =>
      match rel !! cur with
      | None => closure_loop fuel' rel visited result stack'
      | Some nexts =>
          let '(visited', result', stack'') :=
            foldl closure_push (visited, result, stack') nexts in
          closure_loop fuel' rel visited' result' stack''
      end
  | _, _ => result
  end.

Definition transitiveClosure (start : SId) (rel : gmap SId (list SId)) : list SId :=
  match rel !! start with
  | None => []
  | Some _ => closure_loop (S (size (targets rel))) rel {[start]} [] [start]
  end.

(** ** Edges of a node, in id space *)

(** Keys already shown: (neighbour, call site). *)
Abbreviation seen_set := (gset (SId * SId)).

Definition ref_of (se : StoredEdge) : EdgeRef :=
  MkRef (s_caller se) (s_callee se) (s_callSite se) (s_kind se) (s_confidence se)
    (s_execContext se) (s_indirectionDepth se).

(** The kind a deferred function-return edge is shown with. *)
Definition return_kind (se : StoredEdge) : EdgeKind :=
  match s_execContext se with Synchronous => FunctionPointer | _ => ThreadEntry end.

Definition dispatches (se : StoredEdge) : bool :=
  negb (s_refs se =? 0)%N && bool_decide (s_kind se = VirtualDispatch)
  && bool_decide (s_confidence se = Plausible).

Definition defers (se : StoredEdge) : bool :=
  negb (s_refs se =? 0)%N && bool_decide (s_kind se = FunctionPointerReturn).

(** [if (seen.insert(key).second) result.push_back(r)]. *)
Definition show (key : SId * SId) (r : EdgeRef) (st : seen_set * list EdgeRef)
  : seen_set * list EdgeRef :=
  if decide (key ∈ st.1) then st else ({[key]} ∪ st.1, st.2 ++ [r]).

(** Stored edges leaving a caller; [seen] collects the virtual dispatches. *)
Definition callee_stored (g : CallGraph) (st : seen_set * list EdgeRef) (idx : nat)
  : seen_set * list EdgeRef :=
  match edges_ g !! idx with
  | None => st
  | Some se =>
      if (s_refs se =? 0)%N then st
      else if decide (s_kind se = FunctionPointerReturn) then st
      else
        ((if decide (s_kind se = VirtualDispatch) then {[(s_callee se, s_callSite se)]} ∪ st.1
          else st.1), st.2 ++ [ref_of se])
  end.

Definition callee_virtual (g : CallGraph) (st : seen_set * list EdgeRef) (idx : nat)
  : seen_set * list EdgeRef :=
  match edges_ g !! idx with
  | None => st
  | Some se =>
      if dispatches se then
        foldl (fun st ovId =>
                 show (ovId, s_callSite se)
                   (MkRef (s_caller se) ovId (s_callSite se) (s_kind se) (s_confidence se)
                      (s_execContext se) (s_indirectionDepth se)) st)
          st (transitiveClosure (s_callee se) (methodOverrides_ g))
      else st
  end.

Definition callee_returns (g : CallGraph) (st : seen_set * list EdgeRef) (idx : nat)
  : seen_set * list EdgeRef :=
  match edges_ g !! idx with
  | None => st
  | Some se =>
      if defers se then
        match functionReturns_ g !! s_callee se with
        | None => st
        | Some rets =>
            foldl (fun st retId =>
                     show (retId, s_callSite se)
                       (MkRef (s_caller se) retId (s_callSite se) (return_kind se)
                          (s_confidence se) (s_execContext se) (s_indirectionDepth se)) st)
              st (set_order rets)
        end
      else st
  end.

Definition calleeRefsOf (g : CallGraph) (caller : SId) : list EdgeRef :=
  match outEdges_ g !! caller with
  | None => []
  | Some idxs =>
      let st1 := foldl (callee_stored g) (∅, []) idxs in
      let st2 := foldl (callee_virtual g) st1 idxs in
      (foldl (callee_returns g) st2 idxs).2
  end.

(** Stored edges reaching a callee; [seen] collects every kind. *)
Definition caller_stored (g : CallGraph) (st : seen_set * list EdgeRef) (idx : nat)
  : seen_set * list EdgeRef :=
  match edges_ g !! idx with
  | None => st
  | Some se =>
      if (s_refs se =? 0)%N then st
      else if decide (s_kind se = FunctionPointerReturn) then st
      else ({[(s_caller se, s_callSite se)]} ∪ st.1, st.2 ++ [ref_of se])
  end.

Definition caller_virtual (g : CallGraph) (callee : SId) (st : seen_set * list EdgeRef)
    (idx : nat) : seen_set * list EdgeRef :=
  match edges_ g !! idx with
  | None => st
  | Some se =>
      if dispatches se then
        show (s_caller se, s_callSite se)
          (MkRef (s_caller se) callee (s_callSite se) (s_kind se) (s_confidence se)
             (s_execContext se) (s_indirectionDepth se)) st
      else st
  end.

Definition caller_returns (g : CallGraph) (callee : SId) (st : seen_set * list EdgeRef)
    (idx : nat) : seen_set * list EdgeRef :=
  match edges_ g !! idx with
  | None => st
  | Some se =>
      if defers se then
        show (s_caller se, s_callSite se)
          (MkRef (s_caller se) callee (s_callSite se) (return_kind se) (s_confidence se)
             (s_execContext se) (s_indirectionDepth se)) st
      else st
  end.

Definition callerRefsOf (g : CallGraph) (callee : SId) : list EdgeRef :=
  let st1 := foldl (caller_stored g) (∅, []) (vec_at (inEdges_ g) callee) in
  let st2 := foldl (fun st baseId => foldl (caller_virtual g callee) st (vec_at (inEdges_ g) baseId))
               st1 (transitiveClosure callee (overrideBases_ g)) in
  (foldl (fun st returner => foldl (caller_returns g callee) st (vec_at (inEdges_ g) returner))
     st2 (vec_at (returnedBy_ g) callee)).2.

Definition storedInDegree (g : CallGraph) (id : SId) : nat :=
  match inEdges_ g !! id with
  | None => 0
  | Some idxs =>
      foldl (fun count idx =>
               match edges_ g !! idx with
               | Some se => if (0 <? s_refs se)%N then S count else count
               | None => count
               end) 0 idxs
  end.

Definition nodeCount (g : CallGraph) : nat := size (nodes_ g).

Definition edgeCount (g : CallGraph) : Z := liveEdgeCount_ g.

(** ** Queries by name *)

Definition displayFor (g : CallGraph) (usrId : SId) : bytes :=
  match nodes_ g !! usrId with
  | Some node => qualifiedName node
  | None => resolve (interner_ g) usrId
  end.

Definition materialize (g : CallGraph) (r : EdgeRef) : CallGraphEdge :=
  MkEdge (displayFor g (r_caller r)) (displayFor g (r_callee r)) (r_kind r) (r_confidence r)
    (resolve (interner_ g) (r_callSite r)) (r_indirectionDepth r) (r_execContext r)
    (resolve (interner_ g) (r_caller r)) (resolve (interner_ g) (r_callee r)).

Section ByName.
(** [llvm::json::isUTF8], as in Utf8.v. *)
Variable isValidUtf8 : bytes -> bool.

Definition findText (g : CallGraph) (s : bytes) : option SId :=
  if isValidUtf8 s then find (interner_ g) s else find (interner_ g) (toIndexText s).

Definition resolveUsrIds (g : CallGraph) (name : bytes) : list SId :=
  match findText g name with
  | None => []
  | Some id =>
      match nodes_ g !! id with
      | Some _ => [id]
      | None =>
          match byName_ g !! id with
          | Some (u :: us) => u :: us
          | _ => [id]
          end
      end
  end.

Definition usrsForName (g : CallGraph) (name : bytes) : list bytes :=
  resolve (interner_ g) <$> resolveUsrIds g name.

Definition calleesOf (g : CallGraph) (name : bytes) : list CallGraphEdge :=
  usrId ← resolveUsrIds g name; materialize g <$> calleeRefsOf g usrId.

Definition callersOf (g : CallGraph) (name : bytes) : list CallGraphEdge :=
  usrId ← resolveUsrIds g name; materialize g <$> callerRefsOf g usrId.

Definition storedInDegree_name (g : CallGraph) (name : bytes) : nat :=
  foldl (fun count usrId => count + storedInDegree g usrId) 0 (resolveUsrIds g name).

Definition findNode (g : CallGraph) (name : bytes) : option CallGraphNode :=
  foldl (fun best usrId =>
           match nodes_ g !! usrId, best with
           | None, _ => best
           | Some n, None => Some n
           | Some n, Some b => if bytes_ltb (usr n) (usr b) then Some n else best
           end) None (resolveUsrIds g name).

Definition getDerivedClasses (g : CallGraph) (baseClass : bytes) : list bytes :=
  match findText g baseClass with
  | None => []
  | Some id => resolve (interner_ g) <$> vec_at (derivedClasses_ g) id
  end.

(** The loop marks a class when it is popped, so a class pushed twice is popped
    twice: one round per push, and a class pushes its successors once. *)
Fixpoint derived_loop (fuel : nat) (rel : gmap SId (list SId)) (visited : gset SId)
    (result stack : list SId) : list SId :=
  match fuel, stack with
  | S fuel', cls :: stack' =>
      if decide (cls ∈ visited) then derived_loop fuel' rel visited result stack'
      else
        derived_loop fuel' rel ({[cls]} ∪ visited)
          (result ++ vec_at rel cls) (rev (vec_at rel cls) ++ stack')
  | _, _ => result
  end.

Definition rel_length (rel : gmap SId (list SId)) : nat :=
  map_fold (fun _ l n => length l + n) 0 rel.

Definition getAllDerivedClasses (g : CallGraph) (baseClass : bytes) : list bytes :=
  match findText g baseClass with
  | None => []
  | Some baseId =>
      resolve (interner_ g) <$>
        derived_loop (S (rel_length (derivedClasses_ g))) (derivedClasses_ g) ∅ [] [baseId]
  end.

(** The results of several candidates, without repeats. *)
Definition union_ids (lists : list (list SId)) : list SId :=
  foldl (fun acc sid => if decide (sid ∈ acc) then acc else acc ++ [sid]) [] (concat lists).

Definition getOverrides (g : CallGraph) (baseMethod : bytes) : list bytes :=
  displayFor g <$>
    union_ids (vec_at (methodOverrides_ g) <$> resolveUsrIds g baseMethod).

Definition getTransitiveOverrides (g : CallGraph) (baseMethod : bytes) : list bytes :=
  displayFor g <$>
    union_ids ((fun u => transitiveClosure u (methodOverrides_ g)) <$> resolveUsrIds g baseMethod).

Definition getOverriddenBases (g : CallGraph) (method : bytes) : list bytes :=
  displayFor g <$>
    union_ids ((fun u => transitiveClosure u (overrideBases_ g)) <$> resolveUsrIds g method).

Definition getClassesForImpl (g : CallGraph) (implMethod : bytes) : list bytes :=
  resolve (interner_ g) <$>
    union_ids ((fun u => set_order (set_at (effectiveImplClasses_ g) u))
                 <$> resolveUsrIds g implMethod).

Definition getFunctionReturns (g : CallGraph) (funcName : bytes) : gset bytes :=
  list_to_set
    (displayFor g <$>
       (u ← resolveUsrIds g funcName; set_order (set_at (functionReturns_ g) u))).
End ByName.
