(* ===== verification/CallGraphInv.v ===== *)
(** The representation invariant of the call graph and its preservation by the
    mutators that add facts.

    The invariant is split by the fields it is about, so that a mutator only has
    to re-establish the parts it touches; each part is monotone when the interner
    grows. *)

From S2P Require Import Prelude Registrations Utf8 StringInterner CallGraph.

Create HintDb callgraph.

(** * The invariant *)

Definition live (se : StoredEdge) : Prop := s_refs se <> 0%N.

#[global] Instance live_dec se : Decision (live se).
Proof. unfold live. apply _. Defined.

(** An id of the table. *)
Definition known (t : StringInterner) (id : SId) : Prop := is_Some (resolve_opt t id).

(** Nodes are keyed by their usr; [byName_] lists exactly the nodes of a name. *)
Record nodes_ok (t : StringInterner) (nodes : gmap SId CallGraphNode)
    (byName : gmap SId (list SId)) : Prop := {
  nodes_usr : forall id n, nodes !! id = Some n -> resolve_opt t id = Some (usr n);
  nodes_named : forall id n, nodes !! id = Some n ->
    exists d, resolve_opt t d = Some (qualifiedName n) /\ id ∈ vec_at byName d;
  byName_nodes : forall d id, id ∈ vec_at byName d ->
    exists n, nodes !! id = Some n /\ resolve_opt t d = Some (qualifiedName n);
  byName_nonempty : forall d, byName !! d <> Some [];
  byName_NoDup : forall d, NoDup (vec_at byName d)
}.

(** [tuNodes_] is the inverse of [nodeContributors_], over registered nodes. *)
Record contrib_ok (t : StringInterner) (nodes : gmap SId CallGraphNode)
    (contributors : gmap SId (gset SId)) (tuNodes : gmap SId (list SId)) : Prop := {
  contrib_inverse : forall tu n, n ∈ vec_at tuNodes tu <-> tu ∈ set_at contributors n;
  contrib_NoDup : forall tu, NoDup (vec_at tuNodes tu);
  contrib_nonempty : forall n, contributors !! n <> Some ∅;
  contrib_node : forall n, is_Some (contributors !! n) -> is_Some (nodes !! n);
  contrib_known : forall tu, is_Some (tuNodes !! tu) -> known t tu
}.

(** The adjacency vectors list exactly the live edges, in insertion order. *)
Definition adjacency_ok (edges : list StoredEdge) (side : StoredEdge -> SId)
    (m : gmap SId (list nat)) : Prop :=
  forall c, StronglySorted lt (vec_at m c) /\
    forall i, i ∈ vec_at m c <-> exists se, edges !! i = Some se /\ live se /\ side se = c.

Record edges_ok (t : StringInterner) (edges : list StoredEdge) (index : gmap EdgeKey nat)
    (out inn : gmap SId (list nat)) (count : Z) : Prop := {
  edges_known : forall i se, edges !! i = Some se ->
    known t (s_caller se) /\ known t (s_callee se) /\ known t (s_callSite se);
  edges_width : forall i se, edges !! i = Some se -> (s_refs se < two32)%N;
  edges_index : forall k i, index !! k = Some i <->
    exists se, edges !! i = Some se /\ live se /\ keyOf se = k;
  edges_out : adjacency_ok edges s_caller out;
  edges_in : adjacency_ok edges s_callee inn;
  edges_count : count = Z.of_nat (length (filter live edges))
}.

Definition refs_at (edges : list StoredEdge) (i : nat) : nat :=
  match edges !! i with Some se => N.to_nat (s_refs se) | None => 0 end.

(** Every TU registration is one of the edge's references. *)
Record tu_ok (t : StringInterner) (edges : list StoredEdge) (tuEdges : gmap SId (list nat))
  : Prop := {
  tu_counted : forall i, regs tuEdges i <= refs_at edges i;
  tu_known : forall tu, is_Some (tuEdges !! tu) -> known t tu
}.

(** The relation maps hold table ids, and the reverse maps are the inverses. *)
Record rels_ok (t : StringInterner) (derived overrides bases : gmap SId (list SId))
    (impls returns : gmap SId (gset SId)) (returnedBy : gmap SId (list SId)) : Prop := {
  rels_inverse : forall b o, o ∈ vec_at overrides b <-> b ∈ vec_at bases o;
  rels_returns : forall f r, r ∈ set_at returns f <-> f ∈ vec_at returnedBy r;
  rels_derived_known : forall b d, d ∈ vec_at derived b -> known t b /\ known t d;
  rels_over_known : forall b o, o ∈ vec_at overrides b -> known t b /\ known t o;
  rels_impl_known : forall m c, c ∈ set_at impls m -> known t m /\ known t c;
  rels_ret_known : forall f r, r ∈ set_at returns f -> known t f /\ known t r
}.

Record cg_ok (g : CallGraph) : Prop := {
  ok_interner : interner_ok (interner_ g);
  ok_nodes : nodes_ok (interner_ g) (nodes_ g) (byName_ g);
  ok_contrib : contrib_ok (interner_ g) (nodes_ g) (nodeContributors_ g) (tuNodes_ g);
  ok_edges : edges_ok (interner_ g) (edges_ g) (edgeIndex_ g) (outEdges_ g) (inEdges_ g)
               (liveEdgeCount_ g);
  ok_tu : tu_ok (interner_ g) (edges_ g) (tuEdges_ g);
  ok_rels : rels_ok (interner_ g) (derivedClasses_ g) (methodOverrides_ g) (overrideBases_ g)
              (effectiveImplClasses_ g) (functionReturns_ g) (returnedBy_ g)
}.

(** * Interning *)

Lemma known_extends t t' id : extends t t' -> known t id -> known t' id.
Proof. intros He [s Hs]. exists s. by eapply extends_resolve. Qed.

Lemma resolve_known t id s : resolve_opt t id = Some s -> known t id.
Proof. intros H. unfold known. by rewrite H. Qed.

#[export] Hint Resolve known_extends resolve_known : callgraph.

Lemma internRaw_eq t s : internRaw t s = intern t (toIndexText s).
Proof. unfold internRaw, toIndexText. by destruct (needsIndexEscape s). Qed.

Lemma internRaw_spec t s t' id :
  internRaw t s = (t', id) -> interner_ok t -> room 1 t ->
  interner_ok t' /\ extends t t' /\ resolve_opt t' id = Some (toIndexText s) /\
  (table_size t' <= table_size t + 1)%nat.
Proof. rewrite internRaw_eq. apply intern_spec. Qed.

(** Name the results of the next [intern] or [internRaw] in the goal and record
    what it promises. *)
Tactic Notation "intern_step" ident(t) ident(id) :=
  let E := fresh "E" in
  let Hok := fresh "Hok" t in
  let He := fresh "He" t in
  let Hr := fresh "Hr" t in
  let Hs := fresh "Hs" t in
  match goal with
  | |- context [intern ?a ?s] =>
      destruct (intern a s) as [t id] eqn:E;
      destruct (intern_spec _ _ _ _ E) as (Hok & He & Hr & Hs);
      [done || apply _|unfold room in *; lia|]
  | |- context [internRaw ?a ?s] =>
      destruct (internRaw a s) as [t id] eqn:E;
      destruct (internRaw_spec _ _ _ _ E) as (Hok & He & Hr & Hs);
      [done || apply _|unfold room in *; lia|]
  end.

(** * Monotonicity in the interner *)

Lemma nodes_ok_extends t t' nodes byName :
  extends t t' -> nodes_ok t nodes byName -> nodes_ok t' nodes byName.
Proof.
  intros He [H1 H2 H3 H4 H5]. split; try done.
  - intros id n Hn. eapply extends_resolve; eauto.
  - intros id n Hn. destruct (H2 id n Hn) as (d & ? & ?). exists d. eauto using extends_resolve.
  - intros d id Hin. destruct (H3 d id Hin) as (n & ? & ?). exists n. eauto using extends_resolve.
Qed.

Lemma contrib_ok_extends t t' nodes c tn :
  extends t t' -> contrib_ok t nodes c tn -> contrib_ok t' nodes c tn.
Proof. intros He []. split; eauto using known_extends. Qed.

Lemma edges_ok_extends t t' edges index out inn n :
  extends t t' -> edges_ok t edges index out inn n -> edges_ok t' edges index out inn n.
Proof.
  intros He []. split; try done. intros i se Hi.
  destruct (edges_known0 i se Hi) as (? & ? & ?). split_and!; eauto using known_extends.
Qed.

Lemma tu_ok_extends t t' edges tu : extends t t' -> tu_ok t edges tu -> tu_ok t' edges tu.
Proof. intros He []. split; eauto using known_extends. Qed.

Lemma rels_ok_extends t t' d o b i r rb :
  extends t t' -> rels_ok t d o b i r rb -> rels_ok t' d o b i r rb.
Proof.
  intros He []. split; try done; intros x y Hxy;
    [destruct (rels_derived_known0 x y Hxy)|destruct (rels_over_known0 x y Hxy)
    |destruct (rels_impl_known0 x y Hxy)|destruct (rels_ret_known0 x y Hxy)];
    split; eauto using known_extends.
Qed.

Lemma cg_ok_extends g t' :
  cg_ok g -> interner_ok t' -> extends (interner_ g) t' -> cg_ok (set_interner t' g).
Proof.
  intros [] Ht He. split; simpl; eauto using nodes_ok_extends, contrib_ok_extends,
    edges_ok_extends, tu_ok_extends, rels_ok_extends.
Qed.

Lemma empty_adjacency_ok side : adjacency_ok [] side ∅.
Proof.
  intros c. unfold vec_at. rewrite lookup_empty. split; [constructor|]. intros i.
  split; [by intros ?%not_elem_of_nil|]. intros (se & H & _). by rewrite lookup_nil in H.
Qed.

Lemma empty_graph_ok : cg_ok empty_graph.
Proof.
  split; [apply empty_ok| | | | |]; split; simpl; try apply empty_adjacency_ok;
    unfold vec_at, set_at; intros; rewrite ?lookup_empty in *; simpl in *; try done;
    try set_solver; try constructor; try (by apply not_elem_of_nil in H); try (by destruct H).
Qed.

(** * Nodes *)

Lemma set_at_elem_Some (m : gmap N (gset N)) k x : x ∈ set_at m k -> is_Some (m !! k).
Proof. unfold set_at. destruct (m !! k); [by eexists|]. simpl. set_solver. Qed.

Lemma push_unique_nonempty m k v d : m !! d <> Some [] -> push_unique k v m !! d <> Some [].
Proof.
  unfold push_unique. intros H. rewrite lookup_insert. case_decide; [subst d|done].
  unfold vec_at. case_decide as Hin; [|by destruct (default [] _)].
  destruct (m !! k) as [[|]|]; simpl in *; [done|done|by apply not_elem_of_nil in Hin].
Qed.

Lemma store_node_nodes_ok g nameId displayId node :
  interner_ok (interner_ g) ->
  nodes_ok (interner_ g) (nodes_ g) (byName_ g) ->
  resolve_opt (interner_ g) nameId = Some (usr node) ->
  (nodes_ g !! nameId = None -> resolve_opt (interner_ g) displayId = Some (qualifiedName node)) ->
  let g' := store_node nameId displayId node g in
  nodes_ok (interner_ g') (nodes_ g') (byName_ g').
Proof.
  intros Hi [H1 H2 H3 H4 H5] Hn Hd. unfold store_node.
  destruct (nodes_ g !! nameId) as [old|] eqn:Eold; simpl.
  - (* a registered node is backfilled: usr and display name stay *)
    split; [| | |exact H4|exact H5].
    + intros id n. rewrite lookup_insert. case_decide; [|by apply H1].
      intros [= <-]. subst id. simpl. by apply H1.
    + intros id n. rewrite lookup_insert. case_decide; [|by apply H2].
      intros [= <-]. subst id. simpl. by apply (H2 nameId old).
    + intros d id Hin. destruct (H3 d id Hin) as (n & Hl & Hr). rewrite lookup_insert.
      case_decide; [|by exists n]. subst id. exists (backfill old node).
      split; [done|]. simpl. congruence.
  - specialize (Hd eq_refl). split.
    + intros id n. rewrite lookup_insert. case_decide; [congruence|by apply H1].
    + intros id n. rewrite lookup_insert. case_decide as E.
      * intros [= <-]. subst id. exists displayId. split; [done|].
        apply elem_of_push_unique. by right.
      * intros Hl. destruct (H2 id n Hl) as (d & ? & ?). exists d. split; [done|].
        apply elem_of_push_unique. by left.
    + intros d id [Hin|[<- ->]]%elem_of_push_unique.
      * destruct (H3 d id Hin) as (n & ? & ?). exists n.
        rewrite lookup_insert_ne by congruence. done.
      * exists node. by rewrite lookup_insert_eq.
    + intros d. by apply push_unique_nonempty.
    + intros d. by apply NoDup_push_unique.
Qed.

Lemma store_node_is_Some g nameId displayId node id :
  is_Some (nodes_ g !! id) \/ id = nameId ->
  is_Some (nodes_ (store_node nameId displayId node g) !! id).
Proof.
  unfold store_node. intros H. destruct (nodes_ g !! nameId) eqn:E; simpl;
    rewrite lookup_insert; case_decide; try done; destruct H; naive_solver.
Qed.

Lemma contrib_ok_nodes t nodes nodes' c tn :
  (forall id, is_Some (nodes !! id) -> is_Some (nodes' !! id)) ->
  contrib_ok t nodes c tn -> contrib_ok t nodes' c tn.
Proof. intros H []. split; eauto. Qed.

Lemma contribute_ok t nodes nameId tuId g :
  is_Some (nodes !! nameId) -> known t tuId ->
  contrib_ok t nodes (nodeContributors_ g) (tuNodes_ g) ->
  let g' := contribute nameId tuId g in
  contrib_ok t nodes (nodeContributors_ g') (tuNodes_ g').
Proof.
  intros Hn Ht [H1 H2 H3 H4 H5]. unfold contribute. case_decide as Hin; simpl.
  - assert (E : set_insert nameId tuId (nodeContributors_ g) = nodeContributors_ g).
    { apply map_eq. intros n. unfold set_insert. rewrite lookup_insert. case_decide; [subst n|done].
      destruct (set_at_elem_Some _ _ _ Hin) as [c Hc]. rewrite Hc. f_equal.
      unfold set_at in *. rewrite Hc in *. simpl in *. set_solver. }
    rewrite E. by split.
  - split.
    + intros tu n. rewrite elem_of_push_back, elem_of_set_insert, H1. naive_solver.
    + intros tu. rewrite vec_at_push_back. case_decide; [subst tu|by rewrite app_nil_r].
      apply NoDup_app. split_and!; [apply H2| |apply NoDup_singleton].
      intros n Hn' ->%list_elem_of_singleton. by apply Hin, H1.
    + intros n. unfold set_insert. rewrite lookup_insert. case_decide; [|done].
      intros [= E]. set_solver.
    + intros n. unfold set_insert. rewrite lookup_insert. case_decide; [by subst n|apply H4].
    + intros tu. unfold push_back. rewrite lookup_insert. case_decide; [by subst tu|apply H5].
Qed.

(** * Edges *)

Lemma kind_code_inj a b : kind_code a = kind_code b -> a = b.
Proof. by destruct a, b. Qed.
Lemma confidence_code_inj a b : confidence_code a = confidence_code b -> a = b.
Proof. by destruct a, b. Qed.
Lemma exec_code_inj a b : exec_code a = exec_code b -> a = b.
Proof. by destruct a, b. Qed.

(** The content key is the edge without its reference count. *)
Lemma keyOf_ref_of a b : keyOf a = keyOf b <-> ref_of a = ref_of b.
Proof.
  destruct a, b. unfold keyOf, ref_of. simpl. split; intros [=]; subst; [|done].
  f_equal; eauto using kind_code_inj, confidence_code_inj, exec_code_inj.
Qed.

Lemma keyOf_add_refs n se : keyOf (add_refs n se) = keyOf se.
Proof. done. Qed.

Lemma edges_key_unique t edges index out inn n i j a b :
  edges_ok t edges index out inn n ->
  edges !! i = Some a -> edges !! j = Some b -> live a -> live b -> keyOf a = keyOf b -> i = j.
Proof.
  intros H Hi Hj La Lb Hk.
  assert (index !! keyOf a = Some i) by (apply (edges_index _ _ _ _ _ _ H); by exists a).
  assert (index !! keyOf a = Some j) by (apply (edges_index _ _ _ _ _ _ H); by exists b).
  congruence.
Qed.

(** Changing a stored edge in place without touching its endpoints or liveness. *)
Lemma adjacency_ok_update edges side m i f se :
  edges !! i = Some se -> side (f se) = side se -> (live (f se) <-> live se) ->
  adjacency_ok edges side m -> adjacency_ok (alter f i edges) side m.
Proof.
  intros Hi Hs Hl H c. destruct (H c) as [Hnd Hc]. split; [done|]. intros j.
  rewrite Hc. destruct (decide (i = j)) as [<-|Hne].
  - rewrite list_lookup_alter_eq, Hi. simpl. split; intros (x & [= <-] & ? & ?).
    + exists (f se). by rewrite Hs, Hl.
    + exists se. by rewrite <- Hs, <- Hl.
  - by rewrite list_lookup_alter_ne.
Qed.

Lemma adjacency_ok_append edges side m se :
  live se -> adjacency_ok edges side m ->
  adjacency_ok (edges ++ [se]) side (push_back (side se) (length edges) m).
Proof.
  intros Hl H c. destruct (H c) as [Hnd Hc]. split.
  - rewrite vec_at_push_back. case_decide; [subst c|by rewrite app_nil_r].
    apply StronglySorted_app_2; [|done|repeat constructor].
    intros i j (x & Hx & _)%Hc ->%list_elem_of_singleton. by apply lookup_lt_Some in Hx.
  - intros i. rewrite elem_of_push_back, Hc. split.
    + intros [(x & Hx & ?)|[<- ->]].
      * exists x. split; [|done]. by apply lookup_app_l_Some.
      * exists se. by rewrite lookup_app_r, Nat.sub_diag by done.
    + intros (x & [Hx|[Hge Hx]]%lookup_app_Some & ? & ?); [left; by exists x|].
      apply list_lookup_singleton_Some in Hx as [? <-]. right. split; [done|lia].
Qed.

Lemma filter_live_alter edges i f se :
  edges !! i = Some se -> (live (f se) <-> live se) ->
  length (filter live (alter f i edges)) = length (filter live edges).
Proof.
  intros Hi Hl. revert i Hi. induction edges as [|x l IH]; intros [|i] Hi; simplify_eq/=.
  - rewrite !filter_cons. destruct (decide (live (f se))), (decide (live se)); simpl; tauto || lia.
  - rewrite !filter_cons. case_decide; simpl; by rewrite (IH i).
Qed.

(** What a new registration must satisfy: table ids, a positive count, and room
    for the count in 32 bits. *)
Definition storable (t : StringInterner) (edges : list StoredEdge) (se : StoredEdge) : Prop :=
  known t (s_caller se) /\ known t (s_callee se) /\ known t (s_callSite se) /\
  live se /\ (s_refs se < two32)%N /\
  forall i old, edges !! i = Some old -> keyOf old = keyOf se -> (s_refs old + s_refs se < two32)%N.

Lemma store_edge_edges_ok g se g' idx :
  store_edge se g = (g', idx) -> storable (interner_ g) (edges_ g) se ->
  edges_ok (interner_ g) (edges_ g) (edgeIndex_ g) (outEdges_ g) (inEdges_ g) (liveEdgeCount_ g) ->
  edges_ok (interner_ g) (edges_ g') (edgeIndex_ g') (outEdges_ g') (inEdges_ g')
    (liveEdgeCount_ g').
Proof.
  intros Hst (Hk1 & Hk2 & Hk3 & Hl & Hw & Hfit) [E1 E2 E3 E4 E5 E6]. unfold store_edge in Hst.
  destruct (edgeIndex_ g !! keyOf se) as [i|] eqn:Ei; simplify_eq; simpl.
  - apply E3 in Ei as Hi. destruct Hi as (old & Hi & Hlo & Hko).
    assert (Hwo := Hfit _ _ Hi Hko).
    assert (Hlive : live (add_refs (s_refs se) old) <-> live old).
    { unfold live. simpl. rewrite u32_small by done. unfold live in *. lia. }
    split.
    + intros j x. destruct (decide (idx = j)) as [<-|].
      * rewrite list_lookup_alter_eq, Hi. intros [= <-]. simpl. by apply (E1 idx).
      * rewrite list_lookup_alter_ne by done. apply E1.
    + intros j x. destruct (decide (idx = j)) as [<-|].
      * rewrite list_lookup_alter_eq, Hi. intros [= <-]. simpl. apply u32_lt.
      * rewrite list_lookup_alter_ne by done. apply E2.
    + intros k j. rewrite E3. destruct (decide (idx = j)) as [<-|].
      * rewrite list_lookup_alter_eq, Hi. simpl. split; intros (x & [= <-] & ? & ?).
        -- exists (add_refs (s_refs se) old). by rewrite Hlive.
        -- exists old. by rewrite <- Hlive.
      * by rewrite list_lookup_alter_ne.
    + by eapply adjacency_ok_update.
    + by eapply adjacency_ok_update.
    + by rewrite (filter_live_alter _ _ _ old).
  - split.
    + intros j x [Hx|[_ Hx]]%lookup_app_Some; [by apply (E1 j)|].
      by apply list_lookup_singleton_Some in Hx as [_ <-].
    + intros j x [Hx|[_ Hx]]%lookup_app_Some; [by apply (E2 j)|].
      by apply list_lookup_singleton_Some in Hx as [_ <-].
    + intros k j. rewrite lookup_insert. case_decide as Hk.
      * subst k. split.
        -- intros [= <-]. exists se. by rewrite lookup_app_r, Nat.sub_diag by done.
        -- intros (x & [Hx|[? Hx]]%lookup_app_Some & Hlx & Hkx).
           ++ assert (edgeIndex_ g !! keyOf se = Some j) by (apply E3; by exists x). congruence.
           ++ apply list_lookup_singleton_Some in Hx as [? <-]. f_equal. lia.
      * rewrite E3. split; intros (x & Hx & ? & ?); exists x; (split; [|done]).
        -- by apply lookup_app_l_Some.
        -- apply lookup_app_Some in Hx as [Hx|[? Hx]]; [done|].
           apply list_lookup_singleton_Some in Hx as [_ <-]. congruence.
    + by apply adjacency_ok_append.
    + by apply adjacency_ok_append.
    + rewrite E6, filter_app, length_app. simpl.
      rewrite filter_cons, decide_True by done. simpl. lia.
Qed.

(** The registrations an append or a dedup hit adds, and where. *)
Lemma store_edge_refs g se g' idx :
  store_edge se g = (g', idx) -> storable (interner_ g) (edges_ g) se ->
  edges_ok (interner_ g) (edges_ g) (edgeIndex_ g) (outEdges_ g) (inEdges_ g) (liveEdgeCount_ g) ->
  edgeIndex_ g' !! keyOf se = Some idx /\
  (forall i, refs_at (edges_ g') i =
     refs_at (edges_ g) i + (if decide (i = idx) then N.to_nat (s_refs se) else 0)) /\
  (forall k i, edgeIndex_ g !! k = Some i -> edgeIndex_ g' !! k = Some i) /\
  (forall k i, edgeIndex_ g' !! k = Some i -> edgeIndex_ g !! k = Some i \/ (k = keyOf se /\ i = idx)).
Proof.
  intros Hst (_ & _ & _ & _ & Hw & Hfit) [E1 E2 E3 _ _ _]. unfold store_edge, refs_at in *.
  destruct (edgeIndex_ g !! keyOf se) as [j|] eqn:Ei; simplify_eq; simpl.
  - split; [done|]. split; [|by auto]. intros i.
    apply E3 in Ei as (old & Hi & _ & Hko). specialize (Hfit _ _ Hi Hko).
    case_decide as E; [subst i|].
    + rewrite list_lookup_alter_eq, Hi. simpl. rewrite u32_small by done. lia.
    + rewrite list_lookup_alter_ne by done. lia.
  - split; [apply lookup_insert_eq|]. split; [|split].
    + intros i. destruct (decide (i = length (edges_ g))) as [->|Hne].
      * rewrite lookup_app_r, Nat.sub_diag by done. simpl.
        rewrite lookup_ge_None_2 by done. lia.
      * destruct (decide (i < length (edges_ g))).
        -- rewrite lookup_app_l by done. lia.
        -- rewrite !lookup_ge_None_2; [done|lia|rewrite length_app; simpl; lia].
    + intros k i Hk. rewrite lookup_insert_ne by congruence. done.
    + intros k i. rewrite lookup_insert. case_decide; naive_solver.
Qed.

(** The fields [store_edge] leaves alone. *)
Lemma store_edge_frame g se g' idx :
  store_edge se g = (g', idx) ->
  interner_ g' = interner_ g /\ nodes_ g' = nodes_ g /\ byName_ g' = byName_ g /\
  nodeContributors_ g' = nodeContributors_ g /\ tuNodes_ g' = tuNodes_ g /\
  tuEdges_ g' = tuEdges_ g /\ derivedClasses_ g' = derivedClasses_ g /\
  methodOverrides_ g' = methodOverrides_ g /\ overrideBases_ g' = overrideBases_ g /\
  effectiveImplClasses_ g' = effectiveImplClasses_ g /\
  functionReturns_ g' = functionReturns_ g /\ returnedBy_ g' = returnedBy_ g /\
  readOnly_ g' = readOnly_ g.
Proof. unfold store_edge. destruct (edgeIndex_ g !! keyOf se); intros; by simplify_eq. Qed.

(** * TU registrations *)


(** * Relations *)

Lemma store_override_ok t b o g :
  known t b -> known t o ->
  rels_ok t (derivedClasses_ g) (methodOverrides_ g) (overrideBases_ g)
    (effectiveImplClasses_ g) (functionReturns_ g) (returnedBy_ g) ->
  let g' := store_override b o g in
  rels_ok t (derivedClasses_ g') (methodOverrides_ g') (overrideBases_ g')
    (effectiveImplClasses_ g') (functionReturns_ g') (returnedBy_ g').
Proof.
  intros Hb Ho []. split; simpl; try done.
  - intros x y. rewrite !elem_of_push_unique, rels_inverse0. naive_solver.
  - intros x y [?|[<- ->]]%elem_of_push_unique; [by apply rels_over_known0|done].
Qed.

Lemma store_return_ok t f r g :
  known t f -> known t r ->
  rels_ok t (derivedClasses_ g) (methodOverrides_ g) (overrideBases_ g)
    (effectiveImplClasses_ g) (functionReturns_ g) (returnedBy_ g) ->
  let g' := store_return f r g in
  rels_ok t (derivedClasses_ g') (methodOverrides_ g') (overrideBases_ g')
    (effectiveImplClasses_ g') (functionReturns_ g') (returnedBy_ g').
Proof.
  intros Hf Hr []. unfold store_return. case_decide as Hin; split; simpl; try done.
  - intros x y. rewrite elem_of_set_insert, rels_returns0. split; [|by left].
    intros [?|[<- ->]]; [done|]. by apply rels_returns0.
  - intros x y [?|[<- ->]]%elem_of_set_insert; [by apply rels_ret_known0|done].
  - intros x y. rewrite elem_of_set_insert, elem_of_push_back, rels_returns0. naive_solver.
  - intros x y [?|[<- ->]]%elem_of_set_insert; [by apply rels_ret_known0|done].
Qed.

(** * The mutators preserve the invariant *)

(** Every stored count leaves room for [n] more registrations. *)
Definition fits (n : N) (g : CallGraph) : Prop :=
  forall i se, edges_ g !! i = Some se -> (s_refs se + n < two32)%N.

Lemma cg_ok_store_node g nameId displayId node :
  cg_ok g -> resolve_opt (interner_ g) nameId = Some (usr node) ->
  (nodes_ g !! nameId = None -> resolve_opt (interner_ g) displayId = Some (qualifiedName node)) ->
  cg_ok (store_node nameId displayId node g).
Proof.
  intros [Hi Hno Hc He Htu Hr] Hn Hd.
  pose proof (store_node_nodes_ok g nameId displayId node Hi Hno Hn Hd) as Hnodes.
  pose proof (fun id H => store_node_is_Some g nameId displayId node id (or_introl H)) as Hsome.
  pose proof (contrib_ok_nodes _ _ _ _ _ Hsome Hc) as Hc'.
  unfold store_node in *. by destruct (nodes_ g !! nameId); split.
Qed.

Lemma cg_ok_contribute g nameId tuId :
  cg_ok g -> is_Some (nodes_ g !! nameId) -> known (interner_ g) tuId ->
  cg_ok (contribute nameId tuId g).
Proof.
  intros [] Hn Ht. pose proof (contribute_ok _ _ _ _ g Hn Ht ok_contrib0) as Hc.
  unfold contribute in *. case_decide; by split.
Qed.

Lemma addNode_ok node tuPath g :
  cg_ok g -> room 3 (interner_ g) -> cg_ok (addNode node tuPath g).
Proof.
  intros Hg Hroom. pose proof (ok_interner _ Hg) as Hi. unfold addNode.
  destruct (readOnly_ g); [done|].
  intern_step t1 nameId. intern_step t2 displayId.
  set (nd := normalize_node node) in *.
  assert (Hg1 : cg_ok (store_node nameId displayId nd (set_interner t2 g))).
  { apply cg_ok_store_node; [apply cg_ok_extends; [done|done|by etrans]| |done].
    simpl. by eapply extends_resolve. }
  assert (Ei : interner_ (store_node nameId displayId nd (set_interner t2 g)) = t2).
  { unfold store_node. simpl. by destruct (nodes_ g !! nameId). }
  set (g1 := store_node _ _ _ _) in *. destruct (is_empty tuPath); [done|].
  rewrite Ei. intern_step t3 tuId.
  apply cg_ok_contribute; [apply cg_ok_extends; [done|done|by rewrite Ei]| |].
  - simpl. apply store_node_is_Some. by right.
  - by eapply resolve_known.
Qed.

Lemma tu_ok_push t edges tuEdges tuId idx :
  known t tuId -> regs tuEdges idx < refs_at edges idx ->
  tu_ok t edges tuEdges -> tu_ok t edges (push_back tuId idx tuEdges).
Proof.
  intros Hk Hlt [H1 H2]. split.
  - intros i. rewrite regs_push_back. specialize (H1 i). case_decide; [by subst; lia|lia].
  - intros tu. unfold push_back. rewrite lookup_insert. case_decide; [by subst tu|apply H2].
Qed.

Lemma cg_ok_store_edge g se g' idx :
  store_edge se g = (g', idx) -> storable (interner_ g) (edges_ g) se -> cg_ok g ->
  cg_ok g' /\ (regs (tuEdges_ g') idx + N.to_nat (s_refs se) <= refs_at (edges_ g') idx).
Proof.
  intros Hst Hok [Hi Hno Hc He Htu Hr].
  pose proof (store_edge_edges_ok g se g' idx Hst Hok He) as He'.
  destruct (store_edge_refs g se g' idx Hst Hok He) as (_ & Hrefs & _ & _).
  assert (Htu' : tu_ok (interner_ g) (edges_ g') (tuEdges_ g)).
  { destruct Htu as [H1 H2]. split; [|done]. intros i. rewrite Hrefs. specialize (H1 i). lia. }
  assert (Hlast : regs (tuEdges_ g) idx + N.to_nat (s_refs se) <= refs_at (edges_ g') idx).
  { rewrite Hrefs, decide_True by done. pose proof (tu_counted _ _ _ Htu idx). lia. }
  destruct (store_edge_frame g se g' idx Hst)
    as (E1 & E2 & E3 & E4 & E5 & E6 & E7 & E8 & E9 & E10 & E11 & E12 & _).
  split; [split|]; by rewrite ?E1, ?E2, ?E3, ?E4, ?E5, ?E6, ?E7, ?E8, ?E9, ?E10, ?E11, ?E12.
Qed.

Lemma addEdge_ok edge tuPath g :
  cg_ok g -> room 4 (interner_ g) -> fits 1 g -> cg_ok (addEdge edge tuPath g).
Proof.
  intros Hg Hroom Hfits. pose proof (ok_interner _ Hg) as Hi. unfold addEdge.
  destruct (readOnly_ g); [done|].
  intern_step t1 caller. intern_step t2 callee. intern_step t3 callSite.
  set (se := MkStored _ _ _ _ _ _ _ _).
  assert (Hg0 : cg_ok (set_interner t3 g)).
  { apply cg_ok_extends; [done|done|]. etrans; [done|]. by etrans. }
  destruct (store_edge se (set_interner t3 g)) as [g1 idx] eqn:Est.
  destruct (cg_ok_store_edge _ _ _ _ Est) as [Hg1 Hlast]; [|done|].
  { split_and!; simpl; eauto 6 with callgraph; try done. }
  assert (Ei : interner_ g1 = t3) by apply (store_edge_frame _ _ _ _ Est).
  destruct (is_empty tuPath); [done|].
  rewrite Ei. intern_step t4 tuId.
  assert (Hg2 : cg_ok (set_interner t4 g1)) by (apply cg_ok_extends; [done|done|by rewrite Ei]).
  destruct Hg2. split; simpl in *; try done.
  apply tu_ok_push; [by eapply resolve_known|simpl in Hlast; lia|done].
Qed.

Lemma addDerivedClass_ok b d g :
  cg_ok g -> room 2 (interner_ g) -> cg_ok (addDerivedClass b d g).
Proof.
  intros Hg Hroom. pose proof (ok_interner _ Hg) as Hi. unfold addDerivedClass.
  destruct (readOnly_ g); [done|].
  intern_step t1 bId. intern_step t2 dId.
  destruct (cg_ok_extends g t2) as [? ? ? ? ? Hr]; [done|done|by etrans|].
  split; simpl in *; try done. destruct Hr. split; try done.
  intros x y [?|[<- ->]]%elem_of_push_unique; [by apply rels_derived_known0|].
  split; eauto with callgraph.
Qed.

Lemma addMethodOverride_ok b o g :
  cg_ok g -> room 2 (interner_ g) -> cg_ok (addMethodOverride b o g).
Proof.
  intros Hg Hroom. pose proof (ok_interner _ Hg) as Hi. unfold addMethodOverride.
  destruct (readOnly_ g); [done|].
  intern_step t1 bId. intern_step t2 oId.
  destruct (cg_ok_extends g t2) as [? ? ? ? ? Hr]; [done|done|by etrans|].
  split; simpl in *; try done.
  apply (store_override_ok _ bId oId (set_interner t2 g)); eauto with callgraph.
Qed.

Lemma addEffectiveImpl_ok c m g :
  cg_ok g -> room 2 (interner_ g) -> cg_ok (addEffectiveImpl c m g).
Proof.
  intros Hg Hroom. pose proof (ok_interner _ Hg) as Hi. unfold addEffectiveImpl.
  destruct (readOnly_ g); [done|].
  intern_step t1 mId. intern_step t2 cId.
  destruct (cg_ok_extends g t2) as [? ? ? ? ? Hr]; [done|done|by etrans|].
  split; simpl in *; try done. destruct Hr. split; try done.
  intros x y [?|[<- ->]]%elem_of_set_insert; [by apply rels_impl_known0|].
  split; eauto with callgraph.
Qed.

Lemma cg_ok_store_return g f r :
  cg_ok g -> known (interner_ g) f -> known (interner_ g) r -> cg_ok (store_return f r g).
Proof.
  intros [] Hf Hr. pose proof (store_return_ok _ f r g Hf Hr ok_rels0) as H.
  unfold store_return in *. case_decide; by split.
Qed.

Lemma addFunctionReturn_ok f r g :
  cg_ok g -> room 2 (interner_ g) -> cg_ok (addFunctionReturn f r g).
Proof.
  intros Hg Hroom. pose proof (ok_interner _ Hg) as Hi. unfold addFunctionReturn.
  destruct (readOnly_ g); [done|].
  intern_step t1 fId. intern_step t2 rId.
  apply cg_ok_store_return; [apply cg_ok_extends; [done|done|by etrans]| |]; simpl;
    eauto with callgraph.
Qed.

(** * Sequences of mutations *)

Inductive mutation :=
| AddNode (node : CallGraphNode) (tuPath : bytes)
| AddEdge (edge : CallGraphEdge) (tuPath : bytes)
| AddDerivedClass (baseClass derivedClass : bytes)
| AddMethodOverride (baseMethod overrideMethod : bytes)
| AddEffectiveImpl (concreteClass implMethod : bytes)
| AddFunctionReturn (funcName returnedFunc : bytes).

Definition mutate (m : mutation) (g : CallGraph) : CallGraph :=
  match m with
  | AddNode node tu => addNode node tu g
  | AddEdge edge tu => addEdge edge tu g
  | AddDerivedClass b d => addDerivedClass b d g
  | AddMethodOverride b o => addMethodOverride b o g
  | AddEffectiveImpl c i => addEffectiveImpl c i g
  | AddFunctionReturn f r => addFunctionReturn f r g
  end.

Definition build (ms : list mutation) (g : CallGraph) : CallGraph :=
  foldl (fun g m => mutate m g) g ms.

(** At most [n] references on every edge. *)
Definition refs_le (n : nat) (edges : list StoredEdge) : Prop := forall i, refs_at edges i <= n.

Lemma refs_le_fits n g : refs_le n (edges_ g) -> (N.of_nat n + 1 < two32)%N -> fits 1 g.
Proof.
  intros H Hn i se Hi. specialize (H i). unfold refs_at in H. rewrite Hi in H. lia.
Qed.

Lemma interner_store_node nameId displayId node g :
  interner_ (store_node nameId displayId node g) = interner_ g.
Proof. unfold store_node. by destruct (nodes_ g !! nameId). Qed.

Lemma interner_contribute nameId tuId g : interner_ (contribute nameId tuId g) = interner_ g.
Proof. unfold contribute. by case_decide. Qed.

Lemma interner_store_return f r g : interner_ (store_return f r g) = interner_ g.
Proof. unfold store_return. by case_decide. Qed.

Lemma mutate_size m g :
  cg_ok g -> room 4 (interner_ g) ->
  table_size (interner_ (mutate m g)) <= table_size (interner_ g) + 4.
Proof.
  intros Hg Hroom. pose proof (ok_interner _ Hg) as Hi.
  destruct m; simpl;
    unfold addNode, addEdge, addDerivedClass, addMethodOverride, addEffectiveImpl,
      addFunctionReturn; (destruct (readOnly_ g); [lia|]);
    intern_step t1 a; intern_step t2 b; simpl; rewrite ?interner_store_node;
    rewrite ?interner_store_return; simpl; try lia.
  - destruct (is_empty tuPath); [rewrite interner_store_node; simpl; lia|].
    intern_step t3 c. rewrite interner_contribute. simpl. lia.
  - intern_step t3 c. destruct (store_edge _ _) as [g1 idx] eqn:Est.
    assert (Ei : interner_ g1 = t3) by apply (store_edge_frame _ _ _ _ Est).
    destruct (is_empty tuPath); [rewrite Ei; lia|]. rewrite Ei. intern_step t4 d. simpl. lia.
Qed.

Lemma edges_store_node nameId displayId node g :
  edges_ (store_node nameId displayId node g) = edges_ g.
Proof. unfold store_node. by destruct (nodes_ g !! nameId). Qed.

Lemma edges_contribute nameId tuId g : edges_ (contribute nameId tuId g) = edges_ g.
Proof. unfold contribute. by case_decide. Qed.

Lemma edges_store_return f r g : edges_ (store_return f r g) = edges_ g.
Proof. unfold store_return. by case_decide. Qed.

Lemma mutate_refs m g n :
  cg_ok g -> room 4 (interner_ g) -> fits 1 g -> refs_le n (edges_ g) ->
  refs_le (S n) (edges_ (mutate m g)).
Proof.
  intros Hg Hroom Hfits Hn. pose proof (ok_interner _ Hg) as Hi.
  assert (Hsame : refs_le (S n) (edges_ g)) by (intros i; specialize (Hn i); lia).
  destruct m; simpl;
    unfold addNode, addEdge, addDerivedClass, addMethodOverride, addEffectiveImpl,
      addFunctionReturn; (destruct (readOnly_ g); [done|]);
    intern_step t1 a; intern_step t2 b; simpl; rewrite ?edges_store_return; simpl; try done.
  - destruct (is_empty tuPath); [by rewrite edges_store_node|].
    destruct (internRaw _ _) as [t3 c]. rewrite edges_contribute. simpl.
    by rewrite edges_store_node.
  - intern_step t3 c. set (se := MkStored _ _ _ _ _ _ _ _).
    destruct (store_edge se _) as [g1 idx] eqn:Est.
    assert (Hg0 : cg_ok (set_interner t3 g)).
    { apply cg_ok_extends; [done|done|]. etrans; [done|]. by etrans. }
    destruct (store_edge_refs _ _ _ _ Est) as (_ & Hr & _ & _); [|apply Hg0|].
    { split_and!; simpl; eauto 6 with callgraph; try done. }
    assert (H1 : refs_le (S n) (edges_ g1)).
    { intros i. rewrite Hr. simpl. specialize (Hn i). case_decide; lia. }
    destruct (is_empty tuPath); [done|]. destruct (internRaw (interner_ g1) tuPath) as [t4 d]; exact H1.
Qed.

Lemma mutate_ok m g : cg_ok g -> room 4 (interner_ g) -> fits 1 g -> cg_ok (mutate m g).
Proof.
  intros Hg Hr Hf.
  assert (H3 : room 3 (interner_ g)) by (by apply (room_weaken 4); [lia|]).
  assert (H2 : room 2 (interner_ g)) by (by apply (room_weaken 4); [lia|]).
  destruct m; simpl; auto using addEdge_ok, addNode_ok, addDerivedClass_ok,
    addMethodOverride_ok, addEffectiveImpl_ok, addFunctionReturn_ok.
Qed.

(** [n] mutations were run: their strings and registrations are within bounds. *)
Definition within (n : nat) (g : CallGraph) : Prop :=
  cg_ok g /\ table_size (interner_ g) <= 4 * n /\ refs_le n (edges_ g).

Lemma build_within n ms g :
  within n g -> (N.of_nat (4 * (n + length ms)) <= two32)%N ->
  within (n + length ms) (build ms g).
Proof.
  revert n g. induction ms as [|m ms IH]; intros n g (Hg & Ht & Hr) Hle; simpl in *.
  { rewrite Nat.add_0_r. done. }
  assert (Hroom : room 4 (interner_ g)) by (unfold room; lia).
  assert (Hfits : fits 1 g) by (eapply refs_le_fits; [done|unfold two32 in *; lia]).
  replace (n + S (length ms)) with (S n + length ms) by lia. apply IH; [|simpl; lia].
  split; [by apply mutate_ok|]. split; [|by apply mutate_refs].
  pose proof (mutate_size m g Hg Hroom). lia.
Qed.

Lemma build_ok ms : (N.of_nat (4 * length ms) <= two32)%N -> cg_ok (build ms empty_graph).
Proof.
  intros H. apply (build_within 0 ms empty_graph); [|done].
  split; [apply empty_graph_ok|]. split; [done|]. intros i. done.
Qed.

(** C36. Any sequence of additions to an empty graph keeps the representation
    invariant as long as its strings and registrations fit in 32 bits: nodes are
    keyed by their usr and listed under their display name, the content index and
    both adjacency maps list exactly the live edges, the live count is exact, the
    reverse maps are inverses, and no TU holds more registrations than an edge
    counts. *)
Theorem mutations_keep_invariant (ms : list mutation) :
  (N.of_nat (4 * length ms) <= two32)%N -> cg_ok (build ms empty_graph).
Proof. apply build_ok. Qed.

Definition direct (a b site : bytes) : CallGraphEdge :=
  MkEdge a b DirectCall Proven site 0 Synchronous [] [].

Lemma mutations_keep_invariant_witness :
  cg_ok (build [AddNode (MkNode (str "main") (str "m.cpp") 3 true false [] []) (str "m.cpp");
                AddEdge (direct (str "main") (str "f") (str "m.cpp:4:3")) (str "m.cpp");
                AddFunctionReturn (str "f") (str "main")] empty_graph).
Proof. apply mutations_keep_invariant. vm_compute. discriminate. Defined.
