(* ===== verification/CallGraphQuery.v ===== *)
(** What the queries of the call graph answer.

    [transitiveClosure] computes reachability; [calleeRefsOf] and [callerRefsOf]
    show, from the two ends, the same relation [reaches]: who can call whom at
    which call site, through stored edges, virtual dispatch and pointers returned
    by functions. *)

From S2P Require Import Prelude Registrations Utf8 StringInterner CallGraph CallGraphInv.

(** * Closure of a relation *)

Definition rel_step (rel : gmap SId (list SId)) (a b : SId) : Prop := b ∈ vec_at rel a.

Lemma elem_of_targets rel x : x ∈ targets rel <-> exists a, rel_step rel a x.
Proof.
  unfold targets, rel_step, vec_at.
  apply (map_fold_weak_ind (fun s m => x ∈ s <-> exists a, x ∈ default [] (m !! a))).
  - split; [set_solver|]. intros [a Ha]. rewrite lookup_empty in Ha. set_solver.
  - intros i l m r Hi IH. rewrite elem_of_union, elem_of_list_to_set, IH. split.
    + intros [Hl|[a Ha]]; [exists i; by rewrite lookup_insert_eq|].
      exists a. rewrite lookup_insert_ne; [done|]. intros ->. rewrite Hi in Ha. set_solver.
    + intros [a Ha]. rewrite lookup_insert in Ha. case_decide; [by left|]. right. by exists a.
Qed.

Lemma closure_push_fold nexts visited result stack :
  exists new,
    foldl closure_push (visited, result, stack) nexts =
      (list_to_set nexts ∪ visited, result ++ new, rev new ++ stack) /\
    NoDup new /\ (forall x, x ∈ new <-> x ∈ nexts /\ x ∉ visited).
Proof.
  revert visited result stack. induction nexts as [|n nexts IH]; intros visited result stack; simpl.
  - exists []. rewrite app_nil_r. split; [f_equal; f_equal; set_solver|]. split; [constructor|].
    set_solver.
  - case_decide as Hn.
    + destruct (IH visited result stack) as (new & -> & Hnd & Hnew). exists new. split_and!; [|done|].
      * f_equal. f_equal. set_solver.
      * intros x. rewrite Hnew, elem_of_cons.
        destruct (decide (x = n)) as [->|]; naive_solver.
    + destruct (IH ({[n]} ∪ visited) (result ++ [n]) (n :: stack)) as (new & -> & Hnd & Hnew).
      exists (n :: new). split_and!.
      * rewrite <- !app_assoc. simpl. rewrite <- app_assoc. simpl. f_equal. f_equal. set_solver.
      * constructor; [|done]. rewrite Hnew, not_elem_of_union, not_elem_of_singleton. naive_solver.
      * intros x. rewrite !elem_of_cons, Hnew, not_elem_of_union, not_elem_of_singleton.
        destruct (decide (x = n)) as [->|]; naive_solver.
Qed.

(** The loop's invariant: what is visited is reachable, and closed up to the
    stack. *)
Record closure_inv (rel : gmap SId (list SId)) (start : SId) (visited : gset SId)
    (result stack : list SId) : Prop := {
  ci_visited : forall x, x ∈ visited <-> x = start \/ x ∈ result;
  ci_reach : forall x, x ∈ visited -> rtc (rel_step rel) start x;
  ci_closed : forall x y, x ∈ visited -> x ∉ stack -> rel_step rel x y -> y ∈ visited;
  ci_NoDup : NoDup result;
  ci_start : start ∉ result;
  ci_stack : forall x, x ∈ stack -> x ∈ visited
}.

Lemma closure_inv_step rel start visited result cur stack :
  closure_inv rel start visited result (cur :: stack) ->
  exists new,
    foldl closure_push (visited, result, stack) (vec_at rel cur) =
      (list_to_set (vec_at rel cur) ∪ visited, result ++ new, rev new ++ stack) /\
    closure_inv rel start (list_to_set (vec_at rel cur) ∪ visited) (result ++ new)
      (rev new ++ stack) /\
    NoDup new /\ (forall x, x ∈ new <-> x ∈ vec_at rel cur /\ x ∉ visited).
Proof.
  intros []. destruct (closure_push_fold (vec_at rel cur) visited result stack)
    as (new & Hf & Hnd & Hnew).
  assert (Hcur : cur ∈ visited) by (apply ci_stack0; left).
  exists new. split_and!; [done| |done|done]. split.
  - intros x. rewrite elem_of_union, elem_of_list_to_set, elem_of_app, ci_visited0, Hnew.
    rewrite ci_visited0. destruct (decide (x = start)), (decide (x ∈ result)); naive_solver.
  - intros x [Hx|Hx]%elem_of_union; [|by apply ci_reach0].
    apply elem_of_list_to_set in Hx. eapply rtc_r; [by apply ci_reach0|done].
  - intros x y Hx Hns Hxy. rewrite elem_of_union, elem_of_list_to_set.
    destruct (decide (x = cur)) as [->|Hne]; [by left|]. right.
    rewrite elem_of_app in Hns.
    apply (ci_closed0 x y); [|rewrite elem_of_cons; tauto|done].
    apply elem_of_union in Hx as [Hx|Hx]; [|done].
    apply elem_of_list_to_set in Hx. destruct (decide (x ∈ visited)); [done|].
    exfalso. apply Hns. left. by rewrite elem_of_rev, Hnew.
  - apply NoDup_app. split_and!; [done| |done]. intros x Hx [_ Hv]%Hnew.
    apply Hv, ci_visited0. by right.
  - rewrite elem_of_app. intros [?|[_ Hv]%Hnew]; [done|]. apply Hv, ci_visited0. by left.
  - intros x Hx. rewrite elem_of_union, elem_of_list_to_set.
    apply elem_of_app in Hx as [Hx|Hx]; [left|right; apply ci_stack0; by right].
    apply elem_of_rev, Hnew in Hx. tauto.
Qed.

Lemma targets_shrink rel cur visited new :
  NoDup new -> (forall x, x ∈ new <-> x ∈ vec_at rel cur /\ x ∉ visited) ->
  size (targets rel ∖ (list_to_set (vec_at rel cur) ∪ visited)) + length new
    <= size (targets rel ∖ visited).
Proof.
  intros Hnd Hnew. rewrite <- (size_list_to_set (C := gset SId) new) by done.
  rewrite <- size_union.
  - apply subseteq_size. intros x. rewrite elem_of_union, !elem_of_difference, elem_of_union,
      !elem_of_list_to_set, Hnew. intros [?|[Hx ?]]; [tauto|].
    split; [|done]. apply elem_of_targets. by exists cur.
  - intros x. rewrite elem_of_difference, elem_of_union, !elem_of_list_to_set, Hnew. tauto.
Qed.

Lemma closure_loop_spec fuel rel start visited result stack :
  closure_inv rel start visited result stack ->
  length stack + size (targets rel ∖ visited) <= fuel ->
  exists visited', closure_inv rel start visited' (closure_loop fuel rel visited result stack) [].
Proof.
  revert visited result stack. induction fuel as [|fuel IH]; intros visited result stack Hinv Hf.
  { destruct stack; simpl in *; [by eexists|lia]. }
  destruct stack as [|cur stack]; simpl in *; [by eexists|].
  destruct (closure_inv_step _ _ _ _ _ _ Hinv) as (new & Hfold & Hinv' & Hnd & Hnew).
  pose proof (targets_shrink rel cur visited new Hnd Hnew) as Hsz.
  assert (Hlen : length (rev new ++ stack) = length new + length stack)
    by (by rewrite length_app, length_rev).
  destruct (rel !! cur) as [nexts|] eqn:Ecur.
  - assert (Hv : vec_at rel cur = nexts) by (unfold vec_at; by rewrite Ecur).
    rewrite Hv in Hfold, Hinv', Hsz. rewrite Hfold. apply IH; [done|]. lia.
  - assert (Hv : vec_at rel cur = []) by (unfold vec_at; by rewrite Ecur).
    rewrite Hv in Hinv', Hsz, Hnew. assert (new = []) as ->.
    { destruct new as [|x new]; [done|]. exfalso.
      destruct (proj1 (Hnew x)) as [Hx _]; [left|]. by apply not_elem_of_nil in Hx. }
    simpl in *. rewrite app_nil_r in Hinv'. apply IH; [|lia].
    by replace visited with (∅ ∪ visited) by set_solver.
Qed.

Lemma closure_inv_done rel start visited result :
  closure_inv rel start visited result [] ->
  forall x, x ∈ result <-> rtc (rel_step rel) start x /\ x <> start.
Proof.
  intros [] x. split.
  - intros Hx. split; [|by intros ->]. apply ci_reach0, ci_visited0. by right.
  - intros [Hr Hne]. assert (Hv : x ∈ visited).
    { refine (rtc_ind_r (fun z => z ∈ visited) start _ _ x Hr); [apply ci_visited0; by left|].
      intros y z _ Hyz Hy. eapply ci_closed0; [done|by apply not_elem_of_nil|done]. }
    apply ci_visited0 in Hv as [?|?]; done.
Qed.

Lemma transitiveClosure_spec start rel :
  NoDup (transitiveClosure start rel) /\
  forall x, x ∈ transitiveClosure start rel <-> rtc (rel_step rel) start x /\ x <> start.
Proof.
  unfold transitiveClosure. destruct (rel !! start) as [l|] eqn:E.
  - destruct (closure_loop_spec (S (size (targets rel))) rel start {[start]} [] [start])
      as [visited' H].
    + split.
      * intros x. rewrite elem_of_singleton. split; [by left|].
        by intros [?|?%not_elem_of_nil].
      * intros x ->%elem_of_singleton. apply rtc_refl.
      * intros x y ->%elem_of_singleton []%not_elem_of_cons. done.
      * constructor.
      * by apply not_elem_of_nil.
      * by intros x ->%list_elem_of_singleton; apply elem_of_singleton.
    + simpl. apply le_n_S, subseteq_size. set_solver.
    + split; [apply H|]. by eapply closure_inv_done.
  - split; [constructor|]. intros x. split; [by intros ?%not_elem_of_nil|].
    intros [Hr Hne]. apply rtc_inv in Hr as [?|(y & Hy & _)]; [congruence|].
    unfold rel_step, vec_at in Hy. rewrite E in Hy. by apply not_elem_of_nil in Hy.
Qed.

Lemma elem_of_closure start rel x :
  x ∈ transitiveClosure start rel <-> rtc (rel_step rel) start x /\ x <> start.
Proof. apply transitiveClosure_spec. Qed.

(** Closures of a relation and of its inverse see each other. *)
Lemma closure_dual (fwd bwd : gmap SId (list SId)) a b :
  (forall x y, rel_step fwd x y <-> rel_step bwd y x) ->
  b ∈ transitiveClosure a fwd <-> a ∈ transitiveClosure b bwd.
Proof.
  intros H. rewrite !elem_of_closure.
  assert (Hr : forall f g : gmap SId (list SId),
    (forall x y, rel_step f x y -> rel_step g y x) ->
    forall x y, rtc (rel_step f) x y -> rtc (rel_step g) y x).
  { intros f g Hfg x y. induction 1 as [|x y z Hxy _ IH]; [apply rtc_refl|].
    eapply rtc_r; [exact IH|by apply Hfg]. }
  split; intros [Hab Hne]; (split; [|congruence]);
    (eapply Hr; [|exact Hab]); intros x y; apply H.
Qed.

(** * The relation the edge queries show *)

(** The edge [se] shown as a call of [v] with kind [k]. *)
Definition retarget (se : StoredEdge) (v : SId) (k : EdgeKind) : EdgeRef :=
  MkRef (s_caller se) v (s_callSite se) k (s_confidence se) (s_execContext se)
    (s_indirectionDepth se).

(** [shows g se r]: the live stored edge [se] accounts for the shown edge [r]. *)
Inductive shows (g : CallGraph) (se : StoredEdge) : EdgeRef -> Prop :=
| shows_stored :
    s_kind se <> FunctionPointerReturn -> shows g se (ref_of se)
| shows_dispatch v :
    s_kind se = VirtualDispatch -> s_confidence se = Plausible ->
    v ∈ transitiveClosure (s_callee se) (methodOverrides_ g) ->
    shows g se (retarget se v VirtualDispatch)
| shows_return v :
    s_kind se = FunctionPointerReturn -> v ∈ set_at (functionReturns_ g) (s_callee se) ->
    shows g se (retarget se v (return_kind se)).

Definition shown (g : CallGraph) (r : EdgeRef) : Prop :=
  exists i se, edges_ g !! i = Some se /\ live se /\ shows g se r.

(** [reaches g u v s]: at call site [s], function [u] can call [v]. *)
Definition reaches (g : CallGraph) (u v s : SId) : Prop :=
  exists r, shown g r /\ r_caller r = u /\ r_callee r = v /\ r_callSite r = s.

(** ** Folding [show] *)

Definition covered (key : EdgeRef -> SId * SId) (st : seen_set * list EdgeRef) : Prop :=
  forall k, k ∈ st.1 -> exists r, r ∈ st.2 /\ key r = k.

Definition show_all (key : EdgeRef -> SId * SId) (st : seen_set * list EdgeRef)
    (rs : list EdgeRef) : seen_set * list EdgeRef :=
  foldl (fun st r => show (key r) r st) st rs.

Lemma show_all_spec key rs st :
  covered key st ->
  let st' := show_all key st rs in
  covered key st' /\
  (forall r, r ∈ st'.2 -> r ∈ st.2 \/ r ∈ rs) /\
  (forall r, r ∈ st.2 -> r ∈ st'.2) /\
  (forall r, r ∈ rs -> exists r', r' ∈ st'.2 /\ key r' = key r).
Proof.
  revert st. induction rs as [|r rs IH]; intros st Hc; simpl.
  { split_and!; [done|by left|done|by intros ? ?%not_elem_of_nil]. }
  assert (Hs : covered key (show (key r) r st) /\
            (forall x, x ∈ (show (key r) r st).2 -> x ∈ st.2 \/ x = r) /\
            (forall x, x ∈ st.2 -> x ∈ (show (key r) r st).2) /\
            (exists x, x ∈ (show (key r) r st).2 /\ key x = key r)).
  { unfold show. case_decide as Hk; simpl.
    - split_and!; [done|by left|done|by apply Hc].
    - split_and!.
      + intros k. simpl. rewrite elem_of_union, elem_of_singleton. intros [->|Hk'].
        * exists r. split; [|done]. rewrite elem_of_app, list_elem_of_singleton. by right.
        * destruct (Hc k Hk') as (x & ? & ?). exists x. split; [|done]. apply elem_of_app. by left.
      + intros x. rewrite elem_of_app, list_elem_of_singleton. tauto.
      + intros x ?. apply elem_of_app. by left.
      + exists r. split; [|done]. rewrite elem_of_app, list_elem_of_singleton. by right. }
  destruct Hs as (Hc1 & H1 & H2 & x & Hx & Hkx).
  destruct (IH _ Hc1) as (Hc' & I1 & I2 & I3). split_and!; [done| |by auto|].
  - intros y Hy. rewrite elem_of_cons. destruct (I1 y Hy) as [[?|?]%H1|?]; auto.
  - intros y. rewrite elem_of_cons. intros [->|Hy]; [|by apply I3].
    exists x. split; [by apply I2|done].
Qed.

Lemma foldl_foldl {A B C} (f : A -> B -> A) (h : C -> list B) (l : list C) (a : A) :
  foldl (fun a c => foldl f a (h c)) a l = foldl f a (l ≫= h).
Proof.
  revert a. induction l as [|c l IH]; intros a; simpl; [done|].
  by rewrite foldl_app, <- IH.
Qed.

Lemma foldl_ext' {A B} (f h : A -> B -> A) l a :
  (forall a x, f a x = h a x) -> foldl f a l = foldl h a l.
Proof. intros H. revert a. induction l as [|x l IH]; intros a; simpl; [done|]. by rewrite H. Qed.

Lemma foldl_map' {A B C} (f : A -> B -> A) (h : C -> B) l a :
  foldl f a (h <$> l) = foldl (fun a c => f a (h c)) a l.
Proof. revert a. induction l as [|x l IH]; intros a; simpl; auto. Qed.

(** The edges each pass of the queries offers for one position. *)
Definition stored_refs (g : CallGraph) (i : nat) : list EdgeRef :=
  match edges_ g !! i with
  | Some se =>
      if decide (live se /\ s_kind se <> FunctionPointerReturn) then [ref_of se] else []
  | None => []
  end.

Definition out_virtual_refs (g : CallGraph) (i : nat) : list EdgeRef :=
  match edges_ g !! i with
  | Some se =>
      if dispatches se then
        (fun v => retarget se v (s_kind se)) <$> transitiveClosure (s_callee se) (methodOverrides_ g)
      else []
  | None => []
  end.

Definition out_return_refs (g : CallGraph) (i : nat) : list EdgeRef :=
  match edges_ g !! i with
  | Some se =>
      if defers se then
        (fun v => retarget se v (return_kind se)) <$> set_order (set_at (functionReturns_ g) (s_callee se))
      else []
  | None => []
  end.

Definition in_virtual_refs (g : CallGraph) (callee : SId) (i : nat) : list EdgeRef :=
  match edges_ g !! i with
  | Some se => if dispatches se then [retarget se callee (s_kind se)] else []
  | None => []
  end.

Definition in_return_refs (g : CallGraph) (callee : SId) (i : nat) : list EdgeRef :=
  match edges_ g !! i with
  | Some se => if defers se then [retarget se callee (return_kind se)] else []
  | None => []
  end.

Definition by_callee (r : EdgeRef) : SId * SId := (r_callee r, r_callSite r).
Definition by_caller (r : EdgeRef) : SId * SId := (r_caller r, r_callSite r).

Lemma dispatches_spec se :
  dispatches se = true <-> live se /\ s_kind se = VirtualDispatch /\ s_confidence se = Plausible.
Proof.
  unfold dispatches, live. rewrite !andb_true_iff, !bool_decide_eq_true, negb_true_iff, N.eqb_neq.
  tauto.
Qed.

Lemma defers_spec se : defers se = true <-> live se /\ s_kind se = FunctionPointerReturn.
Proof.
  unfold defers, live. rewrite andb_true_iff, bool_decide_eq_true, negb_true_iff, N.eqb_neq. tauto.
Qed.

Lemma callee_virtual_eq g st i :
  callee_virtual g st i = show_all by_callee st (out_virtual_refs g i).
Proof.
  unfold callee_virtual, out_virtual_refs, show_all. destruct (edges_ g !! i) as [se|]; [|done].
  destruct (dispatches se); [|done]. by rewrite foldl_map'.
Qed.

Lemma callee_returns_eq g st i :
  callee_returns g st i = show_all by_callee st (out_return_refs g i).
Proof.
  unfold callee_returns, out_return_refs, show_all, set_at. destruct (edges_ g !! i) as [se|]; [|done].
  destruct (defers se); [|done]. rewrite foldl_map'.
  by destruct (functionReturns_ g !! s_callee se).
Qed.

Lemma caller_virtual_eq g v st i :
  caller_virtual g v st i = show_all by_caller st (in_virtual_refs g v i).
Proof.
  unfold caller_virtual, in_virtual_refs. destruct (edges_ g !! i) as [se|]; [|done].
  by destruct (dispatches se).
Qed.

Lemma caller_returns_eq g v st i :
  caller_returns g v st i = show_all by_caller st (in_return_refs g v i).
Proof.
  unfold caller_returns, in_return_refs. destruct (edges_ g !! i) as [se|]; [|done].
  by destruct (defers se).
Qed.

(** Both stored passes keep every non-deferred live edge. *)
Lemma stored_fold g key pass idxs st :
  (forall st i, (pass st i).2 = st.2 ++ stored_refs g i) ->
  (forall st i k, k ∈ (pass st i).1 -> k ∈ st.1 \/ exists r, r ∈ stored_refs g i /\ key r = k) ->
  covered key st ->
  covered key (foldl pass st idxs) /\ (foldl pass st idxs).2 = st.2 ++ (idxs ≫= stored_refs g).
Proof.
  intros H2 H1. revert st. induction idxs as [|i idxs IH]; intros st Hc; simpl.
  { by rewrite app_nil_r. }
  destruct (IH (pass st i)) as [Hc' Hr].
  - intros k [Hk|(r & Hr & Hk)]%H1; rewrite H2.
    + destruct (Hc k Hk) as (r & ? & ?). exists r. split; [|done]. apply elem_of_app. by left.
    + exists r. split; [|done]. apply elem_of_app. by right.
  - split; [done|]. by rewrite Hr, H2, <- app_assoc.
Qed.

Lemma callee_stored_facts g :
  (forall st i, (callee_stored g st i).2 = st.2 ++ stored_refs g i) /\
  (forall st i k, k ∈ (callee_stored g st i).1 ->
     k ∈ st.1 \/ exists r, r ∈ stored_refs g i /\ by_callee r = k).
Proof.
  unfold callee_stored, stored_refs, live. split.
  - intros st i. destruct (edges_ g !! i) as [se|]; [|by rewrite app_nil_r].
    destruct (N.eqb_spec (s_refs se) 0); [by rewrite decide_False, app_nil_r by tauto|].
    case_decide; [by rewrite decide_False, app_nil_r by tauto|]. by rewrite (decide_True (P := s_refs se <> 0%N /\ s_kind se <> FunctionPointerReturn)) by tauto.
  - intros st i k. destruct (edges_ g !! i) as [se|]; [|by left].
    destruct (N.eqb_spec (s_refs se) 0); [by left|]. case_decide; [by left|].
    rewrite (decide_True (P := s_refs se <> 0%N /\ s_kind se <> FunctionPointerReturn)) by tauto. simpl. case_decide; [|by left].
    rewrite elem_of_union, elem_of_singleton. intros [->|?]; [|by left].
    right. exists (ref_of se). split; [by apply list_elem_of_singleton|done].
Qed.

Lemma caller_stored_facts g :
  (forall st i, (caller_stored g st i).2 = st.2 ++ stored_refs g i) /\
  (forall st i k, k ∈ (caller_stored g st i).1 ->
     k ∈ st.1 \/ exists r, r ∈ stored_refs g i /\ by_caller r = k).
Proof.
  unfold caller_stored, stored_refs, live. split.
  - intros st i. destruct (edges_ g !! i) as [se|]; [|by rewrite app_nil_r].
    destruct (N.eqb_spec (s_refs se) 0); [by rewrite decide_False, app_nil_r by tauto|].
    case_decide; [by rewrite decide_False, app_nil_r by tauto|]. by rewrite (decide_True (P := s_refs se <> 0%N /\ s_kind se <> FunctionPointerReturn)) by tauto.
  - intros st i k. destruct (edges_ g !! i) as [se|]; [|by left].
    destruct (N.eqb_spec (s_refs se) 0); [by left|]. case_decide; [by left|].
    rewrite (decide_True (P := s_refs se <> 0%N /\ s_kind se <> FunctionPointerReturn)) by tauto. simpl.
    rewrite elem_of_union, elem_of_singleton. intros [->|?]; [|by left].
    right. exists (ref_of se). split; [by apply list_elem_of_singleton|done].
Qed.

(** Three passes: stored edges, then two offers of synthesized ones. *)
Lemma three_passes (key : EdgeRef -> SId * SId) (base offers1 offers2 : list EdgeRef) (st : seen_set * list EdgeRef) :
  covered key st -> st.2 = base ->
  let final := (show_all key (show_all key st offers1) offers2).2 in
  (forall r, r ∈ final -> r ∈ base \/ r ∈ offers1 \/ r ∈ offers2) /\
  (forall r, r ∈ base -> r ∈ final) /\
  (forall r, r ∈ base \/ r ∈ offers1 \/ r ∈ offers2 -> exists r', r' ∈ final /\ key r' = key r).
Proof.
  intros Hc <-. simpl.
  destruct (show_all_spec key offers1 st Hc) as (Hc1 & A1 & A2 & A3).
  destruct (show_all_spec key offers2 _ Hc1) as (Hc2 & B1 & B2 & B3). split_and!.
  - intros r [[?|?]%A1|?]%B1; auto.
  - intros r ?. by apply B2, A2.
  - intros r [Hr|[Hr|Hr]].
    + exists r. split; [by apply B2, A2|done].
    + destruct (A3 r Hr) as (x & ? & ?). exists x. split; [by apply B2|done].
    + by apply B3.
Qed.

Lemma covered_empty key : covered key (∅, []).
Proof. intros k Hk. simpl in Hk. set_solver. Qed.

(** What [calleeRefsOf] offers, pass by pass. *)
Lemma calleeRefsOf_passes g u :
  let idxs := vec_at (outEdges_ g) u in
  calleeRefsOf g u =
    (show_all by_callee
       (show_all by_callee (foldl (callee_stored g) (∅, []) idxs) (idxs ≫= out_virtual_refs g))
       (idxs ≫= out_return_refs g)).2.
Proof.
  unfold calleeRefsOf, vec_at, show_all. destruct (outEdges_ g !! u) as [idxs|]; [|done].
  simpl. rewrite <- !foldl_foldl. f_equal.
  rewrite (foldl_ext' (callee_returns g) _ _ _ (callee_returns_eq g)).
  by rewrite (foldl_ext' (callee_virtual g) _ _ _ (callee_virtual_eq g)).
Qed.

Lemma callerRefsOf_passes g v :
  callerRefsOf g v =
    (show_all by_caller
       (show_all by_caller (foldl (caller_stored g) (∅, []) (vec_at (inEdges_ g) v))
          ((transitiveClosure v (overrideBases_ g) ≫= vec_at (inEdges_ g)) ≫= in_virtual_refs g v))
       ((vec_at (returnedBy_ g) v ≫= vec_at (inEdges_ g)) ≫= in_return_refs g v)).2.
Proof.
  unfold callerRefsOf. rewrite !foldl_foldl.
  rewrite (foldl_ext' (caller_returns g v) _ _ _ (caller_returns_eq g v)).
  rewrite (foldl_ext' (caller_virtual g v) _ _ _ (caller_virtual_eq g v)).
  unfold show_all. by rewrite !foldl_foldl.
Qed.

(** The offers of each view are exactly the shown edges at that end. *)
Lemma out_offers g u r :
  cg_ok g ->
  let idxs := vec_at (outEdges_ g) u in
  (r ∈ (idxs ≫= stored_refs g) \/ r ∈ (idxs ≫= out_virtual_refs g) \/ r ∈ (idxs ≫= out_return_refs g))
  <-> shown g r /\ r_caller r = u.
Proof.
  intros Hg. pose proof (edges_out _ _ _ _ _ _ (ok_edges _ Hg) u) as [_ Hout]. simpl.
  rewrite !list_elem_of_bind. split.
  - unfold shown. intros [(i & Hr & Hi)|[(i & Hr & Hi)|(i & Hr & Hi)]];
      apply Hout in Hi as (se & Hi & Hl & <-);
      [unfold stored_refs in Hr|unfold out_virtual_refs in Hr|unfold out_return_refs in Hr];
      rewrite Hi in Hr.
    + case_decide as Hk; [|by apply not_elem_of_nil in Hr].
      apply list_elem_of_singleton in Hr as ->. split; [|done].
      exists i, se. split_and!; [done|done|apply shows_stored; tauto].
    + destruct (dispatches se) eqn:Hd; [|by apply not_elem_of_nil in Hr].
      apply dispatches_spec in Hd as (_ & Hk & Hc).
      apply list_elem_of_fmap in Hr as (v & -> & Hv). split; [|done].
      exists i, se. rewrite Hk. split_and!; [done|done|by apply shows_dispatch].
    + destruct (defers se) eqn:Hd; [|by apply not_elem_of_nil in Hr].
      apply defers_spec in Hd as (_ & Hk).
      apply list_elem_of_fmap in Hr as (v & -> & Hv%elem_of_set_order). split; [|done].
      exists i, se. split_and!; [done|done|by apply shows_return].
  - intros [(i & se & Hi & Hl & Hs) <-]. destruct Hs as [Hk|v Hk Hc Hv|v Hk Hv]; simpl.
    + left. exists i. split; [|by apply Hout; exists se].
      unfold stored_refs. rewrite Hi, decide_True by done. by apply list_elem_of_singleton.
    + right; left. exists i. split; [|by apply Hout; exists se].
      unfold out_virtual_refs. rewrite Hi, (proj2 (dispatches_spec se)) by done. rewrite Hk.
      apply list_elem_of_fmap. by exists v.
    + right; right. exists i. split; [|by apply Hout; exists se].
      unfold out_return_refs. rewrite Hi, (proj2 (defers_spec se)) by done.
      apply list_elem_of_fmap. exists v. split; [done|by apply elem_of_set_order].
Qed.

Lemma in_offers g v r :
  cg_ok g ->
  (r ∈ (vec_at (inEdges_ g) v ≫= stored_refs g) \/
   r ∈ ((transitiveClosure v (overrideBases_ g) ≫= vec_at (inEdges_ g)) ≫= in_virtual_refs g v) \/
   r ∈ ((vec_at (returnedBy_ g) v ≫= vec_at (inEdges_ g)) ≫= in_return_refs g v))
  <-> shown g r /\ r_callee r = v.
Proof.
  intros Hg. pose proof (fun c => proj2 (edges_in _ _ _ _ _ _ (ok_edges _ Hg) c)) as Hin.
  pose proof (ok_rels _ Hg) as Hrel.
  assert (Hdual : forall b, v ∈ transitiveClosure b (methodOverrides_ g) <->
                            b ∈ transitiveClosure v (overrideBases_ g)).
  { intros b. apply closure_dual. intros x y. apply (rels_inverse _ _ _ _ _ _ _ Hrel). }
  pose proof (fun f => rels_returns _ _ _ _ _ _ _ Hrel f v) as Hret.
  rewrite !list_elem_of_bind. split.
  - unfold shown. intros [(i & Hr & Hi)|[(i & Hr & Hi)|(i & Hr & Hi)]].
    + apply Hin in Hi as (se & Hi & Hl & <-). unfold stored_refs in Hr. rewrite Hi in Hr.
      case_decide as Hk; [|by apply not_elem_of_nil in Hr].
      apply list_elem_of_singleton in Hr as ->. split; [|done].
      exists i, se. split_and!; [done|done|apply shows_stored; tauto].
    + apply list_elem_of_bind in Hi as (b & Hi & Hb%Hdual). apply Hin in Hi as (se & Hi & Hl & <-).
      unfold in_virtual_refs in Hr. rewrite Hi in Hr.
      destruct (dispatches se) eqn:Hd; [|by apply not_elem_of_nil in Hr].
      apply dispatches_spec in Hd as (_ & Hk & Hc).
      apply list_elem_of_singleton in Hr as ->. split; [|done].
      exists i, se. rewrite Hk. split_and!; [done|done|by apply shows_dispatch].
    + apply list_elem_of_bind in Hi as (f & Hi & Hf%Hret). apply Hin in Hi as (se & Hi & Hl & <-).
      unfold in_return_refs in Hr. rewrite Hi in Hr.
      destruct (defers se) eqn:Hd; [|by apply not_elem_of_nil in Hr].
      apply defers_spec in Hd as (_ & Hk).
      apply list_elem_of_singleton in Hr as ->. split; [|done].
      exists i, se. split_and!; [done|done|by apply shows_return].
  - intros [(i & se & Hi & Hl & Hs) Hv]. destruct Hs as [Hk|w Hk Hc Hw|w Hk Hw]; simpl in Hv; subst v.
    + left. exists i. split; [|by apply Hin; exists se].
      unfold stored_refs. rewrite Hi, decide_True by done. by apply list_elem_of_singleton.
    + right; left. exists i. rewrite list_elem_of_bind. split.
      * unfold in_virtual_refs. rewrite Hi, (proj2 (dispatches_spec se)) by done. rewrite Hk.
        by apply list_elem_of_singleton.
      * exists (s_callee se). split; [apply Hin; by exists se|by apply Hdual].
    + right; right. exists i. rewrite list_elem_of_bind. split.
      * unfold in_return_refs. rewrite Hi, (proj2 (defers_spec se)) by done.
        by apply list_elem_of_singleton.
      * exists (s_callee se). split; [apply Hin; by exists se|by apply Hret].
Qed.

Lemma calleeRefsOf_spec g u :
  cg_ok g ->
  (forall r, r ∈ calleeRefsOf g u -> shown g r /\ r_caller r = u) /\
  (forall r, shown g r -> r_caller r = u ->
     exists r', r' ∈ calleeRefsOf g u /\ by_callee r' = by_callee r).
Proof.
  intros Hg. rewrite calleeRefsOf_passes. set (idxs := vec_at (outEdges_ g) u).
  destruct (callee_stored_facts g) as [F2 F1].
  destruct (stored_fold g by_callee (callee_stored g) idxs (∅, []) F2 F1 (covered_empty _))
    as [Hc Hbase]. simpl in Hbase.
  destruct (three_passes by_callee _ (idxs ≫= out_virtual_refs g) (idxs ≫= out_return_refs g)
              _ Hc Hbase) as (P1 & _ & P3).
  split.
  - intros r Hr%P1. by apply out_offers.
  - intros r Hr Hu. apply P3. by apply out_offers.
Qed.

Lemma callerRefsOf_spec g v :
  cg_ok g ->
  (forall r, r ∈ callerRefsOf g v -> shown g r /\ r_callee r = v) /\
  (forall r, shown g r -> r_callee r = v ->
     exists r', r' ∈ callerRefsOf g v /\ by_caller r' = by_caller r).
Proof.
  intros Hg. rewrite callerRefsOf_passes.
  destruct (caller_stored_facts g) as [F2 F1].
  destruct (stored_fold g by_caller (caller_stored g) (vec_at (inEdges_ g) v) (∅, []) F2 F1
              (covered_empty _)) as [Hc Hbase]. simpl in Hbase.
  destruct (three_passes by_caller _
     ((transitiveClosure v (overrideBases_ g) ≫= vec_at (inEdges_ g)) ≫= in_virtual_refs g v)
     ((vec_at (returnedBy_ g) v ≫= vec_at (inEdges_ g)) ≫= in_return_refs g v) _ Hc Hbase)
    as (P1 & _ & P3).
  split.
  - intros r Hr%P1. by apply in_offers.
  - intros r Hr Hv. apply P3. by apply in_offers.
Qed.

Lemma reaches_callees g u v s :
  cg_ok g ->
  (exists r, r ∈ calleeRefsOf g u /\ r_callee r = v /\ r_callSite r = s) <-> reaches g u v s.
Proof.
  intros Hg. destruct (calleeRefsOf_spec g u Hg) as [H1 H2]. split.
  - intros (r & Hr & ? & ?). destruct (H1 r Hr). by exists r.
  - intros (r & Hr & Hu & Hv & Hs). destruct (H2 r Hr Hu) as (r' & Hr' & [= ? ?]).
    exists r'. split_and!; [done|congruence|congruence].
Qed.

Lemma reaches_callers g u v s :
  cg_ok g ->
  (exists r, r ∈ callerRefsOf g v /\ r_caller r = u /\ r_callSite r = s) <-> reaches g u v s.
Proof.
  intros Hg. destruct (callerRefsOf_spec g v Hg) as [H1 H2]. split.
  - intros (r & Hr & ? & ?). destruct (H1 r Hr). by exists r.
  - intros (r & Hr & Hu & Hv & Hs). destruct (H2 r Hr Hv) as (r' & Hr' & [= ? ?]).
    exists r'. split_and!; [done|congruence|congruence].
Qed.

(** Every id a shown edge carries is in the table. *)
Lemma shown_known g r :
  cg_ok g -> shown g r ->
  known (interner_ g) (r_caller r) /\ known (interner_ g) (r_callee r) /\
  known (interner_ g) (r_callSite r).
Proof.
  intros Hg (i & se & Hi & _ & Hs).
  destruct (edges_known _ _ _ _ _ _ (ok_edges _ Hg) i se Hi) as (K1 & K2 & K3).
  destruct Hs as [Hk|v _ _ Hv|v _ Hv]; simpl; split_and!; try done.
  - apply elem_of_closure in Hv as [Hr Hne].
    apply rtc_inv_r in Hr as [?|(y & _ & Hy)]; [congruence|].
    by apply (rels_over_known _ _ _ _ _ _ _ (ok_rels _ Hg) y v).
  - by apply (rels_ret_known _ _ _ _ _ _ _ (ok_rels _ Hg) (s_callee se) v).
Qed.

(** * Names *)

Section Names.
Variable isValidUtf8 : bytes -> bool.
Implicit Types (g : CallGraph) (name : bytes).

(** The key a name is looked up by. *)
Definition key_text name : bytes := lookupText isValidUtf8 name.

Lemma findText_eq g name : findText isValidUtf8 g name = find (interner_ g) (key_text name).
Proof. unfold findText, key_text, lookupText. by destruct (isValidUtf8 name). Qed.

(** [u] is the usr of a registered node, or of one whose display name is [t]. *)
Definition is_usr g (u : bytes) : Prop := exists id n, nodes_ g !! id = Some n /\ usr n = u.
Definition displays g (t u : bytes) : Prop :=
  exists id n, nodes_ g !! id = Some n /\ qualifiedName n = t /\ usr n = u.

Lemma node_id g id n :
  cg_ok g -> nodes_ g !! id = Some n -> find (interner_ g) (usr n) = Some id.
Proof.
  intros Hg Hn. apply resolve_find; [apply Hg|]. by apply (nodes_usr _ _ _ (ok_nodes _ Hg)).
Qed.

Lemma is_usr_node g u :
  cg_ok g -> is_usr g u <-> exists id n, find (interner_ g) u = Some id /\ nodes_ g !! id = Some n /\ usr n = u.
Proof.
  intros Hg. split; [|intros (id & n & _ & ? & ?); by exists id, n].
  intros (id & n & Hn & <-). exists id, n. split_and!; [by apply node_id|done|done].
Qed.

Lemma displays_byName g t d u :
  cg_ok g -> find (interner_ g) t = Some d ->
  displays g t u <-> exists id, id ∈ vec_at (byName_ g) d /\ resolve_opt (interner_ g) id = Some u.
Proof.
  intros Hg Hd. pose proof (ok_nodes _ Hg) as [N1 N2 N3 _ _]. split.
  - intros (id & n & Hn & Hq & <-). exists id. split; [|by apply N1].
    destruct (N2 id n Hn) as (d' & Hd' & Hin). rewrite Hq in Hd'.
    apply resolve_find in Hd'; [|apply Hg]. congruence.
  - intros (id & Hin & Hu). destruct (N3 d id Hin) as (n & Hn & Hq).
    exists id, n. apply find_resolve in Hd; [|apply Hg].
    rewrite (N1 id n Hn) in Hu. split_and!; [done|congruence|congruence].
Qed.

Lemma resolve_of_known g id u : resolve_opt (interner_ g) id = Some u -> resolve (interner_ g) id = u.
Proof. apply resolve_of_opt. Qed.

Lemma usrs_exact g name :
  cg_ok g -> is_usr g (key_text name) -> usrsForName isValidUtf8 g name = [key_text name].
Proof.
  intros Hg (id & n & Hf & Hn & Hu)%is_usr_node; [|done].
  unfold usrsForName, resolveUsrIds. rewrite findText_eq, Hf, Hn. simpl.
  by rewrite (resolve_of_opt _ id (key_text name)) by (apply find_resolve; [apply Hg|done]).
Qed.

Lemma usrs_unregistered g name :
  cg_ok g -> (forall u, ~ displays g (key_text name) u) ->
  usrsForName isValidUtf8 g name =
    match find (interner_ g) (key_text name) with Some _ => [key_text name] | None => [] end.
Proof.
  intros Hg Hno. unfold usrsForName, resolveUsrIds. rewrite findText_eq.
  destruct (find (interner_ g) (key_text name)) as [d|] eqn:Hf; [|done].
  assert (Hr : resolve (interner_ g) d = key_text name).
  { apply resolve_of_opt, find_resolve; [apply Hg|done]. }
  destruct (nodes_ g !! d) as [n|] eqn:Hn; [simpl; by rewrite Hr|].
  destruct (byName_ g !! d) as [[|u us]|] eqn:Hb; simpl; rewrite ?Hr; try done.
  exfalso. assert (Hin : u ∈ vec_at (byName_ g) d) by (unfold vec_at; rewrite Hb; left).
  destruct (byName_nodes _ _ _ (ok_nodes _ Hg) d u Hin) as (n & Hnu & _).
  apply (Hno (usr n)), displays_byName with d; [done|done|]. exists u. split; [done|].
  by apply (nodes_usr _ _ _ (ok_nodes _ Hg)).
Qed.

Lemma resolveUsrIds_display g name d :
  cg_ok g -> ~ is_usr g (key_text name) -> find (interner_ g) (key_text name) = Some d ->
  vec_at (byName_ g) d <> [] -> resolveUsrIds isValidUtf8 g name = vec_at (byName_ g) d.
Proof.
  intros Hg Hno Hf Hne. unfold resolveUsrIds. rewrite findText_eq, Hf.
  destruct (nodes_ g !! d) as [n|] eqn:Hn.
  { exfalso. apply Hno. exists d, n. split; [done|].
    pose proof (nodes_usr _ _ _ (ok_nodes _ Hg) d n Hn) as Hr.
    apply find_resolve in Hf; [|apply Hg]. congruence. }
  unfold vec_at in *. by destruct (byName_ g !! d) as [[|u us]|].
Qed.

Lemma usrs_display g name u0 :
  cg_ok g -> ~ is_usr g (key_text name) -> displays g (key_text name) u0 ->
  NoDup (usrsForName isValidUtf8 g name) /\
  forall u, u ∈ usrsForName isValidUtf8 g name <-> displays g (key_text name) u.
Proof.
  intros Hg Hno Hd0. assert (Hf : exists d, find (interner_ g) (key_text name) = Some d).
  { destruct Hd0 as (id & n & Hn & Hq & _).
    destruct (nodes_named _ _ _ (ok_nodes _ Hg) id n Hn) as (d & Hd & _). exists d.
    rewrite <- Hq. apply resolve_find; [apply Hg|done]. }
  destruct Hf as [d Hf]. pose proof (ok_nodes _ Hg) as [N1 N2 N3 _ N5].
  assert (Hres : forall id, id ∈ vec_at (byName_ g) d -> exists u, resolve_opt (interner_ g) id = Some u).
  { intros id (n & Hn & _)%N3. exists (usr n). by apply N1. }
  unfold usrsForName. rewrite (resolveUsrIds_display g name d); [|done|done|done|].
  - split.
    + apply NoDup_fmap_2_strong; [|apply N5]. intros x y Hx Hy Hxy.
      destruct (Hres x Hx) as [a Ha], (Hres y Hy) as [b Hb].
      unfold resolve in Hxy. rewrite Ha, Hb in Hxy. simpl in Hxy. subst b.
      by eapply resolve_opt_inj; [apply Hg| |].
    + intros u. rewrite (displays_byName g _ d) by done. rewrite list_elem_of_fmap.
      split; intros (id & H1 & H2); exists id.
      * split; [done|]. destruct (Hres id H2) as [a Ha]. unfold resolve in H1.
        rewrite Ha in H1. simpl in H1. congruence.
      * split; [|done]. symmetry. by apply resolve_of_opt.
  - intros E. destruct (proj1 (displays_byName g _ d u0 Hg Hf) Hd0) as (id & Hin & _).
    rewrite E in Hin. by apply not_elem_of_nil in Hin.
Qed.
(** The fold of [findNode] keeps the node with the least usr. *)
Definition better g (best : option CallGraphNode) (usrId : SId) : option CallGraphNode :=
  match nodes_ g !! usrId, best with
  | None, _ => best
  | Some n, None => Some n
  | Some n, Some b => if bytes_ltb (usr n) (usr b) then Some n else best
  end.

Definition at_most (o : option CallGraphNode) (n : CallGraphNode) : Prop :=
  exists b, o = Some b /\ bytes_le (usr b) (usr n).

Lemma better_spec g best id :
  (forall n, best = Some n \/ nodes_ g !! id = Some n -> at_most (better g best id) n) /\
  (forall n, better g best id = Some n -> best = Some n \/ nodes_ g !! id = Some n).
Proof.
  assert (Hrefl : forall a, bytes_le a a) by (intros a; destruct (bytes_le_total a a); done).
  unfold better, at_most. destruct (nodes_ g !! id) as [m|], best as [b|]; split; intros n;
    try naive_solver.
  - destruct (bytes_ltb (usr m) (usr b)) eqn:E.
    + apply bytes_ltb_lt in E as [Hle _]. naive_solver.
    + assert (bytes_le (usr b) (usr m)).
      { destruct (bytes_le_total (usr b) (usr m)) as [?|H]; [done|].
        destruct (decide (usr m = usr b)) as [->|]; [by apply Hrefl|].
        by rewrite (proj2 (bytes_ltb_lt _ _)) in E. }
      naive_solver.
  - destruct (bytes_ltb (usr m) (usr b)); naive_solver.
Qed.

Lemma better_fold g ids best :
  let r := foldl (better g) best ids in
  (forall n, best = Some n \/ (exists id, id ∈ ids /\ nodes_ g !! id = Some n) -> at_most r n) /\
  (forall n, r = Some n -> best = Some n \/ exists id, id ∈ ids /\ nodes_ g !! id = Some n).
Proof.
  revert best. induction ids as [|id ids IH]; intros best; simpl.
  - assert (Hrefl : forall a, bytes_le a a) by (intros a; destruct (bytes_le_total a a); done).
    split; [|by left]. intros n [->|(id & []%not_elem_of_nil & _)]. by exists n.
  - destruct (better_spec g best id) as [B1 B2], (IH (better g best id)) as [I1 I2]. split.
    + assert (Hstep : forall n, best = Some n \/ nodes_ g !! id = Some n ->
                at_most (foldl (better g) (better g best id) ids) n).
      { intros n (b & Hb & Hle)%B1. destruct (I1 b) as (c & Hc & Hle'); [by left|].
        exists c. split; [done|]. by etrans. }
      intros n [?|(i & [->|Hi]%elem_of_cons & Hn)]; [auto|auto|]. apply I1. right. by exists i.
    + intros n [[?|?]%B2|(i & ? & ?)]%I2; [by left|right|right].
      * exists id. split; [left|done].
      * exists i. split; [by right|done].
Qed.

Lemma elem_of_resolveUsrIds_node g name id n :
  cg_ok g -> nodes_ g !! id = Some n ->
  id ∈ resolveUsrIds isValidUtf8 g name <->
    usr n = key_text name \/ (~ is_usr g (key_text name) /\ qualifiedName n = key_text name).
Proof.
  intros Hg Hn. pose proof (node_id g id n Hg Hn) as Hid.
  pose proof (nodes_usr _ _ _ (ok_nodes _ Hg) id n Hn) as Hres.
  unfold resolveUsrIds. rewrite findText_eq.
  destruct (find (interner_ g) (key_text name)) as [d|] eqn:Hf.
  2:{ split; [by intros ?%not_elem_of_nil|]. intros [E|[_ E]]; [congruence|].
      destruct (nodes_named _ _ _ (ok_nodes _ Hg) id n Hn) as (d & Hd & _).
      apply resolve_find in Hd; [|apply Hg]. congruence. }
  assert (Hfd := Hf). apply find_resolve in Hfd; [|apply Hg].
  destruct (nodes_ g !! d) as [m|] eqn:Hm.
  { pose proof (nodes_usr _ _ _ (ok_nodes _ Hg) d m Hm) as Hmu.
    rewrite list_elem_of_singleton. split; [intros ->; left; congruence|].
    intros [E|[Hno _]]; [congruence|]. exfalso. apply Hno. exists d, m. split; [done|congruence]. }
  assert (Hno : ~ is_usr g (key_text name)).
  { intros (i & m & Hi & Hi' & _)%is_usr_node; [|done]. congruence. }
  assert (Hu : usr n <> key_text name).
  { intros E. apply Hno. by exists id, n. }
  assert (Hnd : id <> d) by congruence.
  trans (id ∈ vec_at (byName_ g) d).
  { unfold vec_at. destruct (byName_ g !! d) as [[|u us]|]; simpl;
      rewrite ?list_elem_of_singleton, ?elem_of_nil; naive_solver. }
  split.
  - intros Hin. right. split; [done|].
    destruct (byName_nodes _ _ _ (ok_nodes _ Hg) d id Hin) as (n' & Hn' & Hq). congruence.
  - intros [?|[_ Hq]]; [done|].
    destruct (nodes_named _ _ _ (ok_nodes _ Hg) id n Hn) as (d' & Hd' & Hin).
    rewrite Hq in Hd'. by rewrite <- (resolve_opt_inj _ d' d _ (ok_interner _ Hg) Hd' Hfd).
Qed.

Lemma findNode_fold g name :
  findNode isValidUtf8 g name = foldl (better g) None (resolveUsrIds isValidUtf8 g name).
Proof. done. Qed.
End Names.

(** Name resolution follows the documented order: a name that is the usr of a
    node means that node alone; otherwise the nodes displayed under it, each
    once; otherwise the string itself when the graph has interned it. *)
Theorem name_resolution (isValidUtf8 : bytes -> bool) (g : CallGraph) (name : bytes) :
  cg_ok g ->
  let key := key_text isValidUtf8 name in
  (is_usr g key -> usrsForName isValidUtf8 g name = [key]) /\
  (~ is_usr g key -> (exists u, displays g key u) ->
     NoDup (usrsForName isValidUtf8 g name) /\
     forall u, u ∈ usrsForName isValidUtf8 g name <-> displays g key u) /\
  ((forall u, ~ displays g key u) ->
     usrsForName isValidUtf8 g name =
       match find (interner_ g) key with Some _ => [key] | None => [] end).
Proof.
  intros Hg key. split; [by apply usrs_exact|]. split; [|by apply usrs_unregistered].
  intros Hno [u0 Hu]. by eapply usrs_display.
Qed.

Lemma findNode_spec (isValidUtf8 : bytes -> bool) (g : CallGraph) (name : bytes) :
  cg_ok g ->
  let key := key_text isValidUtf8 name in
  let matches n := usr n = key \/ (~ is_usr g key /\ qualifiedName n = key) in
  match findNode isValidUtf8 g name with
  | Some b =>
      (exists id, nodes_ g !! id = Some b) /\ matches b /\
      forall id n, nodes_ g !! id = Some n -> matches n -> bytes_le (usr b) (usr n)
  | None => forall id n, nodes_ g !! id = Some n -> ~ matches n
  end.
Proof.
  intros Hg key matches. rewrite findNode_fold.
  destruct (better_fold g (resolveUsrIds isValidUtf8 g name) None) as [B1 B2].
  assert (Hm : forall id n, nodes_ g !! id = Some n ->
    (id ∈ resolveUsrIds isValidUtf8 g name <-> matches n)).
  { intros id n Hn. by apply elem_of_resolveUsrIds_node. }
  destruct (foldl _ _ _) as [b|] eqn:E.
  - destruct (B2 b eq_refl) as [?|(id & Hid & Hb)]; [done|]. split_and!; [by exists id| |].
    + by apply (Hm id).
    + intros id' n Hn Hmn. destruct (B1 n) as (b' & [= <-] & ?); [|done].
      right. exists id'. split; [by apply (Hm id' n)|done].
  - intros id n Hn Hmn. destruct (B1 n) as (b' & ? & _); [|done].
    right. exists id. split; [by apply (Hm id n)|done].
Qed.

(** [findNode] is deterministic: it returns the node with the given usr, or else
    the node with the least usr among those displayed under the name, and nothing
    exactly when no node matches either way. *)
Theorem find_node_least (isValidUtf8 : bytes -> bool) (g : CallGraph) (name : bytes) :
  cg_ok g ->
  let key := key_text isValidUtf8 name in
  let matches n := usr n = key \/ (~ is_usr g key /\ qualifiedName n = key) in
  match findNode isValidUtf8 g name with
  | Some b =>
      (exists id, nodes_ g !! id = Some b) /\ matches b /\
      forall id n, nodes_ g !! id = Some n -> matches n -> bytes_le (usr b) (usr n)
  | None => forall id n, nodes_ g !! id = Some n -> ~ matches n
  end.
Proof. apply findNode_spec. Qed.

(** The two edge queries are the two ends of one relation: an edge to [v] at call
    site [s] is listed among the callees of [u] exactly when an edge from [u] at
    [s] is listed among the callers of [v], which is when some live stored edge
    reaches [v] from [u] directly, through virtual dispatch, or through a returned
    function pointer. *)
Theorem edge_views_agree (g : CallGraph) (u v s : SId) :
  cg_ok g ->
  ((exists r, r ∈ calleeRefsOf g u /\ r_callee r = v /\ r_callSite r = s) <-> reaches g u v s) /\
  ((exists r, r ∈ callerRefsOf g v /\ r_caller r = u /\ r_callSite r = s) <-> reaches g u v s) /\
  (forall r, r ∈ calleeRefsOf g u \/ r ∈ callerRefsOf g v -> shown g r).
Proof.
  intros Hg. split; [by apply reaches_callees|]. split; [by apply reaches_callers|].
  intros r [Hr|Hr].
  - by apply (calleeRefsOf_spec g u Hg).
  - by apply (callerRefsOf_spec g v Hg).
Qed.

(** ** A dispatching call, for the witnesses *)

Definition virtual_call (a b site : bytes) : CallGraphEdge :=
  MkEdge a b VirtualDispatch Plausible site 0 Synchronous [] [].

(** [main] calls [Base::f] virtually; [Derived::f] overrides it.  Ids by order of
    interning: [Base::f] 0, [Derived::f] 1, [main] 2, the call site 3. *)
Definition dispatch_graph : CallGraph :=
  build [AddMethodOverride (str "Base::f") (str "Derived::f");
         AddEdge (virtual_call (str "main") (str "Base::f") (str "m.cpp:1:1")) [];
         AddNode (MkNode (str "main") (str "m.cpp") 1 true false [] []) (str "m.cpp")] empty_graph.

Lemma dispatch_graph_ok : cg_ok dispatch_graph.
Proof. apply build_ok. vm_compute. discriminate. Qed.

Lemma edge_views_agree_witness :
  exists r, r ∈ callerRefsOf dispatch_graph 1 /\ r_caller r = 2%N /\ r_callSite r = 3%N.
Proof.
  apply (edge_views_agree dispatch_graph 2 1 3 dispatch_graph_ok).
  apply (edge_views_agree dispatch_graph 2 1 3 dispatch_graph_ok).
  exists (MkRef 2 1 3 VirtualDispatch Plausible Synchronous 0).
  split; [by_computation|done].
Defined.

Lemma name_resolution_witness :
  usrsForName valid_utf8b dispatch_graph (str "main") = [str "main"].
Proof.
  refine (proj1 (name_resolution valid_utf8b dispatch_graph (str "main") dispatch_graph_ok) _).
  exists 2%N, (MkNode (str "main") (str "m.cpp") 1 true false [] (str "main")).
  split; vm_compute; reflexivity.
Defined.

Lemma find_node_least_witness :
  match findNode valid_utf8b dispatch_graph (str "main") with
  | Some b => exists id, nodes_ dispatch_graph !! id = Some b
  | None => False
  end.
Proof.
  pose proof (find_node_least valid_utf8b dispatch_graph (str "main") dispatch_graph_ok) as H.
  assert (E : is_Some (findNode valid_utf8b dispatch_graph (str "main")))
    by (vm_compute; eexists; reflexivity).
  destruct (findNode valid_utf8b dispatch_graph (str "main")); [apply H|by destruct E].
Defined.

(** * The class hierarchy *)

Lemma rel_length_delete (rel : gmap SId (list SId)) k :
  rel_length rel = rel_length (delete k rel) + length (vec_at rel k).
Proof.
  unfold vec_at, rel_length. destruct (rel !! k) as [l|] eqn:Hk; simpl.
  - rewrite <- (insert_delete_id rel k l) at 1 by done.
    rewrite map_fold_insert_L; [lia|intros; lia|apply lookup_delete_eq].
  - rewrite delete_id by done. lia.
Qed.

Definition unvisited (rel : gmap SId (list SId)) (visited : gset SId) : gmap SId (list SId) :=
  filter (fun kv => kv.1 ∉ visited) rel.

Lemma unvisited_step rel visited cls :
  cls ∉ visited ->
  rel_length (unvisited rel visited) =
    rel_length (unvisited rel ({[cls]} ∪ visited)) + length (vec_at rel cls).
Proof.
  intros Hc. rewrite (rel_length_delete _ cls). f_equal.
  - f_equal. apply map_eq. intros k. unfold unvisited. apply option_eq. intros l.
    rewrite lookup_delete, !map_lookup_filter_Some. case_decide; [subst k|];
      rewrite ?map_lookup_filter_Some; simpl; set_solver.
  - f_equal. unfold vec_at, unvisited. destruct (rel !! cls) as [l|] eqn:E.
    + by rewrite (map_lookup_filter_Some_2 _ _ _ _ E).
    + by rewrite (map_lookup_filter_None_2 _ _ _ (or_introl E)).
Qed.

(** What the loop keeps: everything listed or stacked descends from the base, and
    the successors of every visited class are listed and visited or stacked. *)
Record derived_inv (rel : gmap SId (list SId)) (base : SId) (visited : gset SId)
    (result stack : list SId) : Prop := {
  di_result : forall x, x ∈ result -> tc (rel_step rel) base x;
  di_visited : forall x, x ∈ visited \/ x ∈ stack -> rtc (rel_step rel) base x;
  di_base : base ∈ visited \/ base ∈ stack;
  di_closed : forall x y, x ∈ visited -> rel_step rel x y ->
                y ∈ result /\ (y ∈ visited \/ y ∈ stack)
}.

Lemma derived_loop_spec fuel rel base visited result stack :
  derived_inv rel base visited result stack ->
  length stack + rel_length (unvisited rel visited) <= fuel ->
  exists visited', derived_inv rel base visited' (derived_loop fuel rel visited result stack) [].
Proof.
  revert visited result stack. induction fuel as [|fuel IH]; intros visited result stack Hinv Hf.
  { destruct stack; simpl in *; [by eexists|lia]. }
  destruct stack as [|cls stack]; simpl in *; [by eexists|].
  destruct Hinv as [I1 I2 I3 I4]. case_decide as Hc.
  - apply IH; [|lia]. split; [done| | |].
    + intros x [?|?]; apply I2; [by left|right; by right].
    + destruct I3 as [?|[->|?]%elem_of_cons]; auto.
    + intros x y Hx Hxy. destruct (I4 x y Hx Hxy) as [? [?|[->|?]%elem_of_cons]]; auto.
  - assert (Hcls : rtc (rel_step rel) base cls) by (apply I2; right; left).
    apply IH; [|rewrite length_app, length_rev; pose proof (unvisited_step rel visited cls Hc); lia].
    split.
    + intros x [?|Hx]%elem_of_app; [by apply I1|].
      eapply tc_rtc_l; [exact Hcls|]. by apply tc_once.
    + intros x. rewrite elem_of_union, elem_of_singleton, elem_of_app, elem_of_rev.
      intros [[->|?]|[Hx|?]]; [done|apply I2; by left| |apply I2; right; by right].
      eapply rtc_r; [exact Hcls|done].
    + rewrite elem_of_union, elem_of_singleton, elem_of_app.
      destruct I3 as [?|[->|?]%elem_of_cons]; auto.
    + intros x y. rewrite !elem_of_union, !elem_of_singleton, !elem_of_app, elem_of_rev.
      intros [->|Hx] Hxy; [auto|].
      destruct (I4 x y Hx Hxy) as [? [?|[->|?]%elem_of_cons]]; auto 6.
Qed.

Lemma derived_inv_done rel base visited result :
  derived_inv rel base visited result [] ->
  forall x, x ∈ result <-> tc (rel_step rel) base x.
Proof.
  intros [I1 I2 I3 I4] x. split; [apply I1|]. intros Hx.
  assert (Hv : forall y, rtc (rel_step rel) base y -> y ∈ visited).
  { apply rtc_ind_r; [by destruct I3 as [?|?%not_elem_of_nil]|].
    intros y z _ Hyz Hy. by destruct (I4 y z Hy Hyz) as [_ [?|?%not_elem_of_nil]]. }
  assert (Hlast : exists y, rtc (rel_step rel) base y /\ rel_step rel y x).
  { clear -Hx. induction Hx as [a b H|a b c H _ (y & Hy & Hyc)].
    - exists a. split; [apply rtc_refl|done].
    - exists y. split; [by eapply rtc_l|done]. }
  destruct Hlast as (y & Hy & Hyx). by apply (I4 y x (Hv y Hy)).
Qed.

(** [getAllDerivedClasses] lists exactly the classes reached from the base by one
    or more derivation steps, diamonds and cycles included; the loop always ends. *)
Theorem all_derived_classes (isValidUtf8 : bytes -> bool) (g : CallGraph) (base s : bytes) :
  s ∈ getAllDerivedClasses isValidUtf8 g base <->
  exists b d, findText isValidUtf8 g base = Some b /\
    tc (rel_step (derivedClasses_ g)) b d /\ resolve (interner_ g) d = s.
Proof.
  unfold getAllDerivedClasses. destruct (findText isValidUtf8 g base) as [b|].
  - destruct (derived_loop_spec (S (rel_length (derivedClasses_ g))) (derivedClasses_ g) b ∅ [] [b])
      as [v Hv].
    + split.
      * by intros ? ?%not_elem_of_nil.
      * intros x [?| ->%list_elem_of_singleton]; [set_solver|apply rtc_refl].
      * right. by apply list_elem_of_singleton.
      * intros x y ?. set_solver.
    + simpl. unfold unvisited. rewrite map_filter_id; [done|]. intros k l _. simpl. set_solver.
    + rewrite list_elem_of_fmap. split.
      * intros (d & -> & Hd). exists b, d. split_and!; [done| |done].
        by apply (derived_inv_done _ _ _ _ Hv).
      * intros (b' & d & [= <-] & Hd & <-). exists d. split; [done|].
        by apply (derived_inv_done _ _ _ _ Hv).
  - split; [by intros ?%not_elem_of_nil|]. by intros (? & ? & ? & _).
Qed.
