(* ===== verification/CallGraphRemove.v ===== *)
(** Dropping the contribution of translation units: [CallGraph::removeTUs].

    The release pass runs before the adjacency vectors are scrubbed, so its
    invariant speaks of the vectors with the dead positions already filtered out;
    the scrub pass then makes the stored vectors agree with that. *)

From S2P Require Import Prelude Registrations Utf8 StringInterner CallGraph CallGraphInv.

(** * Releasing registrations *)

(** The adjacency map without the dead positions. *)
Definition alive (dead : gset nat) (m : gmap SId (list nat)) : gmap SId (list nat) :=
  (fun l => filter (fun i => i ∉ dead) l) <$> m.

Lemma vec_at_alive dead m c : vec_at (alive dead m) c = filter (fun i => i ∉ dead) (vec_at m c).
Proof. unfold vec_at, alive. rewrite lookup_fmap. by destruct (m !! c). Qed.

Lemma adjacency_ok_ext edges side m m' :
  (forall c, vec_at m c = vec_at m' c) -> adjacency_ok edges side m -> adjacency_ok edges side m'.
Proof. intros H Hm c. rewrite <- H. apply Hm. Qed.

Lemma refs_at_set edges i j se n :
  edges !! i = Some se ->
  refs_at (<[i := set_refs n se]> edges) j = if decide (i = j) then N.to_nat n else refs_at edges j.
Proof.
  intros Hi. unfold refs_at. case_decide as E; [subst j|].
  - by rewrite list_lookup_insert_eq by (by eapply lookup_lt_Some).
  - by rewrite list_lookup_insert_ne.
Qed.

Lemma filter_live_kill edges i se n :
  edges !! i = Some se -> live se ->
  length (filter live (<[i := set_refs n se]> edges)) + (if decide (n = 0%N) then 1 else 0) =
    length (filter live edges).
Proof.
  intros Hi Hl. revert i Hi. induction edges as [|x l IH]; intros [|i] Hi; simplify_eq/=.
  - assert (live (set_refs n se) <-> n <> 0%N) by done. rewrite !filter_cons.
    destruct (decide (live (set_refs n se))), (decide (live se)), (decide (n = 0%N)); simpl;
      try tauto; [by rewrite Nat.add_0_r|by rewrite Nat.add_1_r].
  - rewrite !filter_cons. specialize (IH i Hi). destruct (decide (live x)); simpl; lia.
Qed.

Section Release.
Context (t : StringInterner).

(** One registration released from a live edge. *)
Lemma edges_ok_release edges index out inn count idx edge dead :
  edges !! idx = Some edge -> live edge ->
  edges_ok t edges index (alive dead out) (alive dead inn) count ->
  let refs' := (s_refs edge - 1)%N in
  let edges' := <[idx := set_refs refs' edge]> edges in
  if (0 <? refs')%N
  then edges_ok t edges' index (alive dead out) (alive dead inn) count
  else edges_ok t edges' (delete (keyOf edge) index) (alive ({[idx]} ∪ dead) out)
         (alive ({[idx]} ∪ dead) inn) (count - 1).
Proof.
  intros Hi Hl [E1 E2 E3 E4 E5 E6] refs' edges'.
  assert (Hlk : forall j x, edges' !! j = Some x ->
    edges !! j = Some x \/ (j = idx /\ x = set_refs refs' edge)).
  { intros j x. unfold edges'. destruct (decide (idx = j)) as [<-|].
    - rewrite list_lookup_insert_eq by (by eapply lookup_lt_Some). intros [= <-]. by right.
    - rewrite list_lookup_insert_ne by done. by left. }
  assert (Hself : edges' !! idx = Some (set_refs refs' edge)).
  { apply list_lookup_insert_eq. by eapply lookup_lt_Some. }
  assert (Hother : forall j, j <> idx -> edges' !! j = edges !! j).
  { intros j Hj. unfold edges'. by rewrite list_lookup_insert_ne. }
  assert (Hknown : forall j x, edges' !! j = Some x ->
    known t (s_caller x) /\ known t (s_callee x) /\ known t (s_callSite x)).
  { intros j x [Hx|[-> ->]]%Hlk; [by apply (E1 j)|exact (E1 idx edge Hi)]. }
  assert (Hwidth : forall j x, edges' !! j = Some x -> (s_refs x < two32)%N).
  { intros j x [Hx|[-> ->]]%Hlk; [by apply (E2 j)|]. simpl. specialize (E2 idx edge Hi). lia. }
  destruct (N.ltb_spec 0 refs') as [Hpos|Hz].
  - (* the edge stays live *)
    assert (Hl' : live (set_refs refs' edge)) by (unfold live; simpl; lia).
    assert (Hadj : forall side m, (forall n, side (set_refs n edge) = side edge) ->
      adjacency_ok edges side m -> adjacency_ok edges' side m).
    { intros side m Hs Hm. unfold edges'.
      replace (<[idx := set_refs refs' edge]> edges) with (alter (set_refs refs') idx edges).
      - eapply adjacency_ok_update; [done|done| |done]. by split.
      - rewrite list_insert_alter. apply list_alter_ext; [|done]. congruence. }
    split; [done|done| |by apply Hadj|by apply Hadj|].
    + intros k j. rewrite E3. destruct (decide (j = idx)) as [->|Hne].
      * rewrite Hself, Hi. split; intros (x & [= <-] & ? & ?);
          [by exists (set_refs refs' edge)|by exists edge].
      * by rewrite Hother.
    + rewrite E6. pose proof (filter_live_kill edges idx edge refs' Hi Hl) as H.
      fold edges' in H. rewrite decide_False in H by lia. lia.
  - (* the edge dies *)
    assert (Hz' : refs' = 0%N) by lia.
    assert (Hdead : forall x, edges' !! idx = Some x -> ~ live x).
    { intros x. rewrite Hself. intros [= <-]. unfold live. simpl. lia. }
    assert (Hadj : forall side m, adjacency_ok edges side (alive dead m) ->
      adjacency_ok edges' side (alive ({[idx]} ∪ dead) m)).
    { intros side m Hm c. destruct (Hm c) as [Hnd Hc]. rewrite vec_at_alive in *. split.
      - rewrite (list_filter_iff _ (fun i => i <> idx /\ i ∉ dead)) by set_solver.
        rewrite <- list_filter_filter. by apply StronglySorted_filter.
      - intros j. specialize (Hc j). rewrite list_elem_of_filter in Hc |- *.
        rewrite not_elem_of_union, not_elem_of_singleton.
        destruct (decide (j = idx)) as [->|Hne].
        + split; [tauto|]. intros (x & Hx & Hlx & _). by apply Hdead in Hx.
        + rewrite Hother by done. rewrite <- Hc. tauto. }
    split; [done|done| |by apply Hadj|by apply Hadj|].
    + intros k j. rewrite lookup_delete. case_decide as Hk.
      * split; [done|]. intros (x & Hx & Hlx & Hkx). exfalso. subst k.
        destruct (decide (j = idx)) as [->|Hne]; [by apply Hdead in Hx|].
        rewrite Hother in Hx by done.
        assert (index !! keyOf edge = Some j) by (apply E3; by exists x).
        assert (index !! keyOf edge = Some idx) by (apply E3; by exists edge). congruence.
      * rewrite E3. destruct (decide (j = idx)) as [->|Hne].
        -- split; intros (x & Hx & Hlx & Hkx); [congruence|by apply Hdead in Hx].
        -- by rewrite Hother.
    + rewrite E6. pose proof (filter_live_kill edges idx edge refs' Hi Hl) as H.
      fold edges' in H. rewrite decide_True in H by done. lia.
Qed.
End Release.

(** Fields a release pass does not touch. *)
Definition same_rest (g0 g : CallGraph) : Prop :=
  interner_ g = interner_ g0 /\ nodes_ g = nodes_ g0 /\ byName_ g = byName_ g0 /\
  outEdges_ g = outEdges_ g0 /\ inEdges_ g = inEdges_ g0 /\
  nodeContributors_ g = nodeContributors_ g0 /\ tuNodes_ g = tuNodes_ g0 /\
  derivedClasses_ g = derivedClasses_ g0 /\ methodOverrides_ g = methodOverrides_ g0 /\
  overrideBases_ g = overrideBases_ g0 /\ effectiveImplClasses_ g = effectiveImplClasses_ g0 /\
  functionReturns_ g = functionReturns_ g0 /\ returnedBy_ g = returnedBy_ g0 /\
  readOnly_ g = readOnly_ g0.

Record release_inv (g0 : CallGraph) (st : release_state) : Prop := {
  ri_rest : same_rest g0 (rl_graph st);
  ri_edges : edges_ok (interner_ g0) (edges_ (rl_graph st)) (edgeIndex_ (rl_graph st))
               (alive (rl_dead st) (outEdges_ g0)) (alive (rl_dead st) (inEdges_ g0))
               (liveEdgeCount_ (rl_graph st));
  ri_content : forall i, ref_of <$> edges_ (rl_graph st) !! i = ref_of <$> edges_ g0 !! i;
  ri_dead : forall i, i ∈ rl_dead st <->
              0 < refs_at (edges_ g0) i /\ refs_at (edges_ (rl_graph st)) i = 0;
  ri_marked : forall i se, i ∈ rl_dead st -> edges_ g0 !! i = Some se ->
                s_caller se ∈ rl_callers st /\ s_callee se ∈ rl_callees st;
  ri_removed : rl_removed st = size (rl_dead st);
  ri_mono : forall i, refs_at (edges_ (rl_graph st)) i <= refs_at (edges_ g0) i;
  ri_live : (liveEdgeCount_ (rl_graph st) + Z.of_nat (rl_removed st) = liveEdgeCount_ g0)%Z
}.

Lemma refs_at_pos edges i :
  0 < refs_at edges i <-> exists se, edges !! i = Some se /\ live se.
Proof.
  unfold refs_at, live. split.
  - destruct (edges !! i) as [se|]; [|lia]. intros H. exists se. split; [done|]. lia.
  - intros (se & -> & ?). lia.
Qed.

Lemma release_edge_inv g0 st idx :
  release_inv g0 st -> 0 < refs_at (edges_ (rl_graph st)) idx ->
  let st' := release_edge st idx in
  release_inv g0 st' /\ tuEdges_ (rl_graph st') = tuEdges_ (rl_graph st) /\
  forall i, refs_at (edges_ (rl_graph st')) i + (if decide (idx = i) then 1 else 0) =
            refs_at (edges_ (rl_graph st)) i.
Proof.
  intros [I1 I2 I3 I4 I5 I6 I7 I8] (edge & Hi & Hl)%refs_at_pos. unfold release_edge. rewrite Hi.
  destruct (N.eqb_spec (s_refs edge) 0) as [|Hne]; [done|].
  pose proof (edges_ok_release _ _ _ _ _ _ _ _ _ Hi Hl I2) as He. cbv zeta in He.
  assert (Hrefs : forall i,
    refs_at (<[idx := set_refs (s_refs edge - 1) edge]> (edges_ (rl_graph st))) i +
      (if decide (idx = i) then 1 else 0) = refs_at (edges_ (rl_graph st)) i).
  { intros i. rewrite (refs_at_set _ _ _ edge) by done. case_decide; [subst i|lia].
    unfold refs_at. rewrite Hi. lia. }
  assert (Hcont : forall i,
    ref_of <$> <[idx := set_refs (s_refs edge - 1) edge]> (edges_ (rl_graph st)) !! i =
    ref_of <$> edges_ g0 !! i).
  { intros i. rewrite <- I3. destruct (decide (idx = i)) as [<-|].
    - by rewrite list_lookup_insert_eq, Hi by (by eapply lookup_lt_Some).
    - by rewrite list_lookup_insert_ne. }
  assert (Hidx : refs_at (edges_ (rl_graph st)) idx = N.to_nat (s_refs edge)).
  { unfold refs_at. by rewrite Hi. }
  assert (Hmono : forall i,
    refs_at (<[idx := set_refs (s_refs edge - 1) edge]> (edges_ (rl_graph st))) i
      <= refs_at (edges_ g0) i).
  { intros i. specialize (Hrefs i). specialize (I7 i). lia. }
  destruct (N.ltb_spec 0 (s_refs edge - 1)) as [Hpos|Hz].
  - split_and!; [|done|done]. split; simpl; try done.
    intros i. rewrite I4. specialize (Hrefs i). destruct (decide (idx = i)) as [<-|]; lia.
  - split_and!; [|done|done]. split; simpl; try done.
    + intros i. rewrite elem_of_union, elem_of_singleton, I4. specialize (Hrefs i).
      destruct (decide (idx = i)) as [<-|Hd].
      * split; [|by left]. intros _. specialize (I7 idx). lia.
      * assert (i <> idx) by congruence. naive_solver lia.
    + intros i se. rewrite !elem_of_union, !elem_of_singleton. intros [->|Hin] Hse.
      * specialize (I3 idx). rewrite Hi, Hse in I3. simpl in I3. injection I3 as E1 E2 _ _ _ _ _.
        rewrite E1, E2. auto.
      * destruct (I5 i se Hin Hse). auto.
    + rewrite I6, size_union, size_singleton; [done|].
      intros i ->%elem_of_singleton Hin%I4. lia.
    + lia.
Qed.

Lemma release_edges_inv g0 st idxs :
  release_inv g0 st -> (forall i, occ i idxs <= refs_at (edges_ (rl_graph st)) i) ->
  let st' := foldl release_edge st idxs in
  release_inv g0 st' /\ tuEdges_ (rl_graph st') = tuEdges_ (rl_graph st) /\
  forall i, refs_at (edges_ (rl_graph st')) i + occ i idxs = refs_at (edges_ (rl_graph st)) i.
Proof.
  revert st. induction idxs as [|idx idxs IH]; intros st Hst Hocc; simpl.
  { split_and!; [done|done|]. intros i. rewrite occ_nil. lia. }
  assert (Hpos : 0 < refs_at (edges_ (rl_graph st)) idx).
  { specialize (Hocc idx). rewrite occ_cons, decide_True in Hocc by done. lia. }
  destruct (release_edge_inv g0 st idx Hst Hpos) as (H1 & H2 & H3).
  destruct (IH (release_edge st idx) H1) as (J1 & J2 & J3).
  { intros i. specialize (Hocc i). specialize (H3 i). rewrite occ_cons in Hocc. lia. }
  split_and!; [done|congruence|]. intros i. rewrite occ_cons. specialize (J3 i). specialize (H3 i). lia.
Qed.

(** Registrations the listed TUs hold on a position. *)
Definition tu_total (m : gmap SId (list nat)) (ids : list SId) (i : nat) : nat :=
  sum_list ((fun tu => occ i (vec_at m tu)) <$> ids).

Lemma tu_total_cons m tu ids i :
  tu_total m (tu :: ids) i = occ i (vec_at m tu) + tu_total m ids i.
Proof. done. Qed.

Definition delete_all {A} (m : gmap SId A) (ids : list SId) : gmap SId A :=
  foldl (fun m id => delete id m) m ids.

Lemma lookup_delete_all {A} (m : gmap SId A) ids k :
  delete_all m ids !! k = if decide (k ∈ ids) then None else m !! k.
Proof.
  revert m. induction ids as [|id ids IH]; intros m; simpl.
  { done. }
  rewrite IH, lookup_delete. repeat case_decide; set_solver.
Qed.

Lemma tu_total_delete m tu ids i :
  tu ∉ ids -> tu_total (delete tu m) ids i = tu_total m ids i.
Proof.
  induction ids as [|x ids IH]; intros Hn; [done|].
  apply not_elem_of_cons in Hn as [Hne Hn]. rewrite !tu_total_cons, IH by done.
  by rewrite vec_at_delete, decide_False.
Qed.

Lemma release_tus_inv g0 st ids :
  NoDup ids -> release_inv g0 st ->
  tu_ok (interner_ g0) (edges_ (rl_graph st)) (tuEdges_ (rl_graph st)) ->
  let st' := foldl release_tu st ids in
  release_inv g0 st' /\
  tu_ok (interner_ g0) (edges_ (rl_graph st')) (tuEdges_ (rl_graph st')) /\
  tuEdges_ (rl_graph st') = delete_all (tuEdges_ (rl_graph st)) ids /\
  forall i, refs_at (edges_ (rl_graph st')) i + tu_total (tuEdges_ (rl_graph st)) ids i =
            refs_at (edges_ (rl_graph st)) i.
Proof.
  revert st. induction ids as [|tu ids IH]; intros st Hnd Hst Htu; simpl.
  { split_and!; [done|done|done|]. intros i. unfold tu_total. simpl. lia. }
  apply NoDup_cons in Hnd as [Hnin Hnd].
  assert (Hstep : exists st1, release_tu st tu = st1 /\ release_inv g0 st1 /\
    tuEdges_ (rl_graph st1) = delete tu (tuEdges_ (rl_graph st)) /\
    forall i, refs_at (edges_ (rl_graph st1)) i + occ i (vec_at (tuEdges_ (rl_graph st)) tu) =
              refs_at (edges_ (rl_graph st)) i).
  { unfold release_tu, vec_at. destruct (tuEdges_ (rl_graph st) !! tu) as [idxs|] eqn:E; simpl.
    - destruct (release_edges_inv g0 st idxs Hst) as (H1 & H2 & H3).
      { intros i. pose proof (tu_counted _ _ _ Htu i) as Hc.
        rewrite (regs_delete i _ tu) in Hc. unfold vec_at in Hc. rewrite E in Hc. simpl in Hc. lia. }
      eexists. split; [done|]. split_and!; simpl; [|by rewrite H2|done].
      destruct H1. split; done.
    - exists st. rewrite delete_id by done. split_and!; try done; intros i; rewrite occ_nil; lia. }
  destruct Hstep as (st1 & -> & Hst1 & Hd & Hr).
  destruct (IH st1 Hnd Hst1) as (J1 & J2 & J3 & J4).
  { split.
    - intros i. rewrite Hd. pose proof (tu_counted _ _ _ Htu i) as Hc.
      rewrite (regs_delete i _ tu) in Hc. specialize (Hr i). lia.
    - intros x. rewrite Hd, lookup_delete. case_decide; [by intros []|apply (tu_known _ _ _ Htu)]. }
  rewrite Hd in J3, J4. split_and!; [done|done|done|].
  intros i. specialize (J4 i). specialize (Hr i). rewrite tu_total_delete in J4 by done.
  rewrite tu_total_cons. lia.
Qed.

(** * Scrubbing the adjacency vectors *)

Lemma scrub_fold dead m cs c :
  vec_at (foldl (scrub dead) m cs) c =
    if decide (c ∈ cs) then filter (fun i => i ∉ dead) (vec_at m c) else vec_at m c.
Proof.
  revert m. induction cs as [|x cs IH]; intros m; simpl.
  { done. }
  rewrite IH. unfold scrub. rewrite vec_at_insert.
  destruct (decide (x = c)) as [->|Hne].
  - rewrite (decide_True (P := c ∈ c :: cs)) by left.
    case_decide; [|done]. rewrite list_filter_filter. apply list_filter_iff. naive_solver.
  - destruct (decide (c ∈ cs)).
    + by rewrite decide_True by by right.
    + by rewrite decide_False by set_solver.
Qed.


(** * Dropping nodes *)

(** Removing one node id from the entry of its display name. *)
Lemma drop_name_vec t byName name nodeId d c :
  find t name = Some d ->
  vec_at (drop_name t name nodeId byName) c =
    if decide (c = d) then filter (fun x => x <> nodeId) (vec_at byName c) else vec_at byName c.
Proof.
  intros Hd. unfold drop_name. rewrite Hd. unfold vec_at at 2 3.
  destruct (byName !! d) as [vec|] eqn:E.
  - destruct (filter (fun x => x <> nodeId) vec) as [|x l] eqn:Ef.
    + rewrite vec_at_delete. repeat case_decide; subst; try congruence; try done.
      rewrite E. simpl. by rewrite Ef.
    + rewrite vec_at_insert. repeat case_decide; subst; try congruence; try done.
      rewrite E. simpl. by rewrite Ef.
  - unfold vec_at. case_decide; [subst; by rewrite E|done].
Qed.

Lemma drop_name_nonempty t byName name nodeId c :
  byName !! c <> Some [] -> drop_name t name nodeId byName !! c <> Some [].
Proof.
  intros H. unfold drop_name. destruct (find t name) as [d|]; [|done].
  destruct (byName !! d) as [vec|]; [|done].
  destruct (filter (fun x => x <> nodeId) vec) as [|x l].
  - rewrite lookup_delete. by case_decide.
  - rewrite lookup_insert. by case_decide.
Qed.

Lemma nodes_ok_drop t nodes byName nodeId node :
  interner_ok t -> nodes !! nodeId = Some node -> nodes_ok t nodes byName ->
  nodes_ok t (delete nodeId nodes) (drop_name t (qualifiedName node) nodeId byName).
Proof.
  intros Ht Hn [N1 N2 N3 N4 N5].
  destruct (N2 nodeId node Hn) as (d & Hd & _). apply resolve_find in Hd as Hf; [|done].
  assert (Hv : forall c, vec_at (drop_name t (qualifiedName node) nodeId byName) c =
    if decide (c = d) then filter (fun x => x <> nodeId) (vec_at byName c) else vec_at byName c).
  { intros c. by apply drop_name_vec. }
  split.
  - intros id n. rewrite lookup_delete. case_decide; [done|apply N1].
  - intros id n. rewrite lookup_delete. case_decide as Hne; [done|]. intros Hid.
    destruct (N2 id n Hid) as (d' & Hd' & Hin). exists d'. split; [done|].
    rewrite Hv. case_decide; [|done]. apply list_elem_of_filter. by split; [congruence|].
  - intros c id. rewrite Hv. case_decide as Hc; [subst c|].
    + intros [Hne Hin]%list_elem_of_filter. rewrite lookup_delete_ne by congruence. by apply N3.
    + intros Hin. destruct (N3 c id Hin) as (n & Hid & Hq). exists n. split; [|done].
      rewrite lookup_delete_ne; [done|]. intros <-. apply Hc.
      rewrite Hid in Hn. injection Hn as ->. by eapply resolve_opt_inj.
  - intros c. by apply drop_name_nonempty.
  - intros c. rewrite Hv. case_decide; [by apply NoDup_filter|done].
Qed.

(** The part of the graph the node passes change. *)
Definition nodes_part_ok (g : CallGraph) (tuNodes : gmap SId (list SId)) : Prop :=
  nodes_ok (interner_ g) (nodes_ g) (byName_ g) /\
  contrib_ok (interner_ g) (nodes_ g) (nodeContributors_ g) tuNodes.

(** Contributors left after a TU is dropped. *)
Lemma set_at_insert (m : gmap N (gset N)) k k' s :
  set_at (<[k := s]> m) k' = if decide (k = k') then s else set_at m k'.
Proof. unfold set_at. rewrite lookup_insert. by case_decide. Qed.

Lemma set_at_delete (m : gmap N (gset N)) k k' :
  set_at (delete k m) k' = if decide (k = k') then ∅ else set_at m k'.
Proof. unfold set_at. rewrite lookup_delete. by case_decide. Qed.

(** Everything but nodes, names and contributors. *)
Definition same_edges (g0 g : CallGraph) : Prop :=
  interner_ g = interner_ g0 /\ edges_ g = edges_ g0 /\ edgeIndex_ g = edgeIndex_ g0 /\
  outEdges_ g = outEdges_ g0 /\ inEdges_ g = inEdges_ g0 /\
  liveEdgeCount_ g = liveEdgeCount_ g0 /\ tuEdges_ g = tuEdges_ g0 /\
  derivedClasses_ g = derivedClasses_ g0 /\ methodOverrides_ g = methodOverrides_ g0 /\
  overrideBases_ g = overrideBases_ g0 /\ effectiveImplClasses_ g = effectiveImplClasses_ g0 /\
  functionReturns_ g = functionReturns_ g0 /\ returnedBy_ g = returnedBy_ g0 /\
  readOnly_ g = readOnly_ g0.

#[global] Instance same_edges_trans : Transitive same_edges.
Proof. unfold same_edges. intros a b c. intuition congruence. Qed.

(** What a node keeps when the contributors of [drop] go. *)
Definition kept (g : CallGraph) (drop : gset SId) (id : SId) : option CallGraphNode :=
  if decide (set_at (nodeContributors_ g) id <> ∅ /\ set_at (nodeContributors_ g) id ⊆ drop)
  then None else nodes_ g !! id.

Lemma drop_contribution_spec tuId g nodeId rest :
  interner_ok (interner_ g) ->
  nodes_part_ok g (<[tuId := nodeId :: rest]> (tuNodes_ g)) ->
  let g' := drop_contribution tuId g nodeId in
  nodes_part_ok g' (<[tuId := rest]> (tuNodes_ g')) /\ same_edges g g' /\
  tuNodes_ g' = tuNodes_ g /\
  (forall id, set_at (nodeContributors_ g') id =
     if decide (id = nodeId) then (set_at (nodeContributors_ g) id ∖ {[tuId]} : gset SId)
     else set_at (nodeContributors_ g) id) /\
  (forall id, nodes_ g' !! id =
     if decide (id = nodeId /\ set_at (nodeContributors_ g) id ⊆ {[tuId]}) then None
     else nodes_ g !! id).
Proof.
  intros Ht [Hn [C1 C2 C3 C4 C5]].
  assert (Hin : tuId ∈ set_at (nodeContributors_ g) nodeId).
  { apply C1. rewrite vec_at_insert, decide_True by done. left. }
  destruct (set_at_elem_Some _ _ _ Hin) as [contributors Hc].
  assert (Hset : set_at (nodeContributors_ g) nodeId = contributors).
  { unfold set_at. by rewrite Hc. }
  assert (Hnd : (nodeId ∉ rest) /\ NoDup rest).
  { specialize (C2 tuId). rewrite vec_at_insert, decide_True in C2 by done. by apply NoDup_cons in C2. }
  destruct Hnd as [Hnotin Hndr].
  destruct (C4 nodeId) as [node Hnode]; [by exists contributors|].
  unfold drop_contribution. rewrite Hc.
  assert (Hvec : forall tu n, n ∈ vec_at (<[tuId := rest]> (tuNodes_ g)) tu <->
    tu ∈ (if decide (n = nodeId) then (contributors ∖ {[tuId]}) else set_at (nodeContributors_ g) n)).
  { intros tu n. specialize (C1 tu n). rewrite vec_at_insert in *.
    destruct (decide (n = nodeId)) as [->|Hne].
    - rewrite Hset in C1. destruct (decide (tuId = tu)) as [<-|]; set_solver.
    - rewrite <- C1. destruct (decide (tuId = tu)); [|done]. rewrite elem_of_cons. naive_solver. }
  assert (Hnodup : forall tu, NoDup (vec_at (<[tuId := rest]> (tuNodes_ g)) tu)).
  { intros tu. specialize (C2 tu). rewrite vec_at_insert in *. by case_decide. }
  assert (Hk : forall tu, is_Some (<[tuId := rest]> (tuNodes_ g) !! tu) -> known (interner_ g) tu).
  { intros tu. specialize (C5 tu). rewrite lookup_insert in *. case_decide; eauto. }
  case_decide as Hempty; simpl.
  - rewrite Hnode. simpl. split_and!; try done.
    + split; simpl; [by apply nodes_ok_drop|]. split; try done.
      * intros tu n. rewrite Hvec, set_at_delete. repeat case_decide; subst; try congruence; set_solver.
      * intros n. rewrite lookup_delete. by case_decide.
      * intros n. rewrite !lookup_delete. case_decide; [by intros []|apply C4].
    + intros id. rewrite set_at_delete. repeat case_decide; subst; try congruence; set_solver.
    + intros id. rewrite lookup_delete. pose proof (empty_difference_subseteq_L _ _ Hempty).
      destruct (decide (nodeId = id)) as [<-|Hne].
      * rewrite decide_True; [done|]. by rewrite Hset.
      * rewrite decide_False; [done|]. intros [-> _]. done.
  - split_and!; try done.
    + split; simpl; [done|]. split; try done.
      * intros tu n. rewrite Hvec, set_at_insert. repeat case_decide; subst; congruence || done.
      * intros n. rewrite lookup_insert. case_decide; [congruence|done].
      * intros n. rewrite lookup_insert. case_decide; [subst n; intros _; by exists node|apply C4].
    + intros id. rewrite set_at_insert. repeat case_decide; subst; congruence || done.
    + intros id. case_decide as H; [|done]. destruct H as [-> Hsub]. exfalso. apply Hempty.
      rewrite Hset in Hsub. set_solver.
Qed.

Lemma contrib_ok_ext t nodes c tn tn' :
  (forall tu, vec_at tn' tu = vec_at tn tu) -> (forall tu, is_Some (tn' !! tu) -> known t tu) ->
  contrib_ok t nodes c tn -> contrib_ok t nodes c tn'.
Proof.
  intros Hv Hk [C1 C2 C3 C4 _]. split; [|intros tu; rewrite Hv; done|done|done|done].
  intros tu n. rewrite Hv. apply C1.
Qed.

(** What the node pass of one TU leaves. *)
Record nodes_dropped (drop : gset SId) (g g' : CallGraph) : Prop := {
  nd_edges : same_edges g g';
  nd_contributors : forall id,
    set_at (nodeContributors_ g') id = set_at (nodeContributors_ g) id ∖ drop;
  nd_nodes : forall id, nodes_ g' !! id = kept g drop id
}.

Lemma kept_none g drop id : set_at (nodeContributors_ g) id ∩ drop = ∅ -> kept g drop id = nodes_ g !! id.
Proof.
  intros Hd. unfold kept. apply decide_False. intros [Hne Hsub]. apply Hne.
  apply set_eq. intros x. split; [|set_solver]. intros Hx. rewrite <- Hd. set_solver.
Qed.

Lemma kept_union g g' D1 D2 id :
  set_at (nodeContributors_ g') id = set_at (nodeContributors_ g) id ∖ D1 ->
  nodes_ g' !! id = kept g D1 id -> kept g' D2 id = kept g (D1 ∪ D2) id.
Proof.
  unfold kept. intros -> ->. generalize (set_at (nodeContributors_ g) id) as s. intros s.
  destruct (decide (s <> ∅ /\ s ⊆ D1)) as [[Hne Hs]|Hn].
  - rewrite (decide_True (P := s <> ∅ /\ s ⊆ D1 ∪ D2)) by (split; [done|set_solver]).
    by case_decide.
  - destruct (decide (s <> ∅ /\ s ⊆ D1 ∪ D2)) as [[Hne Hs]|Hn2].
    + apply decide_True. split; [|set_solver]. intros H%empty_difference_subseteq_L. tauto.
    + apply decide_False. intros [H1 H2]. apply Hn2. split.
      * intros ->. apply H1. set_solver.
      * intros x Hx. destruct (decide (x ∈ D1)); set_solver.
Qed.

Lemma nodes_dropped_trans g1 g2 g3 D1 D2 :
  nodes_dropped D1 g1 g2 -> nodes_dropped D2 g2 g3 -> nodes_dropped (D1 ∪ D2) g1 g3.
Proof.
  intros [E1 C1 N1] [E2 C2 N2]. split; [by etrans| |].
  - intros id. rewrite C2, C1. set_solver.
  - intros id. rewrite N2. by apply kept_union.
Qed.

Lemma nodes_dropped_none g tuId :
  (forall id, tuId ∉ set_at (nodeContributors_ g) id) -> nodes_dropped {[tuId]} g g.
Proof.
  intros Hno. split; [done| |]; intros id; specialize (Hno id).
  - set_solver.
  - rewrite kept_none; [done|]. set_solver.
Qed.

Lemma drop_contributions_spec tuId ids g :
  interner_ok (interner_ g) -> nodes_part_ok g (<[tuId := ids]> (tuNodes_ g)) ->
  let g' := foldl (drop_contribution tuId) g ids in
  nodes_part_ok g' (<[tuId := []]> (tuNodes_ g')) /\ tuNodes_ g' = tuNodes_ g /\
  nodes_dropped {[tuId]} g g'.
Proof.
  revert g. induction ids as [|nodeId ids IH]; intros g Ht Hok; cbv zeta; simpl.
  - split_and!; [done|done|]. apply nodes_dropped_none. intros id Hin.
    apply (contrib_inverse _ _ _ _ (proj2 Hok)) in Hin.
    rewrite vec_at_insert, decide_True in Hin by done. by apply not_elem_of_nil in Hin.
  - pose proof (contrib_inverse _ _ _ _ (proj2 Hok) tuId nodeId) as Hin.
    rewrite vec_at_insert, decide_True in Hin by done.
    destruct (drop_contribution_spec _ _ _ _ Ht Hok) as (H1 & H2 & H3 & H4 & H5).
    destruct (IH (drop_contribution tuId g nodeId)) as (J1 & J2 & J3);
      [by rewrite (proj1 H2)|done|].
    split_and!; [done|congruence|].
    destruct J3 as [K1 K2 K3]. split; [by etrans| |].
    + intros id. rewrite K2, H4. case_decide; set_solver.
    + intros id. rewrite K3. unfold kept. rewrite H4, H5.
      destruct (decide (id = nodeId)) as [->|Hne].
      * assert (Hx : tuId ∈ set_at (nodeContributors_ g) nodeId) by (apply Hin; left).
        assert (set_at (nodeContributors_ g) nodeId <> ∅) by set_solver.
        destruct (decide (set_at (nodeContributors_ g) nodeId ⊆ {[tuId]})).
        -- rewrite (decide_True (P := nodeId = nodeId /\ _)) by done.
           rewrite (decide_True (P := set_at (nodeContributors_ g) nodeId <> ∅ /\ _)) by done.
           by case_decide.
        -- rewrite (decide_False (P := nodeId = nodeId /\ _)) by tauto.
           rewrite (decide_False (P := set_at (nodeContributors_ g) nodeId <> ∅ /\ _)) by tauto.
           apply decide_False. set_solver.
      * by rewrite (decide_False (P := id = nodeId /\ _)) by tauto.
Qed.

Lemma drop_tu_nodes_spec g tuId :
  interner_ok (interner_ g) -> nodes_part_ok g (tuNodes_ g) ->
  let g' := drop_tu_nodes g tuId in
  nodes_part_ok g' (tuNodes_ g') /\ tuNodes_ g' = delete tuId (tuNodes_ g) /\
  nodes_dropped {[tuId]} g g'.
Proof.
  intros Ht Hok. cbv zeta. unfold drop_tu_nodes.
  destruct (tuNodes_ g !! tuId) as [ids|] eqn:E.
  - destruct (drop_contributions_spec tuId ids g) as ((J1 & J2) & J3 & J4); [done|by rewrite insert_id|].
    simpl. rewrite J3. split_and!; [|done|by destruct J4].
    split; [done|]. simpl in *. eapply contrib_ok_ext; [| |exact J2]; intros tu.
    + rewrite vec_at_delete, vec_at_insert, J3. done.
    + rewrite lookup_delete. case_decide; [by intros []|]. intros Hs.
      apply (contrib_known _ _ _ _ J2). by rewrite lookup_insert_ne, J3.
  - rewrite delete_id by done. split_and!; [done|done|].
    apply nodes_dropped_none. intros id Hin. apply (contrib_inverse _ _ _ _ (proj2 Hok)) in Hin.
    unfold vec_at in Hin. rewrite E in Hin. by apply not_elem_of_nil in Hin.
Qed.

Lemma drop_tus_nodes_spec g ids :
  interner_ok (interner_ g) -> nodes_part_ok g (tuNodes_ g) ->
  let g' := foldl drop_tu_nodes g ids in
  nodes_part_ok g' (tuNodes_ g') /\ tuNodes_ g' = delete_all (tuNodes_ g) ids /\
  nodes_dropped (list_to_set ids) g g'.
Proof.
  revert g. induction ids as [|tuId ids IH]; intros g Ht Hok; cbv zeta; simpl.
  - split_and!; [done|done|]. split; [done| |]; intros id; [set_solver|].
    rewrite kept_none; [done|]. set_solver.
  - destruct (drop_tu_nodes_spec g tuId Ht Hok) as (H1 & H2 & H3).
    destruct (IH (drop_tu_nodes g tuId)) as (J1 & J2 & J3);
      [by rewrite (proj1 (nd_edges _ _ _ H3))|done|].
    split_and!; [done|by rewrite J2, H2|]. by eapply nodes_dropped_trans.
Qed.

(** * The whole operation *)

Section RemoveTUs.
Context `{!UnorderedIter}.

Lemma elem_of_tu_ids t paths id :
  id ∈ tu_ids t paths <-> exists p, p ∈ paths /\ find t (toIndexText p) = Some id.
Proof.
  unfold tu_ids. rewrite <- (rev_involutive paths).
  induction (rev paths) as [|p l IH]; simpl.
  { split; [by intros ?%not_elem_of_nil|]. by intros (? & ?%not_elem_of_nil & _). }
  rewrite foldl_app. simpl.
  assert (Hp : forall q, q ∈ rev l ++ [p] <-> q ∈ rev l \/ q = p).
  { intros q. by rewrite elem_of_app, list_elem_of_singleton. }
  destruct (find t (toIndexText p)) as [d|] eqn:E.
  - case_decide as Hin; [|rewrite elem_of_app, list_elem_of_singleton]; rewrite IH;
      setoid_rewrite Hp; split.
    + naive_solver.
    + intros (q & [Hq| ->] & Hf); [eauto|]. apply IH. congruence.
    + intros [?| ->]; naive_solver.
    + naive_solver.
  - rewrite IH. setoid_rewrite Hp. naive_solver.
Qed.

Lemma NoDup_tu_ids t paths : NoDup (tu_ids t paths).
Proof.
  unfold tu_ids. induction paths as [|p l IH] using rev_ind; [constructor|].
  rewrite foldl_app. simpl. destruct (find t (toIndexText p)) as [d|]; [|done].
  case_decide; [done|]. apply NoDup_app. split_and!; [done| |apply NoDup_singleton].
  intros x Hx ->%list_elem_of_singleton. done.
Qed.

(** The scrubbed vectors are those without the dead positions. *)
Lemma scrub_alive edges side m dead (cs : gset SId) c :
  adjacency_ok edges side m ->
  (forall i se, i ∈ dead -> edges !! i = Some se -> side se ∈ cs) ->
  vec_at (foldl (scrub dead) m (set_iter cs)) c = vec_at (alive dead m) c.
Proof.
  intros Hm Hcs. rewrite scrub_fold, vec_at_alive. case_decide as Hc; [done|].
  rewrite set_iter_perm, elem_of_elements in Hc. symmetry. apply filter_id.
  intros i Hi Hd. apply (proj2 (Hm c)) in Hi as (se & Hse & _ & <-). by eapply Hc, Hcs.
Qed.

(** The release and scrub passes together. *)
Lemma released_ok g ids :
  cg_ok g -> NoDup ids ->
  let st := foldl release_tu (MkRelease g ∅ ∅ ∅ 0) ids in
  let g1 := rl_graph st in
  let g2 := set_outEdges
              (foldl (scrub (rl_dead st)) (outEdges_ g1) (set_iter (rl_callers st))) g1 in
  let g3 := set_inEdges
              (foldl (scrub (rl_dead st)) (inEdges_ g2) (set_iter (rl_callees st))) g2 in
  cg_ok g3 /\ release_inv g st /\ tuEdges_ g3 = delete_all (tuEdges_ g) ids /\
  forall i, refs_at (edges_ g3) i + tu_total (tuEdges_ g) ids i = refs_at (edges_ g) i.
Proof.
  intros [O1 O2 O3 O4 O5 O6] Hnd.
  assert (H0 : release_inv g (MkRelease g ∅ ∅ ∅ 0)).
  { split; simpl; try done; try set_solver; try lia.
    - destruct O4 as [E1 E2 E3 E4 E5 E6]. split; try done.
      all: eapply adjacency_ok_ext; [|eassumption]; intros c; rewrite vec_at_alive;
        symmetry; apply filter_id; set_solver.
    - intros i. split; [set_solver|lia]. }
  destruct (release_tus_inv g _ ids Hnd H0 O5) as (I & Htu & Htue & Hrefs).
  cbv zeta. set (st := foldl release_tu _ ids) in *. clearbody st. simpl in Htue, Hrefs.
  destruct (ri_rest _ _ I) as (R1 & R2 & R3 & R4 & R5 & R6 & R7 & R8 & R9 & R10 & R11 & R12 & R13 & R14).
  split_and!; simpl; [|done|done|done].
  split; simpl; rewrite ?R1, ?R2, ?R3, ?R6, ?R7, ?R8, ?R9, ?R10, ?R11, ?R12, ?R13; try done.
  destruct (ri_edges _ _ I) as [E1 E2 E3 E4 E5 E6]. rewrite R4, R5. split; try done.
  - eapply adjacency_ok_ext; [|exact E4]. intros c. symmetry. eapply scrub_alive; [apply O4|].
    intros i se Hd Hse. by eapply ri_marked in Hd as [? _].
  - eapply adjacency_ok_ext; [|exact E5]. intros c. symmetry. eapply scrub_alive; [apply O4|].
    intros i se Hd Hse. by eapply ri_marked in Hd as [_ ?].
Qed.

(** What [removeTUs] leaves, position by position. *)
Record removed_spec (ids : list SId) (g g' : CallGraph) (removed : nat) : Prop := {
  rm_ok : cg_ok g';
  rm_strings : interner_ g' = interner_ g;
  rm_content : forall i, ref_of <$> edges_ g' !! i = ref_of <$> edges_ g !! i;
  rm_refs : forall i, refs_at (edges_ g') i + tu_total (tuEdges_ g) ids i = refs_at (edges_ g) i;
  rm_tus : forall tu, tuEdges_ g' !! tu = if decide (tu ∈ ids) then None else tuEdges_ g !! tu;
  rm_count : (edgeCount g' + Z.of_nat removed = edgeCount g)%Z;
  rm_nodes : forall id, nodes_ g' !! id = kept g (list_to_set ids) id;
  rm_rels : derivedClasses_ g' = derivedClasses_ g /\ methodOverrides_ g' = methodOverrides_ g /\
            overrideBases_ g' = overrideBases_ g /\
            effectiveImplClasses_ g' = effectiveImplClasses_ g /\
            functionReturns_ g' = functionReturns_ g /\ returnedBy_ g' = returnedBy_ g;
  rm_readOnly : readOnly_ g' = readOnly_ g
}.

Lemma removeTUs_removed g tuPaths :
  cg_ok g -> readOnly_ g = false ->
  removed_spec (tu_ids (interner_ g) tuPaths) g (removeTUs tuPaths g).1 (removeTUs tuPaths g).2.
Proof.
  intros Hok Hro. unfold removeTUs. rewrite Hro.
  set (ids := tu_ids (interner_ g) tuPaths). assert (Hnd : NoDup ids) by apply NoDup_tu_ids.
  destruct (released_ok g ids Hok Hnd) as (K1 & K2 & K3 & K4). cbv zeta in *. simpl fst. simpl snd.
  set (st := foldl release_tu (MkRelease g ∅ ∅ ∅ 0) ids) in *.
  set (g3 := set_inEdges _ _) in *.
  destruct (drop_tus_nodes_spec g3 ids) as (L1 & L2 & L3); [apply K1|split; apply K1|].
  destruct K1 as [O1 O2 O3 O4 O5 O6].
  destruct L3 as [(Q1 & Q2 & Q3 & Q4 & Q5 & Q6 & Q7 & Q8 & Q9 & Q10 & Q11 & Q12 & Q13 & Q14) C N].
  destruct (ri_rest _ _ K2) as (R1 & R2 & R3 & R4 & R5 & R6 & R7 & R8 & R9 & R10 & R11 & R12 & R13 & R14).
  set (g' := foldl drop_tu_nodes g3 ids) in *. clearbody g'. split.
  - split; rewrite ?Q1, ?Q2, ?Q3, ?Q4, ?Q5, ?Q6, ?Q7, ?Q8, ?Q9, ?Q10, ?Q11, ?Q12, ?Q13; try done.
    all: rewrite <- Q1; apply L1.
  - by rewrite Q1.
  - intros i. rewrite Q2. apply (ri_content _ _ K2).
  - intros i. rewrite Q2. apply K4.
  - intros tu. rewrite Q7, K3. apply lookup_delete_all.
  - unfold edgeCount. rewrite Q6. apply (ri_live _ _ K2).
  - intros id. rewrite N. unfold kept, g3. simpl. by rewrite R2, R6.
  - rewrite Q8, Q9, Q10, Q11, Q12, Q13. done.
  - by rewrite Q14.
Qed.
End RemoveTUs.

(** * Survival of an edge *)

(** Every reference of an edge is held by some TU. *)
Definition tagged (g : CallGraph) : Prop :=
  forall i, refs_at (edges_ g) i = regs (tuEdges_ g) i.

Lemma regs_delete_all m ids i :
  NoDup ids -> regs m i = tu_total m ids i + regs (delete_all m ids) i.
Proof.
  revert m. induction ids as [|tu ids IH]; intros m Hnd; simpl; [done|].
  apply NoDup_cons in Hnd as [Hn Hnd]. rewrite (regs_delete i m tu), (IH (delete tu m)) by done.
  rewrite tu_total_delete, tu_total_cons by done. lia.
Qed.


Lemma tagged_survives ids g g' removed :
  NoDup ids -> tagged g -> removed_spec ids g g' removed ->
  tagged g' /\
  forall i, 0 < refs_at (edges_ g') i <-> exists tu, (tu ∉ ids) /\ i ∈ vec_at (tuEdges_ g) tu.
Proof.
  intros Hnd Htag [_ _ _ Hr Ht _ _ _].
  assert (E : tuEdges_ g' = delete_all (tuEdges_ g) ids).
  { apply map_eq. intros tu. by rewrite Ht, lookup_delete_all. }
  assert (Htag' : tagged g').
  { intros i. specialize (Hr i). rewrite Htag, (regs_delete_all _ ids) in Hr by done. rewrite E. lia. }
  split; [done|]. intros i. rewrite (Htag' i), regs_pos.
  apply exist_proper. intros tu. unfold vec_at. rewrite Ht.
  destruct (decide (tu ∈ ids)); [|tauto]. split; [by intros ?%not_elem_of_nil|tauto].
Qed.

(** C10. Removing translation units keeps the representation invariant and takes back
    exactly their registrations: every edge position keeps its content and loses
    one reference per registration of a removed unit, the other units' lists stay
    as they were, the returned count is the number of live edges lost, a node
    goes exactly when all of its contributors (and at least one) were removed, and
    the relation maps and interned strings stay. *)
Theorem remove_tus_exact `{!UnorderedIter} (g : CallGraph) (tuPaths : list bytes) :
  cg_ok g -> readOnly_ g = false ->
  removed_spec (tu_ids (interner_ g) tuPaths) g (removeTUs tuPaths g).1 (removeTUs tuPaths g).2.
Proof. apply removeTUs_removed. Qed.

(** When every registration names its unit, an edge survives a removal exactly
    when a unit that was not removed registers it, and the property is kept. *)
Theorem edges_survive_iff_registered `{!UnorderedIter} (g : CallGraph) (tuPaths : list bytes) :
  cg_ok g -> readOnly_ g = false -> tagged g ->
  let g' := (removeTUs tuPaths g).1 in
  tagged g' /\
  forall i, 0 < refs_at (edges_ g') i <->
    exists tu, (forall p, p ∈ tuPaths -> find (interner_ g) (toIndexText p) <> Some tu) /\
               i ∈ vec_at (tuEdges_ g) tu.
Proof.
  intros Hok Hro Htag g'.
  destruct (tagged_survives _ _ _ _ (NoDup_tu_ids _ _) Htag (removeTUs_removed g tuPaths Hok Hro))
    as [H1 H2].
  split; [done|]. intros i. unfold g'. rewrite H2. apply exist_proper. intros tu.
  rewrite elem_of_tu_ids. naive_solver.
Qed.

(** Two units share a call; one of them adds a second one. *)
Definition two_units : CallGraph :=
  build [AddNode (MkNode (str "f") (str "a.h") 1 false false [] []) (str "a.cpp");
         AddNode (MkNode (str "g") (str "b.cpp") 2 false false [] []) (str "b.cpp");
         AddEdge (direct (str "f") (str "h") (str "a.h:2:1")) (str "a.cpp");
         AddEdge (direct (str "f") (str "h") (str "a.h:2:1")) (str "b.cpp");
         AddEdge (direct (str "g") (str "f") (str "b.cpp:3:1")) (str "b.cpp")] empty_graph.

Lemma two_units_ok : cg_ok two_units.
Proof. apply build_ok. vm_compute. discriminate. Qed.

Lemma two_units_tagged : tagged two_units.
Proof. intros [|[|i]]; vm_compute; done. Qed.

Lemma remove_tus_exact_witness :
  let r := @removeTUs canonical_iter [str "b.cpp"] two_units in
  cg_ok r.1 /\ (edgeCount r.1 + Z.of_nat r.2 = 2)%Z.
Proof.
  pose proof (@remove_tus_exact canonical_iter two_units [str "b.cpp"] two_units_ok eq_refl) as H.
  split; [exact (rm_ok _ _ _ _ H)|exact (rm_count _ _ _ _ H)].
Defined.

Lemma edges_survive_iff_registered_witness :
  let g' := (@removeTUs canonical_iter [str "b.cpp"] two_units).1 in
  tagged g' /\ edgeCount g' = 1%Z.
Proof.
  split; [|vm_compute; reflexivity].
  apply (@edges_survive_iff_registered canonical_iter two_units [str "b.cpp"] two_units_ok eq_refl
           two_units_tagged).
Defined.
