(* ===== verification/CallGraphCompact.v ===== *)
(** Compaction of the edge table: [CallGraph::compact].

    The pass renumbers the edges; its theorem says that nothing a query returns
    changes, order included.  For that the adjacency vectors are characterised as
    the live edges of one endpoint in table order. *)

From S2P Require Import Prelude Registrations Utf8 StringInterner CallGraph CallGraphInv CallGraphRemove.

(** * Adjacency vectors as lists of edges *)

(** The live edges with the given endpoint, in table order. *)
Definition edges_at (side : StoredEdge -> SId) (c : SId) (edges : list StoredEdge)
  : list StoredEdge := filter (fun se => live se /\ side se = c) edges.

Definition selected (edges : list StoredEdge) (side : StoredEdge -> SId) (c : SId) (i : nat)
  : Prop := exists se, edges !! i = Some se /\ live se /\ side se = c.

#[global] Instance selected_dec edges side c i : Decision (selected edges side c i).
Proof.
  destruct (edges !! i) as [se|] eqn:E.
  - destruct (decide (live se /\ side se = c)); [left; by exists se|right].
    intros (x & ? & ?). naive_solver.
  - right. intros (x & ? & ?). naive_solver.
Defined.

Lemma omap_selected side c edges :
  omap (fun i => edges !! i) (filter (selected edges side c) (seq 0 (length edges))) =
  edges_at side c edges.
Proof.
  induction edges as [|x edges IH] using rev_ind; [done|].
  rewrite length_app, seq_app, filter_app, omap_app. simpl.
  unfold edges_at in *. rewrite filter_app, <- IH. f_equal.
  - rewrite (filter_ext_in _ (selected edges side c)).
    + apply omap_ext_in. intros i [_ Hi%elem_of_seq]%list_elem_of_filter.
      by rewrite lookup_app_l by lia.
    + intros i Hi%elem_of_seq. unfold selected. by rewrite lookup_app_l by lia.
  - rewrite !filter_cons, !filter_nil.
    assert (selected (edges ++ [x]) side c (length edges) <-> live x /\ side x = c) as E.
    { unfold selected. rewrite lookup_app_r, Nat.sub_diag by lia. simpl. naive_solver. }
    destruct (decide (live x /\ side x = c)) as [H|H], (decide (selected _ _ _ _)); try tauto.
    simpl. by rewrite lookup_app_r, Nat.sub_diag by lia.
Qed.

Lemma adjacency_edges edges side m c :
  adjacency_ok edges side m -> omap (fun i => edges !! i) (vec_at m c) = edges_at side c edges.
Proof.
  intros Hm. destruct (Hm c) as [Hs Hc]. rewrite <- omap_selected. f_equal.
  apply sorted_lt_ext; [done| |].
  - apply StronglySorted_filter, seq_sorted.
  - intros i. rewrite Hc, list_elem_of_filter, elem_of_seq. split; [|naive_solver].
    intros Hsel. split; [done|]. destruct Hsel as (se & Hi & _). apply lookup_lt_Some in Hi. lia.
Qed.

(** * The edge pass *)

Definition keys_distinct (edges : list StoredEdge) : Prop :=
  forall i j a b, edges !! i = Some a -> edges !! j = Some b -> live a -> live b ->
    keyOf a = keyOf b -> i = j.

Record compact_inv (seen : list StoredEdge) (st : compact_state) : Prop := {
  ci_edges : cp_edges st = filter live seen;
  ci_old : cp_old st = length seen;
  ci_index : forall k i, cp_index st !! k = Some i <->
    exists se, cp_edges st !! i = Some se /\ live se /\ keyOf se = k;
  ci_out : adjacency_ok (cp_edges st) s_caller (cp_out st);
  ci_in : adjacency_ok (cp_edges st) s_callee (cp_in st);
  ci_remap : forall i j, cp_remap st !! i = Some j <->
    (exists se, seen !! i = Some se /\ live se) /\ j = new_pos live seen i
}.

Lemma compact_edge_inv seen edge st :
  keys_distinct (seen ++ [edge]) -> compact_inv seen st ->
  compact_inv (seen ++ [edge]) (compact_edge st edge).
Proof.
  intros Hd [C1 C2 C3 C4 C5 C6]. unfold compact_edge.
  assert (Hlast : (seen ++ [edge]) !! length seen = Some edge).
  { by rewrite lookup_app_r, Nat.sub_diag by lia. }
  assert (Hlk : forall i se, (seen ++ [edge]) !! i = Some se ->
    seen !! i = Some se \/ (i = length seen /\ se = edge)).
  { intros i se [H|[? H]]%lookup_app_Some; [by left|right].
    apply list_lookup_singleton_Some in H as [? ->]. split; [lia|done]. }
  assert (Hremap : forall i j,
    (exists se, seen !! i = Some se /\ live se) /\ j = new_pos live seen i <->
    ((exists se, (seen ++ [edge]) !! i = Some se /\ live se) /\ j = new_pos live (seen ++ [edge]) i) /\
    i < length seen).
  { intros i j. split.
    - intros [(se & Hi & Hl) ->]. pose proof (lookup_lt_Some _ _ _ Hi).
      rewrite new_pos_app by lia. split; [|done]. split; [|done]. exists se.
      by rewrite lookup_app_l.
    - intros [[(se & Hi & Hl) ->] Hlt]. rewrite new_pos_app by lia. split; [|done]. exists se.
      by rewrite lookup_app_l in Hi. }
  destruct (N.eqb_spec (s_refs edge) 0) as [Hz|Hnz].
  - assert (~ live edge) by (unfold live; lia).
    split; simpl; [|by rewrite length_app, C2; simpl; lia|done|done|done|].
    + rewrite filter_app, C1, filter_cons_False, filter_nil, app_nil_r by done. done.
    + intros i j. rewrite C6, Hremap. split; [tauto|]. intros [(se & Hi & Hl) ->].
      split; [eauto|]. destruct (Hlk _ _ Hi) as [?%lookup_lt_Some|[_ ->]]; [done|tauto].
  - assert (Hl : live edge) by done.
    assert (Hfresh : cp_index st !! keyOf edge = None).
    { apply eq_None_not_Some. intros [i (se & Hi & Hs & Hk)%C3]. rewrite C1 in Hi.
      apply new_pos_surj in Hi as (o & Ho & _ & _).
      assert (o = length seen); [|apply lookup_lt_Some in Ho; lia].
      apply (Hd o (length seen) se edge); try done. by apply lookup_app_l_Some. }
    rewrite Hfresh. split; simpl; [|by rewrite length_app, C2; simpl; lia| | | |].
    + rewrite filter_app, C1, filter_cons_True, filter_nil by done. done.
    + intros k i. rewrite lookup_insert. split.
      * case_decide as Hk; [intros [= <-]|].
        -- exists edge. rewrite lookup_app_r, Nat.sub_diag by lia. done.
        -- intros (se & Hi & ? & ?)%C3. exists se. split; [|done]. by apply lookup_app_l_Some.
      * intros (se & [Hi|[Hge Hi]]%lookup_app_Some & Hs & Hk).
        -- rewrite decide_False; [apply C3; eauto|]. intros Ek.
           assert (Hx : cp_index st !! keyOf edge = Some i) by (apply C3; exists se; split_and!; congruence).
           congruence.
        -- apply list_lookup_singleton_Some in Hi as [? ->]. rewrite decide_True by done.
           f_equal. lia.
    + by apply adjacency_ok_append.
    + by apply adjacency_ok_append.
    + intros i j. rewrite lookup_insert, C2. destruct (decide (length seen = i)) as [<-|Hne].
      * rewrite C1. unfold new_pos. rewrite take_app_length. split; [|by intros [_ ->]].
        intros [= <-]. eauto.
      * rewrite C6, Hremap. split; [tauto|]. intros [(se & Hi & Hls) ->]. split; [eauto|].
        destruct (Hlk _ _ Hi) as [?%lookup_lt_Some|[? _]]; [done|congruence].
Qed.

Lemma compact_edges_inv seen rest st :
  keys_distinct (seen ++ rest) -> compact_inv seen st ->
  compact_inv (seen ++ rest) (foldl compact_edge st rest).
Proof.
  revert seen st. induction rest as [|e rest IH]; intros seen st Hd Hst; simpl.
  { by rewrite app_nil_r. }
  rewrite cons_middle, app_assoc in Hd |- *. apply IH; [done|]. apply compact_edge_inv; [|done].
  intros i j a b Hi Hj. apply (Hd i j); by apply lookup_app_l_Some.
Qed.

(** * The registration pass *)

Lemma compact_tu_vec remap m entry tu :
  vec_at (compact_tu remap m entry) tu =
    vec_at m tu ++ if decide (tu = entry.1) then omap (fun old => remap !! old) entry.2 else [].
Proof.
  destruct entry as [k idxs]. unfold compact_tu. simpl.
  destruct (vec_at m k ++ omap (fun old => remap !! old) idxs) as [|x l] eqn:E.
  - rewrite vec_at_delete. destruct (decide (k = tu)) as [<-|].
    + by rewrite decide_True, E by done.
    + by rewrite decide_False, app_nil_r by congruence.
  - rewrite vec_at_insert. destruct (decide (k = tu)) as [<-|].
    + by rewrite decide_True, E by done.
    + by rewrite decide_False, app_nil_r by congruence.
Qed.

#[local] Arguments compact_tu : simpl never.

Lemma compact_tus_vec remap m entries tu :
  NoDup entries.*1 ->
  vec_at (foldl (compact_tu remap) m entries) tu =
    vec_at m tu ++ omap (fun old => remap !! old) (vec_at (list_to_map entries) tu).
Proof.
  revert m. induction entries as [|[k idxs] entries IH]; intros m Hnd; simpl.
  { unfold vec_at at 3. rewrite lookup_empty. simpl. by rewrite app_nil_r. }
  apply NoDup_cons in Hnd as [Hk Hnd]. rewrite IH, compact_tu_vec, vec_at_insert by done. simpl.
  rewrite <- app_assoc. f_equal. destruct (decide (k = tu)) as [->|Hne].
  - rewrite decide_True by done. unfold vec_at. rewrite not_elem_of_list_to_map_1 by done.
    simpl. by rewrite app_nil_r.
  - by rewrite decide_False by congruence.
Qed.

Lemma compact_tus_keys remap m entries tu :
  is_Some (foldl (compact_tu remap) m entries !! tu) -> is_Some (m !! tu) \/ tu ∈ entries.*1.
Proof.
  revert m. induction entries as [|[k idxs] entries IH]; intros m; simpl; [by left|].
  intros [H|H]%IH; [|right; by right]. unfold compact_tu in H.
  destruct (vec_at m k ++ omap (fun old => remap !! old) idxs).
  - rewrite lookup_delete in H. case_decide; [by destruct H|by left].
  - rewrite lookup_insert in H. case_decide; [subst; right; left|by left].
Qed.

Lemma map_iter_list_to_map `{!UnorderedIter} {V} (m : gmap N V) :
  list_to_map (map_iter m) = m /\ NoDup (map_iter m).*1.
Proof.
  pose proof (map_iter_perm V m) as Hp.
  assert (Hnd : NoDup (map_iter m).*1) by (rewrite Hp; apply NoDup_fst_map_to_list).
  split; [|done]. rewrite <- (list_to_map_to_list m) at 2. by apply list_to_map_proper.
Qed.

(** * The whole operation *)

Lemma foldl_lookup {S} (h : S -> StoredEdge -> S) (edges : list StoredEdge) (idxs : list nat) st :
  foldl (fun st idx => match edges !! idx with None => st | Some se => h st se end) st idxs =
  foldl h st (omap (fun i => edges !! i) idxs).
Proof.
  revert st. induction idxs as [|i idxs IH]; intros st; [done|]. cbn [foldl]. rewrite IH.
  rewrite omap_cons_eq.
  by destruct (edges !! i).
Qed.

(** Two graphs whose vectors list the same edges in the same order, over the
    same relation maps. *)
Record same_view (g g' : CallGraph) : Prop := {
  sv_out : forall c, omap (fun i => edges_ g' !! i) (vec_at (outEdges_ g') c) =
                     omap (fun i => edges_ g !! i) (vec_at (outEdges_ g) c);
  sv_in : forall c, omap (fun i => edges_ g' !! i) (vec_at (inEdges_ g') c) =
                    omap (fun i => edges_ g !! i) (vec_at (inEdges_ g) c);
  sv_rels : methodOverrides_ g' = methodOverrides_ g /\ overrideBases_ g' = overrideBases_ g /\
            functionReturns_ g' = functionReturns_ g /\ returnedBy_ g' = returnedBy_ g
}.

Lemma calleeRefsOf_vec g c :
  calleeRefsOf g c =
    (foldl (callee_returns g) (foldl (callee_virtual g)
       (foldl (callee_stored g) (∅, []) (vec_at (outEdges_ g) c)) (vec_at (outEdges_ g) c))
       (vec_at (outEdges_ g) c)).2.
Proof. unfold calleeRefsOf, vec_at. by destruct (outEdges_ g !! c). Qed.

Lemma same_view_callees g g' c : same_view g g' -> calleeRefsOf g' c = calleeRefsOf g c.
Proof.
  intros [Ho _ (R1 & R2 & R3 & R4)]. rewrite !calleeRefsOf_vec.
  unfold callee_stored, callee_virtual, callee_returns.
  by rewrite !foldl_lookup, Ho, R1, R3.
Qed.

Lemma foldl_ext_eq {A B} (f h : A -> B -> A) (l : list B) a :
  (forall a b, f a b = h a b) -> foldl f a l = foldl h a l.
Proof. intros H. revert a. induction l as [|x l IH]; intros a; simpl; [done|]. by rewrite H, IH. Qed.

Lemma same_view_callers g g' c : same_view g g' -> callerRefsOf g' c = callerRefsOf g c.
Proof.
  intros [_ Hi (R1 & R2 & R3 & R4)]. unfold callerRefsOf. rewrite R2, R4.
  unfold caller_stored, caller_virtual, caller_returns. rewrite !foldl_lookup, Hi.
  f_equal. erewrite foldl_ext_eq with (l := vec_at (returnedBy_ g) c); [f_equal|].
  - apply foldl_ext_eq. intros st b. by rewrite !foldl_lookup, Hi.
  - intros st b. simpl. by rewrite !foldl_lookup, Hi.
Qed.

Lemma storedInDegree_edges g c :
  storedInDegree g c =
    foldl (fun count se => if (0 <? s_refs se)%N then S count else count) 0
      (omap (fun i => edges_ g !! i) (vec_at (inEdges_ g) c)).
Proof.
  rewrite <- foldl_lookup. unfold storedInDegree, vec_at. destruct (inEdges_ g !! c) as [l|]; [|done].
  simpl. apply foldl_ext_eq. intros a i. by destruct (edges_ g !! i).
Qed.

Lemma same_view_degree g g' c : same_view g g' -> storedInDegree g' c = storedInDegree g c.
Proof. intros [_ Hi _]. by rewrite !storedInDegree_edges, Hi. Qed.

Lemma edges_at_live side c edges : edges_at side c (filter live edges) = edges_at side c edges.
Proof. unfold edges_at. rewrite list_filter_filter. apply list_filter_iff. naive_solver. Qed.

Section Compact.
Context `{!UnorderedIter}.

(** What [compact] leaves. *)
Record compacted (g g' : CallGraph) : Prop := {
  cd_ok : cg_ok g';
  cd_edges : edges_ g' = filter live (edges_ g);
  cd_dense : edgeCount g' = Z.of_nat (length (edges_ g'));
  cd_tus : forall tu, omap (fun i => edges_ g' !! i) (vec_at (tuEdges_ g') tu) =
                      omap (fun i => edges_ g !! i) (vec_at (tuEdges_ g) tu);
  cd_view : same_view g g';
  cd_rest : interner_ g' = interner_ g /\ nodes_ g' = nodes_ g /\ byName_ g' = byName_ g /\
            nodeContributors_ g' = nodeContributors_ g /\ tuNodes_ g' = tuNodes_ g /\
            derivedClasses_ g' = derivedClasses_ g /\
            effectiveImplClasses_ g' = effectiveImplClasses_ g
}.

Lemma compact_pass g :
  cg_ok g ->
  compact_inv (edges_ g) (foldl compact_edge (MkCompact [] ∅ ∅ ∅ ∅ 0) (edges_ g)).
Proof.
  intros Hok. apply (compact_edges_inv [] (edges_ g)).
  - intros i j a b Hi Hj Ha Hb Hk. eapply edges_key_unique; try done. apply Hok.
  - split; simpl; try done; try apply empty_adjacency_ok.
    + intros k i. rewrite lookup_empty. split; [done|]. by intros (se & ? & _).
    + intros i j. rewrite lookup_empty. split; [done|]. by intros [(se & ? & _) _].
Qed.

Lemma registered_live g tu i :
  cg_ok g -> i ∈ vec_at (tuEdges_ g) tu -> exists se, edges_ g !! i = Some se /\ live se.
Proof.
  intros Hok Hin. apply refs_at_pos. pose proof (tu_counted _ _ _ (ok_tu _ Hok) i).
  assert (0 < regs (tuEdges_ g) i) by (apply regs_pos; eauto). lia.
Qed.

(** The remapped registration lists. *)
Lemma compact_tus_at g st tu :
  vec_at (foldl (compact_tu (cp_remap st)) ∅ (map_iter (tuEdges_ g))) tu =
  omap (fun old => cp_remap st !! old) (vec_at (tuEdges_ g) tu).
Proof.
  destruct (map_iter_list_to_map (tuEdges_ g)) as [Hmap Hnd].
  rewrite compact_tus_vec, Hmap by done. unfold vec_at at 1. by rewrite lookup_empty.
Qed.

Lemma compact_tus_ok g st :
  cg_ok g -> compact_inv (edges_ g) st ->
  tu_ok (interner_ g) (cp_edges st)
    (foldl (compact_tu (cp_remap st)) ∅ (map_iter (tuEdges_ g))).
Proof.
  intros Hok [C1 _ _ _ _ C6]. set (tus := foldl _ _ _).
  assert (Htus : forall tu, vec_at tus tu = omap (fun old => cp_remap st !! old) (vec_at (tuEdges_ g) tu))
    by apply compact_tus_at.
  split.
  - intros j. destruct (cp_edges st !! j) as [se|] eqn:Ej.
    + rewrite C1 in Ej. destruct (new_pos_surj _ _ _ Ej) as (i & Hi & Hl & Hp).
      rewrite (regs_ext _ (fmap (M := gmap SId) (omap (M := list) (fun old => cp_remap st !! old)) (tuEdges_ g))).
      * rewrite (regs_fmap _ _ i).
        -- pose proof (tu_counted _ _ _ (ok_tu _ Hok) i). unfold refs_at in *. rewrite C1, Ej.
           by rewrite Hi in *.
        -- intros x. rewrite C6. split.
           ++ intros [(y & Hy & Hly) E]. eapply new_pos_inj; try done. by rewrite Hp.
           ++ intros ->. eauto.
      * intros tu. rewrite Htus. unfold vec_at. rewrite lookup_fmap. by destruct (tuEdges_ g !! tu).
    + destruct (decide (0 < regs tus j)) as [Hp|]; [exfalso|lia].
      apply regs_pos in Hp as [tu Hin]. rewrite Htus in Hin.
      apply list_elem_of_omap in Hin as (o & _ & [(se & Ho & Hl) ->]%C6).
      pose proof (new_pos_lookup _ _ _ Ho Hl). rewrite C1 in Ej. congruence.
  - intros tu [[? H']|H']%compact_tus_keys; [by rewrite lookup_empty in H'|].
    apply (tu_known _ _ _ (ok_tu _ Hok)). rewrite map_iter_perm in H'.
    apply list_elem_of_fmap in H' as ([k v] & -> & ?%elem_of_map_to_list). simpl. eauto.
Qed.

Lemma compact_tus_edges g st tu :
  cg_ok g -> compact_inv (edges_ g) st ->
  omap (fun i => cp_edges st !! i)
    (vec_at (foldl (compact_tu (cp_remap st)) ∅ (map_iter (tuEdges_ g))) tu) =
  omap (fun i => edges_ g !! i) (vec_at (tuEdges_ g) tu).
Proof.
  intros Hok [C1 _ _ _ _ C6]. rewrite compact_tus_at.
  assert (Hin : forall i, i ∈ vec_at (tuEdges_ g) tu -> exists se, edges_ g !! i = Some se /\ live se).
  { intros i. by apply registered_live. }
  induction (vec_at (tuEdges_ g) tu) as [|i l IH]; [done|].
  destruct (Hin i) as (se & Hi & Hl); [left|].
  assert (Hj : cp_remap st !! i = Some (new_pos live (edges_ g) i)) by (apply C6; eauto).
  rewrite !(omap_cons_eq _ i), Hj, Hi, omap_cons_eq, C1, (new_pos_lookup _ _ _ Hi Hl), <- C1, IH;
    [done|]. intros. apply Hin. by right.
Qed.

Lemma compact_compacted g : cg_ok g -> readOnly_ g = false -> compacted g (compact g).
Proof.
  intros Hok Hro. unfold compact. rewrite Hro. cbv zeta.
  pose proof (compact_pass g Hok) as Hinv.
  set (st := foldl compact_edge _ _) in *. clearbody st.
  pose proof (compact_tus_ok g st Hok Hinv) as Htu.
  pose proof Hinv as [C1 C2 C3 C4 C5 C6].
  pose proof Hok as [O1 O2 O3 [E1 E2 E3 E4 E5 E6] O5 O6].
  assert (Hlook : forall i se, cp_edges st !! i = Some se -> exists o, edges_ g !! o = Some se).
  { intros i se. rewrite C1. intros (o & Ho & _)%new_pos_surj. eauto. }
  assert (Hall : filter live (cp_edges st) = cp_edges st).
  { apply filter_id. intros x. rewrite C1. by intros [? _]%list_elem_of_filter. }
  split; simpl; [|done| |by intros tu; apply compact_tus_edges| |done].
  - split; simpl; try done. split; try done.
    + intros i se [o Ho]%Hlook. by apply (E1 o).
    + intros i se [o Ho]%Hlook. by apply (E2 o).
    + by rewrite E6, Hall, C1.
  - unfold edgeCount. simpl. by rewrite E6, C1.
  - split; simpl; [| |done]; intros c.
    + rewrite !(adjacency_edges _ s_caller) by done. by rewrite C1, edges_at_live.
    + rewrite !(adjacency_edges _ s_callee) by done. by rewrite C1, edges_at_live.
Qed.
End Compact.

(** Compaction drops the tombstones and nothing else: the edge table becomes the
    live edges in their old order, the live count is its length, every unit keeps
    the same registrations, and every query (callees, callers, in-degree) answers
    as before, with the same edges in the same order. *)
Theorem compact_preserves_queries `{!UnorderedIter} (g : CallGraph) :
  cg_ok g -> readOnly_ g = false ->
  compacted g (compact g) /\
  forall c, calleeRefsOf (compact g) c = calleeRefsOf g c /\
            callerRefsOf (compact g) c = callerRefsOf g c /\
            storedInDegree (compact g) c = storedInDegree g c.
Proof.
  intros Hok Hro. pose proof (compact_compacted g Hok Hro) as Hcd. split; [done|]. intros c.
  split_and!; [apply same_view_callees|apply same_view_callers|apply same_view_degree]; apply Hcd.
Qed.

(** A tombstone in the middle of the table. *)
Definition holed : CallGraph := (@removeTUs canonical_iter [str "a.cpp"] (
  build [AddEdge (direct (str "f") (str "h") (str "a.cpp:2:1")) (str "a.cpp");
         AddEdge (direct (str "f") (str "h") (str "b.cpp:2:1")) (str "b.cpp")] empty_graph)).1.

Lemma holed_ok : cg_ok holed.
Proof.
  refine (rm_ok _ _ _ _ (@removeTUs_removed canonical_iter _ _ _ _)).
  - apply build_ok. vm_compute. discriminate.
  - vm_compute. reflexivity.
Qed.

Lemma compact_preserves_queries_witness :
  length (edges_ holed) = 2 /\ length (edges_ (@compact canonical_iter holed)) = 1 /\
  calleeRefsOf (@compact canonical_iter holed) 0 = calleeRefsOf holed 0.
Proof.
  split; [vm_compute; reflexivity|]. split; [vm_compute; reflexivity|].
  refine (proj1 (proj2 (@compact_preserves_queries canonical_iter holed holed_ok _) 0%N)).
  vm_compute. reflexivity.
Defined.
