(* ===== verification/CallGraphMerge.v ===== *)
(** Merging a worker's shard: [CallGraph::absorb].

    The shard's ids are renamed into the receiving graph's table; [renames] is
    what the string pass establishes and what every later pass relies on. Each
    pass is shown to re-establish its own part of the invariant and to add
    exactly the shard's facts; the last section reads the result as text. *)

From S2P Require Import Prelude Registrations Utf8 StringInterner CallGraph CallGraphInv CallGraphRemove CallGraphCompact.

(** * Renaming ids *)

Definition renames (s t : StringInterner) (rho : SId -> SId) : Prop :=
  forall id u, resolve_opt s id = Some u -> resolve_opt t (rho id) = Some u.

Lemma renames_inj s t rho a b :
  interner_ok s -> renames s t rho -> known s a -> known s b -> rho a = rho b -> a = b.
Proof.
  intros Hs Hr [u Hu] [v Hv] E. apply Hr in Hu as Hu', Hv as Hv'. rewrite E in Hu'.
  eapply resolve_opt_inj; [done|done|]. congruence.
Qed.

Lemma renames_known s t rho id : renames s t rho -> known s id -> known t (rho id).
Proof. intros Hr [u Hu]. exists u. by apply Hr. Qed.

Lemma renames_extends s t t' rho : extends t t' -> renames s t rho -> renames s t' rho.
Proof. intros He Hr id u Hu. eapply extends_resolve; [done|]. by apply Hr. Qed.

#[export] Hint Resolve renames_known : callgraph.

(** An interned string costs nothing to intern again. *)
Lemma intern_interned t s id : find t s = Some id -> intern t s = (t, id).
Proof. intros H. unfold intern. by rewrite H. Qed.

(** The strings of a shard, interned one after the other. *)
Lemma absorb_strings_fold t l t' remap :
  interner_ok t -> (N.of_nat (length (strings_ t) + length l) <= two32)%N ->
  foldl (fun '(t, remap) s => let '(t', id) := intern t s in (t', remap ++ [id])) (t, []) l = (t', remap) ->
  (interner_ok t' /\ extends t t' /\
   forall i u, l !! i = Some u -> resolve_opt t' (default 0%N (remap !! i)) = Some u) /\
  length remap = length l /\ table_size t' <= table_size t + length l.
Proof.
  intros Ht. revert t' remap.
  induction l as [|u l IH] using rev_ind; intros t' remap Hl E.
  { simplify_eq/=. split_and!; [done|done|done|done|lia]. }
  rewrite length_app in *. simpl in *. rewrite foldl_app in E. simpl in E.
  destruct (foldl _ (t, []) l) as [t1 remap1].
  destruct (IH t1 remap1 ltac:(lia) eq_refl) as ((H1 & H2 & H3) & H4 & H5). clear IH.
  destruct (intern t1 u) as [t2 id] eqn:Ei. simplify_eq.
  destruct (intern_spec _ _ _ _ Ei) as (J1 & J2 & J3 & J4);
    [done|unfold room, table_size in *; lia|].
  split_and!; [done|by etrans| |by rewrite length_app, H4|lia].
  intros i x [Hx|[Hge Hx]]%lookup_app_Some.
  - rewrite lookup_app_l by (apply lookup_lt_Some in Hx; lia).
    eapply extends_resolve; [done|]. by apply H3.
  - apply list_lookup_singleton_Some in Hx as [? ->].
    by rewrite lookup_app_r, H4 by lia; replace (i - length l) with 0 by lia.
Qed.

Lemma absorb_strings_spec s t t' remap :
  absorb_strings s t = (t', remap) ->
  interner_ok s -> interner_ok t -> room (table_size s) t ->
  interner_ok t' /\ extends t t' /\ renames s t' (remap_at remap).
Proof.
  intros E Hs Ht Hroom. destruct (absorb_strings_fold t (strings_ s) t' remap Ht Hroom E) as ((H1 & H2 & H3) & _).
  split_and!; [done|done|]. intros id u Hu. by apply H3.
Qed.

Lemma absorb_strings_size s t t' remap :
  absorb_strings s t = (t', remap) -> interner_ok t -> room (table_size s) t ->
  (table_size t' <= table_size t + table_size s)%nat.
Proof. intros E Ht Hroom. by destruct (absorb_strings_fold t (strings_ s) t' remap Ht Hroom E) as (_ & _ & ?). Qed.

(** A step that leaves a projection alone leaves it alone in a loop. *)
Lemma foldl_frame {A B C} (p : A -> C) (f : A -> B -> A) l a :
  (forall a b, p (f a b) = p a) -> p (foldl f a l) = p a.
Proof. intros H. revert a. induction l as [|x l IH]; intros a; simpl; [done|]. by rewrite IH, H. Qed.

(** The groups of fields the passes own. *)
Definition edges_part (g : CallGraph) :=
  (edges_ g, edgeIndex_ g, outEdges_ g, inEdges_ g, liveEdgeCount_ g).
Definition nodes_part (g : CallGraph) :=
  (nodes_ g, byName_ g, nodeContributors_ g, tuNodes_ g).
Definition rels_part (g : CallGraph) :=
  (derivedClasses_ g, methodOverrides_ g, overrideBases_ g, effectiveImplClasses_ g,
   functionReturns_ g, returnedBy_ g).

(** * Reading a graph as text *)

(** A call as the indexer reports it. *)
Record Call := MkCall {
  c_caller : bytes;
  c_callee : bytes;
  c_callSite : bytes;
  c_kind : EdgeKind;
  c_confidence : Confidence;
  c_execContext : ExecutionContext;
  c_indirectionDepth : N
}.

Definition call_key (t : StringInterner) (c : Call) : option EdgeKey :=
  a ← find t (c_caller c); b ← find t (c_callee c); p ← find t (c_callSite c);
  Some (MkKey a b p (kind_code (c_kind c)) (confidence_code (c_confidence c))
          (exec_code (c_execContext c)) (c_indirectionDepth c)).

(** The live edge of a call, its registrations in all and by one unit. *)
Definition position (g : CallGraph) (c : Call) : option nat :=
  call_key (interner_ g) c ≫= fun k => edgeIndex_ g !! k.

Definition registrations (g : CallGraph) (c : Call) : nat :=
  match position g c with Some i => refs_at (edges_ g) i | None => 0 end.

Definition unit_registrations (g : CallGraph) (tu : bytes) (c : Call) : nat :=
  match find (interner_ g) tu, position g c with
  | Some u, Some i => occ i (vec_at (tuEdges_ g) u)
  | _, _ => 0
  end.

Definition node_of (g : CallGraph) (u : bytes) : option CallGraphNode :=
  find (interner_ g) u ≫= fun id => nodes_ g !! id.

(** [a] and [b] name ids that are related. *)
Definition linked (t : StringInterner) (rel : SId -> SId -> Prop) (a b : bytes) : Prop :=
  exists x y, find t a = Some x /\ find t b = Some y /\ rel x y.

Lemma call_key_Some t c k :
  call_key t c = Some k <->
  find t (c_caller c) = Some (k_caller k) /\ find t (c_callee c) = Some (k_callee k) /\
  find t (c_callSite c) = Some (k_callSite k) /\ k_kind k = kind_code (c_kind c) /\
  k_confidence k = confidence_code (c_confidence c) /\
  k_execContext k = exec_code (c_execContext c) /\ k_indirectionDepth k = c_indirectionDepth c.
Proof.
  unfold call_key. destruct k as [k1 k2 k3 k4 k5 k6 k7]; simpl.
  destruct (find t (c_caller c)), (find t (c_callee c)), (find t (c_callSite c)); simpl;
    (split; [by intros [=]; subst|intros (? & ? & ? & ? & ? & ? & ?); congruence]).
Qed.

(** A dedup hit or an append keeps the content of every position. *)
Lemma store_edge_content se g g' idx i x :
  store_edge se g = (g', idx) -> edges_ g !! i = Some x ->
  exists x', edges_ g' !! i = Some x' /\ ref_of x' = ref_of x.
Proof.
  unfold store_edge. intros E Hi. destruct (edgeIndex_ g !! keyOf se) as [k|]; simplify_eq; simpl.
  - destruct (decide (idx = i)) as [<-|].
    + rewrite list_lookup_alter_eq, Hi. simpl. eauto.
    + rewrite list_lookup_alter_ne by done. eauto.
  - exists x. split; [|done]. by apply lookup_app_l_Some.
Qed.

Section Passes.
Context (s : CallGraph) (Hs : cg_ok s).
Context (t : StringInterner) (Ht : interner_ok t) (remap : list SId).
Context (Hren : renames (interner_ s) t (remap_at remap)).

Abbreviation rho := (remap_at remap).

(** * Nodes *)

(** The node stored when the shard's node meets the one already there. *)
Definition merge_node (old : option CallGraphNode) (node : CallGraphNode) : CallGraphNode :=
  match old with None => node | Some old => backfill old node end.

Definition contribute_all (nameId : SId) (tus : list SId) (g : CallGraph) : CallGraph :=
  foldl (fun g shardTu => contribute nameId (rho shardTu) g) g tus.

Lemma contribute_all_spec nameId tus g :
  nodes_part_ok g (tuNodes_ g) -> interner_ g = t -> is_Some (nodes_ g !! nameId) ->
  (forall x, x ∈ tus -> known (interner_ s) x) ->
  let g' := contribute_all nameId tus g in
  nodes_part_ok g' (tuNodes_ g') /\ nodes_ g' = nodes_ g /\
  forall n tu, tu ∈ set_at (nodeContributors_ g') n <->
    tu ∈ set_at (nodeContributors_ g) n \/ (n = nameId /\ exists x, x ∈ tus /\ tu = rho x).
Proof.
  unfold contribute_all. intros Hok Hi Hn Hk. cbv zeta.
  induction tus as [|x tus IH] using rev_ind.
  { split_and!; [done|done|]. intros n tu. simpl. split; [by left|].
    intros [?|(_ & x & ?%not_elem_of_nil & _)]; done. }
  destruct IH as (J1 & J2 & J3); [intros y Hy; apply Hk, elem_of_app; by left|].
  rewrite foldl_app. simpl. set (g1 := foldl _ g tus) in *.
  assert (Ei : interner_ g1 = t).
  { unfold g1. rewrite (foldl_frame interner_); [done|]. intros. apply interner_contribute. }
  assert (En : forall h, nodes_ (contribute nameId (rho x) h) = nodes_ h).
  { intros h. unfold contribute. by case_decide. }
  assert (Eb : byName_ (contribute nameId (rho x) g1) = byName_ g1).
  { unfold contribute. by case_decide. }
  assert (Ec : nodeContributors_ (contribute nameId (rho x) g1) =
               set_insert nameId (rho x) (nodeContributors_ g1)).
  { unfold contribute. by case_decide. }
  split_and!; [|by rewrite En|].
  - unfold nodes_part_ok. rewrite interner_contribute, En, Eb. split; [apply J1|].
    apply contribute_ok; [by rewrite J2| |apply J1].
    rewrite Ei. eapply renames_known; [done|]. apply Hk, elem_of_app. right. left.
  - intros n tu. rewrite Ec, elem_of_set_insert, J3.
    setoid_rewrite elem_of_app. setoid_rewrite list_elem_of_singleton. naive_solver.
Qed.

Lemma shard_contributor_known n tu :
  tu ∈ set_at (nodeContributors_ s) n -> known (interner_ s) tu.
Proof.
  intros Hin. apply (contrib_known _ _ _ _ (ok_contrib _ Hs)).
  apply (contrib_inverse _ _ _ _ (ok_contrib _ Hs)) in Hin. by eapply vec_at_elem_Some.
Qed.

Lemma shard_node_known n node : nodes_ s !! n = Some node -> known (interner_ s) n.
Proof. intros H. eapply resolve_known. by apply (nodes_usr _ _ _ (ok_nodes _ Hs)). Qed.

Lemma absorb_node_spec g sid node :
  nodes_part_ok g (tuNodes_ g) -> interner_ g = t -> nodes_ s !! sid = Some node ->
  let g' := absorb_node s remap g (sid, node) in
  nodes_part_ok g' (tuNodes_ g') /\ interner_ g' = t /\
  (forall id, nodes_ g' !! id =
     if decide (id = rho sid) then Some (merge_node (nodes_ g !! id) node) else nodes_ g !! id) /\
  (forall n tu, tu ∈ set_at (nodeContributors_ g') n <->
     tu ∈ set_at (nodeContributors_ g) n \/
     (n = rho sid /\ exists x, x ∈ set_at (nodeContributors_ s) sid /\ tu = rho x)).
Proof.
  intros Hok Hi Hnode. cbv zeta. unfold absorb_node.
  pose proof (nodes_usr _ _ _ (ok_nodes _ Hs) _ _ Hnode) as Husr. apply Hren in Husr.
  destruct (nodes_named _ _ _ (ok_nodes _ Hs) _ _ Hnode) as (d & Hd & _). apply Hren in Hd.
  assert (Hf : intern (interner_ g) (qualifiedName node) = (t, rho d)).
  { rewrite Hi. apply intern_interned. by apply resolve_find. }
  rewrite Hf. set (g1 := match nodes_ g !! rho sid with None => _ | Some _ => _ end).
  assert (Hg1 : exists d', g1 = store_node (rho sid) d' node (set_interner t g) /\
                 (nodes_ g !! rho sid = None -> d' = rho d)).
  { unfold g1. rewrite <- Hi. destruct (nodes_ g !! rho sid) eqn:E.
    - exists 0%N. split; [|done]. by destruct g.
    - by exists (rho d). }
  destruct Hg1 as (d' & -> & Hd').
  set (g2 := store_node (rho sid) d' node (set_interner t g)).
  assert (H2 : interner_ g2 = t) by apply interner_store_node.
  assert (Hn2 : forall id, nodes_ g2 !! id =
     if decide (id = rho sid) then Some (merge_node (nodes_ g !! id) node) else nodes_ g !! id).
  { intros id. unfold g2, store_node. simpl. destruct (nodes_ g !! rho sid) as [old|] eqn:E; simpl;
      rewrite lookup_insert; destruct (decide (id = rho sid)) as [->|].
    all: rewrite ?E, ?decide_True, ?decide_False by congruence; done. }
  assert (Hc2 : nodeContributors_ g2 = nodeContributors_ g /\ tuNodes_ g2 = tuNodes_ g).
  { unfold g2, store_node. simpl. by destruct (nodes_ g !! rho sid). }
  destruct Hc2 as [Hc2 Ht2].
  assert (Hok2 : nodes_part_ok g2 (tuNodes_ g2)).
  { destruct Hok as [O1 O2]. rewrite Hi in O1, O2. split.
    - unfold g2. apply store_node_nodes_ok; simpl; [done|done|done|].
      intros E. by rewrite (Hd' E).
    - rewrite Hc2, Ht2, H2. eapply contrib_ok_nodes; [|exact O2].
      intros id Hid. rewrite Hn2. by case_decide. }
  set (tus := match nodeContributors_ s !! sid with None => [] | Some x => set_order x end).
  assert (Htus : forall x, x ∈ tus <-> x ∈ set_at (nodeContributors_ s) sid).
  { intros x. unfold tus, set_at. destruct (nodeContributors_ s !! sid); simpl.
    - apply elem_of_set_order.
    - split; [by intros ?%not_elem_of_nil|set_solver]. }
  replace (match nodeContributors_ s !! sid with None => g2 | Some _ => _ end)
    with (contribute_all (rho sid) tus g2); [|unfold tus; by destruct (nodeContributors_ s !! sid)].
  destruct (contribute_all_spec (rho sid) tus g2) as (J1 & J2 & J3); [done|done| | |].
  - rewrite Hn2, decide_True by done. eauto.
  - intros x Hx%Htus. by eapply shard_contributor_known.
  - split_and!; [done| | |].
    + unfold contribute_all. rewrite (foldl_frame interner_); [done|]. intros. apply interner_contribute.
    + by rewrite J2.
    + intros n tu. rewrite J3, Hc2. by setoid_rewrite Htus.
Qed.

Lemma absorb_nodes_spec g entries :
  nodes_part_ok g (tuNodes_ g) -> interner_ g = t -> NoDup entries.*1 ->
  (forall e, e ∈ entries -> nodes_ s !! e.1 = Some e.2) ->
  let g' := foldl (absorb_node s remap) g entries in
  nodes_part_ok g' (tuNodes_ g') /\ interner_ g' = t /\
  (forall e, e ∈ entries -> nodes_ g' !! rho e.1 = Some (merge_node (nodes_ g !! rho e.1) e.2)) /\
  (forall id, (forall e, e ∈ entries -> id <> rho e.1) -> nodes_ g' !! id = nodes_ g !! id) /\
  (forall n tu, tu ∈ set_at (nodeContributors_ g') n <->
     tu ∈ set_at (nodeContributors_ g) n \/
     exists e x, e ∈ entries /\ n = rho e.1 /\ x ∈ set_at (nodeContributors_ s) e.1 /\ tu = rho x).
Proof.
  intros Hok Hi. induction entries as [|[sid node] l IH] using rev_ind; intros Hnd Hin.
  { split_and!; [done|done| |done|]; simpl.
    - by intros e ?%not_elem_of_nil.
    - intros n tu. split; [by left|]. intros [?|(e & x & ?%not_elem_of_nil & _)]; done. }
  rewrite fmap_app in Hnd. apply NoDup_app in Hnd as (Hnd & Hdis & _). simpl in Hdis.
  destruct IH as (J1 & J2 & J3 & J4 & J5); [done|intros e He; apply Hin, elem_of_app; by left|].
  assert (Hnode : nodes_ s !! sid = Some node) by (apply (Hin (sid, node)), elem_of_app; right; left).
  cbv zeta. rewrite foldl_app. cbn [foldl]. set (g1 := foldl _ g l) in *.
  destruct (absorb_node_spec g1 sid node J1 J2 Hnode) as (K1 & K2 & K3 & K4).
  assert (Hne : forall e, e ∈ l -> rho e.1 <> rho sid).
  { intros e He E. apply (Hdis e.1); [by apply list_elem_of_fmap; eauto|].
    apply list_elem_of_singleton. eapply renames_inj; [apply Hs|done| | |done].
    - eapply shard_node_known, Hin, elem_of_app. by left.
    - by eapply shard_node_known. }
  split_and!; [done|done| | |].
  - intros e [He|He]%elem_of_app; rewrite K3.
    + rewrite decide_False by by apply Hne. by apply J3.
    + apply list_elem_of_singleton in He as ->. simpl. rewrite decide_True by done.
      rewrite J4; [done|]. intros e He E. by apply (Hne e).
  - intros id Hid. rewrite K3, decide_False.
    + apply J4. intros e He. apply Hid, elem_of_app. by left.
    + apply (Hid (sid, node)), elem_of_app. right. left.
  - intros n tu. rewrite K4, J5. setoid_rewrite elem_of_app. setoid_rewrite list_elem_of_singleton.
    split.
    + intros [[?|(e & x & ? & ?)]|(-> & x & ? & ->)]; [by left|right; by exists e, x; auto|].
      right. exists (sid, node), x. auto.
    + intros [?|(e & x & [?| ->] & E & ?)]; [by left; left|left; right; by exists e, x|].
      right. destruct_and!. split; [done|]. by exists x.
Qed.

(** * Edges *)

(** The edge of the shard, renamed. *)
Definition rename_edge (src : StoredEdge) : StoredEdge :=
  MkStored (rho (s_caller src)) (rho (s_callee src)) (rho (s_callSite src)) (s_kind src)
    (s_confidence src) (s_execContext src) (s_indirectionDepth src) (s_refs src).

Definition total_refs (edges : list StoredEdge) : N := foldr (fun se n => (s_refs se + n)%N) 0%N edges.

Lemma total_refs_app a b : total_refs (a ++ b) = (total_refs a + total_refs b)%N.
Proof. unfold total_refs. induction a as [|x a IH]; simpl; [done|]. rewrite IH. lia. Qed.

(** What the edge pass has done after the shard edges [seen]. *)
Record absorbed_edges (g g' : CallGraph) (seen : list StoredEdge) (er : list (option nat))
  : Prop := {
  ae_edges : edges_ok t (edges_ g') (edgeIndex_ g') (outEdges_ g') (inEdges_ g') (liveEdgeCount_ g');
  ae_frame : interner_ g' = interner_ g /\ nodes_part g' = nodes_part g /\
             rels_part g' = rels_part g /\ tuEdges_ g' = tuEdges_ g /\ readOnly_ g' = readOnly_ g;
  ae_length : length er = length seen;
  ae_dead : forall j src, seen !! j = Some src -> ~ live src -> er !! j = Some None;
  ae_live : forall j src, seen !! j = Some src -> live src ->
    exists i, er !! j = Some (Some i) /\ edgeIndex_ g' !! keyOf (rename_edge src) = Some i;
  ae_refs : forall j src i, seen !! j = Some src -> er !! j = Some (Some i) ->
    refs_at (edges_ g') i = refs_at (edges_ g) i + N.to_nat (s_refs src);
  ae_others : forall i, Some i ∉ er -> refs_at (edges_ g') i = refs_at (edges_ g) i;
  ae_content : forall i se, edges_ g !! i = Some se ->
    exists se', edges_ g' !! i = Some se' /\ ref_of se' = ref_of se;
  ae_inj : forall j k i, er !! j = Some (Some i) -> er !! k = Some (Some i) -> j = k;
  ae_mono : forall k i, edgeIndex_ g !! k = Some i -> edgeIndex_ g' !! k = Some i;
  ae_new : forall k i, edgeIndex_ g' !! k = Some i -> edgeIndex_ g !! k = Some i \/
    exists src, src ∈ seen /\ live src /\ k = keyOf (rename_edge src);
  ae_bound : forall i, (N.of_nat (refs_at (edges_ g') i) <= N.of_nat (refs_at (edges_ g) i) + total_refs seen)%N
}.

Lemma rename_edge_key a b :
  known (interner_ s) (s_caller a) -> known (interner_ s) (s_callee a) ->
  known (interner_ s) (s_callSite a) -> known (interner_ s) (s_caller b) ->
  known (interner_ s) (s_callee b) -> known (interner_ s) (s_callSite b) ->
  keyOf (rename_edge a) = keyOf (rename_edge b) -> keyOf a = keyOf b.
Proof.
  intros. assert (Hinj : forall x y, known (interner_ s) x -> known (interner_ s) y -> rho x = rho y -> x = y).
  { intros x y. apply (renames_inj (interner_ s) t rho); [apply Hs|done]. }
  unfold keyOf in *. simpl in *.
  match goal with E : MkKey _ _ _ _ _ _ _ = _ |- _ => injection E as E1 E2 E3 E4 E5 E6 E7 end.
  f_equal; first [done | by apply Hinj].
Qed.

Context (g0 : CallGraph).
Context (Hfit : forall i, (N.of_nat (refs_at (edges_ g0) i) + total_refs (edges_ s) < two32)%N).

(** Lookup in a remap one entry longer. *)
Lemma lookup_snoc {A} (l : list A) x j :
  (l ++ [x]) !! j = if decide (j < length l) then l !! j else if decide (j = length l) then Some x else None.
Proof.
  repeat case_decide.
  - by rewrite lookup_app_l.
  - subst j. by rewrite lookup_app_r, Nat.sub_diag by lia.
  - apply lookup_ge_None_2. rewrite length_app. simpl. lia.
Qed.

Lemma lookup_snoc_Some {A} (l : list A) x j y :
  (l ++ [x]) !! j = Some y -> (l !! j = Some y /\ j < length l) \/ (j = length l /\ y = x).
Proof. rewrite lookup_snoc. repeat case_decide; naive_solver. Qed.

Lemma absorb_dead_edge g' seen src er :
  ~ live src -> absorbed_edges g0 g' seen er ->
  absorbed_edges g0 g' (seen ++ [src]) (er ++ [None]).
Proof.
  intros Hdead [A1 A2 A3 A4 A5 A6 A7 A8 A10 A11 A12 A9]. split; try done.
  - by rewrite !length_app, A3.
  - intros j x [[Hj Hlt]|[-> ->]]%lookup_snoc_Some Hd; rewrite lookup_snoc, A3.
    + rewrite decide_True by done. by eapply A4.
    + by rewrite decide_False, decide_True by lia.
  - intros j x [[Hj Hlt]|[-> ->]]%lookup_snoc_Some Hl; [|done].
    rewrite lookup_snoc, A3, decide_True by done. by apply A5.
  - intros j x i [[Hj Hlt]|[-> ->]]%lookup_snoc_Some; rewrite lookup_snoc, A3.
    + rewrite decide_True by done. by apply A6.
    + by rewrite decide_False, decide_True by lia.
  - intros i Hn. apply A7. set_solver.
  - intros j k i [[? ?]|[_ ?]]%lookup_snoc_Some [[? ?]|[_ ?]]%lookup_snoc_Some; try done. by eapply A10.
  - intros k i [?|(x & ? & ?)]%A12; [by left|right]. exists x. split; [|done]. apply elem_of_app. by left.
  - intros i. rewrite total_refs_app. specialize (A9 i). lia.
Qed.

(** Two shard edges never meet at one position. *)
Lemma absorb_fresh g' seen src rest er g1 idx :
  edges_ s = seen ++ src :: rest -> live src -> absorbed_edges g0 g' seen er ->
  edges_ok t (edges_ g1) (edgeIndex_ g1) (outEdges_ g1) (inEdges_ g1) (liveEdgeCount_ g1) ->
  edgeIndex_ g1 !! keyOf (rename_edge src) = Some idx ->
  (forall k i, edgeIndex_ g' !! k = Some i -> edgeIndex_ g1 !! k = Some i) ->
  Some idx ∉ er.
Proof.
  intros Es Hlive [A1 A2 A3 A4 A5 A6 A7 A8 A10 A11 A12 A9] B1 B2 B4 [j Hj]%list_elem_of_lookup.
  assert (Hsrc : edges_ s !! length seen = Some src).
  { by rewrite Es, lookup_app_r, Nat.sub_diag by lia. }
  destruct (seen !! j) as [x|] eqn:Ex; [|apply lookup_ge_None in Ex; apply lookup_lt_Some in Hj; lia].
  destruct (decide (live x)) as [Hl|Hd]; [|by rewrite (A4 _ _ Ex Hd) in Hj].
  destruct (A5 _ _ Ex Hl) as (i & Hi & Hix). rewrite Hj in Hi. simplify_eq.
  apply B4 in Hix. apply (edges_index _ _ _ _ _ _ B1) in Hix as (y & Hy & _ & Ky).
  apply (edges_index _ _ _ _ _ _ B1) in B2 as (z & Hz & _ & Kz). rewrite Hy in Hz. injection Hz as <-.
  assert (Hxs : edges_ s !! j = Some x) by (rewrite Es; by apply lookup_app_l_Some).
  destruct (edges_known _ _ _ _ _ _ (ok_edges _ Hs) _ _ Hxs) as (? & ? & ?).
  destruct (edges_known _ _ _ _ _ _ (ok_edges _ Hs) _ _ Hsrc) as (? & ? & ?).
  assert (Ekey : keyOf x = keyOf src) by (apply rename_edge_key; [done..|congruence]).
  assert (j = length seen) by (eapply edges_key_unique; [apply Hs|done..]).
  apply lookup_lt_Some in Ex. lia.
Qed.

Lemma rename_storable g' seen src rest er :
  edges_ s = seen ++ src :: rest -> live src -> absorbed_edges g0 g' seen er ->
  storable t (edges_ g') (rename_edge src).
Proof.
  intros Es Hlive Hae. pose proof (ae_bound _ _ _ _ Hae) as A9.
  assert (Hsrc : edges_ s !! length seen = Some src).
  { by rewrite Es, lookup_app_r, Nat.sub_diag by lia. }
  destruct (edges_known _ _ _ _ _ _ (ok_edges _ Hs) _ _ Hsrc) as (Hk1 & Hk2 & Hk3).
  assert (Etot : total_refs (edges_ s) = (total_refs seen + (s_refs src + total_refs rest))%N).
  { rewrite Es, total_refs_app. done. }
  split_and!; simpl; try (by eapply renames_known); [done| |].
  - specialize (Hfit 0). lia.
  - intros i old Ho _. specialize (A9 i). specialize (Hfit i). unfold refs_at at 1 in A9.
    rewrite Ho in A9. lia.
Qed.

Lemma absorb_live_edge g' seen src rest er g1 idx :
  edges_ s = seen ++ src :: rest -> interner_ g0 = t -> live src ->
  absorbed_edges g0 g' seen er -> store_edge (rename_edge src) g' = (g1, idx) ->
  absorbed_edges g0 g1 (seen ++ [src]) (er ++ [Some idx]).
Proof.
  intros Es Hi0 Hlive Hae Est. pose proof (rename_storable _ _ _ _ _ Es Hlive Hae) as Hstor.
  pose proof Hae as [A1 A2 A3 A4 A5 A6 A7 A8 A10 A11 A12 A9].
  assert (Hi' : interner_ g' = t) by (destruct A2 as [-> _]; done).
  rewrite <- Hi' in A1, Hstor.
  pose proof (store_edge_edges_ok _ _ _ _ Est Hstor A1) as B1.
  destruct (store_edge_refs _ _ _ _ Est Hstor A1) as (B2 & B3 & B4 & B5). rewrite Hi' in B1.
  pose proof (absorb_fresh _ _ _ _ _ _ _ Es Hlive Hae B1 B2 B4) as Hfresh.
  pose proof (store_edge_frame _ _ _ _ Est)
    as (F1 & F2 & F3 & F4 & F5 & F6 & F7 & F8 & F9 & F10 & F11 & F12 & F13).
  split; [done| | | | | | | | | | |].
  - unfold nodes_part, rels_part in *.
    rewrite F1, F2, F3, F4, F5, F6, F7, F8, F9, F10, F11, F12, F13. done.
  - by rewrite !length_app, A3.
  - intros j x [[Hj Hlt]|[-> ->]]%lookup_snoc_Some Hd; [|done].
    rewrite lookup_snoc, A3, decide_True by done. by eapply A4.
  - intros j x [[Hj Hlt]|[-> ->]]%lookup_snoc_Some Hl; rewrite lookup_snoc, A3.
    + rewrite decide_True by done. destruct (A5 _ _ Hj Hl) as (i & ? & ?). eauto.
    + rewrite decide_False, decide_True by lia. eauto.
  - intros j x i [[Hj Hlt]|[-> ->]]%lookup_snoc_Some; rewrite lookup_snoc, A3.
    + rewrite decide_True by done. intros Hi. rewrite B3, (A6 _ _ _ Hj Hi), decide_False; [lia|].
      intros ->. apply Hfresh. by eapply list_elem_of_lookup_2.
    + rewrite decide_False, decide_True by lia. intros [= <-].
      rewrite B3, decide_True, A7 by done. simpl. lia.
  - intros i Hn. rewrite B3, decide_False by set_solver. rewrite A7 by set_solver. lia.
  - intros i x Hx. destruct (A8 i x Hx) as (y & Hy & Ey).
    destruct (store_edge_content _ _ _ _ _ _ Est Hy) as (z & Hz' & Ez). exists z. split; congruence.
  - intros j k i [[Hj ?]|[-> ?]]%lookup_snoc_Some [[Hk ?]|[-> ?]]%lookup_snoc_Some; simplify_eq;
      [by eapply A10| | |done]; exfalso; apply Hfresh; by eapply list_elem_of_lookup_2.
  - intros k i Hk. by apply B4, A11.
  - intros k i [[?|(x & ? & ?)]%A12|[-> ->]]%B5; [by left|right; exists x; split; [|done]; apply elem_of_app; by left|].
    right. exists src. split; [|done]. apply elem_of_app. right. left.
  - intros i. rewrite total_refs_app, B3. simpl. specialize (A9 i). case_decide; lia.
Qed.

Lemma absorb_edges_spec g' er seen rest :
  edges_ s = seen ++ rest -> interner_ g0 = t -> absorbed_edges g0 g' seen er ->
  let st := foldl (absorb_edge remap) (g', er) rest in
  absorbed_edges g0 st.1 (edges_ s) st.2.
Proof.
  revert g' er seen. induction rest as [|src rest IH]; intros g' er seen Es Hi0 Hae.
  { rewrite Es, app_nil_r. done. }
  cbv zeta. simpl. destruct (N.eqb_spec (s_refs src) 0) as [Hz|Hnz].
  - apply (IH g' (er ++ [None]) (seen ++ [src])); [by rewrite <- app_assoc|done|].
    apply absorb_dead_edge; [|done]. unfold live. tauto.
  - fold (rename_edge src). destruct (store_edge (rename_edge src) g') as [g1 idx] eqn:Est.
    apply (IH g1 (er ++ [Some idx]) (seen ++ [src])); [by rewrite <- app_assoc|done|].
    by eapply absorb_live_edge.
Qed.

(** * Registrations *)

(** The master position of a shard position. *)
Definition edge_at (er : list (option nat)) (j : nat) : option nat := mjoin (er !! j).

Lemma edge_at_Some er j i : edge_at er j = Some i <-> er !! j = Some (Some i).
Proof. unfold edge_at. destruct (er !! j) as [[x|]|]; simpl; naive_solver. Qed.

Lemma absorb_tus_regs er entries g i :
  regs (tuEdges_ (foldl (absorb_tu remap er) g entries)) i =
  regs (tuEdges_ g) i + foldr (fun e n => occ i (remap_edges er e.2) + n) 0 entries.
Proof.
  revert g. induction entries as [|[k l] entries IH]; intros g; simpl; [lia|].
  rewrite IH. simpl. pose proof (regs_insert i (tuEdges_ g) (rho k)
    (vec_at (tuEdges_ g) (rho k) ++ remap_edges er l)) as H. rewrite occ_app in H. lia.
Qed.

Lemma absorb_tus_other er entries g tu :
  (forall e, e ∈ entries -> tu <> rho e.1) ->
  vec_at (tuEdges_ (foldl (absorb_tu remap er) g entries)) tu = vec_at (tuEdges_ g) tu.
Proof.
  revert g. induction entries as [|[k l] entries IH]; intros g He; simpl; [done|].
  rewrite IH by (intros; apply He; by right). simpl. rewrite vec_at_insert, decide_False; [done|].
  intros E. apply (He (k, l)); [left|done].
Qed.

Lemma absorb_tus_vec er entries g e :
  NoDup entries.*1 -> (forall e, e ∈ entries -> known (interner_ s) e.1) -> e ∈ entries ->
  vec_at (tuEdges_ (foldl (absorb_tu remap er) g entries)) (rho e.1) =
  vec_at (tuEdges_ g) (rho e.1) ++ remap_edges er e.2.
Proof.
  revert g. induction entries as [|[k l] entries IH]; intros g Hnd Hk He;
    [by apply not_elem_of_nil in He|].
  simpl in Hnd. apply NoDup_cons in Hnd as [Hnk Hnd].
  assert (Hne : forall x, x ∈ entries -> rho x.1 <> rho k).
  { intros x Hx E. apply Hnk. apply list_elem_of_fmap. exists x. split; [|done].
    symmetry. eapply renames_inj; [apply Hs|done| | |done]; [by apply Hk; right|].
    apply (Hk (k, l)). left. }
  simpl. apply elem_of_cons in He as [->|He].
  - rewrite absorb_tus_other; simpl; [by rewrite vec_at_insert, decide_True by done|].
    intros x Hx. symmetry. by apply Hne.
  - rewrite IH; [|done|intros; apply Hk; by right|done]. simpl.
    rewrite vec_at_insert, decide_False; [done|]. intros E. by apply (Hne e).
Qed.

Lemma absorb_tus_keys er entries g tu :
  is_Some (tuEdges_ (foldl (absorb_tu remap er) g entries) !! tu) ->
  is_Some (tuEdges_ g !! tu) \/ exists e, e ∈ entries /\ tu = rho e.1.
Proof.
  revert g. induction entries as [|[k l] entries IH]; intros g; simpl; [by left|].
  intros [H|(e & ? & ?)]%IH; [|right; exists e; split; [by right|done]].
  simpl in H. rewrite lookup_insert in H. case_decide; [|by left].
  right. exists (k, l). split; [left|done].
Qed.

Lemma foldr_sum_perm {A} (h : A -> nat) (l k : list A) :
  l ≡ₚ k -> foldr (fun e n => h e + n) 0 l = foldr (fun e n => h e + n) 0 k.
Proof. induction 1; simpl; lia. Qed.

(** All the shard's registrations on one master position. *)
Lemma regs_entries (f : nat -> option nat) (m : gmap SId (list nat)) entries i :
  entries ≡ₚ map_to_list m ->
  foldr (fun e n => occ i (omap f e.2) + n) 0 entries =
  regs (fmap (M := gmap SId) (omap (M := list) f) m) i.
Proof.
  intros Hp. rewrite (foldr_sum_perm _ _ _ Hp).
  clear Hp. induction m as [|k l m Hm Hk IH] using map_first_key_ind.
  - by rewrite map_to_list_empty, fmap_empty.
  - rewrite fmap_insert, regs_fold_insert by (by rewrite lookup_fmap, Hm). rewrite <- IH.
    by rewrite (foldr_sum_perm _ _ _ (map_to_list_insert m k l Hm)).
Qed.

Lemma absorbed_tu_ok g g' er entries :
  absorbed_edges g0 g (edges_ s) er -> interner_ g0 = t ->
  tu_ok t (edges_ g0) (tuEdges_ g0) -> entries ≡ₚ map_to_list (tuEdges_ s) ->
  g' = foldl (absorb_tu remap er) g entries -> tu_ok t (edges_ g) (tuEdges_ g').
Proof.
  intros Hae Hi0 [T1 T2] Hp ->. pose proof (ae_frame _ _ _ _ Hae) as (_ & _ & _ & Etu & _).
  split.
  - intros i. rewrite absorb_tus_regs, Etu.
    rewrite (regs_entries (edge_at er) (tuEdges_ s)) by done. specialize (T1 i).
    destruct (decide (Some i ∈ er)) as [[j Hj]%list_elem_of_lookup|Hn].
    + rewrite (regs_fmap _ _ j).
      * destruct (edges_ s !! j) as [src|] eqn:Ej;
          [|apply lookup_ge_None in Ej; apply lookup_lt_Some in Hj; rewrite (ae_length _ _ _ _ Hae) in Hj; lia].
        rewrite (ae_refs _ _ _ _ Hae _ _ _ Ej Hj).
        pose proof (tu_counted _ _ _ (ok_tu _ Hs) j) as Hc. unfold refs_at in Hc. rewrite Ej in Hc. lia.
      * intros x. rewrite edge_at_Some. split; [|by intros ->]. intros Hx. by eapply ae_inj.
    + rewrite (ae_others _ _ _ _ Hae) by done.
      destruct (decide (0 < regs (fmap (M := gmap SId) (omap (M := list) (edge_at er)) (tuEdges_ s)) i))
        as [Hpos|]; [exfalso|lia].
      apply regs_pos in Hpos as [tu Hin]. unfold vec_at in Hin. rewrite lookup_fmap in Hin.
      destruct (tuEdges_ s !! tu) as [l|]; simpl in Hin; [|by apply not_elem_of_nil in Hin].
      apply list_elem_of_omap in Hin as (x & _ & Hx%edge_at_Some). apply Hn. by eapply list_elem_of_lookup_2.
  - intros tu [Htu|(e & He & ->)]%absorb_tus_keys; [apply T2; by rewrite <- Etu|].
    eapply renames_known; [done|]. apply (tu_known _ _ _ (ok_tu _ Hs)).
    rewrite Hp in He. destruct e as [k l]. apply elem_of_map_to_list in He. simpl. eauto.
Qed.

Lemma occ_remap er j i l :
  (forall k, er !! k = Some (Some i) -> k = j) -> er !! j = Some (Some i) ->
  occ i (remap_edges er l) = occ j l.
Proof.
  intros Hinj Hj. unfold remap_edges. induction l as [|x l IH]; [done|].
  rewrite omap_cons_eq, (occ_cons j). fold (edge_at er x). destruct (edge_at er x) as [y|] eqn:E.
  - rewrite occ_cons, IH. f_equal. apply edge_at_Some in E.
    destruct (decide (y = i)) as [->|]; [by rewrite decide_True by by apply Hinj|].
    rewrite decide_False; [done|]. intros ->. congruence.
  - rewrite IH, decide_False; [done|]. intros ->. apply (edge_at_Some er j i) in Hj. congruence.
Qed.

Lemma occ_remap_none er i l : Some i ∉ er -> occ i (remap_edges er l) = 0.
Proof.
  intros Hn. destruct (decide (0 < occ i (remap_edges er l))) as [Hp|]; [exfalso|lia].
  apply occ_pos, list_elem_of_omap in Hp as (x & _ & Hx%edge_at_Some). apply Hn.
  by eapply list_elem_of_lookup_2.
Qed.

(** * Relations *)

(** A relation read off the graph, and a loop that adds renamed pairs to it. *)
Lemma foldl_row {A} (mem : A -> SId -> SId -> Prop) (f : A -> SId -> A) x l a b d :
  (forall a y, mem (f a y) b d <-> mem a b d \/ (b = x /\ d = rho y)) ->
  mem (foldl f a l) b d <-> mem a b d \/ (b = x /\ exists y, y ∈ l /\ d = rho y).
Proof.
  intros Hf. revert a. induction l as [|y l IH]; intros a; simpl.
  - split; [by left|]. intros [?|(_ & y & ?%not_elem_of_nil & _)]; done.
  - rewrite IH, Hf. setoid_rewrite elem_of_cons. naive_solver.
Qed.

Lemma foldl_pairs {A L} (elems : L -> list SId) (mem : A -> SId -> SId -> Prop)
    (f : A -> SId * L -> A) entries a b d :
  (forall a e, mem (f a e) b d <->
     mem a b d \/ (b = rho e.1 /\ exists x, x ∈ elems e.2 /\ d = rho x)) ->
  mem (foldl f a entries) b d <->
  mem a b d \/ exists e x, e ∈ entries /\ x ∈ elems e.2 /\ b = rho e.1 /\ d = rho x.
Proof.
  intros Hf. revert a. induction entries as [|e l IH]; intros a; simpl.
  - split; [by left|]. intros [?|(e & x & ?%not_elem_of_nil & _)]; done.
  - rewrite IH, Hf. setoid_rewrite elem_of_cons. split.
    + intros [[?|(-> & x & ? & ->)]|(e' & x & ? & ?)]; [by left|right|right].
      * exists e, x. auto.
      * exists e', x. destruct_and!. auto.
    + intros [?|(e' & x & [->|?] & ? & ? & ?)]; [by left; left|left; right; eauto|].
      right. exists e', x. auto.
Qed.

(** The pairs of one relation of the shard, renamed. *)
Definition renamed_pair {L} (elems : L -> list SId) (entries : list (SId * L)) (b d : SId) : Prop :=
  exists e x, e ∈ entries /\ x ∈ elems e.2 /\ b = rho e.1 /\ d = rho x.

Lemma absorb_derived_mem g entries b d :
  d ∈ vec_at (derivedClasses_ (foldl (absorb_derived remap) g entries)) b <->
  d ∈ vec_at (derivedClasses_ g) b \/ renamed_pair id entries b d.
Proof.
  apply (foldl_pairs id (fun g b d => d ∈ vec_at (derivedClasses_ g) b)). intros g' [k l].
  simpl. rewrite (foldl_row (fun g b d => d ∈ vec_at (derivedClasses_ g) b) _ (rho k)).
  - simpl. rewrite vec_at_insert. unfold id. destruct (decide (rho k = b)) as [<-|]; reflexivity.
  - intros a y. simpl. rewrite elem_of_push_unique. naive_solver.
Qed.

Lemma absorb_overrides_mem g entries b o :
  (o ∈ vec_at (methodOverrides_ (foldl (absorb_overrides remap) g entries)) b <->
   o ∈ vec_at (methodOverrides_ g) b \/ renamed_pair id entries b o) /\
  (b ∈ vec_at (overrideBases_ (foldl (absorb_overrides remap) g entries)) o <->
   b ∈ vec_at (overrideBases_ g) o \/ renamed_pair id entries b o).
Proof.
  split.
  - apply (foldl_pairs id (fun g b d => d ∈ vec_at (methodOverrides_ g) b)). intros g' [k l].
    simpl. apply (foldl_row (fun g b d => d ∈ vec_at (methodOverrides_ g) b)).
    intros a y. simpl. rewrite elem_of_push_unique. naive_solver.
  - apply (foldl_pairs id (fun g b d => b ∈ vec_at (overrideBases_ g) d)). intros g' [k l].
    simpl. apply (foldl_row (fun g b d => b ∈ vec_at (overrideBases_ g) d)).
    intros a y. simpl. rewrite elem_of_push_unique. naive_solver.
Qed.

Lemma absorb_impls_mem g entries m c :
  c ∈ set_at (effectiveImplClasses_ (foldl (absorb_impls remap) g entries)) m <->
  c ∈ set_at (effectiveImplClasses_ g) m \/ renamed_pair set_order entries m c.
Proof.
  apply (foldl_pairs set_order (fun g b d => d ∈ set_at (effectiveImplClasses_ g) b)). intros g' [k l].
  simpl. rewrite (foldl_row (fun g b d => d ∈ set_at (effectiveImplClasses_ g) b) _ (rho k)).
  - simpl. rewrite set_at_insert. destruct (decide (rho k = m)) as [<-|]; reflexivity.
  - intros a y. simpl. rewrite elem_of_set_insert. naive_solver.
Qed.

Lemma absorb_returns_mem g entries f r :
  r ∈ set_at (functionReturns_ (foldl (absorb_returns remap) g entries)) f <->
  r ∈ set_at (functionReturns_ g) f \/ renamed_pair set_order entries f r.
Proof.
  apply (foldl_pairs set_order (fun g b d => d ∈ set_at (functionReturns_ g) b)). intros g' [k l].
  simpl. apply (foldl_row (fun g b d => d ∈ set_at (functionReturns_ g) b)).
  intros a y. unfold store_return. case_decide; simpl; rewrite elem_of_set_insert; naive_solver.
Qed.

Definition returns_inverse (g : CallGraph) : Prop :=
  forall f r, r ∈ set_at (functionReturns_ g) f <-> f ∈ vec_at (returnedBy_ g) r.

Lemma absorb_returns_inverse g entries :
  returns_inverse g -> returns_inverse (foldl (absorb_returns remap) g entries).
Proof.
  assert (Hstep : forall f r g, returns_inverse g -> returns_inverse (store_return f r g)).
  { intros f r g' Hg x y. unfold store_return. case_decide as Hin; simpl.
    - rewrite elem_of_set_insert, (Hg x y). split; [|by left].
      intros [?|[<- ->]]; [done|by apply Hg].
    - rewrite elem_of_set_insert, elem_of_push_back, (Hg x y). naive_solver. }
  revert g. induction entries as [|[k rets] l IH]; intros g Hg; [done|]. simpl. apply IH.
  revert g Hg. induction (set_order rets) as [|y ys IHy]; intros g Hg; [done|]. simpl. auto.
Qed.

Lemma renamed_pair_known {L} (elems : L -> list SId) entries b d :
  (forall e x, e ∈ entries -> x ∈ elems e.2 -> known (interner_ s) e.1 /\ known (interner_ s) x) ->
  renamed_pair elems entries b d -> known t b /\ known t d.
Proof.
  intros Hk (e & x & He & Hx & -> & ->). destruct (Hk e x He Hx). eauto using renames_known.
Qed.

(** * Positions of calls across the merge *)

Lemma call_key_renames c src :
  call_key (interner_ s) c = Some (keyOf src) -> call_key t c = Some (keyOf (rename_edge src)).
Proof.
  rewrite !call_key_Some. simpl. intros (H1 & H2 & H3 & ?).
  split_and!; try tauto; apply resolve_find; try done; apply Hren, find_resolve; try done; apply Hs.
Qed.

Lemma call_key_renames_inv c src :
  known (interner_ s) (s_caller src) -> known (interner_ s) (s_callee src) ->
  known (interner_ s) (s_callSite src) ->
  call_key t c = Some (keyOf (rename_edge src)) -> call_key (interner_ s) c = Some (keyOf src).
Proof.
  assert (Hinv : forall x u, known (interner_ s) x -> find t u = Some (rho x) -> find (interner_ s) u = Some x).
  { intros x u [v Hv] Hf. apply resolve_find; [apply Hs|]. apply Hren in Hv as Hv'.
    apply find_resolve in Hf; [|done]. congruence. }
  rewrite !call_key_Some. simpl. intros ??? (H1 & H2 & H3 & ?). split_and!; try tauto; by apply Hinv.
Qed.

Context (g : CallGraph) (er : list (option nat)) (Hae : absorbed_edges g0 g (edges_ s) er).
Context (Hi0 : interner_ g0 = t).
Context (He0 : edges_ok t (edges_ g0) (edgeIndex_ g0) (outEdges_ g0) (inEdges_ g0) (liveEdgeCount_ g0)).

Lemma absorbed_interner : interner_ g = t.
Proof. destruct (ae_frame _ _ _ _ Hae) as [-> _]. done. Qed.

Lemma position_shard c j :
  position s c = Some j -> exists i, position g c = Some i /\ er !! j = Some (Some i).
Proof.
  unfold position. rewrite absorbed_interner. intros (k & Hk & Hj)%bind_Some.
  apply (edges_index _ _ _ _ _ _ (ok_edges _ Hs)) in Hj as (src & Hsrc & Hl & <-).
  destruct (ae_live _ _ _ _ Hae _ _ Hsrc Hl) as (i & Hi & Hix). exists i. split; [|done].
  by rewrite (call_key_renames _ _ Hk).
Qed.

Lemma position_master c i : position g0 c = Some i -> position g c = Some i.
Proof.
  unfold position. rewrite absorbed_interner, Hi0. intros (k & Hk & Hj)%bind_Some.
  rewrite Hk. by apply (ae_mono _ _ _ _ Hae).
Qed.

Lemma position_only_master c i :
  position g c = Some i -> position s c = None -> position g0 c = Some i /\ Some i ∉ er.
Proof.
  unfold position. rewrite absorbed_interner, Hi0. intros (k & Hk & Hi)%bind_Some Hno.
  assert (Hsh : forall src, src ∈ edges_ s -> live src -> k <> keyOf (rename_edge src)).
  { intros src [j Hsrc]%list_elem_of_lookup Hl ->.
    destruct (edges_known _ _ _ _ _ _ (ok_edges _ Hs) _ _ Hsrc) as (? & ? & ?).
    rewrite (call_key_renames_inv c src) in Hno by done. simpl in Hno.
    assert (edgeIndex_ s !! keyOf src = Some j); [|congruence].
    apply (edges_index _ _ _ _ _ _ (ok_edges _ Hs)). eauto. }
  split.
  - rewrite Hk. simpl. destruct (ae_new _ _ _ _ Hae _ _ Hi) as [?|(src & Hin & Hl & E)]; [done|].
    by destruct (Hsh src Hin Hl).
  - intros [j Hj]%list_elem_of_lookup.
    destruct (edges_ s !! j) as [src|] eqn:Ej;
      [|apply lookup_ge_None in Ej; apply lookup_lt_Some in Hj; rewrite (ae_length _ _ _ _ Hae) in Hj; lia].
    destruct (decide (live src)) as [Hl|Hd]; [|by rewrite (ae_dead _ _ _ _ Hae _ _ Ej Hd) in Hj].
    destruct (ae_live _ _ _ _ Hae _ _ Ej Hl) as (i' & Hi' & Hix). rewrite Hj in Hi'. simplify_eq.
    apply (edges_index _ _ _ _ _ _ (ae_edges _ _ _ _ Hae)) in Hi as (y & Hy & _ & Ky).
    apply (edges_index _ _ _ _ _ _ (ae_edges _ _ _ _ Hae)) in Hix as (z & Hz & _ & Kz).
    apply (Hsh src); [by eapply list_elem_of_lookup_2|done|]. congruence.
Qed.

Lemma position_not_master c i :
  position g c = Some i -> position g0 c = None -> refs_at (edges_ g0) i = 0.
Proof.
  unfold position. rewrite absorbed_interner, Hi0. intros (k & Hk & Hi)%bind_Some. rewrite Hk. simpl.
  intros Hno. apply (edges_index _ _ _ _ _ _ (ae_edges _ _ _ _ Hae)) in Hi as (y & Hy & _ & Ky).
  destruct (decide (0 < refs_at (edges_ g0) i)) as [(se & Hse & Hl)%refs_at_pos|]; [exfalso|lia].
  destruct (ae_content _ _ _ _ Hae _ _ Hse) as (se' & Hse' & E). rewrite Hy in Hse'. injection Hse' as <-.
  apply keyOf_ref_of in E. assert (edgeIndex_ g0 !! keyOf se = Some i); [|congruence].
  apply (edges_index _ _ _ _ _ _ He0). eauto.
Qed.

Lemma registrations_absorbed c :
  registrations g c = registrations g0 c + registrations s c.
Proof.
  unfold registrations. destruct (position s c) as [j|] eqn:Ej.
  - destruct (position_shard _ _ Ej) as (i & Hi & Her). rewrite Hi.
    unfold position in Ej. apply bind_Some in Ej as (k & _ & Hj).
    apply (edges_index _ _ _ _ _ _ (ok_edges _ Hs)) in Hj as (src & Hsrc & _).
    rewrite (ae_refs _ _ _ _ Hae _ _ _ Hsrc Her). unfold refs_at at 3. rewrite Hsrc.
    destruct (position g0 c) as [i'|] eqn:E0.
    + apply position_master in E0. congruence.
    + by rewrite (position_not_master c).
  - destruct (position g c) as [i|] eqn:Ei.
    + destruct (position_only_master _ _ Ei Ej) as [-> Hn]. rewrite (ae_others _ _ _ _ Hae) by done. lia.
    + destruct (position g0 c) as [i'|] eqn:E0; [|done]. apply position_master in E0. congruence.
Qed.

Context (entries : list (SId * list nat)) (Hentries : entries ≡ₚ map_to_list (tuEdges_ s)).
Context (Htu0 : tu_ok t (edges_ g0) (tuEdges_ g0)).

Lemma entries_facts :
  NoDup entries.*1 /\ (forall e, e ∈ entries -> known (interner_ s) e.1) /\
  forall k l, (k, l) ∈ entries <-> tuEdges_ s !! k = Some l.
Proof.
  split_and!.
  - rewrite Hentries. apply NoDup_fst_map_to_list.
  - intros [k l]. rewrite Hentries. intros ?%elem_of_map_to_list.
    apply (tu_known _ _ _ (ok_tu _ Hs)). simpl. eauto.
  - intros k l. by rewrite Hentries, elem_of_map_to_list.
Qed.

Lemma tu_vec_shard stu :
  known (interner_ s) stu ->
  vec_at (tuEdges_ (foldl (absorb_tu remap er) g entries)) (rho stu) =
  vec_at (tuEdges_ g) (rho stu) ++ remap_edges er (vec_at (tuEdges_ s) stu).
Proof.
  intros Hk. destruct entries_facts as (F1 & F2 & F3). unfold vec_at at 3.
  destruct (tuEdges_ s !! stu) as [l|] eqn:E.
  - apply F3 in E. by apply (absorb_tus_vec er entries g (stu, l)).
  - simpl. rewrite app_nil_r. apply absorb_tus_other. intros [k l] He Ek.
    assert (stu = k) as ->; [|apply F3 in He; congruence].
    eapply renames_inj; [apply Hs|done|done| |done]. by apply (F2 (k, l)).
Qed.

Lemma position_absorb_tus c :
  position (foldl (absorb_tu remap er) g entries) c = position g c.
Proof.
  unfold position. rewrite (foldl_frame interner_), (foldl_frame edgeIndex_); [done|by intros ? []..].
Qed.

Lemma unit_registrations_absorbed tu c :
  unit_registrations (foldl (absorb_tu remap er) g entries) tu c =
  unit_registrations g0 tu c + unit_registrations s tu c.
Proof.
  unfold unit_registrations. rewrite position_absorb_tus, (foldl_frame interner_) by (by intros ? []).
  rewrite absorbed_interner, Hi0.
  assert (Etu : tuEdges_ g = tuEdges_ g0) by apply Hae.
  assert (Hzero : forall i u, position g c = Some i -> position g0 c = None ->
    occ i (vec_at (tuEdges_ g0) u) = 0).
  { intros i u Hp Hn. pose proof (position_not_master _ _ Hp Hn) as Hz.
    pose proof (tu_counted _ _ _ Htu0 i) as Hc. rewrite (regs_delete i _ u) in Hc. lia. }
  assert (Hpos : forall u, match position g c with Some i => occ i (vec_at (tuEdges_ g0) u) | None => 0 end =
    match position g0 c with Some i => occ i (vec_at (tuEdges_ g0) u) | None => 0 end).
  { intros u. destruct (position g0 c) as [i'|] eqn:E0; [by rewrite (position_master _ _ E0)|].
    destruct (position g c) as [i|] eqn:Ei; [|done]. by apply Hzero. }
  destruct (find (interner_ s) tu) as [stu|] eqn:Estu.
  - apply find_resolve in Estu as Hr; [|apply Hs]. apply Hren in Hr as Hr'.
    rewrite (resolve_find _ _ _ Ht Hr'), <- Hpos, tu_vec_shard, Etu by by eapply resolve_known.
    destruct (position s c) as [j|] eqn:Ej.
    + destruct (position_shard _ _ Ej) as (i & Hi & Her). rewrite Hi, occ_app, (occ_remap er j i); [lia| |done].
      intros k Hk. by eapply ae_inj.
    + destruct (position g c) as [i|] eqn:Ei; [|done]. rewrite occ_app, occ_remap_none; [lia|].
      by apply (position_only_master c).
  - rewrite Nat.add_0_r. destruct (find t tu) as [u|] eqn:Eu; [|done].
    rewrite absorb_tus_other, Etu, <- Hpos; [done|]. intros e He ->.
    destruct entries_facts as (_ & F2 & _). destruct (F2 e He) as [v Hv]. apply Hren in Hv as Hv'.
    apply find_resolve in Eu; [|done]. rewrite Hv' in Eu. simplify_eq.
    rewrite (resolve_find _ _ _ (ok_interner _ Hs) Hv) in Estu. done.
Qed.
End Passes.

(** * The whole operation *)

Section Extended.
Context (t t' : StringInterner) (Ht : interner_ok t) (Ht' : interner_ok t') (He : extends t t').

(** A longer table gives the known ids the same names. *)
Lemma find_extends_known u id : known t id -> find t' u = Some id <-> find t u = Some id.
Proof.
  intros [v Hv]. split; [|by apply extends_find].
  intros Hf%find_resolve; [|done]. apply resolve_find; [done|].
  apply (extends_resolve _ _ _ _ He) in Hv as Hv'. congruence.
Qed.

Lemma linked_merge s rho rel rels rel' a b :
  interner_ok s -> renames s t' rho ->
  (forall x y, rel x y -> known t x /\ known t y) ->
  (forall x y, rels x y -> known s x /\ known s y) ->
  (forall x y, rel' x y <-> rel x y \/ exists p q, rels p q /\ x = rho p /\ y = rho q) ->
  linked t' rel' a b <-> linked t rel a b \/ linked s rels a b.
Proof.
  intros Hs Hren Hk Hks Hrel. unfold linked. split.
  - intros (x & y & Hx & Hy & [Hxy|(p & q & Hpq & -> & ->)]%Hrel).
    + left. destruct (Hk _ _ Hxy). exists x, y. by rewrite <- !find_extends_known.
    + right. destruct (Hks _ _ Hpq) as [[u Hu] [v Hv]]. exists p, q.
      apply find_resolve in Hx, Hy; [|done..]. pose proof (Hren _ _ Hu). pose proof (Hren _ _ Hv).
      split_and!; [apply resolve_find; [done|congruence]..|done].
  - intros [(x & y & Hx & Hy & Hxy)|(p & q & Hp & Hq & Hpq)].
    + exists x, y. split_and!; [by apply (extends_find t)..|]. apply Hrel. by left.
    + exists (rho p), (rho q). split_and!;
        [apply resolve_find; [done|]; apply Hren; by apply find_resolve..|].
      apply Hrel. right. eauto.
Qed.
End Extended.

Lemma position_extends g t c :
  cg_ok g -> interner_ok t -> extends (interner_ g) t -> position (set_interner t g) c = position g c.
Proof.
  intros Hg Ht He. pose proof (ok_interner _ Hg) as Hi. unfold position. simpl.
  apply option_eq. intros i. rewrite !bind_Some.
  split; intros (k & Hk & Hki); exists k; (split; [|done]).
  - apply (edges_index _ _ _ _ _ _ (ok_edges _ Hg)) in Hki as (se & Hse & _ & <-).
    destruct (edges_known _ _ _ _ _ _ (ok_edges _ Hg) _ _ Hse) as (? & ? & ?).
    apply call_key_Some in Hk. apply call_key_Some. simpl in *. destruct Hk as (?&?&?&?).
    split_and!; try tauto; by apply (find_extends_known _ _ Hi Ht He).
  - apply call_key_Some in Hk. apply call_key_Some. destruct Hk as (?&?&?&?).
    split_and!; try tauto; by apply (extends_find (interner_ g)).
Qed.

Lemma unit_registrations_extends g t tu c :
  cg_ok g -> interner_ok t -> extends (interner_ g) t ->
  unit_registrations (set_interner t g) tu c = unit_registrations g tu c.
Proof.
  intros Hg Ht He. unfold unit_registrations. rewrite position_extends by done. simpl.
  destruct (find (interner_ g) tu) as [u|] eqn:E.
  - by rewrite (extends_find _ _ _ _ (ok_interner _ Hg) Ht He E).
  - destruct (find t tu) as [u|] eqn:Eu; [|done]. destruct (position g c) as [i|]; [|done].
    unfold vec_at. destruct (tuEdges_ g !! u) as [l|] eqn:El; [exfalso|done].
    assert (Hk : known (interner_ g) u) by (apply (tu_known _ _ _ (ok_tu _ Hg)); eauto).
    apply (find_extends_known _ _ (ok_interner _ Hg) Ht He) in Eu; [congruence|done].
Qed.

Lemma absorb_node_frame s remap g e :
  edges_part (absorb_node s remap g e) = edges_part g /\
  rels_part (absorb_node s remap g e) = rels_part g /\
  tuEdges_ (absorb_node s remap g e) = tuEdges_ g.
Proof.
  assert (Hc : forall n u h, edges_part (contribute n u h) = edges_part h /\
    rels_part (contribute n u h) = rels_part h /\ tuEdges_ (contribute n u h) = tuEdges_ h).
  { intros n u h. unfold contribute. by case_decide. }
  assert (Hn : forall n d nd h, edges_part (store_node n d nd h) = edges_part h /\
    rels_part (store_node n d nd h) = rels_part h /\ tuEdges_ (store_node n d nd h) = tuEdges_ h).
  { intros n d nd h. unfold store_node. by destruct (nodes_ h !! n). }
  destruct e as [sid node]. unfold absorb_node. cbv zeta.
  set (g1 := match nodes_ g !! remap_at remap sid with None => _ | Some _ => _ end).
  assert (H1 : edges_part g1 = edges_part g /\ rels_part g1 = rels_part g /\ tuEdges_ g1 = tuEdges_ g).
  { unfold g1. destruct (nodes_ g !! _); [apply Hn|]. destruct (intern _ _) as [t' d].
    apply (Hn _ _ _ (set_interner t' g)). }
  destruct (nodeContributors_ s !! sid); [|done].
  rewrite (foldl_frame edges_part), (foldl_frame rels_part), (foldl_frame tuEdges_); [done|..];
    intros; apply Hc.
Qed.

(** The named pairs of a relation. *)
Definition names_related (rel : CallGraph -> SId -> SId -> Prop) (g : CallGraph) : bytes -> bytes -> Prop :=
  linked (interner_ g) (rel g).

Definition contributor (g : CallGraph) (n tu : SId) : Prop := tu ∈ set_at (nodeContributors_ g) n.
Definition derived (g : CallGraph) (b d : SId) : Prop := d ∈ vec_at (derivedClasses_ g) b.
Definition overridden (g : CallGraph) (b o : SId) : Prop := o ∈ vec_at (methodOverrides_ g) b.
Definition implements (g : CallGraph) (m c : SId) : Prop := c ∈ set_at (effectiveImplClasses_ g) m.
Definition returns (g : CallGraph) (f r : SId) : Prop := r ∈ set_at (functionReturns_ g) f.

(** The merged graph is the union of the two, counted. *)
Record absorbed (g s g' : CallGraph) : Prop := {
  ab_ok : cg_ok g';
  ab_nodes : forall u, node_of g' u =
    match node_of s u with None => node_of g u | Some n => Some (merge_node (node_of g u) n) end;
  ab_calls : forall c, registrations g' c = registrations g c + registrations s c;
  ab_units : forall tu c,
    unit_registrations g' tu c = unit_registrations g tu c + unit_registrations s tu c;
  ab_related : forall rel,
    rel ∈ [contributor; derived; overridden; implements; returns] ->
    forall a b, names_related rel g' a b <-> names_related rel g a b \/ names_related rel s a b
}.

Section Absorb.
Context `{UI : !UnorderedIter}.

Lemma elem_of_map_iter {V} (m : gmap N V) k v : (k, v) ∈ map_iter m <-> m !! k = Some v.
Proof. by rewrite map_iter_perm, elem_of_map_to_list. Qed.

Lemma renamed_pair_iter {L} remap (elems : L -> list SId) (m : gmap SId L) (rels : SId -> SId -> Prop) b d :
  (forall x y, rels x y <-> exists l, m !! x = Some l /\ y ∈ elems l) ->
  renamed_pair remap elems (map_iter m) b d <->
  exists p q, rels p q /\ b = remap_at remap p /\ d = remap_at remap q.
Proof.
  intros Hrels. unfold renamed_pair. split.
  - intros ([k l] & x & He%elem_of_map_iter & Hx & -> & ->). exists k, x. rewrite Hrels. eauto.
  - intros (p & q & (l & Hl & Hq)%Hrels & -> & ->). exists (p, l), q. by rewrite elem_of_map_iter.
Qed.

Lemma vec_rel (m : gmap SId (list SId)) x y :
  y ∈ vec_at m x <-> exists l, m !! x = Some l /\ y ∈ id l.
Proof.
  unfold vec_at, id. destruct (m !! x); simpl; [naive_solver|].
  split; [by intros ?%not_elem_of_nil|]. by intros (? & ? & _).
Qed.

Lemma set_rel (m : gmap SId (gset SId)) x y :
  y ∈ set_at m x <-> exists l, m !! x = Some l /\ y ∈ set_order l.
Proof.
  setoid_rewrite elem_of_set_order. unfold set_at. destruct (m !! x); simpl; [naive_solver|].
  split; [set_solver|]. by intros (? & ? & _).
Qed.

(** The relation passes. *)
Definition absorb_rels (s : CallGraph) (remap : list SId) (g3 : CallGraph) : CallGraph :=
  let g4 := foldl (absorb_derived remap) g3 (map_iter (derivedClasses_ s)) in
  let g5 := foldl (absorb_overrides remap) g4 (map_iter (methodOverrides_ s)) in
  let g6 := foldl (absorb_impls remap) g5 (map_iter (effectiveImplClasses_ s)) in
  foldl (absorb_returns remap) g6 (map_iter (functionReturns_ s)).

Section Frames.
Context {C : Type} (p : CallGraph -> C) (remap : list SId) (h : CallGraph).

Lemma derived_frame l :
  (forall h d, p (set_derivedClasses d h) = p h) -> p (foldl (absorb_derived remap) h l) = p h.
Proof.
  intros H. apply (foldl_frame p). intros h' [k v]. simpl. rewrite (foldl_frame p); intros; by rewrite ?H.
Qed.

Lemma overrides_frame l :
  (forall h d, p (set_methodOverrides d h) = p h) -> (forall h d, p (set_overrideBases d h) = p h) ->
  p (foldl (absorb_overrides remap) h l) = p h.
Proof.
  intros H1 H2. apply (foldl_frame p). intros h' [k v]. simpl. apply (foldl_frame p). intros.
  unfold store_override. by rewrite H2, H1.
Qed.

Lemma impls_frame l :
  (forall h d, p (set_effectiveImplClasses d h) = p h) -> p (foldl (absorb_impls remap) h l) = p h.
Proof.
  intros H. apply (foldl_frame p). intros h' [k v]. simpl. rewrite (foldl_frame p); intros; by rewrite ?H.
Qed.

Lemma returns_frame l :
  (forall h d, p (set_functionReturns d h) = p h) -> (forall h d, p (set_returnedBy d h) = p h) ->
  p (foldl (absorb_returns remap) h l) = p h.
Proof.
  intros H1 H2. apply (foldl_frame p). intros h' [k v]. simpl. apply (foldl_frame p). intros.
  unfold store_return. case_decide; by rewrite ?H2, H1.
Qed.
End Frames.

Lemma absorb_rels_frame s remap g :
  let g' := absorb_rels s remap g in
  interner_ g' = interner_ g /\ nodes_part g' = nodes_part g /\ edges_part g' = edges_part g /\
  tuEdges_ g' = tuEdges_ g.
Proof.
  cbv zeta. unfold absorb_rels. split_and!.
  all: rewrite returns_frame, impls_frame, overrides_frame, derived_frame; done.
Qed.

Section Whole.
Context (g s : CallGraph) (Hg : cg_ok g) (Hs : cg_ok s).
Context (t : StringInterner) (Ht : interner_ok t) (He : extends (interner_ g) t).
Context (remap : list SId) (Hren : renames (interner_ s) t (remap_at remap)).

Lemma absorb_rels_ok h :
  rels_part h = rels_part g -> interner_ h = t ->
  let h' := absorb_rels s remap h in
  rels_ok t (derivedClasses_ h') (methodOverrides_ h') (overrideBases_ h')
    (effectiveImplClasses_ h') (functionReturns_ h') (returnedBy_ h') /\
  (forall b d, derived h' b d <-> derived g b d \/ renamed_pair remap id (map_iter (derivedClasses_ s)) b d) /\
  (forall b d, overridden h' b d <-> overridden g b d \/ renamed_pair remap id (map_iter (methodOverrides_ s)) b d) /\
  (forall b d, implements h' b d <-> implements g b d \/ renamed_pair remap set_order (map_iter (effectiveImplClasses_ s)) b d) /\
  (forall b d, returns h' b d <-> returns g b d \/ renamed_pair remap set_order (map_iter (functionReturns_ s)) b d).
Proof.
  intros Er Hi. cbv zeta. unfold rels_part in Er. injection Er as R1 R2 R3 R4 R5 R6.
  unfold absorb_rels. set (g4 := foldl (absorb_derived remap) h _).
  set (g5 := foldl (absorb_overrides remap) g4 _). set (g6 := foldl (absorb_impls remap) g5 _).
  set (g7 := foldl (absorb_returns remap) g6 _).
  pose proof Hg as [_ _ _ _ _ [K1 K2 K3 K4 K5 K6]].
  pose proof Hs as [_ _ _ _ _ [S1 S2 S3 S4 S5 S6]].
  assert (D : forall b d, derived g7 b d <->
    derived g b d \/ renamed_pair remap id (map_iter (derivedClasses_ s)) b d).
  { intros b d. unfold derived, g7, g6, g5. rewrite returns_frame, impls_frame, overrides_frame by done.
    unfold g4. rewrite absorb_derived_mem. by rewrite R1. }
  assert (O : forall b d, (overridden g7 b d <->
    overridden g b d \/ renamed_pair remap id (map_iter (methodOverrides_ s)) b d) /\
    (b ∈ vec_at (overrideBases_ g7) d <->
     b ∈ vec_at (overrideBases_ g) d \/ renamed_pair remap id (map_iter (methodOverrides_ s)) b d)).
  { intros b d. unfold overridden, g7, g6, g5.
    rewrite (returns_frame methodOverrides_), (impls_frame methodOverrides_),
      (returns_frame overrideBases_), (impls_frame overrideBases_) by done.
    destruct (absorb_overrides_mem remap g4 (map_iter (methodOverrides_ s)) b d) as [-> ->].
    unfold g4. rewrite (derived_frame methodOverrides_), (derived_frame overrideBases_), R2, R3; done. }
  assert (I : forall b d, implements g7 b d <->
    implements g b d \/ renamed_pair remap set_order (map_iter (effectiveImplClasses_ s)) b d).
  { intros b d. unfold implements, g7. rewrite returns_frame by done. unfold g6. rewrite absorb_impls_mem.
    unfold g5, g4. rewrite overrides_frame, derived_frame, R4; done. }
  assert (Hret : functionReturns_ g6 = functionReturns_ g /\ returnedBy_ g6 = returnedBy_ g).
  { unfold g6, g5, g4. rewrite !impls_frame, !overrides_frame, !derived_frame; done. }
  assert (F : forall b d, returns g7 b d <->
    returns g b d \/ renamed_pair remap set_order (map_iter (functionReturns_ s)) b d).
  { intros b d. unfold returns, g7. rewrite absorb_returns_mem. by rewrite (proj1 Hret). }
  assert (Kn : forall a b, known (interner_ g) a /\ known (interner_ g) b -> known t a /\ known t b).
  { intros a b [? ?]. eauto using known_extends. }
  split_and!; [|done|apply O|done|done]. split.
  - intros b o. destruct (O b o) as [O1 O2]. unfold overridden in *. rewrite O1, O2, K1. done.
  - apply absorb_returns_inverse. intros f r. rewrite (proj1 Hret), (proj2 Hret). apply K2.
  - intros b d [?|Hp]%D; [by apply Kn, K3|]. eapply renamed_pair_known; [done| |done].
    intros [k l] x Hin%elem_of_map_iter Hx. apply (S3 k x). by apply vec_rel; eauto.
  - intros b d [?|Hp]%O; [by apply Kn, K4|]. eapply renamed_pair_known; [done| |done].
    intros [k l] x Hin%elem_of_map_iter Hx. apply (S4 k x). by apply vec_rel; eauto.
  - intros b d [?|Hp]%I; [by apply Kn, K5|]. eapply renamed_pair_known; [done| |done].
    intros [k l] x Hin%elem_of_map_iter Hx. apply (S5 k x). by apply set_rel; eauto.
  - intros b d [?|Hp]%F; [by apply Kn, K6|]. eapply renamed_pair_known; [done| |done].
    intros [k l] x Hin%elem_of_map_iter Hx. apply (S6 k x). by apply set_rel; eauto.
Qed.

(** Names of the merged nodes. *)
Lemma node_of_merge h :
  interner_ h = t ->
  (forall sid node, nodes_ s !! sid = Some node ->
     nodes_ h !! remap_at remap sid = Some (merge_node (nodes_ g !! remap_at remap sid) node)) ->
  (forall id, (forall sid node, nodes_ s !! sid = Some node -> id <> remap_at remap sid) ->
     nodes_ h !! id = nodes_ g !! id) ->
  forall u, node_of h u =
    match node_of s u with None => node_of g u | Some n => Some (merge_node (node_of g u) n) end.
Proof.
  intros Hi Hin Hout u. unfold node_of. rewrite Hi.
  assert (Hgu : forall id, find t u = Some id ->
    (find (interner_ g) u ≫= fun id => nodes_ g !! id) = nodes_ g !! id).
  { intros id Hid. destruct (find (interner_ g) u) as [x|] eqn:Ex; simpl.
    - apply (extends_find _ _ _ _ (ok_interner _ Hg) Ht He) in Ex. congruence.
    - destruct (nodes_ g !! id) as [n|] eqn:En; [exfalso|done].
      apply (nodes_usr _ _ _ (ok_nodes _ Hg)) in En. apply resolve_known in En.
      apply (find_extends_known _ _ (ok_interner _ Hg) Ht He) in Hid; [congruence|done]. }
  assert (Hsu : forall x, find (interner_ s) u = Some x -> find t u = Some (remap_at remap x)).
  { intros x Hx. apply resolve_find; [done|]. apply Hren, find_resolve; [apply Hs|done]. }
  destruct (find (interner_ s) u ≫= fun id => nodes_ s !! id) as [n|] eqn:Es.
  - apply bind_Some in Es as (x & Hx & Hn). rewrite (Hsu _ Hx), (Hgu _ (Hsu _ Hx)). simpl. by apply Hin.
  - destruct (find t u) as [id|] eqn:Eid; simpl.
    + rewrite (Hgu _ eq_refl). apply Hout. intros sid node Hn ->.
      pose proof (nodes_usr _ _ _ (ok_nodes _ Hs) _ _ Hn) as Hr. apply Hren in Hr as Hr'.
      apply find_resolve in Eid; [|done]. rewrite Hr' in Eid. injection Eid as <-.
      rewrite (resolve_find _ _ _ (ok_interner _ Hs) Hr) in Es. simpl in Es. congruence.
    + destruct (find (interner_ g) u) as [x|] eqn:Ex; [|done].
      apply (extends_find _ _ _ _ (ok_interner _ Hg) Ht He) in Ex. congruence.
Qed.
End Whole.

Lemma shard_rel_known s rel x y :
  cg_ok s -> rel ∈ [contributor; derived; overridden; implements; returns] ->
  rel s x y -> known (interner_ s) x /\ known (interner_ s) y.
Proof.
  intros Hs Hrel Hxy. pose proof (ok_rels _ Hs) as [_ _ K3 K4 K5 K6].
  rewrite !elem_of_cons in Hrel. destruct Hrel as [->|[->|[->|[->|[->|?%not_elem_of_nil]]]]];
    [|by apply K3|by apply K4|by apply K5|by apply K6|done].
  pose proof (contrib_node _ _ _ _ (ok_contrib _ Hs) x (set_at_elem_Some _ _ _ Hxy)) as [n Hn].
  split; [by eapply shard_node_known|by eapply shard_contributor_known].
Qed.

(** The graphs after the node pass ([g1]), the edge pass ([g2]) and all passes
    ([g']), with what the passes established. *)
Record merge_passes (g s : CallGraph) (t : StringInterner) (remap : list SId)
    (g1 g2 : CallGraph) (er : list (option nat)) (g' : CallGraph) : Prop := {
  mp_interner : interner_ok t /\ extends (interner_ g) t /\ renames (interner_ s) t (remap_at remap);
  mp_ids : interner_ g1 = t /\ interner_ g' = t;
  mp_nodes_ok : nodes_part_ok g1 (tuNodes_ g1);
  mp_nodes : forall sid node, nodes_ s !! sid = Some node ->
    nodes_ g1 !! remap_at remap sid = Some (merge_node (nodes_ g !! remap_at remap sid) node);
  mp_others : forall id, (forall sid node, nodes_ s !! sid = Some node -> id <> remap_at remap sid) ->
    nodes_ g1 !! id = nodes_ g !! id;
  mp_contributors : forall n tu, contributor g1 n tu <->
    contributor g n tu \/
    exists p q, contributor s p q /\ n = remap_at remap p /\ tu = remap_at remap q;
  mp_before : edges_part g1 = edges_part g /\ tuEdges_ g1 = tuEdges_ g;
  mp_edges : absorbed_edges t remap g1 g2 (edges_ s) er;
  mp_tu : tuEdges_ g' = tuEdges_ (foldl (absorb_tu remap er) g2 (map_iter (tuEdges_ s)));
  mp_after : nodes_part g' = nodes_part g1 /\ edges_part g' = edges_part g2;
  mp_rels_ok : rels_ok t (derivedClasses_ g') (methodOverrides_ g') (overrideBases_ g')
    (effectiveImplClasses_ g') (functionReturns_ g') (returnedBy_ g');
  mp_derived : forall b d, derived g' b d <->
    derived g b d \/ renamed_pair remap id (map_iter (derivedClasses_ s)) b d;
  mp_overridden : forall b d, overridden g' b d <->
    overridden g b d \/ renamed_pair remap id (map_iter (methodOverrides_ s)) b d;
  mp_implements : forall b d, implements g' b d <->
    implements g b d \/ renamed_pair remap set_order (map_iter (effectiveImplClasses_ s)) b d;
  mp_returns : forall b d, returns g' b d <->
    returns g b d \/ renamed_pair remap set_order (map_iter (functionReturns_ s)) b d
}.

Lemma absorb_passes g s :
  cg_ok g -> cg_ok s -> readOnly_ g = false ->
  room (table_size (interner_ s)) (interner_ g) ->
  (forall i, (N.of_nat (refs_at (edges_ g) i) + total_refs (edges_ s) < two32)%N) ->
  exists t remap g1 g2 er, merge_passes g s t remap g1 g2 er (absorb false s g).
Proof.
  intros Hg Hs Hro Hroom Hfit. unfold absorb. rewrite Hro.
  destruct (absorb_strings (interner_ s) (interner_ g)) as [t remap] eqn:Est.
  destruct (absorb_strings_spec _ _ _ _ Est (ok_interner _ Hs) (ok_interner _ Hg) Hroom) as (Ht & He & Hren).
  pose proof (cg_ok_extends g t Hg Ht He) as Hgt.
  destruct (absorb_nodes_spec s Hs t Ht remap Hren (set_interner t g) (map_iter (nodes_ s)))
    as (N1 & N2 & N3 & N4 & N5);
    [split; apply Hgt|done|apply map_iter_list_to_map|by intros [k n] ?%elem_of_map_iter|].
  set (g1 := foldl (absorb_node s remap) _ _) in *.
  assert (F1 : edges_part g1 = edges_part g /\ rels_part g1 = rels_part g /\ tuEdges_ g1 = tuEdges_ g).
  { unfold g1. rewrite (foldl_frame edges_part), (foldl_frame rels_part), (foldl_frame tuEdges_);
      [done|..]; intros; apply absorb_node_frame. }
  destruct F1 as (F1 & F2 & F3). pose proof F1 as [= G1 G2 G3 G4 G5].
  assert (Hae0 : absorbed_edges t remap g1 g1 [] []).
  { pose proof (ok_edges _ Hgt) as He1. simpl in He1. rewrite <- G1, <- G2, <- G3, <- G4, <- G5 in He1.
    split; try done; try lia; [intros i se Hi; eauto|intros k i Hk; by left]. }
  rewrite <- G1 in Hfit.
  pose proof (absorb_edges_spec s Hs t Ht remap Hren g1 Hfit g1 [] [] (edges_ s) eq_refl N2 Hae0) as Hae.
  cbv zeta in Hae. destruct (foldl (absorb_edge remap) (g1, []) (edges_ s)) as [g2 er].
  simpl in Hae. set (g3 := foldl (absorb_tu remap er) g2 _).
  destruct (ae_frame _ _ _ _ _ _ Hae) as (A1 & A2 & A3 & A4 & _).
  assert (Fg3 : interner_ g3 = t /\ nodes_part g3 = nodes_part g1 /\ edges_part g3 = edges_part g2 /\
    rels_part g3 = rels_part g).
  { unfold g3. rewrite (foldl_frame interner_), (foldl_frame nodes_part), (foldl_frame edges_part),
      (foldl_frame rels_part) by (by intros ? []). split_and!; congruence. }
  destruct Fg3 as (B1 & B2 & B3 & B4).
  destruct (absorb_rels_ok g s Hg Hs t He remap Hren g3 B4 B1) as (R1 & R2 & R3 & R4 & R5).
  destruct (absorb_rels_frame s remap g3) as (C1 & C2 & C3 & C4). cbv zeta in *.
  exists t, remap, g1, g2, er. split; try done;
    [split; [done|by rewrite <- B1]| | | |split; [by rewrite <- B2|by rewrite <- B3]].
  - intros sid node Hn. by apply (N3 (sid, node)), elem_of_map_iter.
  - intros id Hid. apply N4. intros [k n] Hk%elem_of_map_iter. by eapply Hid.
  - intros n tu. unfold contributor. rewrite N5. simpl. apply or_iff_compat_l. split.
    + intros ([k nd] & z & Hk & -> & Hz & ->). simpl in *. eauto.
    + intros (p & q & Hpq & -> & ->).
      destruct (contrib_node _ _ _ _ (ok_contrib _ Hs) p (set_at_elem_Some _ _ _ Hpq)) as [nd Hn].
      exists (p, nd), q. by rewrite elem_of_map_iter.
Qed.

Section FromPasses.
Context (g s : CallGraph) (Hg : cg_ok g) (Hs : cg_ok s).
Context (t : StringInterner) (remap : list SId) (g1 g2 : CallGraph) (er : list (option nat)) (g' : CallGraph).
Context (Hmp : merge_passes g s t remap g1 g2 er g').

Lemma passes_start :
  edges_ok t (edges_ g1) (edgeIndex_ g1) (outEdges_ g1) (inEdges_ g1) (liveEdgeCount_ g1) /\
  tu_ok t (edges_ g1) (tuEdges_ g1) /\ forall c, position g1 c = position g c.
Proof.
  destruct Hmp as [(Ht & He & _) [N2 _] _ _ _ _ [F1 F3] _ _ _ _ _ _ _ _]. injection F1 as G1 G2 G3 G4 G5.
  pose proof (cg_ok_extends g t Hg Ht He) as Hgt. rewrite G1, G2, G3, G4, G5, F3.
  split_and!; [apply Hgt|apply Hgt|]. intros c. rewrite <- (position_extends g t) by done.
  unfold position. simpl. by rewrite N2, G2.
Qed.

Lemma passes_end_position c : position g' c = position g2 c.
Proof.
  destruct Hmp as [_ [N2 N3] _ _ _ _ _ Hae _ [_ E] _ _ _ _ _]. injection E as E1 E2 E3 E4 E5.
  unfold position. rewrite N3, E2, (absorbed_interner _ _ _ _ _ _ Hae) by done. done.
Qed.

Lemma passes_ok : cg_ok g'.
Proof.
  destruct passes_start as (He1 & Htu1 & _).
  destruct Hmp as [(Ht & He & Hren) [N1 N2] [N3 N4] _ _ _ _ Hae Etu [EN EE] R _ _ _ _].
  injection EN as C5 C6 C7 C8. injection EE as D1 D2 D3 D4 D5. rewrite N1 in N3, N4.
  split; rewrite ?N2, ?C5, ?C6, ?C7, ?C8, ?D1, ?D2, ?D3, ?D4, ?D5, ?Etu; try done; [apply Hae|].
  by apply (absorbed_tu_ok s Hs t remap Hren g1 g2 _ er _ Hae N1 Htu1 (map_iter_perm _ (tuEdges_ s))).
Qed.

Lemma passes_units tu c :
  registrations g' c = registrations g c + registrations s c /\
  unit_registrations g' tu c = unit_registrations g tu c + unit_registrations s tu c.
Proof.
  destruct passes_start as (He1 & Htu1 & Epos). pose proof (passes_end_position c) as Epos'.
  destruct Hmp as [(Ht & He & Hren) [N1 N2] _ _ _ _ [F1 F3] Hae Etu [EN EE] _ _ _ _ _].
  injection F1 as G1 _ _ _ _. injection EE as D1 _ _ _ _. split.
  - pose proof (registrations_absorbed s Hs t Ht remap Hren g1 g2 er Hae N1 He1 c) as Hr.
    unfold registrations in *. by rewrite Epos', D1, Hr, Epos, G1.
  - pose proof (unit_registrations_absorbed s Hs t Ht remap Hren g1 g2 er Hae N1 He1 _
      (map_iter_perm _ (tuEdges_ s)) Htu1 tu c) as Hr.
    rewrite <- (unit_registrations_extends g t) by done.
    unfold unit_registrations in *. rewrite position_absorb_tus, (foldl_frame interner_) in Hr by (by intros ? []).
    rewrite (absorbed_interner _ _ _ _ _ _ Hae N1) in Hr.
    rewrite Epos', N2, Etu, Hr, N1, F3, Epos. simpl. by rewrite position_extends.
Qed.

Lemma passes_related rel a b :
  rel ∈ [contributor; derived; overridden; implements; returns] ->
  names_related rel g' a b <-> names_related rel g a b \/ names_related rel s a b.
Proof.
  intros Hrel. destruct Hmp as [(Ht & He & Hren) [N1 N2] _ _ _ HC _ _ _ [EN _] _ R2 R3 R4 R5].
  injection EN as _ _ C7 _. unfold names_related. rewrite N2.
  apply (linked_merge (interner_ g) t (ok_interner _ Hg) Ht He) with (rho := remap_at remap);
    [apply Hs|done|by intros; eapply shard_rel_known|by intros; eapply shard_rel_known|].
  intros x y. rewrite !elem_of_cons in Hrel.
  destruct Hrel as [->|[->|[->|[->|[->|?%not_elem_of_nil]]]]]; [| | | | |done].
  - unfold contributor at 1. rewrite C7. apply HC.
  - rewrite R2. by rewrite (renamed_pair_iter remap id (derivedClasses_ s) (derived s)) by apply vec_rel.
  - rewrite R3. by rewrite (renamed_pair_iter remap id (methodOverrides_ s) (overridden s)) by apply vec_rel.
  - rewrite R4. by rewrite (renamed_pair_iter remap set_order _ (implements s)) by apply set_rel.
  - rewrite R5. by rewrite (renamed_pair_iter remap set_order _ (returns s)) by apply set_rel.
Qed.

Lemma passes_absorbed : absorbed g s g'.
Proof.
  split; [apply passes_ok| |intros c; apply (passes_units [] c)|intros tu c; apply passes_units|
          intros rel Hrel a b; by apply passes_related].
  destruct Hmp as [(Ht & He & Hren) [N1 N2] _ H4 H5 _ _ _ _ [EN _] _ _ _ _ _]. injection EN as C5 _ _ _.
  apply (node_of_merge g s Hg Hs t Ht He remap Hren); by rewrite ?C5.
Qed.
End FromPasses.
End Absorb.

Lemma absorb_absorbed `{!UnorderedIter} (g s : CallGraph) :
  cg_ok g -> cg_ok s -> readOnly_ g = false ->
  room (table_size (interner_ s)) (interner_ g) ->
  (forall i, (N.of_nat (refs_at (edges_ g) i) + total_refs (edges_ s) < two32)%N) ->
  absorbed g s (absorb false s g).
Proof.
  intros Hg Hs Hro Hroom Hfit.
  destruct (absorb_passes g s Hg Hs Hro Hroom Hfit) as (t & remap & g1 & g2 & er & Hmp).
  by eapply passes_absorbed.
Qed.

(** C9. Merging a worker's shard adds exactly its facts, read as text: the merged
    graph satisfies the invariant; every call has as many registrations as the two
    graphs together, in all and per translation unit; a node known to both is the
    receiver's with the shard's fields filled in, every other node is kept as it
    is; and the contributors and the four relations are the unions. The merge has
    to fit: the shard's strings in the id space, and any edge's count plus all of
    the shard's registrations in 32 bits. *)
Theorem absorb_adds_shard `{!UnorderedIter} (g s : CallGraph) :
  cg_ok g -> cg_ok s -> readOnly_ g = false ->
  room (table_size (interner_ s)) (interner_ g) ->
  (forall i, (N.of_nat (refs_at (edges_ g) i) + total_refs (edges_ s) < two32)%N) ->
  absorbed g s (absorb false s g).
Proof. apply absorb_absorbed. Qed.

(** Two shards that share a call of a header. *)
Definition shard_a : CallGraph :=
  build [AddNode (MkNode (str "f") (str "a.h") 1 false false [] []) (str "a.cpp");
         AddEdge (direct (str "f") (str "h") (str "a.h:2:1")) (str "a.cpp")] empty_graph.
Definition shard_b : CallGraph :=
  build [AddEdge (direct (str "g") (str "f") (str "b.cpp:3:1")) (str "b.cpp");
         AddEdge (direct (str "f") (str "h") (str "a.h:2:1")) (str "b.cpp");
         AddFunctionReturn (str "g") (str "h")] empty_graph.

Lemma absorb_adds_shard_witness :
  let g' := @absorb canonical_iter false shard_b shard_a in
  cg_ok g' /\
  registrations g' (MkCall (str "f") (str "h") (str "a.h:2:1") DirectCall Proven Synchronous 0) = 2.
Proof.
  assert (H : absorbed shard_a shard_b (@absorb canonical_iter false shard_b shard_a)).
  { apply absorb_adds_shard; [apply build_ok; vm_compute; discriminate..|vm_compute; reflexivity| |].
    - vm_compute. discriminate.
    - intros [|i]; vm_compute; reflexivity. }
  split; [exact (ab_ok _ _ _ H)|]. rewrite (ab_calls _ _ _ H). vm_compute. reflexivity.
Defined.
