(* ===== verification/PathSearch.v ===== *)
(** The bounded reverse path search of src/callgraph/PathSearch.cpp.

    The search runs in two phases: a breadth-first corridor from the starts over
    callee edges, then a depth-first walk from each target over caller edges,
    cut by the corridor, the limits, the cycle rule and a memo of dead ends.
    [Search] is the mutable part of the struct of that name; its constant
    part is the parameters of the sections below. The cache [callersMemo]
    holds values of a pure function and is not modelled. *)

From S2P Require Import Prelude Utf8 StringInterner CallGraph.

(** * Data *)

Inductive StopReason := PathLimit | DepthLimit | WorkBudget | HubPruned.

#[global] Instance StopReason_eq_dec : EqDecision StopReason.
Proof. solve_decision. Defined.

(** [static_cast<unsigned>] of the enumerators. *)
Definition stop_bit (r : StopReason) : N :=
  match r with PathLimit => 1 | DepthLimit => 2 | WorkBudget => 4 | HubPruned => 8 end.

Definition stopReasonName (r : StopReason) : bytes :=
  match r with
  | PathLimit => str "path_limit"
  | DepthLimit => str "depth_limit"
  | WorkBudget => str "work_budget"
  | HubPruned => str "hub_pruned"
  end.

Definition has_stop (stops : N) (r : StopReason) : bool := negb (N.land stops (stop_bit r) =? 0)%N.

Definition stopReasonNames (stops : N) : list bytes :=
  stopReasonName <$> filter (fun r => has_stop stops r) [PathLimit; DepthLimit; WorkBudget; HubPruned].

Definition kPathSearchDepthCap : N := 1000.

Record SearchLimits := MkLimits {
  maxPaths : N;
  maxDepth : N;
  maxFanIn : N;
  maxWork : N
}.

Inductive CycleRule := SimpleNodes | SimpleEdges.

#[global] Instance CycleRule_eq_dec : EqDecision CycleRule.
Proof. solve_decision. Defined.

Record PathHop := MkHop {
  h_callerUsr : bytes;
  h_calleeUsr : bytes;
  h_caller : bytes;
  h_callee : bytes;
  h_callSite : bytes;
  h_kind : EdgeKind;
  h_confidence : Confidence;
  h_execContext : ExecutionContext;
  h_indirectionDepth : N
}.

#[global] Instance PathHop_eq_dec : EqDecision PathHop.
Proof. solve_decision. Defined.

Record SkippedHub := MkHub {
  hub_usr : bytes;
  hub_name : bytes;
  hub_inDegree : N
}.

Record PathSearchResult := MkResult {
  paths : list (list PathHop);
  skippedHubs : list SkippedHub;
  res_stops : N;
  res_expansions : N;
  targetKnown : bool;
  startKnown : bool
}.

Definition stopped (r : PathSearchResult) (s : StopReason) : bool := has_stop (res_stops r) s.

Definition complete (r : PathSearchResult) : bool :=
  targetKnown r && startKnown r && negb (stopped r PathLimit) &&
  negb (stopped r WorkBudget) && negb (stopped r HubPruned).

Definition exhaustive (r : PathSearchResult) : bool := complete r && (res_stops r =? 0)%N.

(** The exclusion key under [SimpleEdges]. *)
Abbreviation PathEdgeKey := (SId * SId * SId)%type.

Definition edge_key (e : EdgeRef) : PathEdgeKey := (r_caller e, r_callee e, r_callSite e).

Record Search := MkSearch {
  currentPath : list SId;
  currentEdges : list EdgeRef;
  onPath : gset SId;
  onPathEdges : gset PathEdgeKey;
  deadAt : gmap SId N;
  found : list (list EdgeRef);
  hubs : gmap SId N;
  stops : N;
  expansions : N;
  truncated : bool
}.

Definition init_search : Search := MkSearch [] [] ∅ ∅ ∅ [] ∅ 0 0 false.

Definition add_stop (r : StopReason) (st : Search) : Search :=
  MkSearch (currentPath st) (currentEdges st) (onPath st) (onPathEdges st) (deadAt st) (found st)
    (hubs st) (N.lor (stops st) (stop_bit r)) (expansions st) (truncated st).
Definition set_truncated (st : Search) : Search :=
  MkSearch (currentPath st) (currentEdges st) (onPath st) (onPathEdges st) (deadAt st) (found st)
    (hubs st) (stops st) (expansions st) true.
Definition count_expansion (st : Search) : Search :=
  MkSearch (currentPath st) (currentEdges st) (onPath st) (onPathEdges st) (deadAt st) (found st)
    (hubs st) (stops st) (expansions st + 1) (truncated st).
Definition enter_node (node : SId) (st : Search) : Search :=
  MkSearch (currentPath st ++ [node]) (currentEdges st) ({[node]} ∪ onPath st) (onPathEdges st)
    (deadAt st) (found st) (hubs st) (stops st) (expansions st) (truncated st).
Definition leave_node (node : SId) (st : Search) : Search :=
  MkSearch (removelast (currentPath st)) (currentEdges st) (onPath st ∖ {[node]}) (onPathEdges st)
    (deadAt st) (found st) (hubs st) (stops st) (expansions st) (truncated st).
Definition record_path (st : Search) : Search :=
  MkSearch (currentPath st) (currentEdges st) (onPath st) (onPathEdges st) (deadAt st)
    (found st ++ [currentEdges st]) (hubs st) (stops st) (expansions st) (truncated st).
Definition record_hub (node : SId) (deg : N) (st : Search) : Search :=
  MkSearch (currentPath st) (currentEdges st) (onPath st) (onPathEdges st) (deadAt st) (found st)
    (match hubs st !! node with Some _ => hubs st | None => <[node := deg]> (hubs st) end)
    (stops st) (expansions st) (truncated st).
Definition push_edge (e : EdgeRef) (st : Search) : Search :=
  MkSearch (currentPath st) (currentEdges st ++ [e]) (onPath st) (onPathEdges st) (deadAt st)
    (found st) (hubs st) (stops st) (expansions st) (truncated st).
Definition pop_edge (st : Search) : Search :=
  MkSearch (currentPath st) (removelast (currentEdges st)) (onPath st) (onPathEdges st) (deadAt st)
    (found st) (hubs st) (stops st) (expansions st) (truncated st).
Definition set_onPathEdges (v : gset PathEdgeKey) (st : Search) : Search :=
  MkSearch (currentPath st) (currentEdges st) (onPath st) v (deadAt st) (found st)
    (hubs st) (stops st) (expansions st) (truncated st).
Definition set_deadAt (v : gmap SId N) (st : Search) : Search :=
  MkSearch (currentPath st) (currentEdges st) (onPath st) (onPathEdges st) v (found st)
    (hubs st) (stops st) (expansions st) (truncated st).

(** * Canonical order of caller edges *)

(** The comparator of [sortCallerRefsCanonically]. *)
Definition ref_lt (t : StringInterner) (a b : EdgeRef) : bool :=
  if negb (r_caller a =? r_caller b)%N then bytes_ltb (resolve t (r_caller a)) (resolve t (r_caller b))
  else if negb (r_callSite a =? r_callSite b)%N then
    bytes_ltb (resolve t (r_callSite a)) (resolve t (r_callSite b))
  else if negb (bool_decide (r_kind a = r_kind b)) then (kind_code (r_kind a) <? kind_code (r_kind b))%N
  else if negb (bool_decide (r_confidence a = r_confidence b)) then
    (confidence_code (r_confidence a) <? confidence_code (r_confidence b))%N
  else if negb (bool_decide (r_execContext a = r_execContext b)) then
    (exec_code (r_execContext a) <? exec_code (r_execContext b))%N
  else (r_indirectionDepth a <? r_indirectionDepth b)%N.

Definition ref_ngt (t : StringInterner) (a b : EdgeRef) : Prop := ref_lt t b a = false.

#[global] Instance ref_ngt_dec t a b : Decision (ref_ngt t a b).
Proof. unfold ref_ngt. apply _. Defined.

Definition sortCallerRefsCanonically (g : CallGraph) (edges : list EdgeRef) : list EdgeRef :=
  merge_sort (ref_ngt (interner_ g)) edges.

Definition search_callersOf (g : CallGraph) (node : SId) : list EdgeRef :=
  sortCallerRefsCanonically g (callerRefsOf g node).

(** * The walk *)

Section Walk.
Variables (g : CallGraph) (limits : SearchLimits) (cycles : CycleRule).
Variable filter_ : option (EdgeRef -> bool).
Variables (startSet : gset SId) (minFromStart : gmap SId N).

(** [filter && !filter(edge)] is false. *)
Definition admits (e : EdgeRef) : bool := match filter_ with None => true | Some f => f e end.

Definition pathLimitHit (st : Search) : bool :=
  negb (maxPaths limits =? 0)%N && (maxPaths limits <=? N.of_nat (length (found st)))%N.

Definition hasCorridorCaller (node : SId) : bool :=
  existsb (fun edge => admits edge &&
             match minFromStart !! r_caller edge with Some _ => true | None => false end)
    (search_callersOf g node).

Definition kFound : N := 1.
Definition kBlocked : N := 2.

(** The loop over the callers of one node; [rec] is the recursive call. *)
Fixpoint visit_callers (rec : SId -> Search -> Search * N) (depth : N) (callers : list EdgeRef)
    (flags : N) (st : Search) : Search * N :=
  match callers with
  | [] => (st, flags)
  | edge :: rest =>
      if negb (admits edge) then visit_callers rec depth rest flags st
      else
        match minFromStart !! r_caller edge with
        | None => visit_callers rec depth rest flags st
        | Some m =>
            if negb (maxDepth limits =? 0)%N && (maxDepth limits <? m + depth + 1)%N then
              visit_callers rec depth rest flags (add_stop DepthLimit st)
            else
              let key := edge_key edge in
              let excluded :=
                match cycles with
                | SimpleNodes => bool_decide (r_caller edge ∈ onPath st)
                | SimpleEdges => bool_decide (key ∈ onPathEdges st)
                end in
              let st1 :=
                match cycles with
                | SimpleNodes => st
                | SimpleEdges => set_onPathEdges ({[key]} ∪ onPathEdges st) st
                end in
              if excluded then visit_callers rec depth rest (N.lor flags kBlocked) st1
              else
                let '(st2, f) := rec (r_caller edge) (push_edge edge st1) in
                let flags' := N.lor flags f in
                let st3 := pop_edge st2 in
                let st4 :=
                  match cycles with
                  | SimpleNodes => st3
                  | SimpleEdges => set_onPathEdges (onPathEdges st3 ∖ {[key]}) st3
                  end in
                if pathLimitHit st4 then
                  ((match rest with [] => st4 | _ :: _ => set_truncated st4 end),
                   N.lor flags' kBlocked)
                else visit_callers rec depth rest flags' st4
        end
  end.

(** [auto \[it, inserted\] = deadAt.emplace(node, depth); if (!inserted && depth <
    it->second) it->second = depth;] *)
Definition mark_dead (node : SId) (depth : N) (st : Search) : Search :=
  match deadAt st !! node with
  | None => set_deadAt (<[node := depth]> (deadAt st)) st
  | Some d => if (depth <? d)%N then set_deadAt (<[node := depth]> (deadAt st)) st else st
  end.

(** One call of [dfs]; a call at depth [d] recurses only below [maxDepth], so
    [S (maxDepth - d)] units of fuel are enough. *)
Fixpoint dfs (fuel : nat) (node : SId) (depth : N) (st0 : Search) : Search * N :=
  match fuel with
  | O => (st0, 0%N)
  | S fuel' =>
      if pathLimitHit st0 then (set_truncated st0, kBlocked)
      else if negb (maxWork limits =? 0)%N && (maxWork limits <=? expansions st0)%N then
        (add_stop WorkBudget st0, kBlocked)
      else
        let st1 := count_expansion st0 in
        if (match deadAt st1 !! node with Some d => (d <=? depth)%N | None => false end)
        then (st1, 0%N)
        else
          let st2 := enter_node node st1 in
          let reached := bool_decide (node ∈ startSet) && (0 <? depth)%N in
          let st3 := if reached then record_path st2 else st2 in
          let flags := if reached then kFound else 0%N in
          let deg := N.of_nat (storedInDegree g node) in
          let '(st4, flags4) :=
            if negb (maxFanIn limits =? 0)%N && (0 <? depth)%N && (maxFanIn limits <? deg)%N then
              (add_stop HubPruned (record_hub node deg st3), flags)
            else if negb (maxDepth limits =? 0)%N && (maxDepth limits <=? depth)%N then
              ((if hasCorridorCaller node then add_stop DepthLimit st3 else st3), flags)
            else if pathLimitHit st3 then
              ((if hasCorridorCaller node then set_truncated st3 else st3), N.lor flags kBlocked)
            else
              visit_callers (fun c st => dfs fuel' c (depth + 1)%N st) depth (search_callersOf g node)
                flags st3 in
          let st5 := leave_node node st4 in
          if (N.land flags4 (N.lor kFound kBlocked) =? 0)%N
          then (mark_dead node depth st5, flags4)
          else (st5, flags4)
  end.

(** The loop over the targets. *)
Fixpoint search_targets (targets : list SId) (st : Search) : Search :=
  match targets with
  | [] => st
  | t :: rest =>
      if pathLimitHit st then set_truncated st
      else
        match minFromStart !! t with
        | None => search_targets rest st
        | Some m =>
            if negb (maxDepth limits =? 0)%N && (maxDepth limits <? m)%N then
              search_targets rest (add_stop DepthLimit st)
            else search_targets rest (dfs (S (N.to_nat (maxDepth limits))) t 0 st).1
        end
  end.
End Walk.

(** * The corridor *)

Section Corridor.
Variables (g : CallGraph) (filter_ : option (EdgeRef -> bool)).

(** One admitted callee edge: [if (emplace(callee, dist).second) next.push_back(callee)]. *)
Definition corridor_edge (dist : N) (st : gmap SId N * list SId) (edge : EdgeRef)
  : gmap SId N * list SId :=
  if negb (admits filter_ edge) then st
  else
    match st.1 !! r_callee edge with
    | Some _ => st
    | None => (<[r_callee edge := dist]> st.1, st.2 ++ [r_callee edge])
    end.

Definition corridor_node (dist : N) (st : gmap SId N * list SId) (node : SId)
  : gmap SId N * list SId :=
  foldl (corridor_edge dist) st (calleeRefsOf g node).

(** Every round but the last reaches a new callee, and callees are ids of the
    string table: [S (table_size)] rounds are enough. *)
Fixpoint corridor_loop (fuel : nat) (dist : N) (frontier : list SId) (m : gmap SId N)
  : gmap SId N :=
  match fuel, frontier with
  | S fuel', _ :: _ =>
      let '(m', next) := foldl (corridor_node (dist + 1)) (m, []) frontier in
      corridor_loop fuel' (dist + 1) next m'
  | _, _ => m
  end.

Definition corridor (frontier : list SId) : gmap SId N :=
  let m := foldl (fun m s => match m !! s with Some _ => m | None => <[s := 0%N]> m end) ∅ frontier in
  corridor_loop (S (table_size (interner_ g))) 0 frontier m.
End Corridor.

(** * The whole search *)

Section FindPaths.
Context `{UI : !UnorderedIter}.
Variable isValidUtf8 : bytes -> bool.
Variable g : CallGraph.

Definition referenced (id : SId) : bool :=
  match findNode isValidUtf8 g (resolve (interner_ g) id) with
  | Some _ => true
  | None =>
      match callerRefsOf g id, calleeRefsOf g id with
      | [], [] => false
      | _, _ => true
      end
  end.

(** The ids among the usrs that the graph references. *)
Definition known_ids (usrs : list bytes) : list SId :=
  omap (fun u => match find (interner_ g) u with
                 | Some id => if referenced id then Some id else None
                 | None => None
                 end) usrs.

(** [std::unique] on a sorted vector. *)
Fixpoint unique_ids (l : list SId) : list SId :=
  match l with
  | x :: ((y :: _) as rest) => if (x =? y)%N then unique_ids rest else x :: unique_ids rest
  | _ => l
  end.

Definition resolveIds (name : bytes) : list SId :=
  let ids := known_ids (usrsForName isValidUtf8 g name) in
  let ids := match ids with [] => known_ids [name] | _ :: _ => ids end in
  unique_ids (merge_sort N.le ids).

Definition cap_limits (l : SearchLimits) : SearchLimits :=
  if (maxDepth l =? 0)%N || (kPathSearchDepthCap <? maxDepth l)%N
  then MkLimits (maxPaths l) kPathSearchDepthCap (maxFanIn l) (maxWork l)
  else l.

Definition start_set (starts : list bytes) : gset SId :=
  foldl (fun s name => foldl (fun s id => {[id]} ∪ s) s (resolveIds name)) ∅ starts.

(** Targets in usr order. *)
Definition usr_le (a b : SId) : Prop := bytes_le (resolve (interner_ g) a) (resolve (interner_ g) b).

#[local] Instance usr_le_dec a b : Decision (usr_le a b).
Proof. unfold usr_le, bytes_le. apply _. Defined.

Definition ordered_targets (ids : list SId) : list SId := merge_sort usr_le ids.

Definition displayOf (id : SId) : bytes :=
  match findNode isValidUtf8 g (resolve (interner_ g) id) with
  | Some node => qualifiedName node
  | None => resolve (interner_ g) id
  end.

Definition hop_of (e : EdgeRef) : PathHop :=
  MkHop (resolve (interner_ g) (r_caller e)) (resolve (interner_ g) (r_callee e))
    (displayOf (r_caller e)) (displayOf (r_callee e)) (resolve (interner_ g) (r_callSite e))
    (r_kind e) (r_confidence e) (r_execContext e) (r_indirectionDepth e).

Definition hub_le (a b : SkippedHub) : Prop := bytes_le (hub_usr a) (hub_usr b).

#[local] Instance hub_le_dec a b : Decision (hub_le a b).
Proof. unfold hub_le, bytes_le. apply _. Defined.

(** The search itself, on resolved ids. *)
Definition run_search (limits : SearchLimits) (cycles : CycleRule)
    (filter_ : option (EdgeRef -> bool)) (targetIds : list SId) (starts : gset SId) : Search :=
  let m := corridor g filter_ (set_iter starts) in
  let st := search_targets g limits cycles filter_ starts m (ordered_targets targetIds) init_search in
  if truncated st then add_stop PathLimit st else st.

Definition findCallerPaths (target : bytes) (starts : list bytes) (limitsIn : SearchLimits)
    (cycles : CycleRule) (filter_ : option (EdgeRef -> bool)) : PathSearchResult :=
  let limits := cap_limits limitsIn in
  let targetIds := resolveIds target in
  let startSet := start_set starts in
  let targetKnown := negb (bool_decide (targetIds = [])) in
  let startKnown := negb (bool_decide (startSet = ∅)) in
  if negb targetKnown || negb startKnown then MkResult [] [] 0 0 targetKnown startKnown
  else
    let st := run_search limits cycles filter_ targetIds startSet in
    MkResult ((fun edges => hop_of <$> rev edges) <$> found st)
      (merge_sort hub_le
         ((fun '(id, deg) => MkHub (resolve (interner_ g) id) (displayOf id) deg)
            <$> map_iter (hubs st)))
      (stops st) (expansions st) targetKnown startKnown.
End FindPaths.
