(* ===== verification/PathSearchCorrect.v ===== *)
(** Correctness of the path search.

    What is found is a path ([search_sound]); when the search reports no cut it
    has found every path ([search_complete]).  The search relies on the call graph
    only through [GraphViews].

    Where the path search and the edge queries fall short of what is written
    about them: concrete graphs on which the hypotheses of [find_paths_complete]
    fail and a path is missed although the result is exhaustive, and one on which a
    callee query repeats an edge. *)

From S2P Require Import Prelude Registrations Utf8 StringInterner CallGraph CallGraphInv CallGraphQuery PathSearch.

(** * What the search needs of the graph *)

(** The two edge queries are two views of one edge relation over table ids. *)
Class GraphViews (g : CallGraph) : Prop := {
  view_callee : forall v e, e ∈ callerRefsOf g v -> r_callee e = v;
  view_caller : forall u e, e ∈ calleeRefsOf g u -> r_caller e = u;
  view_dual : forall v e, e ∈ callerRefsOf g v ->
    exists e', e' ∈ calleeRefsOf g (r_caller e) /\ r_callee e' = v /\ r_callSite e' = r_callSite e;
  view_known : forall u e, e ∈ calleeRefsOf g u -> known (interner_ g) (r_callee e)
}.

#[global] Instance graph_views_ok g : cg_ok g -> GraphViews g.
Proof.
  intros Hg. split.
  - intros v e He. by apply (callerRefsOf_spec g v Hg).
  - intros u e He. by apply (calleeRefsOf_spec g u Hg).
  - intros v e He. apply (reaches_callees g (r_caller e) v (r_callSite e) Hg).
    apply (reaches_callers g (r_caller e) v (r_callSite e) Hg). by exists e.
  - intros u e He. apply (shown_known g e Hg). by apply (calleeRefsOf_spec g u Hg).
Qed.

(** * Walks *)

Section Walks.
Context (g : CallGraph) (cycles : CycleRule) (filter_ : option (EdgeRef -> bool)).
Context (startSet : gset SId).

(** [walk v es]: the edges [es] lead from [v] up to a caller, nearest edge first. *)
Fixpoint walk (v : SId) (es : list EdgeRef) : Prop :=
  match es with
  | [] => True
  | e :: es' => e ∈ callerRefsOf g v /\ admits filter_ e = true /\ walk (r_caller e) es'
  end.

Fixpoint walk_end (v : SId) (es : list EdgeRef) : SId :=
  match es with [] => v | e :: es' => walk_end (r_caller e) es' end.

(** The cycle rule, on a walk from [t]. *)
Definition simple (t : SId) (es : list EdgeRef) : Prop :=
  match cycles with
  | SimpleNodes => NoDup (t :: (r_caller <$> es))
  | SimpleEdges => NoDup (edge_key <$> es)
  end.

(** A path the search is asked for: a nonempty simple walk of admitted edges from
    the target up to a start. *)
Definition is_path (t : SId) (es : list EdgeRef) : Prop :=
  es <> [] /\ walk t es /\ walk_end t es ∈ startSet /\ simple t es.

Lemma walk_app v a b : walk v (a ++ b) <-> walk v a /\ walk (walk_end v a) b.
Proof. revert v. induction a as [|e a IH]; intros v; simpl; [tauto|]. rewrite IH. tauto. Qed.

Lemma walk_end_app v a b : walk_end v (a ++ b) = walk_end (walk_end v a) b.
Proof. revert v. induction a as [|e a IH]; intros v; simpl; auto. Qed.

Lemma simple_prefix t a b : simple t (a ++ b) -> simple t a.
Proof.
  unfold simple. destruct cycles; rewrite fmap_app; [|by intros [? _]%NoDup_app].
  rewrite app_comm_cons. by intros [? _]%NoDup_app.
Qed.

Lemma path_before t pre : removelast (t :: (r_caller <$> pre)) ++ [walk_end t pre] = t :: (r_caller <$> pre).
Proof.
  revert t. induction pre as [|e pre IH]; intros t; [done|].
  change (removelast (t :: (r_caller <$> e :: pre))) with (t :: removelast (r_caller e :: (r_caller <$> pre))).
  simpl. f_equal. apply (IH (r_caller e)).
Qed.

Lemma path_snoc t pre e :
  removelast (t :: (r_caller <$> pre ++ [e])) = t :: (r_caller <$> pre).
Proof.
  rewrite fmap_app. change (r_caller <$> [e]) with [r_caller e].
  by rewrite app_comm_cons, removelast_last.
Qed.
End Walks.

(** * Flags and stop reasons *)

Lemma has_stop_lor a b r : has_stop (N.lor a b) r = has_stop a r || has_stop b r.
Proof.
  unfold has_stop. rewrite N.land_lor_distr_l.
  destruct (N.eqb_spec (N.lor (N.land a (stop_bit r)) (N.land b (stop_bit r))) 0) as [E|E].
  - apply N.lor_eq_0_iff in E as [-> ->]. done.
  - destruct (N.eqb_spec (N.land a (stop_bit r)) 0) as [E1|]; [|done].
    destruct (N.eqb_spec (N.land b (stop_bit r)) 0) as [E2|]; [|done]. by rewrite E1, E2 in E.
Qed.

Lemma has_stop_bit r r' : has_stop (stop_bit r) r' = bool_decide (r = r').
Proof. by destruct r, r'. Qed.

(** No found and no blocked bit. *)
Definition quiet (flags : N) : Prop := N.land flags (N.lor kFound kBlocked) = 0%N.

Lemma quiet_lor a b : quiet (N.lor a b) <-> quiet a /\ quiet b.
Proof. unfold quiet. rewrite N.land_lor_distr_l. apply N.lor_eq_0_iff. Qed.

(** Truncation and stop reasons are never taken back. *)
Record later (st st' : Search) : Prop := {
  later_truncated : truncated st = true -> truncated st' = true;
  later_stops : forall r, has_stop (stops st) r = true -> has_stop (stops st') r = true;
  later_found : exists new, found st' = found st ++ new
}.

#[global] Instance later_preorder : PreOrder later.
Proof.
  split.
  - intros st. split; [done|done|]. exists []. by rewrite app_nil_r.
  - intros a b c [A1 A2 [n1 E1]] [B1 B2 [n2 E2]]. split; [auto|auto|].
    exists (n1 ++ n2). by rewrite E2, E1, app_assoc.
Qed.

Lemma later_same st st' :
  truncated st' = truncated st -> stops st' = stops st -> found st' = found st -> later st st'.
Proof. intros E1 E2 E3. split; rewrite ?E1, ?E2, ?E3; [done|done|]. exists []. by rewrite app_nil_r. Qed.

Lemma later_stop r st : later st (add_stop r st).
Proof.
  split; simpl; [done| |exists []; by rewrite app_nil_r].
  intros r' H. by rewrite has_stop_lor, H.
Qed.

Lemma later_trunc st : later st (set_truncated st).
Proof. split; simpl; [done|done|]. exists []. by rewrite app_nil_r. Qed.

Lemma later_elem st st' es : later st st' -> es ∈ found st -> es ∈ found st'.
Proof. intros [_ _ [new ->]] H. apply elem_of_app. by left. Qed.

Lemma add_stop_has r st : has_stop (stops (add_stop r st)) r = true.
Proof. simpl. rewrite has_stop_lor, has_stop_bit, bool_decide_true by done. apply orb_true_r. Qed.

(** * Soundness of the walk *)

Section Walk.
Context (g : CallGraph) (limits : SearchLimits) (cycles : CycleRule).
Context (filter_ : option (EdgeRef -> bool)) (startSet : gset SId) (m : gmap SId N).
Context (Hmax : maxDepth limits <> 0%N).

Abbreviation walk := (walk g filter_).
Abbreviation simple := (simple cycles).
Abbreviation is_path := (is_path g cycles filter_ startSet).
Abbreviation dfs := (dfs g limits cycles filter_ startSet m).
Abbreviation visit_callers := (visit_callers limits cycles filter_ m).

Lemma elem_of_callersOf v e : e ∈ search_callersOf g v <-> e ∈ callerRefsOf g v.
Proof. unfold search_callersOf, sortCallerRefsCanonically. by rewrite merge_sort_Permutation. Qed.

(** The stacks: the edges walked and the nodes entered. *)
Record frame (pre : list EdgeRef) (path : list SId) (st : Search) : Prop := {
  fr_edges : currentEdges st = pre;
  fr_path : currentPath st = path;
  fr_nodes : cycles = SimpleNodes -> onPath st = list_to_set path;
  fr_keys : cycles = SimpleEdges -> onPathEdges st = list_to_set (edge_key <$> pre)
}.

(** What is found below a node extends the edges walked so far to a path. *)
Definition finds (t : SId) (pre : list EdgeRef) (st st' : Search) : Prop :=
  exists new, found st' = found st ++ new /\
    forall es, es ∈ new -> (exists es', es = pre ++ es') /\ is_path t es /\
                           (N.of_nat (length es) <= maxDepth limits)%N.

Lemma finds_same t pre st st' : found st' = found st -> finds t pre st st'.
Proof. intros E. exists []. rewrite E, app_nil_r. split; [done|]. by intros es ?%not_elem_of_nil. Qed.

Lemma finds_trans t pre a b c : finds t pre a b -> finds t pre b c -> finds t pre a c.
Proof.
  intros (n1 & E1 & H1) (n2 & E2 & H2). exists (n1 ++ n2). rewrite E2, E1, app_assoc. split; [done|].
  intros es [?|?]%elem_of_app; auto.
Qed.

Lemma finds_shorter t pre e st st' : finds t (pre ++ [e]) st st' -> finds t pre st st'.
Proof.
  intros (n & E & H). exists n. split; [done|]. intros es Hes.
  destruct (H es Hes) as ((es' & ->) & ? & ?). split_and!; [|done|done].
  exists (e :: es'). by rewrite <- app_assoc.
Qed.

(** A prefix the walk stands on. *)
Definition standing (t : SId) (pre : list EdgeRef) (depth : N) : Prop :=
  walk t pre /\ simple t pre /\ depth = N.of_nat (length pre) /\ (depth <= maxDepth limits)%N.

Definition rec_sound (t : SId) (pre : list EdgeRef) (rec : SId -> Search -> Search * N) : Prop :=
  forall e st, standing t (pre ++ [e]) (N.of_nat (S (length pre))) ->
    frame (pre ++ [e]) (t :: (r_caller <$> pre)) st ->
    let st' := (rec (r_caller e) st).1 in
    frame (pre ++ [e]) (t :: (r_caller <$> pre)) st' /\ finds t (pre ++ [e]) st st' /\ later st st'.

(** The edge does not repeat what the path holds. *)
Lemma not_excluded t pre e st :
  simple t pre -> frame pre (t :: (r_caller <$> pre)) st ->
  (match cycles with
   | SimpleNodes => bool_decide (r_caller e ∈ onPath st)
   | SimpleEdges => bool_decide (edge_key e ∈ onPathEdges st)
   end) = false <-> simple t (pre ++ [e]).
Proof.
  intros Hs [F1 F2 F3 F4]. unfold PathSearchCorrect.simple in *. destruct cycles eqn:Ec.
  - rewrite bool_decide_eq_false, F3, elem_of_list_to_set by done.
    rewrite fmap_app. change (r_caller <$> [e]) with [r_caller e].
    rewrite app_comm_cons, NoDup_app. split.
    + intros Hn. split_and!; [done| |apply NoDup_singleton]. by intros x Hx ->%list_elem_of_singleton.
    + intros (_ & Hd & _) Hin. apply (Hd _ Hin). by apply list_elem_of_singleton.
  - rewrite bool_decide_eq_false, F4, elem_of_list_to_set by done.
    rewrite fmap_app, NoDup_app. split.
    + intros Hn. split_and!; [done| |apply NoDup_singleton]. by intros x Hx ->%list_elem_of_singleton.
    + intros (_ & Hd & _) Hin. apply (Hd _ Hin). by apply list_elem_of_singleton.
Qed.

(** Around a recursive call: the key and the edge are pushed, then popped. *)
Definition before_call (e : EdgeRef) (st : Search) : Search :=
  push_edge e (match cycles with
               | SimpleNodes => st
               | SimpleEdges => set_onPathEdges ({[edge_key e]} ∪ onPathEdges st) st
               end).

Definition after_call (e : EdgeRef) (st : Search) : Search :=
  match cycles with
  | SimpleNodes => pop_edge st
  | SimpleEdges => set_onPathEdges (onPathEdges (pop_edge st) ∖ {[edge_key e]}) (pop_edge st)
  end.

Lemma frame_before t pre e st :
  frame pre (t :: (r_caller <$> pre)) st -> frame (pre ++ [e]) (t :: (r_caller <$> pre)) (before_call e st).
Proof.
  intros [F1 F2 F3 F4]. unfold before_call. split; destruct cycles eqn:Ec; simpl; try done.
  - by rewrite F1.
  - by rewrite F1.
  - intros _. rewrite F4, fmap_app, list_to_set_app_L by done. simpl. set_solver.
Qed.

Lemma frame_after t pre e st :
  simple t (pre ++ [e]) ->
  frame (pre ++ [e]) (t :: (r_caller <$> pre)) st -> frame pre (t :: (r_caller <$> pre)) (after_call e st).
Proof.
  intros Hs [F1 F2 F3 F4]. unfold after_call. split; destruct cycles eqn:Ec; simpl; try done.
  - by rewrite F1, removelast_last.
  - by rewrite F1, removelast_last.
  - intros _. rewrite F4, fmap_app, list_to_set_app_L by done. simpl.
    unfold PathSearchCorrect.simple in Hs. rewrite fmap_app, NoDup_app in Hs. destruct Hs as (_ & Hd & _).
    assert (Hn : edge_key e ∉ edge_key <$> pre).
    { intros Hin. apply (Hd _ Hin). by apply list_elem_of_singleton. }
    clear -Hn. generalize dependent (edge_key <$> pre). intros l Hn. set_solver.
Qed.

Lemma before_later e st : later st (before_call e st).
Proof. unfold before_call. by destruct cycles; apply later_same. Qed.

Lemma after_later e st : later st (after_call e st).
Proof. unfold after_call. by destruct cycles; apply later_same. Qed.

Lemma before_found e st : found (before_call e st) = found st.
Proof. unfold before_call. by destruct cycles. Qed.

Lemma after_found e st : found (after_call e st) = found st.
Proof. unfold after_call. by destruct cycles. Qed.

Definition excluded (e : EdgeRef) (st : Search) : bool :=
  match cycles with
  | SimpleNodes => bool_decide (r_caller e ∈ onPath st)
  | SimpleEdges => bool_decide (edge_key e ∈ onPathEdges st)
  end.

(** One round of the loop over callers. *)
Lemma visit_cons rec depth e rest flags st :
  visit_callers rec depth (e :: rest) flags st =
  if negb (admits filter_ e) then visit_callers rec depth rest flags st
  else
    match m !! r_caller e with
    | None => visit_callers rec depth rest flags st
    | Some k =>
        if (maxDepth limits <? k + depth + 1)%N then
          visit_callers rec depth rest flags (add_stop DepthLimit st)
        else if excluded e st then visit_callers rec depth rest (N.lor flags kBlocked) st
        else
          let '(st2, f) := rec (r_caller e) (before_call e st) in
          if pathLimitHit limits (after_call e st2) then
            ((match rest with [] => after_call e st2 | _ :: _ => set_truncated (after_call e st2) end),
             N.lor (N.lor flags f) kBlocked)
          else visit_callers rec depth rest (N.lor flags f) (after_call e st2)
    end.
Proof.
  cbn [PathSearch.visit_callers]. destruct (admits filter_ e); [|done]. simpl negb. cbn iota.
  destruct (m !! r_caller e) as [k|]; [|done].
  destruct (N.eqb_spec (maxDepth limits) 0) as [|_]; [done|]. simpl andb.
  destruct (maxDepth limits <? k + depth + 1)%N; [done|].
  unfold excluded, before_call, after_call. destruct cycles; [done|].
  destruct (bool_decide (edge_key e ∈ onPathEdges st)) eqn:Ek; [|done].
  apply bool_decide_eq_true in Ek. f_equal. destruct st; unfold set_onPathEdges; simpl in *. f_equal.
  apply set_eq. intros x. rewrite elem_of_union, elem_of_singleton. split; [|by right].
  by intros [->|?].
Qed.

Lemma standing_snoc t pre depth e k :
  standing t pre depth -> e ∈ callerRefsOf g (walk_end t pre) -> admits filter_ e = true ->
  (maxDepth limits <? k + depth + 1)%N = false -> simple t (pre ++ [e]) ->
  standing t (pre ++ [e]) (N.of_nat (S (length pre))).
Proof.
  intros (H1 & H2 & -> & H4) He Ha Hlt Hs. apply N.ltb_ge in Hlt.
  split_and!; [apply walk_app; simpl; auto|done|rewrite length_app; simpl; lia|lia].
Qed.

Lemma visit_sound t pre depth rec callers flags st :
  standing t pre depth -> rec_sound t pre rec ->
  (forall e, e ∈ callers -> e ∈ callerRefsOf g (walk_end t pre)) ->
  frame pre (t :: (r_caller <$> pre)) st ->
  let st' := (visit_callers rec depth callers flags st).1 in
  frame pre (t :: (r_caller <$> pre)) st' /\ finds t pre st st' /\ later st st'.
Proof.
  intros Hst Hrec. revert flags st. induction callers as [|e rest IH]; intros flags st Hin Hf.
  { split_and!; [done|by apply finds_same|done]. }
  assert (Hrest : forall x, x ∈ rest -> x ∈ callerRefsOf g (walk_end t pre)).
  { intros x Hx. apply Hin. by right. }
  cbv zeta. rewrite visit_cons. destruct (admits filter_ e) eqn:Ea; simpl negb; cbn iota; [|by apply IH].
  destruct (m !! r_caller e) as [k|]; [|by apply IH].
  destruct (maxDepth limits <? k + depth + 1)%N eqn:Ed.
  { destruct (IH flags (add_stop DepthLimit st) Hrest) as (J1 & J2 & J3); [by destruct Hf|].
    split_and!; [done|done|etrans; [apply later_stop|done]]. }
  destruct (excluded e st) eqn:Ex; [by apply IH|].
  apply (not_excluded t pre e st) in Ex; [|apply Hst|done].
  assert (Hst' : standing t (pre ++ [e]) (N.of_nat (S (length pre)))).
  { by eapply standing_snoc; [|apply Hin; left|..]. }
  destruct (Hrec e (before_call e st) Hst' (frame_before t pre e st Hf)) as (K1 & K2 & K3).
  destruct (rec (r_caller e) (before_call e st)) as [st2 f]. simpl in K1, K2, K3.
  apply (frame_after t pre e st2 Ex) in K1 as K1'.
  assert (K2' : finds t pre st (after_call e st2)).
  { destruct (finds_shorter _ _ _ _ _ K2) as (new & E & Hnew). exists new.
    by rewrite after_found, E, before_found. }
  assert (K3' : later st (after_call e st2)).
  { etrans; [apply (before_later e)|]. etrans; [done|apply after_later]. }
  destruct (pathLimitHit limits (after_call e st2)).
  - simpl. destruct rest; [done|]. split_and!.
    + by destruct K1'.
    + destruct K2' as (new & E & Hnew). by exists new.
    + etrans; [done|apply later_trunc].
  - destruct (IH (N.lor flags f) (after_call e st2) Hrest K1') as (J1 & J2 & J3).
    split_and!; [done|by eapply finds_trans|by etrans].
Qed.

(** Entering and leaving a node. *)
Lemma frame_enter t pre st :
  frame pre (removelast (t :: (r_caller <$> pre))) st ->
  frame pre (t :: (r_caller <$> pre)) (enter_node (walk_end t pre) st).
Proof.
  intros [F1 F2 F3 F4]. split; simpl; [done| | |done].
  - by rewrite F2, path_before.
  - intros Ec. rewrite F3 by done.
    transitivity (list_to_set (removelast (t :: (r_caller <$> pre)) ++ [walk_end t pre]) : gset SId);
      [|by rewrite path_before].
    rewrite list_to_set_app_L. generalize (removelast (t :: (r_caller <$> pre))). set_solver.
Qed.

Lemma frame_leave t pre st :
  simple t pre -> frame pre (t :: (r_caller <$> pre)) st ->
  frame pre (removelast (t :: (r_caller <$> pre))) (leave_node (walk_end t pre) st).
Proof.
  intros Hs [F1 F2 F3 F4].
  split; unfold leave_node; cbn [currentEdges currentPath onPath onPathEdges]; [done|by rewrite F2| |done].
  intros Ec. rewrite F3 by done. unfold PathSearchCorrect.simple in Hs. rewrite Ec in Hs.
  rewrite <- (path_before t pre) in Hs.
  transitivity ((list_to_set (removelast (t :: (r_caller <$> pre)) ++ [walk_end t pre]) : gset SId)
                  ∖ {[walk_end t pre]}); [by rewrite path_before|]. clear -Hs.
  generalize dependent (removelast (t :: (r_caller <$> pre))). generalize (walk_end t pre) as w.
  intros w l (_ & Hd & _)%NoDup_app. assert (Hn : w ∉ l).
  { intros Hin. apply (Hd _ Hin). by apply list_elem_of_singleton. }
  apply set_eq. intros x.
  rewrite elem_of_difference, !elem_of_list_to_set, elem_of_app, list_elem_of_singleton, elem_of_singleton.
  split; [intros [[?|?] ?]; [done|congruence]|]. intros Hx. split; [by left|]. by intros ->.
Qed.

Lemma quiet_dec flags : (N.land flags (N.lor kFound kBlocked) =? 0)%N = true <-> quiet flags.
Proof. apply N.eqb_eq. Qed.

Lemma mark_dead_frame node depth pre path st :
  frame pre path st -> frame pre path (mark_dead node depth st).
Proof.
  intros [F1 F2 F3 F4]. unfold mark_dead. destruct (deadAt st !! node) as [d|]; [|by split].
  destruct (depth <? d)%N; by split.
Qed.

Lemma mark_dead_same node depth st :
  found (mark_dead node depth st) = found st /\ stops (mark_dead node depth st) = stops st /\
  truncated (mark_dead node depth st) = truncated st.
Proof.
  unfold mark_dead. destruct (deadAt st !! node) as [d|]; [|done]. by destruct (depth <? d)%N.
Qed.

(** The body of a call between entering and leaving the node. *)
Definition explore (fuel : nat) (node : SId) (depth : N) (st3 : Search) (flags : N) : Search * N :=
  let deg := N.of_nat (storedInDegree g node) in
  if negb (maxFanIn limits =? 0)%N && (0 <? depth)%N && (maxFanIn limits <? deg)%N then
    (add_stop HubPruned (record_hub node deg st3), flags)
  else if (maxDepth limits <=? depth)%N then
    ((if hasCorridorCaller g filter_ m node then add_stop DepthLimit st3 else st3), flags)
  else if pathLimitHit limits st3 then
    ((if hasCorridorCaller g filter_ m node then set_truncated st3 else st3), N.lor flags kBlocked)
  else visit_callers (fun c st => dfs fuel c (depth + 1)%N st) depth (search_callersOf g node) flags st3.

Definition entered (node : SId) (depth : N) (st0 : Search) : Search * N :=
  let st2 := enter_node node (count_expansion st0) in
  if bool_decide (node ∈ startSet) && (0 <? depth)%N then (record_path st2, kFound) else (st2, 0%N).

Lemma dfs_eq fuel node depth st0 :
  dfs (S fuel) node depth st0 =
  if pathLimitHit limits st0 then (set_truncated st0, kBlocked)
  else if negb (maxWork limits =? 0)%N && (maxWork limits <=? expansions st0)%N then
    (add_stop WorkBudget st0, kBlocked)
  else if (match deadAt st0 !! node with Some d => (d <=? depth)%N | None => false end)
  then (count_expansion st0, 0%N)
  else
    let '(st3, flags) := entered node depth st0 in
    let '(st4, flags4) := explore fuel node depth st3 flags in
    if (N.land flags4 (N.lor kFound kBlocked) =? 0)%N
    then (mark_dead node depth (leave_node node st4), flags4)
    else (leave_node node st4, flags4).
Proof.
  cbn [PathSearch.dfs]. unfold entered, explore.
  destruct (pathLimitHit limits st0); [done|].
  destruct (negb (maxWork limits =? 0)%N && (maxWork limits <=? expansions st0)%N); [done|].
  simpl deadAt. destruct (match deadAt st0 !! node with Some d => (d <=? depth)%N | None => false end); [done|].
  destruct (N.eqb_spec (maxDepth limits) 0) as [|_]; [done|]. cbn [negb andb].
  by destruct (bool_decide (node ∈ startSet) && (0 <? depth)%N).
Qed.

Lemma explore_sound fuel t pre depth flags st :
  standing t pre depth ->
  (depth < maxDepth limits -> rec_sound t pre (fun c st => dfs fuel c (depth + 1)%N st))%N ->
  frame pre (t :: (r_caller <$> pre)) st ->
  let st' := (explore fuel (walk_end t pre) depth st flags).1 in
  frame pre (t :: (r_caller <$> pre)) st' /\ finds t pre st st' /\ later st st'.
Proof.
  intros Hst Hrec Hf. unfold explore. cbv zeta.
  destruct (_ && _ && _); simpl.
  { split_and!; [by destruct Hf|by apply finds_same|]. etrans; [|apply later_stop].
    by apply later_same. }
  destruct (N.leb_spec (maxDepth limits) depth) as [Hge|Hlt]; simpl.
  { destruct (hasCorridorCaller g filter_ m (walk_end t pre));
      (split_and!; [by destruct Hf|by apply finds_same|apply later_stop || done]). }
  destruct (pathLimitHit limits st); simpl.
  { destruct (hasCorridorCaller g filter_ m (walk_end t pre));
      (split_and!; [by destruct Hf|by apply finds_same|apply later_trunc || done]). }
  apply visit_sound; [done|by apply Hrec| |done]. intros e. by rewrite elem_of_callersOf.
Qed.

Lemma entered_sound t pre depth st :
  standing t pre depth -> frame pre (removelast (t :: (r_caller <$> pre))) st ->
  let st' := (entered (walk_end t pre) depth st).1 in
  frame pre (t :: (r_caller <$> pre)) st' /\ finds t pre st st' /\ later st st'.
Proof.
  intros (H1 & H2 & -> & H4) Hf. unfold entered. cbv zeta.
  assert (Hf' : frame pre (t :: (r_caller <$> pre)) (enter_node (walk_end t pre) (count_expansion st))).
  { apply frame_enter. by destruct Hf. }
  destruct (bool_decide (walk_end t pre ∈ startSet) && (0 <? N.of_nat (length pre))%N) eqn:E; simpl.
  - apply andb_true_iff in E as [Es%bool_decide_eq_true Ed%N.ltb_lt]. split_and!.
    + by destruct Hf'.
    + exists [currentEdges st]. split; [done|]. intros es ->%list_elem_of_singleton.
      rewrite (fr_edges _ _ _ Hf). split_and!; [by exists []; rewrite app_nil_r| |done].
      split_and!; [by intros ->|done|done|done].
    + split; simpl; [done|done|]. by eexists.
  - split_and!; [done|by apply finds_same|by apply later_same].
Qed.

(** A call leaves the stacks as it found them and finds only paths. *)
Lemma dfs_sound fuel t pre depth st :
  standing t pre depth -> (N.to_nat (maxDepth limits - depth) < fuel) ->
  frame pre (removelast (t :: (r_caller <$> pre))) st ->
  let st' := (dfs fuel (walk_end t pre) depth st).1 in
  frame pre (removelast (t :: (r_caller <$> pre))) st' /\ finds t pre st st' /\ later st st'.
Proof.
  revert pre depth st. induction fuel as [|fuel IH]; intros pre depth st Hst Hfuel Hf; [lia|].
  cbv zeta. rewrite dfs_eq. destruct (pathLimitHit limits st).
  { split_and!; [by destruct Hf|by apply finds_same|apply later_trunc]. }
  destruct (negb _ && _).
  { split_and!; [by destruct Hf|by apply finds_same|apply later_stop]. }
  destruct (match deadAt st !! walk_end t pre with Some d => (d <=? depth)%N | None => false end).
  { split_and!; [by destruct Hf|by apply finds_same|by apply later_same]. }
  destruct (entered_sound t pre depth st Hst Hf) as (A1 & A2 & A3).
  destruct (entered (walk_end t pre) depth st) as [st3 flags]. simpl in A1, A2, A3.
  destruct (explore_sound fuel t pre depth flags st3 Hst) as (B1 & B2 & B3); [|done|].
  { intros Hlt e st1 Hst1 Hf1.
    replace (r_caller e) with (walk_end t (pre ++ [e])) by (by rewrite walk_end_app).
    rewrite <- (path_snoc t pre e) in Hf1 |- *. destruct Hst as (_ & _ & Hd & _).
    replace (depth + 1)%N with (N.of_nat (S (length pre))) by lia.
    apply (IH (pre ++ [e])); [done|lia|done]. }
  destruct (explore fuel (walk_end t pre) depth st3 flags) as [st4 flags4]. simpl in B1, B2, B3.
  assert (C1 : frame pre (removelast (t :: (r_caller <$> pre))) (leave_node (walk_end t pre) st4)).
  { apply frame_leave; [apply Hst|done]. }
  assert (C2 : finds t pre st (leave_node (walk_end t pre) st4)) by by eapply finds_trans.
  assert (C3 : later st (leave_node (walk_end t pre) st4)).
  { etrans; [done|]. etrans; [done|]. by apply later_same. }
  destruct (_ =? 0)%N; [|done]. cbn [fst].
  destruct (mark_dead_same (walk_end t pre) depth (leave_node (walk_end t pre) st4)) as (D1 & D2 & D3).
  split_and!; [by apply mark_dead_frame| |etrans; [done|by apply later_same]].
  eapply finds_trans; [done|by apply finds_same].
Qed.

(** * Completeness of the walk *)

(** [ndl]: the search is known to end without [DepthLimit], so that lengths do
    not matter; otherwise only paths within the depth bound are promised. *)
Context (ndl : bool).

Definition bounded (n : N) : Prop := ndl = true \/ (n <= maxDepth limits)%N.

(** No cut happened that could hide a promised path. *)
Definition clean (st : Search) : Prop :=
  truncated st = false /\ has_stop (stops st) WorkBudget = false /\
  has_stop (stops st) HubPruned = false /\ (ndl = true -> has_stop (stops st) DepthLimit = false).

Lemma clean_later st st' : later st st' -> clean st' -> clean st.
Proof.
  intros [L1 L2 _] (C1 & C2 & C3 & C4).
  assert (Hf : forall a b, (a = true -> b = true) -> b = false -> a = false) 
    by (intros [] [] H1 H2; try done; by specialize (H1 eq_refl)).
  split_and!; [| | |intros Hn; specialize (C4 Hn)]; eapply Hf; eauto.
Qed.

Lemma clean_stop st r : clean (add_stop r st) -> r <> WorkBudget /\ r <> HubPruned /\ (ndl = true -> r <> DepthLimit).
Proof.
  intros (_ & C2 & C3 & C4). pose proof (add_stop_has r st) as H.
  split_and!; [intros ->|intros ->|intros Hn ->; specialize (C4 Hn)]; congruence.
Qed.

Lemma clean_trunc st : ~ clean (set_truncated st).
Proof. by intros [? _]. Qed.

(** No walk from [n], entered at depth [d], leads to a start within bounds. *)
Definition dead (n : SId) (d : N) : Prop :=
  forall es, walk n es -> walk_end n es ∈ startSet -> ~ bounded (d + N.of_nat (length es)).

Definition memo_ok (st : Search) : Prop := forall n d, deadAt st !! n = Some d -> dead n d.

Lemma dead_deeper n d d' : (d <= d')%N -> dead n d -> dead n d'.
Proof. intros Hd H es Hw He Hb. apply (H es Hw He). unfold bounded in *. intuition lia. Qed.

(** The corridor covers every node a start reaches, at most as far as the walk. *)
Context (Hcorridor : forall v es, walk v es -> walk_end v es ∈ startSet ->
  exists d, m !! v = Some d /\ (d <= N.of_nat (length es))%N).

Lemma corridor_caller v e es :
  e ∈ callerRefsOf g v -> admits filter_ e = true -> walk (r_caller e) es ->
  walk_end (r_caller e) es ∈ startSet -> hasCorridorCaller g filter_ m v = true.
Proof.
  intros He Ha Hw Hend. unfold hasCorridorCaller. apply existsb_exists. exists e. split.
  - apply list_elem_of_In. by apply elem_of_callersOf.
  - rewrite Ha. destruct (Hcorridor _ _ Hw Hend) as (d & -> & _). done.
Qed.

(** What a call owes: every promised path below it is found, and quiet flags mean
    there is none. *)
Definition owes (t : SId) (pre : list EdgeRef) (ok : list EdgeRef -> Prop) (st' : Search) (flags : N) : Prop :=
  (forall es, ok es -> walk (walk_end t pre) es -> walk_end t (pre ++ es) ∈ startSet ->
     simple t (pre ++ es) -> bounded (N.of_nat (length (pre ++ es))) -> pre ++ es ∈ found st') /\
  (quiet flags -> forall es, ok es -> walk (walk_end t pre) es -> walk_end t (pre ++ es) ∈ startSet ->
     ~ bounded (N.of_nat (length (pre ++ es)))).

Definition rec_complete (t : SId) (pre : list EdgeRef) (rec : SId -> Search -> Search * N) : Prop :=
  forall e st, standing t (pre ++ [e]) (N.of_nat (S (length pre))) ->
    frame (pre ++ [e]) (t :: (r_caller <$> pre)) st -> memo_ok st ->
    let r := rec (r_caller e) st in
    clean r.1 -> owes t (pre ++ [e]) (fun _ => True) r.1 r.2 /\ memo_ok r.1.

(** The continuations that start with one of the listed edges. *)
Definition through (callers : list EdgeRef) (es : list EdgeRef) : Prop :=
  match es with [] => False | e :: _ => e ∈ callers end.

Lemma owes_cons_skip t pre e rest st flags :
  (forall es, walk (walk_end t pre) (e :: es) -> walk_end t (pre ++ e :: es) ∈ startSet ->
     bounded (N.of_nat (length (pre ++ e :: es))) -> False) ->
  owes t pre (through rest) st flags -> owes t pre (through (e :: rest)) st flags.
Proof.
  intros Hno [H1 H2]. split.
  - intros [|x es] Hthr Hw Hend Hs Hb; [done|]. apply elem_of_cons in Hthr as [->|Hin].
    + exfalso. by eapply Hno.
    + by apply H1.
  - intros Hq [|x es] Hthr Hw Hend Hb; [done|]. apply elem_of_cons in Hthr as [->|Hin].
    + by eapply Hno.
    + by eapply (H2 Hq (x :: es)).
Qed.

Lemma owes_later t pre ok st st' flags : later st st' -> owes t pre ok st flags -> owes t pre ok st' flags.
Proof. intros Hl [H1 H2]. split; [|done]. intros. eapply later_elem; [done|]. by apply H1. Qed.

(** Paths through the edge just explored. *)
Lemma owes_cons_explored t pre e rest st2 f st flags :
  owes t (pre ++ [e]) (fun _ => True) st2 f -> (quiet flags -> quiet f) ->
  (forall es, es ∈ found st2 -> es ∈ found st) ->
  owes t pre (through rest) st flags -> owes t pre (through (e :: rest)) st flags.
Proof.
  intros [R1 R2] Hq Hfound [H1 H2].
  assert (Hw' : forall es, walk (walk_end t pre) (e :: es) -> walk (walk_end t (pre ++ [e])) es).
  { intros es (_ & _ & Hw). by rewrite walk_end_app. }
  assert (Eapp : forall es, pre ++ e :: es = (pre ++ [e]) ++ es) by (intros; by rewrite <- app_assoc).
  split.
  - intros [|x es] Hthr Hw Hend Hs Hb; [done|]. apply elem_of_cons in Hthr as [->|Hin]; [|by apply H1].
    rewrite (Eapp es) in *. apply Hfound, R1; auto.
  - intros Hqf [|x es] Hthr Hw Hend Hb; [done|].
    apply elem_of_cons in Hthr as [->|Hin]; [|by eapply (H2 Hqf (x :: es))].
    rewrite (Eapp es) in *. by eapply (R2 (Hq Hqf) es); auto.
Qed.

Lemma owes_nil t pre st flags : owes t pre (through []) st flags.
Proof.
  assert (Hno : forall es, ~ through [] es) by (intros [|e es]; simpl; [tauto|apply not_elem_of_nil]).
  split; [intros es Hes|intros _ es Hes]; by destruct (Hno es).
Qed.

Lemma visit_complete t pre depth rec callers flags st :
  standing t pre depth -> rec_sound t pre rec -> rec_complete t pre rec ->
  (forall e, e ∈ callers -> e ∈ callerRefsOf g (walk_end t pre)) ->
  frame pre (t :: (r_caller <$> pre)) st -> memo_ok st ->
  let r := visit_callers rec depth callers flags st in
  clean r.1 -> owes t pre (through callers) r.1 r.2 /\ memo_ok r.1 /\ (quiet r.2 -> quiet flags).
Proof.
  intros Hst Hrs Hrc. revert flags st. induction callers as [|e rest IH]; intros flags st Hin Hf Hm.
  { intros r _. split_and!; [apply owes_nil|done|done]. }
  assert (Hrest : forall x, x ∈ rest -> x ∈ callerRefsOf g (walk_end t pre)).
  { intros x Hx. apply Hin. by right. }
  assert (Hd : depth = N.of_nat (length pre)) by apply Hst.
  cbv zeta. rewrite visit_cons. destruct (admits filter_ e) eqn:Ea; simpl negb; cbn iota.
  2: { intros Hc. destruct (IH flags st Hrest Hf Hm Hc) as (J1 & J2 & J3). split_and!; [|done|done].
       apply owes_cons_skip; [|done]. intros es (_ & Ha & _). congruence. }
  assert (Hcov : forall es, walk (walk_end t pre) (e :: es) -> walk_end t (pre ++ e :: es) ∈ startSet ->
    exists d, m !! r_caller e = Some d /\ (d <= N.of_nat (length es))%N).
  { intros es (_ & _ & Hw) Hend. rewrite walk_end_app in Hend. by apply Hcorridor. }
  destruct (m !! r_caller e) as [k|] eqn:Em.
  2: { intros Hc. destruct (IH flags st Hrest Hf Hm Hc) as (J1 & J2 & J3). split_and!; [|done|done].
       apply owes_cons_skip; [|done]. intros es Hw Hend _. by destruct (Hcov es Hw Hend) as (? & ? & _). }
  destruct (maxDepth limits <? k + depth + 1)%N eqn:Ed.
  { intros Hc.
    destruct (visit_sound t pre depth rec rest flags (add_stop DepthLimit st) Hst Hrs Hrest)
      as (_ & _ & Hl); [by destruct Hf|].
    destruct (IH flags (add_stop DepthLimit st) Hrest) as (J1 & J2 & J3); [by destruct Hf|done|done|].
    split_and!; [|done|done]. apply owes_cons_skip; [|done]. intros es Hw Hend [Hn|Hb].
    - apply (clean_later _ _ Hl), clean_stop in Hc as (_ & _ & Hx). by apply Hx.
    - destruct (Hcov es Hw Hend) as (d & [= <-] & Hle). apply N.ltb_lt in Ed.
      rewrite length_app in Hb. simpl in Hb. lia. }
  destruct (excluded e st) eqn:Ex.
  { intros Hc. destruct (IH (N.lor flags kBlocked) st Hrest Hf Hm Hc) as ([J1 J1'] & J2 & J3).
    assert (Hnq : ~ quiet (visit_callers rec depth rest (N.lor flags kBlocked) st).2).
    { intros Hq. by apply J3, quiet_lor in Hq as [_ ?]. }
    split_and!; [|done|tauto]. split; [|tauto].
    intros [|x es] Hthr Hw Hend Hs Hb; [done|]. apply elem_of_cons in Hthr as [->|Hi]; [|by apply J1].
    exfalso. rewrite cons_middle, app_assoc in Hs. apply simple_prefix in Hs.
    apply (not_excluded t pre e st) in Hs; [|apply Hst|done]. unfold excluded in Ex. congruence. }
  apply (not_excluded t pre e st) in Ex; [|apply Hst|done].
  assert (Hst' : standing t (pre ++ [e]) (N.of_nat (S (length pre)))).
  { by eapply standing_snoc; [|apply Hin; left|..]. }
  pose proof (frame_before t pre e st Hf) as Hfb.
  destruct (Hrs e (before_call e st) Hst' Hfb) as (K1 & _ & _).
  assert (Hmb : memo_ok (before_call e st)) by (unfold before_call; by destruct cycles).
  specialize (Hrc e (before_call e st) Hst' Hfb Hmb).
  destruct (rec (r_caller e) (before_call e st)) as [st2 f]. simpl in K1, Hrc.
  apply (frame_after t pre e st2 Ex) in K1 as K1'.
  destruct (pathLimitHit limits (after_call e st2)).
  - destruct rest as [|y rest]; [|by intros Hc%clean_trunc]. intros Hc. simpl in Hc |- *.
    destruct Hrc as [R1 R2]; [eapply clean_later; [apply after_later|done]|].
    assert (Hnq : ~ quiet (N.lor (N.lor flags f) kBlocked)) by (by intros [_ ?]%quiet_lor).
    split_and!; [|unfold after_call; by destruct cycles|tauto].
    eapply owes_cons_explored; [done|tauto| |apply owes_nil]. intros es. by rewrite after_found.
  - intros Hc.
    destruct (visit_sound t pre depth rec rest (N.lor flags f) (after_call e st2) Hst Hrs Hrest K1')
      as (_ & _ & Hl).
    destruct Hrc as [R1 R2].
    { eapply clean_later; [apply (after_later e)|]. by eapply clean_later. }
    destruct (IH (N.lor flags f) (after_call e st2) Hrest K1') as (J1 & J2 & J3); [|done|].
    { unfold after_call. by destruct cycles. }
    split_and!; [|done|intros Hq; by apply J3, quiet_lor in Hq as [? _]].
    eapply owes_cons_explored; [done| | |done].
    + intros Hq. by apply J3, quiet_lor in Hq as [_ ?].
    + intros es Hes. eapply later_elem; [done|]. by rewrite after_found.
Qed.

Lemma no_corridor t pre es :
  hasCorridorCaller g filter_ m (walk_end t pre) = false -> es <> [] ->
  walk (walk_end t pre) es -> walk_end t (pre ++ es) ∈ startSet -> False.
Proof.
  intros Hno Hne Hw Hend. destruct es as [|e es]; [done|]. destruct Hw as (He & Ha & Hw).
  rewrite walk_end_app in Hend. pose proof (corridor_caller _ _ _ He Ha Hw Hend). congruence.
Qed.

Lemma explore_complete fuel t pre depth flags st :
  standing t pre depth ->
  (depth < maxDepth limits -> rec_sound t pre (fun c st => dfs fuel c (depth + 1)%N st) /\
                              rec_complete t pre (fun c st => dfs fuel c (depth + 1)%N st))%N ->
  frame pre (t :: (r_caller <$> pre)) st -> memo_ok st ->
  let r := explore fuel (walk_end t pre) depth st flags in
  clean r.1 ->
  owes t pre (fun es => es <> []) r.1 r.2 /\ memo_ok r.1 /\ (quiet r.2 -> quiet flags).
Proof.
  intros Hst Hrec Hf Hm. assert (Hd : depth = N.of_nat (length pre)) by apply Hst.
  unfold explore. cbv zeta. destruct (negb (maxFanIn limits =? 0)%N && _ && _); simpl.
  { intros (_ & _ & Hh & _). pose proof (add_stop_has HubPruned
      (record_hub (walk_end t pre) (N.of_nat (storedInDegree g (walk_end t pre))) st)). congruence. }
  destruct (N.leb_spec (maxDepth limits) depth) as [Hge|Hlt]; simpl.
  { destruct (hasCorridorCaller g filter_ m (walk_end t pre)) eqn:Ec; intros Hc; (split_and!; [|done|done]).
    - assert (Hno : forall es, es <> [] -> ~ bounded (N.of_nat (length (pre ++ es)))).
      { intros es Hne [Hn|Hb]; [by apply clean_stop in Hc as (_ & _ & Hx); apply Hx|].
        rewrite length_app in Hb. destruct es; [done|]. simpl in Hb. lia. }
      split; [intros es Hne _ _ _ Hb; by destruct (Hno es Hne)|intros _ es Hne _ _; by apply Hno].
    - split; [intros es Hne Hw Hend|intros _ es Hne Hw Hend _]; [exfalso|]; by eapply no_corridor. }
  destruct (pathLimitHit limits st); simpl.
  { assert (Hnq : ~ quiet (N.lor flags kBlocked)) by (by intros [_ ?]%quiet_lor).
    destruct (hasCorridorCaller g filter_ m (walk_end t pre)) eqn:Ec; [by intros ?%clean_trunc|].
    intros Hc. split_and!; [|done|tauto].
    split; [intros es Hne Hw Hend|tauto]. exfalso. by eapply no_corridor. }
  intros Hc. destruct (Hrec Hlt) as [Hrs Hrc].
  destruct (visit_complete t pre depth _ (search_callersOf g (walk_end t pre)) flags st Hst Hrs Hrc)
    as ([J1 J1'] & J2 & J3); [intros e; by rewrite elem_of_callersOf|done|done|done|].
  assert (Hthr : forall es, es <> [] -> walk (walk_end t pre) es -> through (search_callersOf g (walk_end t pre)) es).
  { intros [|e es] Hne Hw; [done|]. simpl. apply elem_of_callersOf, Hw. }
  split_and!; [|done|done]. split; [intros es Hne Hw|intros Hq es Hne Hw]; auto.
Qed.

Lemma mark_dead_memo node depth st :
  memo_ok st -> dead node depth -> memo_ok (mark_dead node depth st).
Proof.
  intros Hm Hd n d. unfold mark_dead.
  assert (Hi : deadAt (set_deadAt (<[node := depth]> (deadAt st)) st) !! n = Some d -> dead n d).
  { simpl. rewrite lookup_insert. case_decide; [|by apply Hm]. intros [= <-]. by subst n. }
  destruct (deadAt st !! node) as [x|]; [|done]. destruct (depth <? x)%N; [done|apply Hm].
Qed.

(** A call that is not cut finds every promised path below it. *)
Lemma dfs_complete fuel t pre depth st :
  standing t pre depth -> (N.to_nat (maxDepth limits - depth) < fuel) ->
  frame pre (removelast (t :: (r_caller <$> pre))) st -> memo_ok st ->
  let r := dfs fuel (walk_end t pre) depth st in
  clean r.1 ->
  owes t pre (fun es => es <> [] \/ (0 < depth)%N) r.1 r.2 /\
  ((0 < depth)%N \/ walk_end t pre ∉ startSet -> memo_ok r.1).
Proof.
  revert pre depth st. induction fuel as [|fuel IH]; intros pre depth st Hst Hfuel Hf Hm; [lia|].
  assert (Hd : depth = N.of_nat (length pre)) by apply Hst.
  cbv zeta. rewrite dfs_eq. destruct (pathLimitHit limits st); [by intros ?%clean_trunc|].
  destruct (negb (maxWork limits =? 0)%N && _).
  { intros (_ & Hw & _). pose proof (add_stop_has WorkBudget st). simpl in *. congruence. }
  destruct (match deadAt st !! walk_end t pre with Some d => (d <=? depth)%N | None => false end) eqn:Edead.
  { intros _. destruct (deadAt st !! walk_end t pre) as [d|] eqn:Ed; [|done]. apply N.leb_le in Edead.
    pose proof (dead_deeper _ _ _ Edead (Hm _ _ Ed)) as Hdead.
    assert (Hno : forall es, walk (walk_end t pre) es -> walk_end t (pre ++ es) ∈ startSet ->
      ~ bounded (N.of_nat (length (pre ++ es)))).
    { intros es Hw Hend. rewrite walk_end_app in Hend. rewrite length_app.
      replace (N.of_nat (length pre + length es)) with (depth + N.of_nat (length es))%N by lia.
      by apply Hdead. }
    split; [|done]. split; [intros es _ Hw Hend _ Hb; by destruct (Hno es Hw Hend)|
                            intros _ es _ Hw Hend; by apply Hno]. }
  destruct (entered_sound t pre depth st Hst Hf) as (A1 & _ & _).
  destruct (entered (walk_end t pre) depth st) as [st3 flags] eqn:Een. simpl in A1.
  assert (Hm3 : memo_ok st3).
  { unfold entered in Een. destruct (bool_decide _ && _); by injection Een as <- <-. }
  assert (Hrecs : (depth < maxDepth limits -> rec_sound t pre (fun c st => dfs fuel c (depth + 1)%N st) /\
                              rec_complete t pre (fun c st => dfs fuel c (depth + 1)%N st))%N).
  { intros Hlt. split; intros e st1 Hst1 Hf1.
    - replace (r_caller e) with (walk_end t (pre ++ [e])) by (by rewrite walk_end_app).
      rewrite <- (path_snoc t pre e) in Hf1 |- *.
      replace (depth + 1)%N with (N.of_nat (S (length pre))) by lia.
      apply dfs_sound; [done|lia|done].
    - intros Hm1. replace (r_caller e) with (walk_end t (pre ++ [e])) by (by rewrite walk_end_app).
      rewrite <- (path_snoc t pre e) in Hf1.
      replace (depth + 1)%N with (N.of_nat (S (length pre))) by lia. intros r Hc.
      destruct (IH (pre ++ [e]) (N.of_nat (S (length pre))) st1) as [[J1 J1'] J2]; [done|lia|done|done|done|].
      split; [|apply J2; left; lia].
      split; [intros es _; apply J1|intros Hq es _; refine (J1' Hq es _)]; right; lia. }
  destruct (explore_sound fuel t pre depth flags st3 Hst (fun H => proj1 (Hrecs H)) A1) as (B1 & _ & B3).
  pose proof (explore_complete fuel t pre depth flags st3 Hst Hrecs A1 Hm3) as Hx.
  destruct (explore fuel (walk_end t pre) depth st3 flags) as [st4 flags4]. simpl in B1, B3, Hx.
  assert (Hrec0 : forall es, es = [] -> es <> [] \/ (0 < depth)%N -> walk_end t (pre ++ es) ∈ startSet ->
    pre ∈ found st3 /\ ~ quiet flags).
  { intros es -> [?|Hpos] Hend; [done|]. rewrite app_nil_r in Hend. unfold entered in Een.
    rewrite bool_decide_true in Een by done. apply N.ltb_lt in Hpos. rewrite Hpos in Een.
    injection Een as <- <-. split; [|done]. simpl. rewrite (fr_edges _ _ _ Hf). apply elem_of_app. right. left. }
  assert (Hmain : clean st4 -> owes t pre (fun es => es <> [] \/ (0 < depth)%N) st4 flags4 /\ memo_ok st4).
  { intros Hc. destruct (Hx Hc) as ([J1 J1'] & J2 & J3). split; [|done].
    split.
    - intros es Hok Hw Hend Hs Hb. destruct es as [|e es]; [|by apply J1].
      destruct (Hrec0 [] eq_refl Hok Hend) as [Hin _]. rewrite app_nil_r. by eapply later_elem.
    - intros Hq es Hok Hw Hend. destruct es as [|e es]; [|by apply (J1' Hq (e :: es))].
      destruct (Hrec0 [] eq_refl Hok Hend) as [_ Hnq]. by destruct Hnq; apply J3. }
  destruct (N.land flags4 (N.lor kFound kBlocked) =? 0)%N eqn:Eq; cbn [fst snd]; intros Hc.
  - apply quiet_dec in Eq. destruct (mark_dead_same (walk_end t pre) depth (leave_node (walk_end t pre) st4)) as (D1 & D2 & D3).
    destruct Hmain as [[J1 J1'] J2]; [unfold clean in *; by rewrite D2, D3 in Hc|]. split.
    + split; [|done]. intros es Hok Hw Hend Hs Hb. rewrite D1. by apply J1.
    + intros Hor. apply mark_dead_memo; [done|]. intros es Hw Hend.
      replace (depth + N.of_nat (length es))%N with (N.of_nat (length (pre ++ es))) by (rewrite length_app; lia).
      apply (J1' Eq es); [|done|by rewrite walk_end_app].
      destruct es as [|e es]; [|by left]. right. by destruct Hor as [?|[]].
  - destruct Hmain as [J1 J2]; [done|]. by split.
Qed.
End Walk.

(** * The corridor *)

Section Corridor.
Context (g : CallGraph) `{GV : !GraphViews g} (filter_ : option (EdgeRef -> bool)).

(** The ids of the string table. *)
Definition table_ids : gset SId := list_to_set (N.of_nat <$> seq 0 (table_size (interner_ g))).

Lemma known_table_id id : known (interner_ g) id -> id ∈ table_ids.
Proof.
  intros Hk%resolve_opt_is_Some. apply elem_of_list_to_set, list_elem_of_fmap.
  exists (N.to_nat id). split; [lia|]. apply elem_of_seq. lia.
Qed.

(** One round: new nodes enter at the current distance and make the next frontier. *)
Record round (dist : N) (m : gmap SId N) (edges : list EdgeRef) (st : gmap SId N * list SId) : Prop := {
  rd_keep : forall v d, m !! v = Some d -> st.1 !! v = Some d;
  rd_new : forall v d, st.1 !! v = Some d -> m !! v = Some d \/ (d = dist /\ v ∈ st.2);
  rd_next : forall v, v ∈ st.2 -> m !! v = None /\ st.1 !! v = Some dist /\ exists e, e ∈ edges /\ r_callee e = v;
  rd_covers : forall e, e ∈ edges -> admits filter_ e = true -> is_Some (st.1 !! r_callee e)
}.

Lemma corridor_round dist m edges : round dist m edges (foldl (corridor_edge filter_ dist) (m, []) edges).
Proof.
  induction edges as [|e edges IH] using rev_ind.
  { split; simpl; auto; intros ? ?%not_elem_of_nil; done. }
  rewrite foldl_app. simpl. destruct IH as [R1 R2 R3 R4].
  set (st := foldl (corridor_edge filter_ dist) (m, []) edges) in *. unfold corridor_edge at 1.
  assert (Hsub : forall v, (exists e, e ∈ edges /\ r_callee e = v) ->
    exists e', e' ∈ edges ++ [e] /\ r_callee e' = v).
  { intros v (x & ? & ?). exists x. split; [apply elem_of_app; by left|done]. }
  destruct (admits filter_ e) eqn:Ea; simpl negb; cbn iota.
  2: { split; [done|done|intros v Hv; destruct (R3 v Hv) as (?&?&?); auto|].
       intros x [?| ->%list_elem_of_singleton]%elem_of_app Hx; [by apply R4|congruence]. }
  destruct (st.1 !! r_callee e) as [d|] eqn:Ed.
  { split; [done|done|intros v Hv; destruct (R3 v Hv) as (?&?&?); auto|].
    intros x [?| ->%list_elem_of_singleton]%elem_of_app Hx; [by apply R4|by eexists]. }
  split; simpl.
  - intros v d Hv. rewrite lookup_insert_ne; [by apply R1|]. intros <-. apply R1 in Hv. congruence.
  - intros v d. rewrite lookup_insert. case_decide as Ev.
    + intros [= <-]. right. split; [done|]. apply elem_of_app. right. subst v. by left.
    + intros [?|[? ?]]%R2; [by left|right]. split; [done|]. apply elem_of_app. by left.
  - intros v [Hv| ->%list_elem_of_singleton]%elem_of_app.
    + destruct (R3 v Hv) as (H1 & H2 & H3). split_and!; [done| |auto].
      rewrite lookup_insert_ne; [done|]. congruence.
    + rewrite lookup_insert_eq. split_and!; [|done|].
      * destruct (m !! r_callee e) as [d|] eqn:Em; [|done]. apply R1 in Em. congruence.
      * exists e. split; [apply elem_of_app; right; by left|done].
  - intros x Hx Hax. rewrite lookup_insert. case_decide; [by eexists|].
    apply elem_of_app in Hx as [?| ->%list_elem_of_singleton]; [by apply R4|done].
Qed.

(** The search so far: distances up to [dist], whose nodes are the frontier, and
    everything nearer has its callees in. *)
Record corridor_inv (dist : N) (frontier : list SId) (m : gmap SId N) : Prop := {
  co_bound : forall v d, m !! v = Some d -> (d <= dist)%N;
  co_frontier : forall v, v ∈ frontier <-> m !! v = Some dist;
  co_closed : forall v d e, m !! v = Some d -> (d < dist)%N -> e ∈ calleeRefsOf g v ->
    admits filter_ e = true -> exists d', m !! r_callee e = Some d' /\ (d' <= d + 1)%N
}.

Lemma corridor_step dist frontier m :
  corridor_inv dist frontier m ->
  let st := foldl (corridor_node g filter_ (dist + 1)) (m, []) frontier in
  corridor_inv (dist + 1) st.2 st.1 /\ (forall v d, m !! v = Some d -> st.1 !! v = Some d) /\
  (st.2 <> [] -> size (table_ids ∖ dom st.1) < size (table_ids ∖ dom m)).
Proof.
  intros [C1 C2 C3]. cbv zeta.
  assert (Efold : foldl (corridor_node g filter_ (dist + 1)) (m, []) frontier =
    foldl (corridor_edge filter_ (dist + 1)) (m, []) (frontier ≫= calleeRefsOf g)) by apply foldl_foldl.
  rewrite Efold. destruct (corridor_round (dist + 1) m (frontier ≫= calleeRefsOf g)) as [R1 R2 R3 R4].
  set (st := foldl (corridor_edge filter_ (dist + 1)) _ _) in *. clearbody st. clear Efold.
  split_and!; [|done|].
  - split.
    + intros v d [Hv|[-> _]]%R2; [|lia]. apply C1 in Hv. lia.
    + intros v. split; [by intros (_ & ? & _)%R3|]. intros [Hv|[_ ?]]%R2; [|done]. apply C1 in Hv. lia.
    + intros v d e Hv Hlt He Ha. apply R2 in Hv as [Hv|[-> _]]; [|lia].
      destruct (decide (d = dist)) as [->|Hne].
      * apply C2 in Hv. destruct (R4 e) as [d' Hd']; [apply list_elem_of_bind; eauto|done|].
        exists d'. split; [done|]. apply R2 in Hd' as [Hd'|[-> _]]; [apply C1 in Hd'; lia|lia].
      * destruct (C3 v d e Hv) as (d' & Hd' & ?); [apply C1 in Hv; lia|done|done|]. eauto.
  - intros Hne. destruct st as [m' [|v l]]; simpl in *; [by destruct Hne|].
    destruct (R3 v) as (H1 & H2 & e & He & <-); [left|].
    apply list_elem_of_bind in He as (u & Hu & _). apply view_known, known_table_id in Hu.
    apply subset_size. split.
    + intros x. rewrite !elem_of_difference, !not_elem_of_dom. intros [? Hx]. split; [done|].
      destruct (m !! x) as [d|] eqn:Ex; [|done]. apply R1 in Ex. congruence.
    + intros Hsub. assert (Hin : r_callee e ∈ table_ids ∖ dom m).
      { apply elem_of_difference. split; [done|]. by apply not_elem_of_dom. }
      apply Hsub, elem_of_difference in Hin as [_ Hn]. apply Hn, elem_of_dom. eauto.
Qed.

Lemma corridor_loop_closed fuel dist frontier m :
  size (table_ids ∖ dom m) < fuel -> corridor_inv dist frontier m ->
  let m' := corridor_loop g filter_ fuel dist frontier m in
  (forall v d, m !! v = Some d -> m' !! v = Some d) /\
  (forall v d e, m' !! v = Some d -> e ∈ calleeRefsOf g v -> admits filter_ e = true ->
     exists d', m' !! r_callee e = Some d' /\ (d' <= d + 1)%N).
Proof.
  revert dist frontier m. induction fuel as [|fuel IH]; intros dist frontier m Hfuel Hinv; [lia|].
  cbv zeta. destruct frontier as [|n frontier].
  - simpl. split; [done|]. intros v d e Hv He Ha. destruct Hinv as [C1 C2 C3].
    apply (C3 v d e Hv); [|done|done]. destruct (decide (d = dist)) as [->|].
    + apply C2 in Hv. by apply not_elem_of_nil in Hv.
    + apply C1 in Hv. lia.
  - cbn [corridor_loop]. destruct (corridor_step dist (n :: frontier) m Hinv) as (J1 & J2 & J3).
    destruct (foldl _ (m, []) (n :: frontier)) as [m' next]. simpl in J1, J2, J3.
    destruct next as [|x next].
    + replace (corridor_loop g filter_ fuel (dist + 1) [] m') with m' by (by destruct fuel).
      split; [done|]. intros v d e Hv He Ha. destruct J1 as [C1 C2 C3].
      apply (C3 v d e Hv); [|done|done]. destruct (decide (d = dist + 1)%N) as [->|].
      * apply C2 in Hv. by apply not_elem_of_nil in Hv.
      * apply C1 in Hv. lia.
    + destruct (IH (dist + 1)%N (x :: next) m') as (K1 & K2); [specialize (J3 ltac:(done)); lia|done|].
      split; [auto|done].
Qed.

(** Caller edges the filter admits are admitted on the callee side too. *)
Definition aligned : Prop :=
  forall v e, e ∈ callerRefsOf g v -> admits filter_ e = true ->
    exists e', e' ∈ calleeRefsOf g (r_caller e) /\ r_callee e' = v /\ admits filter_ e' = true.

Lemma start_map_lookup (l : list SId) v :
  foldl (fun m s => match m !! s with Some _ => m | None => <[s := 0%N]> m end) (∅ : gmap SId N) l !! v =
  if decide (v ∈ l) then Some 0%N else None.
Proof.
  revert v. induction l as [|x l IH] using rev_ind; intros v; [done|]. rewrite foldl_app. simpl.
  rewrite (IH x). destruct (decide (x ∈ l)) as [Hx|Hx].
  - rewrite IH. destruct (decide (v ∈ l)), (decide (v ∈ l ++ [x])); set_solver.
  - rewrite lookup_insert, IH. destruct (decide (x = v)) as [->|].
    + rewrite (decide_True (P := v ∈ l ++ [v])); [done|]. apply elem_of_app. right. left.
    + destruct (decide (v ∈ l)), (decide (v ∈ l ++ [x])); set_solver.
Qed.

(** Every node a start reaches is in the corridor, at most as far as any walk. *)
Lemma corridor_covers (frontier : list SId) v es :
  aligned -> walk g filter_ v es -> walk_end v es ∈ frontier ->
  exists d, corridor g filter_ frontier !! v = Some d /\ (d <= N.of_nat (length es))%N.
Proof.
  intros Hal. unfold corridor. set (m0 := foldl _ _ frontier).
  assert (Hinv : corridor_inv 0 frontier m0).
  { split.
    - intros w d. unfold m0. rewrite start_map_lookup. case_decide; [intros [= <-]; lia|done].
    - intros w. unfold m0. rewrite start_map_lookup. by case_decide.
    - intros w d e _ Hd. lia. }
  assert (Hsize : size (table_ids ∖ dom m0) < S (table_size (interner_ g))).
  { apply Nat.lt_succ_r. etrans; [apply subseteq_size, subseteq_difference_l; reflexivity|].
    unfold table_ids. rewrite size_list_to_set; [by rewrite length_fmap, length_seq|].
    apply NoDup_fmap_2; [|apply NoDup_seq]. intros a b. lia. }
  destruct (corridor_loop_closed _ 0 frontier m0 Hsize Hinv) as [K1 K2].
  set (m' := corridor_loop _ _ _ _ _ _) in *. clearbody m'.
  revert v. induction es as [|e es IH]; intros v Hw Hend; simpl in *.
  - exists 0%N. split; [|lia]. apply K1. by apply Hinv.
  - destruct Hw as (He & Ha & Hw). destruct (IH _ Hw Hend) as (d & Hd & Hle).
    destruct (Hal v e He Ha) as (e' & He' & <- & Ha').
    destruct (K2 _ _ _ Hd He' Ha') as (d' & Hd' & ?). exists d'. split; [done|lia].
Qed.
End Corridor.

(** * The loop over the targets *)

Section Targets.
Context (g : CallGraph) (limits : SearchLimits) (cycles : CycleRule).
Context (filter_ : option (EdgeRef -> bool)) (startSet : gset SId) (m : gmap SId N).
Context (Hmax : maxDepth limits <> 0%N).

Abbreviation targets_loop := (search_targets g limits cycles filter_ startSet m).
Abbreviation is_path := (is_path g cycles filter_ startSet).

Lemma standing_start t : standing g limits cycles filter_ t [] 0.
Proof. split_and!; [done| |done|lia]. unfold simple. destruct cycles; [apply NoDup_singleton|constructor]. Qed.

Lemma search_targets_sound targets st :
  frame cycles [] [] st ->
  let st' := targets_loop targets st in
  (exists new, found st' = found st ++ new /\
     forall es, es ∈ new -> exists t, t ∈ targets /\ is_path t es /\
       (N.of_nat (length es) <= maxDepth limits)%N) /\
  later st st'.
Proof.
  revert st. induction targets as [|t rest IH]; intros st Hf; cbv zeta; cbn [search_targets].
  { split; [|done]. exists []. rewrite app_nil_r. split; [done|]. by intros es ?%not_elem_of_nil. }
  assert (Hstep : forall st1, frame cycles [] [] st1 -> finds g limits cycles filter_ startSet t [] st st1 ->
    later st st1 -> let st' := targets_loop rest st1 in
    (exists new, found st' = found st ++ new /\
       forall es, es ∈ new -> exists x, x ∈ t :: rest /\ is_path x es /\
         (N.of_nat (length es) <= maxDepth limits)%N) /\ later st st').
  { intros st1 Hf1 (n1 & E1 & H1) Hl1. cbv zeta. destruct (IH st1 Hf1) as [(n2 & E2 & H2) Hl2].
    split; [|by etrans]. exists (n1 ++ n2). rewrite E2, E1, app_assoc. split; [done|].
    intros es [Hes|Hes]%elem_of_app.
    - destruct (H1 es Hes) as (_ & ? & ?). exists t. split; [left|done].
    - destruct (H2 es Hes) as (x & ? & ?). exists x. split; [by right|done]. }
  destruct (pathLimitHit limits st).
  { split; [|apply later_trunc]. exists []. rewrite app_nil_r. split; [done|]. by intros es ?%not_elem_of_nil. }
  destruct (m !! t) as [k|]; [|apply Hstep; [done|by apply finds_same|done]].
  destruct (negb (maxDepth limits =? 0)%N && (maxDepth limits <? k)%N).
  { apply Hstep; [by destruct Hf|by apply finds_same|apply later_stop]. }
  destruct (dfs_sound g limits cycles filter_ startSet m Hmax (S (N.to_nat (maxDepth limits))) t [] 0 st)
    as (J1 & J2 & J3); [apply standing_start|lia|done|]. exact (Hstep _ J1 J2 J3).
Qed.

Context (ndl : bool).
Context (Hcorridor : forall v es, walk g filter_ v es -> walk_end v es ∈ startSet ->
  exists d, m !! v = Some d /\ (d <= N.of_nat (length es))%N).

Lemma search_targets_complete targets st :
  (forall t, t ∈ removelast targets -> t ∉ startSet) ->
  frame cycles [] [] st -> memo_ok g limits filter_ startSet ndl st ->
  let st' := targets_loop targets st in
  clean ndl st' ->
  forall t es, t ∈ targets -> is_path t es -> bounded limits ndl (N.of_nat (length es)) -> es ∈ found st'.
Proof.
  revert st. induction targets as [|t rest IH]; intros st Hsep Hf Hm; cbv zeta; cbn [search_targets].
  { by intros _ t es ?%not_elem_of_nil. }
  assert (Hsep' : forall x, x ∈ removelast rest -> x ∉ startSet).
  { intros x Hx. apply Hsep. destruct rest; [by apply not_elem_of_nil in Hx|]. by right. }
  destruct (pathLimitHit limits st); [by intros ?%clean_trunc|].
  intros Hc x es Hx Hp Hb.
  destruct (m !! t) as [k|] eqn:Em.
  2: { apply elem_of_cons in Hx as [->|Hx]; [|by eapply IH].
       destruct Hp as (_ & Hw & Hend & _). destruct (Hcorridor _ _ Hw Hend) as (d & ? & _). congruence. }
  destruct (negb (maxDepth limits =? 0)%N && (maxDepth limits <? k)%N) eqn:Ek.
  { assert (Hf' : frame cycles [] [] (add_stop DepthLimit st)) by (by destruct Hf).
    apply elem_of_cons in Hx as [->|Hx]; [exfalso|by eapply (IH (add_stop DepthLimit st))].
    destruct (search_targets_sound rest (add_stop DepthLimit st) Hf') as [_ Hl].
    apply andb_true_iff in Ek as [_ Ek%N.ltb_lt]. destruct Hb as [Hn|Hb].
    - apply (clean_later _ _ _ Hl), clean_stop in Hc as (_ & _ & Hd). by apply Hd.
    - destruct Hp as (_ & Hw & Hend & _). destruct (Hcorridor _ _ Hw Hend) as (d & Hd & ?).
      rewrite Em in Hd. injection Hd as ->. lia. }
  set (fuel := S (N.to_nat (maxDepth limits))) in *.
  destruct (dfs_sound g limits cycles filter_ startSet m Hmax fuel t [] 0 st)
    as (J1 & _ & J3); [apply standing_start|lia|done|].
  pose proof (dfs_complete g limits cycles filter_ startSet m Hmax ndl Hcorridor fuel t [] 0 st
    (standing_start t) ltac:(lia) Hf Hm) as Hdfs. cbv zeta in Hdfs. simpl walk_end in *.
  set (st1 := (dfs g limits cycles filter_ startSet m fuel t 0 st).1) in *.
  destruct (search_targets_sound rest st1 J1) as [_ Hl].
  destruct Hdfs as [[H1 _] H2]; [by eapply clean_later|].
  apply elem_of_cons in Hx as [->|Hx].
  - eapply later_elem; [done|]. destruct Hp as (Hne & Hw & Hend & Hs).
    apply (H1 es); auto.
  - eapply (IH st1); try done. apply H2. right. apply Hsep. destruct rest; [|left].
    by apply not_elem_of_nil in Hx.
Qed.
End Targets.

(** * The whole search *)

Section Whole.
Context `{UI : !UnorderedIter} (g : CallGraph) (limitsIn : SearchLimits) (cycles : CycleRule).
Context (filter_ : option (EdgeRef -> bool)) (targetIds : list SId) (starts : gset SId).

Abbreviation limits := (cap_limits limitsIn).

Lemma capped_nonzero : maxDepth limits <> 0%N.
Proof.
  unfold cap_limits. destruct (N.eqb_spec (maxDepth limitsIn) 0); simpl; [done|].
  by destruct (kPathSearchDepthCap <? maxDepth limitsIn)%N.
Qed.

Lemma init_frame : frame cycles [] [] init_search.
Proof. by split. Qed.

Lemma elem_of_ordered t ids : t ∈ ordered_targets g ids <-> t ∈ ids.
Proof. unfold ordered_targets. by rewrite merge_sort_Permutation. Qed.

Lemma run_search_sound es :
  es ∈ found (run_search g limits cycles filter_ targetIds starts) ->
  exists t, t ∈ targetIds /\ is_path g cycles filter_ starts t es /\
            (N.of_nat (length es) <= maxDepth limits)%N.
Proof.
  unfold run_search. set (m := corridor _ _ _).
  destruct (search_targets_sound g limits cycles filter_ starts m capped_nonzero
    (ordered_targets g targetIds) init_search init_frame) as [(new & E & H) _].
  set (st := search_targets _ _ _ _ _ _ _ _) in *. simpl in E.
  intros Hes. assert (Hin : es ∈ new) by (destruct (truncated st); by rewrite <- E).
  destruct (H es Hin) as (t & Ht & ?). exists t. by rewrite <- elem_of_ordered.
Qed.

Lemma run_search_complete t es :
  cg_ok g -> aligned g filter_ ->
  length targetIds <= 1 \/ (forall t, t ∈ targetIds -> t ∉ starts) ->
  let st := run_search g limits cycles filter_ targetIds starts in
  has_stop (stops st) PathLimit = false -> has_stop (stops st) WorkBudget = false ->
  has_stop (stops st) HubPruned = false ->
  (stops st = 0%N \/ (N.of_nat (length es) <= maxDepth limits)%N) ->
  t ∈ targetIds -> is_path g cycles filter_ starts t es -> es ∈ found st.
Proof.
  intros Hg Hal Hsep. unfold run_search. set (m := corridor _ _ _).
  set (st := search_targets _ _ _ _ _ _ _ _). cbv zeta. intros Hpl Hwb Hhp Hb Ht Hp.
  assert (Htr : truncated st = false).
  { destruct (truncated st); [|done]. by rewrite add_stop_has in Hpl. }
  rewrite Htr in *.
  pose (ndl := (stops st =? 0)%N).
  apply (search_targets_complete g limits cycles filter_ starts m capped_nonzero ndl) with (t := t);
    try done.
  - intros v es' Hw Hend. pose proof (graph_views_ok g Hg). apply corridor_covers; [done|done|done|].
    by rewrite set_iter_perm, elem_of_elements.
  - intros x Hx. destruct Hsep as [Hlen|Hsep].
    + assert (Hl : length (ordered_targets g targetIds) <= 1)
        by (unfold ordered_targets; by rewrite merge_sort_Permutation).
      destruct (ordered_targets g targetIds) as [|a [|b l]]; simpl in *; try lia; by apply not_elem_of_nil in Hx.
    + apply Hsep, elem_of_ordered. clear -Hx.
      induction (ordered_targets g targetIds) as [|a [|b l] IH]; [by apply not_elem_of_nil in Hx..|].
      apply elem_of_cons in Hx as [->|Hx]; [left|right; auto].
  - split_and!; [done|done|done|]. intros Hn%N.eqb_eq.
    change (has_stop (stops st) DepthLimit = false). by rewrite Hn.
  - by apply elem_of_ordered.
  - destruct Hb as [Hb|Hb]; [left|by right]. unfold ndl. by rewrite Hb.
Qed.
End Whole.

(** Without a filter, and for a filter that looks only at the ends of an edge, the
    two sides always agree. *)
Lemma aligned_ends g filter_ :
  cg_ok g ->
  (forall a b, edge_key a = edge_key b -> admits filter_ a = admits filter_ b) -> aligned g filter_.
Proof.
  intros Hg Hends v e He Ha. pose proof (graph_views_ok g Hg).
  destruct (view_dual v e He) as (e' & He' & Hv & Hsite). exists e'. split_and!; [done|done|].
  rewrite <- Ha. apply Hends. unfold edge_key.
  by rewrite (view_caller _ _ He'), Hv, Hsite, (view_callee _ _ He).
Qed.

Lemma caller_paths_sound `{!UnorderedIter} (isValidUtf8 : bytes -> bool) (g : CallGraph)
    (target : bytes) (starts : list bytes) (limits : SearchLimits) (cycles : CycleRule)
    (filter_ : option (EdgeRef -> bool)) (p : list PathHop) :
  p ∈ paths (findCallerPaths isValidUtf8 g target starts limits cycles filter_) ->
  exists t es, t ∈ resolveIds isValidUtf8 g target /\
    is_path g cycles filter_ (start_set isValidUtf8 g starts) t es /\
    (N.of_nat (length es) <= maxDepth (cap_limits limits))%N /\
    p = hop_of isValidUtf8 g <$> rev es.
Proof.
  unfold findCallerPaths. destruct (_ || _); [by intros ?%not_elem_of_nil|]. simpl.
  intros (es & -> & Hes)%list_elem_of_fmap.
  destruct (run_search_sound _ _ _ _ _ _ _ Hes) as (t & ? & ? & ?). by exists t, es.
Qed.

Lemma caller_paths_complete `{!UnorderedIter} (isValidUtf8 : bytes -> bool) (g : CallGraph)
    (target : bytes) (starts : list bytes) (limits : SearchLimits) (cycles : CycleRule)
    (filter_ : option (EdgeRef -> bool)) (t : SId) (es : list EdgeRef) :
  cg_ok g -> aligned g filter_ ->
  length (resolveIds isValidUtf8 g target) <= 1 \/
    (forall x, x ∈ resolveIds isValidUtf8 g target -> x ∉ start_set isValidUtf8 g starts) ->
  let r := findCallerPaths isValidUtf8 g target starts limits cycles filter_ in
  complete r = true ->
  (exhaustive r = true \/ (N.of_nat (length es) <= maxDepth (cap_limits limits))%N) ->
  t ∈ resolveIds isValidUtf8 g target ->
  is_path g cycles filter_ (start_set isValidUtf8 g starts) t es ->
  (hop_of isValidUtf8 g <$> rev es) ∈ paths r.
Proof.
  intros Hg Hal Hsep. cbv zeta. unfold findCallerPaths, exhaustive, complete, stopped.
  destruct (negb _ || negb _) eqn:Ek.
  { intros [[[[H1 H2]%andb_true_iff _]%andb_true_iff _]%andb_true_iff _]%andb_true_iff.
    simpl in H1, H2. rewrite H1, H2 in Ek. done. }
  set (st := run_search _ _ _ _ _ _). cbn [targetKnown startKnown res_stops paths].
  intros [[[_ H3]%andb_true_iff H4]%andb_true_iff H5]%andb_true_iff Hb Ht Hp.
  apply negb_true_iff in H3, H4, H5.
  apply list_elem_of_fmap. exists es. split; [done|].
  apply (run_search_complete g limits cycles filter_ _ _ t es Hg Hal Hsep); try done.
  destruct Hb as [[_ Hb%N.eqb_eq]%andb_true_iff|Hb]; [by left|by right].
Qed.

(** C1. Every path the search returns is one it was asked for: a chain of admitted
    edges from a start to a target, shown by the graph's caller query, nonempty,
    within the depth bound, and without a repeated function (or, under
    [SimpleEdges], a repeated edge). *)
Theorem find_paths_sound `{!UnorderedIter} (isValidUtf8 : bytes -> bool) (g : CallGraph)
    (target : bytes) (starts : list bytes) (limits : SearchLimits) (cycles : CycleRule)
    (filter_ : option (EdgeRef -> bool)) (p : list PathHop) :
  p ∈ paths (findCallerPaths isValidUtf8 g target starts limits cycles filter_) ->
  exists t es, t ∈ resolveIds isValidUtf8 g target /\
    is_path g cycles filter_ (start_set isValidUtf8 g starts) t es /\
    (N.of_nat (length es) <= maxDepth (cap_limits limits))%N /\
    p = hop_of isValidUtf8 g <$> rev es.
Proof. apply caller_paths_sound. Qed.

(** C2. When the result claims to be complete, every path asked for within the depth
    bound is in it; when it claims to be exhaustive, every path of any length is.
    The filter must admit an edge on the callee side whenever it does on the caller
    side, and a target name that means several functions must not name a start. *)
Theorem find_paths_complete `{!UnorderedIter} (isValidUtf8 : bytes -> bool) (g : CallGraph)
    (target : bytes) (starts : list bytes) (limits : SearchLimits) (cycles : CycleRule)
    (filter_ : option (EdgeRef -> bool)) (t : SId) (es : list EdgeRef) :
  cg_ok g -> aligned g filter_ ->
  length (resolveIds isValidUtf8 g target) <= 1 \/
    (forall x, x ∈ resolveIds isValidUtf8 g target -> x ∉ start_set isValidUtf8 g starts) ->
  let r := findCallerPaths isValidUtf8 g target starts limits cycles filter_ in
  complete r = true ->
  (exhaustive r = true \/ (N.of_nat (length es) <= maxDepth (cap_limits limits))%N) ->
  t ∈ resolveIds isValidUtf8 g target ->
  is_path g cycles filter_ (start_set isValidUtf8 g starts) t es ->
  (hop_of isValidUtf8 g <$> rev es) ∈ paths r.
Proof. apply caller_paths_complete. Qed.

(** [main -> api -> work], [main -> work]. *)
Definition chain_graph : CallGraph :=
  build [AddEdge (direct (str "main") (str "api") (str "m:1")) [];
         AddEdge (direct (str "api") (str "work") (str "a:1")) [];
         AddEdge (direct (str "main") (str "work") (str "m:2")) []] empty_graph.

Lemma chain_graph_ok : cg_ok chain_graph.
Proof. apply build_ok. vm_compute. discriminate. Qed.

Definition default_limits : SearchLimits := MkLimits 100 20 1000 2000000.

Definition chain_search (target start : bytes) : PathSearchResult :=
  @findCallerPaths canonical_iter valid_utf8b chain_graph target [start] default_limits SimpleNodes None.

Definition hop (a b site : bytes) : PathHop := MkHop a b a b site DirectCall Proven Synchronous 0.

Lemma find_paths_sound_witness :
  exists t es, t ∈ resolveIds valid_utf8b chain_graph (str "work") /\
    is_path chain_graph SimpleNodes None (start_set valid_utf8b chain_graph [str "main"]) t es /\
    (N.of_nat (length es) <= maxDepth (cap_limits default_limits))%N /\
    [hop (str "main") (str "work") (str "m:2")] = hop_of valid_utf8b chain_graph <$> rev es.
Proof.
  apply (@find_paths_sound canonical_iter valid_utf8b chain_graph (str "work") [str "main"]
           default_limits SimpleNodes None). by_computation.
Defined.

Lemma find_paths_complete_witness :
  exhaustive (chain_search (str "work") (str "main")) = true /\
  [hop (str "main") (str "work") (str "m:2")] ∈ paths (chain_search (str "work") (str "main")).
Proof.
  split; [vm_compute; reflexivity|].
  pose proof (@find_paths_complete canonical_iter valid_utf8b chain_graph (str "work") [str "main"]
    default_limits SimpleNodes None 3%N [MkRef 0 3 5 DirectCall Proven Synchronous 0]) as H.
  replace [hop (str "main") (str "work") (str "m:2")]
    with (hop_of valid_utf8b chain_graph <$> rev [MkRef 0 3 5 DirectCall Proven Synchronous 0])
    by (vm_compute; reflexivity).
  apply H.
  - apply chain_graph_ok.
  - apply aligned_ends; [apply chain_graph_ok|done].
  - left. vm_compute. lia.
  - vm_compute. reflexivity.
  - left. vm_compute. reflexivity.
  - by_computation.
  - split_and!; [done|split; [by_computation|done]|by_computation|].
    change (NoDup [3%N; 0%N]). by_computation.
Defined.

(** * A target that is also a start *)

(** Two overloads of [T], of which the first calls the second. *)
Definition overload_graph : CallGraph :=
  build [AddNode (MkNode (str "T") [] 0 false false [] (str "a")) [];
         AddNode (MkNode (str "T") [] 0 false false [] (str "b")) [];
         AddEdge (direct (str "a") (str "b") (str "a.cpp:1")) []] empty_graph.

Definition overload_search : PathSearchResult :=
  @findCallerPaths canonical_iter valid_utf8b overload_graph (str "T") [str "a"]
    default_limits SimpleNodes None.

(** Searching for [T] from [a]: the walk from target [a] itself, at depth 0, marks
    [a] as a dead end, and the walk from target [b] then trusts the mark, so the
    call of [b] by the start [a] is not reported, and the result still claims to
    hold every path. *)
Theorem ambiguous_target_start_missed :
  exhaustive overload_search = true /\ paths overload_search = [] /\
  exists t es, t ∈ resolveIds valid_utf8b overload_graph (str "T") /\
    is_path overload_graph SimpleNodes None (start_set valid_utf8b overload_graph [str "a"]) t es.
Proof.
  split; [vm_compute; reflexivity|]. split; [vm_compute; reflexivity|].
  exists 2%N, [MkRef 0 2 3 DirectCall Proven Synchronous 0]. split; [by_computation|].
  split_and!; [done|split; [by_computation|done]|by_computation|].
  change (NoDup [2%N; 0%N]). by_computation.
Qed.

(** * A filter and the two views of one call site *)

Definition spawn_call (a b site : bytes) : CallGraphEdge :=
  MkEdge a b VirtualDispatch Plausible site 0 ThreadSpawn [] [].

(** [main] dispatches to [B2::f] on a new thread and to [B1::f] synchronously from
    one call site; [D::f] overrides both. *)
Definition two_bases : CallGraph :=
  build [AddMethodOverride (str "B1::f") (str "D::f");
         AddMethodOverride (str "B2::f") (str "D::f");
         AddEdge (spawn_call (str "main") (str "B2::f") (str "m:1")) [];
         AddEdge (virtual_call (str "main") (str "B1::f") (str "m:1")) []] empty_graph.

Definition synchronous (e : EdgeRef) : bool := bool_decide (r_execContext e = Synchronous).

Definition two_bases_search : PathSearchResult :=
  @findCallerPaths canonical_iter valid_utf8b two_bases (str "D::f") [str "main"]
    default_limits SimpleNodes (Some synchronous).

(** The caller query shows the call of [D::f] as synchronous and the callee query
    shows the same call as a thread spawn, each reporting one edge per call site.
    The corridor of a search for synchronous calls therefore does not reach
    [D::f], and the path the walk would have found is missing from an exhaustive
    result. *)
Theorem filtered_corridor_missed :
  exhaustive two_bases_search = true /\ paths two_bases_search = [] /\
  exists t es, t ∈ resolveIds valid_utf8b two_bases (str "D::f") /\
    is_path two_bases SimpleNodes (Some synchronous) (start_set valid_utf8b two_bases [str "main"]) t es.
Proof.
  split; [vm_compute; reflexivity|]. split; [vm_compute; reflexivity|].
  exists 1%N, [MkRef 3 1 4 VirtualDispatch Plausible Synchronous 0]. split; [by_computation|].
  split_and!; [done|split; [by_computation|done]|by_computation|].
  change (NoDup [1%N; 3%N]). by_computation.
Qed.

(** * A repeated callee edge *)

(** [main] calls [r] through a pointer, and also through the pointer [f] returns,
    from one call site. *)
Definition returned_pointer : CallGraph :=
  build [AddEdge (MkEdge (str "main") (str "r") FunctionPointer Plausible (str "m:1") 0 Synchronous [] []) [];
         AddEdge (MkEdge (str "main") (str "f") FunctionPointerReturn Plausible (str "m:1") 0 Synchronous [] []) [];
         AddFunctionReturn (str "f") (str "r")] empty_graph.

(** The callee query lists the same edge twice: the expansion of a deferred return
    is only checked against stored virtual dispatches. *)
Theorem callee_refs_can_repeat :
  let e := MkRef 0 1 2 FunctionPointer Plausible Synchronous 0 in
  calleeRefsOf returned_pointer 0 = [e; e] /\ callerRefsOf returned_pointer 1 = [e].
Proof. split; vm_compute; reflexivity. Qed.
