(* ===== verification/Impact.v ===== *)
(** The impact traversal (src/impact/ImpactSearch.cpp): a reverse breadth-first
    walk from the changed functions, with the shallowest witness path of every
    function it reaches.

    Correctness of the impact traversal: what it reports is reached by a walk of
    caller edges, and what it reports as complete holds every caller within the
    bound at its shortest distance. *)

From S2P Require Import Prelude Registrations Utf8 StringInterner CallGraph CallGraphInv CallGraphQuery PathSearch PathSearchCorrect.

Record ImpactLimits := MkImpactLimits {
  im_maxDepth : N;
  im_maxFanIn : N;
  im_maxWork : N
}.

Record AffectedFunction := MkAffected {
  af_usr : bytes;
  af_name : bytes;
  af_depth : N;
  af_changedUsr : bytes;
  af_path : list PathHop
}.

#[global] Instance AffectedFunction_eq_dec : EqDecision AffectedFunction.
Proof. solve_decision. Defined.

Record ImpactResult := MkImpact {
  im_changed : list bytes;
  im_unknown : list bytes;
  im_affected : list AffectedFunction;
  im_skippedHubs : list SkippedHub;
  im_stops : N;
  im_expansions : N
}.

Definition impact_stopped (r : ImpactResult) (s : StopReason) : bool := has_stop (im_stops r) s.

Definition impact_complete (r : ImpactResult) : bool :=
  negb (impact_stopped r WorkBudget) && negb (impact_stopped r HubPruned).

Definition impact_exhaustive (r : ImpactResult) : bool :=
  impact_complete r && (im_stops r =? 0)%N.

Record Reach := MkReach {
  rc_depth : N;
  rc_parent : SId;
  rc_edge : EdgeRef;
  rc_origin : SId
}.

(** [Reach{}]: every member value-initialised. *)
Definition empty_reach : Reach :=
  MkReach 0 0 (MkRef 0 0 0 DirectCall Proven Synchronous 0) 0.

(** The locals of the loop. *)
Record ImpactState := MkIState {
  reached : gmap SId Reach;
  queue : list SId;
  im_hubs : gmap SId N;
  st_stops : N;
  st_expansions : N
}.

Definition stop_impact (r : StopReason) (st : ImpactState) : ImpactState :=
  MkIState (reached st) (queue st) (im_hubs st) (N.lor (st_stops st) (stop_bit r)) (st_expansions st).

(** [hubs.emplace(node, deg)]. *)
Definition skip_hub (node : SId) (deg : N) (st : ImpactState) : ImpactState :=
  MkIState (reached st) (queue st)
    (match im_hubs st !! node with Some _ => im_hubs st | None => <[node := deg]> (im_hubs st) end)
    (st_stops st) (st_expansions st).

Definition spend_expansion (st : ImpactState) : ImpactState :=
  MkIState (reached st) (queue st) (im_hubs st) (st_stops st) (st_expansions st + 1).

Definition set_queue (q : list SId) (st : ImpactState) : ImpactState :=
  MkIState (reached st) q (im_hubs st) (st_stops st) (st_expansions st).

(** [reached.emplace(id, rc); queue.push_back(id);] *)
Definition enqueue (id : SId) (rc : Reach) (st : ImpactState) : ImpactState :=
  MkIState (match reached st !! id with Some _ => reached st | None => <[id := rc]> (reached st) end)
    (queue st ++ [id]) (im_hubs st) (st_stops st) (st_expansions st).

Section Impact.
Context `{UI : !UnorderedIter}.
Variable isValidUtf8 : bytes -> bool.
Variable g : CallGraph.
Variable limits : ImpactLimits.
Variable filter_ : option (EdgeRef -> bool).

Definition hopOf (e : EdgeRef) : PathHop :=
  let callerUsr := resolve (interner_ g) (r_caller e) in
  let calleeUsr := resolve (interner_ g) (r_callee e) in
  let cn := findNode isValidUtf8 g callerUsr in
  let dn := findNode isValidUtf8 g calleeUsr in
  MkHop callerUsr calleeUsr
    (match cn with Some n => qualifiedName n | None => callerUsr end)
    (match dn with Some n => qualifiedName n | None => calleeUsr end)
    (resolve (interner_ g) (r_callSite e))
    (r_kind e) (r_confidence e) (r_execContext e) (r_indirectionDepth e).

(** [std::unique] on sorted strings. *)
Fixpoint unique_texts (l : list bytes) : list bytes :=
  match l with
  | x :: ((y :: _) as rest) => if decide (x = y) then unique_texts rest else x :: unique_texts rest
  | _ => l
  end.

Definition impact_seeds (changed : list bytes) : list SId :=
  unique_ids (ordered_targets g (changed ≫= resolveIds isValidUtf8 g)).

Definition unknown_names (changed : list bytes) : list bytes :=
  unique_texts (merge_sort bytes_le
    (filter (fun name => resolveIds isValidUtf8 g name = []) changed)).

(** [reached\[node\]]; the nodes of the queue are always present. *)
Definition reached_at (st : ImpactState) (node : SId) : Reach :=
  default empty_reach (reached st !! node).

Definition admitted (st : ImpactState) (e : EdgeRef) : bool :=
  admits filter_ e && match reached st !! r_caller e with Some _ => false | None => true end.

Definition seed_all (seeds : list SId) : ImpactState :=
  foldl (fun st s => enqueue s (MkReach 0 0 (rc_edge empty_reach) s) st)
    (MkIState ∅ [] ∅ 0 0) seeds.

(** One caller edge of an expanded node. *)
Definition reach_caller (node : SId) (depth : N) (st : ImpactState) (e : EdgeRef) : ImpactState :=
  if negb (admitted st e) then st
  else enqueue (r_caller e)
         (MkReach (depth + 1) node e (rc_origin (reached_at st node))) st.

(** The loop; a node enters the queue only when it is first reached, so the seeds
    and the ids of the string table bound the rounds. *)
Fixpoint impact_loop (fuel : nat) (st : ImpactState) : ImpactState :=
  match fuel, queue st with
  | S fuel', node :: q =>
      let st1 := set_queue q st in
      let depth := rc_depth (reached_at st1 node) in
      let callers := sortCallerRefsCanonically g (callerRefsOf g node) in
      let deg := N.of_nat (storedInDegree g node) in
      if negb (im_maxDepth limits =? 0)%N && (im_maxDepth limits <=? depth)%N then
        impact_loop fuel' (if existsb (admitted st1) callers then stop_impact DepthLimit st1 else st1)
      else if (0 <? depth)%N && negb (im_maxFanIn limits =? 0)%N && (im_maxFanIn limits <? deg)%N then
        impact_loop fuel' (stop_impact HubPruned (skip_hub node deg st1))
      else if negb (im_maxWork limits =? 0)%N && (im_maxWork limits <=? st_expansions st1)%N then
        stop_impact WorkBudget st1
      else impact_loop fuel' (foldl (reach_caller node depth) (spend_expansion st1) callers)
  | _, _ => st
  end.

(** The witness path, from a reached node back to the changed function; depths
    decrease along the parents, so [S depth] units of fuel are enough. *)
Fixpoint witness_path (fuel : nat) (m : gmap SId Reach) (cur : SId) : list PathHop :=
  match fuel, m !! cur with
  | S fuel', Some step =>
      if (rc_depth step =? 0)%N then []
      else hopOf (rc_edge step) :: witness_path fuel' m (rc_parent step)
  | _, _ => []
  end.

Definition affected_of (m : gmap SId Reach) (entry : SId * Reach) : option AffectedFunction :=
  let '(id, rc) := entry in
  if (rc_depth rc =? 0)%N then None
  else Some (MkAffected (resolve (interner_ g) id) (displayOf isValidUtf8 g id) (rc_depth rc)
               (resolve (interner_ g) (rc_origin rc))
               (witness_path (S (N.to_nat (rc_depth rc))) m id)).

(** [std::tie(a.depth, a.usr) < std::tie(b.depth, b.usr)], negated and swapped. *)
Definition affected_le (a b : AffectedFunction) : Prop :=
  (af_depth a < af_depth b)%N \/ (af_depth a = af_depth b /\ bytes_le (af_usr a) (af_usr b)).

#[global] Instance affected_le_dec : RelDecision affected_le.
Proof. intros a b. unfold affected_le. apply _. Defined.

#[local] Existing Instance hub_le_dec.

Definition run_impact (changed : list bytes) : ImpactState :=
  let seeds := impact_seeds changed in
  impact_loop (length seeds + table_size (interner_ g)) (seed_all seeds).

Definition findImpact (changed : list bytes) : ImpactResult :=
  let st := run_impact changed in
  MkImpact (resolve (interner_ g) <$> impact_seeds changed) (unknown_names changed)
    (merge_sort affected_le (omap (affected_of (reached st)) (map_iter (reached st))))
    (merge_sort hub_le
       ((fun '(id, deg) => MkHub (resolve (interner_ g) id) (displayOf isValidUtf8 g id) deg)
          <$> map_iter (im_hubs st)))
    (st_stops st) (st_expansions st).
End Impact.

(** * Expanding one node *)

Section Expand.
Context (g : CallGraph) (filter_ : option (EdgeRef -> bool)) (node : SId) (rc : Reach).

Abbreviation expand := (foldl (reach_caller filter_ node (rc_depth rc))).

Definition via (e : EdgeRef) : Reach := MkReach (rc_depth rc + 1) node e (rc_origin rc).

(** What the loop over the callers adds to the state. *)
Record expanded (st : ImpactState) (callers : list EdgeRef) (st' : ImpactState) : Prop := {
  ex_keep : forall v r, reached st !! v = Some r -> reached st' !! v = Some r;
  ex_new : forall v r, reached st' !! v = Some r -> reached st !! v = Some r \/
    (reached st !! v = None /\ v ∈ queue st' /\
     exists e, e ∈ callers /\ admits filter_ e = true /\ r_caller e = v /\ r = via e);
  ex_queue : exists new, queue st' = queue st ++ new /\
    forall v, v ∈ new -> reached st !! v = None /\ exists r, reached st' !! v = Some r /\ rc_depth r = (rc_depth rc + 1)%N;
  ex_covers : forall e, e ∈ callers -> admits filter_ e = true -> is_Some (reached st' !! r_caller e);
  ex_stops : st_stops st' = st_stops st
}.

Lemma enqueue_new st id r :
  reached st !! id = None ->
  reached (enqueue id r st) = <[id := r]> (reached st) /\ queue (enqueue id r st) = queue st ++ [id] /\
  st_stops (enqueue id r st) = st_stops st.
Proof. intros E. unfold enqueue. simpl. by rewrite E. Qed.

Lemma expand_spec st callers :
  reached st !! node = Some rc -> expanded st callers (expand st callers).
Proof.
  intros Hn. induction callers as [|e l IH] using rev_ind.
  { split; [done|by left| |by intros e ?%not_elem_of_nil|done].
    exists []. rewrite app_nil_r. split; [done|]. by intros v ?%not_elem_of_nil. }
  rewrite foldl_app. destruct IH as [K1 K2 (new & K3 & K3') K4 K5]. cbn [foldl].
  set (st1 := expand st l) in *. unfold reach_caller at 1, admitted.
  destruct (admits filter_ e) eqn:Ha; simpl; [destruct (reached st1 !! r_caller e) as [r0|] eqn:Er|]; simpl.
  - split; [done| |by exists new| |done].
    + intros v r Hv. destruct (K2 v r Hv) as [?|(? & ? & e' & ? & ?)]; [by left|right].
      split_and!; [done|done|]. exists e'. rewrite elem_of_app. auto.
    + intros e' [He'| ->%list_elem_of_singleton]%elem_of_app Ha'; [by apply K4|by exists r0].
  - assert (Hat : reached_at st1 node = rc) by (unfold reached_at; by rewrite (K1 _ _ Hn)).
    rewrite Hat. change (MkReach _ _ _ _) with (via e).
    destruct (enqueue_new st1 (r_caller e) (via e) Er) as (E1 & E2 & E3).
    set (st2 := enqueue _ _ st1) in *. clearbody st2.
    split.
    + intros v r Hv. rewrite E1, lookup_insert_ne; [by apply K1|]. intros <-.
      apply K1 in Hv. congruence.
    + intros v r. rewrite E1, lookup_insert, E2. case_decide as Hd.
      * intros [= <-]. subst v. right. split_and!; [|rewrite elem_of_app; right; left|].
        -- destruct (reached st !! r_caller e) as [r|] eqn:Ev; [|done]. apply K1 in Ev. congruence.
        -- exists e. rewrite elem_of_app. split_and!; [right; left|done..].
      * intros Hv. destruct (K2 v r Hv) as [?|(? & ? & e' & ? & ?)]; [by left|right].
        rewrite elem_of_app. split_and!; [done|by left|]. exists e'. rewrite elem_of_app. auto.
    + exists (new ++ [r_caller e]). rewrite E2, K3, app_assoc. split; [done|].
      intros v [Hv| ->%list_elem_of_singleton]%elem_of_app.
      * destruct (K3' v Hv) as (? & r & Hr & ?). split; [done|]. exists r.
        rewrite E1, lookup_insert_ne by (intros <-; congruence). done.
      * split; [|exists (via e); by rewrite E1, lookup_insert_eq].
        destruct (reached st !! r_caller e) as [r|] eqn:Ev; [|done]. apply K1 in Ev. congruence.
    + intros e' He' Ha'. rewrite E1, lookup_insert. case_decide; [done|].
      apply elem_of_app in He' as [He'| ->%list_elem_of_singleton]; [by apply K4|done].
    + by rewrite E3.
  - split; [done| |by exists new| |done].
    + intros v r Hv. destruct (K2 v r Hv) as [?|(? & ? & e' & ? & ?)]; [by left|right].
      split_and!; [done|done|]. exists e'. rewrite elem_of_app. auto.
    + intros e' [He'| ->%list_elem_of_singleton]%elem_of_app Ha'; [by apply K4|congruence].
Qed.

(** The queue grows only as fast as ids of the table are reached. *)
Definition pending (st : ImpactState) : nat :=
  length (queue st) + size (table_ids g ∖ dom (reached st)).

Lemma expand_pending callers st :
  (forall e, e ∈ callers -> known (interner_ g) (r_caller e)) ->
  pending (expand st callers) <= pending st.
Proof.
  revert st. induction callers as [|e l IH]; intros st Hk; [done|]. cbn [foldl].
  etrans; [apply IH; intros e' ?; apply Hk; by right|].
  unfold reach_caller, admitted. destruct (admits filter_ e); simpl; [|done].
  destruct (reached st !! r_caller e) eqn:Er; simpl; [done|].
  destruct (enqueue_new st (r_caller e) (MkReach (rc_depth rc + 1) node e (rc_origin (reached_at st node))) Er)
    as (E1 & E2 & _).
  unfold pending. rewrite E1, E2, length_app, dom_insert_L. simpl.
  assert (Hin : r_caller e ∈ table_ids g ∖ dom (reached st)).
  { apply elem_of_difference. split; [apply known_table_id, Hk; left|by apply not_elem_of_dom]. }
  replace (table_ids g ∖ ({[r_caller e]} ∪ dom (reached st)))
    with ((table_ids g ∖ dom (reached st)) ∖ {[r_caller e]}) by set_solver.
  rewrite size_difference by set_solver. rewrite size_singleton.
  assert (size (table_ids g ∖ dom (reached st)) <> 0); [|lia].
  intros E%size_empty_iff. set_solver.
Qed.
End Expand.

(** * The loop *)

Section Loop.
Context (g : CallGraph) (limits : ImpactLimits) (filter_ : option (EdgeRef -> bool)).
Context (seeds : list SId).

Definition at_depth (st : ImpactState) (v : SId) (d : N) : Prop :=
  exists rc, reached st !! v = Some rc /\ rc_depth rc = d.

(** An entry is a seed, or one admitted caller edge above its parent's entry. *)
Definition entry_ok (m : gmap SId Reach) (v : SId) (rc : Reach) : Prop :=
  (rc_depth rc = 0%N /\ v ∈ seeds /\ rc_origin rc = v) \/
  ((v ∉ seeds) /\ r_caller (rc_edge rc) = v /\ rc_edge rc ∈ callerRefsOf g (rc_parent rc) /\
   admits filter_ (rc_edge rc) = true /\
   (im_maxDepth limits = 0 \/ rc_depth rc <= im_maxDepth limits)%N /\
   exists rp, m !! rc_parent rc = Some rp /\ rc_depth rc = (rc_depth rp + 1)%N /\ rc_origin rc = rc_origin rp).

Definition entries_ok (st : ImpactState) : Prop :=
  (forall s, s ∈ seeds -> at_depth st s 0) /\
  forall v rc, reached st !! v = Some rc -> entry_ok (reached st) v rc.

(** A node taken from the queue has its callers reached, or a stop says why not. *)
Definition done_with (st : ImpactState) (v : SId) (d : N) : Prop :=
  forall e, e ∈ callerRefsOf g v -> admits filter_ e = true ->
    (exists rc, reached st !! r_caller e = Some rc /\ (rc_depth rc <= d + 1)%N) \/
    has_stop (st_stops st) HubPruned = true \/
    (has_stop (st_stops st) DepthLimit = true /\ im_maxDepth limits <> 0%N /\ (im_maxDepth limits <= d)%N).

(** The queue holds the rest of level [d], then the start of level [d + 1]. *)
Record bfs (d : N) (q1 q2 : list SId) (st : ImpactState) : Prop := {
  b_entries : entries_ok st;
  b_queue : queue st = q1 ++ q2;
  b_level : forall v, v ∈ q1 -> at_depth st v d;
  b_next : forall v, v ∈ q2 -> at_depth st v (d + 1);
  b_window : forall v rc, reached st !! v = Some rc -> (rc_depth rc <= d + 1)%N;
  b_done : forall v rc, reached st !! v = Some rc -> v ∈ q1 ++ q2 \/ done_with st v (rc_depth rc)
}.

Lemma bfs_head d q1 q2 st node q :
  bfs d q1 q2 st -> queue st = node :: q ->
  exists d' q1' q2', q = q1' ++ q2' /\ bfs d' (node :: q1') q2' st.
Proof.
  intros [B1 B2 B3 B4 B5 B6] Hq. rewrite B2 in Hq. destruct q1 as [|x q1].
  - simpl in Hq. subst q2. exists (d + 1)%N, q, []. rewrite app_nil_r. split; [done|]. split; try done.
    + by rewrite app_nil_r.
    + by intros v ?%not_elem_of_nil.
    + intros v rc Hv. specialize (B5 v rc Hv). lia.
    + by rewrite app_nil_r.
  - injection Hq as -> <-. exists d, q1, q2. split; [done|]. by split.
Qed.

Lemma done_mono st st' v d :
  (forall u r, reached st !! u = Some r -> reached st' !! u = Some r) ->
  (forall r, has_stop (st_stops st) r = true -> has_stop (st_stops st') r = true) ->
  done_with st v d -> done_with st' v d.
Proof.
  intros Hr Hs Hd e He Ha. destruct (Hd e He Ha) as [(rc & H1 & H2)|[H|(H1 & H2)]].
  - left. exists rc. auto.
  - right. left. auto.
  - right. right. auto.
Qed.

(** Taking a node from the queue without expanding it. *)
Lemma bfs_pop d node q1 q2 st st' :
  bfs d (node :: q1) q2 st -> reached st' = reached st -> queue st' = q1 ++ q2 ->
  (forall r, has_stop (st_stops st) r = true -> has_stop (st_stops st') r = true) ->
  done_with st' node d -> bfs d q1 q2 st'.
Proof.
  intros [B1 B2 B3 B4 B5 B6] Er Eq Hs Hd.
  split; unfold entries_ok, at_depth in *; rewrite ?Er; try done.
  - intros v Hv. apply B3. by right.
  - intros v rc Hv. destruct (B6 v rc Hv) as [Hin|Hdone].
    + apply elem_of_cons in Hin as [->|Hin]; [right|by left].
      destruct (B3 node ltac:(left)) as (rc' & E & Ed). rewrite Hv in E. injection E as <-. by rewrite Ed.
    + right. eapply done_mono; [| |done]; [by rewrite Er|done].
Qed.

Lemma bfs_expand d node rc q1 q2 st st1 st' :
  bfs d (node :: q1) q2 st -> reached st !! node = Some rc ->
  reached st1 = reached st -> queue st1 = q1 ++ q2 -> st_stops st1 = st_stops st ->
  (im_maxDepth limits = 0 \/ d < im_maxDepth limits)%N ->
  expanded filter_ node rc st1 (sortCallerRefsCanonically g (callerRefsOf g node)) st' ->
  exists new, bfs d q1 (q2 ++ new) st'.
Proof.
  intros [[B1 B1'] B2 B3 B4 B5 B6] Hn Er Eq Es Hmax [K1 K2 (new & K3 & K3') K4 K5].
  rewrite Er in K1, K2, K3'. rewrite Eq in K3.
  assert (Hd : rc_depth rc = d) by (destruct (B3 node ltac:(left)) as (rc' & ? & ?); congruence).
  assert (Hlev : forall v d', at_depth st v d' -> at_depth st' v d').
  { intros v d' (r & Hr & ?). exists r. auto. }
  exists new. split.
  - split; [intros s Hs; by apply Hlev, B1|]. intros v r Hv. unfold entry_ok.
    destruct (K2 v r Hv) as [Hold|(Hnone & _ & e & He & Ha & Hc & ->)].
    + destruct (B1' v r Hold) as [?|(? & ? & ? & ? & ? & rp & Hp & ?)]; [by left|right].
      split_and!; [done..|]. exists rp. auto.
    + right. simpl. unfold sortCallerRefsCanonically in He. rewrite merge_sort_Permutation in He.
      split_and!; [|done|done|done|lia|exists rc; split_and!; [by apply K1|done|done]].
      intros Hs. destruct (B1 v Hs) as (r & ? & _). congruence.
  - by rewrite K3, app_assoc.
  - intros v Hv. apply Hlev, B3. by right.
  - intros v [Hv|Hv]%elem_of_app; [by apply Hlev, B4|].
    destruct (K3' v Hv) as (_ & r & Hr & Hrd). exists r. by rewrite Hrd, Hd.
  - intros v r Hv. destruct (K2 v r Hv) as [Hold|(_ & _ & e & _ & _ & _ & ->)]; [by eapply B5|].
    simpl. lia.
  - intros v r Hv. destruct (K2 v r Hv) as [Hold|(_ & Hin & _)]; [|left; by rewrite app_assoc, <- K3].
    destruct (B6 v r Hold) as [Hin|Hdone].
    + apply elem_of_cons in Hin as [->|Hin]; [right|left; rewrite app_assoc, elem_of_app; by left].
      intros e He Ha. left. destruct (K4 e) as (r' & Hr'); [|done|].
      { unfold sortCallerRefsCanonically. by rewrite merge_sort_Permutation. }
      exists r'. split; [done|]. rewrite Hn in Hold. injection Hold as <-.
      destruct (K2 _ _ Hr') as [H'|(_ & _ & e' & _ & _ & _ & ->)]; [|simpl; lia].
      specialize (B5 _ _ H'). lia.
    + right. eapply done_mono; [exact K1| |exact Hdone]. intros r'. by rewrite K5, Es.
Qed.

(** A finished traversal: every entry is accounted for. *)
Definition settled (st : ImpactState) : Prop :=
  entries_ok st /\
  (has_stop (st_stops st) WorkBudget = true \/
   forall v rc, reached st !! v = Some rc -> done_with st v (rc_depth rc)).

Lemma stop_has r st : has_stop (st_stops (stop_impact r st)) r = true.
Proof. simpl. rewrite has_stop_lor, has_stop_bit, bool_decide_true by done. apply orb_true_r. Qed.

Lemma stop_keeps r r' st :
  has_stop (st_stops st) r' = true -> has_stop (st_stops (stop_impact r st)) r' = true.
Proof. intros E. simpl. by rewrite has_stop_lor, E. Qed.

(** At the depth bound: either no caller is left to reach, or the stop is set. *)
Lemma depth_cut d node q1 q2 st st1 :
  bfs d (node :: q1) q2 st -> reached st1 = reached st ->
  im_maxDepth limits <> 0%N -> (im_maxDepth limits <= d)%N ->
  done_with (if existsb (admitted filter_ st1) (sortCallerRefsCanonically g (callerRefsOf g node))
             then stop_impact DepthLimit st1 else st1) node d.
Proof.
  intros [_ _ B3 _ B5 _] Er Hne Hle e He Ha. destruct (existsb _ _) eqn:Ex.
  - right. right. split; [apply stop_has|done].
  - left. assert (Hno : admitted filter_ st1 e = false).
    { apply not_true_iff_false. intros Hadm. apply not_true_iff_false in Ex. apply Ex, existsb_exists.
      exists e. split; [|done]. apply list_elem_of_In. unfold sortCallerRefsCanonically.
      by rewrite merge_sort_Permutation. }
    unfold admitted in Hno. rewrite Ha in Hno. simpl in Hno. rewrite Er in *.
    destruct (reached st !! r_caller e) as [r|] eqn:Hr; [|done]. exists r. split; [done|]. by eapply B5.
Qed.

Hypothesis Hknown : forall v e, e ∈ callerRefsOf g v -> known (interner_ g) (r_caller e).

Lemma impact_loop_settled fuel d q1 q2 st :
  bfs d q1 q2 st -> pending g st <= fuel -> settled (impact_loop g limits filter_ fuel st).
Proof.
  revert d q1 q2 st. induction fuel as [|fuel IH]; intros d q1 q2 st HB Hf.
  - assert (Hq : queue st = []) by (apply length_zero_iff_nil; unfold pending in Hf; lia).
    simpl. split; [apply HB|right]. intros v rc Hv. destruct (b_done _ _ _ _ HB v rc Hv) as [Hin|]; [|done].
    rewrite <- (b_queue _ _ _ _ HB), Hq in Hin. by apply not_elem_of_nil in Hin.
  - cbn [impact_loop]. destruct (queue st) as [|node q] eqn:Hq.
    { split; [apply HB|right]. intros v rc Hv. destruct (b_done _ _ _ _ HB v rc Hv) as [Hin|]; [|done].
      rewrite <- (b_queue _ _ _ _ HB), Hq in Hin. by apply not_elem_of_nil in Hin. }
    destruct (bfs_head _ _ _ _ _ _ HB Hq) as (d' & q1' & q2' & Eq & HB'). clear HB.
    destruct (b_level _ _ _ _ HB' node ltac:(left)) as (rc & Hrc & Hd).
    assert (Hp1 : pending g (set_queue q st) <= fuel) by (unfold pending in *; rewrite Hq in Hf; simpl in *; lia).
    assert (Hat : reached_at (set_queue q st) node = rc) by (unfold reached_at; simpl; by rewrite Hrc).
    rewrite Hat. set (callers := sortCallerRefsCanonically g (callerRefsOf g node)).
    destruct (_ && (im_maxDepth limits <=? rc_depth rc)%N) eqn:Hdep.
    { apply andb_true_iff in Hdep as [H1%negb_true_iff%N.eqb_neq H2%N.leb_le]. rewrite Hd in H2.
      apply (IH d' q1' q2').
      - eapply bfs_pop; [exact HB'| | | |by eapply depth_cut].
        + by destruct (existsb _ _).
        + by destruct (existsb _ _).
        + intros r Hr. destruct (existsb _ _); [by apply stop_keeps|done].
      - by destruct (existsb _ _). }
    assert (Hmax : (im_maxDepth limits = 0 \/ d' < im_maxDepth limits)%N).
    { apply andb_false_iff in Hdep as [H1%negb_false_iff%N.eqb_eq|H1%N.leb_gt]; lia. }
    clear Hdep. destruct (_ && (im_maxFanIn limits <? _)%N).
    { apply (IH d' q1' q2'); [|done].
      eapply bfs_pop; [exact HB'|done|done|intros r Hr; apply stop_keeps; exact Hr|].
      intros e _ _. right. left. apply stop_has. }
    destruct (_ && (im_maxWork limits <=? _)%N).
    { split; [apply HB'|left; apply stop_has]. }
    destruct (bfs_expand d' node rc q1' q2' st (spend_expansion (set_queue q st))
                (foldl (reach_caller filter_ node (rc_depth rc)) (spend_expansion (set_queue q st)) callers))
      as (new & HB''); try done.
    { by apply expand_spec. }
    apply (IH _ _ _ _ HB''). etrans; [apply expand_pending|done].
    intros e. unfold callers, sortCallerRefsCanonically. rewrite merge_sort_Permutation. apply Hknown.
Qed.
End Loop.

(** * Reading the table of reached nodes *)

Section Results.
Context (isValidUtf8 : bytes -> bool) (g : CallGraph) (limits : ImpactLimits).
Context (filter_ : option (EdgeRef -> bool)) (seeds : list SId).

Abbreviation walk := (walk g filter_).

(** Every entry stands for a walk up from its origin, and its witness path is it. *)
Lemma entry_walk st v rc :
  entries_ok g limits filter_ seeds st -> reached st !! v = Some rc ->
  exists es, rc_origin rc ∈ seeds /\ walk (rc_origin rc) es /\ walk_end (rc_origin rc) es = v /\
    rc_depth rc = N.of_nat (length es) /\
    witness_path isValidUtf8 g (S (N.to_nat (rc_depth rc))) (reached st) v = hopOf isValidUtf8 g <$> rev es.
Proof.
  intros [_ Hok]. remember (N.to_nat (rc_depth rc)) as n eqn:Hn. revert v rc Hn.
  induction n as [|n IH]; intros v rc Hn Hv;
    (destruct (Hok v rc Hv) as [(Hd & Hs & Ho)|(_ & Hc & He & Ha & _ & rp & Hp & Hd & Ho)]; [|try lia]).
  - exists []. rewrite Ho. split_and!; [done|done|done|done|]. cbn [witness_path]. by rewrite Hv, Hd.
  - rewrite Hd in Hn. done.
  - destruct (IH (rc_parent rc) rp ltac:(lia) Hp) as (es & K1 & K2 & K3 & K4 & K5).
    assert (Hw : witness_path isValidUtf8 g (S (S n)) (reached st) v =
      hopOf isValidUtf8 g (rc_edge rc) :: witness_path isValidUtf8 g (S n) (reached st) (rc_parent rc)).
    { cbn [witness_path]. rewrite Hv. by destruct (N.eqb_spec (rc_depth rc) 0) as [|_]; [lia|]. }
    rewrite Hw, K5, Ho. exists (es ++ [rc_edge rc]).
    rewrite walk_app, walk_end_app, K3, length_app, rev_app_distr.
    simpl. split_and!; [done|done|done|done|done|done|lia|done].
Qed.

(** Without a cut, a walk from a seed ends at an entry no deeper than the walk. *)
Lemma walk_entry st s es :
  settled g limits filter_ seeds st ->
  has_stop (st_stops st) WorkBudget = false -> has_stop (st_stops st) HubPruned = false ->
  (has_stop (st_stops st) DepthLimit = false \/ im_maxDepth limits = 0%N \/
     (N.of_nat (length es) <= im_maxDepth limits)%N) ->
  s ∈ seeds -> walk s es ->
  exists rc, reached st !! walk_end s es = Some rc /\ (rc_depth rc <= N.of_nat (length es))%N.
Proof.
  intros [[Hseeds _] [?|Hdone]] Hw Hh Hb Hs; [congruence|].
  induction es as [|e es IH] using rev_ind.
  { intros _. destruct (Hseeds s Hs) as (rc & ? & E). exists rc. simpl. split; [done|]. lia. }
  rewrite walk_app, walk_end_app, length_app in *. simpl in *. intros (Hes & He & Ha & _).
  destruct IH as (rc & Hrc & Hle); [destruct Hb as [?|[?|?]]; [by left|right; by left|right; right; lia]|done|].
  destruct (Hdone _ _ Hrc e He Ha) as [(r & Hr & ?)|[?|(? & ? & ?)]]; [|congruence|].
  - exists r. split; [done|lia].
  - destruct Hb as [?|[?|?]]; [congruence|done|lia].
Qed.

(** The initial state is the first level. *)
Lemma seed_all_lookup v : reached (seed_all seeds) !! v =
  if decide (v ∈ seeds) then Some (MkReach 0 0 (rc_edge empty_reach) v) else None.
Proof.
  unfold seed_all. induction seeds as [|s l IH] using rev_ind; [done|].
  rewrite foldl_app. cbn [foldl]. set (st := foldl _ _ l) in *.
  assert (Hst : reached (enqueue s (MkReach 0 0 (rc_edge empty_reach) s) st) !! v =
    if decide (v = s) then Some (default (MkReach 0 0 (rc_edge empty_reach) s) (reached st !! v)) else reached st !! v).
  { clear IH. unfold enqueue. simpl. destruct (reached st !! s) as [r|] eqn:Es, (decide (v = s)) as [->|Hv]; rewrite ?Es; try done.
    - by rewrite lookup_insert_eq.
    - by rewrite lookup_insert_ne. }
  rewrite Hst, IH. repeat case_decide; subst; rewrite ?elem_of_app, ?list_elem_of_singleton in *; tauto || done.
Qed.

Lemma seed_all_queue : queue (seed_all seeds) = seeds /\ st_stops (seed_all seeds) = 0%N /\ im_hubs (seed_all seeds) = ∅.
Proof.
  unfold seed_all. induction seeds as [|s l IH] using rev_ind; [done|].
  rewrite foldl_app. cbn [foldl]. set (st := foldl _ _ l) in *.
  destruct IH as (IH1 & IH2 & IH3). simpl. by rewrite IH1, IH2, IH3.
Qed.

Lemma seed_all_bfs : bfs g limits filter_ seeds 0 seeds [] (seed_all seeds).
Proof.
  assert (Hlev : forall v, v ∈ seeds -> at_depth (seed_all seeds) v 0).
  { intros v Hv. eexists. rewrite seed_all_lookup, decide_True by done. done. }
  assert (Hent : forall v rc, reached (seed_all seeds) !! v = Some rc ->
    v ∈ seeds /\ rc_depth rc = 0%N /\ rc_origin rc = v).
  { intros v rc. rewrite seed_all_lookup. case_decide; [|done]. by intros [= <-]. }
  split; rewrite ?app_nil_r; [split; [done|]|apply seed_all_queue|done|by intros v ?%not_elem_of_nil| |].
  - intros v rc Hv. left. destruct (Hent v rc Hv) as (? & ? & ?). done.
  - intros v rc Hv. destruct (Hent v rc Hv) as (_ & -> & _). lia.
  - intros v rc Hv. left. by apply (Hent v rc).
Qed.

Lemma seed_all_pending : pending g (seed_all seeds) <= length seeds + table_size (interner_ g).
Proof.
  unfold pending. rewrite (proj1 seed_all_queue). apply Nat.add_le_mono_l.
  transitivity (size (table_ids g)); [apply subseteq_size; set_solver|].
  unfold table_ids. rewrite size_list_to_set.
  - by rewrite length_fmap, length_seq.
  - apply (NoDup_fmap_2 N.of_nat), NoDup_seq.
Qed.
End Results.

(** * The whole traversal *)

#[global] Instance affected_le_total : Total affected_le.
Proof.
  intros a b. unfold affected_le. destruct (N.lt_trichotomy (af_depth a) (af_depth b)) as [?|[E|?]]; [auto| |auto].
  rewrite E. destruct (total bytes_le (af_usr a) (af_usr b)); auto.
Qed.

#[global] Instance affected_le_trans : Transitive affected_le.
Proof.
  intros a b c. unfold affected_le. intros [?|[E1 ?]] [?|[E2 ?]]; [left; lia|left; lia|left; lia|right].
  split; [congruence|]. by etrans.
Qed.

Lemma elem_of_unique_ids x l : x ∈ unique_ids l <-> x ∈ l.
Proof.
  induction l as [|a l IH]; [done|]. destruct l as [|b l]; [done|].
  change (unique_ids (a :: b :: l)) with (if (a =? b)%N then unique_ids (b :: l) else a :: unique_ids (b :: l)).
  destruct (N.eqb_spec a b) as [->|_].
  - rewrite IH, !elem_of_cons. tauto.
  - rewrite elem_of_cons, IH, (elem_of_cons (b :: l)). done.
Qed.

Section Whole.
Context (isValidUtf8 : bytes -> bool) (g : CallGraph) (Hg : cg_ok g) (limits : ImpactLimits).
Context (filter_ : option (EdgeRef -> bool)).

Lemma caller_known v e : e ∈ callerRefsOf g v -> known (interner_ g) (r_caller e).
Proof. intros He. apply (shown_known g e Hg). by apply (callerRefsOf_spec g v Hg). Qed.

Lemma resolveIds_known name id : id ∈ resolveIds isValidUtf8 g name -> known (interner_ g) id.
Proof.
  unfold resolveIds. rewrite elem_of_unique_ids, merge_sort_Permutation.
  assert (Hk : forall l, id ∈ known_ids isValidUtf8 g l -> known (interner_ g) id).
  { intros l (u & _ & Hu)%list_elem_of_omap. destruct (find (interner_ g) u) as [i|] eqn:Ef; [|done].
    destruct (referenced _ _ i); [|done]. injection Hu as ->. exists u. by apply find_resolve; [apply Hg|]. }
  destruct (known_ids _ _ (usrsForName _ _ _)) eqn:E; [apply Hk|]. rewrite <- E. apply Hk.
Qed.

Lemma seeds_known changed id : id ∈ impact_seeds isValidUtf8 g changed -> known (interner_ g) id.
Proof.
  unfold impact_seeds. rewrite elem_of_unique_ids, elem_of_ordered.
  intros (name & Hid & _)%list_elem_of_bind. by eapply resolveIds_known.
Qed.

Lemma run_impact_settled changed :
  settled g limits filter_ (impact_seeds isValidUtf8 g changed) (run_impact isValidUtf8 g limits filter_ changed).
Proof.
  apply (impact_loop_settled g limits filter_ _ caller_known _ 0 (impact_seeds isValidUtf8 g changed) []).
  - apply seed_all_bfs.
  - apply seed_all_pending.
Qed.

(** The hubs are known ids above the fan-in limit. *)
Definition hubs_ok (st : ImpactState) : Prop :=
  (forall v, v ∈ queue st -> known (interner_ g) v) /\
  forall v deg, im_hubs st !! v = Some deg -> known (interner_ g) v /\
    deg = N.of_nat (storedInDegree g v) /\ (im_maxFanIn limits < deg)%N.

Lemma reach_hubs_ok node depth callers st :
  (forall e, e ∈ callers -> known (interner_ g) (r_caller e)) -> hubs_ok st ->
  hubs_ok (foldl (reach_caller filter_ node depth) st callers).
Proof.
  revert st. induction callers as [|e l IH]; intros st Hk Hst; [done|]. cbn [foldl].
  apply IH; [intros; apply Hk; by right|]. unfold reach_caller. destruct (negb _); [done|].
  destruct Hst as [H1 H2]. split; [|done]. simpl.
  intros v [?| ->%list_elem_of_singleton]%elem_of_app; [auto|]. apply Hk. left.
Qed.

Lemma loop_hubs_ok fuel st : hubs_ok st -> hubs_ok (impact_loop g limits filter_ fuel st).
Proof.
  revert st. induction fuel as [|fuel IH]; intros st Hst; [done|]. cbn [impact_loop].
  destruct (queue st) as [|node q] eqn:Hq; [done|]. destruct Hst as [H1 H2]. rewrite Hq in H1.
  assert (Hpop : hubs_ok (set_queue q st)) by (split; [intros v Hv; apply H1; by right|done]).
  destruct (_ && (im_maxDepth limits <=? _)%N); [apply IH; by destruct (existsb _ _)|].
  destruct (_ && (im_maxFanIn limits <? _)%N) eqn:Hhub.
  - apply IH. split; [apply Hpop|]. simpl. apply andb_true_iff in Hhub as [_ Hlt%N.ltb_lt].
    intros v deg. destruct (im_hubs st !! node) eqn:En; [apply H2|].
    rewrite lookup_insert. case_decide as Hv; [|apply H2]. intros [= <-]. subst v.
    split_and!; [apply H1; left|done|done].
  - destruct (_ && (im_maxWork limits <=? _)%N); [done|]. apply IH, reach_hubs_ok; [|done].
    intros e. unfold sortCallerRefsCanonically. rewrite merge_sort_Permutation. apply caller_known.
Qed.

Lemma run_hubs_ok changed : hubs_ok (run_impact isValidUtf8 g limits filter_ changed).
Proof.
  apply loop_hubs_ok. destruct (seed_all_queue (impact_seeds isValidUtf8 g changed)) as (E1 & _ & E3).
  split; rewrite ?E1, ?E3; [apply seeds_known|]. intros v deg E. by rewrite lookup_empty in E.
Qed.

(** An id is determined by its usr. *)
Lemma resolve_inj a b :
  known (interner_ g) a -> known (interner_ g) b ->
  resolve (interner_ g) a = resolve (interner_ g) b -> a = b.
Proof.
  intros [s Ha] [s' Hb]. rewrite (resolve_of_opt _ _ _ Ha), (resolve_of_opt _ _ _ Hb). intros ->.
  by apply (resolve_opt_inj (interner_ g) a b s'); [apply Hg|..].
Qed.

(** The affected functions, unsorted: one per entry that is not a seed. *)
Lemma affected_entry `{!UnorderedIter} changed a :
  a ∈ im_affected (findImpact isValidUtf8 g limits filter_ changed) <->
  exists v rc, reached (run_impact isValidUtf8 g limits filter_ changed) !! v = Some rc /\
    affected_of isValidUtf8 g (reached (run_impact isValidUtf8 g limits filter_ changed)) (v, rc) = Some a.
Proof.
  simpl. rewrite merge_sort_Permutation, list_elem_of_omap. split.
  - intros ([v rc] & Hin & Ha). rewrite map_iter_perm, elem_of_map_to_list in Hin. by exists v, rc.
  - intros (v & rc & Hv & Ha). exists (v, rc). by rewrite map_iter_perm, elem_of_map_to_list.
Qed.

Lemma entry_known changed v rc :
  reached (run_impact isValidUtf8 g limits filter_ changed) !! v = Some rc -> known (interner_ g) v.
Proof.
  intros Hv. destruct (run_impact_settled changed) as [[_ Hok] _].
  destruct (Hok v rc Hv) as [(_ & Hs & _)|(_ & <- & He & _)]; [by eapply seeds_known|by eapply caller_known].
Qed.

Lemma affected_of_unique changed v rc v' rc' a a' :
  let m := reached (run_impact isValidUtf8 g limits filter_ changed) in
  m !! v = Some rc -> m !! v' = Some rc' ->
  affected_of isValidUtf8 g m (v, rc) = Some a -> affected_of isValidUtf8 g m (v', rc') = Some a' ->
  af_usr a = af_usr a' -> a = a'.
Proof.
  intros m Hv Hv' Ha Ha' E.
  assert (Hu : af_usr a = resolve (interner_ g) v)
    by (unfold affected_of in Ha; destruct (_ =? _)%N; [done|by injection Ha as <-]).
  assert (Hu' : af_usr a' = resolve (interner_ g) v')
    by (unfold affected_of in Ha'; destruct (_ =? _)%N; [done|by injection Ha' as <-]).
  assert (v = v') as <-.
  { apply resolve_inj; [by eapply entry_known|by eapply entry_known|congruence]. }
  congruence.
Qed.
End Whole.

Lemma map_iter_perm_any (U1 U2 : UnorderedIter) {V} (m : gmap N V) :
  @map_iter U1 V m ≡ₚ @map_iter U2 V m.
Proof. by rewrite (@map_iter_perm U1), (@map_iter_perm U2). Qed.

(** A sort whose key tells the elements apart forgets the order it was given. *)
Lemma merge_sort_perm {A} (R : relation A) `{!RelDecision R, !Total R, !Transitive R} (l k : list A) :
  (forall x y, x ∈ l -> y ∈ l -> R x y -> R y x -> x = y) -> l ≡ₚ k -> merge_sort R l = merge_sort R k.
Proof.
  intros Hanti Hp. apply (StronglySorted_unique_strong R).
  - intros x y. rewrite !merge_sort_Permutation, <- Hp. apply Hanti.
  - by apply StronglySorted_merge_sort.
  - by apply StronglySorted_merge_sort.
  - by rewrite !merge_sort_Permutation.
Qed.

(** C20. Every affected function is reached by a walk of admitted caller edges from the
    changed function it names; its depth is the length of the walk and within the
    bound, and its path is the walk, in call direction. *)
Theorem impact_sound `{!UnorderedIter} (isValidUtf8 : bytes -> bool) (g : CallGraph) (limits : ImpactLimits)
    (filter_ : option (EdgeRef -> bool)) (changed : list bytes) (a : AffectedFunction) :
  cg_ok g -> a ∈ im_affected (findImpact isValidUtf8 g limits filter_ changed) ->
  exists s es, s ∈ impact_seeds isValidUtf8 g changed /\ es <> [] /\
    walk g filter_ s es /\ (walk_end s es ∉ impact_seeds isValidUtf8 g changed) /\
    af_usr a = resolve (interner_ g) (walk_end s es) /\ af_changedUsr a = resolve (interner_ g) s /\
    af_depth a = N.of_nat (length es) /\
    (im_maxDepth limits = 0 \/ af_depth a <= im_maxDepth limits)%N /\
    af_path a = hopOf isValidUtf8 g <$> rev es.
Proof.
  intros Hg (v & rc & Hv & Ha)%affected_entry.
  destruct (run_impact_settled isValidUtf8 g Hg limits filter_ changed) as [Hent _].
  destruct (entry_walk isValidUtf8 g limits filter_ _ _ v rc Hent Hv) as (es & K1 & K2 & K3 & K4 & K5).
  unfold affected_of in Ha. destruct (N.eqb_spec (rc_depth rc) 0) as [|Hne]; [done|]. injection Ha as <-.
  destruct (proj2 Hent v rc Hv) as [(? & _)|(Hns & _ & _ & _ & Hb & _)]; [done|].
  exists (rc_origin rc), es. cbn [af_usr af_changedUsr af_depth af_path]. rewrite K3.
  split_and!; try done; try exact K5. by intros ->.
Qed.

(** C19. A complete result names every caller within the depth bound, and an exhaustive
    one every transitive caller, once, at its shortest distance from a changed
    function. *)
Theorem impact_covers `{!UnorderedIter} (isValidUtf8 : bytes -> bool) (g : CallGraph) (limits : ImpactLimits)
    (filter_ : option (EdgeRef -> bool)) (changed : list bytes) (s : SId) (es : list EdgeRef) :
  let r := findImpact isValidUtf8 g limits filter_ changed in
  cg_ok g -> impact_complete r = true ->
  (impact_exhaustive r = true \/ im_maxDepth limits = 0%N \/ (N.of_nat (length es) <= im_maxDepth limits)%N) ->
  s ∈ impact_seeds isValidUtf8 g changed -> walk g filter_ s es ->
  (walk_end s es ∉ impact_seeds isValidUtf8 g changed) ->
  exists a, a ∈ im_affected r /\ af_usr a = resolve (interner_ g) (walk_end s es) /\
    (af_depth a <= N.of_nat (length es))%N /\
    forall b, b ∈ im_affected r -> af_usr b = af_usr a -> b = a.
Proof.
  intros r Hg Hc Hb Hs Hw Hns. set (st := run_impact isValidUtf8 g limits filter_ changed).
  pose proof (run_impact_settled isValidUtf8 g Hg limits filter_ changed) as Hset.
  apply andb_true_iff in Hc as [H1%negb_true_iff H2%negb_true_iff].
  destruct (walk_entry g limits filter_ _ st s es Hset H1 H2) as (rc & Hrc & Hle); [|done|done|].
  { destruct Hb as [[_ Hz%N.eqb_eq]%andb_true_iff|Hb]; [left|by right].
    change (st_stops st) with (im_stops r). by rewrite Hz. }
  destruct (proj2 (proj1 Hset) _ _ Hrc) as [(_ & ? & _)|(_ & _ & _ & _ & _ & rp & _ & Hd & _)]; [done|].
  destruct (affected_of isValidUtf8 g (reached st) (walk_end s es, rc)) as [a|] eqn:Ha;
    [|unfold affected_of in Ha; destruct (N.eqb_spec (rc_depth rc) 0); [lia|done]].
  exists a. split; [apply affected_entry; by exists (walk_end s es), rc|].
  assert (Hau : af_usr a = resolve (interner_ g) (walk_end s es) /\ af_depth a = rc_depth rc)
    by (unfold affected_of in Ha; destruct (_ =? _)%N; [done|by injection Ha as <-]).
  destruct Hau as [Hu Hda]. rewrite Hda. split_and!; [done|done|].
  intros b (v & rb & Hv & Hb')%affected_entry E.
  by apply (affected_of_unique isValidUtf8 g Hg limits filter_ changed v rb (walk_end s es) rc b a).
Qed.

#[local] Existing Instance hub_le_dec.

#[local] Instance hub_le_total : Total hub_le.
Proof. intros a b. apply (total bytes_le). Qed.

#[local] Instance hub_le_trans : Transitive hub_le.
Proof. intros a b c. apply bytes_le_trans. Qed.

(** The result does not depend on the order in which the hash maps of the
    traversal are enumerated: the sorts by depth and usr, and by usr, decide it. *)
Theorem impact_deterministic (U1 U2 : UnorderedIter) (isValidUtf8 : bytes -> bool) (g : CallGraph)
    (limits : ImpactLimits) (filter_ : option (EdgeRef -> bool)) (changed : list bytes) :
  cg_ok g ->
  @findImpact U1 isValidUtf8 g limits filter_ changed = @findImpact U2 isValidUtf8 g limits filter_ changed.
Proof.
  intros Hg. unfold findImpact. set (st := run_impact isValidUtf8 g limits filter_ changed). f_equal.
  - apply (merge_sort_perm affected_le); [|by rewrite (map_iter_perm_any U1 U2)].
    intros a b Ha Hb Hab Hba.
    apply list_elem_of_omap in Ha as ([v rc] & Ha & Ea), Hb as ([v' rc'] & Hb & Eb).
    rewrite map_iter_perm, elem_of_map_to_list in Ha, Hb.
    apply (affected_of_unique isValidUtf8 g Hg limits filter_ changed v rc v' rc'); try done.
    unfold affected_le in *. destruct Hab as [?|[? Hab]], Hba as [?|[? Hba]]; try lia.
    by apply (anti_symm bytes_le).
  - apply (merge_sort_perm hub_le); [|by rewrite (map_iter_perm_any U1 U2)].
    intros a b Ha Hb Hab Hba.
    apply list_elem_of_fmap in Ha as ([v d] & -> & Ha), Hb as ([v' d'] & -> & Hb).
    rewrite map_iter_perm, elem_of_map_to_list in Ha, Hb.
    destruct (proj2 (run_hubs_ok isValidUtf8 g Hg limits filter_ changed) _ _ Ha) as (K & -> & _).
    destruct (proj2 (run_hubs_ok isValidUtf8 g Hg limits filter_ changed) _ _ Hb) as (K' & -> & _).
    assert (v = v') as ->; [|done]. apply (resolve_inj g Hg); [done|done|]. by apply (anti_symm bytes_le).
Qed.

Definition default_impact : ImpactLimits := MkImpactLimits 10 1000 200000.

Definition chain_impact : ImpactResult :=
  @findImpact canonical_iter valid_utf8b chain_graph default_impact None [str "work"].

Lemma impact_sound_witness :
  let a := MkAffected (str "main") (str "main") 1 (str "work") [hop (str "main") (str "work") (str "m:2")] in
  exists s es, s ∈ impact_seeds valid_utf8b chain_graph [str "work"] /\ es <> [] /\
    walk chain_graph None s es /\ (walk_end s es ∉ impact_seeds valid_utf8b chain_graph [str "work"]) /\
    af_usr a = resolve (interner_ chain_graph) (walk_end s es) /\
    af_changedUsr a = resolve (interner_ chain_graph) s /\
    af_depth a = N.of_nat (length es) /\
    (im_maxDepth default_impact = 0 \/ af_depth a <= im_maxDepth default_impact)%N /\
    af_path a = hopOf valid_utf8b chain_graph <$> rev es.
Proof.
  apply (@impact_sound canonical_iter valid_utf8b chain_graph default_impact None [str "work"]).
  - apply chain_graph_ok.
  - by_computation.
Defined.

Lemma impact_covers_witness :
  exists a, a ∈ im_affected chain_impact /\ af_usr a = str "main" /\ (af_depth a <= 2)%N /\
    forall b, b ∈ im_affected chain_impact -> af_usr b = af_usr a -> b = a.
Proof.
  apply (@impact_covers canonical_iter valid_utf8b chain_graph default_impact None [str "work"] 3%N
    [MkRef 1 3 4 DirectCall Proven Synchronous 0; MkRef 0 1 2 DirectCall Proven Synchronous 0]).
  - apply chain_graph_ok.
  - vm_compute. reflexivity.
  - left. vm_compute. reflexivity.
  - by_computation.
  - split; [by_computation|split; [done|split; [by_computation|done]]].
  - by_computation.
Defined.

(** Another enumeration order. *)
Definition reversed_iter : UnorderedIter.
Proof.
  refine {| map_iter := fun V m => rev (map_to_list m); set_iter := fun s => rev (elements s) |}.
  - intros V m. symmetry. apply Permutation_rev.
  - intros s. symmetry. apply Permutation_rev.
Defined.

Lemma impact_deterministic_witness :
  @findImpact reversed_iter valid_utf8b chain_graph default_impact None [str "work"] = chain_impact.
Proof.
  apply (impact_deterministic reversed_iter canonical_iter valid_utf8b chain_graph default_impact None [str "work"]).
  apply chain_graph_ok.
Defined.
