(* ===== verification/Ordering.v ===== *)
(** Lexicographic orders: the comparators the program hands to [std::sort] compare
    one field after the other, and [std::tie] compares tuples.  A comparator that
    orders a key that determines the element gives a sort whose result depends only
    on what is sorted, not on the order it was found in. *)

From S2P Require Import Prelude.

(** * Comparisons *)

Class TotalCmp {A : Type} (cmp : A -> A -> comparison) : Prop := {
  tcmp_eq : forall a b, cmp a b = Eq <-> a = b;
  tcmp_antisym : forall a b, cmp b a = CompOpp (cmp a b);
  tcmp_lt_trans : forall a b c, cmp a b = Lt -> cmp b c = Lt -> cmp a c = Lt
}.

#[global] Instance bytes_total_cmp : TotalCmp bytes_cmp.
Proof. split; [apply bytes_cmp_eq|apply bytes_cmp_antisym|apply bytes_cmp_lt_trans]. Qed.

#[global] Instance N_total_cmp : TotalCmp N.compare.
Proof.
  split; [apply N.compare_eq_iff|intros a b; apply N.compare_antisym|].
  intros a b c. rewrite !N.compare_lt_iff. lia.
Qed.

(** First component, then second. *)
Definition lex_cmp {A B} (ca : A -> A -> comparison) (cb : B -> B -> comparison) (x y : A * B) : comparison :=
  match ca x.1 y.1 with Eq => cb x.2 y.2 | c => c end.

#[global] Instance lex_total_cmp {A B} (ca : A -> A -> comparison) (cb : B -> B -> comparison) :
  TotalCmp ca -> TotalCmp cb -> TotalCmp (lex_cmp ca cb).
Proof.
  intros [E1 O1 T1] [E2 O2 T2]. split; unfold lex_cmp.
  - intros [a b] [a' b']; simpl. destruct (ca a a') eqn:E.
    + apply E1 in E as ->. rewrite E2. naive_solver.
    + split; [done|]. intros [= <- <-]. by rewrite (proj2 (E1 a a) eq_refl) in E.
    + split; [done|]. intros [= <- <-]. by rewrite (proj2 (E1 a a) eq_refl) in E.
  - intros [a b] [a' b']; simpl. rewrite (O1 a a'). destruct (ca a a'); simpl; auto.
  - intros [a b] [a' b'] [a'' b'']; simpl.
    destruct (ca a a') eqn:E; [apply E1 in E as ->| |done];
      destruct (ca a' a'') eqn:E'; try done; try (apply E1 in E' as ->).
    + apply T2.
    + by rewrite E.
    + by rewrite (T1 a a' a'').
Qed.

(** The order of a key that determines the element. *)
Definition cmp_on {A K} (key : A -> K) (cmp : K -> K -> comparison) (a b : A) : comparison :=
  cmp (key a) (key b).

Lemma cmp_on_total {A K} (key : A -> K) (cmp : K -> K -> comparison) :
  Inj (=) (=) key -> TotalCmp cmp -> TotalCmp (cmp_on key cmp).
Proof.
  intros Hinj [E O T]. split; unfold cmp_on.
  - intros a b. rewrite E. split; [apply Hinj|congruence].
  - intros a b. apply O.
  - intros a b c. apply T.
Qed.

(** * Sorting by a comparison *)

Section Sort.
Context {A : Type} (cmp : A -> A -> comparison) `{HC : !TotalCmp cmp}.

Definition cmp_le (a b : A) : Prop := cmp a b <> Gt.

#[global] Instance cmp_le_dec : RelDecision cmp_le.
Proof. intros a b. unfold cmp_le. destruct (cmp a b); [left|left|right]; congruence. Defined.

#[global] Instance cmp_le_total : Total cmp_le.
Proof. intros a b. unfold cmp_le. rewrite (tcmp_antisym (cmp := cmp) a b). destruct (cmp a b); simpl; auto. Qed.

#[global] Instance cmp_le_trans : Transitive cmp_le.
Proof.
  intros a b c. unfold cmp_le. intros H1 H2.
  destruct (cmp a b) eqn:E1; [apply (tcmp_eq (cmp := cmp)) in E1 as ->; done| |done].
  destruct (cmp b c) eqn:E2; [apply (tcmp_eq (cmp := cmp)) in E2 as ->; congruence| |done].
  by rewrite (tcmp_lt_trans (cmp := cmp) a b c).
Qed.

#[global] Instance cmp_le_antisymm : AntiSymm (=) cmp_le.
Proof.
  intros a b H1 H2. apply (tcmp_eq (cmp := cmp)). unfold cmp_le in *. rewrite (tcmp_antisym (cmp := cmp) a b) in H2.
  by destruct (cmp a b).
Qed.

Lemma sort_canonical (l k : list A) : l ≡ₚ k -> merge_sort cmp_le l = merge_sort cmp_le k.
Proof.
  intros Hp. apply (StronglySorted_unique cmp_le).
  - by apply StronglySorted_merge_sort; apply _.
  - by apply StronglySorted_merge_sort; apply _.
  - by rewrite !merge_sort_Permutation.
Qed.
End Sort.

(** A comparator written as [if (x != y) return x < y; ...] is a comparison. *)
Definition ltb_of (c : comparison) : bool := match c with Lt => true | _ => false end.

Lemma bytes_ltb_of a b : bytes_ltb a b = ltb_of (bytes_cmp a b).
Proof. done. Qed.

Lemma N_ltb_of a b : (a <? b)%N = ltb_of (N.compare a b).
Proof. done. Qed.

Lemma ltb_of_chain {A} `{!EqDecision A} (cmp : A -> A -> comparison) `{!TotalCmp cmp} (x y : A) (rest : bool) (c : comparison) :
  rest = ltb_of c ->
  (if negb (bool_decide (x = y)) then ltb_of (cmp x y) else rest) =
  ltb_of (match cmp x y with Eq => c | o => o end).
Proof.
  intros ->. case_bool_decide as Hd; simpl.
  - by rewrite (proj2 (tcmp_eq (cmp := cmp) x y) Hd).
  - destruct (cmp x y) eqn:E; [by apply (tcmp_eq (cmp := cmp)) in E|done|done].
Qed.

(** Sorting by a key that tells the sorted elements apart. *)
Section SortByKey.
Context {A K : Type} (key : A -> K) (cmp : K -> K -> comparison) `{HC : !TotalCmp cmp}.
Context (R : relation A) `{!RelDecision R} (HR : forall a b, R a b <-> cmp (key a) (key b) <> Gt).

#[local] Instance key_le_total : Total R.
Proof. intros a b. rewrite !HR. apply (total (cmp_le cmp)). Qed.

#[local] Instance key_le_trans : Transitive R.
Proof. intros a b c. rewrite !HR. apply (transitivity (R := cmp_le cmp)). Qed.

Lemma sort_by_key_sorted l : StronglySorted R (merge_sort R l).
Proof. apply (StronglySorted_merge_sort R). Qed.

Lemma sort_by_key_canonical l k :
  (forall a b, a ∈ l -> b ∈ l -> key a = key b -> a = b) -> l ≡ₚ k -> merge_sort R l = merge_sort R k.
Proof.
  intros Hinj Hp. apply (StronglySorted_unique_strong R); [|apply sort_by_key_sorted..|by rewrite !merge_sort_Permutation].
  intros a b Ha Hb H1%HR H2%HR. rewrite merge_sort_Permutation in Ha. rewrite merge_sort_Permutation, <- Hp in Hb.
  apply Hinj; [done|done|]. by apply (anti_symm (cmp_le cmp)).
Qed.
End SortByKey.

(** * [std::stable_sort]

    Elements that are equivalent keep their order: an element is put before the first one
    it is not behind. *)

Section StableSort.
Context {A : Type} (R : relation A) `{!RelDecision R}.

Fixpoint ordered_insert (x : A) (l : list A) : list A :=
  match l with
  | [] => [x]
  | y :: l' => if decide (R x y) then x :: l else y :: ordered_insert x l'
  end.

Definition stable_sort (l : list A) : list A := foldr ordered_insert [] l.

Lemma ordered_insert_perm x l : ordered_insert x l ≡ₚ x :: l.
Proof.
  induction l as [|y l IH]; cbn [ordered_insert]; [done|]. destruct (decide (R x y)); [done|].
  rewrite IH. apply Permutation_swap.
Qed.

Lemma stable_sort_perm l : stable_sort l ≡ₚ l.
Proof. induction l as [|x l IH]; cbn; [done|]. by rewrite ordered_insert_perm, IH. Qed.

Context `{!Total R, !Transitive R}.

Lemma ordered_insert_sorted x l : StronglySorted R l -> StronglySorted R (ordered_insert x l).
Proof.
  induction 1 as [|y l Hs IH Hf]; cbn [ordered_insert]; [repeat constructor|]. destruct (decide (R x y)) as [Hxy|Hxy].
  - constructor; [by constructor|]. constructor; [done|]. eapply Forall_impl; [exact Hf|]. intros z ?. by etrans.
  - constructor; [done|]. rewrite ordered_insert_perm. constructor; [|done]. by destruct (total R x y).
Qed.

Lemma stable_sort_sorted l : StronglySorted R (stable_sort l).
Proof. induction l; [constructor|]. by apply ordered_insert_sorted. Qed.

(** What comes out first is the first element of the input that no other is before. *)
Lemma stable_sort_head l :
  head (stable_sort l) =
  foldl (fun best c => match best with None => Some c | Some b => if decide (R b c) then best else Some c end) None l.
Proof.
  assert (Hacc : forall l b, foldl (fun best c => match best with None => Some c | Some b => if decide (R b c) then best else Some c end) (Some b) l =
    match head (stable_sort l) with None => Some b | Some c => if decide (R b c) then Some b else Some c end).
  { clear l. induction l as [|x l IH]; intros b; [done|]. cbn [foldl stable_sort foldr]. fold (stable_sort l).
    assert (Hh : head (ordered_insert x (stable_sort l)) = match head (stable_sort l) with None => Some x | Some c => if decide (R x c) then Some x else Some c end).
    { destruct (stable_sort l) as [|y k]; cbn [ordered_insert head]; [done|]. by destruct (decide (R x y)). }
    rewrite Hh. destruct (decide (R b x)) as [Hbx|Hbx]; rewrite IH; destruct (head (stable_sort l)) as [c|].
    - destruct (decide (R x c)) as [Hxc|Hxc]; [|done].
      rewrite (decide_True (P := R b c)) by (by etrans). by rewrite decide_True.
    - by rewrite decide_True.
    - destruct (decide (R x c)) as [Hxc|Hxc]; [by rewrite decide_False by done|]. rewrite decide_False; [done|].
      intros Hbc. apply Hxc. etrans; [|exact Hbc]. by destruct (total R b x).
    - by rewrite decide_False. }
  destruct l as [|x l]; [done|]. cbn [foldl stable_sort foldr]. fold (stable_sort l). rewrite Hacc.
  destruct (stable_sort l) as [|y k]; cbn [ordered_insert head]; [done|]. by destruct (decide (R x y)).
Qed.

Lemma stable_sort_least l :
  match head (stable_sort l) with
  | Some a => a ∈ l /\ forall b, b ∈ l -> R a b
  | None => l = []
  end.
Proof.
  pose proof (stable_sort_perm l) as Hp. pose proof (stable_sort_sorted l) as Hs.
  destruct (stable_sort l) as [|a k]; cbn [head].
  - by apply Permutation_nil_l in Hp.
  - split; [rewrite <- Hp; left|]. intros b Hb. rewrite <- Hp in Hb. apply elem_of_cons in Hb as [->|Hb].
    + by destruct (total R a a).
    + apply StronglySorted_cons in Hs as [Hs _]. by eapply Forall_forall in Hs.
Qed.
End StableSort.

(** * [std::sort]

    The order in which equivalent elements come out is unspecified, so the sort itself is
    an interface: any permutation of its input in which no element is less than one before
    it. *)

Definition no_less_before {A} (less : A -> A -> bool) (a b : A) : Prop := less b a = false.

(** A strict weak order, as [std::sort] demands of its comparator. *)
Class StrictWeak {A} (less : A -> A -> bool) : Prop := {
  weak_total : Total (no_less_before less);
  weak_trans : Transitive (no_less_before less)
}.

Class StdSort := {
  std_sort : forall {A : Type}, (A -> A -> bool) -> list A -> list A;
  std_sort_perm : forall A (less : A -> A -> bool) l, std_sort less l ≡ₚ l;
  std_sort_sorted : forall A (less : A -> A -> bool) l,
    StrictWeak less -> StronglySorted (no_less_before less) (std_sort less l)
}.

#[global] Instance no_less_before_dec {A} (less : A -> A -> bool) : RelDecision (no_less_before less).
Proof. intros a b. unfold no_less_before. apply _. Defined.

(** One sort that exists. *)
#[refine] Definition stable_std_sort : StdSort := {| std_sort := fun A less l => stable_sort (no_less_before less) l |}.
Proof.
  - intros. apply stable_sort_perm.
  - intros A less l [Ht Htr]. by apply stable_sort_sorted.
Defined.

(** A comparator that compares a key is a strict weak order. *)
Lemma strict_weak_of_key {A K} (key : A -> K) (cmp : K -> K -> comparison) `{!TotalCmp cmp} (less : A -> A -> bool) :
  (forall a b, less a b = ltb_of (cmp (key a) (key b))) -> StrictWeak less.
Proof.
  intros H.
  assert (E : forall a b, no_less_before less a b <-> cmp_le cmp (key a) (key b)).
  { intros a b. unfold no_less_before, cmp_le. rewrite H, (tcmp_antisym (cmp := cmp) (key a)). by destruct (cmp _ _). }
  split.
  - intros a b. rewrite !E. apply (total (cmp_le cmp)).
  - intros a b c. rewrite !E. apply (transitivity (R := cmp_le cmp)).
Qed.

(** Sequences compare element by element, a proper prefix first. *)
Fixpoint list_cmp {A} (cmp : A -> A -> comparison) (l k : list A) : comparison :=
  match l, k with
  | [], [] => Eq
  | [], _ :: _ => Lt
  | _ :: _, [] => Gt
  | x :: l', y :: k' => match cmp x y with Eq => list_cmp cmp l' k' | c => c end
  end.

#[global] Instance list_total_cmp {A} (cmp : A -> A -> comparison) : TotalCmp cmp -> TotalCmp (list_cmp cmp).
Proof.
  intros [E O T]. split.
  - induction a as [|x l IH]; intros [|y k]; cbn [list_cmp]; try done.
    destruct (cmp x y) eqn:Exy.
    + apply E in Exy as ->. rewrite IH. naive_solver.
    + split; [done|]. intros [= -> _]. by rewrite (proj2 (E y y) eq_refl) in Exy.
    + split; [done|]. intros [= -> _]. by rewrite (proj2 (E y y) eq_refl) in Exy.
  - induction a as [|x l IH]; intros [|y k]; cbn [list_cmp]; try done.
    rewrite (O x y). destruct (cmp x y); cbn; auto.
  - induction a as [|x l IH]; intros [|y k] [|z m]; cbn [list_cmp]; try done.
    destruct (cmp x y) eqn:Exy; [apply E in Exy as ->| |done];
      destruct (cmp y z) eqn:Eyz; try done; try (apply E in Eyz as ->).
    + apply IH.
    + by rewrite Exy.
    + by rewrite (T x y z).
Qed.

(** * The first least element *)

Section FirstLeast.
Context {A : Type} (less : A -> A -> bool).

(** [if (!best || less(c, *best)) best = c;] over a sequence. *)
Definition pick (best : option A) (c : A) : option A :=
  match best with None => Some c | Some b => if less c b then Some c else best end.

Definition first_least (l : list A) : option A := foldl pick None l.

(** [b] comes strictly before everything in front of it and behind nothing after it. *)
Definition is_first_least (l : list A) (b : A) : Prop :=
  exists pre post, l = pre ++ b :: post /\ Forall (fun y => less b y = true) pre /\ Forall (fun y => less y b = false) post.

Lemma is_first_least_unique l b b' : is_first_least l b -> is_first_least l b' -> b = b'.
Proof.
  intros (p & q & E & Hp & Hq) (p' & q' & E' & Hp' & Hq'). rewrite E in E'. clear E l.
  revert p' Hp' E'. induction p as [|x p IH]; intros [|x' p'] Hp' E'; cbn in E'; injection E' as E1 E2.
  - done.
  - subst. inversion Hp' as [|? ? Hlt _]; subst. assert (Hin : b' ∈ p' ++ b' :: q') by set_solver.
    eapply Forall_forall in Hq; [|exact Hin]. congruence.
  - subst. inversion Hp as [|? ? Hlt _]; subst. assert (Hin : b ∈ p ++ b :: q) by set_solver.
    eapply Forall_forall in Hq'; [|exact Hin]. congruence.
  - inversion Hp; inversion Hp'; subst. by eapply IH.
Qed.

Lemma is_first_least_filter (P : A -> Prop) `{!forall a, Decision (P a)} l b :
  is_first_least l b -> P b -> is_first_least (filter P l) b.
Proof.
  intros (p & q & -> & Hp & Hq) Hb. exists (filter P p), (filter P q). split_and!.
  - rewrite filter_app, filter_cons_True by done. done.
  - apply Forall_forall. intros y [_ Hy]%list_elem_of_filter. by eapply Forall_forall in Hp.
  - apply Forall_forall. intros y [_ Hy]%list_elem_of_filter. by eapply Forall_forall in Hq.
Qed.

Context `{HW : !StrictWeak less}.

Lemma first_least_spec l :
  match first_least l with
  | Some b => is_first_least l b
  | None => l = []
  end.
Proof.
  destruct HW as [Ht Htr]. unfold first_least. induction l as [|c l IH] using rev_ind; [done|].
  rewrite foldl_app. cbn [foldl]. destruct (foldl pick None l) as [b|]; cbn [pick].
  - destruct IH as (p & q & -> & Hp & Hq). destruct (less c b) eqn:E.
    + assert (Hbefore : forall y, no_less_before less b y -> less c y = true).
      { intros y Hy. destruct (less c y) eqn:Ey; [done|]. exfalso.
        assert (H : no_less_before less b c) by (by apply (transitivity (y := y))). unfold no_less_before in H. congruence. }
      exists (p ++ b :: q), []. split_and!; [done| |constructor].
      apply Forall_app. split; [|constructor; [done|]].
      * eapply Forall_impl; [exact Hp|]. intros y Hy. apply Hbefore. destruct (total (no_less_before less) b y) as [?|H]; [done|].
        unfold no_less_before in H. congruence.
      * eapply Forall_impl; [exact Hq|]. intros y Hy. by apply Hbefore.
    + exists p, (q ++ [c]). split_and!; [by rewrite <- app_assoc|done|]. apply Forall_app. by split; [|repeat constructor].
  - subst l. exists [], []. by split_and!.
Qed.

Lemma first_least_eq l b : is_first_least l b -> first_least l = Some b.
Proof.
  intros Hb. pose proof (first_least_spec l) as H. destruct (first_least l) as [b'|].
  - f_equal. by eapply is_first_least_unique.
  - subst l. destruct Hb as ([|] & ? & ? & _); done.
Qed.
End FirstLeast.

(** The first element of a stable sort is the first least one. *)
Lemma stable_sort_first {A} (less : A -> A -> bool) `{HW : !StrictWeak less} l :
  head (stable_sort (no_less_before less) l) = first_least less l.
Proof.
  destruct HW as [Ht Htr]. rewrite stable_sort_head by done. unfold first_least.
  set (f := fun best c => _). assert (E : forall best c, f best c = pick less best c).
  { intros [b|] c; unfold f; [|done]. cbn [pick]. unfold no_less_before. destruct (decide (less c b = false)) as [->|E%not_false_iff_true]; [done|by rewrite E]. }
  assert (H : forall best, foldl f best l = foldl (pick less) best l); [|apply H].
  induction l as [|c l IH]; intros best; cbn [foldl]; [done|]. by rewrite E, IH.
Qed.

Lemma first_least_fmap {A B} (f : A -> B) (less : B -> B -> bool) l :
  first_least less (f <$> l) = f <$> first_least (fun a b => less (f a) (f b)) l.
Proof.
  unfold first_least. assert (H : forall best, foldl (pick less) (f <$> best) (f <$> l) = f <$> foldl (pick (fun a b => less (f a) (f b))) best l).
  - induction l as [|c l IH]; intros best; cbn [foldl fmap list_fmap]; [done|]. rewrite <- IH. f_equal. destruct best as [b|]; cbn; [|done]. by destruct (less _ _).
  - apply (H None).
Qed.
