(* ===== verification/Query.v ===== *)
(** What the query tools share: the enum spellings and the canonical edge order
    (src/query/Serialize.cpp), the edge filter (src/query/EdgeFilter.h), paging
    (src/query/Paging.h) and the search limits (src/query/Limits.cpp).

    Tool arguments are a JSON object of a library outside the repository; what the
    tools read of it is the record of accessors [JsonArgs]. *)

From S2P Require Import Prelude Registrations CallGraph CallGraphInv Ordering.

(** * Tool arguments *)

(** [getString] and the like answer only for a member of that type; [getArray]
    lists the members of an array, [None] for one that is not a string;
    [get] says that the member is present, whatever its type. *)
Record JsonArgs := MkArgs {
  getString : bytes -> option bytes;
  getInteger : bytes -> option Z;
  getBoolean : bytes -> option bool;
  getArray : bytes -> option (list (option bytes));
  get : bytes -> bool
}.

(** [int64_t] values an argument can have. *)
Definition int64 (z : Z) : Prop := (- 2 ^ 63 <= z < 2 ^ 63)%Z.

(** * Enum spellings *)

Module Serialize.

Definition edgeKindToString (k : EdgeKind) : bytes :=
  str match k with
      | DirectCall => "DirectCall"
      | VirtualDispatch => "VirtualDispatch"
      | FunctionPointer => "FunctionPointer"
      | ConstructorCall => "ConstructorCall"
      | DestructorCall => "DestructorCall"
      | OperatorCall => "OperatorCall"
      | TemplateInstantiation => "TemplateInstantiation"
      | LambdaCall => "LambdaCall"
      | ThreadEntry => "ThreadEntry"
      | FunctionPointerReturn => "FunctionPointerReturn"
      end.

Definition executionContextToString (c : ExecutionContext) : bytes :=
  str match c with
      | Synchronous => "Synchronous"
      | ThreadSpawn => "ThreadSpawn"
      | AsyncTask => "AsyncTask"
      | PackagedTask => "PackagedTask"
      | Invoke => "Invoke"
      end.

Definition parseExecutionContext (s : bytes) : option ExecutionContext :=
  if decide (s = str "Synchronous") then Some Synchronous
  else if decide (s = str "ThreadSpawn") then Some ThreadSpawn
  else if decide (s = str "AsyncTask") then Some AsyncTask
  else if decide (s = str "PackagedTask") then Some PackagedTask
  else if decide (s = str "Invoke") then Some Invoke
  else None.

Definition confidenceToString (c : Confidence) : bytes :=
  str match c with Proven => "Proven" | Plausible => "Plausible" | Unknown => "Unknown" end.

Definition parseEdgeKind (s : bytes) : EdgeKind :=
  if decide (s = str "DirectCall") then DirectCall
  else if decide (s = str "VirtualDispatch") then VirtualDispatch
  else if decide (s = str "FunctionPointer") then FunctionPointer
  else if decide (s = str "ConstructorCall") then ConstructorCall
  else if decide (s = str "DestructorCall") then DestructorCall
  else if decide (s = str "OperatorCall") then OperatorCall
  else if decide (s = str "TemplateInstantiation") then TemplateInstantiation
  else if decide (s = str "LambdaCall") then LambdaCall
  else if decide (s = str "ThreadEntry") then ThreadEntry
  else DirectCall.

Definition parseConfidence (s : bytes) : Confidence :=
  if decide (s = str "Proven") then Proven
  else if decide (s = str "Plausible") then Plausible
  else Unknown.

Definition confidenceRank (c : Confidence) : Z :=
  match c with Proven => 2 | Plausible => 1 | Unknown => 0 end.

(** * Canonical edge order *)

Definition canonicalEdgeLess (a b : CallGraphEdge) : bool :=
  if negb (bool_decide (callerUsr a = callerUsr b)) then bytes_ltb (callerUsr a) (callerUsr b)
  else if negb (bool_decide (calleeUsr a = calleeUsr b)) then bytes_ltb (calleeUsr a) (calleeUsr b)
  else if negb (bool_decide (e_callSite a = e_callSite b)) then bytes_ltb (e_callSite a) (e_callSite b)
  else if negb (bool_decide (e_kind a = e_kind b)) then (kind_code (e_kind a) <? kind_code (e_kind b))%N
  else if negb (bool_decide (e_confidence a = e_confidence b)) then
    (confidence_code (e_confidence a) <? confidence_code (e_confidence b))%N
  else if negb (bool_decide (e_execContext a = e_execContext b)) then
    (exec_code (e_execContext a) <? exec_code (e_execContext b))%N
  else if negb (bool_decide (e_indirectionDepth a = e_indirectionDepth b)) then
    (e_indirectionDepth a <? e_indirectionDepth b)%N
  else if negb (bool_decide (callerName a = callerName b)) then bytes_ltb (callerName a) (callerName b)
  else bytes_ltb (calleeName a) (calleeName b).

(** [std::sort] with a comparator: [a] may come before [b] unless [b] is less. *)
Definition edge_le (a b : CallGraphEdge) : Prop := canonicalEdgeLess b a = false.

#[global] Instance edge_le_dec : RelDecision edge_le.
Proof. intros a b. unfold edge_le. apply _. Defined.

Definition sortEdgesCanonically (edges : list CallGraphEdge) : list CallGraphEdge :=
  merge_sort edge_le edges.

(** The fields in the order they are compared. *)
Definition edge_order (a : CallGraphEdge) :=
  (callerUsr a, (calleeUsr a, (e_callSite a, (e_kind a, (e_confidence a, (e_execContext a,
     (e_indirectionDepth a, (callerName a, calleeName a)))))))).

Definition kind_cmp : EdgeKind -> EdgeKind -> comparison := cmp_on kind_code N.compare.
Definition confidence_cmp : Confidence -> Confidence -> comparison := cmp_on confidence_code N.compare.
Definition exec_cmp : ExecutionContext -> ExecutionContext -> comparison := cmp_on exec_code N.compare.

#[global] Instance kind_cmp_total : TotalCmp kind_cmp.
Proof. apply cmp_on_total; [exact kind_code_inj|apply _]. Qed.
#[global] Instance confidence_cmp_total : TotalCmp confidence_cmp.
Proof. apply cmp_on_total; [exact confidence_code_inj|apply _]. Qed.
#[global] Instance exec_cmp_total : TotalCmp exec_cmp.
Proof. apply cmp_on_total; [exact exec_code_inj|apply _]. Qed.

Definition edge_cmp : CallGraphEdge -> CallGraphEdge -> comparison :=
  cmp_on edge_order
    (lex_cmp bytes_cmp (lex_cmp bytes_cmp (lex_cmp bytes_cmp (lex_cmp kind_cmp
       (lex_cmp confidence_cmp (lex_cmp exec_cmp (lex_cmp N.compare (lex_cmp bytes_cmp bytes_cmp)))))))).

#[global] Instance edge_cmp_total : TotalCmp edge_cmp.
Proof.
  apply cmp_on_total; [|apply _]. intros [] []. unfold edge_order. simpl. by intros [= -> -> -> -> -> -> -> -> ->].
Qed.

Lemma canonicalEdgeLess_cmp a b : canonicalEdgeLess a b = ltb_of (edge_cmp a b).
Proof.
  unfold canonicalEdgeLess, edge_cmp, cmp_on at 1, lex_cmp, edge_order. simpl.
  rewrite !bytes_ltb_of, !N_ltb_of.
  change (kind_code (e_kind a) ?= kind_code (e_kind b))%N with (kind_cmp (e_kind a) (e_kind b)).
  change (confidence_code (e_confidence a) ?= confidence_code (e_confidence b))%N
    with (confidence_cmp (e_confidence a) (e_confidence b)).
  change (exec_code (e_execContext a) ?= exec_code (e_execContext b))%N
    with (exec_cmp (e_execContext a) (e_execContext b)).
  do 8 (apply ltb_of_chain; [apply _|]). done.
Qed.

Lemma edge_le_cmp a b : edge_le a b <-> cmp_le edge_cmp a b.
Proof.
  unfold edge_le, cmp_le. rewrite canonicalEdgeLess_cmp, (tcmp_antisym (cmp := edge_cmp) a b).
  by destruct (edge_cmp a b).
Qed.

#[global] Instance edge_le_total : Total edge_le.
Proof. intros a b. rewrite !edge_le_cmp. apply (total (cmp_le edge_cmp)). Qed.
#[global] Instance edge_le_trans : Transitive edge_le.
Proof. intros a b c. rewrite !edge_le_cmp. apply transitivity. Qed.
#[global] Instance edge_le_antisymm : AntiSymm (=) edge_le.
Proof. intros a b. rewrite !edge_le_cmp. apply (anti_symm (cmp_le edge_cmp)). Qed.
End Serialize.
Export Serialize.

(** The spellings round trip, the parsers accept nothing else, and the deferred
    edge kind, which no tool shows, is the one kind that cannot be asked for. *)
Theorem enum_spellings :
  (forall c s, parseExecutionContext s = Some c <-> s = executionContextToString c) /\
  (forall c, parseConfidence (confidenceToString c) = c) /\
  (forall s, parseConfidence s <> Unknown <-> s = confidenceToString Proven \/ s = confidenceToString Plausible) /\
  (forall k, parseEdgeKind (edgeKindToString k) = if decide (k = FunctionPointerReturn) then DirectCall else k) /\
  (forall s, parseEdgeKind s <> DirectCall -> s = edgeKindToString (parseEdgeKind s)).
Proof.
  split_and!.
  - intros c s. unfold parseExecutionContext. split; [|intros ->; by destruct c].
    repeat case_decide; subst; by intros [= <-].
  - by intros [].
  - intros s. unfold parseConfidence. repeat case_decide; naive_solver.
  - by intros [].
  - intros s. unfold parseEdgeKind. by repeat case_decide.
Qed.

(** The canonical sort keeps the edges, orders them by the comparator, and its
    result does not depend on the order the edges are found in. *)
Theorem edges_canonical (edges edges' : list CallGraphEdge) :
  sortEdgesCanonically edges ≡ₚ edges /\
  StronglySorted (fun a b => canonicalEdgeLess b a = false) (sortEdgesCanonically edges) /\
  (edges ≡ₚ edges' -> sortEdgesCanonically edges = sortEdgesCanonically edges').
Proof.
  unfold sortEdgesCanonically. split_and!.
  - apply merge_sort_Permutation.
  - apply (StronglySorted_merge_sort edge_le).
  - intros Hp. apply (StronglySorted_unique edge_le); [apply (StronglySorted_merge_sort edge_le)..|].
    by rewrite !merge_sort_Permutation.
Qed.

Lemma edges_canonical_witness :
  let a := MkEdge (str "a") (str "b") DirectCall Proven (str "m:1") 0 Synchronous (str "a") (str "b") in
  let b := MkEdge (str "a") (str "c") DirectCall Proven (str "m:1") 0 Synchronous (str "a") (str "c") in
  sortEdgesCanonically [b; a] = [a; b] /\ sortEdgesCanonically [b; a] = sortEdgesCanonically [a; b].
Proof.
  split; [reflexivity|]. apply edges_canonical. apply Permutation_swap.
Defined.

(** * Edge filter *)

Module EdgeFilter.

#[global] Program Instance EdgeKind_countable : Countable EdgeKind :=
  inj_countable kind_code
    (fun n => nth_error [DirectCall; VirtualDispatch; FunctionPointer; ConstructorCall; DestructorCall;
                         OperatorCall; TemplateInstantiation; LambdaCall; ThreadEntry; FunctionPointerReturn]
                (N.to_nat n)) _.
Next Obligation. by intros []. Qed.

#[global] Program Instance Confidence_countable : Countable Confidence :=
  inj_countable confidence_code (fun n => nth_error [Proven; Plausible; Unknown] (N.to_nat n)) _.
Next Obligation. by intros []. Qed.

#[global] Program Instance ExecutionContext_countable : Countable ExecutionContext :=
  inj_countable exec_code
    (fun n => nth_error [Synchronous; ThreadSpawn; AsyncTask; PackagedTask; Invoke] (N.to_nat n)) _.
Next Obligation. by intros []. Qed.

Record EdgeFilter := MkFilter {
  kinds : gset EdgeKind;
  includeConfidences : gset Confidence;
  useIncludeSet : bool;
  minConf : Confidence;
  execContexts : gset ExecutionContext
}.

Definition no_filter : EdgeFilter := MkFilter ∅ ∅ false Unknown ∅.

Definition allowsFields (f : EdgeFilter) (kind : EdgeKind) (conf : Confidence) (execCtx : ExecutionContext) : bool :=
  if negb (bool_decide (kinds f = ∅)) && negb (bool_decide (kind ∈ kinds f)) then false
  else if negb (bool_decide (execContexts f = ∅)) && negb (bool_decide (execCtx ∈ execContexts f)) then false
  else if useIncludeSet f then bool_decide (conf ∈ includeConfidences f)
  else (confidenceRank (minConf f) <=? confidenceRank conf)%Z.

Definition allows (f : EdgeFilter) (e : CallGraphEdge) : bool :=
  allowsFields f (e_kind e) (e_confidence e) (e_execContext e).

Definition allowsRef (f : EdgeFilter) (e : EdgeRef) : bool :=
  allowsFields f (r_kind e) (r_confidence e) (r_execContext e).

(** The loops over the three arrays; an element that is not a string is skipped. *)
Definition add_kinds (l : list (option bytes)) (s : gset EdgeKind) : gset EdgeKind :=
  foldl (fun s v => match v with Some x => {[parseEdgeKind x]} ∪ s | None => s end) s l.

Fixpoint add_confidences (l : list (option bytes)) (s : gset Confidence) : bytes + gset Confidence :=
  match l with
  | [] => inr s
  | None :: l' => add_confidences l' s
  | Some x :: l' =>
      if negb (bool_decide (x = str "Proven")) && negb (bool_decide (x = str "Plausible")) &&
         negb (bool_decide (x = str "Unknown"))
      then inl (str "Invalid value in include_confidences: '" ++ x ++
                str "' (expected Proven, Plausible, or Unknown)")
      else add_confidences l' ({[parseConfidence x]} ∪ s)
  end.

Fixpoint add_contexts (l : list (option bytes)) (s : gset ExecutionContext) : bytes + gset ExecutionContext :=
  match l with
  | [] => inr s
  | None :: l' => add_contexts l' s
  | Some x :: l' =>
      match parseExecutionContext x with
      | None => inl (str "Invalid value in execution_contexts: '" ++ x ++
                     str "' (expected Synchronous, ThreadSpawn, AsyncTask, PackagedTask, or Invoke)")
      | Some c => add_contexts l' ({[c]} ∪ s)
      end
  end.

(** The error message, or the filter built on the default one. *)
Definition parseEdgeFilter (args : JsonArgs) : bytes + EdgeFilter :=
  let ks := match getArray args (str "edge_kinds") with Some l => add_kinds l ∅ | None => ∅ end in
  let conf :=
    match getArray args (str "include_confidences") with
    | Some l =>
        match add_confidences l ∅ with
        | inl err => inl err
        | inr s => inr (MkFilter ks s true Unknown ∅)
        end
    | None =>
        inr (MkFilter ks ∅ false
               (match getString args (str "min_confidence") with Some mc => parseConfidence mc | None => Unknown end)
               ∅)
    end in
  match conf with
  | inl err => inl err
  | inr f =>
      match getArray args (str "execution_contexts") with
      | Some l =>
          match add_contexts l ∅ with
          | inl err => inl err
          | inr s => inr (MkFilter (kinds f) (includeConfidences f) (useIncludeSet f) (minConf f) s)
          end
      | None => inr f
      end
  end.

(** The strings of an array argument. *)
Definition named (args : JsonArgs) (key : bytes) (x : bytes) : Prop :=
  exists l, getArray args key = Some l /\ Some x ∈ l.

Lemma elem_of_add_kinds l s k :
  k ∈ add_kinds l s <-> k ∈ s \/ exists x, Some x ∈ l /\ parseEdgeKind x = k.
Proof.
  unfold add_kinds. revert s. induction l as [|[y|] l IH]; intros s; simpl.
  - split; [by left|]. intros [?|(x & ?%not_elem_of_nil & _)]; done.
  - rewrite IH, elem_of_union, elem_of_singleton. setoid_rewrite elem_of_cons. naive_solver.
  - rewrite IH. setoid_rewrite elem_of_cons. naive_solver.
Qed.

Lemma add_confidences_spec l s :
  match add_confidences l s with
  | inl _ => exists x, Some x ∈ l /\ forall c, x <> confidenceToString c
  | inr s' => (forall x, Some x ∈ l -> exists c, x = confidenceToString c) /\
              forall c, c ∈ s' <-> c ∈ s \/ Some (confidenceToString c) ∈ l
  end.
Proof.
  revert s. induction l as [|[y|] l IH]; intros s; simpl.
  - split; [by intros x ?%not_elem_of_nil|]. intros c. rewrite elem_of_nil. tauto.
  - destruct (_ && _) eqn:E.
    + exists y. split; [left|]. intros c ->. by destruct c.
    + assert (Hy : y = confidenceToString (parseConfidence y)).
      { rewrite !andb_false_iff, !negb_false_iff, !bool_decide_eq_true in E.
        unfold parseConfidence. repeat case_decide; [done|done|naive_solver]. }
      specialize (IH ({[parseConfidence y]} ∪ s)). destruct (add_confidences l _) as [err|s'].
      * destruct IH as (x & ? & ?). exists x. split; [by right|done].
      * destruct IH as [H1 H2]. split.
        { intros x [[= ->]|?]%elem_of_cons; eauto. }
        intros c. rewrite H2, elem_of_union, elem_of_singleton, elem_of_cons.
        assert (Some (confidenceToString c) = Some y <-> c = parseConfidence y); [|tauto].
        split; [intros [= <-]; by destruct c|intros ->; by rewrite <- Hy].
  - specialize (IH s). destruct (add_confidences l s).
    + destruct IH as (x & ? & ?). exists x. split; [by right|done].
    + destruct IH as [H1 H2]. split; [intros x [?|?]%elem_of_cons; naive_solver|].
      intros c. rewrite H2, elem_of_cons. naive_solver.
Qed.

Lemma parse_context_iff x c : parseExecutionContext x = Some c <-> x = executionContextToString c.
Proof.
  unfold parseExecutionContext. split; [|intros ->; by destruct c].
  repeat case_decide; subst; by intros [= <-].
Qed.

Lemma add_contexts_spec l s :
  match add_contexts l s with
  | inl _ => exists x, Some x ∈ l /\ forall c, x <> executionContextToString c
  | inr s' => (forall x, Some x ∈ l -> exists c, x = executionContextToString c) /\
              forall c, c ∈ s' <-> c ∈ s \/ Some (executionContextToString c) ∈ l
  end.
Proof.
  revert s. induction l as [|[y|] l IH]; intros s; simpl.
  - split; [by intros x ?%not_elem_of_nil|]. intros c. rewrite elem_of_nil. tauto.
  - destruct (parseExecutionContext y) as [c0|] eqn:E.
    + apply parse_context_iff in E. specialize (IH ({[c0]} ∪ s)). destruct (add_contexts l _) as [err|s'].
      * destruct IH as (x & ? & ?). exists x. split; [by right|done].
      * destruct IH as [H1 H2]. split.
        { intros x [[= ->]|?]%elem_of_cons; eauto. }
        intros c. rewrite H2, elem_of_union, elem_of_singleton, elem_of_cons.
        assert (Some (executionContextToString c) = Some y <-> c = c0); [|tauto].
        rewrite E. split; [|by intros ->]. intros [= Hc]. by destruct c, c0.
    + exists y. split; [left|]. intros c Hc. apply parse_context_iff in Hc. congruence.
  - specialize (IH s). destruct (add_contexts l s).
    + destruct IH as (x & ? & ?). exists x. split; [by right|done].
    + destruct IH as [H1 H2]. split; [intros x [?|?]%elem_of_cons; naive_solver|].
      intros c. rewrite H2, elem_of_cons. naive_solver.
Qed.
(** A set filter that is not applied, or that holds the element. *)
Definition gate {A} `{Countable A} (s : gset A) (x : A) : bool :=
  negb (bool_decide (s = ∅)) && negb (bool_decide (x ∈ s)).

Lemma gate_open {A} `{Countable A} (s : gset A) (x : A) : gate s x = false <-> s = ∅ \/ x ∈ s.
Proof. unfold gate. by rewrite andb_false_iff, !negb_false_iff, !bool_decide_eq_true. Qed.

Lemma kinds_gate args k :
  let ks := match getArray args (str "edge_kinds") with Some l => add_kinds l ∅ | None => ∅ end in
  ks = ∅ \/ k ∈ ks <->
  (forall x, ~ named args (str "edge_kinds") x) \/ exists x, named args (str "edge_kinds") x /\ parseEdgeKind x = k.
Proof.
  intros ks. subst ks. unfold named. destruct (getArray args (str "edge_kinds")) as [l|]; [|naive_solver].
  rewrite elem_of_add_kinds. split.
  - intros [He|[?%not_elem_of_empty|(x & ? & ?)]]; [left|done|right; naive_solver].
    intros x (l' & [= <-] & Hx). assert (Hk : parseEdgeKind x ∈ add_kinds l ∅) by (apply elem_of_add_kinds; eauto).
    rewrite He in Hk. by apply not_elem_of_empty in Hk.
  - intros [Hn|(x & (l' & [= <-] & Hx) & Hk)]; [left|right; eauto].
    apply elem_of_equiv_empty_L. intros k' [?%not_elem_of_empty|(x & Hx & _)]%elem_of_add_kinds; naive_solver.
Qed.

Lemma contexts_gate args l s c :
  getArray args (str "execution_contexts") = Some l -> add_contexts l ∅ = inr s ->
  s = ∅ \/ c ∈ s <->
  (forall x, ~ named args (str "execution_contexts") x) \/
  named args (str "execution_contexts") (executionContextToString c).
Proof.
  intros El Es. pose proof (add_contexts_spec l ∅) as Hs. rewrite Es in Hs. destruct Hs as [H1 H2].
  unfold named. rewrite El, H2. split.
  - intros [->|[?%not_elem_of_empty|?]]; [left|done|right; eauto].
    intros x (l' & [= <-] & Hx). destruct (H1 x Hx) as (c' & ->).
    apply (not_elem_of_empty (C := gset ExecutionContext) c'), H2. by right.
  - intros [Hn|(l' & [= <-] & ?)]; [left|auto].
    apply elem_of_equiv_empty_L. intros c' [?%not_elem_of_empty|?]%H2; naive_solver.
Qed.

(** The confidence part of a filter. *)
Definition confidence_gate (f : EdgeFilter) (c : Confidence) : bool :=
  if useIncludeSet f then bool_decide (c ∈ includeConfidences f)
  else (confidenceRank (minConf f) <=? confidenceRank c)%Z.

Lemma allows_gates f e :
  allows f e = true <->
  (kinds f = ∅ \/ e_kind e ∈ kinds f) /\ (execContexts f = ∅ \/ e_execContext e ∈ execContexts f) /\
  confidence_gate f (e_confidence e) = true.
Proof.
  rewrite <- !gate_open. unfold allows, allowsFields. fold (gate (kinds f) (e_kind e)).
  fold (gate (execContexts f) (e_execContext e)). fold (confidence_gate f (e_confidence e)).
  destruct (gate (kinds f) _), (gate (execContexts f) _); naive_solver.
Qed.

(** What parsing stores, part by part. *)
Lemma parse_filter_parts args f :
  parseEdgeFilter args = inr f ->
  kinds f = match getArray args (str "edge_kinds") with Some l => add_kinds l ∅ | None => ∅ end /\
  match getArray args (str "execution_contexts") with
  | Some l => add_contexts l ∅ = inr (execContexts f) | None => execContexts f = ∅ end /\
  match getArray args (str "include_confidences") with
  | Some l => useIncludeSet f = true /\ add_confidences l ∅ = inr (includeConfidences f)
  | None => useIncludeSet f = false /\
      minConf f = match getString args (str "min_confidence") with Some mc => parseConfidence mc | None => Unknown end
  end.
Proof.
  unfold parseEdgeFilter. destruct (getArray args (str "include_confidences")) as [lc|].
  - destruct (add_confidences lc ∅) as [|sc]; [done|].
    destruct (getArray args (str "execution_contexts")) as [lx|]; [destruct (add_contexts lx ∅) as [|sx]; [done|]|];
      intros [= <-]; by split_and!.
  - destruct (getArray args (str "execution_contexts")) as [lx|]; [destruct (add_contexts lx ∅) as [|sx]; [done|]|];
      intros [= <-]; by split_and!.
Qed.

Lemma parse_filter_error args err :
  parseEdgeFilter args = inl err ->
  (exists x, named args (str "include_confidences") x /\ forall c, x <> confidenceToString c) \/
  (exists x, named args (str "execution_contexts") x /\ forall c, x <> executionContextToString c).
Proof.
  unfold parseEdgeFilter, named. destruct (getArray args (str "include_confidences")) as [lc|].
  - pose proof (add_confidences_spec lc ∅) as Hc. destruct (add_confidences lc ∅) as [|sc]; [naive_solver|].
    destruct (getArray args (str "execution_contexts")) as [lx|]; [|done].
    pose proof (add_contexts_spec lx ∅) as Hx. destruct (add_contexts lx ∅) as [|sx]; naive_solver.
  - destruct (getArray args (str "execution_contexts")) as [lx|]; [|done].
    pose proof (add_contexts_spec lx ∅) as Hx. destruct (add_contexts lx ∅) as [|sx]; naive_solver.
Qed.
End EdgeFilter.
Export EdgeFilter.

(** An argument list is rejected exactly for an unknown confidence or execution
    context; otherwise an edge passes when each list that names something names its
    kind, its context and its confidence, the confidence list counting even when it
    names nothing, and the minimum confidence standing in when it is absent. *)
Theorem edge_filter_contract (args : JsonArgs) :
  match parseEdgeFilter args with
  | inl _ =>
      (exists x, named args (str "include_confidences") x /\ forall c, x <> confidenceToString c) \/
      (exists x, named args (str "execution_contexts") x /\ forall c, x <> executionContextToString c)
  | inr f =>
      (forall e, allows f e = true <->
        ((forall x, ~ named args (str "edge_kinds") x) \/
         exists x, named args (str "edge_kinds") x /\ parseEdgeKind x = e_kind e) /\
        ((forall x, ~ named args (str "execution_contexts") x) \/
         named args (str "execution_contexts") (executionContextToString (e_execContext e))) /\
        match getArray args (str "include_confidences"), getString args (str "min_confidence") with
        | Some _, _ => named args (str "include_confidences") (confidenceToString (e_confidence e))
        | None, Some mc => (confidenceRank (parseConfidence mc) <= confidenceRank (e_confidence e))%Z
        | None, None => True
        end) /\
      (forall e r, r_kind r = e_kind e -> r_confidence r = e_confidence e ->
        r_execContext r = e_execContext e -> allowsRef f r = allows f e)
  end.
Proof.
  destruct (parseEdgeFilter args) as [err|f] eqn:Ef; [by eapply parse_filter_error|].
  destruct (parse_filter_parts args f Ef) as (Hk & Hx & Hc). split.
  2:{ intros e r Ek Ec Ex. unfold allowsRef, allows. by rewrite Ek, Ec, Ex. }
  intros e. rewrite allows_gates, Hk, kinds_gate. apply and_iff_compat_l. f_equiv.
  - unfold named. destruct (getArray args (str "execution_contexts")) as [lx|] eqn:Elx.
    + rewrite (contexts_gate args lx _ _ Elx Hx). unfold named. by rewrite Elx.
    + rewrite Hx. naive_solver.
  - unfold confidence_gate, named. destruct (getArray args (str "include_confidences")) as [lc|].
    + destruct Hc as [-> Hs]. pose proof (add_confidences_spec lc ∅) as Hsp. rewrite Hs in Hsp.
      rewrite bool_decide_eq_true, (proj2 Hsp). set_solver.
    + destruct Hc as [-> ->]. rewrite Z.leb_le. destruct (getString args (str "min_confidence")); [done|].
      simpl. by destruct (e_confidence e).
Qed.

(** An empty confidence list lets no edge through: the list overrides the minimum
    confidence although it is empty. *)
Theorem empty_include_list_rejects_all (args : JsonArgs) (f : EdgeFilter) (e : CallGraphEdge) :
  getArray args (str "include_confidences") = Some [] -> parseEdgeFilter args = inr f -> allows f e = false.
Proof.
  intros El Ef. destruct (parse_filter_parts args f Ef) as (_ & _ & Hc). rewrite El in Hc.
  destruct Hc as [Hu [= Hs]]. apply not_true_iff_false. rewrite allows_gates. intros (_ & _ & Hg).
  unfold confidence_gate in Hg. rewrite Hu, <- Hs, bool_decide_eq_true in Hg. by apply not_elem_of_empty in Hg.
Qed.

(** The arguments [{"include_confidences": \[\]}]. *)
Definition empty_include_args : JsonArgs :=
  MkArgs (fun _ => None) (fun _ => None) (fun _ => None)
    (fun k => if decide (k = str "include_confidences") then Some [] else None)
    (fun k => bool_decide (k = str "include_confidences")).

Lemma empty_include_list_rejects_all_witness :
  allows (MkFilter ∅ ∅ true Unknown ∅)
    (MkEdge (str "a") (str "b") DirectCall Proven (str "m:1") 0 Synchronous (str "a") (str "b")) = false.
Proof. apply (empty_include_list_rejects_all empty_include_args); reflexivity. Defined.

(** * Paging *)

Module Paging.

Definition kDefaultSearchLimit : N := 25.
Definition kDefaultEdgeListLimit : N := 200.
Definition kDefaultListLimit : N := 200.
Definition kDefaultCallbackTargetLimit : N := 100.
Definition kDefaultSitesPerTarget : N := 50.

Record Page := MkPage {
  offset : N;
  limit : N
}.

Definition page_begin (p : Page) (total : N) : N := N.min (offset p) total.

Definition page_end (p : Page) (total : N) : N :=
  page_begin p total + N.min (limit p) (total - page_begin p total).

Definition page_truncated (p : Page) (total : N) : bool := (page_end p total <? total)%N.

(** [static_cast<size_t>] of an [int64_t]. *)
Definition size_of_int64 (z : Z) : N := Z.to_N (z mod 2 ^ 64).

(** [static_cast<int64_t>] of a [size_t]. *)
Definition int64_of_size (n : N) : Z :=
  if (Z.of_N n <? 2 ^ 63)%Z then Z.of_N n else (Z.of_N n - 2 ^ 64)%Z.

Definition parsePage (args : JsonArgs) (defaultLimit : N) : bytes + Page :=
  let lim :=
    match getInteger args (str "limit") with
    | Some l => if (l <? 1)%Z then inl (str "Invalid limit: must be at least 1") else inr (size_of_int64 l)
    | None => if get args (str "limit") then inl (str "Invalid limit: must be an integer") else inr defaultLimit
    end in
  match lim with
  | inl err => inl err
  | inr l =>
      match getInteger args (str "offset") with
      | Some o => if (o <? 0)%Z then inl (str "Invalid offset: must be non-negative") else inr (MkPage (size_of_int64 o) l)
      | None => if get args (str "offset") then inl (str "Invalid offset: must be an integer") else inr (MkPage 0 l)
      end
  end.

(** The paging members of a payload. *)
Record PageWindow := MkWindow {
  w_offset : Z;
  w_limit : Z;
  w_truncated : bool;
  w_nextOffset : option Z
}.

Definition attachPageWindow (p : Page) (truncated : bool) : PageWindow :=
  MkWindow (int64_of_size (offset p)) (int64_of_size (limit p)) truncated
    (if truncated then Some (int64_of_size ((offset p + limit p) mod 2 ^ 64)) else None).

Record PageFacts := MkFacts {
  pf_total : Z;
  pf_returned : Z;
  pf_window : PageWindow
}.

Definition attachPage (p : Page) (total : N) : PageFacts :=
  MkFacts (int64_of_size total) (int64_of_size (page_end p total - page_begin p total))
    (attachPageWindow p (page_truncated p total)).

(** [for (size_t i = page.begin(n); i < page.end(n); ++i) results.push_back(l\[i\]);] *)
Definition page_records {A} (p : Page) (l : list A) : list A :=
  let n := N.of_nat (length l) in
  omap (fun i => l !! i) (seq (N.to_nat (page_begin p n)) (N.to_nat (page_end p n - page_begin p n))).

Lemma omap_lookup_seq {A} (l : list A) i n : omap (fun j => l !! j) (seq i n) = take n (drop i l).
Proof.
  revert i. induction n as [|n IH]; intros i; [done|].
  change (seq i (S n)) with (i :: seq (S i) n). rewrite omap_cons_eq, IH.
  destruct (l !! i) as [x|] eqn:E.
  - by rewrite (drop_S l x i E).
  - apply lookup_ge_None in E. rewrite !drop_ge by lia. by destruct n.
Qed.

Lemma page_records_eq {A} (p : Page) (l : list A) :
  page_records p l = take (N.to_nat (limit p)) (drop (N.to_nat (offset p)) l).
Proof.
  unfold page_records. rewrite omap_lookup_seq. unfold page_end, page_begin.
  destruct (decide (offset p <= N.of_nat (length l))%N).
  - rewrite N.min_l by done. replace (_ + _ - offset p)%N with (N.min (limit p) (N.of_nat (length l) - offset p)) by lia.
    destruct (decide (limit p <= N.of_nat (length l) - offset p)%N); [by rewrite N.min_l|].
    rewrite N.min_r by lia. rewrite !take_ge; [done|rewrite length_drop; lia..].
  - rewrite (drop_ge l (N.to_nat (offset p))) by lia. rewrite N.min_r by lia.
    rewrite (drop_ge l) by lia. by rewrite !take_nil.
Qed.

(** Following [nextOffset] page after page. *)
Fixpoint follow {A} (fuel : nat) (p : Page) (l : list A) : list A :=
  match fuel with
  | O => []
  | S fuel' =>
      page_records p l ++
      match w_nextOffset (pf_window (attachPage p (N.of_nat (length l)))) with
      | Some o => follow fuel' (MkPage (size_of_int64 o) (limit p)) l
      | None => []
      end
  end.

Lemma size_of_nonneg z : (0 <= z < 2 ^ 63)%Z -> size_of_int64 z = Z.to_N z.
Proof. intros H. unfold size_of_int64. rewrite Z.mod_small; lia. Qed.

Lemma int64_of_small n : (Z.of_N n < 2 ^ 63)%Z -> int64_of_size n = Z.of_N n.
Proof. intros H. unfold int64_of_size. by destruct (Z.ltb_spec (Z.of_N n) (2 ^ 63)); [|lia]. Qed.

Lemma truncated_iff p total :
  page_truncated p total = true <-> (offset p + limit p < total)%N.
Proof. unfold page_truncated, page_end, page_begin. rewrite N.ltb_lt. lia. Qed.

Lemma next_offset_eq p total :
  (Z.of_N total < 2 ^ 63)%Z ->
  w_nextOffset (pf_window (attachPage p total)) =
  if (offset p + limit p <? total)%N then Some (Z.of_N (offset p + limit p)) else None.
Proof.
  intros Ht. unfold attachPage, attachPageWindow. simpl.
  destruct (N.ltb_spec (offset p + limit p) total) as [H|H].
  - rewrite (proj2 (truncated_iff p total)) by done. rewrite N.mod_small by lia. by rewrite int64_of_small by lia.
  - destruct (page_truncated p total) eqn:E; [apply truncated_iff in E; lia|done].
Qed.

Lemma follow_tail {A} (l : list A) fuel p :
  (Z.of_nat (length l) < 2 ^ 63)%Z -> (1 <= limit p)%N ->
  (N.of_nat (length l) < offset p + N.of_nat fuel)%N ->
  follow fuel p l = drop (N.to_nat (offset p)) l.
Proof.
  intros Hl Hlim. revert p Hlim. induction fuel as [|fuel IH]; intros p Hlim Hf.
  { rewrite drop_ge by lia. done. }
  cbn [follow]. rewrite next_offset_eq by lia. rewrite page_records_eq.
  destruct (N.ltb_spec (offset p + limit p) (N.of_nat (length l))) as [H|H].
  - rewrite size_of_nonneg by lia. rewrite N2Z.id, IH by (simpl; lia). simpl.
    rewrite N2Nat.inj_add, <- drop_drop. apply take_drop.
  - rewrite app_nil_r, take_ge; [done|]. rewrite length_drop. lia.
Qed.
End Paging.
Export Paging.

(** The pages of a list tile it: starting at offset 0 and following [nextOffset],
    the windows concatenate to the whole list, whatever the page size; and a
    payload's [total] and [returned] are the lengths. *)
Theorem pages_tile {A} (l : list A) (lim : N) :
  (Z.of_nat (length l) < 2 ^ 63)%Z -> (1 <= lim)%N ->
  follow (S (length l)) (MkPage 0 lim) l = l /\
  forall p, let facts := attachPage p (N.of_nat (length l)) in
    pf_total facts = Z.of_nat (length l) /\ pf_returned facts = Z.of_nat (length (page_records p l)) /\
    (w_nextOffset (pf_window facts) = None <-> w_truncated (pf_window facts) = false).
Proof.
  intros Hl Hlim. split; [by rewrite follow_tail; [|lia|simpl; lia|simpl; lia]|].
  intros p. simpl. rewrite page_records_eq, length_take, length_drop. unfold page_end, page_begin.
  rewrite !int64_of_small by lia. split_and!; [lia|lia|]. by destruct (page_truncated _ _).
Qed.

Lemma pages_tile_witness :
  follow 6 (MkPage 0 2) [1; 2; 3; 4; 5] = [1; 2; 3; 4; 5] /\
  forall p, let facts := attachPage p 5 in
    pf_total facts = 5%Z /\ pf_returned facts = Z.of_nat (length (page_records p [1; 2; 3; 4; 5])) /\
    (w_nextOffset (pf_window facts) = None <-> w_truncated (pf_window facts) = false).
Proof. apply (pages_tile [1; 2; 3; 4; 5] 2); [vm_compute; reflexivity|lia]. Defined.

(** * Search limits *)

Module Limits.

Inductive BelowMin := Reject | Clamp.

Definition kMaxSearchDepth : Z := 1000.
Definition kMaxSearchPaths : Z := 100000.
Definition kMaxFanInLimit : Z := 100000000.
Definition kMaxWorkLimit : Z := 1000000000.
Definition kMaxResultsLimit : Z := 10000000.

Definition readLimit (args : JsonArgs) (key : bytes) (min max : Z) (below : BelowMin) (value : Z) : bytes + Z :=
  match getInteger args key with
  | None => inr value
  | Some v =>
      if (v <? min)%Z then
        match below with
        | Reject => inl (str "Invalid " ++ key ++ str ": must be " ++
                         (if (0 <? min)%Z then str "positive" else str "non-negative"))
        | Clamp => inr min
        end
      else inr (Z.min v max)
  end.

(** [static_cast<T>] to an unsigned type of [w] bits. *)
Definition narrow (w : Z) (z : Z) : Z := (z mod 2 ^ w)%Z.

Definition readLimitAs (w : Z) (args : JsonArgs) (key : bytes) (min max : Z) (below : BelowMin) (out : Z) : bytes + Z :=
  match readLimit args key min max below out with
  | inl err => inl err
  | inr v => inr (narrow w v)
  end.
End Limits.
Export Limits.

(** C40. A limit that is read stays within its documented bounds, so narrowing it to
    the handler's unsigned type keeps its value: no argument turns into the 0 that
    the searches read as "no limit" unless 0 is allowed, and only a value below the
    minimum is ever refused. *)
Theorem limits_stay_bounded (w : Z) (args : JsonArgs) (key : bytes) (min max : Z) (below : BelowMin) (out : Z) :
  (0 <= min <= out)%Z -> (out <= max)%Z -> (max < 2 ^ w)%Z ->
  match readLimitAs w args key min max below out with
  | inl _ => below = Reject /\ exists v, getInteger args key = Some v /\ (v < min)%Z
  | inr v => (min <= v <= max)%Z /\
      match getInteger args key with None => v = out | Some a => v = Z.max min (Z.min a max) end
  end.
Proof.
  intros H1 H2 H3. unfold readLimitAs, readLimit, narrow. destruct (getInteger args key) as [a|].
  - destruct (Z.ltb_spec a min).
    + destruct below; [eauto|]. rewrite Z.mod_small by lia. lia.
    + rewrite Z.mod_small by lia. lia.
  - rewrite Z.mod_small by lia. lia.
Qed.

Lemma limits_stay_bounded_witness :
  match readLimitAs 32 (MkArgs (fun _ => None) (fun _ => Some 4294967296%Z) (fun _ => None) (fun _ => None) (fun _ => true))
          (str "max_depth") 1 kMaxSearchDepth Reject 20 with
  | inl _ => Reject = Reject /\ exists v, Some 4294967296%Z = Some v /\ (v < 1)%Z
  | inr v => (1 <= v <= kMaxSearchDepth)%Z /\ v = Z.max 1 (Z.min 4294967296 kMaxSearchDepth)
  end.
Proof.
  apply (limits_stay_bounded 32 (MkArgs (fun _ => None) (fun _ => Some 4294967296%Z) (fun _ => None) (fun _ => None) (fun _ => true))
          (str "max_depth") 1 kMaxSearchDepth Reject 20); vm_compute; intuition congruence.
Defined.
