(* ===== verification/ControlFlowIndex.v ===== *)
(** The control-flow index (src/callgraph/ControlFlowIndex.cpp), in its resident
    form: the contexts of the call sites, stored deduplicated and interned, with
    the lookup maps by caller, callee, site and translation unit. *)

From S2P Require Import Prelude Utf8 StringInterner CallGraph Ordering.

(** * Data *)

Inductive RaiiKind := Lock | SmartPtr | Other.

Inductive NoexceptSpec := NoSpec | Noexcept | NoexceptFalse | ThrowNone | UnknownSpec.

#[global] Instance RaiiKind_eq_dec : EqDecision RaiiKind.
Proof. solve_decision. Defined.
#[global] Instance NoexceptSpec_eq_dec : EqDecision NoexceptSpec.
Proof. solve_decision. Defined.

Record RaiiLocal := MkRaii {
  typeName : bytes;
  varName : bytes;
  declLocation : bytes;
  raiiKind : RaiiKind
}.

Record CatchHandlerInfo := MkHandler {
  caughtType : bytes;
  isCatchAll : bool;
  handlerLocation : bytes;
  bodySummary : bytes;
  rethrows : bool
}.

Record TryCatchScope := MkScope {
  tryLocation : bytes;
  enclosingFunction : bytes;
  handlers : list CatchHandlerInfo;
  nestingDepth : N
}.

Record ConditionalGuard := MkGuard {
  conditionText : bytes;
  guardLocation : bytes;
  inTrueBranch : bool;
  isAssertion : bool
}.

Record CallSiteContext := MkContext {
  cs_callerName : bytes;
  cs_calleeName : bytes;
  cs_callSite : bytes;
  cs_callerUsr : bytes;
  cs_calleeUsr : bytes;
  cs_tuPath : bytes;
  enclosingTryCatches : list TryCatchScope;
  enclosingGuards : list ConditionalGuard;
  callerNoexcept : NoexceptSpec;
  insideCatchBlock : bool;
  liveRaiiLocals : list RaiiLocal
}.

#[global] Instance RaiiLocal_eq_dec : EqDecision RaiiLocal.
Proof. solve_decision. Defined.
#[global] Instance CatchHandlerInfo_eq_dec : EqDecision CatchHandlerInfo.
Proof. solve_decision. Defined.
#[global] Instance TryCatchScope_eq_dec : EqDecision TryCatchScope.
Proof. solve_decision. Defined.
#[global] Instance ConditionalGuard_eq_dec : EqDecision ConditionalGuard.
Proof. solve_decision. Defined.
#[global] Instance CallSiteContext_eq_dec : EqDecision CallSiteContext.
Proof. solve_decision. Defined.

Record StoredRaiiLocal := MkStoredRaii {
  sr_typeName : SId;
  sr_varName : SId;
  sr_declLocation : SId;
  sr_kind : RaiiKind
}.

Record StoredContext := MkStoredContext {
  sc_caller : SId;
  sc_callee : SId;
  sc_callerDisplay : SId;
  sc_calleeDisplay : SId;
  sc_site : SId;
  sc_tuPath : SId;
  sc_scopeSet : N;
  sc_guardSet : N;
  sc_raiiSet : N;
  sc_callerNoexcept : NoexceptSpec;
  sc_insideCatchBlock : bool;
  sc_live : bool
}.

#[global] Instance StoredRaiiLocal_eq_dec : EqDecision StoredRaiiLocal.
Proof. solve_decision. Defined.
#[global] Instance StoredContext_eq_dec : EqDecision StoredContext.
Proof. solve_decision. Defined.

(** "no tuPath recorded". *)
Definition kNoString : SId := (two32 - 1)%N.

Record ControlFlowIndex := MkCFIndex {
  cf_interner_ : StringInterner;
  contexts_ : list StoredContext;
  scopeSets_ : list (list TryCatchScope);
  guardSets_ : list (list ConditionalGuard);
  raiiSets_ : list (list StoredRaiiLocal);
  scopeSetIds_ : gmap bytes N;
  guardSetIds_ : gmap bytes N;
  raiiSetIds_ : gmap bytes N;
  byCallee_ : gmap SId (list nat);
  byCaller_ : gmap SId (list nat);
  byCalleeDisplay_ : gmap SId (list nat);
  byCallerDisplay_ : gmap SId (list nat);
  bySite_ : gmap SId (list nat);
  byTu_ : gmap SId (list nat);
  noProvenance_ : list nat;
  liveCount_ : nat
}.

(** The constructor seeds every set table with the empty set. *)
Definition empty_index : ControlFlowIndex :=
  MkCFIndex empty_interner [] [[]] [[]] [[]] ∅ ∅ ∅ ∅ ∅ ∅ ∅ ∅ ∅ [] 0.

Definition set_cf_interner (t : StringInterner) (x : ControlFlowIndex) : ControlFlowIndex :=
  MkCFIndex t (contexts_ x) (scopeSets_ x) (guardSets_ x) (raiiSets_ x) (scopeSetIds_ x) (guardSetIds_ x)
    (raiiSetIds_ x) (byCallee_ x) (byCaller_ x) (byCalleeDisplay_ x) (byCallerDisplay_ x) (bySite_ x)
    (byTu_ x) (noProvenance_ x) (liveCount_ x).

(** * Set keys *)

(** The four bytes of a [uint32_t], least significant first. *)
Definition keyU32 (v : N) : bytes :=
  [to_char v; to_char (v / 256)%N; to_char (v / 65536)%N; to_char (v / 16777216)%N].

Definition keyStr (s : bytes) : bytes := keyU32 (u32 (N.of_nat (length s))) ++ s.

Definition keyFlag (b : bool) : bytes := [to_char (if b then 1 else 0)%N].

Definition handlerKey (h : CatchHandlerInfo) : bytes :=
  keyStr (caughtType h) ++ keyFlag (isCatchAll h) ++ keyFlag (rethrows h) ++
  keyStr (handlerLocation h) ++ keyStr (bodySummary h).

Definition scopeKey (s : TryCatchScope) : bytes :=
  keyStr (tryLocation s) ++ keyStr (enclosingFunction s) ++ keyU32 (nestingDepth s) ++
  keyU32 (u32 (N.of_nat (length (handlers s)))) ++ (handlers s ≫= handlerKey).

Definition scopeSetKey (scopes : list TryCatchScope) : bytes := scopes ≫= scopeKey.

Definition guardKey (g : ConditionalGuard) : bytes :=
  keyStr (conditionText g) ++ keyStr (guardLocation g) ++ keyFlag (inTrueBranch g) ++ keyFlag (isAssertion g).

Definition guardSetKey (guards : list ConditionalGuard) : bytes := guards ≫= guardKey.

Definition raii_code (k : RaiiKind) : N := match k with Lock => 0 | SmartPtr => 1 | Other => 2 end.

Definition raiiKey (l : StoredRaiiLocal) : bytes :=
  keyU32 (sr_typeName l) ++ keyU32 (sr_varName l) ++ keyU32 (sr_declLocation l) ++ [to_char (raii_code (sr_kind l))].

Definition raiiSetKey (locals : list StoredRaiiLocal) : bytes := locals ≫= raiiKey.

(** * Set tables *)

(** The shape the three tables share: entries and the ids of their keys. *)
Definition intern_set {A} (key : bytes) (set : list A) (sets : list (list A)) (ids : gmap bytes N)
  : list (list A) * gmap bytes N * N :=
  match set with
  | [] => (sets, ids, 0%N)
  | _ :: _ =>
      match ids !! key with
      | Some id => (sets, ids, id)
      | None =>
          let id := u32 (N.of_nat (length sets)) in
          (sets ++ [set], <[key := id]> ids, id)
      end
  end.

Definition internScopeSet (key : bytes) (scopes : list TryCatchScope) (x : ControlFlowIndex)
  : ControlFlowIndex * N :=
  let '(sets, ids, id) := intern_set key scopes (scopeSets_ x) (scopeSetIds_ x) in
  (MkCFIndex (cf_interner_ x) (contexts_ x) sets (guardSets_ x) (raiiSets_ x) ids (guardSetIds_ x)
     (raiiSetIds_ x) (byCallee_ x) (byCaller_ x) (byCalleeDisplay_ x) (byCallerDisplay_ x) (bySite_ x)
     (byTu_ x) (noProvenance_ x) (liveCount_ x), id).

Definition internGuardSet (key : bytes) (guards : list ConditionalGuard) (x : ControlFlowIndex)
  : ControlFlowIndex * N :=
  let '(sets, ids, id) := intern_set key guards (guardSets_ x) (guardSetIds_ x) in
  (MkCFIndex (cf_interner_ x) (contexts_ x) (scopeSets_ x) sets (raiiSets_ x) (scopeSetIds_ x) ids
     (raiiSetIds_ x) (byCallee_ x) (byCaller_ x) (byCalleeDisplay_ x) (byCallerDisplay_ x) (bySite_ x)
     (byTu_ x) (noProvenance_ x) (liveCount_ x), id).

Definition internRaiiSet (key : bytes) (locals : list StoredRaiiLocal) (x : ControlFlowIndex)
  : ControlFlowIndex * N :=
  let '(sets, ids, id) := intern_set key locals (raiiSets_ x) (raiiSetIds_ x) in
  (MkCFIndex (cf_interner_ x) (contexts_ x) (scopeSets_ x) (guardSets_ x) sets (scopeSetIds_ x) (guardSetIds_ x)
     ids (byCallee_ x) (byCaller_ x) (byCalleeDisplay_ x) (byCallerDisplay_ x) (bySite_ x)
     (byTu_ x) (noProvenance_ x) (liveCount_ x), id).

(** * Insertion *)

(** One push per lookup map; the display maps only hold a display that differs. *)
Definition insertStored (se : StoredContext) (trackTu : bool) (x : ControlFlowIndex) : ControlFlowIndex :=
  let idx := length (contexts_ x) in
  MkCFIndex (cf_interner_ x) (contexts_ x ++ [se]) (scopeSets_ x) (guardSets_ x) (raiiSets_ x)
    (scopeSetIds_ x) (guardSetIds_ x) (raiiSetIds_ x)
    (push_back (sc_callee se) idx (byCallee_ x))
    (push_back (sc_caller se) idx (byCaller_ x))
    (if decide (sc_calleeDisplay se = sc_callee se) then byCalleeDisplay_ x
     else push_back (sc_calleeDisplay se) idx (byCalleeDisplay_ x))
    (if decide (sc_callerDisplay se = sc_caller se) then byCallerDisplay_ x
     else push_back (sc_callerDisplay se) idx (byCallerDisplay_ x))
    (push_back (sc_site se) idx (bySite_ x))
    (if negb trackTu then byTu_ x
     else if decide (sc_tuPath se = kNoString) then byTu_ x
     else push_back (sc_tuPath se) idx (byTu_ x))
    (if negb trackTu then noProvenance_ x
     else if decide (sc_tuPath se = kNoString) then noProvenance_ x ++ [idx]
     else noProvenance_ x)
    (S (liveCount_ x)).

(** [makeIndexText] on every string of a context. *)
Definition text_raii (l : RaiiLocal) : RaiiLocal :=
  MkRaii (makeIndexText (typeName l)) (makeIndexText (varName l)) (makeIndexText (declLocation l)) (raiiKind l).

Definition text_handler (h : CatchHandlerInfo) : CatchHandlerInfo :=
  MkHandler (makeIndexText (caughtType h)) (isCatchAll h) (makeIndexText (handlerLocation h))
    (makeIndexText (bodySummary h)) (rethrows h).

Definition text_scope (s : TryCatchScope) : TryCatchScope :=
  MkScope (makeIndexText (tryLocation s)) (makeIndexText (enclosingFunction s))
    (text_handler <$> handlers s) (nestingDepth s).

Definition text_guard (g : ConditionalGuard) : ConditionalGuard :=
  MkGuard (makeIndexText (conditionText g)) (makeIndexText (guardLocation g)) (inTrueBranch g) (isAssertion g).

Definition text_context (c : CallSiteContext) : CallSiteContext :=
  MkContext (makeIndexText (cs_callerName c)) (makeIndexText (cs_calleeName c)) (makeIndexText (cs_callSite c))
    (makeIndexText (cs_callerUsr c)) (makeIndexText (cs_calleeUsr c)) (makeIndexText (cs_tuPath c))
    (text_scope <$> enclosingTryCatches c) (text_guard <$> enclosingGuards c)
    (callerNoexcept c) (insideCatchBlock c) (text_raii <$> liveRaiiLocals c).

(** [s.empty() ? dflt : interner_.intern(s)]. *)
Definition intern_or (dflt : SId) (s : bytes) (t : StringInterner) : StringInterner * SId :=
  match s with [] => (t, dflt) | _ :: _ => intern t s end.

Fixpoint intern_locals (ls : list RaiiLocal) (t : StringInterner) : StringInterner * list StoredRaiiLocal :=
  match ls with
  | [] => (t, [])
  | l :: ls' =>
      let '(t1, ty) := intern t (typeName l) in
      let '(t2, vn) := intern t1 (varName l) in
      let '(t3, dl) := intern t2 (declLocation l) in
      let '(t4, rest) := intern_locals ls' t3 in
      (t4, MkStoredRaii ty vn dl (raiiKind l) :: rest)
  end.

(** The ids of the strings of a context. *)
Record ContextIds := MkIds {
  id_caller : SId;
  id_callee : SId;
  id_callerDisplay : SId;
  id_calleeDisplay : SId;
  id_site : SId;
  id_tu : SId;
  id_locals : list StoredRaiiLocal
}.

(** The interning of [addCallSiteContext], done before the index is locked. *)
Definition intern_context (ctx : CallSiteContext) (t : StringInterner) : StringInterner * ContextIds :=
  let '(t1, calleeDisplayId) := intern t (cs_calleeName ctx) in
  let '(t2, callerDisplayId) := intern t1 (cs_callerName ctx) in
  let '(t3, calleeId) := intern_or calleeDisplayId (cs_calleeUsr ctx) t2 in
  let '(t4, callerId) := intern_or callerDisplayId (cs_callerUsr ctx) t3 in
  let '(t5, siteId) := intern t4 (cs_callSite ctx) in
  let '(t6, tuId) := intern_or kNoString (cs_tuPath ctx) t5 in
  let '(t7, locals) := intern_locals (liveRaiiLocals ctx) t6 in
  (t7, MkIds callerId calleeId callerDisplayId calleeDisplayId siteId tuId locals).

Definition addCallSiteContext (ctx0 : CallSiteContext) (x : ControlFlowIndex) : ControlFlowIndex :=
  let ctx := text_context ctx0 in
  let '(t, ids) := intern_context ctx (cf_interner_ x) in
  let x1 := set_cf_interner t x in
  let '(x2, scopeSet) := internScopeSet (scopeSetKey (enclosingTryCatches ctx)) (enclosingTryCatches ctx) x1 in
  let '(x3, guardSet) := internGuardSet (guardSetKey (enclosingGuards ctx)) (enclosingGuards ctx) x2 in
  let '(x4, raiiSet) := internRaiiSet (raiiSetKey (id_locals ids)) (id_locals ids) x3 in
  insertStored
    (MkStoredContext (id_caller ids) (id_callee ids) (id_callerDisplay ids) (id_calleeDisplay ids)
       (id_site ids) (id_tu ids) scopeSet guardSet raiiSet
       (callerNoexcept ctx) (insideCatchBlock ctx) true) true x4.

(** * Queries *)

(** [sets\[i\]]. *)
Definition set_of {A} (sets : list (list A)) (i : N) : list A := default [] (sets !! N.to_nat i).

Section Materialize.
(** The strings and the set tables of an index, in either of its forms. *)
Variable string : SId -> bytes.
Variable scopeSets : list (list TryCatchScope).
Variable guardSets : list (list ConditionalGuard).
Variable raiiSets : list (list StoredRaiiLocal).

Definition raii_with (l : StoredRaiiLocal) : RaiiLocal :=
  MkRaii (string (sr_typeName l)) (string (sr_varName l)) (string (sr_declLocation l)) (sr_kind l).

Definition materialize_with (se : StoredContext) : CallSiteContext :=
  MkContext (string (sc_callerDisplay se)) (string (sc_calleeDisplay se)) (string (sc_site se))
    (string (sc_caller se)) (string (sc_callee se))
    (if decide (sc_tuPath se = kNoString) then [] else string (sc_tuPath se))
    (set_of scopeSets (sc_scopeSet se)) (set_of guardSets (sc_guardSet se))
    (sc_callerNoexcept se) (sc_insideCatchBlock se) (raii_with <$> set_of raiiSets (sc_raiiSet se)).

Record ContextShape := MkShape {
  sh_scopeSet : N;
  sh_guardSet : N;
  sh_raiiSet : N;
  sh_callerNoexcept : NoexceptSpec;
  sh_insideCatchBlock : bool
}.

Definition contextOfShape_with (s : ContextShape) : CallSiteContext :=
  if (N.of_nat (length scopeSets) <=? sh_scopeSet s)%N || (N.of_nat (length guardSets) <=? sh_guardSet s)%N ||
     (N.of_nat (length raiiSets) <=? sh_raiiSet s)%N
  then MkContext [] [] [] [] [] [] [] [] NoSpec false []
  else MkContext [] [] [] [] [] [] (set_of scopeSets (sh_scopeSet s)) (set_of guardSets (sh_guardSet s))
         (sh_callerNoexcept s) (sh_insideCatchBlock s) (raii_with <$> set_of raiiSets (sh_raiiSet s)).
End Materialize.

Record ContextRecord := MkRecord {
  rec_callSite : SId;
  rec_callerUsr : SId;
  rec_callerName : SId;
  rec_calleeUsr : SId;
  rec_tuPath : SId;
  rec_shape : ContextShape
}.

Definition record_of (se : StoredContext) : ContextRecord :=
  MkRecord (sc_site se) (sc_caller se) (sc_callerDisplay se) (sc_callee se) (sc_tuPath se)
    (MkShape (sc_scopeSet se) (sc_guardSet se) (sc_raiiSet se) (sc_callerNoexcept se) (sc_insideCatchBlock se)).

Inductive Side := Caller | Callee.

(** What the queries read of an index: the id of a name, the candidate positions of a
    site and of a name, the context at a position, all contexts in position order, and a
    context as the caller sees it.  The resident and the mapped form differ in these. *)
Record ContextView := MkView {
  v_findId : bytes -> option SId;
  v_sitePositions : bytes -> list nat;
  v_namePositions : Side -> bytes -> list nat;
  v_storedAt : nat -> option StoredContext;
  v_stored : list StoredContext;
  v_materialize : StoredContext -> CallSiteContext
}.

(** The comparator of [contextForEdge]. *)
Definition edge_context_less (wanted : bytes) (a b : CallSiteContext) : bool :=
  let am := bool_decide (cs_calleeUsr a = wanted) in
  let bm := bool_decide (cs_calleeUsr b = wanted) in
  if negb (Bool.eqb am bm) then am
  else if negb (bool_decide (cs_calleeUsr a = cs_calleeUsr b)) then bytes_ltb (cs_calleeUsr a) (cs_calleeUsr b)
  else if negb (bool_decide (cs_tuPath a = cs_tuPath b)) then bytes_ltb (cs_tuPath a) (cs_tuPath b)
  else bytes_ltb (cs_callerName a) (cs_callerName b).

Definition edge_context_le (wanted : bytes) (a b : CallSiteContext) : Prop := edge_context_less wanted b a = false.

#[global] Instance edge_context_le_dec wanted : RelDecision (edge_context_le wanted).
Proof. intros a b. unfold edge_context_le. apply _. Defined.

(** ** The queries, in both forms *)

Section BothForms.
Variable v : ContextView.

(** The live contexts among positions, in their order. *)
Definition live_in (keep : StoredContext -> bool) (positions : list nat) : list StoredContext :=
  omap (fun pos => match v_storedAt v pos with
                   | Some se => if sc_live se && keep se then Some se else None
                   | None => None
                   end) positions.

Definition contextAtSite_in (callSite : bytes) : option CallSiteContext :=
  v_materialize v <$> head (live_in (fun _ => true) (v_sitePositions v callSite)).

Definition contextAtSite_by_in (callSite callerUsrOrName : bytes) : option CallSiteContext :=
  match v_findId v callerUsrOrName with
  | None => None
  | Some callerId =>
      v_materialize v <$>
      head (live_in (fun se => (sc_caller se =? callerId)%N || (sc_callerDisplay se =? callerId)%N)
              (v_sitePositions v callSite))
  end.

Definition contextsAtSite_in (callSite : bytes) : list CallSiteContext :=
  v_materialize v <$> live_in (fun _ => true) (v_sitePositions v callSite).

(** Equivalent contexts keep their order, so the first recorded of them is chosen. *)
Definition contextForEdge_in (callSite callerUsr calleeUsr : bytes) : option CallSiteContext :=
  let mine := filter (fun ctx => cs_callerUsr ctx = callerUsr \/ cs_callerName ctx = callerUsr)
                (contextsAtSite_in callSite) in
  head (stable_sort (edge_context_le calleeUsr) mine).

Definition contextsForCallee_in (calleeName : bytes) : list CallSiteContext :=
  v_materialize v <$> live_in (fun _ => true) (v_namePositions v Callee calleeName).

Definition contextsForCaller_in (callerName : bytes) : list CallSiteContext :=
  v_materialize v <$> live_in (fun _ => true) (v_namePositions v Caller callerName).

Definition callerNoexceptOf_in (caller : bytes) : option NoexceptSpec :=
  sc_callerNoexcept <$> head (live_in (fun _ => true) (v_namePositions v Caller caller)).

Definition protectedCallsTo_in (calleeName : bytes) : list CallSiteContext :=
  v_materialize v <$> live_in (fun se => negb (sc_scopeSet se =? 0)%N) (v_namePositions v Callee calleeName).

Definition unprotectedCallsTo_in (calleeName : bytes) : list CallSiteContext :=
  v_materialize v <$> live_in (fun se => (sc_scopeSet se =? 0)%N) (v_namePositions v Callee calleeName).

Definition forEachContext_in {A} (fn : A -> CallSiteContext -> A) (a : A) : A :=
  foldl (fun a se => if sc_live se then fn a (v_materialize v se) else a) a (v_stored v).

Definition allContexts_in : list CallSiteContext := forEachContext_in (fun acc ctx => acc ++ [ctx]) [].

Definition forEachContextRecord_in {A} (fn : A -> ContextRecord -> A) (a : A) : A :=
  foldl (fun a se => if sc_live se then fn a (record_of se) else a) a (v_stored v).
End BothForms.

(** ** The resident form *)

Section Queries.
Variable isValidUtf8 : bytes -> bool.
Implicit Types (x : ControlFlowIndex).

Definition stringOf x (id : SId) : bytes := resolve (cf_interner_ x) id.

Definition raii_of x : StoredRaiiLocal -> RaiiLocal := raii_with (stringOf x).

Definition cf_materialize x : StoredContext -> CallSiteContext :=
  materialize_with (stringOf x) (scopeSets_ x) (guardSets_ x) (raiiSets_ x).

Definition findId x (raw : bytes) : option SId := find (cf_interner_ x) (lookupText isValidUtf8 raw).

Definition sitePositions x (callSite : bytes) : list nat :=
  match findId x callSite with
  | None => []
  | Some id => match bySite_ x !! id with Some v => v | None => [] end
  end.

Definition namePositions x (side : Side) (name : bytes) : list nat :=
  match findId x name with
  | None => []
  | Some id =>
      let usrMap := match side with Caller => byCaller_ x | Callee => byCallee_ x end in
      let displayMap := match side with Caller => byCallerDisplay_ x | Callee => byCalleeDisplay_ x end in
      match usrMap !! id with
      | Some v => v
      | None => match displayMap !! id with Some v => v | None => [] end
      end
  end.

(** [SnapshotIO] saves and the mutators change this form; the queries read it through the
    maps. *)
Definition resident x : ContextView :=
  MkView (findId x) (sitePositions x) (namePositions x) (fun pos => contexts_ x !! pos) (contexts_ x) (cf_materialize x).

Definition contextAtSite x := contextAtSite_in (resident x).
Definition contextAtSite_by x := contextAtSite_by_in (resident x).
Definition contextsAtSite x := contextsAtSite_in (resident x).
Definition contextForEdge x := contextForEdge_in (resident x).
Definition contextsForCallee x := contextsForCallee_in (resident x).
Definition contextsForCaller x := contextsForCaller_in (resident x).
Definition callerNoexceptOf x := callerNoexceptOf_in (resident x).
Definition protectedCallsTo x := protectedCallsTo_in (resident x).
Definition unprotectedCallsTo x := unprotectedCallsTo_in (resident x).
Definition contextOfShape x := contextOfShape_with (stringOf x) (scopeSets_ x) (guardSets_ x) (raiiSets_ x).
End Queries.

(** These do not depend on the text check. *)
Definition live_at (x : ControlFlowIndex) : (StoredContext -> bool) -> list nat -> list StoredContext := live_in (resident (fun _ => true) x).
Definition forEachContext {A} (x : ControlFlowIndex) (fn : A -> CallSiteContext -> A) (a : A) : A :=
  forEachContext_in (resident (fun _ => true) x) fn a.
Definition allContexts (x : ControlFlowIndex) : list CallSiteContext := allContexts_in (resident (fun _ => true) x).
Definition forEachContextRecord {A} (x : ControlFlowIndex) (fn : A -> ContextRecord -> A) (a : A) : A :=
  forEachContextRecord_in (resident (fun _ => true) x) fn a.

(** * Merging *)

(** The loops over the set tables of a shard, from entry 1; the remap of entry 0 is 0. *)
Definition absorb_scopes (shard : ControlFlowIndex) (x : ControlFlowIndex) : ControlFlowIndex * list N :=
  foldl (fun '(x, remap) set => let '(x', id) := internScopeSet (scopeSetKey set) set x in (x', remap ++ [id]))
    (x, [0%N]) (tail (scopeSets_ shard)).

Definition absorb_guards (shard : ControlFlowIndex) (x : ControlFlowIndex) : ControlFlowIndex * list N :=
  foldl (fun '(x, remap) set => let '(x', id) := internGuardSet (guardSetKey set) set x in (x', remap ++ [id]))
    (x, [0%N]) (tail (guardSets_ shard)).

Definition remap_raii (remap : list SId) (l : StoredRaiiLocal) : StoredRaiiLocal :=
  MkStoredRaii (remap_at remap (sr_typeName l)) (remap_at remap (sr_varName l))
    (remap_at remap (sr_declLocation l)) (sr_kind l).

Definition absorb_raiis (remap : list SId) (shard : ControlFlowIndex) (x : ControlFlowIndex)
  : ControlFlowIndex * list N :=
  foldl (fun '(x, rr) set =>
           let locals := remap_raii remap <$> set in
           let '(x', id) := internRaiiSet (raiiSetKey locals) locals x in (x', rr ++ [id]))
    (x, [0%N]) (tail (raiiSets_ shard)).

Definition absorb_context (remap : list SId) (scopeRemap guardRemap raiiRemap : list N)
    (x : ControlFlowIndex) (se : StoredContext) : ControlFlowIndex :=
  if sc_live se then
    insertStored
      (MkStoredContext (remap_at remap (sc_caller se)) (remap_at remap (sc_callee se))
         (remap_at remap (sc_callerDisplay se)) (remap_at remap (sc_calleeDisplay se))
         (remap_at remap (sc_site se))
         (if decide (sc_tuPath se = kNoString) then kNoString else remap_at remap (sc_tuPath se))
         (remap_at scopeRemap (sc_scopeSet se)) (remap_at guardRemap (sc_guardSet se))
         (remap_at raiiRemap (sc_raiiSet se)) (sc_callerNoexcept se) (sc_insideCatchBlock se) true) true x
  else x.

(** The shard is another object: absorbing oneself returns at once in the code. *)
Definition cf_absorb (shard x : ControlFlowIndex) : ControlFlowIndex :=
  let '(t, remap) := absorb_strings (cf_interner_ shard) (cf_interner_ x) in
  let '(x1, scopeRemap) := absorb_scopes shard (set_cf_interner t x) in
  let '(x2, guardRemap) := absorb_guards shard x1 in
  let '(x3, raiiRemap) := absorb_raiis remap shard x2 in
  foldl (absorb_context remap scopeRemap guardRemap raiiRemap) x3 (contexts_ shard).

(** * Removing translation units *)

Section Remove.
Context `{UI : !UnorderedIter}.

(** [std::unique] on sorted paths. *)
Fixpoint unique_paths (l : list bytes) : list bytes :=
  match l with
  | a :: ((b :: _) as rest) => if decide (a = b) then unique_paths rest else a :: unique_paths rest
  | _ => l
  end.

Definition tu_texts (tuPaths : list bytes) : list bytes :=
  unique_paths (merge_sort bytes_le (toIndexText <$> tuPaths)).

(** [byTu_] entries of one unit. *)
Definition tu_contexts (x : ControlFlowIndex) (tu : bytes) : list nat :=
  match find (cf_interner_ x) tu with
  | Some tuId => match byTu_ x !! tuId with Some v => v | None => [] end
  | None => []
  end.

(** [site.compare(0, prefix.size(), prefix) == 0] for one of the prefixes. *)
Definition from_removed_tu (t : StringInterner) (prefixes : list bytes) (se : StoredContext) : bool :=
  existsb (fun prefix => bool_decide (take (length prefix) (resolve t (sc_site se)) = prefix)) prefixes.

(** The sets collected while contexts are tombstoned. *)
Record Affected := MkAff {
  aff_dead : gset nat;
  aff_callees : gset SId;
  aff_callers : gset SId;
  aff_calleeDisplays : gset SId;
  aff_callerDisplays : gset SId;
  aff_sites : gset SId
}.

Definition affect (i : nat) (se : StoredContext) (a : Affected) : Affected :=
  MkAff ({[i]} ∪ aff_dead a) ({[sc_callee se]} ∪ aff_callees a) ({[sc_caller se]} ∪ aff_callers a)
    (if decide (sc_calleeDisplay se = sc_callee se) then aff_calleeDisplays a
     else {[sc_calleeDisplay se]} ∪ aff_calleeDisplays a)
    (if decide (sc_callerDisplay se = sc_caller se) then aff_callerDisplays a
     else {[sc_callerDisplay se]} ∪ aff_callerDisplays a)
    ({[sc_site se]} ∪ aff_sites a).

Definition set_dead (se : StoredContext) : StoredContext :=
  MkStoredContext (sc_caller se) (sc_callee se) (sc_callerDisplay se) (sc_calleeDisplay se) (sc_site se)
    (sc_tuPath se) (sc_scopeSet se) (sc_guardSet se) (sc_raiiSet se) (sc_callerNoexcept se)
    (sc_insideCatchBlock se) false.

(** One candidate; [provenanced] ones are taken without looking at their site.
    The state is the contexts, the affected sets and the number removed, which is
    also what [liveCount_] loses. *)
Definition kill_candidate (t : StringInterner) (prefixes : list bytes)
    (st : list StoredContext * Affected * nat) (candidate : nat * bool) : list StoredContext * Affected * nat :=
  let '(ctxs, a, removed) := st in
  let '(i, provenanced) := candidate in
  match ctxs !! i with
  | Some se =>
      if negb (sc_live se) then st
      else if negb provenanced && negb (from_removed_tu t prefixes se) then st
      else (<[i := set_dead se]> ctxs, affect i se a, S removed)
  | None => st
  end.

Definition scrub_dead (dead : gset nat) (v : list nat) : list nat := filter (fun i => i ∉ dead) v.

(** [scrub(m\[id\])] for every affected id: [operator\[\]] inserts a missing entry. *)
Definition scrub_entries (dead : gset nat) (ids : gset SId) (m : gmap SId (list nat)) : gmap SId (list nat) :=
  foldl (fun m id => <[id := scrub_dead dead (vec_at m id)]> m) m (set_iter ids).

(** The same with [find], erasing a vector that becomes empty. *)
Definition scrub_sites (dead : gset nat) (ids : gset SId) (m : gmap SId (list nat)) : gmap SId (list nat) :=
  foldl (fun m id =>
           match m !! id with
           | None => m
           | Some v => match scrub_dead dead v with [] => delete id m | v' => <[id := v']> m end
           end) m (set_iter ids).

Definition erase_tus (t : StringInterner) (tus : list bytes) (m : gmap SId (list nat)) : gmap SId (list nat) :=
  foldl (fun m tu => match find t tu with Some tuId => delete tuId m | None => m end) m tus.

Definition cf_removeTUs (tuPaths : list bytes) (x : ControlFlowIndex) : ControlFlowIndex * nat :=
  let t := cf_interner_ x in
  let tus := tu_texts tuPaths in
  let prefixes := (fun tu => tu ++ str ":") <$> tus in
  let candidates := ((fun i => (i, true)) <$> (tus ≫= tu_contexts x)) ++
                    ((fun i => (i, false)) <$> noProvenance_ x) in
  let '(ctxs, a, removed) :=
    foldl (kill_candidate t prefixes) (contexts_ x, MkAff ∅ ∅ ∅ ∅ ∅ ∅, 0) candidates in
  (MkCFIndex t ctxs (scopeSets_ x) (guardSets_ x) (raiiSets_ x) (scopeSetIds_ x) (guardSetIds_ x)
     (raiiSetIds_ x)
     (scrub_entries (aff_dead a) (aff_callees a) (byCallee_ x))
     (scrub_entries (aff_dead a) (aff_callers a) (byCaller_ x))
     (scrub_entries (aff_dead a) (aff_calleeDisplays a) (byCalleeDisplay_ x))
     (scrub_entries (aff_dead a) (aff_callerDisplays a) (byCallerDisplay_ x))
     (scrub_sites (aff_dead a) (aff_sites a) (bySite_ x))
     (erase_tus t tus (byTu_ x))
     (if decide (aff_dead a = ∅) then noProvenance_ x else scrub_dead (aff_dead a) (noProvenance_ x))
     (liveCount_ x - removed), removed).

Definition cf_removeTU (tuPath : bytes) (x : ControlFlowIndex) : ControlFlowIndex * nat :=
  cf_removeTUs [tuPath] x.
End Remove.

(** * Compaction *)

(** One stored context of the rebuilt index: the pushes of [insertStored]. *)
Definition compact_context (x : ControlFlowIndex) (se : StoredContext) : ControlFlowIndex :=
  if sc_live se then insertStored se true x else x.

Definition cf_compact (x : ControlFlowIndex) : ControlFlowIndex :=
  let y := foldl compact_context
    (MkCFIndex (cf_interner_ x) [] (scopeSets_ x) (guardSets_ x) (raiiSets_ x) (scopeSetIds_ x) (guardSetIds_ x)
       (raiiSetIds_ x) ∅ ∅ ∅ ∅ ∅ ∅ [] 0) (contexts_ x) in
  MkCFIndex (cf_interner_ y) (contexts_ y) (scopeSets_ y) (guardSets_ y) (raiiSets_ y) (scopeSetIds_ y)
    (guardSetIds_ y) (raiiSetIds_ y) (byCallee_ y) (byCaller_ y) (byCalleeDisplay_ y) (byCallerDisplay_ y)
    (bySite_ y) (byTu_ y) (noProvenance_ y) (liveCount_ x).

(** Moving takes every member. *)
Definition cf_move (other : ControlFlowIndex) : ControlFlowIndex :=
  MkCFIndex (move (cf_interner_ other)) (contexts_ other) (scopeSets_ other) (guardSets_ other) (raiiSets_ other)
    (scopeSetIds_ other) (guardSetIds_ other) (raiiSetIds_ other) (byCallee_ other) (byCaller_ other)
    (byCalleeDisplay_ other) (byCallerDisplay_ other) (bySite_ other) (byTu_ other) (noProvenance_ other)
    (liveCount_ other).
