(* ===== verification/ControlFlowInv.v ===== *)
(** The set keys of the control-flow index are unambiguous: every field is
    length-prefixed or of fixed width, so two sets have the same key exactly when
    they are equal field for field.

    The representation invariant of the control-flow index, and what adding a
    context and merging a shard do to the contexts it holds. *)

From S2P Require Import Prelude Registrations Utf8 StringInterner CallGraph CallGraphInv CallGraphMerge ControlFlowIndex.

(** * Codes *)

(** Reading a code back: what follows it does not change what was written. *)
Definition prefix_code {A} (good : A -> Prop) (code : A -> bytes) : Prop :=
  forall a b r r', good a -> good b -> code a ++ r = code b ++ r' -> a = b /\ r = r'.

Lemma prefix_code_inj {A} (good : A -> Prop) (code : A -> bytes) a b :
  prefix_code good code -> good a -> good b -> code a = code b -> a = b.
Proof. intros H Ha Hb E. apply (H a b [] []); [done|done|]. by rewrite E. Qed.

(** A code read field by field. *)
Lemma prefix_code_app {A B} (ga : A -> Prop) (gb : B -> Prop) (ca : A -> bytes) (cb : B -> bytes) a a' b b' r r' :
  prefix_code ga ca -> prefix_code gb cb -> ga a -> ga a' -> gb b -> gb b' ->
  (ca a ++ cb b) ++ r = (ca a' ++ cb b') ++ r' -> a = a' /\ b = b' /\ r = r'.
Proof.
  intros HA HB Ga Ga' Gb Gb'. rewrite <- !app_assoc. intros E.
  destruct (HA _ _ _ _ Ga Ga' E) as [-> E']. destruct (HB _ _ _ _ Gb Gb' E') as [-> ->]. done.
Qed.

(** A counted list. *)
Lemma prefix_code_list {A} (good : A -> Prop) (code : A -> bytes) l l' r r' :
  prefix_code good code -> Forall good l -> Forall good l' -> length l = length l' ->
  (l ≫= code) ++ r = (l' ≫= code) ++ r' -> l = l' /\ r = r'.
Proof.
  intros HC. revert l'. induction l as [|a l IH]; intros [|b l']; simpl; try done.
  rewrite !Forall_cons. intros [Ga Gl] [Gb Gl'] [= E]. rewrite <- !app_assoc. intros Ec.
  destruct (HC _ _ _ _ Ga Gb Ec) as [-> E']. by destruct (IH l' Gl Gl' E E') as [-> ->].
Qed.

(** A list without a count, read to the end. *)
Lemma list_code_inj {A} (good : A -> Prop) (code : A -> bytes) l l' :
  prefix_code good code -> (forall a, code a <> []) -> Forall good l -> Forall good l' ->
  (l ≫= code) = (l' ≫= code) -> l = l'.
Proof.
  intros HC Hne. revert l'. induction l as [|a l IH]; intros [|b l']; simpl; try done.
  - intros _ _ E. destruct (code b) eqn:Eb; [by apply Hne in Eb|done].
  - intros _ _ E. destruct (code a) eqn:Ea; [by apply Hne in Ea|done].
  - rewrite !Forall_cons. intros [Ga Gl] [Gb Gl'] Ec.
    destruct (HC _ _ _ _ Ga Gb Ec) as [-> E']. by rewrite (IH l' Gl Gl' E').
Qed.

(** * Fields *)

Definition u32_ok (v : N) : Prop := (v < two32)%N.
Definition str_ok (s : bytes) : Prop := u32_ok (N.of_nat (length s)).

Lemma to_char_eq a b : to_char a = to_char b -> (a mod 256 = b mod 256)%N.
Proof.
  intros E. apply (f_equal Byte.to_N) in E. unfold to_char in E.
  assert (H : forall n, Byte.to_N (default Byte.x00 (Byte.of_N (n mod 256))) = (n mod 256)%N).
  { intros n. rewrite <- (val_to_char (n mod 256)) at 2 by (by apply N.mod_lt). unfold to_char.
    by rewrite N.Div0.mod_mod. }
  by rewrite !H in E.
Qed.

Lemma four_bytes v : u32_ok v ->
  v = (v mod 256 + 256 * (v / 256 mod 256) + 65536 * (v / 65536 mod 256) + 16777216 * (v / 16777216 mod 256))%N.
Proof.
  unfold u32_ok, two32. intros Hv.
  replace (v / 65536)%N with (v / 256 / 256)%N by (by rewrite N.Div0.div_div).
  replace (v / 16777216)%N with (v / 256 / 256 / 256)%N by (by rewrite !N.Div0.div_div).
  pose proof (N.div_mod v 256 ltac:(done)) as E0. pose proof (N.div_mod (v / 256) 256 ltac:(done)) as E1.
  pose proof (N.div_mod (v / 256 / 256) 256 ltac:(done)) as E2.
  assert (H3 : (v / 256 / 256 / 256 < 256)%N).
  { rewrite !N.Div0.div_div. apply N.Div0.div_lt_upper_bound. lia. }
  rewrite (N.mod_small _ _ H3). set (q3 := (v / 256 / 256 / 256)%N) in *. clearbody q3.
  set (q2 := (v / 256 / 256)%N) in *. clearbody q2. set (q1 := (v / 256)%N) in *. clearbody q1. lia.
Qed.

Lemma keyU32_code : prefix_code u32_ok keyU32.
Proof.
  intros a b r r' Ga Gb. unfold keyU32. simpl. intros [= E0 E1 E2 E3 Er]. split; [|done].
  apply to_char_eq in E0, E1, E2, E3.
  by rewrite (four_bytes a Ga), (four_bytes b Gb), E0, E1, E2, E3.
Qed.

Lemma keyStr_code : prefix_code str_ok keyStr.
Proof.
  intros a b r r' Ga Gb. unfold keyStr. rewrite <- !app_assoc. rewrite !u32_small by done. intros E.
  destruct (keyU32_code _ _ _ _ Ga Gb E) as [El E']. apply Nat2N.inj in El.
  by apply app_inj_1 in E'.
Qed.

Lemma keyFlag_code : prefix_code (fun _ => True) keyFlag.
Proof. intros a b r r' _ _. unfold keyFlag. simpl. intros [= E ->]. split; [|done]. by destruct a, b. Qed.

(** Peel one field off both sides of an equation of codes. *)
Ltac peel E :=
  rewrite <- ?app_assoc in E;
  first [ apply keyStr_code in E; [destruct E as [? E]|done|done]
        | apply keyU32_code in E; [destruct E as [? E]|done|done]
        | apply keyFlag_code in E; [destruct E as [? E]|done|done] ].

Definition handler_ok (h : CatchHandlerInfo) : Prop :=
  str_ok (caughtType h) /\ str_ok (handlerLocation h) /\ str_ok (bodySummary h).

Definition scope_ok (s : TryCatchScope) : Prop :=
  str_ok (tryLocation s) /\ str_ok (enclosingFunction s) /\ u32_ok (nestingDepth s) /\
  u32_ok (N.of_nat (length (handlers s))) /\ Forall handler_ok (handlers s).

Definition guard_ok (g : ConditionalGuard) : Prop := str_ok (conditionText g) /\ str_ok (guardLocation g).

Definition raii_ok (l : StoredRaiiLocal) : Prop :=
  u32_ok (sr_typeName l) /\ u32_ok (sr_varName l) /\ u32_ok (sr_declLocation l).

Lemma handlerKey_code : prefix_code handler_ok handlerKey.
Proof.
  intros [a1 a2 a3 a4 a5] [b1 b2 b3 b4 b5] r r' (?&?&?) (?&?&?) E. unfold handlerKey in E.
  cbn [caughtType isCatchAll handlerLocation bodySummary rethrows] in *.
  do 5 peel E. by subst.
Qed.

Lemma scopeKey_code : prefix_code scope_ok scopeKey.
Proof.
  intros [t1 f1 h1 d1] [t2 f2 h2 d2] r r' (?&?&?&?&?) (?&?&?&?&?) E. unfold scopeKey in E. cbn [tryLocation enclosingFunction handlers nestingDepth] in *.
  rewrite !u32_small in E by done. do 4 peel E.
  destruct (prefix_code_list handler_ok handlerKey h1 h2 r r') as [-> ->];
    [apply handlerKey_code|done|done|lia|done|]. by subst.
Qed.

Lemma guardKey_code : prefix_code guard_ok guardKey.
Proof.
  intros [a1 a2 a3 a4] [b1 b2 b3 b4] r r' (?&?) (?&?) E. unfold guardKey in E.
  cbn [conditionText guardLocation inTrueBranch isAssertion] in *. do 4 peel E. by subst.
Qed.

Lemma raiiKey_code : prefix_code raii_ok raiiKey.
Proof.
  intros [a1 a2 a3 ak] [b1 b2 b3 bk] r r' (?&?&?) (?&?&?) E. unfold raiiKey in E.
  cbn [sr_typeName sr_varName sr_declLocation sr_kind] in *. do 3 peel E.
  simpl in E. injection E as Ek ->. subst. split; [|done]. f_equal. by destruct ak, bk.
Qed.

(** * Set keys *)

Lemma scopeSetKey_inj s s' : Forall scope_ok s -> Forall scope_ok s' -> scopeSetKey s = scopeSetKey s' -> s = s'.
Proof. apply list_code_inj; [apply scopeKey_code|]. by intros []. Qed.

Lemma guardSetKey_inj s s' : Forall guard_ok s -> Forall guard_ok s' -> guardSetKey s = guardSetKey s' -> s = s'.
Proof. apply list_code_inj; [apply guardKey_code|]. by intros []. Qed.

Lemma raiiSetKey_inj s s' : Forall raii_ok s -> Forall raii_ok s' -> raiiSetKey s = raiiSetKey s' -> s = s'.
Proof. apply list_code_inj; [apply raiiKey_code|]. by intros []. Qed.

(** Two sets of scopes, guards or locals have the same key exactly when they are
    equal, for strings, counts and ids that fit their 32-bit fields. *)
Theorem set_keys_exact :
  (forall s s', Forall scope_ok s -> Forall scope_ok s' -> (scopeSetKey s = scopeSetKey s' <-> s = s')) /\
  (forall s s', Forall guard_ok s -> Forall guard_ok s' -> (guardSetKey s = guardSetKey s' <-> s = s')) /\
  (forall s s', Forall raii_ok s -> Forall raii_ok s' -> (raiiSetKey s = raiiSetKey s' <-> s = s')).
Proof.
  split_and!; intros s s' H1 H2; (split; [|congruence]).
  - by apply scopeSetKey_inj.
  - by apply guardSetKey_inj.
  - by apply raiiSetKey_inj.
Qed.

Lemma set_keys_exact_witness :
  let g b := MkGuard (str "x > 0") (str "a.cpp:1:1") b false in
  guardSetKey [g true] = guardSetKey [g false] <-> [g true] = [g false].
Proof.
  apply (proj1 (proj2 set_keys_exact)); repeat constructor; vm_compute; reflexivity.
Defined.

(** * Set tables *)

Section Table.
Context {A : Type} (key : list A -> bytes) (good : list A -> Prop).
Context (Hinj : forall s s', good s -> good s' -> key s = key s' -> s = s').

(** Entry 0 is the empty set and the only one; the ids of the keys are the
    positions of the sets. *)
Record table_ok (sets : list (list A)) (ids : gmap bytes N) : Prop := {
  tb_zero : sets !! 0 = Some [];
  tb_empty : forall i, sets !! i = Some [] -> i = 0;
  tb_good : forall i s, sets !! i = Some s -> good s;
  tb_ids : forall k id, ids !! k = Some id <-> exists s, sets !! N.to_nat id = Some s /\ s <> [] /\ key s = k;
  tb_size : (N.of_nat (length sets) <= two32)%N
}.

Lemma intern_set_spec set sets ids sets' ids' id :
  intern_set (key set) set sets ids = (sets', ids', id) ->
  table_ok sets ids -> good set -> (N.of_nat (length sets) < two32)%N ->
  table_ok sets' ids' /\ sets `prefix_of` sets' /\ sets' !! N.to_nat id = Some set /\
  length sets' <= S (length sets).
Proof.
  intros E Hok Hgood Hroom. pose proof Hok as [T1 T2 T3 T4 T5]. unfold intern_set in E. destruct set as [|a set].
  { simplify_eq. split_and!; [done|done|done|lia]. }
  set (s := a :: set) in *. assert (Hs : s <> []) by done. clearbody s.
  destruct (ids !! key s) as [i|] eqn:Ei; simplify_eq.
  { split_and!; [done|done| |lia]. apply T4 in Ei as (s' & Hs' & _ & Hk).
    by rewrite <- (Hinj s' s) by eauto. }
  rewrite u32_small by lia. rewrite Nat2N.id.
  assert (Hat : (sets ++ [s]) !! length sets = Some s) by (by rewrite list_lookup_middle).
  split_and!; [|by apply prefix_app_r|done|rewrite length_app; simpl; lia]. split.
  - by apply lookup_app_l_Some.
  - intros i [?|[? [? ->]%list_lookup_singleton_Some]]%lookup_app_Some; [auto|done].
  - intros i s' [?|[? [? <-]%list_lookup_singleton_Some]]%lookup_app_Some; [eauto|done].
  - intros k id'. rewrite lookup_insert. case_decide as Hk; [subst k|].
    + split; [intros [= <-]; exists s; by rewrite Nat2N.id|].
      intros (s' & [H'|[Hge [Hz _]%list_lookup_singleton_Some]]%lookup_app_Some & Hne & Hkey); [|f_equal; lia].
      assert (ids !! key s = Some id') by (apply T4; eauto). congruence.
    + rewrite T4. split; intros (s' & Hs' & Hne & Hkey); exists s'; (split_and!; [|done|done]).
      * by apply lookup_app_l_Some.
      * apply lookup_app_Some in Hs' as [?|[? [? <-]%list_lookup_singleton_Some]]; [done|congruence].
  - rewrite length_app. simpl. lia.
Qed.

Lemma set_of_ext (sets sets' : list (list A)) i s :
  sets `prefix_of` sets' -> sets !! N.to_nat i = Some s -> set_of sets' i = s.
Proof. intros Hp Hs. unfold set_of. by rewrite (prefix_lookup_Some _ _ _ _ Hs Hp). Qed.
End Table.

(** * Positions *)

(** The live contexts of a property, by position. *)
Definition positions (P : StoredContext -> bool) (l : list StoredContext) : list nat :=
  filter (fun i => match l !! i with Some se => sc_live se && P se | None => false end = true) (seq 0 (length l)).

Lemma elem_of_positions P l i :
  i ∈ positions P l <-> exists se, l !! i = Some se /\ sc_live se = true /\ P se = true.
Proof.
  unfold positions. rewrite list_elem_of_filter, elem_of_seq. split.
  - intros [H _]. destruct (l !! i) as [se|]; [|done]. apply andb_true_iff in H as [? ?]. by exists se.
  - intros (se & Hi & H1 & H2). rewrite Hi, H1, H2. split; [done|]. apply lookup_lt_Some in Hi. lia.
Qed.

Lemma positions_sorted P l : StronglySorted lt (positions P l).
Proof. apply StronglySorted_filter, seq_sorted. Qed.

Lemma positions_eq P l v :
  StronglySorted lt v -> (forall i, i ∈ v <-> exists se, l !! i = Some se /\ sc_live se = true /\ P se = true) ->
  v = positions P l.
Proof.
  intros Hs H. apply sorted_lt_ext; [done|apply positions_sorted|]. intros i. by rewrite H, elem_of_positions.
Qed.

Lemma positions_snoc P l se :
  positions P (l ++ [se]) = positions P l ++ (if sc_live se && P se then [length l] else []).
Proof.
  unfold positions. rewrite length_app. simpl. rewrite seq_app, filter_app. f_equal.
  - apply filter_ext_in. intros i Hi%elem_of_seq. by rewrite lookup_app_l by lia.
  - simpl. rewrite filter_cons, list_lookup_middle by done. rewrite filter_nil.
    destruct (sc_live se && P se) eqn:E; case_decide; congruence.
Qed.

Lemma omap_app_eq {B C} (f : B -> option C) l k : omap f (l ++ k) = omap f l ++ omap f k.
Proof.
  induction l as [|x l IH]; [done|]. rewrite <- app_comm_cons, !omap_cons_eq, IH. by destruct (f x).
Qed.

(** Reading live contexts at the positions of a property filters the contexts. *)
Lemma live_at_positions x keep P :
  live_at x keep (positions P (contexts_ x)) =
  filter (fun se => sc_live se && P se && keep se = true) (contexts_ x).
Proof.
  unfold live_at, live_in. cbn [resident v_storedAt]. generalize (contexts_ x). intros l. induction l as [|se l IH] using rev_ind; [done|].
  rewrite positions_snoc, omap_app_eq, filter_app. f_equal.
  - rewrite <- IH. apply omap_ext_in. intros i (se' & Hi & _)%elem_of_positions.
    by rewrite lookup_app_l by (by apply lookup_lt_Some in Hi).
  - rewrite filter_cons, filter_nil. destruct (sc_live se) eqn:El, (P se) eqn:Ep; cbn [andb]; try done.
    rewrite omap_cons_eq, list_lookup_middle, El by done. by destruct (keep se).
Qed.

(** * The invariant *)

Record maps_ok (x : ControlFlowIndex) : Prop := {
  mp_callee : forall k, vec_at (byCallee_ x) k = positions (fun se => sc_callee se =? k)%N (contexts_ x);
  mp_caller : forall k, vec_at (byCaller_ x) k = positions (fun se => sc_caller se =? k)%N (contexts_ x);
  mp_calleeDisplay : forall k, vec_at (byCalleeDisplay_ x) k =
    positions (fun se => (sc_calleeDisplay se =? k)%N && negb (sc_calleeDisplay se =? sc_callee se)%N) (contexts_ x);
  mp_callerDisplay : forall k, vec_at (byCallerDisplay_ x) k =
    positions (fun se => (sc_callerDisplay se =? k)%N && negb (sc_callerDisplay se =? sc_caller se)%N) (contexts_ x);
  mp_site : forall k, vec_at (bySite_ x) k = positions (fun se => sc_site se =? k)%N (contexts_ x);
  mp_tu : forall k, k <> kNoString -> vec_at (byTu_ x) k = positions (fun se => sc_tuPath se =? k)%N (contexts_ x);
  mp_noProvenance : noProvenance_ x = positions (fun se => sc_tuPath se =? kNoString)%N (contexts_ x);
  mp_live : liveCount_ x = length (positions (fun _ => true) (contexts_ x))
}.

(** The ids of a stored context are in the tables. *)
Record stored_ok (x : ControlFlowIndex) (se : StoredContext) : Prop := {
  so_caller : known (cf_interner_ x) (sc_caller se);
  so_callee : known (cf_interner_ x) (sc_callee se);
  so_callerDisplay : known (cf_interner_ x) (sc_callerDisplay se);
  so_calleeDisplay : known (cf_interner_ x) (sc_calleeDisplay se);
  so_site : known (cf_interner_ x) (sc_site se);
  so_tu : sc_tuPath se = kNoString \/ (known (cf_interner_ x) (sc_tuPath se) /\ stringOf x (sc_tuPath se) <> []);
  so_scope : is_Some (scopeSets_ x !! N.to_nat (sc_scopeSet se));
  so_guard : is_Some (guardSets_ x !! N.to_nat (sc_guardSet se));
  so_raii : is_Some (raiiSets_ x !! N.to_nat (sc_raiiSet se))
}.

Definition raii_known (t : StringInterner) (l : StoredRaiiLocal) : Prop :=
  known t (sr_typeName l) /\ known t (sr_varName l) /\ known t (sr_declLocation l).

Record cf_ok (x : ControlFlowIndex) : Prop := {
  cf_interner : interner_ok (cf_interner_ x);
  cf_ids : (N.of_nat (table_size (cf_interner_ x)) < two32)%N;
  cf_scopes : table_ok scopeSetKey (Forall scope_ok) (scopeSets_ x) (scopeSetIds_ x);
  cf_guards : table_ok guardSetKey (Forall guard_ok) (guardSets_ x) (guardSetIds_ x);
  cf_raiis : table_ok raiiSetKey (Forall raii_ok) (raiiSets_ x) (raiiSetIds_ x);
  cf_locals : forall i s, raiiSets_ x !! i = Some s -> Forall (raii_known (cf_interner_ x)) s;
  cf_stored : Forall (stored_ok x) (contexts_ x);
  cf_maps : maps_ok x
}.

Lemma known_u32 t id : (N.of_nat (table_size t) < two32)%N -> known t id -> u32_ok id /\ id <> kNoString.
Proof. intros Hs Hk%resolve_opt_is_Some. unfold u32_ok, kNoString. lia. Qed.

Lemma raii_known_ok t s : (N.of_nat (table_size t) < two32)%N -> Forall (raii_known t) s -> Forall raii_ok s.
Proof.
  intros Hs Hl. eapply Forall_impl; [exact Hl|]. intros l (H1 & H2 & H3). split_and!; by eapply known_u32.
Qed.

Lemma empty_table_ok {A} (key : list A -> bytes) (good : A -> Prop) : table_ok key (Forall good) [[]] ∅.
Proof.
  split; [done| | | |done].
  - intros [|[|i]]; [done|done|done].
  - intros [|[|i]] s; [|done..]. intros [= <-]. constructor.
  - intros k id. rewrite lookup_empty. split; [done|]. intros (s & Hs & Hne & _).
    destruct (N.to_nat id) as [|[|i]]; [|done..]. injection Hs as <-. done.
Qed.

Lemma empty_index_ok : cf_ok empty_index.
Proof.
  split; [apply empty_ok|done|apply empty_table_ok|apply empty_table_ok|apply empty_table_ok| |constructor|by split].
  intros i s Hi. simpl in Hi. destruct i as [|i]; [|done]. injection Hi as <-. constructor.
Qed.

(** * Growing tables *)

(** Every table of [x'] extends the one of [x]. *)
Record grows (x x' : ControlFlowIndex) : Prop := {
  gr_interner : extends (cf_interner_ x) (cf_interner_ x');
  gr_scopes : scopeSets_ x `prefix_of` scopeSets_ x';
  gr_guards : guardSets_ x `prefix_of` guardSets_ x';
  gr_raiis : raiiSets_ x `prefix_of` raiiSets_ x'
}.

#[global] Instance grows_preorder : PreOrder grows.
Proof. split; [intros x; by split|]. intros x y z [] []. split; by etrans. Qed.

Lemma stringOf_grows x x' id : grows x x' -> known (cf_interner_ x) id -> stringOf x' id = stringOf x id.
Proof.
  intros [Hi _ _ _] [s Hs]. unfold stringOf.
  by rewrite (resolve_of_opt _ _ _ Hs), (resolve_of_opt _ _ _ (extends_resolve _ _ _ _ Hi Hs)).
Qed.

Lemma stored_ok_grows x x' se : grows x x' -> stored_ok x se -> stored_ok x' se.
Proof.
  intros Hg [H1 H2 H3 H4 H5 H6 H7 H8 H9]. pose proof Hg as [Hi Hs Hgd Hr].
  split; eauto using known_extends, prefix_lookup_Some.
  - destruct H6 as [?|[Hk ?]]; [by left|right]. rewrite (stringOf_grows x x') by done.
    split; [by eapply known_extends|done].
  - destruct H7 as [s ?]. exists s. by eapply prefix_lookup_Some.
  - destruct H8 as [s ?]. exists s. by eapply prefix_lookup_Some.
  - destruct H9 as [s ?]. exists s. by eapply prefix_lookup_Some.
Qed.

Lemma raii_of_grows x x' l : grows x x' -> raii_known (cf_interner_ x) l -> raii_of x' l = raii_of x l.
Proof. intros Hg (H1 & H2 & H3). unfold raii_of, raii_with. by rewrite !(stringOf_grows x x'). Qed.

Lemma materialize_grows x x' se :
  grows x x' -> (forall i s, raiiSets_ x !! i = Some s -> Forall (raii_known (cf_interner_ x)) s) ->
  stored_ok x se -> cf_materialize x' se = cf_materialize x se.
Proof.
  intros Hg Hl [H1 H2 H3 H4 H5 H6 [ss Hss] [gs Hgs] [rs Hrs]]. unfold cf_materialize, materialize_with.
  rewrite !(stringOf_grows x x') by done.
  rewrite (set_of_ext _ _ _ _ (gr_scopes _ _ Hg) Hss), (set_of_ext _ _ _ _ (gr_guards _ _ Hg) Hgs).
  rewrite (set_of_ext _ _ _ _ (gr_raiis _ _ Hg) Hrs).
  unfold set_of. rewrite Hss, Hgs, Hrs. simpl. f_equal.
  - case_decide; [done|]. destruct H6 as [?|[? _]]; [done|]. by rewrite (stringOf_grows x x').
  - apply list_fmap_ext. intros i l Hi. apply raii_of_grows; [done|].
    specialize (Hl _ _ Hrs). eapply Forall_lookup in Hl; eauto.
Qed.

(** * What the index holds *)

Definition live_contexts (x : ControlFlowIndex) : list StoredContext :=
  filter (fun se => sc_live se = true) (contexts_ x).

Lemma allContexts_eq x : allContexts x = cf_materialize x <$> live_contexts x.
Proof.
  unfold allContexts, allContexts_in, forEachContext_in, live_contexts.
  enough (H : forall l acc, foldl (fun a se => if sc_live se then a ++ [cf_materialize x se] else a) acc l =
    acc ++ (cf_materialize x <$> filter (fun se => sc_live se = true) l)) by apply H.
  induction l as [|se l IH]; intros acc; simpl; [by rewrite app_nil_r|].
  rewrite IH, filter_cons. destruct (sc_live se); simpl; [by rewrite <- app_assoc|done].
Qed.

(** * Insertion *)

Lemma insert_maps_ok se x : maps_ok x -> sc_live se = true -> maps_ok (insertStored se true x).
Proof.
  intros [M1 M2 M3 M4 M5 M6 M7 M8] Hl. split; simpl.
  - intros k. rewrite vec_at_push_back, positions_snoc, M1, Hl. simpl.
    by destruct (N.eqb_spec (sc_callee se) k), (decide (sc_callee se = k)).
  - intros k. rewrite vec_at_push_back, positions_snoc, M2, Hl. simpl.
    by destruct (N.eqb_spec (sc_caller se) k), (decide (sc_caller se = k)).
  - intros k. rewrite positions_snoc, Hl. simpl. case_decide as Hd.
    + rewrite Hd, N.eqb_refl, andb_false_r, app_nil_r. apply M3.
    + rewrite vec_at_push_back, M3. apply N.eqb_neq in Hd. rewrite Hd, andb_true_r.
      by destruct (N.eqb_spec (sc_calleeDisplay se) k), (decide (sc_calleeDisplay se = k)).
  - intros k. rewrite positions_snoc, Hl. simpl. case_decide as Hd.
    + rewrite Hd, N.eqb_refl, andb_false_r, app_nil_r. apply M4.
    + rewrite vec_at_push_back, M4. apply N.eqb_neq in Hd. rewrite Hd, andb_true_r.
      by destruct (N.eqb_spec (sc_callerDisplay se) k), (decide (sc_callerDisplay se = k)).
  - intros k. rewrite vec_at_push_back, positions_snoc, M5, Hl. simpl.
    by destruct (N.eqb_spec (sc_site se) k), (decide (sc_site se = k)).
  - intros k Hk. rewrite positions_snoc, Hl. simpl. case_decide as Hd.
    + rewrite M6 by done. destruct (N.eqb_spec (sc_tuPath se) k); [congruence|by rewrite app_nil_r].
    + rewrite vec_at_push_back, M6 by done.
      by destruct (N.eqb_spec (sc_tuPath se) k), (decide (sc_tuPath se = k)).
  - rewrite positions_snoc, Hl, M7. simpl. case_decide as Hd.
    + by rewrite Hd, N.eqb_refl.
    + apply N.eqb_neq in Hd. by rewrite Hd, app_nil_r.
  - rewrite positions_snoc, Hl, M8, length_app. simpl. lia.
Qed.

Lemma insert_grows se x : grows x (insertStored se true x).
Proof. by split. Qed.

Lemma insert_cf_ok se x : cf_ok x -> stored_ok x se -> sc_live se = true -> cf_ok (insertStored se true x).
Proof.
  intros [H1 H2 H3 H4 H5 H6 H7 H8] Hse Hl. split; try done.
  - simpl. apply Forall_app. split; [|apply Forall_singleton; by destruct Hse].
    eapply Forall_impl; [exact H7|]. intros se' H'. by apply (stored_ok_grows x).
  - by apply insert_maps_ok.
Qed.

Lemma insert_view se x :
  cf_ok x -> stored_ok x se -> sc_live se = true ->
  allContexts (insertStored se true x) = allContexts x ++ [cf_materialize x se].
Proof.
  intros Hok Hse Hl. rewrite !allContexts_eq. unfold live_contexts. simpl. rewrite filter_app, fmap_app. f_equal.
  rewrite filter_cons_True, filter_nil by done. done.
Qed.

(** * Interning sets *)

(** The contexts and the lookup maps are untouched. *)
Record same_store (x x' : ControlFlowIndex) : Prop := {
  ss_contexts : contexts_ x' = contexts_ x;
  ss_callee : byCallee_ x' = byCallee_ x;
  ss_caller : byCaller_ x' = byCaller_ x;
  ss_calleeDisplay : byCalleeDisplay_ x' = byCalleeDisplay_ x;
  ss_callerDisplay : byCallerDisplay_ x' = byCallerDisplay_ x;
  ss_site : bySite_ x' = bySite_ x;
  ss_tu : byTu_ x' = byTu_ x;
  ss_noProvenance : noProvenance_ x' = noProvenance_ x;
  ss_live : liveCount_ x' = liveCount_ x
}.

#[global] Instance same_store_preorder : PreOrder same_store.
Proof. split; [intros x; by split|]. intros x y z [] []. split; congruence. Qed.

Lemma same_store_maps x x' : same_store x x' -> maps_ok x -> maps_ok x'.
Proof.
  intros [E1 E2 E3 E4 E5 E6 E7 E8 E9] [M1 M2 M3 M4 M5 M6 M7 M8].
  split; rewrite ?E1, ?E2, ?E3, ?E4, ?E5, ?E6, ?E7, ?E8, ?E9; done.
Qed.

Lemma grown_stored x x' : cf_ok x -> grows x x' -> same_store x x' -> Forall (stored_ok x') (contexts_ x').
Proof.
  intros Hok Hg Hs. rewrite (ss_contexts _ _ Hs). eapply Forall_impl; [apply (cf_stored _ Hok)|].
  intros se. by apply stored_ok_grows.
Qed.

(** Growing the tables changes nothing that is held. *)
Lemma grown_view x x' : cf_ok x -> grows x x' -> same_store x x' -> allContexts x' = allContexts x.
Proof.
  intros Hok Hg Hs. rewrite !allContexts_eq. unfold live_contexts. rewrite (ss_contexts _ _ Hs).
  apply list_fmap_ext. intros i se Hi. apply materialize_grows; [done|apply Hok|].
  apply list_elem_of_lookup_2, list_elem_of_filter in Hi as [_ Hi].
  by eapply Forall_forall in Hi; [|apply (cf_stored _ Hok)].
Qed.

(** Room for [k] more sets in every table. *)
Definition set_room (k : nat) (x : ControlFlowIndex) : Prop :=
  (N.of_nat (length (scopeSets_ x) + k) <= two32)%N /\ (N.of_nat (length (guardSets_ x) + k) <= two32)%N /\
  (N.of_nat (length (raiiSets_ x) + k) <= two32)%N.

Lemma internScopeSet_spec s x x' id :
  internScopeSet (scopeSetKey s) s x = (x', id) -> cf_ok x -> Forall scope_ok s ->
  (N.of_nat (length (scopeSets_ x)) < two32)%N ->
  cf_ok x' /\ grows x x' /\ same_store x x' /\ cf_interner_ x' = cf_interner_ x /\
  guardSets_ x' = guardSets_ x /\ raiiSets_ x' = raiiSets_ x /\
  length (scopeSets_ x') <= S (length (scopeSets_ x)) /\ scopeSets_ x' !! N.to_nat id = Some s.
Proof.
  unfold internScopeSet. destruct (intern_set _ _ _ _) as [[sets ids] i] eqn:Ei. intros [= <- <-] Hok Hs Hr.
  destruct (intern_set_spec _ _ scopeSetKey_inj _ _ _ _ _ _ Ei (cf_scopes _ Hok) Hs Hr) as (T1 & T2 & T3 & T4).
  set (x' := MkCFIndex _ _ _ _ _ _ _ _ _ _ _ _ _ _ _ _).
  assert (Hg : grows x x') by (by split). assert (Hss : same_store x x') by (by split).
  split_and!; try done. destruct Hok. split; try done; [by apply (grown_stored x)|by apply (same_store_maps x)].
Qed.

Lemma internGuardSet_spec s x x' id :
  internGuardSet (guardSetKey s) s x = (x', id) -> cf_ok x -> Forall guard_ok s ->
  (N.of_nat (length (guardSets_ x)) < two32)%N ->
  cf_ok x' /\ grows x x' /\ same_store x x' /\ cf_interner_ x' = cf_interner_ x /\
  scopeSets_ x' = scopeSets_ x /\ raiiSets_ x' = raiiSets_ x /\
  length (guardSets_ x') <= S (length (guardSets_ x)) /\ guardSets_ x' !! N.to_nat id = Some s.
Proof.
  unfold internGuardSet. destruct (intern_set _ _ _ _) as [[sets ids] i] eqn:Ei. intros [= <- <-] Hok Hs Hr.
  destruct (intern_set_spec _ _ guardSetKey_inj _ _ _ _ _ _ Ei (cf_guards _ Hok) Hs Hr) as (T1 & T2 & T3 & T4).
  set (x' := MkCFIndex _ _ _ _ _ _ _ _ _ _ _ _ _ _ _ _).
  assert (Hg : grows x x') by (by split). assert (Hss : same_store x x') by (by split).
  split_and!; try done. destruct Hok. split; try done; [by apply (grown_stored x)|by apply (same_store_maps x)].
Qed.

Lemma internRaiiSet_spec s x x' id :
  internRaiiSet (raiiSetKey s) s x = (x', id) -> cf_ok x -> Forall (raii_known (cf_interner_ x)) s ->
  (N.of_nat (length (raiiSets_ x)) < two32)%N ->
  cf_ok x' /\ grows x x' /\ same_store x x' /\ cf_interner_ x' = cf_interner_ x /\
  scopeSets_ x' = scopeSets_ x /\ guardSets_ x' = guardSets_ x /\
  length (raiiSets_ x') <= S (length (raiiSets_ x)) /\ raiiSets_ x' !! N.to_nat id = Some s.
Proof.
  unfold internRaiiSet. destruct (intern_set _ _ _ _) as [[sets ids] i] eqn:Ei. intros [= <- <-] Hok Hs Hr.
  destruct (intern_set_spec _ _ raiiSetKey_inj _ _ _ _ _ _ Ei (cf_raiis _ Hok)) as (T1 & T2 & T3 & T4);
    [eapply raii_known_ok; [apply Hok|done]|done|].
  set (x' := MkCFIndex _ _ _ _ _ _ _ _ _ _ _ _ _ _ _ _).
  assert (Hg : grows x x') by (by split). assert (Hss : same_store x x') by (by split).
  split_and!; try done. destruct Hok. split; try done; [|by apply (grown_stored x)|by apply (same_store_maps x)].
  intros j s' Hj. simpl in *. unfold intern_set in Ei. destruct s as [|l s]; [simplify_eq; eauto|].
  destruct (raiiSetIds_ x !! raiiSetKey (l :: s)); simplify_eq; [eauto|].
  apply lookup_app_Some in Hj as [?|[_ [_ <-]%list_lookup_singleton_Some]]; eauto.
Qed.

(** * Adding a context *)

Definition or_else (s dflt : bytes) : bytes := match s with [] => dflt | _ :: _ => s end.

(** The context as the index gives it back: every string as index text, a missing
    identity replaced by the display name. *)
Definition stored_form (ctx : CallSiteContext) : CallSiteContext :=
  let c := text_context ctx in
  MkContext (cs_callerName c) (cs_calleeName c) (cs_callSite c)
    (or_else (cs_callerUsr c) (cs_callerName c)) (or_else (cs_calleeUsr c) (cs_calleeName c)) (cs_tuPath c)
    (enclosingTryCatches c) (enclosingGuards c) (callerNoexcept c) (insideCatchBlock c) (liveRaiiLocals c).

(** The strings and counts of the sets fit their 32-bit fields. *)
Definition context_fits (ctx : CallSiteContext) : Prop :=
  Forall scope_ok (enclosingTryCatches (text_context ctx)) /\ Forall guard_ok (enclosingGuards (text_context ctx)).

Lemma intern_or_spec dflt s t t' id :
  intern_or dflt s t = (t', id) -> interner_ok t -> room 1 t ->
  interner_ok t' /\ extends t t' /\ (table_size t' <= table_size t + 1)%nat /\
  match s with [] => id = dflt | _ :: _ => resolve_opt t' id = Some s end.
Proof.
  unfold intern_or. intros E Hok Hr. destruct s as [|b s].
  - simplify_eq. split_and!; [done|done|lia|done].
  - destruct (intern_spec _ _ _ _ E Hok Hr) as (H1 & H2 & H3 & H4). done.
Qed.

Definition local_stored (t : StringInterner) (l : RaiiLocal) (sl : StoredRaiiLocal) : Prop :=
  resolve_opt t (sr_typeName sl) = Some (typeName l) /\ resolve_opt t (sr_varName sl) = Some (varName l) /\
  resolve_opt t (sr_declLocation sl) = Some (declLocation l) /\ sr_kind sl = raiiKind l.

Lemma local_stored_extends t t' l sl : extends t t' -> local_stored t l sl -> local_stored t' l sl.
Proof. intros He (H1 & H2 & H3 & H4). split_and!; eauto using extends_resolve. Qed.

Lemma intern_locals_spec ls t t' locals :
  intern_locals ls t = (t', locals) -> interner_ok t -> room (3 * length ls) t ->
  interner_ok t' /\ extends t t' /\ (table_size t' <= table_size t + 3 * length ls)%nat /\
  Forall2 (local_stored t') ls locals.
Proof.
  revert t t' locals. induction ls as [|l ls IH]; intros t t' locals E Hok Hr; simpl in E.
  { simplify_eq. split_and!; [done|done|lia|constructor]. }
  destruct (intern t (typeName l)) as [t1 ty] eqn:E1. destruct (intern t1 (varName l)) as [t2 vn] eqn:E2.
  destruct (intern t2 (declLocation l)) as [t3 dl] eqn:E3. destruct (intern_locals ls t3) as [t4 rest] eqn:E4.
  unfold room in Hr. simpl in Hr.
  destruct (intern_spec _ _ _ _ E1) as (A1 & A2 & A3 & A4); [done|unfold room; lia|].
  destruct (intern_spec _ _ _ _ E2) as (B1 & B2 & B3 & B4); [done|unfold room; lia|].
  destruct (intern_spec _ _ _ _ E3) as (C1 & C2 & C3 & C4); [done|unfold room; lia|].
  destruct (IH _ _ _ E4 C1) as (D1 & D2 & D3 & D4); [unfold room; lia|]. simplify_eq.
  split_and!; [done|by repeat (etrans; [eassumption|])|simpl; lia|].
  constructor; [|done]. split_and!; simpl; eauto 6 using extends_resolve.
Qed.

Lemma set_interner_ok x t :
  cf_ok x -> interner_ok t -> extends (cf_interner_ x) t -> (N.of_nat (table_size t) < two32)%N ->
  cf_ok (set_cf_interner t x) /\ grows x (set_cf_interner t x) /\ same_store x (set_cf_interner t x).
Proof.
  intros Hok Ht He Hs. assert (Hg : grows x (set_cf_interner t x)) by (by split).
  assert (Hss : same_store x (set_cf_interner t x)) by (by split). split_and!; [|done|done].
  pose proof (grown_stored _ _ Hok Hg Hss). pose proof (same_store_maps _ _ Hss (cf_maps _ Hok)).
  destruct Hok as [_ _ H3 H4 H5 H6 _ _]. split; try done. simpl. intros i s Hi.
  eapply Forall_impl; [by eapply H6|]. intros l (?&?&?). split_and!; by eapply known_extends.
Qed.

(** The stored record of a context, from the ids its strings were given. *)
Record stores (x : ControlFlowIndex) (c : CallSiteContext) (se : StoredContext) (locals : list StoredRaiiLocal) : Prop := {
  st_callerDisplay : resolve_opt (cf_interner_ x) (sc_callerDisplay se) = Some (cs_callerName c);
  st_calleeDisplay : resolve_opt (cf_interner_ x) (sc_calleeDisplay se) = Some (cs_calleeName c);
  st_caller : resolve_opt (cf_interner_ x) (sc_caller se) = Some (cs_callerUsr c);
  st_callee : resolve_opt (cf_interner_ x) (sc_callee se) = Some (cs_calleeUsr c);
  st_site : resolve_opt (cf_interner_ x) (sc_site se) = Some (cs_callSite c);
  st_tu : (sc_tuPath se = kNoString /\ cs_tuPath c = []) \/
          (cs_tuPath c <> [] /\ resolve_opt (cf_interner_ x) (sc_tuPath se) = Some (cs_tuPath c));
  st_scope : scopeSets_ x !! N.to_nat (sc_scopeSet se) = Some (enclosingTryCatches c);
  st_guard : guardSets_ x !! N.to_nat (sc_guardSet se) = Some (enclosingGuards c);
  st_raii : raiiSets_ x !! N.to_nat (sc_raiiSet se) = Some locals;
  st_locals : Forall2 (local_stored (cf_interner_ x)) (liveRaiiLocals c) locals;
  st_noexcept : sc_callerNoexcept se = callerNoexcept c;
  st_catch : sc_insideCatchBlock se = insideCatchBlock c
}.

Lemma stores_ok x c se locals :
  (N.of_nat (table_size (cf_interner_ x)) < two32)%N -> stores x c se locals ->
  stored_ok x se /\ cf_materialize x se = c.
Proof.
  intros Hsize [S1 S2 S3 S4 S5 S6 S7 S8 S9 S10 S11 S12].
  assert (Hres : forall id s, resolve_opt (cf_interner_ x) id = Some s -> stringOf x id = s)
    by (intros; by apply resolve_of_opt).
  split.
  - split; eauto using resolve_known.
    destruct S6 as [[? _]|[Hne Htu]]; [by left|right]. rewrite (Hres _ _ Htu). split; [by eapply resolve_known|done].
  - unfold cf_materialize, materialize_with, set_of. rewrite (Hres _ _ S1), (Hres _ _ S2), (Hres _ _ S3), (Hres _ _ S4), (Hres _ _ S5).
    rewrite S7, S8, S9, S11, S12. simpl.
    replace (if decide (sc_tuPath se = kNoString) then [] else stringOf x (sc_tuPath se)) with (cs_tuPath c).
    + replace (raii_with (stringOf x) <$> locals) with (liveRaiiLocals c); [by destruct c|].
      clear -S10 Hres. induction S10 as [|l sl ls sls (H1 & H2 & H3 & H4) _ IH]; [done|]. rewrite fmap_cons, <- IH. f_equal.
      unfold raii_with. rewrite (Hres _ _ H1), (Hres _ _ H2), (Hres _ _ H3), H4. by destruct l.
    + destruct S6 as [[-> ->]|[_ Htu]]; [by rewrite decide_True|].
      destruct (known_u32 _ _ Hsize (resolve_known _ _ _ Htu)). by rewrite decide_False, (Hres _ _ Htu).
Qed.

Lemma stores_grows x x' c se locals : grows x x' -> stores x c se locals -> stores x' c se locals.
Proof.
  intros [Hi Hs Hg Hr] [S1 S2 S3 S4 S5 S6 S7 S8 S9 S10 S11 S12].
  split; eauto using extends_resolve, prefix_lookup_Some.
  - destruct S6 as [?|[? ?]]; [by left|right; split; [done|by eapply extends_resolve]].
  - eapply Forall2_impl; [exact S10|]. intros. by eapply local_stored_extends.
Qed.

(** Strings a context may add to the table. *)
Definition context_strings (ctx : CallSiteContext) : nat := 6 + 3 * length (liveRaiiLocals ctx).

Definition context_room (ctx : CallSiteContext) (x : ControlFlowIndex) : Prop :=
  (N.of_nat (table_size (cf_interner_ x) + context_strings ctx) < two32)%N /\ set_room 1 x.

(** The ids name the strings, a missing identity being the display name's. *)
Record ids_of (t : StringInterner) (c : CallSiteContext) (ids : ContextIds) : Prop := {
  io_callerDisplay : resolve_opt t (id_callerDisplay ids) = Some (cs_callerName c);
  io_calleeDisplay : resolve_opt t (id_calleeDisplay ids) = Some (cs_calleeName c);
  io_caller : resolve_opt t (id_caller ids) = Some (or_else (cs_callerUsr c) (cs_callerName c));
  io_callee : resolve_opt t (id_callee ids) = Some (or_else (cs_calleeUsr c) (cs_calleeName c));
  io_site : resolve_opt t (id_site ids) = Some (cs_callSite c);
  io_tu : (id_tu ids = kNoString /\ cs_tuPath c = []) \/
          (cs_tuPath c <> [] /\ resolve_opt t (id_tu ids) = Some (cs_tuPath c));
  io_locals : Forall2 (local_stored t) (liveRaiiLocals c) (id_locals ids)
}.

Lemma intern_context_spec c t t' ids :
  intern_context c t = (t', ids) -> interner_ok t -> room (6 + 3 * length (liveRaiiLocals c)) t ->
  interner_ok t' /\ extends t t' /\
  (table_size t' <= table_size t + (6 + 3 * length (liveRaiiLocals c)))%nat /\ ids_of t' c ids.
Proof.
  unfold intern_context, room. intros E Hi Hroom.
  destruct (intern t (cs_calleeName c)) as [t1 ced] eqn:E1.
  destruct (intern_spec _ _ _ _ E1 Hi) as (A1 & A2 & A3 & A4); [unfold room; lia|].
  destruct (intern t1 (cs_callerName c)) as [t2 crd] eqn:E2.
  destruct (intern_spec _ _ _ _ E2 A1) as (B1 & B2 & B3 & B4); [unfold room; lia|].
  destruct (intern_or ced (cs_calleeUsr c) t2) as [t3 ce] eqn:E3.
  destruct (intern_or_spec _ _ _ _ _ E3 B1) as (C1 & C2 & C3 & C4); [unfold room; lia|].
  destruct (intern_or crd (cs_callerUsr c) t3) as [t4 cr] eqn:E4.
  destruct (intern_or_spec _ _ _ _ _ E4 C1) as (D1 & D2 & D3 & D4); [unfold room; lia|].
  destruct (intern t4 (cs_callSite c)) as [t5 si] eqn:E5.
  destruct (intern_spec _ _ _ _ E5 D1) as (F1 & F2 & F3 & F4); [unfold room; lia|].
  destruct (intern_or kNoString (cs_tuPath c) t5) as [t6 tu] eqn:E6.
  destruct (intern_or_spec _ _ _ _ _ E6 F1) as (G1 & G2 & G3 & G4); [unfold room; lia|].
  destruct (intern_locals (liveRaiiLocals c) t6) as [t7 locals] eqn:E7.
  destruct (intern_locals_spec _ _ _ _ E7 G1) as (L1 & L2 & L3 & L4); [unfold room; lia|].
  assert (He5 : extends t5 t7) by (by etrans). assert (He4 : extends t4 t7) by (by etrans; [exact F2|]).
  assert (He3 : extends t3 t7) by (by etrans; [exact D2|]). assert (He2 : extends t2 t7) by (by etrans; [exact C2|]).
  assert (He1 : extends t1 t7) by (by etrans; [exact B2|]). injection E as <- <-.
  split_and!; [done|by etrans; [exact A2|]|lia|]. split; simpl; eauto using extends_resolve.
  - destruct (cs_callerUsr c); [subst cr|]; eauto using extends_resolve.
  - destruct (cs_calleeUsr c); [subst ce|]; eauto using extends_resolve.
  - destruct (cs_tuPath c); [by left|right]. split; [done|]. by apply (extends_resolve t6).
Qed.

Lemma locals_known t ls locals : Forall2 (local_stored t) ls locals -> Forall (raii_known t) locals.
Proof.
  induction 1 as [|l sl ls sls (?&?&?&?) _ IH]; constructor; [|done]. split_and!; by eapply resolve_known.
Qed.

Lemma add_context_spec ctx x :
  cf_ok x -> context_fits ctx -> context_room ctx x ->
  cf_ok (addCallSiteContext ctx x) /\
  allContexts (addCallSiteContext ctx x) = allContexts x ++ [stored_form ctx].
Proof.
  intros Hok [Hsc Hgd] [Hroom (Hr1 & Hr2 & Hr3)]. unfold context_strings in Hroom.
  unfold addCallSiteContext. set (c := text_context ctx) in *.
  assert (Hll : length (liveRaiiLocals c) = length (liveRaiiLocals ctx)) by (simpl; apply length_fmap).
  destruct (intern_context c (cf_interner_ x)) as [t ids] eqn:Ei.
  destruct (intern_context_spec _ _ _ _ Ei (cf_interner _ Hok)) as (L1 & L2 & L3 & L4); [unfold room; lia|].
  destruct (set_interner_ok x t Hok L1 L2) as (K1 & K2 & K3); [lia|].
  destruct (internScopeSet _ _ (set_cf_interner t x)) as [x2 sid] eqn:E8.
  destruct (internScopeSet_spec _ _ _ _ E8 K1 Hsc) as (M1 & M2 & M3 & M4 & M5 & M6 & M7 & M8); [simpl; lia|].
  destruct (internGuardSet _ _ x2) as [x3 gid] eqn:E9.
  destruct (internGuardSet_spec _ _ _ _ E9 M1 Hgd) as (N1 & N2 & N3 & N4 & N5 & N6 & N7 & N8);
    [rewrite M5; simpl; lia|].
  destruct (internRaiiSet _ _ x3) as [x4 rid] eqn:E10.
  assert (Hit : cf_interner_ x3 = t) by (by rewrite N4, M4).
  destruct (internRaiiSet_spec _ _ _ _ E10 N1) as (P1 & P2 & P3 & P4 & P5 & P6 & P7 & P8).
  { rewrite Hit. eapply locals_known, L4. }
  { rewrite N6, M6. simpl. lia. }
  assert (Hit4 : cf_interner_ x4 = t) by (by rewrite P4).
  set (se := MkStoredContext _ _ _ _ _ _ _ _ _ _ _ _).
  assert (Hst : stores x4 (stored_form ctx) se (id_locals ids)).
  { unfold stored_form. fold c. clearbody c. destruct L4. split; simpl; rewrite ?Hit4; try done.
    - rewrite P5. by eapply prefix_lookup_Some; [exact M8|rewrite N5].
    - by rewrite P6. }
  destruct (stores_ok x4 _ _ _ (cf_ids _ P1) Hst) as [Hse Hmat].
  split; [by apply insert_cf_ok|]. rewrite insert_view, Hmat by done. f_equal.
  rewrite (grown_view x3 x4 N1 P2 P3), (grown_view x2 x3 M1 N2 N3), (grown_view _ x2 K1 M2 M3).
  by apply grown_view.
Qed.
