(* ===== verification/ControlFlowMerge.v ===== *)
(** Merging control-flow indexes: a shard's contexts are appended, whatever ids and
    set numbers the two indexes use. *)

From S2P Require Import Prelude Registrations Utf8 StringInterner CallGraph CallGraphInv CallGraphMerge ControlFlowIndex ControlFlowInv.

(** * Remapping a set table *)

Section Fold.
Context {X A B : Type} (f : list A -> X -> X * N) (tbl : X -> list (list B)) (tau : list A -> list B).
Context (P : nat -> X -> Prop) (Q : list A -> Prop) (R : relation X) (HR : PreOrder R).
Context (Hmono : forall x x', R x x' -> tbl x `prefix_of` tbl x').
Context (Hstep : forall n s x x' id, P (S n) x -> Q s -> f s x = (x', id) ->
  P n x' /\ R x x' /\ tbl x' !! N.to_nat id = Some (tau s)).

Lemma remap_fold l x remap0 x' remap :
  P (length l) x -> Forall Q l ->
  foldl (fun '(x, r) s => let '(x', id) := f s x in (x', r ++ [id])) (x, remap0) l = (x', remap) ->
  P 0 x' /\ R x x' /\ exists new, remap = remap0 ++ new /\ length new = length l /\
  forall i s, l !! i = Some s -> exists id, new !! i = Some id /\ tbl x' !! N.to_nat id = Some (tau s).
Proof.
  revert x remap0. induction l as [|s l IH]; intros x remap0 HP HQ E; simpl in E.
  { simplify_eq. split_and!; [done|done|]. exists []. by rewrite app_nil_r. }
  destruct (f s x) as [x1 id] eqn:Ef. apply Forall_cons in HQ as [HQs HQl].
  destruct (Hstep _ _ _ _ _ HP HQs Ef) as (HP1 & HR1 & Hid).
  destruct (IH _ _ HP1 HQl E) as (HP2 & HR2 & new & -> & Hlen & Hnew).
  split_and!; [done|by etrans|]. exists (id :: new). split_and!; [by rewrite <- app_assoc|simpl; lia|].
  intros [|i] s' Hs'; simpl in *; [|by apply Hnew]. injection Hs' as <-. exists id. split; [done|].
  eapply prefix_lookup_Some; [exact Hid|]. by apply Hmono.
Qed.
End Fold.

(** A remap that starts at the empty set covers the whole table. *)
Lemma remap_table {A B} (tau : list A -> list B) (sets : list (list A)) (tbl : list (list B)) (new : list N) :
  tau [] = [] -> sets !! 0 = Some [] -> tbl !! 0 = Some [] ->
  (forall i s, tail sets !! i = Some s -> exists id, new !! i = Some id /\ tbl !! N.to_nat id = Some (tau s)) ->
  forall i s, sets !! N.to_nat i = Some s -> tbl !! N.to_nat (remap_at (0%N :: new) i) = Some (tau s).
Proof.
  intros Ht H0 H0' H i s Hi. unfold remap_at. destruct (N.to_nat i) as [|j] eqn:Ej.
  - simpl. rewrite H0 in Hi. injection Hi as <-. by rewrite Ht.
  - destruct sets as [|s0 sets]; [done|]. simpl in *. by destruct (H j s Hi) as (id & -> & ?).
Qed.

(** * The three tables *)

(** What interning the sets of a shard keeps: the strings and what is held. *)
Record absorbs (x x' : ControlFlowIndex) : Prop := {
  ab_grows : grows x x';
  ab_store : same_store x x';
  ab_interner : cf_interner_ x' = cf_interner_ x
}.

#[global] Instance absorbs_preorder : PreOrder absorbs.
Proof. split; [intros x; by split|]. intros x y z [] []. split; [by etrans|by etrans|congruence]. Qed.

Section Tables.
Context (shard : ControlFlowIndex) (Hs : cf_ok shard).

Lemma table_tail {A} (key : list A -> bytes) good sets ids :
  table_ok key good sets ids -> Forall good (tail sets).
Proof.
  intros Ht. apply Forall_forall. intros s Hin. apply list_elem_of_lookup in Hin as [i Hi].
  destruct sets as [|s0 sets]; [done|]. by apply (tb_good _ _ _ _ Ht (S i)).
Qed.

Lemma absorb_scopes_spec x x' remap :
  cf_ok x -> (N.of_nat (length (scopeSets_ x) + length (scopeSets_ shard)) <= two32)%N ->
  absorb_scopes shard x = (x', remap) ->
  cf_ok x' /\ absorbs x x' /\ guardSets_ x' = guardSets_ x /\ raiiSets_ x' = raiiSets_ x /\
  forall i s, scopeSets_ shard !! N.to_nat i = Some s -> scopeSets_ x' !! N.to_nat (remap_at remap i) = Some s.
Proof.
  intros Hx Hroom E. unfold absorb_scopes in E.
  destruct (remap_fold (fun s x => internScopeSet (scopeSetKey s) s x) scopeSets_ id
    (fun n y => cf_ok y /\ (N.of_nat (length (scopeSets_ y) + n) <= two32)%N)
    (Forall scope_ok) (fun y z => absorbs y z /\ guardSets_ z = guardSets_ y /\ raiiSets_ z = raiiSets_ y)
    ) with (l := tail (scopeSets_ shard)) (x := x) (remap0 := [0%N]) (x' := x') (remap := remap)
    as ((Hx' & _) & (Ha & Eg & Er) & new & -> & _ & Hnew); [| | | | |exact E|].
  - split; [intros y; by split_and!|]. intros a b c (?&?&?) (?&?&?). split_and!; [by etrans|congruence|congruence].
  - intros y z [Ha _]. apply Ha.
  - intros n s y z i [Hy Hr] Hgood Ei.
    destruct (internScopeSet_spec _ _ _ _ Ei Hy Hgood) as (M1 & M2 & M3 & M4 & M5 & M6 & M7 & M8); [lia|].
    split_and!; [done|lia|by split|done|done|done].
  - split; [done|]. destruct (scopeSets_ shard); simpl in *; lia.
  - eapply table_tail, Hs.
  - split_and!; [done|done|done|done|].
    apply (remap_table id); [done|apply (cf_scopes _ Hs)|apply (cf_scopes _ Hx')|done].
Qed.

Lemma absorb_guards_spec x x' remap :
  cf_ok x -> (N.of_nat (length (guardSets_ x) + length (guardSets_ shard)) <= two32)%N ->
  absorb_guards shard x = (x', remap) ->
  cf_ok x' /\ absorbs x x' /\ scopeSets_ x' = scopeSets_ x /\ raiiSets_ x' = raiiSets_ x /\
  forall i s, guardSets_ shard !! N.to_nat i = Some s -> guardSets_ x' !! N.to_nat (remap_at remap i) = Some s.
Proof.
  intros Hx Hroom E. unfold absorb_guards in E.
  destruct (remap_fold (fun s x => internGuardSet (guardSetKey s) s x) guardSets_ id
    (fun n y => cf_ok y /\ (N.of_nat (length (guardSets_ y) + n) <= two32)%N)
    (Forall guard_ok) (fun y z => absorbs y z /\ scopeSets_ z = scopeSets_ y /\ raiiSets_ z = raiiSets_ y)
    ) with (l := tail (guardSets_ shard)) (x := x) (remap0 := [0%N]) (x' := x') (remap := remap)
    as ((Hx' & _) & (Ha & Eg & Er) & new & -> & _ & Hnew); [| | | | |exact E|].
  - split; [intros y; by split_and!|]. intros a b c (?&?&?) (?&?&?). split_and!; [by etrans|congruence|congruence].
  - intros y z [Ha _]. apply Ha.
  - intros n s y z i [Hy Hr] Hgood Ei.
    destruct (internGuardSet_spec _ _ _ _ Ei Hy Hgood) as (M1 & M2 & M3 & M4 & M5 & M6 & M7 & M8); [lia|].
    split_and!; [done|lia|by split|done|done|done].
  - split; [done|]. destruct (guardSets_ shard); simpl in *; lia.
  - eapply table_tail, Hs.
  - split_and!; [done|done|done|done|].
    apply (remap_table id); [done|apply (cf_guards _ Hs)|apply (cf_guards _ Hx')|done].
Qed.

Lemma remap_raii_known rho t l :
  renames (cf_interner_ shard) t (remap_at rho) -> raii_known (cf_interner_ shard) l ->
  raii_known t (remap_raii rho l).
Proof. intros Hr (H1 & H2 & H3). split_and!; simpl; by eapply renames_known. Qed.

Lemma absorb_raiis_spec rho x x' remap :
  cf_ok x -> renames (cf_interner_ shard) (cf_interner_ x) (remap_at rho) ->
  (N.of_nat (length (raiiSets_ x) + length (raiiSets_ shard)) <= two32)%N ->
  absorb_raiis rho shard x = (x', remap) ->
  cf_ok x' /\ absorbs x x' /\ scopeSets_ x' = scopeSets_ x /\ guardSets_ x' = guardSets_ x /\
  forall i s, raiiSets_ shard !! N.to_nat i = Some s ->
    raiiSets_ x' !! N.to_nat (remap_at remap i) = Some (remap_raii rho <$> s).
Proof.
  intros Hx Hren Hroom E. unfold absorb_raiis in E.
  destruct (remap_fold (fun s x => let locals := remap_raii rho <$> s in internRaiiSet (raiiSetKey locals) locals x)
    raiiSets_ (fmap (remap_raii rho))
    (fun n y => cf_ok y /\ cf_interner_ y = cf_interner_ x /\ (N.of_nat (length (raiiSets_ y) + n) <= two32)%N)
    (Forall (raii_known (cf_interner_ shard)))
    (fun y z => absorbs y z /\ scopeSets_ z = scopeSets_ y /\ guardSets_ z = guardSets_ y)
    ) with (l := tail (raiiSets_ shard)) (x := x) (remap0 := [0%N]) (x' := x') (remap := remap)
    as ((Hx' & _) & (Ha & Eg & Er) & new & -> & _ & Hnew); [| | | | |exact E|].
  - split; [intros y; by split_and!|]. intros a b c (?&?&?) (?&?&?). split_and!; [by etrans|congruence|congruence].
  - intros y z [Ha _]. apply Ha.
  - intros n s y z i (Hy & Hi & Hr) Hgood Ei.
    destruct (internRaiiSet_spec _ _ _ _ Ei Hy) as (M1 & M2 & M3 & M4 & M5 & M6 & M7 & M8);
      [|lia|split_and!; [done|congruence|lia|by split|done|done|done]].
    rewrite Hi. apply Forall_fmap. eapply Forall_impl; [exact Hgood|]. intros l. by apply remap_raii_known.
  - split_and!; [done|done|]. destruct (raiiSets_ shard); simpl in *; lia.
  - apply Forall_forall. intros s Hin. apply list_elem_of_lookup in Hin as [i Hi].
    destruct (raiiSets_ shard) as [|s0 sets] eqn:Er; [done|]. eapply (cf_locals _ Hs (S i)). by rewrite Er.
  - split_and!; [done|done|done|done|].
    apply (remap_table (fmap (remap_raii rho))); [done|apply (cf_raiis _ Hs)|apply (cf_raiis _ Hx')|done].
Qed.
End Tables.

(** * The contexts *)

Section Contexts.
Context (shard : ControlFlowIndex) (Hs : cf_ok shard) (rho : list SId) (sr gr rr : list N).

(** The tables of [x] hold what the shard's hold, under the remaps. *)
Record covers (x : ControlFlowIndex) : Prop := {
  cv_strings : renames (cf_interner_ shard) (cf_interner_ x) (remap_at rho);
  cv_scopes : forall i s, scopeSets_ shard !! N.to_nat i = Some s -> scopeSets_ x !! N.to_nat (remap_at sr i) = Some s;
  cv_guards : forall i s, guardSets_ shard !! N.to_nat i = Some s -> guardSets_ x !! N.to_nat (remap_at gr i) = Some s;
  cv_raiis : forall i s, raiiSets_ shard !! N.to_nat i = Some s ->
    raiiSets_ x !! N.to_nat (remap_at rr i) = Some (remap_raii rho <$> s)
}.

Lemma remap_local_stored x l :
  covers x -> raii_known (cf_interner_ shard) l ->
  local_stored (cf_interner_ x) (raii_of shard l) (remap_raii rho l).
Proof.
  intros [Hr _ _ _] ([s1 H1] & [s2 H2] & [s3 H3]). unfold raii_of, raii_with, stringOf.
  rewrite (resolve_of_opt _ _ _ H1), (resolve_of_opt _ _ _ H2), (resolve_of_opt _ _ _ H3).
  split_and!; simpl; auto.
Qed.

(** A remapped context materializes to what it was in the shard. *)
Lemma remap_stores x se :
  cf_ok x -> covers x -> stored_ok shard se -> sc_live se = true ->
  exists se', absorb_context rho sr gr rr x se = insertStored se' true x /\ sc_live se' = true /\
    stored_ok x se' /\ cf_materialize x se' = cf_materialize shard se.
Proof.
  intros Hx Hc [[s1 H1] [s2 H2] [s3 H3] [s4 H4] [s5 H5] H6 [ss H7] [gs H8] [rs H9]] Hl.
  unfold absorb_context. rewrite Hl. eexists. split_and!; [done|done|..];
    apply (stores_ok x (cf_materialize shard se) _ (remap_raii rho <$> rs) (cf_ids _ Hx));
    (unfold cf_materialize, materialize_with, stringOf, set_of; rewrite H7, H8, H9;
     rewrite (resolve_of_opt _ _ _ H1), (resolve_of_opt _ _ _ H2), (resolve_of_opt _ _ _ H3),
       (resolve_of_opt _ _ _ H4), (resolve_of_opt _ _ _ H5);
     pose proof Hc as [C1 C2 C3 C4]; split; simpl; auto).
  1,3: destruct H6 as [->|[[u Hu] Hne]]; [left; by rewrite !decide_True|right];
    (assert (sc_tuPath se <> kNoString) by (eapply known_u32; [apply Hs|by eexists]));
    unfold stringOf in Hne; rewrite (resolve_of_opt _ _ _ Hu) in *; rewrite !decide_False by done; auto.
  all: apply Forall2_fmap, Forall_Forall2_diag; eapply Forall_impl; [by eapply (cf_locals _ Hs)|];
    intros l; by apply remap_local_stored.
Qed.

Lemma covers_insert x se : covers x -> covers (insertStored se true x).
Proof. intros []. by split. Qed.

Lemma absorb_contexts_spec l x :
  Forall (stored_ok shard) l -> cf_ok x -> covers x ->
  let x' := foldl (absorb_context rho sr gr rr) x l in
  cf_ok x' /\ allContexts x' = allContexts x ++
    (cf_materialize shard <$> filter (fun se => sc_live se = true) l).
Proof.
  revert x. induction l as [|se l IH]; intros x Hl Hx Hc; cbn [foldl]; [by rewrite app_nil_r|].
  apply Forall_cons in Hl as [Hse Hl]. destruct (sc_live se) eqn:El.
  - destruct (remap_stores x se Hx Hc Hse El) as (se' & -> & Hl' & Hok' & Hm).
    rewrite filter_cons_True by done. rewrite fmap_cons.
    destruct (IH (insertStored se' true x)) as [J1 J2]; [done|by apply insert_cf_ok|by apply covers_insert|].
    split; [done|]. rewrite J2, insert_view, Hm, <- app_assoc by done. done.
  - rewrite filter_cons_False by congruence.
    assert (absorb_context rho sr gr rr x se = x) as -> by (unfold absorb_context; by rewrite El). by apply IH.
Qed.
End Contexts.

Definition absorb_room (shard x : ControlFlowIndex) : Prop :=
  (N.of_nat (table_size (cf_interner_ x) + table_size (cf_interner_ shard)) < two32)%N /\
  (N.of_nat (length (scopeSets_ x) + length (scopeSets_ shard)) <= two32)%N /\
  (N.of_nat (length (guardSets_ x) + length (guardSets_ shard)) <= two32)%N /\
  (N.of_nat (length (raiiSets_ x) + length (raiiSets_ shard)) <= two32)%N.

Lemma cf_absorb_spec shard x :
  cf_ok shard -> cf_ok x -> absorb_room shard x ->
  cf_ok (cf_absorb shard x) /\ allContexts (cf_absorb shard x) = allContexts x ++ allContexts shard.
Proof.
  intros Hs Hx (R1 & R2 & R3 & R4). unfold cf_absorb.
  destruct (absorb_strings _ _) as [t rho] eqn:Et.
  assert (Hroom : room (table_size (cf_interner_ shard)) (cf_interner_ x)) by (unfold room; lia).
  destruct (absorb_strings_spec _ _ _ _ Et (cf_interner _ Hs) (cf_interner _ Hx) Hroom) as (T1 & T2 & T3).
  pose proof (absorb_strings_size _ _ _ _ Et (cf_interner _ Hx) Hroom) as T4.
  destruct (set_interner_ok x t Hx T1 T2) as (K1 & K2 & K3); [lia|].
  destruct (absorb_scopes _ _) as [x1 sr] eqn:E1.
  destruct (absorb_scopes_spec shard Hs _ _ _ K1 R2 E1) as (A1 & [A2 A3 A4] & A5 & A6 & A7).
  destruct (absorb_guards _ _) as [x2 gr] eqn:E2.
  destruct (absorb_guards_spec shard Hs _ _ _ A1 ltac:(by rewrite A5) E2) as (B1 & [B2 B3 B4] & B5 & B6 & B7).
  destruct (absorb_raiis _ _ _) as [x3 rr] eqn:E3.
  assert (Hi2 : cf_interner_ x2 = t) by (by rewrite B4, A4).
  destruct (absorb_raiis_spec shard Hs rho _ _ _ B1 ltac:(by rewrite Hi2) ltac:(by rewrite B6, A6) E3)
    as (C1 & [C2 C3 C4] & C5 & C6 & C7).
  assert (Hc : covers shard rho sr gr rr x3).
  { split; [by rewrite C4, Hi2|intros i s; rewrite C5, B5; apply A7|intros i s; rewrite C6; apply B7|done]. }
  destruct (absorb_contexts_spec shard Hs rho sr gr rr (contexts_ shard) x3 (cf_stored _ Hs) C1 Hc) as [D1 D2].
  split; [done|]. rewrite D2, (allContexts_eq shard). f_equal.
  rewrite (grown_view x2 x3 B1 C2 C3), (grown_view x1 x2 A1 B2 B3), (grown_view _ x1 K1 A2 A3).
  by apply grown_view.
Qed.
