(* ===== verification/ControlFlowRemove.v ===== *)
(** Removing translation units from the control-flow index, and compacting it. *)

From S2P Require Import Prelude Registrations Utf8 StringInterner CallGraph CallGraphInv CallGraphMerge ControlFlowIndex ControlFlowInv.

(** * Tombstones *)

Section Kill.
Context (t : StringInterner) (prefixes : list bytes) (l0 : list StoredContext).

(** A candidate that is removed. *)
Definition doomed (cands : list (nat * bool)) (i : nat) : Prop :=
  exists se b, l0 !! i = Some se /\ sc_live se = true /\ (i, b) ∈ cands /\
    (b = true \/ from_removed_tu t prefixes se = true).

Record kills (cands : list (nat * bool)) (st : list StoredContext * Affected * nat) : Prop := {
  kl_get : forall i, st.1.1 !! i = (fun se => if decide (i ∈ aff_dead st.1.2) then set_dead se else se) <$> l0 !! i;
  kl_dead : forall i, i ∈ aff_dead st.1.2 <-> doomed cands i;
  kl_aff : forall i se, i ∈ aff_dead st.1.2 -> l0 !! i = Some se ->
    sc_callee se ∈ aff_callees st.1.2 /\ sc_caller se ∈ aff_callers st.1.2 /\
    (sc_calleeDisplay se <> sc_callee se -> sc_calleeDisplay se ∈ aff_calleeDisplays st.1.2) /\
    (sc_callerDisplay se <> sc_caller se -> sc_callerDisplay se ∈ aff_callerDisplays st.1.2) /\
    sc_site se ∈ aff_sites st.1.2;
  kl_count : st.2 = size (aff_dead st.1.2)
}.

Lemma doomed_snoc cands i b j :
  doomed (cands ++ [(i, b)]) j <-> doomed cands j \/ (j = i /\ exists se, l0 !! i = Some se /\ sc_live se = true /\
    (b = true \/ from_removed_tu t prefixes se = true)).
Proof.
  unfold doomed. setoid_rewrite elem_of_app. setoid_rewrite list_elem_of_singleton. split.
  - intros (se & b' & H1 & H2 & [H3|[= -> ->]] & H4); [left; eauto 6|right; eauto 6].
  - intros [(se & b' & ?&?&?&?)|[-> (se & ?&?&?)]]; [exists se, b'; auto|exists se, b; auto].
Qed.

(** A candidate that is skipped changes nothing. *)
Lemma kills_skip cands i b st : kills cands st -> (doomed (cands ++ [(i, b)]) i -> doomed cands i) -> kills (cands ++ [(i, b)]) st.
Proof.
  intros [K1 K2 K3 K4] Hi. split; try done. intros j. rewrite K2, doomed_snoc. split; [by left|].
  intros [?|[-> H]]; [done|]. apply Hi, doomed_snoc. by right.
Qed.

Lemma kill_step cands st i b : kills cands st -> kills (cands ++ [(i, b)]) (kill_candidate t prefixes st (i, b)).
Proof.
  intros HK. pose proof HK as [K1 K2 K3 K4]. destruct st as [[ctxs a] n]. simpl in K1, K2, K3, K4.
  unfold kill_candidate. rewrite K1. destruct (l0 !! i) as [se|] eqn:Ei; cbn [fmap option_fmap option_map].
  2:{ apply kills_skip; [done|]. intros (se & ? & ? & _). congruence. }
  destruct (decide (i ∈ aff_dead a)) as [Hd|Hd]; [simpl; apply kills_skip; [done|by rewrite <- K2]|].
  destruct (sc_live se) eqn:El; cbn [negb].
  2:{ apply kills_skip; [done|]. intros (se' & b' & ? & ? & _). congruence. }
  destruct (negb b && negb (from_removed_tu t prefixes se)) eqn:Es.
  { apply kills_skip; [done|]. rewrite doomed_snoc. intros [?|[_ (se' & ? & _ & [-> | Hf])]]; [done|done|].
    simplify_eq. apply andb_true_iff in Es as [_ Hn%negb_true_iff]. congruence. }
  assert (Hdoom : b = true \/ from_removed_tu t prefixes se = true).
  { apply andb_false_iff in Es as [?%negb_false_iff|?%negb_false_iff]; auto. }
  split; cbn [fst snd affect aff_dead aff_callees aff_callers aff_calleeDisplays aff_callerDisplays aff_sites].
  - intros j. destruct (decide (j = i)) as [->|Hne].
    + rewrite list_lookup_insert_eq, Ei by (apply lookup_lt_is_Some; rewrite K1, Ei; by eexists).
      cbn [fmap option_fmap option_map]. by rewrite decide_True by set_solver.
    + rewrite list_lookup_insert_ne, K1 by done. destruct (l0 !! j); [|done].
      cbn [fmap option_fmap option_map]. f_equal. apply decide_ext. set_solver.
  - intros j. rewrite elem_of_union, elem_of_singleton, K2, doomed_snoc. split; [intros [->|?]; [right|by left]|].
    + split; [done|]. by exists se.
    + intros [?|[-> _]]; auto.
  - intros j se' Hj Hse'. apply elem_of_union in Hj as [->%elem_of_singleton|Hj].
    + simplify_eq. split_and!; [set_solver|set_solver| | |set_solver]; intros Hne; rewrite decide_False by done; set_solver.
    + destruct (K3 j se' Hj Hse') as (?&?&H3&H4&?). split_and!; [set_solver|set_solver| | |set_solver];
        intros Hne; case_decide; set_solver.
  - rewrite size_union, size_singleton by set_solver. lia.
Qed.

Lemma kill_all cands : kills cands (foldl (kill_candidate t prefixes) (l0, MkAff ∅ ∅ ∅ ∅ ∅ ∅, 0) cands).
Proof.
  induction cands as [|[i b] cands IH] using rev_ind; [|rewrite foldl_app; by apply kill_step].
  split; cbn [foldl fst snd aff_dead]; [|intros i|by intros i se ?%not_elem_of_empty|done].
  - intros i. destruct (l0 !! i); [|done]. cbn [fmap option_fmap option_map].
    by rewrite decide_False by (apply not_elem_of_empty).
  - split; [by intros ?%not_elem_of_empty|]. by intros (se & b & _ & _ & ?%not_elem_of_nil & _).
Qed.
End Kill.

(** Counting positions counts live contexts. *)
Lemma positions_length l :
  length (positions (fun _ => true) l) = length (filter (fun se => sc_live se = true) l).
Proof.
  induction l as [|se l IH] using rev_ind; [done|]. rewrite positions_snoc, filter_app, !length_app, IH, filter_cons.
  by destruct (sc_live se).
Qed.

(** * Scrubbing *)

Lemma elem_of_set_iter `{!UnorderedIter} (s : gset N) k : k ∈ set_iter s <-> k ∈ s.
Proof. rewrite set_iter_perm. apply elem_of_elements. Qed.

Lemma scrub_entries_at `{!UnorderedIter} dead ids m k :
  vec_at (scrub_entries dead ids m) k = if decide (k ∈ ids) then scrub_dead dead (vec_at m k) else vec_at m k.
Proof.
  unfold scrub_entries. rewrite (decide_ext _ (k ∈ set_iter ids)) by (symmetry; apply elem_of_set_iter).
  assert (Hnd : NoDup (set_iter ids)) by (rewrite set_iter_perm; apply NoDup_elements).
  revert m. induction Hnd as [|id l Hid Hnd IH]; intros m; cbn [foldl]; [by rewrite decide_False by apply not_elem_of_nil|].
  rewrite IH, vec_at_insert. destruct (decide (k ∈ l)) as [Hk|Hk].
  - rewrite decide_False by (intros ->; done). by rewrite decide_True by (by right).
  - case_decide as E; [subst; by rewrite decide_True by left|].
    rewrite decide_False; [done|]. by intros [->|?]%elem_of_cons.
Qed.

Lemma scrub_sites_at `{!UnorderedIter} dead ids m k :
  vec_at (scrub_sites dead ids m) k = if decide (k ∈ ids) then scrub_dead dead (vec_at m k) else vec_at m k.
Proof.
  unfold scrub_sites. rewrite (decide_ext _ (k ∈ set_iter ids)) by (symmetry; apply elem_of_set_iter).
  assert (Hnd : NoDup (set_iter ids)) by (rewrite set_iter_perm; apply NoDup_elements).
  revert m. induction Hnd as [|id l Hid Hnd IH]; intros m; cbn [foldl]; [by rewrite decide_False by apply not_elem_of_nil|].
  assert (Hstep : vec_at (match m !! id with None => m | Some v =>
      match scrub_dead dead v with [] => delete id m | v' => <[id := v']> m end end) k =
    if decide (id = k) then scrub_dead dead (vec_at m k) else vec_at m k).
  { destruct (decide (id = k)) as [<-|Hne].
    - destruct (m !! id) as [v|] eqn:Ev; [|unfold vec_at; by rewrite Ev].
      replace (vec_at m id) with v by (unfold vec_at; by rewrite Ev).
      destruct (scrub_dead dead v) as [|y w]; [|by rewrite vec_at_insert, decide_True].
      unfold vec_at. by rewrite lookup_delete_eq.
    - destruct (m !! id) as [v|]; [|done].
      destruct (scrub_dead dead v) as [|y w]; [|by rewrite vec_at_insert, decide_False].
      unfold vec_at. by rewrite lookup_delete_ne. }
  rewrite IH, Hstep. destruct (decide (k ∈ l)) as [Hk|Hk].
  - rewrite decide_False by (intros ->; done). by rewrite decide_True by (by right).
  - case_decide as E; [subst; by rewrite decide_True by left|].
    rewrite decide_False; [done|]. by intros [->|?]%elem_of_cons.
Qed.

Lemma erase_tus_at t tus m k :
  ((exists tu, tu ∈ tus /\ find t tu = Some k) -> vec_at (erase_tus t tus m) k = []) /\
  ((~ exists tu, tu ∈ tus /\ find t tu = Some k) -> vec_at (erase_tus t tus m) k = vec_at m k).
Proof.
  unfold erase_tus. induction tus as [|tu tus [IH1 IH2]] using rev_ind.
  { split; [by intros (tu & ?%not_elem_of_nil & _)|done]. }
  rewrite foldl_app. cbn [foldl]. set (m' := foldl _ m tus) in *. clearbody m'.
  assert (Hstep : vec_at (match find t tu with Some tuId => delete tuId m' | None => m' end) k =
    if decide (find t tu = Some k) then [] else vec_at m' k).
  { destruct (find t tu) as [i|]; [|by rewrite decide_False]. unfold vec_at. rewrite lookup_delete.
    destruct (decide (i = k)) as [->|]; [by rewrite decide_True|by rewrite decide_False by congruence]. }
  rewrite Hstep. split.
  - intros (u & [Hu| ->%list_elem_of_singleton]%elem_of_app & Hf); [|by rewrite decide_True].
    case_decide; [done|]. apply IH1. eauto.
  - intros Hn. rewrite decide_False by (intros Hf; apply Hn; exists tu; rewrite elem_of_app, list_elem_of_singleton; auto).
    apply IH2. intros (u & Hu & Hf). apply Hn. exists u. rewrite elem_of_app. auto.
Qed.

(** Scrubbing the positions of a property gives its positions among the survivors. *)
Section Survivors.
Context (l l' : list StoredContext) (dead : gset nat).
Context (Hget : forall i, l' !! i = (fun se => if decide (i ∈ dead) then set_dead se else se) <$> l !! i).

(** [P] does not look at the tombstone. *)
Definition steady (P : StoredContext -> bool) : Prop := forall se, P (set_dead se) = P se.

Lemma scrub_positions P : steady P -> scrub_dead dead (positions P l) = positions P l'.
Proof.
  intros HP. apply positions_eq; [apply StronglySorted_filter, positions_sorted|].
  intros i. unfold scrub_dead. rewrite list_elem_of_filter, elem_of_positions, Hget. split.
  - intros [Hd (se & -> & ?)]. exists se. cbn [fmap option_fmap option_map]. by rewrite decide_False.
  - intros (se & Hi & Hl & Hp). destruct (l !! i) as [se0|]; [|done]. cbn [fmap option_fmap option_map] in Hi.
    destruct (decide (i ∈ dead)); simplify_eq. split; [done|]. eauto.
Qed.

(** Nothing to scrub. *)
Lemma scrub_clean v : (forall i, i ∈ v -> i ∉ dead) -> scrub_dead dead v = v.
Proof. intros H. by apply filter_id. Qed.

Lemma positions_clean P :
  steady P -> (forall i se, i ∈ dead -> l !! i = Some se -> P se = false) -> positions P l = positions P l'.
Proof.
  intros HP H. rewrite <- scrub_positions by done. symmetry. apply scrub_clean.
  intros i (se & Hi & _ & Hp)%elem_of_positions Hd. specialize (H i se Hd Hi). congruence.
Qed.

Lemma scrubbed_if ids k P :
  steady P -> (forall i se, i ∈ dead -> l !! i = Some se -> P se = true -> k ∈ ids) ->
  (if decide (k ∈ (ids : gset N)) then scrub_dead dead (positions P l) else positions P l) = positions P l'.
Proof.
  intros HP H. case_decide as Hk; [by apply scrub_positions|]. apply positions_clean; [done|].
  intros i se Hd Hi. apply not_true_iff_false. intros Hp. eauto.
Qed.
End Survivors.

(** * The removal *)

(** A context belongs to one of the units: by its recorded unit, or, without one,
    by the file its call site starts with. *)
Definition from_tus (tus : list bytes) (c : CallSiteContext) : bool :=
  if decide (cs_tuPath c = [])
  then existsb (fun tu => bool_decide ((tu ++ str ":") `prefix_of` cs_callSite c)) tus
  else bool_decide (cs_tuPath c ∈ tus).

Lemma elem_of_unique_paths a l : a ∈ unique_paths l <-> a ∈ l.
Proof.
  induction l as [|b l IH]; [done|]. destruct l as [|c l]; [done|].
  change (unique_paths (b :: c :: l)) with (if decide (b = c) then unique_paths (c :: l) else b :: unique_paths (c :: l)).
  case_decide as E; [subst|].
  - rewrite IH, !elem_of_cons. tauto.
  - rewrite elem_of_cons, IH, (elem_of_cons (c :: l)). done.
Qed.

Lemma elem_of_tu_texts a tuPaths : a ∈ tu_texts tuPaths <-> a ∈ toIndexText <$> tuPaths.
Proof. unfold tu_texts. by rewrite elem_of_unique_paths, merge_sort_Permutation. Qed.

Lemma prefix_take (p s : bytes) : take (length p) s = p <-> p `prefix_of` s.
Proof.
  split.
  - intros E. exists (drop (length p) s). rewrite <- E at 1. symmetry. apply take_drop.
  - intros [k ->]. by rewrite take_app_length.
Qed.

Section Removal.
Context `{!UnorderedIter} (x : ControlFlowIndex) (Hx : cf_ok x) (tuPaths : list bytes).

Abbreviation tus := (tu_texts tuPaths).
Abbreviation prefixes := ((fun tu => tu ++ str ":") <$> tus).
Abbreviation cands := (((fun i => (i, true)) <$> (tus ≫= tu_contexts x)) ++ ((fun i => (i, false)) <$> noProvenance_ x)).

Lemma from_removed_iff se :
  from_removed_tu (cf_interner_ x) prefixes se = existsb (fun tu => bool_decide ((tu ++ str ":") `prefix_of` stringOf x (sc_site se))) tus.
Proof.
  unfold from_removed_tu. induction tus as [|tu l IH]; [done|]. rewrite fmap_cons. cbn [existsb]. rewrite IH. f_equal.
  apply bool_decide_ext. apply prefix_take.
Qed.

Lemma find_not_kNoString tu id : find (cf_interner_ x) tu = Some id -> id <> kNoString /\ stringOf x id = tu.
Proof.
  intros Hf. apply find_resolve in Hf; [|apply Hx]. split; [|by apply resolve_of_opt].
  eapply known_u32; [apply Hx|by eapply resolve_known].
Qed.

Lemma tu_candidates i :
  i ∈ tus ≫= tu_contexts x <-> exists se, contexts_ x !! i = Some se /\ sc_live se = true /\
    sc_tuPath se <> kNoString /\ stringOf x (sc_tuPath se) ∈ tus.
Proof.
  rewrite list_elem_of_bind. unfold tu_contexts. split.
  - intros (tu & Hi & Htu). destruct (find (cf_interner_ x) tu) as [id|] eqn:Ef; [|by apply not_elem_of_nil in Hi].
    destruct (find_not_kNoString _ _ Ef) as [Hne Hs].
    change (i ∈ vec_at (byTu_ x) id) in Hi. rewrite (mp_tu _ (cf_maps _ Hx)) in Hi by done.
    apply elem_of_positions in Hi as (se & ? & ? & E%N.eqb_eq). subst id. exists se. by rewrite Hs.
  - intros (se & Hi & Hl & Hne & Hin). exists (stringOf x (sc_tuPath se)). split; [|done].
    assert (Hse : stored_ok x se) by (eapply Forall_lookup in Hi; [done|apply Hx]).
    destruct (so_tu _ _ Hse) as [?|[[s Hs] _]]; [done|].
    assert (Es : stringOf x (sc_tuPath se) = s) by (by apply resolve_of_opt).
    rewrite Es, (resolve_find _ _ _ (cf_interner _ Hx) Hs). change (i ∈ vec_at (byTu_ x) (sc_tuPath se)).
    rewrite (mp_tu _ (cf_maps _ Hx)) by done. apply elem_of_positions. exists se. by rewrite N.eqb_refl.
Qed.

(** The doomed positions are those of the contexts that belong to the units. *)
Lemma doomed_iff i :
  doomed (cf_interner_ x) prefixes (contexts_ x) cands i <->
  exists se, contexts_ x !! i = Some se /\ sc_live se = true /\ from_tus tus (cf_materialize x se) = true.
Proof.
  assert (Hfrom : forall se, stored_ok x se -> from_tus tus (cf_materialize x se) = true <->
    (sc_tuPath se <> kNoString /\ stringOf x (sc_tuPath se) ∈ tus) \/
    (sc_tuPath se = kNoString /\ from_removed_tu (cf_interner_ x) prefixes se = true)).
  { intros se Hse. rewrite from_removed_iff. unfold from_tus. cbn [cf_materialize materialize_with cs_tuPath cs_callSite].
    destruct (so_tu _ _ Hse) as [E|[Hk Hne]].
    - rewrite E, !decide_True by done. naive_solver.
    - destruct (known_u32 _ _ (cf_ids _ Hx) Hk) as [_ Hno]. rewrite (decide_False (P := sc_tuPath se = kNoString)), decide_False by done.
      rewrite bool_decide_eq_true. naive_solver. }
  unfold doomed. setoid_rewrite elem_of_app. setoid_rewrite list_elem_of_fmap. split.
  - intros (se & b & Hi & Hl & Hin & Hb).
    assert (Hse : stored_ok x se) by (eapply Forall_lookup in Hi; [done|apply Hx]).
    exists se. split_and!; [done|done|]. apply Hfrom; [done|]. destruct Hin as [(j & [= <- ->] & Hj)|(j & [= <- ->] & Hj)].
    + apply tu_candidates in Hj as (se' & ? & _ & ? & ?). simplify_eq. by left.
    + rewrite (mp_noProvenance _ (cf_maps _ Hx)) in Hj.
      apply elem_of_positions in Hj as (se' & ? & _ & E%N.eqb_eq). simplify_eq. right. naive_solver.
  - intros (se & Hi & Hl & Hf). assert (Hse : stored_ok x se) by (eapply Forall_lookup in Hi; [done|apply Hx]).
    apply Hfrom in Hf as [[H1 H2]|[H1 H2]]; [| |done].
    + exists se, true. split_and!; [done|done| |by left]. left. exists i. split; [done|]. apply tu_candidates. eauto.
    + exists se, false. split_and!; [done|done| |by right]. right. exists i. split; [done|].
      rewrite (mp_noProvenance _ (cf_maps _ Hx)). apply elem_of_positions. exists se. by rewrite H1, N.eqb_refl.
Qed.

Section Result.
Context (ctxs : list StoredContext) (a : Affected) (n : nat).
Context (HK : kills (cf_interner_ x) prefixes (contexts_ x) cands (ctxs, a, n)).

Lemma dead_iff i : i ∈ aff_dead a <->
  exists se, contexts_ x !! i = Some se /\ sc_live se = true /\ from_tus tus (cf_materialize x se) = true.
Proof. rewrite <- doomed_iff. apply (kl_dead _ _ _ _ _ HK). Qed.

Definition survives (se : StoredContext) : bool := negb (from_tus tus (cf_materialize x se)).

Lemma survivors_positions : positions (fun _ => true) ctxs = positions survives (contexts_ x).
Proof.
  symmetry. apply positions_eq; [apply positions_sorted|]. intros i. rewrite elem_of_positions.
  pose proof (kl_get _ _ _ _ _ HK i) as Hi. cbn [fst snd] in Hi. rewrite Hi. split.
  - intros (se & E0 & Hl & Hs). exists se. rewrite E0. cbn [fmap option_fmap option_map].
    rewrite decide_False; [done|]. rewrite dead_iff. intros (se' & E & _ & Hf). simplify_eq.
    unfold survives in Hs. by rewrite Hf in Hs.
  - intros (se & E & Hl & _). destruct (contexts_ x !! i) as [se0|] eqn:E0; [|done].
    cbn [fmap option_fmap option_map] in E. destruct (decide (i ∈ aff_dead a)) as [|Hd]; simplify_eq.
    exists se. split_and!; [done|done|]. unfold survives. apply negb_true_iff, not_true_iff_false. intros Hf.
    apply Hd, dead_iff. by exists se.
Qed.

(** The live contexts that are left are the surviving ones, in order. *)
Lemma survivors_live :
  filter (fun se => sc_live se = true) ctxs =
  filter (fun se => sc_live se && survives se = true) (contexts_ x).
Proof.
  pose proof (kl_get _ _ _ _ _ HK) as Hget. cbn [fst snd] in Hget.
  pose proof (live_at_positions x (fun _ => true) survives) as H1.
  pose proof (live_at_positions (MkCFIndex (cf_interner_ x) ctxs [] [] [] ∅ ∅ ∅ ∅ ∅ ∅ ∅ ∅ ∅ [] 0)
                (fun _ => true) (fun _ => true)) as H2. cbn [contexts_] in H2.
  rewrite (filter_ext_in _ (fun se => sc_live se && true && true = true)) by (intros se _; by rewrite !andb_true_r).
  rewrite <- H2. rewrite (filter_ext_in _ (fun se => sc_live se && survives se && true = true))
    by (intros se _; by rewrite andb_true_r).
  rewrite <- H1, survivors_positions. apply omap_ext_in. intros i (se & Hi & Hl & Hs)%elem_of_positions.
  cbn [resident v_storedAt contexts_]. rewrite Hget, Hi. cbn [fmap option_fmap option_map]. rewrite decide_False; [done|].
  rewrite dead_iff. intros (se' & E & _ & Hf). simplify_eq. unfold survives in Hs. by rewrite Hf in Hs.
Qed.

Lemma dead_count : n + length (positions (fun _ => true) ctxs) = length (positions (fun _ => true) (contexts_ x)).
Proof.
  pose proof (kl_count _ _ _ _ _ HK) as Hn. cbn [fst snd] in Hn. rewrite Hn.
  rewrite <- (scrub_positions (contexts_ x) ctxs (aff_dead a) (kl_get _ _ _ _ _ HK) (fun _ => true)) by done.
  set (p := positions (fun _ => true) (contexts_ x)).
  assert (Hp : elements (aff_dead a) ≡ₚ filter (fun i => i ∈ aff_dead a) p).
  { apply NoDup_Permutation; [apply NoDup_elements|apply NoDup_filter, sorted_lt_NoDup, positions_sorted|].
    intros i. rewrite elem_of_elements, list_elem_of_filter. split; [|tauto]. intros Hi. split; [done|].
    apply elem_of_positions. apply dead_iff in Hi as (se & ? & ? & _). by exists se. }
  unfold size, set_size. simpl. rewrite Hp. unfold scrub_dead.
  rewrite <- (filter_app_complement (fun i => i ∈ aff_dead a) p) at 3. by rewrite length_app.
Qed.

(** The index the removal builds. *)
Definition removed_index : ControlFlowIndex :=
  MkCFIndex (cf_interner_ x) ctxs (scopeSets_ x) (guardSets_ x) (raiiSets_ x) (scopeSetIds_ x) (guardSetIds_ x)
    (raiiSetIds_ x)
    (scrub_entries (aff_dead a) (aff_callees a) (byCallee_ x))
    (scrub_entries (aff_dead a) (aff_callers a) (byCaller_ x))
    (scrub_entries (aff_dead a) (aff_calleeDisplays a) (byCalleeDisplay_ x))
    (scrub_entries (aff_dead a) (aff_callerDisplays a) (byCallerDisplay_ x))
    (scrub_sites (aff_dead a) (aff_sites a) (bySite_ x))
    (erase_tus (cf_interner_ x) tus (byTu_ x))
    (if decide (aff_dead a = ∅) then noProvenance_ x else scrub_dead (aff_dead a) (noProvenance_ x))
    (liveCount_ x - n).

(** A dead context of a unit that is not the sentinel has its unit among the removed. *)
Lemma dead_unit i se k :
  i ∈ aff_dead a -> contexts_ x !! i = Some se -> sc_tuPath se = k -> k <> kNoString ->
  exists tu, tu ∈ tus /\ find (cf_interner_ x) tu = Some k.
Proof.
  intros Hd Hi Ek Hk. apply dead_iff in Hd as (se' & E & _ & Hf).
  assert (se' = se) as -> by congruence. subst k.
  assert (Hse : stored_ok x se) by (eapply Forall_lookup in Hi; [done|apply Hx]).
  destruct (so_tu _ _ Hse) as [?|[[s Hs] Hne]]; [done|].
  unfold from_tus in Hf. cbn [cf_materialize materialize_with cs_tuPath] in Hf.
  rewrite (decide_False (P := sc_tuPath se = kNoString)), decide_False, bool_decide_eq_true in Hf by done.
  exists (stringOf x (sc_tuPath se)). split; [done|].
  assert (stringOf x (sc_tuPath se) = s) as -> by (by apply resolve_of_opt).
  by apply resolve_find; [apply Hx|].
Qed.

(** Every live context of a removed unit is dead. *)
Lemma unit_dead tu k :
  tu ∈ tus -> find (cf_interner_ x) tu = Some k -> positions (fun se => sc_tuPath se =? k)%N ctxs = [].
Proof.
  intros Htu Hf. rewrite <- (scrub_positions (contexts_ x) ctxs (aff_dead a) (kl_get _ _ _ _ _ HK)) by done.
  unfold scrub_dead. apply elem_of_nil_inv. intros i [Hnd Hi]%list_elem_of_filter. apply Hnd, dead_iff.
  apply elem_of_positions in Hi as (se & Hi & Hl & E%N.eqb_eq). exists se. split_and!; [done|done|].
  destruct (find_not_kNoString _ _ Hf) as [Hne Hs]. unfold from_tus. cbn [cf_materialize materialize_with cs_tuPath]. subst k.
  assert (Hse : stored_ok x se) by (eapply Forall_lookup in Hi; [done|apply Hx]).
  destruct (so_tu _ _ Hse) as [?|[_ Hnn]]; [done|].
  rewrite (decide_False (P := sc_tuPath se = kNoString)), decide_False, bool_decide_eq_true, Hs by done. done.
Qed.

Lemma removed_maps_ok : maps_ok removed_index.
Proof.
  pose proof (kl_get _ _ _ _ _ HK) as Hget. pose proof (kl_aff _ _ _ _ _ HK) as Haff. cbn [fst snd] in Hget, Haff.
  pose proof (cf_maps _ Hx) as [M1 M2 M3 M4 M5 M6 M7 M8].
  split; cbn [removed_index contexts_ byCallee_ byCaller_ byCalleeDisplay_ byCallerDisplay_ bySite_ byTu_ noProvenance_ liveCount_].
  - intros k. rewrite scrub_entries_at, M1. apply scrubbed_if; [done|done|].
    intros i se Hd Hi E%N.eqb_eq. subst k. by apply (Haff i se).
  - intros k. rewrite scrub_entries_at, M2. apply scrubbed_if; [done|done|].
    intros i se Hd Hi E%N.eqb_eq. subst k. by apply (Haff i se).
  - intros k. rewrite scrub_entries_at, M3. apply scrubbed_if; [done|done|].
    intros i se Hd Hi [E%N.eqb_eq Hne%negb_true_iff%N.eqb_neq]%andb_true_iff. subst k. by apply (Haff i se).
  - intros k. rewrite scrub_entries_at, M4. apply scrubbed_if; [done|done|].
    intros i se Hd Hi [E%N.eqb_eq Hne%negb_true_iff%N.eqb_neq]%andb_true_iff. subst k. by apply (Haff i se).
  - intros k. rewrite scrub_sites_at, M5. apply scrubbed_if; [done|done|].
    intros i se Hd Hi E%N.eqb_eq. subst k. by apply (Haff i se).
  - intros k Hk. destruct (erase_tus_at (cf_interner_ x) tus (byTu_ x) k) as [E1 E2].
    destruct (decide (k ∈ (omap (find (cf_interner_ x)) tus))) as [Hin|Hin].
    + apply list_elem_of_omap in Hin as (tu & Htu & Hf). rewrite E1 by eauto. symmetry. by eapply unit_dead.
    + assert (Hno : ~ exists tu, tu ∈ tus /\ find (cf_interner_ x) tu = Some k).
      { intros (tu & ? & ?). apply Hin, list_elem_of_omap. eauto. }
      rewrite E2, M6 by done. apply (positions_clean _ _ _ Hget); [done|]. intros i se Hd Hi.
      apply N.eqb_neq. intros E. by apply Hno, (dead_unit i se).
  - rewrite M7. case_decide as He; [|by apply scrub_positions].
    apply (positions_clean _ _ _ Hget); [done|]. intros i se Hd. rewrite He in Hd. by apply not_elem_of_empty in Hd.
  - rewrite M8. pose proof dead_count. lia.
Qed.

Lemma removed_ok : cf_ok removed_index.
Proof.
  pose proof removed_maps_ok as Hm. destruct Hx as [H1 H2 H3 H4 H5 H6 H7 H8]. split; try done.
  apply Forall_lookup. intros i se Hi. cbn [removed_index contexts_] in Hi.
  pose proof (kl_get _ _ _ _ _ HK i) as Hg. cbn [fst snd] in Hg. rewrite Hg in Hi.
  destruct (contexts_ x !! i) as [se0|] eqn:E; [|done]. cbn [fmap option_fmap option_map] in Hi.
  eapply Forall_lookup in E; [|exact H7]. destruct E. case_decide; simplify_eq; by split.
Qed.

Lemma removed_view :
  allContexts removed_index = filter (fun c => from_tus tus c = false) (allContexts x).
Proof.
  rewrite !allContexts_eq. unfold live_contexts. cbn [removed_index contexts_]. rewrite survivors_live.
  change (cf_materialize removed_index) with (cf_materialize x). unfold survives.
  clear HK. generalize (contexts_ x). intros l. induction l as [|se l IH]; [done|].
  rewrite (filter_cons (fun se => sc_live se && _ = true)), (filter_cons (fun se => sc_live se = true)).
  destruct (sc_live se); cbn [andb]; [|rewrite !(decide_False (P := false = true)) by done; exact IH].
  rewrite (decide_True (P := true = true)), fmap_cons, filter_cons by done.
  destruct (from_tus tus (cf_materialize x se)); cbn [negb].
  - rewrite (decide_False (P := false = true)), (decide_False (P := true = false)) by done. exact IH.
  - rewrite (decide_True (P := true = true)), (decide_True (P := false = false)), fmap_cons by done. by rewrite IH.
Qed.
End Result.

(** The index without the units' contexts: nothing else changes, and the count is
    the number of contexts dropped. *)
Lemma removal_spec :
  let x' := (cf_removeTUs tuPaths x).1 in
  cf_ok x' /\ allContexts x' = filter (fun c => from_tus tus c = false) (allContexts x) /\
  (cf_removeTUs tuPaths x).2 + length (allContexts x') = length (allContexts x).
Proof.
  unfold cf_removeTUs. pose proof (kill_all (cf_interner_ x) prefixes (contexts_ x) cands) as HK.
  destruct (foldl _ _ cands) as [[ctxs a] n] eqn:E. cbn [fst snd]. fold (removed_index ctxs a n).
  split_and!; [by apply removed_ok|by apply removed_view|].
  pose proof (removed_maps_ok ctxs a n HK) as Hm. pose proof (dead_count ctxs a n HK) as Hc.
  rewrite !allContexts_eq, !length_fmap. unfold live_contexts. cbn [removed_index contexts_].
  by rewrite <- !positions_length.
Qed.
End Removal.

(** * Compaction *)

Lemma compact_fold l y :
  maps_ok y -> Forall (stored_ok y) l ->
  let y' := foldl compact_context y l in
  maps_ok y' /\ contexts_ y' = contexts_ y ++ filter (fun se => sc_live se = true) l /\
  cf_interner_ y' = cf_interner_ y /\ scopeSets_ y' = scopeSets_ y /\ guardSets_ y' = guardSets_ y /\
  raiiSets_ y' = raiiSets_ y /\ scopeSetIds_ y' = scopeSetIds_ y /\ guardSetIds_ y' = guardSetIds_ y /\
  raiiSetIds_ y' = raiiSetIds_ y.
Proof.
  revert y. induction l as [|se l IH]; intros y Hm Hl; cbn [foldl].
  { cbn. rewrite app_nil_r. by split_and!. }
  apply Forall_cons in Hl as [Hse Hl]. destruct (sc_live se) eqn:El.
  - assert (compact_context y se = insertStored se true y) as -> by (unfold compact_context; by rewrite El).
    destruct (IH (insertStored se true y)) as (J1 & J2 & J3 & J4 & J5 & J6 & J7 & J8 & J9).
    { by apply insert_maps_ok. }
    { eapply Forall_impl; [exact Hl|]. intros se'. apply stored_ok_grows, insert_grows. }
    rewrite filter_cons_True by done. split_and!; try done. rewrite J2. simpl. by rewrite <- app_assoc.
  - assert (compact_context y se = y) as -> by (unfold compact_context; by rewrite El).
    rewrite filter_cons_False by congruence. by apply IH.
Qed.

Lemma compact_spec x : cf_ok x -> cf_ok (cf_compact x) /\ allContexts (cf_compact x) = allContexts x.
Proof.
  intros Hx. unfold cf_compact. set (y0 := MkCFIndex (cf_interner_ x) [] _ _ _ _ _ _ _ _ _ _ _ _ _ _).
  destruct (compact_fold (contexts_ x) y0) as (J1 & J2 & J3 & J4 & J5 & J6 & J7 & J8 & J9).
  { split; intros; done. }
  { eapply Forall_impl; [apply (cf_stored _ Hx)|]. intros se. by apply stored_ok_grows. }
  set (y := foldl compact_context y0 (contexts_ x)) in *. clearbody y. simpl in *.
  set (x' := MkCFIndex _ _ _ _ _ _ _ _ _ _ _ _ _ _ _ _).
  assert (Hg : grows x x') by (split; simpl; rewrite ?J3, ?J4, ?J5, ?J6; done).
  assert (Hview : allContexts x' = allContexts x).
  { rewrite !allContexts_eq. unfold live_contexts. simpl. rewrite J2.
    rewrite (filter_id _ (filter _ _)) by (by intros se [? _]%list_elem_of_filter).
    apply list_fmap_ext. intros i se Hi. apply materialize_grows; [done|apply Hx|].
    apply list_elem_of_lookup_2, list_elem_of_filter in Hi as [_ Hi]. by eapply Forall_forall in Hi; [|apply Hx]. }
  split; [|done]. pose proof Hx as [H1 H2 H3 H4 H5 H6 H7 H8]. split; simpl; rewrite ?J3, ?J4, ?J5, ?J6, ?J7, ?J8, ?J9; try done.
  - rewrite J2. apply Forall_forall. intros se [_ Hin]%list_elem_of_filter.
    eapply Forall_forall in Hin; [|exact H7]. by apply (stored_ok_grows x).
  - destruct J1 as [M1 M2 M3 M4 M5 M6 M7 M8]. split; try done. simpl.
    rewrite (mp_live _ H8), J2, !positions_length.
    by rewrite (filter_id _ (filter _ _)) by (by intros se [? _]%list_elem_of_filter).
Qed.
