(* ===== verification/ControlFlowQuery.v ===== *)
(** The control-flow index as a list of contexts: every operation acts on the list
    it stands for, and every query is a filter of it. *)

From S2P Require Import Prelude Registrations Utf8 StringInterner CallGraph CallGraphInv CallGraphMerge Ordering ControlFlowIndex ControlFlowInv ControlFlowMerge ControlFlowRemove.

(** * Queries as filters *)

Lemma filter_fmap_eq {A B} (f : A -> B) (P : B -> Prop) `{!forall b, Decision (P b)} (l : list A) :
  filter P (f <$> l) = f <$> filter (fun a => P (f a)) l.
Proof.
  induction l as [|a l IH]; [done|]. rewrite fmap_cons, !filter_cons, IH. by case_decide.
Qed.

Lemma filter_filter_eq {A} (P Q : A -> Prop) `{!forall a, Decision (P a)} `{!forall a, Decision (Q a)} (l : list A) :
  filter P (filter Q l) = filter (fun a => Q a /\ P a) l.
Proof.
  induction l as [|a l IH]; [done|]. rewrite (filter_cons Q), (filter_cons (fun a => _ /\ _)).
  destruct (decide (Q a)) as [HQ|HQ]; [rewrite filter_cons; destruct (decide (P a))|].
  - rewrite IH, decide_True by done. done.
  - rewrite IH, decide_False by tauto. done.
  - rewrite IH, decide_False by tauto. done.
Qed.

Section Query.
Context (x : ControlFlowIndex) (Hx : cf_ok x).

Lemma stored_live se : se ∈ contexts_ x -> stored_ok x se.
Proof. intros Hin. by eapply Forall_forall in Hin; [|apply Hx]. Qed.

(** Reading positions of a property of stored contexts filters what is held. *)
Lemma live_at_filter keep P (Q : CallSiteContext -> Prop) `{!forall c, Decision (Q c)} :
  (forall se, se ∈ live_contexts x -> stored_ok x se -> P se && keep se = true <-> Q (cf_materialize x se)) ->
  cf_materialize x <$> live_at x keep (positions P (contexts_ x)) = filter Q (allContexts x).
Proof.
  intros HQ. rewrite live_at_positions, allContexts_eq, filter_fmap_eq. unfold live_contexts.
  rewrite filter_filter_eq. f_equal. apply filter_ext_in. intros se Hin. rewrite <- andb_assoc, andb_true_iff.
  assert (sc_live se = true -> P se && keep se = true <-> Q (cf_materialize x se)); [|tauto].
  intros Hl. apply HQ; [by apply list_elem_of_filter|by apply stored_live].
Qed.

Lemma string_is_id a key id :
  known (cf_interner_ x) a -> find (cf_interner_ x) key = Some id -> (a =? id)%N = true <-> stringOf x a = key.
Proof.
  intros [s Hs] Hf. rewrite N.eqb_eq. apply find_resolve in Hf; [|apply Hx].
  unfold stringOf. rewrite (resolve_of_opt _ _ _ Hs). split.
  - intros ->. congruence.
  - intros ->. by eapply resolve_opt_inj; [apply Hx|..].
Qed.

Lemma string_unknown a key : known (cf_interner_ x) a -> find (cf_interner_ x) key = None -> stringOf x a <> key.
Proof.
  intros [s Hs] Hf E. unfold stringOf in E. rewrite (resolve_of_opt _ _ _ Hs) in E. subst s.
  apply resolve_find in Hs; [|apply Hx]. congruence.
Qed.

Lemma filter_none (Q : CallSiteContext -> Prop) `{!forall c, Decision (Q c)} :
  (forall se, stored_ok x se -> ~ Q (cf_materialize x se)) -> filter Q (allContexts x) = [].
Proof.
  intros HQ. apply elem_of_nil_inv. intros c [Hc Hin]%list_elem_of_filter. rewrite allContexts_eq in Hin.
  apply list_elem_of_fmap in Hin as (se & -> & [_ Hse]%list_elem_of_filter). by eapply HQ; [apply stored_live|].
Qed.

(** What positions found by an id of a field stand for. *)
Lemma field_filter isValidUtf8 name (m : gmap SId (list nat)) (field : StoredContext -> SId)
    (text : CallSiteContext -> bytes) keep (K : CallSiteContext -> Prop) `{!forall c, Decision (K c)} :
  (forall k, vec_at m k = positions (fun se => field se =? k)%N (contexts_ x)) ->
  (forall se, stored_ok x se -> known (cf_interner_ x) (field se) /\ text (cf_materialize x se) = stringOf x (field se)) ->
  (forall se, stored_ok x se -> keep se = true <-> K (cf_materialize x se)) ->
  cf_materialize x <$> live_at x keep (match findId isValidUtf8 x name with None => [] | Some id => vec_at m id end) =
  filter (fun c => text c = lookupText isValidUtf8 name /\ K c) (allContexts x).
Proof.
  intros Hm Ht HK. unfold findId. destruct (find (cf_interner_ x) (lookupText isValidUtf8 name)) as [id|] eqn:Ef.
  - rewrite Hm. apply live_at_filter. intros se _ Hse. destruct (Ht se Hse) as [Hk ->].
    by rewrite andb_true_iff, (string_is_id _ _ _ Hk Ef), (HK se Hse).
  - symmetry. apply filter_none. intros se Hse [E _]. destruct (Ht se Hse) as [Hk Et]. rewrite Et in E.
    by apply (string_unknown _ _ Hk Ef).
Qed.

Lemma vec_match (m : gmap SId (list nat)) k : match m !! k with Some v => v | None => [] end = vec_at m k.
Proof. unfold vec_at. by destruct (m !! k). Qed.

Lemma site_filter isValidUtf8 site keep (K : CallSiteContext -> Prop) `{!forall c, Decision (K c)} :
  (forall se, stored_ok x se -> keep se = true <-> K (cf_materialize x se)) ->
  cf_materialize x <$> live_at x keep (sitePositions isValidUtf8 x site) =
  filter (fun c => cs_callSite c = lookupText isValidUtf8 site /\ K c) (allContexts x).
Proof.
  intros HK. rewrite <- (field_filter isValidUtf8 site (bySite_ x) sc_site cs_callSite keep K).
  - unfold sitePositions. by destruct (findId isValidUtf8 x site); [rewrite vec_match|].
  - apply (mp_site _ (cf_maps _ Hx)).
  - intros se []. done.
  - done.
Qed.

(** By identity when some context has it, by display name otherwise. *)
Definition by_name (usrOf nameOf : CallSiteContext -> bytes) (key : bytes) (cs : list CallSiteContext)
  : list CallSiteContext :=
  match filter (fun c => usrOf c = key) cs with
  | [] => filter (fun c => nameOf c = key) cs
  | l => l
  end.

Section Names.
Context (isValidUtf8 : bytes -> bool) (name : bytes) (mu md : gmap SId (list nat)).
Context (fu fd : StoredContext -> SId) (usrOf nameOf : CallSiteContext -> bytes).
Context (Hmu : forall k, vec_at mu k = positions (fun se => fu se =? k)%N (contexts_ x)).
Context (Hmd : forall k, vec_at md k = positions (fun se => (fd se =? k)%N && negb (fd se =? fu se)%N) (contexts_ x)).
Context (Hfu : forall se, stored_ok x se -> known (cf_interner_ x) (fu se) /\ usrOf (cf_materialize x se) = stringOf x (fu se)).
Context (Hfd : forall se, stored_ok x se -> known (cf_interner_ x) (fd se) /\ nameOf (cf_materialize x se) = stringOf x (fd se)).
Context (Hfresh : forall k, mu !! k <> Some []).

Lemma no_usr_contexts key id :
  find (cf_interner_ x) key = Some id -> mu !! id = None ->
  forall se, se ∈ live_contexts x -> fu se <> id.
Proof.
  intros Hf Hn se [Hl Hin]%list_elem_of_filter E. specialize (Hmu id). unfold vec_at in Hmu. rewrite Hn in Hmu. simpl in Hmu.
  apply list_elem_of_lookup in Hin as [i Hi]. apply (not_elem_of_nil (A := nat) i). rewrite Hmu. apply elem_of_positions.
  exists se. by rewrite E, N.eqb_refl.
Qed.

Lemma some_usr_context key id v :
  find (cf_interner_ x) key = Some id -> mu !! id = Some v ->
  filter (fun c => usrOf c = key) (allContexts x) <> [].
Proof.
  intros Hf Hv E. assert (Hp : v = positions (fun se => fu se =? id)%N (contexts_ x)) by (rewrite <- Hmu; unfold vec_at; by rewrite Hv).
  destruct v as [|i v]; [by apply (Hfresh id)|].
  assert (Hi : i ∈ positions (fun se => fu se =? id)%N (contexts_ x)) by (rewrite <- Hp; left).
  apply elem_of_positions in Hi as (se & Hi & Hl & Hu). apply list_elem_of_lookup_2 in Hi.
  destruct (Hfu se (stored_live se Hi)) as [Hk Hus].
  apply (not_elem_of_nil (cf_materialize x se)). rewrite <- E. apply list_elem_of_filter. split.
  - rewrite Hus. by eapply string_is_id.
  - rewrite allContexts_eq. apply list_elem_of_fmap. exists se. split; [done|]. by apply list_elem_of_filter.
Qed.

Lemma name_filter keep (K : CallSiteContext -> Prop) `{!forall c, Decision (K c)} :
  (forall se, stored_ok x se -> keep se = true <-> K (cf_materialize x se)) ->
  cf_materialize x <$> live_at x keep
    (match findId isValidUtf8 x name with
     | None => []
     | Some id => match mu !! id with Some v => v | None => match md !! id with Some v => v | None => [] end end
     end) =
  filter K (by_name usrOf nameOf (lookupText isValidUtf8 name) (allContexts x)).
Proof.
  intros HK. set (key := lookupText isValidUtf8 name). unfold findId, by_name. fold key.
  destruct (find (cf_interner_ x) key) as [id|] eqn:Ef.
  - destruct (mu !! id) as [v|] eqn:Ev.
    + pose proof (some_usr_context key id v Ef Ev) as Hne.
      replace v with (vec_at mu id) by (unfold vec_at; by rewrite Ev).
      rewrite Hmu, (live_at_filter _ _ (fun c => usrOf c = key /\ K c)).
      * rewrite <- filter_filter_eq. by destruct (filter (fun c => usrOf c = key) _).
      * intros se _ Hse. destruct (Hfu se Hse) as [Hk ->]. by rewrite andb_true_iff, (string_is_id _ _ _ Hk Ef), (HK se Hse).
    + pose proof (no_usr_contexts key id Ef Ev) as Hno.
      assert (Hnil : filter (fun c => usrOf c = key) (allContexts x) = []).
      { apply elem_of_nil_inv. intros c [Hc Hin]%list_elem_of_filter. rewrite allContexts_eq in Hin.
        apply list_elem_of_fmap in Hin as (se & -> & Hse). apply (Hno se Hse).
        pose proof Hse as [_ Hin]%list_elem_of_filter. destruct (Hfu se (stored_live se Hin)) as [Hk Hus].
        rewrite Hus in Hc. by apply N.eqb_eq, (string_is_id _ _ _ Hk Ef). }
      rewrite Hnil, vec_match, Hmd, (live_at_filter _ _ (fun c => nameOf c = key /\ K c)).
      * by rewrite filter_filter_eq.
      * intros se Hin Hse. destruct (Hfd se Hse) as [Hk ->].
        rewrite !andb_true_iff, negb_true_iff, N.eqb_neq, (string_is_id _ _ _ Hk Ef), (HK se Hse).
        split; [tauto|]. intros [E ?]. split_and!; [done| |done]. intros E'. apply (Hno se Hin). rewrite <- E'.
        by apply N.eqb_eq, (string_is_id _ _ _ Hk Ef).
  - rewrite (filter_none (fun c => usrOf c = key)).
    2:{ intros se Hse. destruct (Hfu se Hse) as [Hk ->]. by apply string_unknown. }
    rewrite (filter_none (fun c => nameOf c = key)); [done|].
    intros se Hse. destruct (Hfd se Hse) as [Hk ->]. by apply string_unknown.
Qed.
End Names.
End Query.

(** * The order of [contextForEdge] *)

Definition edge_context_key (wanted : bytes) (c : CallSiteContext) : N * (bytes * (bytes * bytes)) :=
  ((if bool_decide (cs_calleeUsr c = wanted) then 0 else 1)%N, (cs_calleeUsr c, (cs_tuPath c, cs_callerName c))).

Definition edge_context_cmp : N * (bytes * (bytes * bytes)) -> N * (bytes * (bytes * bytes)) -> comparison :=
  lex_cmp N.compare (lex_cmp bytes_cmp (lex_cmp bytes_cmp bytes_cmp)).

Lemma edge_context_less_cmp wanted a b :
  edge_context_less wanted a b =
  ltb_of (edge_context_cmp (edge_context_key wanted a) (edge_context_key wanted b)).
Proof.
  unfold edge_context_less, edge_context_cmp, edge_context_key, lex_cmp. cbn [fst snd].
  destruct (bool_decide (cs_calleeUsr a = wanted)), (bool_decide (cs_calleeUsr b = wanted)); cbn; try done;
    do 2 (apply ltb_of_chain; [apply _|]); done.
Qed.

Lemma edge_context_le_cmp wanted a b :
  edge_context_le wanted a b <-> cmp_le edge_context_cmp (edge_context_key wanted a) (edge_context_key wanted b).
Proof.
  unfold edge_context_le, cmp_le. rewrite edge_context_less_cmp.
  rewrite (tcmp_antisym (cmp := edge_context_cmp) (edge_context_key wanted a) (edge_context_key wanted b)).
  by destruct (edge_context_cmp _ _).
Qed.

#[global] Instance edge_context_le_total wanted : Total (edge_context_le wanted).
Proof. intros a b. rewrite !edge_context_le_cmp. apply (total (cmp_le edge_context_cmp)). Qed.
#[global] Instance edge_context_le_trans wanted : Transitive (edge_context_le wanted).
Proof. intros a b c. rewrite !edge_context_le_cmp. apply transitivity. Qed.

Lemma head_fmap_eq {A B} (f : A -> B) (l : list A) : head (f <$> l) = f <$> head l.
Proof. by destruct l. Qed.

(** * Entries that are never empty *)

(** No usr entry is an empty vector: holds until a removal empties one. *)
Definition fresh (x : ControlFlowIndex) : Prop := forall k, byCallee_ x !! k <> Some [] /\ byCaller_ x !! k <> Some [].

Lemma push_back_nonempty {A} k (v : A) (m : gmap N (list A)) d : m !! d <> Some [] -> push_back k v m !! d <> Some [].
Proof.
  intros H. unfold push_back. rewrite lookup_insert. case_decide; [|done]. intros E. by destruct (vec_at m k).
Qed.

Lemma insert_fresh se b x : fresh x -> fresh (insertStored se b x).
Proof. intros Hf k. destruct (Hf k). split; simpl; by apply push_back_nonempty. Qed.

Lemma same_store_fresh x x' : same_store x x' -> fresh x -> fresh x'.
Proof. intros [_ E1 E2 _ _ _ _ _ _] Hf k. rewrite E1, E2. apply Hf. Qed.

Lemma compact_fresh x : fresh (cf_compact x).
Proof.
  unfold cf_compact, fresh. cbn [byCallee_ byCaller_].
  set (y0 := MkCFIndex (cf_interner_ x) [] _ _ _ _ _ _ _ _ _ _ _ _ _ _).
  assert (Hf : forall l y, fresh y -> fresh (foldl compact_context y l)).
  { induction l as [|se l IH]; intros y Hy; [done|]. cbn [foldl]. apply IH. unfold compact_context.
    destruct (sc_live se); [by apply insert_fresh|done]. }
  apply (Hf (contexts_ x) y0). intros k. split; subst y0; cbn [byCallee_ byCaller_]; by rewrite lookup_empty.
Qed.

(** Positions found by a name, read as contexts. *)
Lemma callee_names x isValidUtf8 name keep (K : CallSiteContext -> Prop) {HKd : forall c, Decision (K c)} :
  cf_ok x -> fresh x -> (forall se, stored_ok x se -> keep se = true <-> K (cf_materialize x se)) ->
  cf_materialize x <$> live_at x keep (namePositions isValidUtf8 x Callee name) =
  filter K (by_name cs_calleeUsr cs_calleeName (lookupText isValidUtf8 name) (allContexts x)).
Proof.
  intros Hx Hf HK. pose proof (cf_maps _ Hx) as Hm.
  apply (name_filter x Hx isValidUtf8 name (byCallee_ x) (byCalleeDisplay_ x) sc_callee sc_calleeDisplay);
    [apply Hm|apply Hm|by intros se []|by intros se []|intros k; apply Hf|done].
Qed.

Lemma caller_names x isValidUtf8 name keep (K : CallSiteContext -> Prop) {HKd : forall c, Decision (K c)} :
  cf_ok x -> fresh x -> (forall se, stored_ok x se -> keep se = true <-> K (cf_materialize x se)) ->
  cf_materialize x <$> live_at x keep (namePositions isValidUtf8 x Caller name) =
  filter K (by_name cs_callerUsr cs_callerName (lookupText isValidUtf8 name) (allContexts x)).
Proof.
  intros Hx Hf HK. pose proof (cf_maps _ Hx) as Hm.
  apply (name_filter x Hx isValidUtf8 name (byCaller_ x) (byCallerDisplay_ x) sc_caller sc_callerDisplay);
    [apply Hm|apply Hm|by intros se []|by intros se []|intros k; apply Hf|done].
Qed.

(** * The index as a list *)

Inductive cf_op :=
| Add (ctx : CallSiteContext)
| Absorb (shard : ControlFlowIndex)
| Remove (tuPaths : list bytes)
| Compact.

Definition cf_run `{!UnorderedIter} (op : cf_op) (x : ControlFlowIndex) : ControlFlowIndex :=
  match op with
  | Add ctx => addCallSiteContext ctx x
  | Absorb shard => cf_absorb shard x
  | Remove tuPaths => (cf_removeTUs tuPaths x).1
  | Compact => cf_compact x
  end.

(** What an operation does to the list of contexts. *)
Definition cf_spec (op : cf_op) (cs : list CallSiteContext) : list CallSiteContext :=
  match op with
  | Add ctx => cs ++ [stored_form ctx]
  | Absorb shard => cs ++ allContexts shard
  | Remove tuPaths => filter (fun c => from_tus (toIndexText <$> tuPaths) c = false) cs
  | Compact => cs
  end.

(** The tables have room for what the operation adds. *)
Definition cf_fits (op : cf_op) (x : ControlFlowIndex) : Prop :=
  match op with
  | Add ctx => context_fits ctx /\ context_room ctx x
  | Absorb shard => cf_ok shard /\ absorb_room shard x
  | Remove _ | Compact => True
  end.

Lemma from_tus_ext l k c : (forall a, a ∈ l <-> a ∈ k) -> from_tus l c = from_tus k c.
Proof.
  intros H. unfold from_tus. case_decide; [|by apply bool_decide_ext].
  apply eq_bool_prop_intro. rewrite !Is_true_true, !existsb_exists. setoid_rewrite <- list_elem_of_In.
  by setoid_rewrite H.
Qed.

(** C11. Every operation keeps the index consistent and acts on the list of contexts it
    stands for: adding appends the context as index text, merging appends the
    shard's contexts, removing units drops exactly their contexts and counts them,
    and compacting changes nothing and leaves no emptied entry. *)
Theorem index_refines_list `{!UnorderedIter} (op : cf_op) (x : ControlFlowIndex) :
  cf_ok x -> cf_fits op x ->
  cf_ok (cf_run op x) /\ allContexts (cf_run op x) = cf_spec op (allContexts x) /\
  match op with
  | Remove tuPaths => (cf_removeTUs tuPaths x).2 + length (allContexts (cf_run op x)) = length (allContexts x)
  | Compact => fresh (cf_run op x)
  | _ => True
  end.
Proof.
  intros Hx Hf. destruct op as [ctx|shard|tuPaths|]; cbn [cf_run cf_spec cf_fits] in *.
  - destruct (add_context_spec ctx x Hx (proj1 Hf) (proj2 Hf)). done.
  - destruct (cf_absorb_spec shard x (proj1 Hf) Hx (proj2 Hf)). done.
  - destruct (removal_spec x Hx tuPaths) as (H1 & H2 & H3). split_and!; [done| |done]. rewrite H2.
    apply filter_ext_in. intros c _. erewrite from_tus_ext; [done|]. intros a. apply elem_of_tu_texts.
  - destruct (compact_spec x Hx). split_and!; [done|done|apply compact_fresh].
Qed.

(** Site queries: the contexts at a spelling are the held contexts whose call site is
    that text, in order; the single-answer form gives the first of them, the
    caller-qualified one the first whose caller has that identity or name; and the
    context of an edge is a least one among the caller's, one recorded for the
    edge's callee if there is any, and is missing only if the caller has none. *)
Theorem site_queries_exact (isValidUtf8 : bytes -> bool) (x : ControlFlowIndex) (site caller callee : bytes) :
  cf_ok x ->
  let key := lookupText isValidUtf8 in
  let at_site := filter (fun c => cs_callSite c = key site) (allContexts x) in
  let mine := filter (fun c => cs_callerUsr c = caller \/ cs_callerName c = caller) at_site in
  contextsAtSite isValidUtf8 x site = at_site /\
  contextAtSite isValidUtf8 x site = head at_site /\
  contextAtSite_by isValidUtf8 x site caller =
    head (filter (fun c => cs_callerUsr c = key caller \/ cs_callerName c = key caller) at_site) /\
  match contextForEdge isValidUtf8 x site caller callee with
  | None => mine = []
  | Some c => c ∈ mine /\ (forall b, b ∈ mine -> edge_context_le callee c b) /\
      ((exists b, b ∈ mine /\ cs_calleeUsr b = callee) -> cs_calleeUsr c = callee)
  end.
Proof.
  intros Hx key at_site mine.
  assert (Hsite : contextsAtSite isValidUtf8 x site = at_site).
  { etrans; [apply (site_filter x Hx isValidUtf8 site (fun _ => true) (fun _ => True)); done|].
    apply filter_ext_in. intros c _. unfold key. tauto. }
  split_and!; [done| | |].
  - rewrite <- Hsite. unfold contextAtSite, contextsAtSite, contextAtSite_in, contextsAtSite_in. by destruct (live_in _ _ _).
  - unfold contextAtSite_by, contextAtSite_by_in. cbn [resident v_findId v_sitePositions v_materialize].
    destruct (findId isValidUtf8 x caller) as [cid|] eqn:Ef; unfold findId in Ef.
    + change (live_in (resident isValidUtf8 x)) with (live_at x).
      rewrite <- head_fmap_eq, (site_filter x Hx isValidUtf8 site _
        (fun c => cs_callerUsr c = key caller \/ cs_callerName c = key caller)).
      * unfold at_site, key. by rewrite filter_filter_eq.
      * intros se Hse. rewrite orb_true_iff. unfold key. f_equiv.
        -- apply (string_is_id x Hx _ _ _ (so_caller _ _ Hse) Ef).
        -- apply (string_is_id x Hx _ _ _ (so_callerDisplay _ _ Hse) Ef).
    + unfold at_site. rewrite filter_filter_eq, filter_none; [done|done|].
      intros se Hse [_ [E|E]]; unfold key in E; simpl in E; revert E; apply (string_unknown x Hx); try done; apply Hse.
  - unfold contextForEdge, contextForEdge_in. change (contextsAtSite_in (resident isValidUtf8 x) site) with (contextsAtSite isValidUtf8 x site).
    rewrite Hsite. fold mine.
    pose proof (stable_sort_least (edge_context_le callee) mine) as Hh.
    destruct (head _) as [c|]; [|done]. destruct Hh as [Hin Hmin]. split_and!; [done|done|].
    intros (b & Hb & Eb). specialize (Hmin b Hb). unfold edge_context_le, edge_context_less in Hmin.
    rewrite (bool_decide_true (cs_calleeUsr b = callee)) in Hmin by done.
    destruct (bool_decide (cs_calleeUsr c = callee)) eqn:Ec; [by apply bool_decide_eq_true in Ec|done].
Qed.

(** Name queries of an index without emptied entries: the contexts whose callee
    (caller) has that identity, or, when none has, that display name; the protected
    and unprotected calls are those of them with and without a try block around
    them, and the recorded exception specification is that of the first. *)
Theorem name_queries_exact (isValidUtf8 : bytes -> bool) (x : ControlFlowIndex) (name : bytes) :
  cf_ok x -> fresh x ->
  let key := lookupText isValidUtf8 name in
  let callees := by_name cs_calleeUsr cs_calleeName key (allContexts x) in
  let callers := by_name cs_callerUsr cs_callerName key (allContexts x) in
  contextsForCallee isValidUtf8 x name = callees /\
  contextsForCaller isValidUtf8 x name = callers /\
  protectedCallsTo isValidUtf8 x name = filter (fun c => enclosingTryCatches c <> []) callees /\
  unprotectedCallsTo isValidUtf8 x name = filter (fun c => enclosingTryCatches c = []) callees /\
  callerNoexceptOf isValidUtf8 x name = callerNoexcept <$> head callers.
Proof.
  intros Hx Hf key callees callers. pose proof (cf_maps _ Hx) as Hm.
  pose proof (fun keep K HKd => callee_names x isValidUtf8 name keep K (HKd := HKd) Hx Hf) as Hcallee.
  pose proof (caller_names x isValidUtf8 name (fun _ => true) (fun _ => True) Hx Hf ltac:(done)) as Hcaller.
  rewrite (filter_id (fun _ => True)) in Hcaller by done. fold key callers in Hcaller. fold key callees in Hcallee.
  assert (Hscope : forall se, stored_ok x se -> sc_scopeSet se = 0%N <-> enclosingTryCatches (cf_materialize x se) = []).
  { intros se Hse. destruct (so_scope _ _ Hse) as [s Hs]. simpl. unfold set_of. rewrite Hs. simpl.
    pose proof (cf_scopes _ Hx) as Ht. split.
    - intros E. rewrite E in Hs. change (scopeSets_ x !! 0 = Some s) in Hs. rewrite (tb_zero _ _ _ _ Ht) in Hs. congruence.
    - intros ->. apply (tb_empty _ _ _ _ Ht) in Hs. lia. }
  split_and!.
  - etrans; [apply (Hcallee (fun _ => true) (fun _ => True) _); done|]. by apply filter_id.
  - done.
  - apply (Hcallee _ (fun c => enclosingTryCatches c <> []) _). intros se Hse. by rewrite negb_true_iff, N.eqb_neq, (Hscope se Hse).
  - apply (Hcallee _ (fun c => enclosingTryCatches c = []) _). intros se Hse. by rewrite N.eqb_eq, (Hscope se Hse).
  - rewrite <- Hcaller. unfold callerNoexceptOf, callerNoexceptOf_in.
    cbn [resident v_namePositions]. change (live_in (resident isValidUtf8 x)) with (live_at x). by destruct (live_at _ _ _).
Qed.

(** * Examples *)

Definition plain_context (caller callee calleeUsr site tu : bytes) : CallSiteContext :=
  MkContext caller callee site [] calleeUsr tu [] [] NoSpec false [].

(** [main] of [a.cpp] calls the function whose identity is [f]; [main] of [b.cpp]
    calls another function that is displayed as [f]. *)
Definition two_sites : ControlFlowIndex :=
  addCallSiteContext (plain_context (str "main") (str "f") (str "g") (str "b.cpp:2:1") (str "b.cpp"))
    (addCallSiteContext (plain_context (str "main") (str "f") [] (str "a.cpp:1:1") (str "a.cpp")) empty_index).

Lemma plain_fits caller callee calleeUsr site tu : context_fits (plain_context caller callee calleeUsr site tu).
Proof. by split. Qed.

Lemma two_sites_ok : cf_ok two_sites.
Proof.
  apply add_context_spec; [apply add_context_spec; [apply empty_index_ok|apply plain_fits|]|apply plain_fits|];
    unfold context_room, set_room; split_and!; by vm_compute.
Qed.

Lemma two_sites_fresh : fresh two_sites.
Proof.
  assert (H : forall m : gmap SId (list nat), map_Forall (fun _ v => v <> []) m -> forall k, m !! k <> Some []).
  { intros m Hm k E. by apply (Hm k []). }
  intros k. split; apply H; by_computation.
Qed.

Definition without_a : ControlFlowIndex := (@cf_removeTUs canonical_iter [str "a.cpp"] two_sites).1.

(** After [a.cpp] is removed, the lookup of [f] still finds the emptied entry of the
    removed identity and never falls back to the display name: it reports no call,
    though [b.cpp] calls a function of that name and a rebuilt index finds it. *)
Theorem removed_identity_hides_name :
  contextsForCallee valid_utf8b without_a (str "f") = [] /\
  contextsForCallee valid_utf8b (cf_compact without_a) (str "f") = allContexts without_a /\
  allContexts without_a = [stored_form (plain_context (str "main") (str "f") (str "g") (str "b.cpp:2:1") (str "b.cpp"))].
Proof. split_and!; vm_compute; reflexivity. Qed.

Lemma index_refines_list_witness :
  cf_ok without_a /\
  allContexts without_a = filter (fun c => from_tus (toIndexText <$> [str "a.cpp"]) c = false) (allContexts two_sites) /\
  (@cf_removeTUs canonical_iter [str "a.cpp"] two_sites).2 + length (allContexts without_a) = length (allContexts two_sites).
Proof. apply (@index_refines_list canonical_iter (Remove [str "a.cpp"]) two_sites); [apply two_sites_ok|exact I]. Defined.

Lemma site_queries_exact_witness :
  contextsAtSite valid_utf8b two_sites (str "a.cpp:1:1") =
  filter (fun c => cs_callSite c = lookupText valid_utf8b (str "a.cpp:1:1")) (allContexts two_sites).
Proof.
  exact (proj1 (site_queries_exact valid_utf8b two_sites (str "a.cpp:1:1") (str "main") (str "f") two_sites_ok)).
Defined.

Lemma name_queries_exact_witness :
  contextsForCallee valid_utf8b two_sites (str "f") =
  by_name cs_calleeUsr cs_calleeName (lookupText valid_utf8b (str "f")) (allContexts two_sites).
Proof. exact (proj1 (name_queries_exact valid_utf8b two_sites (str "f") two_sites_ok two_sites_fresh)). Defined.
