(* ===== verification/Text.v ===== *)
(** The substring operations of [llvm::StringRef] the program uses, and the path filter
    built on them (src/callgraph/CollapseFilter.cpp).

    Scanning text: the character searches, splits and number readers of [llvm::StringRef]
    that the patch and identity readers are built from. *)

From S2P Require Import Prelude.

(** * Substrings *)

Definition starts_with (s p : bytes) : bool := bool_decide (p `prefix_of` s).

(** [s.find(p)]: the first position where [p] occurs. *)
Fixpoint str_find (s p : bytes) : option nat :=
  if starts_with s p then Some 0
  else match s with [] => None | _ :: s' => S <$> str_find s' p end.

(** [s.rfind(p)]: the last position. *)
Fixpoint str_rfind (s p : bytes) : option nat :=
  match s with
  | [] => if starts_with [] p then Some 0 else None
  | _ :: s' =>
      match str_rfind s' p with
      | Some i => Some (S i)
      | None => if starts_with s p then Some 0 else None
      end
  end.

Definition contains (s p : bytes) : bool := match str_find s p with Some _ => true | None => false end.

(** [s.consume_back(p)]: whether [s] ends in [p], and what is left when it does. *)
Definition consume_back (s p : bytes) : bool * bytes :=
  if decide (p `suffix_of` s) then (true, take (length s - length p) s) else (false, s).

Lemma starts_with_spec s p : starts_with s p = true <-> exists b, s = p ++ b.
Proof. unfold starts_with. by rewrite bool_decide_eq_true. Qed.

(** [p] occurs in [s] after [i] characters. *)
Definition occurs (s p : bytes) (i : nat) : Prop := exists a b, s = a ++ p ++ b /\ length a = i.

Lemma occurs_0 s p : occurs s p 0 <-> starts_with s p = true.
Proof.
  rewrite starts_with_spec. split.
  - intros (a & b & -> & Ha). apply nil_length_inv in Ha as ->. by exists b.
  - intros [b ->]. by exists [], b.
Qed.

Lemma occurs_S x s p i : occurs (x :: s) p (S i) <-> occurs s p i.
Proof.
  split.
  - intros (a & b & E & Ha). destruct a as [|y a]; [done|]. injection E as -> E. injection Ha as Ha. by exists a, b.
  - intros (a & b & -> & <-). by exists (x :: a), b.
Qed.

Lemma occurs_nil p i : occurs [] p i -> i = 0.
Proof. intros (a & b & E & <-). by destruct a. Qed.

Lemma contains_spec s p : contains s p = true <-> exists a b, s = a ++ p ++ b.
Proof.
  trans (exists i, occurs s p i); [|unfold occurs; naive_solver].
  unfold contains. induction s as [|x s IH]; cbn [str_find].
  - destruct (starts_with [] p) eqn:E; [split; [exists 0; by apply occurs_0|done]|].
    split; [done|]. intros [i Hi]. pose proof (occurs_nil _ _ Hi) as ->. apply occurs_0 in Hi. congruence.
  - destruct (starts_with (x :: s) p) eqn:E; [split; [exists 0; by apply occurs_0|done]|].
    assert ((exists i, occurs (x :: s) p i) <-> exists i, occurs s p i) as ->.
    + split; intros [i Hi]; [|exists (S i); by apply occurs_S].
      destruct i as [|i]; [apply occurs_0 in Hi; congruence|]. exists i. by apply occurs_S in Hi.
    + rewrite <- IH. by destruct (str_find s p).
Qed.

Lemma str_rfind_spec s p :
  match str_rfind s p with
  | Some i => occurs s p i /\ forall j, occurs s p j -> j <= i
  | None => forall j, ~ occurs s p j
  end.
Proof.
  induction s as [|x s IH]; cbn [str_rfind].
  - destruct (starts_with [] p) eqn:E.
    + split; [by apply occurs_0|]. intros j ->%occurs_nil. done.
    + intros j Hj. pose proof (occurs_nil _ _ Hj) as ->. apply occurs_0 in Hj. congruence.
  - destruct (str_rfind s p) as [i|].
    + destruct IH as [Hi Hmax]. split; [by apply occurs_S|]. intros [|j] Hj; [lia|].
      apply occurs_S in Hj. specialize (Hmax j Hj). lia.
    + destruct (starts_with (x :: s) p) eqn:E.
      * split; [by apply occurs_0|]. intros [|j] Hj; [lia|]. apply occurs_S in Hj. by apply IH in Hj.
      * intros [|j] Hj; [apply occurs_0 in Hj; congruence|]. apply occurs_S in Hj. by apply IH in Hj.
Qed.

Lemma consume_back_spec s p :
  (exists t, s = t ++ p /\ consume_back s p = (true, t)) \/ (~ p `suffix_of` s /\ consume_back s p = (false, s)).
Proof.
  unfold consume_back. case_decide as H; [left|by right]. destruct H as [t ->]. exists t. split; [done|].
  rewrite length_app. replace (length t + length p - length p) with (length t) by lia. by rewrite take_app_length.
Qed.

(** * Collapsed paths *)

Module CollapseFilter.

Definition slash : Byte.byte := Byte.x2f.

(** The constructor's normalization of one pattern. *)
Definition normalize (p : bytes) : bytes :=
  let normalized := match p with [] => [] | c :: _ => if decide (c = slash) then [] else [slash] end ++ p in
  match last normalized with
  | None => normalized
  | Some c => if decide (c = slash) then normalized else normalized ++ [slash]
  end.

(** [CollapseFilter(patterns)]. *)
Definition patterns_ (patterns : list bytes) : list bytes := normalize <$> patterns.

Definition isCollapsed (patterns : list bytes) (filePath : bytes) : bool :=
  existsb (contains filePath) (patterns_ patterns).

(** The components of a path. *)
Fixpoint components (s : bytes) : list bytes :=
  match s with
  | [] => [[]]
  | c :: s' =>
      if decide (c = slash) then [] :: components s'
      else match components s' with [] => [[c]] | w :: ws => (c :: w) :: ws end
  end.

Fixpoint join (ws : list bytes) : bytes :=
  match ws with [] => [] | [w] => w | w :: ws' => w ++ slash :: join ws' end.

Lemma components_ne s : components s <> [].
Proof. destruct s as [|c s]; simpl; [done|]. case_decide; [done|]. by destruct (components s). Qed.

Lemma components_app a b : components (a ++ slash :: b) = components a ++ components b.
Proof.
  induction a as [|c a IH]; simpl; [done|]. case_decide; rewrite IH; [done|].
  pose proof (components_ne a). by destruct (components a).
Qed.

Lemma components_word w : slash ∉ w -> components w = [w].
Proof.
  induction w as [|c w IH]; intros Hw; [done|]. apply not_elem_of_cons in Hw as [Hc Hw]. simpl.
  rewrite decide_False by done. by rewrite IH.
Qed.

Lemma components_words s : Forall (fun w => slash ∉ w) (components s).
Proof.
  induction s as [|c s IH]; simpl; [constructor; [apply not_elem_of_nil|done]|].
  case_decide; [constructor; [apply not_elem_of_nil|done]|].
  destruct IH as [|w ws Hw Hws]; constructor; try done; apply not_elem_of_cons; split; congruence || apply not_elem_of_nil || done.
Qed.

Lemma components_join ws : ws <> [] -> Forall (fun w => slash ∉ w) ws -> components (join ws) = ws.
Proof.
  intros Hne Hf. induction Hf as [|w ws Hw Hws IH]; [done|]. destruct ws as [|w' ws]; [by apply components_word|].
  change (join (w :: w' :: ws)) with (w ++ slash :: join (w' :: ws)).
  rewrite components_app, components_word, IH by done. done.
Qed.

Lemma components_inj a b : components a = components b -> a = b.
Proof.
  revert b. induction a as [|x a IH]; intros [|y b]; simpl; try done.
  - pose proof (components_ne b). case_decide; [congruence|]. destruct (components b); congruence.
  - pose proof (components_ne a). case_decide; [congruence|]. destruct (components a); congruence.
  - pose proof (components_ne a) as Ha. pose proof (components_ne b) as Hb. repeat case_decide; subst; intros E.
    + injection E as E. by rewrite (IH b E).
    + destruct (components b); congruence.
    + destruct (components a); congruence.
    + destruct (components a) as [|w ws] eqn:Ea, (components b) as [|v vs] eqn:Eb; try done.
      injection E as -> -> ->. f_equal. by apply IH.
Qed.

Lemma normalize_plain p : p <> [] -> head p <> Some slash -> last p <> Some slash ->
  normalize p = slash :: p ++ [slash].
Proof.
  intros Hne Hh Hl. unfold normalize. destruct p as [|c p]; [done|]. simpl in Hh.
  rewrite decide_False by congruence. cbn [app].
  assert (last (slash :: c :: p) = last (c :: p)) as -> by done.
  destruct (last (c :: p)) as [d|] eqn:E; [|by apply last_None in E]. by rewrite decide_False by congruence.
Qed.

End CollapseFilter.
Export CollapseFilter.

(** A pattern without outer slashes collapses exactly the paths that have its components as
    a run of theirs, with a component before and a component after it: ["Client/Math"]
    matches inside the directory and never a longer directory name. *)
Theorem collapse_components (patterns : list bytes) (path : bytes) :
  Forall (fun p => p <> [] /\ head p <> Some slash /\ last p <> Some slash) patterns ->
  isCollapsed patterns path = true <->
  exists p before after, p ∈ patterns /\ before <> [] /\ after <> [] /\
    components path = before ++ components p ++ after.
Proof.
  intros Hf. rewrite Forall_forall in Hf. unfold isCollapsed, patterns_. rewrite existsb_exists.
  assert (forall p, p ∈ patterns -> contains path (normalize p) = true <->
    exists before after, before <> [] /\ after <> [] /\ components path = before ++ components p ++ after) as Hp.
  { intros p (H1 & H2 & H3)%Hf. rewrite contains_spec, normalize_plain by done. split.
    - intros (a & b & ->). exists (components a), (components b). split; [apply components_ne|]. split; [apply components_ne|].
      cbn [app]. rewrite <- (assoc_L (++)). cbn [app]. by rewrite !components_app.
    - intros (l & r & Hl & Hr & E). exists (join l), (join r). apply components_inj.
      cbn [app]. rewrite <- (assoc_L (++)). cbn [app]. rewrite !components_app, E.
      pose proof (components_words path) as Hw. rewrite E, !Forall_app in Hw.
      rewrite !components_join by tauto. done. }
  split.
  - intros (q & Hq & Hc). apply list_elem_of_In, list_elem_of_fmap in Hq as (p & -> & Hin).
    apply Hp in Hc as (l & r & ?); [|done]. by exists p, l, r.
  - intros (p & l & r & Hin & H). exists (normalize p). split.
    + apply list_elem_of_In, list_elem_of_fmap. by exists p.
    + apply Hp; [done|]. by exists l, r.
Qed.

Lemma collapse_components_witness :
  isCollapsed [str "Client/Math"] (str "/w/Client/Math/Vec.h") = true /\
  isCollapsed [str "Client/Math"] (str "/w/Client/MathExtras/Vec.h") = false /\
  exists p before after, p ∈ [str "Client/Math"] /\ before <> [] /\ after <> [] /\
    components (str "/w/Client/Math/Vec.h") = before ++ components p ++ after.
Proof.
  split; [vm_compute; reflexivity|]. split; [vm_compute; reflexivity|].
  apply (collapse_components [str "Client/Math"] (str "/w/Client/Math/Vec.h")); [|vm_compute; reflexivity].
  repeat constructor; vm_compute; discriminate.
Defined.

(** [s.find(c)]. *)
Fixpoint find_char (c : Byte.byte) (s : bytes) : option nat :=
  match s with
  | [] => None
  | b :: s' => if decide (b = c) then Some 0 else S <$> find_char c s'
  end.

(** [s.find(c, from)]. *)
Definition find_char_from (c : Byte.byte) (s : bytes) (from : nat) : option nat :=
  (fun i => from + i) <$> find_char c (drop from s).

(** [s.rfind(c)]: the last occurrence. *)
Fixpoint rfind_char (c : Byte.byte) (s : bytes) : option nat :=
  match s with
  | [] => None
  | b :: s' =>
      match rfind_char c s' with
      | Some i => Some (S i)
      | None => if decide (b = c) then Some 0 else None
      end
  end.

(** [s.rfind(c, from)]: the last occurrence before [from]. *)
Definition rfind_char_before (c : Byte.byte) (s : bytes) (from : nat) : option nat := rfind_char c (take from s).

(** [s.substr(start, n)] and [s.slice(start, end)]. *)
Definition substr (s : bytes) (start n : nat) : bytes := take n (drop start s).
Definition slice (s : bytes) (start stop : nat) : bytes := substr s start (stop - start).

(** [s.split(c)]: around the first occurrence, or the whole string and nothing. *)
Fixpoint split_char (c : Byte.byte) (s : bytes) : bytes * bytes :=
  match s with
  | [] => ([], [])
  | b :: s' => if decide (b = c) then ([], s') else let '(l, r) := split_char c s' in (b :: l, r)
  end.

(** [while (p.starts_with(q)) p = p.drop_front(q.size())], [q] not empty. *)
Fixpoint strip_prefixes (fuel : nat) (q s : bytes) : bytes :=
  match fuel with
  | O => s
  | S fuel' => if starts_with s q then strip_prefixes fuel' q (drop (length q) s) else s
  end.

(** [s.rtrim()]: the whitespace of [StringRef]. *)
Definition is_space (b : Byte.byte) : bool := existsb (fun c => bool_decide (b = c)) [Byte.x20; Byte.x09; Byte.x0a; Byte.x0b; Byte.x0c; Byte.x0d].

Fixpoint ltrim_by (p : Byte.byte -> bool) (s : bytes) : bytes :=
  match s with
  | [] => []
  | b :: s' => if p b then ltrim_by p s' else s
  end.

Definition rtrim (s : bytes) : bytes := rev (ltrim_by is_space (rev s)).

Definition is_digit (b : Byte.byte) : bool := (48 <=? Byte.to_N b)%N && (Byte.to_N b <=? 57)%N.

(** [std::isalnum] in the "C" locale. *)
Definition is_alnum (b : Byte.byte) : bool :=
  let n := Byte.to_N b in
  is_digit b || ((65 <=? n)%N && (n <=? 90)%N) || ((97 <=? n)%N && (n <=? 122)%N).

Fixpoint digits_value (acc : N) (s : bytes) : option N :=
  match s with
  | [] => Some acc
  | b :: s' => if is_digit b then digits_value (acc * 10 + (Byte.to_N b - 48))%N s' else None
  end.

(** [s.getAsInteger(10, result)] for an unsigned result below [limit]; [None] when it fails
    and leaves the result alone. *)
Definition getAsInteger (limit : N) (s : bytes) : option N :=
  match s with
  | [] => None
  | _ :: _ => v ← digits_value 0 s; if (v <? limit)%N then Some v else None
  end.

(** * Reading back what was written *)

Definition is_decimal (s : bytes) : Prop := s <> [] /\ Forall (fun b => is_digit b = true) s.

Lemma digits_value_some acc s : Forall (fun b => is_digit b = true) s -> is_Some (digits_value acc s).
Proof. intros H. revert acc. induction H as [|b s Hb H IH]; intros acc; cbn [digits_value]; [by eexists|]. by rewrite Hb. Qed.

Lemma split_char_app c a b : c ∉ a -> split_char c (a ++ c :: b) = (a, b).
Proof.
  intros Hn. induction a as [|x a IH]; cbn [split_char app]; [by rewrite decide_True|].
  rewrite decide_False by set_solver. rewrite IH by set_solver. done.
Qed.

Lemma split_char_none c a : c ∉ a -> split_char c a = (a, []).
Proof.
  intros Hn. induction a as [|x a IH]; cbn [split_char]; [done|]. rewrite decide_False by set_solver. by rewrite IH by set_solver.
Qed.

Lemma split_char_shorter c s : length (split_char c s).2 <= length s.
Proof.
  induction s as [|b s IH]; cbn [split_char]; [done|]. case_decide; cbn; [lia|]. destruct (split_char c s); cbn in *. lia.
Qed.

Lemma find_char_app c a b : c ∉ a -> find_char c (a ++ c :: b) = Some (length a).
Proof.
  intros Hn. induction a as [|x a IH]; cbn [find_char app length]; [by rewrite decide_True|].
  rewrite decide_False by set_solver. by rewrite IH by set_solver.
Qed.
