(* ===== verification/TypoDistance.v ===== *)
(** The edit distance behind the suggestions for a mistyped name
    (src/query/Identity.cpp, [typoDistance]): the three-row dynamic program with
    its early exit, and the optimal alignment it computes.

    [toLower] is the case folding of the library the program uses on characters. *)

From S2P Require Import Prelude.

Section Distance.
Variable toLower : Byte.byte -> Byte.byte.

(** * The program *)

(** [a\[i\]] lowered; only read within the string. *)
Definition low (s : bytes) (i : nat) : option Byte.byte := toLower <$> s !! i.

Definition cell (v : list N) (j : nat) : N := default 0%N (v !! j).

(** [unsigned] addition. *)
Definition uadd (x y : N) : N := u32 (x + y).

Definition min3 (x y z : N) : N := N.min (N.min x y) z.

(** The body of the inner loop: the value of [cur\[j\]]. *)
Definition typo_cell (a b : bytes) (prev2 prev cur : list N) (i j : nat) : N :=
  let ai := low a (i - 1) in
  let bj := low b (j - 1) in
  let d := min3 (uadd (cell prev j) 1) (uadd (cell cur (j - 1)) 1)
             (uadd (cell prev (j - 1)) (if decide (ai = bj) then 0 else 1)) in
  if bool_decide (1 < i) && bool_decide (1 < j) && bool_decide (ai = low b (j - 2)) && bool_decide (low a (i - 2) = bj)
  then N.min d (uadd (cell prev2 (j - 2)) 1) else d.

(** The loop over [j = 1 .. m], with [rowMin]. *)
Definition typo_row (a b : bytes) (prev2 prev : list N) (i : nat) (cur0 : list N) : list N * N :=
  foldl (fun '(cur, rowMin) j =>
           let d := typo_cell a b prev2 prev cur i j in (<[j := d]> cur, N.min rowMin d))
    (<[0 := u32 (N.of_nat i)]> cur0, u32 (N.of_nat i)) (seq 1 (length b)).

(** The loop over [i = 1 .. n]; the swaps hand the oldest row on as the next buffer. *)
Fixpoint typo_rows (a b : bytes) (bound : N) (rows : list nat) (prev2 prev cur : list N) : N :=
  match rows with
  | [] => cell prev (length b)
  | i :: rows' =>
      let '(cur', rowMin) := typo_row a b prev2 prev i cur in
      if (bound <? rowMin)%N then (uadd bound 1) else typo_rows a b bound rows' prev cur' prev2
  end.

Definition typoDistance (a b : bytes) (bound : N) : N :=
  let m := length b in
  typo_rows a b bound (seq 1 (length a)) (replicate (S m) 0%N)
    ((fun j => u32 (N.of_nat j)) <$> seq 0 (S m)) (replicate (S m) 0%N).

(** * Alignments *)

Definition same (x y : Byte.byte) : Prop := toLower x = toLower y.

(** [align a b n]: [n] edits turn [a] into [b], where an edit drops, adds or changes
    one character or swaps two adjacent ones, and case does not matter. *)
Inductive align : bytes -> bytes -> N -> Prop :=
| align_nil : align [] [] 0
| align_drop a b n x : align a b n -> align (a ++ [x]) b (n + 1)
| align_add a b n y : align a b n -> align a (b ++ [y]) (n + 1)
| align_keep a b n x y : align a b n -> same x y -> align (a ++ [x]) (b ++ [y]) n
| align_change a b n x y : align a b n -> align (a ++ [x]) (b ++ [y]) (n + 1)
| align_swap a b n x y x' y' : align a b n -> same x x' -> same y y' ->
    align ((a ++ [x]) ++ [y]) ((b ++ [y']) ++ [x']) (n + 1).

(** * The recurrence *)

Section Recurrence.
Variables (a b : bytes).

(** The price of matching the characters at [i] and [j]. *)
Definition neq_cost (i j : nat) : N := if decide (low a i = low b j) then 0 else 1.

(** The cost of prefixes of length [i] and [j]. *)
Fixpoint dist (i : nat) : nat -> N :=
  match i with
  | 0 => fun j => N.of_nat j
  | S i' =>
      fix row (j : nat) : N :=
        match j with
        | 0 => N.of_nat i
        | S j' =>
            let d := min3 (dist i' j + 1) (row j' + 1) (dist i' j' + neq_cost i' j') in
            match i', j' with
            | S i'', S j'' =>
                if bool_decide (low a i' = low b j'') && bool_decide (low a i'' = low b j')
                then N.min d (dist i'' j'' + 1)%N else d
            | _, _ => d
            end
        end
  end.

Lemma dist_0_r i : dist i 0 = N.of_nat i.
Proof. by destruct i. Qed.

(** Two adjacent characters of one string, swapped in the other. *)
Definition swapped (i j : nat) : bool :=
  bool_decide (low a (S i) = low b j) && bool_decide (low a i = low b (S j)).

(** The recurrence away from the borders. *)
Definition dist_step (i j : nat) : N :=
  let d := min3 (dist i (S j) + 1) (dist (S i) j + 1) (dist i j + neq_cost i j) in
  match i, j with
  | S i', S j' => if swapped i' j' then N.min d (dist i' j' + 1) else d
  | _, _ => d
  end.

Lemma dist_S i j : dist (S i) (S j) = dist_step i j.
Proof. unfold dist_step. destruct i as [|i], j as [|j]; reflexivity. Qed.

Lemma dist_step_le i j :
  (dist_step i j <= min3 (dist i (S j) + 1) (dist (S i) j + 1) (dist i j + neq_cost i j))%N.
Proof. unfold dist_step. destruct i as [|i], j as [|j]; try lia. destruct (swapped i j); lia. Qed.

Lemma dist_swap i j : swapped i j = true -> (dist (S (S i)) (S (S j)) <= dist i j + 1)%N.
Proof. intros E. rewrite dist_S. unfold dist_step. rewrite E. lia. Qed.

(** Where a value comes from. *)
Lemma dist_step_cases i j :
  dist_step i j = (dist i (S j) + 1)%N \/ dist_step i j = (dist (S i) j + 1)%N \/
  dist_step i j = (dist i j + neq_cost i j)%N \/
  exists i' j', i = S i' /\ j = S j' /\ swapped i' j' = true /\ dist_step i j = (dist i' j' + 1)%N.
Proof.
  assert (forall d, d = min3 (dist i (S j) + 1) (dist (S i) j + 1) (dist i j + neq_cost i j) ->
    d = (dist i (S j) + 1)%N \/ d = (dist (S i) j + 1)%N \/ d = (dist i j + neq_cost i j)%N) as Hm
    by (unfold min3; lia).
  specialize (Hm _ eq_refl). unfold dist_step. destruct i as [|i], j as [|j]; try tauto.
  destruct (swapped i j) eqn:E; [|tauto].
  destruct (N.min_spec (min3 (dist (S i) (S (S j)) + 1) (dist (S (S i)) (S j) + 1)
    (dist (S i) (S j) + neq_cost (S i) (S j))) (dist i j + 1)) as [[_ ->]|[_ ->]]; [tauto|]. eauto 10.
Qed.

(** One more row costs at most one more edit. *)
Lemma dist_down i j : (dist (S i) j <= dist i j + 1)%N.
Proof.
  destruct j as [|j]; [rewrite !dist_0_r; lia|].
  rewrite dist_S. etrans; [apply dist_step_le|]. unfold min3. lia.
Qed.

Lemma dist_le i j : (dist i j <= N.of_nat (i + j))%N.
Proof.
  revert j. induction i as [|i IH]; intros j; [simpl; lia|].
  etrans; [apply dist_down|]. specialize (IH j). lia.
Qed.

(** A row that lies above the bound keeps every later row above it. *)
Lemma row_above bound i : (forall j, j <= length b -> (bound < dist i j)%N) ->
  forall k j, i <= k -> j <= length b -> (bound < dist k j)%N.
Proof.
  intros Hi k j Hik. revert j. induction Hik as [|k Hik IH]; [exact Hi|].
  intros j. induction j as [|j IHj]; intros Hj.
  - specialize (IH 0 ltac:(lia)). rewrite dist_0_r in *. lia.
  - rewrite dist_S. pose proof (IH (S j) Hj). pose proof (IH j ltac:(lia)). specialize (IHj ltac:(lia)).
    destruct (dist_step_cases k j) as [->|[->|[->|(i' & j' & -> & -> & _ & ->)]]]; try lia.
    pose proof (dist_down i' j'). specialize (IH j' ltac:(lia)). lia.
Qed.

(** * The recurrence gives the cheapest alignment *)

Lemma low_Some s i x : s !! i = Some x -> low s i = Some (toLower x).
Proof. unfold low. by intros ->. Qed.

Lemma low_same i j x y : a !! i = Some x -> b !! j = Some y -> low a i = low b j <-> same x y.
Proof. intros Ha Hb. rewrite (low_Some _ _ _ Ha), (low_Some _ _ _ Hb). unfold same. split; congruence. Qed.

Lemma take_snoc (s : bytes) i : i < length s -> exists x, s !! i = Some x /\ take (S i) s = take i s ++ [x].
Proof. intros [x Hx]%lookup_lt_is_Some_2. exists x. split; [done|]. by apply take_S_r. Qed.

Lemma dist_attained i j : i <= length a -> j <= length b -> align (take i a) (take j b) (dist i j).
Proof.
  revert j. induction (lt_wf i) as [i _ IH]. intros j. induction (lt_wf j) as [j _ IHj]. intros Hi Hj.
  destruct i as [|i].
  { destruct j as [|j]; [constructor|]. destruct (take_snoc b j) as (y & Hy & ->); [lia|].
    replace (dist 0 (S j)) with (dist 0 j + 1)%N by (cbn [dist]; lia). apply align_add, IHj; lia. }
  destruct (take_snoc a i) as (x & Hx & Ex); [lia|].
  destruct j as [|j].
  { rewrite Ex, dist_0_r. replace (N.of_nat (S i)) with (dist i 0 + 1)%N by (rewrite dist_0_r; lia).
    apply align_drop, (IH i); lia. }
  destruct (take_snoc b j) as (y & Hy & Ey); [lia|].
  rewrite dist_S. destruct (dist_step_cases i j) as [->|[->|[->|(i' & j' & -> & -> & Hsw & ->)]]].
  - rewrite Ex. apply align_drop, (IH i); lia.
  - rewrite Ey. apply align_add, IHj; lia.
  - rewrite Ex, Ey. unfold neq_cost. case_decide as E.
    + rewrite N.add_0_r. apply align_keep; [apply IH; lia|]. by apply (low_same i j).
    + apply align_change, IH; lia.
  - destruct (take_snoc a i') as (x' & Hx' & Ex'); [lia|]. destruct (take_snoc b j') as (y' & Hy' & Ey'); [lia|].
    rewrite Ex, Ey, Ex', Ey'. apply andb_true_iff in Hsw as [H1%bool_decide_eq_true H2%bool_decide_eq_true].
    apply align_swap; [apply IH; lia| by apply (low_same i' (S j'))|by apply (low_same (S i') j')].
Qed.

Lemma prefix_snoc (s p : bytes) x : (p ++ [x]) `prefix_of` s -> p `prefix_of` s /\ s !! length p = Some x.
Proof.
  intros [k ->]. split; [rewrite <- (assoc_L (++)); by eexists|].
  rewrite <- (assoc_L (++)). by apply list_lookup_middle.
Qed.

Lemma dist_minimal a' b' n : align a' b' n -> a' `prefix_of` a -> b' `prefix_of` b ->
  (dist (length a') (length b') <= n)%N.
Proof.
  assert (forall i j, dist (S i) (S j) <= min3 (dist i (S j) + 1) (dist (S i) j + 1) (dist i j + neq_cost i j))%N
    as Hs by (intros; rewrite dist_S; apply dist_step_le). unfold min3 in Hs.
  assert (forall i j, neq_cost i j <= 1)%N as Hc by (intros; unfold neq_cost; case_decide; lia).
  induction 1 as [|a' b' n x H IH|a' b' n y H IH|a' b' n x y H IH Hxy|a' b' n x y H IH|a' b' n x y x' y' H IH Hx Hy];
    intros Ha Hb; [done|..];
    try apply prefix_snoc in Ha as [Ha Hla]; try apply prefix_snoc in Hb as [Hb Hlb].
  - rewrite length_app, Nat.add_1_r. pose proof (dist_down (length a') (length b')). specialize (IH Ha Hb). lia.
  - rewrite length_app, Nat.add_1_r. specialize (IH Ha Hb). destruct (length a') as [|i] eqn:E.
    + simpl in *. lia.
    + specialize (Hs i (length b')). lia.
  - rewrite !length_app, !Nat.add_1_r. specialize (IH Ha Hb). specialize (Hs (length a') (length b')).
    assert (neq_cost (length a') (length b') = 0%N) as E; [|lia].
    unfold neq_cost. rewrite decide_True; [done|]. by apply (low_same _ _ x y).
  - rewrite !length_app, !Nat.add_1_r. specialize (IH Ha Hb). specialize (Hs (length a') (length b')).
    specialize (Hc (length a') (length b')). lia.
  - apply prefix_snoc in Ha as [Ha Hla']. apply prefix_snoc in Hb as [Hb Hlb'].
    rewrite !length_app, !Nat.add_1_r in *. specialize (IH Ha Hb).
    etrans; [apply dist_swap|lia]. unfold swapped. rewrite andb_true_iff, !bool_decide_eq_true.
    split; [by apply (low_same _ _ y y')|by apply (low_same _ _ x x')].
Qed.

(** * The rows the program computes *)

(** The invariant of a finished row: its cells are the recurrence's. *)
Definition row_is (i : nat) (v : list N) : Prop :=
  length v = S (length b) /\ forall j, j <= length b -> cell v j = dist i j.

Context (Hfit : (N.of_nat (length a + length b) + 1 < two32)%N).

Lemma uadd_dist i j n : i <= length a -> j <= length b -> (n <= 1)%N -> uadd (dist i j) n = (dist i j + n)%N.
Proof. intros Hi Hj Hn. apply u32_small. pose proof (dist_le i j). lia. Qed.

Lemma neq_cost_le i j : (neq_cost i j <= 1)%N.
Proof. unfold neq_cost. case_decide; lia. Qed.

(** One cell, when the row above is finished and the row being written is right up to it. *)
Lemma typo_cell_ok prev2 prev cur i j : S i <= length a -> S j <= length b ->
  row_is i prev -> (forall i', i = S i' -> row_is i' prev2) -> cell cur j = dist (S i) j ->
  typo_cell a b prev2 prev cur (S i) (S j) = dist (S i) (S j).
Proof.
  intros Hi Hj [_ Hp] Hp2 Hc. unfold typo_cell. rewrite dist_S. unfold dist_step.
  replace (S i - 1) with i by lia. replace (S j - 1) with j by lia.
  fold (neq_cost i j). pose proof (neq_cost_le i j). rewrite Hc, !Hp by lia. rewrite !uadd_dist by lia.
  destruct i as [|i]; [done|]. destruct j as [|j]; [done|].
  rewrite !(bool_decide_eq_true_2 (1 < S (S _))) by lia. simpl (true && _).
  replace (S (S i) - 2) with i by lia. replace (S (S j) - 2) with j by lia.
  destruct (Hp2 i eq_refl) as [_ Hp2']. rewrite (Hp2' j) by lia. rewrite uadd_dist by lia. reflexivity.
Qed.

Lemma cell_insert v j j' d : j' < length v -> cell (<[j' := d]> v) j = if decide (j = j') then d else cell v j.
Proof.
  intros Hl. unfold cell. case_decide as E; [subst; by rewrite list_lookup_insert_eq|].
  by rewrite list_lookup_insert_ne.
Qed.

(** The inner loop after [k] iterations: the cells up to [k] are right and [rowMin] is the
    least of them. *)
Definition row_upto (i k : nat) (s : list N * N) : Prop :=
  length s.1 = S (length b) /\ (forall j, j <= k -> cell s.1 j = dist i j /\ (s.2 <= dist i j)%N) /\
  exists j, j <= k /\ s.2 = dist i j.

Lemma typo_row_ok prev2 prev i cur0 : S i <= length a -> length cur0 = S (length b) ->
  row_is i prev -> (forall i', i = S i' -> row_is i' prev2) ->
  row_upto (S i) (length b) (typo_row a b prev2 prev (S i) cur0).
Proof.
  intros Hi Hl Hp Hp2. unfold typo_row.
  assert (forall k, k <= length b -> row_upto (S i) k
    (foldl (fun '(cur, rowMin) j => let d := typo_cell a b prev2 prev cur (S i) j in (<[j := d]> cur, N.min rowMin d))
      (<[0 := u32 (N.of_nat (S i))]> cur0, u32 (N.of_nat (S i))) (seq 1 k))) as H; [|by apply H].
  induction k as [|k IH]; intros Hk.
  - rewrite u32_small by lia. split; [cbn; by rewrite length_insert|]. split.
    + intros j Hj. replace j with 0 by lia. cbn [fst snd foldl seq]. rewrite cell_insert by lia. rewrite dist_0_r. done.
    + exists 0. by rewrite dist_0_r.
  - rewrite seq_S, foldl_app. destruct (IH ltac:(lia)) as (Hlen & Hcells & (j0 & Hj0 & Hmin)).
    destruct (foldl _ _ (seq 1 k)) as [cur rowMin]. cbn [fst snd] in *. cbn [foldl Nat.add].
    rewrite (typo_cell_ok prev2 prev cur i k) by (first [done|lia|by apply Hcells]).
    split; cbn [fst snd]; [by rewrite length_insert|]. split.
    + intros j Hj. rewrite cell_insert by lia. case_decide as E; [subst; split; [done|lia]|].
      destruct (Hcells j ltac:(lia)) as [-> ?]. split; [done|lia].
    + destruct (N.min_spec rowMin (dist (S i) (S k))) as [[_ ->]|[_ ->]]; [exists j0; split; [lia|done]|exists (S k); done].
Qed.

(** The outer loop, from a state where the last two rows are finished. *)
Lemma typo_rows_ok bound k : forall i prev2 prev cur, i + k = length a ->
  row_is i prev -> (forall i', i = S i' -> row_is i' prev2) -> length prev2 = S (length b) -> length cur = S (length b) ->
  typo_rows a b bound (seq (S i) k) prev2 prev cur = dist (length a) (length b) \/
  (bound < dist (length a) (length b) /\ bound < typo_rows a b bound (seq (S i) k) prev2 prev cur)%N.
Proof.
  induction k as [|k IH]; intros i prev2 prev cur Hik Hp Hp2 Hl2 Hlc; cbn [seq typo_rows].
  { left. replace (length a) with i by lia. by apply Hp. }
  destruct (typo_row_ok prev2 prev i cur ltac:(lia) Hlc Hp Hp2) as (Hlen & Hcells & (j0 & Hj0 & Hmin)).
  destruct (typo_row a b prev2 prev (S i) cur) as [cur' rowMin]. cbn [fst snd] in *.
  destruct (N.ltb_spec bound rowMin) as [Hlt|Hge].
  - right. split.
    + apply (row_above bound (S i)); [|lia|lia]. intros j Hj. destruct (Hcells j Hj). lia.
    + unfold uadd. pose proof (dist_le (S i) j0). rewrite u32_small by lia. lia.
  - apply IH; [lia| |by intros i' [= <-]|apply Hp|done]. split; [done|]. intros j Hj. by apply Hcells.
Qed.

Lemma typoDistance_dist bound :
  typoDistance a b bound = dist (length a) (length b) \/
  (bound < dist (length a) (length b) /\ bound < typoDistance a b bound)%N.
Proof.
  unfold typoDistance. apply typo_rows_ok; [lia| |done|by rewrite length_replicate|by rewrite length_replicate].
  split; [by rewrite length_fmap, length_seq|]. intros j Hj. unfold cell.
  rewrite list_lookup_fmap, lookup_seq_lt by lia. cbn. apply u32_small. lia.
Qed.
End Recurrence.

Lemma align_le a b n : align a b n -> (dist a b (length a) (length b) <= n)%N.
Proof. intros H. by apply dist_minimal. Qed.

Lemma align_dist a b : align a b (dist a b (length a) (length b)).
Proof.
  pose proof (dist_attained a b (length a) (length b) ltac:(lia) ltac:(lia)) as H. by rewrite !firstn_all in H.
Qed.

Lemma typo_within a b bound : (N.of_nat (length a + length b) + 1 < two32)%N ->
  (typoDistance a b bound <= bound)%N <-> exists n, align a b n /\ (n <= bound)%N.
Proof.
  intros Hfit. destruct (typoDistance_dist a b Hfit bound) as [->|[H1 H2]].
  - split; [intros H; exists (dist a b (length a) (length b)); split; [apply align_dist|done]|].
    intros (n & H%align_le & Hn). lia.
  - split; [lia|]. intros (n & H%align_le & Hn). lia.
Qed.

(** An edit changes the length by one at most. *)
Lemma align_length a b n : align a b n ->
  (N.of_nat (length a) <= N.of_nat (length b) + n /\ N.of_nat (length b) <= N.of_nat (length a) + n)%N.
Proof. induction 1; rewrite ?length_app; cbn [length] in *; lia. Qed.

(** C38. The distance is exact up to the bound and above the bound otherwise: a result within
    the bound is the cost of some alignment, and no alignment within the bound is cheaper
    than the result.  The early exit and the reuse of the three row buffers change nothing. *)
Theorem typo_distance_optimal a b bound :
  (N.of_nat (length a + length b) + 1 < two32)%N ->
  ((typoDistance a b bound <= bound)%N -> align a b (typoDistance a b bound)) /\
  (forall n, align a b n -> (n <= bound)%N -> (typoDistance a b bound <= n)%N).
Proof.
  intros Hfit. destruct (typoDistance_dist a b Hfit bound) as [->|[H1 H2]].
  - split; [intros _; apply align_dist|]. intros n H _. by apply align_le.
  - split; [lia|]. intros n H%align_le. lia.
Qed.
End Distance.

Definition ascii_lower (c : Byte.byte) : Byte.byte :=
  let n := Byte.to_N c in
  if ((65 <=? n) && (n <=? 90))%N then default c (Byte.of_N (n + 32)) else c.

Lemma typo_distance_optimal_witness :
  typoDistance ascii_lower (str "MIAN") (str "main") 2 = 1%N /\
  align ascii_lower (str "MIAN") (str "main") 1.
Proof.
  split; [vm_compute; reflexivity|].
  exact (proj1 (typo_distance_optimal ascii_lower (str "MIAN") (str "main") 2 ltac:(vm_compute; reflexivity))
    ltac:(vm_compute; discriminate)).
Defined.
