(* ===== verification/Results.v ===== *)
(** The results of the query tools (src/query/Registry.cpp, include/vycor/query/Tools.h):
    JSON payloads, their status, the error payloads and the envelope every adapter
    stamps on them. *)

From S2P Require Import Prelude Utf8 CallGraph Ordering Query.
From stdpp Require Import pretty.

(** * JSON values

    A [llvm::json::Object] is a map from keys to values; it is kept here as the list of
    its members in key order, the order it is written out in. *)

Inductive json :=
| JNull
| JBool (b : bool)
| JInt (z : Z)
| JStr (s : bytes)
| JArr (l : list json)
| JObj (o : list (bytes * json)).

Abbreviation object := (list (bytes * json)).

(** [obj\[k\] = v]. *)
Fixpoint obj_set (k : bytes) (v : json) (o : object) : object :=
  match o with
  | [] => [(k, v)]
  | (k', v') :: o' =>
      match bytes_cmp k k' with
      | Lt => (k, v) :: o
      | Eq => (k, v) :: o'
      | Gt => (k', v') :: obj_set k v o'
      end
  end.

(** [obj.get(k)]. *)
Fixpoint obj_get (k : bytes) (o : object) : option json :=
  match o with
  | [] => None
  | (k', v) :: o' => if decide (k = k') then Some v else obj_get k o'
  end.

Definition obj_string (k : bytes) (o : object) : option bytes :=
  match obj_get k o with Some (JStr s) => Some s | _ => None end.

Definition obj_boolean (k : bytes) (o : object) : option bool :=
  match obj_get k o with Some (JBool b) => Some b | _ => None end.

(** [value.getAsObject()]. *)
Definition as_object (v : json) : option object := match v with JObj o => Some o | _ => None end.

(** An object built member by member. *)
Definition obj_of (l : object) : object := foldl (fun o kv => obj_set kv.1 kv.2 o) [] l.

(** [std::to_string] of an unsigned number. *)
Definition to_string (n : N) : bytes := str (pretty n).

Lemma obj_get_set k k' v o : obj_get k (obj_set k' v o) = if decide (k = k') then Some v else obj_get k o.
Proof.
  induction o as [|[k1 v1] o IH]; cbn [obj_set obj_get]; [by case_decide|].
  destruct (bytes_cmp k' k1) eqn:E; cbn [obj_get].
  - apply bytes_cmp_eq in E as ->. by repeat case_decide.
  - by repeat case_decide.
  - rewrite IH. repeat case_decide; subst; try done. by rewrite bytes_cmp_refl in E.
Qed.

(** Writing a member twice, and writing two members in either order. *)
Definition obj_ordered (o : object) : Prop := StronglySorted (fun a b => bytes_cmp a.1 b.1 = Lt) o.

Lemma obj_set_keys k v o x : x ∈ (obj_set k v o).*1 -> x = k \/ x ∈ o.*1.
Proof.
  induction o as [|[k1 v1] o IH]; cbn [obj_set]; [by intros ?%list_elem_of_singleton; left|].
  destruct (bytes_cmp k k1); cbn [fmap list_fmap fst]; rewrite ?elem_of_cons; naive_solver.
Qed.

Lemma obj_set_ordered k v o : obj_ordered o -> obj_ordered (obj_set k v o).
Proof.
  intros Ho. induction Ho as [|[k1 v1] o Hs IH Hall]; cbn [obj_set]; [repeat constructor|].
  destruct (bytes_cmp k k1) eqn:E.
  - apply bytes_cmp_eq in E as ->. by constructor.
  - constructor; [by constructor|]. constructor; [done|]. apply Forall_forall. intros [k2 v2] Hin.
    rewrite Forall_forall in Hall. apply (bytes_cmp_lt_trans _ k1); [done|]. by apply (Hall (k2, v2)).
  - constructor; [done|]. apply Forall_forall. intros [k2 v2] Hin. cbn [fst].
    destruct (obj_set_keys k v o k2) as [->|Hin2].
    + apply list_elem_of_fmap. by exists (k2, v2).
    + by rewrite (bytes_cmp_antisym k k1), E.
    + apply list_elem_of_fmap in Hin2 as ([k3 v3] & -> & Hin3). rewrite Forall_forall in Hall. by apply (Hall (k3, v3)).
Qed.

Lemma obj_of_ordered l : obj_ordered (obj_of l).
Proof.
  unfold obj_of. assert (obj_ordered []) as H by constructor. revert H. generalize (@nil (bytes * json)).
  induction l as [|[k v] l IH]; intros o Ho; [done|]. cbn. by apply IH, obj_set_ordered.
Qed.

Lemma obj_get_lt k o : Forall (fun b => bytes_cmp k b.1 = Lt) o -> obj_get k o = None.
Proof.
  induction 1 as [|[k1 v1] o H1 H IH]; [done|]. cbn in *. rewrite decide_False; [done|].
  intros ->. by rewrite bytes_cmp_refl in H1.
Qed.

(** Ordered objects with the same members are the same. *)
Lemma obj_ext o o' : obj_ordered o -> obj_ordered o' -> (forall k, obj_get k o = obj_get k o') -> o = o'.
Proof.
  intros Ho. revert o'. induction Ho as [|[k v] o Hs IH Hall]; intros o' Ho' E.
  - destruct o' as [|[k' v'] o']; [done|]. specialize (E k'). cbn in E. by rewrite decide_True in E.
  - destruct Ho' as [|[k' v'] o' Hs' Hall']; [specialize (E k); cbn in E; by rewrite decide_True in E|].
    assert (k = k') as <-.
    { apply bytes_cmp_eq. destruct (bytes_cmp k k') eqn:Ec; [done| |].
      - specialize (E k). cbn in E. rewrite decide_True in E by done. rewrite decide_False in E.
        + rewrite obj_get_lt in E; [done|]. eapply Forall_impl; [exact Hall'|]. intros [k2 v2]. by apply bytes_cmp_lt_trans.
        + intros ->. by rewrite bytes_cmp_refl in Ec.
      - assert (bytes_cmp k' k = Lt) as Ec' by (by rewrite (bytes_cmp_antisym k k'), Ec).
        specialize (E k'). cbn in E. rewrite (decide_True (P := k' = k')) in E by done. rewrite decide_False in E.
        + rewrite obj_get_lt in E; [done|]. eapply Forall_impl; [exact Hall|]. intros [k2 v2]. by apply bytes_cmp_lt_trans.
        + intros ->. by rewrite bytes_cmp_refl in Ec. }
    assert (v = v') as <- by (specialize (E k); cbn in E; rewrite !decide_True in E by done; congruence).
    f_equal. apply IH; [done|]. intros k2. specialize (E k2). cbn in E. case_decide; [|done]. subst.
    by rewrite !obj_get_lt.
Qed.

(** * Statuses *)

Module Status.

Inductive ResultStatus := Ok | Ambiguous | UsageError | NotFound | Unavailable.

#[global] Instance ResultStatus_eq_dec : EqDecision ResultStatus.
Proof. solve_decision. Defined.

Definition resultStatusName (status : ResultStatus) : bytes :=
  match status with
  | Ok => str "ok"
  | Ambiguous => str "ambiguous"
  | UsageError => str "usage_error"
  | NotFound => str "not_found"
  | Unavailable => str "unavailable"
  end.

(** The loop over the statuses: the first whose name it is. *)
Definition parseResultStatus (name : bytes) : option ResultStatus :=
  List.find (fun s => bool_decide (name = resultStatusName s)) [Ok; Ambiguous; UsageError; NotFound; Unavailable].

Definition isErrorStatus (status : ResultStatus) : bool :=
  bool_decide (status = UsageError) || bool_decide (status = NotFound) || bool_decide (status = Unavailable).

Definition errorMessage (result : json) : option bytes :=
  match as_object result with None => None | Some obj => obj_string (str "error") obj end.

Definition isErrorResult (result : json) : bool :=
  match errorMessage result with Some _ => true | None => false end.

Definition isAmbiguousResult (result : json) : bool :=
  match as_object result with
  | None => false
  | Some obj => match obj_boolean (str "ambiguous") obj with Some b => b | None => false end
  end.

Definition statusOf (result : json) : ResultStatus :=
  match as_object result with
  | None => Ok
  | Some obj =>
      match obj_string (str "status") obj ≫= parseResultStatus with
      | Some parsed => parsed
      | None =>
          match obj_get (str "error") obj with
          | Some _ => NotFound
          | None => if isAmbiguousResult result then Ambiguous else Ok
          end
      end
  end.

Section Errors.
(** [llvm::json::isUTF8], as in Utf8.v. *)
Variable isValidUtf8 : bytes -> bool.

(** The assertion is the precondition: [kind] is an error status. *)
Definition errorResult (kind : ResultStatus) (message : bytes) : json :=
  JObj (obj_of [(str "error", JStr (lookupText isValidUtf8 message));
                (str "status", JStr (resultStatusName kind))]).

Definition usageError (message : bytes) : json := errorResult UsageError message.
Definition notFoundError (message : bytes) : json := errorResult NotFound message.
Definition unavailableError (message : bytes) : json := errorResult Unavailable message.
End Errors.

(** ** The envelope *)

Inductive IndexFreshness := FreshUnknown | Unchecked | Baked.

Definition freshnessName (f : IndexFreshness) : bytes :=
  match f with FreshUnknown => str "unknown" | Unchecked => str "unchecked" | Baked => str "baked" end.

Record IndexCoverage := MkCoverage { requested : N; indexed : N; partial : N; failed : N }.

Definition coverage_complete (c : IndexCoverage) : bool := (requested c =? indexed c)%N.

Record IndexFacts := MkIndexFacts {
  coverage : IndexCoverage;
  bake : bytes;
  freshness : IndexFreshness;
  channelsIndexed : bool
}.

Definition stated (f : IndexFacts) : bool :=
  match freshness f with FreshUnknown => false | _ => true end.

Definition coversRequested (f : IndexFacts) : bool := stated f && coverage_complete (coverage f).

Definition index_scope (f : IndexFacts) : object :=
  let cov := coverage f in
  let scope := match bake f with [] => [] | _ => [(str "bake", JStr (bake f))] end in
  foldl (fun o kv => obj_set kv.1 kv.2 o) scope
    [(str "freshness", JStr (freshnessName (freshness f)));
     (str "requested", JInt (int64_of_size (requested cov)));
     (str "indexed", JInt (int64_of_size (indexed cov)));
     (str "partial", JInt (int64_of_size (partial cov)));
     (str "failed", JInt (int64_of_size (failed cov)));
     (str "complete", JBool (coverage_complete cov))].

Definition completeResult (payload : json) (f : IndexFacts) : json :=
  match payload with
  | JObj obj =>
      let obj1 := obj_set (str "status") (JStr (resultStatusName (statusOf payload))) obj in
      JObj (obj_set (str "indexScope") (JObj (index_scope f)) obj1)
  | _ => payload
  end.

Lemma parse_name s : parseResultStatus (resultStatusName s) = Some s.
Proof. by destruct s. Qed.

Lemma parse_name_inv n s : parseResultStatus n = Some s -> n = resultStatusName s.
Proof. unfold parseResultStatus. intros [_ H]%find_some. by apply bool_decide_eq_true in H. Qed.

Lemma complete_status obj f : obj_get (str "status") (obj_set (str "indexScope") (JObj (index_scope f))
  (obj_set (str "status") (JStr (resultStatusName (statusOf (JObj obj)))) obj)) =
  Some (JStr (resultStatusName (statusOf (JObj obj)))).
Proof. rewrite !obj_get_set. by rewrite decide_False, decide_True. Qed.

Lemma statusOf_complete obj f : statusOf (completeResult (JObj obj) f) = statusOf (JObj obj).
Proof.
  cbn [completeResult]. unfold statusOf at 1, obj_string. cbn [as_object]. rewrite complete_status.
  cbn [mbind option_bind]. by rewrite parse_name.
Qed.
End Status.
Export Status.

(** The envelope keeps the status of the payload and writes it as the member [status],
    leaves every member but [status] and [indexScope] alone, is idempotent, and returns
    anything but an object untouched. *)
Theorem envelope_contract (payload : json) (f : IndexFacts) :
  (forall obj, payload = JObj obj -> obj_ordered obj) ->
  statusOf (completeResult payload f) = statusOf payload /\
  completeResult (completeResult payload f) f = completeResult payload f /\
  match payload with
  | JObj obj => exists out, completeResult payload f = JObj out /\
      obj_get (str "status") out = Some (JStr (resultStatusName (statusOf payload))) /\
      obj_get (str "indexScope") out = Some (JObj (index_scope f)) /\
      forall k, k <> str "status" -> k <> str "indexScope" -> obj_get k out = obj_get k obj
  | _ => completeResult payload f = payload
  end.
Proof.
  intros Ho. destruct payload as [| | | | |obj]; try done. specialize (Ho _ eq_refl).
  split; [apply statusOf_complete|]. split.
  - pose proof (statusOf_complete obj f) as Hs. cbn [completeResult] in *. rewrite Hs. f_equal.
    apply obj_ext; [by repeat apply obj_set_ordered..|]. intros k. rewrite !obj_get_set. by repeat case_decide.
  - eexists. split; [done|]. split; [apply complete_status|]. split.
    + rewrite obj_get_set. by rewrite decide_True.
    + intros k H1 H2. rewrite !obj_get_set. by rewrite !decide_False.
Qed.

Lemma envelope_contract_witness :
  let f := MkIndexFacts (MkCoverage 2 1 0 1) (str "e@1") Unchecked false in
  let p := notFoundError (fun _ => true) (str "gone") in
  statusOf p = NotFound /\ completeResult (completeResult p f) f = completeResult p f.
Proof.
  cbv zeta. split; [vm_compute; reflexivity|].
  apply (envelope_contract (notFoundError (fun _ => true) (str "gone"))
    (MkIndexFacts (MkCoverage 2 1 0 1) (str "e@1") Unchecked false)).
  intros obj [= <-]. apply obj_of_ordered.
Defined.

(** The status an error payload is built with is the status read back from it, the payload
    is recognised as an error and not as an ambiguity, its message is well-formed text, and
    the status names round trip. *)
Theorem error_payloads (isValidUtf8 : bytes -> bool) (Hspec : forall s, isValidUtf8 s = true <-> valid_utf8 s)
    (kind : ResultStatus) (message : bytes) :
  let result := errorResult isValidUtf8 kind message in
  statusOf result = kind /\ isErrorResult result = true /\ isAmbiguousResult result = false /\
  (exists text, errorMessage result = Some text /\ valid_utf8 text) /\
  (forall name s, parseResultStatus name = Some s <-> name = resultStatusName s).
Proof.
  cbv zeta. unfold errorResult, obj_of, statusOf, isErrorResult, isAmbiguousResult, errorMessage, obj_string, obj_boolean.
  cbn [as_object foldl fst snd]. rewrite !obj_get_set.
  do 2 (rewrite decide_True by done; rewrite ?(decide_False (P := str "error" = str "status")) by done).
  rewrite !(decide_False (P := str "ambiguous" = _)) by done. cbn [mbind option_bind obj_get]. rewrite parse_name.
  rewrite ?(decide_False (P := str "error" = str "status")) by done. rewrite ?decide_True by done.
  split_and!; try done.
  - eexists. split; [done|]. by apply lookupText_valid.
  - intros name s. split; [apply parse_name_inv|]. intros ->. apply parse_name.
Qed.

Lemma error_payloads_witness :
  errorMessage (errorResult valid_utf8b NotFound (str "no")) = Some (str "no") /\
  statusOf (errorResult valid_utf8b NotFound (str "no")) = NotFound.
Proof.
  split; [vm_compute; reflexivity|]. apply (error_payloads valid_utf8b valid_utf8b_spec NotFound (str "no")).
Defined.
