(* ===== verification/Suggest.v ===== *)
(** The ranking of function names and the suggestions for a name the index does not hold
    (src/query/Identity.cpp, lines 34-210).

    [toLower] is the case folding of the library the program uses on characters. *)

From S2P Require Import Prelude Registrations CallGraph CallGraphInv CallGraphQuery CallGraphMerge Ordering ControlFlowIndex Text TypoDistance.

(** A [const CallGraphNode *]: the entry of the node map it points at. *)
Abbreviation node_ptr := (SId * CallGraphNode)%type.

Record SearchEntry := MkEntry {
  lowerQualified : bytes;
  unqualifiedOffset : nat;
  entry_node : node_ptr
}.

(** What the handlers of this component read of a [ToolContext], and the cache slot
    ["search_index"]: no cache at all, an empty slot, or the index built earlier. *)
Record ToolContext := MkCtx {
  graph : CallGraph;
  cfIndex : ControlFlowIndex;
  cache : option (option (list SearchEntry))
}.

Definition set_cache (c : option (option (list SearchEntry))) (ctx : ToolContext) : ToolContext :=
  MkCtx (graph ctx) (cfIndex ctx) c.

Definition scope_sep : bytes := str "::".

Definition unqualifiedName (qualified : bytes) : bytes :=
  match str_rfind qualified scope_sep with None => qualified | Some sep => drop (sep + 2) qualified end.

(** The comparator of both sorts: the leading number, then length, name and usr. *)
Definition hit_less (a b : N * node_ptr) : bool :=
  let na := a.2.2 in let nb := b.2.2 in
  let la := N.of_nat (length (qualifiedName na)) in let lb := N.of_nat (length (qualifiedName nb)) in
  if negb (bool_decide (a.1 = b.1)) then (a.1 <? b.1)%N
  else if negb (bool_decide (la = lb)) then (la <? lb)%N
  else if negb (bool_decide (qualifiedName na = qualifiedName nb)) then bytes_ltb (qualifiedName na) (qualifiedName nb)
  else bytes_ltb (usr na) (usr nb).

Definition hit_le (a b : N * node_ptr) : Prop := hit_less b a = false.

#[global] Instance hit_le_dec : RelDecision hit_le.
Proof. intros a b. unfold hit_le. apply _. Defined.

Section Ranking.
Context `{UI : !UnorderedIter}.
Variable toLower : Byte.byte -> Byte.byte.

Definition lower (s : bytes) : bytes := toLower <$> s.

Definition allNodes (g : CallGraph) : list node_ptr := map_iter (nodes_ g).

Definition search_entry (node : node_ptr) : SearchEntry :=
  let qn := qualifiedName node.2 in
  MkEntry (lower qn) (match str_rfind qn scope_sep with Some sep => sep + 2 | None => 0 end) node.

Definition build_index (g : CallGraph) : list SearchEntry := search_entry <$> allNodes g.

(** The index of the cache, or a new one, stored when there is a cache. *)
Definition search_index (ctx : ToolContext) : list SearchEntry * ToolContext :=
  match cache ctx with
  | Some (Some index) => (index, ctx)
  | Some None => let built := build_index (graph ctx) in (built, set_cache (Some (Some built)) ctx)
  | None => (build_index (graph ctx), ctx)
  end.

Definition hit_of (needle : bytes) (entry : SearchEntry) : option (N * node_ptr) :=
  let lq := lowerQualified entry in
  if contains lq needle then
    let unqLower := drop (unqualifiedOffset entry) lq in
    let tier := if decide (unqLower = needle) then 0%N else if starts_with unqLower needle then 1%N else 2%N in
    Some (tier, entry_node entry)
  else None.

Definition rankFunctionMatches (ctx : ToolContext) (query : bytes) : list node_ptr * ToolContext :=
  let needle := lower query in
  let '(index, ctx') := search_index ctx in
  (snd <$> merge_sort hit_le (omap (hit_of needle) index), ctx').

(** The lambda [take]: the nodes not seen yet, up to [max]. *)
Fixpoint take_ranked (max : nat) (ranked : list node_ptr) (out : list node_ptr) (seen : gset SId)
    : list node_ptr * gset SId :=
  match ranked with
  | [] => (out, seen)
  | node :: ranked' =>
      if decide (max <= length out) then (out, seen)
      else if decide (node.1 ∈ seen) then take_ranked max ranked' out seen
      else take_ranked max ranked' (out ++ [node]) ({[node.1]} ∪ seen)
  end.

(** [std::clamp<unsigned>(tail.size() / 3, 1, 3)]. *)
Definition typo_bound (tail : bytes) : N := N.max 1 (N.min 3 (u32 (N.of_nat (length tail) / 3))).

Definition near_of (tail : bytes) (bound : N) (seen : gset SId) (node : node_ptr) : option (N * node_ptr) :=
  if decide (node.1 ∈ seen) then None
  else
    let unq := unqualifiedName (qualifiedName node.2) in
    let diff := if decide (length tail < length unq) then length unq - length tail else length tail - length unq in
    if (bound <? N.of_nat diff)%N then None
    else
      let d := typoDistance toLower tail unq bound in
      if (d <=? bound)%N then Some (d, node) else None.

Definition near_sorted (g : CallGraph) (tail : bytes) (bound : N) (seen : gset SId) : list node_ptr :=
  snd <$> merge_sort hit_le (omap (near_of tail bound seen) (allNodes g)).

Definition suggestFunctions (ctx : ToolContext) (name : bytes) (max : nat) : list node_ptr * ToolContext :=
  if bool_decide (name = []) || bool_decide (max = 0) then ([], ctx)
  else
    let '(ranked, ctx1) := rankFunctionMatches ctx name in
    let '(out1, seen1) := take_ranked max ranked [] ∅ in
    let tail := unqualifiedName name in
    let '(out2, seen2, ctx2) :=
      if bool_decide (length out1 < max) && bool_decide (length tail <> length name) && bool_decide (tail <> [])
      then let '(ranked', ctx2) := rankFunctionMatches ctx1 tail in
           let '(out2, seen2) := take_ranked max ranked' out1 seen1 in (out2, seen2, ctx2)
      else (out1, seen1, ctx1) in
    if decide (max <= length out2) then (out2, ctx2)
    else (out2 ++ take (max - length out2) (near_sorted (graph ctx) tail (typo_bound tail) seen2), ctx2).
End Ranking.

(** * The order of the hits *)

Definition hit_key (h : N * node_ptr) : N * (N * (bytes * bytes)) :=
  (h.1, (N.of_nat (length (qualifiedName h.2.2)), (qualifiedName h.2.2, usr h.2.2))).

Definition hit_cmp := lex_cmp N.compare (lex_cmp N.compare (lex_cmp bytes_cmp bytes_cmp)).

Lemma hit_less_cmp a b : hit_less a b = ltb_of (hit_cmp (hit_key a) (hit_key b)).
Proof.
  unfold hit_less, hit_cmp, lex_cmp, hit_key. simpl. rewrite !bytes_ltb_of, !N_ltb_of.
  do 3 (apply ltb_of_chain; [apply _|]). done.
Qed.

Lemma hit_le_cmp a b : hit_le a b <-> hit_cmp (hit_key a) (hit_key b) <> Gt.
Proof.
  unfold hit_le. rewrite hit_less_cmp, (tcmp_antisym (cmp := hit_cmp) (hit_key a) (hit_key b)).
  by destruct (hit_cmp _ _).
Qed.

Lemma hits_sorted l : StronglySorted hit_le (merge_sort hit_le l).
Proof. apply (sort_by_key_sorted hit_key hit_cmp hit_le hit_le_cmp). Qed.

(** Hits of nodes of one graph: the usr tells them apart. *)
Lemma hits_canonical g l k : cg_ok g ->
  (forall h, h ∈ l -> nodes_ g !! h.2.1 = Some h.2.2) -> l ≡ₚ k -> merge_sort hit_le l = merge_sort hit_le k.
Proof.
  intros Hg Hl. apply (sort_by_key_canonical hit_key hit_cmp hit_le hit_le_cmp).
  intros [t [i n]] [t' [i' n']] H1%Hl H2%Hl [= <- _ _ Hu]. simpl in *.
  pose proof (node_id _ _ _ Hg H1) as E1. pose proof (node_id _ _ _ Hg H2) as E2. congruence.
Qed.

Lemma StronglySorted_snd (f : node_ptr -> N) (l : list (N * node_ptr)) :
  Forall (fun h => h.1 = f h.2) l -> StronglySorted hit_le l ->
  StronglySorted (fun a b => hit_less (f b, b) (f a, a) = false) (snd <$> l).
Proof.
  intros Hf Hs. induction Hs as [|[t p] l Hs IH Hall]; [constructor|]. apply Forall_cons in Hf as [Ht Hf].
  simpl in Ht. subst. constructor; [by apply IH|]. apply Forall_fmap, Forall_forall. intros [t' p'] Hin.
  rewrite Forall_forall in Hf, Hall. specialize (Hf _ Hin). simpl in Hf. subst. exact (Hall _ Hin).
Qed.

Lemma unqualified_suffix qn : exists q, qn = q ++ unqualifiedName qn.
Proof.
  unfold unqualifiedName. destruct (str_rfind qn scope_sep) as [i|]; [|by exists []].
  exists (take (i + 2) qn). by rewrite take_drop.
Qed.

(** * The ranking *)

Section RankingFacts.
Variable toLower : Byte.byte -> Byte.byte.

(** The cached index, when there is one, is that of the graph. *)
Definition cache_ok (ctx : ToolContext) : Prop :=
  match cache ctx with
  | Some (Some index) => index ≡ₚ search_entry toLower <$> map_to_list (nodes_ (graph ctx))
  | _ => True
  end.

(** The place of a match: whole unqualified name, its beginning, anywhere. *)
Definition tier_of (query : bytes) (node : node_ptr) : N :=
  let unq := lower toLower (unqualifiedName (qualifiedName node.2)) in
  if decide (unq = lower toLower query) then 0 else if starts_with unq (lower toLower query) then 1 else 2.

Definition name_matches (query : bytes) (n : CallGraphNode) : bool :=
  contains (lower toLower (qualifiedName n)) (lower toLower query).

Definition ranked_nodes (g : CallGraph) (query : bytes) : list node_ptr :=
  snd <$> merge_sort hit_le (omap (hit_of (lower toLower query)) (search_entry toLower <$> map_to_list (nodes_ g))).

Lemma hit_of_entry query node :
  hit_of (lower toLower query) (search_entry toLower node) =
  if name_matches query node.2 then Some (tier_of query node, node) else None.
Proof.
  unfold hit_of, search_entry, name_matches, tier_of. cbn [lowerQualified unqualifiedOffset entry_node].
  destruct (contains _ _); [|done]. do 2 f_equal.
  replace (drop _ (lower toLower (qualifiedName node.2))) with (lower toLower (unqualifiedName (qualifiedName node.2))); [done|].
  unfold unqualifiedName, lower. destruct (str_rfind _ _); [by rewrite fmap_drop|by rewrite drop_0].
Qed.

Lemma hits_elem g query h :
  h ∈ omap (hit_of (lower toLower query)) (search_entry toLower <$> map_to_list (nodes_ g)) <->
  nodes_ g !! h.2.1 = Some h.2.2 /\ name_matches query h.2.2 = true /\ h.1 = tier_of query h.2.
Proof.
  rewrite list_elem_of_omap. split.
  - intros (e & He & Hh). apply list_elem_of_fmap in He as ([i n] & -> & Hin%elem_of_map_to_list).
    rewrite hit_of_entry in Hh. cbn [snd] in Hh. destruct (name_matches query n) eqn:E; [|done]. by injection Hh as <-.
  - destruct h as [t [i n]]. cbn. intros (Hn & Hm & ->). exists (search_entry toLower (i, n)). split.
    + apply list_elem_of_fmap. exists (i, n). split; [done|]. by apply elem_of_map_to_list.
    + rewrite hit_of_entry. cbn [snd]. by rewrite Hm.
Qed.

Lemma search_index_ok `{!UnorderedIter} ctx : cache_ok ctx ->
  let r := search_index toLower ctx in
  r.1 ≡ₚ search_entry toLower <$> map_to_list (nodes_ (graph ctx)) /\ cache_ok r.2 /\
  graph r.2 = graph ctx /\ cfIndex r.2 = cfIndex ctx.
Proof.
  unfold search_index, cache_ok. intros Hc.
  assert (build_index toLower (graph ctx) ≡ₚ search_entry toLower <$> map_to_list (nodes_ (graph ctx))) as Hb
    by (unfold build_index, allNodes; by rewrite map_iter_perm).
  destruct (cache ctx) as [[idx|]|] eqn:E; cbn; rewrite ?E; done.
Qed.

(** The order the nodes are found in, and the cache, do not matter. *)
Lemma rank_eq `{!UnorderedIter} ctx query : cg_ok (graph ctx) -> cache_ok ctx ->
  let r := rankFunctionMatches toLower ctx query in
  r.1 = ranked_nodes (graph ctx) query /\ cache_ok r.2 /\ graph r.2 = graph ctx /\ cfIndex r.2 = cfIndex ctx.
Proof.
  intros Hg Hc. unfold rankFunctionMatches. destruct (search_index_ok ctx Hc) as [Hp Hrest].
  destruct (search_index toLower ctx) as [idx ctx']. cbn [fst snd] in *. split; [|done].
  unfold ranked_nodes. f_equal. apply (hits_canonical (graph ctx) _ _ Hg).
  - intros h. rewrite Hp. intros Hh. by apply hits_elem in Hh as [? _].
  - by rewrite Hp.
Qed.

Lemma elem_of_ranked g query id n :
  (id, n) ∈ ranked_nodes g query <-> nodes_ g !! id = Some n /\ name_matches query n = true.
Proof.
  unfold ranked_nodes. rewrite list_elem_of_fmap. setoid_rewrite merge_sort_Permutation. split.
  - intros ([t p] & E & Hh%hits_elem). cbn in *. subst p. tauto.
  - intros [H1 H2]. exists (tier_of query (id, n), (id, n)). split; [done|]. by apply hits_elem.
Qed.

Lemma NoDup_omap_ids (f : node_ptr -> option (N * node_ptr)) (l : list node_ptr) :
  (forall p h, f p = Some h -> h.2 = p) -> NoDup (l.*1) -> NoDup ((snd <$> omap f l).*1).
Proof.
  intros Hf. induction l as [|p l IH]; [done|]. cbn [fmap list_fmap]. intros [Hp Hl]%NoDup_cons. cbn [omap list_omap].
  destruct (f p) as [h|] eqn:E; [|by apply IH]. cbn [fmap list_fmap]. apply NoDup_cons. split; [|by apply IH].
  rewrite (Hf _ _ E). intros Hin. apply Hp. apply list_elem_of_fmap in Hin as (q & Eq & Hq).
  apply list_elem_of_fmap in Hq as (h' & -> & Hh'). apply list_elem_of_omap in Hh' as (q & Hq & Efq).
  apply list_elem_of_fmap. exists q. rewrite (Hf _ _ Efq) in Eq. done.
Qed.

Lemma omap_fmap_comp {A B C} (f : B -> option C) (h : A -> B) (l : list A) : omap f (h <$> l) = omap (fun a => f (h a)) l.
Proof. induction l as [|a l IH]; cbn; [done|]. by rewrite IH. Qed.

Lemma ranked_NoDup g query : NoDup ((ranked_nodes g query).*1).
Proof.
  unfold ranked_nodes. rewrite merge_sort_Permutation, omap_fmap_comp.
  apply (NoDup_omap_ids (fun p => hit_of (lower toLower query) (search_entry toLower p))).
  - intros p h. rewrite hit_of_entry. destruct (name_matches _ _); [|done]. by intros [= <-].
  - apply NoDup_fst_map_to_list.
Qed.
End RankingFacts.

(** * The suggestions *)

Section SuggestFacts.
Variable toLower : Byte.byte -> Byte.byte.

Definition ids (l : list node_ptr) : gset SId := list_to_set (l.*1).

Definition not_in (seen : gset SId) (l : list node_ptr) : list node_ptr := filter (fun p => p.1 ∉ seen) l.

Lemma not_in_empty l : not_in ∅ l = l.
Proof.
  unfold not_in. induction l as [|p l IH]; [done|]. rewrite filter_cons_True by apply not_elem_of_empty. by rewrite IH.
Qed.

Lemma take_ranked_spec max ranked out seen :
  NoDup (ranked.*1) -> seen = ids out ->
  let r := take_ranked max ranked out seen in
  r.1 = out ++ take (max - length out) (not_in seen ranked) /\ r.2 = ids r.1.
Proof.
  revert out seen. induction ranked as [|p l IH]; intros out seen Hnd Hseen; cbn [take_ranked].
  - split; [|done]. unfold not_in. rewrite filter_nil, take_nil. symmetry. apply app_nil_r.
  - cbn [fmap list_fmap] in Hnd. apply NoDup_cons in Hnd as [Hp Hnd]. case_decide as Hm.
    { split; [|done]. replace (max - length out) with 0 by lia. symmetry. apply app_nil_r. }
    case_decide as Hin.
    + destruct (IH out seen Hnd Hseen) as [E1 E2]. split; [|done]. rewrite E1. unfold not_in.
      by rewrite filter_cons_False by tauto.
    + destruct (IH (out ++ [p]) ({[p.1]} ∪ seen) Hnd) as [E1 E2].
      { subst. unfold ids. rewrite fmap_app, list_to_set_app_L. cbn. set_solver. }
      split; [|done]. rewrite E1, <- (assoc_L (++)). f_equal. unfold not_in.
      rewrite filter_cons_True by done. rewrite length_app. cbn [length].
      replace (max - length out) with (S (max - (length out + 1))) by lia. cbn [take app]. do 2 f_equal.
      apply filter_ext_in. intros q Hq. rewrite not_elem_of_union, not_elem_of_singleton. split; [tauto|].
      intros H. split; [|done]. intros E. apply Hp. rewrite <- E. by apply list_elem_of_fmap_2.
Qed.

Definition near_canonical (g : CallGraph) (tail : bytes) (seen : gset SId) : list node_ptr :=
  snd <$> merge_sort hit_le (omap (near_of toLower tail (typo_bound tail) seen) (map_to_list (nodes_ g))).

Lemma near_of_node tail bound seen p h : near_of toLower tail bound seen p = Some h -> h.2 = p.
Proof. unfold near_of. case_decide; [done|]. destruct (_ <? _)%N; [done|]. destruct (_ <=? _)%N; [|done]. by intros [= <-]. Qed.

Lemma near_eq `{!UnorderedIter} g tail seen : cg_ok g ->
  near_sorted toLower g tail (typo_bound tail) seen = near_canonical g tail seen.
Proof.
  intros Hg. unfold near_sorted, near_canonical. f_equal. apply (hits_canonical g _ _ Hg).
  - intros h (p & Hp & Hh)%list_elem_of_omap. rewrite (near_of_node _ _ _ _ _ Hh).
    destruct p as [i n]. by apply elem_of_map_iter in Hp.
  - unfold allNodes. by rewrite map_iter_perm.
Qed.

(** The three sources, one after the other, without repetition. *)
Definition second_source (g : CallGraph) (name : bytes) : list node_ptr :=
  let tail := unqualifiedName name in
  if decide (length tail <> length name /\ tail <> [])
  then not_in (ids (ranked_nodes toLower g name)) (ranked_nodes toLower g tail) else [].

Definition suggestion_order (g : CallGraph) (name : bytes) : list node_ptr :=
  let first := ranked_nodes toLower g name ++ second_source g name in
  first ++ near_canonical g (unqualifiedName name) (ids first).

Lemma bool_and3 (P Q R : Prop) `{!Decision P, !Decision Q, !Decision R} :
  bool_decide P && bool_decide Q && bool_decide R = bool_decide (P /\ Q /\ R).
Proof. repeat case_bool_decide; tauto. Qed.

Lemma take_split {A} (l k : list A) n : take n (l ++ k) = take n l ++ take (n - length l) k.
Proof. apply take_app. Qed.

Lemma take_over {A} (l k : list A) n : n <= length (take n l) -> take n (l ++ k) = take n l.
Proof. intros H. rewrite length_take in H. rewrite take_app_le; [done|lia]. Qed.

Lemma take_under {A} (l : list A) n : length (take n l) < n -> take n l = l.
Proof. intros H. rewrite length_take in H. apply take_ge. lia. Qed.

Lemma second_out (g : CallGraph) (name : bytes) (max : nat) (out1 : list node_ptr) :
  out1 = take max (ranked_nodes toLower g name) -> length out1 < max ->
  out1 ++ take (max - length out1) (second_source g name) = take max (ranked_nodes toLower g name ++ second_source g name).
Proof. intros -> Hlt. rewrite (take_under _ _ Hlt), take_split. f_equal. symmetry. apply take_ge. rewrite <- (take_under _ _ Hlt). lia. Qed.

Lemma suggest_eq `{!UnorderedIter} ctx name max : cg_ok (graph ctx) -> cache_ok toLower ctx -> name <> [] ->
  (suggestFunctions toLower ctx name max).1 = take max (suggestion_order (graph ctx) name) /\
  cache_ok toLower (suggestFunctions toLower ctx name max).2 /\
  graph (suggestFunctions toLower ctx name max).2 = graph ctx.
Proof.
  intros Hg Hc Hne. unfold suggestFunctions. rewrite (bool_decide_eq_false_2 (name = [])) by done. cbn [orb].
  case_bool_decide as Hm; [by subst max|].
  destruct (rank_eq toLower ctx name Hg Hc) as (E1 & Hc1 & Hg1 & _).
  destruct (rankFunctionMatches toLower ctx name) as [r1 ctx1]. cbn [fst snd] in *. subst r1.
  destruct (take_ranked_spec max (ranked_nodes toLower (graph ctx) name) [] ∅ (ranked_NoDup _ _ _) eq_refl) as [T1 S1].
  destruct (take_ranked _ _ _ _) as [out1 seen1]. cbn [fst snd length app] in *.
  rewrite Nat.sub_0_r in T1. rewrite not_in_empty in T1.
  set (A := ranked_nodes toLower (graph ctx) name) in *. set (tail := unqualifiedName name).
  assert (forall st : list node_ptr * gset SId * ToolContext,
    st.1.1 = take max (A ++ second_source (graph ctx) name) -> st.1.2 = ids st.1.1 ->
    cache_ok toLower st.2 -> graph st.2 = graph ctx ->
    let r := (let '(out2, seen2, ctx2) := st in
      if decide (max <= length out2) then (out2, ctx2)
      else (out2 ++ take (max - length out2) (near_sorted toLower (graph ctx) tail (typo_bound tail) seen2), ctx2)) in
    r.1 = take max (suggestion_order (graph ctx) name) /\ cache_ok toLower r.2 /\ graph r.2 = graph ctx) as Hlast.
  { intros [[out2 seen2] ctx2]. cbn [fst snd]. intros E2 Es Hc2 Hg2. unfold suggestion_order. cbv zeta. fold A.
    set (F := A ++ second_source (graph ctx) name) in *. case_decide as Hmo; cbn [fst snd].
    - split; [|done]. rewrite E2 in Hmo |- *. symmetry. by apply take_over.
    - split; [|done]. rewrite near_eq by done. assert (out2 = F) as -> by (rewrite E2; apply take_under; rewrite <- E2; lia).
      rewrite Es, take_split. f_equal. symmetry. apply take_ge. lia. }
  rewrite bool_and3. case_bool_decide as Hc2; [|apply (Hlast (out1, seen1, ctx1)); try done].
  - destruct Hc2 as (Hlt & H2 & H3).
    destruct (rank_eq toLower ctx1 tail ltac:(by rewrite Hg1) Hc1) as (E2 & Hc2 & Hg2 & _).
    destruct (rankFunctionMatches toLower ctx1 tail) as [r2 ctx2]. cbn [fst snd] in *. subst r2.
    destruct (take_ranked_spec max (ranked_nodes toLower (graph ctx1) tail) out1 seen1 (ranked_NoDup _ _ _) S1) as [T2 S2].
    destruct (take_ranked _ _ out1 seen1) as [out2 seen2]. cbn [fst snd] in *.
    apply (Hlast (out2, seen2, ctx2)); cbn [fst snd]; [|done|done|congruence].
    rewrite T2. etrans; [|apply (second_out _ _ _ out1 T1 Hlt)]. do 2 f_equal. unfold second_source. fold tail A.
    rewrite decide_True by done. rewrite Hg1, S1. f_equal. f_equal. rewrite T1. apply take_under. by rewrite <- T1.
  - cbn [fst snd]. rewrite T1. destruct (decide (length (take max A) < max)) as [Hlt|Hge].
    + assert (second_source (graph ctx) name = []) as ->; [|by rewrite app_nil_r].
      unfold second_source. fold tail. rewrite decide_False; [done|]. intros [H1 H2]. apply Hc2. split; [by rewrite T1|done].
    + symmetry. apply take_over. lia.
Qed.

(** The unqualified names within the bound of a tail. *)
Definition near_name (tail : bytes) (n : CallGraphNode) : Prop :=
  exists k, align toLower tail (unqualifiedName (qualifiedName n)) k /\ (k <= typo_bound tail)%N.

Lemma unqualified_length qn : length (unqualifiedName qn) <= length qn.
Proof. destruct (unqualified_suffix qn) as [q E]. rewrite E at 2. rewrite length_app. lia. Qed.

Definition names_fit (g : CallGraph) (name : bytes) : Prop :=
  forall id n, nodes_ g !! id = Some n -> (N.of_nat (length name + length (qualifiedName n)) + 1 < two32)%N.

Lemma near_of_spec g name seen id n : names_fit g name -> nodes_ g !! id = Some n ->
  let tail := unqualifiedName name in
  (exists d, near_of toLower tail (typo_bound tail) seen (id, n) = Some (d, (id, n))) <-> (id ∉ seen) /\ near_name tail n.
Proof.
  intros Hfit Hn tail. specialize (Hfit id n Hn). pose proof (unqualified_length name) as L1. fold tail in L1.
  pose proof (unqualified_length (qualifiedName n)) as L2. unfold near_name, near_of. cbn [fst snd].
  rewrite <- (typo_within toLower) by lia. case_decide as Hs; [split; [by intros [??]|tauto]|].
  destruct (N.ltb_spec (typo_bound tail) (N.of_nat (if decide (length tail < length (unqualifiedName (qualifiedName n)))
    then length (unqualifiedName (qualifiedName n)) - length tail else length tail - length (unqualifiedName (qualifiedName n))))) as [Hd|Hd].
  - split; [by intros [??]|]. intros [_ Hw]. apply typo_within in Hw as (k & Hk%align_length & ?); [|lia].
    exfalso. case_decide; lia.
  - destruct (N.leb_spec (typoDistance toLower tail (unqualifiedName (qualifiedName n)) (typo_bound tail)) (typo_bound tail)).
    + split; [done|]. intros _. by eexists.
    + split; [by intros [??]|]. intros [_ ?]. lia.
Qed.

Lemma elem_of_near g name seen id n : names_fit g name ->
  (id, n) ∈ near_canonical g (unqualifiedName name) seen <->
  nodes_ g !! id = Some n /\ (id ∉ seen) /\ near_name (unqualifiedName name) n.
Proof.
  intros Hfit. unfold near_canonical. rewrite list_elem_of_fmap. setoid_rewrite merge_sort_Permutation. split.
  - intros ([d p] & E0 & Hh). cbn [snd] in E0. subst p. apply list_elem_of_omap in Hh as ([i m] & Hin%elem_of_map_to_list & Hh).
    pose proof (near_of_node _ _ _ _ _ Hh) as E. cbn [snd] in E. injection E as -> ->. split; [done|].
    apply (near_of_spec g name); [done|done|]. by exists d.
  - intros (Hn & Hr). apply (near_of_spec g name seen id n Hfit Hn) in Hr as [d Hd].
    exists (d, (id, n)). split; [done|]. apply list_elem_of_omap. exists (id, n). split; [by apply elem_of_map_to_list|done].
Qed.

Lemma near_NoDup g tail seen : NoDup ((near_canonical g tail seen).*1).
Proof.
  unfold near_canonical. rewrite merge_sort_Permutation. apply NoDup_omap_ids; [apply near_of_node|apply NoDup_fst_map_to_list].
Qed.

Lemma elem_of_ids p l : p ∈ l -> p.1 ∈ ids l.
Proof. intros H. unfold ids. rewrite elem_of_list_to_set. by apply list_elem_of_fmap_2. Qed.

(** A function a caller may have meant: its name contains what was typed or its
    unqualified tail, or its unqualified name is a few edits from that tail. *)
Definition plausible (name : bytes) (n : CallGraphNode) : Prop :=
  name_matches toLower name n = true \/
  (unqualifiedName name <> [] /\ name_matches toLower (unqualifiedName name) n = true) \/
  near_name (unqualifiedName name) n.

Lemma unqualified_same name : length (unqualifiedName name) = length name -> unqualifiedName name = name.
Proof.
  destruct (unqualified_suffix name) as [q E]. intros H. rewrite E in H at 2. rewrite length_app in H.
  destruct q; [done|cbn in H; lia].
Qed.

Lemma elem_of_second g name id n :
  (id, n) ∈ second_source g name <->
  nodes_ g !! id = Some n /\ (id ∉ ids (ranked_nodes toLower g name)) /\
  length (unqualifiedName name) <> length name /\ unqualifiedName name <> [] /\
  name_matches toLower (unqualifiedName name) n = true.
Proof.
  unfold second_source. cbv zeta. case_decide as Hd.
  - unfold not_in. rewrite list_elem_of_filter, elem_of_ranked. cbn. tauto.
  - split; [by intros ?%elem_of_nil|tauto].
Qed.

Lemma ids_node g l id n : (forall i m, (i, m) ∈ l -> nodes_ g !! i = Some m) -> nodes_ g !! id = Some n ->
  id ∈ ids l -> (id, n) ∈ l.
Proof.
  intros Hl Hn Hin. unfold ids in Hin. apply elem_of_list_to_set, list_elem_of_fmap in Hin as ([i m] & -> & Hin).
  cbn in Hn. pose proof (Hl _ _ Hin). by simplify_eq.
Qed.

Lemma elem_of_suggestions g name id n : names_fit g name ->
  (id, n) ∈ suggestion_order g name <-> nodes_ g !! id = Some n /\ plausible name n.
Proof.
  intros Hfit. unfold suggestion_order, plausible. cbv zeta. rewrite elem_of_app, elem_of_near by done.
  set (F := ranked_nodes toLower g name ++ second_source g name).
  assert (forall i m, (i, m) ∈ F -> nodes_ g !! i = Some m /\ (name_matches toLower name m = true \/
    (unqualifiedName name <> [] /\ name_matches toLower (unqualifiedName name) m = true))) as HF.
  { intros i m. unfold F. rewrite elem_of_app, elem_of_ranked, elem_of_second. tauto. }
  split.
  - intros [H%HF|H]; tauto.
  - intros [Hn Hp]. destruct (decide (id ∈ ids F)) as [Hin|Hin].
    { left. apply (ids_node g); [|done|done]. intros i m H%HF. tauto. }
    destruct Hp as [Hp|[[Ht Hp]|Hp]]; [exfalso; apply Hin|exfalso; apply Hin|tauto]; apply (elem_of_ids (id, n)); unfold F;
      rewrite elem_of_app, elem_of_ranked, ?elem_of_second; [by left|].
    destruct (decide (length (unqualifiedName name) = length name)) as [E|E].
    { left. split; [done|]. by rewrite (unqualified_same _ E) in Hp. }
    destruct (decide (id ∈ ids (ranked_nodes toLower g name))) as [H'|H']; [|tauto]. left.
    split; [done|]. apply (ids_node g _ id n) in H'; [by apply elem_of_ranked in H' as [_ ?]| |done].
    intros i m H. by apply elem_of_ranked in H as [? _].
Qed.

Lemma suggestions_NoDup g name : NoDup (suggestion_order g name).
Proof.
  assert (forall l : list node_ptr, NoDup (l.*1) -> NoDup l) as Hd by (intros l Hl; by apply (NoDup_fmap_1 fst)).
  unfold suggestion_order. cbv zeta. set (F := ranked_nodes toLower g name ++ second_source g name).
  apply NoDup_app. split_and!.
  - unfold F. apply NoDup_app. split_and!; [apply Hd, ranked_NoDup| |].
    + intros [i n] H1 H2. apply elem_of_second in H2 as (_ & H2 & _). by apply H2, (elem_of_ids (i, n)).
    + unfold second_source. cbv zeta. case_decide; [|constructor]. unfold not_in. apply NoDup_filter, Hd, ranked_NoDup.
  - intros p H1 H2. unfold near_canonical in H2. apply list_elem_of_fmap in H2 as (h & -> & Hh).
    rewrite merge_sort_Permutation in Hh. apply list_elem_of_omap in Hh as (q & _ & Hh).
    rewrite (near_of_node _ _ _ _ _ Hh) in H1. unfold near_of in Hh. rewrite decide_True in Hh; [done|]. by apply elem_of_ids.
  - apply Hd, near_NoDup.
Qed.
End SuggestFacts.

(** The ranking lists every node whose qualified name contains the query, case aside,
    once, in the order of the tier of the match, the length of the name, the name and the
    usr.  The order the hash map hands the nodes out in and a cached index change nothing,
    and the cache it leaves is that of the graph. *)
Theorem rank_matches_exact `{UI : !UnorderedIter} (toLower : Byte.byte -> Byte.byte) (ctx : ToolContext) (query : bytes) :
  cg_ok (graph ctx) -> cache_ok toLower ctx ->
  let out := (rankFunctionMatches toLower ctx query).1 in
  let ctx' := (rankFunctionMatches toLower ctx query).2 in
  NoDup out /\
  (forall id n, (id, n) ∈ out <->
     nodes_ (graph ctx) !! id = Some n /\ contains (lower toLower (qualifiedName n)) (lower toLower query) = true) /\
  StronglySorted (fun a b => hit_less (tier_of toLower query b, b) (tier_of toLower query a, a) = false) out /\
  graph ctx' = graph ctx /\ cache_ok toLower ctx' /\
  (forall (UI' : UnorderedIter) ctx2, graph ctx2 = graph ctx -> cache_ok toLower ctx2 ->
     (rankFunctionMatches (UI := UI') toLower ctx2 query).1 = out).
Proof.
  intros Hg Hc. destruct (rank_eq toLower ctx query Hg Hc) as (E & Hc' & Hg' & _). cbv zeta. rewrite E. split_and!; try done.
  - apply (NoDup_fmap_1 fst), ranked_NoDup.
  - apply elem_of_ranked.
  - apply StronglySorted_snd; [|apply hits_sorted]. apply Forall_forall. intros h Hh.
    rewrite merge_sort_Permutation in Hh. by apply hits_elem in Hh as (_ & _ & ?).
  - intros UI' ctx2 E2 Hc2. rewrite <- E2. apply rank_eq; [by rewrite E2|done].
Qed.

(** Suggestions are at most [max] distinct functions of the graph, each plausible; when
    fewer than [max] come back, every plausible one did (so nothing close is missed and an
    empty answer means that nothing is close); and the answer does not depend on the
    order of the hash map or on the cache. *)
Theorem suggestions_exact `{UI : !UnorderedIter} (toLower : Byte.byte -> Byte.byte) (ctx : ToolContext)
    (name : bytes) (max : nat) :
  cg_ok (graph ctx) -> cache_ok toLower ctx -> names_fit (graph ctx) name -> name <> [] ->
  let out := (suggestFunctions toLower ctx name max).1 in
  length out <= max /\ NoDup out /\
  (forall id n, (id, n) ∈ out -> nodes_ (graph ctx) !! id = Some n /\ plausible toLower name n) /\
  (length out < max -> forall id n, nodes_ (graph ctx) !! id = Some n -> plausible toLower name n -> (id, n) ∈ out) /\
  (forall (UI' : UnorderedIter) ctx2, graph ctx2 = graph ctx -> cache_ok toLower ctx2 ->
     (suggestFunctions (UI := UI') toLower ctx2 name max).1 = out).
Proof.
  intros Hg Hc Hfit Hne. cbv zeta. destruct (suggest_eq toLower ctx name max Hg Hc Hne) as (E & _). rewrite E. split_and!.
  - rewrite length_take. lia.
  - pose proof (suggestions_NoDup toLower (graph ctx) name) as Hd. rewrite <- (take_drop max) in Hd.
    by apply NoDup_app in Hd as [? _].
  - intros id n H%subseteq_take. by apply elem_of_suggestions.
  - intros Hlt id n Hn Hp. rewrite take_under by done. by apply elem_of_suggestions.
  - intros UI' ctx2 E2 Hc2. rewrite <- E2. apply suggest_eq; [by rewrite E2|done|done].
Qed.

(** * Examples *)

Definition named_node (u q : bytes) : CallGraphNode := MkNode q (str "m.cpp") 1 false false [] u.

(** Two overloads, a function of a longer name and one that shares nothing with them. *)
Definition overload_graph : CallGraph :=
  build [AddNode (named_node (str "c:2") (str "ns::main")) (str "m.cpp");
         AddNode (named_node (str "c:1") (str "ns::main")) (str "m.cpp");
         AddNode (named_node (str "c:3") (str "ns::mainLoop")) (str "m.cpp");
         AddNode (named_node (str "c:4") (str "other")) (str "m.cpp")] empty_graph.

Lemma overload_graph_ok : cg_ok overload_graph.
Proof. apply build_ok. vm_compute. discriminate. Qed.

Definition overload_ctx : ToolContext := MkCtx overload_graph empty_index (Some None).

Lemma overload_names_fit name : length name <= 100 -> names_fit overload_graph name.
Proof.
  intros Hl id n Hn. assert (map_Forall (fun _ n => length (qualifiedName n) <= 100) (nodes_ overload_graph)) as H
    by by_computation. specialize (H id n Hn). cbn in H. unfold two32. lia.
Qed.

Lemma rank_matches_exact_witness :
  (fun p => usr p.2) <$> (rankFunctionMatches (UI := canonical_iter) ascii_lower overload_ctx (str "MAIN")).1 =
    [str "c:1"; str "c:2"; str "c:3"] /\
  NoDup (rankFunctionMatches (UI := canonical_iter) ascii_lower overload_ctx (str "MAIN")).1.
Proof.
  split; [vm_compute; reflexivity|].
  exact (proj1 (rank_matches_exact (UI := canonical_iter) ascii_lower overload_ctx (str "MAIN") overload_graph_ok I)).
Defined.

Lemma suggestions_exact_witness :
  (fun p => usr p.2) <$> (suggestFunctions (UI := canonical_iter) ascii_lower overload_ctx (str "std::mian") 5).1 =
    [str "c:1"; str "c:2"] /\
  length (suggestFunctions (UI := canonical_iter) ascii_lower overload_ctx (str "std::mian") 5).1 <= 5.
Proof.
  split; [vm_compute; reflexivity|].
  exact (proj1 (suggestions_exact (UI := canonical_iter) ascii_lower overload_ctx (str "std::mian") 5
    overload_graph_ok I (overload_names_fit (str "std::mian") ltac:(cbn; lia)) ltac:(discriminate))).
Defined.
