(* ===== verification/Identity.v ===== *)
(** Identity resolution (src/query/Identity.cpp, lines 212-508): how a tool turns its
    name, usr, site and filter parameters into one usr, and the payload it answers when
    it cannot. *)

From S2P Require Import Prelude Registrations Utf8 StringInterner CallGraph CallGraphInv CallGraphQuery CallGraphMerge Ordering Query ControlFlowIndex Text TypoDistance Results Suggest.

Definition kMaxAmbiguousCandidates : nat := 25.
Definition kMaxSuggestions : nat := 5.

(** * Parameters *)

Definition identityAlias (nameParam : bytes) : bytes :=
  if decide (nameParam = str "name") then str "function"
  else if decide (nameParam = str "function") then str "name"
  else [].

Definition identityName (args : JsonArgs) (nameParam : bytes) : option bytes :=
  match getString args nameParam with
  | Some v => Some v
  | None => match identityAlias nameParam with [] => None | alias => getString args alias end
  end.

Definition companionParam (usrParam suffix : bytes) : bytes := (consume_back usrParam (str "usr")).2 ++ suffix.

(** * Payloads *)

(** A [std::set<std::string>] in its order. *)
Definition sorted_set (s : gset bytes) : list bytes := merge_sort bytes_le (elements s).

(** [++byFile\[file\]] in a [std::map], kept in key order. *)
Fixpoint bump (k : bytes) (m : list (bytes * Z)) : list (bytes * Z) :=
  match m with
  | [] => [(k, 1%Z)]
  | (k', n) :: m' =>
      match bytes_cmp k k' with
      | Lt => (k, 1%Z) :: m
      | Eq => (k', (n + 1)%Z) :: m'
      | Gt => (k', n) :: bump k m'
      end
  end.

Definition node_line (n : CallGraphNode) : json := JInt (Z.of_N (line n)).

Definition ambiguous_note : bytes :=
  str "Multiple functions share this name. Re-run with the 'usr' parameter of the intended candidate, or narrow with 'site' (a call-site 'file:line:col' resolves to the exact overload/instantiation called there) or 'filter' (a literal substring matched against candidate usr/name/file — not type-aware).".

Section Resolution.
Context `{UI : !UnorderedIter}.
(** Case folding and [llvm::json::isUTF8]. *)
Variable toLower : Byte.byte -> Byte.byte.
Variable isValidUtf8 : bytes -> bool.

Abbreviation findNode := (CallGraph.findNode isValidUtf8).
Abbreviation usrsForName := (CallGraph.usrsForName isValidUtf8).

(** One candidate of the list. *)
Definition candidate_object (g : CallGraph) (name usr0 : bytes) : json :=
  JObj (obj_of ((str "usr", JStr usr0) ::
    match findNode g usr0 with
    | Some node => [(str "qualifiedName", JStr (qualifiedName node)); (str "file", JStr (file node)); (str "line", node_line node)]
    | None => [(str "qualifiedName", JStr name)]
    end)).

Definition files_of (g : CallGraph) (usrs : list bytes) : list (bytes * Z) :=
  foldl (fun m u => match findNode g u with Some node => bump (file node) m | None => m end) [] usrs.

Definition makeAmbiguousNameResult (ctx : ToolContext) (paramName name : bytes) (usrs0 : list bytes)
    (filterNote : bytes) : json :=
  let usrs := merge_sort bytes_le usrs0 in
  let total := length usrs in
  let truncated := bool_decide (kMaxAmbiguousCandidates < total) in
  let byFile := files_of (graph ctx) usrs in
  let candidates := candidate_object (graph ctx) name <$> take kMaxAmbiguousCandidates usrs in
  let note := ambiguous_note ++
    (if truncated then str " Candidate list truncated to " ++ to_string (N.of_nat kMaxAmbiguousCandidates) ++ str " of " ++
                       to_string (N.of_nat total) ++ str "." else []) ++
    (match filterNote with [] => [] | _ => str " " ++ filterNote end) in
  JObj (obj_of (
    [(str "ambiguous", JBool true); (str "parameter", JStr paramName); (str "name", JStr name);
     (str "total_candidates", JInt (Z.of_nat total)); (str "candidates", JArr candidates)] ++
    (if truncated then
       [(str "truncated", JBool true);
        (str "candidates_by_file",
         JArr ((fun fc => JObj (obj_of [(str "file", JStr fc.1); (str "count", JInt fc.2)])) <$> byFile))]
     else []) ++
    [(str "note", JStr note)])).

Definition isKnownIdentity (ctx : ToolContext) (ident : bytes) : bool :=
  match findNode (graph ctx) ident with
  | Some _ => true
  | None =>
      match find (interner_ (graph ctx)) ident with
      | None => false
      | Some id =>
          negb (bool_decide (callerRefsOf (graph ctx) id = [])) || negb (bool_decide (calleeRefsOf (graph ctx) id = []))
      end
  end.

Definition suggestion_object (p : node_ptr) : json :=
  JObj (obj_of [(str "qualifiedName", JStr (qualifiedName p.2)); (str "usr", JStr (usr p.2));
                (str "file", JStr (file p.2)); (str "line", node_line p.2)]).

Definition unknownFunctionResult (ctx : ToolContext) (paramName name : bytes) : json * ToolContext :=
  let '(suggestions, ctx') := suggestFunctions toLower ctx name kMaxSuggestions in
  let message := str "Function not found: '" ++ name ++
    str "' names no function and no call-graph edge in this index" ++
    (match suggestions with [] => [] | p :: _ => str " (did you mean '" ++ qualifiedName p.2 ++ str "'?)" end) ++
    str ". Use search_functions to find the indexed name." in
  let obj := default [] (as_object (notFoundError isValidUtf8 message)) in
  (JObj (foldl (fun o kv => obj_set kv.1 kv.2 o) obj
     [(str "parameter", JStr paramName); (str "name", JStr name);
      (str "didYouMean", JArr (suggestion_object <$> suggestions))]), ctx').

(** * Resolution *)

(** The result, the payload to answer instead, and the context with its cache. *)
Definition resolution : Type := option bytes * option json * ToolContext.

Definition unknown (ctx : ToolContext) (paramName name : bytes) : resolution :=
  let '(payload, ctx') := unknownFunctionResult ctx paramName name in (None, Some payload, ctx').

(** The distinct callees recorded at a call site. *)
Definition callees_at (ctx : ToolContext) (site : bytes) : gset bytes :=
  list_to_set ((fun c => match cs_calleeUsr c with [] => cs_calleeName c | u => u end) <$>
               contextsAtSite isValidUtf8 (cfIndex ctx) site).

Definition resolve_site (ctx : ToolContext) (usrParam site : bytes) (name : option bytes) : resolution :=
  let callees := callees_at ctx site in
  if decide (callees = ∅) then
    (None, Some (notFoundError isValidUtf8 (str "No call site found at '" ++ site ++
      str "' (expected 'file:line:col' as spelled in the compile command; use query_call_site_context to inspect a site).")), ctx)
  else
    let agreeing :=
      match name with
      | None => callees
      | Some n => callees ∩ ({[n]} ∪ list_to_set (usrsForName (graph ctx) n))
      end in
    if decide (agreeing = ∅) then
      let n := default [] name in
      (None, Some (notFoundError isValidUtf8 (str "Call site '" ++ site ++ str "' does not call '" ++ n ++
        str "' (it calls: " ++ default [] (head (sorted_set callees)) ++
        (if decide (1 < size callees) then str ", ..." else []) ++ str ").")), ctx)
    else
      match sorted_set agreeing with
      | [u] => (Some u, None, ctx)
      | l => (None, Some (makeAmbiguousNameResult ctx usrParam (default site name) l
                (str "Several distinct functions are called at this spelling (macro-expanded call site).")), ctx)
      end.

(** The literal substring test of the [filter] parameter. *)
Definition passes_filter (g : CallGraph) (f u : bytes) : bool :=
  contains u f ||
  match findNode g u with
  | Some node => contains (qualifiedName node) f || contains (file node) f
  | None => false
  end.

Definition resolve_name (args : JsonArgs) (ctx : ToolContext) (nameKey usrParam name : bytes) : resolution :=
  let usrs := usrsForName (graph ctx) name in
  if decide (2 <= length usrs) then
    match getString args (companionParam usrParam (str "filter")) with
    | None => (None, Some (makeAmbiguousNameResult ctx nameKey name usrs []), ctx)
    | Some f =>
        match filter (fun u => passes_filter (graph ctx) f u = true) usrs with
        | [u] => (Some u, None, ctx)
        | [] => (None, Some (makeAmbiguousNameResult ctx nameKey name usrs
                   (str "The filter '" ++ f ++ str "' matched no candidate; showing the unfiltered set.")), ctx)
        | kept => (None, Some (makeAmbiguousNameResult ctx nameKey name kept
                   (str "Candidates already narrowed by filter '" ++ f ++ str "'.")), ctx)
        end
    end
  else
    let resolved := match usrs with [] => name | u :: _ => u end in
    if isKnownIdentity ctx resolved then (Some resolved, None, ctx) else unknown ctx nameKey name.

Definition resolveIdentity (args : JsonArgs) (ctx : ToolContext) (nameParam usrParam : bytes) : resolution :=
  match getString args usrParam with
  | Some u => if isKnownIdentity ctx u then (Some u, None, ctx) else unknown ctx usrParam u
  | None =>
      let '(nameKey, name) :=
        match getString args nameParam with
        | Some n => (nameParam, Some n)
        | None =>
            match identityAlias nameParam with
            | [] => (nameParam, None)
            | alias => match getString args alias with Some n => (alias, Some n) | None => (nameParam, None) end
            end
        end in
      match getString args (companionParam usrParam (str "site")) with
      | Some site => resolve_site ctx usrParam site name
      | None => match name with None => (None, None, ctx) | Some n => resolve_name args ctx nameKey usrParam n end
      end
  end.

Definition attachUsr (obj : object) (ctx : ToolContext) (ident key : bytes) : object :=
  match findNode (graph ctx) ident with
  | Some node => obj_set key (JStr (usr node)) obj
  | None =>
      let marker :=
        match consume_back key (str "Usr") with
        | (true, prefix) => prefix ++ str "ResolvedAs"
        | (false, _) =>
            match consume_back key (str "usr") with
            | (true, prefix) => prefix ++ str "resolvedAs"
            | (false, _) => key ++ str "ResolvedAs"
            end
        end in
      obj_set marker (JStr (str "name")) obj
  end.
End Resolution.

(** * What resolution promises *)

Section Contract.
Context `{UI : !UnorderedIter}.
Variable toLower : Byte.byte -> Byte.byte.
Variable isValidUtf8 : bytes -> bool.

(** An identity the graph holds: a node looked up by it, or an end of an edge. *)
Definition known_text (g : CallGraph) (ident : bytes) : Prop :=
  (exists id n, nodes_ g !! id = Some n /\
     (usr n = key_text isValidUtf8 ident \/ (~ is_usr g (key_text isValidUtf8 ident) /\ qualifiedName n = key_text isValidUtf8 ident))) \/
  (exists id a b s, find (interner_ g) ident = Some id /\ reaches g a b s /\ (a = id \/ b = id)).

Lemma refs_nonempty g id : cg_ok g ->
  negb (bool_decide (callerRefsOf g id = [])) || negb (bool_decide (calleeRefsOf g id = [])) = true <->
  exists a b s, reaches g a b s /\ (a = id \/ b = id).
Proof.
  intros Hg. rewrite orb_true_iff, !negb_true_iff, !bool_decide_eq_false. split.
  - intros [H|H].
    + destruct (callerRefsOf g id) as [|r l] eqn:E; [done|]. exists (r_caller r), id, (r_callSite r). split; [|by right].
      apply reaches_callers; [done|]. exists r. rewrite E. split; [left|done].
    + destruct (calleeRefsOf g id) as [|r l] eqn:E; [done|]. exists id, (r_callee r), (r_callSite r). split; [|by left].
      apply reaches_callees; [done|]. exists r. rewrite E. split; [left|done].
  - intros (a & b & s & Hr & [->| ->]).
    + right. apply reaches_callees in Hr as (r & Hr & _); [|done]. intros E. rewrite E in Hr. by apply elem_of_nil in Hr.
    + left. apply reaches_callers in Hr as (r & Hr & _); [|done]. intros E. rewrite E in Hr. by apply elem_of_nil in Hr.
Qed.

Lemma isKnownIdentity_spec ctx ident : cg_ok (graph ctx) ->
  isKnownIdentity isValidUtf8 ctx ident = true <-> known_text (graph ctx) ident.
Proof.
  intros Hg. unfold isKnownIdentity, known_text. pose proof (findNode_spec isValidUtf8 (graph ctx) ident Hg) as Hf. cbv zeta in Hf.
  destruct (CallGraph.findNode isValidUtf8 (graph ctx) ident) as [b|].
  - split; [|done]. intros _. left. destruct Hf as ([id Hid] & Hm & _). by exists id, b.
  - destruct (find (interner_ (graph ctx)) ident) as [id|].
    + rewrite refs_nonempty by done. split.
      * intros (x & y & s & H1 & H2). right. by exists id, x, y, s.
      * intros [(i & n & Hn & Hm)|(i & x & y & s & [= <-] & H)]; [by destruct (Hf i n Hn)|]. by exists x, y, s.
    + split; [done|]. intros [(i & n & Hn & Hm)|(i & x & y & s & ? & _)]; [by destruct (Hf i n Hn)|done].
Qed.

(** The statuses of the payloads. *)
Lemma ambiguous_status ctx p n usrs note :
  statusOf (makeAmbiguousNameResult isValidUtf8 ctx p n usrs note) = Ambiguous.
Proof.
  unfold makeAmbiguousNameResult, statusOf, isAmbiguousResult, obj_string, obj_boolean, obj_of. cbv zeta. cbn [as_object].
  destruct (bool_decide _); cbn [app foldl fst snd]; rewrite !obj_get_set; repeat (rewrite decide_False by done); by rewrite ?decide_True.
Qed.

Lemma unknown_status ctx p n : statusOf (unknownFunctionResult toLower isValidUtf8 ctx p n).1 = NotFound.
Proof.
  unfold unknownFunctionResult. destruct (suggestFunctions toLower ctx n kMaxSuggestions) as [sug ctx']. cbv zeta.
  unfold notFoundError, errorResult, statusOf, obj_string, obj_of. cbn [as_object default id foldl fst snd].
  rewrite !obj_get_set. repeat (rewrite decide_False by done). by rewrite decide_True.
Qed.

Lemma not_found_status m : statusOf (notFoundError isValidUtf8 m) = NotFound.
Proof.
  unfold notFoundError, errorResult, statusOf, obj_string, obj_of. cbn [as_object foldl fst snd].
  rewrite !obj_get_set. by rewrite decide_True.
Qed.

Lemma unknown_context ctx p n : cg_ok (graph ctx) -> cache_ok toLower ctx ->
  let r := unknown toLower isValidUtf8 ctx p n in
  r.1.1 = None /\ (exists payload, r.1.2 = Some payload /\ statusOf payload = NotFound) /\
  graph r.2 = graph ctx /\ cache_ok toLower r.2.
Proof.
  intros Hg Hc. pose proof (unknown_status ctx p n) as Hs. unfold unknown.
  assert (graph (unknownFunctionResult toLower isValidUtf8 ctx p n).2 = graph ctx /\
          cache_ok toLower (unknownFunctionResult toLower isValidUtf8 ctx p n).2) as Hx.
  { unfold unknownFunctionResult. destruct (decide (n = [])) as [->|Hn]; [done|].
    destruct (suggest_eq toLower ctx n kMaxSuggestions Hg Hc Hn) as (_ & H1 & H2).
    by destruct (suggestFunctions toLower ctx n kMaxSuggestions). }
  destruct (unknownFunctionResult toLower isValidUtf8 ctx p n) as [payload ctx']. cbn in *. split_and!; try done; [|apply Hx..].
  by exists payload.
Qed.

(** ** The paths of resolution *)

Definition agrees (g : CallGraph) (name u : bytes) : Prop := u = name \/ u ∈ CallGraph.usrsForName isValidUtf8 g name.

(** The callees at a site that agree with the name given alongside, if any. *)
Definition at_site (ctx : ToolContext) (site : bytes) (name : option bytes) (u : bytes) : Prop :=
  u ∈ callees_at isValidUtf8 ctx site /\ forall n, name = Some n -> agrees (graph ctx) n u.

Definition answers (amb : option json) (s : ResultStatus) : Prop := exists p, amb = Some p /\ statusOf p = s.

(** What the site path promises of its result and payload. *)
Definition site_promise (ctx : ToolContext) (site : bytes) (name : option bytes) (r : option bytes * option json) : Prop :=
  match r.1 with
  | Some u => r.2 = None /\ at_site ctx site name u /\ forall u', at_site ctx site name u' -> u' = u
  | None => (answers r.2 NotFound /\ forall u, ~ at_site ctx site name u) \/
            (answers r.2 Ambiguous /\ exists u u', u <> u' /\ at_site ctx site name u /\ at_site ctx site name u')
  end.

Lemma sorted_set_elem s u : u ∈ sorted_set s <-> u ∈ s.
Proof. unfold sorted_set. by rewrite merge_sort_Permutation, elem_of_elements. Qed.

Lemma sorted_set_NoDup s : NoDup (sorted_set s).
Proof. unfold sorted_set. rewrite merge_sort_Permutation. apply NoDup_elements. Qed.

Lemma resolve_site_cases ctx usrParam site name :
  let r := resolve_site isValidUtf8 ctx usrParam site name in
  r.2 = ctx /\
  site_promise ctx site name r.1.
Proof.
  unfold resolve_site, site_promise. case_decide as He; cbv zeta.
  { split; [done|]. cbn. left. split; [eexists; split; [done|apply not_found_status]|].
    intros u [Hu _]. rewrite He in Hu. by apply elem_of_empty in Hu. }
  set (A := match name with None => _ | Some _ => _ end).
  assert (forall u, u ∈ A <-> at_site ctx site name u) as HA.
  { intros u. unfold A, at_site, agrees. destruct name as [n|]; [|naive_solver].
    rewrite elem_of_intersection, elem_of_union, elem_of_singleton, elem_of_list_to_set. naive_solver. }
  case_decide as Ha; [split; [done|]; cbn; left|].
  { split; [eexists; split; [done|apply not_found_status]|]. intros u Hu%HA. rewrite Ha in Hu. by apply elem_of_empty in Hu. }
  pose proof (sorted_set_NoDup A) as Hnd. pose proof (sorted_set_elem A) as Hel.
  destruct (sorted_set A) as [|u [|u' l]]; cbn; (split; [done|]).
  - exfalso. apply Ha. apply set_eq. intros x. rewrite <- Hel. split; intros H; [by apply elem_of_nil in H|by apply elem_of_empty in H].
  - split; [done|]. split; [apply HA, Hel; left|]. intros v Hv%HA%Hel. by apply list_elem_of_singleton in Hv.
  - right. split; [eexists; split; [done|apply ambiguous_status]|]. exists u, u'. split_and!; [|apply HA, Hel; left|apply HA, Hel; right; left].
    apply NoDup_cons in Hnd as [Hn _]. intros ->. apply Hn. left.
Qed.

Lemma usrs_many g name : cg_ok g -> 2 <= length (CallGraph.usrsForName isValidUtf8 g name) ->
  NoDup (CallGraph.usrsForName isValidUtf8 g name) /\ forall u, u ∈ CallGraph.usrsForName isValidUtf8 g name -> is_usr g u.
Proof.
  intros Hg Hl. unfold CallGraph.usrsForName in *. unfold resolveUsrIds in *. rewrite length_fmap in Hl.
  destruct (findText isValidUtf8 g name) as [d|]; [|cbn in Hl; lia].
  destruct (nodes_ g !! d); [cbn in Hl; lia|]. destruct (byName_ g !! d) as [[|u us]|] eqn:E; try (cbn in Hl; lia).
  pose proof (ok_nodes _ Hg) as [N1 N2 N3 _ N5].
  assert (vec_at (byName_ g) d = u :: us) as Ev by (unfold vec_at; by rewrite E).
  assert (forall id, id ∈ u :: us -> exists n, nodes_ g !! id = Some n /\ resolve_opt (interner_ g) id = Some (usr n)) as Hn.
  { intros id Hid. rewrite <- Ev in Hid. destruct (N3 d id Hid) as (n & Hn & _). exists n. split; [done|]. by apply N1. }
  split.
  - apply NoDup_fmap_2_strong; [|rewrite <- Ev; apply N5]. intros x y Hx Hy Hxy.
    destruct (Hn x Hx) as (n & _ & E1), (Hn y Hy) as (m & _ & E2). unfold resolve in Hxy. rewrite E1, E2 in Hxy. cbn in Hxy.
    rewrite Hxy in E1. by eapply resolve_opt_inj; [apply Hg| |].
  - intros v (id & -> & Hid)%list_elem_of_fmap. destruct (Hn id Hid) as (n & Hnode & E1). exists id, n. split; [done|].
    by rewrite (resolve_of_opt _ _ _ E1).
Qed.

(** The candidates a filter leaves; without a filter, all of them. *)
Definition candidates (args : JsonArgs) (g : CallGraph) (usrParam name : bytes) : list bytes :=
  let usrs := CallGraph.usrsForName isValidUtf8 g name in
  match getString args (companionParam usrParam (str "filter")) with
  | Some f => if decide (2 <= length usrs) then filter (fun u => passes_filter isValidUtf8 g f u = true) usrs else usrs
  | None => usrs
  end.

(** What the name path promises. *)
Definition name_promise (args : JsonArgs) (g : CallGraph) (usrParam name : bytes) (r : option bytes * option json) : Prop :=
  match r.1 with
  | Some u => r.2 = None /\ candidates args g usrParam name = [u] /\ (is_usr g u \/ known_text g u)
  | None => (answers r.2 NotFound /\ forall u, u ∈ CallGraph.usrsForName isValidUtf8 g name -> ~ known_text g u) \/
            (answers r.2 Ambiguous /\ 2 <= length (CallGraph.usrsForName isValidUtf8 g name) /\
             length (candidates args g usrParam name) <> 1)
  end.

Lemma resolve_name_cases args ctx nameKey usrParam name : cg_ok (graph ctx) -> cache_ok toLower ctx -> isValidUtf8 name = true ->
  let g := graph ctx in
  let r := resolve_name toLower isValidUtf8 args ctx nameKey usrParam name in
  graph r.2 = g /\ cache_ok toLower r.2 /\
  name_promise args g usrParam name r.1.
Proof.
  intros Hg Hc Hv. cbv zeta. unfold resolve_name, name_promise, candidates. cbv zeta.
  pose proof (usrs_many (graph ctx) name Hg) as Hmany.
  destruct (CallGraph.usrsForName isValidUtf8 (graph ctx) name) as [|u us] eqn:Eu.
  - rewrite !(decide_False (P := 2 <= length [])) by (cbn; lia).
    assert (isKnownIdentity isValidUtf8 ctx name = false) as ->.
    { unfold CallGraph.usrsForName in Eu. apply fmap_nil_inv in Eu. unfold isKnownIdentity, CallGraph.findNode. rewrite Eu. cbn.
      unfold resolveUsrIds, findText in Eu. rewrite Hv in Eu. destruct (find (interner_ (graph ctx)) name) as [id|]; [|done].
      destruct (nodes_ (graph ctx) !! id); [done|]. by destruct (byName_ (graph ctx) !! id) as [[|]|]. }
    destruct (unknown_context ctx nameKey name Hg Hc) as (E & Ha & Hx1 & Hx2). rewrite E. split_and!; [done..|].
    left. split; [done|]. by intros u Hu%elem_of_nil.
  - case_decide as Hl.
    + destruct (Hmany Hl) as [Hnd Hus]. destruct (getString args (companionParam usrParam (str "filter"))) as [f|] eqn:Ef.
      * destruct (filter _ (u :: us)) as [|v [|w l]] eqn:Ek; cbn [fst snd]; (split; [done|]); (split; [done|]).
        -- right. split_and!; [eexists; split; [done|apply ambiguous_status]|done|cbn; lia].
        -- split_and!; [done|done|]. left. apply Hus. assert (v ∈ [v]) as Hin by left. rewrite <- Ek in Hin.
           by apply list_elem_of_filter in Hin as [_ ?].
        -- right. split_and!; [eexists; split; [done|apply ambiguous_status]|done|cbn; lia].
      * cbn [fst snd]. split; [done|]. split; [done|]. right.
        split_and!; [eexists; split; [done|apply ambiguous_status]|done|lia].
    + assert (us = []) as -> by (destruct us; [done|cbn in Hl; lia]).
      assert (match getString args (companionParam usrParam (str "filter")) with Some _ => [u] | None => [u] end = [u]) as ->
        by (by destruct (getString args _)).
      destruct (isKnownIdentity isValidUtf8 ctx u) eqn:Ek.
      * cbn. split_and!; [done..|]. right. by apply isKnownIdentity_spec in Ek.
      * destruct (unknown_context ctx nameKey name Hg Hc) as (E & Ha & Hx1 & Hx2). rewrite E. split_and!; [done..|].
        left. split; [done|]. intros v ->%list_elem_of_singleton. rewrite <- isKnownIdentity_spec by done. by rewrite Ek.
Qed.

(** Site before name, whichever spelling the name was given under. *)
Lemma site_or_name args ctx usrParam : cg_ok (graph ctx) -> cache_ok toLower ctx ->
  forall nameKey name, (forall n, name = Some n -> isValidUtf8 n = true) ->
  let r := match getString args (companionParam usrParam (str "site")) with
           | Some site => resolve_site isValidUtf8 ctx usrParam site name
           | None => match name with None => (None, None, ctx) | Some n => resolve_name toLower isValidUtf8 args ctx nameKey usrParam n end
           end in
  graph r.2 = graph ctx /\ cache_ok toLower r.2 /\
  match getString args (companionParam usrParam (str "site")), name with
  | Some site, name => site_promise ctx site name r.1
  | None, Some n => name_promise args (graph ctx) usrParam n r.1
  | None, None => r.1 = (None, None)
  end.
Proof.
  intros Hg Hc nameKey name Hname. destruct (getString args (companionParam usrParam (str "site"))) as [site|].
  - destruct (resolve_site_cases ctx usrParam site name) as [E H]. cbv zeta. rewrite E. by destruct name.
  - destruct name as [n|]; [|done]. by apply resolve_name_cases; [..|apply Hname].
Qed.
End Contract.

(** Resolution answers with one identity, a refusal or nothing, and says which:
    - a usr parameter is taken verbatim when the graph holds it and refused as not found
      otherwise;
    - a call site gives the one callee recorded there that agrees with the name (if a name
      is given too), is not found when there is none and ambiguous when there are several;
    - a name gives the one candidate that is left after the filter, provided the graph
      holds it; it is not found when the graph holds no candidate and ambiguous when
      several functions share the name and the filter does not single one out;
    - without any of them there is no answer and no payload.
    A result never comes with a payload, and the context keeps its graph and its cache. *)
Theorem resolve_identity_contract `{UI : !UnorderedIter} (toLower : Byte.byte -> Byte.byte) (isValidUtf8 : bytes -> bool)
    (args : JsonArgs) (ctx : ToolContext) (nameParam usrParam : bytes) :
  cg_ok (graph ctx) -> cache_ok toLower ctx ->
  (forall key s, getString args key = Some s -> isValidUtf8 s = true) ->
  let g := graph ctx in
  let r := resolveIdentity toLower isValidUtf8 args ctx nameParam usrParam in
  graph r.2 = g /\ cache_ok toLower r.2 /\
  match getString args usrParam, getString args (companionParam usrParam (str "site")), identityName args nameParam with
  | Some u, _, _ =>
      (known_text isValidUtf8 g u /\ r.1 = (Some u, None)) \/
      (~ known_text isValidUtf8 g u /\ r.1.1 = None /\ answers r.1.2 NotFound)
  | None, Some site, name => site_promise isValidUtf8 ctx site name r.1
  | None, None, Some name => name_promise isValidUtf8 args g usrParam name r.1
  | None, None, None => r.1 = (None, None)
  end.
Proof.
  intros Hg Hc Hutf g r. unfold r, resolveIdentity, identityName.
  destruct (getString args usrParam) as [u|] eqn:Eu.
  { destruct (isKnownIdentity isValidUtf8 ctx u) eqn:Ek; cbn [fst snd].
    - split_and!; [done|done|]. left. split; [|done]. by apply isKnownIdentity_spec in Ek.
    - destruct (unknown_context toLower isValidUtf8 ctx usrParam u Hg Hc) as (E & Ha & Hx1 & Hx2). split_and!; [done..|].
      right. split; [|done]. unfold g. rewrite <- isKnownIdentity_spec by done. by rewrite Ek. }
  pose proof (site_or_name toLower isValidUtf8 args ctx usrParam Hg Hc) as Hcore.
  destruct (getString args nameParam) as [n|] eqn:En.
  { apply (Hcore nameParam (Some n)). intros m [= <-]. by eapply Hutf. }
  destruct (identityAlias nameParam) as [|c alias]; [by apply (Hcore nameParam None)|].
  destruct (getString args (c :: alias)) as [n|] eqn:En'; [|by apply (Hcore nameParam None)].
  apply (Hcore (c :: alias) (Some n)). intros m [= <-]. by eapply Hutf.
Qed.

(** Two overloads of [ns::main] and a filter that singles one out by its usr. *)
Definition filter_args : JsonArgs :=
  MkArgs (fun k => if decide (k = str "name") then Some (str "ns::main")
                   else if decide (k = str "filter") then Some (str "c:2") else None)
    (fun _ => None) (fun _ => None) (fun _ => None) (fun _ => false).

Lemma resolve_identity_contract_witness :
  let r := resolveIdentity (UI := canonical_iter) ascii_lower valid_utf8b filter_args overload_ctx (str "name") (str "usr") in
  r.1 = (Some (str "c:2"), None) /\ graph r.2 = overload_graph.
Proof.
  cbv zeta. split; [vm_compute; reflexivity|].
  refine (proj1 (resolve_identity_contract (UI := canonical_iter) ascii_lower valid_utf8b filter_args overload_ctx
    (str "name") (str "usr") overload_graph_ok I _)).
  intros key s. cbn. repeat case_decide; by intros [= <-].
Defined.
