(* ===== verification/Codec.v ===== *)
(** The binary encoding of saved indexes (src/callgraph/Snapshot.cpp, lines 50-150): the
    little-endian emitters and the bounds-checked reader, whose failure is sticky.

    A reader is the bytes left and the flag [ok].  Decoders are written in the state monad
    of the reader; [reads m enc a] says that [m] consumes exactly [enc] and returns [a],
    and is proved of a decoder from its parts. *)

From S2P Require Import Prelude.

Definition byte_of (n : N) : Byte.byte := default Byte.x00 (Byte.of_N n).

(** [(v >> (8 * i)) & 0xFF], for [i] below [k]. *)
Definition put_le (k : nat) (v : N) : bytes :=
  (fun i => byte_of (N.land (N.shiftr v (8 * N.of_nat i)) 255)) <$> seq 0 k.

(** The value of little-endian bytes: [v |= byte << (8 * i)]. *)
Definition le_value (l : bytes) : N :=
  snd (foldl (fun '(i, v) b => (i + 1, N.lor v (N.shiftl (Byte.to_N b) (8 * i))))%N (0%N, 0%N) l).

Definition putU8 (v : N) : bytes := put_le 1 v.
Definition putU32 (v : N) : bytes := put_le 4 v.
Definition putU64 (v : N) : bytes := put_le 8 v.

(** [static_cast<uint32_t>(c.size())]. *)
Definition size32 {A} (l : list A) : N := u32 (N.of_nat (length l)).

Definition putLenStr (s : bytes) : bytes := putU32 (size32 s) ++ s.

Definition put_bool (b : bool) : bytes := putU8 (if b then 1 else 0).

(** A count, then the elements. *)
Definition put_list {A} (enc : A -> bytes) (l : list A) : bytes := putU32 (size32 l) ++ (l ≫= enc).

#[global] Arguments put_le : simpl never.
#[global] Arguments putU8 : simpl never.
#[global] Arguments putU32 : simpl never.
#[global] Arguments putU64 : simpl never.
#[global] Arguments putLenStr : simpl never.
#[global] Arguments put_bool : simpl never.
#[global] Arguments put_list : simpl never.

(** * The reader *)

Record Reader := MkReader { rest : bytes; ok : bool }.

Definition M (A : Type) : Type := Reader -> A * Reader.

Definition ret {A} (a : A) : M A := fun r => (a, r).
Definition bind {A B} (m : M A) (k : A -> M B) : M B := fun r => let '(a, r') := m r in k a r'.

Declare Scope reader_scope.
Delimit Scope reader_scope with reader.
Notation "x <-- m ;; k" := (bind m (fun x => k)) (at level 100, m at next level, right associativity) : reader_scope.
Open Scope reader_scope.

(** [r.ok = false]. *)
Definition fail_reader : M unit := fun r => (tt, MkReader (rest r) false).

(** [if (!r.ok) break;]: the rest of a loop body, the state kept when the reader failed. *)
Definition when_ok {A} (otherwise : A) (m : M A) : M A := fun r => if ok r then m r else (otherwise, r).

Definition need (n : N) : M bool := fun r =>
  if negb (ok r) || (N.of_nat (length (rest r)) <? n)%N then (false, MkReader (rest r) false) else (true, r).

(** [n] bytes, once [need(n)] allowed them. *)
Definition advance (n : nat) : M bytes := fun r => (take n (rest r), MkReader (drop n (rest r)) (ok r)).

Definition read_le (k : nat) : M N :=
  fine <-- need (N.of_nat k);;
  if fine then (l <-- advance k;; ret (le_value l)) else ret 0%N.

Definition r_u8 : M N := read_le 1.
Definition r_u32 : M N := read_le 4.
Definition r_u64 : M N := read_le 8.

Definition r_bytes (len : N) : M bytes :=
  fine <-- need len;;
  if fine then advance (N.to_nat len) else ret [].

Definition r_lenStr : M bytes := len <-- r_u32;; r_bytes len.

Definition r_count : M N :=
  n <-- r_u32;;
  fun r => if ok r && (N.of_nat (length (rest r)) <? n)%N then (0%N, MkReader (rest r) false) else (n, r).

Definition r_bool : M bool := v <-- r_u8;; ret (negb (v =? 0)%N).

(** [for (i = 0; r.ok && i < n; ++i)]. *)
Fixpoint loop {S} (n : nat) (step : S -> M S) (s : S) : M S :=
  match n with
  | 0 => ret s
  | Datatypes.S n' => when_ok s (s' <-- step s;; loop n' step s')
  end.

Definition for_count {S} (step : S -> M S) (s : S) : M S := n <-- r_count;; loop (N.to_nat n) step s.

Definition r_list {A} (f : M A) : M (list A) := for_count (fun l => a <-- f;; ret (l ++ [a])) [].

Section Text.
(** [llvm::json::isUTF8], as in Utf8.v. *)
Variable isValidUtf8 : bytes -> bool.

Definition r_text : M bytes :=
  s <-- r_lenStr;;
  fun r => if ok r && negb (isValidUtf8 s) then ([], MkReader (rest r) false) else (s, r).
End Text.

(** * Little-endian round trip *)

Lemma byte_of_to n : (n < 256)%N -> Byte.to_N (byte_of n) = n.
Proof.
  intros H. unfold byte_of. destruct (Byte.of_N n) as [b|] eqn:E; [by apply Byte.to_of_N|].
  apply Byte.of_N_None_iff in E. lia.
Qed.

Lemma land_255 n : (N.land n 255 < 256)%N.
Proof. change 255%N with (N.ones 8). rewrite N.land_ones. by apply N.mod_lt. Qed.

Lemma put_le_S k v : put_le (S k) v = put_le k v ++ [byte_of (N.land (N.shiftr v (8 * N.of_nat k)) 255)].
Proof. unfold put_le. by rewrite seq_S, fmap_app. Qed.

Lemma length_put_le k v : length (put_le k v) = k.
Proof. unfold put_le. by rewrite length_fmap, length_seq. Qed.

Lemma testbit_ones_lt n m : N.testbit (N.ones n) m = (m <? n)%N.
Proof.
  destruct (N.ltb_spec m n); [by apply N.ones_spec_low|by apply N.ones_spec_high].
Qed.

Lemma lor_byte v k : N.lor (N.land v (N.ones (8 * k))) (N.shiftl (N.land (N.shiftr v (8 * k)) 255) (8 * k)) =
  N.land v (N.ones (8 * (k + 1))).
Proof.
  apply N.bits_inj. intros n. rewrite N.lor_spec, !N.land_spec, !testbit_ones_lt.
  destruct (N.lt_ge_cases n (8 * k)) as [H|H].
  - rewrite N.shiftl_spec_low by done.
    rewrite (proj2 (N.ltb_lt n (8 * k))), (proj2 (N.ltb_lt n (8 * (k + 1)))) by lia.
    by rewrite orb_false_r.
  - rewrite N.shiftl_spec_high by lia. rewrite N.land_spec, N.shiftr_spec by lia.
    replace (n - 8 * k + 8 * k)%N with n by lia. change 255%N with (N.ones 8). rewrite testbit_ones_lt.
    rewrite (proj2 (N.ltb_ge n (8 * k))) by lia. rewrite andb_false_r. simpl.
    destruct (N.ltb_spec (n - 8 * k) 8), (N.ltb_spec n (8 * (k + 1))); try lia; by destruct (N.testbit v n).
Qed.

Lemma le_value_app l b : le_value (l ++ [b]) =
  N.lor (le_value l) (N.shiftl (Byte.to_N b) (8 * N.of_nat (length l))).
Proof.
  unfold le_value. rewrite foldl_app. simpl.
  set (f := fun '(i, v) b => _). assert (forall l i v, fst (foldl f (i, v) l) = (i + N.of_nat (length l))%N) as H.
  { clear. induction l as [|x l IH]; intros i v; simpl; [lia|]. rewrite IH. lia. }
  destruct (foldl f (0%N, 0%N) l) as [i v] eqn:E. specialize (H l 0%N 0%N). rewrite E in H. simpl in *. by subst.
Qed.

Lemma le_value_put k v : le_value (put_le k v) = N.land v (N.ones (8 * N.of_nat k)).
Proof.
  induction k as [|k IH]; [by rewrite N.land_0_r|].
  rewrite put_le_S, le_value_app, IH, length_put_le, byte_of_to by apply land_255.
  rewrite lor_byte. do 3 f_equal. lia.
Qed.

Lemma le_roundtrip k v : (v < 2 ^ (8 * N.of_nat k))%N -> le_value (put_le k v) = v.
Proof. intros H. rewrite le_value_put, N.land_ones. by apply N.mod_small. Qed.

(** * What a decoder reads *)

Definition reads {A} (m : M A) (enc : bytes) (a : A) : Prop :=
  forall tl, m (MkReader (enc ++ tl) true) = (a, MkReader tl true).

Lemma reads_ret {A} (a : A) : reads (ret a) [] a.
Proof. done. Qed.

Lemma reads_bind {A B} (m : M A) (k : A -> M B) e e' a b :
  reads m e a -> reads (k a) e' b -> reads (bind m k) (e ++ e') b.
Proof. intros H1 H2 tl. unfold bind. rewrite <- (assoc_L (++)), H1. apply H2. Qed.

Lemma reads_bind_last {A B} (m : M A) (k : A -> M B) e a b :
  reads m e a -> reads (k a) [] b -> reads (bind m k) e b.
Proof. intros H1 H2. rewrite <- (app_nil_r e). by eapply reads_bind. Qed.

(** A check that consumes nothing. *)
Lemma reads_bind_check {A B} (m : M A) (k : A -> M B) e a b :
  reads m [] a -> reads (k a) e b -> reads (bind m k) e b.
Proof. apply (reads_bind _ _ []). Qed.

Lemma reads_when_ok {A} (d : A) (m : M A) e a : reads m e a -> reads (when_ok d m) e a.
Proof. intros H tl. apply H. Qed.

Lemma reads_enc {A} (m : M A) e e' a : e = e' -> reads m e a -> reads m e' a.
Proof. by intros ->. Qed.

Lemma need_fits n e tl : N.of_nat (length e) = n -> need n (MkReader (e ++ tl) true) = (true, MkReader (e ++ tl) true).
Proof.
  intros <-. unfold need. cbn [ok rest negb orb]. rewrite length_app.
  destruct (N.ltb_spec (N.of_nat (length e + length tl)) (N.of_nat (length e))); [lia|done].
Qed.

Lemma reads_advance e : reads (advance (length e)) e e.
Proof. intros tl. unfold advance. cbn [rest ok]. by rewrite take_app_length, drop_app_length. Qed.

Lemma reads_le k v : (v < 2 ^ (8 * N.of_nat k))%N -> reads (read_le k) (put_le k v) v.
Proof.
  intros Hv tl. unfold read_le, bind at 1. rewrite need_fits by (by rewrite length_put_le).
  pose proof (reads_bind_last (advance k) (fun l => ret (le_value l)) (put_le k v) (put_le k v) v) as H.
  apply H; [|intros t; unfold ret; by rewrite le_roundtrip].
  intros t. pose proof (reads_advance (put_le k v) t) as Ha. by rewrite length_put_le in Ha.
Qed.

Definition u32_fits (v : N) : Prop := (v < two32)%N.
Definition len_fits {A} (l : list A) : Prop := (N.of_nat (length l) < two32)%N.

Lemma reads_u8 v : (v < 256)%N -> reads r_u8 (putU8 v) v.
Proof. apply (reads_le 1). Qed.
Lemma reads_u32 v : u32_fits v -> reads r_u32 (putU32 v) v.
Proof. apply (reads_le 4). Qed.
Lemma reads_u64 v : (v < 2 ^ 64)%N -> reads r_u64 (putU64 v) v.
Proof. apply (reads_le 8). Qed.

Lemma reads_bool b : reads r_bool (put_bool b) b.
Proof. eapply reads_bind_last; [apply reads_u8; by destruct b|]. by destruct b. Qed.

Lemma reads_bytes s : reads (r_bytes (N.of_nat (length s))) s s.
Proof.
  intros tl. unfold r_bytes, bind. rewrite need_fits by done. rewrite Nat2N.id. apply reads_advance.
Qed.

Lemma size32_fits {A} (l : list A) : len_fits l -> size32 l = N.of_nat (length l).
Proof. apply u32_small. Qed.

Lemma reads_lenStr s : len_fits s -> reads r_lenStr (putLenStr s) s.
Proof.
  intros Hs. eapply reads_bind; [by apply reads_u32; rewrite size32_fits|]. rewrite size32_fits by done. apply reads_bytes.
Qed.

Lemma reads_text isValidUtf8 s : len_fits s -> isValidUtf8 s = true -> reads (r_text isValidUtf8) (putLenStr s) s.
Proof.
  intros Hs Hv. eapply reads_bind_last; [by apply reads_lenStr|]. intros tl. cbn. by rewrite Hv.
Qed.

(** ** Counted loops *)

Section Loops.
Context {S X : Type} (step : S -> M S) (f : S -> X -> S) (enc : X -> bytes) (I : S -> Prop).

Lemma reads_loop xs s :
  I s -> (forall s x, I s -> x ∈ xs -> reads (step s) (enc x) (f s x) /\ I (f s x)) ->
  reads (loop (length xs) step s) (xs ≫= enc) (foldl f s xs).
Proof.
  revert s. induction xs as [|x xs IH]; intros s Hs Hstep; [apply reads_ret|].
  cbn [length loop foldl]. rewrite bind_cons. apply reads_when_ok.
  destruct (Hstep s x Hs ltac:(left)) as [H1 H2]. eapply reads_bind; [exact H1|].
  apply IH; [done|]. intros s' y Hs' Hy. apply Hstep; [done|by right].
Qed.

Lemma length_concat (xs : list X) : (forall x, x ∈ xs -> 1 <= length (enc x)) -> length xs <= length (xs ≫= enc).
Proof.
  induction xs as [|x xs IH]; intros H; [done|]. rewrite bind_cons, length_app. cbn [length].
  pose proof (H x ltac:(left)). specialize (IH (fun y Hy => H y (list_elem_of_further y x xs Hy))). lia.
Qed.

Lemma reads_counted {B} (k : N -> M B) xs b :
  len_fits xs -> (forall x, x ∈ xs -> 1 <= length (enc x)) ->
  reads (k (N.of_nat (length xs))) (xs ≫= enc) b -> reads (n <-- r_count;; k n) (put_list enc xs) b.
Proof.
  intros Hl Hlen Hk tl. unfold put_list, r_count, bind.
  rewrite size32_fits by done. rewrite <- (assoc_L (++)), (reads_u32 _ Hl). cbn [ok rest andb].
  destruct (N.ltb_spec (N.of_nat (length ((xs ≫= enc) ++ tl))) (N.of_nat (length xs))) as [Hlt|_]; [|apply Hk].
  rewrite length_app in Hlt. pose proof (length_concat xs Hlen). lia.
Qed.

Lemma reads_for xs s :
  len_fits xs -> I s -> (forall x, x ∈ xs -> 1 <= length (enc x)) ->
  (forall s x, I s -> x ∈ xs -> reads (step s) (enc x) (f s x) /\ I (f s x)) ->
  reads (for_count step s) (put_list enc xs) (foldl f s xs).
Proof.
  intros Hl Hs Hlen Hstep. apply reads_counted; [done|done|]. rewrite Nat2N.id. by apply reads_loop.
Qed.
End Loops.

Lemma foldl_snoc {A} (l acc : list A) : foldl (fun l a => l ++ [a]) acc l = acc ++ l.
Proof.
  revert acc. induction l as [|a l IH]; intros acc; [by rewrite app_nil_r|]. cbn. rewrite IH. by rewrite <- (assoc_L (++)).
Qed.

Lemma reads_list {A} (m : M A) (enc : A -> bytes) (l : list A) :
  len_fits l -> (forall a, a ∈ l -> reads m (enc a) a /\ 1 <= length (enc a)) -> reads (r_list m) (put_list enc l) l.
Proof.
  intros Hl H. unfold r_list. pose proof (foldl_snoc l []) as E. cbn in E. rewrite <- E at 2.
  apply (reads_for _ _ enc (fun _ => True)); [done|done|intros a Ha; by apply H|].
  intros s a _ Ha. split; [|done]. eapply reads_bind_last; [by apply H|]. apply reads_ret.
Qed.

Lemma length_putLenStr s : 1 <= length (putLenStr s).
Proof. unfold putLenStr. rewrite length_app. unfold putU32. rewrite length_put_le. lia. Qed.

Lemma length_putU32 v : length (putU32 v) = 4.
Proof. apply length_put_le. Qed.

(** * Truncated and overlong input *)

(** What every decoder does: a failed reader stays failed, and a read that succeeds does
    not depend on the bytes behind it. *)
Class Decoder {A} (m : M A) : Prop := {
  decoder_sticky : forall r, ok r = false -> ok (m r).2 = false;
  decoder_stable : forall b o tl, ok (m (MkReader b o)).2 = true ->
    m (MkReader (b ++ tl) o) = ((m (MkReader b o)).1, MkReader (rest (m (MkReader b o)).2 ++ tl) true)
}.

#[global] Instance ret_decoder {A} (a : A) : Decoder (ret a).
Proof. split; [done|]. by intros b [] tl. Qed.

#[global] Instance bind_decoder {A B} (m : M A) (k : A -> M B) :
  Decoder m -> (forall a, Decoder (k a)) -> Decoder (bind m k).
Proof.
  intros [Hs Ht] Hk. split.
  - intros r Hr. unfold bind. specialize (Hs r Hr). destruct (m r) as [a r']. by apply Hk.
  - intros b o tl. unfold bind. specialize (Ht b o tl). destruct (m (MkReader b o)) as [a [b' o']] eqn:E.
    cbn [fst snd rest ok] in *. intros Hok. destruct o'.
    + rewrite Ht by done. by apply (decoder_stable (m := k a)).
    + by rewrite (decoder_sticky (m := k a)) in Hok.
Qed.

#[global] Instance fail_decoder : Decoder fail_reader.
Proof. split; done. Qed.

#[global] Instance when_ok_decoder {A} (d : A) (m : M A) : Decoder m -> Decoder (when_ok d m).
Proof.
  intros [Hs Ht]. split; unfold when_ok.
  - intros r Hr. by rewrite Hr.
  - intros b [] tl Hok; cbn [ok] in *; [by apply Ht|done].
Qed.

#[global] Instance if_decoder {A} (c : bool) (m m' : M A) : Decoder m -> Decoder m' -> Decoder (if c then m else m').
Proof. by destruct c. Qed.

#[global] Instance need_decoder n : Decoder (need n).
Proof.
  split; unfold need.
  - intros r Hr. by rewrite Hr.
  - intros b o tl. cbn [ok rest]. destruct o; [|done]. cbn [negb orb]. rewrite length_app.
    destruct (N.ltb_spec (N.of_nat (length b)) n); [done|]. intros _.
    destruct (N.ltb_spec (N.of_nat (length b + length tl)) n); [lia|done].
Qed.

(** Taking bytes is guarded by [need]. *)
Lemma guarded_decoder {A} n (k : bytes -> A) (d : A) :
  Decoder (fine <-- need (N.of_nat n);; if fine then (l <-- advance n;; ret (k l)) else ret d).
Proof.
  split; unfold bind, need, advance, ret.
  - intros r Hr. by rewrite Hr.
  - intros b o tl. cbn [ok rest]. destruct o; [|done]. cbn [negb orb]. rewrite length_app.
    destruct (N.ltb_spec (N.of_nat (length b)) (N.of_nat n)) as [|Hn]; [done|]. intros _. cbn [fst snd rest ok].
    destruct (N.ltb_spec (N.of_nat (length b + length tl)) (N.of_nat n)); [lia|]. cbn [rest ok].
    rewrite take_app_le, drop_app_le by lia. done.
Qed.

#[global] Instance read_le_decoder k : Decoder (read_le k).
Proof. apply guarded_decoder. Qed.
#[global] Instance r_u8_decoder : Decoder r_u8 := read_le_decoder 1.
#[global] Instance r_u32_decoder : Decoder r_u32 := read_le_decoder 4.
#[global] Instance r_u64_decoder : Decoder r_u64 := read_le_decoder 8.

#[global] Instance r_bytes_decoder len : Decoder (r_bytes len).
Proof.
  pose proof (guarded_decoder (N.to_nat len) id []) as [Hs Ht]. rewrite N2Nat.id in Hs, Ht. by split.
Qed.

(** A read that only looks at its value and at a lower bound of the bytes left. *)
Lemma checked_decoder {A} (m : M A) (bad : A -> bool) (bound : A -> N) (d : A) :
  Decoder m ->
  Decoder (a <-- m;; fun r => if ok r && (bad a || (N.of_nat (length (rest r)) <? bound a)%N)
                              then (d, MkReader (rest r) false) else (a, r)).
Proof.
  intros Hm. apply bind_decoder; [done|]. intros a. split.
  - intros r Hr. by rewrite Hr.
  - intros b o tl. cbn [ok rest]. destruct o; [|done]. cbn [andb]. rewrite length_app.
    destruct (bad a); [done|]. cbn [orb]. destruct (N.ltb_spec (N.of_nat (length b)) (bound a)); [done|]. intros _.
    by destruct (N.ltb_spec (N.of_nat (length b + length tl)) (bound a)); [lia|].
Qed.

#[global] Instance r_lenStr_decoder : Decoder r_lenStr.
Proof. apply _. Qed.
#[global] Instance r_bool_decoder : Decoder r_bool.
Proof. apply _. Qed.
#[global] Instance r_count_decoder : Decoder r_count.
Proof. apply (checked_decoder r_u32 (fun _ => false) id 0%N _). Qed.

#[global] Instance r_text_decoder v : Decoder (r_text v).
Proof.
  pose proof (checked_decoder r_lenStr (fun s => negb (v s)) (fun _ => 0%N) [] _) as [Hs Ht].
  assert (E : forall r, r_text v r =
    (a <-- r_lenStr;; fun r => if ok r && (negb (v a) || (N.of_nat (length (rest r)) <? 0)%N)
                               then ([], MkReader (rest r) false) else (a, r)) r).
  { intros r. unfold r_text, bind. destruct (r_lenStr r) as [s r']. destruct (N.ltb_spec (N.of_nat (length (rest r'))) 0); [lia|].
    by rewrite orb_false_r. }
  split; intros *; rewrite !E; [apply Hs|apply Ht].
Qed.

#[global] Instance loop_decoder {S} n (step : S -> M S) s : (forall s, Decoder (step s)) -> Decoder (loop n step s).
Proof. intros H. revert s. induction n as [|n IH]; intros s; cbn [loop]; apply _. Qed.

#[global] Instance for_count_decoder {S} (step : S -> M S) s : (forall s, Decoder (step s)) -> Decoder (for_count step s).
Proof. intros H. apply _. Qed.

#[global] Instance r_list_decoder {A} (m : M A) : Decoder m -> Decoder (r_list m).
Proof. intros H. apply _. Qed.

(** A section is decoded by a reader of its own and must be consumed exactly. *)
Definition section_done {A} (m : M A) (b : bytes) : option A :=
  let '(a, r) := m (MkReader b true) in
  if ok r && bool_decide (rest r = []) then Some a else None.

Lemma section_read {A} (m : M A) enc a : reads m enc a -> section_done m enc = Some a.
Proof.
  intros H. specialize (H []). rewrite app_nil_r in H. unfold section_done. by rewrite H.
Qed.

(** A section that was cut short or has bytes appended is refused. *)
Lemma section_exact {A} (m : M A) enc a b tl :
  Decoder m -> reads m enc a -> tl <> [] -> b ++ tl = enc \/ b = enc ++ tl -> section_done m b = None.
Proof.
  intros Hm Hr Htl [<-| ->]; unfold section_done.
  - destruct (m (MkReader b true)) as [x r] eqn:E. destruct (ok r) eqn:Ho; [|done]. exfalso.
    pose proof (decoder_stable (m := m) b true tl) as Hs. rewrite E in Hs. specialize (Hs Ho).
    specialize (Hr []). rewrite app_nil_r, Hs in Hr. injection Hr as _ Hr. by apply app_eq_nil in Hr as [_ ?].
  - rewrite (Hr tl). cbn [ok rest andb]. by rewrite bool_decide_eq_false_2.
Qed.
