(* ===== verification/SnapshotMeta.v ===== *)
(** The meta section of a saved index (src/callgraph/Snapshot.cpp, lines 152-293;
    include/vycor/callgraph/Snapshot.h, FileStamp.h, TuOutcome.h): what was asked for, the
    stamps of every unit and of every file its parse opened, how each parse ended, and
    the round trip of its encoding. *)

From S2P Require Import Prelude Codec.

(** * Data *)

Record FileStamp := MkStamp { fs_path : bytes; fs_mtimeNs : N; fs_size : N }.

#[global] Instance FileStamp_eq_dec : EqDecision FileStamp.
Proof. solve_decision. Defined.

Inductive TuStatus := Indexed | Partial | Crashed | Poisoned | Skipped | TimedOut.

#[global] Instance TuStatus_eq_dec : EqDecision TuStatus.
Proof. solve_decision. Defined.

Definition status_code (s : TuStatus) : N :=
  match s with Indexed => 0 | Partial => 1 | Crashed => 2 | Poisoned => 3 | Skipped => 4 | TimedOut => 5 end.

(** [static_cast<TuStatus>(status)], after the range check. *)
Definition status_of (n : N) : option TuStatus :=
  match n with 0 => Some Indexed | 1 => Some Partial | 2 => Some Crashed | 3 => Some Poisoned
             | 4 => Some Skipped | 5 => Some TimedOut | _ => None end%N.

Record TuOutcome := MkOutcome { oc_status : TuStatus; oc_detail : bytes }.

#[global] Instance TuOutcome_eq_dec : EqDecision TuOutcome.
Proof. solve_decision. Defined.

(** [TuOutcome{}]. *)
Definition no_outcome : TuOutcome := MkOutcome Skipped [].

Record ChannelTypeSpec := MkSpec {
  qualifiedTypeName : bytes;
  produceMethods : list bytes;
  consumeMethods : list bytes;
  spec_category : bytes
}.

#[global] Instance ChannelTypeSpec_eq_dec : EqDecision ChannelTypeSpec.
Proof. solve_decision. Defined.

Record IndexProvenance := MkProvenance {
  analyzer : bytes; toolchain : bytes; environment : bytes; bakeStartNs : N
}.

Record SnapshotMeta := MkMeta {
  collapsePaths : list bytes;
  lockAllowlist : list bytes;
  lockBuiltins : bool;
  channelTypes : list ChannelTypeSpec;
  files : list FileStamp;
  deps : list FileStamp;
  tuDeps : list (list N);
  entryPoints : list bytes;
  fingerprints : list bytes;
  outcomes : list TuOutcome;
  provenance : IndexProvenance
}.

(** * Encoding *)

Definition emitChannelTypeSpec (spec : ChannelTypeSpec) : bytes :=
  putLenStr (qualifiedTypeName spec) ++ put_list putLenStr (produceMethods spec) ++
  put_list putLenStr (consumeMethods spec) ++ putLenStr (spec_category spec).

Definition emitStamp (f : FileStamp) : bytes :=
  putLenStr (fs_path f) ++ putU64 (fs_mtimeNs f) ++ putU64 (fs_size f).

(** [i < v.size() ? v\[i\] : none], for every unit of the meta. *)
Definition per_tu {A} (none : A) (m : SnapshotMeta) (v : list A) : list A :=
  (fun i => default none (v !! i)) <$> seq 0 (length (files m)).

Definition emitOutcome (fo : bytes * TuOutcome) : bytes :=
  putLenStr fo.1 ++ putU8 (status_code (oc_status fo.2)) ++ putLenStr (oc_detail fo.2).

Definition emitMeta (m : SnapshotMeta) : bytes :=
  put_list putLenStr (collapsePaths m) ++ put_list putLenStr (lockAllowlist m) ++ put_bool (lockBuiltins m) ++
  put_list emitChannelTypeSpec (channelTypes m) ++ put_list emitStamp (files m) ++
  put_list putLenStr (entryPoints m) ++ put_list emitStamp (deps m) ++
  (per_tu [] m (tuDeps m) ≫= put_list putU32) ++
  putLenStr (analyzer (provenance m)) ++ putLenStr (toolchain (provenance m)) ++
  putLenStr (environment (provenance m)) ++ putU64 (bakeStartNs (provenance m)) ++
  (zip (per_tu [] m (fingerprints m)) (per_tu no_outcome m (outcomes m)) ≫= emitOutcome).

(** * Decoding *)

Definition readChannelTypeSpec : M ChannelTypeSpec :=
  name <-- r_lenStr;; produce <-- r_list r_lenStr;; consume <-- r_list r_lenStr;; category <-- r_lenStr;;
  ret (MkSpec name produce consume category).

Definition readStamp : M FileStamp := p <-- r_lenStr;; t <-- r_u64;; s <-- r_u64;; ret (MkStamp p t s).

(** One dependency id of a unit, which must be one of the table. *)
Definition readDep (depCount : nat) (l : list N) : M (list N) :=
  id <-- r_u32;;
  if (N.of_nat depCount <=? id)%N then (_ <-- fail_reader;; ret l) else ret (l ++ [id]).

Definition readTuDeps (depCount : nat) (acc : list (list N)) : M (list (list N)) :=
  l <-- for_count (readDep depCount) [];; ret (acc ++ [l]).

Definition readOutcome (acc : list bytes * list TuOutcome) : M (list bytes * list TuOutcome) :=
  fp <-- r_lenStr;; status <-- r_u8;;
  match status_of status with
  | None => _ <-- fail_reader;; ret acc
  | Some s => detail <-- r_lenStr;; ret (acc.1 ++ [fp], acc.2 ++ [MkOutcome s detail])
  end.

(** [readMeta] answers [r.ok]; a meta read by a failed reader is thrown away. *)
Definition readMeta : M SnapshotMeta :=
  collapse <-- r_list r_lenStr;; locks <-- r_list r_lenStr;; builtins <-- r_bool;;
  types <-- r_list readChannelTypeSpec;; fs <-- r_list readStamp;; entries <-- r_list r_lenStr;;
  ds <-- r_list readStamp;; tds <-- loop (length fs) (readTuDeps (length ds)) [];;
  an <-- r_lenStr;; tc <-- r_lenStr;; env <-- r_lenStr;; start <-- r_u64;;
  fo <-- loop (length fs) readOutcome ([], []);;
  ret (MkMeta collapse locks builtins types fs ds tds entries fo.1 fo.2 (MkProvenance an tc env start)).

(** * Round trip *)

(** What the encoding can hold: lengths and counts of 32 bits, times and sizes of 64, and
    dependency ids that name a dependency. *)
Definition stamp_fits (f : FileStamp) : Prop :=
  len_fits (fs_path f) /\ (fs_mtimeNs f < 2 ^ 64)%N /\ (fs_size f < 2 ^ 64)%N.

Definition strings_fit (l : list bytes) : Prop := len_fits l /\ Forall len_fits l.

Definition spec_fits (s : ChannelTypeSpec) : Prop :=
  len_fits (qualifiedTypeName s) /\ strings_fit (produceMethods s) /\ strings_fit (consumeMethods s) /\
  len_fits (spec_category s).

Record meta_fits (m : SnapshotMeta) : Prop := {
  mf_collapse : strings_fit (collapsePaths m);
  mf_locks : strings_fit (lockAllowlist m);
  mf_types : len_fits (channelTypes m) /\ Forall spec_fits (channelTypes m);
  mf_files : len_fits (files m) /\ Forall stamp_fits (files m);
  mf_entries : strings_fit (entryPoints m);
  mf_deps : len_fits (deps m) /\ Forall stamp_fits (deps m);
  mf_tuDeps : Forall (fun l => len_fits l /\ Forall (fun id => (id < N.of_nat (length (deps m)))%N) l) (tuDeps m);
  mf_prov : len_fits (analyzer (provenance m)) /\ len_fits (toolchain (provenance m)) /\
            len_fits (environment (provenance m)) /\ (bakeStartNs (provenance m) < 2 ^ 64)%N;
  mf_prints : Forall len_fits (fingerprints m);
  mf_outcomes : Forall (fun o => len_fits (oc_detail o)) (outcomes m)
}.

(** The meta with one entry per unit in the columns that run parallel to the units. *)
Definition canonical_meta (m : SnapshotMeta) : SnapshotMeta :=
  MkMeta (collapsePaths m) (lockAllowlist m) (lockBuiltins m) (channelTypes m) (files m) (deps m)
    (per_tu [] m (tuDeps m)) (entryPoints m) (per_tu [] m (fingerprints m)) (per_tu no_outcome m (outcomes m)) (provenance m).

Lemma reads_strings l : strings_fit l -> reads (r_list r_lenStr) (put_list putLenStr l) l.
Proof.
  intros [Hl Hf]. rewrite Forall_forall in Hf. apply reads_list; [done|].
  intros a Ha. split; [by apply reads_lenStr, Hf|apply length_putLenStr].
Qed.

Lemma reads_spec s : spec_fits s -> reads readChannelTypeSpec (emitChannelTypeSpec s) s.
Proof.
  intros (H1 & H2 & H3 & H4). unfold readChannelTypeSpec, emitChannelTypeSpec.
  eapply reads_bind; [by apply reads_lenStr|]. eapply reads_bind; [by apply reads_strings|].
  eapply reads_bind; [by apply reads_strings|]. eapply reads_bind_last; [by apply reads_lenStr|].
  destruct s. apply reads_ret.
Qed.

Lemma reads_stamp f : stamp_fits f -> reads readStamp (emitStamp f) f.
Proof.
  intros (H1 & H2 & H3). unfold readStamp, emitStamp.
  eapply reads_bind; [by apply reads_lenStr|]. eapply reads_bind; [by apply reads_u64|].
  eapply reads_bind_last; [by apply reads_u64|]. destruct f. apply reads_ret.
Qed.

Lemma length_emit_app (s : bytes) (l : bytes) : 1 <= length (putLenStr s ++ l).
Proof. rewrite length_app. pose proof (length_putLenStr s). lia. Qed.

Lemma reads_stamps l : len_fits l -> Forall stamp_fits l -> reads (r_list readStamp) (put_list emitStamp l) l.
Proof.
  intros Hl Hf. rewrite Forall_forall in Hf. apply reads_list; [done|].
  intros a Ha. split; [by apply reads_stamp, Hf|apply length_emit_app].
Qed.

Lemma reads_tuDeps depCount l acc : len_fits l -> Forall (fun id => (id < N.of_nat depCount)%N) l ->
  (N.of_nat depCount < two32)%N -> reads (readTuDeps depCount acc) (put_list putU32 l) (acc ++ [l]).
Proof.
  intros Hl Hf Hd. eapply reads_bind_last; [|apply reads_ret].
  pose proof (foldl_snoc l []) as E. cbn in E. rewrite <- E at 2.
  rewrite Forall_forall in Hf. apply (reads_for _ _ putU32 (fun _ => True)); [done|done|intros; by rewrite length_putU32; lia|].
  intros s x _ Hx. split; [|done]. specialize (Hf x Hx). unfold readDep.
  eapply reads_bind_last; [apply reads_u32; unfold u32_fits; cbn in Hf; lia|].
  rewrite (proj2 (N.leb_gt _ _)) by done. apply reads_ret.
Qed.

Lemma status_roundtrip s : status_of (status_code s) = Some s.
Proof. by destruct s. Qed.

Lemma reads_outcome fo acc : len_fits fo.1 -> len_fits (oc_detail fo.2) ->
  reads (readOutcome acc) (emitOutcome fo) (acc.1 ++ [fo.1], acc.2 ++ [fo.2]).
Proof.
  intros H1 H2. unfold readOutcome, emitOutcome.
  eapply reads_bind; [by apply reads_lenStr|]. eapply reads_bind; [apply reads_u8; by destruct (oc_status fo.2)|].
  rewrite status_roundtrip. eapply reads_bind_last; [by apply reads_lenStr|].
  destruct fo as [fp []]. apply reads_ret.
Qed.

Lemma per_tu_length {A} (none : A) m v : length (per_tu none m v) = length (files m).
Proof. unfold per_tu. by rewrite length_fmap, length_seq. Qed.

Lemma per_tu_Forall {A} (P : A -> Prop) (none : A) m v : P none -> Forall P v -> Forall P (per_tu none m v).
Proof.
  intros Hn Hv. unfold per_tu. apply Forall_fmap, Forall_forall. intros i _. cbn.
  destruct (v !! i) as [x|] eqn:E; cbn; [|done]. by eapply Forall_lookup_1.
Qed.

Lemma per_tu_parallel {A} (none : A) m v : length v = length (files m) -> per_tu none m v = v.
Proof.
  intros Hl. unfold per_tu. rewrite <- Hl. apply list_eq. intros i. rewrite list_lookup_fmap.
  destruct (decide (i < length v)) as [Hi|Hi].
  - rewrite lookup_seq_lt by done. cbn. destruct (lookup_lt_is_Some_2 v i Hi) as [x ->]. done.
  - rewrite lookup_seq_ge by lia. cbn. symmetry. apply lookup_ge_None. lia.
Qed.

Lemma foldl_zip {A B} (l : list A) (k : list B) acc : length l = length k ->
  foldl (fun s ab => (s.1 ++ [ab.1], s.2 ++ [ab.2])) acc (zip l k) = (acc.1 ++ l, acc.2 ++ k).
Proof.
  revert k acc. induction l as [|a l IH]; intros [|b k] [u v] Hl; try done; cbn.
  - by rewrite !app_nil_r.
  - rewrite IH by (by injection Hl). cbn. by rewrite <- !(assoc_L (++)).
Qed.

Lemma reads_meta m : meta_fits m -> reads readMeta (emitMeta m) (canonical_meta m).
Proof.
  intros [H1 H2 [H3 H3'] [H4 H4'] H5 [H6 H6'] H7 (H8 & H9 & H10 & H11) H12 H13]. unfold readMeta, emitMeta.
  eapply reads_bind; [by apply reads_strings|]. eapply reads_bind; [by apply reads_strings|].
  eapply reads_bind; [apply reads_bool|].
  eapply reads_bind; [apply reads_list; [exact H3|]; intros s Hs; split;
    [rewrite Forall_forall in H3'; by apply reads_spec, H3'|apply length_emit_app]|].
  eapply reads_bind; [by apply reads_stamps|]. eapply reads_bind; [by apply reads_strings|].
  eapply reads_bind; [by apply reads_stamps|].
  eapply (reads_bind _ _ _ _ (per_tu [] m (tuDeps m))).
  { pose proof (foldl_snoc (per_tu [] m (tuDeps m)) []) as E. cbn in E. rewrite <- E at 2.
    rewrite <- (per_tu_length [] m (tuDeps m)). apply (reads_loop _ _ _ (fun _ => True)); [done|].
    assert (Forall (fun l => len_fits l /\ Forall (fun id => (id < N.of_nat (length (deps m)))%N) l) (per_tu [] m (tuDeps m))) as Hf
      by (apply per_tu_Forall; [split; [done|constructor]|done]). rewrite Forall_forall in Hf.
    intros s l _ [Hl Hd]%Hf. split; [|done]. by apply reads_tuDeps. }
  eapply reads_bind; [by apply reads_lenStr|]. eapply reads_bind; [by apply reads_lenStr|].
  eapply reads_bind; [by apply reads_lenStr|]. eapply reads_bind; [by apply reads_u64|].
  eapply (reads_bind_last _ _ _ (per_tu [] m (fingerprints m), per_tu no_outcome m (outcomes m))).
  { pose proof (foldl_zip (per_tu [] m (fingerprints m)) (per_tu no_outcome m (outcomes m)) ([], [])
      ltac:(by rewrite !per_tu_length)) as E. cbn [fst snd app] in E. rewrite <- E.
    assert (length (zip (per_tu [] m (fingerprints m)) (per_tu no_outcome m (outcomes m))) = length (files m)) as El
      by (rewrite length_zip_with, !per_tu_length; lia).
    rewrite <- El at 1. apply (reads_loop _ _ _ (fun _ => True)); [done|]. intros s [fp oc] _ Hin. split; [|done].
    apply reads_outcome; cbn.
    - apply elem_of_zip_l in Hin. eapply Forall_forall; [|exact Hin]. by apply per_tu_Forall.
    - apply elem_of_zip_r in Hin.
      pose proof (per_tu_Forall (fun o => len_fits (oc_detail o)) no_outcome m (outcomes m) ltac:(done) H13) as Hf.
      rewrite Forall_forall in Hf. by apply Hf. }
  destruct m as [? ? ? ? ? ? ? ? ? ? []]. apply reads_ret.
Qed.

(** A saved meta decodes to itself, with an absent outcome, fingerprint or dependency list
    filled in for a unit the columns do not reach: nothing else of it changes, every byte
    is consumed, and a meta whose columns have one entry per unit comes back as it was. *)
Theorem meta_roundtrip (m : SnapshotMeta) (tl : bytes) :
  meta_fits m ->
  readMeta (MkReader (emitMeta m ++ tl) true) = (canonical_meta m, MkReader tl true) /\
  (length (tuDeps m) = length (files m) -> length (fingerprints m) = length (files m) ->
   length (outcomes m) = length (files m) -> canonical_meta m = m).
Proof.
  intros Hm. split; [by apply reads_meta|]. intros H1 H2 H3. unfold canonical_meta.
  rewrite !per_tu_parallel by done. by destruct m.
Qed.

Definition small_meta : SnapshotMeta :=
  MkMeta [str "third_party"] [] true [MkSpec (str "Queue") [str "push"] [str "pop"] (str "queue")]
    [MkStamp (str "/a.cpp") 5 7; MkStamp (str "/b.cpp") 6 8] [MkStamp (str "/a.h") 3 4] [[0%N]] [str "main"]
    [str "f0"] [MkOutcome Indexed []] (MkProvenance (str "an") (str "tc") (str "env") 9).

Lemma small_meta_fits : meta_fits small_meta.
Proof.
  unfold small_meta. split; cbn; repeat split; repeat constructor; try done; vm_compute; done.
Qed.

Lemma meta_roundtrip_witness :
  readMeta (MkReader (emitMeta small_meta ++ str "x") true) = (canonical_meta small_meta, MkReader (str "x") true) /\
  outcomes (canonical_meta small_meta) = [MkOutcome Indexed []; no_outcome].
Proof.
  split; [|reflexivity]. exact (proj1 (meta_roundtrip small_meta (str "x") small_meta_fits)).
Defined.
