(* ===== verification/Staleness.v ===== *)
(** What a warm start trusts (src/callgraph/Snapshot.cpp, lines 1352-1604): which units
    must be parsed again, which stamps cannot be trusted, and how the dependencies and
    outcomes of a bake are recorded in the meta.

    [stat] is the file system: modification time and size of a file that exists. *)

From S2P Require Import Prelude Results Codec SnapshotMeta.

Abbreviation TuDependencies := (gmap bytes (list FileStamp)).
Abbreviation TuOutcomes := (gmap bytes TuOutcome).

Section Stamps.
Variable stat : bytes -> option (N * N).

Definition stamp_of (f : bytes) : FileStamp :=
  match stat f with Some (t, s) => MkStamp f t s | None => MkStamp f 0 0 end.

Definition stampFiles (fs : list bytes) : list FileStamp := stamp_of <$> fs.
End Stamps.

Definition kNsPerSecond : N := 1000000000.

Definition whole_second (t : N) : N := (t - t mod kNsPerSecond)%N.

Definition sameParsedVersion (recorded now : FileStamp) : bool :=
  negb (fs_mtimeNs recorded =? 0)%N && (fs_size recorded =? fs_size now)%N &&
  (fs_mtimeNs recorded =? whole_second (fs_mtimeNs now))%N.

Definition sameTuVersion (recorded now : FileStamp) : bool :=
  negb (fs_mtimeNs recorded =? 0)%N && bool_decide (recorded = now).

Definition tuStatusName (status : TuStatus) : bytes :=
  match status with
  | Indexed => str "indexed" | Partial => str "partial" | Crashed => str "crashed"
  | Poisoned => str "poisoned" | Skipped => str "skipped" | TimedOut => str "timeout"
  end.

(** * Coverage *)

(** [i < meta.outcomes.size() ? meta.outcomes\[i\].status : TuStatus::Skipped]. *)
Definition status_at (m : SnapshotMeta) (i : nat) : TuStatus :=
  match outcomes m !! i with Some o => oc_status o | None => Skipped end.

Definition count_status (c : IndexCoverage) (s : TuStatus) : IndexCoverage :=
  match s with
  | Indexed => MkCoverage (requested c) (indexed c + 1) (partial c) (failed c)
  | Partial => MkCoverage (requested c) (indexed c) (partial c + 1) (failed c)
  | _ => MkCoverage (requested c) (indexed c) (partial c) (failed c + 1)
  end.

Definition coverageOf (m : SnapshotMeta) : IndexCoverage :=
  foldl (fun c i => count_status c (status_at m i))
    (MkCoverage (N.of_nat (length (files m))) 0 0 0) (seq 0 (length (files m))).

(** * Dirty units *)

Inductive DirtyReason := Clean | Stamp | Inputs | Deps | Retry.

#[global] Instance DirtyReason_eq_dec : EqDecision DirtyReason.
Proof. solve_decision. Defined.

Record DirtyReport := MkReport {
  viaInputs : nat;
  viaDeps : nat;
  retried : nat;
  reasons : list DirtyReason;
  detail : list bytes
}.

Definition stampText (fs : FileStamp) : bytes :=
  if (fs_mtimeNs fs =? 0)%N then str "unstable or absent"
  else str "mtime " ++ to_string (fs_mtimeNs fs / kNsPerSecond) ++ str "." ++
       to_string (fs_mtimeNs fs mod kNsPerSecond) ++ str " size " ++ to_string (fs_size fs).

(** [recorded\[meta.files\[i\].path\] = i] for every unit: the last one wins. *)
Definition recorded_paths (m : SnapshotMeta) : gmap bytes nat :=
  foldl (fun acc i => match files m !! i with Some f => <[fs_path f := i]> acc | None => acc end)
    ∅ (seq 0 (length (files m))).

Section Dirty.
Variables (stat : bytes -> option (N * N)) (m : SnapshotMeta) (fingerprints0 : option (list bytes)).

Definition depsNow : list FileStamp := stampFiles stat (fs_path <$> deps m).

Definition depChanged : list bool := zip_with (fun d now => negb (sameParsedVersion d now)) (deps m) depsNow.

(** The fingerprint test: skipped without current fingerprints, and a missing one differs. *)
Definition inputs_changed (r i : nat) : bool :=
  match fingerprints0 with
  | None => false
  | Some fps =>
      match fingerprints m !! r, fps !! i with
      | Some a, Some b => negb (bool_decide (a = b))
      | _, _ => true
      end
  end.

(** The first dependency of a recorded unit that changed. *)
Definition changed_dep (r : nat) : option N :=
  match tuDeps m !! r with
  | None => None
  | Some l => List.find (fun id => match depChanged !! N.to_nat id with Some b => b | None => false end) l
  end.

Definition needs_retry (r : nat) : bool :=
  match outcomes m with
  | [] => false
  | _ => match outcomes m !! r with Some o => negb (bool_decide (oc_status o = Indexed)) | None => true end
  end.

(** The body of the loop for the [i]-th selected unit: the reason and its evidence. *)
Definition classify (i : nat) (cur : FileStamp) : DirtyReason * bytes :=
  match recorded_paths m !! fs_path cur with
  | None => (Stamp, str "not recorded in the index")
  | Some r =>
      let f := default (MkStamp [] 0 0) (files m !! r) in
      if negb (sameTuVersion f cur) then
        (Stamp, str "own stamp changed (recorded " ++ stampText f ++ str ", now " ++ stampText cur ++ str ")")
      else if inputs_changed r i then (Inputs, str "compile inputs changed (fingerprint differs)")
      else match changed_dep r with
           | Some id =>
               let d := default (MkStamp [] 0 0) (deps m !! N.to_nat id) in
               let now := default (MkStamp [] 0 0) (depsNow !! N.to_nat id) in
               (Deps, str "opened file changed: " ++ fs_path d ++ str " (recorded " ++ stampText d ++
                      str ", now " ++ stampText now ++ str ")")
           | None => if needs_retry r then (Retry, str "last parse did not end indexed") else (Clean, [])
           end
  end.

Definition note_reason (why : DirtyReport) (rd : DirtyReason * bytes) : DirtyReport :=
  MkReport (viaInputs why + if decide (rd.1 = Inputs) then 1 else 0)
    (viaDeps why + if decide (rd.1 = Deps) then 1 else 0)
    (retried why + if decide (rd.1 = Retry) then 1 else 0)
    (reasons why ++ [rd.1]) (detail why ++ [rd.2]).

Definition dirtyTUs (current : list FileStamp) : list bool * DirtyReport :=
  let rds := imap classify current in
  ((fun rd => negb (bool_decide (rd.1 = Clean))) <$> rds, foldl note_reason (MkReport 0 0 0 [] []) rds).
End Dirty.

(** * Recording *)

Definition mark_unstable (bakeSecondNs : N) (fs : FileStamp) : FileStamp * nat :=
  if negb (fs_mtimeNs fs =? 0)%N && (bakeSecondNs <=? fs_mtimeNs fs)%N
  then (MkStamp (fs_path fs) 0 (fs_size fs), 1) else (fs, 0).

Definition with_stamps (fs ds : list FileStamp) (m : SnapshotMeta) : SnapshotMeta :=
  MkMeta (collapsePaths m) (lockAllowlist m) (lockBuiltins m) (channelTypes m) fs ds (tuDeps m)
    (entryPoints m) (fingerprints m) (outcomes m) (provenance m).

Definition markUnstableStamps (m : SnapshotMeta) (bakeStart : N) : SnapshotMeta * nat :=
  let second := whole_second bakeStart in
  let fs := mark_unstable second <$> files m in
  let ds := mark_unstable second <$> deps m in
  (with_stamps (fst <$> fs) (fst <$> ds) m, sum_list (snd <$> fs) + sum_list (snd <$> ds)).

Definition dependenciesOf (m : SnapshotMeta) : TuDependencies :=
  foldl (fun out i =>
           match files m !! i, tuDeps m !! i with
           | Some f, Some l =>
               <[fs_path f := default [] (out !! fs_path f) ++ omap (fun id => deps m !! N.to_nat id) l]> out
           | _, _ => out
           end) ∅ (seq 0 (length (files m))).

(** The state of [recordDependencies]: the table, the ids by path, and one unit's row. *)
Definition record_dep (st : list FileStamp * gmap bytes N * list N) (d : FileStamp) : list FileStamp * gmap bytes N * list N :=
  let '(table, ids, row) := st in
  match ids !! fs_path d with
  | None =>
      let id := size32 table in (table ++ [d], <[fs_path d := id]> ids, row ++ [id])
  | Some id =>
      let table' := match table !! N.to_nat id with
                    | Some kept => if (fs_mtimeNs d <? fs_mtimeNs kept)%N then <[N.to_nat id := d]> table else table
                    | None => table
                    end in
      (table', ids, row ++ [id])
  end.

Definition record_tu (tds : TuDependencies) (st : list FileStamp * gmap bytes N * list (list N)) (f : FileStamp)
    : list FileStamp * gmap bytes N * list (list N) :=
  let '(table, ids, rows) := st in
  match tds !! fs_path f with
  | None => (table, ids, rows ++ [[]])
  | Some l => let '(table', ids', row) := foldl record_dep (table, ids, []) l in (table', ids', rows ++ [row])
  end.

Definition recordDependencies (m : SnapshotMeta) (tds : TuDependencies) : SnapshotMeta :=
  let '(table, _, rows) := foldl (record_tu tds) ([], ∅, []) (files m) in
  MkMeta (collapsePaths m) (lockAllowlist m) (lockBuiltins m) (channelTypes m) (files m) table rows
    (entryPoints m) (fingerprints m) (outcomes m) (provenance m).

Definition outcomesOf (m : SnapshotMeta) : TuOutcomes :=
  foldl (fun out i => match files m !! i, outcomes m !! i with
                      | Some f, Some o => <[fs_path f := o]> out
                      | _, _ => out
                      end) ∅ (seq 0 (length (files m))).

Definition recordOutcomes (m : SnapshotMeta) (os : TuOutcomes) : SnapshotMeta :=
  MkMeta (collapsePaths m) (lockAllowlist m) (lockBuiltins m) (channelTypes m) (files m) (deps m) (tuDeps m)
    (entryPoints m) (fingerprints m)
    ((fun f => default (MkOutcome Skipped (str "no outcome recorded")) (os !! fs_path f)) <$> files m) (provenance m).

(** The loop of [unpublishableBake]: [None] once a unit was parsed. *)
Fixpoint all_skipped (requested0 : list bytes) (os : TuOutcomes) (missing : nat) (firstDetail : bytes)
    : option (nat * bytes) :=
  match requested0 with
  | [] => Some (missing, firstDetail)
  | tu :: rest0 =>
      match os !! tu with
      | None => all_skipped rest0 os (S missing) firstDetail
      | Some o =>
          if decide (oc_status o = Skipped)
          then all_skipped rest0 os missing (match firstDetail with [] => oc_detail o | _ => firstDetail end)
          else None
      end
  end.

Definition unpublishableBake (requested0 : list bytes) (os : TuOutcomes) : bytes :=
  match requested0 with
  | [] => []
  | _ =>
      match all_skipped requested0 os 0 [] with
      | None => []
      | Some (missing, firstDetail) =>
          let n := length requested0 in
          str "the bake parsed none of the " ++ to_string (N.of_nat n) ++ str " selected TU(s) (" ++
          (if decide (missing = n) then str "no TU reported an outcome"
           else to_string (N.of_nat (n - missing)) ++ str " skipped" ++
                (match firstDetail with [] => [] | _ => str ": " ++ firstDetail end) ++
                (if decide (missing = 0) then [] else str ", " ++ to_string (N.of_nat missing) ++ str " without an outcome")) ++
          str ")"
      end
  end.

(** * Facts *)

(** [r] is the last unit recorded under the path. *)
Definition latest (m : SnapshotMeta) (p : bytes) (r : nat) : Prop :=
  (exists f, files m !! r = Some f /\ fs_path f = p) /\
  forall r' f, r < r' -> files m !! r' = Some f -> fs_path f <> p.

Lemma recorded_paths_spec m p :
  match recorded_paths m !! p with
  | Some r => latest m p r
  | None => forall r f, files m !! r = Some f -> fs_path f <> p
  end.
Proof.
  unfold recorded_paths, latest. set (step := fun acc i => _).
  assert (forall n, match foldl step ∅ (seq 0 n) !! p with
    | Some r => (exists f, files m !! r = Some f /\ fs_path f = p) /\
        forall r' f, r < r' < n -> files m !! r' = Some f -> fs_path f <> p
    | None => forall r f, r < n -> files m !! r = Some f -> fs_path f <> p
    end) as H.
  { induction n as [|n IH]; [cbn; rewrite lookup_empty; intros; lia|]. rewrite seq_S, foldl_app. cbn [foldl Nat.add]. unfold step at 1.
    destruct (files m !! n) as [f|] eqn:Ef.
    - destruct (decide (fs_path f = p)) as [E|E].
      + rewrite E, lookup_insert_eq. split; [by exists f|]. intros; lia.
      + rewrite lookup_insert_ne by done. destruct (foldl step ∅ (seq 0 n) !! p) as [r|].
        * destruct IH as [H1 H2]. split; [done|]. intros r' f' Hr Hf'. destruct (decide (r' = n)) as [->|]; [congruence|].
          apply (H2 r'); [lia|done].
        * intros r f' Hr Hf'. destruct (decide (r = n)) as [->|]; [congruence|]. apply (IH r); [lia|done].
    - destruct (foldl step ∅ (seq 0 n) !! p) as [r|].
      + destruct IH as [H1 H2]. split; [done|]. intros r' f' Hr Hf'. destruct (decide (r' = n)) as [->|]; [congruence|].
        apply (H2 r'); [lia|done].
      + intros r f' Hr Hf'. destruct (decide (r = n)) as [->|]; [congruence|]. apply (IH r); [lia|done]. }
  specialize (H (length (files m))). destruct (foldl step ∅ _ !! p) as [r|].
  - destruct H as [H1 H2]. split; [done|]. intros r' f Hr Hf. apply (H2 r'); [|done].
    split; [lia|]. by eapply lookup_lt_Some.
  - intros r f Hf. apply (H r); [|done]. by eapply lookup_lt_Some.
Qed.

(** A dependency is as it was recorded: it still exists with the recorded size, last
    modified within the recorded second. *)
Definition unchanged (stat : bytes -> option (N * N)) (d : FileStamp) : Prop :=
  fs_mtimeNs d <> 0%N /\ exists t, stat (fs_path d) = Some (t, fs_size d) /\ whole_second t = fs_mtimeNs d.

Lemma sameParsedVersion_spec stat d :
  sameParsedVersion d (stamp_of stat (fs_path d)) = true <-> unchanged stat d.
Proof.
  unfold sameParsedVersion, unchanged, stamp_of. rewrite !andb_true_iff, negb_true_iff, N.eqb_neq, !N.eqb_eq.
  destruct (stat (fs_path d)) as [[t s]|]; cbn [fs_mtimeNs fs_size].
  - split; [intros [[H1 H2] H3]; split; [done|]; exists t; split; congruence|].
    intros (H1 & t' & [= -> ->] & H2). done.
  - split; [|by intros (_ & t & ? & _)]. intros [[H1 _] H3]. by change (whole_second 0) with 0%N in H3.
Qed.

Lemma depChanged_spec stat m i d : deps m !! i = Some d ->
  depChanged stat m !! i = Some (negb (sameParsedVersion d (stamp_of stat (fs_path d)))).
Proof.
  intros H. unfold depChanged, depsNow, stampFiles. rewrite lookup_zip_with, H. cbn. rewrite !list_lookup_fmap, H. done.
Qed.

Lemma changed_dep_None stat m r :
  changed_dep stat m r = None <->
  forall l id d, tuDeps m !! r = Some l -> id ∈ l -> deps m !! N.to_nat id = Some d -> unchanged stat d.
Proof.
  unfold changed_dep. destruct (tuDeps m !! r) as [l|]; [|by split].
  set (P := fun id => _). split.
  - intros Hn l' id d [= <-] Hin Hd. pose proof (find_none P l Hn id) as H.
    rewrite <- list_elem_of_In in H. specialize (H Hin). unfold P in H. rewrite (depChanged_spec stat m _ d Hd) in H.
    apply negb_false_iff in H. by apply sameParsedVersion_spec.
  - intros H. destruct (List.find P l) as [id|] eqn:E; [|done]. exfalso. apply find_some in E as [Hin HP].
    apply list_elem_of_In in Hin. unfold P in HP. destruct (deps m !! N.to_nat id) as [d|] eqn:Ed.
    + rewrite (depChanged_spec stat m _ d Ed) in HP. apply negb_true_iff in HP.
      by rewrite (proj2 (sameParsedVersion_spec stat d) (H l id d eq_refl Hin Ed)) in HP.
    + assert (depChanged stat m !! N.to_nat id = None) as En; [|by rewrite En in HP].
      apply lookup_ge_None. apply lookup_ge_None in Ed. unfold depChanged. rewrite length_zip_with. lia.
Qed.

(** A unit whose facts in the index are those a parse would give now, as far as stamps,
    fingerprints and outcomes tell. *)
Record up_to_date (stat : bytes -> option (N * N)) (m : SnapshotMeta) (fps : option (list bytes)) (i : nat)
    (cur : FileStamp) (r : nat) : Prop := {
  utd_recorded : latest m (fs_path cur) r;
  utd_stamp : files m !! r = Some cur /\ fs_mtimeNs cur <> 0%N;
  utd_inputs : forall l, fps = Some l -> exists fp, fingerprints m !! r = Some fp /\ l !! i = Some fp;
  utd_deps : forall l id d, tuDeps m !! r = Some l -> id ∈ l -> deps m !! N.to_nat id = Some d -> unchanged stat d;
  utd_outcome : outcomes m = [] \/ exists o, outcomes m !! r = Some o /\ oc_status o = Indexed
}.

Lemma inputs_changed_spec m fps r i :
  inputs_changed m fps r i = false <->
  forall l, fps = Some l -> exists fp, fingerprints m !! r = Some fp /\ l !! i = Some fp.
Proof.
  unfold inputs_changed. destruct fps as [l|]; [|by split].
  destruct (fingerprints m !! r) as [a|], (l !! i) as [b|] eqn:Eb; split; try done; try (intros H; destruct (H l eq_refl) as (fp & H1 & H2); congruence).
  - intros H%negb_false_iff%bool_decide_eq_true l' [= <-]. exists a. by subst.
  - intros H. destruct (H l eq_refl) as (fp & [= ->] & H2). rewrite Eb in H2. injection H2 as ->.
    by rewrite bool_decide_eq_true_2.
Qed.

Lemma needs_retry_spec m r :
  needs_retry m r = false <-> outcomes m = [] \/ exists o, outcomes m !! r = Some o /\ oc_status o = Indexed.
Proof.
  unfold needs_retry. destruct (outcomes m) as [|o0 l] eqn:E; [split; [by left|done]|].
  destruct ((o0 :: l) !! r) as [o|]; split.
  - intros H%negb_false_iff%bool_decide_eq_true. right. by exists o.
  - intros [?|(o' & [= <-] & H)]; [done|]. by rewrite bool_decide_eq_true_2.
  - done.
  - by intros [?|(o & ? & _)].
Qed.

Lemma classify_clean stat m fps i cur :
  (classify stat m fps i cur).1 = Clean <-> exists r, up_to_date stat m fps i cur r.
Proof.
  unfold classify. pose proof (recorded_paths_spec m (fs_path cur)) as Hrec.
  assert (forall r r', latest m (fs_path cur) r -> latest m (fs_path cur) r' -> r = r') as Huniq.
  { intros r r' [(f & Hf & E) H] [(f' & Hf' & E') H']. destruct (Nat.lt_trichotomy r r') as [Hl|[?|Hl]]; [|done|].
    - by destruct (H r' f' Hl Hf').
    - by destruct (H' r f Hl Hf). }
  destruct (recorded_paths m !! fs_path cur) as [r|].
  2:{ split; [done|]. intros [r [_ [Hf _] _ _ _]]. by destruct (Hrec r cur Hf). }
  destruct (proj1 Hrec) as (f & Hf & Ef). rewrite Hf. cbn [default from_option id].
  assert (forall P : Prop, (exists r', up_to_date stat m fps i cur r') -> (up_to_date stat m fps i cur r -> P) -> P) as Hr.
  { intros P [r' H'] HP. apply HP. by rewrite (Huniq r r' Hrec (utd_recorded _ _ _ _ _ _ H')). }
  unfold sameTuVersion. destruct (negb (negb (fs_mtimeNs f =? 0)%N && bool_decide (f = cur))) eqn:Es.
  { split; [done|]. intros H. apply (Hr _ H). intros [_ [H1 H2] _ _ _]. assert (f = cur) as -> by (cbn in Hf; congruence).
    rewrite bool_decide_eq_true_2 in Es by done. apply N.eqb_neq in H2. by rewrite H2 in Es. }
  apply negb_false_iff, andb_true_iff in Es as [Et%negb_true_iff%N.eqb_neq Es%bool_decide_eq_true]. cbn in Es. subst f.
  destruct (inputs_changed m fps r i) eqn:Ei.
  { split; [done|]. intros H. apply (Hr _ H). intros [_ _ H3 _ _]. apply inputs_changed_spec in H3. congruence. }
  destruct (changed_dep stat m r) as [id|] eqn:Ed.
  { split; [done|]. intros H. apply (Hr _ H). intros [_ _ _ H4 _]. apply changed_dep_None in H4. congruence. }
  destruct (needs_retry m r) eqn:En.
  { split; [done|]. intros H. apply (Hr _ H). intros [_ _ _ _ H5]. apply needs_retry_spec in H5. congruence. }
  split; [|done]. intros _. exists r. split; [done|done|by apply inputs_changed_spec|by apply changed_dep_None|by apply needs_retry_spec].
Qed.

Lemma note_reasons_fold rds why :
  let out := foldl note_reason why rds in
  reasons out = reasons why ++ rds.*1 /\ detail out = detail why ++ rds.*2 /\
  viaInputs out = viaInputs why + length (filter (fun rd => rd.1 = Inputs) rds) /\
  viaDeps out = viaDeps why + length (filter (fun rd => rd.1 = Deps) rds) /\
  retried out = retried why + length (filter (fun rd => rd.1 = Retry) rds).
Proof.
  revert why. induction rds as [|rd rds IH]; intros why; cbn [foldl fmap list_fmap].
  { rewrite !app_nil_r, filter_nil. cbn. rewrite !Nat.add_0_r. done. }
  destruct (IH (note_reason why rd)) as (E1 & E2 & E3 & E4 & E5). cbv zeta. rewrite E1, E2, E3, E4, E5.
  unfold note_reason. cbn [reasons detail viaInputs viaDeps retried]. rewrite <- !(assoc_L (++)). rewrite !filter_cons.
  split_and!; try done; destruct (decide _); cbn; lia.
Qed.

(** [dirtyTUs] answers one flag per selected unit; a unit is kept exactly when the index
    has it under its path with the very stamp, the recorded compile inputs are the current
    ones, every file its parse opened is unchanged, and its last parse ended well.  The
    report agrees with the flags, and its counters count its reasons. *)
Theorem dirty_units_exact (stat : bytes -> option (N * N)) (m : SnapshotMeta) (fps : option (list bytes))
    (current : list FileStamp) :
  let flags := (dirtyTUs stat m fps current).1 in
  let report := (dirtyTUs stat m fps current).2 in
  (forall i cur, current !! i = Some cur ->
     flags !! i = Some false <-> exists r, up_to_date stat m fps i cur r) /\
  length flags = length current /\
  flags = (fun r => negb (bool_decide (r = Clean))) <$> reasons report /\
  viaInputs report = length (filter (fun r => r = Inputs) (reasons report)) /\
  viaDeps report = length (filter (fun r => r = Deps) (reasons report)) /\
  retried report = length (filter (fun r => r = Retry) (reasons report)).
Proof.
  unfold dirtyTUs. cbv zeta. cbn [fst snd].
  destruct (note_reasons_fold (imap (classify stat m fps) current) (MkReport 0 0 0 [] [])) as (E1 & _ & E3 & E4 & E5).
  rewrite E1, E3, E4, E5. cbn [app reasons viaInputs viaDeps retried Nat.add].
  assert (forall (l : list (DirtyReason * bytes)) x, length (filter (fun rd => rd.1 = x) l) = length (filter (fun r => r = x) (l.*1))) as Hc.
  { intros l x. induction l as [|rd l IH]; [done|]. cbn [fmap list_fmap]. rewrite !filter_cons. case_decide; cbn; by rewrite IH. }
  split_and!; [|by rewrite length_fmap, length_imap|by rewrite <- list_fmap_compose|apply Hc..].
  intros i cur Hi. rewrite list_lookup_fmap, list_lookup_imap, Hi. cbn. rewrite <- classify_clean.
  split; [intros [= H]; by apply negb_false_iff, bool_decide_eq_true in H|]. intros H. f_equal.
  by apply negb_false_iff, bool_decide_eq_true.
Qed.

(** ** Unstable stamps *)

Definition unstable (second : N) (f : FileStamp) : Prop := fs_mtimeNs f <> 0%N /\ (second <= fs_mtimeNs f)%N.

#[global] Instance unstable_dec second f : Decision (unstable second f).
Proof. unfold unstable. apply _. Defined.

Lemma mark_unstable_cases second f :
  mark_unstable second f =
  if decide (unstable second f) then (MkStamp (fs_path f) 0 (fs_size f), 1) else (f, 0).
Proof.
  unfold mark_unstable, unstable. destruct (N.eqb_spec (fs_mtimeNs f) 0), (N.leb_spec second (fs_mtimeNs f)); cbn;
    (rewrite decide_True by (split; done)) || (rewrite decide_False by (intros []; lia)); done.
Qed.

Definition marked (second : N) (v : list FileStamp) : list FileStamp := fst <$> (mark_unstable second <$> v).

Lemma marked_lookup second v (i : nat) d : marked second v !! i = Some d ->
  exists f, v !! i = Some f /\ fs_path f = fs_path d /\ fs_size f = fs_size d /\
    (fs_mtimeNs d <> 0%N -> f = d /\ (fs_mtimeNs d < second)%N).
Proof.
  unfold marked. rewrite !list_lookup_fmap. destruct (v !! i) as [f|]; [|done]. intros [= <-]. exists f.
  rewrite mark_unstable_cases. case_decide as Hu; cbn; [done|]. split_and!; try done. intros H. split; [done|].
  destruct (N.lt_ge_cases (fs_mtimeNs f) second); [done|]. by destruct Hu.
Qed.

Lemma marked_paths second v : fs_path <$> marked second v = fs_path <$> v /\ fs_size <$> marked second v = fs_size <$> v.
Proof.
  unfold marked. rewrite <- !list_fmap_compose. split; apply list_fmap_ext; intros _ f _; cbn; rewrite mark_unstable_cases; by case_decide.
Qed.

Lemma marked_count second v : sum_list (snd <$> (mark_unstable second <$> v)) = length (filter (unstable second) v).
Proof.
  induction v as [|f v IH]; [done|]. cbn [fmap list_fmap] in *. rewrite filter_cons. cbn [sum_list sum_list_with].
  rewrite mark_unstable_cases. case_decide; cbn in *; by rewrite IH.
Qed.

Lemma latest_unique m m' p r r' : fs_path <$> files m = fs_path <$> files m' -> latest m p r -> latest m' p r' -> r = r'.
Proof.
  intros E [(f & Hf & Ef) H] [(f' & Hf' & Ef') H'].
  assert (forall (v w : list FileStamp) (j : nat) g, fs_path <$> v = fs_path <$> w -> v !! j = Some g ->
    exists g', w !! j = Some g' /\ fs_path g' = fs_path g) as Hmove.
  { intros v w j g Ew Hg. apply (f_equal (.!! j)) in Ew. rewrite !list_lookup_fmap, Hg in Ew. destruct (w !! j) as [g'|]; [|done].
    exists g'. split; [done|]. by injection Ew. }
  destruct (Nat.lt_trichotomy r r') as [Hl|[?|Hl]]; [|done|]; exfalso.
  - destruct (Hmove (files m') (files m) r' f') as (g & Hg & Eg); [done|done|]. apply (H r' g Hl Hg). congruence.
  - destruct (Hmove (files m) (files m') r f) as (g & Hg & Eg); [done|done|]. apply (H' r g Hl Hg). congruence.
Qed.

(** A unit kept against a meta whose unstable stamps were marked was last modified before
    the second the bake started in, and so was every file its parse opened: what changed
    while the bake ran is parsed again.  Marking changes no path or size, and the
    number it returns is the number of stamps it reset. *)
Theorem kept_units_are_older (stat : bytes -> option (N * N)) (m : SnapshotMeta) (bakeStart : N)
    (fps : option (list bytes)) (current : list FileStamp) (i : nat) (cur : FileStamp) :
  let m' := (markUnstableStamps m bakeStart).1 in
  let second := whole_second bakeStart in
  current !! i = Some cur -> (dirtyTUs stat m' fps current).1 !! i = Some false ->
  (fs_mtimeNs cur < second)%N /\
  (forall r l id d, latest m (fs_path cur) r -> tuDeps m !! r = Some l -> id ∈ l -> deps m !! N.to_nat id = Some d ->
     exists t, stat (fs_path d) = Some (t, fs_size d) /\ (whole_second t < second)%N) /\
  fs_path <$> files m' = fs_path <$> files m /\ fs_size <$> files m' = fs_size <$> files m /\
  (markUnstableStamps m bakeStart).2 = length (filter (unstable second) (files m ++ deps m)).
Proof.
  intros m' second Hi Hflag. destruct (marked_paths second (files m)) as [Hpaths Hsizes].
  assert (exists r, up_to_date stat m' fps i cur r) as [r [Hrec [Hf Ht] _ Hd _]].
  { apply classify_clean. unfold dirtyTUs in Hflag. cbn [fst] in Hflag. rewrite list_lookup_fmap, list_lookup_imap, Hi in Hflag.
    cbn in Hflag. injection Hflag as Hflag. by apply negb_false_iff, bool_decide_eq_true in Hflag. }
  split_and!; [| |done|done|].
  - destruct (marked_lookup second (files m) r cur Hf) as (f & _ & _ & _ & H). by destruct (H Ht).
  - intros r0 l id d Hr0 Hl Hid Hdep. rewrite (latest_unique m m' _ r0 r (eq_sym Hpaths) Hr0 Hrec) in Hl.
    assert (deps m' !! N.to_nat id = Some (mark_unstable second d).1) as Hm by (cbn; by rewrite !list_lookup_fmap, Hdep).
    destruct (Hd l id _ Hl Hid Hm) as (Hne & t & Hst & Ht').
    destruct (marked_lookup second (deps m) (N.to_nat id) _ Hm) as (f & Hf' & _ & _ & H). destruct (H Hne) as [E Hlt].
    rewrite Hdep in Hf'. injection Hf' as ->. rewrite <- E in *. exists t. split; [done|]. by rewrite Ht'.
  - cbn. fold second. by rewrite filter_app, length_app, !marked_count.
Qed.

(** ** The dependency table *)

(** The table after the stamps [seen]: one entry per path, found by it, with the oldest
    stamp seen. *)
Record deptable_ok (seen table : list FileStamp) (ids : gmap bytes N) : Prop := {
  tb_ids : forall p id, ids !! p = Some id <-> exists s, table !! N.to_nat id = Some s /\ fs_path s = p;
  tb_seen : forall x, x ∈ seen -> is_Some (ids !! fs_path x);
  tb_oldest : forall i s, table !! i = Some s ->
    s ∈ seen /\ forall x, x ∈ seen -> fs_path x = fs_path s -> (fs_mtimeNs s <= fs_mtimeNs x)%N;
  tb_length : length table <= length seen
}.

(** The paths of a row of ids. *)
Definition row_paths (table : list FileStamp) (row : list N) : list (option bytes) :=
  (fun id => fs_path <$> table !! N.to_nat id) <$> row.

(** A table that only grew or got older stamps. *)
Definition table_grows (table table' : list FileStamp) : Prop :=
  forall i s, table !! i = Some s -> exists s', table' !! i = Some s' /\ fs_path s' = fs_path s.

Lemma row_paths_grows table table' row ps :
  table_grows table table' -> row_paths table row = Some <$> ps -> row_paths table' row = Some <$> ps.
Proof.
  unfold row_paths. revert ps. induction row as [|id row IH]; intros [|p ps] He H; try done.
  cbn in H |- *. injection H as H1 H2. rewrite (IH ps He H2). f_equal.
  destruct (table !! N.to_nat id) as [s|] eqn:E; [|done]. destruct (He _ _ E) as (s' & -> & Hs). cbn in *. congruence.
Qed.

(** What recording the stamp [d] promises. *)
Definition recorded_ok (seen table : list FileStamp) (row : list N) (d : FileStamp)
    (st : list FileStamp * gmap bytes N * list N) : Prop :=
  deptable_ok (seen ++ [d]) st.1.1 st.1.2 /\ table_grows table st.1.1 /\
  exists id, st.2 = row ++ [id] /\ fs_path <$> st.1.1 !! N.to_nat id = Some (fs_path d).

Lemma record_known_dep seen table ids row d id : deptable_ok seen table ids -> ids !! fs_path d = Some id ->
  recorded_ok seen table row d (record_dep (table, ids, row) d).
Proof.
  intros [H1 H2 H3 H4] Eid. unfold record_dep, recorded_ok. rewrite Eid. cbn [fst snd].
  apply H1 in Eid as Hid. destruct Hid as (kept & Hkept & Ek). rewrite Hkept.
  set (table' := if (fs_mtimeNs d <? fs_mtimeNs kept)%N then <[N.to_nat id:=d]> table else table).
  assert (forall i, fs_path <$> table' !! i = fs_path <$> table !! i) as Hp.
  { intros i. unfold table'. destruct (_ <? _)%N; [|done]. destruct (decide (i = N.to_nat id)) as [->|Hne].
    - rewrite list_lookup_insert_eq by (by eapply lookup_lt_Some). rewrite Hkept. cbn. congruence.
    - by rewrite list_lookup_insert_ne. }
  assert (forall i p, (exists s, table' !! i = Some s /\ fs_path s = p) <-> exists s, table !! i = Some s /\ fs_path s = p) as Hp'.
  { intros i p. specialize (Hp i). destruct (table' !! i), (table !! i); cbn in Hp; naive_solver. }
  split; [split|split].
  + intros p id'. by rewrite Hp'.
  + intros x [Hx| ->%list_elem_of_singleton]%elem_of_app; [by apply H2|by exists id].
  + intros i s Hs. destruct (decide (i = N.to_nat id)) as [->|Hne].
    * destruct (H3 _ _ Hkept) as [Hin Hold]. unfold table' in Hs. destruct (N.ltb_spec (fs_mtimeNs d) (fs_mtimeNs kept)).
      -- rewrite list_lookup_insert_eq in Hs by (by eapply lookup_lt_Some). injection Hs as <-. split; [set_solver|].
         intros x [Hx| ->%list_elem_of_singleton]%elem_of_app Epx; [|lia]. specialize (Hold x Hx ltac:(congruence)). lia.
      -- rewrite Hkept in Hs. injection Hs as <-. split; [set_solver|].
         intros x [Hx| ->%list_elem_of_singleton]%elem_of_app Epx; [by apply Hold|lia].
    * assert (table !! i = Some s) as Hs' by (unfold table' in Hs; destruct (_ <? _)%N; [by rewrite list_lookup_insert_ne in Hs|done]).
      destruct (H3 _ _ Hs') as [Hin Hold]. split; [set_solver|].
      intros x [Hx| ->%list_elem_of_singleton]%elem_of_app Epx; [by apply Hold|]. exfalso. apply Hne.
      assert (ids !! fs_path d = Some (N.of_nat i)) as E by (apply H1; exists s; by rewrite Nat2N.id). rewrite Eid in E.
      injection E as ->. by rewrite Nat2N.id.
  + rewrite length_app. cbn. unfold table'. destruct (_ <? _)%N; rewrite ?length_insert; lia.
  + intros i s Hs. specialize (Hp i). rewrite Hs in Hp. destruct (table' !! i) as [s'|]; [|done]. exists s'. split; [done|]. by injection Hp.
  + exists id. split; [done|]. rewrite Hp, Hkept. cbn. by f_equal.
Qed.

Lemma record_new_dep seen table ids row d : deptable_ok seen table ids -> ids !! fs_path d = None ->
  (N.of_nat (length seen) + 1 < two32)%N -> recorded_ok seen table row d (record_dep (table, ids, row) d).
Proof.
  intros [H1 H2 H3 H4] Eid Hfit. unfold record_dep, recorded_ok. rewrite Eid. cbn [fst snd].
  assert (size32 table = N.of_nat (length table)) as Esz by (apply size32_fits; unfold len_fits; lia). rewrite Esz.
  split; [split|split].
  + intros p id'. destruct (decide (fs_path d = p)) as [<-|Hne].
    * rewrite lookup_insert_eq. split.
      -- intros [= <-]. exists d. by rewrite Nat2N.id, list_lookup_middle.
      -- intros (s & Hs & Ep). apply lookup_snoc_Some in Hs as [[_ Hs]|[E <-]]; [|f_equal; lia].
         assert (ids !! fs_path d = Some id') as E by (apply H1; by exists s). congruence.
    * rewrite lookup_insert_ne by done. rewrite H1. split; intros (s & Hs & Ep); exists s; (split; [|done]).
      -- by apply lookup_app_l_Some.
      -- apply lookup_snoc_Some in Hs as [[_ Hs]|[E <-]]; [done|congruence].
  + intros x [Hx| ->%list_elem_of_singleton]%elem_of_app.
    * destruct (decide (fs_path d = fs_path x)) as [->|Hne]; [rewrite lookup_insert_eq; eauto|]. rewrite lookup_insert_ne by done. by apply H2.
    * rewrite lookup_insert_eq. eauto.
  + intros i s Hs. apply lookup_snoc_Some in Hs as [[_ Hs]|[E <-]].
    * destruct (H3 _ _ Hs) as [Hin Hold]. split; [set_solver|]. intros x [Hx| ->%list_elem_of_singleton]%elem_of_app Epx; [by apply Hold|].
      exfalso. assert (ids !! fs_path d = Some (N.of_nat i)) as E by (apply H1; exists s; by rewrite Nat2N.id). congruence.
    * split; [set_solver|]. intros x [Hx| ->%list_elem_of_singleton]%elem_of_app Epx; [|lia].
      destruct (H2 x Hx) as [id' Hid']. congruence.
  + rewrite !length_app. cbn. lia.
  + intros i s Hs. exists s. split; [|done]. by apply lookup_app_l_Some.
  + exists (N.of_nat (length table)). split; [done|]. by rewrite Nat2N.id, list_lookup_middle.
Qed.

Lemma record_dep_ok seen table ids row d : deptable_ok seen table ids -> (N.of_nat (length seen) + 1 < two32)%N ->
  recorded_ok seen table row d (record_dep (table, ids, row) d).
Proof.
  intros Ht Hfit. destruct (ids !! fs_path d) as [id|] eqn:E; [by eapply record_known_dep|by apply record_new_dep].
Qed.

Lemma table_grows_trans a b c : table_grows a b -> table_grows b c -> table_grows a c.
Proof.
  intros H1 H2 i s Hs. destruct (H1 i s Hs) as (s1 & Hs1 & E1). destruct (H2 i s1 Hs1) as (s2 & Hs2 & E2).
  exists s2. split; [done|congruence].
Qed.

Lemma record_deps_ok l : forall seen table ids row ps, deptable_ok seen table ids -> (N.of_nat (length (seen ++ l)) + 1 < two32)%N ->
  row_paths table row = Some <$> ps ->
  let st := foldl record_dep (table, ids, row) l in
  deptable_ok (seen ++ l) st.1.1 st.1.2 /\ table_grows table st.1.1 /\ row_paths st.1.1 st.2 = Some <$> (ps ++ (fs_path <$> l)).
Proof.
  induction l as [|d l IH]; intros seen table ids row ps Ht Hfit Hrow; cbn [foldl].
  { rewrite !app_nil_r. split_and!; [done| |done]. intros i s Hs. by exists s. }
  rewrite length_app in Hfit. cbn [length] in Hfit.
  destruct (record_dep_ok seen table ids row d Ht ltac:(lia)) as (Ht' & He & id & Er & Ep).
  destruct (record_dep (table, ids, row) d) as [[table' ids'] row']. cbn [fst snd] in *. subst row'.
  destruct (IH (seen ++ [d]) table' ids' (row ++ [id]) (ps ++ [fs_path d])) as (H1 & H2 & H3).
  - done.
  - rewrite !length_app. cbn. lia.
  - unfold row_paths in *. rewrite !fmap_app. f_equal; [by apply (row_paths_grows table)|]. cbn. by rewrite Ep.
  - cbn [fmap list_fmap]. rewrite <- (assoc_L (++)) in H1. cbv zeta in H1, H3. rewrite H3, <- (assoc_L (++)). split_and!; [done| |done]. by eapply table_grows_trans.
Qed.

(** The stamps the units of a meta saw, in order. *)
Definition seen_by (tds : TuDependencies) (fs : list FileStamp) : list FileStamp :=
  fs ≫= fun f => default [] (tds !! fs_path f).

(** Row [i] names the files unit [i] opened. *)
Definition rows_ok (tds : TuDependencies) (fs : list FileStamp) (table : list FileStamp) (rows : list (list N)) : Prop :=
  Forall2 (fun f row => row_paths table row = Some <$> (fs_path <$> default [] (tds !! fs_path f))) fs rows.

Lemma rows_grow tds fs table table' rows : table_grows table table' -> rows_ok tds fs table rows -> rows_ok tds fs table' rows.
Proof. intros He H. eapply Forall2_impl; [exact H|]. intros f row. by apply row_paths_grows. Qed.

Lemma record_tus_ok tds fs : forall done table ids rows, deptable_ok (seen_by tds done) table ids -> rows_ok tds done table rows ->
  (N.of_nat (length (seen_by tds (done ++ fs))) + 1 < two32)%N ->
  let st := foldl (record_tu tds) (table, ids, rows) fs in
  deptable_ok (seen_by tds (done ++ fs)) st.1.1 st.1.2 /\ rows_ok tds (done ++ fs) st.1.1 st.2.
Proof.
  induction fs as [|f fs IH]; intros done table ids rows Ht Hr Hfit; cbn [foldl]; [by rewrite !app_nil_r|].
  assert (done ++ f :: fs = (done ++ [f]) ++ fs) as E by (by rewrite <- (assoc_L (++))). rewrite E in Hfit |- *.
  assert (seen_by tds (done ++ [f]) = seen_by tds done ++ default [] (tds !! fs_path f)) as Es
    by (unfold seen_by; rewrite bind_app; cbn; by rewrite app_nil_r).
  assert (let st := record_tu tds (table, ids, rows) f in
    deptable_ok (seen_by tds (done ++ [f])) st.1.1 st.1.2 /\ rows_ok tds (done ++ [f]) st.1.1 st.2) as [H1 H2].
  { unfold record_tu. rewrite Es. destruct (tds !! fs_path f) as [l|] eqn:El; cbn [default from_option id].
    - destruct (record_deps_ok l (seen_by tds done) table ids [] []) as (T1 & T2 & T3); [done| |done|].
      { unfold seen_by in Hfit. rewrite bind_app, bind_app in Hfit. cbn in Hfit. rewrite El, app_nil_r in Hfit. cbn in Hfit.
        rewrite !length_app in Hfit. unfold seen_by. rewrite length_app. lia. }
      destruct (foldl record_dep (table, ids, []) l) as [[table' ids'] row]. cbn [fst snd] in *. split; [done|].
      apply Forall2_app; [by eapply rows_grow|]. repeat constructor. by rewrite El.
    - cbn [fst snd]. rewrite app_nil_r. split; [done|]. apply Forall2_app; [done|]. repeat constructor. by rewrite El. }
  destruct (record_tu tds (table, ids, rows) f) as [[table' ids'] rows']. by apply IH.
Qed.

(** Recording the dependencies of a bake: the table has one entry per file, each with the
    oldest stamp any unit saw of it; every unit gets a row, which names the files its parse
    opened in order; every id of a row is in the table, as the saved form requires. *)
Theorem dependencies_recorded (m : SnapshotMeta) (tds : TuDependencies) :
  (N.of_nat (length (seen_by tds (files m))) + 1 < two32)%N ->
  let m' := recordDependencies m tds in
  NoDup (fs_path <$> deps m') /\
  (forall s, s ∈ deps m' -> s ∈ seen_by tds (files m) /\
     forall x, x ∈ seen_by tds (files m) -> fs_path x = fs_path s -> (fs_mtimeNs s <= fs_mtimeNs x)%N) /\
  length (tuDeps m') = length (files m) /\
  (forall i f row, files m !! i = Some f -> tuDeps m' !! i = Some row ->
     row_paths (deps m') row = Some <$> (fs_path <$> default [] (tds !! fs_path f)) /\
     Forall (fun id => (id < N.of_nat (length (deps m')))%N) row).
Proof.
  intros Hfit m'. unfold m', recordDependencies.
  destruct (record_tus_ok tds (files m) [] [] ∅ []) as [[H1 H2 H3 H4] Hr]; [|constructor|done|].
  { split; [|by intros x ?%elem_of_nil|by intros|done]. intros p id. rewrite lookup_empty. split; [done|]. by intros (s & ? & _). }
  destruct (foldl (record_tu tds) ([], ∅, []) (files m)) as [[table ids] rows]. cbn [fst snd app] in *. cbn [deps tuDeps]. split_and!.
  - apply NoDup_alt. intros i j p Hi Hj. rewrite list_lookup_fmap in Hi, Hj.
    destruct (table !! i) as [s|] eqn:Ei; [|done]. destruct (table !! j) as [s'|] eqn:Ej; [|done]. injection Hi as Hi. injection Hj as Hj.
    assert (ids !! p = Some (N.of_nat i)) as E1 by (apply H1; exists s; by rewrite Nat2N.id).
    assert (ids !! p = Some (N.of_nat j)) as E2 by (apply H1; exists s'; by rewrite Nat2N.id). rewrite E1 in E2. injection E2. lia.
  - intros s [i Hi]%list_elem_of_lookup. by apply (H3 i).
  - symmetry. by eapply Forall2_length.
  - intros i f row Hf Hrow. pose proof (Forall2_lookup_lr _ _ _ i f row Hr Hf Hrow) as Hp. split; [done|].
    apply Forall_forall. intros id Hid. unfold row_paths in Hp. apply (list_elem_of_fmap_2 (fun id => fs_path <$> table !! N.to_nat id)) in Hid.
    rewrite Hp in Hid. apply list_elem_of_fmap in Hid as (p & Ep & _). destruct (table !! N.to_nat id) as [s|] eqn:Es; [|done].
    apply lookup_lt_Some in Es. lia.
Qed.

(** ** Coverage *)

Lemma coverage_fold m l c :
  let c' := foldl (fun c i => count_status c (status_at m i)) c l in
  requested c' = requested c /\
  indexed c' = (indexed c + N.of_nat (length (filter (fun i => status_at m i = Indexed) l)))%N /\
  partial c' = (partial c + N.of_nat (length (filter (fun i => status_at m i = Partial) l)))%N /\
  (indexed c' + partial c' + failed c' = indexed c + partial c + failed c + N.of_nat (length l))%N.
Proof.
  revert c. induction l as [|i l IH]; intros c; cbn [foldl length]; [rewrite !filter_nil; cbn; split_and!; lia|].
  rewrite !filter_cons. destruct (IH (count_status c (status_at m i))) as (E1 & E2 & E3 & E4). cbv zeta. rewrite E4, E1, E2, E3.
  destruct (status_at m i); cbn [count_status requested indexed partial failed]; repeat case_decide; cbn [length]; split_and!; try done; lia.
Qed.

Lemma filter_full {A} (P : A -> Prop) `{!forall x, Decision (P x)} (l : list A) :
  length (filter P l) = length l <-> Forall P l.
Proof.
  induction l as [|a l IH]; [by split|]. rewrite filter_cons, Forall_cons. pose proof (length_filter P l).
  case_decide; cbn [length]; [rewrite <- IH; split; [split; [done|lia]|lia]|]. split; [lia|tauto].
Qed.

Lemma filter_empty {A} (P : A -> Prop) `{!forall x, Decision (P x)} (l : list A) :
  (forall x, x ∈ l -> ~ P x) -> filter P l = [].
Proof.
  induction l as [|a l IH]; intros Hn; [done|]. rewrite filter_cons_False by (apply Hn; left). apply IH. intros x Hx. apply Hn. by right.
Qed.

Lemma all_skipped_spec req os missing first :
  match all_skipped req os missing first with
  | Some _ => forall tu o, tu ∈ req -> os !! tu = Some o -> oc_status o = Skipped
  | None => exists tu o, tu ∈ req /\ os !! tu = Some o /\ oc_status o <> Skipped
  end.
Proof.
  revert missing first. induction req as [|tu req IH]; intros missing first; cbn [all_skipped].
  { by intros tu o ?%elem_of_nil. }
  destruct (os !! tu) as [o|] eqn:E.
  - case_decide as Hs.
    + match goal with |- context [all_skipped req os ?a ?b] => specialize (IH a b); destruct (all_skipped req os a b) end.
      * intros tu' o' [->|Hin]%elem_of_cons Ho; [congruence|by eapply IH].
      * destruct IH as (tu' & o' & Hin & H). exists tu', o'. split; [by right|done].
    + exists tu, o. split; [left|done].
  - specialize (IH (S missing) first). destruct (all_skipped req os (S missing) first).
    + intros tu' o' [->|Hin]%elem_of_cons Ho; [congruence|by eapply IH].
    + destruct IH as (tu' & o' & Hin & H). exists tu', o'. split; [by right|done].
Qed.

Lemma unpublishable_spec req os :
  unpublishableBake req os = [] <->
  req = [] \/ exists tu o, tu ∈ req /\ os !! tu = Some o /\ oc_status o <> Skipped.
Proof.
  unfold unpublishableBake. destruct req as [|t req]; [split; [by left|done]|].
  pose proof (all_skipped_spec (t :: req) os 0 []) as H. destruct (all_skipped (t :: req) os 0 []) as [[missing first]|].
  - split; [intros E; by apply (f_equal length) in E|]. intros [?|(tu & o & H1 & H2 & H3)]; [done|]. by destruct H3; apply (H tu).
  - split; [by right|done].
Qed.

(** The recorded coverage partitions the requested units, is complete exactly when every
    one of them has a clean parse on record, and a bake is refused exactly when something
    was asked for and nothing of it was parsed; a refused bake covers nothing. *)
Theorem coverage_and_publication (m : SnapshotMeta) (os : TuOutcomes) :
  let m' := recordOutcomes m os in
  let c := coverageOf m' in
  let asked := fs_path <$> files m in
  requested c = N.of_nat (length (files m)) /\ (indexed c + partial c + failed c)%N = requested c /\
  (coverage_complete c = true <-> forall p, p ∈ asked -> exists o, os !! p = Some o /\ oc_status o = Indexed) /\
  (unpublishableBake asked os = [] <->
     asked = [] \/ exists p o, p ∈ asked /\ os !! p = Some o /\ oc_status o <> Skipped) /\
  (unpublishableBake asked os <> [] -> indexed c = 0%N /\ partial c = 0%N).
Proof.
  intros m' c asked.
  assert (requested c = N.of_nat (length (files m)) /\
    indexed c = (0 + N.of_nat (length (filter (fun i => status_at m' i = Indexed) (seq 0 (length (files m))))))%N /\
    partial c = (0 + N.of_nat (length (filter (fun i => status_at m' i = Partial) (seq 0 (length (files m))))))%N /\
    (indexed c + partial c + failed c = 0 + 0 + 0 + N.of_nat (length (seq 0 (length (files m)))))%N) as (E1 & E2 & E3 & E4)
    by exact (coverage_fold m' (seq 0 (length (files m))) (MkCoverage (N.of_nat (length (files m))) 0 0 0)).
  assert (forall i f, files m !! i = Some f ->
    status_at m' i = oc_status (default (MkOutcome Skipped (str "no outcome recorded")) (os !! fs_path f))) as Hst.
  { intros i f Hf. unfold status_at, m', recordOutcomes. cbn [outcomes]. by rewrite list_lookup_fmap, Hf. }
  assert (forall i, i ∈ seq 0 (length (files m)) <-> exists f, files m !! i = Some f) as Hseq.
  { intros i. rewrite elem_of_seq. split; [intros [_ H]; by apply lookup_lt_is_Some_2|]. intros [f Hf%lookup_lt_Some]. lia. }
  assert (forall P : TuStatus -> Prop, (forall p o, p ∈ asked -> os !! p = Some o -> P (oc_status o)) -> P Skipped ->
    forall i, i ∈ seq 0 (length (files m)) -> P (status_at m' i)) as Hall.
  { intros P HP HS i [f Hf]%Hseq. rewrite (Hst i f Hf). destruct (os !! fs_path f) as [o|] eqn:Eo; [|done].
    apply (HP (fs_path f)); [|done]. apply list_elem_of_fmap. exists f. split; [done|]. by eapply list_elem_of_lookup_2. }
  split_and!.
  - done.
  - rewrite E4, E1, length_seq. lia.
  - unfold coverage_complete. rewrite N.eqb_eq, E1, E2, N.add_0_l, Nat2N.inj_iff, <- (length_seq (length (files m)) 0) at 1.
    rewrite (comm (=)), filter_full, Forall_forall. split.
    + intros H p (f & -> & Hf)%list_elem_of_fmap. apply list_elem_of_lookup in Hf as [i Hi].
      specialize (H i (proj2 (Hseq i) (ex_intro _ f Hi))). rewrite (Hst i f Hi) in H.
      destruct (os !! fs_path f) as [o|]; [by exists o|done].
    + intros H i [f Hf]%Hseq. rewrite (Hst i f Hf). destruct (H (fs_path f)) as (o & -> & Ho); [|done].
      apply list_elem_of_fmap. exists f. split; [done|]. by eapply list_elem_of_lookup_2.
  - apply unpublishable_spec.
  - intros Hu. assert (forall p o, p ∈ asked -> os !! p = Some o -> oc_status o = Skipped) as Hs.
    { intros p o Hp Ho. destruct (decide (oc_status o = Skipped)) as [?|Hne]; [done|].
      exfalso. apply Hu, unpublishable_spec. right. by exists p, o. }
    rewrite E2, E3. split; (rewrite filter_empty; [done|]); intros i Hi; by rewrite (Hall (.= Skipped) Hs eq_refl i Hi).
Qed.

(** * Examples *)

(** A unit parsed long before the bake, and the header it opened. *)
Definition old_stat (p : bytes) : option (N * N) :=
  if decide (p = str "/a.h") then Some (3000000007, 4)%N else None.

Definition old_meta : SnapshotMeta :=
  MkMeta [] [] true [] [MkStamp (str "/a.cpp") 2000000001 7] [MkStamp (str "/a.h") 3000000000 4] [[0%N]] [] []
    [MkOutcome Indexed []] (MkProvenance [] [] [] 9).

Lemma kept_units_are_older_witness :
  (dirtyTUs old_stat (markUnstableStamps old_meta 5000000000).1 None [MkStamp (str "/a.cpp") 2000000001 7]).1 = [false] /\
  (2000000001 < whole_second 5000000000)%N.
Proof.
  split; [vm_compute; reflexivity|].
  exact (proj1 (kept_units_are_older old_stat old_meta 5000000000 None [MkStamp (str "/a.cpp") 2000000001 7] 0
    (MkStamp (str "/a.cpp") 2000000001 7) eq_refl ltac:(vm_compute; reflexivity))).
Defined.

(** Two units that saw different versions of one header. *)
Definition two_versions : TuDependencies :=
  <[str "/a.cpp" := [MkStamp (str "/h") 5 1]]> (<[str "/b.cpp" := [MkStamp (str "/g") 2 2; MkStamp (str "/h") 4 1]]> ∅).

Lemma dependencies_recorded_witness :
  deps (recordDependencies small_meta two_versions) = [MkStamp (str "/h") 4 1; MkStamp (str "/g") 2 2] /\
  NoDup (fs_path <$> deps (recordDependencies small_meta two_versions)).
Proof.
  split; [vm_compute; reflexivity|].
  exact (proj1 (dependencies_recorded small_meta two_versions ltac:(vm_compute; reflexivity))).
Defined.
