(* ===== verification/SnapshotGraph.v ===== *)
(** The call-graph section of a saved index (src/callgraph/Snapshot.cpp): what [save]
    writes of a graph and how [load] rebuilds a graph from it.

    Strings are written once, in id order, and installed in bulk, so every id in the
    records is valid as it is.  Nodes are written in id order, live edges in table order
    with the units that registered them, relations as pairs.  A mutable load rebuilds
    every map of the class; a read-only load leaves out the four that only the mutators
    use.

    Loading a saved call graph gives the graph back.

    The loader reads a record and installs it; [reads] turns the section's bytes into the
    installs of the records [save] wrote, and the installs are then compared with the
    graph field by field. *)

From S2P Require Import Prelude Registrations Utf8 StringInterner CallGraph CallGraphInv CallGraphQuery CallGraphRemove CallGraphCompact Codec.

(** * Writing *)

Definition emitInternerTable (t : StringInterner) : bytes :=
  putU32 (u32 (N.of_nat (table_size t))) ++ forEachString t (fun out s => out ++ putLenStr s) [].

Record NodeRecord := MkNodeRecord {
  nr_id : SId;
  nr_display : SId;
  nr_node : CallGraphNode;
  nr_tus : list SId
}.

Record EdgeRecord := MkEdgeRecord { er_edge : StoredEdge; er_tus : list SId }.

Definition node_flags (n : CallGraphNode) : N :=
  N.lor (if isEntryPoint n then 1 else 0) (if isVirtual n then 2 else 0).

Definition emitNode (r : NodeRecord) : bytes :=
  putU32 (nr_id r) ++ putU32 (nr_display r) ++ putLenStr (file (nr_node r)) ++
  putU32 (line (nr_node r)) ++ putU8 (node_flags (nr_node r)) ++
  putLenStr (enclosingClass (nr_node r)) ++ put_list putU32 (nr_tus r).

Definition emitEdge (r : EdgeRecord) : bytes :=
  putU32 (s_caller (er_edge r)) ++ putU32 (s_callee (er_edge r)) ++
  putU32 (s_callSite (er_edge r)) ++ putU8 (kind_code (s_kind (er_edge r))) ++
  putU8 (confidence_code (s_confidence (er_edge r))) ++
  putU8 (exec_code (s_execContext (er_edge r))) ++
  putU32 (s_indirectionDepth (er_edge r)) ++ putU32 (s_refs (er_edge r)) ++
  put_list putU32 (er_tus r).

Definition emitPair (p : SId * SId) : bytes := putU32 p.1 ++ putU32 p.2.

Section Save.
Context `{UI : !UnorderedIter}.

(** The keys of a hash map, sorted. *)
Definition sorted_keys {V} (m : gmap SId V) : list SId := merge_sort N.le (map_iter m).*1.

(** The fields written for one node; its display id is looked up in the interner. *)
Definition node_record (g : CallGraph) (nameId : SId) : option NodeRecord :=
  node ← nodes_ g !! nameId;
  Some (MkNodeRecord nameId (default nameId (find (interner_ g) (qualifiedName node))) node
          (match nodeContributors_ g !! nameId with
           | None => []
           | Some tus => set_order tus
           end)).

Definition node_records (g : CallGraph) : list NodeRecord := omap (node_record g) (sorted_keys (nodes_ g)).

(** [tuEdges_] inverted: edge position -> registering units. *)
Definition edge_kept (edges : list StoredEdge) (idx : nat) : bool :=
  match edges !! idx with Some se => negb (s_refs se =? 0)%N | None => false end.

Definition edge_tus (g : CallGraph) : gmap nat (list SId) :=
  units_at (edge_kept (edges_ g)) (map_iter (tuEdges_ g)).

Definition edge_record (tus : gmap nat (list SId)) (i : nat) (se : StoredEdge) : option EdgeRecord :=
  if (s_refs se =? 0)%N then None
  else Some (MkEdgeRecord se (match tus !! i with None => [] | Some l => merge_sort N.le l end)).

Definition edge_records (g : CallGraph) : list EdgeRecord :=
  let tus := edge_tus g in
  omap (fun p => edge_record tus p.1 p.2) (zip (seq 0 (length (edges_ g))) (edges_ g)).

(** A relation map as pairs, in key order; [items] lists one entry. *)
Definition pairs_of {V} (items : V -> list SId) (m : gmap SId V) : list (SId * SId) :=
  k ← sorted_keys m; match m !! k with Some v => (k,.) <$> items v | None => [] end.

Definition pair_count {V} (items : V -> list SId) (m : gmap SId V) : N :=
  foldl (fun n kv => u32 (n + size32 (items kv.2)))%N 0%N (map_iter m).

Definition emitPairs {V} (items : V -> list SId) (m : gmap SId V) : bytes :=
  putU32 (pair_count items m) ++ (pairs_of items m ≫= emitPair).

Definition emitGraph (g : CallGraph) : bytes :=
  emitInternerTable (interner_ g) ++
  putU32 (u32 (N.of_nat (size (nodes_ g)))) ++ (node_records g ≫= emitNode) ++
  putU32 (u32 (Z.to_N (liveEdgeCount_ g))) ++ (edge_records g ≫= emitEdge) ++
  emitPairs id (derivedClasses_ g) ++ emitPairs id (methodOverrides_ g) ++
  emitPairs set_order (effectiveImplClasses_ g) ++ emitPairs set_order (functionReturns_ g).
End Save.

(** * Installing one record *)

(** [m.emplace(k, v)]: an entry that is there is kept. *)
Definition map_emplace {K V} `{Countable K} (k : K) (v : V) (m : gmap K V) : gmap K V :=
  match m !! k with Some _ => m | None => <[k := v]> m end.

Definition install_node (nameId displayId : SId) (node : CallGraphNode) (g : CallGraph) : CallGraph :=
  set_nodes (map_emplace nameId node (nodes_ g))
    (set_byName (push_unique displayId nameId (byName_ g)) g).

Section Load.
(** [llvm::json::isUTF8], as in Utf8.v. *)
Variable isValidUtf8 : bytes -> bool.

(** The casts of a byte to an enumeration.  A byte that is no enumerator's code has no
    constructor in the model; what the cast gives for it is left open. *)
Variable cast_kind : N -> EdgeKind.
Variable cast_confidence : N -> Confidence.
Variable cast_exec : N -> ExecutionContext.

(** [mode == LoadMode::Mutable]. *)
Variable mutableLoad : bool.

Definition install_contributor (nameId tuId : SId) (g : CallGraph) : CallGraph :=
  if mutableLoad then contribute nameId tuId g else g.

Definition install_edge (se : StoredEdge) (g : CallGraph) : CallGraph :=
  let idx := length (edges_ g) in
  let g1 := set_inEdges (push_back (s_callee se) idx (inEdges_ g))
              (set_outEdges (push_back (s_caller se) idx (outEdges_ g)) g) in
  let g2 := if mutableLoad then set_edgeIndex (map_emplace (keyOf se) idx (edgeIndex_ g1)) g1 else g1 in
  set_liveEdgeCount (liveEdgeCount_ g2 + 1)%Z (set_edges (edges_ g2 ++ [se]) g2).

Definition install_edge_tu (idx : nat) (tuId : SId) (g : CallGraph) : CallGraph :=
  if mutableLoad then set_tuEdges (push_back tuId idx (tuEdges_ g)) g else g.

Definition install_derived (a b : SId) (g : CallGraph) : CallGraph :=
  set_derivedClasses (push_back a b (derivedClasses_ g)) g.

Definition install_override (a b : SId) (g : CallGraph) : CallGraph :=
  set_overrideBases (push_back b a (overrideBases_ g))
    (set_methodOverrides (push_back a b (methodOverrides_ g)) g).

Definition install_impl (a b : SId) (g : CallGraph) : CallGraph :=
  set_effectiveImplClasses (set_insert a b (effectiveImplClasses_ g)) g.

Definition install_return (a b : SId) (g : CallGraph) : CallGraph :=
  set_returnedBy (push_back b a (returnedBy_ g))
    (set_functionReturns (set_insert a b (functionReturns_ g)) g).

(** * Reading *)

Definition readInternerTable : M StringInterner :=
  table <-- r_list (r_text isValidUtf8);;
  let '(fine, t) := installStrings empty_interner table in
  if fine then ret t else (_ <-- fail_reader;; ret empty_interner).

(** [gid]: a stored id must be one of the table. *)
Definition gid (internedCount : N) : M SId :=
  id <-- r_u32;;
  if (internedCount <=? id)%N then (_ <-- fail_reader;; ret id) else ret id.

Section Records.
Variable internedCount : N.

Definition load_contributor (nameId : SId) (g : CallGraph) : M CallGraph :=
  tuId <-- gid internedCount;; when_ok g (ret (install_contributor nameId tuId g)).

Definition load_node (g : CallGraph) : M CallGraph :=
  nameId <-- gid internedCount;;
  displayId <-- gid internedCount;;
  file <-- r_text isValidUtf8;;
  line <-- r_u32;;
  flags <-- r_u8;;
  cls <-- r_text isValidUtf8;;
  contribCount <-- r_count;;
  when_ok g (
    let node := MkNode (resolve (interner_ g) displayId) file line
                  (negb (N.land flags 1 =? 0)%N) (negb (N.land flags 2 =? 0)%N) cls
                  (resolve (interner_ g) nameId) in
    loop (N.to_nat contribCount) (load_contributor nameId) (install_node nameId displayId node g)).

Definition load_edge_tu (idx : nat) (g : CallGraph) : M CallGraph :=
  tuId <-- gid internedCount;; when_ok g (ret (install_edge_tu idx tuId g)).

Definition load_edge (g : CallGraph) : M CallGraph :=
  caller <-- gid internedCount;;
  callee <-- gid internedCount;;
  callSite <-- gid internedCount;;
  kind <-- r_u8;;
  confidence <-- r_u8;;
  execContext <-- r_u8;;
  depth <-- r_u32;;
  refs <-- r_u32;;
  contribCount <-- r_count;;
  _ <-- (if (refs =? 0)%N then fail_reader else ret tt);;
  when_ok g (
    let se := MkStored caller callee callSite (cast_kind kind) (cast_confidence confidence)
                (cast_exec execContext) depth refs in
    loop (N.to_nat contribCount) (load_edge_tu (length (edges_ g))) (install_edge se g)).

Definition load_pair (install : SId -> SId -> CallGraph -> CallGraph) (g : CallGraph) : M CallGraph :=
  a <-- gid internedCount;;
  b <-- gid internedCount;;
  when_ok g (ret (install a b g)).

Definition load_records (g : CallGraph) : M CallGraph :=
  g1 <-- for_count load_node g;;
  g2 <-- for_count load_edge g1;;
  g3 <-- for_count (load_pair install_derived) g2;;
  g4 <-- for_count (load_pair install_override) g3;;
  g5 <-- for_count (load_pair install_impl) g4;;
  for_count (load_pair install_return) g5.
End Records.

Definition read_graph : M CallGraph :=
  t <-- readInternerTable;;
  load_records (u32 (N.of_nat (table_size t)))
    (set_readOnly (negb mutableLoad) (set_interner t empty_graph)).

(** The graph section of [load]. *)
Definition loadGraph (data : bytes) : option CallGraph := section_done read_graph data.
End Load.

(** * From bytes to records *)

Section Decode.
Variable isValidUtf8 : bytes -> bool.
Variable cast_kind : N -> EdgeKind.
Variable cast_confidence : N -> Confidence.
Variable cast_exec : N -> ExecutionContext.
Hypothesis cast_kind_code : forall k, cast_kind (kind_code k) = k.
Hypothesis cast_confidence_code : forall c, cast_confidence (confidence_code c) = c.
Hypothesis cast_exec_code : forall x, cast_exec (exec_code x) = x.
Variable mutableLoad : bool.

(** ** What a record must satisfy to be read back *)

Definition text_fits (s : bytes) : Prop := len_fits s /\ isValidUtf8 s = true.

(** An id that [gid] accepts. *)
Definition id_fits (t : StringInterner) (id : SId) : Prop := (id < N.of_nat (table_size t))%N.

Record node_fits (t : StringInterner) (r : NodeRecord) : Prop := {
  nf_usr : resolve_opt t (nr_id r) = Some (usr (nr_node r));
  nf_name : resolve_opt t (nr_display r) = Some (qualifiedName (nr_node r));
  nf_file : text_fits (file (nr_node r));
  nf_line : u32_fits (line (nr_node r));
  nf_class : text_fits (enclosingClass (nr_node r));
  nf_tus : len_fits (nr_tus r) /\ Forall (id_fits t) (nr_tus r)
}.

Record edge_fits (t : StringInterner) (r : EdgeRecord) : Prop := {
  ef_ids : id_fits t (s_caller (er_edge r)) /\ id_fits t (s_callee (er_edge r)) /\ id_fits t (s_callSite (er_edge r));
  ef_depth : u32_fits (s_indirectionDepth (er_edge r));
  ef_refs : u32_fits (s_refs (er_edge r)) /\ live (er_edge r);
  ef_tus : len_fits (er_tus r) /\ Forall (id_fits t) (er_tus r)
}.

Definition pair_fits (t : StringInterner) (p : SId * SId) : Prop := id_fits t p.1 /\ id_fits t p.2.

(** ** What reading a record installs *)

Definition inst_node (g : CallGraph) (r : NodeRecord) : CallGraph :=
  foldl (fun g tu => install_contributor mutableLoad (nr_id r) tu g)
    (install_node (nr_id r) (nr_display r) (nr_node r) g) (nr_tus r).

Definition inst_edge (g : CallGraph) (r : EdgeRecord) : CallGraph :=
  foldl (fun g tu => install_edge_tu mutableLoad (length (edges_ g) - 1) tu g)
    (install_edge mutableLoad (er_edge r) g) (er_tus r).

Definition inst_pair (install : SId -> SId -> CallGraph -> CallGraph) (g : CallGraph) (p : SId * SId) : CallGraph :=
  install p.1 p.2 g.

Lemma edges_install_edge se g : edges_ (install_edge mutableLoad se g) = edges_ g ++ [se].
Proof. unfold install_edge. by destruct mutableLoad. Qed.

(** Every unit is registered at the position of the new edge. *)
Lemma inst_edge_eq r g :
  inst_edge g r =
  foldl (fun g' tu => install_edge_tu mutableLoad (length (edges_ g)) tu g') (install_edge mutableLoad (er_edge r) g) (er_tus r).
Proof.
  unfold inst_edge. pose proof (edges_install_edge (er_edge r) g) as He.
  set (g1 := install_edge _ _ _) in *. clearbody g1.
  assert (Hl : length (edges_ g1) - 1 = length (edges_ g)) by (rewrite He, length_app; cbn; lia).
  clear He. revert g1 Hl. induction (er_tus r) as [|tu tus IH]; intros g1 Hl; [done|]. cbn [foldl].
  rewrite Hl. apply IH. unfold install_edge_tu. by destruct mutableLoad.
Qed.

Section Table.
Variable t : StringInterner.
Hypothesis Ht : (N.of_nat (table_size t) < two32)%N.

Abbreviation count := (u32 (N.of_nat (table_size t))).

Lemma reads_gid id : id_fits t id -> reads (gid count) (putU32 id) id.
Proof.
  unfold id_fits. intros H. eapply reads_bind_last; [apply reads_u32; unfold u32_fits; lia|].
  rewrite u32_small by done. destruct (N.leb_spec (N.of_nat (table_size t)) id); [lia|]. apply reads_ret.
Qed.

Lemma resolve_fits id s : resolve_opt t id = Some s -> id_fits t id.
Proof. intros H%resolve_opt_lt. unfold id_fits. lia. Qed.

(** A counted list of ids, each installed as it is read. *)
Lemma reads_ids (step : CallGraph -> M CallGraph) (install : CallGraph -> SId -> CallGraph) ids g :
  Forall (id_fits t) ids ->
  (forall g id, id_fits t id -> reads (step g) (putU32 id) (install g id)) ->
  reads (loop (length ids) step g) (ids ≫= putU32) (foldl install g ids).
Proof.
  intros Hids Hstep. apply (reads_loop _ _ _ (fun _ => True)); [done|].
  intros s id _ Hin. split; [|done]. apply Hstep. by eapply Forall_forall in Hids.
Qed.

Lemma reads_node r g :
  node_fits t r -> interner_ g = t ->
  reads (load_node isValidUtf8 mutableLoad count g) (emitNode r) (inst_node g r).
Proof.
  intros [H1 H2 [H3 H3'] H4 [H5 H5'] [H6 H7]] Hg. unfold load_node, emitNode.
  eapply reads_bind; [apply reads_gid; by eapply resolve_fits|].
  eapply reads_bind; [apply reads_gid; by eapply resolve_fits|].
  eapply reads_bind; [by apply reads_text|]. eapply reads_bind; [by apply reads_u32|].
  eapply reads_bind; [apply reads_u8; unfold node_flags; by destruct (isEntryPoint _), (isVirtual _)|].
  eapply reads_bind; [by apply reads_text|].
  apply reads_counted; [done|by intros; rewrite length_putU32; lia|]. apply reads_when_ok.
  rewrite Nat2N.id. unfold inst_node.
  assert (E : MkNode (resolve (interner_ g) (nr_display r)) (file (nr_node r)) (line (nr_node r))
            (negb (N.land (node_flags (nr_node r)) 1 =? 0)%N) (negb (N.land (node_flags (nr_node r)) 2 =? 0)%N)
            (enclosingClass (nr_node r)) (resolve (interner_ g) (nr_id r)) = nr_node r).
  { rewrite Hg, (resolve_of_opt _ _ _ H1), (resolve_of_opt _ _ _ H2). unfold node_flags.
    by destruct (nr_node r) as [? ? ? [] [] ? ?]. }
  rewrite E. apply reads_ids; [done|]. intros g' id Hid.
  eapply reads_bind_last; [by apply reads_gid|]. apply reads_when_ok, reads_ret.
Qed.

Lemma reads_edge r g :
  edge_fits t r -> reads (load_edge cast_kind cast_confidence cast_exec mutableLoad count g) (emitEdge r) (inst_edge g r).
Proof.
  intros [(H1 & H2 & H3) H4 [H5 H6] [H7 H8]]. rewrite inst_edge_eq. unfold load_edge, emitEdge.
  do 3 (eapply reads_bind; [by apply reads_gid|]).
  eapply reads_bind; [apply reads_u8; by destruct (s_kind _)|].
  eapply reads_bind; [apply reads_u8; by destruct (s_confidence _)|].
  eapply reads_bind; [apply reads_u8; by destruct (s_execContext _)|].
  do 2 (eapply reads_bind; [by apply reads_u32|]).
  apply reads_counted; [done|by intros; rewrite length_putU32; lia|].
  eapply reads_bind_check; [|apply reads_when_ok].
  { destruct (N.eqb_spec (s_refs (er_edge r)) 0); [done|apply reads_ret]. }
  rewrite cast_kind_code, cast_confidence_code, cast_exec_code, Nat2N.id.
  replace (MkStored _ _ _ _ _ _ _ _) with (er_edge r) by (by destruct (er_edge r)).
  apply reads_ids; [done|]. intros g' id Hid.
  eapply reads_bind_last; [by apply reads_gid|]. apply reads_when_ok, reads_ret.
Qed.

Lemma reads_pairs install ps g :
  len_fits ps -> Forall (pair_fits t) ps ->
  reads (for_count (load_pair count install) g) (put_list emitPair ps) (foldl (inst_pair install) g ps).
Proof.
  intros Hl Hps. apply (reads_for _ _ _ (fun _ => True)); [done|done| |].
  - intros p _. unfold emitPair. rewrite length_app, length_putU32. lia.
  - intros g' p _ Hp. split; [|done]. eapply Forall_forall in Hps as [Ha Hb]; [|done].
    eapply reads_bind; [by apply reads_gid|]. eapply reads_bind_last; [by apply reads_gid|]. apply reads_when_ok, reads_ret.
Qed.
End Table.

(** ** The whole section *)

Lemma interner_inst_node g r : interner_ (inst_node g r) = interner_ g.
Proof.
  unfold inst_node. change (interner_ g) with (interner_ (install_node (nr_id r) (nr_display r) (nr_node r) g)).
  generalize (install_node (nr_id r) (nr_display r) (nr_node r) g).
  induction (nr_tus r) as [|tu tus IH]; intros g'; [done|]. cbn [foldl]. rewrite IH. unfold install_contributor.
  destruct mutableLoad; [apply interner_contribute|done].
Qed.

Record records := MkRecords {
  rc_nodes : list NodeRecord;
  rc_edges : list EdgeRecord;
  rc_derived : list (SId * SId);
  rc_overrides : list (SId * SId);
  rc_impls : list (SId * SId);
  rc_returns : list (SId * SId)
}.

Definition emit_records (c : records) : bytes :=
  put_list emitNode (rc_nodes c) ++ put_list emitEdge (rc_edges c) ++
  put_list emitPair (rc_derived c) ++ put_list emitPair (rc_overrides c) ++
  put_list emitPair (rc_impls c) ++ put_list emitPair (rc_returns c).

Definition inst_records (g : CallGraph) (c : records) : CallGraph :=
  foldl (inst_pair install_return) (foldl (inst_pair install_impl)
    (foldl (inst_pair install_override) (foldl (inst_pair install_derived)
      (foldl inst_edge (foldl inst_node g (rc_nodes c)) (rc_edges c)) (rc_derived c)) (rc_overrides c))
    (rc_impls c)) (rc_returns c).

Definition pairs_fit (t : StringInterner) (l : list (SId * SId)) : Prop := len_fits l /\ Forall (pair_fits t) l.

Record records_fit (t : StringInterner) (c : records) : Prop := {
  rf_nodes : len_fits (rc_nodes c) /\ Forall (node_fits t) (rc_nodes c);
  rf_edges : len_fits (rc_edges c) /\ Forall (edge_fits t) (rc_edges c);
  rf_derived : pairs_fit t (rc_derived c);
  rf_overrides : pairs_fit t (rc_overrides c);
  rf_impls : pairs_fit t (rc_impls c);
  rf_returns : pairs_fit t (rc_returns c)
}.

Lemma reads_records t c g :
  (N.of_nat (table_size t) < two32)%N -> interner_ g = t -> records_fit t c ->
  reads (load_records isValidUtf8 cast_kind cast_confidence cast_exec mutableLoad (u32 (N.of_nat (table_size t))) g)
    (emit_records c) (inst_records g c).
Proof.
  intros Ht Hg [[N1 N2] [E1 E2] [D1 D2] [O1 O2] [I1 I2] [R1 R2]]. unfold load_records, emit_records, inst_records.
  eapply reads_bind.
  { apply (reads_for _ inst_node _ (fun g => interner_ g = t)); [done|done| |].
    - intros r _. unfold emitNode. rewrite length_app, length_putU32. lia.
    - intros s r Hs Hr. eapply Forall_forall in N2; [|done]. split; [by apply reads_node|]. by rewrite interner_inst_node. }
  eapply reads_bind.
  { apply (reads_for _ inst_edge _ (fun _ => True)); [done|done| |].
    - intros r _. unfold emitEdge. rewrite length_app, length_putU32. lia.
    - intros s r _ Hr. eapply Forall_forall in E2; [|done]. split; [by apply reads_edge|done]. }
  do 3 (eapply reads_bind; [by apply reads_pairs|]). by apply reads_pairs.
Qed.

Definition table_fits (t : StringInterner) : Prop :=
  (N.of_nat (table_size t) < two32)%N /\ Forall text_fits (strings_ t).

Lemma forEachString_bind t : forEachString t (fun out s => out ++ putLenStr s) [] = strings_ t ≫= putLenStr.
Proof.
  unfold forEachString. change (strings_ t ≫= putLenStr) with ([] ++ (strings_ t ≫= putLenStr)).
  generalize (@nil Byte.byte). induction (strings_ t) as [|s l IH]; intros acc; [by rewrite app_nil_r|].
  cbn [foldl]. rewrite IH, bind_cons. by rewrite (assoc_L (++)).
Qed.

Lemma reads_interner t :
  interner_ok t -> table_fits t -> reads (readInternerTable isValidUtf8) (emitInternerTable t) t.
Proof.
  intros Hok [Hn Hs]. unfold readInternerTable, emitInternerTable. rewrite forEachString_bind.
  eapply (reads_bind_last _ _ _ (strings_ t)).
  - apply (reads_list _ putLenStr); [done|]. intros s Hin. eapply Forall_forall in Hs as [? ?]; [|done].
    split; [by apply reads_text|apply length_putLenStr].
  - unfold installStrings. cbn [strings_ empty_interner].
    assert (E : MkInterner (strings_ t) (rebuildIndex (strings_ t)) = t).
    { apply interner_ext; [|done|done]. apply rebuildIndex_ok; [by apply interner_ok_NoDup|apply Hok]. }
    rewrite E. apply reads_ret.
Qed.

(** The graph a load of the given table and records builds. *)
Definition loaded (t : StringInterner) (c : records) : CallGraph :=
  inst_records (set_readOnly (negb mutableLoad) (set_interner t empty_graph)) c.

Lemma reads_graph t c :
  interner_ok t -> table_fits t -> records_fit t c ->
  reads (read_graph isValidUtf8 cast_kind cast_confidence cast_exec mutableLoad) (emitInternerTable t ++ emit_records c)
    (loaded t c).
Proof.
  intros Hok Ht Hc. eapply reads_bind; [by apply reads_interner|]. apply reads_records; [apply Ht|done|done].
Qed.

#[global] Instance gid_decoder n : Decoder (gid n).
Proof. unfold gid. apply _. Qed.
#[global] Instance interner_decoder : Decoder (readInternerTable isValidUtf8).
Proof. unfold readInternerTable. apply bind_decoder; [apply _|]. intros l. destruct (installStrings _ _) as [[] t]; apply _. Qed.
#[global] Instance load_node_decoder n g : Decoder (load_node isValidUtf8 mutableLoad n g).
Proof. unfold load_node, load_contributor. apply _. Qed.
#[global] Instance load_edge_decoder n g : Decoder (load_edge cast_kind cast_confidence cast_exec mutableLoad n g).
Proof. unfold load_edge, load_edge_tu. apply _. Qed.
#[global] Instance load_pair_decoder n f g : Decoder (load_pair n f g).
Proof. unfold load_pair. apply _. Qed.

#[global] Instance read_graph_decoder : Decoder (read_graph isValidUtf8 cast_kind cast_confidence cast_exec mutableLoad).
Proof. unfold read_graph, load_records. apply _. Qed.
End Decode.
