(* ===== verification/SnapshotGraphRoundtrip.v ===== *)
(** The records [save] writes of a call graph: which nodes, edges, registrations and
    relation pairs they hold, and that they fit the format.

    Saving a call graph and loading it again: the graph that installing the saved records
    builds, compared with the graph that was saved. *)

From S2P Require Import Prelude Registrations Utf8 StringInterner CallGraph CallGraphInv CallGraphQuery CallGraphRemove CallGraphCompact Codec SnapshotGraph.

(** * Lists of pairs and the maps they build *)

(** The second components of the pairs with a given first one. *)
Definition seconds (k : SId) (ps : list (SId * SId)) : list SId := snd <$> filter (fun p => p.1 = k) ps.

Lemma seconds_cons k p ps : seconds k (p :: ps) = (if decide (p.1 = k) then [p.2] else []) ++ seconds k ps.
Proof. unfold seconds. rewrite filter_cons. by case_decide. Qed.

Lemma seconds_app k ps qs : seconds k (ps ++ qs) = seconds k ps ++ seconds k qs.
Proof. unfold seconds. by rewrite filter_app, fmap_app. Qed.

Lemma elem_of_seconds k x ps : x ∈ seconds k ps <-> (k, x) ∈ ps.
Proof.
  unfold seconds. rewrite list_elem_of_fmap. split.
  - intros ([a b] & -> & [E H]%list_elem_of_filter). cbn in *. by subst.
  - intros H. exists (k, x). split; [done|]. by apply list_elem_of_filter.
Qed.

Lemma vec_at_push_pairs ps (m : gmap SId (list SId)) k :
  vec_at (foldl (fun m p => push_back p.1 p.2 m) m ps) k = vec_at m k ++ seconds k ps.
Proof.
  revert m. induction ps as [|p ps IH]; intros m; [by rewrite app_nil_r|]. cbn [foldl].
  rewrite IH, vec_at_push_back, seconds_cons, (assoc_L (++)). by case_decide.
Qed.

Lemma elem_of_insert_pairs ps (m : gmap SId (gset SId)) k x :
  x ∈ set_at (foldl (fun m p => set_insert p.1 p.2 m) m ps) k <-> x ∈ set_at m k \/ (k, x) ∈ ps.
Proof.
  revert m. induction ps as [|[a b] ps IH]; intros m; cbn [foldl fst snd].
  - rewrite elem_of_nil. tauto.
  - rewrite IH, elem_of_set_insert, elem_of_cons, pair_equal_spec. naive_solver.
Qed.

Section Keys.
Context `{UI : !UnorderedIter}.

Lemma sorted_keys_perm {V} (m : gmap SId V) : sorted_keys m ≡ₚ (map_to_list m).*1.
Proof. unfold sorted_keys. by rewrite merge_sort_Permutation, map_iter_perm. Qed.

Lemma NoDup_sorted_keys {V} (m : gmap SId V) : NoDup (sorted_keys m).
Proof. rewrite sorted_keys_perm. apply NoDup_fst_map_to_list. Qed.

Lemma elem_of_sorted_keys {V} (m : gmap SId V) k : k ∈ sorted_keys m <-> is_Some (m !! k).
Proof.
  rewrite sorted_keys_perm, list_elem_of_fmap. split.
  - intros ([a v] & -> & H%elem_of_map_to_list). by exists v.
  - intros [v H]. exists (k, v). by rewrite elem_of_map_to_list.
Qed.

Lemma length_sorted_keys {V} (m : gmap SId V) : length (sorted_keys m) = size m.
Proof. by rewrite sorted_keys_perm, length_fmap, length_map_to_list. Qed.

(** The items of an entry, none when it is absent. *)
Definition items_at {V} (items : V -> list SId) (m : gmap SId V) (k : SId) : list SId :=
  match m !! k with Some v => items v | None => [] end.

Lemma seconds_pairs {V} (items : V -> list SId) (m : gmap SId V) k :
  seconds k (pairs_of items m) = items_at items m k.
Proof.
  unfold pairs_of. assert (Hsame : forall k l, seconds k ((k,.) <$> l) = (l : list SId)).
  { intros k' l. induction l as [|x l IH]; [done|]. rewrite fmap_cons, seconds_cons, decide_True by done. by rewrite IH. }
  assert (Hother : forall k' l, k' <> k -> seconds k ((k',.) <$> l) = []).
  { intros k' l Hne. induction l as [|x l IH]; [done|]. rewrite fmap_cons, seconds_cons, decide_False by done. by rewrite IH. }
  assert (Hall : forall ks, NoDup ks ->
    seconds k (x ← ks; match m !! x with Some v => (x,.) <$> items v | None => [] end) =
    if decide (k ∈ ks) then items_at items m k else []).
  { induction 1 as [|x ks Hx Hnd IH]; [by rewrite decide_False by apply not_elem_of_nil|].
    rewrite bind_cons, seconds_app, IH. destruct (decide (x = k)) as [->|Hne].
    - rewrite (decide_False (P := k ∈ ks)), app_nil_r by done. rewrite decide_True by left.
      unfold items_at. by destruct (m !! k).
    - rewrite (decide_ext (k ∈ x :: ks) (k ∈ ks)) by (rewrite elem_of_cons; naive_solver).
      destruct (m !! x); [by rewrite Hother|done]. }
  rewrite Hall by apply NoDup_sorted_keys. case_decide as Hk; [done|].
  unfold items_at. destruct (m !! k) eqn:E; [|done]. destruct Hk. apply elem_of_sorted_keys. by rewrite E.
Qed.

Lemma elem_of_pairs {V} (items : V -> list SId) (m : gmap SId V) a b :
  (a, b) ∈ pairs_of items m <-> b ∈ items_at items m a.
Proof. by rewrite <- elem_of_seconds, seconds_pairs. Qed.

(** ** The pair count *)

Lemma pair_count_size {V} (items : V -> list SId) (m : gmap SId V) :
  pair_count items m = size32 (pairs_of items m).
Proof.
  assert (Hfold : forall l (n : N), foldl (fun n (kv : SId * V) => u32 (n + size32 (items kv.2)))%N (u32 n) l =
            u32 (n + N.of_nat (length (l ≫= fun kv => items kv.2)))).
  { induction l as [|kv l IH]; intros n; [by rewrite N.add_0_r|]. cbn [foldl]. rewrite bind_cons, length_app.
    replace (u32 (u32 n + size32 (items kv.2))) with (u32 (n + N.of_nat (length (items kv.2)))).
    - rewrite IH. f_equal. lia.
    - unfold size32, u32. apply N.Div0.add_mod. }
  unfold pair_count. change 0%N with (u32 0) at 1. rewrite Hfold, N.add_0_l. unfold size32. do 2 f_equal.
  assert (Hlen : forall ks, length (k ← ks; match m !! k with Some v => (k,.) <$> items v | None => [] end : list (SId * SId)) =
            length (ks ≫= items_at items m)).
  { induction ks as [|k ks IH]; [done|]. rewrite !bind_cons, !length_app, IH. f_equal. unfold items_at.
    destruct (m !! k); [by rewrite length_fmap|done]. }
  unfold pairs_of. rewrite Hlen, sorted_keys_perm, map_iter_perm. clear.
  assert (Hin : forall p, p ∈ map_to_list m -> items_at items m p.1 = items p.2).
  { intros [k v] H%elem_of_map_to_list. unfold items_at. cbn. by rewrite H. }
  induction (map_to_list m) as [|p l IH]; [done|]. cbn [fmap list_fmap]. rewrite !bind_cons, !length_app, (Hin p) by left.
  rewrite IH; [done|]. intros q Hq. apply Hin. by right.
Qed.
End Keys.

(** * The records of a graph *)

Section Records.
Context `{UI : !UnorderedIter}.
Variable g : CallGraph.
Hypothesis Hg : cg_ok g.

Lemma node_record_Some id n :
  nodes_ g !! id = Some n -> exists r, node_record g id = Some r /\ nr_id r = id /\ nr_node r = n.
Proof. intros H. unfold node_record. rewrite H. cbn. eauto. Qed.

Lemma node_record_id id r : node_record g id = Some r -> nr_id r = id /\ nodes_ g !! id = Some (nr_node r).
Proof. unfold node_record. destruct (nodes_ g !! id) as [n|] eqn:E; [|done]. cbn. intros [= <-]. done. Qed.

Lemma node_records_ids : nr_id <$> node_records g = sorted_keys (nodes_ g).
Proof.
  unfold node_records. assert (H : forall id, id ∈ sorted_keys (nodes_ g) -> is_Some (nodes_ g !! id)) by (by intros id; rewrite elem_of_sorted_keys).
  induction (sorted_keys (nodes_ g)) as [|id ids IH]; [done|]. rewrite omap_cons_eq.
  destruct (H id ltac:(left)) as [n Hn]. destruct (node_record_Some id n Hn) as (r & -> & Hr & _).
  rewrite fmap_cons, Hr, IH; [done|]. intros id' Hin. apply H. by right.
Qed.

Lemma elem_of_node_records r : r ∈ node_records g <-> node_record g (nr_id r) = Some r.
Proof.
  unfold node_records. rewrite list_elem_of_omap. split.
  - intros (id & _ & Hr). by destruct (node_record_id id r Hr) as [-> _].
  - intros H. exists (nr_id r). split; [|done]. apply elem_of_sorted_keys. apply node_record_id in H as [_ H]. by rewrite H.
Qed.

(** ** Edges *)

(** The registering units written for the edge at position [i]. *)
Definition tus_of (i : nat) : list SId := match edge_tus g !! i with None => [] | Some l => merge_sort N.le l end.

Lemma edge_record_live i se : live se -> edge_record (edge_tus g) i se = Some (MkEdgeRecord se (tus_of i)).
Proof. intros H. unfold edge_record. by destruct (N.eqb_spec (s_refs se) 0). Qed.

Lemma edge_record_dead i se : ~ live se -> edge_record (edge_tus g) i se = None.
Proof. intros H. unfold edge_record. by destruct (N.eqb_spec (s_refs se) 0). Qed.

Lemma edge_records_edges : er_edge <$> edge_records g = filter live (edges_ g).
Proof. by apply (written_entries live _ _ edge_record_live edge_record_dead). Qed.

Lemma edge_records_at i se :
  edges_ g !! i = Some se -> live se -> edge_records g !! new_pos live (edges_ g) i = Some (MkEdgeRecord se (tus_of i)).
Proof. apply (written_at live _ _ edge_record_live edge_record_dead). Qed.

Lemma edge_records_lookup j r :
  edge_records g !! j = Some r ->
  exists i, edges_ g !! i = Some (er_edge r) /\ live (er_edge r) /\ new_pos live (edges_ g) i = j /\ er_tus r = tus_of i.
Proof.
  intros Hj. destruct (written_lookup live _ _ edge_record_live edge_record_dead _ _ _ Hj) as (i & e & ? & ? & ? & ->). by exists i.
Qed.

(** ** Registrations *)

Lemma tus_of_perm i se :
  edges_ g !! i = Some se -> live se -> tus_of i ≡ₚ registrations (tuEdges_ g) i.
Proof.
  intros Hi Hl. rewrite <- (units_at_perm (edge_kept (edges_ g)) (map_iter (tuEdges_ g))) by
    (apply map_iter_perm || (unfold edge_kept; rewrite Hi; by destruct (N.eqb_spec (s_refs se) 0))).
  unfold tus_of, edge_tus, vec_at. destruct (units_at _ _ !! i); [|done]. apply merge_sort_Permutation.
Qed.

Lemma tus_of_times i se tu :
  edges_ g !! i = Some se -> live se -> times tu (tus_of i) = occ i (vec_at (tuEdges_ g) tu).
Proof. intros Hi Hl. by rewrite (tus_of_perm i se Hi Hl), registrations_times. Qed.

Lemma tus_of_length i se : edges_ g !! i = Some se -> live se -> length (tus_of i) = regs (tuEdges_ g) i.
Proof. intros Hi Hl. by rewrite (tus_of_perm i se Hi Hl), registrations_length. Qed.

Lemma tus_of_known i se tu : edges_ g !! i = Some se -> live se -> tu ∈ tus_of i -> is_Some (tuEdges_ g !! tu).
Proof. intros Hi Hl. rewrite (tus_of_perm i se Hi Hl). apply elem_of_registrations. Qed.

(** ** The section is the records of the graph *)

Definition records_of : records :=
  MkRecords (node_records g) (edge_records g) (pairs_of id (derivedClasses_ g)) (pairs_of id (methodOverrides_ g))
    (pairs_of set_order (effectiveImplClasses_ g)) (pairs_of set_order (functionReturns_ g)).

Lemma emitGraph_records : emitGraph g = emitInternerTable (interner_ g) ++ emit_records records_of.
Proof.
  unfold emitGraph, emit_records, put_list, records_of, emitPairs. rewrite !pair_count_size. cbn [rc_nodes rc_edges rc_derived rc_overrides rc_impls rc_returns].
  assert (Hn : u32 (N.of_nat (size (nodes_ g))) = size32 (node_records g)).
  { unfold size32. by rewrite <- length_sorted_keys, <- node_records_ids, length_fmap. }
  assert (He : u32 (Z.to_N (liveEdgeCount_ g)) = size32 (edge_records g)).
  { unfold size32. rewrite (edges_count _ _ _ _ _ _ (ok_edges _ Hg)), <- edge_records_edges, length_fmap. f_equal. lia. }
  rewrite Hn, He. by rewrite <- !(assoc_L (++)).
Qed.
End Records.

(** ** The records fit *)

(** What 32-bit counts and the text check ask of a graph. *)
Record graph_fits (isValidUtf8 : bytes -> bool) `{UI : !UnorderedIter} (g : CallGraph) : Prop := {
  gf_table : table_fits isValidUtf8 (interner_ g);
  gf_size : (N.of_nat (size (nodes_ g)) < two32)%N /\ len_fits (edges_ g);
  gf_nodes : forall id n, nodes_ g !! id = Some n ->
    text_fits isValidUtf8 (file n) /\ u32_fits (line n) /\ text_fits isValidUtf8 (enclosingClass n);
  gf_depth : forall i se, edges_ g !! i = Some se -> u32_fits (s_indirectionDepth se);
  gf_pairs : len_fits (pairs_of id (derivedClasses_ g)) /\ len_fits (pairs_of id (methodOverrides_ g)) /\
    len_fits (pairs_of set_order (effectiveImplClasses_ g)) /\ len_fits (pairs_of set_order (functionReturns_ g))
}.

Lemma known_fits t id : known t id <-> id_fits t id.
Proof. unfold known, id_fits. rewrite resolve_opt_is_Some. lia. Qed.

Lemma items_at_id (m : gmap SId (list SId)) k : items_at id m k = vec_at m k.
Proof. unfold items_at, vec_at. by destruct (m !! k). Qed.

Lemma items_at_set (m : gmap SId (gset SId)) k x : x ∈ items_at set_order m k <-> x ∈ set_at m k.
Proof. unfold items_at, set_at. destruct (m !! k); [apply elem_of_set_order|]. cbn. rewrite elem_of_nil. set_solver. Qed.

(** Distinct ids of a table are at most as many as its strings. *)
Lemma distinct_ids t l : NoDup l -> Forall (id_fits t) l -> length l <= table_size t.
Proof.
  intros Hnd Hl. assert (Hsub : l ⊆+ (N.of_nat <$> seq 0 (table_size t))).
  { apply NoDup_submseteq; [done|]. intros id Hid. eapply Forall_forall in Hl; [|done]. unfold id_fits in Hl.
    apply list_elem_of_fmap. exists (N.to_nat id). split; [by rewrite N2Nat.id|]. apply elem_of_seq. lia. }
  apply submseteq_length in Hsub. by rewrite length_fmap, length_seq in Hsub.
Qed.

Section Fit.
Context (isValidUtf8 : bytes -> bool) `{UI : !UnorderedIter}.
Variable g : CallGraph.
Hypothesis Hg : cg_ok g.
Hypothesis Hfit : graph_fits isValidUtf8 g.

Abbreviation t := (interner_ g).

Lemma contributor_known n tu : tu ∈ set_at (nodeContributors_ g) n -> known t tu.
Proof.
  intros H. destruct (ok_contrib _ Hg) as [C1 _ _ _ C5]. apply C5. apply C1 in H. by eapply vec_at_elem_Some.
Qed.

Lemma node_record_fits r : r ∈ node_records g -> node_fits isValidUtf8 t r.
Proof.
  rewrite elem_of_node_records. intros Hr. destruct (node_record_id _ _ _ Hr) as [_ Hn].
  pose proof (gf_nodes _ _ Hfit _ _ Hn) as (F1 & F2 & F3). destruct (ok_nodes _ Hg) as [N1 N2 _ _ _].
  unfold node_record in Hr. rewrite Hn in Hr. cbn in Hr. destruct (N2 _ _ Hn) as (d & Hd & _).
  rewrite (resolve_find _ _ _ (ok_interner _ Hg) Hd) in Hr. cbn in Hr. injection Hr as Hr.
  pose proof (f_equal nr_tus Hr) as Etus. pose proof (f_equal nr_display Hr) as Edis. cbn in Etus, Edis. clear Hr.
  assert (Htus : Forall (id_fits t) (nr_tus r) /\ NoDup (nr_tus r)).
  { rewrite <- Etus. pose proof (contributor_known (nr_id r)) as Hk. unfold set_at in Hk.
    destruct (nodeContributors_ g !! nr_id r) as [s|]; cbn in *; [|split; constructor]. split; [|apply NoDup_set_order].
    apply Forall_forall. intros tu Htu%elem_of_set_order. by apply known_fits, Hk. }
  destruct Htus as [T1 T2]. split; [by apply N1| |done|done|done|split; [|done]].
  - by rewrite <- Edis.
  - unfold len_fits. pose proof (distinct_ids t _ T2 T1). pose proof (proj1 (gf_table _ _ Hfit)). lia.
Qed.

Lemma edge_record_fits r : r ∈ edge_records g -> edge_fits t r /\ length (er_tus r) <= N.to_nat (s_refs (er_edge r)).
Proof.
  intros [j Hj]%list_elem_of_lookup. destruct (edge_records_lookup g j r Hj) as (i & Hi & Hl & _ & Etus).
  destruct (ok_edges _ Hg) as [E1 E2 _ _ _ _]. destruct (E1 _ _ Hi) as (K1 & K2 & K3). pose proof (E2 _ _ Hi) as Hw.
  assert (Hlen : length (er_tus r) <= N.to_nat (s_refs (er_edge r))).
  { rewrite Etus, (tus_of_length g i _ Hi Hl). pose proof (tu_counted _ _ _ (ok_tu _ Hg) i) as Hc.
    unfold refs_at in Hc. by rewrite Hi in Hc. }
  split; [|done]. split.
  - split_and!; by apply known_fits.
  - by eapply gf_depth.
  - done.
  - split; [unfold len_fits; lia|]. apply Forall_forall. intros tu Htu. rewrite Etus in Htu.
    apply known_fits, (tu_known _ _ _ (ok_tu _ Hg)). by eapply tus_of_known.
Qed.

Lemma pairs_known {V} (items : V -> list SId) (m : gmap SId V) :
  (forall a b, b ∈ items_at items m a -> known t a /\ known t b) -> Forall (pair_fits t) (pairs_of items m).
Proof.
  intros H. apply Forall_forall. intros [a b] Hin%elem_of_pairs. destruct (H a b Hin). by split; apply known_fits.
Qed.

Lemma records_of_fit : records_fit isValidUtf8 t (records_of g).
Proof.
  destruct (gf_pairs _ _ Hfit) as (P1 & P2 & P3 & P4). destruct (gf_size _ _ Hfit) as [S1 S2].
  destruct (ok_rels _ Hg) as [_ _ R1 R2 R3 R4]. split; cbn.
  - split; [|apply Forall_forall; apply node_record_fits]. unfold len_fits.
    by rewrite <- (length_fmap nr_id), node_records_ids, length_sorted_keys.
  - split; [|apply Forall_forall; intros r Hr; by apply edge_record_fits]. unfold len_fits in *.
    rewrite <- (length_fmap er_edge), edge_records_edges. pose proof (length_filter live (edges_ g)). lia.
  - split; [done|]. apply pairs_known. intros a b. rewrite items_at_id. apply R1.
  - split; [done|]. apply pairs_known. intros a b. rewrite items_at_id. apply R2.
  - split; [done|]. apply pairs_known. intros a b. rewrite items_at_set. apply R3.
  - split; [done|]. apply pairs_known. intros a b. rewrite items_at_set. apply R4.
Qed.
End Fit.

Abbreviation inst_node_m := (inst_node true).
Abbreviation inst_edge_m := (inst_edge true).

(** * Nodes *)

(** The fields the node loop does not touch. *)
Definition beyond_nodes (g : CallGraph) :=
  (interner_ g, edges_ g, edgeIndex_ g, outEdges_ g, inEdges_ g, liveEdgeCount_ g, tuEdges_ g,
   (derivedClasses_ g, methodOverrides_ g, overrideBases_ g, effectiveImplClasses_ g, functionReturns_ g, returnedBy_ g)).

Lemma install_node_store id d n g : nodes_ g !! id = None -> install_node id d n g = store_node id d n g.
Proof. intros H. unfold install_node, store_node, map_emplace. by rewrite H. Qed.

Lemma contribute_frame id tu g :
  beyond_nodes (contribute id tu g) = beyond_nodes g /\ nodes_ (contribute id tu g) = nodes_ g /\
  forall n, set_at (nodeContributors_ (contribute id tu g)) n =
            set_at (nodeContributors_ g) n ∪ (if decide (n = id) then {[tu]} else ∅).
Proof.
  split_and!; [unfold contribute; by case_decide..|].
  intros n. assert (E : nodeContributors_ (contribute id tu g) = set_insert id tu (nodeContributors_ g)) by (unfold contribute; by case_decide).
  rewrite E. apply set_eq. intros x. rewrite elem_of_set_insert, elem_of_union. case_decide; set_solver.
Qed.

Lemma contributes id tus g :
  cg_ok g -> is_Some (nodes_ g !! id) -> Forall (known (interner_ g)) tus ->
  let g' := foldl (fun g tu => install_contributor true id tu g) g tus in
  cg_ok g' /\ beyond_nodes g' = beyond_nodes g /\ nodes_ g' = nodes_ g /\
  forall n, set_at (nodeContributors_ g') n = set_at (nodeContributors_ g) n ∪ (if decide (n = id) then list_to_set tus else ∅).
Proof.
  revert g. induction tus as [|tu tus IH]; intros g Hg Hid Hk; cbn [foldl].
  { split_and!; [done..|]. intros n. case_decide; set_solver. }
  apply Forall_cons in Hk as [Hk Hks]. destruct (contribute_frame id tu g) as (F1 & F2 & F3).
  destruct (IH (contribute id tu g)) as (I1 & I2 & I3 & I4).
  - by apply cg_ok_contribute.
  - by rewrite F2.
  - by rewrite interner_contribute.
  - cbn in *. split_and!; [done|congruence|congruence|]. intros n. rewrite I4, F3. case_decide; set_solver.
Qed.

Record nodes_installed (recs : list NodeRecord) (g0 g : CallGraph) : Prop := {
  ni_ok : cg_ok g;
  ni_rest : beyond_nodes g = beyond_nodes g0;
  ni_nodes : forall id n, nodes_ g !! id = Some n <-> exists r, r ∈ recs /\ nr_id r = id /\ nr_node r = n;
  ni_tus : forall r, r ∈ recs -> set_at (nodeContributors_ g) (nr_id r) = list_to_set (nr_tus r);
  ni_none : forall id, ~ id ∈ nr_id <$> recs -> set_at (nodeContributors_ g) id = ∅
}.

Lemma inst_node_step v t recs g0 g r :
  interner_ g0 = t -> nodes_installed recs g0 g -> node_fits v t r -> (nr_id r ∉ nr_id <$> recs) ->
  nodes_installed (recs ++ [r]) g0 (inst_node_m g r).
Proof.
  intros Hi0 [H1 H2 H3 H4 H5] [U1 U2 _ _ _ [_ U3]] Hid.
  assert (Hi : interner_ g = t) by (injection H2; congruence).
  assert (Hother : forall r', r' ∈ recs -> nr_id r' <> nr_id r).
  { intros r' Hr' E. apply Hid. rewrite <- E. by apply list_elem_of_fmap_2. }
  assert (Hfresh : nodes_ g !! nr_id r = None).
  { apply eq_None_not_Some. intros [n (r' & Hr' & E & _)%H3]. by apply (Hother r'). }
  unfold inst_node. rewrite install_node_store by done. set (g1 := store_node _ _ _ _).
  assert (Hg1 : cg_ok g1) by (apply cg_ok_store_node; by rewrite ?Hi).
  assert (E1 : nodes_ g1 = <[nr_id r := nr_node r]> (nodes_ g)) by (unfold g1, store_node; by rewrite Hfresh).
  assert (E2 : beyond_nodes g1 = beyond_nodes g) by (unfold g1, store_node; by rewrite Hfresh).
  assert (E3 : nodeContributors_ g1 = nodeContributors_ g) by (unfold g1, store_node; by rewrite Hfresh).
  destruct (contributes (nr_id r) (nr_tus r) g1 Hg1) as (C1 & C2 & C3 & C4).
  { rewrite E1, lookup_insert_eq. done. }
  { assert (interner_ g1 = t) as -> by (injection E2; congruence). eapply Forall_impl; [exact U3|]. intros. by apply known_fits. }
  split; [done|congruence| | |].
  - intros id n. rewrite C3, E1, lookup_insert. setoid_rewrite elem_of_app. setoid_rewrite list_elem_of_singleton.
    case_decide as E; [subst id|rewrite H3]; naive_solver.
  - intros r' [Hr'| ->%list_elem_of_singleton]%elem_of_app; rewrite C4, E3.
    + rewrite (H4 r' Hr'), decide_False by (by apply Hother). set_solver.
    + rewrite (H5 _ Hid), decide_True by done. set_solver.
  - intros id Hn. rewrite fmap_app, not_elem_of_app in Hn. destruct Hn as [Hn1 Hn2]. rewrite C4, E3, (H5 id Hn1).
    rewrite decide_False; [set_solver|]. intros ->. apply Hn2. left.
Qed.

Lemma inst_nodes v t recs :
  interner_ok t -> NoDup (nr_id <$> recs) -> Forall (node_fits v t) recs ->
  nodes_installed recs (set_interner t empty_graph) (foldl inst_node_m (set_interner t empty_graph) recs).
Proof.
  intros Ht. induction recs as [|r recs IH] using rev_ind; intros Hnd Hfit.
  - split; [|done| | |]; cbn; [|intros id n; rewrite lookup_empty|by intros r ?%not_elem_of_nil|done].
    + apply (cg_ok_extends empty_graph); [apply empty_graph_ok|done|apply prefix_nil].
    + split; [done|]. by intros (r & ?%not_elem_of_nil & _).
  - rewrite foldl_app. rewrite fmap_app in Hnd. apply NoDup_app in Hnd as (Hnd & Hnew & _).
    apply Forall_app in Hfit as [Hfit Hr]. rewrite Forall_singleton in Hr.
    eapply inst_node_step; [done|by apply IH|done|]. intros Hin. apply (Hnew _ Hin). left.
Qed.

(** * Edges *)

(** The fields the edge loop does not touch. *)
Definition beyond_edges (g : CallGraph) :=
  (interner_ g, nodes_ g, byName_ g, nodeContributors_ g, tuNodes_ g,
   (derivedClasses_ g, methodOverrides_ g, overrideBases_ g, effectiveImplClasses_ g, functionReturns_ g, returnedBy_ g)).

Lemma install_edge_store se g :
  edgeIndex_ g !! keyOf se = None -> install_edge true se g = (store_edge se g).1 /\ (store_edge se g).2 = length (edges_ g).
Proof. intros H. unfold install_edge, store_edge, map_emplace. cbn. by rewrite H. Qed.

(** Registering units at one position. *)
Lemma registers_units idx tus g :
  cg_ok g -> Forall (known (interner_ g)) tus -> regs (tuEdges_ g) idx + length tus <= refs_at (edges_ g) idx ->
  let g' := foldl (fun g tu => install_edge_tu true idx tu g) g tus in
  cg_ok g' /\ beyond_edges g' = beyond_edges g /\ edges_ g' = edges_ g /\
  (forall tu, vec_at (tuEdges_ g') tu = vec_at (tuEdges_ g) tu ++ replicate (times tu tus) idx).
Proof.
  revert g. induction tus as [|tu tus IH]; intros g Hg Hk Hlen; cbn [foldl].
  { split_and!; [done..|]. intros tu. by rewrite app_nil_r. }
  apply Forall_cons in Hk as [Hk Hks]. cbn [length] in Hlen.
  destruct (IH (install_edge_tu true idx tu g)) as (I1 & I2 & I3 & I4).
  - destruct Hg. split; try done. cbn. apply tu_ok_push; [done|lia|done].
  - done.
  - cbn. rewrite regs_push_back, decide_True by done. lia.
  - split_and!; [done|done|done|]. intros tu'. rewrite I4, times_cons. cbn [install_edge_tu tuEdges_ set_tuEdges].
    rewrite vec_at_push_back. by case_decide; rewrite <- (assoc_L (++)).
Qed.

Record edges_installed (recs : list EdgeRecord) (g0 g : CallGraph) : Prop := {
  ei_ok : cg_ok g;
  ei_rest : beyond_edges g = beyond_edges g0;
  ei_edges : edges_ g = er_edge <$> recs;
  ei_tus : forall tu j, occ j (vec_at (tuEdges_ g) tu) = match recs !! j with Some r => times tu (er_tus r) | None => 0 end
}.

(** What a record of the edge table must satisfy beyond its width. *)
Definition edge_sound (t : StringInterner) (r : EdgeRecord) : Prop :=
  edge_fits t r /\ length (er_tus r) <= N.to_nat (s_refs (er_edge r)).

Lemma inst_edge_step t recs g0 g r :
  interner_ g0 = t -> edges_installed recs g0 g -> edge_sound t r ->
  (keyOf (er_edge r) ∉ keyOf <$> (er_edge <$> recs)) ->
  edges_installed (recs ++ [r]) g0 (inst_edge_m g r).
Proof.
  intros Hi0 [H1 H2 H3 H4] [[(K1 & K2 & K3) _ [W L] [_ T]] Hlen] Hkey.
  assert (Hi : interner_ g = t) by (injection H2; congruence).
  assert (Hfresh : edgeIndex_ g !! keyOf (er_edge r) = None).
  { apply eq_None_not_Some. intros [i (se & Hse & _ & E)%(edges_index _ _ _ _ _ _ (ok_edges _ H1))].
    apply Hkey. rewrite <- E, <- H3. by eapply list_elem_of_fmap_2, list_elem_of_lookup_2. }
  rewrite inst_edge_eq. destruct (install_edge_store _ _ Hfresh) as [-> Hidx].
  destruct (store_edge (er_edge r) g) as [g1 idx] eqn:Es. cbn in Hidx. subst idx. cbn [fst].
  destruct (cg_ok_store_edge _ _ _ _ Es) as [Hg1 Hroom]; [|done|].
  { rewrite Hi. split_and!; [by apply known_fits..|done|done|]. intros i old Ho E. destruct Hkey. rewrite <- E, <- H3.
    by eapply list_elem_of_fmap_2, list_elem_of_lookup_2. }
  assert (F : beyond_edges g1 = beyond_edges g /\ edges_ g1 = edges_ g ++ [er_edge r] /\ tuEdges_ g1 = tuEdges_ g).
  { unfold store_edge in Es. rewrite Hfresh in Es. by injection Es as <-. }
  destruct F as (F1 & F2 & F3).
  destruct (registers_units (length (edges_ g)) (er_tus r) g1 Hg1) as (R1 & R2 & R3 & R4).
  { assert (interner_ g1 = t) as -> by (injection F1; congruence). eapply Forall_impl; [exact T|]. intros. by apply known_fits. }
  { lia. }
  split; [done|congruence|by rewrite R3, F2, H3, fmap_app|].
  intros tu j. rewrite R4, F3, occ_app, H4, occ_replicate, H3, length_fmap. destruct (Nat.lt_trichotomy j (length recs)) as [Hj|[->|Hj]].
  - rewrite lookup_app_l, decide_False by lia. destruct (recs !! j); lia.
  - rewrite (lookup_ge_None_2 recs), lookup_app_r, Nat.sub_diag, decide_True by lia. done.
  - rewrite decide_False, !lookup_ge_None_2 by (rewrite ?length_app; cbn; lia). done.
Qed.

Lemma inst_edges t recs g0 :
  interner_ g0 = t -> cg_ok g0 -> edges_ g0 = [] -> tuEdges_ g0 = ∅ -> Forall (edge_sound t) recs ->
  NoDup (keyOf <$> (er_edge <$> recs)) -> edges_installed recs g0 (foldl inst_edge_m g0 recs).
Proof.
  intros Hi Hg He Htu. induction recs as [|r recs IH] using rev_ind; intros Hfit Hnd.
  - split; [done|done|done|]. intros tu j. cbn. rewrite Htu. unfold vec_at. by rewrite lookup_empty.
  - rewrite foldl_app. rewrite !fmap_app in Hnd. apply NoDup_app in Hnd as (Hnd & Hnew & _).
    apply Forall_app in Hfit as [Hfit Hr]. rewrite Forall_singleton in Hr.
    eapply inst_edge_step; [done|by apply IH|done|]. intros Hin. apply (Hnew _ Hin). left.
Qed.

(** * Relations *)

Lemma inst_derived ps g :
  foldl (inst_pair install_derived) g ps =
  set_derivedClasses (foldl (fun m p => push_back p.1 p.2 m) (derivedClasses_ g) ps) g.
Proof. revert g. induction ps as [|p ps IH]; intros g; cbn [foldl]; [by destruct g|]. by rewrite IH. Qed.

Lemma inst_overrides ps g :
  foldl (inst_pair install_override) g ps =
  set_overrideBases (foldl (fun m p => push_back p.1 p.2 m) (overrideBases_ g) (prod_swap <$> ps))
    (set_methodOverrides (foldl (fun m p => push_back p.1 p.2 m) (methodOverrides_ g) ps) g).
Proof. revert g. induction ps as [|p ps IH]; intros g; cbn [foldl]; [by destruct g|]. rewrite IH. by destruct p. Qed.

Lemma inst_impls ps g :
  foldl (inst_pair install_impl) g ps =
  set_effectiveImplClasses (foldl (fun m p => set_insert p.1 p.2 m) (effectiveImplClasses_ g) ps) g.
Proof. revert g. induction ps as [|p ps IH]; intros g; cbn [foldl]; [by destruct g|]. by rewrite IH. Qed.

Lemma inst_returns ps g :
  foldl (inst_pair install_return) g ps =
  set_returnedBy (foldl (fun m p => push_back p.1 p.2 m) (returnedBy_ g) (prod_swap <$> ps))
    (set_functionReturns (foldl (fun m p => set_insert p.1 p.2 m) (functionReturns_ g) ps) g).
Proof. revert g. induction ps as [|p ps IH]; intros g; cbn [foldl]; [by destruct g|]. rewrite IH. by destruct p. Qed.

Lemma elem_of_swapped (ps : list (SId * SId)) a b : (a, b) ∈ prod_swap <$> ps <-> (b, a) ∈ ps.
Proof.
  rewrite list_elem_of_fmap. split; [by intros ([x y] & [= -> ->] & H)|]. intros H. by exists (b, a).
Qed.

(** * The loaded graph *)

(** What saving and loading keeps: every fact, with the tombstones gone.  Positions in
    the edge table, and the order of the vectors the code searches as sets, may change. *)
Record same_graph (g g' : CallGraph) : Prop := {
  sg_ok : cg_ok g';
  sg_interner : interner_ g' = interner_ g;
  sg_nodes : nodes_ g' = nodes_ g;
  sg_byName : forall d, vec_at (byName_ g') d ≡ₚ vec_at (byName_ g) d;
  sg_contributors : nodeContributors_ g' = nodeContributors_ g;
  sg_tuNodes : forall tu, vec_at (tuNodes_ g') tu ≡ₚ vec_at (tuNodes_ g) tu;
  sg_edges : edges_ g' = filter live (edges_ g);
  sg_tus : forall tu, omap (fun i => edges_ g' !! i) (vec_at (tuEdges_ g') tu) ≡ₚ
                      omap (fun i => edges_ g !! i) (vec_at (tuEdges_ g) tu);
  sg_derived : forall k, vec_at (derivedClasses_ g') k = vec_at (derivedClasses_ g) k;
  sg_overrides : forall k, vec_at (methodOverrides_ g') k = vec_at (methodOverrides_ g) k;
  sg_bases : forall k x, x ∈ vec_at (overrideBases_ g') k <-> x ∈ vec_at (overrideBases_ g) k;
  sg_impls : forall k, set_at (effectiveImplClasses_ g') k = set_at (effectiveImplClasses_ g) k;
  sg_returns : forall k, set_at (functionReturns_ g') k = set_at (functionReturns_ g) k;
  sg_returnedBy : forall k x, x ∈ vec_at (returnedBy_ g') k <-> x ∈ vec_at (returnedBy_ g) k
}.

(** [byName_] is determined by the nodes, up to order. *)
Lemma byName_determined t nodes b b' d :
  interner_ok t -> nodes_ok t nodes b -> nodes_ok t nodes b' -> vec_at b d ≡ₚ vec_at b' d.
Proof.
  intros Ht Hb Hb'. apply NoDup_Permutation; [apply Hb|apply Hb'|].
  assert (H : forall b b', nodes_ok t nodes b -> nodes_ok t nodes b' -> forall x, x ∈ vec_at b d -> x ∈ vec_at b' d).
  { intros b1 b2 H1 H2 x Hx. destruct (byName_nodes _ _ _ H1 d x Hx) as (n & Hn & Hd).
    destruct (nodes_named _ _ _ H2 x n Hn) as (d' & Hd' & Hin). by rewrite (resolve_opt_inj t d d' (qualifiedName n)). }
  intros x. split; by apply H.
Qed.

Lemma set_at_ext (m m' : gmap SId (gset SId)) :
  (forall n, m !! n <> Some ∅) -> (forall n, m' !! n <> Some ∅) -> (forall n, set_at m n = set_at m' n) -> m = m'.
Proof.
  intros H H' E. apply map_eq. intros n. specialize (H n). specialize (H' n). specialize (E n). unfold set_at in E.
  destruct (m !! n), (m' !! n); cbn in *; congruence.
Qed.

Lemma occ_Permutation l k : (forall i, occ i l = occ i k) -> l ≡ₚ k.
Proof.
  revert k. induction l as [|x l IH]; intros k H.
  - destruct k as [|y k]; [done|]. specialize (H y). rewrite occ_cons, decide_True in H by done. cbn in H. lia.
  - assert (Hx : x ∈ k) by (apply occ_pos; rewrite <- H, occ_cons, decide_True by done; lia).
    apply elem_of_Permutation in Hx as [k' Hk]. rewrite Hk. f_equiv. apply IH. intros i.
    specialize (H i). assert (E : occ i k = occ i (x :: k')) by (unfold occ; by rewrite Hk). rewrite E, !occ_cons in H. lia.
Qed.

Section Roundtrip.
Context (isValidUtf8 : bytes -> bool) `{UI : !UnorderedIter}.
Variable g : CallGraph.
Hypothesis Hg : cg_ok g.
Hypothesis Hfit : graph_fits isValidUtf8 g.

Abbreviation base := (set_interner (interner_ g) empty_graph).
Abbreviation with_nodes := (foldl inst_node_m base (node_records g)).
Abbreviation with_edges := (foldl inst_edge_m with_nodes (edge_records g)).

Lemma saved_nodes : nodes_installed (node_records g) base with_nodes.
Proof.
  apply (inst_nodes isValidUtf8); [apply Hg| |apply Forall_forall; intros; by apply (node_record_fits isValidUtf8 g Hg Hfit)].
  rewrite node_records_ids. apply NoDup_sorted_keys.
Qed.

Lemma saved_edges : edges_installed (edge_records g) with_nodes with_edges.
Proof.
  destruct saved_nodes as [H1 H2 _ _ _]. injection H2 as Hi He _ _ _ _ Ht _.
  apply (inst_edges (interner_ g)); [done|done|done|done| |].
  - apply Forall_forall. intros r Hr. by apply (edge_record_fits isValidUtf8 g Hg Hfit).
  - rewrite edge_records_edges. apply NoDup_alt. intros i j k Hi' Hj'.
    rewrite list_lookup_fmap, fmap_Some in Hi', Hj'. destruct Hi' as (a & Ha & ->), Hj' as (b & Hb & E).
    destruct (new_pos_surj _ _ _ Ha) as (i' & Hi' & La & <-), (new_pos_surj _ _ _ Hb) as (j' & Hj' & Lb & <-).
    f_equal. by eapply edges_key_unique; [apply Hg|..].
Qed.

Lemma saved_node_map : nodes_ with_nodes = nodes_ g.
Proof.
  apply map_eq. intros id. apply option_eq. intros n. rewrite (ni_nodes _ _ _ saved_nodes). split.
  - intros (r & Hr%elem_of_node_records & <- & <-). by apply (node_record_id g _ r).
  - intros Hn. destruct (node_record_Some g id n Hn) as (r & Hr & <- & <-). exists r. by rewrite elem_of_node_records.
Qed.

Lemma saved_contributors : nodeContributors_ with_nodes = nodeContributors_ g.
Proof.
  pose proof saved_nodes as [H1 _ _ H4 H5]. apply set_at_ext; [apply (ok_contrib _ H1)|apply (ok_contrib _ Hg)|].
  intros id. destruct (nodes_ g !! id) as [n|] eqn:Hn.
  - destruct (node_record_Some g id n Hn) as (r & Hr & E & _). rewrite <- E, H4 by (by rewrite elem_of_node_records, E). rewrite E.
    unfold node_record in Hr. rewrite Hn in Hr. cbn in Hr. injection Hr as <-. cbn. unfold set_at.
    destruct (nodeContributors_ g !! id) as [s|]; [|done]. cbn. apply set_eq. intros x. by rewrite elem_of_list_to_set, elem_of_set_order.
  - rewrite H5.
    + unfold set_at. destruct (nodeContributors_ g !! id) as [s|] eqn:E; [|done].
      destruct (contrib_node _ _ _ _ (ok_contrib _ Hg) id) as [? ?]; [by rewrite E|congruence].
    + rewrite node_records_ids, elem_of_sorted_keys, Hn. by intros [].
Qed.

(** The positions a unit registers, moved. *)
Lemma saved_registrations tu :
  vec_at (tuEdges_ with_edges) tu ≡ₚ new_pos live (edges_ g) <$> vec_at (tuEdges_ g) tu.
Proof.
  apply occ_Permutation. intros j. rewrite (ei_tus _ _ _ saved_edges).
  assert (Hlive : forall i, i ∈ vec_at (tuEdges_ g) tu -> exists se, edges_ g !! i = Some se /\ live se) by (intros; by eapply registered_live).
  destruct (edge_records g !! j) as [r|] eqn:Ej.
  - destruct (edge_records_lookup g j r Ej) as (i & Hi & Hl & <- & ->). rewrite (tus_of_times g i _ tu Hi Hl).
    induction (vec_at (tuEdges_ g) tu) as [|x l IH]; [done|]. rewrite fmap_cons, !occ_cons, IH by (intros; apply Hlive; by right).
    f_equal. destruct (Hlive x ltac:(left)) as (sx & Hx & Lx).
    destruct (decide (x = i)) as [->|Hne]; [by rewrite decide_True|]. rewrite decide_False; [done|].
    intros E. apply Hne. by eapply new_pos_inj.
  - symmetry. destruct (decide (0 < occ j (new_pos live (edges_ g) <$> vec_at (tuEdges_ g) tu))) as [Hp|]; [|lia]. exfalso.
    apply occ_pos, list_elem_of_fmap in Hp as (i & -> & (se & Hi & Hl)%Hlive). by rewrite (edge_records_at g i se Hi Hl) in Ej.
Qed.

Lemma saved_tus tu :
  omap (fun i => edges_ with_edges !! i) (vec_at (tuEdges_ with_edges) tu) ≡ₚ
  omap (fun i => edges_ g !! i) (vec_at (tuEdges_ g) tu).
Proof.
  rewrite (ei_edges _ _ _ saved_edges), edge_records_edges, saved_registrations.
  assert (Hlive : forall i, i ∈ vec_at (tuEdges_ g) tu -> exists se, edges_ g !! i = Some se /\ live se) by (intros; by eapply registered_live).
  induction (vec_at (tuEdges_ g) tu) as [|i l IH]; [done|]. destruct (Hlive i ltac:(left)) as (se & Hi & Hl).
  rewrite fmap_cons, !omap_cons_eq, (new_pos_lookup _ _ _ Hi Hl), Hi, IH; [done|]. intros. apply Hlive. by right.
Qed.

(** The relation maps start empty. *)
Lemma with_edges_fields :
  interner_ with_edges = interner_ g /\ nodes_ with_edges = nodes_ g /\
  nodeContributors_ with_edges = nodeContributors_ g /\
  derivedClasses_ with_edges = ∅ /\ methodOverrides_ with_edges = ∅ /\ overrideBases_ with_edges = ∅ /\
  effectiveImplClasses_ with_edges = ∅ /\ functionReturns_ with_edges = ∅ /\ returnedBy_ with_edges = ∅.
Proof.
  pose proof (ei_rest _ _ _ saved_edges) as E. pose proof (ni_rest _ _ _ saved_nodes) as N.
  injection E as E1 E2 _ E4 _ E6 E7 E8 E9 E10 E11. injection N as N1 _ _ _ _ _ _ N8 N9 N10 N11 N12 N13.
  rewrite E1, E2, E4, E6, E7, E8, E9, E10, E11, saved_node_map, saved_contributors. split_and!; done.
Qed.

Lemma loaded_same : same_graph g (loaded true (interner_ g) (records_of g)).
Proof.
  unfold loaded, inst_records. cbn [rc_nodes rc_edges rc_derived rc_overrides rc_impls rc_returns records_of].
  change (set_readOnly (negb true) base) with base.
  rewrite inst_returns, inst_impls, inst_overrides, inst_derived.
  destruct with_edges_fields as (F1 & F2 & F3 & F4 & F5 & F6 & F7 & F8 & F9).
  pose proof (ei_ok _ _ _ saved_edges) as Hok. pose proof (ei_edges _ _ _ saved_edges) as He. rewrite edge_records_edges in He.
  pose proof saved_tus as Htus. set (w := with_edges) in *. clearbody w. cbn.
  assert (V : forall (m : gmap SId (list SId)) k, vec_at (foldl (fun m p => push_back p.1 p.2 m) ∅ (pairs_of id m)) k = vec_at m k).
  { intros m k. rewrite vec_at_push_pairs, seconds_pairs, items_at_id. unfold vec_at at 1. by rewrite lookup_empty. }
  assert (S : forall (m : gmap SId (gset SId)) k, set_at (foldl (fun m p => set_insert p.1 p.2 m) ∅ (pairs_of set_order m)) k = set_at m k).
  { intros m k. apply set_eq. intros x. rewrite elem_of_insert_pairs, elem_of_pairs, items_at_set. unfold set_at at 1.
    rewrite lookup_empty. cbn. set_solver. }
  assert (R : forall (ps : list (SId * SId)) k x,
    x ∈ vec_at (foldl (fun m p => push_back p.1 p.2 m) ∅ (prod_swap <$> ps)) k <-> (x, k) ∈ ps).
  { intros ps k x. rewrite vec_at_push_pairs. unfold vec_at at 1. rewrite lookup_empty. cbn. by rewrite elem_of_seconds, elem_of_swapped. }
  pose proof (ok_rels _ Hg) as [R1 R2 R3 R4 R5 R6]. destruct Hok as [O1 O2 O3 O4 O5 _].
  split; cbn; rewrite ?F4, ?F5, ?F6, ?F7, ?F8, ?F9; try done.
  - split; cbn; try done. rewrite ?F1, ?F4, ?F5, ?F6, ?F7, ?F8, ?F9. split.
    + intros b o. rewrite V, R, elem_of_pairs, items_at_id. done.
    + intros f r. rewrite S, R, elem_of_pairs, items_at_set. done.
    + intros b d. rewrite V. apply R3.
    + intros b o. rewrite V. apply R4.
    + intros m c. rewrite S. apply R5.
    + intros f r. rewrite S. apply R6.
  - intros d. rewrite F1, F2 in O2. apply (byName_determined (interner_ g) (nodes_ g)); [apply Hg|done|apply Hg].
  - intros tu. apply NoDup_Permutation; [apply O3|apply (ok_contrib _ Hg)|]. intros n.
    by rewrite (contrib_inverse _ _ _ _ O3), (contrib_inverse _ _ _ _ (ok_contrib _ Hg)), F3.
  - intros k x. rewrite R, elem_of_pairs, items_at_id. apply R1.
  - intros k x. rewrite R, elem_of_pairs, items_at_set. apply R2.
Qed.
End Roundtrip.

(** * Queries on the loaded graph *)

Lemma closure_loop_ext fuel rel rel' visited result stack :
  (forall k, vec_at rel k = vec_at rel' k) ->
  closure_loop fuel rel visited result stack = closure_loop fuel rel' visited result stack.
Proof.
  intros H. revert visited result stack. induction fuel as [|fuel IH]; intros visited result stack; [done|].
  destruct stack as [|cur stack]; [done|]. cbn [closure_loop]. specialize (H cur). unfold vec_at in H.
  destruct (rel !! cur) as [l|], (rel' !! cur) as [l'|]; cbn in H; subst; cbn [foldl]; try apply IH.
  destruct (foldl _ _ _) as [[? ?] ?]. apply IH.
Qed.

Lemma transitiveClosure_ext start rel rel' :
  (forall k, vec_at rel k = vec_at rel' k) -> transitiveClosure start rel = transitiveClosure start rel'.
Proof.
  intros H. unfold transitiveClosure. assert (targets rel = targets rel') as ->.
  { apply set_eq. intros x. rewrite !elem_of_targets. unfold rel_step. by setoid_rewrite H. }
  rewrite (closure_loop_ext _ _ _ _ _ _ H). specialize (H start). unfold vec_at in H.
  destruct (rel !! start) as [l|] eqn:E, (rel' !! start) as [l'|] eqn:E'; cbn in H; subst; try done; cbn [closure_loop]; rewrite E'; cbn [foldl];
    by destruct (size (targets rel')).
Qed.

(** The returns pass, with an absent entry read as the empty set. *)
Lemma callee_returns_set g st idx :
  callee_returns g st idx =
  match edges_ g !! idx with
  | None => st
  | Some se =>
      if defers se then
        foldl (fun st retId =>
                 show (retId, s_callSite se)
                   (MkRef (s_caller se) retId (s_callSite se) (return_kind se)
                      (s_confidence se) (s_execContext se) (s_indirectionDepth se)) st)
          st (set_order (set_at (functionReturns_ g) (s_callee se)))
      else st
  end.
Proof.
  unfold callee_returns, set_at. destruct (edges_ g !! idx) as [se|]; [|done].
  destruct (defers se); [|done]. by destruct (functionReturns_ g !! s_callee se).
Qed.

Section Queries.
Variables g g' : CallGraph.
Hypothesis Hg : cg_ok g.
Hypothesis Hs : same_graph g g'.

Lemma same_out c : omap (fun i => edges_ g' !! i) (vec_at (outEdges_ g') c) = omap (fun i => edges_ g !! i) (vec_at (outEdges_ g) c).
Proof.
  rewrite !(adjacency_edges _ s_caller) by (apply (ok_edges _ Hg) || apply (ok_edges _ (sg_ok _ _ Hs))).
  by rewrite (sg_edges _ _ Hs), edges_at_live.
Qed.

Lemma same_in c : omap (fun i => edges_ g' !! i) (vec_at (inEdges_ g') c) = omap (fun i => edges_ g !! i) (vec_at (inEdges_ g) c).
Proof.
  rewrite !(adjacency_edges _ s_callee) by (apply (ok_edges _ Hg) || apply (ok_edges _ (sg_ok _ _ Hs))).
  by rewrite (sg_edges _ _ Hs), edges_at_live.
Qed.

Lemma same_callees c : calleeRefsOf g' c = calleeRefsOf g c.
Proof.
  rewrite !calleeRefsOf_vec. f_equal.
  rewrite !(foldl_ext_eq (callee_returns _) _ _ _ (callee_returns_set _)).
  unfold callee_stored, callee_virtual. rewrite !foldl_lookup, same_out.
  erewrite (foldl_ext_eq _ _ _ _) ; [f_equal|].
  - apply foldl_ext_eq. intros st se. destruct (dispatches se); [|done].
    by rewrite (transitiveClosure_ext _ _ _ (sg_overrides _ _ Hs)).
  - intros st se. cbn. by rewrite (sg_returns _ _ Hs).
Qed.

Lemma same_degree c : storedInDegree g' c = storedInDegree g c.
Proof. by rewrite !storedInDegree_edges, same_in. Qed.

Lemma same_reaches u v s : reaches g' u v s <-> reaches g u v s.
Proof.
  rewrite <- (reaches_callees g' u v s (sg_ok _ _ Hs)), <- (reaches_callees g u v s Hg). by rewrite same_callees.
Qed.

Lemma same_callers v u s :
  (exists r, r ∈ callerRefsOf g' v /\ r_caller r = u /\ r_callSite r = s) <->
  (exists r, r ∈ callerRefsOf g v /\ r_caller r = u /\ r_callSite r = s).
Proof. rewrite (reaches_callers g' u v s (sg_ok _ _ Hs)), (reaches_callers g u v s Hg). apply same_reaches. Qed.

Lemma same_count : edgeCount g' = edgeCount g /\ nodeCount g' = nodeCount g.
Proof.
  unfold edgeCount, nodeCount. rewrite (sg_nodes _ _ Hs). split; [|done].
  rewrite (edges_count _ _ _ _ _ _ (ok_edges _ Hg)), (edges_count _ _ _ _ _ _ (ok_edges _ (sg_ok _ _ Hs))), (sg_edges _ _ Hs).
  by rewrite list_filter_filter, (filter_ext_in _ live) by naive_solver.
Qed.

Lemma same_usrs v name : usrsForName v g' name ≡ₚ usrsForName v g name.
Proof.
  unfold usrsForName, resolveUsrIds, findText. rewrite (sg_interner _ _ Hs), (sg_nodes _ _ Hs).
  f_equiv. destruct (if v name then _ else _) as [id|]; [|done]. destruct (nodes_ g !! id); [done|].
  pose proof (sg_byName _ _ Hs id) as E. unfold vec_at in E.
  destruct (byName_ g' !! id) as [[|x l]|], (byName_ g !! id) as [[|y k]|]; cbn in E; try done.
  - by apply Permutation_nil_cons in E.
  - symmetry in E. by apply Permutation_nil_cons in E.
  - symmetry in E. by apply Permutation_nil_cons in E.
  - by apply Permutation_nil_cons in E.
Qed.
End Queries.

(** * Read-only loads *)

(** A graph without the maps that only the mutators use. *)
Definition read_only_view (g : CallGraph) : CallGraph :=
  set_readOnly true (set_edgeIndex ∅ (set_tuEdges ∅ (set_nodeContributors ∅ (set_tuNodes ∅ g)))).

(** [m'] does what [m] does, its result mapped by [f]. *)
Definition image_of {A B} (f : A -> B) (m : M A) (m' : M B) : Prop := forall r, m' r = (f (m r).1, (m r).2).

Lemma mapped_ret {A B} (f : A -> B) a : image_of f (ret a) (ret (f a)).
Proof. done. Qed.

Lemma mapped_bind {X Y A B} (h : X -> Y) (f : A -> B) (m : M X) (m' : M Y) (k : X -> M A) (k' : Y -> M B) :
  image_of h m m' -> (forall x, image_of f (k x) (k' (h x))) -> image_of f (bind m k) (bind m' k').
Proof. intros Hm Hk r. unfold bind. rewrite Hm. destruct (m r) as [x r']. apply Hk. Qed.

Lemma mapped_same {X A B} (f : A -> B) (m : M X) (k : X -> M A) (k' : X -> M B) :
  (forall x, image_of f (k x) (k' x)) -> image_of f (bind m k) (bind m k').
Proof. intros Hk r. unfold bind. destruct (m r) as [x r']. apply Hk. Qed.

Lemma mapped_when_ok {A B} (f : A -> B) d m m' : image_of f m m' -> image_of f (when_ok d m) (when_ok (f d) m').
Proof. intros H r. unfold when_ok. by destruct (ok r). Qed.

Lemma mapped_loop {A B} (f : A -> B) n (step : A -> M A) (step' : B -> M B) s :
  (forall s, image_of f (step s) (step' (f s))) -> image_of f (loop n step s) (loop n step' (f s)).
Proof.
  intros H. revert s. induction n as [|n IH]; intros s; cbn [loop]; [apply mapped_ret|].
  apply mapped_when_ok. eapply mapped_bind; [apply H|]. intros. apply IH.
Qed.

Lemma mapped_for {A B} (f : A -> B) (step : A -> M A) (step' : B -> M B) s :
  (forall s, image_of f (step s) (step' (f s))) -> image_of f (for_count step s) (for_count step' (f s)).
Proof. intros H. apply mapped_same. intros n. by apply mapped_loop. Qed.

Lemma section_mapped {A B} (f : A -> B) (m : M A) (m' : M B) b :
  image_of f m m' -> section_done m' b = f <$> section_done m b.
Proof. intros H. unfold section_done. rewrite H. destruct (m _) as [a r]. cbn. by destruct (ok r && _). Qed.

Section ReadOnly.
Variable isValidUtf8 : bytes -> bool.
Variable cast_kind : N -> EdgeKind.
Variable cast_confidence : N -> Confidence.
Variable cast_exec : N -> ExecutionContext.

Lemma mapped_node n g :
  image_of read_only_view (load_node isValidUtf8 true n g) (load_node isValidUtf8 false n (read_only_view g)).
Proof.
  unfold load_node. do 7 (apply mapped_same; intros). apply mapped_when_ok.
  change (install_node ?a ?b ?c (read_only_view g)) with (read_only_view (install_node a b c g)).
  apply mapped_loop. intros s. apply mapped_same. intros tu. apply mapped_when_ok.
  intros r. cbn. unfold contribute. by case_decide.
Qed.

Lemma mapped_edge n g :
  image_of read_only_view (load_edge cast_kind cast_confidence cast_exec true n g)
    (load_edge cast_kind cast_confidence cast_exec false n (read_only_view g)).
Proof.
  unfold load_edge. do 10 (apply mapped_same; intros). apply mapped_when_ok.
  change (install_edge false ?se (read_only_view g)) with (read_only_view (install_edge true se g)).
  apply mapped_loop. intros s. apply mapped_same. intros tu. by apply mapped_when_ok.
Qed.

Lemma mapped_pair n (f : SId -> SId -> CallGraph -> CallGraph) g :
  (forall a b g, f a b (read_only_view g) = read_only_view (f a b g)) ->
  image_of read_only_view (load_pair n f g) (load_pair n f (read_only_view g)).
Proof.
  intros H. unfold load_pair. do 2 (apply mapped_same; intros). apply mapped_when_ok. rewrite H. apply mapped_ret.
Qed.

Lemma read_only_load data :
  loadGraph isValidUtf8 cast_kind cast_confidence cast_exec false data =
  read_only_view <$> loadGraph isValidUtf8 cast_kind cast_confidence cast_exec true data.
Proof.
  apply section_mapped. unfold read_graph. apply mapped_same. intros t.
  change (set_readOnly (negb false) ?g) with (read_only_view (set_readOnly (negb true) g)).
  unfold load_records. eapply mapped_bind; [apply mapped_for; apply mapped_node|]. intros g1.
  eapply mapped_bind; [apply mapped_for; apply mapped_edge|]. intros g2.
  do 3 (eapply mapped_bind; [apply mapped_for; intros; by apply mapped_pair|]; intros). apply mapped_for. intros. by apply mapped_pair.
Qed.
End ReadOnly.

(** * The section *)

(** The casts of the load, on the codes of the enumerators. *)
Record casts_ok (cast_kind : N -> EdgeKind) (cast_confidence : N -> Confidence) (cast_exec : N -> ExecutionContext) : Prop := {
  cast_kind_code : forall k, cast_kind (kind_code k) = k;
  cast_confidence_code : forall c, cast_confidence (confidence_code c) = c;
  cast_exec_code : forall x, cast_exec (exec_code x) = x
}.

Lemma reads_saved isValidUtf8 ck cc ce mutableLoad `{UI : !UnorderedIter} g :
  casts_ok ck cc ce -> cg_ok g -> graph_fits isValidUtf8 g ->
  reads (read_graph isValidUtf8 ck cc ce mutableLoad) (emitGraph g) (loaded mutableLoad (interner_ g) (records_of g)).
Proof.
  intros [C1 C2 C3] Hg Hf. rewrite emitGraph_records by done. apply reads_graph; [done|done|done|apply Hg|apply Hf|].
  by apply records_of_fit.
Qed.

(** Saving a graph and loading it for change gives the graph back without its tombstones:
    the same strings, nodes, live edges with their counts, registrations of every unit and
    relations, in a graph that satisfies the representation invariant.  The callees of
    every function come back as the same list in the same order, and the callers as the
    same callers at the same call sites. *)
Theorem graph_roundtrip (isValidUtf8 : bytes -> bool) (cast_kind : N -> EdgeKind)
    (cast_confidence : N -> Confidence) (cast_exec : N -> ExecutionContext) `{UI : !UnorderedIter} (g : CallGraph) :
  casts_ok cast_kind cast_confidence cast_exec -> cg_ok g -> graph_fits isValidUtf8 g ->
  exists g', loadGraph isValidUtf8 cast_kind cast_confidence cast_exec true (emitGraph g) = Some g' /\
    same_graph g g' /\
    (forall c, calleeRefsOf g' c = calleeRefsOf g c /\ storedInDegree g' c = storedInDegree g c) /\
    (forall u v s, (exists r, r ∈ callerRefsOf g' v /\ r_caller r = u /\ r_callSite r = s) <->
                   (exists r, r ∈ callerRefsOf g v /\ r_caller r = u /\ r_callSite r = s)) /\
    (forall name, usrsForName isValidUtf8 g' name ≡ₚ usrsForName isValidUtf8 g name) /\
    edgeCount g' = edgeCount g /\ nodeCount g' = nodeCount g.
Proof.
  intros Hc Hg Hf. exists (loaded true (interner_ g) (records_of g)).
  split; [by apply section_read, reads_saved|]. pose proof (loaded_same isValidUtf8 g Hg Hf) as Hs. split; [done|].
  split; [intros c; split; [by apply same_callees|by apply same_degree]|].
  split; [intros u v s; by apply same_callers|]. split; [intros; by apply same_usrs|by apply same_count].
Qed.

(** What the loader makes of data [save] did not write: a section that was cut short or
    has bytes behind its last record is refused, in both modes.  On any data at all a
    read-only load succeeds exactly when a mutable one does, and gives the same graph for
    every query: only the maps of the mutators are missing. *)
Theorem graph_section_exact (isValidUtf8 : bytes -> bool) (cast_kind : N -> EdgeKind)
    (cast_confidence : N -> Confidence) (cast_exec : N -> ExecutionContext) :
  let load := loadGraph isValidUtf8 cast_kind cast_confidence cast_exec in
  (forall (UI : UnorderedIter) (g : CallGraph) mutableLoad data tl,
     casts_ok cast_kind cast_confidence cast_exec -> cg_ok g -> graph_fits isValidUtf8 g -> tl <> [] ->
     data ++ tl = emitGraph g \/ data = emitGraph g ++ tl -> load mutableLoad data = None) /\
  (forall data, load false data = read_only_view <$> load true data) /\
  (forall g c name, calleeRefsOf (read_only_view g) c = calleeRefsOf g c /\
     callerRefsOf (read_only_view g) c = callerRefsOf g c /\
     storedInDegree (read_only_view g) c = storedInDegree g c /\
     findNode isValidUtf8 (read_only_view g) name = findNode isValidUtf8 g name).
Proof.
  split; [|split; [apply read_only_load|done]]. intros UI g m data tl Hc Hg Hf Htl Hd.
  eapply section_exact; [apply _|by apply reads_saved|done|done].
Qed.

(** A graph with a tombstone, shared nodes, an override and a returned function. *)
Definition saved_graph : CallGraph := (@removeTUs canonical_iter [str "a.cpp"] (
  build [AddNode (MkNode (str "f") (str "a.cpp") 1 true false [] []) (str "a.cpp");
         AddNode (MkNode (str "f") (str "a.cpp") 1 true false [] []) (str "b.cpp");
         AddNode (MkNode (str "B::run") (str "b.cpp") 2 false true (str "B") (str "c:@S@B@F@run")) (str "b.cpp");
         AddEdge (direct (str "f") (str "h") (str "a.cpp:2:1")) (str "a.cpp");
         AddEdge (direct (str "f") (str "h") (str "b.cpp:2:1")) (str "b.cpp");
         AddEdge (direct (str "f") (str "h") (str "b.cpp:2:1")) (str "c.cpp");
         AddMethodOverride (str "A::run") (str "c:@S@B@F@run");
         AddFunctionReturn (str "f") (str "h")] empty_graph)).1.

Lemma saved_graph_ok : cg_ok saved_graph.
Proof.
  refine (rm_ok _ _ _ _ (@removeTUs_removed canonical_iter _ _ _ _)).
  - apply build_ok. vm_compute. discriminate.
  - vm_compute. reflexivity.
Qed.

Definition kind_of_code (n : N) : EdgeKind :=
  match n with
  | 0 => DirectCall | 1 => VirtualDispatch | 2 => FunctionPointer | 3 => ConstructorCall
  | 4 => DestructorCall | 5 => OperatorCall | 6 => TemplateInstantiation | 7 => LambdaCall
  | 8 => ThreadEntry | _ => FunctionPointerReturn
  end%N.
Definition confidence_of_code (n : N) : Confidence :=
  match n with 0 => Proven | 1 => Plausible | _ => Unknown end%N.
Definition exec_of_code (n : N) : ExecutionContext :=
  match n with 0 => Synchronous | 1 => ThreadSpawn | 2 => AsyncTask | 3 => PackagedTask | _ => Invoke end%N.

Lemma codes_ok : casts_ok kind_of_code confidence_of_code exec_of_code.
Proof. split; by intros []. Qed.

Lemma saved_graph_fits : @graph_fits valid_utf8b canonical_iter saved_graph.
Proof.
  split.
  - unfold table_fits, text_fits, len_fits. by_computation.
  - unfold len_fits. by_computation.
  - assert (H : map_Forall (fun _ n => text_fits valid_utf8b (file n) /\ u32_fits (line n) /\ text_fits valid_utf8b (enclosingClass n)) (nodes_ saved_graph)).
    { unfold text_fits, u32_fits, len_fits. by_computation. }
    exact H.
  - apply Forall_lookup. unfold u32_fits. by_computation.
  - unfold len_fits. by_computation.
Qed.

Lemma graph_roundtrip_witness :
  exists g', loadGraph valid_utf8b kind_of_code confidence_of_code exec_of_code true (@emitGraph canonical_iter saved_graph) = Some g' /\
    calleeRefsOf g' 0 = calleeRefsOf saved_graph 0.
Proof.
  destruct (@graph_roundtrip valid_utf8b kind_of_code confidence_of_code exec_of_code canonical_iter saved_graph codes_ok saved_graph_ok saved_graph_fits)
    as (g' & Hl & _ & Hc & _). exists g'. split; [exact Hl|]. exact (proj1 (Hc 0%N)).
Defined.

Lemma graph_section_exact_witness :
  loadGraph valid_utf8b kind_of_code confidence_of_code exec_of_code false (@emitGraph canonical_iter saved_graph ++ [Byte.x00]) = None.
Proof.
  refine (proj1 (graph_section_exact valid_utf8b kind_of_code confidence_of_code exec_of_code) canonical_iter saved_graph false _ [Byte.x00]
    codes_ok saved_graph_ok saved_graph_fits _ (or_intror eq_refl)). discriminate.
Defined.
