(* ===== verification/ChannelIndex.v ===== *)
(** The channel index of include/vycor/callgraph/ChannelIndex.h and
    src/callgraph/ChannelIndex.cpp: the producer and consumer sites of registered
    container types.

    A site is stored once per (channel, call site, function, operation) with a reference
    count; every unit that registers it is recorded, one entry per registration, so that
    removing a unit takes back exactly what it registered.  Every method locks the mutex
    for its whole body, so a call is one transition ([absorb] copies the shard first and
    then makes its own calls). *)

From S2P Require Import Prelude Utf8 ControlFlowIndex.

(** [std::unordered_map<std::string, V>] and [std::unordered_set<std::string>] are visited
    in an order that is not fixed. *)
Class TextIter := {
  text_iter : forall {V : Type}, gmap bytes V -> list (bytes * V);
  text_set_iter : gset bytes -> list bytes;
  text_iter_perm : forall V (m : gmap bytes V), text_iter m ≡ₚ map_to_list m;
  text_set_iter_perm : forall s : gset bytes, text_set_iter s ≡ₚ elements s
}.

Definition canonical_text_iter : TextIter := {|
  text_iter := fun V m => map_to_list m;
  text_set_iter := fun s => elements s;
  text_iter_perm := fun V m => reflexivity _;
  text_set_iter_perm := fun s => reflexivity _
|}.

(** * Data *)

Inductive ChannelOperation := Produce | Consume.

#[global] Instance ChannelOperation_eq_dec : EqDecision ChannelOperation.
Proof. solve_decision. Defined.

#[global] Program Instance ChannelOperation_countable : Countable ChannelOperation :=
  inj_countable' (fun o => match o with Produce => true | Consume => false end)
    (fun b : bool => if b then Produce else Consume) _.
Next Obligation. by intros []. Qed.

Record ChannelSite := MkSite {
  ch_channelId : bytes;
  ch_channelTypeName : bytes;
  ch_category : bytes;
  ch_op : ChannelOperation;
  ch_siteFunctionUsr : bytes;
  ch_siteFunctionDisplay : bytes;
  ch_callSite : bytes;
  ch_enclosingGuards : list ConditionalGuard;
  ch_tuPath : bytes
}.

Record StoredSite := MkStoredSite { st_site : ChannelSite; st_refs : N; st_live : bool }.

Record SiteKey := MkSiteKey {
  sk_channelId : bytes;
  sk_callSite : bytes;
  sk_siteFunctionUsr : bytes;
  sk_op : ChannelOperation
}.

#[global] Instance ChannelSite_eq_dec : EqDecision ChannelSite.
Proof. solve_decision. Defined.
#[global] Instance StoredSite_eq_dec : EqDecision StoredSite.
Proof. solve_decision. Defined.
#[global] Instance SiteKey_eq_dec : EqDecision SiteKey.
Proof. solve_decision. Defined.
#[global] Program Instance SiteKey_countable : Countable SiteKey :=
  inj_countable' (fun k => (sk_channelId k, sk_callSite k, sk_siteFunctionUsr k, sk_op k))
    (fun '(a, b, c, d) => MkSiteKey a b c d) _.
Next Obligation. by intros []. Qed.

Definition key_of (s : ChannelSite) : SiteKey :=
  MkSiteKey (ch_channelId s) (ch_callSite s) (ch_siteFunctionUsr s) (ch_op s).

Record ChannelIndex := MkChannels {
  ch_sites : list StoredSite;
  ch_index : gmap SiteKey nat;
  ch_byChannel : gmap bytes (list nat);
  ch_byFunctionUsr : gmap bytes (list nat);
  ch_byFunctionDisplay : gmap bytes (list nat);
  ch_byTu : gmap bytes (list nat);
  ch_liveCount : Z
}.

Definition empty_channels : ChannelIndex := MkChannels [] ∅ ∅ ∅ ∅ ∅ 0.

(** Assignment to one field. *)
Definition with_sites (v : list StoredSite) (x : ChannelIndex) : ChannelIndex :=
  MkChannels v (ch_index x) (ch_byChannel x) (ch_byFunctionUsr x) (ch_byFunctionDisplay x) (ch_byTu x) (ch_liveCount x).
Definition with_byTu (v : gmap bytes (list nat)) (x : ChannelIndex) : ChannelIndex :=
  MkChannels (ch_sites x) (ch_index x) (ch_byChannel x) (ch_byFunctionUsr x) (ch_byFunctionDisplay x) v (ch_liveCount x).

Definition set_tuPath (tu : bytes) (s : ChannelSite) : ChannelSite :=
  MkSite (ch_channelId s) (ch_channelTypeName s) (ch_category s) (ch_op s) (ch_siteFunctionUsr s)
    (ch_siteFunctionDisplay s) (ch_callSite s) (ch_enclosingGuards s) tu.

Definition is_nil (s : bytes) : bool := match s with [] => true | _ => false end.

(** * Registering a site *)

(** [if (cur.empty() || tu < cur) cur = tu;] *)
Definition least_tu (tu cur : bytes) : bytes := if is_nil cur || bytes_ltb tu cur then tu else cur.

(** A dedup hit: [count] more references, the least path of a contributor kept. *)
Definition join_site (count : N) (tu : bytes) (s : StoredSite) : StoredSite :=
  let cur := ch_tuPath (st_site s) in
  MkStoredSite (if is_nil tu then st_site s else set_tuPath (least_tu tu cur) (st_site s))
    (u32 (st_refs s + count)) (st_live s).

Definition differs (s : ChannelSite) : bool := negb (bool_decide (ch_siteFunctionDisplay s = ch_siteFunctionUsr s)).

Definition append_site (site : ChannelSite) (count : N) (x : ChannelIndex) : ChannelIndex :=
  let idx := length (ch_sites x) in
  MkChannels (ch_sites x ++ [MkStoredSite site count true])
    (<[key_of site := idx]> (ch_index x))
    (push_back (ch_channelId site) idx (ch_byChannel x))
    (push_back (ch_siteFunctionUsr site) idx (ch_byFunctionUsr x))
    (if differs site then push_back (ch_siteFunctionDisplay site) idx (ch_byFunctionDisplay x)
     else ch_byFunctionDisplay x)
    (ch_byTu x) (ch_liveCount x + 1)%Z.

(** [byTu_\[tu\].insert(byTu_\[tu\].end(), count, idx)]. *)
Definition record_tu_site (tu : bytes) (count : N) (idx : nat) (x : ChannelIndex) : ChannelIndex :=
  if is_nil tu then x
  else with_byTu (<[tu := vec_at (ch_byTu x) tu ++ replicate (N.to_nat count) idx]> (ch_byTu x)) x.

Definition addSiteRefs (site : ChannelSite) (count : N) (x : ChannelIndex) : ChannelIndex :=
  if (count =? 0)%N then x
  else
    let tu := ch_tuPath site in
    let '(x', idx) :=
      match ch_index x !! key_of site with
      | Some idx => (with_sites (alter (join_site count tu) idx (ch_sites x)) x, idx)
      | None => (append_site site count x, length (ch_sites x))
      end in
    record_tu_site tu count idx x'.

(** The strings of a producer's site, as index text. *)
Definition normalize_site (s : ChannelSite) : ChannelSite :=
  MkSite (makeIndexText (ch_channelId s)) (makeIndexText (ch_channelTypeName s)) (makeIndexText (ch_category s)) (ch_op s)
    (makeIndexText (ch_siteFunctionUsr s)) (makeIndexText (ch_siteFunctionDisplay s)) (makeIndexText (ch_callSite s))
    ((fun g => MkGuard (makeIndexText (conditionText g)) (makeIndexText (guardLocation g)) (inTrueBranch g) (isAssertion g))
       <$> ch_enclosingGuards s)
    (makeIndexText (ch_tuPath s)).

Definition addSite (site : ChannelSite) (x : ChannelIndex) : ChannelIndex := addSiteRefs (normalize_site site) 1 x.

(** * Queries *)

Section Queries.
(** [llvm::json::isUTF8], as in Utf8.v. *)
Variable isValidUtf8 : bytes -> bool.

(** The live sites at the given positions that satisfy a test. *)
Definition sites_at (x : ChannelIndex) (keep : ChannelSite -> bool) (idxs : list nat) : list ChannelSite :=
  omap (fun i => s ← ch_sites x !! i; if st_live s && keep (st_site s) then Some (st_site s) else None) idxs.

Definition producersOf (x : ChannelIndex) (channelId : bytes) : list ChannelSite :=
  match ch_byChannel x !! lookupText isValidUtf8 channelId with
  | None => []
  | Some idxs => sites_at x (fun s => bool_decide (ch_op s = Produce)) idxs
  end.

Definition consumersOf (x : ChannelIndex) (channelId : bytes) : list ChannelSite :=
  match ch_byChannel x !! lookupText isValidUtf8 channelId with
  | None => []
  | Some idxs => sites_at x (fun s => bool_decide (ch_op s = Consume)) idxs
  end.

Definition sitesForFunction (x : ChannelIndex) (functionUsrOrDisplay : bytes) : list ChannelSite :=
  let key := lookupText isValidUtf8 functionUsrOrDisplay in
  let collect (m : gmap bytes (list nat)) :=
    match m !! key with None => [] | Some idxs => sites_at x (fun _ => true) idxs end in
  collect (ch_byFunctionUsr x) ++ collect (ch_byFunctionDisplay x).

Definition allChannelIds `{TI : !TextIter} (x : ChannelIndex) : list bytes :=
  omap (fun '(id, idxs) =>
          if existsb (fun i => match ch_sites x !! i with Some s => st_live s | None => false end) idxs
          then Some id else None) (text_iter (ch_byChannel x)).

Definition allSites (x : ChannelIndex) : list ChannelSite :=
  st_site <$> filter (fun s => st_live s = true) (ch_sites x).

Definition channels_size (x : ChannelIndex) : Z := ch_liveCount x.
End Queries.

(** * Removing units *)

Section Remove.
Context `{TI : !TextIter}.

Record site_release := MkSiteRelease {
  sr_index : ChannelIndex;
  sr_dead : gset nat;
  sr_refresh : gset nat;
  sr_channels : gset bytes;
  sr_usrs : gset bytes;
  sr_displays : gset bytes;
  sr_removed : nat
}.

(** One registration of a removed unit. *)
Definition release_site (tuText : bytes) (st : site_release) (idx : nat) : site_release :=
  let x := sr_index st in
  match ch_sites x !! idx with
  | None => st
  | Some se =>
      if (st_refs se =? 0)%N then st
      else
        let refs' := (st_refs se - 1)%N in
        let site := st_site se in
        if (0 <? refs')%N then
          MkSiteRelease (with_sites (<[idx := MkStoredSite site refs' (st_live se)]> (ch_sites x)) x)
            (sr_dead st)
            (if bool_decide (ch_tuPath site = tuText) then {[idx]} ∪ sr_refresh st else sr_refresh st)
            (sr_channels st) (sr_usrs st) (sr_displays st) (sr_removed st)
        else
          MkSiteRelease
            (MkChannels (<[idx := MkStoredSite site refs' false]> (ch_sites x)) (delete (key_of site) (ch_index x))
               (ch_byChannel x) (ch_byFunctionUsr x) (ch_byFunctionDisplay x) (ch_byTu x) (ch_liveCount x - 1)%Z)
            ({[idx]} ∪ sr_dead st) (sr_refresh st ∖ {[idx]})
            ({[ch_channelId site]} ∪ sr_channels st) ({[ch_siteFunctionUsr site]} ∪ sr_usrs st)
            (if differs site then {[ch_siteFunctionDisplay site]} ∪ sr_displays st else sr_displays st)
            (S (sr_removed st))
  end.

Definition release_unit (st : site_release) (rawPath : bytes) : site_release :=
  let tuText := toIndexText rawPath in
  match ch_byTu (sr_index st) !! tuText with
  | None => st
  | Some idxs =>
      let st' := foldl (release_site tuText) st idxs in
      let x := sr_index st' in
      MkSiteRelease (with_byTu (delete tuText (ch_byTu x)) x) (sr_dead st') (sr_refresh st')
        (sr_channels st') (sr_usrs st') (sr_displays st') (sr_removed st')
  end.

Definition map_site (f : ChannelSite -> ChannelSite) (s : StoredSite) : StoredSite :=
  MkStoredSite (f (st_site s)) (st_refs s) (st_live s).

(** The path of a surviving site that lost its least contributor: cleared, then the
    least of the units that still register it. *)
Definition refresh_site (refresh : gset nat) (tu : bytes) (sites : list StoredSite) (idx : nat) : list StoredSite :=
  if decide (idx ∈ refresh) then alter (map_site (fun s => set_tuPath (least_tu tu (ch_tuPath s)) s)) idx sites
  else sites.

Definition refresh_sites (refresh : gset nat) (byTu : gmap bytes (list nat)) (sites : list StoredSite) : list StoredSite :=
  foldl (fun sites '(tu, idxs) => foldl (refresh_site refresh tu) sites idxs)
    (imap (fun i s => if decide (i ∈ refresh) then map_site (set_tuPath []) s else s) sites) (text_iter byTu).

(** Erase the dead positions from the vector of [k], and the entry with its last one. *)
Definition scrub_entry (dead : gset nat) (m : gmap bytes (list nat)) (k : bytes) : gmap bytes (list nat) :=
  match m !! k with
  | None => m
  | Some v =>
      match filter (fun i => i ∉ dead) v with
      | [] => delete k m
      | v' => <[k := v']> m
      end
  end.

Definition ch_removeTUs (tuPaths : list bytes) (x : ChannelIndex) : ChannelIndex * nat :=
  let st := foldl release_unit (MkSiteRelease x ∅ ∅ ∅ ∅ ∅ 0) tuPaths in
  let x' := sr_index st in
  let sites := if decide (sr_refresh st = ∅) then ch_sites x' else refresh_sites (sr_refresh st) (ch_byTu x') (ch_sites x') in
  (MkChannels sites (ch_index x')
     (foldl (scrub_entry (sr_dead st)) (ch_byChannel x') (text_set_iter (sr_channels st)))
     (foldl (scrub_entry (sr_dead st)) (ch_byFunctionUsr x') (text_set_iter (sr_usrs st)))
     (foldl (scrub_entry (sr_dead st)) (ch_byFunctionDisplay x') (text_set_iter (sr_displays st)))
     (ch_byTu x') (ch_liveCount x'), sr_removed st).

Definition ch_removeTU (tuPath : bytes) (x : ChannelIndex) : ChannelIndex * nat := ch_removeTUs [tuPath] x.

(** * Merging a shard *)

(** Per site of the shard, the unit of each of its registrations. *)
Definition site_tus (shard : ChannelIndex) : list (list bytes) :=
  foldl (fun acc '(tu, idxs) => foldl (fun acc idx => alter (fun l => l ++ [tu]) idx acc) acc idxs)
    (replicate (length (ch_sites shard)) []) (text_iter (ch_byTu shard)).

(** The length of the run of [tu] at the front. *)
Fixpoint run_length (tu : bytes) (l : list bytes) : nat :=
  match l with
  | x :: l' => if decide (x = tu) then S (run_length tu l') else 0
  | [] => 0
  end.

(** The registrations of one site, a run of one unit at a time; a round takes at least
    one entry off the list, so its length is fuel enough. *)
Fixpoint replay (fuel : nat) (stored : StoredSite) (tus : list bytes) (replayed : N) (x : ChannelIndex) : ChannelIndex * N :=
  match fuel, tus with
  | S fuel', tu :: _ =>
      if (replayed <? st_refs stored)%N then
        let run := run_length tu tus in
        let n := N.min (N.of_nat run) (st_refs stored - replayed) in
        replay fuel' stored (drop run tus) (u32 (replayed + n)) (addSiteRefs (set_tuPath tu (st_site stored)) n x)
      else (x, replayed)
  | _, _ => (x, replayed)
  end.

Definition absorb_site (x : ChannelIndex) (entry : StoredSite * list bytes) : ChannelIndex :=
  let '(stored, tus0) := entry in
  if negb (st_live stored) || (st_refs stored =? 0)%N then x
  else
    let tus := merge_sort bytes_le tus0 in
    let '(x', replayed) := replay (length tus) stored tus 0 x in
    addSiteRefs (set_tuPath [] (st_site stored)) (st_refs stored - replayed) x'.

(** [same] is the test [&shard == this]. *)
Definition ch_absorb (same : bool) (shard x : ChannelIndex) : ChannelIndex :=
  if same then x else foldl absorb_site x (zip (ch_sites shard) (site_tus shard)).
End Remove.

(** * Compaction *)

(** The kept sites and [oldToNew]. *)
Definition compact_site (st : list StoredSite * list (option nat)) (s : StoredSite) : list StoredSite * list (option nat) :=
  let '(news, remap) := st in
  if st_live s then (news ++ [s], remap ++ [Some (length news)]) else (news, remap ++ [None]).

(** Rebuilding a map entry by entry, an entry whose vector becomes empty left out; the
    order of the visit does not show in the result. *)
Definition remap_into (remap : list (option nat)) (m : gmap bytes (list nat)) : gmap bytes (list nat) :=
  omap (fun v => match omap (fun i => mjoin (remap !! i)) v with [] => None | nv => Some nv end) m.

Definition ch_compact (x : ChannelIndex) : ChannelIndex :=
  let '(news, remap) := foldl compact_site ([], []) (ch_sites x) in
  MkChannels news (omap (fun idx => mjoin (remap !! idx)) (ch_index x)) (remap_into remap (ch_byChannel x))
    (remap_into remap (ch_byFunctionUsr x)) (remap_into remap (ch_byFunctionDisplay x)) (remap_into remap (ch_byTu x))
    (ch_liveCount x).
