(* ===== verification/ChannelInv.v ===== *)
(** The invariant of the channel index, the ledger of registrations it stands for, and
    what registering a site does to both. *)

From S2P Require Import Prelude Registrations Utf8 ControlFlowIndex ChannelIndex.

(** * The invariant *)

Definition alive (s : StoredSite) : Prop := st_live s = true.

#[global] Instance alive_dec s : Decision (alive s).
Proof. unfold alive. apply _. Defined.

(** The sites listed under a channel, a function, and a display name of its own. *)
Definition on_channel (k : bytes) (s : StoredSite) : Prop := alive s /\ ch_channelId (st_site s) = k.
Definition in_function (k : bytes) (s : StoredSite) : Prop := alive s /\ ch_siteFunctionUsr (st_site s) = k.
Definition displayed_as (k : bytes) (s : StoredSite) : Prop :=
  alive s /\ differs (st_site s) = true /\ ch_siteFunctionDisplay (st_site s) = k.

(** A site carries the least path of the units that register it, none if there is none. *)
Definition path_ok (byTu : gmap bytes (list nat)) (i : nat) (p : bytes) : Prop :=
  (forall tu, i ∈ vec_at byTu tu -> p <> [] /\ bytes_le p tu) /\ (p <> [] -> i ∈ vec_at byTu p).

Definition site_refs (sites : list StoredSite) (i : nat) : nat :=
  match sites !! i with Some s => N.to_nat (st_refs s) | None => 0 end.

Record ch_ok (x : ChannelIndex) : Prop := {
  co_live : forall i s, ch_sites x !! i = Some s -> alive s <-> st_refs s <> 0%N;
  co_width : forall i s, ch_sites x !! i = Some s -> (st_refs s < two32)%N;
  co_index : forall k i, ch_index x !! k = Some i <-> exists s, ch_sites x !! i = Some s /\ alive s /\ key_of (st_site s) = k;
  co_channel : listed on_channel (ch_sites x) (ch_byChannel x);
  co_usr : listed in_function (ch_sites x) (ch_byFunctionUsr x);
  co_display : listed displayed_as (ch_sites x) (ch_byFunctionDisplay x);
  co_counted : forall i, regs (ch_byTu x) i <= site_refs (ch_sites x) i;
  co_named : forall tu, is_Some (ch_byTu x !! tu) -> tu <> [];
  co_path : forall i s, ch_sites x !! i = Some s -> alive s -> path_ok (ch_byTu x) i (ch_tuPath (st_site s));
  co_count : ch_liveCount x = Z.of_nat (length (filter alive (ch_sites x)))
}.

(** * The ledger *)

(** The stored site of a key, its references, the registrations of a unit, and what it
    says (without the path, which the registrations determine). *)
Definition site_of (x : ChannelIndex) (k : SiteKey) : option StoredSite := i ← ch_index x !! k; ch_sites x !! i.
Definition refs_of (x : ChannelIndex) (k : SiteKey) : nat := default 0 ((fun s => N.to_nat (st_refs s)) <$> site_of x k).
Definition regs_of (x : ChannelIndex) (k : SiteKey) (tu : bytes) : nat :=
  default 0 ((fun i => occ i (vec_at (ch_byTu x) tu)) <$> ch_index x !! k).
Definition content (x : ChannelIndex) (k : SiteKey) : option ChannelSite := (set_tuPath [] ∘ st_site) <$> site_of x k.

(** The entry of a key, or that there is none. *)
Lemma index_cases x k :
  ch_ok x ->
  (exists i s, ch_index x !! k = Some i /\ ch_sites x !! i = Some s /\ alive s /\ key_of (st_site s) = k) \/
  (ch_index x !! k = None /\ forall i s, ch_sites x !! i = Some s -> alive s -> key_of (st_site s) <> k).
Proof.
  intros Hx. destruct (ch_index x !! k) as [i|] eqn:E.
  - left. apply (co_index _ Hx) in E as Hi. destruct Hi as (s & ? & ? & ?). eauto 6.
  - right. split; [done|]. intros i s Hi Hl Hk. assert (ch_index x !! k = Some i) by (apply (co_index _ Hx); eauto). congruence.
Qed.

Lemma index_inj x k k' i : ch_ok x -> ch_index x !! k = Some i -> ch_index x !! k' = Some i -> k = k'.
Proof. intros Hx (s & Hs & _ & <-)%(co_index _ Hx) (s' & Hs' & _ & <-)%(co_index _ Hx). congruence. Qed.

Lemma empty_channels_ok : ch_ok empty_channels.
Proof.
  split; cbn; try done; try apply listed_empty.
  - intros k i. rewrite lookup_empty. split; [done|]. by intros (s & ? & _).
  - intros tu. rewrite lookup_empty. by intros [].
Qed.

(** * Paths *)

Lemma is_nil_true s : is_nil s = true <-> s = [].
Proof. by destruct s. Qed.

Lemma least_tu_spec tu cur : tu <> [] ->
  least_tu tu cur <> [] /\ (cur <> [] -> bytes_le (least_tu tu cur) cur) /\ bytes_le (least_tu tu cur) tu /\
  (least_tu tu cur = tu \/ (least_tu tu cur = cur /\ cur <> [])).
Proof.
  intros Htu. unfold least_tu. destruct (is_nil cur) eqn:En; cbn [orb].
  - apply is_nil_true in En as ->. split_and!; [done|done|reflexivity|by left].
  - assert (cur <> []) by (intros ->; done). destruct (bytes_ltb tu cur) eqn:El.
    + apply bytes_ltb_lt in El as [? ?]. split_and!; [done|done|reflexivity|by left].
    + split_and!; [done|reflexivity| |by right]. destruct (total bytes_le tu cur) as [Hle|Hle]; [|done].
      destruct (decide (tu = cur)) as [->|Hne]; [done|]. rewrite (proj2 (bytes_ltb_lt tu cur)) in El by done. done.
Qed.

(** One more unit among the contributors of a position. *)
Lemma path_ok_join byTu byTu' i tu p :
  tu <> [] -> (forall u, i ∈ vec_at byTu' u <-> i ∈ vec_at byTu u \/ u = tu) ->
  path_ok byTu i p -> path_ok byTu' i (least_tu tu p).
Proof.
  intros Htu Hin [H1 H2]. destruct (least_tu_spec tu p Htu) as (L1 & L2 & L3 & L4). split.
  - intros u [Hu| ->]%Hin; [|done]. destruct (H1 u Hu) as [Hp Hle]. split; [done|]. etrans; [by apply L2|done].
  - intros _. apply Hin. destruct L4 as [->|[-> Hp]]; [by right|left; by apply H2].
Qed.

Lemma path_ok_ext byTu byTu' i p :
  (forall u, i ∈ vec_at byTu' u <-> i ∈ vec_at byTu u) -> path_ok byTu i p -> path_ok byTu' i p.
Proof. intros Hin [H1 H2]. split; [intros u Hu; by apply H1, Hin|]. intros Hp. by apply Hin, H2. Qed.

(** * Keys of changed sites *)

Lemma key_of_set_tuPath tu s : key_of (set_tuPath tu s) = key_of s.
Proof. done. Qed.

Lemma set_tuPath_twice a b s : set_tuPath a (set_tuPath b s) = set_tuPath a s.
Proof. done. Qed.

(** Sites that differ in their path and count only are listed alike. *)
Definition same_listing (s s' : StoredSite) : Prop :=
  st_live s' = st_live s /\ set_tuPath [] (st_site s') = set_tuPath [] (st_site s).

Lemma same_listing_on s s' : same_listing s s' ->
  (forall k, on_channel k s' <-> on_channel k s) /\ (forall k, in_function k s' <-> in_function k s) /\
  (forall k, displayed_as k s' <-> displayed_as k s) /\ key_of (st_site s') = key_of (st_site s).
Proof.
  intros [Hl Hs]. unfold on_channel, in_function, displayed_as, alive, differs. rewrite Hl.
  destruct (st_site s), (st_site s'). cbn in *. injection Hs as -> -> -> -> -> -> -> ->. done.
Qed.

Lemma join_site_listing count tu s : same_listing s (join_site count tu s).
Proof. unfold join_site, same_listing. by destruct (is_nil tu). Qed.

(** * Registering *)

(** [byTu_] with [n] more registrations of one position by a unit. *)
Definition tu_added (tu : bytes) (n : N) (idx : nat) (m : gmap bytes (list nat)) : gmap bytes (list nat) :=
  if is_nil tu then m else <[tu := vec_at m tu ++ replicate (N.to_nat n) idx]> m.

Lemma tu_added_occ tu n idx m j u :
  occ j (vec_at (tu_added tu n idx m) u) =
  occ j (vec_at m u) + (if decide (j = idx /\ u = tu /\ tu <> []) then N.to_nat n else 0).
Proof.
  unfold tu_added. destruct (is_nil tu) eqn:En.
  - apply is_nil_true in En as ->. rewrite decide_False by naive_solver. lia.
  - assert (tu <> []) by (intros ->; done). rewrite vec_at_insert. case_decide as E; [subst u|rewrite decide_False by naive_solver; lia].
    rewrite occ_app, occ_replicate. f_equal. repeat case_decide; naive_solver.
Qed.

Lemma tu_added_regs tu n idx m j :
  regs (tu_added tu n idx m) j = regs m j + (if decide (j = idx /\ tu <> []) then N.to_nat n else 0).
Proof.
  unfold tu_added. destruct (is_nil tu) eqn:En.
  - apply is_nil_true in En as ->. rewrite decide_False by naive_solver. lia.
  - assert (tu <> []) by (intros ->; done). pose proof (regs_insert j m tu (vec_at m tu ++ replicate (N.to_nat n) idx)) as H1.
    rewrite occ_app, occ_replicate in H1. repeat case_decide; naive_solver lia.
Qed.

Lemma tu_added_in tu n idx m j u : n <> 0%N ->
  j ∈ vec_at (tu_added tu n idx m) u <-> j ∈ vec_at m u \/ (j = idx /\ u = tu /\ tu <> []).
Proof. intros Hn. rewrite <- !occ_pos, tu_added_occ. case_decide; naive_solver lia. Qed.

Lemma tu_added_named tu n idx m u : is_Some (tu_added tu n idx m !! u) -> is_Some (m !! u) \/ (u = tu /\ tu <> []).
Proof.
  unfold tu_added. destruct (is_nil tu) eqn:En; [by left|]. assert (tu <> []) by (intros ->; done).
  rewrite lookup_insert. case_decide; naive_solver.
Qed.

(** The result of [addSiteRefs], by the two cases of the dedup probe. *)
Lemma addSiteRefs_hit site n x i :
  n <> 0%N -> ch_index x !! key_of site = Some i ->
  addSiteRefs site n x =
  with_byTu (tu_added (ch_tuPath site) n i (ch_byTu x)) (with_sites (alter (join_site n (ch_tuPath site)) i (ch_sites x)) x).
Proof.
  intros Hn Hi. unfold addSiteRefs. rewrite (proj2 (N.eqb_neq n 0) Hn), Hi. unfold record_tu_site, tu_added. by destruct (is_nil _).
Qed.

Lemma addSiteRefs_new site n x :
  n <> 0%N -> ch_index x !! key_of site = None ->
  addSiteRefs site n x = with_byTu (tu_added (ch_tuPath site) n (length (ch_sites x)) (ch_byTu x)) (append_site site n x).
Proof.
  intros Hn Hi. unfold addSiteRefs. rewrite (proj2 (N.eqb_neq n 0) Hn), Hi. unfold record_tu_site, tu_added. by destruct (is_nil _).
Qed.

Lemma alter_insert_lookup {A} (f : A -> A) (l : list A) i a : l !! i = Some a -> alter f i l = <[i := f a]> l.
Proof.
  intros H. apply list_eq. intros j. destruct (decide (i = j)) as [<-|Hne].
  - rewrite list_lookup_alter_eq, list_lookup_insert_eq, H by (by eapply lookup_lt_Some). done.
  - by rewrite list_lookup_alter_ne, list_lookup_insert_ne.
Qed.

Lemma filter_alive_insert sites i s s' :
  sites !! i = Some s -> (alive s' <-> alive s) -> length (filter alive (<[i := s']> sites)) = length (filter alive sites).
Proof.
  intros Hi Hl. revert i Hi. induction sites as [|y l IH]; intros [|i] Hi; simplify_eq/=.
  - rewrite !filter_cons. destruct (decide (alive s')), (decide (alive s)); tauto || done.
  - rewrite !filter_cons. case_decide; simpl; by rewrite (IH i).
Qed.

Section Hit.
Context (site : ChannelSite) (n : N) (x : ChannelIndex) (i : nat) (s : StoredSite).
Hypothesis Hx : ch_ok x.
Hypothesis Hn : n <> 0%N.
Hypothesis Hi : ch_index x !! key_of site = Some i.
Hypothesis Hs : ch_sites x !! i = Some s.
Hypothesis Hfit : (st_refs s + n < two32)%N.

Lemma hit_alive : alive s.
Proof. apply (co_index _ Hx) in Hi as (s' & Hs' & Hl & _). by rewrite Hs in Hs'; simplify_eq. Qed.

Lemma hit_ok : ch_ok (addSiteRefs site n x).
Proof.
  pose proof hit_alive as Hl. pose proof Hx as [H1 H2 H3 H4 H5 H6 H7 H8 H9 H10].
  rewrite (addSiteRefs_hit site n x i) by done. set (tu := ch_tuPath site).
  pose proof (join_site_listing n tu s) as Hlist. destruct (same_listing_on _ _ Hlist) as (L1 & L2 & L3 & L4).
  assert (Hrefs : st_refs (join_site n tu s) = (st_refs s + n)%N) by (cbn; by rewrite u32_small).
  assert (Halive : alive (join_site n tu s)) by done.
  rewrite (alter_insert_lookup _ _ _ _ Hs). set (s' := join_site n tu s) in *.
  assert (Hlt : i < length (ch_sites x)) by (by eapply lookup_lt_Some).
  assert (Hlook : forall j y, <[i := s']> (ch_sites x) !! j = Some y -> (j = i /\ y = s') \/ (j <> i /\ ch_sites x !! j = Some y)).
  { intros j y. destruct (decide (i = j)) as [<-|]; [rewrite list_lookup_insert_eq by done|rewrite list_lookup_insert_ne by done]; naive_solver. }
  split; cbn.
  - intros j y [[-> ->]|[_ Hy]]%Hlook; [|by eapply H1]. split; [|done]. intros _. rewrite Hrefs. lia.
  - intros j y [[-> ->]|[_ Hy]]%Hlook; [by rewrite Hrefs|by eapply H2].
  - intros k j. rewrite H3. destruct (decide (i = j)) as [<-|Hne]; [|by rewrite list_lookup_insert_ne].
    rewrite list_lookup_insert_eq, Hs by done. split; intros (y & [= <-] & ? & ?); [exists s'|exists s]; rewrite ?L4 in *; done.
  - by apply (listed_update _ _ _ _ s).
  - by apply (listed_update _ _ _ _ s).
  - by apply (listed_update _ _ _ _ s).
  - intros j. rewrite tu_added_regs. specialize (H7 j). unfold site_refs in *. destruct (decide (i = j)) as [<-|Hne].
    + rewrite list_lookup_insert_eq by done. rewrite Hs in H7. rewrite Hrefs. case_decide; lia.
    + rewrite list_lookup_insert_ne, decide_False by naive_solver. lia.
  - intros u [Hu|[-> ?]]%tu_added_named; [by apply H8|done].
  - intros j y [[-> ->]|[Hne Hy]]%Hlook Hly.
    + specialize (H9 i s Hs Hl). unfold s', join_site. cbn. destruct (is_nil tu) eqn:En.
      * apply (path_ok_ext (ch_byTu x)); [|done]. intros u. rewrite tu_added_in by done. apply is_nil_true in En. naive_solver.
      * assert (tu <> []) by (intros E; by rewrite E in En). cbn. apply (path_ok_join (ch_byTu x)); [done| |done].
        intros u. rewrite tu_added_in by done. naive_solver.
    + apply (path_ok_ext (ch_byTu x)); [|by apply H9]. intros u. rewrite tu_added_in by done. naive_solver.
  - rewrite H10. by rewrite (filter_alive_insert _ _ s s') by done.
Qed.

Lemma hit_ledger :
  (forall k, refs_of (addSiteRefs site n x) k = refs_of x k + (if decide (k = key_of site) then N.to_nat n else 0)) /\
  (forall k tu, regs_of (addSiteRefs site n x) k tu =
     regs_of x k tu + (if decide (k = key_of site /\ tu = ch_tuPath site /\ tu <> []) then N.to_nat n else 0)) /\
  (forall k, content (addSiteRefs site n x) k = content x k).
Proof.
  pose proof (fun k => index_inj x k (key_of site) i Hx) as Hinj. rewrite (addSiteRefs_hit site n x i) by done.
  assert (Hlt : i < length (ch_sites x)) by (by eapply lookup_lt_Some).
  split_and!.
  - intros k. unfold refs_of, site_of. cbn. destruct (ch_index x !! k) as [j|] eqn:Ek; cbn.
    + destruct (decide (i = j)) as [<-|Hne].
      * rewrite list_lookup_alter_eq, Hs. cbn. rewrite u32_small, decide_True by (done || by apply Hinj). lia.
      * rewrite list_lookup_alter_ne by done. rewrite decide_False; [lia|]. intros ->. congruence.
    + rewrite decide_False; [done|]. intros ->. congruence.
  - intros k tu. unfold regs_of. cbn. destruct (ch_index x !! k) as [j|] eqn:Ek; cbn.
    + rewrite tu_added_occ. f_equal. destruct (decide (j = i)) as [->|Hne].
      * rewrite (Hinj k) in * by done. repeat case_decide; naive_solver.
      * rewrite !decide_False; [done| |naive_solver]. intros (-> & _). congruence.
    + rewrite decide_False; [done|]. intros (-> & _). congruence.
  - intros k. unfold content, site_of. cbn. destruct (ch_index x !! k) as [j|] eqn:Ek; [|done]. cbn.
    destruct (decide (i = j)) as [<-|Hne]; [|by rewrite list_lookup_alter_ne].
    rewrite list_lookup_alter_eq, Hs. cbn. f_equal. apply (join_site_listing n (ch_tuPath site) s).
Qed.
End Hit.

Section New.
Context (site : ChannelSite) (n : N) (x : ChannelIndex).
Hypothesis Hx : ch_ok x.
Hypothesis Hn : n <> 0%N.
Hypothesis Hi : ch_index x !! key_of site = None.
Hypothesis Hfit : (n < two32)%N.

Abbreviation idx := (length (ch_sites x)).
Abbreviation fresh_site := (MkStoredSite site n true).

(** No unit registers a position behind the table. *)
Lemma unregistered i tu : idx <= i -> ~ i ∈ vec_at (ch_byTu x) tu.
Proof.
  intros Hge Hin. assert (Hp : 0 < regs (ch_byTu x) i) by (apply regs_pos; eauto).
  pose proof (co_counted _ Hx i) as Hc. unfold site_refs in Hc. rewrite lookup_ge_None_2 in Hc by done. lia.
Qed.

(** The site appended, with registrations of its position added by some units. *)
Lemma append_ok byTu :
  (forall tu j, j <> idx -> j ∈ vec_at byTu tu <-> j ∈ vec_at (ch_byTu x) tu) ->
  (forall j, j <> idx -> regs byTu j = regs (ch_byTu x) j) -> regs byTu idx <= N.to_nat n ->
  (forall tu, is_Some (byTu !! tu) -> tu <> []) -> path_ok byTu idx (ch_tuPath site) ->
  ch_ok (with_byTu byTu (append_site site n x)).
Proof.
  intros Hin Hregs Hnew Hnamed Hpath. pose proof Hx as [H1 H2 H3 H4 H5 H6 H7 _ H9 H10].
  assert (Hlook : forall j y, (ch_sites x ++ [fresh_site]) !! j = Some y -> (j = idx /\ y = fresh_site) \/ ch_sites x !! j = Some y).
  { intros j y [Hy|[Hge Hy]]%lookup_app_Some; [by right|]. apply list_lookup_singleton_Some in Hy as [? <-]. left. split; [lia|done]. }
  assert (Hlast : (ch_sites x ++ [fresh_site]) !! idx = Some fresh_site) by (by rewrite lookup_app_r, Nat.sub_diag by lia).
  split; cbn.
  - intros j y [[-> ->]|Hy]%Hlook; [done|by eapply H1].
  - intros j y [[-> ->]|Hy]%Hlook; [done|by eapply H2].
  - intros k j. rewrite lookup_insert. case_decide as Ek.
    + subst k. split.
      * intros [= <-]. exists fresh_site. done.
      * intros (y & [[-> ->]|Hy]%Hlook & Hly & Hky); [done|].
        assert (ch_index x !! key_of site = Some j) by (apply H3; eauto). congruence.
    + rewrite H3. split; intros (y & Hy & Hly & Hky); exists y.
      * split; [by apply lookup_app_l_Some|done].
      * apply Hlook in Hy as [[-> ->]|Hy]; [by cbn in Hky|done].
  - apply listed_push; [|done]. intros k. unfold on_channel. cbn. naive_solver.
  - apply listed_push; [|done]. intros k. unfold in_function. cbn. naive_solver.
  - destruct (differs site) eqn:Ed.
    + apply listed_push; [|done]. intros k. unfold displayed_as. cbn. naive_solver.
    + apply listed_skip; [|done]. intros k. unfold displayed_as. cbn. rewrite Ed. naive_solver.
  - intros j. specialize (H7 j). unfold site_refs in *. destruct (decide (j = idx)) as [->|Hne]; [by rewrite Hlast|].
    rewrite Hregs by done. destruct (decide (j < idx)).
    + by rewrite lookup_app_l by done.
    + rewrite (lookup_ge_None_2 (ch_sites x)) in H7 by lia. lia.
  - done.
  - intros j y [[-> ->]|Hy]%Hlook Hly; [done|]. apply (path_ok_ext (ch_byTu x)); [|by apply H9].
    intros u. apply Hin. apply lookup_lt_Some in Hy. lia.
  - rewrite H10, filter_app, length_app, filter_cons_True, filter_nil by done. cbn. lia.
Qed.

Lemma new_ok : ch_ok (addSiteRefs site n x).
Proof.
  rewrite (addSiteRefs_new site n x) by done. apply append_ok.
  - intros tu j Hne. rewrite tu_added_in by done. naive_solver.
  - intros j Hne. rewrite tu_added_regs, decide_False by naive_solver. lia.
  - rewrite tu_added_regs. pose proof (co_counted _ Hx idx) as Hc. unfold site_refs in Hc.
    rewrite lookup_ge_None_2 in Hc by done. case_decide; lia.
  - intros u [Hu|[-> ?]]%tu_added_named; [by apply (co_named _ Hx)|done].
  - split.
    + intros u [Hu|(_ & -> & ?)]%tu_added_in; [by apply unregistered in Hu|split; [done|reflexivity]|done].
    + intros Hp. apply tu_added_in; [done|]. by right.
Qed.

Lemma new_ledger :
  (forall k, refs_of (addSiteRefs site n x) k = refs_of x k + (if decide (k = key_of site) then N.to_nat n else 0)) /\
  (forall k tu, regs_of (addSiteRefs site n x) k tu =
     regs_of x k tu + (if decide (k = key_of site /\ tu = ch_tuPath site /\ tu <> []) then N.to_nat n else 0)) /\
  (forall k, content (addSiteRefs site n x) k = if decide (k = key_of site) then Some (set_tuPath [] site) else content x k).
Proof.
  rewrite (addSiteRefs_new site n x) by done.
  assert (Hold : forall k i, ch_index x !! k = Some i -> i < idx).
  { intros k i (s & Hs & _)%(co_index _ Hx). by eapply lookup_lt_Some. }
  assert (Hlast : forall s', (ch_sites x ++ [s']) !! idx = Some s') by (intros; by rewrite lookup_app_r, Nat.sub_diag by lia).
  split_and!.
  - intros k. unfold refs_of, site_of. cbn. rewrite lookup_insert. destruct (decide (key_of site = k)) as [<-|Hne].
    + rewrite decide_True by done. cbn. rewrite Hlast, Hi. done.
    + rewrite decide_False by done. destruct (ch_index x !! k) as [i|] eqn:Ek; [|done]. cbn.
      rewrite lookup_app_l by (by eapply Hold). lia.
  - intros k tu. unfold regs_of. cbn. rewrite lookup_insert. destruct (decide (key_of site = k)) as [<-|Hne].
    + cbn. rewrite tu_added_occ, Hi. cbn. assert (occ idx (vec_at (ch_byTu x) tu) = 0) as ->.
      { destruct (decide (0 < occ idx (vec_at (ch_byTu x) tu))) as [Hp%occ_pos|]; [|lia]. by apply unregistered in Hp. }
      repeat case_decide; naive_solver.
    + rewrite (decide_False (P := k = _ /\ _)) by naive_solver. destruct (ch_index x !! k) as [i|] eqn:Ek; [|done]. cbn.
      rewrite tu_added_occ, decide_False; [lia|]. apply Hold in Ek. intros (-> & _). lia.
  - intros k. unfold content, site_of. cbn. rewrite lookup_insert. destruct (decide (key_of site = k)) as [<-|Hne].
    + rewrite decide_True by done. cbn. by rewrite Hlast.
    + rewrite decide_False by done. destruct (ch_index x !! k) as [i|] eqn:Ek; [|done]. cbn.
      by rewrite lookup_app_l by (by eapply Hold).
Qed.
End New.

(** ** The operation *)

(** What [n] registrations of a site add to the ledger. *)
Record registers (site : ChannelSite) (n : nat) (x x' : ChannelIndex) : Prop := {
  rg_ok : ch_ok x';
  rg_refs : forall k, refs_of x' k = refs_of x k + (if decide (k = key_of site) then n else 0);
  rg_regs : forall k tu, regs_of x' k tu =
    regs_of x k tu + (if decide (k = key_of site /\ tu = ch_tuPath site /\ tu <> []) then n else 0);
  rg_content : forall k, content x' k =
    match content x k with
    | Some c => Some c
    | None => if decide (k = key_of site /\ n <> 0) then Some (set_tuPath [] site) else None
    end
}.

Lemma addSiteRefs_registers site n x :
  ch_ok x -> (N.of_nat (refs_of x (key_of site)) + n < two32)%N -> registers site (N.to_nat n) x (addSiteRefs site n x).
Proof.
  intros Hx Hfit. destruct (decide (n = 0%N)) as [->|Hn].
  - unfold addSiteRefs. cbn. split; [done|..].
    + intros k. case_decide; lia.
    + intros k tu. case_decide; lia.
    + intros k. rewrite decide_False by naive_solver. by destruct (content x k).
  - destruct (index_cases x (key_of site) Hx) as [(i & s & Hi & Hs & Hl & Hk)|[Hi _]].
    + assert (Hr : (st_refs s + n < two32)%N).
      { unfold refs_of, site_of in Hfit. rewrite Hi in Hfit. cbn in Hfit. rewrite Hs in Hfit. cbn in Hfit. lia. }
      destruct (hit_ledger site n x i s Hx Hn Hi Hs Hr) as (L1 & L2 & L3). split; [by eapply hit_ok|done|done|].
      intros k. rewrite L3. destruct (content x k) eqn:Ec; [done|]. rewrite decide_False; [done|]. intros [-> _].
      unfold content, site_of in Ec. rewrite Hi in Ec. cbn in Ec. by rewrite Hs in Ec.
    + assert (Hr : (n < two32)%N) by lia.
      destruct (new_ledger site n x Hx Hn Hi Hr) as (L1 & L2 & L3). split; [by apply new_ok|done|done|].
      intros k. rewrite L3. destruct (decide (k = key_of site)) as [->|Hne].
      * unfold content at 1, site_of. rewrite Hi. cbn. rewrite decide_True; [done|]. split; [done|lia].
      * rewrite decide_False by naive_solver. by destruct (content x k).
Qed.
