(* ===== verification/ChannelRemove.v ===== *)
(** Removing units from the channel index ([removeTUs]) and compacting it.

    The removal is followed registration by registration: [done] is the list of the
    (unit, position) entries released so far, and [released] says what the release leaves
    after them.  The paths of the sites that lost their least contributor are then
    recomputed, and the vectors scrubbed. *)

From S2P Require Import Prelude Registrations Utf8 ControlFlowIndex ChannelIndex ChannelInv.

(** * Releasing registrations *)

Abbreviation events := (list (bytes * nat)).

(** How often a position was released. *)
Abbreviation hits i done := (occ i (snd <$> (done : events))).

(** A site after its releases. *)
Definition after (done : events) (i : nat) (s : StoredSite) : StoredSite :=
  MkStoredSite (st_site s) (st_refs s - N.of_nat (hits i done))
    (st_live s && negb (st_refs s - N.of_nat (hits i done) =? 0)%N).

Record released (x0 : ChannelIndex) (done : events) (st : site_release) : Prop := {
  rl_sites : ch_sites (sr_index st) = imap (after done) (ch_sites x0);
  rl_index : forall k i, ch_index (sr_index st) !! k = Some i <->
    exists s, ch_sites (sr_index st) !! i = Some s /\ alive s /\ key_of (st_site s) = k;
  rl_vectors : ch_byChannel (sr_index st) = ch_byChannel x0 /\ ch_byFunctionUsr (sr_index st) = ch_byFunctionUsr x0 /\
    ch_byFunctionDisplay (sr_index st) = ch_byFunctionDisplay x0;
  rl_dead : forall i, i ∈ sr_dead st <-> exists s, ch_sites x0 !! i = Some s /\ alive s /\ ~ alive (after done i s);
  rl_affected : forall i s, ch_sites x0 !! i = Some s -> i ∈ sr_dead st ->
    ch_channelId (st_site s) ∈ sr_channels st /\ ch_siteFunctionUsr (st_site s) ∈ sr_usrs st /\
    (differs (st_site s) = true -> ch_siteFunctionDisplay (st_site s) ∈ sr_displays st);
  rl_refresh : forall i s, ch_sites x0 !! i = Some s -> alive (after done i s) ->
    i ∈ sr_refresh st <-> (ch_tuPath (st_site s), i) ∈ done;
  rl_count : ch_liveCount (sr_index st) = Z.of_nat (length (filter alive (ch_sites (sr_index st))));
  rl_removed : sr_removed st + length (filter alive (ch_sites (sr_index st))) = length (filter alive (ch_sites x0))
}.

Lemma released_start x : ch_ok x -> released x [] (MkSiteRelease x ∅ ∅ ∅ ∅ ∅ 0).
Proof.
  intros Hx. assert (Hid : forall i s, ch_sites x !! i = Some s -> after [] i s = s).
  { intros i s Hs. pose proof (co_live _ Hx i s Hs) as Hl. unfold after. cbn. rewrite N.sub_0_r.
    destruct s as [s r l]. cbn in *. unfold alive in Hl. cbn in Hl. f_equal.
    destruct l; [|done]. cbn. apply negb_true_iff, N.eqb_neq. by apply Hl. }
  split; cbn; try done.
  - apply list_eq. intros i. rewrite list_lookup_imap. destruct (ch_sites x !! i) as [s|] eqn:Hs; [|done]. cbn. by rewrite Hid.
  - apply Hx.
  - intros i. rewrite elem_of_empty. split; [done|]. intros (s & Hs & Hl & Hn). by rewrite Hid in Hn.
  - intros i s _ _. rewrite elem_of_empty, elem_of_nil. done.
  - apply Hx.
Qed.

Lemma hits_snoc i done e : hits i (done ++ [e]) = hits i done + (if decide (e.2 = i) then 1 else 0).
Proof. rewrite fmap_app, occ_app. cbn [fmap list_fmap]. rewrite occ_cons, occ_nil. lia. Qed.

Lemma after_other done e i s : e.2 <> i -> after (done ++ [e]) i s = after done i s.
Proof. intros H. unfold after. rewrite hits_snoc, decide_False by done. by rewrite Nat.add_0_r. Qed.

(** The table after one more release. *)
Lemma imap_after x0 done tu i s :
  ch_sites x0 !! i = Some s ->
  imap (after (done ++ [(tu, i)])) (ch_sites x0) = <[i := after (done ++ [(tu, i)]) i s]> (imap (after done) (ch_sites x0)).
Proof.
  intros Hs. apply list_eq. intros j. rewrite list_lookup_imap. destruct (decide (i = j)) as [<-|Hne].
  - rewrite list_lookup_insert_eq by (rewrite length_imap; by eapply lookup_lt_Some). by rewrite Hs.
  - rewrite list_lookup_insert_ne, list_lookup_imap by done. destruct (ch_sites x0 !! j); [|done]. cbn. by rewrite after_other.
Qed.

(** The other entries of a table are not touched by an insertion. *)
Lemma lookup_inserted {A} (l : list A) i a j y :
  i < length l -> <[i := a]> l !! j = Some y <-> (j = i /\ y = a) \/ (j <> i /\ l !! j = Some y).
Proof.
  intros Hlt. destruct (decide (i = j)) as [<-|Hne].
  - rewrite list_lookup_insert_eq by done. naive_solver.
  - rewrite list_lookup_insert_ne by done. naive_solver.
Qed.

Lemma filter_alive_dies sites i s s' :
  sites !! i = Some s -> alive s -> ~ alive s' ->
  length (filter alive sites) = S (length (filter alive (<[i := s']> sites))).
Proof.
  intros Hi Hl Hd. revert i Hi. induction sites as [|y l IH]; intros [|i] Hi; simplify_eq/=.
  - by rewrite filter_cons_True, filter_cons_False.
  - rewrite !filter_cons. case_decide; cbn; by rewrite (IH i).
Qed.

Section Step.
Context (x0 : ChannelIndex) (done : events) (st : site_release) (tu : bytes) (i : nat) (s : StoredSite).
Hypothesis Hx : ch_ok x0.
Hypothesis Hr : released x0 done st.
Hypothesis Hs : ch_sites x0 !! i = Some s.
Hypothesis Hroom : hits i done + 1 <= N.to_nat (st_refs s).

Abbreviation done' := (done ++ [(tu, i)]).

Lemma step_alive : alive s.
Proof. apply (co_live _ Hx i s Hs). lia. Qed.

Lemma step_lookup : ch_sites (sr_index st) !! i = Some (after done i s).
Proof. rewrite (rl_sites _ _ _ Hr), list_lookup_imap, Hs. done. Qed.

Lemma step_length : i < length (ch_sites (sr_index st)).
Proof. eapply lookup_lt_Some, step_lookup. Qed.

Lemma after_alive : alive (after done i s).
Proof.
  pose proof step_alive as Hl. unfold alive, after in *. cbn. rewrite Hl. cbn. apply negb_true_iff, N.eqb_neq. lia.
Qed.

Lemma after_step : st_refs (after done' i s) = (st_refs (after done i s) - 1)%N /\
  (alive (after done' i s) <-> st_refs (after done' i s) <> 0%N).
Proof.
  unfold after, alive. cbn [st_refs st_live]. rewrite hits_snoc, decide_True by done. split; [lia|].
  pose proof step_alive as Hl. unfold alive in Hl. rewrite Hl. cbn. by rewrite negb_true_iff, N.eqb_neq.
Qed.

(** The states of the other positions are those of before. *)
Lemma other_alive j y : j <> i -> alive (after done' j y) <-> alive (after done j y).
Proof. intros Hne. by rewrite after_other. Qed.

Lemma step_survives :
  alive (after done' i s) ->
  released x0 done' (MkSiteRelease (with_sites (<[i := after done' i s]> (ch_sites (sr_index st))) (sr_index st))
    (sr_dead st) (if bool_decide (ch_tuPath (st_site s) = tu) then {[i]} ∪ sr_refresh st else sr_refresh st)
    (sr_channels st) (sr_usrs st) (sr_displays st) (sr_removed st)).
Proof.
  intros Hl'. pose proof after_alive as Hl. pose proof Hr as [R1 R2 R3 R4 R5 R6 R7 R8]. pose proof step_lookup as Hi. pose proof step_length as Hlt.
  assert (Hlen : length (filter alive (<[i := after done' i s]> (ch_sites (sr_index st)))) = length (filter alive (ch_sites (sr_index st)))).
  { by apply (filter_alive_insert _ _ (after done i s)). }
  split; cbn.
  - by rewrite (imap_after x0 done tu i s Hs), R1.
  - intros k j. rewrite R2. setoid_rewrite lookup_inserted; [|done]. destruct (decide (j = i)) as [->|Hne].
    + rewrite Hi. split; intros (y & Hy & Hly & Hky).
      * injection Hy as <-. exists (after done' i s). naive_solver.
      * destruct Hy as [[_ ->]|[? _]]; [|done]. exists (after done i s). naive_solver.
    + split; intros (y & Hy & ?); exists y; naive_solver.
  - done.
  - intros j. rewrite R4. destruct (decide (j = i)) as [->|Hne].
    + split; intros (y & Hy & _ & Hd); rewrite Hs in Hy; by simplify_eq.
    + setoid_rewrite other_alive; done.
  - done.
  - intros j y Hy Hly. destruct (decide (j = i)) as [->|Hne].
    + rewrite Hs in Hy. simplify_eq. rewrite elem_of_app, list_elem_of_singleton. specialize (R6 i y Hs Hl).
      case_bool_decide as Etu; [|naive_solver]. split; [intros _; right; by rewrite Etu|]. intros _. set_solver.
    + rewrite other_alive in Hly by done. rewrite elem_of_app, list_elem_of_singleton. specialize (R6 j y Hy Hly).
      case_bool_decide; rewrite ?elem_of_union, ?elem_of_singleton; naive_solver.
  - by rewrite Hlen.
  - by rewrite Hlen.
Qed.

Lemma step_dies :
  ~ alive (after done' i s) ->
  released x0 done' (MkSiteRelease
    (MkChannels (<[i := after done' i s]> (ch_sites (sr_index st))) (delete (key_of (st_site s)) (ch_index (sr_index st)))
       (ch_byChannel (sr_index st)) (ch_byFunctionUsr (sr_index st)) (ch_byFunctionDisplay (sr_index st))
       (ch_byTu (sr_index st)) (ch_liveCount (sr_index st) - 1)%Z)
    ({[i]} ∪ sr_dead st) (sr_refresh st ∖ {[i]})
    ({[ch_channelId (st_site s)]} ∪ sr_channels st) ({[ch_siteFunctionUsr (st_site s)]} ∪ sr_usrs st)
    (if differs (st_site s) then {[ch_siteFunctionDisplay (st_site s)]} ∪ sr_displays st else sr_displays st)
    (S (sr_removed st))).
Proof.
  intros Hd. pose proof after_alive as Hl. pose proof Hr as [R1 R2 R3 R4 R5 R6 R7 R8]. pose proof step_lookup as Hi. pose proof step_length as Hlt.
  pose proof (filter_alive_dies _ i _ (after done' i s) Hi Hl Hd) as Hlen.
  assert (Hkey : ch_index (sr_index st) !! key_of (st_site s) = Some i) by (apply R2; by exists (after done i s)).
  split; cbn.
  - by rewrite (imap_after x0 done tu i s Hs), R1.
  - intros k j. rewrite lookup_delete. setoid_rewrite lookup_inserted; [|done]. case_decide as Ek.
    + subst k. split; [done|]. intros (y & [[-> ->]|[Hne Hy]] & Hly & Hky); [done|].
      assert (ch_index (sr_index st) !! key_of (st_site s) = Some j) by (apply R2; eauto). congruence.
    + rewrite R2. split; intros (y & Hy & Hly & Hky).
      * exists y. split; [|done]. right. split; [|done]. intros ->. rewrite Hi in Hy. by simplify_eq.
      * destruct Hy as [[-> ->]|[Hne Hy]]; [done|eauto].
  - done.
  - intros j. rewrite elem_of_union, elem_of_singleton, R4. destruct (decide (j = i)) as [->|Hne].
    + split; [|naive_solver]. intros _. exists s. split_and!; [done|apply step_alive|done].
    + setoid_rewrite other_alive; [|done]. naive_solver.
  - intros j y Hy [->%elem_of_singleton|Hj]%elem_of_union.
    + rewrite Hs in Hy. simplify_eq. split_and!; [set_solver|set_solver|]. intros ->. set_solver.
    + destruct (R5 j y Hy Hj) as (A1 & A2 & A3). split_and!; [set_solver|set_solver|]. intros Ed. specialize (A3 Ed). case_match; set_solver.
  - intros j y Hy Hly. destruct (decide (j = i)) as [->|Hne]; [rewrite Hs in Hy; by simplify_eq|].
    rewrite other_alive in Hly by done. rewrite elem_of_difference, elem_of_singleton, elem_of_app, list_elem_of_singleton.
    specialize (R6 j y Hy Hly). naive_solver.
  - rewrite R7, Hlen. lia.
  - rewrite <- R8, Hlen. lia.
Qed.

Lemma release_site_step : released x0 done' (release_site tu st i) /\ ch_byTu (sr_index (release_site tu st i)) = ch_byTu (sr_index st).
Proof.
  pose proof after_alive as Hl. destruct after_step as [Hrefs Hl']. unfold release_site. rewrite step_lookup.
  change (st_site (after done i s)) with (st_site s). rewrite <- Hrefs.
  destruct (N.eqb_spec (st_refs (after done i s)) 0) as [E|E].
  { exfalso. unfold after in E. cbn in E. lia. }
  destruct (N.ltb_spec 0 (st_refs (after done' i s))) as [Hlt|Hge].
  - assert (Ha : alive (after done' i s)) by (apply Hl'; lia).
    assert (Es : MkStoredSite (st_site s) (st_refs (after done' i s)) (st_live (after done i s)) = after done' i s).
    { unfold alive in Hl, Ha. rewrite Hl. unfold after in *. cbn in *. by rewrite Ha. }
    rewrite Es. split; [by apply step_survives|done].
  - assert (Ha : ~ alive (after done' i s)) by (rewrite Hl'; lia).
    assert (Es : MkStoredSite (st_site s) (st_refs (after done' i s)) false = after done' i s).
    { unfold alive in Ha. unfold after in *. cbn in *. f_equal. symmetry. by apply not_true_is_false. }
    rewrite Es. split; [by apply step_dies|done].
Qed.
End Step.

(** * Releasing units *)

Lemma release_list x0 tu idxs done st :
  ch_ok x0 -> released x0 done st -> (forall i, hits i done + occ i idxs <= regs (ch_byTu x0) i) ->
  let st' := foldl (release_site tu) st idxs in
  released x0 (done ++ ((tu,.) <$> idxs)) st' /\ ch_byTu (sr_index st') = ch_byTu (sr_index st).
Proof.
  intros Hx. revert done st. induction idxs as [|i idxs IH]; intros done st Hr Hroom; cbn [foldl].
  { cbn. by rewrite app_nil_r. }
  pose proof (Hroom i) as Hi. rewrite occ_cons, decide_True in Hi by done.
  pose proof (co_counted _ Hx i) as Hc. unfold site_refs in Hc.
  destruct (ch_sites x0 !! i) as [s|] eqn:Hs; [|lia].
  destruct (release_site_step x0 done st tu i s Hx Hr Hs) as [Hr' Hb]; [lia|].
  destruct (IH (done ++ [(tu, i)]) (release_site tu st i)) as [I1 I2].
  - done.
  - intros j. specialize (Hroom j). rewrite hits_snoc. rewrite occ_cons in Hroom. cbn. lia.
  - rewrite fmap_cons, (cons_middle (tu, i)), (assoc_L (++)). split; [done|congruence].
Qed.

Record units_released (x0 : ChannelIndex) (U : gset bytes) (done : events) (st : site_release) : Prop := {
  ur_released : released x0 done st;
  ur_byTu : forall tu, ch_byTu (sr_index st) !! tu = if decide (tu ∈ U) then None else ch_byTu x0 !! tu;
  ur_done : forall tu i, (tu, i) ∈ done <-> tu ∈ U /\ i ∈ vec_at (ch_byTu x0) tu;
  ur_hits : forall i, regs (ch_byTu x0) i = regs (ch_byTu (sr_index st)) i + hits i done
}.

Lemma release_unit_step x0 U done st p :
  ch_ok x0 -> units_released x0 U done st ->
  exists done', units_released x0 ({[toIndexText p]} ∪ U) done' (release_unit st p).
Proof.
  intros Hx [U1 U2 U3 U4]. unfold release_unit. set (tu := toIndexText p).
  destruct (ch_byTu (sr_index st) !! tu) as [idxs|] eqn:Etu.
  - rewrite U2 in Etu. destruct (decide (tu ∈ U)) as [|HU]; [done|].
    assert (Ev : vec_at (ch_byTu x0) tu = idxs) by (unfold vec_at; by rewrite Etu).
    assert (Ev' : vec_at (ch_byTu (sr_index st)) tu = idxs) by (unfold vec_at; by rewrite U2, decide_False).
    destruct (release_list x0 tu idxs done st Hx U1) as [R1 R2].
    { intros i. rewrite U4, (regs_delete i _ tu), Ev'. lia. }
    set (st' := foldl (release_site tu) st idxs) in *. exists (done ++ ((tu,.) <$> idxs)). split.
    + destruct R1. split; done.
    + intros u. cbn. rewrite R2, lookup_delete, U2. destruct (decide (tu = u)) as [->|Hne]; [by rewrite decide_True by set_solver|].
      destruct (decide (u ∈ U)); [by rewrite decide_True by set_solver|by rewrite decide_False by set_solver].
    + intros u i. rewrite elem_of_app, U3, list_elem_of_fmap, elem_of_union, elem_of_singleton. split.
      * intros [?|(j & [= -> ->] & Hj)]; [naive_solver|]. rewrite Ev. naive_solver.
      * intros [[->|Hu] Hi]; [|naive_solver]. right. exists i. by rewrite Ev in Hi.
    + intros i. cbn. rewrite U4, R2, (regs_delete i (ch_byTu (sr_index st)) tu), Ev', fmap_app, occ_app, <- list_fmap_compose.
      rewrite (list_fmap_ext _ id) by done. rewrite list_fmap_id. lia.
  - exists done. split; [done| | |done].
    + intros u. rewrite U2. destruct (decide (u ∈ U)); [by rewrite decide_True by set_solver|].
      destruct (decide (u = tu)) as [->|]; [|by rewrite decide_False by set_solver]. rewrite decide_True by set_solver.
      rewrite U2, decide_False in Etu by done. done.
    + intros u i. rewrite U3, elem_of_union, elem_of_singleton. split; [naive_solver|]. intros [[->|?] Hi]; [|done].
      rewrite U2 in Etu. destruct (decide (tu ∈ U)); [done|]. unfold vec_at in Hi. rewrite Etu in Hi. by apply not_elem_of_nil in Hi.
Qed.

(** The units a list of paths names. *)
Definition units (tuPaths : list bytes) : gset bytes := list_to_set (toIndexText <$> tuPaths).

Lemma release_units x0 tuPaths :
  ch_ok x0 -> exists done, units_released x0 (units tuPaths) done (foldl release_unit (MkSiteRelease x0 ∅ ∅ ∅ ∅ ∅ 0) tuPaths).
Proof.
  intros Hx. induction tuPaths as [|p ps [done IH]] using rev_ind.
  - exists []. split; [by apply released_start| | |].
    + intros tu. cbn. done.
    + intros tu i. unfold units. cbn. rewrite elem_of_nil. set_solver.
    + intros i. cbn. lia.
  - rewrite foldl_app. destruct (release_unit_step _ _ _ _ p Hx IH) as [done' H']. exists done'. cbn [foldl].
    assert (E : units (ps ++ [p]) = {[toIndexText p]} ∪ units ps).
    { unfold units. rewrite fmap_app, list_to_set_app_L. cbn. set_solver. }
    by rewrite E.
Qed.

(** * Refreshing the paths *)

Section Refresh.
Context `{TI : !TextIter} (refresh : gset nat).

Definition refresh_event (sites : list StoredSite) (e : bytes * nat) : list StoredSite := refresh_site refresh e.1 sites e.2.

(** The least path among the events of a position. *)
Definition path_over (evs : events) (i : nat) (p : bytes) : Prop :=
  (forall tu, (tu, i) ∈ evs -> p <> [] /\ bytes_le p tu) /\ (p <> [] -> (p, i) ∈ evs).

Definition refreshed (evs : events) (sites sites' : list StoredSite) : Prop :=
  length sites' = length sites /\
  forall i s, sites !! i = Some s ->
    if decide (i ∈ refresh) then exists p, sites' !! i = Some (map_site (set_tuPath p) s) /\ path_over evs i p
    else sites' !! i = Some s.

Lemma refreshed_start sites :
  refreshed [] sites (imap (fun i s => if decide (i ∈ refresh) then map_site (set_tuPath []) s else s) sites).
Proof.
  split; [apply length_imap|]. intros i s Hs. rewrite list_lookup_imap, Hs. cbn. case_decide; [|done].
  exists []. split; [done|]. split; [by intros tu ?%not_elem_of_nil|done].
Qed.

Lemma refreshed_step evs sites sites' e :
  e.1 <> [] -> refreshed evs sites sites' -> refreshed (evs ++ [e]) sites (refresh_event sites' e).
Proof.
  destruct e as [tu j]. cbn [fst]. intros Htu [Hlen H]. unfold refresh_event, refresh_site. cbn [fst snd].
  split; [case_decide; by rewrite ?length_alter|]. intros i s Hs. specialize (H i s Hs). case_decide as Hi; [|].
  - destruct H as (p & Hp & P1 & P2). destruct (decide (j = i)) as [->|Hne].
    + rewrite decide_True by done. exists (least_tu tu p). rewrite list_lookup_alter_eq, Hp. split; [done|].
      destruct (least_tu_spec tu p Htu) as (L1 & L2 & L3 & L4). split.
      * intros u [Hu|[= ->]%list_elem_of_singleton]%elem_of_app; [|done]. destruct (P1 u Hu). split; [done|]. etrans; [by apply L2|done].
      * intros _. apply elem_of_app. destruct L4 as [->|[-> Hne]]; [right; left|left; by apply P2].
    + exists p. split; [case_decide; [by rewrite list_lookup_alter_ne|done]|]. split.
      * intros u [Hu|[= _ ->]%list_elem_of_singleton]%elem_of_app; [by apply P1|done].
      * intros Hpne. apply elem_of_app. left. by apply P2.
  - case_decide; [|done]. rewrite list_lookup_alter_ne; [done|]. by intros ->.
Qed.

Lemma refreshed_all evs sites sites' done :
  (forall e, e ∈ evs -> e.1 <> []) -> refreshed done sites sites' -> refreshed (done ++ evs) sites (foldl refresh_event sites' evs).
Proof.
  revert done sites'. induction evs as [|e evs IH]; intros done sites' Hne H; cbn [foldl]; [by rewrite app_nil_r|].
  rewrite (cons_middle e), (assoc_L (++)). apply IH; [intros e' He'; apply Hne; by right|]. apply refreshed_step; [apply Hne; left|done].
Qed.

Lemma foldl_events {S} (f : S -> bytes * nat -> S) (es : list (bytes * list nat)) a :
  foldl (fun a '(tu, idxs) => foldl (fun a i => f a (tu, i)) a idxs) a es = foldl f a (es ≫= fun '(tu, idxs) => (tu,.) <$> idxs).
Proof.
  revert a. induction es as [|[tu idxs] es IH]; intros a; [done|]. cbn [foldl]. rewrite bind_cons, foldl_app, IH. f_equal.
  revert a. induction idxs as [|i idxs IHi]; intros a; [done|]. cbn [foldl fmap list_fmap]. apply IHi.
Qed.

Lemma refresh_sites_spec byTu sites :
  (forall tu, is_Some (byTu !! tu) -> tu <> []) ->
  length (refresh_sites refresh byTu sites) = length sites /\
  forall i s, sites !! i = Some s ->
    if decide (i ∈ refresh) then exists p, refresh_sites refresh byTu sites !! i = Some (map_site (set_tuPath p) s) /\ path_ok byTu i p
    else refresh_sites refresh byTu sites !! i = Some s.
Proof.
  intros Hnamed. unfold refresh_sites.
  assert (Hev : forall tu i, (tu, i) ∈ (text_iter byTu ≫= fun '(tu, idxs) => (tu,.) <$> idxs) <-> i ∈ vec_at byTu tu).
  { intros tu i. rewrite list_elem_of_bind. split.
    - intros ([u idxs] & (j & [= -> ->] & Hj)%list_elem_of_fmap & Hin). rewrite text_iter_perm, elem_of_map_to_list in Hin.
      unfold vec_at. by rewrite Hin.
    - unfold vec_at. destruct (byTu !! tu) as [idxs|] eqn:E; [|by intros ?%not_elem_of_nil]. cbn. intros Hi. exists (tu, idxs).
      rewrite text_iter_perm, elem_of_map_to_list. split; [apply list_elem_of_fmap; eauto|done]. }
  set (cleared := imap _ sites).
  assert (E : foldl (fun sites '(tu, idxs) => foldl (refresh_site refresh tu) sites idxs) cleared (text_iter byTu) =
              foldl refresh_event cleared (text_iter byTu ≫= fun '(tu, idxs) => (tu,.) <$> idxs)) by exact (foldl_events refresh_event _ _).
  rewrite E. clear E.
  destruct (refreshed_all (text_iter byTu ≫= fun '(tu, idxs) => (tu,.) <$> idxs) sites _ [] ltac:(
    intros [tu i] Hin%Hev; cbn; apply Hnamed; by eapply vec_at_elem_Some) (refreshed_start sites)) as [H1 H2].
  split; [done|]. intros i s Hs. specialize (H2 i s Hs). case_decide; [|done]. destruct H2 as (p & Hp & P1 & P2). exists p. split; [done|].
  split; [intros tu Htu; apply P1; by apply Hev|intros Hne; by apply Hev, P2].
Qed.
End Refresh.

(** * Scrubbing the vectors *)

Lemma scrub_entry_at dead m k c :
  vec_at (scrub_entry dead m c) k = if decide (c = k) then filter (fun i => i ∉ dead) (vec_at m k) else vec_at m k.
Proof.
  unfold scrub_entry. destruct (m !! c) as [v|] eqn:E.
  - assert (Ev : vec_at m c = v) by (unfold vec_at; by rewrite E).
    destruct (filter (fun i => i ∉ dead) v) as [|y v'] eqn:Ef.
    + rewrite vec_at_delete. case_decide; [|done]. subst. by rewrite Ef.
    + rewrite vec_at_insert. case_decide; [|done]. subst. by rewrite Ef.
  - case_decide; [|done]. subst. unfold vec_at. by rewrite E.
Qed.

Lemma scrub_keys_at dead m ks k :
  vec_at (foldl (scrub_entry dead) m ks) k = if decide (k ∈ ks) then filter (fun i => i ∉ dead) (vec_at m k) else vec_at m k.
Proof.
  revert m. induction ks as [|c ks IH]; intros m; cbn [foldl]; [by rewrite decide_False by apply not_elem_of_nil|].
  rewrite IH, !scrub_entry_at. destruct (decide (k ∈ c :: ks)) as [Hk|Hk]; rewrite elem_of_cons in Hk;
    repeat case_decide; try naive_solver. rewrite list_filter_filter. apply list_filter_iff. naive_solver.
Qed.

(** The scrubbed vectors hold the positions that are not dead. *)
Lemma scrubbed dead m ks (k : bytes) :
  (forall i, i ∈ vec_at m k -> i ∈ dead -> k ∈ ks) ->
  vec_at (foldl (scrub_entry dead) m ks) k = filter (fun i => i ∉ dead) (vec_at m k).
Proof.
  intros H. rewrite scrub_keys_at. case_decide as Hk; [done|]. symmetry. apply filter_id. intros i Hi Hd. by apply Hk, (H i).
Qed.

(** * The operation *)

(** The registrations of a key by all units, and those that no unit made. *)
Definition total_of (x : ChannelIndex) (k : SiteKey) : nat := default 0 (regs (ch_byTu x) <$> ch_index x !! k).
Definition untagged (x : ChannelIndex) (k : SiteKey) : nat := refs_of x k - total_of x k.

Lemma after_alive_inv done i s : alive (after done i s) -> alive s.
Proof. unfold alive, after. cbn. by intros [? _]%andb_true_iff. Qed.

Lemma after_live_refs x done i s : ch_ok x -> ch_sites x !! i = Some s -> alive (after done i s) <-> st_refs (after done i s) <> 0%N.
Proof.
  intros Hx Hs. pose proof (co_live _ Hx i s Hs) as Hl. unfold alive, after in *. cbn.
  rewrite andb_true_iff, negb_true_iff, N.eqb_neq, Hl. lia.
Qed.

Section Removed.
Context `{TI : !TextIter} (x : ChannelIndex) (tuPaths : list bytes).
Hypothesis Hx : ch_ok x.

Abbreviation x' := (ch_removeTUs tuPaths x).1.

Lemma removed_byTu tu : ch_byTu x' !! tu = if decide (tu ∈ units tuPaths) then None else ch_byTu x !! tu.
Proof. destruct (release_units x tuPaths Hx) as [done [_ U2 _ _]]. apply U2. Qed.

Lemma removed_vec tu i : i ∈ vec_at (ch_byTu x') tu <-> i ∈ vec_at (ch_byTu x) tu /\ (tu ∉ units tuPaths).
Proof.
  unfold vec_at. rewrite removed_byTu. case_decide; [|tauto]. cbn. rewrite elem_of_nil. tauto.
Qed.

(** Every site: its count, and a path that is right for the units that are left. *)
Lemma removed_sites :
  exists done, units_released x (units tuPaths) done (foldl release_unit (MkSiteRelease x ∅ ∅ ∅ ∅ ∅ 0) tuPaths) /\
  length (ch_sites x') = length (ch_sites x) /\
  forall i s, ch_sites x !! i = Some s ->
    exists p, ch_sites x' !! i = Some (map_site (set_tuPath p) (after done i s)) /\ (alive (after done i s) -> path_ok (ch_byTu x') i p).
Proof.
  destruct (release_units x tuPaths Hx) as [done Hu]. exists done. split; [done|].
  set (byTu' := ch_byTu x'). assert (Hvec : forall tu i, i ∈ vec_at byTu' tu <-> i ∈ vec_at (ch_byTu x) tu /\ (tu ∉ units tuPaths)) by apply removed_vec.
  assert (Hnamed : forall tu, is_Some (byTu' !! tu) -> tu <> []).
  { intros tu. unfold byTu'. rewrite removed_byTu. case_decide; [by intros []|]. apply (co_named _ Hx). }
  unfold byTu' in *. clear byTu'. unfold ch_removeTUs in *. cbn [fst ch_sites ch_byTu] in *.
  set (st := foldl release_unit _ tuPaths) in *. destruct Hu as [[R1 _ _ _ _ R6 _ _] _ U3 _].
  assert (Hlook : forall i s, ch_sites x !! i = Some s -> ch_sites (sr_index st) !! i = Some (after done i s)).
  { intros i s Hs. by rewrite R1, list_lookup_imap, Hs. }
  (* a site that is not refreshed keeps a path that no removed unit registered *)
  assert (Hkept : forall i s, ch_sites x !! i = Some s -> alive (after done i s) -> (i ∉ sr_refresh st) ->
    path_ok (ch_byTu (sr_index st)) i (ch_tuPath (st_site s))).
  { intros i s Hs Hl Hn. rewrite (R6 i s Hs Hl), U3 in Hn.
    destruct (co_path _ Hx i s Hs (after_alive_inv _ _ _ Hl)) as [P1 P2]. split.
    - intros tu [Htu _]%Hvec. by apply P1.
    - intros Hp. apply Hvec. split; [by apply P2|]. intros HU. apply Hn. split; [done|by apply P2]. }
  assert (Hsame : forall i s, map_site (set_tuPath (ch_tuPath (st_site s))) (after done i s) = after done i s).
  { intros i s. unfold map_site, after. cbn. by destruct (st_site s). }
  case_decide as Er.
  - split; [by rewrite R1, length_imap|]. intros i s Hs. exists (ch_tuPath (st_site s)). rewrite Hsame. split; [by apply Hlook|].
    intros Hl. apply Hkept; [done|done|]. rewrite Er. apply not_elem_of_empty.
  - destruct (refresh_sites_spec (sr_refresh st) (ch_byTu (sr_index st)) (ch_sites (sr_index st)) Hnamed) as [L1 L2].
    split; [by rewrite L1, R1, length_imap|]. intros i s Hs. specialize (L2 i _ (Hlook i s Hs)). case_decide as Hi.
    + destruct L2 as (p & Hp & Hpath). by exists p.
    + exists (ch_tuPath (st_site s)). rewrite Hsame. split; [done|]. intros Hl. by apply Hkept.
Qed.

Lemma removed_lookup done i s' :
  length (ch_sites x') = length (ch_sites x) ->
  (forall i s, ch_sites x !! i = Some s ->
    exists p, ch_sites x' !! i = Some (map_site (set_tuPath p) (after done i s)) /\ (alive (after done i s) -> path_ok (ch_byTu x') i p)) ->
  ch_sites x' !! i = Some s' ->
  exists s p, ch_sites x !! i = Some s /\ s' = map_site (set_tuPath p) (after done i s) /\ (alive s' -> path_ok (ch_byTu x') i (ch_tuPath (st_site s'))).
Proof.
  intros Hlen H Hs'. destruct (ch_sites x !! i) as [s|] eqn:Hs.
  - destruct (H i s Hs) as (p & Hp & Hpath). rewrite Hp in Hs'. injection Hs' as <-. eauto.
  - apply lookup_ge_None in Hs. apply lookup_lt_Some in Hs'. lia.
Qed.

Lemma removed_listed (sel : bytes -> StoredSite -> Prop) `{HS : !forall k s, Decision (sel k s)} done dead m ks :
  length (ch_sites x') = length (ch_sites x) ->
  (forall i s, ch_sites x !! i = Some s ->
    exists p, ch_sites x' !! i = Some (map_site (set_tuPath p) (after done i s)) /\ (alive (after done i s) -> path_ok (ch_byTu x') i p)) ->
  (forall i, i ∈ dead <-> exists s, ch_sites x !! i = Some s /\ alive s /\ ~ alive (after done i s)) ->
  (forall k s, sel k s -> alive s) ->
  (forall k i s p, sel k (map_site (set_tuPath p) (after done i s)) <-> sel k s /\ alive (after done i s)) ->
  (forall i s k, ch_sites x !! i = Some s -> i ∈ dead -> sel k s -> k ∈ ks) ->
  listed sel (ch_sites x) m -> listed sel (ch_sites x') (foldl (scrub_entry dead) m ks).
Proof.
  intros Hlen Hlook Hdead Halive Hsel Haff Hm. apply (listed_scrub sel (ch_sites x) _ m _ dead); [| |done].
  - intros k. apply scrubbed. intros i Hi Hd. apply Hm in Hi as (s & Hs & Hk). by eapply Haff.
  - intros i k. split.
    + intros (s' & Hs' & Hk). destruct (removed_lookup done i s' Hlen Hlook Hs') as (s & p & Hs & -> & _).
      apply Hsel in Hk as [Hk Hl]. split; [eauto|]. rewrite Hdead. intros (y & Hy & _ & Hd). rewrite Hs in Hy. by simplify_eq.
    + intros [(s & Hs & Hk) Hd]. destruct (Hlook i s Hs) as (p & Hp & _). exists (map_site (set_tuPath p) (after done i s)).
      split; [done|]. apply Hsel. split; [done|]. destruct (decide (alive (after done i s))) as [|Hn]; [done|].
      destruct Hd. apply Hdead. exists s. eauto.
Qed.

Lemma alive_removed done i s p : alive (map_site (set_tuPath p) (after done i s)) <-> alive (after done i s).
Proof. done. Qed.

Lemma sites_removed_ok : ch_ok x'.
Proof.
  destruct removed_sites as (done & [[R1 R2 (R3 & R3' & R3'') R4 R5 _ R7 _] U2 _ U4] & Hlen & Hlook).
  pose proof (fun i s' => removed_lookup done i s' Hlen Hlook) as Hback.
  pose proof Hx as [H1 H2 _ H4 H5 H6 H7 H8 _ _].
  assert (Hcore : forall i s, ch_sites (sr_index (foldl release_unit (MkSiteRelease x ∅ ∅ ∅ ∅ ∅ 0) tuPaths)) !! i = Some s <->
    exists y, ch_sites x !! i = Some y /\ s = after done i y).
  { intros i s. rewrite R1, list_lookup_imap, fmap_Some. done. }
  split.
  - intros i s' (s & p & Hs & -> & _)%Hback. exact (after_live_refs x done i s Hx Hs).
  - intros i s' (s & p & Hs & -> & _)%Hback. specialize (H2 i s Hs). cbn. lia.
  - intros k i. etrans; [apply R2|]. split.
    + intros (s & (y & Hy & ->)%Hcore & Hl & Hk). destruct (Hlook i y Hy) as (p & Hp & _). eexists. split; [exact Hp|]. done.
    + intros (s' & (s & p & Hs & -> & _)%Hback & Hl & Hk). exists (after done i s). split; [apply Hcore; eauto|]. done.
  - unfold ch_removeTUs at 2. cbn [fst ch_byChannel]. rewrite R3.
    apply (removed_listed on_channel done); [done|done|done|by intros k s []| |by setoid_rewrite text_set_iter_perm; setoid_rewrite elem_of_elements; intros i s k Hs Hd [_ <-]; apply (R5 i s)|done].
    intros k i s p. unfold on_channel. cbn. rewrite alive_removed. pose proof (after_alive_inv done i s). tauto.
  - unfold ch_removeTUs at 2. cbn [fst ch_byFunctionUsr]. rewrite R3'.
    apply (removed_listed in_function done); [done|done|done|by intros k s []| |by setoid_rewrite text_set_iter_perm; setoid_rewrite elem_of_elements; intros i s k Hs Hd [_ <-]; apply (R5 i s)|done].
    intros k i s p. unfold in_function. cbn. rewrite alive_removed. pose proof (after_alive_inv done i s). tauto.
  - unfold ch_removeTUs at 2. cbn [fst ch_byFunctionDisplay]. rewrite R3''.
    apply (removed_listed displayed_as done); [done|done|done|by intros k s []| |by setoid_rewrite text_set_iter_perm; setoid_rewrite elem_of_elements; intros i s k Hs Hd (_ & Hdf & <-); apply (R5 i s)|done].
    intros k i s p. unfold displayed_as, differs. cbn. rewrite alive_removed. pose proof (after_alive_inv done i s). tauto.
  - intros i. specialize (H7 i). assert (U4' : regs (ch_byTu x) i = regs (ch_byTu x') i + hits i done) by exact (U4 i).
    unfold site_refs in *. destruct (ch_sites x !! i) as [s|] eqn:Hs; [|lia].
    destruct (Hlook i s Hs) as (p & Hp & _). rewrite Hp. cbn [map_site after st_refs]. lia.
  - intros tu. rewrite removed_byTu. case_decide; [by intros []|]. apply H8.
  - intros i s' Hs' Hl. destruct (Hback i s' Hs') as (s & p & _ & _ & Hpath). by apply Hpath.
  - unfold ch_removeTUs at 1. cbn [fst ch_liveCount]. rewrite R7. f_equal.
    assert (E : forall l l', length l = length l' -> (forall i a b, l !! i = Some a -> l' !! i = Some b -> alive a <-> alive b) ->
      length (filter alive l) = length (filter alive l')).
    { clear. induction l as [|a l IH]; intros [|b l'] Hlen H; try done. pose proof (H 0 a b eq_refl eq_refl) as H0.
      rewrite !filter_cons. specialize (IH l' ltac:(cbn in Hlen; lia) (fun i => H (S i))).
      do 2 case_decide; cbn; try tauto; lia. }
    apply E; [by rewrite R1, length_imap, Hlen|]. intros i a b (y & Hy & ->)%Hcore Hb.
    destruct (Hlook i y Hy) as (p & Hp & _). rewrite Hp in Hb. injection Hb as <-. done.
Qed.

(** A key keeps its position while a reference is left. *)
Lemma removed_index k :
  (exists i s s', ch_index x !! k = Some i /\ ch_sites x !! i = Some s /\ alive s /\ ch_index x' !! k = Some i /\
     ch_sites x' !! i = Some s' /\ set_tuPath [] (st_site s') = set_tuPath [] (st_site s) /\ st_refs s' <> 0%N /\
     N.to_nat (st_refs s') + regs (ch_byTu x) i = N.to_nat (st_refs s) + regs (ch_byTu x') i) \/
  (ch_index x' !! k = None /\ (ch_index x !! k = None \/
     exists i s, ch_index x !! k = Some i /\ ch_sites x !! i = Some s /\ alive s /\ regs (ch_byTu x) i = N.to_nat (st_refs s) /\
       regs (ch_byTu x') i = 0)).
Proof.
  destruct removed_sites as (done & [[R1 R2 _ _ _ _ _ _] _ _ U4] & Hlen & Hlook).
  pose proof sites_removed_ok as Hx'. assert (U4' : forall i, regs (ch_byTu x) i = regs (ch_byTu x') i + hits i done) by exact U4.
  destruct (index_cases x k Hx) as [(i & s & Hi & Hs & Hl & Hk)|[Hi Hno]].
  - destruct (Hlook i s Hs) as (p & Hp & _). pose proof (co_counted _ Hx i) as Hc. pose proof (co_counted _ Hx' i) as Hc'.
    unfold site_refs in Hc, Hc'. rewrite Hs in Hc. rewrite Hp in Hc'. cbn [map_site after st_refs] in Hc'. specialize (U4' i).
    destruct (decide (alive (after done i s))) as [Ha|Ha].
    + left. exists i, s, (map_site (set_tuPath p) (after done i s)). split_and!; [done|done|done| |done|done| |].
      * apply (co_index _ Hx'). eauto.
      * by apply (after_live_refs x).
      * cbn [map_site after st_refs]. lia.
    + right. rewrite (after_live_refs x) in Ha by done. cbn [after st_refs] in Ha. split; [|right; exists i, s; split_and!; try done; lia].
      destruct (ch_index x' !! k) as [j|] eqn:Ej; [|done]. exfalso.
      apply (co_index _ Hx') in Ej as (s' & (y & q & Hy & -> & _)%(removed_lookup done j s' Hlen Hlook) & Hl' & Hk').
      assert (Hj : ch_index x !! k = Some j) by (apply (co_index _ Hx); exists y; split_and!; [done|exact (after_alive_inv done j y Hl')|done]).
      rewrite Hi in Hj. injection Hj as <-. rewrite Hs in Hy. injection Hy as <-. apply (after_live_refs x done i s Hx Hs) in Hl'. done.
  - right. split; [|by left]. destruct (ch_index x' !! k) as [j|] eqn:Ej; [|done]. exfalso.
    apply (co_index _ Hx') in Ej as (s' & (y & q & Hy & -> & _)%(removed_lookup done j s' Hlen Hlook) & Hl' & Hk').
    eapply Hno; [exact Hy|exact (after_alive_inv done j y Hl')|done].
Qed.

Lemma removed_ledger :
  (forall k tu, regs_of x' k tu = if decide (tu ∈ units tuPaths) then 0 else regs_of x k tu) /\
  (forall k, untagged x' k = untagged x k) /\
  (forall k, content x' k = if decide (refs_of x' k = 0) then None else content x k).
Proof.
  assert (Hvec : forall tu, vec_at (ch_byTu x') tu = if decide (tu ∈ units tuPaths) then [] else vec_at (ch_byTu x) tu).
  { intros tu. unfold vec_at. rewrite removed_byTu. by case_decide. }
  split_and!.
  - intros k tu. unfold regs_of. destruct (removed_index k) as [(i & s & s' & Hi & Hs & _ & Hi' & _)|[Hi' [Hi|(i & s & Hi & Hs & _ & Hr & Hr')]]];
      rewrite Hi, Hi'; cbn [fmap option_fmap option_map from_option].
    + rewrite Hvec. by case_decide.
    + by case_decide.
    + case_decide as Hu; [done|]. rewrite (regs_delete i _ tu), Hvec, decide_False in Hr' by done. unfold id. lia.
  - intros k. unfold untagged, refs_of, total_of, site_of.
    destruct (removed_index k) as [(i & s & s' & Hi & Hs & _ & Hi' & Hs' & _ & _ & Hr)|[Hi' [Hi|(i & s & Hi & Hs & _ & Hr & Hr')]]];
      rewrite Hi, Hi'; cbn [mbind option_bind]; rewrite ?Hs, ?Hs'; cbn [fmap option_fmap option_map from_option]; unfold id; lia.
  - intros k. unfold content, refs_of, site_of.
    destruct (removed_index k) as [(i & s & s' & Hi & Hs & _ & Hi' & Hs' & Hc & Hn & _)|[Hi' _]]; rewrite Hi'; cbn [mbind option_bind]; [|done].
    rewrite Hi, Hs'. cbn [mbind option_bind fmap option_fmap option_map from_option]. rewrite Hs, decide_False by (unfold id; lia). cbn. by rewrite Hc.
Qed.
End Removed.
