(* ===== verification/ChannelMerge.v ===== *)
(** Compacting the channel index and merging a shard into it.

    What the channel index promises: its operations on the ledger of registrations, and
    its queries. *)

From S2P Require Import Prelude Registrations Utf8 ControlFlowIndex ChannelIndex ChannelInv ChannelRemove.

(** * Compaction *)

Lemma compact_sites sites :
  let '(news, remap) := foldl compact_site ([], []) sites in
  news = filter alive sites /\ length remap = length sites /\
  forall i, mjoin (remap !! i) = (s ← sites !! i; if decide (alive s) then Some (new_pos alive sites i) else None).
Proof.
  induction sites as [|s sites IH] using rev_ind; [done|]. rewrite foldl_app. cbn [foldl].
  destruct (foldl compact_site ([], []) sites) as [news remap]. destruct IH as (H1 & H2 & H3).
  assert (Hlast : forall r : list (option nat), length r = length sites ->
    forall v, (forall i, i < length sites -> mjoin (r !! i) = (s ← sites !! i; if decide (alive s) then Some (new_pos alive sites i) else None)) ->
    v = (if decide (alive s) then Some (length (filter alive sites)) else None) ->
    forall i, mjoin ((r ++ [v]) !! i) =
      (y ← (sites ++ [s]) !! i; if decide (alive y) then Some (new_pos alive (sites ++ [s]) i) else None)).
  { intros r Hlen v Hr -> i. destruct (Nat.lt_trichotomy i (length sites)) as [Hi|[->|Hi]].
    - rewrite !lookup_app_l by lia. rewrite Hr by done. destruct (sites !! i); [|done]. cbn. by rewrite new_pos_app by lia.
    - rewrite !lookup_app_r, Hlen, !Nat.sub_diag by lia. cbn. unfold new_pos. by rewrite take_app_length.
    - rewrite !(lookup_ge_None_2 (_ ++ _)) by (rewrite length_app; cbn; lia). done. }
  unfold compact_site. rewrite filter_app. destruct (st_live s) eqn:El.
  - rewrite filter_cons_True, filter_nil by done. split_and!; [by rewrite H1|rewrite !length_app; cbn; lia|].
    apply Hlast; [done|by intros|]. rewrite decide_True by done. by rewrite H1.
  - assert (~ alive s) by (unfold alive; congruence). rewrite filter_cons_False, filter_nil, app_nil_r by done.
    split_and!; [done|rewrite !length_app; cbn; lia|]. apply Hlast; [done|by intros|]. by rewrite decide_False.
Qed.

Lemma vec_at_remap (remap : list (option nat)) (m : gmap bytes (list nat)) k :
  vec_at (remap_into remap m) k = omap (fun i => mjoin (remap !! i)) (vec_at m k).
Proof.
  unfold vec_at, remap_into. rewrite lookup_omap. destruct (m !! k) as [v|]; [|done]. cbn. by destruct (omap _ v).
Qed.

Lemma omap_total {A B} (f : A -> option B) (g : A -> B) (l : list A) : (forall a, a ∈ l -> f a = Some (g a)) -> omap f l = g <$> l.
Proof.
  induction l as [|a l IH]; intros H; [done|]. rewrite omap_cons_eq, (H a) by left. cbn. f_equal. apply IH. intros b Hb. apply H. by right.
Qed.

Section Compact.
Variable x : ChannelIndex.
Hypothesis Hx : ch_ok x.

Abbreviation pos := (new_pos alive (ch_sites x)).

Lemma registered_alive tu i : i ∈ vec_at (ch_byTu x) tu -> exists s, ch_sites x !! i = Some s /\ alive s.
Proof.
  intros Hin. assert (Hp : 0 < regs (ch_byTu x) i) by (apply regs_pos; eauto). pose proof (co_counted _ Hx i) as Hc.
  unfold site_refs in Hc. destruct (ch_sites x !! i) as [s|] eqn:Hs; [|lia]. exists s. split; [done|]. apply (co_live _ Hx i s Hs). lia.
Qed.

(** The fields of the compacted index. *)
Lemma compact_fields :
  ch_sites (ch_compact x) = filter alive (ch_sites x) /\ ch_liveCount (ch_compact x) = ch_liveCount x /\
  (forall k, ch_index (ch_compact x) !! k = pos <$> ch_index x !! k) /\
  (forall k, vec_at (ch_byChannel (ch_compact x)) k = pos <$> vec_at (ch_byChannel x) k) /\
  (forall k, vec_at (ch_byFunctionUsr (ch_compact x)) k = pos <$> vec_at (ch_byFunctionUsr x) k) /\
  (forall k, vec_at (ch_byFunctionDisplay (ch_compact x)) k = pos <$> vec_at (ch_byFunctionDisplay x) k) /\
  (forall k, vec_at (ch_byTu (ch_compact x)) k = pos <$> vec_at (ch_byTu x) k) /\
  (forall tu, is_Some (ch_byTu (ch_compact x) !! tu) -> is_Some (ch_byTu x !! tu)).
Proof.
  unfold ch_compact. pose proof (compact_sites (ch_sites x)) as H. destruct (foldl compact_site ([], []) (ch_sites x)) as [news remap].
  destruct H as (H1 & H2 & H3). cbn.
  assert (Hmap : forall i s, ch_sites x !! i = Some s -> alive s -> mjoin (remap !! i) = Some (pos i)).
  { intros i s Hs Hl. rewrite H3, Hs. cbn. by rewrite decide_True. }
  assert (Hlisted : forall (sel : bytes -> StoredSite -> Prop) (HS : forall k s, Decision (sel k s)) m k, listed sel (ch_sites x) m -> (forall s, sel k s -> alive s) ->
    vec_at (remap_into remap m) k = pos <$> vec_at m k).
  { intros sel HS m k Hm Hl. rewrite vec_at_remap. apply omap_total. intros i (s & Hs & Hk)%Hm. eapply Hmap; [done|by apply Hl]. }
  split_and!; [done|done| | | | | |].
  - intros k. rewrite lookup_omap. destruct (ch_index x !! k) as [i|] eqn:Ei; [|done]. cbn.
    apply (co_index _ Hx) in Ei as (s & Hs & Hl & _). by eapply Hmap.
  - intros k. apply (Hlisted on_channel _ _ k (co_channel _ Hx)). by intros s [].
  - intros k. apply (Hlisted in_function _ _ k (co_usr _ Hx)). by intros s [].
  - intros k. apply (Hlisted displayed_as _ _ k (co_display _ Hx)). by intros s [].
  - intros k. rewrite vec_at_remap. apply omap_total. intros i (s & Hs & Hl)%registered_alive. by eapply Hmap.
  - intros tu. unfold remap_into. rewrite lookup_omap. destruct (ch_byTu x !! tu); [done|]. by intros [].
Qed.

Lemma occ_moved i s v : ch_sites x !! i = Some s -> alive s ->
  (forall j, j ∈ v -> exists y, ch_sites x !! j = Some y /\ alive y) -> occ (pos i) (pos <$> v) = occ i v.
Proof.
  intros Hs Hl. induction v as [|j v IH]; intros Hv; [done|]. rewrite fmap_cons, !occ_cons, IH by (intros; apply Hv; by right).
  f_equal. destruct (Hv j ltac:(left)) as (y & Hy & Hly). destruct (decide (j = i)) as [->|Hne]; [by rewrite decide_True|].
  rewrite decide_False; [done|]. intros E. apply Hne. by eapply new_pos_inj.
Qed.

Lemma regs_moved i s : ch_sites x !! i = Some s -> alive s -> regs (ch_byTu (ch_compact x)) (pos i) = regs (ch_byTu x) i.
Proof.
  intros Hs Hl. destruct compact_fields as (_ & _ & _ & _ & _ & _ & F & _).
  set (f := fun j => y ← ch_sites x !! j; if decide (alive y) then Some (pos j) else None).
  rewrite <- (regs_fmap f (ch_byTu x) i (pos i)).
  - apply regs_ext. intros tu. rewrite F. unfold vec_at at 2. rewrite lookup_fmap.
    assert (E : omap f (vec_at (ch_byTu x) tu) = pos <$> vec_at (ch_byTu x) tu).
    { apply omap_total. intros j (y & Hy & Hly)%registered_alive. unfold f. rewrite Hy. cbn. by rewrite decide_True. }
    rewrite <- E. unfold vec_at. by destruct (ch_byTu x !! tu).
  - intros j. unfold f. destruct (ch_sites x !! j) as [y|] eqn:Hy; cbn; [|naive_solver].
    destruct (decide (alive y)) as [Hly|Hly]; [|naive_solver]. split; [|by intros ->]. intros [= E]. by eapply new_pos_inj.
Qed.

Lemma compact_ok : ch_ok (ch_compact x).
Proof.
  destruct compact_fields as (F1 & F2 & F3 & F4 & F5 & F6 & F7 & F8). pose proof Hx as [H1 H2 H3 H4 H5 H6 H7 H8 H9 H10].
  assert (Hlook : forall j s, filter alive (ch_sites x) !! j = Some s -> exists i, ch_sites x !! i = Some s /\ alive s /\ pos i = j) by (intros j s; apply new_pos_surj).
  split; rewrite ?F1.
  - intros j s (i & Hi & _ & _)%Hlook. by eapply H1.
  - intros j s (i & Hi & _ & _)%Hlook. by eapply H2.
  - intros k j. rewrite F3, fmap_Some. setoid_rewrite H3. split.
    + intros (i & (s & Hs & Hl & Hk) & ->). exists s. split; [by apply new_pos_lookup|done].
    + intros (s & (i & Hi & Hl & <-)%Hlook & _ & Hk). exists i. split; [eauto|done].
  - apply (listed_compact _ _ _ (ch_byChannel x)); [by intros k s []|done|done].
  - apply (listed_compact _ _ _ (ch_byFunctionUsr x)); [by intros k s []|done|done].
  - apply (listed_compact _ _ _ (ch_byFunctionDisplay x)); [by intros k s []|done|done].
  - intros j. destruct (decide (0 < regs (ch_byTu (ch_compact x)) j)) as [Hp|]; [|lia].
    apply regs_pos in Hp as [tu Hin]. rewrite F7 in Hin. apply list_elem_of_fmap in Hin as (i & -> & (s & Hs & Hl)%registered_alive).
    rewrite (regs_moved i s Hs Hl). specialize (H7 i). unfold site_refs in *. rewrite Hs in H7. by rewrite (new_pos_lookup _ _ _ Hs Hl).
  - intros tu Htu. by apply H8, F8.
  - intros j s (i & Hi & Hl & <-)%Hlook _. destruct (H9 i s Hi Hl) as [P1 P2].
    assert (Hin : forall tu, pos i ∈ vec_at (ch_byTu (ch_compact x)) tu <-> i ∈ vec_at (ch_byTu x) tu).
    { intros tu. rewrite F7, <- !occ_pos, (occ_moved i s); [done|done|done|]. intros. by eapply registered_alive. }
    split; [intros tu Htu%Hin; by apply P1|]. intros Hp. apply Hin. by apply P2.
  - rewrite F2, H10, list_filter_filter. do 2 f_equal. apply list_filter_iff. tauto.
Qed.

Lemma compact_ledger :
  (forall k, refs_of (ch_compact x) k = refs_of x k) /\ (forall k tu, regs_of (ch_compact x) k tu = regs_of x k tu) /\
  (forall k, site_of (ch_compact x) k = site_of x k).
Proof.
  destruct compact_fields as (F1 & _ & F3 & _ & _ & _ & F7 & _).
  assert (Hsite : forall k, site_of (ch_compact x) k = site_of x k).
  { intros k. unfold site_of. rewrite F3, F1. destruct (ch_index x !! k) as [i|] eqn:Ei; [|done]. cbn.
    apply (co_index _ Hx) in Ei as (s & Hs & Hl & _). rewrite Hs. by apply new_pos_lookup. }
  split_and!; [intros k; unfold refs_of; by rewrite Hsite| |done].
  intros k tu. unfold regs_of. rewrite F3, F7. destruct (ch_index x !! k) as [i|] eqn:Ei; [|done]. cbn [fmap option_fmap option_map from_option].
  apply (co_index _ Hx) in Ei as (s & Hs & Hl & _). eapply occ_moved; [done|done|]. intros. by eapply registered_alive.
Qed.
End Compact.

(** * Merging *)

Lemma run_prefix tu l : take (run_length tu l) l = replicate (run_length tu l) tu /\ run_length tu l <= length l.
Proof.
  induction l as [|y l [IH1 IH2]]; [done|]. cbn [run_length]. case_decide as E; [|cbn; split; [done|lia]].
  subst y. cbn. rewrite IH1. split; [done|lia].
Qed.

(** ** One site of the shard *)

(** What the registrations of [tus] and [extra] untagged ones of a site add. *)
Record replays (site : ChannelSite) (tus : list bytes) (extra : nat) (x x' : ChannelIndex) : Prop := {
  rp_ok : ch_ok x';
  rp_refs : forall k, refs_of x' k = refs_of x k + (if decide (k = key_of site) then length tus + extra else 0);
  rp_regs : forall k tu, regs_of x' k tu = regs_of x k tu + (if decide (k = key_of site /\ tu <> []) then times tu tus else 0);
  rp_content : forall k, content x' k =
    match content x k with
    | Some c => Some c
    | None => if decide (k = key_of site /\ length tus + extra <> 0) then Some (set_tuPath [] site) else None
    end
}.

Lemma replays_nil site x : ch_ok x -> replays site [] 0 x x.
Proof.
  intros Hx. split; [done|..].
  - intros k. case_decide; cbn; lia.
  - intros k tu. case_decide; cbn; lia.
  - intros k. rewrite decide_False by (cbn; naive_solver). by destruct (content x k).
Qed.

Lemma replays_app site tus tus' extra extra' x x1 x2 :
  replays site tus extra x x1 -> replays site tus' extra' x1 x2 -> replays site (tus ++ tus') (extra + extra') x x2.
Proof.
  intros [_ A2 A3 A4] [B1 B2 B3 B4]. split; [done|..].
  - intros k. rewrite B2, A2, length_app. repeat case_decide; try done; lia.
  - intros k tu. rewrite B3, A3, times_app. repeat case_decide; try done; lia.
  - intros k. rewrite B4, A4, length_app. destruct (content x k); [done|]. repeat case_decide; naive_solver lia.
Qed.

(** A run of one unit, and the untagged rest. *)
Lemma registers_replays site tu n x x' :
  registers (set_tuPath tu site) n x x' -> tu <> [] -> replays site (replicate n tu) 0 x x'.
Proof.
  intros [A1 A2 A3 A4] Htu. split; [done|..].
  - intros k. rewrite A2, key_of_set_tuPath, length_replicate. repeat case_decide; try done; lia.
  - intros k u. rewrite A3, key_of_set_tuPath, times_replicate. cbn [ch_tuPath set_tuPath]. repeat case_decide; naive_solver lia.
  - intros k. rewrite A4, key_of_set_tuPath, length_replicate, set_tuPath_twice. destruct (content x k); [done|].
    repeat case_decide; naive_solver lia.
Qed.

Lemma registers_untagged site n x x' : registers (set_tuPath [] site) n x x' -> replays site [] n x x'.
Proof.
  intros [A1 A2 A3 A4]. split; [done|done|..].
  - intros k u. rewrite A3, key_of_set_tuPath. cbn [ch_tuPath set_tuPath]. rewrite decide_False by naive_solver. assert (times u [] = 0) by done. repeat case_decide; lia.
  - intros k. rewrite A4, key_of_set_tuPath, set_tuPath_twice. cbn. done.
Qed.

Lemma replay_cons fuel stored tu tus r x :
  replay (S fuel) stored (tu :: tus) r x =
  if (r <? st_refs stored)%N then
    replay fuel stored (drop (run_length tu (tu :: tus)) (tu :: tus))
      (u32 (r + N.min (N.of_nat (run_length tu (tu :: tus))) (st_refs stored - r)))
      (addSiteRefs (set_tuPath tu (st_site stored)) (N.min (N.of_nat (run_length tu (tu :: tus))) (st_refs stored - r)) x)
  else (x, r).
Proof. done. Qed.

Lemma replay_spec fuel stored tus r x :
  ch_ok x -> length tus <= fuel -> (forall tu, tu ∈ tus -> tu <> []) ->
  (st_refs stored < two32)%N -> N.to_nat r + length tus <= N.to_nat (st_refs stored) ->
  (N.of_nat (refs_of x (key_of (st_site stored)) + length tus) < two32)%N ->
  exists x', replay fuel stored tus r x = (x', (r + N.of_nat (length tus))%N) /\ replays (st_site stored) tus 0 x x'.
Proof.
  revert tus r x. induction fuel as [|fuel IH]; intros tus r x Hx Hfuel Hne Hw Hr Hroom.
  { destruct tus; cbn in Hfuel; [|lia]. exists x. cbn. rewrite N.add_0_r. split; [done|by apply replays_nil]. }
  destruct tus as [|tu tus]; [exists x; cbn; rewrite N.add_0_r; split; [done|by apply replays_nil]|].
  rewrite replay_cons. set (l := tu :: tus) in *. destruct (run_prefix tu l) as [Hrun Hle]. set (run := run_length tu l) in *.
  assert (Hrun1 : 1 <= run) by (unfold run, l; cbn; case_decide; [lia|done]).
  assert (Hl : 1 <= length l) by (cbn; lia).
  assert (Hsplit : l = replicate run tu ++ drop run l) by (rewrite <- Hrun at 1; by rewrite take_drop).
  assert (Hdrop : length (drop run l) = length l - run) by apply length_drop.
  destruct (N.ltb_spec r (st_refs stored)) as [_|Hge]; [|lia].
  assert (Hmin : N.min (N.of_nat run) (st_refs stored - r) = N.of_nat run) by lia. rewrite Hmin.
  rewrite u32_small by lia.
  assert (Hreg : registers (set_tuPath tu (st_site stored)) run x (addSiteRefs (set_tuPath tu (st_site stored)) (N.of_nat run) x)).
  { pose proof (addSiteRefs_registers (set_tuPath tu (st_site stored)) (N.of_nat run) x Hx) as H. rewrite Nat2N.id in H. apply H.
    rewrite key_of_set_tuPath. lia. }
  assert (Htu : tu <> []) by (apply Hne; left). pose proof (registers_replays _ _ _ _ _ Hreg Htu) as Hrep.
  destruct (IH (drop run l) (r + N.of_nat run)%N (addSiteRefs (set_tuPath tu (st_site stored)) (N.of_nat run) x)) as (x' & E & Hx').
  - apply Hreg.
  - lia.
  - intros u Hu. apply Hne. rewrite Hsplit. apply elem_of_app. by right.
  - done.
  - lia.
  - rewrite (rp_refs _ _ _ _ _ Hrep), decide_True, length_replicate by done. lia.
  - exists x'. rewrite E. split; [f_equal; lia|]. rewrite Hsplit. change 0 with (0 + 0). by eapply replays_app.
Qed.

Lemma absorb_site_spec x stored tus :
  ch_ok x -> alive stored -> (forall tu, tu ∈ tus -> tu <> []) -> (st_refs stored < two32)%N ->
  length tus <= N.to_nat (st_refs stored) -> st_refs stored <> 0%N ->
  (N.of_nat (refs_of x (key_of (st_site stored))) + st_refs stored < two32)%N ->
  replays (st_site stored) tus (N.to_nat (st_refs stored) - length tus) x (absorb_site x (stored, tus)).
Proof.
  intros Hx Hl Hne Hw Hlen Hr Hroom. unfold absorb_site. rewrite Hl, (proj2 (N.eqb_neq _ _) Hr). cbn [negb orb].
  assert (Hp : merge_sort bytes_le tus ≡ₚ tus) by apply merge_sort_Permutation. set (sorted := merge_sort bytes_le tus) in *.
  assert (Hlen' : length sorted = length tus) by (by rewrite Hp).
  destruct (replay_spec (length sorted) stored sorted 0 x) as (x' & E & Hrep); [done|done| |done|lia|lia|].
  { intros tu Htu. apply Hne. by rewrite <- Hp. }
  rewrite E, N.add_0_l. assert (Hreg : registers (set_tuPath [] (st_site stored)) (N.to_nat (st_refs stored) - length tus) x'
    (addSiteRefs (set_tuPath [] (st_site stored)) (st_refs stored - N.of_nat (length sorted)) x')).
  { pose proof (addSiteRefs_registers (set_tuPath [] (st_site stored)) (st_refs stored - N.of_nat (length sorted)) x' (rp_ok _ _ _ _ _ Hrep)) as H.
    replace (N.to_nat (st_refs stored - N.of_nat (length sorted))) with (N.to_nat (st_refs stored) - length tus) in H by lia. apply H.
    rewrite key_of_set_tuPath, (rp_refs _ _ _ _ _ Hrep), decide_True by done. lia. }
  pose proof (replays_app _ _ _ _ _ _ _ _ Hrep (registers_untagged _ _ _ _ Hreg)) as [A1 A2 A3 A4].
  rewrite app_nil_r in A2, A3, A4. rewrite Nat.add_0_l in A2, A4.
  split; [done| | |].
  - intros k. by rewrite A2, Hlen'.
  - intros k tu. rewrite A3, (times_proper tu _ _ Hp). done.
  - intros k. by rewrite A4, Hlen'.
Qed.

(** ** The registrations of a shard, per site *)

Section SiteTus.
Context `{TI : !TextIter}.

Lemma alter_events evs (acc : list (list bytes)) i l :
  acc !! i = Some l ->
  foldl (fun acc (e : bytes * nat) => alter (fun l => l ++ [e.1]) e.2 acc) acc evs !! i = Some (l ++ (fst <$> filter (fun e => e.2 = i) evs)).
Proof.
  revert acc l. induction evs as [|[tu j] evs IH]; intros acc l Hl; cbn [foldl fst snd]; [by rewrite app_nil_r|].
  rewrite filter_cons. cbn [snd]. destruct (decide (j = i)) as [->|Hne].
  - rewrite (IH _ (l ++ [tu])) by (by rewrite list_lookup_alter_eq, Hl). cbn. by rewrite <- (assoc_L (++)).
  - apply IH. by rewrite list_lookup_alter_ne.
Qed.

Lemma events_at (es : list (bytes * list nat)) i :
  fst <$> filter (fun e => e.2 = i) (es ≫= fun '(tu, idxs) => (tu,.) <$> idxs) = es ≫= fun '(tu, idxs) => replicate (occ i idxs) tu.
Proof.
  induction es as [|[tu idxs] es IH]; [done|]. rewrite !bind_cons, filter_app, fmap_app, IH. f_equal. clear.
  induction idxs as [|j idxs IH]; [done|]. cbn [fmap list_fmap]. rewrite filter_cons, occ_cons. cbn [snd]. case_decide; cbn; by rewrite IH.
Qed.

Lemma site_tus_at x i s :
  ch_sites x !! i = Some s ->
  exists l, site_tus x !! i = Some l /\ l ≡ₚ registrations (ch_byTu x) i.
Proof.
  intros Hs. unfold site_tus.
  assert (E : forall (acc : list (list bytes)) es, foldl (fun acc '(tu, idxs) => foldl (fun acc idx => alter (fun l => l ++ [tu]) idx acc) acc idxs) acc es =
    foldl (fun (acc : list (list bytes)) (e : bytes * nat) => alter (fun l => l ++ [e.1]) e.2 acc) acc (es ≫= fun '(tu, idxs) => (tu,.) <$> idxs)).
  { intros acc es. exact (foldl_events (fun (acc : list (list bytes)) (e : bytes * nat) => alter (fun l => l ++ [e.1]) e.2 acc) es acc). }
  rewrite E, (alter_events _ _ i []) by (apply lookup_replicate; split; [done|by eapply lookup_lt_Some]).
  eexists. split; [done|]. rewrite app_nil_l, events_at, text_iter_perm. rewrite (list_bind_ext _ (fun p => replicate (occ i p.2) p.1) _ (map_to_list (ch_byTu x))); [done|by intros []|done].
Qed.

Lemma site_tus_spec x i s :
  ch_ok x -> ch_sites x !! i = Some s ->
  exists l, site_tus x !! i = Some l /\ (forall tu, times tu l = occ i (vec_at (ch_byTu x) tu)) /\
    length l = regs (ch_byTu x) i /\ (forall tu, tu ∈ l -> tu <> []).
Proof.
  intros Hx Hs. destruct (site_tus_at x i s Hs) as (l & Hl & Hp). exists l. split_and!; [done|..].
  - intros tu. by rewrite Hp, registrations_times.
  - by rewrite Hp, registrations_length.
  - intros tu. rewrite Hp. intros Hin%elem_of_registrations. by apply (co_named _ Hx).
Qed.
End SiteTus.

(** ** All sites *)

(** An entry the merge replays, and the condition that makes its replay exact. *)
Definition entry_ok (e : StoredSite * list bytes) : Prop :=
  alive e.1 -> st_refs e.1 <> 0%N /\ (st_refs e.1 < two32)%N /\ length e.2 <= N.to_nat (st_refs e.1) /\ (forall tu, tu ∈ e.2 -> tu <> []).

Abbreviation ekey e := (key_of (st_site (e : StoredSite * list bytes).1)).

Record merged (es : list (StoredSite * list bytes)) (x x' : ChannelIndex) : Prop := {
  mg_ok : ch_ok x';
  mg_other : forall k, (forall e, e ∈ es -> alive e.1 -> ekey e <> k) ->
    refs_of x' k = refs_of x k /\ (forall tu, regs_of x' k tu = regs_of x k tu) /\ content x' k = content x k;
  mg_entry : forall e, e ∈ es -> alive e.1 ->
    refs_of x' (ekey e) = refs_of x (ekey e) + N.to_nat (st_refs e.1) /\
    (forall tu, tu <> [] -> regs_of x' (ekey e) tu = regs_of x (ekey e) tu + times tu e.2) /\
    content x' (ekey e) = match content x (ekey e) with Some c => Some c | None => Some (set_tuPath [] (st_site e.1)) end
}.

Lemma absorb_entries es x :
  ch_ok x -> Forall entry_ok es ->
  (forall i j a b, es !! i = Some a -> es !! j = Some b -> alive a.1 -> alive b.1 -> ekey a = ekey b -> i = j) ->
  (forall e, e ∈ es -> alive e.1 -> (N.of_nat (refs_of x (ekey e)) + st_refs e.1 < two32)%N) ->
  merged es x (foldl absorb_site x es).
Proof.
  revert x. induction es as [|[stored tus] es IH]; intros x Hx Hok Huniq Hroom; cbn [foldl].
  { split; [done|done|]. by intros e ?%not_elem_of_nil. }
  apply Forall_cons in Hok as [He Hok].
  assert (Huniq' : forall i j a b, es !! i = Some a -> es !! j = Some b -> alive a.1 -> alive b.1 -> ekey a = ekey b -> i = j).
  { intros i j a b Ha Hb La Lb E. by injection (Huniq (S i) (S j) a b Ha Hb La Lb E). }
  destruct (decide (alive stored)) as [Hl|Hl].
  - destruct (He Hl) as (E1 & E2 & E3 & E4). cbn [fst snd] in *.
    assert (Hrep : replays (st_site stored) tus (N.to_nat (st_refs stored) - length tus) x (absorb_site x (stored, tus))).
    { apply absorb_site_spec; try done. apply (Hroom (stored, tus)); [left|done]. }
    assert (Hfresh : forall e, e ∈ es -> alive e.1 -> ekey e <> key_of (st_site stored)).
    { intros e He' Le E. apply list_elem_of_lookup in He' as [j Hj]. by pose proof (Huniq (S j) 0 e (stored, tus) Hj eq_refl Le Hl E). }
    set (x1 := absorb_site x (stored, tus)) in *. destruct Hrep as [R1 R2 R3 R4].
    assert (Hother : forall k, k <> key_of (st_site stored) ->
      refs_of x1 k = refs_of x k /\ (forall tu, regs_of x1 k tu = regs_of x k tu) /\ content x1 k = content x k).
    { intros k Hk. split_and!.
      - rewrite R2, decide_False by done. lia.
      - intros tu. rewrite R3, decide_False by naive_solver. lia.
      - rewrite R4, decide_False by naive_solver. by destruct (content x k). }
    destruct (IH x1) as [M1 M2 M3]; [done|done|done| |].
    { intros e He' Le. destruct (Hother (ekey e)) as [-> _]; [by apply Hfresh|]. apply Hroom; [by right|done]. }
    split; [done| |].
    + intros k Hk. destruct (M2 k) as (A1 & A2 & A3); [intros e He'; apply Hk; by right|].
      destruct (Hother k) as (B1 & B2 & B3); [intros ->; exact (Hk (stored, tus) (list_elem_of_here _ _) Hl eq_refl)|].
      split_and!; [congruence|intros tu; by rewrite A2|congruence].
    + intros e [->|He']%elem_of_cons Le; cbn [fst snd].
      * destruct (M2 (key_of (st_site stored))) as (A1 & A2 & A3); [done|]. split_and!.
        -- rewrite A1, R2, decide_True by done. lia.
        -- intros tu Htu. rewrite A2, R3, decide_True by done. done.
        -- rewrite A3, R4. destruct (content x _); [done|]. rewrite decide_True; [done|]. split; [done|lia].
      * destruct (M3 e He' Le) as (A1 & A2 & A3). destruct (Hother (ekey e)) as (B1 & B2 & B3); [by apply Hfresh|].
        split_and!; [congruence|intros tu Htu; by rewrite A2, B2|by rewrite A3, B3].
  - assert (E : absorb_site x (stored, tus) = x).
    { unfold absorb_site. unfold alive in Hl. destruct (st_live stored); [done|]. done. }
    rewrite E. destruct (IH x Hx Hok Huniq') as [M1 M2 M3]; [intros e He' Le; apply Hroom; [by right|done]|].
    split; [done| |].
    + intros k Hk. apply M2. intros e He'. apply Hk. by right.
    + intros e [->|He']%elem_of_cons Le; [done|by apply M3].
Qed.

(** * Merging *)

Section Absorb.
Context `{TI : !TextIter} (shard x : ChannelIndex).
Hypothesis Hshard : ch_ok shard.
Hypothesis Hx : ch_ok x.
Hypothesis Hroom : forall k, (N.of_nat (refs_of x k + refs_of shard k) < two32)%N.

Abbreviation entries := (zip (ch_sites shard) (site_tus shard)).

Lemma length_site_tus : length (site_tus shard) = length (ch_sites shard).
Proof.
  unfold site_tus. assert (H : forall es (acc : list (list bytes)),
    length (foldl (fun acc '(tu, idxs) => foldl (fun acc idx => alter (fun l => l ++ [tu]) idx acc) acc idxs) acc es) = length acc).
  { induction es as [|[tu idxs] es IH]; intros acc; [done|]. cbn [foldl]. rewrite IH. clear.
    revert acc. induction idxs as [|i idxs IH]; intros acc; [done|]. cbn [foldl]. by rewrite IH, length_alter. }
  by rewrite H, length_replicate.
Qed.

Lemma entries_lookup i e : entries !! i = Some e <-> ch_sites shard !! i = Some e.1 /\ site_tus shard !! i = Some e.2.
Proof.
  rewrite lookup_zip_with_Some. split.
  - intros (s & l & -> & ? & ?). done.
  - intros [? ?]. exists e.1, e.2. by destruct e.
Qed.

Lemma entry_spec i e :
  entries !! i = Some e -> alive e.1 ->
  ch_index shard !! ekey e = Some i /\ refs_of shard (ekey e) = N.to_nat (st_refs e.1) /\
  (forall tu, regs_of shard (ekey e) tu = times tu e.2) /\ content shard (ekey e) = Some (set_tuPath [] (st_site e.1)) /\ entry_ok e.
Proof.
  intros [Hs Ht]%entries_lookup Hl. destruct (site_tus_spec shard i _ Hshard Hs) as (l & Hl' & T1 & T2 & T3).
  rewrite Ht in Hl'. injection Hl' as <-.
  assert (Hi : ch_index shard !! ekey e = Some i) by (apply (co_index _ Hshard); eauto).
  split; [done|]. unfold refs_of, regs_of, content, site_of. rewrite Hi. cbn [mbind option_bind fmap option_fmap option_map from_option].
  rewrite Hs. split_and!; [done|intros tu; by rewrite T1|done|]. intros _. split_and!; [by apply (co_live _ Hshard i)|exact (co_width _ Hshard i _ Hs)| |done].
  rewrite T2. pose proof (co_counted _ Hshard i) as Hc. unfold site_refs in Hc. by rewrite Hs in Hc.
Qed.

Lemma absorb_merged : merged entries x (ch_absorb false shard x).
Proof.
  apply absorb_entries; [done| | |].
  - apply Forall_lookup. intros i e He Hl. by apply (entry_spec i e He Hl).
  - intros i j a b Ha Hb La Lb E. destruct (entry_spec i a Ha La) as [Ia _], (entry_spec j b Hb Lb) as [Ib _]. congruence.
  - intros e [i He]%list_elem_of_lookup Hl. destruct (entry_spec i e He Hl) as (_ & Hr & _). specialize (Hroom (ekey e)). rewrite Hr in Hroom. lia.
Qed.

Lemma regs_of_nil y k : ch_ok y -> regs_of y k [] = 0.
Proof.
  intros Hy. unfold regs_of. destruct (ch_index y !! k) as [i|]; [|done]. cbn. unfold vec_at.
  destruct (ch_byTu y !! []) eqn:E; [|done]. by destruct (co_named _ Hy []).
Qed.

Lemma absorb_ledger :
  let x' := ch_absorb false shard x in
  ch_ok x' /\ (forall k, refs_of x' k = refs_of x k + refs_of shard k) /\
  (forall k tu, regs_of x' k tu = regs_of x k tu + regs_of shard k tu) /\
  (forall k, content x' k = match content x k with Some c => Some c | None => content shard k end).
Proof.
  cbn zeta. pose proof absorb_merged as [M1 M2 M3]. set (x' := ch_absorb false shard x) in *. split; [done|].
  assert (Hcase : forall k, (exists e i, entries !! i = Some e /\ alive e.1 /\ ekey e = k) \/
    ((forall e, e ∈ entries -> alive e.1 -> ekey e <> k) /\ ch_index shard !! k = None)).
  { intros k. destruct (index_cases shard k Hshard) as [(i & s & Hi & Hs & Hl & Hk)|[Hi Hno]].
    - left. destruct (site_tus_spec shard i s Hshard Hs) as (l & Hl' & _). exists (s, l), i. by rewrite entries_lookup.
    - right. split; [|done]. intros e [j He]%list_elem_of_lookup Hl. apply entries_lookup in He as [Hs _]. by eapply Hno. }
  assert (Hnone : forall k, ch_index shard !! k = None -> refs_of shard k = 0 /\ (forall tu, regs_of shard k tu = 0) /\ content shard k = None).
  { intros k E. unfold refs_of, regs_of, content, site_of. by rewrite E. }
  split_and!.
  - intros k. destruct (Hcase k) as [(e & i & He & Hl & <-)|[Hno E]].
    + destruct (M3 e (list_elem_of_lookup_2 _ _ _ He) Hl) as (-> & _). by destruct (entry_spec i e He Hl) as (_ & -> & _).
    + destruct (M2 k Hno) as (-> & _). destruct (Hnone k E) as [-> _]. lia.
  - intros k tu. destruct (decide (tu = [])) as [->|Htu]; [by rewrite !regs_of_nil|].
    destruct (Hcase k) as [(e & i & He & Hl & <-)|[Hno E]].
    + destruct (M3 e (list_elem_of_lookup_2 _ _ _ He) Hl) as (_ & H & _). rewrite H by done. by destruct (entry_spec i e He Hl) as (_ & _ & -> & _).
    + destruct (M2 k Hno) as (_ & -> & _). destruct (Hnone k E) as (_ & -> & _). lia.
  - intros k. destruct (Hcase k) as [(e & i & He & Hl & <-)|[Hno E]].
    + destruct (M3 e (list_elem_of_lookup_2 _ _ _ He) Hl) as (_ & _ & ->). destruct (entry_spec i e He Hl) as (_ & _ & _ & -> & _). by destruct (content x (ekey e)).
    + destruct (M2 k Hno) as (_ & _ & ->). destruct (Hnone k E) as (_ & _ & ->). by destruct (content x k).
Qed.
End Absorb.

(** * Queries *)

Section Queries.
Variable x : ChannelIndex.
Hypothesis Hx : ch_ok x.

(** The sites at the positions of a vector are a filter of all sites. *)
Lemma sites_at_listed (sel : bytes -> StoredSite -> Prop) `{HS : !forall k s, Decision (sel k s)} (Q : ChannelSite -> Prop)
    `{HQ : !forall s, Decision (Q s)} keep m k :
  listed sel (ch_sites x) m -> (forall s, sel k s <-> alive s /\ Q (st_site s)) ->
  sites_at x keep (vec_at m k) = filter (fun s => keep s = true /\ Q s) (allSites x).
Proof.
  intros Hm Hsel. pose proof (listed_view sel (ch_sites x) m k Hm) as Hv.
  assert (E : sites_at x keep (vec_at m k) = omap (fun s => if keep (st_site s) then Some (st_site s) else None) (omap (fun i => ch_sites x !! i) (vec_at m k))).
  { assert (Hin : forall i, i ∈ vec_at m k -> exists s, ch_sites x !! i = Some s /\ alive s).
    { intros i Hi. apply Hm in Hi as (s & Hs & Hk). exists s. split; [done|]. by apply Hsel in Hk as [? _]. }
    unfold sites_at. clear Hv Hm. induction (vec_at m k) as [|i v IH]; [done|]. destruct (Hin i ltac:(left)) as (s & Hs & Hl).
    rewrite !omap_cons_eq, Hs. cbn [mbind option_bind]. rewrite Hl. cbn [andb]. rewrite omap_cons_eq, IH; [done|]. intros. apply Hin. by right. }
  rewrite E, Hv. unfold allSites. clear E Hv Hm. induction (ch_sites x) as [|s l IH]; [done|].
  rewrite !filter_cons. destruct (decide (st_live s = true)) as [Hl|Hl].
  - destruct (decide (sel k s)) as [Hk|Hk].
    + apply Hsel in Hk as [_ HQs]. rewrite omap_cons_eq, fmap_cons, filter_cons, IH. destruct (keep (st_site s)).
      * by rewrite decide_True.
      * rewrite decide_False; [done|]. naive_solver.
    + rewrite fmap_cons, filter_cons, IH, decide_False; [done|]. intros [_ HQs]. apply Hk, Hsel. done.
  - rewrite decide_False; [done|]. intros [Ha _]%Hsel. done.
Qed.

Lemma channel_lookup keep k :
  match ch_byChannel x !! k with None => [] | Some idxs => sites_at x keep idxs end =
  filter (fun s => keep s = true /\ ch_channelId s = k) (allSites x).
Proof.
  rewrite <- (sites_at_listed on_channel (fun s => ch_channelId s = k) keep (ch_byChannel x) k (co_channel _ Hx)) by done.
  unfold vec_at. by destruct (ch_byChannel x !! k).
Qed.

Lemma elem_of_allSites s : s ∈ allSites x <-> exists i st, ch_sites x !! i = Some st /\ alive st /\ st_site st = s.
Proof.
  unfold allSites. rewrite list_elem_of_fmap. split.
  - intros (st & -> & [Hl [i Hi]%list_elem_of_lookup]%list_elem_of_filter). eauto.
  - intros (i & st & Hi & Hl & <-). exists st. split; [done|]. apply list_elem_of_filter. split; [done|]. by eapply list_elem_of_lookup_2.
Qed.

(** Every held site, in terms of the ledger. *)
Lemma held_path s :
  s ∈ allSites x -> content x (key_of s) = Some (set_tuPath [] s) /\
  (forall tu, 0 < regs_of x (key_of s) tu -> ch_tuPath s <> [] /\ bytes_le (ch_tuPath s) tu) /\
  (ch_tuPath s <> [] -> 0 < regs_of x (key_of s) (ch_tuPath s)).
Proof.
  intros (i & st & Hi & Hl & <-)%elem_of_allSites. assert (Hk : ch_index x !! key_of (st_site st) = Some i) by (apply (co_index _ Hx); eauto).
  destruct (co_path _ Hx i st Hi Hl) as [P1 P2]. unfold content, regs_of, site_of. rewrite Hk. cbn [mbind option_bind fmap option_fmap option_map from_option].
  rewrite Hi. split_and!; [done| |].
  - intros tu Htu%occ_pos. by apply P1.
  - intros Hp. apply occ_pos. by apply P2.
Qed.

Lemma allChannelIds_spec `{TI : !TextIter} :
  NoDup (allChannelIds x) /\ forall c, c ∈ allChannelIds x <-> exists s, s ∈ allSites x /\ ch_channelId s = c.
Proof.
  assert (Hkeys : NoDup (text_iter (ch_byChannel x)).*1) by (rewrite text_iter_perm; apply NoDup_fst_map_to_list).
  unfold allChannelIds. split.
  - assert (H : forall (P : list nat -> bool) (es : list (bytes * list nat)), NoDup es.*1 ->
      NoDup (omap (fun '(id, idxs) => if P idxs then Some id else None) es) /\
      forall c, c ∈ omap (fun '(id, idxs) => if P idxs then Some id else None) es -> c ∈ es.*1).
    { intros P. induction es as [|[id idxs] es IH]; intros Hnd; [by split; [constructor|]|].
      cbn [fmap list_fmap] in Hnd. apply NoDup_cons in Hnd as [Hn Hnd]. destruct (IH Hnd) as [I1 I2]. rewrite omap_cons_eq. destruct (P idxs).
      - split; [constructor; [|done]; by intros ?%I2|]. intros c [->|Hc]%elem_of_cons; [left|right; by apply I2].
      - split; [done|]. intros c Hc. right. by apply I2. }
    by apply H.
  - intros c. rewrite list_elem_of_omap. setoid_rewrite text_iter_perm. split.
    + intros ([id idxs] & Hin%elem_of_map_to_list & Hc). destruct (existsb _ idxs) eqn:Ex; [|done]. injection Hc as ->.
      apply existsb_exists in Ex as (i & Hi%list_elem_of_In & Hs). destruct (ch_sites x !! i) as [st|] eqn:Est; [|done].
      assert (Hv : i ∈ vec_at (ch_byChannel x) c) by (unfold vec_at; by rewrite Hin).
      apply (co_channel _ Hx) in Hv as (st' & Hst' & _ & Hch). exists (st_site st'). split; [|done]. apply elem_of_allSites.
      rewrite Est in Hst'. injection Hst' as <-. eauto.
    + intros (s & (i & st & Hi & Hl & <-)%elem_of_allSites & <-).
      assert (Hv : i ∈ vec_at (ch_byChannel x) (ch_channelId (st_site st))) by (apply (co_channel _ Hx); exists st; done).
      unfold vec_at in Hv. destruct (ch_byChannel x !! ch_channelId (st_site st)) as [idxs|] eqn:E; [|by apply not_elem_of_nil in Hv].
      exists (ch_channelId (st_site st), idxs). split; [by apply elem_of_map_to_list|].
      assert (existsb (fun i => match ch_sites x !! i with Some s => st_live s | None => false end) idxs = true) as ->; [|done].
      apply existsb_exists. exists i. split; [by apply list_elem_of_In|]. by rewrite Hi.
Qed.

Lemma queries_filter (isValidUtf8 : bytes -> bool) (key : bytes) :
  let k := lookupText isValidUtf8 key in
  producersOf isValidUtf8 x key = filter (fun s => ch_op s = Produce /\ ch_channelId s = k) (allSites x) /\
  consumersOf isValidUtf8 x key = filter (fun s => ch_op s = Consume /\ ch_channelId s = k) (allSites x) /\
  sitesForFunction isValidUtf8 x key =
    filter (fun s => ch_siteFunctionUsr s = k) (allSites x) ++
    filter (fun s => ch_siteFunctionDisplay s <> ch_siteFunctionUsr s /\ ch_siteFunctionDisplay s = k) (allSites x).
Proof.
  cbn zeta. split_and!.
  - unfold producersOf. rewrite channel_lookup. apply list_filter_iff. intros s. by rewrite bool_decide_eq_true.
  - unfold consumersOf. rewrite channel_lookup. apply list_filter_iff. intros s. by rewrite bool_decide_eq_true.
  - unfold sitesForFunction. set (k := lookupText isValidUtf8 key). f_equal.
    + rewrite (list_filter_iff _ (fun s => (fun _ => true) s = true /\ ch_siteFunctionUsr s = k)) by (intros; tauto).
      rewrite <- (sites_at_listed in_function (fun s => ch_siteFunctionUsr s = k) (fun _ => true) _ k (co_usr _ Hx)) by done.
      unfold vec_at. by destruct (ch_byFunctionUsr x !! k).
    + rewrite (list_filter_iff _ (fun s => (fun _ => true) s = true /\ (differs s = true /\ ch_siteFunctionDisplay s = k))).
      * rewrite <- (sites_at_listed displayed_as (fun s => differs s = true /\ ch_siteFunctionDisplay s = k) (fun _ => true) _ k (co_display _ Hx)) by done.
        unfold vec_at. by destruct (ch_byFunctionDisplay x !! k).
      * intros s. unfold differs. rewrite negb_true_iff, bool_decide_eq_false. tauto.
Qed.
End Queries.

(** * The promises *)

Lemma length_allSites x : length (allSites x) = length (filter alive (ch_sites x)).
Proof. unfold allSites. by rewrite length_fmap. Qed.

Lemma removed_count `{TI : !TextIter} x tuPaths :
  ch_ok x -> (ch_removeTUs tuPaths x).2 + length (allSites (ch_removeTUs tuPaths x).1) = length (allSites x).
Proof.
  intros Hx. destruct (release_units x tuPaths Hx) as [done [[_ _ _ _ _ _ R7 R8] _ _ _]].
  pose proof (co_count _ (sites_removed_ok x tuPaths Hx)) as Hc. unfold ch_removeTUs at 1 in Hc. cbn [fst ch_liveCount] in Hc. rewrite R7 in Hc.
  rewrite !length_allSites. unfold ch_removeTUs at 1. cbn [snd]. lia.
Qed.

(** C37. The channel index is an exact ledger of registrations.  Registering a site adds one
    reference to its key, and one registration to the unit that made it; merging a shard
    adds the shard's references and registrations key by key and unit by unit; removing
    units takes back all of their registrations and nothing else (registrations that no
    unit made stay), so a site goes with its last reference, and the number of sites
    removed is reported; compaction changes no entry.  What a site says is fixed by its
    first registration.  Every operation keeps the representation invariant. *)
Theorem channel_operations_exact `{TI : !TextIter} (x : ChannelIndex) (Hx : ch_ok x) :
  (forall site, (N.of_nat (refs_of x (key_of (normalize_site site))) + 1 < two32)%N ->
     registers (normalize_site site) 1 x (addSite site x)) /\
  (forall shard, ch_ok shard -> (forall k, (N.of_nat (refs_of x k + refs_of shard k) < two32)%N) ->
     let x' := ch_absorb false shard x in
     ch_ok x' /\ (forall k, refs_of x' k = refs_of x k + refs_of shard k) /\
     (forall k tu, regs_of x' k tu = regs_of x k tu + regs_of shard k tu) /\
     (forall k, content x' k = match content x k with Some c => Some c | None => content shard k end)) /\
  (forall tuPaths, let x' := (ch_removeTUs tuPaths x).1 in
     ch_ok x' /\ (forall k tu, regs_of x' k tu = if decide (tu ∈ units tuPaths) then 0 else regs_of x k tu) /\
     (forall k, untagged x' k = untagged x k) /\
     (forall k, content x' k = if decide (refs_of x' k = 0) then None else content x k) /\
     (ch_removeTUs tuPaths x).2 + length (allSites x') = length (allSites x)) /\
  (ch_ok (ch_compact x) /\ (forall k, refs_of (ch_compact x) k = refs_of x k) /\
     (forall k tu, regs_of (ch_compact x) k tu = regs_of x k tu) /\
     (forall k, site_of (ch_compact x) k = site_of x k) /\ allSites (ch_compact x) = allSites x).
Proof.
  split_and!.
  - intros site Hr. by apply (addSiteRefs_registers (normalize_site site) 1 x Hx).
  - intros shard Hs Hr. by apply absorb_ledger.
  - intros tuPaths. cbn zeta. destruct (removed_ledger x tuPaths Hx) as (R1 & R2 & R3).
    split_and!; [by apply sites_removed_ok|done|done|done|by apply removed_count].
  - by apply compact_ok.
  - by apply compact_ledger.
  - by apply compact_ledger.
  - by apply compact_ledger.
  - unfold allSites. destruct (compact_fields x Hx) as [-> _]. f_equal. rewrite list_filter_filter. apply list_filter_iff. unfold alive. tauto.
Qed.

(** The queries are filters of the held sites, in the order of their first registration:
    producers and consumers by channel, the sites of a function by its identity and then
    by a display name that differs from it, and each channel with a site once.  A held
    site names the least of the units that register it, and no unit when none does. *)
Theorem channel_queries_exact `{TI : !TextIter} (isValidUtf8 : bytes -> bool) (x : ChannelIndex) (Hx : ch_ok x) (key : bytes) :
  let k := lookupText isValidUtf8 key in
  producersOf isValidUtf8 x key = filter (fun s => ch_op s = Produce /\ ch_channelId s = k) (allSites x) /\
  consumersOf isValidUtf8 x key = filter (fun s => ch_op s = Consume /\ ch_channelId s = k) (allSites x) /\
  sitesForFunction isValidUtf8 x key =
    filter (fun s => ch_siteFunctionUsr s = k) (allSites x) ++
    filter (fun s => ch_siteFunctionDisplay s <> ch_siteFunctionUsr s /\ ch_siteFunctionDisplay s = k) (allSites x) /\
  (NoDup (allChannelIds x) /\ forall c, c ∈ allChannelIds x <-> exists s, s ∈ allSites x /\ ch_channelId s = c) /\
  channels_size x = Z.of_nat (length (allSites x)) /\
  (forall s, s ∈ allSites x -> content x (key_of s) = Some (set_tuPath [] s) /\
     (forall tu, 0 < regs_of x (key_of s) tu -> ch_tuPath s <> [] /\ bytes_le (ch_tuPath s) tu) /\
     (ch_tuPath s <> [] -> 0 < regs_of x (key_of s) (ch_tuPath s))).
Proof.
  cbn zeta. split_and!.
  - by apply queries_filter.
  - by apply queries_filter.
  - by apply queries_filter.
  - by apply allChannelIds_spec.
  - by apply allChannelIds_spec.
  - unfold channels_size. by rewrite (co_count _ Hx), length_allSites.
  - by apply held_path.
Qed.

(** ** Examples *)

Definition push_site (tu : bytes) : ChannelSite :=
  MkSite (str "q") (str "Queue") (str "queue") Produce (str "c:@F@send") (str "send") (str "q.h:3:5") [] tu.

(** A site of a header, registered by two units and once by hand. *)
Definition shared_site : ChannelIndex :=
  addSite (push_site []) (addSite (push_site (str "a.cpp")) (addSite (push_site (str "b.cpp")) empty_channels)).

Lemma shared_site_ok : ch_ok shared_site.
Proof.
  unfold shared_site, addSite. repeat (apply addSiteRefs_registers; [|vm_compute; reflexivity]). apply empty_channels_ok.
Qed.

Lemma channel_operations_exact_witness :
  regs_of (@ch_removeTUs canonical_text_iter [str "a.cpp"] shared_site).1 (key_of (push_site [])) (str "a.cpp") = 0 /\
  regs_of (@ch_removeTUs canonical_text_iter [str "a.cpp"] shared_site).1 (key_of (push_site [])) (str "b.cpp") = 1.
Proof.
  pose proof (proj1 (proj2 (proj1 (proj2 (proj2 (@channel_operations_exact canonical_text_iter shared_site shared_site_ok))) [str "a.cpp"]))) as H.
  split; rewrite H; vm_compute; reflexivity.
Defined.

Lemma channel_queries_exact_witness :
  producersOf valid_utf8b shared_site (str "q") = [push_site (str "a.cpp")].
Proof.
  rewrite (proj1 (@channel_queries_exact canonical_text_iter valid_utf8b shared_site shared_site_ok (str "q"))). vm_compute. reflexivity.
Defined.
