(* ===== verification/CountingSort.v ===== *)
(** The counting sort of a save (src/callgraph/Snapshot.cpp, [orderBy]): every order of the
    control-flow section is by an interned id, so it is made by counting the records of
    each id.  It is a stable sort: the groups of the ids in order, each in input order.

    There are fewer than 2^32 items, the width of the counters: the section's own record
    count has that width. *)

From S2P Require Import Prelude.

Section OrderBy.
(** [idCount], and [keyOf] as a position in [starts]. *)
Variable idCount : nat.
Variable keyOf : nat -> nat.

(** [++starts\[size_t(keyOf(i)) + 1\]]. *)
Definition count_keys (items : list nat) : list nat :=
  foldl (fun starts i => alter S (S (keyOf i)) starts) (replicate (S idCount) 0) items.

(** [starts\[size_t(k) + 1\] += starts\[k\]]. *)
Definition sum_before (starts : list nat) (k : nat) : list nat :=
  match starts !! k with Some a => alter (fun b => b + a) (S k) starts | None => starts end.

(** [out\[starts\[keyOf(i)\]++\] = i]. *)
Definition place (st : list nat * list nat) (i : nat) : list nat * list nat :=
  let '(starts, out) := st in
  match starts !! keyOf i with
  | Some p => (alter S (keyOf i) starts, <[p := i]> out)
  | None => st
  end.

Definition orderBy (items : list nat) : list nat :=
  let starts := foldl sum_before (count_keys items) (seq 0 idCount) in
  snd (foldl place (starts, replicate (length items) 0) items).

Lemma length_orderBy items : length (orderBy items) = length items.
Proof.
  unfold orderBy. generalize (foldl sum_before (count_keys items) (seq 0 idCount)). intros starts.
  rewrite <- (length_replicate (length items) 0) at 2. generalize (replicate (length items) 0). revert starts.
  induction items as [|i items IH]; intros starts out; [done|]. cbn [foldl place].
  destruct (starts !! keyOf i); rewrite IH; [apply length_insert|done].
Qed.

(** * It is the stable sort by key *)

Definition group (items : list nat) (k : nat) : list nat := filter (fun i => keyOf i = k) items.

Definition grouped (items : list nat) (n : nat) : list nat := seq 0 n ≫= group items.

Lemma grouped_S items n : grouped items (S n) = grouped items n ++ group items n.
Proof. unfold grouped. rewrite seq_S, bind_app. cbn. by rewrite app_nil_r. Qed.

Lemma group_snoc items i k : group (items ++ [i]) k = group items k ++ (if decide (keyOf i = k) then [i] else []).
Proof. unfold group. rewrite filter_app, filter_cons, filter_nil. by case_decide. Qed.

Lemma grouped_prefix items m n : m <= n -> exists l, grouped items n = grouped items m ++ l.
Proof.
  induction 1 as [|n _ [l IH]]; [exists []; by rewrite app_nil_r|].
  exists (l ++ group items n). by rewrite grouped_S, IH, (assoc_L (++)).
Qed.

(** An element of a group, by its position in the result. *)
Lemma grouped_at items n k r i :
  k < n -> group items k !! r = Some i -> grouped items n !! (length (grouped items k) + r) = Some i.
Proof.
  intros Hk Hr. destruct (grouped_prefix items (S k) n Hk) as [l ->]. rewrite grouped_S, <- (assoc_L (++)).
  rewrite lookup_app_r, Nat.add_comm, Nat.add_sub by lia. by apply lookup_app_l_Some.
Qed.

Lemma grouped_lookup items n j i :
  grouped items n !! j = Some i -> exists k r, k < n /\ group items k !! r = Some i /\ j = length (grouped items k) + r.
Proof.
  induction n as [|n IH]; [done|]. rewrite grouped_S. intros [Hj|[Hge Hj]]%lookup_app_Some.
  - destruct (IH Hj) as (k & r & ? & ? & ?). exists k, r. split_and!; [lia|done|done].
  - exists n, (j - length (grouped items n)). split_and!; [lia|done|lia].
Qed.

Lemma grouped_perm items n : (forall i, i ∈ items -> keyOf i < n) -> grouped items n ≡ₚ items.
Proof.
  assert (H : grouped items n ≡ₚ filter (fun i => keyOf i < n) items).
  { induction n as [|n IH].
    - symmetry. apply Permutation_nil_r. apply elem_of_nil_inv. intros i [Hi _]%list_elem_of_filter. lia.
    - rewrite grouped_S, IH. unfold group. clear. induction items as [|i items IH]; [done|]. rewrite !filter_cons.
      destruct (decide (keyOf i < n)), (decide (keyOf i = n)), (decide (keyOf i < S n)); try lia; cbn [app].
      + by f_equiv.
      + rewrite <- Permutation_middle. by f_equiv.
      + done. }
  intros Hk. rewrite H. by rewrite filter_id.
Qed.

(** A group of the result is the group of the input: the sort is stable. *)
Lemma group_grouped items n k : k < n -> group (grouped items n) k = group items k.
Proof.
  assert (Hgg : forall j, group (group items j) k = if decide (j = k) then group items k else []).
  { intros j. unfold group. rewrite list_filter_filter. case_decide as E.
    - subst j. apply list_filter_iff. tauto.
    - apply elem_of_nil_inv. intros i [[? ?] _]%list_elem_of_filter. congruence. }
  assert (Hsmall : forall n, n <= k -> group (grouped items n) k = []).
  { intros m. induction m as [|n' IH]; intros Hn; [done|]. rewrite grouped_S. unfold group at 1. rewrite filter_app.
    fold (group (grouped items n') k) (group (group items n') k). by rewrite IH, Hgg, decide_False by lia. }
  induction n as [|n IH]; intros Hk; [lia|]. rewrite grouped_S. unfold group at 1. rewrite filter_app.
  fold (group (grouped items n) k) (group (group items n) k). rewrite Hgg. case_decide as E.
  - subst n. by rewrite Hsmall.
  - rewrite app_nil_r. apply IH. lia.
Qed.

Lemma grouped_sorted items n : StronglySorted (fun i j => keyOf i <= keyOf j) (grouped items n).
Proof.
  assert (Hkey : forall n i, i ∈ grouped items n -> keyOf i < n).
  { intros m i (k & [-> _]%list_elem_of_filter & Hk%elem_of_seq)%list_elem_of_bind. lia. }
  induction n as [|n IH]; [constructor|]. rewrite grouped_S. apply StronglySorted_app_2; [|done|].
  - intros i j Hi%Hkey [Hj _]%list_elem_of_filter. lia.
  - assert (H : forall l, (forall i, i ∈ l -> keyOf i = n) -> StronglySorted (fun i j => keyOf i <= keyOf j) l).
    { induction l as [|i l IHl]; intros Hl; constructor; [apply IHl; intros; apply Hl; by right|].
      apply Forall_forall. intros j Hj. rewrite (Hl i), (Hl j); [done|by right|left]. }
    apply H. by intros i [? _]%list_elem_of_filter.
Qed.

Section Correct.
Variable items : list nat.
Hypothesis Hkeys : forall i, i ∈ items -> keyOf i < idCount.

Abbreviation before k := (length (grouped items k)).

Lemma count_keys_at : length (count_keys items) = S idCount /\ count_keys items !! 0 = Some 0 /\
  forall k, k < idCount -> count_keys items !! S k = Some (length (group items k)).
Proof.
  clear Hkeys. unfold count_keys. induction items as [|i l IH] using rev_ind.
  - cbn [foldl]. split_and!; [by rewrite length_replicate|done|]. intros k Hk. apply lookup_replicate_2. lia.
  - rewrite foldl_app. cbn [foldl]. destruct IH as (I1 & I2 & I3). split_and!.
    + by rewrite length_alter.
    + by rewrite list_lookup_alter_ne.
    + intros k Hk. rewrite group_snoc, length_app. case_decide as E.
      * subst k. rewrite list_lookup_alter_eq, I3 by done. cbn. f_equal. lia.
      * rewrite list_lookup_alter_ne, I3 by lia. cbn. f_equal. lia.
Qed.

(** After the prefix sums, [starts\[k\]] is the number of items of smaller keys. *)
Lemma starts_at k : k <= idCount -> foldl sum_before (count_keys items) (seq 0 idCount) !! k = Some (before k).
Proof.
  destruct count_keys_at as (H1 & H2 & H3).
  assert (H : forall n, n <= idCount ->
    let st := foldl sum_before (count_keys items) (seq 0 n) in
    length st = S idCount /\ (forall k, k <= n -> st !! k = Some (before k)) /\
    (forall k, n <= k -> k < idCount -> st !! S k = Some (length (group items k)))).
  { induction n as [|n IH]; intros Hn; cbn zeta.
    - split_and!; [done| |intros; by apply H3]. intros k' Hk. assert (k' = 0) as -> by lia. done.
    - destruct (IH ltac:(lia)) as (I1 & I2 & I3). rewrite seq_S, foldl_app. cbn [foldl Nat.add].
      unfold sum_before at 1 3 5. rewrite (I2 n) by lia. split_and!.
      + by rewrite length_alter.
      + intros k' Hk'. destruct (decide (k' = S n)) as [->|Hne].
        * rewrite list_lookup_alter_eq, I3 by lia. cbn [fmap option_fmap option_map]. by rewrite grouped_S, length_app, Nat.add_comm.
        * rewrite list_lookup_alter_ne by lia. apply I2. lia.
      + intros k' Hk' Hlt. rewrite list_lookup_alter_ne by lia. apply I3; lia. }
  intros Hk. by apply (H idCount).
Qed.

(** What the placing loop has written after the first items. *)
Record placed (done : list nat) (st : list nat * list nat) : Prop := {
  pl_starts : forall k, k < idCount -> st.1 !! k = Some (before k + length (group done k));
  pl_length : length st.2 = length items;
  pl_out : forall k r i, k < idCount -> group done k !! r = Some i -> st.2 !! (before k + r) = Some i
}.

Lemma group_fits done rest k : done ++ rest = items -> k < idCount -> before k + length (group done k) <= length items.
Proof.
  intros E Hk. pose proof (Permutation_length (grouped_perm items idCount Hkeys)) as <-.
  destruct (grouped_prefix items (S k) idCount Hk) as [l ->]. rewrite grouped_S, !length_app.
  assert (length (group done k) <= length (group items k)); [|lia].
  rewrite <- E. unfold group. rewrite filter_app, length_app. lia.
Qed.

Lemma place_step done i rest st : done ++ i :: rest = items -> placed done st -> placed (done ++ [i]) (place st i).
Proof.
  intros E [P1 P2 P3]. assert (Hi : keyOf i < idCount) by (apply Hkeys; rewrite <- E; set_solver).
  pose proof (P1 _ Hi) as Hp. unfold place. destruct st as [starts out]. cbn [fst snd] in *. rewrite Hp.
  set (p := before (keyOf i) + length (group done (keyOf i))) in *.
  assert (Hfit : p < length out).
  { rewrite P2. pose proof (group_fits (done ++ [i]) rest (keyOf i) ltac:(by rewrite <- (assoc_L (++))) Hi) as H.
    rewrite group_snoc, decide_True, length_app in H by done. cbn in H. unfold p. lia. }
  (* positions of different groups do not meet *)
  assert (Hapart : forall k r j, k < idCount -> group done k !! r = Some j -> before k + r <> p).
  { intros k r j Hk Hr Hbad. assert (Hin : r < length (group done k)) by (by eapply lookup_lt_Some).
    assert (Hle : forall k, length (group done k) <= length (group items k)).
    { intros k'. rewrite <- E. unfold group. rewrite filter_app, length_app. lia. }
    unfold p in Hbad. destruct (Nat.lt_trichotomy k (keyOf i)) as [H|[->|H]]; [| lia |].
    - destruct (grouped_prefix items (S k) (keyOf i) H) as [l El]. rewrite El, grouped_S, !length_app in Hbad. specialize (Hle k). lia.
    - destruct (grouped_prefix items (S (keyOf i)) k H) as [l El]. rewrite El, grouped_S, !length_app in Hbad.
      assert (length (group done (keyOf i)) < length (group items (keyOf i))); [|lia].
      rewrite <- E. unfold group. rewrite filter_app, length_app, filter_cons, decide_True by done. cbn. lia. }
  split; cbn [fst snd].
  - intros k Hk. rewrite group_snoc, length_app. case_decide as Ek.
    + subst k. rewrite list_lookup_alter_eq, Hp. cbn. f_equal. unfold p. lia.
    + rewrite list_lookup_alter_ne, (P1 k Hk) by done. cbn. f_equal. lia.
  - by rewrite length_insert.
  - intros k r j Hk. rewrite group_snoc. case_decide as Ek.
    + subst k. intros [Hr|[Hge Hr]]%lookup_app_Some.
      * rewrite list_lookup_insert_ne by (symmetry; by eapply Hapart). by apply P3.
      * apply list_lookup_singleton_Some in Hr as [Hr0 Hj]. subst j. assert (r = length (group done (keyOf i))) as -> by lia.
        by apply list_lookup_insert_eq.
    + rewrite app_nil_r. intros Hr. rewrite list_lookup_insert_ne by (symmetry; by eapply Hapart). by apply P3.
Qed.

Lemma place_all done rest st : done ++ rest = items -> placed done st -> placed items (foldl place st rest).
Proof.
  revert done st. induction rest as [|i rest IH]; intros done st E Hp; cbn [foldl].
  - rewrite app_nil_r in E. by subst.
  - apply (IH (done ++ [i])); [by rewrite <- (assoc_L (++))|by eapply place_step].
Qed.

(** The counting sort is the stable sort: the groups of the keys, in key order. *)
Lemma orderBy_grouped : orderBy items = grouped items idCount.
Proof.
  unfold orderBy. set (starts := foldl sum_before _ _).
  destruct (place_all [] items (starts, replicate (length items) 0)) as [_ P2 P3]; [done| |].
  { split; cbn [fst snd]; [|by rewrite length_replicate|done]. intros k Hk. cbn. rewrite Nat.add_0_r. apply starts_at. lia. }
  symmetry. apply list_eq_same_length with (length items); [done|by rewrite (grouped_perm items idCount Hkeys)|].
  intros j a b Hj Ha Hb. destruct (grouped_lookup _ _ _ _ Ha) as (k & r & Hk & Hr & ->).
  rewrite (P3 k r a Hk Hr) in Hb. by injection Hb.
Qed.
End Correct.
End OrderBy.
