(* ===== verification/SnapshotControlFlow.v ===== *)
(** The control-flow section of a saved index (src/callgraph/Snapshot.cpp): what [save]
    writes of a control-flow index and how a mutable [load] rebuilds it.

    The interner table is length-prefixed, the set tables are written in table order, the
    live contexts sorted by call site.  The lookup arrays behind them are for the mapped
    form (MappedControlFlow.v); a mutable load steps over them.

    Reading a saved control-flow section back: what a record must satisfy to be read, and
    that a mutable load reads what [save] wrote. *)

From S2P Require Import Prelude Registrations Utf8 StringInterner CallGraph ControlFlowIndex Codec SnapshotGraph CountingSort.

(** * Writing *)

(** The table with its byte length in front, patched in once it is known. *)
Definition emitStringTable (t : StringInterner) : bytes :=
  let table := emitInternerTable t in putU32 (size32 table) ++ table.

(** [data.size() - entriesStart] before each entry. *)
Definition string_offsets (t : StringInterner) : list N :=
  fst (forEachString t (fun '(offsets, size) s => (offsets ++ [u32 size], size + N.of_nat (length (putLenStr s)))%N) ([], 0%N)).

Definition emitHandler (h : CatchHandlerInfo) : bytes :=
  putLenStr (caughtType h) ++ put_bool (isCatchAll h) ++ put_bool (rethrows h) ++
  putLenStr (handlerLocation h) ++ putLenStr (bodySummary h).

Definition emitScope (s : TryCatchScope) : bytes :=
  putLenStr (tryLocation s) ++ putLenStr (enclosingFunction s) ++ putU32 (nestingDepth s) ++
  put_list emitHandler (handlers s).

(** A guard, as this section and the channels section write it. *)
Definition emitGuard (g : ConditionalGuard) : bytes :=
  putLenStr (conditionText g) ++ putLenStr (guardLocation g) ++ put_bool (inTrueBranch g) ++ put_bool (isAssertion g).

Definition emitRaii (l : StoredRaiiLocal) : bytes :=
  putU32 (sr_typeName l) ++ putU32 (sr_varName l) ++ putU32 (sr_declLocation l) ++ putU8 (raii_code (sr_kind l)).

Definition noexcept_code (s : NoexceptSpec) : N :=
  match s with NoSpec => 0 | Noexcept => 1 | NoexceptFalse => 2 | ThrowNone => 3 | UnknownSpec => 4 end.

Definition emitContext (se : StoredContext) : bytes :=
  putU32 (sc_caller se) ++ putU32 (sc_callee se) ++ putU32 (sc_callerDisplay se) ++ putU32 (sc_calleeDisplay se) ++
  putU32 (sc_site se) ++ putU32 (sc_tuPath se) ++ putU32 (sc_scopeSet se) ++ putU32 (sc_guardSet se) ++
  putU32 (sc_raiiSet se) ++ putU8 (noexcept_code (sc_callerNoexcept se)) ++ put_bool (sc_insideCatchBlock se).

(** A field of the context at a position, as a key of the counting sort. *)
Definition key_at (l : list StoredContext) (field : StoredContext -> SId) (i : nat) : nat :=
  match l !! i with Some se => N.to_nat (field se) | None => 0 end.

(** [live]: the positions of the live contexts. *)
Definition live_positions (x : ControlFlowIndex) : list nat :=
  filter (holds_at (fun se => sc_live se = true) (contexts_ x)) (seq 0 (length (contexts_ x))).

(** The live contexts by call site ([recordAt(p)] is the [p]-th). *)
Definition site_order (x : ControlFlowIndex) : list nat :=
  orderBy (table_size (cf_interner_ x)) (key_at (contexts_ x) sc_site) (live_positions x).

Definition saved_contexts (x : ControlFlowIndex) : list StoredContext :=
  omap (fun i => contexts_ x !! i) (site_order x).

(** The positions of the records ordered by a field, and of those a test selects. *)
Definition positions_by (ids : nat) (recs : list StoredContext) (field : StoredContext -> SId) : list nat :=
  orderBy ids (key_at recs field) (seq 0 (length recs)).

Definition displayOrder (ids : nat) (recs : list StoredContext) (usr display : StoredContext -> SId) : list nat :=
  orderBy ids (key_at recs display)
    (filter (holds_at (fun se => display se <> usr se) recs) (seq 0 (length recs))).

(** [*strings\[a\] < *strings\[b\]], as the order of [std::sort]; strings are distinct. *)
Definition string_le (t : StringInterner) (a b : N) : Prop := bytes_le (resolve t a) (resolve t b).

#[global] Instance string_le_dec t : RelDecision (string_le t).
Proof. intros a b. unfold string_le. apply _. Defined.

Definition sorted_ids (t : StringInterner) : list N :=
  merge_sort (string_le t) (N.of_nat <$> seq 0 (table_size t)).

Definition put_positions (l : list nat) : bytes := l ≫= fun p => putU32 (u32 (N.of_nat p)).

(** The lookup arrays of a mapped load. *)
Definition emitLookups (t : StringInterner) (recs : list StoredContext) : bytes :=
  let ids := table_size t in
  let callerDisplays := displayOrder ids recs sc_caller sc_callerDisplay in
  let calleeDisplays := displayOrder ids recs sc_callee sc_calleeDisplay in
  (string_offsets t ≫= putU32) ++ (sorted_ids t ≫= putU32) ++
  put_positions (positions_by ids recs sc_caller) ++ put_positions (positions_by ids recs sc_callee) ++
  putU32 (size32 callerDisplays) ++ put_positions callerDisplays ++
  putU32 (size32 calleeDisplays) ++ put_positions calleeDisplays.

Definition emitControlFlow (x : ControlFlowIndex) : bytes :=
  emitStringTable (cf_interner_ x) ++
  put_list (put_list emitScope) (scopeSets_ x) ++ put_list (put_list emitGuard) (guardSets_ x) ++
  put_list (put_list emitRaii) (raiiSets_ x) ++
  put_list emitContext (saved_contexts x) ++ emitLookups (cf_interner_ x) (saved_contexts x).

(** * Reading *)

Section Read.
(** [llvm::json::isUTF8], as in Utf8.v, and the casts of a byte to an enumeration. *)
Variable isValidUtf8 : bytes -> bool.
Variable cast_raii : N -> RaiiKind.
Variable cast_noexcept : N -> NoexceptSpec.

Definition readHandler : M CatchHandlerInfo :=
  caughtType <-- r_text isValidUtf8;;
  isCatchAll <-- r_bool;;
  rethrows <-- r_bool;;
  location <-- r_text isValidUtf8;;
  bodySummary <-- r_text isValidUtf8;;
  ret (MkHandler caughtType isCatchAll location bodySummary rethrows).

Definition readScope : M TryCatchScope :=
  tryLocation <-- r_text isValidUtf8;;
  enclosingFunction <-- r_text isValidUtf8;;
  nestingDepth <-- r_u32;;
  handlers <-- r_list readHandler;;
  ret (MkScope tryLocation enclosingFunction handlers nestingDepth).

Definition readGuard : M ConditionalGuard :=
  conditionText <-- r_text isValidUtf8;;
  location <-- r_text isValidUtf8;;
  inTrueBranch <-- r_bool;;
  isAssertion <-- r_bool;;
  ret (MkGuard conditionText location inTrueBranch isAssertion).

Definition readRaii (internedCount : N) : M StoredRaiiLocal :=
  typeName <-- gid internedCount;;
  varName <-- gid internedCount;;
  declLocation <-- gid internedCount;;
  kind <-- r_u8;;
  ret (MkStoredRaii typeName varName declLocation (cast_raii kind)).

(** The three set tables; the empty set must be the first of each. *)
Record SetTables := MkTables {
  tb_scopes : list (list TryCatchScope);
  tb_guards : list (list ConditionalGuard);
  tb_raiis : list (list StoredRaiiLocal)
}.

Definition seeded {A} (sets : list (list A)) : bool := match sets with [] :: _ => true | _ => false end.

Definition readSetTables (internedCount : N) : M SetTables :=
  scopes <-- r_list (r_list readScope);;
  guards <-- r_list (r_list readGuard);;
  raiis <-- r_list (r_list (readRaii internedCount));;
  _ <-- (if seeded scopes && seeded guards && seeded raiis then ret tt else fail_reader);;
  ret (MkTables scopes guards raiis).

(** The interner table of a mutable load: [stringCount] is read twice, once in front of
    the strings; the table must end where its length says. *)
Definition readStringTable : M (StringInterner * N) := fun r =>
  let '(tableBytes, r1) := r_u32 r in
  let tableStart := rest r1 in
  let '(stringCount, r2) := r_u32 r1 in
  let fine := ok r2 && negb ((tableBytes <? 4)%N || (N.of_nat (length tableStart) <? tableBytes)%N) in
  let '(t, r3) := readInternerTable isValidUtf8 (MkReader tableStart fine) in
  ((t, stringCount),
   MkReader (rest r3) (ok r3 && (N.of_nat (length tableStart) =? N.of_nat (length (rest r3)) + tableBytes)%N)).

(** [cf.setIds_.emplace(key(cf.sets_\[i\]), i)] for every set but the first. *)
Definition rebuild_ids {A} (key : list A -> bytes) (sets : list (list A)) : gmap bytes N :=
  foldl (fun m p => map_emplace (key p.2) (N.of_nat p.1) m) ∅ (zip (seq 1 (length (tail sets))) (tail sets)).

(** The index before its contexts are read: strings and set tables. *)
Definition index_of_tables (t : StringInterner) (s : SetTables) : ControlFlowIndex :=
  MkCFIndex t [] (tb_scopes s) (tb_guards s) (tb_raiis s)
    (rebuild_ids scopeSetKey (tb_scopes s)) (rebuild_ids guardSetKey (tb_guards s)) (rebuild_ids raiiSetKey (tb_raiis s))
    ∅ ∅ ∅ ∅ ∅ ∅ [] 0.

Definition load_context (internedCount : N) (x : ControlFlowIndex) : M ControlFlowIndex :=
  caller <-- gid internedCount;;
  callee <-- gid internedCount;;
  callerDisplay <-- gid internedCount;;
  calleeDisplay <-- gid internedCount;;
  site <-- gid internedCount;;
  tuPath <-- r_u32;;
  _ <-- (if negb (tuPath =? kNoString)%N && (internedCount <=? tuPath)%N then fail_reader else ret tt);;
  scopeSet <-- r_u32;;
  guardSet <-- r_u32;;
  raiiSet <-- r_u32;;
  noexceptSpec <-- r_u8;;
  insideCatch <-- r_bool;;
  _ <-- (if (N.of_nat (length (scopeSets_ x)) <=? scopeSet)%N || (N.of_nat (length (guardSets_ x)) <=? guardSet)%N ||
            (N.of_nat (length (raiiSets_ x)) <=? raiiSet)%N then fail_reader else ret tt);;
  when_ok x (ret (insertStored
    (MkStoredContext caller callee callerDisplay calleeDisplay site tuPath scopeSet guardSet raiiSet
       (cast_noexcept noexceptSpec) insideCatch true) true x)).

(** [skipU32s(n)]. *)
Definition skipU32s (n : N) : M unit := fun r =>
  if ok r && (N.of_nat (length (rest r)) <? n * 4)%N then (tt, MkReader (rest r) false)
  else if ok r then (tt, MkReader (drop (N.to_nat (n * 4)) (rest r)) true) else (tt, r).

Definition read_control_flow : M ControlFlowIndex :=
  table <-- readStringTable;;
  let '(t, stringCount) := table in
  sets <-- readSetTables stringCount;;
  ctxCount <-- r_count;;
  x <-- loop (N.to_nat ctxCount) (load_context stringCount) (index_of_tables t sets);;
  _ <-- skipU32s (2 * stringCount);;
  _ <-- skipU32s (2 * ctxCount);;
  callerDisplays <-- r_count;;
  _ <-- skipU32s callerDisplays;;
  calleeDisplays <-- r_count;;
  _ <-- skipU32s calleeDisplays;;
  ret x.

(** The control-flow section of a mutable [load]. *)
Definition loadControlFlow (data : bytes) : option ControlFlowIndex := section_done read_control_flow data.
End Read.

(** * Reading records back *)

Section Decode.
Variable isValidUtf8 : bytes -> bool.
Variable cast_raii : N -> RaiiKind.
Variable cast_noexcept : N -> NoexceptSpec.
Hypothesis cast_raii_code : forall k, cast_raii (raii_code k) = k.
Hypothesis cast_noexcept_code : forall s, cast_noexcept (noexcept_code s) = s.

Abbreviation fits := (text_fits isValidUtf8).

Definition list_fits {A} (P : A -> Prop) (l : list A) : Prop := len_fits l /\ Forall P l.

Definition handler_fits (h : CatchHandlerInfo) : Prop :=
  fits (caughtType h) /\ fits (handlerLocation h) /\ fits (bodySummary h).

Definition scope_fits (s : TryCatchScope) : Prop :=
  fits (tryLocation s) /\ fits (enclosingFunction s) /\ u32_fits (nestingDepth s) /\ list_fits handler_fits (handlers s).

Definition guard_fits (g : ConditionalGuard) : Prop := fits (conditionText g) /\ fits (guardLocation g).

Definition raii_fits (t : StringInterner) (l : StoredRaiiLocal) : Prop :=
  id_fits t (sr_typeName l) /\ id_fits t (sr_varName l) /\ id_fits t (sr_declLocation l).

(** A list of records read back, each with at least one byte. *)
Lemma reads_all {A} (m : M A) (enc : A -> bytes) (P : A -> Prop) l :
  (forall a, P a -> reads m (enc a) a) -> (forall a, 1 <= length (enc a)) -> list_fits P l -> reads (r_list m) (put_list enc l) l.
Proof.
  intros Hr Hlen [Hl HP]. apply reads_list; [done|]. intros a Ha. split; [|done]. apply Hr. by eapply Forall_forall in HP.
Qed.

Lemma length_put_list {A} (enc : A -> bytes) l : 1 <= length (put_list enc l).
Proof. unfold put_list. rewrite length_app, length_putU32. lia. Qed.

Lemma length_put_first s e : 1 <= length (putLenStr s ++ e).
Proof. rewrite length_app. pose proof (length_putLenStr s). lia. Qed.

Lemma reads_handler h : handler_fits h -> reads (readHandler isValidUtf8) (emitHandler h) h.
Proof.
  intros ([] & [] & []). unfold readHandler, emitHandler.
  eapply reads_bind; [by apply reads_text|]. do 2 (eapply reads_bind; [apply reads_bool|]).
  eapply reads_bind; [by apply reads_text|]. eapply reads_bind_last; [by apply reads_text|]. by destruct h.
Qed.

Lemma reads_scope s : scope_fits s -> reads (readScope isValidUtf8) (emitScope s) s.
Proof.
  intros ([] & [] & ? & Hh). unfold readScope, emitScope.
  do 2 (eapply reads_bind; [by apply reads_text|]). eapply reads_bind; [by apply reads_u32|].
  apply (reads_bind_last _ _ _ (handlers s)); [|by destruct s].
  apply (reads_all _ _ handler_fits); [apply reads_handler|intros; apply length_put_first|done].
Qed.

Lemma reads_guard g : guard_fits g -> reads (readGuard isValidUtf8) (emitGuard g) g.
Proof.
  intros [[] []]. unfold readGuard, emitGuard.
  do 2 (eapply reads_bind; [by apply reads_text|]). eapply reads_bind; [apply reads_bool|].
  eapply reads_bind_last; [apply reads_bool|]. by destruct g.
Qed.

Lemma length_emitGuard g : 1 <= length (emitGuard g).
Proof. apply length_put_first. Qed.

Section Table.
Variable t : StringInterner.
Hypothesis Ht : (N.of_nat (table_size t) < two32)%N.

Abbreviation count := (u32 (N.of_nat (table_size t))).

Lemma reads_raii l : raii_fits t l -> reads (readRaii cast_raii count) (emitRaii l) l.
Proof.
  intros (H1 & H2 & H3). unfold readRaii, emitRaii. do 3 (eapply reads_bind; [by apply reads_gid|]).
  eapply reads_bind_last; [apply reads_u8; by destruct (sr_kind l)|]. rewrite cast_raii_code. by destruct l.
Qed.

Record tables_fit (s : SetTables) : Prop := {
  tf_scopes : list_fits (list_fits scope_fits) (tb_scopes s);
  tf_guards : list_fits (list_fits guard_fits) (tb_guards s);
  tf_raiis : list_fits (list_fits (raii_fits t)) (tb_raiis s);
  tf_seeded : seeded (tb_scopes s) && seeded (tb_guards s) && seeded (tb_raiis s) = true
}.

Definition emitSets (s : SetTables) : bytes :=
  put_list (put_list emitScope) (tb_scopes s) ++ put_list (put_list emitGuard) (tb_guards s) ++
  put_list (put_list emitRaii) (tb_raiis s).

Lemma reads_tables s : tables_fit s -> reads (readSetTables isValidUtf8 cast_raii count) (emitSets s) s.
Proof.
  intros [H1 H2 H3 H4]. unfold readSetTables, emitSets.
  eapply reads_bind.
  { apply (reads_all _ _ (list_fits scope_fits)); [|intros; apply length_put_list|done].
    intros l. apply (reads_all _ _ scope_fits); [apply reads_scope|intros; apply length_put_first]. }
  eapply reads_bind.
  { apply (reads_all _ _ (list_fits guard_fits)); [|intros; apply length_put_list|done].
    intros l. apply (reads_all _ _ guard_fits); [apply reads_guard|apply length_emitGuard]. }
  eapply reads_bind_last.
  { apply (reads_all _ _ (list_fits (raii_fits t))); [|intros; apply length_put_list|done].
    intros l. apply (reads_all _ _ (raii_fits t)); [apply reads_raii|].
    intros a. unfold emitRaii. rewrite length_app, length_putU32. lia. }
  rewrite H4. eapply reads_bind_check; [apply reads_ret|]. by destruct s.
Qed.

(** ** Contexts *)

Record context_saved (s : SetTables) (se : StoredContext) : Prop := {
  cv_ids : Forall (id_fits t) [sc_caller se; sc_callee se; sc_callerDisplay se; sc_calleeDisplay se; sc_site se];
  cv_tu : sc_tuPath se = kNoString \/ id_fits t (sc_tuPath se);
  cv_scope : N.to_nat (sc_scopeSet se) < length (tb_scopes s);
  cv_guard : N.to_nat (sc_guardSet se) < length (tb_guards s);
  cv_raii : N.to_nat (sc_raiiSet se) < length (tb_raiis s);
  cv_live : sc_live se = true
}.

Definition tables_of (x : ControlFlowIndex) : SetTables := MkTables (scopeSets_ x) (guardSets_ x) (raiiSets_ x).

Lemma reads_context s se x :
  tables_fit s -> context_saved s se -> tables_of x = s ->
  reads (load_context cast_noexcept count x) (emitContext se) (insertStored se true x).
Proof.
  intros [[F1 _] [F2 _] [F3 _] _] [Hids Htu H1 H2 H3 Hl] Hs. rewrite !Forall_cons in Hids. destruct Hids as (? & ? & ? & ? & ? & _).
  assert (S1 : scopeSets_ x = tb_scopes s) by (by subst s). assert (S2 : guardSets_ x = tb_guards s) by (by subst s).
  assert (S3 : raiiSets_ x = tb_raiis s) by (by subst s). unfold len_fits in *.
  unfold load_context, emitContext. rewrite S1, S2, S3.
  do 5 (eapply reads_bind; [by apply reads_gid|]).
  eapply reads_bind; [apply reads_u32; unfold u32_fits, id_fits, kNoString in *; lia|].
  eapply reads_bind_check.
  { destruct (N.eqb_spec (sc_tuPath se) kNoString) as [E|E]; [apply reads_ret|]. rewrite u32_small by done.
    destruct (N.leb_spec (N.of_nat (table_size t)) (sc_tuPath se)); [unfold id_fits in Htu; naive_solver lia|apply reads_ret]. }
  do 3 (eapply reads_bind; [apply reads_u32; unfold u32_fits; lia|]).
  eapply reads_bind; [apply reads_u8; by destruct (sc_callerNoexcept se)|].
  eapply reads_bind_last; [apply reads_bool|].
  eapply reads_bind_check.
  { destruct (N.leb_spec (N.of_nat (length (tb_scopes s))) (sc_scopeSet se)); [lia|].
    destruct (N.leb_spec (N.of_nat (length (tb_guards s))) (sc_guardSet se)); [lia|].
    destruct (N.leb_spec (N.of_nat (length (tb_raiis s))) (sc_raiiSet se)); [lia|apply reads_ret]. }
  apply reads_when_ok. rewrite cast_noexcept_code, <- Hl. by destruct se.
Qed.

Definition install_context (x : ControlFlowIndex) (se : StoredContext) : ControlFlowIndex := insertStored se true x.

Lemma length_emitContext se : length (emitContext se) = 38.
Proof. unfold emitContext, put_bool, putU8. rewrite !length_app, !length_putU32, !length_put_le. done. Qed.

Lemma reads_contexts {B} s recs x (k : N -> ControlFlowIndex -> M B) e b :
  tables_fit s -> Forall (context_saved s) recs -> tables_of x = s -> len_fits recs ->
  reads (k (N.of_nat (length recs)) (foldl install_context x recs)) e b ->
  reads (n <-- r_count;; (y <-- loop (N.to_nat n) (load_context cast_noexcept count) x;; k n y)) (put_list emitContext recs ++ e) b.
Proof.
  intros Hs Hr Hx Hl Hk. unfold put_list. rewrite <- (assoc_L (++)).
  assert (Hloop : reads (loop (length recs) (load_context cast_noexcept count) x) (recs ≫= emitContext) (foldl install_context x recs)).
  { apply (reads_loop _ _ _ (fun y => tables_of y = s)); [done|]. intros y se Hy Hin. split; [|done].
    eapply reads_context; [done| |done]. by eapply Forall_forall in Hr. }
  intros tl. unfold r_count, bind. rewrite size32_fits by done.
  rewrite <- (assoc_L (++) (putU32 _)), (reads_u32 _ Hl). cbn [ok rest andb]. rewrite <- (assoc_L (++)).
  destruct (N.ltb_spec (N.of_nat (length ((recs ≫= emitContext) ++ e ++ tl))) (N.of_nat (length recs))) as [Hlt|_].
  { pose proof (length_concat emitContext recs) as H. rewrite length_app in Hlt.
    specialize (H ltac:(intros; rewrite length_emitContext; lia)). lia. }
  rewrite Nat2N.id, Hloop. apply Hk.
Qed.

(** ** The string table and the lookup arrays *)

Lemma reads_string_table :
  interner_ok t -> table_fits isValidUtf8 t -> len_fits (emitInternerTable t) ->
  reads (readStringTable isValidUtf8) (emitStringTable t) (t, count).
Proof.
  intros Hok Hfit Hlen tl. pose proof (reads_interner isValidUtf8 t Hok Hfit tl) as Hr.
  unfold readStringTable, emitStringTable. rewrite size32_fits by done. rewrite <- (assoc_L (++)), (reads_u32 _ Hlen). cbn [rest].
  assert (Hc : r_u32 (MkReader (emitInternerTable t ++ tl) true) =
               (count, MkReader (forEachString t (fun out s => out ++ putLenStr s) [] ++ tl) true)).
  { unfold emitInternerTable. rewrite <- (assoc_L (++)). apply reads_u32. unfold u32_fits. by rewrite u32_small. }
  assert (H4 : 4 <= length (emitInternerTable t)) by (unfold emitInternerTable; rewrite length_app, length_putU32; lia).
  rewrite Hc. cbn [ok andb]. rewrite length_app.
  destruct (N.ltb_spec (N.of_nat (length (emitInternerTable t))) 4); [lia|].
  destruct (N.ltb_spec (N.of_nat (length (emitInternerTable t) + length tl)) (N.of_nat (length (emitInternerTable t)))); [lia|].
  cbn [orb negb]. rewrite Hr. cbn [rest ok andb].
  destruct (N.eqb_spec (N.of_nat (length (emitInternerTable t) + length tl)) (N.of_nat (length tl) + N.of_nat (length (emitInternerTable t)))); [done|lia].
Qed.

End Table.

Lemma reads_skip n enc : N.of_nat (length enc) = (n * 4)%N -> reads (skipU32s n) enc tt.
Proof.
  intros Hn tl. unfold skipU32s. cbn [ok rest andb]. rewrite length_app.
  destruct (N.ltb_spec (N.of_nat (length enc + length tl)) (n * 4)); [lia|].
  rewrite <- Hn, Nat2N.id. by rewrite drop_app_length.
Qed.

Lemma length_put_u32s l : length (l ≫= putU32) = 4 * length l.
Proof. induction l as [|v l IH]; [done|]. rewrite bind_cons, length_app, IH, length_putU32. cbn [length]. lia. Qed.

Lemma length_put_positions l : length (put_positions l) = 4 * length l.
Proof.
  unfold put_positions. induction l as [|v l IH]; [done|]. rewrite bind_cons, length_app, IH, length_putU32. cbn [length]. lia.
Qed.

Lemma reads_counted_positions {B} (k : M B) l e b :
  len_fits l -> reads k e b ->
  reads (n <-- r_count;; (_ <-- skipU32s n;; k)) (putU32 (size32 l) ++ put_positions l ++ e) b.
Proof.
  intros Hl Hk tl. unfold r_count, bind. rewrite <- (assoc_L (++)), size32_fits, (reads_u32 _ Hl) by done. cbn [ok rest andb].
  rewrite length_app, (length_app (put_positions l)), length_put_positions.
  destruct (N.ltb_spec (N.of_nat (4 * length l + length e + length tl)) (N.of_nat (length l))); [lia|].
  rewrite <- (assoc_L (++)), reads_skip by (rewrite length_put_positions; lia). apply Hk.
Qed.
Lemma length_string_offsets t : length (string_offsets t) = table_size t.
Proof.
  unfold string_offsets, forEachString, table_size.
  assert (H : forall ss offs n, length (fst (foldl (fun '(offsets, size) s => (offsets ++ [u32 size], size + N.of_nat (length (putLenStr s))))%N (offs, n) ss)) = length offs + length ss).
  { induction ss as [|s ss IH]; intros offs n; cbn [foldl length]; [cbn; lia|]. rewrite IH, length_app. cbn. lia. }
  apply H.
Qed.

Lemma length_sorted_ids t : length (sorted_ids t) = table_size t.
Proof. unfold sorted_ids. by rewrite (Permutation_length (merge_sort_Permutation _ _)), length_fmap, length_seq. Qed.

Lemma length_displayOrder ids recs usr display : length (displayOrder ids recs usr display) <= length recs.
Proof. unfold displayOrder. rewrite length_orderBy. etrans; [apply length_filter|]. by rewrite length_seq. Qed.

(** ** The section *)

Lemma reads_control_flow t s recs :
  interner_ok t -> table_fits isValidUtf8 t -> len_fits (emitInternerTable t) -> tables_fit t s ->
  Forall (context_saved t s) recs -> len_fits recs ->
  reads (read_control_flow isValidUtf8 cast_raii cast_noexcept)
    (emitStringTable t ++ emitSets s ++ put_list emitContext recs ++ emitLookups t recs)
    (foldl install_context (index_of_tables t s) recs).
Proof.
  intros Hok Hfit Hlen Hs Hr Hl. pose proof (proj1 Hfit) as Ht. unfold read_control_flow.
  eapply reads_bind; [by apply reads_string_table|]. eapply reads_bind; [by apply reads_tables|].
  eapply (reads_contexts t Ht s recs); [done|done|by destruct s|done|]. unfold emitLookups.
  assert (Hn : forall usr display, len_fits (displayOrder (table_size t) recs usr display)).
  { intros usr display. unfold len_fits in *. pose proof (length_displayOrder (table_size t) recs usr display). lia. }
  rewrite (assoc_L (++) (string_offsets t ≫= putU32)). eapply reads_bind.
  { apply reads_skip. rewrite length_app, !length_put_u32s, length_string_offsets, length_sorted_ids, u32_small by done. lia. }
  rewrite (assoc_L (++) (put_positions _)). eapply reads_bind.
  { apply reads_skip. unfold positions_by. rewrite length_app, !length_put_positions, !length_orderBy, length_seq. lia. }
  apply reads_counted_positions; [done|]. rewrite <- (app_nil_r (put_positions _)).
  apply reads_counted_positions; [done|apply reads_ret].
Qed.

(** ** Truncation *)

#[global] Instance skip_decoder n : Decoder (skipU32s n).
Proof.
  split; unfold skipU32s.
  - intros r Hr. by rewrite Hr.
  - intros b [] tl; cbn [ok rest andb]; [|done]. rewrite length_app.
    destruct (N.ltb_spec (N.of_nat (length b)) (n * 4)); [done|]. intros _.
    destruct (N.ltb_spec (N.of_nat (length b + length tl)) (n * 4)); [lia|]. cbn. by rewrite drop_app_le by lia.
Qed.

#[global] Instance string_table_decoder : Decoder (readStringTable isValidUtf8).
Proof.
  split; unfold readStringTable.
  - intros r Hr. destruct (r_u32 r) as [n r1] eqn:E1. destruct (r_u32 r1) as [c r2] eqn:E2.
    assert (H1 : ok r1 = false) by (pose proof (decoder_sticky (m := r_u32) r Hr) as H; by rewrite E1 in H).
    assert (H2 : ok r2 = false) by (pose proof (decoder_sticky (m := r_u32) r1 H1) as H; by rewrite E2 in H).
    rewrite H2. cbn [andb]. pose proof (decoder_sticky (m := readInternerTable isValidUtf8) (MkReader (rest r1) false) eq_refl) as H.
    destruct (readInternerTable _ _) as [t r3]. cbn [snd ok] in *. by rewrite H.
  - intros b o tl. destruct (r_u32 (MkReader b o)) as [n [b1 o1]] eqn:E1. destruct (r_u32 (MkReader b1 o1)) as [c [b2 o2]] eqn:E2.
    cbn [rest ok]. set (fine := o2 && _). destruct (readInternerTable isValidUtf8 (MkReader b1 fine)) as [t [b3 o3]] eqn:E3.
    cbn [snd fst ok rest]. intros [Ho Hlen]%andb_true_iff. subst o3. apply N.eqb_eq in Hlen.
    assert (Hfine : fine = true).
    { destruct fine eqn:Ef; [done|]. pose proof (decoder_sticky (m := readInternerTable isValidUtf8) (MkReader b1 false) eq_refl) as H. by rewrite E3 in H. }
    unfold fine in Hfine. apply andb_true_iff in Hfine as [-> Hn].
    assert (Ho1 : o1 = true).
    { destruct o1; [done|]. pose proof (decoder_sticky (m := r_u32) (MkReader b1 false) eq_refl) as H. by rewrite E2 in H. }
    subst o1. pose proof (decoder_stable (m := r_u32) b o tl) as S1. rewrite E1 in S1. rewrite (S1 eq_refl). cbn [fst snd rest].
    pose proof (decoder_stable (m := r_u32) b1 true tl) as S2. rewrite E2 in S2. rewrite (S2 eq_refl). cbn [fst snd ok rest andb].
    apply negb_true_iff, orb_false_iff in Hn as [Hn1 Hn2]. rewrite Hn1. apply N.ltb_ge in Hn2. rewrite length_app.
    destruct (N.ltb_spec (N.of_nat (length b1 + length tl)) n); [lia|]. cbn [orb negb].
    pose proof (decoder_stable (m := readInternerTable isValidUtf8) b1 true tl) as S3.
    replace fine with true in E3 by (unfold fine; rewrite Hn1; destruct (N.ltb_spec (N.of_nat (length b1)) n); [lia|done]).
    rewrite E3 in S3. rewrite (S3 eq_refl). cbn [fst snd ok rest andb]. f_equal. f_equal. rewrite length_app. apply N.eqb_eq. lia.
Qed.

#[global] Instance read_control_flow_decoder : Decoder (read_control_flow isValidUtf8 cast_raii cast_noexcept).
Proof.
  unfold read_control_flow. apply bind_decoder; [apply _|]. intros [t c].
  unfold readSetTables, readScope, readHandler, readGuard, readRaii, load_context, gid. apply _.
Qed.
End Decode.
