(* ===== verification/SnapshotControlFlowRoundtrip.v ===== *)
(** Saving a control-flow index and loading it for changes: the loaded index holds the same
    contexts, ordered by call site, over the same strings and set tables. *)

From S2P Require Import Prelude Registrations Utf8 StringInterner CallGraph CallGraphInv ControlFlowIndex ControlFlowInv ControlFlowQuery Codec SnapshotGraph SnapshotGraphRoundtrip CountingSort SnapshotControlFlow.

(** * The set ids *)

Lemma map_emplace_all (l : list (bytes * N)) (m : gmap bytes N) :
  NoDup l.*1 -> (forall k, k ∈ l.*1 -> m !! k = None) ->
  forall k v, foldl (fun m p => map_emplace p.1 p.2 m) m l !! k = Some v <-> (k, v) ∈ l \/ m !! k = Some v.
Proof.
  revert m. induction l as [|[k0 v0] l IH]; intros m Hnd Hm k v; cbn [foldl fst snd].
  { rewrite elem_of_nil. tauto. }
  cbn [fmap list_fmap] in Hnd. apply NoDup_cons in Hnd as [Hnew Hnd].
  assert (H0 : m !! k0 = None) by (apply Hm; left). unfold map_emplace at 2. rewrite H0. rewrite IH; [|done|].
  - rewrite lookup_insert, elem_of_cons. case_decide as E; [subst k0|naive_solver]. split.
    + intros [?|[= ->]]; auto.
    + intros [[[= ->]|?]|?]; [by right|by left|congruence].
  - intros k' Hk'. rewrite lookup_insert_ne by (by intros ->). apply Hm. by right.
Qed.

Lemma rebuilt_ids {A} (key : list A -> bytes) (good : list A -> Prop) sets ids :
  table_ok key good sets ids -> rebuild_ids key sets = ids.
Proof.
  intros [T1 T2 T3 T4 T5]. destruct sets as [|s0 sets]; [done|]. injection T1 as ->.
  set (l := (fun p => (key p.2, N.of_nat p.1)) <$> zip (seq 1 (length sets)) sets).
  assert (E : rebuild_ids key ([] :: sets) = foldl (fun m p => map_emplace p.1 p.2 m) ∅ l).
  { unfold rebuild_ids, l. cbn [tail]. generalize (∅ : gmap bytes N). generalize (zip (seq 1 (length sets)) sets).
    induction l0 as [|p l0 IH]; intros m; [done|]. cbn [foldl fmap list_fmap]. apply IH. }
  assert (Hl : forall k v, (k, v) ∈ l <-> exists s, ([] :: sets) !! N.to_nat v = Some s /\ s <> [] /\ key s = k).
  { intros k v. unfold l. rewrite list_elem_of_fmap. split.
    - intros ([i s] & [= -> ->] & [j Hj]%list_elem_of_lookup). apply lookup_zip_with_Some in Hj as (i' & s' & [= -> ->] & Hi & Hs).
      apply lookup_seq in Hi as [-> _]. exists s'. rewrite Nat2N.id. cbn. split_and!; [done| |done].
      intros ->. specialize (T2 (S j) Hs). lia.
    - intros (s & Hs & Hne & <-). destruct (N.to_nat v) as [|j] eqn:Ev; [by injection Hs as <-|]. cbn in Hs.
      exists (S j, s). split; [cbn; f_equal; lia|]. apply list_elem_of_lookup. exists j. apply lookup_zip_with_Some.
      exists (S j), s. split_and!; [done| |done]. apply lookup_seq. apply lookup_lt_Some in Hs. lia. }
  assert (Hkeys : NoDup l.*1).
  { apply NoDup_alt. intros i j k Hi Hj. rewrite list_lookup_fmap, fmap_Some in Hi, Hj.
    destruct Hi as ([k1 v1] & Hi & ->), Hj as ([k2 v2] & Hj & E2). cbn in E2. subst k2.
    assert (v1 = v2) as ->.
    { pose proof (list_elem_of_lookup_2 _ _ _ Hi) as Hi'. pose proof (list_elem_of_lookup_2 _ _ _ Hj) as Hj'.
      apply Hl, T4 in Hi'. apply Hl, T4 in Hj'. congruence. }
    unfold l in Hi, Hj. rewrite list_lookup_fmap, fmap_Some in Hi, Hj.
    destruct Hi as ([a s] & Hi & [= _ Ea]), Hj as ([b s'] & Hj & [= _ Eb]).
    apply lookup_zip_with_Some in Hi as (? & ? & [= <- _] & Hi & _). apply lookup_zip_with_Some in Hj as (? & ? & [= <- _] & Hj & _).
    apply lookup_seq in Hi as [-> _], Hj as [-> _]. lia. }
  rewrite E. apply map_eq. intros k. apply option_eq. intros v.
  rewrite map_emplace_all, lookup_empty by (done || (intros; apply lookup_empty)). rewrite T4, <- Hl. naive_solver.
Qed.

(** * The order of the saved contexts *)

Lemma omap_bind_eq {A B C} (f : B -> option C) (g : A -> list B) l : omap f (l ≫= g) = l ≫= fun a => omap f (g a).
Proof. induction l as [|a l IH]; [done|]. by rewrite !bind_cons, omap_app, IH. Qed.

#[global] Instance omap_perm {A B} (f : A -> option B) : Proper ((≡ₚ) ==> (≡ₚ)) (omap f).
Proof.
  induction 1 as [|a l k _ IH|a b l|l k j _ IH1 _ IH2]; [done| | |by etrans].
  - rewrite !omap_cons_eq. destruct (f a); by rewrite IH.
  - rewrite !omap_cons_eq. destruct (f a), (f b); try done. apply Permutation_swap.
Qed.

(** Reading a filtered list of positions of a table. *)
Lemma omap_filter_positions {E} (P Q : E -> Prop) `{HP : !forall e, Decision (P e)} `{HQ : !forall e, Decision (Q e)}
    (K : nat -> Prop) `{HK : !forall i, Decision (K i)} (l : list E) :
  (forall i e, l !! i = Some e -> P e -> K i <-> Q e) ->
  omap (fun i => l !! i) (filter K (filter (holds_at P l) (seq 0 (length l)))) = filter Q (filter P l).
Proof.
  intros H. rewrite !list_filter_filter. rewrite <- (omap_positions (fun a => Q a /\ P a)). f_equal. apply list_filter_iff. intros i.
  unfold holds_at. destruct (l !! i) as [e|] eqn:E1; [|tauto]. specialize (H i e E1). tauto.
Qed.

Section Saved.
Variable x : ControlFlowIndex.
Hypothesis Hx : cf_ok x.

Abbreviation ids := (table_size (cf_interner_ x)).

Lemma live_position_key i : i ∈ live_positions x ->
  exists se, contexts_ x !! i = Some se /\ sc_live se = true /\ stored_ok x se /\ key_at (contexts_ x) sc_site i < ids.
Proof.
  intros [Hl _]%list_elem_of_filter. unfold holds_at in Hl. unfold key_at. destruct (contexts_ x !! i) as [se|] eqn:E; [|done].
  pose proof (proj1 (Forall_forall _ _) (cf_stored _ Hx) se (list_elem_of_lookup_2 _ _ _ E)) as Hse.
  exists se. split_and!; [done|done|done|]. pose proof (so_site _ _ Hse) as Hk%known_fits. unfold id_fits in Hk. lia.
Qed.

Lemma site_order_grouped : site_order x = grouped (key_at (contexts_ x) sc_site) (live_positions x) ids.
Proof. apply orderBy_grouped. intros i (se & _ & _ & _ & H)%live_position_key. done. Qed.

Lemma live_positions_contexts : omap (fun i => contexts_ x !! i) (live_positions x) = live_contexts x.
Proof. apply omap_positions. Qed.

Lemma saved_perm : saved_contexts x ≡ₚ live_contexts x.
Proof.
  unfold saved_contexts. rewrite site_order_grouped, <- live_positions_contexts. apply omap_perm, grouped_perm.
  intros i (se & _ & _ & _ & H)%live_position_key. done.
Qed.

Lemma saved_contexts_groups :
  saved_contexts x = seq 0 ids ≫= fun k => filter (fun se => N.to_nat (sc_site se) = k) (live_contexts x).
Proof.
  unfold saved_contexts. rewrite site_order_grouped. unfold grouped. rewrite omap_bind_eq.
  apply list_bind_ext; [|done]. intros k. unfold group, live_contexts, live_positions. apply omap_filter_positions.
  intros i e He _. unfold key_at. by rewrite He.
Qed.

(** Within a site the contexts keep their order. *)
Lemma saved_at_site id :
  filter (fun se => sc_site se = id) (saved_contexts x) = filter (fun se => sc_site se = id) (live_contexts x).
Proof.
  destruct (decide (N.to_nat id < ids)) as [Hid|Hid].
  - unfold saved_contexts. rewrite site_order_grouped.
    pose proof (group_grouped (key_at (contexts_ x) sc_site) (live_positions x) ids (N.to_nat id) Hid) as Hg.
    assert (H : forall l, (forall i, i ∈ l -> i ∈ live_positions x) ->
      filter (fun se => sc_site se = id) (omap (fun i => contexts_ x !! i) l) =
      omap (fun i => contexts_ x !! i) (group (key_at (contexts_ x) sc_site) l (N.to_nat id))).
    { induction l as [|i l IH]; intros Hl; [done|]. destruct (live_position_key i (Hl i ltac:(left))) as (se & Hi & _).
      unfold group in *. rewrite omap_cons_eq, Hi, !filter_cons, IH by (intros; apply Hl; by right).
      unfold key_at. rewrite Hi. destruct (decide (sc_site se = id)), (decide (N.to_nat (sc_site se) = N.to_nat id)); try lia; [|done].
      by rewrite omap_cons_eq, Hi. }
    rewrite H, Hg, <- live_positions_contexts, H; [done|done|].
    intros i Hi. rewrite (grouped_perm _ (live_positions x) ids) in Hi; [done|]. intros j (se & _ & _ & _ & Hj)%live_position_key. done.
  - assert (Hno : forall l, l ≡ₚ live_contexts x -> filter (fun se => sc_site se = id) l = []).
    { intros l Hl. apply elem_of_nil_inv. intros se [Hs Hin]%list_elem_of_filter. rewrite Hl in Hin. apply list_elem_of_filter in Hin as [_ Hin].
      pose proof (proj1 (Forall_forall _ _) (cf_stored _ Hx) se Hin) as Hse. pose proof (so_site _ _ Hse) as Hk%known_fits. unfold id_fits in Hk. subst id. lia. }
    by rewrite !Hno by (done || apply saved_perm).
Qed.

(** The records are sorted by site. *)
Lemma saved_sorted : StronglySorted (fun a b => (sc_site a <= sc_site b)%N) (saved_contexts x).
Proof.
  unfold saved_contexts. rewrite site_order_grouped.
  pose proof (grouped_sorted (key_at (contexts_ x) sc_site) (live_positions x) ids) as Hs.
  induction Hs as [|i l Hs IH Hi]; [constructor|]. rewrite omap_cons_eq. destruct (contexts_ x !! i) as [se|] eqn:E; [|done].
  constructor; [done|]. apply Forall_forall. intros b (j & Hj & Hb)%list_elem_of_omap.
  eapply Forall_forall in Hi; [|done]. unfold key_at in Hi. rewrite E, Hb in Hi. lia.
Qed.

Lemma saved_stored se : se ∈ saved_contexts x -> stored_ok x se /\ sc_live se = true.
Proof.
  rewrite saved_perm. intros [Hl Hin]%list_elem_of_filter. split; [|done]. by eapply Forall_forall in Hin; [|apply Hx].
Qed.
End Saved.

(** * The loaded index *)

(** What the 32-bit counts and the text check ask of an index. *)
Record index_fits (isValidUtf8 : bytes -> bool) (x : ControlFlowIndex) : Prop := {
  if_table : table_fits isValidUtf8 (cf_interner_ x) /\ len_fits (emitInternerTable (cf_interner_ x));
  if_scopes : list_fits (list_fits (scope_fits isValidUtf8)) (scopeSets_ x);
  if_guards : list_fits (list_fits (guard_fits isValidUtf8)) (guardSets_ x);
  if_raiis : list_fits len_fits (raiiSets_ x);
  if_contexts : len_fits (contexts_ x)
}.

(** The strings and set tables of an index. *)
Record same_tables (x y : ControlFlowIndex) : Prop := {
  st_interner : cf_interner_ y = cf_interner_ x;
  st_scopes : scopeSets_ y = scopeSets_ x;
  st_guards : guardSets_ y = guardSets_ x;
  st_raiis : raiiSets_ y = raiiSets_ x
}.

Lemma same_materialize x y : same_tables x y -> cf_materialize y = cf_materialize x.
Proof. intros [H1 H2 H3 H4]. unfold cf_materialize, stringOf. by rewrite H1, H2, H3, H4. Qed.

Lemma same_stored x y se : same_tables x y -> stored_ok x se -> stored_ok y se.
Proof. intros [H1 H2 H3 H4] []. split; unfold stringOf; rewrite ?H1, ?H2, ?H3, ?H4; done. Qed.

(** An index whose contexts are inserted one by one into given tables. *)
Record inserted (x : ControlFlowIndex) (recs : list StoredContext) (y : ControlFlowIndex) : Prop := {
  in_ok : cf_ok y;
  in_fresh : fresh y;
  in_tables : same_tables x y;
  in_ids : scopeSetIds_ y = scopeSetIds_ x /\ guardSetIds_ y = guardSetIds_ x /\ raiiSetIds_ y = raiiSetIds_ x;
  in_contexts : contexts_ y = recs
}.

Section Loaded.
Variable x : ControlFlowIndex.
Hypothesis Hx : cf_ok x.

Abbreviation base := (index_of_tables (cf_interner_ x) (tables_of x)).

Lemma base_inserted : inserted x [] base.
Proof.
  destruct Hx as [H1 H2 H3 H4 H5 H6 _ _].
  assert (E1 := rebuilt_ids _ _ _ _ H3). assert (E2 := rebuilt_ids _ _ _ _ H4). assert (E3 := rebuilt_ids _ _ _ _ H5).
  split; [| |done|done|done].
  - by split; cbn; rewrite ?E1, ?E2, ?E3.
  - intros k. cbn. by rewrite !lookup_empty.
Qed.

Lemma contexts_inserted recs :
  Forall (fun se => stored_ok x se /\ sc_live se = true) recs -> inserted x recs (foldl install_context base recs).
Proof.
  induction recs as [|se recs IH] using rev_ind; [intros _; apply base_inserted|].
  intros [Hrecs Hse]%Forall_app. rewrite Forall_singleton in Hse. destruct Hse as [Hse Hl].
  destruct (IH Hrecs) as [I1 I2 I3 I4 I5]. rewrite foldl_app. cbn [foldl]. unfold install_context at 1.
  split; [|by apply insert_fresh|destruct I3; by split|done|cbn; by rewrite I5].
  apply insert_cf_ok; [done|by eapply same_stored|done].
Qed.

Abbreviation loaded := (foldl install_context base (saved_contexts x)).

Lemma loaded_inserted : inserted x (saved_contexts x) loaded.
Proof. apply contexts_inserted, Forall_forall. intros se Hse. by apply (saved_stored x Hx). Qed.

(** ** It is read from the section *)

Lemma emitControlFlow_records :
  emitControlFlow x = emitStringTable (cf_interner_ x) ++ emitSets (tables_of x) ++
    put_list emitContext (saved_contexts x) ++ emitLookups (cf_interner_ x) (saved_contexts x).
Proof. unfold emitControlFlow, emitSets. by rewrite <- !(assoc_L (++)). Qed.

Lemma seeded_table {A} (key : list A -> bytes) good sets ids : table_ok key good sets ids -> seeded sets = true.
Proof. intros [T _ _ _ _]. destruct sets as [|s sets]; [done|]. by injection T as ->. Qed.

Section Fits.
Variable isValidUtf8 : bytes -> bool.
Hypothesis Hfit : index_fits isValidUtf8 x.

Lemma saved_tables_fit : tables_fit isValidUtf8 (cf_interner_ x) (tables_of x).
Proof.
  destruct Hfit as [_ H1 H2 [H3 H3'] _]. split; [done|done| |].
  - split; [done|]. apply Forall_lookup. intros i s Hs. split; [by eapply Forall_lookup in H3'|].
    eapply Forall_impl; [by eapply (cf_locals _ Hx)|]. intros l (? & ? & ?). split_and!; by apply known_fits.
  - cbn. by rewrite (seeded_table _ _ _ _ (cf_scopes _ Hx)), (seeded_table _ _ _ _ (cf_guards _ Hx)), (seeded_table _ _ _ _ (cf_raiis _ Hx)).
Qed.

Lemma saved_context_fits se : se ∈ saved_contexts x -> context_saved (cf_interner_ x) (tables_of x) se.
Proof.
  intros [[C1 C2 C3 C4 C5 C6 C7 C8 C9] Hl]%(saved_stored x Hx). split; cbn; [| | | | |done].
  - rewrite !Forall_cons. split_and!; try (by apply known_fits). done.
  - destruct C6 as [?|[? _]]; [by left|right; by apply known_fits].
  - by eapply lookup_lt_is_Some.
  - by eapply lookup_lt_is_Some.
  - by eapply lookup_lt_is_Some.
Qed.

Lemma length_saved : length (saved_contexts x) <= length (contexts_ x).
Proof. rewrite (saved_perm x Hx). apply length_filter. Qed.

Lemma control_flow_read cast_raii cast_noexcept :
  (forall k, cast_raii (raii_code k) = k) -> (forall s, cast_noexcept (noexcept_code s) = s) ->
  reads (read_control_flow isValidUtf8 cast_raii cast_noexcept) (emitControlFlow x) loaded.
Proof.
  intros H1 H2. rewrite emitControlFlow_records. destruct (if_table _ _ Hfit) as [T1 T2].
  apply reads_control_flow; [done|done|apply Hx|done|done|apply saved_tables_fit| |].
  - apply Forall_forall. apply saved_context_fits.
  - pose proof length_saved. pose proof (if_contexts _ _ Hfit). unfold len_fits in *. lia.
Qed.
End Fits.

(** ** It answers alike *)

Lemma live_at_site y keep isValidUtf8 site :
  cf_ok y -> live_at y keep (sitePositions isValidUtf8 y site) =
  match findId isValidUtf8 y site with
  | None => []
  | Some id => filter (fun se => keep se = true) (filter (fun se => sc_site se = id) (live_contexts y))
  end.
Proof.
  intros Hy. unfold sitePositions. destruct (findId isValidUtf8 y site) as [id|]; [|done].
  rewrite vec_match, (mp_site _ (cf_maps _ Hy)), live_at_positions. unfold live_contexts. rewrite !list_filter_filter.
  apply list_filter_iff. intros se. rewrite !andb_true_iff, N.eqb_eq. tauto.
Qed.

Lemma loaded_at_site keep isValidUtf8 site :
  live_at loaded keep (sitePositions isValidUtf8 loaded site) = live_at x keep (sitePositions isValidUtf8 x site).
Proof.
  destruct loaded_inserted as [I1 _ [I3 _ _ _] _ I5]. rewrite !live_at_site by done. unfold findId. rewrite I3.
  destruct (find _ _) as [id|]; [|done]. f_equal. rewrite <- (saved_at_site x Hx). f_equal. unfold live_contexts. rewrite I5.
  apply filter_id. intros se Hse. by apply (saved_stored x Hx).
Qed.

Lemma loaded_site_queries isValidUtf8 site caller callee :
  contextsAtSite isValidUtf8 loaded site = contextsAtSite isValidUtf8 x site /\
  contextAtSite isValidUtf8 loaded site = contextAtSite isValidUtf8 x site /\
  contextAtSite_by isValidUtf8 loaded site caller = contextAtSite_by isValidUtf8 x site caller /\
  contextForEdge isValidUtf8 loaded site caller callee = contextForEdge isValidUtf8 x site caller callee.
Proof.
  pose proof loaded_inserted as [_ _ I3 _ _]. pose proof (same_materialize _ _ I3) as Hm.
  pose proof (fun keep => loaded_at_site keep isValidUtf8 site) as Hl. unfold live_at in Hl.
  assert (E1 : contextsAtSite isValidUtf8 loaded site = contextsAtSite isValidUtf8 x site).
  { unfold contextsAtSite, contextsAtSite_in. cbn [resident v_materialize v_sitePositions]. rewrite Hm. f_equal. apply Hl. }
  split_and!; [done| | |].
  - unfold contextAtSite, contextAtSite_in. cbn [resident v_materialize v_sitePositions]. rewrite Hm. do 2 f_equal. apply Hl.
  - unfold contextAtSite_by, contextAtSite_by_in. cbn [resident v_materialize v_sitePositions v_findId]. rewrite Hm. unfold findId.
    rewrite (st_interner _ _ I3). destruct (find _ _) as [id|]; [|done]. do 2 f_equal. apply Hl.
  - unfold contextForEdge, contextForEdge_in. unfold contextsAtSite in E1. by rewrite E1.
Qed.

Lemma loaded_all : allContexts loaded ≡ₚ allContexts x.
Proof.
  destruct loaded_inserted as [_ _ I3 _ I5]. rewrite !allContexts_eq, (same_materialize _ _ I3). f_equiv.
  unfold live_contexts at 1. rewrite I5, filter_id; [by apply saved_perm|]. intros se Hse. by apply (saved_stored x Hx).
Qed.
End Loaded.

Lemma by_name_perm usrOf nameOf key l k : l ≡ₚ k -> by_name usrOf nameOf key l ≡ₚ by_name usrOf nameOf key k.
Proof.
  intros H. unfold by_name. pose proof (filter_Permutation (fun c => usrOf c = key) l k H) as Hu.
  destruct (filter (fun c => usrOf c = key) l), (filter (fun c => usrOf c = key) k).
  - by rewrite H.
  - by apply Permutation_nil_cons in Hu.
  - symmetry in Hu. by apply Permutation_nil_cons in Hu.
  - done.
Qed.

(** The casts of a byte give an enumerator back from its code. *)
Definition cf_casts_ok (cast_raii : N -> RaiiKind) (cast_noexcept : N -> NoexceptSpec) : Prop :=
  (forall k, cast_raii (raii_code k) = k) /\ (forall s, cast_noexcept (noexcept_code s) = s).

(** What a saved index is after a load for changes: consistent, without emptied entries, over
    the same strings and set tables and with the same set ids, holding the same contexts.
    Every query by call site answers exactly as before, and a query by name finds the same
    contexts (if the saved index had no emptied entry). *)
Record same_contexts (isValidUtf8 : bytes -> bool) (x y : ControlFlowIndex) : Prop := {
  sx_ok : cf_ok y;
  sx_fresh : fresh y;
  sx_tables : same_tables x y;
  sx_ids : scopeSetIds_ y = scopeSetIds_ x /\ guardSetIds_ y = guardSetIds_ x /\ raiiSetIds_ y = raiiSetIds_ x;
  sx_all : allContexts y ≡ₚ allContexts x;
  sx_sites : forall site caller callee,
    contextsAtSite isValidUtf8 y site = contextsAtSite isValidUtf8 x site /\
    contextAtSite isValidUtf8 y site = contextAtSite isValidUtf8 x site /\
    contextAtSite_by isValidUtf8 y site caller = contextAtSite_by isValidUtf8 x site caller /\
    contextForEdge isValidUtf8 y site caller callee = contextForEdge isValidUtf8 x site caller callee;
  sx_names : fresh x -> forall name,
    contextsForCallee isValidUtf8 y name ≡ₚ contextsForCallee isValidUtf8 x name /\
    contextsForCaller isValidUtf8 y name ≡ₚ contextsForCaller isValidUtf8 x name
}.

(** The index a load for changes rebuilds. *)
Abbreviation reloaded x := (foldl install_context (index_of_tables (cf_interner_ x) (tables_of x)) (saved_contexts x)).

Lemma loaded_same_contexts isValidUtf8 x : cf_ok x -> same_contexts isValidUtf8 x (reloaded x).
Proof.
  intros Hx. destruct (loaded_inserted x Hx) as [I1 I2 I3 I4 I5]. pose proof (loaded_all x Hx) as Hall.
  split; [done|done|done|by split_and!; apply I4|done|intros; by apply loaded_site_queries|].
  intros Hf name. pose proof (same_materialize _ _ I3) as Hm.
  pose proof (callee_names x isValidUtf8 name (fun _ => true) (fun _ => True) Hx Hf ltac:(done)) as N1.
  pose proof (caller_names x isValidUtf8 name (fun _ => true) (fun _ => True) Hx Hf ltac:(done)) as N2.
  pose proof (callee_names _ isValidUtf8 name (fun _ => true) (fun _ => True) I1 I2 ltac:(done)) as N3.
  pose proof (caller_names _ isValidUtf8 name (fun _ => true) (fun _ => True) I1 I2 ltac:(done)) as N4.
  rewrite (filter_id (fun _ => True)) in N1, N2, N3, N4 by done. split.
  - etrans; [apply eq_subrelation; [apply _|exact N3]|]. etrans; [|apply eq_subrelation; [apply _|symmetry; exact N1]]. by apply by_name_perm.
  - etrans; [apply eq_subrelation; [apply _|exact N4]|]. etrans; [|apply eq_subrelation; [apply _|symmetry; exact N2]]. by apply by_name_perm.
Qed.

(** A saved control-flow index loaded for changes: the load succeeds and gives the index
    back ([same_contexts]: a consistent index with the same tables and contexts and the
    same answer to every query).  A section that is cut short or has bytes appended is
    refused. *)
Theorem control_flow_roundtrip (isValidUtf8 : bytes -> bool) cast_raii cast_noexcept (x : ControlFlowIndex)
    (Hcasts : cf_casts_ok cast_raii cast_noexcept) (Hx : cf_ok x) (Hfit : index_fits isValidUtf8 x) :
  (exists y, loadControlFlow isValidUtf8 cast_raii cast_noexcept (emitControlFlow x) = Some y /\ same_contexts isValidUtf8 x y) /\
  (forall b tl, tl <> [] -> b ++ tl = emitControlFlow x \/ b = emitControlFlow x ++ tl ->
     loadControlFlow isValidUtf8 cast_raii cast_noexcept b = None).
Proof.
  destruct Hcasts as [C1 C2]. pose proof (control_flow_read x Hx isValidUtf8 Hfit cast_raii cast_noexcept C1 C2) as Hr. split.
  - eexists. split; [by apply section_read|by apply loaded_same_contexts].
  - intros b tl Htl Hb. by eapply section_exact; [apply _|exact Hr|exact Htl|].
Qed.
