(* ===== verification/MappedControlFlow.v ===== *)
(** The mapped form of the control-flow index (src/callgraph/ControlFlowIndex.cpp): a
    read-only load leaves the strings and the records in the file and looks them up there,
    by bisection in the arrays [save] wrote.

    A pointer into the file with the number of items behind it is the list of the bytes it
    spans; a read at an offset takes bytes from there.  The bisections run on fuel,
    the width of their range, which is enough.

    The mapped control-flow index trusts nothing it reads: whatever bytes the section holds,
    a lookup in an index that was attached never reads outside the array it looks in. *)

From S2P Require Import Prelude Utf8 StringInterner CallGraph ControlFlowIndex Codec SnapshotGraph SnapshotControlFlow.

Record MappedStore := MkMapped {
  m_strings : bytes;
  m_stringBytes : nat;
  m_stringCount : N;
  m_stringOffsets : bytes;
  m_sortedIds : bytes;
  m_records : bytes;
  m_recordCount : N;
  m_byCaller : bytes;
  m_byCallee : bytes;
  m_byCallerDisplay : bytes;
  m_callerDisplayCount : N;
  m_byCalleeDisplay : bytes;
  m_calleeDisplayCount : N
}.

Definition kRecordBytes : nat := 38.

Definition kFieldCaller : nat := 0.
Definition kFieldCallee : nat := 4.
Definition kFieldCallerDisplay : nat := 8.
Definition kFieldCalleeDisplay : nat := 12.
Definition kFieldSite : nat := 16.
Definition kFieldTuPath : nat := 20.
Definition kFieldScopeSet : nat := 24.
Definition kFieldGuardSet : nat := 28.
Definition kFieldRaiiSet : nat := 32.
Definition kFieldNoexcept : nat := 36.
Definition kFieldInsideCatch : nat := 37.

(** * Attaching *)

(** [takeArray(n, bytes)]: the array, or failure when the section is short. *)
Definition takeArray (n : N) (width : nat) : M bytes := r_bytes (n * N.of_nat width).

(** [if (bad) return false;], which the caller turns into [r.ok = false]. *)
Definition refuse_if (bad : bool) : M unit := if bad then fail_reader else ret tt.

(** [remaining() / kRecordBytes < recordCount]. *)
Definition records_fit_left (recordCount : N) : M unit := fun r =>
  if ok r && (N.of_nat (length (rest r)) / N.of_nat kRecordBytes <? recordCount)%N then fail_reader r else ret tt r.

Definition attachMapped (strings : bytes) (stringBytes : nat) (stringCount : N) : M MappedStore :=
  recordCount <-- r_u32;;
  _ <-- records_fit_left recordCount;;
  records <-- takeArray recordCount kRecordBytes;;
  stringOffsets <-- takeArray stringCount 4;;
  sortedIds <-- takeArray stringCount 4;;
  byCaller <-- takeArray recordCount 4;;
  byCallee <-- takeArray recordCount 4;;
  callerDisplayCount <-- r_u32;;
  _ <-- refuse_if (recordCount <? callerDisplayCount)%N;;
  byCallerDisplay <-- takeArray callerDisplayCount 4;;
  calleeDisplayCount <-- r_u32;;
  _ <-- refuse_if (recordCount <? calleeDisplayCount)%N;;
  byCalleeDisplay <-- takeArray calleeDisplayCount 4;;
  ret (MkMapped strings stringBytes stringCount stringOffsets sortedIds records recordCount byCaller byCallee
         byCallerDisplay callerDisplayCount byCalleeDisplay calleeDisplayCount).

(** The string table of a read-only load is stepped over, its body kept in place with the
    size the table's length prefix gives it. *)
Definition readMappedTable : M (bytes * nat * N) := fun r =>
  let '(tableBytes, r1) := r_u32 r in
  let tableStart := rest r1 in
  let '(stringCount, r2) := r_u32 r1 in
  if ok r2 && negb ((tableBytes <? 4)%N || (N.of_nat (length tableStart) <? tableBytes)%N)
  then ((take (N.to_nat tableBytes - 4) (rest r2), N.to_nat tableBytes - 4, stringCount), MkReader (drop (N.to_nat tableBytes) tableStart) true)
  else (([], 0, stringCount), MkReader (rest r2) false).

(** A mapped index: the store and the set tables, which are resident in both forms. *)
Record MappedIndex := MkMappedIndex { mi_store : MappedStore; mi_tables : SetTables }.

Section Mapped.
(** [llvm::json::isUTF8], as in Utf8.v, and the casts of a byte to an enumeration. *)
Variable isValidUtf8 : bytes -> bool.
Variable cast_raii : N -> RaiiKind.
Variable cast_noexcept : N -> NoexceptSpec.

Definition read_mapped : M MappedIndex :=
  table <-- readMappedTable;;
  let '(strings, stringBytes, stringCount) := table in
  sets <-- readSetTables isValidUtf8 cast_raii stringCount;;
  store <-- attachMapped strings stringBytes stringCount;;
  ret (MkMappedIndex store sets).

(** The control-flow section of a read-only [load]. *)
Definition loadMapped (data : bytes) : option MappedIndex := section_done read_mapped data.

(** * Lookups *)

(** What a read gives that leaves its array: open in the model.  [mapped_reads_stay_inside]
    shows that no lookup in a loaded index makes such a read. *)
Variable outside : bytes -> nat -> N.

(** [k] bytes at an offset, little-endian: [read32le(p + off)], and one byte. *)
Definition load_le (k : nat) (p : bytes) (off : nat) : N :=
  if (off + k <=? length p)%nat then le_value (take k (drop off p)) else outside p off.

Definition ldU32 : bytes -> nat -> N := load_le 4.
Definition ldU8 : bytes -> nat -> N := load_le 1.

(** [std::string_view(p + off, len)]: the bytes behind a pointer, each one a read. *)
Definition view_at (p : bytes) (off len : nat) : bytes := (fun i => byte_of (ldU8 p (off + i))) <$> seq 0 len.

Implicit Types (m : MappedStore) (x : MappedIndex).

Definition mappedString m (id : SId) : bytes :=
  if (m_stringCount m <=? id)%N then []
  else
    let off := N.to_nat (ldU32 (m_stringOffsets m) (N.to_nat id * 4)) in
    if (m_stringBytes m <? off)%nat || (m_stringBytes m - off <? 4)%nat then []
    else
      let len := N.to_nat (ldU32 (m_strings m) off) in
      if (m_stringBytes m - off - 4 <? len)%nat then []
      else view_at (m_strings m) (off + 4) len.

(** [StoredContext se{}; se.live = false;] *)
Definition dead_record : StoredContext := MkStoredContext 0 0 0 0 0 0 0 0 0 NoSpec false false.

Definition mappedRecord x (pos : nat) : StoredContext :=
  let m := mi_store x in
  if (m_recordCount m <=? N.of_nat pos)%N then dead_record
  else
    let at_field (field : nat) := ldU32 (m_records m) (pos * kRecordBytes + field) in
    let caller := at_field kFieldCaller in
    let callee := at_field kFieldCallee in
    let callerDisplay := at_field kFieldCallerDisplay in
    let calleeDisplay := at_field kFieldCalleeDisplay in
    let site := at_field kFieldSite in
    let tuPath := at_field kFieldTuPath in
    let scopeSet := at_field kFieldScopeSet in
    let guardSet := at_field kFieldGuardSet in
    let raiiSet := at_field kFieldRaiiSet in
    let validId (id : SId) := (id <? m_stringCount m)%N in
    MkStoredContext caller callee callerDisplay calleeDisplay site tuPath scopeSet guardSet raiiSet
      (cast_noexcept (ldU8 (m_records m) (pos * kRecordBytes + kFieldNoexcept)))
      (negb (ldU8 (m_records m) (pos * kRecordBytes + kFieldInsideCatch) =? 0)%N)
      (validId caller && validId callee && validId callerDisplay && validId calleeDisplay && validId site &&
       ((tuPath =? kNoString)%N || validId tuPath) &&
       (scopeSet <? N.of_nat (length (tb_scopes (mi_tables x))))%N &&
       (guardSet <? N.of_nat (length (tb_guards (mi_tables x))))%N &&
       (raiiSet <? N.of_nat (length (tb_raiis (mi_tables x))))%N).

(** [while (lo < hi) ...]: the end of the items for which [below] holds. *)
Fixpoint bisect (fuel : nat) (below : nat -> bool) (lo hi : nat) : nat :=
  match fuel with
  | 0 => lo
  | S fuel' =>
      if (lo <? hi)%nat then
        let mid := lo + (hi - lo) / 2 in
        if below mid then bisect fuel' below (mid + 1) hi else bisect fuel' below lo mid
      else lo
  end.

(** A position out of range sorts after every id. *)
Definition fieldAt m (order : option bytes) (field : nat) (i : nat) : N :=
  let pos := match order with Some p => ldU32 p (i * 4) | None => N.of_nat i end in
  if (m_recordCount m <=? pos)%N then (2 ^ 64 - 1)%N
  else ldU32 (m_records m) (N.to_nat pos * kRecordBytes + field).

Definition mappedRange m (order : option bytes) (count : nat) (field : nat) (id : SId) : nat * nat :=
  let first := bisect count (fun i => fieldAt m order field i <? id)%N 0 count in
  (first, bisect count (fun i => fieldAt m order field i <=? id)%N first count).

Definition stringOf_mapped m (id : SId) : bytes := lookupText isValidUtf8 (mappedString m id).

Fixpoint find_loop (fuel : nat) m (key : bytes) (lo hi : nat) : option SId :=
  match fuel with
  | 0 => None
  | S fuel' =>
      if (lo <? hi)%nat then
        let mid := lo + (hi - lo) / 2 in
        let id := ldU32 (m_sortedIds m) (mid * 4) in
        match bytes_cmp (mappedString m id) key with
        | Eq => Some id
        | Lt => find_loop fuel' m key (mid + 1) hi
        | Gt => find_loop fuel' m key lo mid
        end
      else None
  end.

Definition findId_mapped m (raw : bytes) : option SId :=
  find_loop (S (N.to_nat (m_stringCount m))) m (lookupText isValidUtf8 raw) 0 (N.to_nat (m_stringCount m)).

Definition sitePositions_mapped m (callSite : bytes) : list nat :=
  match findId_mapped m callSite with
  | None => []
  | Some id =>
      let '(first, last) := mappedRange m None (N.to_nat (m_recordCount m)) kFieldSite id in
      seq first (last - first)
  end.

Definition namePositions_mapped m (side : Side) (name : bytes) : list nat :=
  match findId_mapped m name with
  | None => []
  | Some id =>
      let usrs := match side with Caller => m_byCaller m | Callee => m_byCallee m end in
      let '(first, last) :=
        mappedRange m (Some usrs) (N.to_nat (m_recordCount m))
          (match side with Caller => kFieldCaller | Callee => kFieldCallee end) id in
      let '(order, (first, last)) :=
        if (first =? last)%nat then
          let displays := match side with Caller => m_byCallerDisplay m | Callee => m_byCalleeDisplay m end in
          (displays,
           mappedRange m (Some displays)
             (N.to_nat (match side with Caller => m_callerDisplayCount m | Callee => m_calleeDisplayCount m end))
             (match side with Caller => kFieldCallerDisplay | Callee => kFieldCalleeDisplay end) id)
        else (usrs, (first, last)) in
      (fun i => N.to_nat (ldU32 order (i * 4))) <$> seq first (last - first)
  end.

(** The queries of a mapped index are those of its view. *)
Definition mapped x : ContextView :=
  MkView (findId_mapped (mi_store x)) (sitePositions_mapped (mi_store x)) (namePositions_mapped (mi_store x))
    (fun pos => Some (mappedRecord x pos))
    (mappedRecord x <$> seq 0 (N.to_nat (m_recordCount (mi_store x))))
    (materialize_with (stringOf_mapped (mi_store x)) (tb_scopes (mi_tables x)) (tb_guards (mi_tables x)) (tb_raiis (mi_tables x))).
End Mapped.

(** The sizes [readMappedTable] and [attachMapped] establish. *)
Record sized (m : MappedStore) : Prop := {
  sz_strings : length (m_strings m) = m_stringBytes m;
  sz_offsets : length (m_stringOffsets m) = N.to_nat (m_stringCount m) * 4;
  sz_ids : length (m_sortedIds m) = N.to_nat (m_stringCount m) * 4;
  sz_records : length (m_records m) = N.to_nat (m_recordCount m) * kRecordBytes;
  sz_caller : length (m_byCaller m) = N.to_nat (m_recordCount m) * 4;
  sz_callee : length (m_byCallee m) = N.to_nat (m_recordCount m) * 4;
  sz_callerDisplay : length (m_byCallerDisplay m) = N.to_nat (m_callerDisplayCount m) * 4;
  sz_calleeDisplay : length (m_byCalleeDisplay m) = N.to_nat (m_calleeDisplayCount m) * 4
}.

(** * Attaching *)

Lemma bind_inv {A B} (m : M A) (k : A -> M B) r b r' :
  bind m k r = (b, r') -> exists a r1, m r = (a, r1) /\ k a r1 = (b, r').
Proof. unfold bind. destruct (m r) as [a r1]. eauto. Qed.

(** An array that was taken from a reader that is still fine has its size. *)
Lemma takeArray_length n w r l r' :
  takeArray n w r = (l, r') -> ok r' = true -> length l = N.to_nat n * w.
Proof.
  unfold takeArray, r_bytes, bind, need, advance. destruct (negb (ok r) || _) eqn:E.
  { by intros [= <- <-]. }
  apply orb_false_iff in E as [_ E]. apply N.ltb_ge in E. intros [= <- <-] _. rewrite length_take. lia.
Qed.

Lemma ok_before {A} (m : M A) `{Hm : !Decoder m} r a r' : m r = (a, r') -> ok r' = true -> ok r = true.
Proof.
  intros E Ho. destruct (ok r) eqn:Er; [done|]. pose proof (decoder_sticky (m := m) r Er) as H. rewrite E in H. cbn in H. congruence.
Qed.

#[global] Instance takeArray_decoder n w : Decoder (takeArray n w).
Proof. unfold takeArray. apply _. Qed.
#[global] Instance refuse_decoder bad : Decoder (refuse_if bad).
Proof. unfold refuse_if. apply _. Qed.
#[global] Instance records_fit_decoder n : Decoder (records_fit_left n).
Proof.
  split; unfold records_fit_left, fail_reader, ret.
  - intros r Hr. by rewrite Hr.
  - intros b [] tl; cbn [ok rest andb]; [|done]. rewrite length_app.
    destruct (N.ltb_spec (N.of_nat (length b) / N.of_nat kRecordBytes) n); [done|]. intros _.
    destruct (N.ltb_spec (N.of_nat (length b + length tl) / N.of_nat kRecordBytes) n) as [Hlt|]; [|done]. exfalso.
    pose proof (N.Div0.div_le_mono (N.of_nat (length b)) (N.of_nat (length b + length tl)) (N.of_nat kRecordBytes) ltac:(lia)). lia.
Qed.
#[global] Instance attach_decoder s size n : Decoder (attachMapped s size n).
Proof. unfold attachMapped. apply _. Qed.

(** The body of the string table has the size it is kept with. *)
Lemma table_sized r s size n r' : readMappedTable r = ((s, size, n), r') -> ok r' = true -> length s = size.
Proof.
  unfold readMappedTable. destruct (r_u32 r) as [tb r1]. destruct (r_u32 r1) as [c r2] eqn:E2.
  destruct (ok r2 && _) eqn:Ef; [|by intros [= <- <- <- <-]]. intros [= <- <- <- <-] _.
  apply andb_true_iff in Ef as [Ho Hn]. apply negb_true_iff, orb_false_iff in Hn as [_ Hn]. apply N.ltb_ge in Hn.
  unfold r_u32, read_le, bind, need, advance, ret in E2.
  destruct (negb (ok r1) || _) eqn:Eb; [by injection E2 as _ <-|]. injection E2 as _ <-. cbn [rest].
  rewrite length_take, length_drop. lia.
Qed.

Lemma attached_sized strings size n r m r' :
  attachMapped strings size n r = (m, r') -> ok r' = true -> length strings = size -> sized m.
Proof.
  unfold attachMapped. intros E Ho Hs.
  apply bind_inv in E as (recordCount & r1 & _ & E). apply bind_inv in E as (u1 & r2 & _ & E).
  apply bind_inv in E as (records & r3 & E3 & E). apply bind_inv in E as (offsets & r4 & E4 & E).
  apply bind_inv in E as (ids & r5 & E5 & E). apply bind_inv in E as (callers & r6 & E6 & E).
  apply bind_inv in E as (callees & r7 & E7 & E). apply bind_inv in E as (nc & r8 & E8 & E).
  apply bind_inv in E as (u2 & r9 & E9 & E). apply bind_inv in E as (cd & r10 & E10 & E).
  apply bind_inv in E as (ne & r11 & E11 & E). apply bind_inv in E as (u3 & r12 & E12 & E).
  apply bind_inv in E as (ed & r13 & E13 & E). injection E as <- <-.
  pose proof (ok_before _ _ _ _ E13 Ho) as O12. pose proof (ok_before _ _ _ _ E12 O12) as O11.
  pose proof (ok_before _ _ _ _ E11 O11) as O10. pose proof (ok_before _ _ _ _ E10 O10) as O9.
  pose proof (ok_before _ _ _ _ E9 O9) as O8. pose proof (ok_before _ _ _ _ E8 O8) as O7.
  pose proof (ok_before _ _ _ _ E7 O7) as O6. pose proof (ok_before _ _ _ _ E6 O6) as O5.
  pose proof (ok_before _ _ _ _ E5 O5) as O4. pose proof (ok_before _ _ _ _ E4 O4) as O3.
  split; cbn; [exact Hs|by eapply takeArray_length..].
Qed.

Lemma loaded_sized isValidUtf8 cast_raii data x : loadMapped isValidUtf8 cast_raii data = Some x -> sized (mi_store x).
Proof.
  unfold loadMapped, section_done. destruct (read_mapped _ _ _) as [y r] eqn:E. destruct (ok r) eqn:Ho; [|done].
  cbn [andb]. destruct (bool_decide _); [|done]. intros [= <-]. unfold read_mapped in E.
  apply bind_inv in E as ([[strings size] n] & r1 & E1 & E). apply bind_inv in E as (sets & r2 & E2 & E).
  apply bind_inv in E as (m & r3 & E3 & E). injection E as <- <-. eapply attached_sized; [done|done|].
  eapply table_sized; [done|]. eapply ok_before; [|exact E2|eapply ok_before; [apply _|exact E3|done]].
  unfold readSetTables, readScope, readHandler, readGuard, readRaii, gid. apply _.
Qed.

(** * Bisection *)

Lemma mid_between lo hi : lo < hi -> lo <= lo + (hi - lo) / 2 < hi.
Proof. intros H. pose proof (Nat.div_lt (hi - lo) 2). lia. Qed.

Lemma bisect_ext fuel below below' lo hi :
  (forall i, i < hi -> below i = below' i) -> bisect fuel below lo hi = bisect fuel below' lo hi.
Proof.
  revert lo hi. induction fuel as [|fuel IH]; intros lo hi H; [done|]. cbn [bisect].
  destruct (Nat.ltb_spec lo hi); [|done]. pose proof (mid_between lo hi).
  rewrite H by lia. destruct (below' _); apply IH; intros; apply H; lia.
Qed.

Lemma bisect_le fuel below lo hi : lo <= hi -> lo <= bisect fuel below lo hi <= hi.
Proof.
  revert lo hi. induction fuel as [|fuel IH]; intros lo hi H; cbn [bisect]; [lia|].
  destruct (Nat.ltb_spec lo hi); [|lia]. pose proof (mid_between lo hi).
  set (mid := lo + (hi - lo) / 2) in *. destruct (below mid).
  - specialize (IH (mid + 1) hi). lia.
  - specialize (IH lo mid). lia.
Qed.

(** * Views that answer alike *)

(** Every query gives the same answer. *)
Definition answers_alike (v v' : ContextView) : Prop :=
  (forall s, contextAtSite_in v s = contextAtSite_in v' s) /\
  (forall s c, contextAtSite_by_in v s c = contextAtSite_by_in v' s c) /\
  (forall s, contextsAtSite_in v s = contextsAtSite_in v' s) /\
  (forall s a b, contextForEdge_in v s a b = contextForEdge_in v' s a b) /\
  (forall s, contextsForCallee_in v s = contextsForCallee_in v' s) /\
  (forall s, contextsForCaller_in v s = contextsForCaller_in v' s) /\
  (forall s, callerNoexceptOf_in v s = callerNoexceptOf_in v' s) /\
  (forall s, protectedCallsTo_in v s = protectedCallsTo_in v' s) /\
  (forall s, unprotectedCallsTo_in v s = unprotectedCallsTo_in v' s) /\
  allContexts_in v = allContexts_in v' /\
  (forall A (fn : A -> ContextRecord -> A) a, forEachContextRecord_in v fn a = forEachContextRecord_in v' fn a).

(** Two views that agree where they are read. *)
Record same_view (v v' : ContextView) : Prop := {
  sv_find : forall s, v_findId v s = v_findId v' s;
  sv_site : forall s, v_sitePositions v s = v_sitePositions v' s;
  sv_name : forall d s, v_namePositions v d s = v_namePositions v' d s;
  sv_at : forall keep ps, live_in v keep ps = live_in v' keep ps;
  sv_in : forall keep ps se, se ∈ live_in v' keep ps -> se ∈ v_stored v';
  sv_stored : v_stored v = v_stored v';
  sv_materialize : forall se, se ∈ v_stored v' -> sc_live se = true -> v_materialize v se = v_materialize v' se
}.

Lemma live_in_live v keep ps se : se ∈ live_in v keep ps -> sc_live se = true.
Proof.
  unfold live_in. intros (pos & _ & H)%list_elem_of_omap. destruct (v_storedAt v pos) as [se'|]; [|done].
  destruct (sc_live se') eqn:E; [|done]. destruct (keep se'); [|done]. by injection H as <-.
Qed.

Lemma same_view_answers v v' : same_view v v' -> answers_alike v v'.
Proof.
  intros [H1 H2 H3 H4 H5 H6 H7].
  assert (Hl : forall keep ps, v_materialize v <$> live_in v keep ps = v_materialize v' <$> live_in v' keep ps).
  { intros keep ps. rewrite H4. apply list_fmap_ext. intros i se Hi%list_elem_of_lookup_2.
    apply H7; [by eapply H5|by eapply live_in_live]. }
  assert (Hh : forall keep ps, v_materialize v <$> head (live_in v keep ps) = v_materialize v' <$> head (live_in v' keep ps)).
  { intros keep ps. specialize (Hl keep ps). destruct (live_in v keep ps), (live_in v' keep ps); try done. injection Hl as E _. cbn. by f_equal. }
  assert (Hs : forall s, contextsAtSite_in v s = contextsAtSite_in v' s) by (intros s; unfold contextsAtSite_in; rewrite H2; apply Hl).
  unfold answers_alike. split_and!.
  - intros s. unfold contextAtSite_in. by rewrite H2.
  - intros s c. unfold contextAtSite_by_in. rewrite H1. destruct (v_findId v' c); [|done]. by rewrite H2.
  - done.
  - intros s a b. unfold contextForEdge_in. by rewrite Hs.
  - intros s. unfold contextsForCallee_in. by rewrite H3.
  - intros s. unfold contextsForCaller_in. by rewrite H3.
  - intros s. unfold callerNoexceptOf_in. by rewrite H3, H4.
  - intros s. unfold protectedCallsTo_in. by rewrite H3.
  - intros s. unfold unprotectedCallsTo_in. by rewrite H3.
  - unfold allContexts_in, forEachContext_in. rewrite H6. clear -H7.
    set (step := fun (mat : StoredContext -> CallSiteContext) acc se => if sc_live se then acc ++ [mat se] else acc).
    enough (H : forall l acc, (forall se, se ∈ l -> sc_live se = true -> v_materialize v se = v_materialize v' se) ->
      foldl (step (v_materialize v)) acc l = foldl (step (v_materialize v')) acc l) by (by apply H).
    induction l as [|se l IH]; intros acc Hl; [done|]. cbn [foldl]. unfold step at 2 4.
    destruct (sc_live se) eqn:E; [rewrite Hl by (done || left)|]; apply IH; intros; apply Hl; (done || by right).
  - intros A fn a. unfold forEachContextRecord_in. by rewrite H6.
Qed.

(** * No read outside *)

Section Safe.
Variable isValidUtf8 : bytes -> bool.
Variable cast_noexcept : N -> NoexceptSpec.
Variables outside outside' : bytes -> nat -> N.

Lemma load_inside k p off : off + k <= length p -> load_le outside k p off = load_le outside' k p off.
Proof. intros H. unfold load_le. destruct (Nat.leb_spec (off + k) (length p)); [done|lia]. Qed.

Lemma view_safe p off len : off + len <= length p -> view_at outside p off len = view_at outside' p off len.
Proof.
  intros H. apply list_fmap_ext. intros i j [-> Hi]%lookup_seq. f_equal. apply load_inside. lia.
Qed.

Section Store.
Variable m : MappedStore.
Hypothesis Hm : sized m.

Lemma mappedString_safe id : mappedString outside m id = mappedString outside' m id.
Proof.
  unfold mappedString. destruct (N.leb_spec (m_stringCount m) id); [done|].
  unfold ldU32. rewrite (load_inside 4 (m_stringOffsets m)) by (rewrite (sz_offsets _ Hm); lia).
  set (off := N.to_nat (load_le outside' 4 (m_stringOffsets m) _)).
  pose proof (sz_strings _ Hm). destruct (Nat.ltb_spec (m_stringBytes m) off); [done|]. cbn [orb].
  destruct (Nat.ltb_spec (m_stringBytes m - off) 4); [done|].
  rewrite (load_inside 4 (m_strings m)) by lia. set (len := N.to_nat (load_le outside' 4 (m_strings m) off)).
  destruct (Nat.ltb_spec (m_stringBytes m - off - 4) len); [done|]. apply view_safe. lia.
Qed.

Lemma stringOf_safe id : stringOf_mapped isValidUtf8 outside m id = stringOf_mapped isValidUtf8 outside' m id.
Proof. unfold stringOf_mapped. by rewrite mappedString_safe. Qed.

Lemma find_loop_safe fuel key lo hi :
  hi <= N.to_nat (m_stringCount m) -> find_loop outside fuel m key lo hi = find_loop outside' fuel m key lo hi.
Proof.
  revert lo hi. induction fuel as [|fuel IH]; intros lo hi H; [done|]. cbn [find_loop].
  destruct (Nat.ltb_spec lo hi); [|done]. pose proof (mid_between lo hi).
  unfold ldU32. rewrite (load_inside 4 (m_sortedIds m)) by (rewrite (sz_ids _ Hm); lia). rewrite mappedString_safe.
  rewrite !IH by lia. done.
Qed.

Lemma findId_safe raw : findId_mapped isValidUtf8 outside m raw = findId_mapped isValidUtf8 outside' m raw.
Proof. by apply find_loop_safe. Qed.

(** An order array of a given number of positions. *)
Definition holds_positions (order : option bytes) (count : nat) : Prop :=
  match order with Some p => length p = count * 4 | None => True end.

Lemma fieldAt_safe order count field i :
  holds_positions order count -> i < count -> field + 4 <= kRecordBytes ->
  fieldAt outside m order field i = fieldAt outside' m order field i.
Proof.
  intros Ho Hi Hf. unfold fieldAt. set (pos := match order with Some p => ldU32 outside p (i * 4) | None => _ end).
  assert (E : pos = match order with Some p => ldU32 outside' p (i * 4) | None => N.of_nat i end).
  { unfold pos. destruct order as [p|]; [|done]. cbn in Ho. apply load_inside. lia. }
  rewrite <- E. destruct (N.leb_spec (m_recordCount m) pos); [done|]. apply load_inside. rewrite (sz_records _ Hm).
  assert (N.to_nat pos < N.to_nat (m_recordCount m)) by lia. unfold kRecordBytes in *. nia.
Qed.

Lemma mappedRange_safe order count field id :
  holds_positions order count -> field + 4 <= kRecordBytes ->
  mappedRange outside m order count field id = mappedRange outside' m order count field id.
Proof.
  intros Ho Hf. unfold mappedRange. rewrite (bisect_ext _ _ (fun i => fieldAt outside' m order field i <? id)%N); cycle 1.
  { intros i Hi. by rewrite (fieldAt_safe order count). }
  f_equal. apply bisect_ext. intros i Hi. by rewrite (fieldAt_safe order count).
Qed.

Lemma mappedRange_le order count field id :
  let '(first, last) := mappedRange outside m order count field id in first <= last <= count.
Proof.
  unfold mappedRange. set (f := bisect _ _ 0 count). pose proof (bisect_le count (fun i => fieldAt outside m order field i <? id)%N 0 count).
  apply bisect_le. unfold f. lia.
Qed.

Lemma sitePositions_safe site : sitePositions_mapped isValidUtf8 outside m site = sitePositions_mapped isValidUtf8 outside' m site.
Proof.
  unfold sitePositions_mapped. rewrite findId_safe. destruct (findId_mapped _ _ _ _); [|done].
  rewrite mappedRange_safe; [done|done|]. unfold kFieldSite, kRecordBytes. lia.
Qed.

(** The positions of a range of an order array. *)
Lemma range_positions order count field id :
  length order = count * 4 ->
  let '(first, last) := mappedRange outside m (Some order) count field id in
  ((fun i => N.to_nat (ldU32 outside order (i * 4))) <$> seq first (last - first)) =
  ((fun i => N.to_nat (ldU32 outside' order (i * 4))) <$> seq first (last - first)).
Proof.
  intros Hl. pose proof (mappedRange_le (Some order) count field id) as H. destruct (mappedRange _ _ _ _ _ _) as [first last].
  apply list_fmap_ext. intros j i [-> Hj]%lookup_seq. f_equal. apply load_inside. lia.
Qed.

Lemma namePositions_safe side name :
  namePositions_mapped isValidUtf8 outside m side name = namePositions_mapped isValidUtf8 outside' m side name.
Proof.
  unfold namePositions_mapped. rewrite findId_safe. destruct (findId_mapped _ _ _ _) as [id|]; [|done].
  set (usrs := match side with Caller => m_byCaller m | Callee => m_byCallee m end).
  assert (Hu : length usrs = N.to_nat (m_recordCount m) * 4) by (unfold usrs; destruct side; apply Hm).
  set (field := match side with Caller => kFieldCaller | Callee => kFieldCallee end).
  assert (Hf : field + 4 <= kRecordBytes) by (unfold field, kFieldCaller, kFieldCallee, kRecordBytes; destruct side; lia).
  pose proof (range_positions usrs _ field id Hu) as R. rewrite (mappedRange_safe (Some usrs)) in * by done.
  destruct (mappedRange outside' m (Some usrs) _ field id) as [first last]. destruct (first =? last)%nat; [|done].
  set (displays := match side with Caller => m_byCallerDisplay m | Callee => m_byCalleeDisplay m end).
  set (count := N.to_nat (match side with Caller => m_callerDisplayCount m | Callee => m_calleeDisplayCount m end)).
  assert (Hd : length displays = count * 4) by (unfold displays, count; destruct side; apply Hm).
  set (dfield := match side with Caller => kFieldCallerDisplay | Callee => kFieldCalleeDisplay end).
  assert (Hdf : dfield + 4 <= kRecordBytes) by (unfold dfield, kFieldCallerDisplay, kFieldCalleeDisplay, kRecordBytes; destruct side; lia).
  clear R. pose proof (range_positions displays _ dfield id Hd) as R. rewrite (mappedRange_safe (Some displays)) in * by done.
  by destruct (mappedRange outside' m (Some displays) _ dfield id) as [f l].
Qed.
End Store.

Lemma mappedRecord_safe x pos : sized (mi_store x) -> mappedRecord cast_noexcept outside x pos = mappedRecord cast_noexcept outside' x pos.
Proof.
  intros Hx. unfold mappedRecord. destruct (N.leb_spec (m_recordCount (mi_store x)) (N.of_nat pos)); [done|].
  assert (Hin : forall k field, field + k <= kRecordBytes ->
    load_le outside k (m_records (mi_store x)) (pos * kRecordBytes + field) = load_le outside' k (m_records (mi_store x)) (pos * kRecordBytes + field)).
  { intros k field Hf. apply load_inside. rewrite (sz_records _ Hx). assert (pos < N.to_nat (m_recordCount (mi_store x))) by lia.
    unfold kRecordBytes in *. nia. }
  unfold ldU32, ldU8. rewrite !Hin by (unfold kRecordBytes, kFieldCaller, kFieldCallee, kFieldCallerDisplay, kFieldCalleeDisplay,
    kFieldSite, kFieldTuPath, kFieldScopeSet, kFieldGuardSet, kFieldRaiiSet, kFieldNoexcept, kFieldInsideCatch; lia). done.
Qed.


Lemma safe_view x : sized (mi_store x) -> same_view (mapped isValidUtf8 cast_noexcept outside x) (mapped isValidUtf8 cast_noexcept outside' x).
Proof.
  intros Hx. split; cbn [mapped v_findId v_sitePositions v_namePositions v_stored v_materialize].
  - intros s. by apply findId_safe.
  - intros s. by apply sitePositions_safe.
  - intros d s. by apply namePositions_safe.
  - intros keep ps. unfold live_in. cbn [mapped v_storedAt]. apply omap_ext_in. intros pos _. by rewrite mappedRecord_safe.
  - intros keep ps se. unfold live_in. cbn [mapped v_storedAt]. intros (pos & _ & H)%list_elem_of_omap.
    destruct (sc_live (mappedRecord cast_noexcept outside' x pos)) eqn:El; [|done]. destruct (keep _); [|done]. injection H as <-.
    apply list_elem_of_fmap. exists pos. split; [done|]. apply elem_of_seq. split; [lia|].
    unfold mappedRecord in El. destruct (N.leb_spec (m_recordCount (mi_store x)) (N.of_nat pos)); [done|lia].
  - apply list_fmap_ext. intros i pos _. by apply mappedRecord_safe.
  - intros se _ _. unfold materialize_with. rewrite !(stringOf_safe (mi_store x) Hx). f_equal. apply list_fmap_ext.
    intros i l _. unfold raii_with. by rewrite !(stringOf_safe (mi_store x) Hx).
Qed.
End Safe.

(** C16. Nothing in a mapped index is trusted.  Whatever the bytes of the section are, if the
    load accepts them then no query depends on memory outside the arrays of the section:
    offsets, ids, positions and lengths are checked before they are followed, every byte of a
    string included, so a damaged index can at worst answer wrongly. *)
Theorem mapped_reads_stay_inside (isValidUtf8 : bytes -> bool) (cast_raii : N -> RaiiKind) (cast_noexcept : N -> NoexceptSpec)
    (data : bytes) (x : MappedIndex) (Hload : loadMapped isValidUtf8 cast_raii data = Some x) (outside outside' : bytes -> nat -> N) :
  answers_alike (mapped isValidUtf8 cast_noexcept outside x) (mapped isValidUtf8 cast_noexcept outside' x) /\
  (forall s, findId_mapped isValidUtf8 outside (mi_store x) s = findId_mapped isValidUtf8 outside' (mi_store x) s) /\
  (forall id, mappedString outside (mi_store x) id = mappedString outside' (mi_store x) id) /\
  (forall pos, mappedRecord cast_noexcept outside x pos = mappedRecord cast_noexcept outside' x pos).
Proof.
  pose proof (loaded_sized _ _ _ _ Hload) as Hx. split_and!.
  - by apply same_view_answers, safe_view.
  - intros s. by apply findId_safe.
  - intros id. by apply mappedString_safe.
  - intros pos. by apply mappedRecord_safe.
Qed.
