(* ===== verification/MappedEquiv.v ===== *)
(** A read-only load answers like a mutable one: the arrays [save] writes make every lookup
    of the mapped form agree with the maps of the resident form. *)

From S2P Require Import Prelude Registrations Utf8 StringInterner CallGraph CallGraphInv ControlFlowIndex ControlFlowInv ControlFlowRemove ControlFlowQuery Codec SnapshotGraph SnapshotGraphRoundtrip CountingSort SnapshotControlFlow SnapshotControlFlowRoundtrip MappedControlFlow.

(** * Sorted lists and bisection *)

Lemma StronglySorted_lookup {A} (R : relation A) l :
  StronglySorted R l <-> forall i j a b, i < j -> l !! i = Some a -> l !! j = Some b -> R a b.
Proof.
  split.
  - intros Hs i j a b Hij Ha Hb. rewrite <- (take_drop_middle _ _ _ Ha) in Hs. apply StronglySorted_app_1_r, StronglySorted_inv in Hs as [_ Hs].
    eapply Forall_forall; [exact Hs|]. apply list_elem_of_lookup. exists (j - S i). rewrite lookup_drop. by replace (S i + (j - S i)) with j by lia.
  - induction l as [|a l IH]; intros H; constructor.
    + apply IH. intros i j b c Hij Hb Hc. by apply (H (S i) (S j)); [lia| |].
    + apply Forall_lookup. intros i b Hb. by apply (H 0 (S i)); [lia| |].
Qed.

Section Sorted.
Context {A : Type} (key : A -> nat).

(** A sorted list is its items below, at and above a key. *)
Lemma sorted_parts l id : StronglySorted (fun a b => key a <= key b) l ->
  l = filter (fun a => key a < id) l ++ filter (fun a => key a = id) l ++ filter (fun a => id < key a) l.
Proof.
  induction 1 as [|a l Hs IH Ha]; [done|]. rewrite Forall_forall in Ha. rewrite !filter_cons.
  destruct (Nat.lt_trichotomy (key a) id) as [H|[H|H]].
  - rewrite decide_True, !decide_False by lia. cbn. by f_equal.
  - rewrite decide_False, decide_True, decide_False by lia.
    rewrite (elem_of_nil_inv (filter (fun b => key b < id) l)) in *.
    + cbn. by f_equal.
    + intros b [Hb Hin]%list_elem_of_filter. specialize (Ha b Hin). lia.
    + intros b [Hb Hin]%list_elem_of_filter. specialize (Ha b Hin). lia.
  - rewrite !decide_False, decide_True by lia.
    assert (E1 : filter (fun b => key b < id) l = []).
    { apply elem_of_nil_inv. intros b [Hb Hin]%list_elem_of_filter. specialize (Ha b Hin). lia. }
    assert (E2 : filter (fun b => key b = id) l = []).
    { apply elem_of_nil_inv. intros b [Hb Hin]%list_elem_of_filter. specialize (Ha b Hin). lia. }
    rewrite E1, E2 in *. cbn in *. by f_equal.
Qed.

Definition below (id : nat) (l : list A) : nat := length (filter (fun a => key a < id) l).
Definition up_to (id : nat) (l : list A) : nat := length (filter (fun a => key a < id) l) + length (filter (fun a => key a = id) l).

Lemma sorted_index l id i a : StronglySorted (fun a b => key a <= key b) l -> l !! i = Some a ->
  (key a < id <-> i < below id l) /\ (key a <= id <-> i < up_to id l).
Proof.
  unfold below, up_to. intros Hs Hi. rewrite (sorted_parts l id Hs) in Hi.
  apply lookup_app_Some in Hi as [Hi|[Hge Hi]].
  - pose proof (lookup_lt_Some _ _ _ Hi). apply list_elem_of_lookup_2, list_elem_of_filter in Hi as [Hi _]. lia.
  - apply lookup_app_Some in Hi as [Hi|[Hge' Hi]].
    + pose proof (lookup_lt_Some _ _ _ Hi) as Hlt. apply list_elem_of_lookup_2, list_elem_of_filter in Hi as [Hi _]. lia.
    + apply list_elem_of_lookup_2, list_elem_of_filter in Hi as [Hi _]. lia.
Qed.

Lemma sorted_slice l id : StronglySorted (fun a b => key a <= key b) l ->
  take (up_to id l - below id l) (drop (below id l) l) = filter (fun a => key a = id) l.
Proof.
  unfold below, up_to. intros Hs. pose proof (sorted_parts l id Hs) as E. revert E.
  generalize (filter (fun a => key a < id) l) (filter (fun a => key a = id) l) (filter (fun a => id < key a) l).
  intros f e g ->. rewrite drop_app_length. replace (length f + length e - length f) with (length e) by lia. apply take_app_length.
Qed.

Lemma up_to_le l id : StronglySorted (fun a b => key a <= key b) l -> up_to id l <= length l.
Proof. intros Hs. unfold up_to. pose proof (f_equal length (sorted_parts l id Hs)) as H. rewrite !length_app in H. lia. Qed.
End Sorted.

Lemma bisect_spec fuel test lo hi k :
  (forall i, i < hi -> test i = true <-> i < k) -> lo <= k <= hi -> hi - lo <= fuel -> bisect fuel test lo hi = k.
Proof.
  revert lo hi. induction fuel as [|fuel IH]; intros lo hi Ht Hk Hf; cbn [bisect]; [lia|].
  destruct (Nat.ltb_spec lo hi); [|lia]. pose proof (mid_between lo hi ltac:(done)) as Hm.
  set (mid := lo + (hi - lo) / 2) in *. specialize (Ht mid) as Hmid. destruct (test mid).
  - apply IH; [done|naive_solver lia|lia].
  - apply IH; [intros; apply Ht; lia| |lia]. assert (~ mid < k) by (intros H'; apply Hmid in H'; [done|lia]). lia.
Qed.

(** * Reads of written arrays *)

Lemma drop_chunks {A} (enc : A -> bytes) w l i a :
  (forall a, length (enc a) = w) -> l !! i = Some a -> drop (i * w) (l ≫= enc) = enc a ++ (drop (S i) l ≫= enc).
Proof.
  intros Hw. revert i. induction l as [|b l IH]; intros i Hi; [done|]. rewrite bind_cons. destruct i as [|i].
  - by injection Hi as ->.
  - rewrite drop_app, Hw. replace (S i * w - w) with (i * w) by lia. rewrite (drop_ge (enc b)) by (rewrite Hw; lia).
    by apply IH.
Qed.

Section Arrays.
Variable outside : bytes -> nat -> N.

Lemma load_put k p off v rest :
  drop off p = put_le k v ++ rest -> (v < 2 ^ (8 * N.of_nat k))%N -> off <= length p -> load_le outside k p off = v.
Proof.
  intros E Hv Ho. unfold load_le. pose proof (f_equal length E) as Hl. rewrite length_drop, length_app, length_put_le in Hl.
  destruct (Nat.leb_spec (off + k) (length p)); [|lia]. rewrite E.
  assert (Et : take k (put_le k v ++ rest) = put_le k v) by (rewrite <- (length_put_le k v) at 1; apply take_app_length).
  rewrite Et. by apply le_roundtrip.
Qed.

(** The bytes behind a pointer are those of the array where it spans them. *)
Lemma view_inside p off len : off + len <= length p -> view_at outside p off len = take len (drop off p).
Proof.
  intros H. apply list_eq_same_length with len; [rewrite length_take, length_drop; lia|by unfold view_at; rewrite length_fmap, length_seq|].
  intros i a b Hi. unfold view_at. rewrite list_lookup_fmap, lookup_seq_lt by done. intros [= <-].
  rewrite lookup_take_lt, lookup_drop by done. intros Hb. unfold ldU8, load_le.
  destruct (Nat.leb_spec (off + i + 1) (length p)); [|lia]. rewrite (drop_S _ _ _ Hb). cbn. rewrite take_0.
  unfold le_value, byte_of. cbn. rewrite N.shiftl_0_r, N.lor_0_l. by rewrite Byte.of_to_N.
Qed.

Lemma chunk_in {A} (enc : A -> bytes) w l i a :
  (forall a, length (enc a) = w) -> l !! i = Some a -> i * w <= length (l ≫= enc).
Proof.
  intros Hw Hi%lookup_lt_Some. assert (E : length (l ≫= enc) = length l * w).
  { clear -Hw. induction l as [|b l IH]; [done|]. rewrite bind_cons, length_app, IH, Hw. cbn. lia. }
  rewrite E. nia.
Qed.

Lemma ld_ids l i v : l !! i = Some v -> u32_fits v -> ldU32 outside (l ≫= putU32) (i * 4) = v.
Proof.
  intros Hi Hv. eapply load_put; [by apply (drop_chunks putU32 4); [apply length_putU32|]|done|].
  by eapply chunk_in; [apply length_putU32|].
Qed.

Lemma ld_positions l i p : l !! i = Some p -> (N.of_nat p < two32)%N -> ldU32 outside (put_positions l) (i * 4) = N.of_nat p.
Proof.
  intros Hi Hv. unfold put_positions. eapply load_put; [|done|].
  - rewrite (drop_chunks _ 4 _ _ p); [|intros; apply length_putU32|done]. by rewrite u32_small.
  - eapply chunk_in; [intros; apply length_putU32|done].
Qed.

(** ** Records *)

(** The nine 32-bit fields of a record, in order. *)
Definition context_fields (se : StoredContext) : list N :=
  [sc_caller se; sc_callee se; sc_callerDisplay se; sc_calleeDisplay se; sc_site se; sc_tuPath se;
   sc_scopeSet se; sc_guardSet se; sc_raiiSet se].

Lemma emitContext_fields se :
  emitContext se = (context_fields se ≫= putU32) ++ putU8 (noexcept_code (sc_callerNoexcept se)) ++ put_bool (sc_insideCatchBlock se).
Proof. unfold emitContext, context_fields. cbn [mbind list_bind]. by rewrite app_nil_r, <- !(assoc_L (++)). Qed.

Section Record_.
Variable recs : list StoredContext.
Variables (pos : nat) (se : StoredContext).
Hypothesis Hpos : recs !! pos = Some se.

Lemma record_tail off : off <= kRecordBytes ->
  drop (pos * kRecordBytes + off) (recs ≫= emitContext) = drop off (emitContext se) ++ (drop (S pos) recs ≫= emitContext).
Proof.
  intros Ho. rewrite <- drop_drop, (drop_chunks emitContext kRecordBytes recs pos se length_emitContext Hpos).
  apply drop_app_le. by rewrite length_emitContext.
Qed.

Lemma record_in off : off <= kRecordBytes -> pos * kRecordBytes + off <= length (recs ≫= emitContext).
Proof.
  intros Ho. pose proof (f_equal length (drop_chunks emitContext kRecordBytes recs pos se length_emitContext Hpos)) as H.
  rewrite length_drop, length_app, length_emitContext in H. unfold kRecordBytes in *. lia.
Qed.

Lemma ld_field i v :
  context_fields se !! i = Some v -> u32_fits v -> ldU32 outside (recs ≫= emitContext) (pos * kRecordBytes + i * 4) = v.
Proof.
  intros Hi Hv. assert (i < 9) by (apply lookup_lt_Some in Hi; done).
  eapply load_put; [|done|apply record_in; unfold kRecordBytes; lia].
  rewrite record_tail by (unfold kRecordBytes; lia). rewrite emitContext_fields, drop_app_le.
  2:{ by eapply chunk_in; [apply length_putU32|]. }
  rewrite (drop_chunks putU32 4 _ i v length_putU32 Hi). unfold putU32. by rewrite <- !(assoc_L (++)).
Qed.

Lemma ld_flag i v :
  i < 2 -> (i = 0 -> v = noexcept_code (sc_callerNoexcept se)) -> (i = 1 -> v = if sc_insideCatchBlock se then 1%N else 0%N) -> (v < 256)%N ->
  ldU8 outside (recs ≫= emitContext) (pos * kRecordBytes + (36 + i)) = v.
Proof.
  intros Hi H0 H1 Hv. assert (Hl : length (context_fields se ≫= putU32) = 36) by (unfold context_fields; cbn [mbind list_bind]; rewrite !length_app, !length_putU32; done).
  assert (Ht : drop (pos * kRecordBytes + (36 + i)) (recs ≫= emitContext) =
    drop i (putU8 (noexcept_code (sc_callerNoexcept se)) ++ put_bool (sc_insideCatchBlock se)) ++ (drop (S pos) recs ≫= emitContext)).
  { rewrite record_tail by (unfold kRecordBytes; lia). rewrite emitContext_fields, <- drop_drop. rewrite <- Hl at 1. by rewrite drop_app_length. }
  destruct i as [|[|i]]; [| |lia]; (eapply load_put; [|done|apply record_in; unfold kRecordBytes; lia]); rewrite Ht.
  - rewrite (H0 eq_refl), drop_0. unfold putU8. rewrite <- (assoc_L (++)). done.
  - rewrite (H1 eq_refl). unfold putU8 at 1.
    pose proof (drop_app_length (put_le 1 (noexcept_code (sc_callerNoexcept se))) (put_bool (sc_insideCatchBlock se))) as E.
    rewrite length_put_le in E. rewrite E. done.
Qed.
End Record_.
End Arrays.

(** * What a read-only load attaches *)

Definition store_of (t : StringInterner) (recs : list StoredContext) : MappedStore :=
  let ids := table_size t in
  let callerDisplays := displayOrder ids recs sc_caller sc_callerDisplay in
  let calleeDisplays := displayOrder ids recs sc_callee sc_calleeDisplay in
  MkMapped (strings_ t ≫= putLenStr) (length (strings_ t ≫= putLenStr)) (N.of_nat ids) (string_offsets t ≫= putU32) (sorted_ids t ≫= putU32)
    (recs ≫= emitContext) (N.of_nat (length recs))
    (put_positions (positions_by ids recs sc_caller)) (put_positions (positions_by ids recs sc_callee))
    (put_positions callerDisplays) (N.of_nat (length callerDisplays))
    (put_positions calleeDisplays) (N.of_nat (length calleeDisplays)).

Lemma reads_array n w enc : length enc = N.to_nat n * w -> reads (takeArray n w) enc enc.
Proof.
  intros H. unfold takeArray. replace (n * N.of_nat w)%N with (N.of_nat (length enc)) by lia. apply reads_bytes.
Qed.

Lemma length_records recs : length (recs ≫= emitContext) = length recs * kRecordBytes.
Proof. induction recs as [|se recs IH]; [done|]. rewrite bind_cons, length_app, IH, length_emitContext. cbn. lia. Qed.

Lemma reads_records_fit {B} n (k : M B) enc e b :
  length enc = N.to_nat n * kRecordBytes -> reads k (enc ++ e) b -> reads (_ <-- records_fit_left n;; k) (enc ++ e) b.
Proof.
  intros Hl Hk tl. unfold bind, records_fit_left. cbn [ok rest andb]. rewrite !length_app, Hl.
  match goal with |- context [(?a / ?b <? ?c)%N] => destruct (N.ltb_spec (a / b) c) as [Hlt|_] end; [|apply Hk].
  exfalso. revert Hlt. apply N.le_ngt, N.div_le_lower_bound; [done|]. unfold kRecordBytes. lia.
Qed.

Lemma reads_attach t recs :
  len_fits recs ->
  reads (attachMapped (strings_ t ≫= putLenStr) (length (strings_ t ≫= putLenStr)) (N.of_nat (table_size t)))
    (put_list emitContext recs ++ emitLookups t recs) (store_of t recs).
Proof.
  intros Hr. unfold attachMapped, put_list, emitLookups. rewrite size32_fits by done. rewrite <- (assoc_L (++)).
  assert (Hd : forall usr display, length (displayOrder (table_size t) recs usr display) <= length recs) by (intros; apply length_displayOrder).
  assert (Hf : forall usr display, len_fits (displayOrder (table_size t) recs usr display)).
  { intros usr display. specialize (Hd usr display). unfold len_fits in *. lia. }
  assert (Hc : forall usr display, (N.of_nat (length recs) <? N.of_nat (length (displayOrder (table_size t) recs usr display)))%N = false).
  { intros usr display. apply N.ltb_ge. specialize (Hd usr display). lia. }
  rewrite !size32_fits by done.
  eapply reads_bind; [by apply reads_u32|]. apply reads_records_fit; [rewrite length_records; lia|].
  eapply reads_bind; [apply reads_array; rewrite length_records; lia|].
  eapply reads_bind; [apply reads_array; rewrite length_put_u32s, length_string_offsets; lia|].
  eapply reads_bind; [apply reads_array; rewrite length_put_u32s, length_sorted_ids; lia|].
  do 2 (eapply reads_bind; [apply reads_array; unfold positions_by; rewrite length_put_positions, length_orderBy, length_seq; lia|]).
  eapply reads_bind; [apply reads_u32, Hf|]. rewrite Hc. eapply reads_bind_check; [apply reads_ret|].
  eapply reads_bind; [apply reads_array; rewrite length_put_positions; lia|].
  eapply reads_bind; [apply reads_u32, Hf|]. rewrite Hc. eapply reads_bind_check; [apply reads_ret|].
  eapply reads_bind_last; [apply reads_array; rewrite length_put_positions; lia|]. apply reads_ret.
Qed.

Lemma reads_mapped_table t :
  (N.of_nat (table_size t) < two32)%N -> len_fits (emitInternerTable t) ->
  reads readMappedTable (emitStringTable t) (strings_ t ≫= putLenStr, length (strings_ t ≫= putLenStr), N.of_nat (table_size t)).
Proof.
  intros Ht Hlen tl. unfold readMappedTable, emitStringTable. rewrite size32_fits by done.
  rewrite <- (assoc_L (++)), (reads_u32 _ Hlen). cbn [rest].
  assert (Et : emitInternerTable t = putU32 (N.of_nat (table_size t)) ++ (strings_ t ≫= putLenStr)).
  { unfold emitInternerTable. by rewrite forEachString_bind, u32_small. }
  assert (Hc : r_u32 (MkReader (emitInternerTable t ++ tl) true) = (N.of_nat (table_size t), MkReader ((strings_ t ≫= putLenStr) ++ tl) true)).
  { rewrite Et, <- (assoc_L (++)). by apply reads_u32. }
  assert (Hl : length (emitInternerTable t) = 4 + length (strings_ t ≫= putLenStr)) by (by rewrite Et, length_app, length_putU32).
  rewrite Hc. cbn [ok rest andb]. rewrite length_app.
  destruct (N.ltb_spec (N.of_nat (length (emitInternerTable t))) 4); [lia|].
  destruct (N.ltb_spec (N.of_nat (length (emitInternerTable t) + length tl)) (N.of_nat (length (emitInternerTable t)))); [lia|].
  cbn [orb negb]. rewrite !Nat2N.id, drop_app_length. rewrite Hl.
  replace (4 + length (strings_ t ≫= putLenStr) - 4) with (length (strings_ t ≫= putLenStr)) by lia. by rewrite take_app_length.
Qed.

Section Read.
Variable isValidUtf8 : bytes -> bool.
Variable x : ControlFlowIndex.
Hypothesis Hx : cf_ok x.
Hypothesis Hfit : index_fits isValidUtf8 x.

Definition mapped_of : MappedIndex := MkMappedIndex (store_of (cf_interner_ x) (saved_contexts x)) (tables_of x).

Lemma mapped_read cast_raii :
  (forall k, cast_raii (raii_code k) = k) -> reads (read_mapped isValidUtf8 cast_raii) (emitControlFlow x) mapped_of.
Proof.
  intros Hc. rewrite (emitControlFlow_records x). destruct (if_table _ _ Hfit) as [T1 T2]. pose proof (cf_ids _ Hx) as Ht.
  unfold read_mapped. eapply reads_bind; [by apply reads_mapped_table|].
  eapply reads_bind; [rewrite <- (u32_small _ Ht); apply reads_tables; [done|done|by apply saved_tables_fit]|].
  eapply reads_bind_last; [apply reads_attach|apply reads_ret].
  pose proof (length_saved x Hx). pose proof (if_contexts _ _ Hfit). unfold len_fits in *. lia.
Qed.
End Read.

(** * Lookups in the attached store *)

Section Lookups.
Variable isValidUtf8 : bytes -> bool.
Variable cast_noexcept : N -> NoexceptSpec.
Hypothesis cast_noexcept_code : forall s, cast_noexcept (noexcept_code s) = s.
Variable outside : bytes -> nat -> N.
Variable t : StringInterner.
Hypothesis Ht : interner_ok t.
Hypothesis Hfit : table_fits isValidUtf8 t.
Hypothesis Hlen : len_fits (strings_ t ≫= putLenStr).
Variable recs : list StoredContext.
Hypothesis Hrecs : len_fits recs.

Abbreviation m := (store_of t recs).

(** ** Strings *)

Lemma string_offset_at id s :
  strings_ t !! id = Some s -> string_offsets t !! id = Some (u32 (N.of_nat (length (take id (strings_ t) ≫= putLenStr)))).
Proof.
  intros Hs. unfold string_offsets, forEachString.
  assert (H : forall ss offs n id s, ss !! id = Some s ->
    fst (foldl (fun '(offsets, size) s => (offsets ++ [u32 size], size + N.of_nat (length (putLenStr s))))%N (offs, n) ss) !! (length offs + id) =
    Some (u32 (n + N.of_nat (length (take id ss ≫= putLenStr))))).
  { clear. induction ss as [|s0 ss IH]; intros offs n id s Hs; [done|]. cbn [foldl].
    set (F := fun '(offsets, size) s => _) in *.
    assert (Hkeep : forall ss offs n i v, offs !! i = Some v -> fst (foldl F (offs, n) ss) !! i = Some v).
    { clear. induction ss as [|s ss IH]; intros offs n i v Hi; [done|]. cbn [foldl]. apply IH. by apply lookup_app_l_Some. }
    destruct id as [|id].
    - rewrite Nat.add_0_r. cbn [take mbind list_bind length]. rewrite N.add_0_r. apply Hkeep. by apply list_lookup_middle.
    - specialize (IH (offs ++ [u32 n]) (n + N.of_nat (length (putLenStr s0)))%N id s Hs). rewrite length_app in IH.
      replace (length offs + S id) with (length offs + length [u32 n] + id) by (cbn; lia). rewrite IH. cbn [take].
      rewrite bind_cons, length_app. do 2 f_equal. lia. }
  exact (H (strings_ t) [] 0%N id s Hs).
Qed.

Lemma mappedString_at id s : resolve_opt t id = Some s -> mappedString outside m id = s.
Proof.
  intros Hs. pose proof (resolve_opt_lt _ _ _ Hs) as Hid. unfold resolve_opt in Hs. unfold mappedString. cbn [store_of m_stringCount m_stringOffsets m_strings m_stringBytes].
  destruct (N.leb_spec (N.of_nat (table_size t)) id); [lia|].
  set (body := strings_ t ≫= putLenStr) in *. set (pre := take (N.to_nat id) (strings_ t) ≫= putLenStr).
  assert (Ebody : body = pre ++ putLenStr s ++ (drop (S (N.to_nat id)) (strings_ t) ≫= putLenStr)).
  { unfold body, pre. rewrite <- (take_drop_middle _ _ _ Hs) at 1. by rewrite bind_app, bind_cons. }
  assert (Hpre : length pre + 4 + length s <= length body).
  { rewrite Ebody, !length_app. unfold putLenStr. rewrite length_app, length_putU32. lia. }
  assert (Hs32 : len_fits s) by (unfold len_fits in *; lia).
  assert (Eoff : ldU32 outside (string_offsets t ≫= putU32) (N.to_nat id * 4) = N.of_nat (length pre)).
  { apply ld_ids; [|unfold u32_fits; unfold len_fits in Hlen; lia]. rewrite (string_offset_at _ _ Hs). f_equal. apply u32_small. fold pre. unfold len_fits in Hlen. lia. }
  rewrite Eoff, Nat2N.id. destruct (Nat.ltb_spec (length body) (length pre)); [lia|].
  destruct (Nat.ltb_spec (length body - length pre) 4); [lia|]. cbn [orb].
  assert (El : ldU32 outside body (length pre) = N.of_nat (length s)).
  { eapply load_put; [|exact Hs32|lia]. rewrite Ebody, drop_app_length. unfold putLenStr at 1. rewrite size32_fits by done.
    unfold putU32. by rewrite <- (assoc_L (++)). }
  rewrite El, Nat2N.id. destruct (Nat.ltb_spec (length body - length pre - 4) (length s)); [lia|].
  rewrite view_inside by lia. rewrite Ebody, <- drop_drop, drop_app_length. unfold putLenStr at 1. rewrite <- (assoc_L (++)).
  rewrite <- (length_putU32 (size32 s)) at 1. by rewrite drop_app_length, take_app_length.
Qed.

(** A string of the table is index text already. *)
Lemma stringOf_mapped_at id : known t id -> stringOf_mapped isValidUtf8 outside m id = resolve t id.
Proof.
  intros [s Hs]. unfold stringOf_mapped. rewrite (mappedString_at _ _ Hs), (resolve_of_opt _ _ _ Hs). unfold lookupText.
  destruct Hfit as [_ Hv]. unfold resolve_opt in Hs. eapply Forall_lookup in Hv as [_ ->]; done.
Qed.

(** ** Names *)

Lemma sorted_ids_perm : sorted_ids t ≡ₚ N.of_nat <$> seq 0 (table_size t).
Proof. apply merge_sort_Permutation. Qed.

Lemma elem_of_sorted_ids id : id ∈ sorted_ids t <-> known t id.
Proof.
  rewrite sorted_ids_perm, list_elem_of_fmap. unfold known. rewrite resolve_opt_is_Some. split.
  - intros (i & -> & Hi%elem_of_seq). lia.
  - intros Hi. exists (N.to_nat id). rewrite elem_of_seq. lia.
Qed.

#[local] Instance string_le_total : Total (string_le t).
Proof. intros a b. unfold string_le. apply total, _. Qed.
#[local] Instance string_le_trans : Transitive (string_le t).
Proof. intros a b c. unfold string_le. apply transitivity. Qed.

Lemma sorted_ids_sorted : StronglySorted (string_le t) (sorted_ids t).
Proof. apply StronglySorted_merge_sort; apply _. Qed.

Lemma sorted_before i j a b : i <= j -> sorted_ids t !! i = Some a -> sorted_ids t !! j = Some b -> string_le t a b.
Proof.
  intros Hij Ha Hb. pose proof sorted_ids_sorted as Hs. destruct (decide (i = j)) as [->|Hne].
  { rewrite Ha in Hb. injection Hb as ->. unfold string_le. reflexivity. }
  by apply (proj1 (StronglySorted_lookup _ _) Hs i j a b); [lia| |].
Qed.

(** Bisection over the sorted ids finds the id of the interner's index. *)
Lemma find_loop_at fuel key lo hi :
  hi <= table_size t -> hi - lo < fuel ->
  (forall i a, i < lo -> sorted_ids t !! i = Some a -> bytes_cmp (resolve t a) key = Lt) ->
  (forall i a, hi <= i -> sorted_ids t !! i = Some a -> bytes_cmp (resolve t a) key = Gt) ->
  find_loop outside fuel m key lo hi = find t key.
Proof.
  revert lo hi. induction fuel as [|fuel IH]; intros lo hi Hhi Hf Hlo Hup; [lia|]. cbn [find_loop].
  destruct (Nat.ltb_spec lo hi) as [Hlt|Hge].
  - pose proof (mid_between lo hi Hlt) as Hm. set (mid := lo + (hi - lo) / 2) in *.
    destruct (lookup_lt_is_Some_2 (sorted_ids t) mid) as [id Hid]; [rewrite length_sorted_ids; lia|].
    assert (Hk : known t id) by (apply elem_of_sorted_ids; by eapply list_elem_of_lookup_2).
    assert (Eid : ldU32 outside (m_sortedIds m) (mid * 4) = id).
    { apply ld_ids; [done|]. unfold u32_fits. apply known_fits in Hk. unfold id_fits in Hk. destruct Hfit as [? _]. lia. }
    rewrite Eid. destruct Hk as [s Hs]. rewrite (mappedString_at _ _ Hs).
    assert (Es : resolve t id = s) by (by apply resolve_of_opt).
    destruct (bytes_cmp s key) eqn:Ec.
    + apply bytes_cmp_eq in Ec as ->. symmetry. by apply resolve_find.
    + apply IH; [done|lia| |done]. intros i a Hi Ha. pose proof (sorted_before i mid a id ltac:(lia) Ha Hid) as Hle.
      unfold string_le, bytes_le in Hle. rewrite Es in Hle. destruct (bytes_cmp (resolve t a) s) eqn:Ea; [|by eapply bytes_cmp_lt_trans|done].
      apply bytes_cmp_eq in Ea. by rewrite Ea.
    + apply IH; [lia|lia|done|]. intros i a Hi Ha. pose proof (sorted_before mid i id a ltac:(lia) Hid Ha) as Hle.
      unfold string_le, bytes_le in Hle. rewrite Es in Hle. rewrite bytes_cmp_antisym in Ec. rewrite bytes_cmp_antisym.
      destruct (bytes_cmp key s) eqn:Ek; try done. destruct (bytes_cmp s (resolve t a)) eqn:Ea; [|by rewrite (bytes_cmp_lt_trans _ _ _ Ek Ea)|done].
      apply bytes_cmp_eq in Ea. rewrite <- Ea. by rewrite Ek.
  - symmetry. destruct (find t key) as [id|] eqn:Ef; [|done]. exfalso. apply find_resolve in Ef; [|done].
    assert (Hk : known t id) by (by eexists). apply elem_of_sorted_ids, list_elem_of_lookup in Hk as [i Hi].
    pose proof (resolve_of_opt _ _ _ Ef) as Es. destruct (decide (i < lo)) as [H|H].
    + specialize (Hlo i id H Hi). rewrite Es, bytes_cmp_refl in Hlo. done.
    + specialize (Hup i id ltac:(lia) Hi). rewrite Es, bytes_cmp_refl in Hup. done.
Qed.

Lemma findId_mapped_at raw : findId_mapped isValidUtf8 outside m raw = find t (lookupText isValidUtf8 raw).
Proof.
  unfold findId_mapped. cbn [store_of m_stringCount]. rewrite Nat2N.id. apply find_loop_at; [done|lia|lia|].
  intros i a Hi Ha%lookup_lt_Some. rewrite length_sorted_ids in Ha. lia.
Qed.

(** ** Ranges *)

(** The id fields a range is searched by, with their offset. *)
Definition field_at (i : nat) (field : StoredContext -> SId) : Prop :=
  forall se, context_fields se !! i = Some (field se).

Hypothesis Hids : forall se, se ∈ recs -> Forall u32_fits (context_fields se).

Lemma field_value i field pos :
  field_at i field -> pos < length recs -> ldU32 outside (recs ≫= emitContext) (pos * kRecordBytes + i * 4) = N.of_nat (key_at recs field pos).
Proof.
  intros Hi Hp. destruct (lookup_lt_is_Some_2 recs pos Hp) as [se Hse]. unfold key_at. rewrite Hse, N2Nat.id.
  apply (ld_field outside recs pos se Hse); [apply Hi|].
  specialize (Hids se (list_elem_of_lookup_2 _ _ _ Hse)). eapply Forall_lookup in Hids; [done|apply Hi].
Qed.

(** The order array of a list of positions; none stands for the positions themselves. *)
Definition order_of (order : option bytes) (l : list nat) : Prop :=
  match order with Some p => p = put_positions l | None => l = seq 0 (length recs) end.

Lemma fieldAt_value order l i field j pos :
  order_of order l -> field_at i field -> l !! j = Some pos -> pos < length recs ->
  fieldAt outside m order (i * 4) j = N.of_nat (key_at recs field pos).
Proof.
  intros Ho Hf Hj Hp. unfold fieldAt. cbn [store_of m_recordCount m_records].
  assert (E : match order with Some p => ldU32 outside p (j * 4) | None => N.of_nat j end = N.of_nat pos).
  { destruct order as [p|]; cbn in Ho; subst.
    - apply ld_positions; [done|]. unfold len_fits in Hrecs. lia.
    - apply lookup_seq in Hj as [-> _]. done. }
  rewrite E. destruct (N.leb_spec (N.of_nat (length recs)) (N.of_nat pos)); [lia|]. rewrite Nat2N.id. by apply field_value.
Qed.

Lemma mappedRange_at order l i field id :
  order_of order l -> field_at i field -> (forall pos, pos ∈ l -> pos < length recs) ->
  StronglySorted (fun a b => key_at recs field a <= key_at recs field b) l ->
  mappedRange outside m order (length l) (i * 4) id = (below (key_at recs field) (N.to_nat id) l, up_to (key_at recs field) (N.to_nat id) l).
Proof.
  intros Ho Hf Hl Hs. unfold mappedRange. set (key := key_at recs field) in *.
  pose proof (up_to_le key l (N.to_nat id) Hs) as Hup. assert (Hbu : below key (N.to_nat id) l <= up_to key (N.to_nat id) l) by (unfold below, up_to; lia).
  assert (Hval : forall j, j < length l -> exists pos, l !! j = Some pos /\ fieldAt outside m order (i * 4) j = N.of_nat (key pos)).
  { intros j Hj. destruct (lookup_lt_is_Some_2 l j Hj) as [pos Hpos]. exists pos. split; [done|].
    eapply fieldAt_value; [done|done|done|]. apply Hl. by eapply list_elem_of_lookup_2. }
  assert (E1 : bisect (length l) (fun j => fieldAt outside m order (i * 4) j <? id)%N 0 (length l) = below key (N.to_nat id) l).
  { apply bisect_spec; [|lia|lia]. intros j Hj. destruct (Hval j Hj) as (pos & Hpos & ->).
    destruct (sorted_index key l (N.to_nat id) j pos Hs Hpos) as [<- _]. rewrite N.ltb_lt. lia. }
  rewrite E1. f_equal. apply bisect_spec; [|lia|lia]. intros j Hj. destruct (Hval j Hj) as (pos & Hpos & ->).
  destruct (sorted_index key l (N.to_nat id) j pos Hs Hpos) as [_ <-]. rewrite N.leb_le. lia.
Qed.

Lemma seq_slice {A} (f : nat -> A) (l : list A) a n : (forall j v, l !! j = Some v -> f j = v) -> a + n <= length l -> f <$> seq a n = take n (drop a l).
Proof.
  intros Hf Hl. apply list_eq_same_length with n.
  - by rewrite length_take, length_drop, Nat.min_l by lia.
  - by rewrite length_fmap, length_seq.
  - intros j u v Hj Hu Hv. rewrite list_lookup_fmap, lookup_seq_lt in Hu by done. injection Hu as <-.
    rewrite lookup_take_lt, lookup_drop in Hv by done. by apply Hf.
Qed.

(** The positions a range stands for: the positions of the list whose field is the id. *)
Lemma range_filter order l i field id :
  order_of order l -> field_at i field -> (forall pos, pos ∈ l -> pos < length recs) ->
  StronglySorted (fun a b => key_at recs field a <= key_at recs field b) l ->
  let '(first, last) := mappedRange outside m order (length l) (i * 4) id in
  first <= last /\ (first = last <-> filter (fun p => key_at recs field p = N.to_nat id) l = []) /\
  (match order with Some p => (fun i => N.to_nat (ldU32 outside p (i * 4))) <$> seq first (last - first) | None => seq first (last - first) end) =
  filter (fun p => key_at recs field p = N.to_nat id) l.
Proof.
  intros Ho Hf Hl Hs. rewrite (mappedRange_at order l i field id) by done. set (key := key_at recs field) in *.
  pose proof (up_to_le key l (N.to_nat id) Hs) as Hup. assert (Hbu : up_to key (N.to_nat id) l = below key (N.to_nat id) l + length (filter (fun p => key p = N.to_nat id) l)) by done.
  split_and!; [lia| |].
  - rewrite <- length_zero_iff_nil. lia.
  - rewrite <- (sorted_slice key l (N.to_nat id) Hs). destruct order as [p|]; cbn in Ho; subst.
    + apply seq_slice; [|lia]. intros j v Hv. rewrite (ld_positions outside l j v Hv); [lia|].
      specialize (Hl v (list_elem_of_lookup_2 _ _ _ Hv)). unfold len_fits in Hrecs. lia.
    + rewrite <- (list_fmap_id (seq _ _)). apply seq_slice; [|lia]. by intros j v [-> _]%lookup_seq.
Qed.
End Lookups.

(** * The two forms of a saved index *)

Section Forms.
Variable isValidUtf8 : bytes -> bool.
Variable cast_noexcept : N -> NoexceptSpec.
Hypothesis cast_noexcept_code : forall s, cast_noexcept (noexcept_code s) = s.
Variable outside : bytes -> nat -> N.
Variable x : ControlFlowIndex.
Hypothesis Hx : cf_ok x.
Hypothesis Hfit : index_fits isValidUtf8 x.

Abbreviation t := (cf_interner_ x).
Abbreviation recs := (saved_contexts x).
Abbreviation y := (foldl install_context (index_of_tables t (tables_of x)) recs).

Lemma saved_fields se : se ∈ recs -> Forall u32_fits (context_fields se).
Proof.
  intros Hse. destruct (saved_context_fits x Hx se Hse) as [H1 H2 H3 H4 H5 _].
  destruct (saved_tables_fit x Hx isValidUtf8 Hfit) as [[F1 _] [F2 _] [F3 _] _]. pose proof (cf_ids _ Hx) as Hsz.
  rewrite !Forall_cons in H1. destruct H1 as (? & ? & ? & ? & ? & _). unfold context_fields, len_fits, u32_fits, id_fits, kNoString in *.
  rewrite !Forall_cons. split_and!; try lia. done.
Qed.

Lemma saved_len : len_fits recs.
Proof. pose proof (length_saved x Hx). pose proof (if_contexts _ _ Hfit). unfold len_fits in *. lia. Qed.

Lemma body_len : len_fits (strings_ t ≫= putLenStr).
Proof.
  destruct (if_table _ _ Hfit) as [_ H]. unfold len_fits, emitInternerTable in *. rewrite forEachString_bind, length_app, length_putU32 in H. lia.
Qed.

Lemma saved_live p se : recs !! p = Some se -> sc_live se = true.
Proof. intros H%list_elem_of_lookup_2. by apply (saved_stored x Hx). Qed.

(** ** Positions *)

Lemma key_positions field (id : SId) :
  filter (fun p => key_at recs field p = N.to_nat id) (seq 0 (length recs)) = positions (fun se => field se =? id)%N recs.
Proof.
  unfold positions. apply filter_ext_in. intros p [_ Hp]%elem_of_seq. unfold key_at.
  destruct (recs !! p) as [se|] eqn:E; [|apply lookup_ge_None in E; lia]. rewrite (saved_live p se E). cbn [andb]. rewrite N.eqb_eq. lia.
Qed.

Lemma display_positions usr display (id : SId) :
  filter (fun p => key_at recs display p = N.to_nat id) (filter (holds_at (fun se => display se <> usr se) recs) (seq 0 (length recs))) =
  positions (fun se => (display se =? id)%N && negb (display se =? usr se)%N) recs.
Proof.
  unfold positions. rewrite list_filter_filter. apply filter_ext_in. intros p [_ Hp]%elem_of_seq. unfold key_at, holds_at.
  destruct (recs !! p) as [se|] eqn:E; [|apply lookup_ge_None in E; lia]. rewrite (saved_live p se E). cbn [andb].
  rewrite andb_true_iff, negb_true_iff, N.eqb_eq, N.eqb_neq. lia.
Qed.

(** The keys of the orders are ids of the table. *)
Lemma key_bound field : (forall se, stored_ok x se -> known t (field se)) -> forall p, p < length recs -> key_at recs field p < table_size t.
Proof.
  intros Hk p Hp. unfold key_at. destruct (lookup_lt_is_Some_2 recs p Hp) as [se E]. rewrite E.
  destruct (saved_stored x Hx se (list_elem_of_lookup_2 _ _ _ E)) as [Hse _]. specialize (Hk se Hse).
  apply known_fits in Hk. unfold id_fits in Hk. lia.
Qed.

(** An order array: its items, sorted, and the items of one id. *)
Lemma order_facts field items :
  (forall se, stored_ok x se -> known t (field se)) -> (forall p, p ∈ items -> p < length recs) ->
  let l := orderBy (table_size t) (key_at recs field) items in
  (forall p, p ∈ l -> p < length recs) /\
  StronglySorted (fun a b => key_at recs field a <= key_at recs field b) l /\
  (forall id : SId, filter (fun p => key_at recs field p = N.to_nat id) l = filter (fun p => key_at recs field p = N.to_nat id) items).
Proof.
  intros Hk Hi. assert (Hb : forall p, p ∈ items -> key_at recs field p < table_size t) by (intros p Hp; apply key_bound; auto).
  cbn zeta. rewrite orderBy_grouped by done. split_and!.
  - intros p Hp. rewrite (grouped_perm _ _ _ Hb) in Hp. auto.
  - apply grouped_sorted.
  - intros id. destruct (decide (N.to_nat id < table_size t)) as [H|H]; [by apply group_grouped|].
    assert (Hno : forall l, l ≡ₚ items -> filter (fun p => key_at recs field p = N.to_nat id) l = []).
    { intros l Hl. apply elem_of_nil_inv. intros p [Hp Hin]%list_elem_of_filter. rewrite Hl in Hin. specialize (Hb p Hin). lia. }
    rewrite !Hno; [done|done|by apply grouped_perm].
Qed.

Abbreviation mx := (mapped_of x).
Abbreviation st := (store_of t recs).

Lemma find_same raw : findId_mapped isValidUtf8 outside st raw = findId isValidUtf8 y raw.
Proof.
  destruct (loaded_inserted x Hx) as [_ _ [I _ _ _] _ _]. unfold findId. rewrite I.
  apply findId_mapped_at; [apply Hx|apply (if_table _ _ Hfit)|apply body_len|apply saved_len].
Qed.

Lemma site_positions_same site : sitePositions_mapped isValidUtf8 outside st site = sitePositions isValidUtf8 y site.
Proof.
  destruct (loaded_inserted x Hx) as [I1 _ _ _ I5]. unfold sitePositions_mapped, sitePositions. rewrite find_same.
  destruct (findId isValidUtf8 y site) as [id|]; [|done].
  pose proof (range_filter outside t recs saved_len saved_fields None (seq 0 (length recs)) 4 sc_site id) as H.
  rewrite length_seq in H. cbn [store_of m_recordCount]. rewrite Nat2N.id. change kFieldSite with (4 * 4).
  destruct (mappedRange _ _ _ _ _ _) as [first last]. destruct H as (_ & _ & ->); [done|by intros se| | |].
  - intros p Hp%elem_of_seq. lia.
  - pose proof (saved_sorted x Hx) as Hs. apply StronglySorted_lookup.
    intros i j a b Hij [-> Hi]%lookup_seq [-> Hj]%lookup_seq. cbn [Nat.add]. unfold key_at.
    destruct (lookup_lt_is_Some_2 recs i Hi) as [sa Ea], (lookup_lt_is_Some_2 recs j Hj) as [sb Eb]. rewrite Ea, Eb.
    pose proof (proj1 (StronglySorted_lookup _ _) Hs i j sa sb Hij Ea Eb) as Hle. cbn in Hle. lia.
  - rewrite vec_match, (mp_site _ (cf_maps _ I1)), I5. apply key_positions.
Qed.

(** ** Names *)

(** The positions of a usr entry, and of a display entry when there is none. *)
Lemma resident_names (mu md : gmap SId (list nat)) (id : SId) :
  (forall k, mu !! k <> Some []) ->
  match mu !! id with Some v => v | None => match md !! id with Some v => v | None => [] end end =
  match vec_at mu id with [] => vec_at md id | v => v end.
Proof.
  intros Hf. specialize (Hf id). unfold vec_at. destruct (mu !! id) as [[|a l]|]; [done|done|]. cbn. by destruct (md !! id).
Qed.

Lemma order_range field items i (id : SId) (l := orderBy (table_size t) (key_at recs field) items) :
  (forall se, stored_ok x se -> known t (field se)) -> (forall p, p ∈ items -> p < length recs) -> field_at i field ->
  let '(first, last) := mappedRange outside st (Some (put_positions l)) (length l) (i * 4) id in
  (first = last <-> filter (fun p => key_at recs field p = N.to_nat id) items = []) /\
  ((fun i => N.to_nat (ldU32 outside (put_positions l) (i * 4))) <$> seq first (last - first)) = filter (fun p => key_at recs field p = N.to_nat id) items.
Proof.
  intros Hk Hi Hf. destruct (order_facts field items Hk Hi) as (O1 & O2 & O3).
  pose proof (range_filter outside t recs saved_len saved_fields (Some (put_positions l)) l i field id eq_refl Hf O1 O2) as H.
  fold l in O3. rewrite O3 in H. destruct (mappedRange _ _ _ _ _ _) as [first last]. by destruct H as (_ & H1 & H2).
Qed.

(** One side of the name lookup. *)
Lemma names_same usr display iu idisp (id : SId) (usrs := positions_by (table_size t) recs usr) (displays := displayOrder (table_size t) recs usr display) :
  (forall se, stored_ok x se -> known t (usr se)) -> (forall se, stored_ok x se -> known t (display se)) ->
  field_at iu usr -> field_at idisp display ->
  (let '(first, last) := mappedRange outside st (Some (put_positions usrs)) (length recs) (iu * 4) id in
   let '(order, (first, last)) :=
     if (first =? last)%nat
     then (put_positions displays, mappedRange outside st (Some (put_positions displays)) (length displays) (idisp * 4) id)
     else (put_positions usrs, (first, last)) in
   (fun i => N.to_nat (ldU32 outside order (i * 4))) <$> seq first (last - first)) =
  match positions (fun se => usr se =? id)%N recs with
  | [] => positions (fun se => (display se =? id)%N && negb (display se =? usr se)%N) recs
  | v => v
  end.
Proof.
  intros Hu Hd Fu Fd. rewrite <- (key_positions usr id), <- (display_positions usr display id).
  assert (Hseq : forall p, p ∈ seq 0 (length recs) -> p < length recs) by (intros p Hp%elem_of_seq; lia).
  pose proof (order_range usr (seq 0 (length recs)) iu id Hu Hseq Fu) as R. fold usrs in R.
  assert (El : length usrs = length recs) by (unfold usrs, positions_by; by rewrite length_orderBy, length_seq). 
  change (orderBy (table_size t) (key_at recs usr) (seq 0 (length recs))) with usrs in R. rewrite El in R.
  destruct (mappedRange outside st (Some (put_positions usrs)) _ _ id) as [first last]. destruct R as [R1 R2].
  destruct (Nat.eqb_spec first last) as [E|E].
  - apply R1 in E. rewrite E.
    pose proof (order_range display (filter (holds_at (fun se => display se <> usr se) recs) (seq 0 (length recs))) idisp id Hd) as D.
    change (orderBy (table_size t) (key_at recs display) (filter (holds_at (fun se => display se <> usr se) recs) (seq 0 (length recs)))) with displays in D.
    destruct (mappedRange outside st (Some (put_positions displays)) _ _ id) as [f l]. apply D; [|done].
    intros p [_ Hp]%list_elem_of_filter. by apply Hseq.
  - rewrite R2. destruct (filter _ (seq 0 (length recs))) eqn:Ef; [|done]. exfalso. by apply E, R1.
Qed.

Lemma name_positions_same side name : namePositions_mapped isValidUtf8 outside st side name = namePositions isValidUtf8 y side name.
Proof.
  destruct (loaded_inserted x Hx) as [I1 I2 _ _ I5]. unfold namePositions_mapped, namePositions. rewrite find_same.
  destruct (findId isValidUtf8 y name) as [id|]; [|done]. pose proof (cf_maps _ I1) as Hm. destruct side.
  - rewrite (resident_names (byCaller_ y)) by (intros k; apply I2). rewrite (mp_caller _ Hm), (mp_callerDisplay _ Hm), I5.
    rewrite <- (names_same sc_caller sc_callerDisplay 0 2 id) by (done || by intros se []). cbn [store_of m_recordCount m_byCaller m_byCallerDisplay m_callerDisplayCount].
    by rewrite !Nat2N.id.
  - rewrite (resident_names (byCallee_ y)) by (intros k; apply I2). rewrite (mp_callee _ Hm), (mp_calleeDisplay _ Hm), I5.
    rewrite <- (names_same sc_callee sc_calleeDisplay 1 3 id) by (done || by intros se []). cbn [store_of m_recordCount m_byCallee m_byCalleeDisplay m_calleeDisplayCount].
    by rewrite !Nat2N.id.
Qed.

(** ** Records *)

Lemma record_same pos se : recs !! pos = Some se -> mappedRecord cast_noexcept outside mx pos = se.
Proof.
  intros Hp. pose proof (lookup_lt_Some _ _ _ Hp) as Hlt. pose proof (list_elem_of_lookup_2 _ _ _ Hp) as Hin.
  pose proof (saved_fields se Hin) as Hf. pose proof (saved_live pos se Hp) as Hl.
  destruct (saved_context_fits x Hx se Hin) as [H1 H2 H3 H4 H5 _]. rewrite !Forall_cons in H1. destruct H1 as (C1 & C2 & C3 & C4 & C5 & _).
  assert (Hld : forall i v, context_fields se !! i = Some v -> ldU32 outside (recs ≫= emitContext) (pos * kRecordBytes + i * 4) = v).
  { intros i v Hi. apply (ld_field outside recs pos se Hp i v Hi). by eapply Forall_lookup in Hf. }
  unfold mappedRecord, mapped_of. cbn [mi_store mi_tables store_of m_recordCount m_records m_stringCount tables_of tb_scopes tb_guards tb_raiis].
  destruct (N.leb_spec (N.of_nat (length recs)) (N.of_nat pos)); [lia|].
  change kFieldCaller with (0 * 4). change kFieldCallee with (1 * 4). change kFieldCallerDisplay with (2 * 4).
  change kFieldCalleeDisplay with (3 * 4). change kFieldSite with (4 * 4). change kFieldTuPath with (5 * 4). change kFieldScopeSet with (6 * 4).
  change kFieldGuardSet with (7 * 4). change kFieldRaiiSet with (8 * 4). change kFieldNoexcept with (36 + 0). change kFieldInsideCatch with (36 + 1).
  rewrite (Hld 0 (sc_caller se) eq_refl), (Hld 1 (sc_callee se) eq_refl), (Hld 2 (sc_callerDisplay se) eq_refl), (Hld 3 (sc_calleeDisplay se) eq_refl),
    (Hld 4 (sc_site se) eq_refl), (Hld 5 (sc_tuPath se) eq_refl), (Hld 6 (sc_scopeSet se) eq_refl), (Hld 7 (sc_guardSet se) eq_refl), (Hld 8 (sc_raiiSet se) eq_refl).
  rewrite (ld_flag outside recs pos se Hp 0 (noexcept_code (sc_callerNoexcept se))) by (lia || done || by destruct (sc_callerNoexcept se)).
  rewrite (ld_flag outside recs pos se Hp 1 (if sc_insideCatchBlock se then 1 else 0)%N) by (lia || done || by destruct (sc_insideCatchBlock se)).
  rewrite cast_noexcept_code. unfold id_fits in *. cbn [tables_of tb_scopes tb_guards tb_raiis] in H3, H4, H5.
  assert (Etu : (sc_tuPath se =? kNoString)%N || (sc_tuPath se <? N.of_nat (table_size t))%N = true).
  { apply orb_true_iff. rewrite N.eqb_eq, N.ltb_lt. destruct H2; [by left|by right]. }
  rewrite Etu, !(proj2 (N.ltb_lt _ _)) by lia. clear -Hl. destruct se as [? ? ? ? ? ? ? ? ? ? [] ?]; cbn in *; by rewrite Hl.
Qed.

Lemma record_beyond pos : length recs <= pos -> sc_live (mappedRecord cast_noexcept outside mx pos) = false.
Proof.
  intros H. unfold mappedRecord. cbn [mapped_of mi_store store_of m_recordCount].
  destruct (N.leb_spec (N.of_nat (length recs)) (N.of_nat pos)); [done|lia].
Qed.

(** ** The views agree *)

Lemma forms_agree : same_view (mapped isValidUtf8 cast_noexcept outside mx) (resident isValidUtf8 y).
Proof.
  destruct (loaded_inserted x Hx) as [I1 _ I3 _ I5]. split; cbn [mapped resident v_findId v_sitePositions v_namePositions v_stored v_materialize].
  - apply find_same.
  - apply site_positions_same.
  - apply name_positions_same.
  - intros keep ps. unfold live_in. cbn [mapped resident v_storedAt]. apply omap_ext_in. intros pos _. rewrite I5.
    destruct (recs !! pos) as [se|] eqn:E; [by rewrite (record_same pos se E)|]. by rewrite record_beyond by (by apply lookup_ge_None).
  - intros keep ps se. unfold live_in. cbn [resident v_storedAt]. intros (pos & _ & H)%list_elem_of_omap.
    destruct (contexts_ y !! pos) as [se'|] eqn:E; [|done]. destruct (sc_live se' && keep se'); [|done]. injection H as <-.
    by eapply list_elem_of_lookup_2.
  - rewrite I5. cbn [mapped_of mi_store store_of m_recordCount]. rewrite Nat2N.id. apply list_eq_same_length with (length recs); [done|by rewrite length_fmap, length_seq|].
    intros i a b Hi Ha Hb. rewrite list_lookup_fmap, lookup_seq_lt in Ha by done. injection Ha as <-. by apply record_same.
  - intros se Hse _. rewrite I5 in Hse. destruct (saved_stored x Hx se Hse) as [Hok _].
    rewrite (same_materialize _ _ I3). cbn [mapped_of mi_store mi_tables tables_of tb_scopes tb_guards tb_raiis]. unfold cf_materialize, materialize_with.
    assert (Hs : forall id, known t id -> stringOf_mapped isValidUtf8 outside st id = stringOf x id).
    { intros id Hid. apply stringOf_mapped_at; [apply (if_table _ _ Hfit)|apply body_len|apply saved_len|done]. }
    destruct Hok as [K1 K2 K3 K4 K5 K6 _ _ [rs Hrs]]. rewrite !Hs by done. f_equal.
    + case_decide; [done|]. destruct K6 as [?|[? _]]; [done|by apply Hs].
    + unfold set_of. rewrite Hrs. cbn [from_option]. apply list_fmap_ext. intros i l Hi. unfold raii_with.
      pose proof (cf_locals _ Hx _ _ Hrs) as Hl. eapply Forall_lookup in Hl as (? & ? & ?); [|done]. by rewrite !Hs.
Qed.
End Forms.

(** * Truncation *)

#[global] Instance mapped_table_decoder : Decoder readMappedTable.
Proof.
  split; unfold readMappedTable.
  - intros r Hr. destruct (r_u32 r) as [n r1] eqn:E1. destruct (r_u32 r1) as [c r2] eqn:E2.
    assert (H1 : ok r1 = false) by (pose proof (decoder_sticky (m := r_u32) r Hr) as H; by rewrite E1 in H).
    assert (H2 : ok r2 = false) by (pose proof (decoder_sticky (m := r_u32) r1 H1) as H; by rewrite E2 in H).
    by rewrite H2.
  - intros b o tl. destruct (r_u32 (MkReader b o)) as [n [b1 o1]] eqn:E1. destruct (r_u32 (MkReader b1 o1)) as [c [b2 o2]] eqn:E2.
    cbn [rest ok]. destruct (o2 && _) eqn:Ef; [|done]. cbn [fst snd ok rest]. intros _. apply andb_true_iff in Ef as [-> Hn].
    pose proof (ok_before r_u32 _ _ _ E2 eq_refl) as Ho1. cbn in Ho1. subst o1.
    pose proof (decoder_stable (m := r_u32) b o tl) as S1. rewrite E1 in S1. rewrite (S1 eq_refl). cbn [fst snd rest].
    pose proof (decoder_stable (m := r_u32) b1 true tl) as S2. rewrite E2 in S2. rewrite (S2 eq_refl). cbn [fst snd ok rest andb].
    apply negb_true_iff, orb_false_iff in Hn as [Hn1 Hn2]. rewrite Hn1. apply N.ltb_ge in Hn1, Hn2. rewrite length_app.
    destruct (N.ltb_spec (N.of_nat (length b1 + length tl)) n); [lia|]. cbn [orb negb].
    assert (Hb2 : length b1 = 4 + length b2).
    { unfold r_u32, read_le, bind, need, advance, ret in E2. cbn [ok rest negb orb] in E2.
      destruct (N.ltb_spec (N.of_nat (length b1)) (N.of_nat 4)); [done|]. injection E2 as _ <-. rewrite length_drop. lia. }
    rewrite take_app_le, drop_app_le by lia. done.
Qed.

#[global] Instance read_mapped_decoder isValidUtf8 cast_raii : Decoder (read_mapped isValidUtf8 cast_raii).
Proof.
  unfold read_mapped, attachMapped. apply bind_decoder; [apply _|]. intros [[s size] c].
  unfold readSetTables, readScope, readHandler, readGuard, readRaii, gid. apply _.
Qed.

(** * The equivalence *)

Lemma mapped_loaded isValidUtf8 cast_raii cast_noexcept outside x :
  cf_casts_ok cast_raii cast_noexcept -> cf_ok x -> index_fits isValidUtf8 x ->
  loadMapped isValidUtf8 cast_raii (emitControlFlow x) = Some (mapped_of x) /\
  answers_alike (mapped isValidUtf8 cast_noexcept outside (mapped_of x)) (resident isValidUtf8 (reloaded x)).
Proof.
  intros [C1 C2] Hx Hfit. split; [by apply section_read, mapped_read|]. apply same_view_answers. by apply forms_agree.
Qed.

(** C15. The mapped form of a saved index answers every query exactly as the resident form a
    mutable load builds from the same bytes: bisection in the sorted ids finds the ids of
    the interner, bisection in the order arrays finds the positions of the lookup maps in
    their order, and the records read in place are the stored contexts.  Its strings are
    read where they are.  A section cut short or extended is refused here too. *)
Theorem mapped_answers_like_resident (isValidUtf8 : bytes -> bool) cast_raii cast_noexcept (outside : bytes -> nat -> N) (x : ControlFlowIndex)
    (Hcasts : cf_casts_ok cast_raii cast_noexcept) (Hx : cf_ok x) (Hfit : index_fits isValidUtf8 x) :
  (exists m y, loadMapped isValidUtf8 cast_raii (emitControlFlow x) = Some m /\
     loadControlFlow isValidUtf8 cast_raii cast_noexcept (emitControlFlow x) = Some y /\
     answers_alike (mapped isValidUtf8 cast_noexcept outside m) (resident isValidUtf8 y) /\
     (forall s, findId_mapped isValidUtf8 outside (mi_store m) s = findId isValidUtf8 y s) /\
     (forall id, known (cf_interner_ y) id -> stringOf_mapped isValidUtf8 outside (mi_store m) id = stringOf y id)) /\
  (forall b tl, tl <> [] -> b ++ tl = emitControlFlow x \/ b = emitControlFlow x ++ tl -> loadMapped isValidUtf8 cast_raii b = None).
Proof.
  destruct (mapped_loaded isValidUtf8 cast_raii cast_noexcept outside x Hcasts Hx Hfit) as [Hm Ha]. destruct Hcasts as [C1 C2]. split.
  - exists (mapped_of x), (reloaded x). split; [done|]. split; [by apply section_read, control_flow_read|]. split; [done|split].
    + intros s. by apply find_same.
    + intros id. destruct (loaded_inserted x Hx) as [_ _ [I _ _ _] _ _]. unfold stringOf. rewrite I. intros Hid.
      apply stringOf_mapped_at; [apply (if_table _ _ Hfit)|by apply (body_len isValidUtf8)|by apply (saved_len isValidUtf8)|done].
  - intros b tl Htl Hb. by eapply section_exact; [apply _|by apply (mapped_read isValidUtf8 x Hx Hfit cast_raii)|exact Htl|].
Qed.

(** ** Examples *)

Definition raii_of_code (n : N) : RaiiKind := match n with 0 => Lock | 1 => SmartPtr | _ => Other end%N.
Definition noexcept_of_code (n : N) : NoexceptSpec :=
  match n with 0 => NoSpec | 1 => Noexcept | 2 => NoexceptFalse | 3 => ThrowNone | _ => UnknownSpec end%N.

Lemma cf_codes_ok : cf_casts_ok raii_of_code noexcept_of_code.
Proof. split; by intros []. Qed.

(** An index with a tombstone, its sites out of order, a try scope, a guard and a lock. *)
Definition guarded_context : CallSiteContext :=
  MkContext (str "g") (str "h") (str "a.cpp:9:1") [] (str "c:@F@h") (str "b.cpp")
    [MkScope (str "a.cpp:8:1") (str "g") [MkHandler (str "E") false (str "a.cpp:10:1") (str "log") true] 1]
    [MkGuard (str "p") (str "a.cpp:7:3") true false] Noexcept true [MkRaii (str "lock_guard") (str "l") (str "a.cpp:8:9") Lock].

Definition saved_index : ControlFlowIndex :=
  (@cf_removeTUs canonical_iter [str "a.cpp"] (addCallSiteContext guarded_context two_sites)).1.

Lemma saved_index_ok : cf_ok saved_index.
Proof.
  refine (proj1 (@removal_spec canonical_iter _ _ _)). apply add_context_spec; [apply two_sites_ok| |].
  - unfold context_fits, scope_ok, handler_ok, guard_ok, str_ok, u32_ok. by_computation.
  - unfold context_room, set_room. split_and!; by vm_compute.
Qed.

Lemma saved_index_fits : index_fits valid_utf8b saved_index.
Proof.
  split; unfold table_fits, list_fits, scope_fits, handler_fits, guard_fits, list_fits, text_fits, len_fits, u32_fits; by_computation.
Qed.

Lemma control_flow_roundtrip_witness :
  exists y, loadControlFlow valid_utf8b raii_of_code noexcept_of_code (emitControlFlow saved_index) = Some y /\
    contextsAtSite valid_utf8b y (str "a.cpp:9:1") = contextsAtSite valid_utf8b saved_index (str "a.cpp:9:1").
Proof.
  destruct (control_flow_roundtrip valid_utf8b raii_of_code noexcept_of_code saved_index cf_codes_ok saved_index_ok saved_index_fits)
    as [(y & Hl & Hs) _]. exists y. split; [exact Hl|]. apply (sx_sites _ _ _ Hs (str "a.cpp:9:1") [] []).
Defined.

Lemma mapped_answers_like_resident_witness :
  exists m y, loadMapped valid_utf8b raii_of_code (emitControlFlow saved_index) = Some m /\
    loadControlFlow valid_utf8b raii_of_code noexcept_of_code (emitControlFlow saved_index) = Some y /\
    contextsForCallee_in (mapped valid_utf8b noexcept_of_code (fun _ _ => 0%N) m) (str "h") = contextsForCallee valid_utf8b y (str "h").
Proof.
  destruct (mapped_answers_like_resident valid_utf8b raii_of_code noexcept_of_code (fun _ _ => 0%N) saved_index cf_codes_ok saved_index_ok saved_index_fits)
    as [(m & y & Hm & Hy & Ha & _) _]. exists m, y. split; [exact Hm|]. split; [exact Hy|].
  destruct Ha as (_ & _ & _ & _ & Hc & _). apply (Hc (str "h")).
Defined.

Definition mapped_example : MappedIndex :=
  default (mapped_of empty_index) (loadMapped valid_utf8b raii_of_code (emitControlFlow saved_index)).

Lemma mapped_reads_stay_inside_witness :
  mappedString (fun _ _ => 0%N) (mi_store mapped_example) 0 = mappedString (fun _ _ => 7%N) (mi_store mapped_example) 0.
Proof.
  refine (proj1 (proj2 (proj2 (mapped_reads_stay_inside valid_utf8b raii_of_code noexcept_of_code (emitControlFlow saved_index) mapped_example _
    (fun _ _ => 0%N) (fun _ _ => 7%N)))) 0%N). vm_compute. reflexivity.
Defined.
