(* ===== verification/SnapshotChannels.v ===== *)
(** The channels section of a saved index (src/callgraph/Snapshot.cpp): what [save] writes
    of a channel index, how [load] rebuilds it, and that it comes back.

    Sites are written with plain strings, their references and the units that registered
    them, sorted; a read-only load leaves out the registrations. *)

From S2P Require Import Prelude Registrations Utf8 ControlFlowIndex Codec SnapshotGraph ChannelIndex ChannelInv ChannelRemove ChannelMerge SnapshotControlFlow.

(** * Writing *)

Definition op_code (o : ChannelOperation) : N := match o with Produce => 0 | Consume => 1 end.

Record SiteRecord := MkSiteRecord { cr_site : ChannelSite; cr_refs : N; cr_tus : list bytes }.

Definition emitSite (r : SiteRecord) : bytes :=
  putLenStr (ch_channelId (cr_site r)) ++ putLenStr (ch_channelTypeName (cr_site r)) ++
  putLenStr (ch_category (cr_site r)) ++ putU8 (op_code (ch_op (cr_site r))) ++
  putLenStr (ch_siteFunctionUsr (cr_site r)) ++ putLenStr (ch_siteFunctionDisplay (cr_site r)) ++
  putLenStr (ch_callSite (cr_site r)) ++ putU32 (cr_refs r) ++
  put_list emitGuard (ch_enclosingGuards (cr_site r)) ++ put_list putLenStr (cr_tus r).

Section Save.
Context `{TI : !TextIter}.

Definition site_kept (sites : list StoredSite) (idx : nat) : bool :=
  match sites !! idx with Some s => negb (st_refs s =? 0)%N | None => false end.

(** [siteTus], before its vectors are sorted. *)
Definition saved_site_tus (x : ChannelIndex) : gmap nat (list bytes) :=
  units_at (site_kept (ch_sites x)) (text_iter (ch_byTu x)).

Definition site_record (tus : gmap nat (list bytes)) (i : nat) (s : StoredSite) : option SiteRecord :=
  if negb (st_live s) then None
  else Some (MkSiteRecord (st_site s) (st_refs s) (match tus !! i with None => [] | Some l => merge_sort bytes_le l end)).

Definition site_records (x : ChannelIndex) : list SiteRecord :=
  let tus := saved_site_tus x in
  omap (fun p => site_record tus p.1 p.2) (zip (seq 0 (length (ch_sites x))) (ch_sites x)).

Definition emitChannels (x : ChannelIndex) : bytes :=
  putU32 (u32 (Z.to_N (ch_liveCount x))) ++ (site_records x ≫= emitSite).
End Save.

(** * Loading *)

Section Load.
(** [llvm::json::isUTF8], as in Utf8.v, and the cast of a byte to [ChannelOperation]. *)
Variable isValidUtf8 : bytes -> bool.
Variable cast_op : N -> ChannelOperation.
Variable mutableLoad : bool.

Definition install_site (site : ChannelSite) (refs : N) (tus : list bytes) (x : ChannelIndex) : ChannelIndex :=
  let idx := length (ch_sites x) in
  MkChannels (ch_sites x ++ [MkStoredSite site refs true])
    (map_emplace (key_of site) idx (ch_index x))
    (push_back (ch_channelId site) idx (ch_byChannel x))
    (push_back (ch_siteFunctionUsr site) idx (ch_byFunctionUsr x))
    (if differs site then push_back (ch_siteFunctionDisplay site) idx (ch_byFunctionDisplay x)
     else ch_byFunctionDisplay x)
    (if mutableLoad then push_units idx (ch_byTu x) tus else ch_byTu x)
    (ch_liveCount x + 1)%Z.

Definition load_site (x : ChannelIndex) : M ChannelIndex :=
  channelId <-- r_text isValidUtf8;;
  channelTypeName <-- r_text isValidUtf8;;
  category <-- r_text isValidUtf8;;
  op <-- r_u8;;
  siteFunctionUsr <-- r_text isValidUtf8;;
  siteFunctionDisplay <-- r_text isValidUtf8;;
  callSite <-- r_text isValidUtf8;;
  refs <-- r_u32;;
  guards <-- r_list (readGuard isValidUtf8);;
  tus <-- r_list (r_text isValidUtf8);;
  _ <-- (if (refs =? 0)%N || (refs <? N.of_nat (length tus))%N then fail_reader else ret tt);;
  when_ok x (ret (install_site
    (MkSite channelId channelTypeName category (cast_op op) siteFunctionUsr siteFunctionDisplay callSite guards
       (match tus with [] => [] | tu :: _ => tu end)) refs tus x)).

Definition read_channels : M ChannelIndex := for_count load_site empty_channels.

(** The channels section of [load]. *)
Definition loadChannels (data : bytes) : option ChannelIndex := section_done read_channels data.
End Load.

(** * What is written *)

Section Records.
Context `{TI : !TextIter}.
Variable x : ChannelIndex.
Hypothesis Hx : ch_ok x.

(** The units written for the site at position [i]. *)
Definition units_of (i : nat) : list bytes :=
  match saved_site_tus x !! i with None => [] | Some l => merge_sort bytes_le l end.

Lemma site_record_live i s :
  alive s -> site_record (saved_site_tus x) i s = Some (MkSiteRecord (st_site s) (st_refs s) (units_of i)).
Proof. intros H. unfold site_record. by rewrite H. Qed.

Lemma site_record_dead i s : ~ alive s -> site_record (saved_site_tus x) i s = None.
Proof. intros H. unfold site_record. unfold alive in H. by destruct (st_live s). Qed.

Lemma units_of_perm i s : ch_sites x !! i = Some s -> alive s -> units_of i ≡ₚ registrations (ch_byTu x) i.
Proof.
  intros Hi Hl. assert (Hk : site_kept (ch_sites x) i = true).
  { unfold site_kept. rewrite Hi. apply (co_live _ Hx i s Hi) in Hl. by destruct (N.eqb_spec (st_refs s) 0). }
  rewrite <- (units_at_perm _ _ _ _ Hk (text_iter_perm _ (ch_byTu x))). unfold units_of, saved_site_tus, vec_at.
  destruct (units_at _ _ !! i); [|done]. apply merge_sort_Permutation.
Qed.

Lemma elem_of_units i s tu : ch_sites x !! i = Some s -> alive s -> tu ∈ units_of i <-> i ∈ vec_at (ch_byTu x) tu.
Proof.
  intros Hi Hl. by rewrite (units_of_perm i s Hi Hl), <- occ_pos, <- registrations_times, times_pos.
Qed.

(** The first unit written is the path the site carries. *)
Lemma units_first i s :
  ch_sites x !! i = Some s -> alive s -> ch_tuPath (st_site s) = match units_of i with [] => [] | tu :: _ => tu end.
Proof.
  intros Hi Hl. destruct (co_path _ Hx i s Hi Hl) as [P1 P2]. pose proof (fun tu => elem_of_units i s tu Hi Hl) as Hin.
  assert (Hs : StronglySorted bytes_le (units_of i)).
  { unfold units_of. destruct (saved_site_tus x !! i); [apply StronglySorted_merge_sort; apply _|constructor]. }
  destruct (units_of i) as [|tu l].
  - destruct (decide (ch_tuPath (st_site s) = [])) as [|Hp]; [done|]. by apply P2, Hin, not_elem_of_nil in Hp.
  - destruct (P1 tu) as [Hp Hle]; [apply Hin; left|]. apply P2, Hin in Hp. apply (anti_symm bytes_le); [done|].
    apply elem_of_cons in Hp as [->|Hp]; [reflexivity|]. apply StronglySorted_inv in Hs as [_ Hs]. by eapply Forall_forall in Hs.
Qed.

Abbreviation kept r := (MkStoredSite (cr_site r) (cr_refs r) true).

Lemma site_records_sites : (fun r => kept r) <$> site_records x = filter alive (ch_sites x).
Proof.
  apply list_eq. intros j. rewrite list_lookup_fmap.
  destruct (site_records x !! j) as [r|] eqn:Ej; cbn.
  - destruct (written_lookup alive _ _ site_record_live site_record_dead _ _ _ Ej) as (i & e & Hi & He & <- & ->). cbn.
    rewrite (new_pos_lookup _ _ _ Hi He). destruct e; unfold alive in He; cbn in *; congruence.
  - symmetry. apply lookup_ge_None. rewrite <- (length_written alive _ _ site_record_live site_record_dead). by apply lookup_ge_None.
Qed.

Lemma emitChannels_records : emitChannels x = put_list emitSite (site_records x).
Proof.
  unfold emitChannels, put_list, size32. rewrite (co_count _ Hx), <- site_records_sites, length_fmap. do 3 f_equal. lia.
Qed.
End Records.

(** * Reading a record back *)

Section Decode.
Variable isValidUtf8 : bytes -> bool.
Variable cast_op : N -> ChannelOperation.
Hypothesis cast_op_code : forall o, cast_op (op_code o) = o.
Variable mutableLoad : bool.

Abbreviation fits := (text_fits isValidUtf8).

Definition guards_fit (l : list ConditionalGuard) : Prop := list_fits (guard_fits isValidUtf8) l.

Record site_fits (s : ChannelSite) : Prop := {
  sf_texts : Forall fits [ch_channelId s; ch_channelTypeName s; ch_category s; ch_siteFunctionUsr s; ch_siteFunctionDisplay s; ch_callSite s];
  sf_guards : guards_fit (ch_enclosingGuards s)
}.

(** What makes a record readable: its strings are index text, every unit it names is one
    registration, and its path is the first of them. *)
Record record_fits (r : SiteRecord) : Prop := {
  rf_site : site_fits (cr_site r);
  rf_refs : u32_fits (cr_refs r) /\ cr_refs r <> 0%N;
  rf_tus : length (cr_tus r) <= N.to_nat (cr_refs r) /\ Forall fits (cr_tus r);
  rf_path : ch_tuPath (cr_site r) = match cr_tus r with [] => [] | tu :: _ => tu end
}.

Lemma reads_site r x :
  record_fits r ->
  reads (load_site isValidUtf8 cast_op mutableLoad x) (emitSite r) (install_site mutableLoad (cr_site r) (cr_refs r) (cr_tus r) x).
Proof.
  intros [[Ht Hg] [Hw Hz] [Hlen Htus] Hp]. rewrite !Forall_cons in Ht. destruct Ht as ([] & [] & [] & [] & [] & [] & _).
  assert (Hlf : len_fits (cr_tus r)) by (unfold len_fits, u32_fits in *; lia).
  unfold load_site, emitSite. do 3 (eapply reads_bind; [by apply reads_text|]).
  eapply reads_bind; [apply reads_u8; by destruct (ch_op _)|].
  do 3 (eapply reads_bind; [by apply reads_text|]). eapply reads_bind; [by apply reads_u32|].
  eapply reads_bind; [apply (reads_all _ _ (guard_fits isValidUtf8)); [apply reads_guard|apply length_emitGuard|done]|].
  eapply reads_bind_last; [|eapply reads_bind_check; [|apply reads_when_ok]].
  - apply reads_list; [done|]. intros tu Htu. eapply Forall_forall in Htus as [? ?]; [|done]. split; [by apply reads_text|apply length_putLenStr].
  - destruct (N.eqb_spec (cr_refs r) 0), (N.ltb_spec (cr_refs r) (N.of_nat (length (cr_tus r)))); [lia..|apply reads_ret].
  - rewrite cast_op_code, <- Hp. by destruct (cr_site r).
Qed.

#[global] Instance load_site_decoder x : Decoder (load_site isValidUtf8 cast_op mutableLoad x).
Proof. unfold load_site, readGuard. apply _. Qed.

Definition install_record (x : ChannelIndex) (r : SiteRecord) : ChannelIndex :=
  install_site mutableLoad (cr_site r) (cr_refs r) (cr_tus r) x.

Lemma reads_sites rs :
  len_fits rs -> Forall record_fits rs ->
  reads (read_channels isValidUtf8 cast_op mutableLoad) (put_list emitSite rs) (foldl install_record empty_channels rs).
Proof.
  intros Hl Hrs. apply (reads_for _ _ _ (fun _ => True)); [done|done| |].
  - intros r _. unfold emitSite. rewrite length_app. pose proof (length_putLenStr (ch_channelId (cr_site r))). lia.
  - intros x r _ Hr. split; [|done]. apply reads_site. by eapply Forall_forall in Hrs.
Qed.
End Decode.

(** * The loaded index *)

Abbreviation kept r := (MkStoredSite (cr_site r) (cr_refs r) true).
Abbreviation record_key r := (key_of (cr_site r)).

Record sites_installed (rs : list SiteRecord) (x : ChannelIndex) : Prop := {
  si_ok : ch_ok x;
  si_sites : ch_sites x = (fun r => kept r) <$> rs;
  si_tus : forall tu j, occ j (vec_at (ch_byTu x) tu) = match rs !! j with Some r => times tu (cr_tus r) | None => 0 end
}.

(** A record that keeps the invariant: counted, with named units and the least of them first. *)
Record record_ok (r : SiteRecord) : Prop := {
  ro_refs : (cr_refs r < two32)%N /\ cr_refs r <> 0%N;
  ro_tus : length (cr_tus r) <= N.to_nat (cr_refs r) /\ (forall tu, tu ∈ cr_tus r -> tu <> []);
  ro_path : (forall tu, tu ∈ cr_tus r -> ch_tuPath (cr_site r) <> [] /\ bytes_le (ch_tuPath (cr_site r)) tu) /\
    (ch_tuPath (cr_site r) <> [] -> ch_tuPath (cr_site r) ∈ cr_tus r)
}.

Lemma install_fresh site n tus x :
  ch_index x !! key_of site = None ->
  install_site true site n tus x = with_byTu (push_units (length (ch_sites x)) (ch_byTu x) tus) (append_site site n x).
Proof. intros H. unfold install_site, map_emplace. by rewrite H. Qed.

Lemma install_step rs x r :
  sites_installed rs x -> record_ok r -> (record_key r ∉ (fun r => record_key r) <$> rs) ->
  sites_installed (rs ++ [r]) (install_record true x r).
Proof.
  intros [H1 H2 H3] [[R1 R2] [R3 R4] [R5 R6]] Hkey.
  assert (Hlen : length (ch_sites x) = length rs) by (by rewrite H2, length_fmap).
  assert (Hfresh : ch_index x !! record_key r = None).
  { apply eq_None_not_Some. intros [i (s & Hs & _ & E)%(co_index _ H1)]. apply Hkey. rewrite <- E.
    rewrite H2, list_lookup_fmap, fmap_Some in Hs. destruct Hs as (r' & Hr' & ->).
    apply list_elem_of_fmap. exists r'. split; [done|]. by eapply list_elem_of_lookup_2. }
  assert (Hnone : forall tu, occ (length (ch_sites x)) (vec_at (ch_byTu x) tu) = 0) by (intros tu; by rewrite H3, Hlen, lookup_ge_None_2).
  unfold install_record. rewrite install_fresh by done.
  assert (Hin : forall tu j, j ∈ vec_at (push_units (length (ch_sites x)) (ch_byTu x) (cr_tus r)) tu <->
                 j ∈ vec_at (ch_byTu x) tu \/ (j = length (ch_sites x) /\ tu ∈ cr_tus r)).
  { intros tu j. rewrite push_units_at, elem_of_app, elem_of_replicate, <- (times_pos tu (cr_tus r)). naive_solver lia. }
  split.
  - apply append_ok; [done..| | | | |].
    + intros tu j Hne. rewrite Hin. naive_solver.
    + intros j Hne. rewrite push_units_regs, decide_False by done. lia.
    + rewrite push_units_regs, decide_True by done. pose proof (co_counted _ H1 (length (ch_sites x))) as Hc.
      unfold site_refs in Hc. rewrite lookup_ge_None_2 in Hc by done. lia.
    + intros tu [Htu|Htu]%push_units_named; [by apply (co_named _ H1)|by apply R4].
    + split.
      * intros tu [Htu|[_ Htu]]%Hin; [|by apply R5]. apply occ_pos in Htu. rewrite Hnone in Htu. lia.
      * intros Hp. apply Hin. right. split; [done|by apply R6].
  - cbn. by rewrite H2, fmap_app.
  - intros tu j. cbn [ch_byTu with_byTu]. rewrite push_units_at, occ_app, H3, occ_replicate, Hlen.
    destruct (Nat.lt_trichotomy j (length rs)) as [Hj|[->|Hj]].
    + rewrite lookup_app_l, decide_False by lia. destruct (rs !! j); lia.
    + rewrite (lookup_ge_None_2 rs), lookup_app_r, Nat.sub_diag, decide_True by lia. done.
    + rewrite decide_False, !lookup_ge_None_2 by (rewrite ?length_app; cbn; lia). done.
Qed.

Lemma install_records rs :
  Forall record_ok rs -> NoDup ((fun r => record_key r) <$> rs) ->
  sites_installed rs (foldl (install_record true) empty_channels rs).
Proof.
  induction rs as [|r rs IH] using rev_ind; intros Hok Hnd.
  - split; [apply empty_channels_ok|done|]. intros tu j. cbn. unfold vec_at. by rewrite lookup_empty.
  - rewrite foldl_app. rewrite fmap_app in Hnd. apply NoDup_app in Hnd as (Hnd & Hnew & _).
    apply Forall_app in Hok as [Hok Hr]. rewrite Forall_singleton in Hr.
    apply install_step; [by apply IH|done|]. intros Hin. apply (Hnew _ Hin). left.
Qed.

(** * Round trip *)

Record channels_fit (isValidUtf8 : bytes -> bool) (x : ChannelIndex) : Prop := {
  chf_size : len_fits (ch_sites x);
  chf_sites : forall i s, ch_sites x !! i = Some s -> alive s -> site_fits isValidUtf8 (st_site s);
  chf_tus : forall tu, is_Some (ch_byTu x !! tu) -> text_fits isValidUtf8 tu
}.

(** What saving and loading keeps: every live site with its references, in order, and
    every registration.  Positions in the table may change. *)
Record same_channels (x x' : ChannelIndex) : Prop := {
  sch_ok : ch_ok x';
  sch_sites : ch_sites x' = filter alive (ch_sites x);
  sch_site : forall k, site_of x' k = site_of x k;
  sch_regs : forall k tu, regs_of x' k tu = regs_of x k tu
}.

Lemma site_of_Some x k s :
  ch_ok x -> site_of x k = Some s <-> s ∈ ch_sites x /\ alive s /\ key_of (st_site s) = k.
Proof.
  intros Hx. unfold site_of. split.
  - intros (i & Hi & Hs)%bind_Some. apply (co_index _ Hx) in Hi as (s' & Hs' & Hl & Hk). rewrite Hs in Hs'. injection Hs' as <-.
    split_and!; [by eapply list_elem_of_lookup_2|done|done].
  - intros ([i Hi]%list_elem_of_lookup & Hl & Hk). apply bind_Some. exists i. split; [|done]. apply (co_index _ Hx). eauto.
Qed.

Section Roundtrip.
Context `{TI : !TextIter} (isValidUtf8 : bytes -> bool).
Variable x : ChannelIndex.
Hypothesis Hx : ch_ok x.
Hypothesis Hfit : channels_fit isValidUtf8 x.

Lemma site_records_lookup j r :
  site_records x !! j = Some r ->
  exists i s, ch_sites x !! i = Some s /\ alive s /\ new_pos alive (ch_sites x) i = j /\ r = MkSiteRecord (st_site s) (st_refs s) (units_of x i).
Proof. apply (written_lookup alive _ _ (site_record_live x) (site_record_dead x)). Qed.

Lemma saved_record r : r ∈ site_records x -> record_fits isValidUtf8 r /\ record_ok r.
Proof.
  intros [j (i & s & Hi & Hl & _ & ->)%site_records_lookup]%list_elem_of_lookup.
  pose proof (co_width _ Hx i s Hi) as Hw. pose proof (proj1 (co_live _ Hx i s Hi) Hl) as Hz.
  pose proof (fun tu => elem_of_units x Hx i s tu Hi Hl) as Hin.
  assert (Hnamed : forall tu, tu ∈ units_of x i -> is_Some (ch_byTu x !! tu)).
  { intros tu Htu%Hin. by eapply vec_at_elem_Some. }
  assert (Hlen : length (units_of x i) <= N.to_nat (st_refs s)).
  { rewrite (units_of_perm x Hx i s Hi Hl), registrations_length. pose proof (co_counted _ Hx i) as Hc.
    unfold site_refs in Hc. by rewrite Hi in Hc. }
  destruct (co_path _ Hx i s Hi Hl) as [P1 P2]. split; split; cbn; try done.
  - by eapply chf_sites.
  - split; [done|]. apply Forall_forall. intros tu Htu. by apply (chf_tus _ _ Hfit), Hnamed.
  - by apply units_first.
  - split; [done|]. intros tu Htu. by apply (co_named _ Hx), Hnamed.
  - split; [intros tu Htu; by apply P1, Hin|intros Hp; by apply Hin, P2].
Qed.

Lemma saved_keys : NoDup ((fun r => record_key r) <$> site_records x).
Proof.
  apply NoDup_alt. intros j j' k Hj Hj'. rewrite list_lookup_fmap, fmap_Some in Hj, Hj'.
  destruct Hj as (r & (i & s & Hi & Hl & <- & ->)%site_records_lookup & ->), Hj' as (r' & (i' & s' & Hi' & Hl' & <- & ->)%site_records_lookup & E).
  cbn in E. f_equal. assert (ch_index x !! key_of (st_site s) = Some i) as E1 by (apply (co_index _ Hx); eauto).
  assert (ch_index x !! key_of (st_site s) = Some i') as E2 by (apply (co_index _ Hx); eauto). congruence.
Qed.

Abbreviation loaded := (foldl (install_record true) empty_channels (site_records x)).

Lemma saved_sites : sites_installed (site_records x) loaded.
Proof. apply install_records; [|apply saved_keys]. apply Forall_forall. intros r Hr. by apply saved_record. Qed.

Lemma loaded_channels : same_channels x loaded.
Proof.
  destruct saved_sites as [H1 H2 H3]. rewrite site_records_sites in H2.
  assert (Hsite : forall k, site_of loaded k = site_of x k).
  { intros k. apply option_eq. intros s. rewrite !site_of_Some, H2, list_elem_of_filter by done. tauto. }
  split; [done|done|done|].
  intros k tu. unfold regs_of. destruct (index_cases x k Hx) as [(i & s & Hi & Hs & Hl & Hk)|[Hi Hno]].
  - rewrite Hi. assert (ch_index loaded !! k = Some (new_pos alive (ch_sites x) i)) as ->.
    { apply (co_index _ H1). exists s. rewrite H2. split; [by apply new_pos_lookup|done]. }
    cbn [fmap option_fmap option_map from_option]. rewrite H3. unfold site_records.
    pose proof (written_at alive _ _ (site_record_live x) (site_record_dead x) _ _ _ Hs Hl) as E. unfold written in E.
    rewrite E. cbn [cr_tus]. by rewrite (units_of_perm x Hx i s Hs Hl), registrations_times.
  - rewrite Hi. destruct (ch_index loaded !! k) as [j|] eqn:Ej; [|done].
    apply (co_index _ H1) in Ej as (s & Hs & Hl & Hk). rewrite H2 in Hs. apply list_elem_of_lookup_2, list_elem_of_filter in Hs as [_ [i Hs']%list_elem_of_lookup].
    by destruct (Hno i s Hs' Hl).
Qed.

(** A read-only load leaves the registrations out. *)
Lemma installed_readonly rs y :
  foldl (install_record false) (with_byTu ∅ y) rs = with_byTu ∅ (foldl (install_record true) y rs).
Proof. revert y. induction rs as [|r rs IH]; intros y; [done|]. cbn [foldl]. by rewrite <- IH. Qed.

Lemma channels_read cast_op mutableLoad :
  (forall o, cast_op (op_code o) = o) ->
  reads (read_channels isValidUtf8 cast_op mutableLoad) (emitChannels x) (if mutableLoad then loaded else with_byTu ∅ loaded).
Proof.
  intros Hc. rewrite (emitChannels_records x Hx).
  assert (E : (if mutableLoad then loaded else with_byTu ∅ loaded) = foldl (install_record mutableLoad) empty_channels (site_records x)).
  { destruct mutableLoad; [done|]. by rewrite <- installed_readonly. }
  rewrite E. apply reads_sites; [done| |].
  - unfold len_fits. rewrite <- (length_fmap (fun r => kept r)), site_records_sites. pose proof (length_filter alive (ch_sites x)).
    pose proof (chf_size _ _ Hfit). unfold len_fits in *. lia.
  - apply Forall_forall. intros r Hr. by apply saved_record.
Qed.
End Roundtrip.

#[global] Instance read_channels_decoder v cast_op m : Decoder (read_channels v cast_op m).
Proof. apply _. Qed.

(** The queries answer alike. *)
Lemma same_channel_queries isValidUtf8 x x' key :
  ch_ok x -> same_channels x x' ->
  allSites x' = allSites x /\ producersOf isValidUtf8 x' key = producersOf isValidUtf8 x key /\
  consumersOf isValidUtf8 x' key = consumersOf isValidUtf8 x key /\
  sitesForFunction isValidUtf8 x' key = sitesForFunction isValidUtf8 x key /\ channels_size x' = channels_size x.
Proof.
  intros Hx Hs. assert (E : allSites x' = allSites x).
  { unfold allSites. rewrite (sch_sites _ _ Hs), list_filter_filter. f_equal. apply list_filter_iff. unfold alive. tauto. }
  destruct (queries_filter x Hx isValidUtf8 key) as (-> & -> & ->).
  destruct (queries_filter x' (sch_ok _ _ Hs) isValidUtf8 key) as (-> & -> & ->).
  unfold channels_size. rewrite (co_count _ Hx), (co_count _ (sch_ok _ _ Hs)), <- !length_allSites, E. done.
Qed.

(** * The section *)

(** Saving a channel index and loading it gives it back without its tombstones: the
    same live sites with their references in the same order, the same registrations of
    every unit under every key, in an index that satisfies the invariant, and the same
    answer to every query.  A read-only load gives that index without its registrations.
    A section cut short or extended is refused in both modes. *)
Theorem channels_roundtrip `{TI : !TextIter} (isValidUtf8 : bytes -> bool) (cast_op : N -> ChannelOperation) (x : ChannelIndex)
    (Hcast : forall o, cast_op (op_code o) = o) (Hx : ch_ok x) (Hfit : channels_fit isValidUtf8 x) :
  (exists y, loadChannels isValidUtf8 cast_op true (emitChannels x) = Some y /\
     loadChannels isValidUtf8 cast_op false (emitChannels x) = Some (with_byTu ∅ y) /\ same_channels x y /\
     (forall key, allSites y = allSites x /\ producersOf isValidUtf8 y key = producersOf isValidUtf8 x key /\
        consumersOf isValidUtf8 y key = consumersOf isValidUtf8 x key /\
        sitesForFunction isValidUtf8 y key = sitesForFunction isValidUtf8 x key /\ channels_size y = channels_size x)) /\
  (forall mutableLoad data tl, tl <> [] -> data ++ tl = emitChannels x \/ data = emitChannels x ++ tl ->
     loadChannels isValidUtf8 cast_op mutableLoad data = None).
Proof.
  pose proof (fun m => channels_read isValidUtf8 x Hx Hfit cast_op m Hcast) as Hr. split.
  - pose proof (loaded_channels isValidUtf8 x Hx Hfit) as Hs.
    eexists. split; [apply section_read, (Hr true)|]. split; [apply section_read, (Hr false)|]. split; [done|].
    intros key. by apply same_channel_queries.
  - intros m data tl Htl Hd. by eapply section_exact; [apply _|apply (Hr m)|exact Htl|].
Qed.

Definition op_of_code (n : N) : ChannelOperation := match n with 0 => Produce | _ => Consume end%N.

(** A shared site behind a tombstone, after one of its units was removed. *)
Definition saved_channels : ChannelIndex :=
  (@ch_removeTUs canonical_text_iter [str "a.cpp"]
    (addSite (push_site []) (addSite (push_site (str "b.cpp")) (addSite (push_site (str "a.cpp"))
      (addSite (MkSite (str "r") (str "Ring") (str "queue") Consume (str "c:@F@recv") (str "recv") (str "r.h:1:1")
                 [MkGuard (str "p") (str "r.h:1:0") true false] (str "a.cpp")) empty_channels))))).1.

Lemma saved_channels_ok : ch_ok saved_channels.
Proof.
  apply sites_removed_ok.
  unfold addSite. repeat (apply addSiteRefs_registers; [|vm_compute; reflexivity]). apply empty_channels_ok.
Qed.

Lemma saved_channels_fit : channels_fit valid_utf8b saved_channels.
Proof.
  split.
  - unfold len_fits. by_computation.
  - assert (H : Forall (fun s => Forall (text_fits valid_utf8b) [ch_channelId (st_site s); ch_channelTypeName (st_site s); ch_category (st_site s);
        ch_siteFunctionUsr (st_site s); ch_siteFunctionDisplay (st_site s); ch_callSite (st_site s)] /\
      guards_fit valid_utf8b (ch_enclosingGuards (st_site s))) (ch_sites saved_channels)).
    { unfold guards_fit, list_fits, guard_fits, text_fits, len_fits. by_computation. }
    intros i s Hs _. eapply Forall_lookup in H as [? ?]; [|exact Hs]. by split.
  - assert (H : map_Forall (fun tu _ => text_fits valid_utf8b tu) (ch_byTu saved_channels)) by (unfold text_fits, len_fits; by_computation).
    intros tu [l Hl]. exact (H tu l Hl).
Qed.

Lemma channels_roundtrip_witness :
  exists y, loadChannels valid_utf8b op_of_code true (@emitChannels canonical_text_iter saved_channels) = Some y /\
    producersOf valid_utf8b y (str "q") = producersOf valid_utf8b saved_channels (str "q").
Proof.
  destruct (@channels_roundtrip canonical_text_iter valid_utf8b op_of_code saved_channels) as [(y & Hl & _ & _ & Hq) _];
    [by intros []|apply saved_channels_ok|apply saved_channels_fit|].
  exists y. split; [exact Hl|]. exact (proj1 (proj2 (Hq (str "q")))).
Defined.
