(* ===== verification/SnapshotFile.v ===== *)
(** The file of a saved index (src/callgraph/Snapshot.cpp): the header with its section
    table and checksums, [save], [verify] and [load], which put the section codecs
    together.

    A file is the bytes it holds; the publication of the bytes and the load's clock are
    left out.  The checksum (xxh3 of LLVM) is a parameter.  [load] answers the data or the
    error it leaves in its statistics.

    The file of a saved index, what its header promises: every refusal names its cause, an
    accepted section table has every section once and inside the file, and nothing is
    decoded whose checksum does not match; a saved file, cut short or extended, is refused. *)

From S2P Require Import Prelude Utf8 StringInterner CallGraph ControlFlowIndex Results Codec SnapshotMeta SnapshotGraph ChannelIndex SnapshotControlFlow MappedControlFlow SnapshotChannels.

Definition kMagic : bytes := str "VYCS".
Definition kFormatVersion : N := 14.
Definition kSectionKinds : nat := 4.
Definition kHeaderBytes : nat := 4 + 4 + 32 + 4 + 4 * 25 + 8.

Definition kMetaKind : nat := 0.
Definition kGraphKind : nat := 1.
Definition kControlFlowKind : nat := 2.
Definition kChannelsKind : nat := 3.

Definition kSectionGraph : N := 1.
Definition kSectionControlFlow : N := 2.
Definition kSectionChannels : N := 4.
Definition kSectionAll : N := 7.

Definition sectionName (kind : nat) : bytes :=
  match kind with
  | 0 => str "meta" | 1 => str "graph" | 2 => str "control_flow" | 3 => str "channels"
  | _ => str "unknown"
  end.

Record IndexSummary := MkSummary { su_nodes : N; su_edges : N; su_callSites : N; su_channelSites : N }.

(** A range of the file; [begin] is an offset. *)
Record Range := MkRange { rg_begin : nat; rg_length : nat; rg_checksum : N }.

(** An entry of [ranges] that is not [present] is [None]. *)
Record Header := MkHeader { hd_summary : IndexSummary; hd_ranges : list (option Range) }.

(** A conversion to [uint64_t]. *)
Definition u64_of_Z (z : Z) : N := Z.to_N (z mod 2 ^ 64).

(** * Saving *)

Section Save.
Context `{UI : !UnorderedIter, TI : !TextIter}.
(** [llvm::xxh3_64bits]. *)
Variable checksumOf : bytes -> N.

(** One entry of the section table, and the offset of the next section. *)
Definition table_entry (kind : nat) (offset : N) (section : bytes) : bytes :=
  putU8 (N.of_nat kind) ++ putU64 offset ++ putU64 (N.of_nat (length section)) ++ putU64 (checksumOf section).

Definition emitEntry (st : bytes * N) (entry : nat * bytes) : bytes * N :=
  let '(header, offset) := st in
  let '(kind, section) := entry in
  (header ++ table_entry kind offset section, (offset + N.of_nat (length section))%N).

Definition emitTable (sections : list bytes) : bytes :=
  fst (foldl emitEntry ([], N.of_nat kHeaderBytes) (zip (seq 0 (length sections)) sections)).

Definition emitSummary (s : IndexSummary) : bytes :=
  putU64 (su_nodes s) ++ putU64 (su_edges s) ++ putU64 (su_callSites s) ++ putU64 (su_channelSites s).

Definition emitHeader (summary : IndexSummary) (sections : list bytes) : bytes :=
  let header := kMagic ++ putU32 kFormatVersion ++ emitSummary summary ++ putU32 (N.of_nat kSectionKinds) ++ emitTable sections in
  header ++ putU64 (checksumOf header).

Definition summary_of (graph : CallGraph) (cfIndex : ControlFlowIndex) (channels : ChannelIndex) : IndexSummary :=
  MkSummary (N.of_nat (nodeCount graph)) (u64_of_Z (edgeCount graph)) (N.of_nat (liveCount_ cfIndex))
    (u64_of_Z (channels_size channels)).

(** The bytes [save] publishes. *)
Definition save (graph : CallGraph) (cfIndex : ControlFlowIndex) (meta : SnapshotMeta) (channels : ChannelIndex) : bytes :=
  let sections := [emitMeta meta; emitGraph graph; emitControlFlow cfIndex; emitChannels channels] in
  emitHeader (summary_of graph cfIndex channels) sections ++ concat sections.
End Save.

(** * The header *)

(** What [getFile] gives: the message of a failure, or the bytes. *)
Abbreviation File := (bytes + bytes)%type.

Section ParseHeader.
Variable checksumOf : bytes -> N.

Definition readSummary : M IndexSummary :=
  nodes <-- r_u64;; edges <-- r_u64;; callSites <-- r_u64;; channelSites <-- r_u64;;
  ret (MkSummary nodes edges callSites channelSites).

Definition readEntry : M (N * N * N * N) :=
  kind <-- r_u8;; offset <-- r_u64;; length <-- r_u64;; checksum <-- r_u64;; ret (kind, offset, length, checksum).

(** [h.ranges\[kind\].present]. *)
Definition present (entry : option (option Range)) : bool := match entry with Some (Some _) => true | _ => false end.

(** The loop over the section table. *)
Fixpoint parse_table (fileSize : nat) (n : nat) (ranges : list (option Range)) (last : nat) (r : Reader)
    : bytes + (list (option Range) * nat * Reader) :=
  match n with
  | 0 => inr (ranges, last, r)
  | S n' =>
      let '((kind, offset, length, checksum), r) := readEntry r in
      let kind := N.to_nat kind in
      if (kSectionKinds <=? kind)%nat || present (ranges !! kind)
      then inl (str "section table is malformed")
      else if (offset <? N.of_nat kHeaderBytes)%N || (N.of_nat fileSize <? offset)%N || (N.of_nat fileSize - offset <? length)%N
      then inl (str "section '" ++ sectionName kind ++ str "' lies outside the file (truncated?)")
      else
        let range := MkRange (N.to_nat offset) (N.to_nat length) checksum in
        parse_table fileSize n' (<[kind := Some range]> ranges) (last `max` (N.to_nat offset + N.to_nat length)) r
  end.

(** The parsed header, or the error. *)
Definition parseHeader (buf : bytes) : bytes + Header :=
  let '(magic, r) := r_bytes 4 (MkReader buf true) in
  if negb (ok r) || negb (bool_decide (magic = kMagic)) then inl (str "not a megascope index (bad magic)")
  else
  let '(version, r) := r_u32 r in
  if negb (ok r) then inl (str "truncated header")
  else if negb (version =? kFormatVersion)%N
  then inl (str "format version " ++ to_string version ++ str ", expected " ++ to_string kFormatVersion)
  else
  let fileSize := length buf in
  if (fileSize <? kHeaderBytes)%nat then inl (str "truncated header")
  else
  let covered := kHeaderBytes - 8 in
  if negb ((r_u64 (MkReader (take 8 (drop covered buf)) true)).1 =? checksumOf (take covered buf))%N
  then inl (str "header checksum mismatch")
  else
  let '(summary, r) := readSummary r in
  let '(tableCount, r) := r_u32 r in
  if negb (tableCount =? N.of_nat kSectionKinds)%N
  then inl (str "section table has " ++ to_string tableCount ++ str " entries, expected " ++ to_string (N.of_nat kSectionKinds))
  else
  match parse_table fileSize (N.to_nat tableCount) (replicate kSectionKinds None) kHeaderBytes r with
  | inl error => inl error
  | inr (ranges, last, r) =>
      if ok r && negb (last =? fileSize)%nat
      then inl (to_string (N.of_nat (fileSize - last)) ++ str " trailing byte(s) after the last section")
      else if ok r then inr (MkHeader summary ranges) else inl []
  end.

(** [Header::Range{}]. *)
Definition no_range : Range := MkRange 0 0 0.

Definition range_of (h : Header) (kind : nat) : Range := default no_range (default None (hd_ranges h !! kind)).

(** The bytes of a section. *)
Definition section_of (buf : bytes) (h : Header) (kind : nat) : bytes :=
  take (rg_length (range_of h kind)) (drop (rg_begin (range_of h kind)) buf).

(** [None] when the checksum matches, else the error. *)
Definition verifySection (buf : bytes) (h : Header) (kind : nat) : option bytes :=
  if (checksumOf (section_of buf h kind) =? rg_checksum (range_of h kind))%N then None
  else Some (str "section '" ++ sectionName kind ++ str "' checksum mismatch (the file is damaged)").

(** The error [verify] reports, empty when the file is good. *)
Definition verify (file : File) : bytes :=
  match file with
  | inl message => message
  | inr buf =>
      match parseHeader buf with
      | inl why => why
      | inr h => default [] (head (omap (verifySection buf h) (seq 0 kSectionKinds)))
      end
  end.
End ParseHeader.

(** * Loading *)

Inductive LoadMode := Mutable | ReadOnly.

(** A loaded control-flow index is resident or mapped. *)
Inductive LoadedContexts := Resident (x : ControlFlowIndex) | InFile (m : MappedIndex).

Record SnapshotData := MkData {
  sd_graph : CallGraph;
  sd_cfIndex : LoadedContexts;
  sd_channels : ChannelIndex;
  sd_meta : SnapshotMeta;
  sd_summary : IndexSummary;
  sd_loaded : N
}.

Section Load.
Variable checksumOf : bytes -> N.
(** [llvm::json::isUTF8], as in Utf8.v, and the casts of a byte to an enumeration. *)
Variable isValidUtf8 : bytes -> bool.
Variable cast_kind : N -> EdgeKind.
Variable cast_confidence : N -> Confidence.
Variable cast_exec : N -> ExecutionContext.
Variable cast_raii : N -> RaiiKind.
Variable cast_noexcept : N -> NoexceptSpec.
Variable cast_op : N -> ChannelOperation.

Definition malformed (kind : nat) : bytes :=
  str "section '" ++ sectionName kind ++ str "' does not decode (the file is damaged or from an incompatible build)".

(** [beginSection(kind)], the decoder, [sectionDone()]. *)
Definition decode {A} (buf : bytes) (h : Header) (kind : nat) (load_section : bytes -> option A) : bytes + A :=
  match verifySection checksumOf buf h kind with
  | Some why => inl why
  | None => match load_section (section_of buf h kind) with Some a => inr a | None => inl (malformed kind) end
  end.

(** A section the caller did not ask for is skipped. *)
Definition decode_if {A} (wanted : bool) (skipped : A) (buf : bytes) (h : Header) (kind : nat) (load_section : bytes -> option A)
    : bytes + A :=
  if wanted then decode buf h kind load_section else inr skipped.

Definition needed (needs section : N) : bool := negb (N.land needs section =? 0)%N.

Definition loadContexts (mode : LoadMode) (data : bytes) : option LoadedContexts :=
  match mode with
  | Mutable => Resident <$> loadControlFlow isValidUtf8 cast_raii cast_noexcept data
  | ReadOnly => InFile <$> loadMapped isValidUtf8 cast_raii data
  end.

Definition loaded_bits (needs : N) : N :=
  let bit section := if needed needs section then section else 0%N in
  N.lor (N.lor (bit kSectionGraph) (bit kSectionControlFlow)) (bit kSectionChannels).

Definition load (mode : LoadMode) (needs : N) (file : File) : bytes + SnapshotData :=
  let mutableLoad := match mode with Mutable => true | ReadOnly => false end in
  match file with
  | inl message => inl message
  | inr buf =>
      match parseHeader checksumOf buf with inl why => inl why | inr h =>
      match decode buf h kMetaKind (section_done readMeta) with inl why => inl why | inr meta =>
      match decode_if (needed needs kSectionGraph) empty_graph buf h kGraphKind
              (loadGraph isValidUtf8 cast_kind cast_confidence cast_exec mutableLoad) with inl why => inl why | inr graph =>
      match decode_if (needed needs kSectionControlFlow) (Resident empty_index) buf h kControlFlowKind
              (loadContexts mode) with inl why => inl why | inr cfIndex =>
      match decode_if (needed needs kSectionChannels) empty_channels buf h kChannelsKind
              (loadChannels isValidUtf8 cast_op mutableLoad) with inl why => inl why | inr channels =>
      inr (MkData graph cfIndex channels meta (hd_summary h) (loaded_bits needs))
      end end end end end
  end.
End Load.

(** * Fixed-width reads *)

(** A decoder of [k] bytes, whatever they are. *)
Definition fixed {A} (k : nat) (m : M A) : Prop :=
  forall b, k <= length b -> exists a, m (MkReader b true) = (a, MkReader (drop k b) true).

Lemma fixed_ret {A} (a : A) : fixed 0 (ret a).
Proof. intros b _. by exists a. Qed.

Lemma fixed_bind {A B} j k (m : M A) (f : A -> M B) : fixed j m -> (forall a, fixed k (f a)) -> fixed (j + k) (bind m f).
Proof.
  intros Hm Hf b Hb. destruct (Hm b) as [a Ha]; [lia|]. destruct (Hf a (drop j b)) as [c Hc]; [rewrite length_drop; lia|].
  exists c. unfold bind. by rewrite Ha, Hc, drop_drop.
Qed.

Lemma read_le_enough k b :
  k <= length b -> read_le k (MkReader b true) = (le_value (take k b), MkReader (drop k b) true).
Proof.
  intros Hb. unfold read_le, bind, need, advance, ret. cbn [ok rest negb orb].
  by destruct (N.ltb_spec (N.of_nat (length b)) (N.of_nat k)); [lia|].
Qed.

Lemma fixed_le k : fixed k (read_le k).
Proof. intros b Hb. eexists. by apply read_le_enough. Qed.

Lemma fixed_summary : fixed 32 readSummary.
Proof. repeat (apply (fixed_bind 8); [apply (fixed_le 8)|intros ?]). apply fixed_ret. Qed.

Lemma fixed_entry : fixed 25 readEntry.
Proof.
  apply (fixed_bind 1); [apply (fixed_le 1)|intros ?].
  repeat (apply (fixed_bind 8); [apply (fixed_le 8)|intros ?]). apply fixed_ret.
Qed.

Lemma app_message (a b : bytes) : b <> [] -> a ++ b <> [].
Proof. intros H [_ ->]%app_eq_nil. done. Qed.

Ltac message := repeat first [apply app_message | discriminate].

(** * The section table *)

(** A range that lies in the file behind the header. *)
Definition range_inside (fileSize : nat) (rg : Range) : Prop :=
  kHeaderBytes <= rg_begin rg /\ rg_begin rg + rg_length rg <= fileSize.

Abbreviation range_end rg := (rg_begin rg + rg_length rg).

(** The table as far as it is parsed: [last] is the greatest end so far. *)
Record table_parsed (fileSize n : nat) (ranges : list (option Range)) (last : nat) : Prop := {
  tp_length : length ranges = kSectionKinds;
  tp_count : length (omap id ranges) = n;
  tp_inside : forall rg, rg ∈ omap id ranges -> range_inside fileSize rg /\ range_end rg <= last;
  tp_last : last = kHeaderBytes \/ exists rg, rg ∈ omap id ranges /\ range_end rg = last
}.

Lemma omap_insert {A} (l : list (option A)) i (a : A) :
  l !! i = Some None -> omap id (<[i := Some a]> l) ≡ₚ a :: omap id l.
Proof.
  intros Hi. rewrite <- (take_drop_middle l i None Hi) at 2. rewrite (insert_take_drop l i (Some a)) by (by eapply lookup_lt_Some).
  rewrite !omap_app. cbn. symmetry. apply Permutation_middle.
Qed.

Lemma table_start fileSize : table_parsed fileSize 0 (replicate kSectionKinds None) kHeaderBytes.
Proof. split; cbn; [done|done|by intros rg ?%not_elem_of_nil|by left]. Qed.

Lemma table_step fileSize n ranges last kind rg :
  table_parsed fileSize n ranges last -> kind < kSectionKinds -> present (ranges !! kind) = false -> range_inside fileSize rg ->
  table_parsed fileSize (S n) (<[kind := Some rg]> ranges) (last `max` range_end rg).
Proof.
  intros [H1 H2 H3 H4] Hk Hp Hrg.
  assert (E : ranges !! kind = Some None).
  { destruct (lookup_lt_is_Some_2 ranges kind) as [[?|] Hr]; [by rewrite H1|by rewrite Hr in Hp|done]. }
  pose proof (omap_insert ranges kind rg E) as P. split.
  - by rewrite length_insert.
  - by rewrite P, <- H2.
  - intros rg'. rewrite P, elem_of_cons. intros [->|Hin]; [split; [done|lia]|]. destruct (H3 rg' Hin). split; [done|lia].
  - destruct (Nat.max_spec last (range_end rg)) as [[_ ->]|[_ ->]].
    + right. exists rg. split; [rewrite P; left|done].
    + destruct H4 as [H4|(rg' & Hin & He)]; [by left|]. right. exists rg'. split; [rewrite P; by right|done].
Qed.

(** The loop either names what is wrong or reads all entries. *)
Lemma parse_table_spec fileSize n : forall done_ ranges last b,
  table_parsed fileSize done_ ranges last -> n * 25 <= length b ->
  match parse_table fileSize n ranges last (MkReader b true) with
  | inl e => e <> []
  | inr (ranges', last', r) => table_parsed fileSize (done_ + n) ranges' last' /\ r = MkReader (drop (n * 25) b) true
  end.
Proof.
  induction n as [|n IH]; intros d ranges last b Ht Hb; cbn [parse_table].
  - by rewrite Nat.add_0_r, drop_0.
  - destruct (fixed_entry b) as [[[[kind off] len] ck] ->]; [lia|].
    destruct (Nat.leb_spec kSectionKinds (N.to_nat kind)); cbn [orb]; [discriminate|].
    destruct (present (ranges !! N.to_nat kind)) eqn:Hp; [discriminate|].
    destruct (N.ltb_spec off (N.of_nat kHeaderBytes)), (N.ltb_spec (N.of_nat fileSize) off), (N.ltb_spec (N.of_nat fileSize - off) len);
      cbn [orb]; try (message; fail).
    specialize (IH (S d) _ _ (drop 25 b) (table_step fileSize d ranges last (N.to_nat kind)
      (MkRange (N.to_nat off) (N.to_nat len) ck) Ht ltac:(done) Hp ltac:(split; cbn [rg_begin rg_length]; lia)) ltac:(rewrite length_drop; lia)).
    cbn [rg_begin rg_length] in IH. destruct (parse_table _ _ _ _ _) as [e|[[ranges' last'] r]]; [done|].
    rewrite drop_drop in IH. by replace (d + S n) with (S d + n) by lia.
Qed.

(** * The header *)

(** What an accepted header says: a file of at least the header, its checksum, and a section
    table of ranges inside the file, the last of which ends where the file ends. *)
Definition header_ok (checksumOf : bytes -> N) (buf : bytes) (h : Header) : Prop :=
  let covered := kHeaderBytes - 8 in
  kHeaderBytes <= length buf /\ le_value (take 8 (drop covered buf)) = checksumOf (take covered buf) /\
  (forall kind, kind < kSectionKinds -> exists rg, hd_ranges h !! kind = Some (Some rg) /\ range_inside (length buf) rg) /\
  (length buf = kHeaderBytes \/ exists kind rg, hd_ranges h !! kind = Some (Some rg) /\ range_end rg = length buf).

Lemma all_present (ranges : list (option Range)) kind :
  length (omap id ranges) = length ranges -> kind < length ranges -> exists rg, ranges !! kind = Some (Some rg).
Proof.
  revert kind. induction ranges as [|[rg|] ranges IH]; intros kind Hl Hk; cbn in *; [lia| |].
  - destruct kind; [by exists rg|]. apply IH; lia.
  - assert (length (omap id ranges) <= length ranges) by (clear; induction ranges as [|[]]; cbn in *; lia). lia.
Qed.

Section Header.
Variable checksumOf : bytes -> N.

Lemma header_short buf : length buf < kHeaderBytes -> exists e, parseHeader checksumOf buf = inl e /\ e <> [].
Proof.
  intros Hlen. unfold parseHeader. destruct (r_bytes 4 _) as [magic r]. destruct (negb (ok r) || _); [by eexists|].
  destruct (r_u32 r) as [version r2]. destruct (negb (ok r2)); [by eexists|].
  destruct (version =? kFormatVersion)%N; cbn [negb]; [|eexists; split; [done|message]].
  destruct (Nat.ltb_spec (length buf) kHeaderBytes); [by eexists|lia].
Qed.

(** The parts of a header, read one behind the other. *)
Lemma header_long buf :
  kHeaderBytes <= length buf ->
  exists magic version summary tableCount,
    r_bytes 4 (MkReader buf true) = (magic, MkReader (drop 4 buf) true) /\
    r_u32 (MkReader (drop 4 buf) true) = (version, MkReader (drop 8 buf) true) /\
    readSummary (MkReader (drop 8 buf) true) = (summary, MkReader (drop 40 buf) true) /\
    r_u32 (MkReader (drop 40 buf) true) = (tableCount, MkReader (drop 44 buf) true) /\
    (r_u64 (MkReader (take 8 (drop (kHeaderBytes - 8) buf)) true)).1 = le_value (take 8 (drop (kHeaderBytes - 8) buf)).
Proof.
  unfold kHeaderBytes. intros Hlen. destruct (fixed_le 4 (drop 4 buf)) as [version E2]; [rewrite length_drop; lia|].
  destruct (fixed_summary (drop 8 buf)) as [summary E3]; [rewrite length_drop; lia|].
  destruct (fixed_le 4 (drop 40 buf)) as [tableCount E4]; [rewrite length_drop; lia|].
  rewrite drop_drop in E2, E3, E4. exists (take 4 buf), version, summary, tableCount. split_and!; [|done..|].
  - unfold r_bytes, bind, need, advance. cbn [ok rest negb orb]. by destruct (N.ltb_spec (N.of_nat (length buf)) 4); [lia|].
  - unfold r_u64. rewrite read_le_enough by (rewrite length_take, length_drop; lia). cbn [fst]. f_equal. rewrite take_take. by f_equal.
Qed.

Lemma header_spec buf :
  match parseHeader checksumOf buf with inl e => e <> [] | inr h => header_ok checksumOf buf h end.
Proof.
  destruct (decide (kHeaderBytes <= length buf)) as [Hlen|Hlen]; [|destruct (header_short buf) as (e & -> & He); [lia|done]].
  destruct (header_long buf Hlen) as (magic & version & summary & tableCount & E1 & E2 & E3 & E4 & E5).
  unfold parseHeader. rewrite E1, E2, E3, E4, E5. cbn [ok negb orb].
  destruct (bool_decide (magic = kMagic)); cbn [negb]; [|discriminate].
  destruct (version =? kFormatVersion)%N; cbn [negb]; [|message].
  destruct (Nat.ltb_spec (length buf) kHeaderBytes); [lia|].
  destruct (N.eqb_spec (le_value (take 8 (drop (kHeaderBytes - 8) buf))) (checksumOf (take (kHeaderBytes - 8) buf))) as [Hck|]; cbn [negb]; [|discriminate].
  destruct (N.eqb_spec tableCount (N.of_nat kSectionKinds)) as [->|]; cbn [negb]; [|message].
  pose proof (parse_table_spec (length buf) kSectionKinds 0 _ _ (drop 44 buf) (table_start _)
    ltac:(rewrite length_drop; unfold kHeaderBytes, kSectionKinds in *; lia)) as Ht.
  rewrite Nat2N.id. destruct (parse_table _ _ _ _ _) as [e|[[ranges last] r]]; [done|]. destruct Ht as [[T1 T2 T3 T4] ->].
  cbn [ok andb]. destruct (Nat.eqb_spec last (length buf)) as [->|]; cbn [negb]; [|message].
  split_and!; [done|done| |]; cbn [hd_ranges].
  - intros kind Hk. destruct (all_present ranges kind) as [rg Hrg]; [by rewrite T1, T2|by rewrite T1|].
    exists rg. split; [done|]. apply T3, list_elem_of_omap. exists (Some rg). split; [by eapply list_elem_of_lookup_2|done].
  - destruct T4 as [T4|(rg & (o & Ho & E)%list_elem_of_omap & He)]; [by left|]. right. cbn in E. subst o.
    apply list_elem_of_lookup in Ho as [kind Hk]. by exists kind, rg.
Qed.
End Header.

(** * A saved header *)

Definition summary_fits (s : IndexSummary) : Prop :=
  Forall (fun n => n < 2 ^ 64)%N [su_nodes s; su_edges s; su_callSites s; su_channelSites s].

Lemma length_putU64 v : length (putU64 v) = 8.
Proof. apply length_put_le. Qed.

Lemma length_putU8 v : length (putU8 v) = 1.
Proof. apply length_put_le. Qed.

Section Saved.
Variable checksumOf : bytes -> N.
(** The checksum is a [uint64_t]. *)
Hypothesis checksum_width : forall b, (checksumOf b < 2 ^ 64)%N.

Abbreviation entry := (table_entry checksumOf).

Lemma length_entry kind off s : length (entry kind off s) = 25.
Proof. unfold table_entry. by rewrite !length_app, !length_putU64, length_putU8. Qed.

Lemma reads_entry kind off s :
  kind < kSectionKinds -> (off < 2 ^ 64)%N -> (N.of_nat (length s) < 2 ^ 64)%N ->
  reads readEntry (entry kind off s) (N.of_nat kind, off, N.of_nat (length s), checksumOf s).
Proof.
  unfold kSectionKinds. intros Hk Ho Hl. eapply reads_bind; [apply reads_u8; lia|]. eapply reads_bind; [by apply reads_u64|].
  eapply reads_bind; [by apply reads_u64|]. eapply reads_bind_last; [by apply reads_u64|]. apply reads_ret.
Qed.

(** One entry of a saved table, in a file that may have been cut or extended since. *)
Lemma parse_entry fileSize n ranges last kind (off : nat) s tl :
  kind < kSectionKinds -> ranges !! kind = Some None -> kHeaderBytes <= off ->
  (N.of_nat off < 2 ^ 64)%N -> (N.of_nat (length s) < 2 ^ 64)%N ->
  parse_table fileSize (S n) ranges last (MkReader (entry kind (N.of_nat off) s ++ tl) true) =
  if decide (off + length s <= fileSize)
  then parse_table fileSize n (<[kind := Some (MkRange off (length s) (checksumOf s))]> ranges) (last `max` (off + length s)) (MkReader tl true)
  else inl (str "section '" ++ sectionName kind ++ str "' lies outside the file (truncated?)").
Proof.
  intros Hk Hp Ho Hw Hl. cbn [parse_table]. rewrite (reads_entry kind (N.of_nat off) s Hk Hw Hl). rewrite !Nat2N.id.
  destruct (Nat.leb_spec kSectionKinds kind); [lia|]. rewrite Hp. cbn [present orb].
  destruct (N.ltb_spec (N.of_nat off) (N.of_nat kHeaderBytes)), (N.ltb_spec (N.of_nat fileSize) (N.of_nat off)),
    (N.ltb_spec (N.of_nat fileSize - N.of_nat off) (N.of_nat (length s))), (decide (off + length s <= fileSize)); cbn [orb]; try lia; done.
Qed.

Variable summary : IndexSummary.
Variables s0 s1 s2 s3 : bytes.
Hypothesis Hsummary : summary_fits summary.
Abbreviation sections := [s0; s1; s2; s3].
Hypothesis Hsize : (N.of_nat (kHeaderBytes + length (concat sections)) < 2 ^ 64)%N.

(** Where the sections begin. *)
Abbreviation o0 := kHeaderBytes.
Abbreviation o1 := (o0 + length s0).
Abbreviation o2 := (o1 + length s1).
Abbreviation o3 := (o2 + length s2).
Abbreviation o4 := (o3 + length s3).

Lemma sections_size : (N.of_nat o4 < 2 ^ 64)%N /\ kHeaderBytes + length (concat sections) = o4.
Proof. cbn [concat] in *. rewrite !length_app in *. cbn [length] in *. lia. Qed.

Lemma emitTable_entries :
  emitTable checksumOf sections =
  entry 0 (N.of_nat o0) s0 ++ entry 1 (N.of_nat o1) s1 ++ entry 2 (N.of_nat o2) s2 ++ entry 3 (N.of_nat o3) s3.
Proof.
  unfold emitTable. cbn [length seq zip zip_with foldl emitEntry fst app]. rewrite <- !(assoc_L (++)).
  rewrite !Nat2N.inj_add. done.
Qed.

Lemma length_header : length (emitHeader checksumOf summary sections) = kHeaderBytes.
Proof.
  unfold emitHeader. rewrite emitTable_entries. unfold emitSummary.
  rewrite !length_app, !length_entry, !length_putU64, !length_putU32. done.
Qed.

Definition saved_ranges : list (option Range) :=
  [Some (MkRange o0 (length s0) (checksumOf s0)); Some (MkRange o1 (length s1) (checksumOf s1));
   Some (MkRange o2 (length s2) (checksumOf s2)); Some (MkRange o3 (length s3) (checksumOf s3))].

(** The table of a saved header, in a file of any length: complete when the file holds
    every section, else refused at the first section that does not fit. *)
Lemma parse_saved_table fileSize tl :
  parse_table fileSize kSectionKinds (replicate kSectionKinds None) kHeaderBytes (MkReader (emitTable checksumOf sections ++ tl) true) =
  if decide (o4 <= fileSize) then inr (saved_ranges, o4, MkReader tl true)
  else inl (str "section '" ++ sectionName (if decide (fileSize < o1) then 0 else if decide (fileSize < o2) then 1 else if decide (fileSize < o3) then 2 else 3) ++
            str "' lies outside the file (truncated?)").
Proof.
  destruct sections_size as [Hw _]. rewrite emitTable_entries. rewrite <- !(assoc_L (++)). unfold kSectionKinds.
  rewrite parse_entry by (unfold kSectionKinds; first [done | lia]). destruct (decide (o1 <= fileSize)).
  2:{ rewrite (decide_True (P := fileSize < o1)), (decide_False (P := o4 <= fileSize)) by lia. done. }
  rewrite (decide_False (P := fileSize < o1)) by lia.
  rewrite parse_entry by (unfold kSectionKinds; first [done | lia]). destruct (decide (o2 <= fileSize)).
  2:{ rewrite (decide_True (P := fileSize < o2)), (decide_False (P := o4 <= fileSize)) by lia. done. }
  rewrite (decide_False (P := fileSize < o2)) by lia.
  rewrite parse_entry by (unfold kSectionKinds; first [done | lia]). destruct (decide (o3 <= fileSize)).
  2:{ rewrite (decide_True (P := fileSize < o3)), (decide_False (P := o4 <= fileSize)) by lia. done. }
  rewrite (decide_False (P := fileSize < o3)) by lia.
  rewrite parse_entry by (unfold kSectionKinds; first [done | lia]). destruct (decide (o4 <= fileSize)); [|done].
  cbn [parse_table]. repeat f_equal. lia.
Qed.

(** A saved header in front of any bytes. *)
Lemma parse_saved_header body :
  parseHeader checksumOf (emitHeader checksumOf summary sections ++ body) =
  let fileSize := kHeaderBytes + length body in
  match parse_table fileSize kSectionKinds (replicate kSectionKinds None) kHeaderBytes
          (MkReader (emitTable checksumOf sections ++ putU64 (checksumOf (take (kHeaderBytes - 8) (emitHeader checksumOf summary sections))) ++ body) true) with
  | inl error => inl error
  | inr (ranges, last, r) =>
      if ok r && negb (last =? fileSize)%nat
      then inl (to_string (N.of_nat (fileSize - last)) ++ str " trailing byte(s) after the last section")
      else if ok r then inr (MkHeader summary ranges) else inl []
  end.
Proof.
  set (ck := checksumOf _). cbn zeta.
  assert (E : emitHeader checksumOf summary sections =
    kMagic ++ putU32 kFormatVersion ++ emitSummary summary ++ putU32 (N.of_nat kSectionKinds) ++ emitTable checksumOf sections ++ putU64 ck).
  { unfold ck, emitHeader. rewrite take_app_length' by (rewrite emitTable_entries; unfold emitSummary;
      rewrite !length_app, !length_entry, !length_putU64, !length_putU32; done). by rewrite <- !(assoc_L (++)). }
  assert (Hl : length (emitHeader checksumOf summary sections ++ body) = kHeaderBytes + length body) by (by rewrite length_app, length_header).
  assert (Hc : take (kHeaderBytes - 8) (emitHeader checksumOf summary sections ++ body) = take (kHeaderBytes - 8) (emitHeader checksumOf summary sections)).
  { apply take_app_le. rewrite length_header. lia. }
  unfold parseHeader. rewrite Hl, Hc. fold ck.
  destruct (Nat.ltb_spec (kHeaderBytes + length body) kHeaderBytes); [lia|].
  assert (Hd : take 8 (drop (kHeaderBytes - 8) (emitHeader checksumOf summary sections ++ body)) = putU64 ck).
  { rewrite drop_app_le, take_app_le by (rewrite ?length_drop, length_header; unfold kHeaderBytes; lia). rewrite E.
    rewrite !(assoc_L (++)). rewrite drop_app_length' by (rewrite emitTable_entries; unfold emitSummary;
      rewrite !length_app, !length_entry, !length_putU64, !length_putU32; done). done. }
  rewrite Hd. pose proof (reads_u64 ck (checksum_width _) []) as R8. rewrite app_nil_r in R8. rewrite R8.
  rewrite E. rewrite <- !(assoc_L (++)). rewrite (reads_bytes kMagic). cbn [ok negb orb]. rewrite bool_decide_eq_true_2 by done. cbn [negb].
  rewrite (reads_u32 kFormatVersion) by done. cbn [ok negb]. rewrite !N.eqb_refl. cbn [negb fst].
  assert (Rs : reads readSummary (emitSummary summary) summary).
  { unfold summary_fits in Hsummary. rewrite !Forall_cons in Hsummary. destruct Hsummary as (? & ? & ? & ? & _), summary.
    do 3 (eapply reads_bind; [by apply reads_u64|]). eapply reads_bind_last; [by apply reads_u64|]. apply reads_ret. }
  rewrite Rs, (reads_u32 (N.of_nat kSectionKinds)) by done. rewrite N.eqb_refl. cbn [negb]. by rewrite Nat2N.id.
Qed.

(** ** The saved file, cut or extended *)

Abbreviation saved := (emitHeader checksumOf summary sections ++ concat sections).

Lemma length_saved_file : length saved = o4.
Proof. rewrite length_app, length_header. apply sections_size. Qed.

Lemma parse_saved : parseHeader checksumOf saved = inr (MkHeader summary saved_ranges).
Proof.
  rewrite parse_saved_header. cbn zeta. destruct sections_size as [_ ->]. rewrite parse_saved_table.
  rewrite decide_True by lia. cbn [ok andb]. by rewrite Nat.eqb_refl.
Qed.

Lemma parse_damaged buf tl :
  tl <> [] -> buf ++ tl = saved \/ buf = saved ++ tl -> exists e, parseHeader checksumOf buf = inl e /\ e <> [].
Proof.
  intros Htl Hb. assert (Hlt : 0 < length tl) by (destruct tl; [done|cbn; lia]).
  destruct (decide (length buf < kHeaderBytes)) as [|Hlen]; [by apply header_short|].
  assert (exists body, buf = emitHeader checksumOf summary sections ++ body /\ kHeaderBytes + length body <> o4) as (body & -> & Hne).
  { pose proof length_saved_file as Hs. destruct Hb as [Hb| ->].
    - exists (drop kHeaderBytes buf). rewrite <- Hb, length_app in Hs. rewrite length_drop. split; [|lia].
      assert (emitHeader checksumOf summary sections = take kHeaderBytes buf) as ->; [|by rewrite take_drop].
      rewrite <- (take_app_le buf tl), Hb by lia. by rewrite take_app_length' by apply length_header.
    - exists (concat sections ++ tl). rewrite length_app, (assoc_L (++)). split; [done|]. destruct sections_size as [_ Ho]. lia. }
  rewrite parse_saved_header. cbn zeta. rewrite parse_saved_table. destruct (decide _); [|eexists; split; [done|message]].
  cbn [ok andb]. destruct (Nat.eqb_spec o4 (kHeaderBytes + length body)); [lia|]. cbn [negb]. eexists. split; [done|message].
Qed.
End Saved.
