(* ===== verification/SnapshotFileRoundtrip.v ===== *)
(** Saving an index to a file and loading it: the round trip of the whole file, and what
    [load] and [verify] make of files nobody saved. *)

From S2P Require Import Prelude Utf8 StringInterner CallGraph CallGraphInv ControlFlowIndex ControlFlowInv ControlFlowRemove ControlFlowQuery Results Codec SnapshotMeta SnapshotGraph SnapshotGraphRoundtrip ChannelIndex ChannelInv ChannelMerge SnapshotControlFlow SnapshotControlFlowRoundtrip MappedControlFlow MappedEquiv SnapshotChannels SnapshotFile.

(** * Sections of a saved file *)

Section Sections.
Variable checksumOf : bytes -> N.
Variable summary : IndexSummary.
Variables s0 s1 s2 s3 : bytes.
Abbreviation sections := [s0; s1; s2; s3].
Abbreviation saved := (emitHeader checksumOf summary sections ++ concat sections).
Abbreviation header := (MkHeader summary (saved_ranges checksumOf s0 s1 s2 s3)).

Lemma cut_middle (a s b whole : bytes) n : whole = a ++ s ++ b -> n = length a -> take (length s) (drop n whole) = s.
Proof. intros -> ->. by rewrite drop_app_length, take_app_length. Qed.

Lemma saved_section kind s : sections !! kind = Some s -> section_of saved header kind = s.
Proof.
  pose proof (length_header checksumOf summary s0 s1 s2 s3) as Hh. set (h := emitHeader checksumOf summary sections) in *.
  destruct kind as [|[|[|[|]]]]; intros [= <-]; cbn [concat].
  - apply (cut_middle h s0 (s1 ++ s2 ++ s3 ++ [])); [done|]. by rewrite Hh.
  - apply (cut_middle (h ++ s0) s1 (s2 ++ s3 ++ [])); [by rewrite <- (assoc_L (++))|]. by rewrite length_app, Hh.
  - apply (cut_middle (h ++ s0 ++ s1) s2 (s3 ++ [])); [by rewrite <- !(assoc_L (++))|]. rewrite !length_app, Hh. cbn. lia.
  - apply (cut_middle (h ++ s0 ++ s1 ++ s2) s3 []); [by rewrite <- !(assoc_L (++))|]. rewrite !length_app, Hh. cbn. lia.
Qed.

Lemma saved_verifies kind s : sections !! kind = Some s -> verifySection checksumOf saved header kind = None.
Proof.
  intros Hk. unfold verifySection. rewrite (saved_section kind s Hk).
  destruct kind as [|[|[|[|]]]]; [..|discriminate]; injection Hk as <-; cbn; by rewrite N.eqb_refl.
Qed.

Lemma saved_decodes {A} kind s (load_section : bytes -> option A) a :
  sections !! kind = Some s -> load_section s = Some a -> decode checksumOf saved header kind load_section = inr a.
Proof. intros Hk Ha. unfold decode. by rewrite (saved_verifies kind s Hk), (saved_section kind s Hk), Ha. Qed.

Lemma saved_decodes_if {A} (wanted : bool) (skipped : A) kind s load_section a :
  sections !! kind = Some s -> load_section s = Some a ->
  decode_if checksumOf wanted skipped saved header kind load_section = inr (if wanted then a else skipped).
Proof. intros Hk Ha. unfold decode_if. destruct wanted; [by eapply saved_decodes|done]. Qed.
End Sections.

(** * Round trip *)

Lemma u64_of_Z_fits z : (u64_of_Z z < 2 ^ 64)%N.
Proof. unfold u64_of_Z. pose proof (Z.mod_pos_bound z (2 ^ 64)). lia. Qed.

Lemma loaded_bits_land needs : loaded_bits needs = N.land needs kSectionAll.
Proof.
  unfold loaded_bits, needed, kSectionGraph, kSectionControlFlow, kSectionChannels, kSectionAll.
  destruct needs as [|p]; [done|]. destruct p as [[[p|p|]|[p|p|]|]|[[p|p|]|[p|p|]|]|]; reflexivity.
Qed.

(** What the casts of the load do with the codes of the enumerators. *)
Record all_casts_ok cast_kind cast_confidence cast_exec cast_raii cast_noexcept (cast_op : N -> ChannelOperation) : Prop := {
  ac_graph : casts_ok cast_kind cast_confidence cast_exec;
  ac_contexts : cf_casts_ok cast_raii cast_noexcept;
  ac_channels : forall o, cast_op (op_code o) = o
}.

(** An index that can be saved: consistent, and within the widths of the format. *)
Record index_saveable (isValidUtf8 : bytes -> bool) `{UI : !UnorderedIter}
    (graph : CallGraph) (cfIndex : ControlFlowIndex) (meta : SnapshotMeta) (channels : ChannelIndex) : Prop := {
  is_graph : cg_ok graph /\ graph_fits isValidUtf8 graph;
  is_contexts : cf_ok cfIndex /\ index_fits isValidUtf8 cfIndex;
  is_channels : ch_ok channels /\ channels_fit isValidUtf8 channels;
  is_meta : meta_fits meta
}.

(** What a load gives of a saved index, by mode and by the sections asked for. *)
Record snapshot_of (isValidUtf8 : bytes -> bool) cast_noexcept (mode : LoadMode) (needs : N)
    (graph : CallGraph) (cfIndex : ControlFlowIndex) (meta : SnapshotMeta) (channels : ChannelIndex) (d : SnapshotData) : Prop := {
  so_meta : sd_meta d = canonical_meta meta;
  so_summary : sd_summary d = summary_of graph cfIndex channels;
  so_loaded : sd_loaded d = N.land needs kSectionAll;
  so_graph : if needed needs kSectionGraph
             then exists g, same_graph graph g /\
                    sd_graph d = match mode with Mutable => g | ReadOnly => read_only_view g end
             else sd_graph d = empty_graph;
  so_contexts : if needed needs kSectionControlFlow
                then exists y, same_contexts isValidUtf8 cfIndex y /\
                       match mode with
                       | Mutable => sd_cfIndex d = Resident y
                       | ReadOnly => exists im, sd_cfIndex d = InFile im /\
                           forall outside, answers_alike (mapped isValidUtf8 cast_noexcept outside im) (resident isValidUtf8 y)
                       end
                else sd_cfIndex d = Resident empty_index;
  so_channels : if needed needs kSectionChannels
                then exists c, same_channels channels c /\
                       sd_channels d = match mode with Mutable => c | ReadOnly => with_byTu ∅ c end
                else sd_channels d = empty_channels
}.

Section File.
Context `{UI : !UnorderedIter, TI : !TextIter}.
Variable isValidUtf8 : bytes -> bool.
Variables (graph : CallGraph) (cfIndex : ControlFlowIndex) (meta : SnapshotMeta) (channels : ChannelIndex).
Hypothesis Hindex : index_saveable isValidUtf8 graph cfIndex meta channels.

Lemma summary_of_fits : summary_fits (summary_of graph cfIndex channels).
Proof.
  destruct Hindex as [[_ Hg] [Hc Hx] _ _]. unfold summary_fits, summary_of. repeat constructor; cbn [su_nodes su_edges su_callSites su_channelSites].
  - pose proof (proj1 (gf_size _ _ Hg)) as Hl. unfold nodeCount, two32 in *. lia.
  - apply u64_of_Z_fits.
  - rewrite (mp_live _ (cf_maps _ Hc)), positions_length. pose proof (length_filter (fun se => sc_live se = true) (contexts_ cfIndex)).
    pose proof (if_contexts _ _ Hx) as Hl. unfold len_fits, two32 in Hl. lia.
  - apply u64_of_Z_fits.
Qed.

Variable checksumOf : bytes -> N.
Hypothesis checksum_width : forall b, (checksumOf b < 2 ^ 64)%N.

Abbreviation saved := (save checksumOf graph cfIndex meta channels).
Hypothesis Hsize : (N.of_nat (length saved) < 2 ^ 64)%N.

Abbreviation header := (MkHeader (summary_of graph cfIndex channels)
  (saved_ranges checksumOf (emitMeta meta) (emitGraph graph) (emitControlFlow cfIndex) (emitChannels channels))).

Lemma saved_header : parseHeader checksumOf saved = inr header.
Proof.
  apply parse_saved; [done|apply summary_of_fits|]. unfold save in Hsize. by rewrite length_app, length_header in Hsize.
Qed.

Lemma saved_verified : verify checksumOf (inr saved) = [].
Proof.
  unfold verify. rewrite saved_header. unfold kSectionKinds, save. cbn [seq omap list_omap].
  by rewrite (saved_verifies checksumOf _ _ _ _ _ 0 _ eq_refl), (saved_verifies checksumOf _ _ _ _ _ 1 _ eq_refl),
    (saved_verifies checksumOf _ _ _ _ _ 2 _ eq_refl), (saved_verifies checksumOf _ _ _ _ _ 3 _ eq_refl).
Qed.

Variables (cast_kind : N -> EdgeKind) (cast_confidence : N -> Confidence) (cast_exec : N -> ExecutionContext).
Variables (cast_raii : N -> RaiiKind) (cast_noexcept : N -> NoexceptSpec) (cast_op : N -> ChannelOperation).
Hypothesis Hcasts : all_casts_ok cast_kind cast_confidence cast_exec cast_raii cast_noexcept cast_op.

Abbreviation load_file := (load checksumOf isValidUtf8 cast_kind cast_confidence cast_exec cast_raii cast_noexcept cast_op).

Definition mutable (mode : LoadMode) : bool := match mode with Mutable => true | ReadOnly => false end.

Lemma graph_decodes mode :
  exists g, same_graph graph g /\
    loadGraph isValidUtf8 cast_kind cast_confidence cast_exec (mutable mode) (emitGraph graph) =
    Some (match mode with Mutable => g | ReadOnly => read_only_view g end).
Proof.
  destruct Hindex as [[Hg Hf] _ _ _], Hcasts as [Hc _ _]. eexists. split; [by apply (loaded_same isValidUtf8)|].
  pose proof (section_read _ _ _ (reads_saved isValidUtf8 _ _ _ true graph Hc Hg Hf)) as E.
  destruct mode; cbn [mutable]; [exact E|]. rewrite read_only_load. unfold loadGraph. by rewrite E.
Qed.

Lemma contexts_decode mode :
  exists y lc, same_contexts isValidUtf8 cfIndex y /\
    loadContexts isValidUtf8 cast_raii cast_noexcept mode (emitControlFlow cfIndex) = Some lc /\
    match mode with
    | Mutable => lc = Resident y
    | ReadOnly => exists im, lc = InFile im /\
        forall outside, answers_alike (mapped isValidUtf8 cast_noexcept outside im) (resident isValidUtf8 y)
    end.
Proof.
  destruct Hindex as [_ [Hx Hf] _ _], Hcasts as [_ Hc _]. exists (reloaded cfIndex). destruct mode.
  - exists (Resident (reloaded cfIndex)). split; [by apply loaded_same_contexts|]. split; [|done]. destruct Hc as [C1 C2]. unfold loadContexts, loadControlFlow.
    by rewrite (section_read _ _ _ (control_flow_read cfIndex Hx isValidUtf8 Hf cast_raii cast_noexcept C1 C2)).
  - exists (InFile (mapped_of cfIndex)). split; [by apply loaded_same_contexts|].
    pose proof (fun outside => mapped_loaded isValidUtf8 cast_raii cast_noexcept outside cfIndex Hc Hx Hf) as Hm.
    split; [|exists (mapped_of cfIndex); split; [done|intros outside; apply Hm]]. unfold loadContexts. by rewrite (proj1 (Hm (fun _ _ => 0%N))).
Qed.

Lemma channels_decode mode :
  exists c, same_channels channels c /\
    loadChannels isValidUtf8 cast_op (mutable mode) (emitChannels channels) = Some (match mode with Mutable => c | ReadOnly => with_byTu ∅ c end).
Proof.
  destruct Hindex as [_ _ [Hx Hf] _], Hcasts as [_ _ Hc]. eexists. split; [by apply (loaded_channels isValidUtf8)|].
  pose proof (section_read _ _ _ (channels_read isValidUtf8 channels Hx Hf cast_op (mutable mode) Hc)) as E. by destruct mode.
Qed.

Lemma saved_loads mode needs :
  exists d, load_file mode needs (inr saved) = inr d /\ snapshot_of isValidUtf8 cast_noexcept mode needs graph cfIndex meta channels d.
Proof.
  destruct (graph_decodes mode) as (g & Hg & Eg), (contexts_decode mode) as (y & lc & Hy & Ey & Hlc), (channels_decode mode) as (c & Hc & Ec).
  pose proof (section_read _ _ _ (reads_meta meta (is_meta _ _ _ _ _ Hindex))) as Em.
  eexists. split.
  - unfold load. rewrite saved_header. unfold save. fold (mutable mode).
    rewrite (saved_decodes checksumOf _ _ _ _ _ kMetaKind _ _ _ eq_refl Em).
    rewrite (saved_decodes_if checksumOf _ _ _ _ _ _ empty_graph kGraphKind _ _ _ eq_refl Eg).
    rewrite (saved_decodes_if checksumOf _ _ _ _ _ _ (Resident empty_index) kControlFlowKind _ _ _ eq_refl Ey).
    rewrite (saved_decodes_if checksumOf _ _ _ _ _ _ empty_channels kChannelsKind _ _ _ eq_refl Ec). reflexivity.
  - split; cbn [sd_meta sd_summary sd_loaded sd_graph sd_cfIndex sd_channels hd_summary]; [done|done|apply loaded_bits_land|..];
      destruct (needed needs _); try done; [by exists g| |by exists c].
    exists y. split; [done|]. destruct mode; [done|]. destruct Hlc as (im & -> & Hm). by exists im.
Qed.
End File.

(** C13. Saving an index and loading the file gives the index back.  The file verifies; a load
    in either mode succeeds, whatever sections it asks for, and gives the meta, the counts
    of the header, and exactly the sections asked for: the graph, the contexts and the
    channels of the saved index in a mutable load, and views that answer every query alike
    in a read-only one. *)
Theorem snapshot_roundtrip `{UI : !UnorderedIter, TI : !TextIter} (checksumOf : bytes -> N) (isValidUtf8 : bytes -> bool)
    cast_kind cast_confidence cast_exec cast_raii cast_noexcept cast_op graph cfIndex meta channels :
  (forall b, (checksumOf b < 2 ^ 64)%N) ->
  all_casts_ok cast_kind cast_confidence cast_exec cast_raii cast_noexcept cast_op ->
  index_saveable isValidUtf8 graph cfIndex meta channels ->
  let file := save checksumOf graph cfIndex meta channels in
  (N.of_nat (length file) < 2 ^ 64)%N ->
  verify checksumOf (inr file) = [] /\
  forall mode needs, exists d,
    load checksumOf isValidUtf8 cast_kind cast_confidence cast_exec cast_raii cast_noexcept cast_op mode needs (inr file) = inr d /\
    snapshot_of isValidUtf8 cast_noexcept mode needs graph cfIndex meta channels d.
Proof. intros Hck Hc Hi file Hs. split; [by apply (saved_verified isValidUtf8)|]. intros mode needs. by apply saved_loads. Qed.

(** * Damage *)

(** The checksum of the table is the checksum of the section's bytes. *)
Definition section_checked (checksumOf : bytes -> N) (buf : bytes) (h : Header) (kind : nat) : Prop :=
  checksumOf (section_of buf h kind) = rg_checksum (range_of h kind).

(** The sections a load decodes. *)
Definition decoded (needs : N) (kind : nat) : Prop :=
  kind = kMetaKind \/ (kind = kGraphKind /\ needed needs kSectionGraph) \/
  (kind = kControlFlowKind /\ needed needs kSectionControlFlow) \/ (kind = kChannelsKind /\ needed needs kSectionChannels).

Section Damage.
Variable checksumOf : bytes -> N.
Implicit Types (buf : bytes) (h : Header).

Lemma verify_section_spec buf h kind :
  match verifySection checksumOf buf h kind with None => section_checked checksumOf buf h kind | Some why => why <> [] /\ ~ section_checked checksumOf buf h kind end.
Proof.
  unfold verifySection, section_checked. destruct (N.eqb_spec (checksumOf (section_of buf h kind)) (rg_checksum (range_of h kind))); [done|].
  split; [message|done].
Qed.

Lemma decode_spec {A} buf h kind (load_section : bytes -> option A) :
  match decode checksumOf buf h kind load_section with
  | inl e => e <> []
  | inr a => section_checked checksumOf buf h kind /\ load_section (section_of buf h kind) = Some a
  end.
Proof.
  unfold decode. pose proof (verify_section_spec buf h kind) as H. destruct (verifySection _ _ _ _); [apply H|].
  destruct (load_section _); [done|]. unfold malformed. message.
Qed.

Lemma decode_if_spec {A} (wanted : bool) (skipped : A) buf h kind load_section :
  match decode_if checksumOf wanted skipped buf h kind load_section with
  | inl e => e <> []
  | inr a => wanted -> section_checked checksumOf buf h kind
  end.
Proof.
  unfold decode_if. destruct wanted; [|done]. pose proof (decode_spec buf h kind load_section) as H.
  destruct (decode _ _ _ _ _); [done|]. intros _. apply H.
Qed.

Lemma verify_spec buf :
  verify checksumOf (inr buf) = [] <->
  exists h, parseHeader checksumOf buf = inr h /\ forall kind, kind < kSectionKinds -> section_checked checksumOf buf h kind.
Proof.
  unfold verify. pose proof (header_spec checksumOf buf) as Hh. destruct (parseHeader checksumOf buf) as [e|h]; [naive_solver|].
  assert (Hv : forall kind, verifySection checksumOf buf h kind = None <-> section_checked checksumOf buf h kind).
  { intros kind. pose proof (verify_section_spec buf h kind) as H. destruct (verifySection _ _ _ _); naive_solver. }
  destruct (omap (verifySection checksumOf buf h) (seq 0 kSectionKinds)) as [|why whys] eqn:E; cbn.
  - split; [|done]. intros _. exists h. split; [done|]. intros kind Hk. apply Hv, eq_None_not_Some. intros [why Hw].
    apply (not_elem_of_nil why). rewrite <- E. apply list_elem_of_omap. exists kind. split; [apply elem_of_seq; lia|done].
  - assert (Hin : why ∈ omap (verifySection checksumOf buf h) (seq 0 kSectionKinds)) by (rewrite E; left).
    apply list_elem_of_omap in Hin as (kind & Hk%elem_of_seq & Hw). pose proof (verify_section_spec buf h kind) as H. rewrite Hw in H.
    destruct H as [Hne Hno]. split; [done|]. intros (h' & [= <-] & Hall). by destruct Hno; apply Hall; lia.
Qed.
End Damage.

(** C14. What is refused, and that it is said why.  A refusal of [load] or [verify] names its
    cause.  A load that succeeds, of any bytes at all, has found a header whose own
    checksum matches and whose section table lists every section once, inside the file and
    up to its end, and has decoded no section whose checksum does not match; [verify]
    accepts exactly the files with such a header and matching checksums of all sections.
    A saved file that was cut short or has bytes appended is refused by both. *)
Theorem damaged_files_refused (checksumOf : bytes -> N) (isValidUtf8 : bytes -> bool)
    cast_kind cast_confidence cast_exec cast_raii cast_noexcept cast_op :
  let load_file := load checksumOf isValidUtf8 cast_kind cast_confidence cast_exec cast_raii cast_noexcept cast_op in
  (forall buf mode needs, match load_file mode needs (inr buf) with
     | inl e => e <> []
     | inr d => exists h, parseHeader checksumOf buf = inr h /\ header_ok checksumOf buf h /\
         sd_summary d = hd_summary h /\ forall kind, decoded needs kind -> section_checked checksumOf buf h kind
     end) /\
  (forall buf, verify checksumOf (inr buf) = [] <->
     exists h, parseHeader checksumOf buf = inr h /\ header_ok checksumOf buf h /\
       forall kind, kind < kSectionKinds -> section_checked checksumOf buf h kind) /\
  (forall (UI : UnorderedIter) (TI : TextIter) graph cfIndex meta channels buf tl mode needs,
     (forall b, (checksumOf b < 2 ^ 64)%N) -> index_saveable isValidUtf8 graph cfIndex meta channels ->
     let file := save checksumOf graph cfIndex meta channels in
     (N.of_nat (length file) < 2 ^ 64)%N -> tl <> [] -> buf ++ tl = file \/ buf = file ++ tl ->
     exists e, e <> [] /\ load_file mode needs (inr buf) = inl e /\ verify checksumOf (inr buf) = e).
Proof.
  split; [|split].
  - intros buf mode needs. unfold load. pose proof (header_spec checksumOf buf) as Hh. destruct (parseHeader checksumOf buf) as [e|h]; [done|].
    match goal with |- context [decode ?c ?b ?h ?k ?f] => pose proof (decode_spec c b h k f) as H0; destruct (decode c b h k f) end; [done|].
    do 3 (match goal with |- context [decode_if ?c ?w ?s ?b ?h ?k ?f] =>
      pose proof (decode_if_spec c w s b h k f); destruct (decode_if c w s b h k f) end; [done|]).
    exists h. split; [done|]. split; [done|]. split; [done|]. intros kind [->|[[-> ?]|[[-> ?]|[-> ?]]]]; [apply H0|auto..].
  - intros buf. rewrite verify_spec. pose proof (header_spec checksumOf buf) as Hh.
    split; intros (h & E & H); exists h; rewrite E in Hh; naive_solver.
  - intros UI TI graph cfIndex meta channels buf tl mode needs Hck Hi file Hs Htl Hb.
    assert (exists e, parseHeader checksumOf buf = inl e /\ e <> []) as (e & E & He).
    { apply (parse_damaged checksumOf Hck (summary_of graph cfIndex channels) (emitMeta meta) (emitGraph graph)
        (emitControlFlow cfIndex) (emitChannels channels) (summary_of_fits isValidUtf8 _ _ _ _ Hi)) with tl; [|done|done].
      unfold file, save in Hs. by rewrite length_app, length_header in Hs. }
    exists e. split; [done|]. unfold load, verify. by rewrite E.
Qed.

(** ** Examples *)

(** A checksum of 64 bits. *)
Definition folded (b : bytes) : N := (le_value b mod 2 ^ 64)%N.

Lemma folded_width b : (folded b < 2 ^ 64)%N.
Proof. by apply N.mod_lt. Qed.

Lemma example_casts : all_casts_ok kind_of_code confidence_of_code exec_of_code raii_of_code noexcept_of_code op_of_code.
Proof. split; [apply codes_ok|apply cf_codes_ok|by intros []]. Qed.

Lemma example_saveable : @index_saveable valid_utf8b canonical_iter saved_graph saved_index small_meta saved_channels.
Proof.
  split; [split; [apply saved_graph_ok|apply saved_graph_fits]|split; [apply saved_index_ok|apply saved_index_fits]|
          split; [apply saved_channels_ok|apply saved_channels_fit]|apply small_meta_fits].
Qed.

Abbreviation example_load := (load folded valid_utf8b kind_of_code confidence_of_code exec_of_code raii_of_code noexcept_of_code op_of_code).
Abbreviation example_file := (@save canonical_iter canonical_text_iter folded saved_graph saved_index small_meta saved_channels).

Lemma snapshot_roundtrip_witness : exists d, example_load ReadOnly 5 (inr example_file) = inr d /\ sd_loaded d = 5%N.
Proof.
  destruct (proj2 (@snapshot_roundtrip canonical_iter canonical_text_iter folded valid_utf8b _ _ _ _ _ _ saved_graph saved_index small_meta
    saved_channels folded_width example_casts example_saveable ltac:(vm_compute; reflexivity)) ReadOnly 5%N) as (d & Hl & Hd).
  exists d. split; [exact Hl|]. rewrite (so_loaded _ _ _ _ _ _ _ _ _ Hd). reflexivity.
Defined.

Lemma damaged_files_refused_witness :
  exists e, e <> [] /\ example_load Mutable kSectionAll (inr (example_file ++ str "x")) = inl e.
Proof.
  destruct (proj2 (proj2 (damaged_files_refused folded valid_utf8b kind_of_code confidence_of_code exec_of_code raii_of_code noexcept_of_code op_of_code))
    canonical_iter canonical_text_iter saved_graph saved_index small_meta saved_channels (example_file ++ str "x") (str "x") Mutable kSectionAll
    folded_width example_saveable ltac:(vm_compute; reflexivity) ltac:(discriminate) (or_intror eq_refl)) as (e & He & Hl & _).
  exists e. split; [exact He|exact Hl].
Defined.
