(* ===== verification/SnapshotMerge.v ===== *)
(** Merging saved indexes (src/callgraph/Snapshot.cpp, [SnapshotIO::merge]): files are loaded
    in turn and merged into one index.  Build configurations must agree.  The units of a
    later file that an earlier one holds are taken out of it before it is merged, so that no
    fact is counted twice.

    The locals of the C++ function are split by what they belong to: the configuration, the
    entry points, the units and the indexes. *)

From S2P Require Import Prelude Utf8 StringInterner CallGraph ControlFlowIndex Results SnapshotMeta Staleness ChannelIndex MappedControlFlow SnapshotFile.

(** [c.empty()]. *)
Definition no_items {A} (l : list A) : bool := match l with [] => true | _ => false end.

Record MergeOptions := MkOptions { mo_entryPoints : list bytes; mo_allowMismatch : bool }.

(** * Configuration *)

(** The configuration of [out.meta] with its [provenance], [configSource] once [haveConfig],
    and [maxBakeStartNs]. *)
Record MergedConfig := MkConfig {
  mc_collapsePaths : list bytes;
  mc_lockAllowlist : list bytes;
  mc_lockBuiltins : bool;
  mc_channelTypes : list ChannelTypeSpec;
  mc_provenance : IndexProvenance;
  mc_source : option bytes;
  mc_maxBakeStartNs : N
}.

(** A default-constructed meta. *)
Definition no_config : MergedConfig := MkConfig [] [] true [] (MkProvenance [] [] [] 0) None 0.

Definition config_matches (c : MergedConfig) (m : SnapshotMeta) : bool :=
  bool_decide (collapsePaths m = mc_collapsePaths c) && bool_decide (lockAllowlist m = mc_lockAllowlist c) &&
  Bool.eqb (lockBuiltins m) (mc_lockBuiltins c) && bool_decide (channelTypes m = mc_channelTypes c).

Definition env_matches (a b : bytes) : bool :=
  bool_decide (a = []) || bool_decide (b = []) || bool_decide (b = a).

(** [if (a.empty() && !b.empty()) a = b;] *)
Definition fill (a b : bytes) : bytes := if no_items a && negb (no_items b) then b else a.

Definition fill_provenance (a b : IndexProvenance) : IndexProvenance :=
  MkProvenance (fill (analyzer a) (analyzer b)) (fill (toolchain a) (toolchain b)) (fill (environment a) (environment b)) (bakeStartNs a).

Definition merge_config (options : MergeOptions) (path : bytes) (m : SnapshotMeta) (c : MergedConfig) : bytes + MergedConfig :=
  match mc_source c with
  | None =>
      inr (MkConfig (collapsePaths m) (lockAllowlist m) (lockBuiltins m) (channelTypes m) (provenance m) (Some path)
             (bakeStartNs (provenance m)))
  | Some source =>
      if negb (config_matches c m) && negb (mo_allowMismatch options)
      then inl (str "build configuration mismatch between '" ++ source ++ str "' and '" ++ path ++ str "' (pass --allow-mismatch to force)")
      else if negb (env_matches (environment (mc_provenance c)) (environment (provenance m))) && negb (mo_allowMismatch options)
      then inl (str "bake environment mismatch between '" ++ source ++ str "' (" ++ environment (mc_provenance c) ++ str ") and '" ++ path ++
                str "' (" ++ environment (provenance m) ++ str ") (pass --allow-mismatch to force)")
      else inr (MkConfig (mc_collapsePaths c) (mc_lockAllowlist c) (mc_lockBuiltins c) (mc_channelTypes c)
                  (fill_provenance (mc_provenance c) (provenance m)) (Some source)
                  (mc_maxBakeStartNs c `max` bakeStartNs (provenance m))%N)
  end.

(** * Entry points *)

(** [out.meta.entryPoints] and [seenEntryPoints]. *)
Abbreviation MergedEntries := (list bytes * gset bytes)%type.

Definition merge_entry (st : MergedEntries) (ep : bytes) : MergedEntries :=
  if decide (ep ∈ st.2) then st else (st.1 ++ [ep], {[ep]} ∪ st.2).

(** * Units *)

(** The columns of [out.meta] that run parallel to the units, [seenTus], [mergedDeps] and
    [mergedOutcomes]. *)
Record MergedUnits := MkUnits {
  mu_files : list FileStamp;
  mu_fingerprints : list bytes;
  mu_seen : gset bytes;
  mu_deps : TuDependencies;
  mu_outcomes : TuOutcomes
}.

Definition no_units : MergedUnits := MkUnits [] [] ∅ ∅ ∅.

(** [if (auto it = from.find(key); it != from.end()) into\[key\] = it->second;] *)
Definition take_over {A} (from : gmap bytes A) (key : bytes) (into : gmap bytes A) : gmap bytes A :=
  match from !! key with Some a => <[key := a]> into | None => into end.

(** One unit of a file: new, or one that overlaps. *)
Definition merge_unit (m : SnapshotMeta) (st : MergedUnits * list bytes * nat) (i : nat) : MergedUnits * list bytes * nat :=
  let '(u, overlapping, newTus) := st in
  match files m !! i with
  | None => st
  | Some fs =>
      if decide (fs_path fs ∈ mu_seen u) then (u, overlapping ++ [fs_path fs], newTus)
      else (MkUnits (mu_files u ++ [fs]) (mu_fingerprints u ++ [default [] (fingerprints m !! i)]) ({[fs_path fs]} ∪ mu_seen u)
              (take_over (dependenciesOf m) (fs_path fs) (mu_deps u)) (take_over (outcomesOf m) (fs_path fs) (mu_outcomes u)),
            overlapping, S newTus)
  end.

Definition merge_units (m : SnapshotMeta) (u : MergedUnits) : MergedUnits * list bytes * nat :=
  foldl (merge_unit m) (u, [], 0) (seq 0 (length (files m))).

(** * Indexes *)

(** The indexes of [out], and [firstShard]. *)
Record MergedIndexes := MkIndexes {
  mx_graph : CallGraph;
  mx_cfIndex : ControlFlowIndex;
  mx_channels : ChannelIndex;
  mx_first : bool
}.

Definition no_indexes : MergedIndexes := MkIndexes empty_graph empty_index empty_channels true.

(** A mutable load gives a resident control-flow index. *)
Definition contexts_of (c : LoadedContexts) : ControlFlowIndex := match c with Resident x => x | InFile _ => empty_index end.

Section Merge.
Context `{UI : !UnorderedIter, TI : !TextIter}.

Definition merge_indexes (overlapping : list bytes) (d : SnapshotData) (x : MergedIndexes) : MergedIndexes :=
  let graph := if no_items overlapping then sd_graph d else (removeTUs overlapping (sd_graph d)).1 in
  let cfIndex := if no_items overlapping then contexts_of (sd_cfIndex d) else (cf_removeTUs overlapping (contexts_of (sd_cfIndex d))).1 in
  let channels := if no_items overlapping then sd_channels d else (ch_removeTUs overlapping (sd_channels d)).1 in
  if mx_first x && no_items overlapping then MkIndexes graph cfIndex channels false
  else MkIndexes (absorb false graph (mx_graph x)) (cf_absorb cfIndex (mx_cfIndex x)) (ch_absorb false channels (mx_channels x)) false.

(** * The merge *)

Record MergeState := MkMerging {
  mg_config : MergedConfig;
  mg_entries : MergedEntries;
  mg_units : MergedUnits;
  mg_indexes : MergedIndexes
}.

Definition merge_start : MergeState := MkMerging no_config ([], ∅) no_units no_indexes.

(** One loaded file. *)
Definition merge_snapshot (options : MergeOptions) (path : bytes) (d : SnapshotData) (st : MergeState) : bytes + MergeState :=
  match merge_config options path (sd_meta d) (mg_config st) with
  | inl why => inl why
  | inr config =>
      let entries := if no_items (mo_entryPoints options) then foldl merge_entry (mg_entries st) (entryPoints (sd_meta d)) else mg_entries st in
      let '(units, overlapping, newTus) := merge_units (sd_meta d) (mg_units st) in
      let indexes := if negb (no_items (files (sd_meta d))) && (newTus =? 0)%nat then mg_indexes st
                     else merge_indexes overlapping d (mg_indexes st) in
      inr (MkMerging config entries units indexes)
  end.

(** [SnapshotIO::load(path, &loadStats, LoadMode::Mutable, kSectionAll)]: the data, or
    [loadStats.error]. *)
Variable load_path : bytes -> bytes + SnapshotData.

Fixpoint merge_all (options : MergeOptions) (inputPaths : list bytes) (st : MergeState) : bytes + MergeState :=
  match inputPaths with
  | [] => inr st
  | path :: rest =>
      match load_path path with
      | inl error =>
          inl (str "cannot load '" ++ path ++ str "': " ++ (if no_items error then str "missing or unreadable file" else error))
      | inr d =>
          match merge_snapshot options path d st with
          | inl why => inl why
          | inr st' => merge_all options rest st'
          end
      end
  end.

(** What is made of the state after the loop. *)
Definition merged_meta (options : MergeOptions) (st : MergeState) : SnapshotMeta :=
  let c := mg_config st in
  let u := mg_units st in
  let entries := if no_items (mo_entryPoints options) then mg_entries st else foldl merge_entry (mg_entries st) (mo_entryPoints options) in
  let p := mc_provenance c in
  let m := MkMeta (mc_collapsePaths c) (mc_lockAllowlist c) (mc_lockBuiltins c) (mc_channelTypes c) (mu_files u) [] [] entries.1
             (mu_fingerprints u) [] (MkProvenance (analyzer p) (toolchain p) (environment p) (mc_maxBakeStartNs c)) in
  let m := recordDependencies m (mu_deps u) in
  if no_items (files m) then m else recordOutcomes m (mu_outcomes u).

Definition merge (options : MergeOptions) (inputPaths : list bytes) : bytes + SnapshotData :=
  if no_items inputPaths then inl (str "no input snapshots specified")
  else
    match merge_all options inputPaths merge_start with
    | inl why => inl why
    | inr st =>
        let x := mg_indexes st in
        inr (MkData (mx_graph x) (Resident (mx_cfIndex x)) (mx_channels x) (merged_meta options st)
               (summary_of (mx_graph x) (mx_cfIndex x) (mx_channels x)) kSectionAll)
    end.
End Merge.
