(* ===== verification/SnapshotMergeTheorems.v ===== *)
(** Merging saved indexes: when a merge succeeds, and that every unit's facts come from the
    first input that lists the unit, in all three indexes and in the meta. *)

From S2P Require Import Prelude Registrations Utf8 StringInterner CallGraph CallGraphInv CallGraphRemove CallGraphMerge ControlFlowIndex ControlFlowInv ControlFlowMerge ControlFlowRemove ControlFlowQuery Results SnapshotMeta Staleness ChannelIndex ChannelInv ChannelRemove ChannelMerge SnapshotFile SnapshotMerge.

(** * What the indexes promise

    What the three indexes promise to a merge of saved indexes: facts are counted per
    translation unit, merging adds the counts and removing units sets theirs to zero.

    [UnitLedger] states the promise; the call graph, the control-flow index and the channel
    index keep it.  The merge (SnapshotMerge.v) is proved against the interface. *)

(** The index texts of unit paths. *)
Abbreviation unit_texts paths := (toIndexText <$> paths).

Class UnitLedger (X Fact : Type) := {
  lg_ok : X -> Prop;
  lg_empty : X;
  lg_absorb : X -> X -> X;
  lg_remove : list bytes -> X -> X;
  (** There is room in the second index for the first. *)
  lg_room : X -> X -> Prop;
  (** How often a unit holds a fact. *)
  lg_count : X -> bytes -> Fact -> nat;
  lg_empty_ok : lg_ok lg_empty;
  lg_empty_count : forall tu f, lg_count lg_empty tu f = 0;
  lg_absorb_ok : forall s x, lg_ok s -> lg_ok x -> lg_room s x -> lg_ok (lg_absorb s x);
  lg_absorb_count : forall s x tu f, lg_ok s -> lg_ok x -> lg_room s x ->
    lg_count (lg_absorb s x) tu f = lg_count x tu f + lg_count s tu f;
  lg_remove_ok : forall paths x, lg_ok x -> lg_ok (lg_remove paths x);
  lg_remove_count : forall paths x tu f, lg_ok x ->
    lg_count (lg_remove paths x) tu f = if decide (tu ∈ unit_texts paths) then 0 else lg_count x tu f
}.

(** * The call graph *)

Section Graph.
Context `{UI : !UnorderedIter}.

Definition graph_writable (g : CallGraph) : Prop := cg_ok g /\ readOnly_ g = false.

Definition graph_room (s g : CallGraph) : Prop :=
  room (table_size (interner_ s)) (interner_ g) /\
  (forall i, (N.of_nat (refs_at (edges_ g) i) + total_refs (edges_ s) < two32)%N).

Lemma store_node_readOnly n d node g : readOnly_ (store_node n d node g) = readOnly_ g.
Proof. unfold store_node. by destruct (nodes_ g !! n). Qed.

Lemma contribute_readOnly n tu g : readOnly_ (contribute n tu g) = readOnly_ g.
Proof. unfold contribute. by case_decide. Qed.

Lemma absorb_node_readOnly s remap g e : readOnly_ (absorb_node s remap g e) = readOnly_ g.
Proof.
  destruct e as [id node]. unfold absorb_node. cbv zeta.
  assert (H : forall g' tus, readOnly_ (foldl (fun g tu => contribute (remap_at remap id) (remap_at remap tu) g) g' tus) = readOnly_ g').
  { intros g' tus. apply (foldl_frame readOnly_). intros. apply contribute_readOnly. }
  destruct (nodeContributors_ s !! id); rewrite ?H; (destruct (nodes_ g !! _); [|destruct (intern _ _)]); by rewrite store_node_readOnly.
Qed.

Lemma absorb_edge_readOnly remap st e : readOnly_ (absorb_edge remap st e).1 = readOnly_ st.1.
Proof.
  destruct st as [g er]. unfold absorb_edge. destruct (s_refs e =? 0)%N; [done|]. unfold store_edge.
  by destruct (edgeIndex_ g !! _).
Qed.

Lemma absorb_readOnly s g : readOnly_ (absorb false s g) = readOnly_ g.
Proof.
  unfold absorb. destruct (readOnly_ g) eqn:Hro; [done|]. destruct (absorb_strings _ _) as [t remap].
  set (g1 := foldl (absorb_node s remap) _ _). assert (H1 : readOnly_ g1 = false).
  { unfold g1. rewrite (foldl_frame readOnly_) by apply absorb_node_readOnly. done. }
  destruct (foldl (absorb_edge remap) (g1, []) (edges_ s)) as [g2 er] eqn:E2.
  assert (H2 : readOnly_ g2 = false).
  { pose proof (foldl_frame (fun st => readOnly_ st.1) (absorb_edge remap) (edges_ s) (g1, []) (absorb_edge_readOnly remap)) as H.
    rewrite E2 in H. etrans; [exact H|done]. }
  rewrite !(foldl_frame readOnly_); [done|intros g' []..].
  - done.
  - unfold absorb_derived. by rewrite (foldl_frame readOnly_).
  - unfold absorb_overrides. by rewrite (foldl_frame readOnly_).
  - unfold absorb_impls. by rewrite (foldl_frame readOnly_).
  - unfold absorb_returns. rewrite (foldl_frame readOnly_); [done|]. intros. unfold store_return. by case_decide.
Qed.

(** Removing units leaves the position of a call, or the call has lost its last reference. *)
Lemma position_removed ids g g' n c :
  cg_ok g -> removed_spec ids g g' n ->
  position g' c = position g c \/ (position g' c = None /\ exists i, position g c = Some i /\ refs_at (edges_ g') i = 0).
Proof.
  intros Hg Hr. unfold position. rewrite (rm_strings _ _ _ _ Hr). destruct (call_key (interner_ g) c) as [k|]; cbn; [|by left].
  pose proof (edges_index _ _ _ _ _ _ (ok_edges _ Hg) k) as Hi. pose proof (edges_index _ _ _ _ _ _ (ok_edges _ (rm_ok _ _ _ _ Hr)) k) as Hi'.
  assert (Hsame : forall i, edgeIndex_ g' !! k = Some i -> edgeIndex_ g !! k = Some i).
  { intros i (se' & Hse' & Hl & Hk)%Hi'. apply Hi. pose proof (rm_content _ _ _ _ Hr i) as Hc. rewrite Hse' in Hc.
    destruct (edges_ g !! i) as [se|] eqn:Hse; [|done]. apply (inj Some), keyOf_ref_of in Hc. exists se.
    split; [done|]. split; [|congruence]. pose proof (rm_refs _ _ _ _ Hr i) as Hn. assert (Hp : 0 < refs_at (edges_ g') i) by (apply refs_at_pos; eauto).
    assert (Hp' : 0 < refs_at (edges_ g) i) by lia. apply refs_at_pos in Hp' as (? & ? & ?). congruence. }
  destruct (edgeIndex_ g' !! k) as [i|] eqn:E'; [left; symmetry; by apply Hsame|]. destruct (edgeIndex_ g !! k) as [i|] eqn:E; [|by left].
  right. split; [done|]. exists i. split; [done|]. destruct (decide (0 < refs_at (edges_ g') i)) as [Hp|]; [|lia].
  apply refs_at_pos in Hp as (se' & Hse' & Hl). destruct (proj1 (Hi i) eq_refl) as (se & Hse & _ & Hk). pose proof (rm_content _ _ _ _ Hr i) as Hc.
  rewrite Hse, Hse' in Hc. apply (inj Some), keyOf_ref_of in Hc. assert (None = Some i) as [=]. apply Hi'. exists se'. split; [done|split; congruence].
Qed.

Lemma removed_units paths g tu c :
  graph_writable g ->
  unit_registrations (removeTUs paths g).1 tu c = if decide (tu ∈ unit_texts paths) then 0 else unit_registrations g tu c.
Proof.
  intros [Hg Hro]. pose proof (removeTUs_removed g paths Hg Hro) as Hr. set (g' := (removeTUs paths g).1) in *.
  unfold unit_registrations. rewrite (rm_strings _ _ _ _ Hr). destruct (find (interner_ g) tu) as [u|] eqn:Eu; [|by case_decide].
  assert (Hu : u ∈ tu_ids (interner_ g) paths <-> tu ∈ unit_texts paths).
  { rewrite elem_of_tu_ids, list_elem_of_fmap. apply exist_proper. intros p. split; [intros [Hp Ef]|intros [-> Hp]; done].
    split; [|done]. apply (find_resolve _ _ _ (ok_interner _ Hg)) in Eu, Ef. congruence. }
  pose proof (rm_tus _ _ _ _ Hr u) as Ht. unfold vec_at. rewrite Ht. destruct (decide (u ∈ _)) as [Hin|Hin].
  - rewrite decide_True by tauto. by destruct (position g' c).
  - rewrite decide_False by tauto. destruct (position_removed _ _ _ _ c Hg Hr) as [->|(-> & i & -> & H0)]; [done|].
    pose proof (tu_counted _ _ _ (ok_tu _ (rm_ok _ _ _ _ Hr)) i) as Hc.
    apply Nat.eq_sym, Nat.le_0_r, Nat.nlt_ge. intros Hocc%occ_pos. assert (0 < regs (tuEdges_ g') i); [|lia].
    apply regs_pos. exists u. unfold vec_at. by rewrite Ht.
Qed.

#[global] Program Instance graph_ledger : UnitLedger CallGraph Call := {|
  lg_ok := graph_writable; lg_empty := empty_graph; lg_absorb := absorb false; lg_remove := fun paths g => (removeTUs paths g).1;
  lg_room := graph_room; lg_count := unit_registrations
|}.
Next Obligation. split; [apply empty_graph_ok|done]. Qed.
Next Obligation. done. Qed.
Next Obligation.
  intros s x [Hs _] [Hx Hro] [R1 R2]. split; [apply (ab_ok _ _ _ (absorb_absorbed x s Hx Hs Hro R1 R2))|by rewrite absorb_readOnly].
Qed.
Next Obligation. intros s x tu c [Hs _] [Hx Hro] [R1 R2]. apply (ab_units _ _ _ (absorb_absorbed x s Hx Hs Hro R1 R2)). Qed.
Next Obligation. intros paths x [Hx Hro]. pose proof (removeTUs_removed x paths Hx Hro) as Hr. split; [apply Hr|by rewrite (rm_readOnly _ _ _ _ Hr)]. Qed.
Next Obligation. intros. by apply removed_units. Qed.
End Graph.

(** * The control-flow index *)

(** How often a unit holds a context: contexts that name their unit. *)
Definition context_count (x : ControlFlowIndex) (tu : bytes) (c : CallSiteContext) : nat :=
  if decide (cs_tuPath c = tu /\ tu <> []) then length (filter (fun d => d = c) (allContexts x)) else 0.

Section Contexts.
Context `{UI : !UnorderedIter}.

Lemma removed_contexts paths x tu c :
  cf_ok x ->
  context_count (cf_removeTUs paths x).1 tu c = if decide (tu ∈ unit_texts paths) then 0 else context_count x tu c.
Proof.
  intros Hx. unfold context_count. destruct (decide (cs_tuPath c = tu /\ tu <> [])) as [[<- Hne]|]; [|by case_decide].
  rewrite (proj1 (proj2 (removal_spec x Hx paths))), list_filter_filter.
  assert (Hfrom : from_tus (tu_texts paths) c = bool_decide (cs_tuPath c ∈ unit_texts paths)).
  { unfold from_tus. rewrite decide_False by done. apply bool_decide_ext, elem_of_tu_texts. }
  case_decide as Hin.
  - rewrite (bool_decide_eq_true_2 _ Hin) in Hfrom. induction (allContexts x) as [|d l IH]; [done|]. rewrite filter_cons, decide_False; [done|].
    intros [-> H]. congruence.
  - rewrite (bool_decide_eq_false_2 _ Hin) in Hfrom. f_equal. apply list_filter_iff. intros d. split; [tauto|by intros ->].
Qed.

#[global] Program Instance context_ledger : UnitLedger ControlFlowIndex CallSiteContext := {|
  lg_ok := cf_ok; lg_empty := empty_index; lg_absorb := cf_absorb; lg_remove := fun paths x => (cf_removeTUs paths x).1;
  lg_room := absorb_room; lg_count := context_count
|}.
Next Obligation. apply empty_index_ok. Qed.
Next Obligation. intros. unfold context_count. by case_decide. Qed.
Next Obligation. intros. by apply cf_absorb_spec. Qed.
Next Obligation.
  intros s x tu c Hs Hx Hr. unfold context_count. case_decide; [|done].
  by rewrite (proj2 (cf_absorb_spec s x Hs Hx Hr)), filter_app, length_app.
Qed.
Next Obligation. intros. by apply removal_spec. Qed.
Next Obligation. intros. by apply removed_contexts. Qed.
End Contexts.

(** * The channel index *)

Section Channels.
Context `{TI : !TextIter}.

#[global] Program Instance channel_ledger : UnitLedger ChannelIndex SiteKey := {|
  lg_ok := ch_ok; lg_empty := empty_channels; lg_absorb := ch_absorb false; lg_remove := fun paths x => (ch_removeTUs paths x).1;
  lg_room := fun s x => forall k, (N.of_nat (refs_of x k + refs_of s k) < two32)%N;
  lg_count := fun x tu k => regs_of x k tu
|}.
Next Obligation. apply empty_channels_ok. Qed.
Next Obligation. done. Qed.
Next Obligation. intros. by apply absorb_ledger. Qed.
Next Obligation. intros. by apply absorb_ledger. Qed.
Next Obligation. intros. by apply sites_removed_ok. Qed.
Next Obligation.
  intros paths x tu k Hx. cbv beta. rewrite (proj1 (removed_ledger x paths Hx)). unfold units.
  apply decide_ext. by rewrite elem_of_list_to_set.
Qed.
End Channels.

(** * The merge *)

(** * One index along the merge *)

Section Ledger.
Context {X Fact : Type} `{L : !UnitLedger X Fact}.
Implicit Types (s x : X) (paths overlapping : list bytes) (before : list (list bytes * X)).

(** What [merge_indexes] does to each of the indexes. *)
Definition stripped overlapping s : X := if no_items overlapping then s else lg_remove overlapping s.

Definition merge_index (first : bool) overlapping s x : X :=
  if first && no_items overlapping then stripped overlapping s else lg_absorb (stripped overlapping s) x.

(** Whatever the index holds of a unit, the meta lists the unit. *)
Definition units_listed paths s : Prop := forall tu f, lg_count s tu f <> 0 -> tu ∈ unit_texts paths.

(** A fact of a unit, counted by the first input that lists the unit. *)
Fixpoint first_count (tu : bytes) (f : Fact) before : nat :=
  match before with
  | [] => 0
  | (paths, s) :: before' => if decide (tu ∈ unit_texts paths) then lg_count s tu f else first_count tu f before'
  end.

Abbreviation listed before := (mjoin before.*1).

Lemma first_count_app tu f before paths s :
  first_count tu f (before ++ [(paths, s)]) =
  if decide (tu ∈ unit_texts (listed before)) then first_count tu f before
  else if decide (tu ∈ unit_texts paths) then lg_count s tu f else 0.
Proof.
  induction before as [|[ps r] before IH]; cbn [first_count app fmap list_fmap fst].
  - by destruct (decide (tu ∈ unit_texts (mjoin []))) as [?%not_elem_of_nil|_].
  - change (mjoin (ps :: before.*1)) with (ps ++ listed before). rewrite fmap_app, IH. destruct (decide (tu ∈ unit_texts ps ++ unit_texts (listed before))) as [H|H];
      rewrite elem_of_app in H; destruct (decide (tu ∈ unit_texts ps)), (decide (tu ∈ unit_texts (listed before))); tauto.
Qed.

Lemma first_count_unlisted tu f before : tu ∉ unit_texts (listed before) -> first_count tu f before = 0.
Proof.
  induction before as [|[ps r] before IH]; [done|]. change (listed ((ps, r) :: before)) with (ps ++ listed before). rewrite fmap_app, not_elem_of_app.
  intros [H1 H2]. cbn [first_count]. rewrite decide_False by done. by apply IH.
Qed.

Lemma stripped_ok overlapping s : lg_ok s -> lg_ok (stripped overlapping s).
Proof. intros Hs. unfold stripped. destruct (no_items overlapping); [done|by apply lg_remove_ok]. Qed.

Lemma stripped_count overlapping s tu f :
  lg_ok s -> lg_count (stripped overlapping s) tu f = if decide (tu ∈ unit_texts overlapping) then 0 else lg_count s tu f.
Proof.
  intros Hs. unfold stripped. destruct overlapping as [|p l]; cbn [no_items]; [|by apply lg_remove_count].
  rewrite decide_False by apply not_elem_of_nil. done.
Qed.

(** The index after the inputs [before]. *)
Record merged_index (first : bool) before x : Prop := {
  mi_ok : lg_ok x;
  mi_count : forall tu f, lg_count x tu f = first_count tu f before;
  mi_first : first = true -> before = []
}.

Lemma merged_start : merged_index true [] lg_empty.
Proof. split; [apply lg_empty_ok|apply lg_empty_count|done]. Qed.

(** The units of an input that earlier inputs list are the ones it repeats. *)
Lemma overlap_text before paths tu :
  tu ∈ unit_texts paths ->
  tu ∈ unit_texts (filter (fun p => p ∈ listed before) paths) <-> tu ∈ unit_texts (listed before).
Proof.
  intros Htu. rewrite !list_elem_of_fmap. setoid_rewrite list_elem_of_filter. split; [naive_solver|].
  intros (p & -> & Hp). apply list_elem_of_fmap in Htu as (q & E%(inj toIndexText) & Hq). subst q. by exists p.
Qed.

Lemma merged_step first before paths s x overlapping :
  merged_index first before x -> lg_ok s -> units_listed paths s ->
  overlapping = filter (fun p => p ∈ listed before) paths ->
  (first && no_items overlapping = false -> lg_room (stripped overlapping s) x) ->
  merged_index false (before ++ [(paths, s)]) (merge_index first overlapping s x).
Proof.
  intros [Hx Hc Hf] Hs Hl Ho Hr. unfold merge_index. pose proof (stripped_ok overlapping s Hs) as Hs'.
  assert (Hsum : forall tu f, lg_count x tu f + lg_count (stripped overlapping s) tu f = first_count tu f (before ++ [(paths, s)])).
  { intros tu f. rewrite stripped_count, first_count_app, Hc by done. destruct (decide (tu ∈ unit_texts paths)) as [Hin|Hin].
    - pose proof (overlap_text before paths tu Hin) as Hov. rewrite <- Ho in Hov.
      destruct (decide (tu ∈ unit_texts (listed before))) as [Hb|Hb]; [rewrite decide_True by tauto; lia|].
      rewrite decide_False, first_count_unlisted by tauto. lia.
    - assert (lg_count s tu f = 0) as ->. { destruct (decide (lg_count s tu f = 0)) as [|Hne]; [done|]. by destruct (Hin (Hl tu f Hne)). }
      destruct (decide (tu ∈ unit_texts (listed before))); rewrite ?first_count_unlisted by done; case_decide; lia. }
  destruct (first && no_items overlapping) eqn:E; split; try done.
  - intros tu f. rewrite <- Hsum. apply andb_true_iff in E as [Ef _]. by rewrite Hc, (Hf Ef).
  - apply lg_absorb_ok; auto.
  - intros tu f. rewrite lg_absorb_count; auto.
Qed.

(** An input all of whose units are known adds nothing. *)
Lemma merged_skip first before paths s x :
  merged_index first before x -> lg_ok s -> (forall p, p ∈ paths -> p ∈ listed before) -> paths <> [] ->
  merged_index first (before ++ [(paths, s)]) x.
Proof.
  intros [Hx Hc Hf] Hs Hsub Hne. split; [done| |].
  - intros tu f. rewrite first_count_app, Hc. case_decide as Hb; [done|]. rewrite decide_False; [by apply first_count_unlisted|].
    intros (p & -> & Hp%Hsub)%list_elem_of_fmap. apply Hb, list_elem_of_fmap. eauto.
  - intros ->. rewrite (Hf eq_refl) in Hsub. destruct paths as [|p paths]; [done|]. exfalso. by apply (not_elem_of_nil p), Hsub; left.
Qed.
End Ledger.

(** * Units *)

Abbreviation paths_of m := (fs_path <$> files m).

(** What a step of the loop over the units of a meta has done after [n] of them. *)
Record units_merged (m : SnapshotMeta) (u : MergedUnits) (n : nat) (u' : MergedUnits) (overlapping : list bytes) (newTus : nat) : Prop := {
  um_seen : forall p, p ∈ mu_seen u' <-> p ∈ mu_seen u \/ p ∈ fs_path <$> take n (files m);
  um_files : mu_files u' = mu_files u ++ filter (fun fs => fs_path fs ∉ mu_seen u) (take n (files m));
  um_prints : length (mu_fingerprints u') = length (mu_files u') /\
    zip (mu_files u') (mu_fingerprints u') = zip (mu_files u) (mu_fingerprints u) ++
      filter (fun e => fs_path e.1 ∉ mu_seen u) (take n (zip (files m) (per_tu [] m (fingerprints m))));
  um_overlapping : overlapping = filter (fun p => p ∈ mu_seen u) (fs_path <$> take n (files m));
  um_new : newTus = length (filter (fun fs => fs_path fs ∉ mu_seen u) (take n (files m)));
  um_outcomes : forall p, mu_outcomes u' !! p =
    if decide (p ∈ (fs_path <$> take n (files m)) /\ p ∉ mu_seen u)
    then match outcomesOf m !! p with Some o => Some o | None => mu_outcomes u !! p end else mu_outcomes u !! p;
  um_deps : forall p, mu_deps u' !! p =
    if decide (p ∈ (fs_path <$> take n (files m)) /\ p ∉ mu_seen u)
    then match dependenciesOf m !! p with Some o => Some o | None => mu_deps u !! p end else mu_deps u !! p
}.

Lemma take_over_lookup {A} (from : gmap bytes A) key into p :
  take_over from key into !! p = if decide (p = key) then match from !! p with Some a => Some a | None => into !! p end else into !! p.
Proof.
  unfold take_over. destruct (decide (p = key)) as [->|Hne]; destruct (from !! key) as [a|] eqn:E; try done.
  - by rewrite lookup_insert_eq.
  - by rewrite lookup_insert_ne.
Qed.

Lemma filter_snoc {A} (P : A -> Prop) `{HP : !forall x, Decision (P x)} (l : list A) x :
  filter P (l ++ [x]) = filter P l ++ (if decide (P x) then [x] else []).
Proof. rewrite filter_app, filter_cons. by case_decide. Qed.

Section Units.
Variables (m : SnapshotMeta) (u : MergedUnits).
Hypothesis Hdup : NoDup (paths_of m).
Hypothesis Hprints : length (mu_fingerprints u) = length (mu_files u).

Abbreviation known_unit fs := (fs_path fs ∈ mu_seen u).
Abbreviation prints := (zip (files m) (per_tu [] m (fingerprints m))).

Lemma unit_take n fs :
  files m !! n = Some fs ->
  take (S n) (files m) = take n (files m) ++ [fs] /\ (fs_path fs ∉ fs_path <$> take n (files m)) /\
  take (S n) prints = take n prints ++ [(fs, default [] (fingerprints m !! n))].
Proof.
  intros Hfs. split; [by apply take_S_r|]. split.
  - rewrite <- (take_drop n (files m)), fmap_app in Hdup. apply NoDup_app in Hdup as (_ & Hd & _). intros Hin. apply (Hd _ Hin).
    apply list_elem_of_fmap. exists fs. split; [done|]. apply list_elem_of_lookup. exists 0. by rewrite lookup_drop, Nat.add_0_r.
  - apply take_S_r, lookup_zip_with_Some. exists fs, (default [] (fingerprints m !! n)). split_and!; [done|done|].
    unfold per_tu. rewrite list_lookup_fmap, lookup_seq_lt by (by eapply lookup_lt_Some). done.
Qed.

Lemma in_snoc p n fs :
  take (S n) (files m) = take n (files m) ++ [fs] ->
  p ∈ fs_path <$> take (S n) (files m) <-> p ∈ fs_path <$> take n (files m) \/ p = fs_path fs.
Proof. intros ->. rewrite fmap_app, elem_of_app. cbn. by rewrite list_elem_of_singleton. Qed.

(** A map that takes over the entry of one more new unit. *)
Lemma take_over_step {A} (from into0 into : gmap bytes A) n fs :
  take (S n) (files m) = take n (files m) ++ [fs] -> ~ known_unit fs -> (fs_path fs ∉ fs_path <$> take n (files m)) ->
  let from_new k p := if decide (p ∈ (fs_path <$> take k (files m)) /\ p ∉ mu_seen u)
                      then match from !! p with Some o => Some o | None => into0 !! p end else into0 !! p in
  (forall p, into !! p = from_new n p) -> forall p, take_over from (fs_path fs) into !! p = from_new (S n) p.
Proof.
  intros Et Hu Hn from_new H p. unfold from_new in *. rewrite take_over_lookup, H. pose proof (in_snoc p n fs Et) as Hp.
  destruct (decide (p = fs_path fs)) as [->|Hne].
  - rewrite (decide_False (P := _ /\ _)), decide_True by tauto. done.
  - apply decide_ext. tauto.
Qed.

Lemma known_step n u' overlapping newTus fs :
  files m !! n = Some fs -> known_unit fs -> units_merged m u n u' overlapping newTus ->
  units_merged m u (S n) u' (overlapping ++ [fs_path fs]) newTus.
Proof.
  intros Hfs Hk [U1 U2 [U3 U3'] U4 U5 U6 U7]. destruct (unit_take n fs Hfs) as (Et & Hnew & Ez). pose proof (fun p => in_snoc p n fs Et) as Hp.
  split.
  - intros p. rewrite U1, Hp. naive_solver.
  - rewrite Et, filter_snoc, decide_False, app_nil_r by tauto. done.
  - rewrite Ez, filter_snoc, decide_False, app_nil_r by (cbn; tauto). done.
  - rewrite Et, fmap_app. cbn [fmap list_fmap]. by rewrite filter_snoc, decide_True, U4 by done.
  - rewrite Et, filter_snoc, decide_False, app_nil_r by tauto. done.
  - intros p. rewrite U6. apply decide_ext. rewrite Hp. naive_solver.
  - intros p. rewrite U7. apply decide_ext. rewrite Hp. naive_solver.
Qed.

Lemma new_step n u' overlapping newTus fs :
  files m !! n = Some fs -> ~ known_unit fs -> units_merged m u n u' overlapping newTus ->
  units_merged m u (S n)
    (MkUnits (mu_files u' ++ [fs]) (mu_fingerprints u' ++ [default [] (fingerprints m !! n)]) ({[fs_path fs]} ∪ mu_seen u')
       (take_over (dependenciesOf m) (fs_path fs) (mu_deps u')) (take_over (outcomesOf m) (fs_path fs) (mu_outcomes u')))
    overlapping (S newTus).
Proof.
  intros Hfs Hk [U1 U2 [U3 U3'] U4 U5 U6 U7]. destruct (unit_take n fs Hfs) as (Et & Hnew & Ez). pose proof (fun p => in_snoc p n fs Et) as Hp.
  split; cbn [mu_files mu_fingerprints mu_seen mu_deps mu_outcomes].
  - intros p. rewrite elem_of_union, elem_of_singleton, U1, Hp. tauto.
  - rewrite Et, filter_snoc, decide_True, U2 by done. by rewrite (assoc_L (++)).
  - rewrite !length_app, U3. split; [done|]. rewrite Ez, filter_snoc, decide_True by done.
    rewrite zip_with_app by done. cbn [zip_with]. by rewrite U3', (assoc_L (++)).
  - rewrite Et, fmap_app. cbn [fmap list_fmap]. by rewrite filter_snoc, decide_False, app_nil_r by done.
  - rewrite Et, filter_snoc, decide_True, length_app, U5 by done. cbn. lia.
  - by apply take_over_step.
  - by apply take_over_step.
Qed.

Lemma merge_units_spec :
  let '(u', overlapping, newTus) := merge_units m u in units_merged m u (length (files m)) u' overlapping newTus.
Proof.
  unfold merge_units. assert (Hn : length (files m) <= length (files m)) by done. revert Hn. generalize (length (files m)) at 1 3 4. intros n.
  induction n as [|n IH]; intros Hn.
  - cbn. split; try done; rewrite ?take_0; cbn; rewrite ?app_nil_r; try done.
    intros p. split; [by left|intros [?|?%not_elem_of_nil]; done].
  - rewrite seq_S, foldl_app. cbn [foldl]. specialize (IH ltac:(lia)). destruct (foldl _ _ _) as [[u' o] k].
    unfold merge_unit. cbn [Nat.add]. destruct (lookup_lt_is_Some_2 (files m) n Hn) as [fs Hfs]. rewrite Hfs.
    assert (Hs : fs_path fs ∈ mu_seen u' <-> known_unit fs).
    { rewrite (um_seen _ _ _ _ _ _ IH). destruct (unit_take n fs Hfs) as (_ & ? & _). tauto. }
    case_decide as Hc; rewrite Hs in Hc; [by apply known_step|by apply new_step].
Qed.
End Units.

(** * Configuration *)

Definition same_config (a b : SnapshotMeta) : Prop :=
  collapsePaths a = collapsePaths b /\ lockAllowlist a = lockAllowlist b /\ lockBuiltins a = lockBuiltins b /\ channelTypes a = channelTypes b.

(** Two environments that do not contradict each other: an empty one is unknown. *)
Definition same_environment (a b : SnapshotMeta) : Prop :=
  environment (provenance a) = [] \/ environment (provenance b) = [] \/ environment (provenance a) = environment (provenance b).

(** Metas whose indexes may be merged. *)
Definition configs_agree (ms : list SnapshotMeta) : Prop :=
  forall a b, a ∈ ms -> b ∈ ms -> same_config a b /\ same_environment a b.

(** The configuration after the inputs [ms]: that of the first, with the first known
    environment. *)
Record config_after (ms : list SnapshotMeta) (c : MergedConfig) : Prop := {
  ca_source : mc_source c = None <-> ms = [];
  ca_config : forall m, head ms = Some m -> mc_collapsePaths c = collapsePaths m /\ mc_lockAllowlist c = lockAllowlist m /\
    mc_lockBuiltins c = lockBuiltins m /\ mc_channelTypes c = channelTypes m;
  ca_environment : (environment (mc_provenance c) = [] /\ Forall (fun m => environment (provenance m) = []) ms) \/
    (environment (mc_provenance c) <> [] /\ exists m, m ∈ ms /\ environment (provenance m) = environment (mc_provenance c));
  ca_start : mc_maxBakeStartNs c = foldr (fun m n => bakeStartNs (provenance m) `max` n)%N 0%N ms
}.

Lemma config_start : config_after [] no_config.
Proof. split; [done|done|by left|done]. Qed.

Lemma config_matches_spec c m :
  config_matches c m = true <-> collapsePaths m = mc_collapsePaths c /\ lockAllowlist m = mc_lockAllowlist c /\
    lockBuiltins m = mc_lockBuiltins c /\ channelTypes m = mc_channelTypes c.
Proof. unfold config_matches. rewrite !andb_true_iff, !bool_decide_eq_true, eqb_true_iff. tauto. Qed.

Lemma env_matches_spec a b : env_matches a b = true <-> a = [] \/ b = [] \/ b = a.
Proof. unfold env_matches. rewrite !orb_true_iff, !bool_decide_eq_true. tauto. Qed.

Lemma head_snoc {A} (l : list A) x : head (l ++ [x]) = match l with [] => Some x | a :: _ => Some a end.
Proof. by destruct l. Qed.

Lemma foldr_max_snoc ms m :
  foldr (fun m n => bakeStartNs (provenance m) `max` n)%N 0%N (ms ++ [m]) =
  (foldr (fun m n => bakeStartNs (provenance m) `max` n)%N 0%N ms `max` bakeStartNs (provenance m))%N.
Proof. induction ms as [|a ms IH]; cbn; [lia|]. rewrite IH. lia. Qed.

Lemma fill_spec a b : fill a b = if decide (a = []) then b else a.
Proof. unfold fill. destruct a, b; done. Qed.

Section Config.
Variables (ms : list SnapshotMeta) (c : MergedConfig) (m first : SnapshotMeta).
Hypothesis Hc : config_after ms c.
Hypothesis Hhead : head ms = Some first.

Lemma first_in : first ∈ ms.
Proof. destruct ms as [|a l]; [done|]. injection Hhead as ->. left. Qed.

Lemma mismatch_disagrees : config_matches c m = false -> ~ configs_agree (ms ++ [m]).
Proof.
  intros Hm Ha. destruct (Ha first m) as [(H1 & H2 & H3 & H4) _]; [apply elem_of_app; left; apply first_in|apply elem_of_app; right; left|].
  destruct (ca_config _ _ Hc first Hhead) as (E1 & E2 & E3 & E4). assert (config_matches c m = true); [|congruence].
  apply config_matches_spec. by rewrite E1, E2, E3, E4.
Qed.

Lemma environments_disagree : env_matches (environment (mc_provenance c)) (environment (provenance m)) = false -> ~ configs_agree (ms ++ [m]).
Proof.
  intros Hm Ha. assert (Hn : ~ (environment (mc_provenance c) = [] \/ environment (provenance m) = [] \/ environment (provenance m) = environment (mc_provenance c))).
  { rewrite <- env_matches_spec, Hm. done. }
  destruct (ca_environment _ _ Hc) as [[? _]|(_ & m' & Hin & E)]; [tauto|].
  destruct (Ha m' m) as [_ [H|[H|H]]]; [apply elem_of_app; by left|apply elem_of_app; right; left|..]; apply Hn; rewrite <- E; naive_solver.
Qed.

Lemma agreement_kept :
  config_matches c m = true -> env_matches (environment (mc_provenance c)) (environment (provenance m)) = true ->
  configs_agree ms -> configs_agree (ms ++ [m]).
Proof.
  intros (M1 & M2 & M3 & M4)%config_matches_spec He%env_matches_spec Ha. destruct (ca_config _ _ Hc first Hhead) as (E1 & E2 & E3 & E4).
  assert (Hcfg : forall a, a ∈ ms -> same_config a m).
  { intros a Hin. destruct (Ha a first Hin first_in) as [(H1 & H2 & H3 & H4) _]. unfold same_config. split_and!; congruence. }
  assert (Henv : forall a, a ∈ ms -> same_environment a m).
  { intros a Hin. unfold same_environment. destruct (ca_environment _ _ Hc) as [[_ Hall]|(Hne & m' & Hin' & E)].
    - left. by eapply Forall_forall in Hall.
    - destruct (Ha a m' Hin Hin') as [_ [H|[H|H]]]; destruct He as [?|[?|He]]; naive_solver congruence. }
  intros a b [Hin|Hin%list_elem_of_singleton]%elem_of_app [Hin'|Hin'%list_elem_of_singleton]%elem_of_app; subst.
  - by apply Ha.
  - split; [by apply Hcfg|by apply Henv].
  - destruct (Hcfg b Hin') as (? & ? & ? & ?), (Henv b Hin') as [?|[?|?]]; unfold same_config, same_environment; naive_solver.
  - split; [done|]. right. by right.
Qed.

Lemma config_filled source :
  mc_source c = Some source ->
  config_after (ms ++ [m]) (MkConfig (mc_collapsePaths c) (mc_lockAllowlist c) (mc_lockBuiltins c) (mc_channelTypes c)
    (fill_provenance (mc_provenance c) (provenance m)) (Some source) (mc_maxBakeStartNs c `max` bakeStartNs (provenance m))%N).
Proof.
  intros Hs. split; cbn [mc_source mc_collapsePaths mc_lockAllowlist mc_lockBuiltins mc_channelTypes mc_provenance mc_maxBakeStartNs].
  - split; [done|]. by intros [_ ?]%app_eq_nil.
  - intros m' Hm'. apply (ca_config _ _ Hc). rewrite head_snoc in Hm'. by destruct ms.
  - cbn [fill_provenance environment]. rewrite fill_spec. destruct (ca_environment _ _ Hc) as [[He Hall]|(Hne & m' & Hin & E)].
    + rewrite decide_True by done. destruct (decide (environment (provenance m) = [])) as [E|E].
      * left. split; [done|]. apply Forall_app. split; [done|]. by constructor.
      * right. split; [done|]. exists m. split; [apply elem_of_app; right; left|done].
    + rewrite decide_False by done. right. split; [done|]. exists m'. split; [apply elem_of_app; by left|done].
  - by rewrite foldr_max_snoc, (ca_start _ _ Hc).
Qed.
End Config.

(** A further input is accepted when its configuration is the first one's and no known
    environment differs, or when mismatches are allowed. *)
Lemma merge_config_step options path m ms c :
  config_after ms c ->
  match merge_config options path m c with
  | inl e => e <> [] /\ mo_allowMismatch options = false /\ ~ configs_agree (ms ++ [m])
  | inr c' => config_after (ms ++ [m]) c' /\ (mo_allowMismatch options = true \/ (configs_agree ms -> configs_agree (ms ++ [m])))
  end.
Proof.
  intros Hc. unfold merge_config. destruct (mc_source c) as [source|] eqn:Es.
  - assert (exists first, head ms = Some first) as [first Hh].
    { destruct ms as [|a l]; [|by exists a]. by rewrite (proj2 (ca_source _ _ Hc) eq_refl) in Es. }
    destruct (config_matches c m) eqn:E1, (env_matches (environment (mc_provenance c)) (environment (provenance m))) eqn:E2,
      (mo_allowMismatch options) eqn:E3; cbn [negb andb];
      try (split; [by eapply config_filled|by left]); try (split; [message|]; split; [done|]; by eapply mismatch_disagrees).
    + split; [by eapply config_filled|]. right. by eapply agreement_kept.
    + split; [message|]. split; [done|]. by eapply environments_disagree.
  - assert (ms = []) as -> by (by apply (ca_source _ _ Hc)). cbn [app]. split; [|right].
    + split; cbn; [done|intros ? [= <-]; done| |lia].
      destruct (decide (environment (provenance m) = [])) as [E|E]; [left|right]; [by repeat constructor|].
      split; [done|]. exists m. split; [left|done].
    + intros _ a b Ha%list_elem_of_singleton Hb%list_elem_of_singleton. subst. split; [done|]. right. by right.
Qed.

(** * The units of a merged meta *)

(** The units in the order of the inputs, each as the first input that lists it has it. *)
Fixpoint first_units (seen : list bytes) (ms : list SnapshotMeta) : list FileStamp :=
  match ms with
  | [] => []
  | m :: ms' => filter (fun fs => fs_path fs ∉ seen) (files m) ++ first_units (seen ++ paths_of m) ms'
  end.

(** What the first meta that lists a unit records of it. *)
Fixpoint first_recorded {A} (column : SnapshotMeta -> gmap bytes A) (p : bytes) (ms : list SnapshotMeta) : option A :=
  match ms with
  | [] => None
  | m :: ms' => if decide (p ∈ paths_of m) then column m !! p else first_recorded column p ms'
  end.

Abbreviation all_paths ms := (mjoin ((fun m => paths_of m) <$> ms)).

Lemma all_paths_snoc ms m : all_paths (ms ++ [m]) = all_paths ms ++ paths_of m.
Proof.
  induction ms as [|a ms IH]; [by rewrite app_nil_l; cbn; rewrite app_nil_r|].
  change (all_paths ((a :: ms) ++ [m])) with (paths_of a ++ all_paths (ms ++ [m])). rewrite IH. by rewrite (assoc_L (++)).
Qed.

Lemma first_units_snoc seen ms m :
  first_units seen (ms ++ [m]) = first_units seen ms ++ filter (fun fs => fs_path fs ∉ seen ++ all_paths ms) (files m).
Proof.
  revert seen. induction ms as [|a ms IH]; intros seen; cbn [app first_units].
  - rewrite app_nil_r. apply list_filter_iff. intros fs. by rewrite app_nil_r.
  - rewrite IH, (assoc_L (++)). f_equal. apply list_filter_iff. intros fs.
    change (all_paths (a :: ms)) with (paths_of a ++ all_paths ms). by rewrite (assoc_L (++)).
Qed.

Lemma first_recorded_snoc {A} (column : SnapshotMeta -> gmap bytes A) p ms m :
  first_recorded column p (ms ++ [m]) =
  if decide (p ∈ all_paths ms) then first_recorded column p ms else if decide (p ∈ paths_of m) then column m !! p else None.
Proof.
  induction ms as [|a ms IH]; cbn [app first_recorded].
  - by destruct (decide (p ∈ all_paths [])) as [?%not_elem_of_nil|_].
  - rewrite IH. destruct (decide (p ∈ all_paths (a :: ms))) as [H|H]; change (all_paths (a :: ms)) with (paths_of a ++ all_paths ms) in H;
      rewrite elem_of_app in H; destruct (decide (p ∈ paths_of a)), (decide (p ∈ all_paths ms)); tauto.
Qed.

Lemma first_recorded_unlisted {A} (column : SnapshotMeta -> gmap bytes A) p ms : p ∉ all_paths ms -> first_recorded column p ms = None.
Proof.
  induction ms as [|a ms IH]; [done|]. change (all_paths (a :: ms)) with (paths_of a ++ all_paths ms). rewrite not_elem_of_app.
  intros [H1 H2]. cbn [first_recorded]. rewrite decide_False by done. by apply IH.
Qed.

(** The units merged from the metas [ms]. *)
Record units_after (ms : list SnapshotMeta) (u : MergedUnits) : Prop := {
  ua_seen : forall p, p ∈ mu_seen u <-> p ∈ all_paths ms;
  ua_files : mu_files u = first_units [] ms;
  ua_dup : NoDup (fs_path <$> mu_files u);
  ua_prints : length (mu_fingerprints u) = length (mu_files u);
  ua_outcomes : forall p, mu_outcomes u !! p = first_recorded outcomesOf p ms;
  ua_deps : forall p, mu_deps u !! p = first_recorded dependenciesOf p ms
}.

Lemma units_start : units_after [] no_units.
Proof. split; try done; [|constructor]. intros p. split; [by intros ?%not_elem_of_empty|by intros ?%not_elem_of_nil]. Qed.

Lemma NoDup_fmap_filter {A B} (f : A -> B) (P : A -> Prop) `{HP : !forall x, Decision (P x)} (l : list A) :
  NoDup (f <$> l) -> NoDup (f <$> filter P l).
Proof.
  induction l as [|a l IH]; [done|]. rewrite fmap_cons, NoDup_cons, filter_cons. intros [Ha Hl]. case_decide; [|by apply IH].
  rewrite fmap_cons. apply NoDup_cons. split; [|by apply IH]. intros (b & E & [_ Hb]%list_elem_of_filter)%list_elem_of_fmap.
  apply Ha, list_elem_of_fmap. by exists b.
Qed.

Lemma first_units_listed seen ms p : p ∈ fs_path <$> first_units seen ms -> p ∈ all_paths ms.
Proof.
  revert seen. induction ms as [|m ms IH]; intros seen; [done|]. cbn [first_units]. rewrite fmap_app.
  change (all_paths (m :: ms)) with (paths_of m ++ all_paths ms). rewrite !elem_of_app. intros [H|H]; [left|right; by eapply IH].
  apply list_elem_of_fmap in H as (fs & -> & [_ H]%list_elem_of_filter). apply list_elem_of_fmap. eauto.
Qed.

Lemma recorded_step {A} (column : SnapshotMeta -> gmap bytes A) (ms : list SnapshotMeta) (m : SnapshotMeta) (seen : gset bytes) (into into' : gmap bytes A) :
  (forall p, p ∈ seen <-> p ∈ all_paths ms) -> (forall p, into !! p = first_recorded column p ms) ->
  (forall p, into' !! p = if decide (p ∈ paths_of m /\ p ∉ seen)
                          then match column m !! p with Some o => Some o | None => into !! p end else into !! p) ->
  forall p, into' !! p = first_recorded column p (ms ++ [m]).
Proof.
  intros Hs Hi Hi' p. rewrite Hi', first_recorded_snoc, Hi. specialize (Hs p).
  destruct (decide (p ∈ all_paths ms)) as [H|H]; [by rewrite decide_False by tauto|].
  rewrite (first_recorded_unlisted column p ms H). destruct (decide (p ∈ paths_of m)).
  - rewrite decide_True by tauto. by destruct (column m !! p).
  - by rewrite decide_False by tauto.
Qed.

Lemma units_step ms m u :
  NoDup (paths_of m) -> units_after ms u ->
  let '(u', overlapping, newTus) := merge_units m u in
  units_after (ms ++ [m]) u' /\ overlapping = filter (fun p => p ∈ all_paths ms) (paths_of m) /\
  newTus = length (filter (fun fs => fs_path fs ∉ all_paths ms) (files m)).
Proof.
  intros Hd [A1 A2 A3 A4 A5 A6]. pose proof (merge_units_spec m u Hd A4) as H. destruct (merge_units m u) as [[u' o] n].
  destruct H as [U1 U2 [U3 _] U4 U5 U6 U7]. rewrite take_ge in U1, U2, U4, U5 by done.
  assert (Hf : filter (fun fs => fs_path fs ∉ mu_seen u) (files m) = filter (fun fs => fs_path fs ∉ all_paths ms) (files m)).
  { apply list_filter_iff. intros fs. by rewrite A1. }
  split; [split|split].
  - intros p. rewrite U1, A1, all_paths_snoc, elem_of_app. done.
  - rewrite U2, A2, Hf, first_units_snoc. done.
  - rewrite U2, Hf, fmap_app. apply NoDup_app. split; [done|]. split.
    + intros p Hp (fs & -> & [Hn Hin]%list_elem_of_filter)%list_elem_of_fmap. apply Hn. rewrite A2 in Hp. by apply first_units_listed in Hp.
    + by apply NoDup_fmap_filter.
  - done.
  - apply (recorded_step outcomesOf ms m (mu_seen u) (mu_outcomes u)); [done|done|]. intros p. by rewrite U6, take_ge.
  - apply (recorded_step dependenciesOf ms m (mu_seen u) (mu_deps u)); [done|done|]. intros p. by rewrite U7, take_ge.
  - rewrite U4. apply list_filter_iff. intros p. by rewrite A1.
  - by rewrite U5, Hf.
Qed.

(** * The run *)

(** An input whose facts are all of listed units. *)
Record snapshot_ready `{UI : !UnorderedIter, TI : !TextIter} (d : SnapshotData) : Prop := {
  sr_units : NoDup (paths_of (sd_meta d));
  sr_graph : lg_ok (sd_graph d) /\ units_listed (paths_of (sd_meta d)) (sd_graph d);
  sr_contexts : lg_ok (contexts_of (sd_cfIndex d)) /\ units_listed (paths_of (sd_meta d)) (contexts_of (sd_cfIndex d));
  sr_channels : lg_ok (sd_channels d) /\ units_listed (paths_of (sd_meta d)) (sd_channels d)
}.

Section Run.
Context `{UI : !UnorderedIter, TI : !TextIter}.
Implicit Types (d : SnapshotData) (ds : list SnapshotData).

(** An index of the inputs, with the units their metas list. *)
Definition inputs {X} (index : SnapshotData -> X) ds : list (list bytes * X) := (fun d => (paths_of (sd_meta d), index d)) <$> ds.

Record merged_state ds (st : MergeState) : Prop := {
  ms_config : config_after (sd_meta <$> ds) (mg_config st);
  ms_units : units_after (sd_meta <$> ds) (mg_units st);
  ms_graph : merged_index (mx_first (mg_indexes st)) (inputs sd_graph ds) (mx_graph (mg_indexes st));
  ms_contexts : merged_index (mx_first (mg_indexes st)) (inputs (contexts_of ∘ sd_cfIndex) ds) (mx_cfIndex (mg_indexes st));
  ms_channels : merged_index (mx_first (mg_indexes st)) (inputs sd_channels ds) (mx_channels (mg_indexes st))
}.

Lemma merge_start_merged : merged_state [] merge_start.
Proof. split; [apply config_start|apply units_start|exact (merged_start (L := graph_ledger))|exact (merged_start (L := context_ledger))|exact (merged_start (L := channel_ledger))]. Qed.

Lemma inputs_listed {X} (index : SnapshotData -> X) ds : mjoin (inputs index ds).*1 = all_paths (sd_meta <$> ds).
Proof. unfold inputs. rewrite <- !list_fmap_compose. done. Qed.

(** The indexes have room for what is absorbed. *)
Definition indexes_fit (overlapping : list bytes) d (x : MergedIndexes) : Prop :=
  mx_first x && no_items overlapping = false ->
  lg_room (stripped overlapping (sd_graph d)) (mx_graph x) /\
  lg_room (stripped overlapping (contexts_of (sd_cfIndex d))) (mx_cfIndex x) /\
  lg_room (stripped overlapping (sd_channels d)) (mx_channels x).

Lemma merge_indexes_each overlapping d x :
  merge_indexes overlapping d x =
  MkIndexes (merge_index (mx_first x) overlapping (sd_graph d) (mx_graph x))
    (merge_index (mx_first x) overlapping (contexts_of (sd_cfIndex d)) (mx_cfIndex x))
    (merge_index (mx_first x) overlapping (sd_channels d) (mx_channels x)) false.
Proof. unfold merge_indexes, merge_index, stripped. by destruct (mx_first x && no_items overlapping). Qed.

Lemma merged_one {X Fact} `{L : !UnitLedger X Fact} (index : SnapshotData -> X) ds d first x overlapping newTus :
  merged_index first (inputs index ds) x -> lg_ok (index d) -> units_listed (paths_of (sd_meta d)) (index d) ->
  overlapping = filter (fun p => p ∈ all_paths (sd_meta <$> ds)) (paths_of (sd_meta d)) ->
  newTus = length (filter (fun fs => fs_path fs ∉ all_paths (sd_meta <$> ds)) (files (sd_meta d))) ->
  let skip := negb (no_items (files (sd_meta d))) && (newTus =? 0)%nat in
  (skip = false -> first && no_items overlapping = false -> lg_room (stripped overlapping (index d)) x) ->
  merged_index (if skip then first else false) (inputs index (ds ++ [d])) (if skip then x else merge_index first overlapping (index d) x).
Proof.
  intros Hm Hok Hl Ho Hn skip Hr. unfold inputs. rewrite fmap_app. cbn [fmap list_fmap]. fold (inputs index ds).
  destruct skip eqn:Es.
  - apply andb_true_iff in Es as [Hne%negb_true_iff H0%Nat.eqb_eq]. apply merged_skip; [done|done| |].
    + rewrite inputs_listed. intros p (fs & -> & Hfs)%list_elem_of_fmap. destruct (decide (fs_path fs ∈ all_paths (sd_meta <$> ds))) as [|Hno]; [done|].
      exfalso. rewrite Hn in H0. apply nil_length_inv in H0. apply (not_elem_of_nil fs). rewrite <- H0. by apply list_elem_of_filter.
    + destruct (files (sd_meta d)); done.
  - apply merged_step; [done|done|done| |by apply Hr]. rewrite Ho. apply list_filter_iff. intros p. by rewrite inputs_listed.
Qed.

Lemma snapshot_step options path d ds st st' :
  merged_state ds st -> snapshot_ready d -> merge_snapshot options path d st = inr st' ->
  (let '(_, overlapping, newTus) := merge_units (sd_meta d) (mg_units st) in
   negb (no_items (files (sd_meta d))) && (newTus =? 0)%nat = false -> indexes_fit overlapping d (mg_indexes st)) ->
  merged_state (ds ++ [d]) st'.
Proof.
  intros [M1 M2 M3 M4 M5] [R1 [R2 R2'] [R3 R3'] [R4 R4']]. unfold merge_snapshot.
  pose proof (merge_config_step options path (sd_meta d) _ _ M1) as Hc. destruct (merge_config _ _ _ _) as [|config]; [done|].
  pose proof (units_step _ (sd_meta d) _ R1 M2) as Hu. destruct (merge_units _ _) as [[units overlapping] newTus]. destruct Hu as (Hu & Ho & Hn).
  intros [= <-] Hf. split; cbn [mg_config mg_units mg_indexes]; rewrite ?fmap_app; [apply Hc|done|..]; clear Hc.
  - pose proof (merged_one sd_graph ds d _ _ overlapping newTus M3 R2 R2' Ho Hn) as H. cbv zeta in H.
    destruct (negb _ && _); [by apply H|]. rewrite merge_indexes_each. apply H. intros _ Hb. by apply Hf.
  - pose proof (merged_one (contexts_of ∘ sd_cfIndex) ds d _ _ overlapping newTus M4 R3 R3' Ho Hn) as H. cbv zeta in H.
    destruct (negb _ && _); [by apply H|]. rewrite merge_indexes_each. apply H. intros _ Hb. by apply Hf.
  - pose proof (merged_one sd_channels ds d _ _ overlapping newTus M5 R4 R4' Ho Hn) as H. cbv zeta in H.
    destruct (negb _ && _); [by apply H|]. rewrite merge_indexes_each. apply H. intros _ Hb. by apply Hf.
Qed.

Variable load_path : bytes -> bytes + SnapshotData.
Abbreviation loads := (Forall2 (fun path d => load_path path = inr d)).

(** Every absorption of the run has room. *)
Fixpoint merge_fits (options : MergeOptions) (inputPaths : list bytes) (st : MergeState) : Prop :=
  match inputPaths with
  | [] => True
  | path :: paths =>
      match load_path path with
      | inl _ => True
      | inr d =>
          (let '(_, overlapping, newTus) := merge_units (sd_meta d) (mg_units st) in
           negb (no_items (files (sd_meta d))) && (newTus =? 0)%nat = false -> indexes_fit overlapping d (mg_indexes st)) /\
          match merge_snapshot options path d st with inl _ => True | inr st' => merge_fits options paths st' end
      end
  end.

Lemma merge_run options paths : forall ds0 ds st st',
  merged_state ds0 st -> loads paths ds -> Forall snapshot_ready ds -> merge_fits options paths st ->
  merge_all load_path options paths st = inr st' -> merged_state (ds0 ++ ds) st'.
Proof.
  induction paths as [|path paths IH]; intros ds0 ds st st' Hst Hl Hr Hf; cbn [merge_all merge_fits] in *.
  - apply Forall2_nil_inv_l in Hl as ->. intros [= <-]. by rewrite app_nil_r.
  - apply Forall2_cons_inv_l in Hl as (d & ds' & Hd & Hl & ->). apply Forall_cons in Hr as [Hrd Hr]. rewrite Hd in *.
    destruct Hf as [Hf1 Hf2]. destruct (merge_snapshot options path d st) as [|st1] eqn:E; [done|]. intros Hm.
    rewrite cons_middle, (assoc_L (++)). eapply IH; [|exact Hl|exact Hr|exact Hf2|exact Hm]. by eapply snapshot_step.
Qed.

Lemma agree_prefix ms ms' : configs_agree (ms ++ ms') -> configs_agree ms.
Proof. intros H a b Ha Hb. apply H; apply elem_of_app; by left. Qed.

(** The loop stops at an input that does not load or that does not agree with the others. *)
Lemma merge_all_outcome options paths : forall ms st,
  config_after ms (mg_config st) -> (mo_allowMismatch options = true \/ configs_agree ms) ->
  let mergeable := exists ds, loads paths ds /\ (mo_allowMismatch options = true \/ configs_agree (ms ++ (sd_meta <$> ds))) in
  match merge_all load_path options paths st with inl e => e <> [] /\ ~ mergeable | inr _ => mergeable end.
Proof.
  induction paths as [|path paths IH]; intros ms st Hc Ha; cbn [merge_all].
  - exists []. split; [constructor|]. cbn. by rewrite app_nil_r.
  - destruct (load_path path) as [error|d] eqn:El.
    + split; [message; by destruct error|]. intros (ds & Hl & _). apply Forall2_cons_inv_l in Hl as (d' & ds' & Hd & _). congruence.
    + unfold merge_snapshot. pose proof (merge_config_step options path (sd_meta d) ms _ Hc) as Hs. destruct (merge_config _ _ _ _) as [e|c'].
      * destruct Hs as (He & Hno & Hdis). split; [done|]. intros (ds & (d' & ds' & Hd & _ & ->)%Forall2_cons_inv_l & [?|Hag]); [congruence|].
        rewrite El in Hd. injection Hd as <-. apply Hdis. rewrite fmap_cons, cons_middle, (assoc_L (++)) in Hag. by apply agree_prefix in Hag.
      * destruct Hs as [Hc' Ha']. destruct (merge_units _ _) as [[units o] n].
        match goal with |- context [merge_all _ _ _ ?st'] => specialize (IH (ms ++ [sd_meta d]) st' Hc' ltac:(tauto)) end. cbv zeta in IH.
        assert (Heq : (exists ds, loads (path :: paths) ds /\ (mo_allowMismatch options = true \/ configs_agree (ms ++ (sd_meta <$> ds)))) <->
          (exists ds, loads paths ds /\ (mo_allowMismatch options = true \/ configs_agree ((ms ++ [sd_meta d]) ++ (sd_meta <$> ds))))).
        { split.
          - intros (ds & (d' & ds' & Hd & Hl & ->)%Forall2_cons_inv_l & H). rewrite El in Hd. injection Hd as <-. exists ds'. split; [done|].
            by rewrite <- (assoc_L (++)).
          - intros (ds & Hl & H). exists (d :: ds). split; [by constructor|]. by rewrite <- (assoc_L (++)) in H. }
        destruct (merge_all _ _ _ _); rewrite Heq; exact IH.
Qed.
End Run.

(** When saved indexes can be merged: when there is one, all of them load, and their
    build configurations agree with no two known environments that differ, unless
    mismatches are allowed.  A merge that fails says why. *)
Theorem merge_succeeds_iff `{UI : !UnorderedIter, TI : !TextIter} (load_path : bytes -> bytes + SnapshotData)
    (options : MergeOptions) (inputPaths : list bytes) :
  let mergeable := inputPaths <> [] /\
    exists ds, Forall2 (fun path d => load_path path = inr d) inputPaths ds /\
      (mo_allowMismatch options = true \/ configs_agree (sd_meta <$> ds)) in
  match merge load_path options inputPaths with inl e => e <> [] /\ ~ mergeable | inr _ => mergeable end.
Proof.
  cbv zeta. unfold merge. destruct (no_items inputPaths) eqn:E.
  - destruct inputPaths; [|done]. split; [discriminate|tauto].
  - assert (Hne : inputPaths <> []) by (by intros ->). pose proof (merge_all_outcome load_path options inputPaths [] merge_start config_start) as H.
    cbv zeta in H. cbn [app] in H. destruct (merge_all _ _ _ _); [|split; [done|]]; (destruct H; [right; intros a b ?%not_elem_of_nil; done|..]); naive_solver.
Qed.

(** C12. What a merge holds.  Every fact of a unit, a call, a context or a channel site, is
    counted as the first input that lists the unit counts it, however many later inputs
    repeat the unit; the three merged indexes satisfy their invariants.  The meta lists
    every unit of the inputs once, as the first input has it, with its outcome there, and
    the summary counts the merged indexes. *)
Theorem merge_first_wins `{UI : !UnorderedIter, TI : !TextIter} (load_path : bytes -> bytes + SnapshotData)
    (options : MergeOptions) (inputPaths : list bytes) (ds : list SnapshotData) (d : SnapshotData) :
  Forall2 (fun path d => load_path path = inr d) inputPaths ds -> Forall snapshot_ready ds ->
  merge_fits load_path options inputPaths merge_start -> merge load_path options inputPaths = inr d ->
  exists cfIndex, sd_cfIndex d = Resident cfIndex /\
  (graph_writable (sd_graph d) /\ cf_ok cfIndex /\ ch_ok (sd_channels d)) /\
  (forall tu c, unit_registrations (sd_graph d) tu c = first_count tu c (inputs sd_graph ds)) /\
  (forall tu c, context_count cfIndex tu c = first_count tu c (inputs (contexts_of ∘ sd_cfIndex) ds)) /\
  (forall tu k, regs_of (sd_channels d) k tu = first_count tu k (inputs sd_channels ds)) /\
  (files (sd_meta d) = first_units [] (sd_meta <$> ds) /\ NoDup (paths_of (sd_meta d)) /\
   outcomes (sd_meta d) = (fun f => default (MkOutcome Skipped (str "no outcome recorded"))
                             (first_recorded outcomesOf (fs_path f) (sd_meta <$> ds))) <$> files (sd_meta d)) /\
  sd_summary d = summary_of (sd_graph d) cfIndex (sd_channels d).
Proof.
  intros Hl Hr Hf. unfold merge. destruct (no_items inputPaths); [done|].
  destruct (merge_all load_path options inputPaths merge_start) as [|st] eqn:E; [done|]. intros [= <-].
  destruct (merge_run load_path options inputPaths [] ds _ st merge_start_merged Hl Hr Hf E) as [M1 [U1 U2 U3 U4 U5 U6] [G1 G2 _] [C1 C2 _] [H1 H2 _]].
  cbn [app] in *. exists (mx_cfIndex (mg_indexes st)). cbn [sd_graph sd_cfIndex sd_channels sd_meta sd_summary].
  assert (Hmeta : files (merged_meta options st) = mu_files (mg_units st) /\
    outcomes (merged_meta options st) = (fun f => default (MkOutcome Skipped (str "no outcome recorded")) (mu_outcomes (mg_units st) !! fs_path f)) <$> mu_files (mg_units st)).
  { unfold merged_meta, recordDependencies. destruct (foldl _ _ _) as [[table ids] rows].
    destruct (no_items _) eqn:En; cbn [files recordOutcomes outcomes] in *; [|done]. by destruct (mu_files (mg_units st)). }
  destruct Hmeta as [-> ->]. split_and!; try done.
  apply list_fmap_ext. intros i f _. by rewrite U5.
Qed.

(** ** Examples *)

(** The units of a graph are those of its registrations. *)
Lemma graph_units_listed (paths : list bytes) g :
  cg_ok g -> map_Forall (fun u _ => resolve (interner_ g) u ∈ unit_texts paths) (tuEdges_ g) ->
  forall tu c, unit_registrations g tu c <> 0 -> tu ∈ unit_texts paths.
Proof.
  intros Hg Hall tu c. unfold unit_registrations, vec_at. destruct (find (interner_ g) tu) as [u|] eqn:Eu; [|done].
  destruct (position g c); [|done]. destruct (tuEdges_ g !! u) as [l|] eqn:El; [|done]. intros _. apply Hall in El.
  apply (find_resolve _ _ _ (ok_interner _ Hg)) in Eu. unfold resolve in El. by rewrite Eu in El.
Qed.

Definition meta_of (paths : list bytes) : SnapshotMeta :=
  MkMeta [] [] true [] ((fun p => MkStamp p 1 1) <$> paths) [] [] [] [] ((fun _ => MkOutcome Indexed []) <$> paths) (MkProvenance [] [] (str "env") 0).

Definition input_of (paths : list bytes) (g : CallGraph) : SnapshotData :=
  MkData g (Resident empty_index) empty_channels (meta_of paths) (MkSummary 0 0 0 0) kSectionAll.

(** The second input repeats the unit of the first and adds one. *)
Definition input_a : SnapshotData := input_of [str "a.cpp"] shard_a.
Definition input_b : SnapshotData := input_of [str "a.cpp"; str "b.cpp"] (@absorb canonical_iter false shard_a shard_b).

Definition example_path (path : bytes) : bytes + SnapshotData :=
  if decide (path = str "a.vycs") then inr input_a else if decide (path = str "b.vycs") then inr input_b else inl [].

Definition example_options : MergeOptions := MkOptions [] false.

Lemma input_a_ready : @snapshot_ready canonical_iter canonical_text_iter input_a.
Proof.
  split; [by_computation|split|split|split]; cbn [input_a input_of sd_graph sd_cfIndex sd_channels contexts_of].
  - split; [apply build_ok; vm_compute; discriminate|reflexivity].
  - refine (graph_units_listed _ _ _ _); [apply build_ok; vm_compute; discriminate|]. by_computation.
  - apply empty_index_ok.
  - intros tu c H. destruct H. unfold lg_count; cbn. unfold context_count. by case_decide.
  - apply empty_channels_ok.
  - intros tu c H. by destruct H.
Qed.

Lemma input_b_graph_ok : cg_ok (sd_graph input_b).
Proof.
  apply (ab_ok shard_b shard_a). apply absorb_absorbed; [apply build_ok; vm_compute; discriminate..|vm_compute; reflexivity| |].
  - vm_compute. discriminate.
  - intros i. do 3 (destruct i as [|i]; [vm_compute; reflexivity|]). vm_compute. reflexivity.
Qed.

Lemma input_b_ready : @snapshot_ready canonical_iter canonical_text_iter input_b.
Proof.
  split; [by_computation|split|split|split]; cbn [input_b input_of sd_graph sd_cfIndex sd_channels contexts_of].
  - split; [apply input_b_graph_ok|vm_compute; reflexivity].
  - refine (graph_units_listed _ _ input_b_graph_ok _). by_computation.
  - apply empty_index_ok.
  - intros tu c H. destruct H. unfold lg_count; cbn. unfold context_count. by case_decide.
  - apply empty_channels_ok.
  - intros tu c H. by destruct H.
Qed.

(** The state after the first input. *)
Definition example_state : MergeState :=
  match @merge_snapshot canonical_iter canonical_text_iter example_options (str "a.vycs") input_a merge_start with
  | inr st => st | inl _ => merge_start end.

Lemma example_room : @indexes_fit canonical_iter canonical_text_iter [str "a.cpp"] input_b (mg_indexes example_state).
Proof.
  intros _. split; [split|split; [|intros k]].
  - vm_compute. discriminate.
  - intros i. do 4 (destruct i as [|i]; [vm_compute; reflexivity|]). vm_compute. reflexivity.
  - split_and!; vm_compute; first [reflexivity | discriminate].
  - vm_compute. reflexivity.
Qed.

Lemma example_fits : @merge_fits canonical_iter canonical_text_iter example_path example_options [str "a.vycs"; str "b.vycs"] merge_start.
Proof.
  assert (E : @merge_snapshot canonical_iter canonical_text_iter example_options (str "a.vycs") input_a merge_start = inr example_state).
  { unfold example_state. pose proof (eq_refl : match @merge_snapshot canonical_iter canonical_text_iter example_options (str "a.vycs") input_a merge_start with
      inl _ => false | inr _ => true end = true) as H. by destruct (merge_snapshot _ _ _ _). }
  cbn [merge_fits]. change (example_path (str "a.vycs")) with (inr (A := bytes) input_a). cbn iota. rewrite E.
  split; [vm_compute; discriminate|]. change (example_path (str "b.vycs")) with (inr (A := bytes) input_b). cbn iota.
  split; [|by destruct (merge_snapshot _ _ _ _)]. destruct (merge_units _ _) as [[u o] n] eqn:Eu.
  assert (o = [str "a.cpp"]) as ->; [|intros _; apply example_room].
  apply (f_equal (fun r => r.1.2)) in Eu. cbn in Eu. rewrite <- Eu. vm_compute. reflexivity.
Qed.

Lemma merge_first_wins_witness :
  exists d, @merge canonical_iter canonical_text_iter example_path example_options [str "a.vycs"; str "b.vycs"] = inr d /\
    unit_registrations (sd_graph d) (str "a.cpp") (MkCall (str "f") (str "h") (str "a.h:2:1") DirectCall Proven Synchronous 0) = 1.
Proof.
  assert (Hok : match @merge canonical_iter canonical_text_iter example_path example_options [str "a.vycs"; str "b.vycs"] with inl _ => false | inr _ => true end = true)
    by (vm_compute; reflexivity).
  destruct (@merge canonical_iter canonical_text_iter example_path example_options [str "a.vycs"; str "b.vycs"]) as [e|d] eqn:E; [discriminate|].
  exists d. split; [reflexivity|].
  destruct (@merge_first_wins canonical_iter canonical_text_iter example_path example_options [str "a.vycs"; str "b.vycs"] [input_a; input_b] d)
    as (x & _ & _ & Hc & _).
  - repeat constructor.
  - constructor; [apply input_a_ready|]. constructor; [apply input_b_ready|constructor].
  - apply example_fits.
  - exact E.
  - rewrite Hc. vm_compute. reflexivity.
Defined.
