(* ===== verification/Oracle.v ===== *)
(** The exception oracle (src/callgraph/ControlFlowOracle.cpp): what happens to an
    exception thrown by a function on the call paths that lead to it, decided over a call
    graph and a control-flow index in either of its forms (a [ContextView]). *)

From S2P Require Import Prelude Utf8 StringInterner CallGraph PathSearch Ordering ControlFlowIndex Results.

(** * Results *)

Inductive Protection :=
| AlwaysCaught | SometimesCaught | NeverCaught | NoexceptBarrier | UnknownProtection | ObservedCaught | ObservedUncaught.

Inductive PathOutcome := Caught | Uncaught | Terminates | UnknownOutcome.

#[global] Instance Protection_eq_dec : EqDecision Protection.
Proof. solve_decision. Defined.
#[global] Instance PathOutcome_eq_dec : EqDecision PathOutcome.
Proof. solve_decision. Defined.

Definition protectionName (p : Protection) : bytes :=
  match p with
  | AlwaysCaught => str "always_caught"
  | SometimesCaught => str "sometimes_caught"
  | NeverCaught => str "never_caught"
  | NoexceptBarrier => str "noexcept_barrier"
  | UnknownProtection => str "unknown"
  | ObservedCaught => str "observed_caught"
  | ObservedUncaught => str "observed_uncaught"
  end.

Definition pathOutcomeName (o : PathOutcome) : bytes :=
  match o with
  | Caught => str "caught"
  | Uncaught => str "uncaught"
  | Terminates => str "terminates"
  | UnknownOutcome => str "unknown"
  end.

Record PathInfo := MkPathInfo {
  pi_callChain : list bytes;
  pi_hops : list PathHop;
  pi_tryCatchesOnPath : list TryCatchScope;
  pi_guardsOnPath : list ConditionalGuard;
  pi_outcome : PathOutcome;
  pi_isCaught : bool;
  pi_caughtAt : bytes;
  pi_caughtBy : bytes;
  pi_rethrownAt : list bytes;
  pi_stopAt : bytes;
  pi_note : bytes
}.

Record PathSearchFacts := MkFacts {
  fa_limits : SearchLimits;
  fa_stops : N;
  fa_expansions : N;
  fa_skippedHubs : list SkippedHub;
  fa_targetKnown : bool;
  fa_startKnown : bool;
  fa_complete : bool;
  fa_exhaustive : bool
}.

Record ExceptionPathResult := MkExceptionResult {
  er_protection : Protection;
  er_paths : list PathInfo;
  er_summary : bytes;
  er_search : PathSearchFacts;
  er_caughtCount : nat;
  er_uncaughtCount : nat;
  er_terminatesCount : nat;
  er_unknownCount : nat;
  er_indexComplete : bool;
  er_verdictExhaustive : bool
}.

Record PathContextsResult := MkContextsResult {
  pc_paths : list PathInfo;
  pc_search : PathSearchFacts
}.

Record CallSiteExceptionInfo := MkSiteInfo {
  si_callSite : bytes;
  si_caller : bytes;
  si_callee : bytes;
  si_isUnderTryCatch : bool;
  si_enclosingScopes : list TryCatchScope;
  si_enclosingGuards : list ConditionalGuard;
  si_callerNoexcept : NoexceptSpec;
  si_wouldTerminateIfThrows : bool
}.

Record NearestCatchInfo := MkNearest {
  nc_pathSegment : list bytes;
  nc_hops : list PathHop;
  nc_scope : TryCatchScope;
  nc_callSite : bytes;
  nc_framesFromTarget : N
}.

Record NearestCatchResult := MkNearestResult {
  nr_catches : list NearestCatchInfo;
  nr_maxDepth : N;
  nr_stops : N;
  nr_complete : bool;
  nr_targetKnown : bool
}.

(** * Type spellings *)

(** Derived exception types of the standard library and their bases. *)
Definition stdExceptionHierarchy : list (bytes * bytes) :=
  [(str "std::bad_alloc", str "std::exception");
   (str "std::bad_cast", str "std::exception");
   (str "std::bad_typeid", str "std::exception");
   (str "std::bad_function_call", str "std::exception");
   (str "std::bad_weak_ptr", str "std::exception");
   (str "std::bad_array_new_length", str "std::bad_alloc");
   (str "std::logic_error", str "std::exception");
   (str "std::runtime_error", str "std::exception");
   (str "std::domain_error", str "std::logic_error");
   (str "std::invalid_argument", str "std::logic_error");
   (str "std::length_error", str "std::logic_error");
   (str "std::out_of_range", str "std::logic_error");
   (str "std::overflow_error", str "std::runtime_error");
   (str "std::underflow_error", str "std::runtime_error");
   (str "std::range_error", str "std::runtime_error");
   (str "std::system_error", str "std::runtime_error");
   (str "std::ios_base::failure", str "std::system_error");
   (str "std::filesystem::filesystem_error", str "std::system_error")].

Definition is_char (c : string) (b : Byte.byte) : bool := bool_decide (str c = [b]).

(** [while (!s.empty() && p(s.front())) s.erase(s.begin());] *)
Fixpoint drop_front (p : Byte.byte -> bool) (s : bytes) : bytes :=
  match s with
  | [] => []
  | b :: s' => if p b then drop_front p s' else s
  end.

(** [while (!s.empty() && p(s.back())) s.pop_back();] *)
Definition drop_back (p : Byte.byte -> bool) (s : bytes) : bytes := rev (drop_front p (rev s)).

Definition stripTypeSpelling (t : bytes) : bytes :=
  let s := drop_back (fun b => is_char "&" b || is_char " " b) t in
  let s := if bool_decide (take 6 s = str "const ") then drop 6 s else s in
  let s := drop_back (is_char " ") s in
  drop_front (is_char " ") s.

(** The base the table gives a type: its first entry. *)
Definition std_base (current : bytes) : option bytes :=
  snd <$> List.find (fun pair => bool_decide (pair.1 = current)) stdExceptionHierarchy.

(** The walk up the table; every round but the last marks a further type. *)
Fixpoint walk_hierarchy (fuel : nat) (caught current : bytes) (visited : gset bytes) : bool :=
  match fuel with
  | O => false
  | S fuel' =>
      if decide (current ∈ visited) then false
      else
        match std_base current with
        | Some base => if bool_decide (base = caught) then true
                       else walk_hierarchy fuel' caught base ({[current]} ∪ visited)
        | None => false
        end
  end.

Section Oracle.
Context `{SS : !StdSort} `{UI : !UnorderedIter}.
(** [llvm::json::isUTF8], as in Utf8.v. *)
Variable isValidUtf8 : bytes -> bool.
(** [graph_] and [cfIndex_]. *)
Variable g : CallGraph.
Variable v : ContextView.

Definition isSubtypeOf (thrownType caughtType : bytes) : bool :=
  if bool_decide (thrownType = caughtType) then true
  else
    let thrown := stripTypeSpelling thrownType in
    let caught := stripTypeSpelling caughtType in
    if bool_decide (thrown = caught) then true
    else if walk_hierarchy (S (length stdExceptionHierarchy)) caught thrown ∅ then true
    else existsb (fun derived => bool_decide (derived = thrown)) (getAllDerivedClasses isValidUtf8 g caught).

(** * One call site *)

Definition queryCallSite (callSite : bytes) : CallSiteExceptionInfo :=
  match contextAtSite_in v callSite with
  | None => MkSiteInfo callSite [] [] false [] [] NoSpec false
  | Some ctx =>
      MkSiteInfo callSite (cs_callerName ctx) (cs_calleeName ctx)
        (negb (bool_decide (enclosingTryCatches ctx = []))) (enclosingTryCatches ctx) (enclosingGuards ctx)
        (callerNoexcept ctx) (bool_decide (callerNoexcept ctx = Noexcept))
  end.

(** The first handler in source order that takes the exception. *)
Definition matchingHandler (exceptionType : bytes) (scope : TryCatchScope) : option CatchHandlerInfo :=
  List.find (fun handler => isCatchAll handler || bool_decide (exceptionType = []) ||
                            isSubtypeOf exceptionType (caughtType handler)) (handlers scope).

Definition isCaughtByScope (exceptionType : bytes) (scope : TryCatchScope) : bool :=
  match matchingHandler exceptionType scope with Some _ => true | None => false end.

Definition contextForHop (hop : PathHop) : option CallSiteContext :=
  contextForEdge_in v (h_callSite hop) (h_callerUsr hop) (h_calleeUsr hop).

(** * One path *)

(** [path.hops.front()] of a path, which is never empty. *)
Definition annotatePath (path : list PathHop) : PathInfo :=
  let contexts := omap contextForHop path in
  MkPathInfo (match path with [] => [] | hop :: _ => h_caller hop :: (h_callee <$> path) end) path
    (contexts ≫= enclosingTryCatches) (contexts ≫= enclosingGuards)
    UnknownOutcome false [] [] [] [] [].

Definition stop_path (o : PathOutcome) (stopAt note : bytes) (info : PathInfo) : PathInfo :=
  MkPathInfo (pi_callChain info) (pi_hops info) (pi_tryCatchesOnPath info) (pi_guardsOnPath info)
    o (pi_isCaught info) (pi_caughtAt info) (pi_caughtBy info) (pi_rethrownAt info) stopAt note.

Definition catch_path (scope : TryCatchScope) (h : CatchHandlerInfo) (info : PathInfo) : PathInfo :=
  MkPathInfo (pi_callChain info) (pi_hops info) (pi_tryCatchesOnPath info) (pi_guardsOnPath info)
    Caught true (tryLocation scope) (if isCatchAll h then str "..." else caughtType h)
    (pi_rethrownAt info) (pi_stopAt info) (pi_note info).

Definition rethrow_path (h : CatchHandlerInfo) (info : PathInfo) : PathInfo :=
  MkPathInfo (pi_callChain info) (pi_hops info) (pi_tryCatchesOnPath info) (pi_guardsOnPath info)
    (pi_outcome info) (pi_isCaught info) (pi_caughtAt info) (pi_caughtBy info)
    (pi_rethrownAt info ++ [handlerLocation h]) (pi_stopAt info) (pi_note info).

Definition escape_path (info : PathInfo) : PathInfo :=
  let entry := default [] (head (pi_callChain info)) in
  MkPathInfo (pi_callChain info) (pi_hops info) (pi_tryCatchesOnPath info) (pi_guardsOnPath info)
    Uncaught false (pi_caughtAt info) (pi_caughtBy info) (pi_rethrownAt info)
    entry (str "escapes the entry point " ++ entry).

(** The scopes around one call, innermost first; whether one of them caught. *)
Fixpoint walk_scopes (exceptionType : bytes) (scopes : list TryCatchScope) (info : PathInfo) : PathInfo * bool :=
  match scopes with
  | [] => (info, false)
  | scope :: rest =>
      match matchingHandler exceptionType scope with
      | None => walk_scopes exceptionType rest info
      | Some h =>
          if rethrows h then walk_scopes exceptionType rest (rethrow_path h info)
          else (catch_path scope h info, true)
      end
  end.

(** The caller's frame of one hop; [outer] continues past it. *)
Definition unwind_frame (outer : PathInfo -> PathInfo) (exceptionType : bytes) (hop : PathHop) (info : PathInfo) : PathInfo :=
  match contextForHop hop with
  | None =>
      stop_path UnknownOutcome (h_callSite hop)
        (str "no call-site context indexed for " ++ h_callSite hop ++ str " in " ++ h_caller hop ++
         str " (the TU may be missing, partial, or the call is indirect)") info
  | Some ctx =>
      let '(info', caught) := walk_scopes exceptionType (enclosingTryCatches ctx) info in
      if caught then info'
      else
        match callerNoexcept ctx with
        | Noexcept | ThrowNone =>
            stop_path Terminates (h_caller hop)
              (str "escapes " ++ h_caller hop ++ str ", which is noexcept: std::terminate") info'
        | UnknownSpec =>
            stop_path UnknownOutcome (h_caller hop)
              (str "the exception specification of " ++ h_caller hop ++ str " could not be evaluated") info'
        | NoSpec | NoexceptFalse => outer info'
        end
  end.

(** The walk from the target outward over the hops, the call into the target first. *)
Fixpoint walk_out (exceptionType : bytes) (outward : list PathHop) (info : PathInfo) : PathInfo :=
  match outward with
  | [] => escape_path info
  | hop :: rest =>
      match h_execContext hop with
      | ThreadSpawn =>
          stop_path Terminates (h_callSite hop)
            (h_callee hop ++ str " runs on a thread spawned at " ++ h_callSite hop ++
             str "; an exception escaping a thread entry calls std::terminate") info
      | AsyncTask | PackagedTask =>
          stop_path UnknownOutcome (h_callSite hop)
            (h_callee hop ++ str " runs as an asynchronous task started at " ++ h_callSite hop ++
             str "; the exception is stored and rethrown where the result is retrieved, which is not modeled") info
      | Synchronous | Invoke => unwind_frame (walk_out exceptionType rest) exceptionType hop info
      end
  end.

Definition never_throws (spec : option NoexceptSpec) : bool :=
  match spec with Some Noexcept | Some ThrowNone => true | _ => false end.

Definition propagate (info : PathInfo) (exceptionType : bytes) : PathInfo :=
  match last (pi_hops info) with
  | Some into =>
      if never_throws (callerNoexceptOf_in v (h_calleeUsr into)) then
        stop_path Terminates (h_callee into)
          (h_callee into ++ str " is noexcept: a throw inside it calls std::terminate") info
      else walk_out exceptionType (rev (pi_hops info)) info
  | None => info
  end.

Definition factsOf (r : PathSearchResult) (limits : SearchLimits) : PathSearchFacts :=
  MkFacts limits (res_stops r) (res_expansions r) (skippedHubs r) (targetKnown r) (startKnown r)
    (complete r) (exhaustive r).

(** * The summary *)

Definition chainOf (p : PathInfo) : bytes :=
  match pi_callChain p with
  | [] => []
  | f :: fs => f ++ (fs ≫= fun f' => str " -> " ++ f')
  end.

Definition firstUncaught (paths : list PathInfo) : option PathInfo :=
  List.find (fun p => bool_decide (pi_outcome p = Uncaught)) paths.

(** Which precondition of a universal verdict failed. *)
Definition whyParts (r : ExceptionPathResult) : list bytes :=
  (if fa_exhaustive (er_search r) then [] else [str "the search is not exhaustive"]) ++
  (if er_indexComplete r then [] else [str "the index does not cover every requested TU"]) ++
  (if 0 <? er_unknownCount r then [to_string (N.of_nat (er_unknownCount r)) ++ str " path(s) have an unknown outcome"] else []).

(** [i + 1 == parts.size() ? " and " : ", "] before every part but the first. *)
Fixpoint join_rest (parts : list bytes) : bytes :=
  match parts with
  | [] => []
  | [p] => str " and " ++ p
  | p :: rest => str ", " ++ p ++ join_rest rest
  end.

Definition whyObserved (r : ExceptionPathResult) : bytes :=
  match whyParts r with [] => [] | p :: rest => p ++ join_rest rest end.

Definition uncaught_path (r : ExceptionPathResult) : bytes :=
  match firstUncaught (er_paths r) with
  | Some p => str " Uncaught path: " ++ chainOf p ++ str "."
  | None => []
  end.

Definition verdict_text (r : ExceptionPathResult) (functionName exceptionType : bytes) : bytes :=
  let what := if bool_decide (exceptionType = []) then str "an exception" else exceptionType in
  let total := to_string (N.of_nat (length (er_paths r))) in
  let terminates := to_string (N.of_nat (er_terminatesCount r)) in
  let throwing := functionName ++ str " throwing " ++ what in
  match er_protection r with
  | AlwaysCaught =>
      throwing ++ str " is caught on all " ++ total ++ str " path(s) from entry points." ++
      match er_paths r with
      | p :: _ => if bool_decide (pi_caughtBy p = []) then []
                  else str " Caught by " ++ pi_caughtBy p ++ str " at " ++ pi_caughtAt p ++ str "."
      | [] => []
      end
  | NeverCaught => throwing ++ str " is NOT caught on any of the " ++ total ++ str " path(s) from entry points."
  | SometimesCaught =>
      throwing ++ str " is caught on " ++ to_string (N.of_nat (er_caughtCount r)) ++ str " of " ++ total ++ str " path(s)" ++
      (if 0 <? er_terminatesCount r
       then str " (" ++ terminates ++ str " terminate at a noexcept or thread boundary)" else []) ++
      str "." ++ uncaught_path r
  | NoexceptBarrier =>
      throwing ++ str " reaches a noexcept function or a thread entry on all " ++ total ++
      str " path(s): std::terminate rather than propagation."
  | ObservedCaught =>
      throwing ++ str " is caught on every one of the " ++ total ++ str " observed path(s), but " ++ whyObserved r ++
      str "; unexamined paths may be unprotected."
  | ObservedUncaught =>
      throwing ++ str " is NOT caught on any of the " ++ total ++ str " observed path(s); " ++ whyObserved r ++ str "." ++
      uncaught_path r
  | UnknownProtection =>
      match er_paths r with
      | [] =>
          if negb (fa_targetKnown (er_search r)) then functionName ++ str " is not in the call graph."
          else if negb (fa_startKnown (er_search r)) then str "None of the entry points is in the call graph."
          else str "No call paths found from entry points to " ++ functionName ++ str "."
      | _ :: _ =>
          throwing ++ str ": the outcome of the " ++ total ++ str " path(s) cannot be determined" ++
          (if 0 <? er_terminatesCount r
           then str " (" ++ terminates ++ str " terminate, " ++ to_string (N.of_nat (er_unknownCount r)) ++ str " unknown)"
           else []) ++
          (if (0 <? er_terminatesCount r) && (er_unknownCount r =? 0) && negb (er_verdictExhaustive r)
           then str "; every observed path terminates, but " ++ whyObserved r else []) ++
          str "."
      end
  end.

Definition buildSummary (r : ExceptionPathResult) (functionName exceptionType : bytes) : bytes :=
  verdict_text r functionName exceptionType ++
  (if (fa_stops (er_search r) =? 0)%N then []
   else str " Search stopped:" ++ (stopReasonNames (fa_stops (er_search r)) ≫= fun name => str " " ++ name) ++ str ".").

(** * The path queries *)

Definition count_outcome (o : PathOutcome) (ps : list PathInfo) : nat :=
  length (filter (fun p => pi_outcome p = o) ps).

(** The chain of tests that picks the verdict. *)
Definition verdict (paths_empty exhaustive_ : bool) (caught uncaught terminates : nat) : Protection :=
  if paths_empty then UnknownProtection
  else if (0 <? caught) && ((0 <? uncaught) || (0 <? terminates)) then SometimesCaught
  else if 0 <? uncaught then (if exhaustive_ then NeverCaught else ObservedUncaught)
  else if 0 <? caught then (if exhaustive_ then AlwaysCaught else ObservedCaught)
  else if 0 <? terminates then (if exhaustive_ then NoexceptBarrier else UnknownProtection)
  else UnknownProtection.

Definition with_summary (r : ExceptionPathResult) (s : bytes) : ExceptionPathResult :=
  MkExceptionResult (er_protection r) (er_paths r) s (er_search r) (er_caughtCount r) (er_uncaughtCount r)
    (er_terminatesCount r) (er_unknownCount r) (er_indexComplete r) (er_verdictExhaustive r).

Definition queryExceptionProtection (functionName exceptionType : bytes) (entryPoints : list bytes)
    (limits : SearchLimits) (indexComplete : bool) : ExceptionPathResult :=
  let found := findCallerPaths isValidUtf8 g functionName entryPoints limits SimpleNodes None in
  let search := factsOf found limits in
  let ps := (fun path => propagate (annotatePath path) exceptionType) <$> paths found in
  let caught := count_outcome Caught ps in
  let uncaught := count_outcome Uncaught ps in
  let terminates := count_outcome Terminates ps in
  let unknown := count_outcome UnknownOutcome ps in
  let exhaustive_ := fa_exhaustive search && (unknown =? 0) && indexComplete in
  let r := MkExceptionResult (verdict (bool_decide (ps = [])) exhaustive_ caught uncaught terminates)
             ps [] search caught uncaught terminates unknown indexComplete exhaustive_ in
  with_summary r (buildSummary r functionName exceptionType).

Definition queryAllPathContexts (functionName : bytes) (entryPoints : list bytes) (limits : SearchLimits) : PathContextsResult :=
  let found := findCallerPaths isValidUtf8 g functionName entryPoints limits SimpleNodes None in
  MkContextsResult (annotatePath <$> paths found) (factsOf found limits).

Definition queryThrowPropagation (throwingFunction thrownType : bytes) (entryPoints : list bytes)
    (limits : SearchLimits) (indexComplete : bool) : ExceptionPathResult :=
  queryExceptionProtection throwingFunction thrownType entryPoints limits indexComplete.

(** * The nearest catches *)

Record Parent := MkParent {
  p_child : bytes;
  p_hop : PathHop
}.

(** The locals of the breadth-first walk. *)
Record NearestState := MkNState {
  ns_parent : gmap bytes Parent;
  ns_visited : gset bytes;
  ns_queue : list (bytes * N);
  ns_stops : N;
  ns_catches : list NearestCatchInfo
}.

Definition oracle_displayOf (usr : bytes) : bytes :=
  match findNode isValidUtf8 g usr with Some node => qualifiedName node | None => usr end.

Definition hop_of_edge (edge : CallGraphEdge) : PathHop :=
  MkHop (callerUsr edge) (calleeUsr edge) (callerName edge) (calleeName edge) (e_callSite edge)
    (e_kind edge) (e_confidence edge) (e_execContext edge) (e_indirectionDepth edge).

(** [while (true)] over the parents.  A chain of more hops than there are parents repeats
    one and never ends: [None]. *)
Fixpoint chain_hops (fuel : nat) (parent : gmap bytes Parent) (cur : bytes) : option (list PathHop) :=
  match parent !! cur with
  | None => Some []
  | Some p =>
      match fuel with
      | O => None
      | S fuel' => cons (p_hop p) <$> chain_hops fuel' parent (h_calleeUsr (p_hop p))
      end
  end.

(** The chain from a caller down to the target, its scope still to be filled in. *)
Definition chainFrom (parent : gmap bytes Parent) (usr : bytes) (firstHop : PathHop)
  : option (list PathHop * list bytes) :=
  rest ← chain_hops (size parent) parent (h_calleeUsr firstHop);
  let hops := firstHop :: rest in
  Some (hops, oracle_displayOf usr :: (h_callee <$> hops)).

Definition caller_less (a b : CallGraphEdge) : bool :=
  if negb (bool_decide (callerUsr a = callerUsr b)) then bytes_ltb (callerUsr a) (callerUsr b)
  else bytes_ltb (e_callSite a) (e_callSite b).

(** One caller edge of a node at some depth. *)
Definition visit_caller (node : bytes) (depth : N) (st : NearestState) (edge : CallGraphEdge) : option NearestState :=
  let hop := hop_of_edge edge in
  match contextForHop hop ≫= fun ctx => head (enclosingTryCatches ctx) with
  | Some scope =>
      '(hops, segment) ← chainFrom (ns_parent st) (callerUsr edge) hop;
      Some (MkNState (ns_parent st) (ns_visited st) (ns_queue st) (ns_stops st)
              (ns_catches st ++ [MkNearest segment hops scope (h_callSite hop) (depth + 1)%N]))
  | None =>
      if decide (callerUsr edge ∈ ns_visited st) then Some st
      else
        Some (MkNState
                (match ns_parent st !! callerUsr edge with
                 | Some _ => ns_parent st
                 | None => <[callerUsr edge := MkParent node hop]> (ns_parent st)
                 end)
                ({[callerUsr edge]} ∪ ns_visited st) (ns_queue st ++ [(callerUsr edge, (depth + 1)%N)])
                (ns_stops st) (ns_catches st))
  end.

Fixpoint visit_edges (node : bytes) (depth : N) (edges : list CallGraphEdge) (st : NearestState) : option NearestState :=
  match edges with
  | [] => Some st
  | edge :: rest => st' ← visit_caller node depth st edge; visit_edges node depth rest st'
  end.

(** Every string enters the queue once: the targets and the callers, which are interned. *)
Fixpoint nearest_loop (fuel : nat) (maxDepth : N) (st : NearestState) : option NearestState :=
  match fuel, ns_queue st with
  | S fuel', (node, depth) :: queue =>
      let st1 := MkNState (ns_parent st) (ns_visited st) queue (ns_stops st) (ns_catches st) in
      let callers := callersOf isValidUtf8 g node in
      if (maxDepth <=? depth)%N then
        nearest_loop fuel' maxDepth
          (match callers with
           | [] => st1
           | _ :: _ => MkNState (ns_parent st) (ns_visited st) queue
                         (N.lor (ns_stops st) (stop_bit DepthLimit)) (ns_catches st)
           end)
      else
        st2 ← visit_edges node depth (std_sort caller_less callers) st1;
        nearest_loop fuel' maxDepth st2
  | _, _ => Some st
  end.

Definition nearest_less (a b : NearestCatchInfo) : bool :=
  if negb (nc_framesFromTarget a =? nc_framesFromTarget b)%N then (nc_framesFromTarget a <? nc_framesFromTarget b)%N
  else if negb (bool_decide (nc_pathSegment a = nc_pathSegment b)) then
    match list_cmp bytes_cmp (nc_pathSegment a) (nc_pathSegment b) with Lt => true | _ => false end
  else bytes_ltb (nc_callSite a) (nc_callSite b).

(** [if (visited.insert(t).second) queue.emplace_back(t, 0);] *)
Definition seed_target (st : NearestState) (t : bytes) : NearestState :=
  if decide (t ∈ ns_visited st) then st
  else MkNState (ns_parent st) ({[t]} ∪ ns_visited st) (ns_queue st ++ [(t, 0%N)]) (ns_stops st) (ns_catches st).

Definition nearest_targets (functionName : bytes) : list bytes :=
  merge_sort bytes_le (match usrsForName isValidUtf8 g functionName with [] => [functionName] | l => l end).

Definition seed_targets (targets : list bytes) : NearestState :=
  foldl seed_target (MkNState ∅ ∅ [] 0 []) targets.

(** [None]: the walk does not return. *)
Definition queryNearestCatches (functionName : bytes) (maxDepth : N) : option NearestCatchResult :=
  let targetKnown := match find (interner_ g) functionName with Some _ => true | None => false end ||
                     negb (bool_decide (usrsForName isValidUtf8 g functionName = [])) in
  if negb targetKnown then Some (MkNearestResult [] maxDepth 0 true false)
  else
    let targets := nearest_targets functionName in
    st ← nearest_loop (length targets + table_size (interner_ g)) maxDepth (seed_targets targets);
    Some (MkNearestResult (std_sort nearest_less (ns_catches st)) maxDepth (ns_stops st) (ns_stops st =? 0)%N true).
End Oracle.
