(* ===== verification/OracleCorrect.v ===== *)
(** What the oracle's answers mean: which handlers take an exception, where a throw on a
    path ends, and what a verdict says about all the paths of the graph. *)

From S2P Require Import Prelude Registrations Utf8 StringInterner CallGraph CallGraphInv CallGraphQuery PathSearch PathSearchCorrect Ordering ControlFlowIndex Results Oracle.

(** * Which types a handler takes *)

(** One step up the table of standard exceptions. *)
Definition std_derives (a b : bytes) : Prop := std_base a = Some b.

(** The height of a type in the table bounds the walk. *)
Fixpoint climb (fuel : nat) (t : bytes) : list bytes :=
  match fuel with
  | O => []
  | S fuel' => match std_base t with Some b => b :: climb fuel' b | None => [] end
  end.

Lemma std_base_entry t b : std_base t = Some b -> (t, b) ∈ stdExceptionHierarchy.
Proof.
  unfold std_base. destruct (List.find _ _) as [[t' b']|] eqn:E; [|done]. intros [= <-].
  apply find_some in E as [Hin Ht%bool_decide_eq_true]. cbn in Ht. subst t'. by apply list_elem_of_In.
Qed.

(** No type of the table has four bases above it that all have a base, and none is its own base. *)
Lemma hierarchy_shallow :
  forallb (fun p => (length (climb 19 p.1) <=? 3) && bool_decide (NoDup (p.1 :: climb 19 p.1))) stdExceptionHierarchy = true.
Proof. vm_compute. reflexivity. Qed.

Lemma climb_shallow t n : 3 < n -> length (climb n t) <= 3 /\ NoDup (t :: climb n t).
Proof.
  intros Hn. destruct (std_base t) as [b|] eqn:E.
  2:{ destruct n; [lia|]. cbn [climb]. rewrite E. cbn. split; [lia|]. apply NoDup_singleton. }
  apply std_base_entry in E. pose proof hierarchy_shallow as H. rewrite forallb_forall in H.
  specialize (H (t, b)). cbn [fst] in H. rewrite <- list_elem_of_In in H. specialize (H E).
  apply andb_true_iff in H as [Hl%Nat.leb_le Hd%bool_decide_eq_true].
  assert (Hs : forall k m (u : bytes), length (climb m u) < m -> m <= k -> climb k u = climb m u).
  { intros k m. revert k. induction m as [|m IH]; intros [|k] u Hlt Hle; cbn [climb] in *; try lia.
    destruct (std_base u) as [c|]; [|done]. cbn [length] in Hlt. by rewrite IH by lia. }
  assert (E19 : climb 19 t = climb 4 t).
  { apply Hs; [|lia]. destruct (decide (length (climb 4 t) < 4)) as [?|Hge]; [done|]. exfalso.
    assert (Hle : forall k m (u : bytes), m <= k -> length (climb m u) <= length (climb k u)).
    { intros k m. revert k. induction m as [|m IH]; intros [|k] u Hle; cbn [climb length]; try lia.
      destruct (std_base u) as [c|]; [|done]. cbn [length]. specialize (IH k c). lia. }
    specialize (Hle 19 4 t). lia. }
  rewrite E19 in Hl, Hd. rewrite (Hs n 4 t) by lia. done.
Qed.

Lemma walk_climbs fuel caught current visited :
  length (climb fuel current) < fuel ->
  (forall t, t ∈ current :: climb fuel current -> t ∉ visited) -> NoDup (current :: climb fuel current) ->
  walk_hierarchy fuel caught current visited = true <-> caught ∈ climb fuel current.
Proof.
  revert current visited. induction fuel as [|fuel IH]; intros current visited Hl Hv Hnd; [cbn in Hl; lia|].
  cbn [walk_hierarchy climb] in *. destruct (decide (current ∈ visited)) as [Hc|_].
  { exfalso. eapply Hv; [left|done]. }
  destruct (std_base current) as [b|]; [|by rewrite elem_of_nil].
  case_bool_decide as Hb; [subst b; split; [left|done]|].
  cbn [length] in Hl. apply NoDup_cons in Hnd as [Hn1 Hnd].
  rewrite IH; [rewrite elem_of_cons; naive_solver|lia| |done].
  intros t Ht. rewrite not_elem_of_union, not_elem_of_singleton. split; [|apply Hv; by right].
  intros ->. done.
Qed.

Lemma climb_derives fuel t b : b ∈ climb fuel t -> tc std_derives t b.
Proof.
  revert t. induction fuel as [|fuel IH]; intros t; cbn [climb]; [by intros ?%not_elem_of_nil|].
  destruct (std_base t) as [c|] eqn:E; [|by intros ?%not_elem_of_nil].
  intros [->|Hin]%elem_of_cons; [by apply tc_once|]. eapply tc_l; [exact E|auto].
Qed.

Lemma derives_climb fuel t b : length (climb fuel t) < fuel -> tc std_derives t b -> b ∈ climb fuel t.
Proof.
  intros Hl Ht. revert fuel Hl. induction Ht as [t b E|t c b E _ IH]; intros [|fuel] Hl; cbn [climb] in *; try lia;
    unfold std_derives in E; rewrite E in *.
  - left.
  - right. apply IH. cbn [length] in Hl. lia.
Qed.

Lemma walk_hierarchy_spec caught thrown :
  walk_hierarchy (S (length stdExceptionHierarchy)) caught thrown ∅ = true <-> tc std_derives thrown caught.
Proof.
  assert (H3 : 3 < S (length stdExceptionHierarchy)) by (vm_compute; lia).
  destruct (climb_shallow thrown _ H3) as [Hl Hnd]. rewrite walk_climbs; [|lia|set_solver|done].
  split; [apply climb_derives|apply derives_climb; lia].
Qed.

(** [thrown] is [caught] or derives from it: by spelling, in the table, or in the graph. *)
Definition derives_from (isValidUtf8 : bytes -> bool) (g : CallGraph) (thrown caught : bytes) : Prop :=
  thrown = caught \/ stripTypeSpelling thrown = stripTypeSpelling caught \/
  tc std_derives (stripTypeSpelling thrown) (stripTypeSpelling caught) \/
  stripTypeSpelling thrown ∈ getAllDerivedClasses isValidUtf8 g (stripTypeSpelling caught).

Lemma isSubtypeOf_spec isValidUtf8 g thrown caught :
  isSubtypeOf isValidUtf8 g thrown caught = true <-> derives_from isValidUtf8 g thrown caught.
Proof.
  unfold isSubtypeOf, derives_from. case_bool_decide as H1; [tauto|]. case_bool_decide as H2; [tauto|].
  destruct (walk_hierarchy _ _ _ _) eqn:Ew.
  - apply walk_hierarchy_spec in Ew. tauto.
  - assert (~ tc std_derives (stripTypeSpelling thrown) (stripTypeSpelling caught)).
    { intros H%walk_hierarchy_spec. congruence. }
    rewrite existsb_exists. setoid_rewrite bool_decide_eq_true. setoid_rewrite <- list_elem_of_In. naive_solver.
Qed.

(** * Where a throw on a path ends *)

Inductive Ending :=
| EndCaught (scope : TryCatchScope) (h : CatchHandlerInfo)
| EndUncaught
| EndTerminates (at_ : bytes)
| EndUnknown (at_ : bytes).

Section Fate.
Variable isValidUtf8 : bytes -> bool.
Variable g : CallGraph.
Variable v : ContextView.
Variable exc : bytes.

(** The empty type stands for any exception. *)
Definition takes (h : CatchHandlerInfo) : Prop :=
  isCatchAll h = true \/ exc = [] \/ derives_from isValidUtf8 g exc (caughtType h).

(** The handler of a scope that gets the exception: the first in source order that takes it. *)
Definition first_taking (s : TryCatchScope) (h : CatchHandlerInfo) : Prop :=
  exists pre post, handlers s = pre ++ h :: post /\ takes h /\ Forall (fun h' => ~ takes h') pre.

(** The scopes around a call, innermost first: the handlers that rethrow, and the scope
    and handler that keep the exception, if any. *)
Inductive scopes_run : list TryCatchScope -> list CatchHandlerInfo -> option (TryCatchScope * CatchHandlerInfo) -> Prop :=
| run_out : scopes_run [] [] None
| run_miss s ss r o : Forall (fun h => ~ takes h) (handlers s) -> scopes_run ss r o -> scopes_run (s :: ss) r o
| run_rethrow s ss h r o :
    first_taking s h -> rethrows h = true -> scopes_run ss r o -> scopes_run (s :: ss) (h :: r) o
| run_keep s ss h : first_taking s h -> rethrows h = false -> scopes_run (s :: ss) [] (Some (s, h)).

Definition unwinds_into (c : ExecutionContext) : Prop := c = Synchronous \/ c = Invoke.
Definition no_throw (spec : NoexceptSpec) : Prop := spec = Noexcept \/ spec = ThrowNone.
Definition may_throw (spec : NoexceptSpec) : Prop := spec = NoSpec \/ spec = NoexceptFalse.

Abbreviation context_of := (contextForHop v).

(** An exception that leaves the callee of the first hop, the hops listed outward: how it
    ends and the handlers that rethrow it on the way. *)
Inductive unwinds : list PathHop -> Ending -> list CatchHandlerInfo -> Prop :=
| uw_entry : unwinds [] EndUncaught []
| uw_thread hop rest : h_execContext hop = ThreadSpawn -> unwinds (hop :: rest) (EndTerminates (h_callSite hop)) []
| uw_task hop rest :
    h_execContext hop = AsyncTask \/ h_execContext hop = PackagedTask ->
    unwinds (hop :: rest) (EndUnknown (h_callSite hop)) []
| uw_unindexed hop rest :
    unwinds_into (h_execContext hop) -> context_of hop = None ->
    unwinds (hop :: rest) (EndUnknown (h_callSite hop)) []
| uw_caught hop rest ctx r s h :
    unwinds_into (h_execContext hop) -> context_of hop = Some ctx ->
    scopes_run (enclosingTryCatches ctx) r (Some (s, h)) -> unwinds (hop :: rest) (EndCaught s h) r
| uw_noexcept hop rest ctx r :
    unwinds_into (h_execContext hop) -> context_of hop = Some ctx ->
    scopes_run (enclosingTryCatches ctx) r None -> no_throw (callerNoexcept ctx) ->
    unwinds (hop :: rest) (EndTerminates (h_caller hop)) r
| uw_unevaluated hop rest ctx r :
    unwinds_into (h_execContext hop) -> context_of hop = Some ctx ->
    scopes_run (enclosingTryCatches ctx) r None -> callerNoexcept ctx = UnknownSpec ->
    unwinds (hop :: rest) (EndUnknown (h_caller hop)) r
| uw_leaves hop rest ctx r e r' :
    unwinds_into (h_execContext hop) -> context_of hop = Some ctx ->
    scopes_run (enclosingTryCatches ctx) r None -> may_throw (callerNoexcept ctx) ->
    unwinds rest e r' -> unwinds (hop :: rest) e (r ++ r').

(** The fate of a throw by the target of a path given from the entry point inward. *)
Inductive fate (p : list PathHop) : Ending -> list CatchHandlerInfo -> Prop :=
| fate_target into : last p = Some into ->
    (exists spec, callerNoexceptOf_in v (h_calleeUsr into) = Some spec /\ no_throw spec) ->
    fate p (EndTerminates (h_callee into)) []
| fate_unwinds into e r : last p = Some into ->
    (forall spec, callerNoexceptOf_in v (h_calleeUsr into) = Some spec -> ~ no_throw spec) ->
    unwinds (rev p) e r -> fate p e r.

Definition outcome_of (e : Ending) : PathOutcome :=
  match e with
  | EndCaught _ _ => Caught
  | EndUncaught => Uncaught
  | EndTerminates _ => Terminates
  | EndUnknown _ => UnknownOutcome
  end.

(** What a path's report says of an ending. *)
Definition reports (info : PathInfo) (e : Ending) (r : list CatchHandlerInfo) : Prop :=
  pi_outcome info = outcome_of e /\ pi_isCaught info = bool_decide (outcome_of e = Caught) /\
  pi_rethrownAt info = handlerLocation <$> r /\
  match e with
  | EndCaught s h => pi_caughtAt info = tryLocation s /\ pi_caughtBy info = (if isCatchAll h then str "..." else caughtType h)
  | EndUncaught => pi_stopAt info = default [] (head (pi_callChain info))
  | EndTerminates at_ | EndUnknown at_ => pi_stopAt info = at_
  end.

(** ** The walks follow the rules *)

Lemma takes_spec h :
  isCatchAll h || bool_decide (exc = []) || isSubtypeOf isValidUtf8 g exc (caughtType h) = true <-> takes h.
Proof. rewrite !orb_true_iff, bool_decide_eq_true, isSubtypeOf_spec. unfold takes. tauto. Qed.

Lemma matching_first s :
  match matchingHandler isValidUtf8 g exc s with
  | Some h => first_taking s h
  | None => Forall (fun h => ~ takes h) (handlers s)
  end.
Proof.
  unfold matchingHandler, first_taking. induction (handlers s) as [|h hs IH]; cbn [List.find]; [constructor|].
  destruct (_ || isSubtypeOf _ _ _ _) eqn:E.
  - exists [], hs. split_and!; [done|by apply takes_spec|constructor].
  - assert (Hn : ~ takes h) by (rewrite <- takes_spec; congruence).
    destruct (List.find _ hs) as [h'|]; [|by constructor].
    destruct IH as (pre & post & -> & Ht & Hp). exists (h :: pre), post. split_and!; [done|done|by constructor].
Qed.

Definition rethrow_all (r : list CatchHandlerInfo) (info : PathInfo) : PathInfo :=
  foldl (fun i h => rethrow_path h i) info r.

Lemma rethrow_all_eq r info :
  rethrow_all r info =
  MkPathInfo (pi_callChain info) (pi_hops info) (pi_tryCatchesOnPath info) (pi_guardsOnPath info)
    (pi_outcome info) (pi_isCaught info) (pi_caughtAt info) (pi_caughtBy info)
    (pi_rethrownAt info ++ (handlerLocation <$> r)) (pi_stopAt info) (pi_note info).
Proof.
  revert info. induction r as [|h r IH]; intros info.
  - cbn. rewrite app_nil_r. by destruct info.
  - change (rethrow_all (h :: r) info) with (rethrow_all r (rethrow_path h info)). rewrite IH. cbn. by rewrite <- app_assoc.
Qed.

Lemma walk_scopes_run ss info :
  exists r o, scopes_run ss r o /\
    walk_scopes isValidUtf8 g exc ss info =
    match o with
    | None => (rethrow_all r info, false)
    | Some (s, h) => (catch_path s h (rethrow_all r info), true)
    end.
Proof.
  revert info. induction ss as [|s ss IH]; intros info; cbn [walk_scopes].
  { exists [], None. by split; [constructor|]. }
  pose proof (matching_first s) as Hm. destruct (matchingHandler _ _ _ _) as [h|].
  - destruct (rethrows h) eqn:Er.
    + destruct (IH (rethrow_path h info)) as (r & o & Hr & E). exists (h :: r), o. by split; [constructor|].
    + exists [], (Some (s, h)). by split; [constructor|].
  - destruct (IH info) as (r & o & Hr & E). exists r, o. by split; [constructor|].
Qed.

(** A report that continues one that has been rethrown before. *)
Definition reports_after (info info' : PathInfo) (e : Ending) (r : list CatchHandlerInfo) : Prop :=
  pi_callChain info' = pi_callChain info /\ pi_outcome info' = outcome_of e /\
  pi_isCaught info' = bool_decide (outcome_of e = Caught) /\
  pi_rethrownAt info' = pi_rethrownAt info ++ (handlerLocation <$> r) /\
  match e with
  | EndCaught s h => pi_caughtAt info' = tryLocation s /\ pi_caughtBy info' = (if isCatchAll h then str "..." else caughtType h)
  | EndUncaught => pi_stopAt info' = default [] (head (pi_callChain info))
  | EndTerminates at_ | EndUnknown at_ => pi_stopAt info' = at_
  end.

(** Closes the report of a walk that stopped. *)
Ltac report := rewrite ?rethrow_all_eq; unfold reports_after; cbn; rewrite ?app_nil_r; try (by split_and!).

Lemma frame_unwinds outer rest hop info :
  (forall info, pi_isCaught info = false -> exists e r, unwinds rest e r /\ reports_after info (outer info) e r) ->
  pi_isCaught info = false -> unwinds_into (h_execContext hop) ->
  exists e r, unwinds (hop :: rest) e r /\ reports_after info (unwind_frame isValidUtf8 g v outer exc hop info) e r.
Proof.
  intros IH Hc Hsync. unfold unwind_frame. destruct (contextForHop v hop) as [ctx|] eqn:Ectx.
  2:{ exists (EndUnknown (h_callSite hop)), []. split; [by apply uw_unindexed|report]. }
  destruct (walk_scopes_run (enclosingTryCatches ctx) info) as (r & [[s h]|] & Hr & ->).
  { exists (EndCaught s h), r. split; [by eapply uw_caught|report]. }
  assert (Hleave : may_throw (callerNoexcept ctx) ->
    exists e r', unwinds (hop :: rest) e r' /\ reports_after info (outer (rethrow_all r info)) e r').
  { intros Hm. destruct (IH (rethrow_all r info)) as (e & r' & Hu & R1 & R2 & R3 & R4 & R5); [by rewrite rethrow_all_eq|].
    exists e, (r ++ r'). split; [by eapply uw_leaves|]. set (info' := outer _) in *.
    rewrite rethrow_all_eq in R1, R4, R5. cbn in R1, R4, R5. unfold reports_after. rewrite R1, R2, R3, R4, fmap_app, app_assoc. by split_and!. }
  destruct (callerNoexcept ctx) eqn:En.
  - apply Hleave. by left.
  - exists (EndTerminates (h_caller hop)), r. split; [eapply uw_noexcept; try done; rewrite En; by left|report].
  - apply Hleave. by right.
  - exists (EndTerminates (h_caller hop)), r. split; [eapply uw_noexcept; try done; rewrite En; by right|report].
  - exists (EndUnknown (h_caller hop)), r. split; [by eapply uw_unevaluated|report].
Qed.

Lemma walk_out_unwinds outward info :
  pi_isCaught info = false ->
  exists e r, unwinds outward e r /\ reports_after info (walk_out isValidUtf8 g v exc outward info) e r.
Proof.
  revert info. induction outward as [|hop rest IH]; intros info Hc; cbn [walk_out].
  { exists EndUncaught, []. split; [constructor|report]. }
  destruct (h_execContext hop) eqn:Ex.
  - apply frame_unwinds; [done..|rewrite Ex; by left].
  - exists (EndTerminates (h_callSite hop)), []. split; [by apply uw_thread|report].
  - exists (EndUnknown (h_callSite hop)), []. split; [apply uw_task; by left|report].
  - exists (EndUnknown (h_callSite hop)), []. split; [apply uw_task; by right|report].
  - apply frame_unwinds; [done..|rewrite Ex; by right].
Qed.

Lemma never_throws_spec o : never_throws o = true <-> exists spec, o = Some spec /\ no_throw spec.
Proof. unfold no_throw. destruct o as [[]|]; cbn; naive_solver. Qed.

(** The report of a path tells its fate. *)
Lemma propagate_fate p :
  p <> [] -> exists e r, fate p e r /\ reports (propagate isValidUtf8 g v (annotatePath v p) exc) e r.
Proof.
  intros Hp. unfold propagate. cbn [annotatePath pi_hops]. destruct (last p) as [into|] eqn:El.
  2:{ by apply last_None in El. }
  destruct (never_throws _) eqn:En.
  - exists (EndTerminates (h_callee into)), []. split; [|by split_and!].
    apply fate_target; [done|]. by apply never_throws_spec.
  - destruct (walk_out_unwinds (rev p) (annotatePath v p)) as (e & r & Hu & R1 & R2 & R3 & R4 & R5); [done|].
    exists e, r. split.
    + eapply fate_unwinds; [done| |done]. intros spec Hs Hn.
      assert (never_throws (callerNoexceptOf_in v (h_calleeUsr into)) = true) by (apply never_throws_spec; eauto). congruence.
    + unfold reports. rewrite R1, R2, R3, R4. by split_and!.
Qed.

(** ** The rules determine the fate *)

Lemma first_taking_fun s h h' : first_taking s h -> first_taking s h' -> h = h'.
Proof.
  intros (pre & post & E & Ht & Hp) (pre' & post' & E' & Ht' & Hp'). rewrite E in E'. clear E.
  revert pre' Hp' E'. induction pre as [|x pre IH]; intros [|y pre'] Hp' E'; cbn in E'; injection E' as -> E'.
  - done.
  - by inversion Hp'.
  - by inversion Hp.
  - inversion Hp; inversion Hp'; subst. by eapply IH.
Qed.

Lemma first_taking_some s h : first_taking s h -> ~ Forall (fun h => ~ takes h) (handlers s).
Proof. intros (pre & post & -> & Ht & _) [_ H]%Forall_app. by inversion H. Qed.

Lemma scopes_run_fun ss r o r' o' : scopes_run ss r o -> scopes_run ss r' o' -> r = r' /\ o = o'.
Proof.
  intros H. revert r' o'. induction H as [|s ss r o Hm H IH|s ss h r o Hf Hr H IH|s ss h Hf Hr]; intros r' o' H';
    inversion H'; subst; try done; try (by destruct (first_taking_some s h)); try (by edestruct (first_taking_some s)).
  - by apply IH.
  - assert (h0 = h) as -> by by eapply first_taking_fun. destruct (IH r0 o'); [done|]. by subst.
  - assert (h0 = h) as -> by by eapply first_taking_fun. congruence.
  - assert (h0 = h) as -> by by eapply first_taking_fun. congruence.
  - assert (h0 = h) as -> by by eapply first_taking_fun. done.
Qed.

Lemma unwinds_fun hops e r e' r' : unwinds hops e r -> unwinds hops e' r' -> e = e' /\ r = r'.
Proof.
  intros H. revert e' r'. induction H; intros e2 r2 Hother; inversion Hother; subst; unfold unwinds_into, no_throw, may_throw in *;
    simplify_eq; try done; try (by exfalso; naive_solver congruence).
  all: repeat match goal with
    | R1 : scopes_run ?ss _ _, R2 : scopes_run ?ss _ _ |- _ => destruct (scopes_run_fun _ _ _ _ _ R1 R2); clear R2; simplify_eq
    end; try done; try (by exfalso; naive_solver congruence).
  destruct (IHunwinds e2 r'0); [done|]. by subst.
Qed.

Lemma fate_fun p e r e' r' : fate p e r -> fate p e' r' -> e = e' /\ r = r'.
Proof.
  intros H H'. inversion H as [into Hl Hs|into ? ? Hl Hs Hu]; inversion H' as [into' Hl' Hs'|into' ? ? Hl' Hs' Hu']; subst;
    assert (into' = into) as -> by congruence; try done.
  - destruct Hs as (spec & E & Hn). by destruct (Hs' spec E).
  - destruct Hs' as (spec & E & Hn). by destruct (Hs spec E).
  - by eapply unwinds_fun.
Qed.
End Fate.

(** * Verdicts *)

Section Verdict.
Context `{UI : !UnorderedIter}.
Variable isValidUtf8 : bytes -> bool.
Variable g : CallGraph.
Variable v : ContextView.
Variables functionName exceptionType : bytes.
Variable entryPoints : list bytes.
Variable limits : SearchLimits.

(** A path of the graph from an entry point to the function, no function twice. *)
Definition call_path (p : list PathHop) : Prop :=
  exists t es, t ∈ resolveIds isValidUtf8 g functionName /\
    is_path g SimpleNodes None (start_set isValidUtf8 g entryPoints) t es /\ p = hop_of isValidUtf8 g <$> rev es.

(** How a throw of the type ends on a path. *)
Definition ends (p : list PathHop) (o : PathOutcome) : Prop :=
  exists e r, fate isValidUtf8 g v exceptionType p e r /\ outcome_of e = o.

(** The name means one function, or none of the functions it means is an entry point. *)
Definition target_apart : Prop :=
  length (resolveIds isValidUtf8 g functionName) <= 1 \/
  (forall x, x ∈ resolveIds isValidUtf8 g functionName -> x ∉ start_set isValidUtf8 g entryPoints).

Definition search : PathSearchResult :=
  findCallerPaths isValidUtf8 g functionName entryPoints limits SimpleNodes None.

Definition report (p : list PathHop) : PathInfo := propagate isValidUtf8 g v (annotatePath v p) exceptionType.

Lemma found_call_path p : p ∈ paths search -> call_path p.
Proof. intros (t & es & ? & ? & _ & ?)%caller_paths_sound. by exists t, es. Qed.

Lemma call_path_found p : cg_ok g -> target_apart -> exhaustive search = true -> call_path p -> p ∈ paths search.
Proof.
  intros Hg Hsep He (t & es & Ht & Hp & ->). apply caller_paths_complete with t; try done.
  - by apply aligned_ends.
  - by apply andb_true_iff in He as [? _].
  - by left.
Qed.

Lemma call_path_nonempty p : call_path p -> p <> [].
Proof.
  intros (t & es & _ & (Hne & _) & ->) E. apply Hne. apply (f_equal length) in E.
  rewrite length_fmap, length_rev in E. by apply nil_length_inv.
Qed.

Lemma report_ends p : call_path p -> ends p (pi_outcome (report p)).
Proof.
  intros Hp%call_path_nonempty. destruct (propagate_fate isValidUtf8 g v exceptionType p Hp) as (e & r & Hf & Ho & _).
  by exists e, r.
Qed.

Lemma count_pos o ps : (0 <? count_outcome o ps) = true <-> exists p, p ∈ ps /\ pi_outcome p = o.
Proof.
  unfold count_outcome. rewrite Nat.ltb_lt. split.
  - destruct (filter _ ps) as [|p l] eqn:E; [cbn; lia|]. intros _. exists p.
    assert (Hin : p ∈ filter (fun p => pi_outcome p = o) ps) by (rewrite E; left).
    apply list_elem_of_filter in Hin as [? ?]. done.
  - intros (p & Hp & Ho). assert (Hin : p ∈ filter (fun p => pi_outcome p = o) ps) by by apply list_elem_of_filter.
    destruct (filter _ ps); [by apply not_elem_of_nil in Hin|cbn; lia].
Qed.

(** A counted outcome is the end of a path of the graph. *)
Lemma counted o : (0 <? count_outcome o (report <$> paths search)) = true -> exists p, call_path p /\ ends p o.
Proof.
  intros (i & (p & -> & Hp%found_call_path)%list_elem_of_fmap & <-)%count_pos. exists p. split; [done|by apply report_ends].
Qed.

(** An outcome that is not counted is the end of no path, when the search saw them all. *)
Lemma not_counted o p :
  cg_ok g -> target_apart -> exhaustive search = true ->
  (0 <? count_outcome o (report <$> paths search)) = false -> call_path p -> pi_outcome (report p) <> o.
Proof.
  intros Hg Hsep He Hc Hp Ho. assert ((0 <? count_outcome o (report <$> paths search)) = true); [|congruence].
  apply count_pos. exists (report p). split; [|done]. apply list_elem_of_fmap. exists p. split; [done|]. by apply call_path_found.
Qed.
End Verdict.

