(* ===== verification/OracleNearest.v ===== *)
(** The nearest catches of the oracle: the breadth-first walk over callers ends, and lists
    for every call under a try block that an exception of the target can reach first, the
    shortest chain of unprotected calls below it.  Where a caller's name means another
    function, the walk need not end. *)

From S2P Require Import Prelude Registrations Utf8 StringInterner CallGraph CallGraphInv CallGraphQuery PathSearch PathSearchCorrect Impact Ordering ControlFlowIndex Results Oracle.

Lemma size_mark (A B : gset bytes) x : x ∈ A -> x ∉ B -> size (A ∖ B) = S (size (A ∖ ({[x]} ∪ B))).
Proof.
  intros Ha Hb. assert (E : A ∖ B = {[x]} ∪ A ∖ ({[x]} ∪ B)).
  { apply set_eq. intros y. destruct (decide (y = x)) as [->|]; set_solver. }
  rewrite E, size_union by set_solver. by rewrite size_singleton.
Qed.

Lemma size_list_to_set_le (l : list bytes) : size (list_to_set l : gset bytes) <= length l.
Proof.
  induction l as [|x l IH]; [by apply Nat.eq_le_incl, size_empty|]. cbn [list_to_set length].
  assert (size ({[x]} ∪ list_to_set l : gset bytes) = size ({[x]} : gset bytes) + size (list_to_set l ∖ {[x]} : gset bytes)) as -> by apply size_union_alt.
  rewrite size_singleton. assert (size (list_to_set l ∖ {[x]} : gset bytes) <= size (list_to_set l : gset bytes)) by (apply subseteq_size; set_solver).
  lia.
Qed.

Lemma StronglySorted_mono {A} (R S : relation A) l : (forall a b, R a b -> S a b) -> StronglySorted R l -> StronglySorted S l.
Proof. intros Hi. induction 1; constructor; [done|]. eapply Forall_impl; [done|]. auto. Qed.

(** * Chains of parents *)

Section Chains.
Implicit Types (parent : gmap bytes Parent) (targets : list bytes).

(** The hops from a function of the tree down to a target. *)
Inductive tree targets parent : bytes -> list PathHop -> Prop :=
| tree_root t : t ∈ targets -> parent !! t = None -> tree targets parent t []
| tree_up u p hops : parent !! u = Some p -> tree targets parent (h_calleeUsr (p_hop p)) hops ->
    tree targets parent u (p_hop p :: hops).

Lemma tree_fun targets parent u h h' : tree targets parent u h -> tree targets parent u h' -> h = h'.
Proof.
  intros H. revert h'. induction H as [t Ht Hn|u p h Hp H IH]; intros h' H'; inversion H'; subst; try congruence.
  assert (p0 = p) as -> by congruence. f_equal. by apply IH.
Qed.

Lemma tree_grows targets parent u h k p :
  tree targets parent u h -> parent !! k = None -> k ∉ targets -> tree targets (<[k := p]> parent) u h.
Proof.
  intros H Hk Hkt. induction H as [t Ht Hn|u q h Hq H IH].
  - apply tree_root; [done|]. rewrite lookup_insert_ne; [done|]. by intros ->.
  - apply tree_up; [|done]. rewrite lookup_insert_ne; [done|]. by intros ->; congruence.
Qed.

(** The keys of a chain are distinct: each has a shorter chain than the one before. *)
Lemma tree_keys targets parent u h :
  tree targets parent u h ->
  exists keys, length keys = length h /\ NoDup keys /\ (forall k, k ∈ keys -> k ∈ dom parent) /\
    forall k, k ∈ keys -> exists h', tree targets parent k h' /\ length h' <= length h.
Proof.
  induction 1 as [t Ht Hn|u p h Hp H IH].
  { exists []. split_and!; [done|constructor|set_solver|set_solver]. }
  destruct IH as (keys & Hl & Hnd & Hdom & Hlt). exists (u :: keys). split_and!.
  - cbn. lia.
  - apply NoDup_cons. split; [|done]. intros Hin. destruct (Hlt u Hin) as (h' & Ht' & Hle).
    assert (h' = p_hop p :: h) as -> by (eapply tree_fun; [done|by apply tree_up]). cbn in Hle. lia.
  - intros k [->|Hk]%elem_of_cons; [by apply elem_of_dom_2 in Hp|by apply Hdom].
  - intros k [->|Hk]%elem_of_cons; [exists (p_hop p :: h); by split; [apply tree_up|]|].
    destruct (Hlt k Hk) as (h' & ? & ?). exists h'. split; [done|]. cbn. lia.
Qed.

Lemma tree_short targets parent u h : tree targets parent u h -> length h <= size parent.
Proof.
  intros (keys & <- & Hnd & Hdom & _)%tree_keys. rewrite <- size_dom, <- (size_list_to_set (C := gset bytes)) by done.
  apply subseteq_size. intros k Hk%elem_of_list_to_set. by apply Hdom.
Qed.

Lemma tree_chain targets parent u h fuel : tree targets parent u h -> length h <= fuel -> chain_hops fuel parent u = Some h.
Proof.
  intros H. revert fuel. induction H as [t Ht Hn|u p h Hp H IH]; intros fuel Hf.
  - destruct fuel; cbn [chain_hops]; by rewrite Hn.
  - destruct fuel as [|fuel]; [cbn in Hf; lia|]. cbn [chain_hops]. rewrite Hp, IH by (cbn in Hf; lia). done.
Qed.

(** More steps than parents are no help: the chain goes round. *)
Lemma chain_tree fuel parent u h :
  chain_hops fuel parent u = Some h -> exists t, tree [t] parent u h.
Proof.
  revert u h. induction fuel as [|fuel IH]; intros u h; cbn [chain_hops]; destruct (parent !! u) as [p|] eqn:Ep; try done.
  - intros [= <-]. exists u. apply tree_root; [left|done].
  - intros (h' & Hc & ->)%fmap_Some. destruct (IH _ _ Hc) as [t Ht]. exists t. by apply tree_up.
  - intros [= <-]. exists u. apply tree_root; [left|done].
Qed.

Lemma chain_diverges parent u : chain_hops (size parent) parent u = None -> forall fuel, chain_hops fuel parent u = None.
Proof.
  intros Hn fuel. destruct (chain_hops fuel parent u) as [h|] eqn:E; [|done]. exfalso.
  apply chain_tree in E as [t Ht]. rewrite (tree_chain _ _ _ _ (size parent) Ht) in Hn; [done|by eapply tree_short].
Qed.
End Chains.

(** * The walk *)

Section Walk.
Context `{SS : !StdSort}.
Variable isValidUtf8 : bytes -> bool.
Variable g : CallGraph.
Variable v : ContextView.
Variable targets : list bytes.
Variable maxDepth : N.

(** The innermost try block around a call. *)
Definition innermost (e : CallGraphEdge) : option TryCatchScope :=
  contextForHop v (hop_of_edge e) ≫= fun ctx => head (enclosingTryCatches ctx).

(** [u] is a target, or reaches one by a chain of calls under no try block. *)
Inductive climbs : bytes -> list PathHop -> Prop :=
| climbs_target t : t ∈ targets -> climbs t []
| climbs_up u hops e : climbs u hops -> e ∈ callersOf isValidUtf8 g u -> innermost e = None ->
    climbs (callerUsr e) (hop_of_edge e :: hops).

(** The graph knows [u] as itself, not as the display name of another function. *)
Definition names_itself (u : bytes) : Prop := forall id, id ∈ resolveUsrIds isValidUtf8 g u -> resolve (interner_ g) id = u.

Context (Hg : cg_ok g) (Htargets : forall t, t ∈ targets -> names_itself t).
Context (Hcallers : forall u e, e ∈ callersOf isValidUtf8 g u -> names_itself (callerUsr e)).

Lemma caller_edge u e :
  e ∈ callersOf isValidUtf8 g u ->
  exists id r, id ∈ resolveUsrIds isValidUtf8 g u /\ r ∈ callerRefsOf g id /\ e = materialize g r.
Proof.
  unfold callersOf. intros (id & (r & -> & Hr)%list_elem_of_fmap & Hid)%list_elem_of_bind. by exists id, r.
Qed.

Lemma callee_is_node u e : names_itself u -> e ∈ callersOf isValidUtf8 g u -> calleeUsr e = u.
Proof.
  intros Hu (id & r & Hid & Hr & ->)%caller_edge. cbn. destruct (callerRefsOf_spec g id Hg) as [H _].
  destruct (H r Hr) as [_ ->]. by apply Hu.
Qed.

(** The strings a caller can be. *)
Definition table_texts : gset bytes := list_to_set (resolve (interner_ g) <$> (N.of_nat <$> seq 0 (table_size (interner_ g)))).

Lemma caller_in_table u e : e ∈ callersOf isValidUtf8 g u -> callerUsr e ∈ table_texts.
Proof.
  intros (id & r & Hid & Hr & ->)%caller_edge. cbn. apply elem_of_list_to_set, list_elem_of_fmap.
  exists (r_caller r). split; [done|]. pose proof (caller_known g Hg id r Hr) as Hk.
  apply known_table_id in Hk. by apply elem_of_list_to_set in Hk.
Qed.

Lemma climbs_named u hops : climbs u hops -> names_itself u.
Proof. inversion 1; subst; [by apply Htargets|by eapply Hcallers]. Qed.

(** A catch that the walk may record: a protected call above a climb. *)
Definition sound_catch (c : NearestCatchInfo) : Prop :=
  exists u hops e, climbs u hops /\ (forall hops', climbs u hops' -> length hops <= length hops') /\
    e ∈ callersOf isValidUtf8 g u /\ innermost e = Some (nc_scope c) /\
    nc_hops c = hop_of_edge e :: hops /\ nc_callSite c = e_callSite e /\
    nc_framesFromTarget c = N.of_nat (length (nc_hops c)) /\ (nc_framesFromTarget c <= maxDepth)%N /\
    nc_pathSegment c = oracle_displayOf isValidUtf8 g (callerUsr e) :: (h_callee <$> nc_hops c).

(** What the walk owes an edge of a node it has finished, at the depth of the node. *)
Definition edge_done (st : NearestState) (hops : list PathHop) (e : CallGraphEdge) : Prop :=
  match innermost e with
  | Some _ => exists c, c ∈ ns_catches st /\ nc_hops c = hop_of_edge e :: hops
  | None => callerUsr e ∈ ns_visited st
  end.

Definition node_done (st : NearestState) (u : bytes) (hops : list PathHop) : Prop :=
  if decide (N.of_nat (length hops) < maxDepth)%N then forall e, e ∈ callersOf isValidUtf8 g u -> edge_done st hops e
  else has_stop (ns_stops st) DepthLimit = true \/ callersOf isValidUtf8 g u = [].

Abbreviation in_tree st := (tree targets (ns_parent st)).

(** The state while the nodes [q1] at depth [d] are expanded into [q2] at depth [d + 1];
    [busy] is the node being expanded. *)
Record nearest_inv (d : nat) (q1 q2 : list bytes) (busy : option bytes) (st : NearestState) : Prop := {
  ni_bound : (N.of_nat d <= maxDepth)%N /\ (N.of_nat d = maxDepth -> q2 = []);
  ni_queue : ns_queue st = ((fun u => (u, N.of_nat d)) <$> q1) ++ ((fun u => (u, N.of_nat (S d))) <$> q2);
  ni_targets : forall t, t ∈ targets -> t ∈ ns_visited st;
  ni_parents : forall u, u ∈ ns_visited st -> u ∉ targets -> is_Some (ns_parent st !! u);
  ni_fresh : forall u, is_Some (ns_parent st !! u) -> u ∈ ns_visited st /\ u ∉ targets;
  ni_tree : forall u, u ∈ ns_visited st -> exists hops, in_tree st u hops /\ climbs u hops /\
              forall hops', climbs u hops' -> length hops <= length hops';
  ni_q1 : forall u, u ∈ q1 -> u ∈ ns_visited st /\ forall hops, in_tree st u hops -> length hops = d;
  ni_q2 : forall u, u ∈ q2 -> u ∈ ns_visited st /\ forall hops, in_tree st u hops -> length hops = S d;
  ni_near : forall u hops, climbs u hops -> length hops <= d -> u ∈ ns_visited st;
  ni_done : forall u hops, u ∈ ns_visited st -> u ∉ q1 -> u ∉ q2 -> busy <> Some u -> in_tree st u hops -> node_done st u hops;
  ni_sound : forall c, c ∈ ns_catches st -> sound_catch c
}.

(** ** One edge *)

Record grows (st st' : NearestState) : Prop := {
  gr_visited : ns_visited st ⊆ ns_visited st';
  gr_catches : forall c, c ∈ ns_catches st -> c ∈ ns_catches st';
  gr_tree : forall u h, in_tree st u h -> in_tree st' u h;
  gr_stops : forall r, has_stop (ns_stops st) r = true -> has_stop (ns_stops st') r = true
}.

Lemma grows_refl st : grows st st.
Proof. by split. Qed.

Lemma grows_trans a b c : grows a b -> grows b c -> grows a c.
Proof. intros [] []. split; auto. by etrans. Qed.

Lemma edge_done_grows st st' hops e : grows st st' -> edge_done st hops e -> edge_done st' hops e.
Proof.
  intros [G1 G2 G3 G4]. unfold edge_done. destruct (innermost e); [|by apply G1].
  intros (c & Hc & ?). exists c. auto.
Qed.

Lemma node_done_grows st st' u hops : grows st st' -> node_done st u hops -> node_done st' u hops.
Proof.
  intros G. unfold node_done. case_decide.
  - intros H' e He. eapply edge_done_grows; eauto.
  - intros [?|?]; [left; by apply G|by right].
Qed.

(** Strings that may still enter the queue, and those in it. *)
Definition still_pending (st : NearestState) : nat := length (ns_queue st) + size (table_texts ∖ ns_visited st).

Definition with_catch (c : NearestCatchInfo) (st : NearestState) : NearestState :=
  MkNState (ns_parent st) (ns_visited st) (ns_queue st) (ns_stops st) (ns_catches st ++ [c]).

Definition with_node (node : bytes) (depth : N) (e : CallGraphEdge) (st : NearestState) : NearestState :=
  MkNState (<[callerUsr e := MkParent node (hop_of_edge e)]> (ns_parent st)) ({[callerUsr e]} ∪ ns_visited st)
    (ns_queue st ++ [(callerUsr e, (depth + 1)%N)]) (ns_stops st) (ns_catches st).

Lemma with_catch_grows c st : grows st (with_catch c st).
Proof. split; [done| |done|done]. intros c' Hc. apply elem_of_app. by left. Qed.

Section Edge.
Context (d : nat) (q1 q2 : list bytes) (node : bytes) (hops : list PathHop) (st : NearestState) (e : CallGraphEdge).
Context (Hinv : nearest_inv d q1 q2 (Some node) st) (Hd : (N.of_nat d < maxDepth)%N).
Context (Hnode : node ∈ ns_visited st) (Htree : in_tree st node hops) (Hlen : length hops = d).
Context (He : e ∈ callersOf isValidUtf8 g node).

Lemma node_climbs : climbs node hops /\ forall hops', climbs node hops' -> length hops <= length hops'.
Proof. destruct (ni_tree _ _ _ _ _ Hinv node Hnode) as (h & Ht & Hc & Hs). by rewrite (tree_fun _ _ _ _ _ Htree Ht). Qed.

Lemma edge_into_node : h_calleeUsr (hop_of_edge e) = node.
Proof. cbn. apply callee_is_node; [|done]. eapply climbs_named, node_climbs. Qed.

Lemma visit_protected scope :
  innermost e = Some scope ->
  exists c, visit_caller isValidUtf8 g v node (N.of_nat d) st e = Some (with_catch c st) /\
    nc_hops c = hop_of_edge e :: hops /\ sound_catch c.
Proof.
  intros Hs. unfold visit_caller. unfold innermost in Hs. rewrite Hs. unfold chainFrom. rewrite edge_into_node.
  rewrite (tree_chain _ _ _ _ _ Htree) by by eapply tree_short. cbn.
  eexists. split; [done|]. cbn. split; [done|]. destruct node_climbs as [Hc Hmin]. exists node, hops, e. cbn.
  split_and!; try done; rewrite <- Hlen in *; lia.
Qed.

Lemma visit_fresh :
  innermost e = None -> callerUsr e ∉ ns_visited st ->
  visit_caller isValidUtf8 g v node (N.of_nat d) st e = Some (with_node node (N.of_nat d) e st) /\
  nearest_inv d q1 (q2 ++ [callerUsr e]) (Some node) (with_node node (N.of_nat d) e st) /\
  grows st (with_node node (N.of_nat d) e st) /\ still_pending (with_node node (N.of_nat d) e st) = still_pending st.
Proof.
  intros Hs Hfresh. destruct Hinv as [I1 I2 I3 I4 I5 I6 I7 I8 I9 I10 I11].
  assert (Hnp : ns_parent st !! callerUsr e = None).
  { destruct (ns_parent st !! callerUsr e) as [p|] eqn:Ep; [|done]. exfalso. apply Hfresh. apply I5. by rewrite Ep. }
  assert (Hnt : callerUsr e ∉ targets) by (intros Ht; apply Hfresh; by apply I3).
  set (st' := with_node node (N.of_nat d) e st).
  assert (Hold : forall u h, in_tree st u h -> in_tree st' u h) by (intros u h H; by apply tree_grows).
  assert (Hup : in_tree st' (callerUsr e) (hop_of_edge e :: hops)).
  { apply (tree_up _ _ _ (MkParent node (hop_of_edge e))); [apply lookup_insert_eq|]. cbn [p_hop].
    rewrite edge_into_node. by apply Hold. }
  destruct node_climbs as [Hc Hmin].
  assert (Hback : forall u h, u ∈ ns_visited st -> in_tree st' u h -> in_tree st u h).
  { intros u h Hu H. destruct (I6 u Hu) as (h' & Ht' & _). by rewrite (tree_fun _ _ _ _ _ H (Hold _ _ Ht')). }
  split_and!.
  - unfold visit_caller. unfold innermost in Hs. rewrite Hs, decide_False, Hnp by done. done.
  - assert (Hg' : grows st st') by (split; [set_solver|done|done|done]). split.
    + destruct I1 as [? Hb]. split; [done|]. intros E. lia.
    + cbn [st' with_node ns_queue]. rewrite I2, fmap_app, app_assoc. cbn. do 3 f_equal. lia.
    + intros t Ht. cbn. apply I3 in Ht. set_solver.
    + intros u [->%elem_of_singleton|Hu]%elem_of_union Hn; cbn.
      * rewrite lookup_insert_eq. by eexists.
      * rewrite lookup_insert_ne by (intros E; by rewrite E in Hfresh). by apply I4.
    + intros u [p Hp]. cbn in Hp |- *. apply lookup_insert_Some in Hp as [[<- _]|[_ Hp]]; [set_solver|].
      destruct (I5 u) as [? ?]; [by rewrite Hp|]. set_solver.
    + intros u [->%elem_of_singleton|Hu]%elem_of_union.
      * exists (hop_of_edge e :: hops). split_and!; [done|by eapply climbs_up|].
        intros h' Hh'. cbn. destruct (decide (length h' <= d)) as [Hle|]; [|lia]. by destruct (Hfresh (I9 _ _ Hh' Hle)).
      * destruct (I6 u Hu) as (h & ? & ? & ?). exists h. auto.
    + intros u Hu. destruct (I7 u Hu) as [Hv Hl]. split; [set_solver|]. intros h Hh. by apply Hl, Hback.
    + intros u [Hu| ->%list_elem_of_singleton]%elem_of_app.
      * destruct (I8 u Hu) as [Hv Hl]. split; [set_solver|]. intros h Hh. by apply Hl, Hback.
      * split; [set_solver|]. intros h Hh. rewrite (tree_fun _ _ _ _ _ Hh Hup). cbn. lia.
    + intros u h Hh Hl. apply elem_of_union_r. by eapply I9.
    + intros u h [->%elem_of_singleton|Hu]%elem_of_union Hq1 Hq2 Hb Hh.
      * exfalso. apply Hq2, elem_of_app. right. left.
      * rewrite not_elem_of_app in Hq2. destruct Hq2. eapply node_done_grows; [done|]. eapply I10; [done..|]. by apply Hback.
    + done.
  - split; [set_solver|done|done|done].
  - unfold still_pending, st', with_node. cbn. rewrite length_app. cbn.
    rewrite (size_mark table_texts (ns_visited st) (callerUsr e)) by (done || by eapply caller_in_table). lia.
Qed.

Lemma visit_caller_step :
  exists st' q2', visit_caller isValidUtf8 g v node (N.of_nat d) st e = Some st' /\
    nearest_inv d q1 q2' (Some node) st' /\ grows st st' /\ still_pending st' = still_pending st /\ edge_done st' hops e.
Proof.
  destruct (innermost e) as [scope|] eqn:Es.
  - destruct (visit_protected scope Es) as (c & E & Hh & Hs). exists (with_catch c st), q2. split_and!; [done| |apply with_catch_grows|done|].
    + destruct Hinv as [I1 I2 I3 I4 I5 I6 I7 I8 I9 I10 I11]. split; try done.
      * intros u h Hu Hq1 Hq2 Hb Ht. eapply node_done_grows; [apply with_catch_grows|eauto].
      * intros c' [Hc'| ->%list_elem_of_singleton]%elem_of_app; auto.
    + unfold edge_done. rewrite Es. exists c. split; [|done]. apply elem_of_app. right. left.
  - destruct (decide (callerUsr e ∈ ns_visited st)) as [Hin|Hfresh].
    + exists st, q2. split_and!; [|done|apply grows_refl|done|by unfold edge_done; rewrite Es].
      unfold visit_caller. unfold innermost in Es. by rewrite Es, decide_True.
    + destruct (visit_fresh Es Hfresh) as (E & Hi & Hgr & Hp). eexists _, _. split_and!; [done..|].
      unfold edge_done. rewrite Es. cbn. set_solver.
Qed.
End Edge.

(** ** One node *)

Lemma visit_edges_step d q1 q2 node hops edges st :
  nearest_inv d q1 q2 (Some node) st -> (N.of_nat d < maxDepth)%N -> node ∈ ns_visited st ->
  in_tree st node hops -> length hops = d -> (forall e, e ∈ edges -> e ∈ callersOf isValidUtf8 g node) ->
  exists st' q2', visit_edges isValidUtf8 g v node (N.of_nat d) edges st = Some st' /\
    nearest_inv d q1 q2' (Some node) st' /\ grows st st' /\ still_pending st' = still_pending st /\
    forall e, e ∈ edges -> edge_done st' hops e.
Proof.
  revert q2 st. induction edges as [|e edges IH]; intros q2 st Hinv Hd Hn Ht Hl He; cbn [visit_edges].
  { exists st, q2. split_and!; [done|done|apply grows_refl|done|set_solver]. }
  destruct (visit_caller_step d q1 q2 node hops st e) as (st1 & q3 & -> & Hi1 & Hg1 & Hp1 & Hd1); try done; [apply He; left|].
  destruct (IH q3 st1) as (st2 & q4 & E & Hi2 & Hg2 & Hp2 & Hd2); try done; [by apply Hg1|by apply Hg1|intros; apply He; by right|].
  exists st2, q4. cbn. split_and!; [done|done|by eapply grows_trans|congruence|].
  intros e' [->|He']%elem_of_cons; [by eapply edge_done_grows|auto].
Qed.

(** A busy node that owes nothing is finished. *)
Lemma inv_finish d q1 q2 node hops st :
  nearest_inv d q1 q2 (Some node) st -> in_tree st node hops -> node_done st node hops -> nearest_inv d q1 q2 None st.
Proof.
  intros [I1 I2 I3 I4 I5 I6 I7 I8 I9 I10 I11] Ht Hd. split; try done. intros u h Hu Hq1 Hq2 _ Hh.
  destruct (decide (u = node)) as [->|Hne]; [by rewrite (tree_fun _ _ _ _ _ Hh Ht)|]. eapply I10; try done. congruence.
Qed.

Definition popped (queue : list (bytes * N)) (stops : N) (st : NearestState) : NearestState :=
  MkNState (ns_parent st) (ns_visited st) queue stops (ns_catches st).

Lemma inv_pop d node q1 q2 st stops :
  nearest_inv d (node :: q1) q2 None st -> (forall r, has_stop (ns_stops st) r = true -> has_stop stops r = true) ->
  nearest_inv d q1 q2 (Some node) (popped (((fun u => (u, N.of_nat d)) <$> q1) ++ ((fun u => (u, N.of_nat (S d))) <$> q2)) stops st).
Proof.
  intros [I1 I2 I3 I4 I5 I6 I7 I8 I9 I10 I11] Hs. split; try done.
  - intros u Hu. apply I7. by right.
  - intros u h Hu Hq1 Hq2 Hb Ht. apply (node_done_grows st); [by split|]. apply I10; try done.
    apply not_elem_of_cons. split; [congruence|done].
Qed.

(** The next level is the current one when the current one is finished. *)
Lemma inv_shift d q2 st : nearest_inv d [] q2 None st -> q2 <> [] -> nearest_inv (S d) q2 [] None st.
Proof.
  intros [I1 I2 I3 I4 I5 I6 I7 I8 I9 I10 I11] Hne.
  assert (Hd : (N.of_nat d < maxDepth)%N).
  { destruct I1 as [? Hq]. destruct (decide (N.of_nat d = maxDepth)) as [E|]; [by apply Hq in E|lia]. }
  split; try done.
  - split; [lia|done].
  - by rewrite I2, app_nil_r.
  - by intros u ?%not_elem_of_nil.
  - intros u hops Hc. inversion Hc as [t Ht|u' h e Hu' He Hi]; subst; [intros _; by apply I3|]. cbn. intros Hle.
    assert (Hv : u' ∈ ns_visited st) by (eapply I9; [done|lia]). destruct (I6 u' Hv) as (h' & Ht' & _ & Hmin).
    specialize (Hmin h Hu'). assert (Hdn : node_done st u' h').
    { apply I10; try done; [set_solver|]. intros Hq. destruct (I8 u' Hq) as [_ Hl]. rewrite (Hl h' Ht') in Hmin. lia. }
    unfold node_done in Hdn. rewrite decide_True in Hdn by lia. specialize (Hdn e He). unfold edge_done in Hdn. by rewrite Hi in Hdn.
  - intros u h Hu Hq2 _ Hb Ht. apply I10; try done. set_solver.
Qed.

(** ** The loop *)

Lemma expand_level d node q1 q2 st :
  nearest_inv d (node :: q1) q2 None st ->
  exists st' q2', nearest_inv d q1 q2' None st' /\ S (still_pending st') = still_pending st /\
    forall fuel, nearest_loop isValidUtf8 g v (S fuel) maxDepth st = nearest_loop isValidUtf8 g v fuel maxDepth st'.
Proof.
  intros Hinv. destruct (ni_q1 _ _ _ _ _ Hinv node) as [Hn Hlen]; [left|].
  destruct (ni_tree _ _ _ _ _ Hinv node Hn) as (hops & Ht & _ & _). specialize (Hlen hops Ht).
  pose proof (ni_queue _ _ _ _ _ Hinv) as Hq. pose proof (ni_bound _ _ _ _ _ Hinv) as [Hb _].
  set (queue := ((fun u => (u, N.of_nat d)) <$> q1) ++ ((fun u => (u, N.of_nat (S d))) <$> q2)) in *.
  assert (Hq' : ns_queue st = (node, N.of_nat d) :: queue) by done.
  cbn [nearest_loop]. rewrite Hq'. destruct (N.leb_spec maxDepth (N.of_nat d)) as [Hge|Hlt].
  - set (stops := match callersOf isValidUtf8 g node with [] => ns_stops st | _ :: _ => N.lor (ns_stops st) (stop_bit DepthLimit) end).
    assert (Hst : forall r, has_stop (ns_stops st) r = true -> has_stop stops r = true).
    { intros r Hr. unfold stops. destruct (callersOf _ _ _); [done|]. by rewrite has_stop_lor, Hr. }
    exists (popped queue stops st), q2. split_and!.
    + eapply inv_finish; [by apply inv_pop|exact Ht|]. unfold node_done. rewrite decide_False by lia. cbn.
      unfold stops. destruct (callersOf _ _ _); [by right|left]. rewrite has_stop_lor, has_stop_bit, bool_decide_true by done.
      apply orb_true_r.
    + unfold still_pending. rewrite Hq'. done.
    + intros fuel. f_equal. unfold popped, stops. by destruct (callersOf _ _ _).
  - destruct (visit_edges_step d q1 q2 node hops (std_sort caller_less (callersOf isValidUtf8 g node)) (popped queue (ns_stops st) st))
      as (st' & q2' & E & Hi & Hgr & Hp & Hd); try done; [by apply inv_pop|intros e; by rewrite std_sort_perm|].
    exists st', q2'. split_and!.
    + eapply inv_finish; [done|by apply Hgr|]. unfold node_done. rewrite decide_True by lia. intros e He. apply Hd. by rewrite std_sort_perm.
    + rewrite Hp. unfold still_pending. rewrite Hq'. done.
    + intros fuel. unfold popped in E. by rewrite E.
Qed.

Lemma nearest_loop_ends fuel d q1 q2 st :
  nearest_inv d q1 q2 None st -> still_pending st <= fuel ->
  exists st' d', nearest_loop isValidUtf8 g v fuel maxDepth st = Some st' /\ nearest_inv d' [] [] None st'.
Proof.
  revert d q1 q2 st. induction fuel as [|fuel IH]; intros d q1 q2 st Hinv Hf.
  - pose proof (ni_queue _ _ _ _ _ Hinv) as Hq. unfold still_pending in Hf.
    destruct q1 as [|u q1]; [|rewrite Hq in Hf; cbn in Hf; lia]. destruct q2 as [|u q2]; [|rewrite Hq in Hf; cbn in Hf; lia].
    exists st, d. by split.
  - assert (Hlevel : exists d' q1' q2', nearest_inv d' q1' q2' None st /\ (q1' = [] -> q2' = [])).
    { destruct q1 as [|u q1]; [destruct q2 as [|u q2]|].
      - by exists d, [], [].
      - exists (S d), (u :: q2), []. split; [by apply inv_shift|done].
      - by exists d, (u :: q1), q2. }
    destruct Hlevel as (d' & [|u q1'] & q2' & Hi & Hq2).
    + rewrite Hq2 in Hi by done. exists st, d'. split; [|done]. cbn [nearest_loop]. by rewrite (ni_queue _ _ _ _ _ Hi).
    + destruct (expand_level d' u q1' q2' st Hi) as (st' & q3 & Hi' & Hp & E). rewrite E. eapply IH; [done|lia].
Qed.

(** ** What the last state holds *)

Lemma finished_reaches d st u hops :
  nearest_inv d [] [] None st -> climbs u hops ->
  (N.of_nat (length hops) <= maxDepth)%N \/ has_stop (ns_stops st) DepthLimit = false -> u ∈ ns_visited st.
Proof.
  intros [I1 I2 I3 I4 I5 I6 I7 I8 I9 I10 I11]. induction 1 as [t Ht|u hops e Hc IH He Hi]; intros Hb; [by apply I3|].
  cbn [length] in Hb. assert (Hv : u ∈ ns_visited st) by (apply IH; destruct Hb; [left; lia|by right]).
  destruct (I6 u Hv) as (h & Ht & _ & Hmin). specialize (Hmin hops Hc).
  assert (Hd : node_done st u h) by (apply I10; (done || set_solver)). unfold node_done in Hd. case_decide as Hlt.
  - specialize (Hd e He). unfold edge_done in Hd. by rewrite Hi in Hd.
  - destruct Hb as [Hb|Hb]; [lia|]. destruct Hd as [?|Hn]; [congruence|]. rewrite Hn in He. by apply not_elem_of_nil in He.
Qed.

Lemma finished_catches d st u hops e scope :
  nearest_inv d [] [] None st -> climbs u hops -> e ∈ callersOf isValidUtf8 g u -> innermost e = Some scope ->
  (N.of_nat (length hops) < maxDepth)%N \/ has_stop (ns_stops st) DepthLimit = false ->
  exists c hops', c ∈ ns_catches st /\ nc_hops c = hop_of_edge e :: hops' /\ length hops' <= length hops.
Proof.
  intros Hinv Hc He Hs Hb. assert (Hv : u ∈ ns_visited st) by (eapply finished_reaches; [done..|destruct Hb; [left; lia|by right]]).
  destruct Hinv as [I1 I2 I3 I4 I5 I6 I7 I8 I9 I10 I11]. destruct (I6 u Hv) as (h & Ht & _ & Hmin). specialize (Hmin hops Hc).
  assert (Hd : node_done st u h) by (apply I10; (done || set_solver)). unfold node_done in Hd. case_decide as Hlt.
  - specialize (Hd e He). unfold edge_done in Hd. rewrite Hs in Hd. destruct Hd as (c & ? & ?). by exists c, h.
  - destruct Hb as [Hb|Hb]; [lia|]. destruct Hd as [?|Hn]; [congruence|]. rewrite Hn in He. by apply not_elem_of_nil in He.
Qed.

End Walk.

(** ** The start *)

Lemma seed_targets_spec (targets l : list bytes) st :
  (forall u, u ∈ l -> u ∈ targets) -> ns_parent st = ∅ -> ns_catches st = [] -> ns_stops st = 0%N ->
  (exists q, ns_queue st = (fun u => (u, 0%N)) <$> q /\ (forall u, u ∈ q -> u ∈ targets)) ->
  (forall u, u ∈ ns_visited st <-> (u, 0%N) ∈ ns_queue st) ->
  let st' := foldl seed_target st l in
  ns_parent st' = ∅ /\ ns_catches st' = [] /\ ns_stops st' = 0%N /\ length (ns_queue st') <= length (ns_queue st) + length l /\
  (exists q, ns_queue st' = (fun u => (u, 0%N)) <$> q /\ (forall u, u ∈ q -> u ∈ targets)) /\
  (forall u, u ∈ ns_visited st' <-> u ∈ l \/ u ∈ ns_visited st) /\
  (forall u, u ∈ ns_visited st' <-> (u, 0%N) ∈ ns_queue st').
Proof.
  cbv zeta. revert st. induction l as [|t l IH]; intros st Hl Hp Hc Hs (q & Hq & Hqt) Hv; cbn [foldl].
  { split_and!; try done; [cbn; lia|by exists q|set_solver]. }
  set (st1 := seed_target st t). assert (Hst1 : st1 = seed_target st t) by done. unfold seed_target in Hst1.
  destruct (decide (t ∈ ns_visited st)) as [Hin|Hin].
  - subst st1. rewrite Hst1. destruct (IH st) as (H1 & H2 & H3 & H4 & H5 & H6 & H7); try done; [set_solver|by exists q|].
    split_and!; try done; [cbn; lia|]. intros u. rewrite H6. set_solver.
  - rewrite Hst1 in *. clear st1 Hst1. match goal with |- context [foldl _ ?x l] => set (st1 := x) end.
    destruct (IH st1) as (H1 & H2 & H3 & H4 & H5 & H6 & H7); try done.
    + set_solver.
    + exists (q ++ [t]). cbn. rewrite Hq, fmap_app. split; [done|]. set_solver.
    + intros u. cbn. rewrite elem_of_union, elem_of_singleton, elem_of_app, Hv, list_elem_of_singleton. naive_solver.
    + split_and!; try done; [cbn in *; rewrite length_app in H4; cbn in H4; lia|]. intros u. rewrite H6. cbn. set_solver.
Qed.

Lemma seeds_inv isValidUtf8 g v targets maxDepth :
  exists q, nearest_inv isValidUtf8 g v targets maxDepth 0 q [] None (seed_targets targets) /\
    length (ns_queue (seed_targets targets)) <= length targets.
Proof.
  destruct (seed_targets_spec targets targets (MkNState ∅ ∅ [] 0 [])) as (H1 & H2 & H3 & H4 & (q & H5 & H5') & H6 & H7);
    try done; [exists []; split; [done|set_solver]|cbn; set_solver|].
  fold (seed_targets targets) in *. exists q. split; [|done].
  assert (Hv : forall u, u ∈ ns_visited (seed_targets targets) <-> u ∈ targets) by (intros u; rewrite H6; cbn; set_solver).
  assert (Hq : forall u, u ∈ ns_visited (seed_targets targets) -> u ∈ q).
  { intros u Hu. apply H7 in Hu. rewrite H5 in Hu. by apply list_elem_of_fmap in Hu as (? & [= ->] & ?). }
  assert (Hroot : forall u, u ∈ targets -> tree targets (ns_parent (seed_targets targets)) u []).
  { intros u Hu. apply tree_root; [done|]. by rewrite H1. }
  split.
  - split; [lia|done].
  - rewrite H5. cbn. by rewrite app_nil_r.
  - intros t Ht. by apply Hv.
  - intros u Hu%Hv. done.
  - intros u [p Hp]. by rewrite H1 in Hp.
  - intros u Hu%Hv. exists []. split_and!; [auto|by constructor|cbn; lia].
  - intros u Hu. split; [by apply Hv, H5'|]. intros h Hh. by rewrite (tree_fun _ _ _ _ _ Hh (Hroot u (H5' u Hu))).
  - by intros u ?%not_elem_of_nil.
  - intros u h Hc Hl. apply Hv. destruct Hc; [done|cbn in Hl; lia].
  - intros u h Hu Hnq. by destruct (Hnq (Hq u Hu)).
  - rewrite H2. by intros c ?%not_elem_of_nil.
Qed.

Lemma seeds_pending g targets :
  length (ns_queue (seed_targets targets)) <= length targets ->
  still_pending g (seed_targets targets) <= length targets + table_size (interner_ g).
Proof.
  intros Hl. unfold still_pending. assert (size (table_texts g) <= table_size (interner_ g)).
  { unfold table_texts. etrans; [apply size_list_to_set_le|]. by rewrite !length_fmap, length_seq. }
  assert (size (table_texts g ∖ ns_visited (seed_targets targets)) <= size (table_texts g)) by (apply subseteq_size; set_solver).
  lia.
Qed.

#[local] Instance nearest_less_weak : StrictWeak nearest_less.
Proof.
  apply (strict_weak_of_key (fun c => (nc_framesFromTarget c, (nc_pathSegment c, nc_callSite c)))
           (lex_cmp N.compare (lex_cmp (list_cmp bytes_cmp) bytes_cmp))).
  intros a b. unfold nearest_less, lex_cmp. cbn [fst snd].
  replace (nc_framesFromTarget a =? nc_framesFromTarget b)%N with (bool_decide (nc_framesFromTarget a = nc_framesFromTarget b))
    by (case_bool_decide; symmetry; [by apply N.eqb_eq|by apply N.eqb_neq]).
  apply ltb_of_chain; [apply _|]. change (match list_cmp bytes_cmp ?x ?y with Lt => true | _ => false end) with (ltb_of (list_cmp bytes_cmp x y)).
  apply ltb_of_chain; [apply _|]. done.
Qed.

Lemma nearest_less_frames a b : no_less_before nearest_less a b -> (nc_framesFromTarget a <= nc_framesFromTarget b)%N.
Proof.
  unfold no_less_before, nearest_less. destruct (N.eqb_spec (nc_framesFromTarget b) (nc_framesFromTarget a)); cbn; [lia|].
  rewrite N.ltb_ge. lia.
Qed.

(** C18. The search for the nearest catches ends, and its list is exact: every entry is a call
    under a try block, with its innermost scope, above a shortest chain of calls under none
    that leads down to the function; every such call above a chain shorter than the depth
    limit has an entry whose chain is no longer, and when the result says it is complete
    the limit cut nothing off; the entries come nearest first.  The callers must be known
    by their own names, not as the display name of another function. *)
Theorem nearest_catches_exact `{!StdSort} (isValidUtf8 : bytes -> bool) (g : CallGraph) (v : ContextView)
    (functionName : bytes) (maxDepth : N) :
  let targets := nearest_targets isValidUtf8 g functionName in
  cg_ok g ->
  (forall t, t ∈ targets -> names_itself isValidUtf8 g t) ->
  (forall u e, e ∈ callersOf isValidUtf8 g u -> names_itself isValidUtf8 g (callerUsr e)) ->
  exists r, queryNearestCatches isValidUtf8 g v functionName maxDepth = Some r /\
    (forall c, c ∈ nr_catches r -> sound_catch isValidUtf8 g v targets maxDepth c) /\
    (forall u hops e scope, climbs isValidUtf8 g v targets u hops -> e ∈ callersOf isValidUtf8 g u ->
       innermost v e = Some scope -> (N.of_nat (length hops) < maxDepth)%N \/ nr_complete r = true ->
       exists c hops', c ∈ nr_catches r /\ nc_hops c = hop_of_edge e :: hops' /\ length hops' <= length hops) /\
    StronglySorted (fun a b => (nc_framesFromTarget a <= nc_framesFromTarget b)%N) (nr_catches r).
Proof.
  intros targets Hg Ht Hc. unfold queryNearestCatches. destruct (negb (_ || _)) eqn:Ek.
  - eexists. split; [done|]. cbn [nr_catches]. split; [by intros c ?%not_elem_of_nil|]. split; [|constructor].
    intros u hops e scope Hu He _ _. exfalso. apply negb_true_iff, orb_false_iff in Ek as [_ Ek%negb_false_iff%bool_decide_eq_true].
    assert (Hnone : forall e, e ∉ callersOf isValidUtf8 g functionName).
    { intros e'. unfold callersOf. unfold usrsForName in Ek. apply fmap_nil_inv in Ek. rewrite Ek. apply not_elem_of_nil. }
    assert (Hu' : u = functionName).
    { clear He. induction Hu as [t Hin|u hops e' _ -> He' _].
      - unfold targets, nearest_targets in Hin. rewrite Ek, merge_sort_Permutation in Hin. by apply list_elem_of_singleton in Hin.
      - by destruct (Hnone e'). }
    subst u. by apply (Hnone e).
  - fold targets. destruct (seeds_inv isValidUtf8 g v targets maxDepth) as (q & Hi & Hl). apply (seeds_pending g) in Hl.
    destruct (nearest_loop_ends isValidUtf8 g v targets maxDepth Hg Ht Hc _ _ _ _ _ Hi Hl) as (st & d & -> & Hfin).
    eexists. split; [done|]. cbn [nr_catches nr_complete]. split_and!.
    + intros c. rewrite std_sort_perm. apply (ni_sound _ _ _ _ _ _ _ _ _ _ Hfin).
    + intros u hops e scope Hu He Hs Hb. destruct (finished_catches isValidUtf8 g v targets maxDepth Hg Ht Hc d st u hops e scope Hfin Hu He Hs) as (c & h & Hcc & ? & ?).
      { destruct Hb as [?|E%N.eqb_eq]; [by left|right]. by rewrite E. }
      exists c, h. by rewrite std_sort_perm.
    + eapply StronglySorted_mono; [apply nearest_less_frames|]. apply std_sort_sorted, _.
Qed.

(** ** Examples *)

(** [main] calls [api] under a try block and [api] calls [work] under none. *)
Definition guarded_main : ControlFlowIndex :=
  addCallSiteContext
    (MkContext (str "main") (str "api") (str "m:1") [] [] [] [MkScope (str "m:0") (str "main") [MkHandler [] true (str "m:2") [] false] 0] [] NoSpec false [])
    empty_index.

Definition nearest_work : option NearestCatchResult :=
  @queryNearestCatches stable_std_sort valid_utf8b chain_graph (resident valid_utf8b guarded_main) (str "work") 5.

#[local] Instance names_itself_dec isValidUtf8 g u : Decision (names_itself isValidUtf8 g u).
Proof.
  refine (cast_if (decide (Forall (fun id => resolve (interner_ g) id = u) (resolveUsrIds isValidUtf8 g u))));
    unfold names_itself; by rewrite <- Forall_forall.
Defined.

(** Every caller is interned, so a check of the table is a check of every caller. *)
Lemma callers_named isValidUtf8 g :
  cg_ok g -> Forall (fun s => names_itself isValidUtf8 g s) (elements (table_texts g)) ->
  forall u e, e ∈ callersOf isValidUtf8 g u -> names_itself isValidUtf8 g (callerUsr e).
Proof.
  intros Hg H u e He. eapply Forall_forall; [exact H|]. by eapply elem_of_elements, caller_in_table.
Qed.

Lemma nearest_catches_exact_witness :
  exists r, nearest_work = Some r /\ length (nr_catches r) = 1 /\ nr_complete r = true /\
    (forall c, c ∈ nr_catches r -> sound_catch valid_utf8b chain_graph (resident valid_utf8b guarded_main)
       (nearest_targets valid_utf8b chain_graph (str "work")) 5 c) /\
    StronglySorted (fun a b => (nc_framesFromTarget a <= nc_framesFromTarget b)%N) (nr_catches r).
Proof.
  destruct (@nearest_catches_exact stable_std_sort valid_utf8b chain_graph (resident valid_utf8b guarded_main) (str "work") 5)
    as (r & E & Hs & _ & Ho).
  - apply chain_graph_ok.
  - apply Forall_forall. by_computation.
  - apply callers_named; [apply chain_graph_ok|by_computation].
  - exists r. split; [exact E|]. vm_compute in E. injection E as <-. split; [reflexivity|]. split; [reflexivity|]. by split.
Defined.

(** [T] is called by a function recorded only as [N]; a registered function [u1] displayed
    as [N] calls [w] and is called by it; [x] calls [w] under a try block. *)
Definition renamed_graph : CallGraph :=
  build [AddNode (MkNode (str "N") [] 0 false false [] (str "u1")) [];
         AddEdge (direct (str "N") (str "T") (str "t:1")) [];
         AddEdge (direct (str "w") (str "u1") (str "n:1")) [];
         AddEdge (direct (str "u1") (str "w") (str "w:1")) [];
         AddEdge (direct (str "x") (str "w") (str "w:2")) []] empty_graph.

Definition guarded_x : ControlFlowIndex :=
  addCallSiteContext
    (MkContext (str "x") (str "w") (str "w:2") [] [] [] [MkScope (str "x:0") (str "x") [MkHandler [] true (str "x:2") [] false] 0] [] NoSpec false [])
    empty_index.

(** When a caller's name is the display name of another function, the callers of that
    other function are taken for its own, and the chain down from a catch need not reach
    the target: on this graph it goes round between [w] and [u1], and the query never
    returns.  A chain that has not ended after as many hops as there are parents never does. *)
Theorem nearest_catches_can_hang :
  cg_ok renamed_graph /\
  @queryNearestCatches stable_std_sort valid_utf8b renamed_graph (resident valid_utf8b guarded_x) (str "T") 10 = None /\
  forall parent u, chain_hops (size parent) parent u = None -> forall fuel, chain_hops fuel parent u = None.
Proof.
  split; [apply build_ok; vm_compute; discriminate|]. split; [vm_compute; reflexivity|]. apply chain_diverges.
Qed.
