(* ===== verification/OracleTheorems.v ===== *)
(** The oracle over the whole program: its reports follow the rules of propagation, its
    answers do not depend on the form of the index, and one verdict says less than its
    documentation. *)

From S2P Require Import Prelude Registrations Utf8 StringInterner CallGraph CallGraphInv CallGraphQuery PathSearch PathSearchCorrect Ordering ControlFlowIndex ControlFlowInv ControlFlowQuery Results Codec SnapshotControlFlow SnapshotControlFlowRoundtrip MappedControlFlow MappedEquiv Oracle OracleCorrect OracleNearest.

(** C17. The report of a path tells the one fate the rules of propagation give a throw of the
    target: a thread entry or a [noexcept] frame ends it, the first handler in source order
    of the innermost scope that takes the type gets it and either keeps it or hands it on,
    an unindexed call, an asynchronous task or an unevaluated specification leaves it
    unknown, and past the entry point it is uncaught.  The report names the place, the
    scope and handler, and every handler that rethrew, in order. *)
Theorem throw_outcome_exact (isValidUtf8 : bytes -> bool) (g : CallGraph) (v : ContextView) (exc : bytes) (p : list PathHop) :
  p <> [] ->
  exists e r, fate isValidUtf8 g v exc p e r /\ reports (propagate isValidUtf8 g v (annotatePath v p) exc) e r /\
    forall e' r', fate isValidUtf8 g v exc p e' r' -> e' = e /\ r' = r.
Proof.
  intros Hp. destruct (propagate_fate isValidUtf8 g v exc p Hp) as (e & r & Hf & Hr). exists e, r.
  split_and!; [done..|]. intros e' r' Hf'. by eapply fate_fun.
Qed.

(** * Both forms of the index *)

Section Forms.
Context `{!StdSort} `{!UnorderedIter} (isValidUtf8 : bytes -> bool) (g : CallGraph) (v v' : ContextView).
Context (Ha : answers_alike v v').

Lemma same_hop hop : contextForHop v hop = contextForHop v' hop.
Proof. unfold contextForHop. apply Ha. Qed.

Lemma same_annotation p : annotatePath v p = annotatePath v' p.
Proof.
  unfold annotatePath. assert (omap (contextForHop v) p = omap (contextForHop v') p) as -> by (induction p as [|hop p IH]; cbn; [done|by rewrite same_hop, IH]).
  done.
Qed.

Lemma same_walk exc hops info : walk_out isValidUtf8 g v exc hops info = walk_out isValidUtf8 g v' exc hops info.
Proof.
  revert info. induction hops as [|hop hops IH]; intros info; cbn [walk_out]; [done|]. unfold unwind_frame. rewrite same_hop.
  destruct (contextForHop v' hop) as [ctx|]; [|done]. destruct (walk_scopes _ _ _ _ _) as [info' []]; [done|]. by rewrite IH.
Qed.

Lemma same_propagation exc p : propagate isValidUtf8 g v (annotatePath v p) exc = propagate isValidUtf8 g v' (annotatePath v' p) exc.
Proof.
  rewrite same_annotation. unfold propagate. destruct (last _) as [into|]; [|done].
  destruct Ha as (_ & _ & _ & _ & _ & _ & Hn & _). by rewrite Hn, same_walk.
Qed.

Lemma same_protection fn exc entries limits c :
  queryExceptionProtection isValidUtf8 g v fn exc entries limits c = queryExceptionProtection isValidUtf8 g v' fn exc entries limits c.
Proof.
  unfold queryExceptionProtection. cbv zeta. set (ps := paths _).
  assert ((fun path => propagate isValidUtf8 g v (annotatePath v path) exc) <$> ps =
          (fun path => propagate isValidUtf8 g v' (annotatePath v' path) exc) <$> ps) as -> by (apply list_fmap_ext; intros; apply same_propagation).
  done.
Qed.

Lemma same_contexts_query fn entries limits :
  queryAllPathContexts isValidUtf8 g v fn entries limits = queryAllPathContexts isValidUtf8 g v' fn entries limits.
Proof. unfold queryAllPathContexts. cbv zeta. f_equal. apply list_fmap_ext. intros. apply same_annotation. Qed.

Lemma same_call_site site : queryCallSite v site = queryCallSite v' site.
Proof. unfold queryCallSite. destruct Ha as [Hs _]. by rewrite Hs. Qed.

Lemma same_visit node depth st e : visit_caller isValidUtf8 g v node depth st e = visit_caller isValidUtf8 g v' node depth st e.
Proof. unfold visit_caller. by rewrite same_hop. Qed.

Lemma same_visits node depth es st : visit_edges isValidUtf8 g v node depth es st = visit_edges isValidUtf8 g v' node depth es st.
Proof.
  revert st. induction es as [|e es IH]; intros st; cbn [visit_edges]; [done|]. rewrite same_visit. destruct (visit_caller _ _ _ _ _ _ _); cbn; auto.
Qed.

Lemma same_nearest fn depth : queryNearestCatches isValidUtf8 g v fn depth = queryNearestCatches isValidUtf8 g v' fn depth.
Proof.
  unfold queryNearestCatches. destruct (negb _); [done|]. cbv zeta. set (fuel := length _ + _). set (st := seed_targets _). clearbody fuel st.
  assert (Hl : forall st, nearest_loop isValidUtf8 g v fuel depth st = nearest_loop isValidUtf8 g v' fuel depth st); [|by rewrite Hl].
  induction fuel as [|fuel IH]; intros st'; cbn [nearest_loop]; [done|]. destruct (ns_queue st') as [|[node k] q]; [done|].
  destruct (depth <=? k)%N; [apply IH|]. rewrite same_visits. destruct (visit_edges _ _ _ _ _ _ _); cbn; auto.
Qed.
End Forms.

(** A server that maps a snapshot and leaves the contexts in the file gives the same
    answer to every question to the oracle as one that loads the section for change. *)
Theorem oracle_same_on_both_forms `{!StdSort} `{!UnorderedIter} (isValidUtf8 : bytes -> bool) cast_raii cast_noexcept
    (outside : bytes -> nat -> N) (x : ControlFlowIndex) (g : CallGraph) :
  cf_casts_ok cast_raii cast_noexcept -> cf_ok x -> index_fits isValidUtf8 x ->
  exists m y, loadMapped isValidUtf8 cast_raii (emitControlFlow x) = Some m /\
    loadControlFlow isValidUtf8 cast_raii cast_noexcept (emitControlFlow x) = Some y /\
    let vm := mapped isValidUtf8 cast_noexcept outside m in
    let vy := resident isValidUtf8 y in
    (forall site, queryCallSite vm site = queryCallSite vy site) /\
    (forall f exc entries limits c, queryExceptionProtection isValidUtf8 g vm f exc entries limits c =
                                    queryExceptionProtection isValidUtf8 g vy f exc entries limits c) /\
    (forall f exc entries limits c, queryThrowPropagation isValidUtf8 g vm f exc entries limits c =
                                    queryThrowPropagation isValidUtf8 g vy f exc entries limits c) /\
    (forall f entries limits, queryAllPathContexts isValidUtf8 g vm f entries limits = queryAllPathContexts isValidUtf8 g vy f entries limits) /\
    (forall f depth, queryNearestCatches isValidUtf8 g vm f depth = queryNearestCatches isValidUtf8 g vy f depth).
Proof.
  intros Hcasts Hx Hfit. destruct (mapped_loaded isValidUtf8 cast_raii cast_noexcept outside x Hcasts Hx Hfit) as [Hm Ha].
  exists (mapped_of x), (reloaded x). split; [done|]. split; [destruct Hcasts; by apply section_read, control_flow_read|]. cbv zeta.
  split_and!; intros; [by apply same_call_site|by apply same_protection|by apply same_protection|by apply same_contexts_query|by apply same_nearest].
Qed.

(** * Examples *)

(** [main] guards its call of [api], which calls [work] and may throw. *)
Definition guarded_chain : ControlFlowIndex :=
  addCallSiteContext
    (MkContext (str "main") (str "api") (str "m:1") [] [] []
       [MkScope (str "m:0") (str "main") [MkHandler (str "const std::exception &") false (str "m:2") [] false] 0] [] NoSpec false [])
    (addCallSiteContext (MkContext (str "api") (str "work") (str "a:1") [] [] [] [] [] NoSpec false [])
      (addCallSiteContext
         (MkContext (str "main") (str "work") (str "m:2") [] [] []
            [MkScope (str "m:3") (str "main") [MkHandler (str "std::logic_error") false (str "m:4") [] false;
                                               MkHandler (str "std::runtime_error &") false (str "m:5") [] false] 0] [] NoSpec false [])
         empty_index)).

Definition guarded_view : ContextView := resident valid_utf8b guarded_chain.

Definition work_protection (indexComplete : bool) : ExceptionPathResult :=
  @queryExceptionProtection canonical_iter valid_utf8b chain_graph guarded_view (str "work") (str "std::range_error") [str "main"] default_limits indexComplete.

Lemma throw_outcome_exact_witness :
  exists e r, fate valid_utf8b chain_graph guarded_view (str "std::range_error") [hop (str "main") (str "work") (str "m:2")] e r /\
    outcome_of e = Caught.
Proof.
  destruct (throw_outcome_exact valid_utf8b chain_graph guarded_view (str "std::range_error") [hop (str "main") (str "work") (str "m:2")])
    as (e & r & Hf & (Ho & _) & _); [done|]. exists e, r. split; [exact Hf|]. rewrite <- Ho. vm_compute. reflexivity.
Defined.


Lemma oracle_same_on_both_forms_witness :
  exists m, loadMapped valid_utf8b raii_of_code (emitControlFlow saved_index) = Some m /\
    exists y, loadControlFlow valid_utf8b raii_of_code noexcept_of_code (emitControlFlow saved_index) = Some y /\
      queryCallSite (mapped valid_utf8b noexcept_of_code (fun _ _ => 0%N) m) (str "a.cpp:9:1") = queryCallSite (resident valid_utf8b y) (str "a.cpp:9:1").
Proof.
  destruct (@oracle_same_on_both_forms stable_std_sort canonical_iter valid_utf8b raii_of_code noexcept_of_code (fun _ _ => 0%N) saved_index chain_graph
    cf_codes_ok saved_index_ok saved_index_fits) as (m & y & Hm & Hy & Hs & _).
  exists m. split; [exact Hm|]. exists y. split; [exact Hy|]. apply Hs.
Defined.

(** Every frame above [work] ends in [main], which is [noexcept]. *)
Definition barrier_chain : ControlFlowIndex :=
  addCallSiteContext (MkContext (str "main") (str "api") (str "m:1") [] [] [] [] [] Noexcept false [])
    (addCallSiteContext (MkContext (str "api") (str "work") (str "a:1") [] [] [] [] [] NoSpec false [])
      (addCallSiteContext (MkContext (str "main") (str "work") (str "m:2") [] [] [] [] [] Noexcept false []) empty_index)).

(** A verdict is [unknown] although the outcome of every path is known: when every path
    terminates but the index does not cover every unit, the verdict is not an observed one
    but [unknown], which is documented for results without paths or with unknown outcomes
    only. *)
Theorem demoted_barrier_is_unknown :
  let r := @queryExceptionProtection canonical_iter valid_utf8b chain_graph (resident valid_utf8b barrier_chain) (str "work") []
             [str "main"] default_limits false in
  er_protection r = UnknownProtection /\ er_unknownCount r = 0 /\ er_terminatesCount r = length (er_paths r) /\ er_paths r <> [] /\
  er_protection (@queryExceptionProtection canonical_iter valid_utf8b chain_graph (resident valid_utf8b barrier_chain) (str "work") []
                   [str "main"] default_limits true) = NoexceptBarrier.
Proof. vm_compute. by split_and!. Qed.
