(* ===== verification/SemanticContext.v ===== *)
(** Context signatures (src/impact/SemanticDiff.cpp): what the exception and lock tools
    read at a call site, as text, and the table that answers for an edge in one lookup what
    the control-flow index would choose by a search.

    The signature table answers what the control-flow index would choose: for every edge
    [forEdge] gives the signature of the context [contextForEdge] finds, whatever order the
    hash table is walked in. *)

From S2P Require Import Prelude Registrations Utf8 StringInterner CallGraph CallGraphInv Ordering Query ControlFlowIndex ControlFlowInv ControlFlowQuery.

(** * Signatures *)

Definition noexceptSpecToString (spec : NoexceptSpec) : bytes :=
  match spec with
  | NoSpec => str "none"
  | Noexcept => str "noexcept"
  | NoexceptFalse => str "noexcept(false)"
  | ThrowNone => str "throw()"
  | UnknownSpec => str "unknown"
  end.

(** [if (i) s += sep;] before every element but the first. *)
Fixpoint join_with (sep : bytes) (parts : list bytes) : bytes :=
  match parts with
  | [] => []
  | [p] => p
  | p :: rest => p ++ sep ++ join_with sep rest
  end.

Definition handler_text (h : CatchHandlerInfo) : bytes :=
  (if isCatchAll h then str "..." else caughtType h) ++ (if rethrows h then str "!" else []).

Definition guard_text (g : ConditionalGuard) : bytes :=
  conditionText g ++ (if inTrueBranch g then str "#T" else str "#F") ++ (if isAssertion g then str "A" else []).

Definition live_locks (ctx : CallSiteContext) : list bytes :=
  merge_sort bytes_le (omap (fun l => if decide (raiiKind l = Lock) then Some (typeName l) else None) (liveRaiiLocals ctx)).

Definition contextSignature (ctx : CallSiteContext) : bytes :=
  (match enclosingTryCatches ctx with [] => str "protected=0" | _ :: _ => str "protected=1" end) ++
  str ";handlers=" ++ join_with (str "|") ((fun scope => join_with (str ",") (handler_text <$> handlers scope)) <$> enclosingTryCatches ctx) ++
  str ";noexcept=" ++ noexceptSpecToString (callerNoexcept ctx) ++
  (if insideCatchBlock ctx then str ";inCatch=1" else str ";inCatch=0") ++
  str ";locks=" ++ join_with (str ",") (live_locks ctx) ++
  str ";guards=" ++ join_with (str "|") (guard_text <$> enclosingGuards ctx).

(** * The table *)

Abbreviation SigKey := (SId * SId * SId)%type.

Record Choice := MkChoice {
  cho_callee : SId;
  cho_tuPath : SId;
  cho_callerName : SId;
  cho_signature : N
}.

Definition kAnyCallee : SId := (two32 - 1)%N.
Definition kUnmapped : SId := (two32 - 1)%N.

Record ContextSignatures := MkSignatures {
  sg_strings : StringInterner;
  sg_signatures : list bytes;
  sg_exact : gmap SigKey Choice;
  sg_fallback : gmap SigKey Choice;
  sg_contexts : nat
}.

Definition beats (t : StringInterner) (a b : Choice) : bool :=
  if negb (cho_callee a =? cho_callee b)%N then bytes_ltb (resolve t (cho_callee a)) (resolve t (cho_callee b))
  else if negb (cho_tuPath a =? cho_tuPath b)%N then bytes_ltb (resolve t (cho_tuPath a)) (resolve t (cho_tuPath b))
  else if negb (cho_callerName a =? cho_callerName b)%N then
    bytes_ltb (resolve t (cho_callerName a)) (resolve t (cho_callerName b))
  else false.

(** [try_emplace], then the better of the two. *)
Definition offer (t : StringInterner) (key : SigKey) (c : Choice) (table : gmap SigKey Choice) : gmap SigKey Choice :=
  match table !! key with
  | None => <[key := c]> table
  | Some old => if beats t c old then <[key := c]> table else table
  end.

#[global] Instance ContextShape_eq_dec : EqDecision ContextShape.
Proof. solve_decision. Defined.

Definition spec_code (spec : NoexceptSpec) : N :=
  match spec with NoSpec => 0 | Noexcept => 1 | NoexceptFalse => 2 | ThrowNone => 3 | UnknownSpec => 4 end.

Definition shape_tuple (s : ContextShape) : N * N * N * N * bool :=
  (sh_scopeSet s, sh_guardSet s, sh_raiiSet s, spec_code (sh_callerNoexcept s), sh_insideCatchBlock s).

Definition spec_of_code (n : N) : NoexceptSpec :=
  match n with 0 => NoSpec | 1 => Noexcept | 2 => NoexceptFalse | 3 => ThrowNone | _ => UnknownSpec end%N.

#[global] Program Instance ContextShape_countable : Countable ContextShape :=
  inj_countable' shape_tuple (fun '(a, b, c, d, e) => MkShape a b c (spec_of_code d) e) _.
Next Obligation. intros [a b c [] e]; done. Qed.

(** The locals of the walk over the stored contexts. *)
Record SigBuild := MkSigBuild {
  sb_strings : StringInterner;
  sb_remap : list SId;
  sb_shapeIds : gmap ContextShape N;
  sb_shapes : list ContextShape;
  sb_exact : gmap SigKey Choice;
  sb_contexts : nat
}.

Section Build.
(** The index in either of its forms: its records in order, its strings, and the context a
    shape stands for; the order in which a hash map of choices is walked. *)
Variable v : ContextView.
Variable string : SId -> bytes.
Variable contextOf : ContextShape -> CallSiteContext.
Variable table_iter : gmap SigKey Choice -> list (SigKey * Choice).

(** [own(id)]: the table's own id of a string of the index. *)
Definition own (noTu : SId) (id : SId) (st : StringInterner * list SId) : StringInterner * list SId * SId :=
  if (id =? kNoString)%N then (st, noTu)
  else
    let remap := if (N.of_nat (length st.2) <=? id)%N then resize (S (N.to_nat id)) kUnmapped st.2 else st.2 in
    match remap !! N.to_nat id with
    | Some r =>
        if (r =? kUnmapped)%N then
          let '(t, i) := intern st.1 (string id) in (t, <[N.to_nat id := i]> remap, i)
        else (st.1, remap, r)
    | None => (st.1, remap, 0%N)
    end.

(** [shapeIds.emplace(shape, shapes.size())]; a fresh shape is kept. *)
Definition shape_slot (shape : ContextShape) (ids : gmap ContextShape N) (shapes : list ContextShape)
  : gmap ContextShape N * list ContextShape * N :=
  match ids !! shape with
  | Some i => (ids, shapes, i)
  | None => let i := u32 (N.of_nat (length shapes)) in (<[shape := i]> ids, shapes ++ [shape], i)
  end.

(** One record of the walk. *)
Definition add_record (noTu : SId) (st : SigBuild) (r : ContextRecord) : SigBuild :=
  let '(ids, shapes, sig) := shape_slot (rec_shape r) (sb_shapeIds st) (sb_shapes st) in
  let '(s1, callee) := own noTu (rec_calleeUsr r) (sb_strings st, sb_remap st) in
  let '(s2, tu) := own noTu (rec_tuPath r) s1 in
  let '(s3, name) := own noTu (rec_callerName r) s2 in
  let c := MkChoice callee tu name sig in
  let '(s4, site) := own noTu (rec_callSite r) s3 in
  let '(s5, byUsr) := own noTu (rec_callerUsr r) s4 in
  let '(s6, byName) := own noTu (rec_callerName r) s5 in
  let exact1 := offer s6.1 (site, byUsr, callee) c (sb_exact st) in
  let exact2 := if (byUsr =? byName)%N then exact1 else offer s6.1 (site, byName, callee) c exact1 in
  MkSigBuild s6.1 s6.2 ids shapes exact2 (S (sb_contexts st)).

Definition signatures_walk : SigBuild :=
  let '(t, noTu) := intern empty_interner [] in
  forEachContextRecord_in v (add_record noTu) (MkSigBuild t [] ∅ [] ∅ 0).

Definition buildSignatures : ContextSignatures :=
  let st := signatures_walk in
  let fallback := foldl (fun table '(key, c) => offer (sb_strings st) (key.1.1, key.1.2, kAnyCallee) c table) ∅ (table_iter (sb_exact st)) in
  MkSignatures (sb_strings st) ((fun shape => contextSignature (contextOf shape)) <$> sb_shapes st) (sb_exact st) fallback (sb_contexts st).
End Build.

Definition signature_at (sg : ContextSignatures) (c : Choice) : bytes := default [] (sg_signatures sg !! N.to_nat (cho_signature c)).

Definition forEdge (sg : ContextSignatures) (callSite callerUsr calleeUsr : bytes) : bytes :=
  match find (sg_strings sg) callSite, find (sg_strings sg) callerUsr with
  | Some site, Some caller =>
      match (callee ← find (sg_strings sg) calleeUsr; sg_exact sg !! (site, caller, callee)) with
      | Some c => signature_at sg c
      | None =>
          match sg_fallback sg !! (site, caller, kAnyCallee) with
          | Some c => signature_at sg c
          | None => str "absent"
          end
      end
  | _, _ => str "absent"
  end.

Section Exact.
Variable x : ControlFlowIndex.
Hypothesis Hx : cf_ok x.

(** * Records as texts *)

Definition text (id : SId) : bytes := if (id =? kNoString)%N then [] else stringOf x id.

Definition t_callee (r : ContextRecord) : bytes := text (rec_calleeUsr r).
Definition t_tu (r : ContextRecord) : bytes := text (rec_tuPath r).
Definition t_name (r : ContextRecord) : bytes := text (rec_callerName r).
Definition t_site (r : ContextRecord) : bytes := text (rec_callSite r).
Definition t_usr (r : ContextRecord) : bytes := text (rec_callerUsr r).

Definition id_ok (id : SId) : Prop := id = kNoString \/ known (cf_interner_ x) id.

Definition rec_ok (r : ContextRecord) : Prop :=
  id_ok (rec_calleeUsr r) /\ id_ok (rec_tuPath r) /\ id_ok (rec_callerName r) /\ id_ok (rec_callSite r) /\ id_ok (rec_callerUsr r).

Lemma record_ok se : stored_ok x se -> rec_ok (record_of se).
Proof. intros []. unfold rec_ok, id_ok. cbn. naive_solver. Qed.

Definition rec_less (a b : ContextRecord) : bool :=
  ltb_of (lex_cmp bytes_cmp (lex_cmp bytes_cmp bytes_cmp) (t_callee a, (t_tu a, t_name a)) (t_callee b, (t_tu b, t_name b))).

#[local] Instance rec_less_weak : StrictWeak rec_less.
Proof.
  apply (strict_weak_of_key (fun r => (t_callee r, (t_tu r, t_name r))) (lex_cmp bytes_cmp (lex_cmp bytes_cmp bytes_cmp))).
  done.
Qed.

(** * The table's own strings *)

Definition allowed : list bytes := [] :: strings_ (cf_interner_ x).

Record own_ok (noTu : SId) (t : StringInterner) (remap : list SId) : Prop := {
  ow_ok : interner_ok t;
  ow_in : forall s, s ∈ strings_ t -> s ∈ allowed;
  ow_no : resolve_opt t noTu = Some [];
  ow_map : forall i r, remap !! i = Some r -> r <> kUnmapped -> resolve_opt t r = Some (stringOf x (N.of_nat i))
}.

Lemma intern_allowed t s t' i :
  interner_ok t -> (forall u, u ∈ strings_ t -> u ∈ allowed) -> s ∈ allowed -> intern t s = (t', i) ->
  interner_ok t' /\ extends t t' /\ resolve_opt t' i = Some s /\ forall u, u ∈ strings_ t' -> u ∈ allowed.
Proof.
  intros Ht Hin Hs E. destruct (find t s) as [j|] eqn:Ef.
  { unfold intern in E. rewrite Ef in E. injection E as <- <-. split_and!; [done|reflexivity|by apply find_resolve|done]. }
  assert (Hnin : s ∉ strings_ t).
  { intros [k Hk]%list_elem_of_lookup. assert (Hr : resolve_opt t (N.of_nat k) = Some s) by (unfold resolve_opt; by rewrite Nat2N.id).
    apply resolve_find in Hr; [congruence|done]. }
  assert (Hroom : room 1 t).
  { unfold room. assert (Hsub : s :: strings_ t ⊆+ allowed).
    { apply NoDup_submseteq; [apply NoDup_cons; split; [done|by apply interner_ok_NoDup]|]. intros u [->|Hu]%elem_of_cons; auto. }
    apply submseteq_length in Hsub. cbn [length allowed] in Hsub. pose proof (cf_ids _ Hx) as Hids. unfold table_size in *. lia. }
  assert (E' := E). apply intern_spec in E as (H1 & H2 & H3 & _); [|done..]. split_and!; [done..|].
  unfold intern, intern_locked in E'. rewrite Ef in E'. injection E' as <- _. cbn. intros u [?| ->%list_elem_of_singleton]%elem_of_app; auto.
Qed.

Lemma text_allowed id : id_ok id -> id <> kNoString -> stringOf x id ∈ allowed.
Proof.
  intros [->|[s Hs]] Hn; [done|]. right. unfold stringOf. rewrite (resolve_of_opt _ _ _ Hs).
  unfold resolve_opt in Hs. by apply list_elem_of_lookup_2 in Hs.
Qed.

Lemma own_spec noTu id t remap t' remap' r :
  own_ok noTu t remap -> id_ok id -> own (stringOf x) noTu id (t, remap) = (t', remap', r) ->
  own_ok noTu t' remap' /\ extends t t' /\ resolve_opt t' r = Some (text id).
Proof.
  intros [O1 O2 O3 O4] Hid. unfold own, text. destruct (N.eqb_spec id kNoString) as [->|Hn].
  { intros [= <- <- <-]. split_and!; [done|reflexivity|done]. }
  cbn [fst snd]. set (rm := if (N.of_nat (length remap) <=? id)%N then resize (S (N.to_nat id)) kUnmapped remap else remap).
  assert (Hrm : forall i q, rm !! i = Some q -> q <> kUnmapped -> resolve_opt t q = Some (stringOf x (N.of_nat i))).
  { intros i q Hq Hu. apply O4; [|done]. unfold rm in Hq. destruct (N.leb_spec (N.of_nat (length remap)) id); [|done].
    destruct (decide (i < length remap)) as [Hi|Hi].
    - rewrite lookup_resize in Hq; [done|lia|done].
    - destruct (decide (i < S (N.to_nat id))) as [Hi'|Hi'].
      + rewrite lookup_resize_new in Hq by lia. congruence.
      + rewrite lookup_resize_old in Hq by lia. done. }
  assert (Hlen : N.to_nat id < length rm).
  { unfold rm. destruct (N.leb_spec (N.of_nat (length remap)) id); [rewrite length_resize|]; lia. }
  destruct (lookup_lt_is_Some_2 rm (N.to_nat id) Hlen) as [q Eq]. rewrite Eq. destruct (N.eqb_spec q kUnmapped) as [->|Hq].
  - destruct (intern t (stringOf x id)) as [t1 i] eqn:Ei. intros [= <- <- <-].
    destruct (intern_allowed t (stringOf x id) t1 i) as (I1 & I2 & I3 & I4); [done|done|by apply text_allowed|done|].
    split_and!; [|done|done]. split; [done|done|by eapply extends_resolve|].
    intros j p Hj Hp. apply list_lookup_insert_Some in Hj as [(<- & <- & _)|(_ & Hj)]; [by rewrite N2Nat.id|].
    eapply extends_resolve; [exact I2|]. by apply Hrm.
  - intros [= <- <- <-]. split_and!; [by split|reflexivity|]. apply Hrm in Eq; [|done]. by rewrite N2Nat.id in Eq.
Qed.

(** * The table of exact choices *)

Definition id_of (t : StringInterner) (s : bytes) : SId := default 0%N (find t s).

Definition choice_of (t : StringInterner) (ids : gmap ContextShape N) (r : ContextRecord) : Choice :=
  MkChoice (id_of t (t_callee r)) (id_of t (t_tu r)) (id_of t (t_name r)) (default 0%N (ids !! rec_shape r)).

Definition interned (t : StringInterner) (r : ContextRecord) : Prop :=
  is_Some (find t (t_callee r)) /\ is_Some (find t (t_tu r)) /\ is_Some (find t (t_name r)) /\
  is_Some (find t (t_site r)) /\ is_Some (find t (t_usr r)).

Definition at_edge (s c : bytes) (r : ContextRecord) : Prop := t_site r = s /\ (t_usr r = c \/ t_name r = c).

Definition at_callee (s c d : bytes) (r : ContextRecord) : Prop := at_edge s c r /\ t_callee r = d.

#[local] Instance at_edge_dec s c r : Decision (at_edge s c r).
Proof. unfold at_edge. apply _. Defined.
#[local] Instance at_callee_dec s c d r : Decision (at_callee s c d r).
Proof. unfold at_callee. apply _. Defined.

Record table_spec (t : StringInterner) (ids : gmap ContextShape N) (exact : gmap SigKey Choice) (P : list ContextRecord) : Prop := {
  ts_interned : forall r, r ∈ P -> interned t r /\ is_Some (ids !! rec_shape r);
  ts_keys : forall i j k, is_Some (exact !! (i, j, k)) -> known t i /\ known t j /\ known t k;
  ts_value : forall s c d i j k, find t s = Some i -> find t c = Some j -> find t d = Some k ->
    exact !! (i, j, k) = choice_of t ids <$> first_least rec_less (filter (at_callee s c d) P)
}.

Section Ids.
Context (t : StringInterner) (Ht : interner_ok t).

Lemma id_of_inj a b : is_Some (find t a) -> is_Some (find t b) -> id_of t a = id_of t b -> a = b.
Proof.
  intros [i Hi] [j Hj]. unfold id_of. rewrite Hi, Hj. cbn. intros ->.
  apply find_resolve in Hi; [|done]. apply find_resolve in Hj; [|done]. congruence.
Qed.

Lemma resolve_id_of a : is_Some (find t a) -> resolve t (id_of t a) = a.
Proof. intros [i Hi]. unfold id_of. rewrite Hi. cbn. by apply resolve_of_opt, find_resolve. Qed.

Lemma id_eq_spec a b : is_Some (find t a) -> is_Some (find t b) -> (id_of t a =? id_of t b)%N = bool_decide (a = b).
Proof.
  intros Ha Hb. case_bool_decide as E; [subst; apply N.eqb_refl|]. apply N.eqb_neq. intros Ei. apply E. by apply id_of_inj.
Qed.

(** Choices compare as the texts they stand for. *)
Lemma beats_spec ids a b : interned t a -> interned t b -> beats t (choice_of t ids a) (choice_of t ids b) = rec_less a b.
Proof.
  intros (A1 & A2 & A3 & _) (B1 & B2 & B3 & _). unfold beats, rec_less, choice_of, lex_cmp. cbn [cho_callee cho_tuPath cho_callerName fst snd].
  rewrite !id_eq_spec, !resolve_id_of by done. do 2 (apply ltb_of_chain; [apply _|]). case_bool_decide as E; [|done].
  rewrite E. cbn. by rewrite bytes_cmp_refl.
Qed.
End Ids.

Lemma interned_extends t t' r : interner_ok t -> interner_ok t' -> extends t t' -> interned t r -> interned t' r.
Proof.
  intros H1 H2 He (A & B & C & D & E).
  assert (Hs : forall s, is_Some (find t s) -> is_Some (find t' s)) by (intros s [i Hi]; exists i; by apply (extends_find t)).
  repeat split; auto.
Qed.

Lemma choice_extends t t' ids ids' r :
  interner_ok t -> interner_ok t' -> extends t t' -> ids ⊆ ids' -> interned t r -> is_Some (ids !! rec_shape r) ->
  choice_of t' ids' r = choice_of t ids r.
Proof.
  intros H1 H2 He Hids ([a A] & [b B] & [c C] & _) [i Hi]. unfold choice_of, id_of.
  rewrite A, B, C, Hi, (extends_find t t' _ _ H1 H2 He A), (extends_find t t' _ _ H1 H2 He B), (extends_find t t' _ _ H1 H2 He C).
  by rewrite (lookup_weaken _ _ _ _ Hi Hids).
Qed.

Lemma first_least_elem {A} (less : A -> A -> bool) l b : first_least less l = Some b -> b ∈ l.
Proof.
  unfold first_least. assert (H : forall best, foldl (pick less) best l = Some b -> best = Some b \/ b ∈ l).
  - induction l as [|c l IH]; intros best; cbn [foldl]; [by left|]. intros [E|?]%IH; [|right; by right].
    destruct best as [a|]; cbn [pick] in E; [destruct (less c a)|]; try (injection E as ->; right; left). by left.
  - intros [?|?]%H; done.
Qed.

(** More strings and shapes change nothing that is already there. *)
Lemma table_extends t t' ids ids' exact P :
  interner_ok t -> interner_ok t' -> extends t t' -> ids ⊆ ids' -> table_spec t ids exact P -> table_spec t' ids' exact P.
Proof.
  intros Ht Ht' He Hids [T1 T2 T3]. split.
  - intros r Hr. destruct (T1 r Hr) as [Hi [k Hk]]. split; [by apply (interned_extends t)|]. exists k. by eapply lookup_weaken.
  - intros i j k (H1 & H2 & H3)%T2. split_and!; by eapply known_extends.
  - intros s c d i j k Hs Hc Hd.
    assert (Hsome : forall r, r ∈ P -> at_callee s c d r -> is_Some (find t s) /\ is_Some (find t c) /\ is_Some (find t d)).
    { intros r Hr [[<- Hc'] <-]. destruct (T1 r Hr) as [(I1 & I2 & I3 & I4 & I5) _]. split_and!; [done| |done]. by destruct Hc' as [<-|<-]. }
    destruct (find t s) as [i'|] eqn:Es, (find t c) as [j'|] eqn:Ec, (find t d) as [k'|] eqn:Ed.
    1:{ rewrite (extends_find t t' s i') in Hs by done. rewrite (extends_find t t' c j') in Hc by done. rewrite (extends_find t t' d k') in Hd by done.
        simplify_eq. rewrite (T3 s c d) by done. destruct (first_least _ _) as [r|] eqn:Er; [|done]. cbn. f_equal.
        apply first_least_elem, list_elem_of_filter in Er as [_ Hr]. destruct (T1 r Hr). symmetry. by apply choice_extends. }
    all: assert (Hnone : filter (at_callee s c d) P = []) by
      (apply elem_of_nil_inv; intros r [Ha Hr]%list_elem_of_filter; destruct (Hsome r Hr Ha) as ([? ?] & [? ?] & [? ?]); congruence).
    all: rewrite Hnone; cbn; destruct (exact !! (i, j, k)) as [ch|] eqn:Ech; [exfalso|done].
    all: destruct (T2 i j k) as ([si Hi] & [sj Hj] & [sk Hk]); [by rewrite Ech|].
    all: apply find_resolve in Hs, Hc, Hd; [|done..].
    all: pose proof (extends_resolve _ _ _ _ He Hi); pose proof (extends_resolve _ _ _ _ He Hj); pose proof (extends_resolve _ _ _ _ He Hk).
    all: simplify_eq; apply resolve_find in Hi, Hj, Hk; congruence.
Qed.

Lemma offer_lookup t key c table k :
  offer t key c table !! k = if decide (k = key) then pick (beats t) (table !! k) c else table !! k.
Proof.
  unfold offer. case_decide as E; [subst k|].
  - destruct (table !! key) as [old|] eqn:Eo; cbn [pick]; [destruct (beats t c old)|]; by rewrite ?lookup_insert_eq.
  - destruct (table !! key) as [old|]; [destruct (beats t c old)|]; by rewrite ?lookup_insert_ne.
Qed.

Definition offered (t : StringInterner) (ids : gmap ContextShape N) (r : ContextRecord) (exact : gmap SigKey Choice) : gmap SigKey Choice :=
  let c := choice_of t ids r in
  let site := id_of t (t_site r) in
  let byUsr := id_of t (t_usr r) in
  let byName := id_of t (t_name r) in
  let exact1 := offer t (site, byUsr, cho_callee c) c exact in
  if (byUsr =? byName)%N then exact1 else offer t (site, byName, cho_callee c) c exact1.

Lemma offered_lookup t ids r exact i j k :
  offered t ids r exact !! (i, j, k) =
  if decide (i = id_of t (t_site r) /\ (j = id_of t (t_usr r) \/ j = id_of t (t_name r)) /\ k = id_of t (t_callee r))
  then pick (beats t) (exact !! (i, j, k)) (choice_of t ids r) else exact !! (i, j, k).
Proof.
  unfold offered. cbv zeta. cbn [choice_of cho_callee]. destruct (N.eqb_spec (id_of t (t_usr r)) (id_of t (t_name r))) as [E|E];
    rewrite !offer_lookup.
  - rewrite <- E. destruct (decide ((i, j, k) = _)) as [Hk|Hk]; [injection Hk as -> -> ->; by rewrite decide_True by tauto|].
    rewrite decide_False; [done|]. intros (-> & [->| ->] & ->); done.
  - destruct (decide ((i, j, k) = (_, id_of t (t_name r), _))) as [Hk|Hk].
    + injection Hk as -> -> ->. rewrite (decide_False (P := _ = (_, id_of t (t_usr r), _))) by congruence.
      rewrite decide_True by tauto. done.
    + destruct (decide ((i, j, k) = (_, id_of t (t_usr r), _))) as [Hk'|Hk'].
      * injection Hk' as -> -> ->. by rewrite decide_True by tauto.
      * rewrite decide_False; [done|]. intros (-> & [->| ->] & ->); done.
Qed.

Lemma table_add t ids exact P r :
  interner_ok t -> interned t r -> is_Some (ids !! rec_shape r) ->
  table_spec t ids exact P -> table_spec t ids (offered t ids r exact) (P ++ [r]).
Proof.
  intros Ht Hr Hs [T1 T2 T3]. pose proof Hr as (R1 & R2 & R3 & R4 & R5).
  assert (Hkn : forall s, is_Some (find t s) -> known t (id_of t s)).
  { intros s [i Hi]. unfold id_of. rewrite Hi. cbn. eapply resolve_known. by apply find_resolve. }
  split.
  - intros r' [?| ->%list_elem_of_singleton]%elem_of_app; auto.
  - intros i j k. rewrite offered_lookup. case_decide as E; [|apply T2]. destruct E as (-> & [->| ->] & ->); intros _; auto.
  - intros s c d i j k Fs Fc Fd. rewrite offered_lookup, filter_app, (T3 s c d) by done. unfold first_least. rewrite foldl_app. fold (first_least rec_less (filter (at_callee s c d) P)).
    assert (Hid : forall u q, find t u = Some q -> forall w, is_Some (find t w) -> q = id_of t w <-> w = u).
    { intros u q Hu w Hw. assert (q = id_of t u) as -> by (unfold id_of; by rewrite Hu). split; [|by intros ->].
      intros E. symmetry. eapply id_of_inj; [done|by rewrite Hu|done|done]. }
    assert (Hm : (i = id_of t (t_site r) /\ (j = id_of t (t_usr r) \/ j = id_of t (t_name r)) /\ k = id_of t (t_callee r)) <-> at_callee s c d r).
    { rewrite (Hid s i Fs), !(Hid c j Fc), (Hid d k Fd) by done. unfold at_callee, at_edge. tauto. }
    rewrite filter_cons, filter_nil. destruct (decide (at_callee s c d r)) as [Em|Em]; cbn [foldl];
      [rewrite decide_True by (by apply Hm)|rewrite decide_False by (by rewrite Hm); done].
    destruct (first_least rec_less (filter (at_callee s c d) P)) as [b|] eqn:Eb; cbn [pick fmap option_fmap option_map]; [|done].
    apply first_least_elem, list_elem_of_filter in Eb as [_ Hb]. destruct (T1 b Hb) as [Hbi _]. rewrite beats_spec by done. by destruct (rec_less r b).
Qed.

(** * The walk *)

Definition shapes_ok (ids : gmap ContextShape N) (shapes : list ContextShape) : Prop :=
  forall sh i, ids !! sh = Some i <-> shapes !! N.to_nat i = Some sh.

Record walk_ok (noTu : SId) (P : list ContextRecord) (st : SigBuild) : Prop := {
  wk_own : own_ok noTu (sb_strings st) (sb_remap st);
  wk_shapes : shapes_ok (sb_shapeIds st) (sb_shapes st);
  wk_few : length (sb_shapes st) <= length P;
  wk_table : table_spec (sb_strings st) (sb_shapeIds st) (sb_exact st) P;
  wk_count : sb_contexts st = length P
}.

(** The shape of a record gets a signature slot, and no slot moves. *)
Lemma shape_slot_spec ids shapes sh n :
  shapes_ok ids shapes -> length shapes <= n -> (N.of_nat n < two32)%N ->
  exists ids' shapes' i, shape_slot sh ids shapes = (ids', shapes', i) /\
    shapes_ok ids' shapes' /\ ids ⊆ ids' /\ ids' !! sh = Some i /\ length shapes' <= S n.
Proof.
  intros Hok Hl Hn. unfold shape_slot. destruct (ids !! sh) as [i|] eqn:E.
  - exists ids, shapes, i. split_and!; [done..|lia].
  - eexists _, _, _. split; [done|]. rewrite u32_small by lia. split_and!; [|by apply insert_subseteq|apply lookup_insert_eq|rewrite length_app; cbn; lia].
    intros sh' i. rewrite lookup_insert_Some, lookup_app_Some, list_lookup_singleton_Some, <- (Hok sh' i). split.
    + intros [[<- <-]|[Hne Hi]]; [right|by left]. rewrite Nat2N.id. split; [lia|split; [lia|done]].
    + intros [Hi|(Hge & Hz & <-)]; [right|left; split; [done|lia]]. split; [|done]. intros ->. congruence.
Qed.

Lemma add_record_ok noTu P st r :
  walk_ok noTu P st -> rec_ok r -> (N.of_nat (length P) < two32)%N -> walk_ok noTu (P ++ [r]) (add_record (stringOf x) noTu st r).
Proof.
  intros [W1 W2 W3 W4 W5] (R1 & R2 & R3 & R4 & R5) Hn. unfold add_record.
  destruct (shape_slot_spec (sb_shapeIds st) (sb_shapes st) (rec_shape r) (length P) W2 W3 Hn) as (ids & shapes & sig & -> & S1 & S2 & S3 & S4).
  destruct (own _ _ (rec_calleeUsr r) _) as [[t1 m1] i1] eqn:E1. destruct (own_spec _ _ _ _ _ _ _ W1 R1 E1) as (O1 & X1 & V1).
  destruct (own _ _ (rec_tuPath r) _) as [[t2 m2] i2] eqn:E2. destruct (own_spec _ _ _ _ _ _ _ O1 R2 E2) as (O2 & X2 & V2).
  destruct (own _ _ (rec_callerName r) (t2, m2)) as [[t3 m3] i3] eqn:E3. destruct (own_spec _ _ _ _ _ _ _ O2 R3 E3) as (O3 & X3 & V3).
  destruct (own _ _ (rec_callSite r) _) as [[t4 m4] i4] eqn:E4. destruct (own_spec _ _ _ _ _ _ _ O3 R4 E4) as (O4 & X4 & V4).
  destruct (own _ _ (rec_callerUsr r) _) as [[t5 m5] i5] eqn:E5. destruct (own_spec _ _ _ _ _ _ _ O4 R5 E5) as (O5 & X5 & V5).
  destruct (own _ _ (rec_callerName r) (t5, m5)) as [[t6 m6] i6] eqn:E6. destruct (own_spec _ _ _ _ _ _ _ O5 R3 E6) as (O6 & X6 & V6).
  cbn [fst snd].
  assert (Hf : forall t i s, resolve_opt t i = Some s -> extends t t6 -> find t6 s = Some i).
  { intros t i s Hr He. apply resolve_find; [apply O6|]. by eapply extends_resolve. }
  assert (F1 : find t6 (t_callee r) = Some i1) by (apply (Hf t1); [done|by do 4 (etrans; [eassumption|])]).
  assert (F2 : find t6 (t_tu r) = Some i2) by (apply (Hf t2); [done|by do 3 (etrans; [eassumption|])]).
  assert (F3 : find t6 (t_name r) = Some i3) by (apply (Hf t3); [done|by do 2 (etrans; [eassumption|])]).
  assert (F4 : find t6 (t_site r) = Some i4) by (apply (Hf t4); [done|by etrans; [eassumption|]]).
  assert (F5 : find t6 (t_usr r) = Some i5) by (by apply (Hf t5)).
  assert (F6 : find t6 (t_name r) = Some i6) by (by apply (Hf t6)). assert (i6 = i3) as -> by congruence.
  assert (Hint : interned t6 r) by (unfold interned; rewrite F1, F2, F3, F4, F5; split_and!; by eexists).
  assert (Hsh : is_Some (ids !! rec_shape r)) by by rewrite S3.
  assert (Htab : table_spec t6 ids (sb_exact st) P).
  { apply (table_extends (sb_strings st) t6 (sb_shapeIds st)); [apply W1|apply O6|by do 5 (etrans; [eassumption|])|done|done]. }
  pose proof (table_add t6 ids (sb_exact st) P r (ow_ok _ _ _ O6) Hint Hsh Htab) as Hadd.
  unfold offered, choice_of, id_of in Hadd. rewrite F1, F2, F3, F4, F5, S3 in Hadd. cbn in Hadd.
  split; cbn; [done|done|rewrite length_app; cbn; lia|done|rewrite length_app, W5; cbn; lia].
Qed.

Definition live_records : list ContextRecord := record_of <$> live_contexts x.

Lemma records_fold {A} isValidUtf8 (fn : A -> ContextRecord -> A) a :
  forEachContextRecord_in (resident isValidUtf8 x) fn a = foldl fn a live_records.
Proof.
  unfold forEachContextRecord_in, live_records, live_contexts. cbn [resident v_stored]. revert a.
  induction (contexts_ x) as [|se l IH]; intros a; cbn [foldl]; [done|]. rewrite filter_cons. destruct (sc_live se); cbn [foldl fmap list_fmap decide]; by rewrite IH.
Qed.

Lemma live_stored se : se ∈ live_contexts x -> stored_ok x se.
Proof. intros [_ Hin]%list_elem_of_filter. by eapply Forall_forall in Hin; [|apply (cf_stored _ Hx)]. Qed.

Hypothesis Hsize : (N.of_nat (length (contexts_ x)) <= two32)%N.

Lemma walk_whole isValidUtf8 : exists noTu, walk_ok noTu live_records (signatures_walk (resident isValidUtf8 x) (stringOf x)).
Proof.
  unfold signatures_walk. destruct (intern empty_interner []) as [t noTu] eqn:Ei. exists noTu. rewrite records_fold.
  destruct (intern_allowed empty_interner [] t noTu) as (I1 & I2 & I3 & I4); [apply empty_ok|set_solver|left|done|].
  assert (Hr : forall r, r ∈ live_records -> rec_ok r).
  { intros r (se & -> & Hse%live_stored)%list_elem_of_fmap. by apply record_ok. }
  assert (Hl : (N.of_nat (length live_records) <= two32)%N).
  { unfold live_records, live_contexts. rewrite length_fmap. pose proof (length_filter (fun se => sc_live se = true) (contexts_ x)). lia. }
  assert (H0 : walk_ok noTu [] (MkSigBuild t [] ∅ [] ∅ 0)).
  { split; cbn; [by split|by split|lia| |done]. split; [by intros r ?%not_elem_of_nil|by intros i j k [? ?]|done]. }
  assert (Hgen : forall P Q st, live_records = P ++ Q -> walk_ok noTu P st -> walk_ok noTu live_records (foldl (add_record (stringOf x) noTu) st Q)).
  { intros P Q. revert P. induction Q as [|r Q IH]; intros P st E Hw; cbn [foldl]; [by rewrite E, app_nil_r|].
    apply (IH (P ++ [r])); [by rewrite <- app_assoc|]. apply add_record_ok; [done|apply Hr; rewrite E; set_solver|].
    rewrite E, length_app in Hl. cbn in Hl. lia. }
  by apply (Hgen []).
Qed.

(** * The fallback *)

Lemma fold_offer_lookup t (E : list (SigKey * Choice)) key table :
  foldl (fun table '(k, c) => offer t (k.1.1, k.1.2, kAnyCallee) c table) table E !! key =
  foldl (pick (beats t)) (table !! key) (omap (fun '(k, c) => if decide (key = (k.1.1, k.1.2, kAnyCallee)) then Some c else None) E).
Proof.
  revert table. induction E as [|[k c] E IH]; intros table; cbn [foldl omap list_omap]; [done|]. rewrite IH, offer_lookup.
  destruct (decide (key = (k.1.1, k.1.2, kAnyCallee))); [done|done].
Qed.

(** A choice that beats every other one is what a walk in any order ends with. *)
Lemma pick_dominant {A} (less : A -> A -> bool) ch l acc :
  less ch ch = false -> (forall e, e ∈ l -> e = ch \/ (less ch e = true /\ less e ch = false)) ->
  (ch ∈ l /\ (acc = None \/ exists a, acc = Some a /\ (less ch a = true \/ a = ch))) \/ acc = Some ch ->
  foldl (pick less) acc l = Some ch.
Proof.
  intros Hr. revert acc. induction l as [|e l IH]; intros acc Hl Hacc; cbn [foldl].
  { destruct Hacc as [[?%not_elem_of_nil _]|?]; done. }
  apply IH; [intros; apply Hl; by right|]. destruct (Hl e) as [->|[H1 H2]]; [left| |].
  - right. destruct Hacc as [[_ [->|(a & -> & [Ha| ->])]]| ->]; cbn [pick]; [done|by rewrite Ha|by rewrite Hr|by rewrite Hr].
  - destruct Hacc as [[Hin Ha]| ->]; [|right; cbn [pick]; by rewrite H2]. left. apply elem_of_cons in Hin as [->|Hin]; [congruence|]. split; [done|]. right.
    destruct Ha as [->|(a & -> & Ha)]; cbn [pick]; [exists e; auto|]. destruct (less e a); eauto.
Qed.

(** The fallback of a call site and caller is the first least of all their contexts. *)
Lemma fallback_spec t ids exact P (iter : list (SigKey * Choice)) s c i j :
  interner_ok t -> table_spec t ids exact P -> iter ≡ₚ map_to_list exact -> find t s = Some i -> find t c = Some j ->
  foldl (fun table '(k, ch) => offer t (k.1.1, k.1.2, kAnyCallee) ch table) ∅ iter !! (i, j, kAnyCallee) =
  choice_of t ids <$> first_least rec_less (filter (at_edge s c) P).
Proof.
  intros Ht [T1 T2 T3] Hperm Fs Fc. rewrite fold_offer_lookup, lookup_empty.
  set (l := omap _ iter).
  assert (Hl : forall e, e ∈ l <-> exists k, exact !! (i, j, k) = Some e).
  { intros e. unfold l. rewrite list_elem_of_omap. split.
    - intros ([[[i' j'] k] ch] & Hin & He). cbn in He. case_decide as Ek; [|done]. injection He as ->. injection Ek as -> ->.
      rewrite Hperm in Hin. apply elem_of_map_to_list in Hin. by exists k.
    - intros [k Hk]. exists ((i, j, k), e). rewrite Hperm. split; [by apply elem_of_map_to_list|]. cbn. by rewrite decide_True. }
  assert (Hclass : forall k e, exact !! (i, j, k) = Some e -> exists d r, find t d = Some k /\
    first_least rec_less (filter (at_callee s c d) P) = Some r /\ e = choice_of t ids r).
  { intros k e Hk. destruct (T2 i j k) as (_ & _ & [d Hd]); [by rewrite Hk|]. apply resolve_find in Hd; [|done]. exists d.
    rewrite (T3 s c d i j k) in Hk by done. destruct (first_least _ _) as [r|]; [|done]. injection Hk as <-. by exists r. }
  pose proof (first_least_spec rec_less (filter (at_edge s c) P)) as Hfl. destruct (first_least rec_less (filter (at_edge s c) P)) as [b|] eqn:Eb; cbn.
  - assert (Hb : b ∈ filter (at_edge s c) P) by by apply first_least_elem in Eb. apply list_elem_of_filter in Hb as [Hab HbP].
    destruct (T1 b HbP) as [Hbi _]. pose proof Hbi as ([kb Fb] & _).
    assert (Hmin : forall r, r ∈ filter (at_edge s c) P -> rec_less r b = false).
    { destruct Hfl as (pre & post & -> & Hpre & Hpost). intros r Hr. assert (Hirr : rec_less b b = false).
      { unfold rec_less. by rewrite (proj2 (tcmp_eq (cmp := lex_cmp bytes_cmp (lex_cmp bytes_cmp bytes_cmp)) _ _) eq_refl). }
      apply elem_of_app in Hr as [Hr|[->|Hr]%elem_of_cons]; [|done|by eapply Forall_forall in Hpost].
      eapply Forall_forall in Hpre; [|exact Hr]. unfold rec_less in *. rewrite (tcmp_antisym (cmp := lex_cmp bytes_cmp (lex_cmp bytes_cmp bytes_cmp)) (t_callee b, (t_tu b, t_name b)) (t_callee r, (t_tu r, t_name r))).
      revert Hpre. set (o := lex_cmp bytes_cmp _ (t_callee b, (t_tu b, t_name b)) (t_callee r, (t_tu r, t_name r))). by destruct o. }
    assert (Hown : exact !! (i, j, kb) = Some (choice_of t ids b)).
    { rewrite (T3 s c (t_callee b) i j kb) by done. apply (fmap_Some _ _ (choice_of t ids b)). exists b. split; [|done].
      apply first_least_eq; [apply _|].
      assert (Hf : filter (at_callee s c (t_callee b)) P = filter (fun r => t_callee r = t_callee b) (filter (at_edge s c) P)).
      { rewrite filter_filter_eq. apply filter_ext_in. intros r _. unfold at_callee. tauto. }
      rewrite Hf. apply is_first_least_filter; done. }
    assert (Hoth : forall k e, exact !! (i, j, k) = Some e -> e = choice_of t ids b \/
      (beats t (choice_of t ids b) e = true /\ beats t e (choice_of t ids b) = false)).
    { intros k e Hk. destruct (Hclass k e Hk) as (d & r & Fd & Hr & ->). destruct (decide (d = t_callee b)) as [->|Hd].
      { left. assert (k = kb) as -> by congruence. congruence. }
      right. apply first_least_elem, list_elem_of_filter in Hr as [[Har <-] HrP]. destruct (T1 r HrP) as [Hri _].
      rewrite !beats_spec by done. specialize (Hmin r). rewrite list_elem_of_filter in Hmin. split; [|by apply Hmin].
      specialize (Hmin (conj Har HrP)). unfold rec_less, lex_cmp in *. cbn [fst snd] in *.
      rewrite (tcmp_antisym (cmp := bytes_cmp) (t_callee b) (t_callee r)) in Hmin.
      destruct (bytes_cmp (t_callee b) (t_callee r)) eqn:Ec; cbn in *; [|done|done]. apply bytes_cmp_eq in Ec. congruence. }
    apply pick_dominant.
    + rewrite beats_spec by done. apply Hmin, list_elem_of_filter. done.
    + intros e [k Hk]%Hl. by eapply Hoth.
    + left. split; [apply Hl; by exists kb|by left].
  - destruct l as [|e l'] eqn:El; [done|]. exfalso. assert (He : e ∈ e :: l') by left. apply Hl in He as [k Hk].
    destruct (Hclass k e Hk) as (d & r & _ & Hr & _). apply first_least_elem, list_elem_of_filter in Hr as [[Har _] HrP].
    apply (not_elem_of_nil r). rewrite <- Hfl. by apply list_elem_of_filter.
Qed.
End Exact.

(** * The equivalence *)

(** What a record says is what its context says. *)
Lemma record_texts x se (Hse : stored_ok x se) (Hx : cf_ok x) :
  let c := cf_materialize x se in
  let r := record_of se in
  t_site x r = cs_callSite c /\ t_usr x r = cs_callerUsr c /\ t_name x r = cs_callerName c /\
  t_callee x r = cs_calleeUsr c /\ t_tu x r = cs_tuPath c.
Proof.
  assert (Hk : forall id, known (cf_interner_ x) id -> text x id = stringOf x id).
  { intros id Hid. unfold text. destruct (known_u32 _ _ (cf_ids _ Hx) Hid) as [_ Hn]. by rewrite (proj2 (N.eqb_neq _ _) Hn). }
  destruct Hse. cbn. unfold t_site, t_usr, t_name, t_callee, t_tu. cbn. rewrite !Hk by done. split_and!; try done.
  unfold text. destruct (N.eqb_spec (sc_tuPath se) kNoString) as [E|E]; [by rewrite decide_True|by rewrite decide_False].
Qed.

(** A signature reads the shape of a context only. *)
Lemma shape_signature x se (Hse : stored_ok x se) :
  contextSignature (contextOfShape x (rec_shape (record_of se))) = contextSignature (cf_materialize x se).
Proof.
  destruct Hse as [_ _ _ _ _ _ [a Ha] [b Hb] [c Hc]]. apply lookup_lt_Some in Ha, Hb, Hc.
  unfold contextOfShape, contextOfShape_with. cbn [record_of rec_shape sh_scopeSet sh_guardSet sh_raiiSet].
  assert (Hlt : forall n m, N.to_nat n < m -> (N.of_nat m <=? n)%N = false) by (intros n m ?; apply N.leb_gt; lia).
  by rewrite !Hlt.
Qed.

#[local] Instance edge_context_weak wanted : StrictWeak (edge_context_less wanted).
Proof. apply (strict_weak_of_key (edge_context_key wanted) edge_context_cmp). apply edge_context_less_cmp. Qed.

Section Choice.
Variable isValidUtf8 : bytes -> bool.
Variable x : ControlFlowIndex.
Hypothesis Hx : cf_ok x.
Variables site caller callee : bytes.
Hypothesis Hsite : lookupText isValidUtf8 site = site.

Abbreviation mine := (filter (fun c => cs_callSite c = site /\ (cs_callerUsr c = caller \/ cs_callerName c = caller)) (allContexts x)).

Lemma edge_choice : contextForEdge isValidUtf8 x site caller callee = first_least (edge_context_less callee) mine.
Proof.
  unfold contextForEdge, contextForEdge_in. change (contextsAtSite_in (resident isValidUtf8 x) site) with (contextsAtSite isValidUtf8 x site).
  assert (Hs : contextsAtSite isValidUtf8 x site = filter (fun c => cs_callSite c = site) (allContexts x)).
  { etrans; [apply (site_filter x Hx isValidUtf8 site (fun _ => true) (fun _ => True)); done|].
    apply filter_ext_in. intros c _. rewrite Hsite. tauto. }
  rewrite Hs, filter_filter_eq. etrans; [|apply stable_sort_first, _]. done.
Qed.

(** The contexts of the edge, as stored. *)
Definition own_stored : list StoredContext := filter (fun se => at_edge x site caller (record_of se)) (live_contexts x).

Lemma mine_stored : mine = cf_materialize x <$> own_stored.
Proof.
  rewrite allContexts_eq, filter_fmap_eq. f_equal. apply filter_ext_in. intros se Hse.
  destruct (record_texts x se (live_stored x Hx se Hse) Hx) as (E1 & E2 & E3 & _). unfold at_edge. by rewrite E1, E2, E3.
Qed.

Lemma own_records : filter (at_edge x site caller) (live_records x) = record_of <$> own_stored.
Proof. unfold live_records, own_stored. by rewrite filter_fmap_eq. Qed.

(** Between contexts of the edge's callee, and between contexts of other callees, the order
    is the order of the table. *)
Lemma edge_less_texts a b :
  stored_ok x a -> stored_ok x b ->
  bool_decide (cs_calleeUsr (cf_materialize x a) = callee) = bool_decide (cs_calleeUsr (cf_materialize x b) = callee) ->
  edge_context_less callee (cf_materialize x a) (cf_materialize x b) = rec_less x (record_of a) (record_of b).
Proof.
  intros Ha Hb E. rewrite edge_context_less_cmp. unfold rec_less, edge_context_key. rewrite E.
  destruct (record_texts x a Ha Hx) as (_ & _ & -> & -> & ->). destruct (record_texts x b Hb Hx) as (_ & _ & -> & -> & ->).
  unfold edge_context_cmp at 1. unfold lex_cmp at 1. cbn [fst snd]. by rewrite N.compare_refl.
Qed.

Lemma own_ok_stored se : se ∈ own_stored -> stored_ok x se.
Proof. intros [_ Hin]%list_elem_of_filter. by apply (live_stored x Hx). Qed.

(** The choice for the edge, read from the stored contexts: the first least context of the
    callee, or of all when there is none. *)
Lemma edge_choice_stored :
  let for_callee := filter (fun se => t_callee x (record_of se) = callee) own_stored in
  contextForEdge isValidUtf8 x site caller callee =
  cf_materialize x <$> first_least (fun a b => rec_less x (record_of a) (record_of b))
                         (match for_callee with [] => own_stored | _ => for_callee end).
Proof.
  cbv zeta. set (for_callee := filter _ own_stored). rewrite edge_choice, mine_stored, first_least_fmap. f_equal.
  set (less := fun a b => edge_context_less callee (cf_materialize x a) (cf_materialize x b)).
  set (less' := fun a b => rec_less x (record_of a) (record_of b)).
  assert (W : StrictWeak less) by (apply (strict_weak_of_key (fun a => edge_context_key callee (cf_materialize x a)) edge_context_cmp); intros; apply edge_context_less_cmp).
  assert (W' : StrictWeak less').
  { apply (strict_weak_of_key (fun a => (t_callee x (record_of a), (t_tu x (record_of a), t_name x (record_of a)))) (lex_cmp bytes_cmp (lex_cmp bytes_cmp bytes_cmp))). done. }
  assert (Hcal : forall se, se ∈ own_stored -> cs_calleeUsr (cf_materialize x se) = callee <-> t_callee x (record_of se) = callee).
  { intros se Hse%own_ok_stored. by destruct (record_texts x se Hse Hx) as (_ & _ & _ & -> & _). }
  assert (Hsame : forall l b, (forall y, y ∈ l -> less y b = less' y b /\ less b y = less' b y) -> is_first_least less l b -> is_first_least less' l b).
  { intros l b Hl (p & q & -> & Hp & Hq). exists p, q. split_and!; [done| |]; apply Forall_forall; intros y Hy.
    - destruct (Hl y) as [_ <-]; [set_solver|]. by eapply Forall_forall in Hp.
    - destruct (Hl y) as [<- _]; [set_solver|]. by eapply Forall_forall in Hq. }
  pose proof (first_least_spec less own_stored) as Hfl. destruct (first_least less own_stored) as [b|] eqn:Eb.
  2:{ unfold for_callee. rewrite Hfl. done. }
  assert (Hb : b ∈ own_stored) by by apply first_least_elem in Eb.
  destruct for_callee as [|a l] eqn:Ef.
  - symmetry. apply first_least_eq; [done|]. apply Hsame; [|done].
    assert (Hno : forall y, y ∈ own_stored -> bool_decide (cs_calleeUsr (cf_materialize x y) = callee) = false).
    { intros y Hy. apply bool_decide_eq_false. rewrite Hcal by done. intros E. apply (not_elem_of_nil y). rewrite <- Ef. by apply list_elem_of_filter. }
    intros y Hy. unfold less, less'. rewrite !edge_less_texts; try done; try (by apply own_ok_stored); by rewrite !Hno.
  - assert (Ha : a ∈ for_callee) by (rewrite Ef; left). apply list_elem_of_filter in Ha as [Eca Hao].
    assert (Hbc : t_callee x (record_of b) = callee).
    { destruct (decide (t_callee x (record_of b) = callee)) as [|Hn]; [done|]. exfalso.
      assert (Hab : less a b = true).
      { unfold less, edge_context_less. rewrite (bool_decide_true (cs_calleeUsr (cf_materialize x a) = callee)) by by apply Hcal.
        rewrite (bool_decide_false (cs_calleeUsr (cf_materialize x b) = callee)) by by rewrite Hcal. done. }
      assert (Hba : less b a = false).
      { unfold less, edge_context_less. rewrite (bool_decide_true (cs_calleeUsr (cf_materialize x a) = callee)) by by apply Hcal.
        rewrite (bool_decide_false (cs_calleeUsr (cf_materialize x b) = callee)) by by rewrite Hcal. done. }
      destruct Hfl as (p & q & E & Hp & Hq). rewrite E in Hao. apply elem_of_app in Hao as [Hin|[->|Hin]%elem_of_cons]; [|congruence|].
      - eapply Forall_forall in Hp; [|exact Hin]. congruence.
      - eapply Forall_forall in Hq; [|exact Hin]. congruence. }
    symmetry. rewrite <- Ef. apply first_least_eq; [done|]. apply Hsame; [|by apply is_first_least_filter].
    intros y [Hyc Hy]%list_elem_of_filter. unfold less, less'.
    rewrite !edge_less_texts; try done; try (by apply own_ok_stored); rewrite !bool_decide_true; try done; by apply Hcal.
Qed.
End Choice.

(** The signature table is a faithful index of the control-flow index: for a call site
    spelled as index text, [forEdge] gives the signature of the context [contextForEdge]
    chooses for the edge (the callee's own contexts first, then the least callee, unit and
    caller spelling, the first recorded among equals), and [absent] exactly when there is
    none, in whatever order the hash table is walked. *)
Theorem signatures_answer_like_index (isValidUtf8 : bytes -> bool) (x : ControlFlowIndex)
    (table_iter : gmap SigKey Choice -> list (SigKey * Choice)) (site caller callee : bytes) :
  cf_ok x -> (N.of_nat (length (contexts_ x)) <= two32)%N -> (forall m, table_iter m ≡ₚ map_to_list m) ->
  lookupText isValidUtf8 site = site ->
  forEdge (buildSignatures (resident isValidUtf8 x) (stringOf x) (contextOfShape x) table_iter) site caller callee =
  match contextForEdge isValidUtf8 x site caller callee with
  | Some c => contextSignature c
  | None => str "absent"
  end.
Proof.
  intros Hx Hsize Hiter Hsite. rewrite (edge_choice_stored isValidUtf8 x Hx site caller callee Hsite). cbv zeta.
  destruct (walk_whole x Hx Hsize isValidUtf8) as [noTu [W1 W2 W3 W4 W5]].
  unfold buildSignatures. set (st := signatures_walk _ _) in *. set (t := sb_strings st) in *. set (ids := sb_shapeIds st) in *.
  set (sg := MkSignatures _ _ _ _ _). unfold forEdge. cbn [sg sg_strings sg_exact sg_fallback].
  assert (Ht : interner_ok t) by apply W1.
  assert (Hsig : forall se, se ∈ own_stored x site caller -> signature_at sg (choice_of x t ids (record_of se)) = contextSignature (cf_materialize x se)).
  { intros se Hse. pose proof (own_ok_stored x Hx site caller se Hse) as Hok. apply list_elem_of_filter in Hse as [_ Hse].
    destruct (ts_interned _ _ _ _ _ W4 (record_of se)) as [_ [i Hi]]; [apply list_elem_of_fmap; by exists se|].
    unfold signature_at, choice_of. cbn [cho_signature sg sg_signatures]. fold ids in Hi. rewrite Hi. cbn [default from_option id].
    rewrite list_lookup_fmap, (proj1 (W2 _ _) Hi). cbn. by apply shape_signature. }
  assert (Hnone : forall s c, (find t s = None \/ find t c = None) -> s = site -> c = caller -> own_stored x site caller = []).
  { intros s c Hf -> ->. apply elem_of_nil_inv. intros se [[Es Ec] Hse]%list_elem_of_filter.
    destruct (ts_interned _ _ _ _ _ W4 (record_of se)) as [(_ & _ & [n1 N1] & [n2 N2] & [n3 N3]) _]; [apply list_elem_of_fmap; by exists se|].
    fold t in N1, N2, N3. destruct Hf as [Hf|Hf]; [congruence|]. destruct Ec; congruence. }
  destruct (find t site) as [i|] eqn:Fs; [|by rewrite (Hnone site caller) by auto].
  destruct (find t caller) as [j|] eqn:Fc; [|by rewrite (Hnone site caller) by auto].
  assert (Hex : (k ← find t callee; sb_exact st !! (i, j, k)) =
    choice_of x t ids <$> (record_of <$> first_least (fun a b => rec_less x (record_of a) (record_of b)) (filter (fun se => t_callee x (record_of se) = callee) (own_stored x site caller)))).
  { assert (Hcl : filter (at_callee x site caller callee) (live_records x) =
      record_of <$> filter (fun se => t_callee x (record_of se) = callee) (own_stored x site caller)).
    { transitivity (filter (fun r => t_callee x r = callee) (record_of <$> own_stored x site caller)); [|apply filter_fmap_eq].
      rewrite <- own_records, filter_filter_eq. apply filter_ext_in. intros r _. unfold at_callee. tauto. }
    rewrite <- first_least_fmap, <- Hcl. destruct (find t callee) as [k|] eqn:Fd; cbn [mbind option_bind].
    - by apply (ts_value _ _ _ _ _ W4).
    - replace (filter (at_callee x site caller callee) (live_records x)) with (@nil ContextRecord); [done|]. symmetry. apply elem_of_nil_inv.
      intros r [[_ <-] Hr]%list_elem_of_filter. destruct (ts_interned _ _ _ _ _ W4 r Hr) as [([k Hk] & _) _]. fold t in Hk. congruence. }
  assert (Hfb : foldl (fun table '(k, ch) => offer t (k.1.1, k.1.2, kAnyCallee) ch table) ∅ (table_iter (sb_exact st)) !! (i, j, kAnyCallee) =
    choice_of x t ids <$> (record_of <$> first_least (fun a b => rec_less x (record_of a) (record_of b)) (own_stored x site caller))).
  { rewrite <- first_least_fmap, <- own_records. by eapply fallback_spec. }
  rewrite Hex, Hfb. set (fc := filter _ (own_stored x site caller)). set (less := fun a b => rec_less x (record_of a) (record_of b)).
  assert (W : StrictWeak less).
  { apply (strict_weak_of_key (fun a => (t_callee x (record_of a), (t_tu x (record_of a), t_name x (record_of a)))) (lex_cmp bytes_cmp (lex_cmp bytes_cmp bytes_cmp))). done. }
  pose proof (first_least_spec less fc) as Hs1. pose proof (first_least_spec less (own_stored x site caller)) as Hs2.
  destruct (first_least less fc) as [b|] eqn:E1; cbn [fmap option_fmap option_map].
  - destruct fc as [|a l] eqn:Efc; [done|]. rewrite <- Efc in *. rewrite E1. cbn. apply Hsig.
    apply first_least_elem in E1. unfold fc in E1. by apply list_elem_of_filter in E1 as [_ ?].
  - rewrite Hs1. destruct (first_least less (own_stored x site caller)) as [b|] eqn:E2; cbn; [|done]. apply Hsig. by apply first_least_elem in E2.
Qed.

Lemma signatures_answer_like_index_witness :
  forEdge (buildSignatures (resident valid_utf8b two_sites) (stringOf two_sites) (contextOfShape two_sites) map_to_list)
    (str "b.cpp:2:1") (str "main") (str "elsewhere") =
  match contextForEdge valid_utf8b two_sites (str "b.cpp:2:1") (str "main") (str "elsewhere") with
  | Some c => contextSignature c
  | None => str "absent"
  end /\
  is_Some (contextForEdge valid_utf8b two_sites (str "b.cpp:2:1") (str "main") (str "elsewhere")).
Proof.
  split; [|eexists; vm_compute; reflexivity].
  apply (signatures_answer_like_index valid_utf8b two_sites map_to_list (str "b.cpp:2:1") (str "main") (str "elsewhere")).
  - apply two_sites_ok.
  - by vm_compute.
  - done.
  - vm_compute. reflexivity.
Defined.
