(* ===== verification/SortedMap.v ===== *)
(** [std::map]: a finite map that is walked in key order, and the walk over two of them side
    by side that a comparison of two indexes is. *)

From S2P Require Import Prelude Ordering.

Section SortedMap.
Context {K : Type} `{HK : Countable K} (cmp : K -> K -> comparison) `{HC : !TotalCmp cmp}.

Abbreviation key_le := (cmp_le cmp).

(** The keys of a set in order. *)
Definition sorted_keys_of (s : gset K) : list K := merge_sort key_le (elements s).

(** The entries in key order. *)
Definition entries {V} (m : gmap K V) : list (K * V) := omap (fun k => pair k <$> m !! k) (sorted_keys_of (dom m)).

Lemma elem_of_key_order k s : k ∈ sorted_keys_of s <-> k ∈ s.
Proof. unfold sorted_keys_of. by rewrite merge_sort_Permutation, elem_of_elements. Qed.

Lemma sorted_keys_NoDup s : NoDup (sorted_keys_of s).
Proof. unfold sorted_keys_of. rewrite merge_sort_Permutation. apply NoDup_elements. Qed.

Lemma sorted_keys_sorted s : StronglySorted key_le (sorted_keys_of s).
Proof. apply StronglySorted_merge_sort; apply _. Qed.

(** A sorted list without repeats is the sorted list of its elements. *)
Lemma sorted_keys_unique l s : StronglySorted key_le l -> NoDup l -> (forall k, k ∈ l <-> k ∈ s) -> l = sorted_keys_of s.
Proof.
  intros Hs Hnd Hl. apply (StronglySorted_unique key_le); [done|apply sorted_keys_sorted|].
  unfold sorted_keys_of. rewrite merge_sort_Permutation. apply NoDup_Permutation; [done|apply NoDup_elements|].
  intros k. by rewrite elem_of_elements.
Qed.

Lemma entries_keys {V} (m : gmap K V) : (entries m).*1 = sorted_keys_of (dom m).
Proof.
  unfold entries. assert (H : forall k, k ∈ sorted_keys_of (dom m) -> is_Some (m !! k)) by (intros k Hk; by apply elem_of_dom, elem_of_key_order).
  induction (sorted_keys_of (dom m)) as [|k l IH]; [done|]. cbn. destruct (H k) as [v E]; [left|]. rewrite E. cbn. f_equal.
  apply IH. intros; apply H; by right.
Qed.

Lemma elem_of_entries {V} (m : gmap K V) k v : (k, v) ∈ entries m <-> m !! k = Some v.
Proof.
  unfold entries. rewrite list_elem_of_omap. split.
  - intros (k' & _ & (v' & E & [= -> ->])%fmap_Some). done.
  - intros E. exists k. rewrite E. split; [|done]. by apply elem_of_key_order, elem_of_dom_2 in E || (apply elem_of_key_order; by apply elem_of_dom_2 in E).
Qed.

(** * Two maps side by side *)

(** One step of the merged walk: the key, and its values on the two sides. *)
Abbreviation visit V := (K * option V * option V)%type.

Fixpoint side_by_side {V} (fuel : nat) (b a : list (K * V)) : list (visit V) :=
  match fuel with
  | O => []
  | S fuel' =>
      match b, a with
      | [], [] => []
      | [], (k, w) :: a' => (k, None, Some w) :: side_by_side fuel' [] a'
      | (k, v) :: b', [] => (k, Some v, None) :: side_by_side fuel' b' []
      | (k, v) :: b', (k', w) :: a' =>
          match cmp k k' with
          | Lt => (k, Some v, None) :: side_by_side fuel' b' a
          | Gt => (k', None, Some w) :: side_by_side fuel' b a'
          | Eq => (k, Some v, Some w) :: side_by_side fuel' b' a'
          end
      end
  end.

Definition walk_both {V} (mb ma : gmap K V) : list (visit V) :=
  side_by_side (length (entries mb) + length (entries ma)) (entries mb) (entries ma).

Record tail_of {V} (m : gmap K V) (l : list (K * V)) : Prop := {
  tl_sorted : StronglySorted key_le l.*1;
  tl_nodup : NoDup l.*1;
  tl_in : forall k v, (k, v) ∈ l -> m !! k = Some v
}.

Lemma cmp_irrefl k : cmp k k <> Lt.
Proof. by rewrite (proj2 (tcmp_eq k k) eq_refl). Qed.

Lemma tail_cons {V} (m : gmap K V) k v l :
  tail_of m ((k, v) :: l) -> tail_of m l /\ m !! k = Some v /\ (forall k', k' ∈ l.*1 -> cmp k k' = Lt).
Proof.
  intros [Hs Hn Hi]. cbn in Hs, Hn. apply StronglySorted_cons in Hs as [Hle Hs]. apply NoDup_cons in Hn as [Hk Hn]. split_and!.
  - split; [done|done|]. intros k' v' Hin. apply Hi. by right.
  - apply Hi. left.
  - intros k' Hk'. eapply Forall_forall in Hle; [|exact Hk']. unfold cmp_le in Hle.
    destruct (cmp k k') eqn:E; [apply tcmp_eq in E; congruence|done|done].
Qed.

(** A key still ahead on one side is ahead on the other too, or not there at all. *)
Definition in_step {V} (mb ma : gmap K V) (b a : list (K * V)) : Prop :=
  (forall k, k ∈ b.*1 -> ma !! k = None \/ k ∈ a.*1) /\ (forall k, k ∈ a.*1 -> mb !! k = None \/ k ∈ b.*1).

Lemma in_step_swap {V} (mb ma : gmap K V) b a : in_step mb ma b a -> in_step ma mb a b.
Proof. by intros [? ?]. Qed.

Lemma in_step_one {V} (mb ma : gmap K V) k v b a :
  (forall k', k' ∈ a.*1 -> cmp k k' = Lt) -> in_step mb ma ((k, v) :: b) a -> in_step mb ma b a /\ ma !! k = None.
Proof.
  intros Hlt [H1 H2]. split; [split|].
  - intros k0 H0. apply H1. by right.
  - intros k0 H0. destruct (H2 k0 H0) as [?|[->|?]%elem_of_cons]; [by left| |by right]. by apply Hlt, cmp_irrefl in H0.
  - destruct (H1 k) as [?|Hin]; [left|done|]. by apply Hlt, cmp_irrefl in Hin.
Qed.

Lemma in_step_both {V} (mb ma : gmap K V) k v w b a :
  (forall k', k' ∈ b.*1 -> cmp k k' = Lt) -> (forall k', k' ∈ a.*1 -> cmp k k' = Lt) ->
  in_step mb ma ((k, v) :: b) ((k, w) :: a) -> in_step mb ma b a.
Proof.
  intros Hb Ha [H1 H2]. split; intros k0 H0.
  - destruct (H1 k0) as [?|[->|?]%elem_of_cons]; [by right|by left| |by right]. by apply Hb, cmp_irrefl in H0.
  - destruct (H2 k0) as [?|[->|?]%elem_of_cons]; [by right|by left| |by right]. by apply Ha, cmp_irrefl in H0.
Qed.

Abbreviation visited_keys l := ((fun t => t.1.1) <$> l).

Record walk_spec {V} (mb ma : gmap K V) (b a : list (K * V)) (l : list (visit V)) : Prop := {
  ws_values : forall k o o', (k, o, o') ∈ l -> o = mb !! k /\ o' = ma !! k;
  ws_keys : forall k, k ∈ visited_keys l <-> k ∈ b.*1 \/ k ∈ a.*1;
  ws_sorted : StronglySorted key_le (visited_keys l);
  ws_nodup : NoDup (visited_keys l)
}.

(** A visit below all that follow. *)
Lemma walk_spec_cons {V} (mb ma : gmap K V) k b' a' b a l :
  walk_spec mb ma b' a' l -> (forall k', k' ∈ b'.*1 \/ k' ∈ a'.*1 -> cmp k k' = Lt) ->
  (forall k', k' ∈ b.*1 \/ k' ∈ a.*1 <-> k' = k \/ k' ∈ b'.*1 \/ k' ∈ a'.*1) ->
  walk_spec mb ma b a ((k, mb !! k, ma !! k) :: l).
Proof.
  intros [I1 I2 I3 I4] Hlt Hkeys. split.
  - intros k0 o0 o0' [[= -> -> ->]|Hin]%elem_of_cons; [done|by apply I1].
  - intros k'. by rewrite fmap_cons, elem_of_cons, I2, Hkeys.
  - rewrite fmap_cons. constructor; [done|]. apply Forall_forall. intros k' Hk'. apply I2, Hlt in Hk'. cbn. unfold cmp_le. by rewrite Hk'.
  - rewrite fmap_cons. constructor; [|done]. cbn. by intros Hk'%I2%Hlt%cmp_irrefl.
Qed.

Lemma side_by_side_spec {V} (mb ma : gmap K V) fuel b a :
  tail_of mb b -> tail_of ma a -> in_step mb ma b a -> length b + length a <= fuel ->
  walk_spec mb ma b a (side_by_side fuel b a).
Proof.
  revert b a. induction fuel as [|fuel IH]; intros b a Hb Ha Hst Hf.
  { destruct b, a; cbn in Hf; try lia. split; [by intros ? ? ? ?%not_elem_of_nil|cbn; tauto|constructor|constructor]. }
  assert (HB : forall k v b', b = (k, v) :: b' -> (forall k', k' ∈ a.*1 -> cmp k k' = Lt) ->
    walk_spec mb ma b a ((k, Some v, None) :: side_by_side fuel b' a)).
  { intros k v b' -> Hlt. destruct (tail_cons _ _ _ _ Hb) as (Hb' & E & Hlb). destruct (in_step_one _ _ _ _ _ _ Hlt Hst) as [Hst' E'].
    rewrite <- E, <- E'. eapply walk_spec_cons; [apply IH; try done; cbn in Hf; lia|intros ? [?|?]; auto|].
    intros k'. cbn. rewrite elem_of_cons. tauto. }
  assert (HA : forall k w a', a = (k, w) :: a' -> (forall k', k' ∈ b.*1 -> cmp k k' = Lt) ->
    walk_spec mb ma b a ((k, None, Some w) :: side_by_side fuel b a')).
  { intros k w a' -> Hlt. destruct (tail_cons _ _ _ _ Ha) as (Ha' & E & Hla).
    destruct (in_step_one _ _ _ _ _ _ Hlt (in_step_swap _ _ _ _ Hst)) as [Hst' E'].
    rewrite <- E, <- E'. eapply walk_spec_cons; [apply IH; try done; [by apply in_step_swap|cbn in Hf; lia]|intros ? [?|?]; auto|].
    intros k'. cbn. rewrite elem_of_cons. tauto. }
  destruct b as [|[k v] b], a as [|[k' w] a]; cbn [side_by_side].
  - split; [by intros ? ? ? ?%not_elem_of_nil|cbn; tauto|constructor|constructor].
  - apply HA; [done|]. by intros ? ?%not_elem_of_nil.
  - apply HB; [done|]. by intros ? ?%not_elem_of_nil.
  - destruct (tail_cons _ _ _ _ Ha) as (Ha' & Ew & Hla). destruct (tail_cons _ _ _ _ Hb) as (Hb' & Ev & Hlb). destruct (cmp k k') eqn:E.
    + apply tcmp_eq in E as <-. rewrite <- Ev, <- Ew. eapply walk_spec_cons.
      * apply IH; try done; [by eapply in_step_both|cbn in Hf; lia].
      * intros ? [?|?]; auto.
      * intros k0. cbn. rewrite !elem_of_cons. tauto.
    + apply HB; [done|]. intros k0 [->|H0]%elem_of_cons; [done|]. by eapply tcmp_lt_trans; [exact E|apply Hla].
    + assert (E' : cmp k' k = Lt) by (by rewrite (tcmp_antisym k k'), E).
      apply HA; [done|]. intros k0 [->|H0]%elem_of_cons; [done|]. by eapply tcmp_lt_trans; [exact E'|apply Hlb].
Qed.

Lemma entries_tail {V} (m : gmap K V) : tail_of m (entries m).
Proof.
  split; rewrite ?entries_keys; [apply sorted_keys_sorted|apply sorted_keys_NoDup|]. intros k v. apply elem_of_entries.
Qed.

(** The walk visits every key of either map once, in order, with its two values. *)
Lemma walk_both_eq {V} (mb ma : gmap K V) :
  walk_both mb ma = (fun k => (k, mb !! k, ma !! k)) <$> sorted_keys_of (dom mb ∪ dom ma).
Proof.
  assert (Hin : forall (m : gmap K V) k, m !! k = None \/ k ∈ (entries m).*1).
  { intros m k. rewrite entries_keys, elem_of_key_order, elem_of_dom. destruct (m !! k); [right; by eexists|by left]. }
  destruct (side_by_side_spec mb ma (length (entries mb) + length (entries ma)) (entries mb) (entries ma)) as [H1 H2 H3 H4];
    [apply entries_tail|apply entries_tail|by split|done|].
  fold (walk_both mb ma) in *. set (l := walk_both mb ma) in *.
  rewrite <- (sorted_keys_unique (visited_keys l) (dom mb ∪ dom ma)); [|done|done|].
  - rewrite <- list_fmap_compose. rewrite <- (list_fmap_id l) at 1. apply list_fmap_ext. intros i [[k o] o'] Hi%list_elem_of_lookup_2.
    cbn. by destruct (H1 k o o' Hi) as [-> ->].
  - intros k. rewrite H2, !entries_keys, !elem_of_key_order. set_solver.
Qed.
End SortedMap.
