(* ===== verification/PatchMapping.v ===== *)
(** From a patch to the functions it changes (src/impact/PatchMapping.cpp): the reader of
    unified diffs, and the attribution of changed line ranges to indexed functions by the
    definitions and call sites the graph records in the file. *)

From S2P Require Import Prelude Utf8 StringInterner CallGraph Ordering Text Results SortedMap.

(** * Unified diffs *)

Record PatchRange := MkRange {
  pr_file : bytes;
  pr_firstLine : N;
  pr_lastLine : N;
  pr_deletionOnly : bool
}.

#[global] Instance PatchRange_eq_dec : EqDecision PatchRange.
Proof. solve_decision. Defined.

Definition strip_dots (p : bytes) : bytes := strip_prefixes (length p) (str "./") p.

Definition stripPatchPrefix (p0 : bytes) : bytes :=
  let p := rtrim (split_char Byte.x09 p0).1 in
  let p := if starts_with p (str "a/") || starts_with p (str "b/") then drop 2 p else p in
  strip_dots p.

(** "@@ -a[,b] +c[,d] @@ ...": the start and the count after the plus. *)
Definition parseHunkHeader (line : bytes) : option (N * N) :=
  if negb (starts_with line (str "@@ ")) then None
  else
    match find_char Byte.x2b line with
    | None => None
    | Some plus =>
        let after := drop (plus + 1) line in
        let after := match find_char Byte.x20 after with Some n => take n after | None => after end in
        let '(start, count) := split_char Byte.x2c after in
        match getAsInteger two32 start with
        | None => None
        | Some newStart =>
            match count with
            | [] => Some (newStart, 1%N)
            | _ :: _ => match getAsInteger two32 count with None => None | Some newCount => Some (newStart, newCount) end
            end
        end
    end.

(** The locals of the reader. *)
Record PatchReader := MkReader {
  rd_out : list PatchRange;
  rd_beforeName : bytes;
  rd_afterName : bytes;
  rd_inFile : bool;
  rd_deletedFile : bool
}.

Definition hunk_range (file : bytes) (deleted : bool) (start count : N) : PatchRange :=
  if (count =? 0)%N || deleted
  then MkRange file (if (start =? 0)%N then 1 else start)%N (if (start =? 0)%N then 1 else u32 (start + 1))%N true
  else MkRange file start (u32 (start + count - 1)) false.

Definition read_line (st : PatchReader) (line : bytes) : PatchReader :=
  if starts_with line (str "--- ") then
    MkReader (rd_out st) (stripPatchPrefix (drop 4 line)) (rd_afterName st) false (rd_deletedFile st)
  else if starts_with line (str "+++ ") then
    let name := stripPatchPrefix (drop 4 line) in
    let deleted := bool_decide (name = str "/dev/null") in
    let after := if deleted then rd_beforeName st else name in
    MkReader (rd_out st) (rd_beforeName st) after
      (negb (bool_decide (after = [])) && negb (bool_decide (after = str "/dev/null"))) deleted
  else if starts_with line (str "diff ") then
    MkReader (rd_out st) (rd_beforeName st) (rd_afterName st) false (rd_deletedFile st)
  else if rd_inFile st then
    match parseHunkHeader line with
    | Some (start, count) =>
        MkReader (rd_out st ++ [hunk_range (rd_afterName st) (rd_deletedFile st) start count])
          (rd_beforeName st) (rd_afterName st) (rd_inFile st) (rd_deletedFile st)
    | None => st
    end
  else st.

(** One round per line; each takes at least one character off the text. *)
Fixpoint read_patch (fuel : nat) (text : bytes) (st : PatchReader) : PatchReader :=
  match fuel, text with
  | S fuel', _ :: _ => let '(line, rest) := split_char Byte.x0a text in read_patch fuel' rest (read_line st line)
  | _, _ => st
  end.

Definition parseUnifiedDiff (text : bytes) : list PatchRange :=
  rd_out (read_patch (length text) text (MkReader [] [] [] false false)).

(** * Mapping ranges to functions *)

Inductive MappingVia := Argument | CallSite | Definition_ | Extent | File | Diff.

#[global] Instance MappingVia_eq_dec : EqDecision MappingVia.
Proof. solve_decision. Defined.

Definition mappingViaName (v : MappingVia) : bytes :=
  match v with
  | Argument => str "argument"
  | CallSite => str "call_site"
  | Definition_ => str "definition"
  | Extent => str "extent"
  | File => str "file"
  | Diff => str "diff"
  end.

Definition via_code (v : MappingVia) : N :=
  match v with Argument => 0 | CallSite => 1 | Definition_ => 2 | Extent => 3 | File => 4 | Diff => 5 end.

Record MappedFunction := MkMapped {
  mf_usr : bytes;
  mf_name : bytes;
  mf_file : bytes;
  mf_line : N;
  mf_via : MappingVia
}.

Record UnmappedRange := MkUnmapped {
  um_range : PatchRange;
  um_reason : bytes
}.

Record PatchMapping := MkMapping {
  pm_functions : list MappedFunction;
  pm_unmapped : list UnmappedRange;
  pm_viaCallSite : nat;
  pm_viaDefinition : nat;
  pm_viaExtent : nat;
  pm_viaFile : nat
}.

(** A line of a file and a function recorded there. *)
Abbreviation Located := (N * bytes)%type.

Definition located_cmp : Located -> Located -> comparison := lex_cmp N.compare bytes_cmp.

Record FileEntry := MkFileEntry {
  fe_defs : list Located;
  fe_sites : list Located
}.

Definition empty_entry : FileEntry := MkFileEntry [] [].

(** Equal, or one a component-suffix of the other. *)
Definition ends_component (long short : bytes) : bool :=
  bool_decide (short `suffix_of` long) && bool_decide (long !! (length long - length short - 1) = Some Byte.x2f).

Definition pathsMatch (a0 b0 : bytes) : bool :=
  let a := strip_dots a0 in
  let b := strip_dots b0 in
  if bool_decide (a = []) || bool_decide (b = []) then false
  else if bool_decide (a = b) then true
  else if length b <? length a then ends_component a b else ends_component b a.

(** "file:line:col". *)
Definition splitSite (s : bytes) : option (bytes * N) :=
  match rfind_char Byte.x3a s with
  | None | Some O => None
  | Some c2 =>
      match rfind_char_before Byte.x3a s c2 with
      | None | Some O => None
      | Some c1 =>
          match getAsInteger two32 (substr s (c1 + 1) (c2 - c1 - 1)) with
          | None => None
          | Some line => Some (take c1 s, line)
          end
      end
  end.

Definition entry_at (files : gmap bytes FileEntry) (f : bytes) : FileEntry := default empty_entry (files !! f).

Definition push_def (f : bytes) (d : Located) (files : gmap bytes FileEntry) : gmap bytes FileEntry :=
  <[f := MkFileEntry (fe_defs (entry_at files f) ++ [d]) (fe_sites (entry_at files f))]> files.

Definition push_call_site (f : bytes) (s : Located) (files : gmap bytes FileEntry) : gmap bytes FileEntry :=
  <[f := MkFileEntry (fe_defs (entry_at files f)) (fe_sites (entry_at files f) ++ [s])]> files.

(** [std::unique] on a sorted vector. *)
Fixpoint unique_located (l : list Located) : list Located :=
  match l with
  | a :: ((b :: _) as rest) => if decide (a = b) then unique_located rest else a :: unique_located rest
  | _ => l
  end.

Definition sort_entry (e : FileEntry) : FileEntry :=
  MkFileEntry (unique_located (merge_sort (cmp_le located_cmp) (fe_defs e))) (merge_sort (cmp_le located_cmp) (fe_sites e)).

Section Mapping.
Context `{UI : !UnorderedIter}.
Variable isValidUtf8 : bytes -> bool.
Variable g : CallGraph.

Definition add_site (files : gmap bytes FileEntry) (e : CallGraphEdge) : gmap bytes FileEntry :=
  match splitSite (e_callSite e) with
  | Some (f, line) => push_call_site f (line, callerUsr e) files
  | None => files
  end.

Definition add_node (files : gmap bytes FileEntry) (n : CallGraphNode) : gmap bytes FileEntry :=
  foldl add_site (push_def (file n) (line n, usr n) files) (calleesOf isValidUtf8 g (usr n)).

(** [graph.allNodes()], in the order of the hash map. *)
Definition graph_nodes : list CallGraphNode := (map_iter (nodes_ g)).*2.

Definition file_index : gmap bytes FileEntry := sort_entry <$> foldl add_node ∅ graph_nodes.

(** [nodes.emplace(n->usr, n)]: the first node of a usr. *)
Definition nodes_by_usr : gmap bytes CallGraphNode :=
  foldl (fun m n => match m !! usr n with Some _ => m | None => <[usr n := n]> m end) ∅ graph_nodes.

Definition attribute (u : bytes) (via : MappingVia) (mapped : gmap bytes MappedFunction) : gmap bytes MappedFunction :=
  match mapped !! u with
  | Some f =>
      if (via_code via <? via_code (mf_via f))%N
      then <[u := MkMapped (mf_usr f) (mf_name f) (mf_file f) (mf_line f) via]> mapped else mapped
  | None =>
      <[u := match nodes_by_usr !! u with
             | Some n => MkMapped u (qualifiedName n) (file n) (line n) via
             | None => MkMapped u u [] 0 via
             end]> mapped
  end.

Definition attribute_all (us : list bytes) (via : MappingVia) (mapped : gmap bytes MappedFunction) : gmap bytes MappedFunction :=
  foldl (fun m u => attribute u via m) mapped us.

Definition in_range (range : PatchRange) (d : Located) : bool :=
  (pr_firstLine range <=? d.1)%N && (d.1 <=? pr_lastLine range)%N.

(** [upper_bound] on the line, of a vector sorted by line: how many are at or before it. *)
Fixpoint upper_bound (l : list Located) (at_ : N) : nat :=
  match l with
  | [] => 0
  | d :: l' => if (at_ <? d.1)%N then 0 else S (upper_bound l' at_)
  end.

Definition lastBefore (l : list Located) (range : PatchRange) : option nat :=
  match upper_bound l (pr_firstLine range) with O => None | S i => Some i end.

Definition firstAfter (l : list Located) (range : PatchRange) : nat := upper_bound l (pr_lastLine range).

(** The run of anchors on the line of the one at a position, forward and then backward. *)
Fixpoint line_run (l : list Located) (at_ : N) : list bytes :=
  match l with
  | [] => []
  | d :: l' => if (d.1 =? at_)%N then d.2 :: line_run l' at_ else []
  end.

Definition sameLine (l : list Located) (pos : nat) (via : MappingVia) (mapped : gmap bytes MappedFunction) : gmap bytes MappedFunction :=
  match l !! pos with
  | None => mapped
  | Some d =>
      attribute_all (line_run (rev (take pos l)) d.1) via (attribute_all (line_run (drop pos l) d.1) via mapped)
  end.

(** [if (s.usr == last) continue; last = s.usr;] *)
Fixpoint distinct_runs (last : bytes) (us : list bytes) : list bytes :=
  match us with
  | [] => []
  | u :: us' => if decide (u = last) then distinct_runs last us' else u :: distinct_runs u us'
  end.

(** The owner's line, and the line of the next call site when it is in another body. *)
Definition estimate_from (entry : FileEntry) (range : PatchRange) (near : list Located) (pos : nat)
    (mapped : gmap bytes MappedFunction) : gmap bytes MappedFunction :=
  let mapped1 := sameLine near pos Extent mapped in
  let owner := default [] (snd <$> near !! pos) in
  let nextDef := fe_defs entry !! firstAfter (fe_defs entry) range in
  match fe_sites entry !! firstAfter (fe_sites entry) range with
  | Some s =>
      if negb (bool_decide (s.2 = owner)) && (match nextDef with None => true | Some d => (s.1 <? d.1)%N end)
      then sameLine (fe_sites entry) (firstAfter (fe_sites entry) range) Extent mapped1
      else mapped1
  | None => mapped1
  end.

(** The estimate for a range no anchor lies in. *)
Definition estimate (entry : FileEntry) (range : PatchRange) (mapped : gmap bytes MappedFunction) : gmap bytes MappedFunction :=
  let defs := fe_defs entry in
  let sites := fe_sites entry in
  match lastBefore defs range, lastBefore sites range with
  | None, None => attribute_all (distinct_runs [] sites.*2) File (attribute_all defs.*2 File mapped)
  | Some i, None => estimate_from entry range defs i mapped
  | None, Some j => estimate_from entry range sites j mapped
  | Some i, Some j =>
      if (default 0 (fst <$> sites !! j) <=? default 0 (fst <$> defs !! i))%N
      then estimate_from entry range defs i mapped
      else estimate_from entry range sites j mapped
  end.

Definition wanted_path (patchRoot : bytes) (range : PatchRange) : bytes :=
  match patchRoot with
  | [] => pr_file range
  | _ :: _ => patchRoot ++ (if decide (last patchRoot = Some Byte.x2f) then [] else [Byte.x2f]) ++ pr_file range
  end.

Definition matching_files (files : gmap bytes FileEntry) (wanted : bytes) : list (bytes * FileEntry) :=
  filter (fun kv => pathsMatch kv.1 wanted = true) (entries bytes_cmp files).

(** One range: the functions attributed, and the ranges left over. *)
Definition map_range (files : gmap bytes FileEntry) (patchRoot : bytes)
    (st : gmap bytes MappedFunction * list UnmappedRange) (range : PatchRange)
  : gmap bytes MappedFunction * list UnmappedRange :=
  let '(mapped, unmapped) := st in
  match matching_files files (wanted_path patchRoot range) with
  | [] => (mapped, unmapped ++ [MkUnmapped range (str "no function or call site indexed in this file")])
  | [(_, entry)] =>
      let defs := filter (fun d => in_range range d = true) (fe_defs entry) in
      let sites := filter (fun s => in_range range s = true) (fe_sites entry) in
      let mapped1 := attribute_all sites.*2 CallSite (attribute_all defs.*2 Definition_ mapped) in
      match defs, sites with
      | [], [] =>
          match fe_defs entry, fe_sites entry with
          | [], [] => (mapped1, unmapped ++ [MkUnmapped range (str "no function indexed at these lines")])
          | _, _ => (estimate entry range mapped1, unmapped)
          end
      | _, _ => (mapped1, unmapped)
      end
  | l => (mapped, unmapped ++ [MkUnmapped range (str "matches " ++ to_string (N.of_nat (length l)) ++ str " indexed files; pass patch_root")])
  end.

Definition unmapped_less (a b : UnmappedRange) : bool :=
  ltb_of (lex_cmp bytes_cmp N.compare (pr_file (um_range a), pr_firstLine (um_range a)) (pr_file (um_range b), pr_firstLine (um_range b))).

Definition count_via (v : MappingVia) (fs : list MappedFunction) : nat := length (filter (fun f => mf_via f = v) fs).

Context `{SS : !StdSort}.

Definition mapRangesToFunctions (ranges : list PatchRange) (patchRoot : bytes) : PatchMapping :=
  let '(mapped, unmapped) := foldl (map_range file_index patchRoot) (∅, []) ranges in
  let fs := (entries bytes_cmp mapped).*2 in
  MkMapping fs (std_sort unmapped_less unmapped) (count_via CallSite fs) (count_via Definition_ fs) (count_via Extent fs) (count_via File fs).
End Mapping.
