(* ===== verification/PatchMappingCorrect.v ===== *)
(** The anchors of a patch mapping (src/impact/PatchMapping.cpp): what the file index built
    from a graph holds, and what a sorted list of anchors tells of a changed range.

    What a patch mapping says (src/impact/PatchMapping.cpp): a declarative account of which
    functions a changed range may belong to, and that [mapRangesToFunctions] reports exactly
    those, each at its most precise attribution, and every range it could not place.

    Correctness of the mapping of a patch to functions: the report is exactly what the
    anchors of the graph support, and no changed range goes missing. *)

From S2P Require Import Prelude Utf8 StringInterner CallGraph CallGraphInv CallGraphQuery CallGraphMerge Ordering Text Results SortedMap PatchMapping.

(** * Sorted lists of anchors *)

#[global] Instance located_total_cmp : TotalCmp located_cmp.
Proof. apply _. Qed.

Abbreviation located_le := (cmp_le located_cmp).

(** An anchor of a list on a line. *)
Definition anchored (l : list Located) (at_ : N) (u : bytes) : Prop := (at_, u) ∈ l.

Lemma located_le_line a b : located_le a b -> (a.1 <= b.1)%N.
Proof.
  unfold cmp_le, located_cmp, lex_cmp. destruct a as [la ua], b as [lb ub]; cbn.
  destruct (N.compare_spec la lb); intros ?; try lia; done.
Qed.

Lemma located_le_usr a b : located_le a b -> a.1 = b.1 -> cmp_le bytes_cmp a.2 b.2.
Proof.
  unfold cmp_le, located_cmp, lex_cmp. destruct a as [la ua], b as [lb ub]; cbn. intros H ->. by rewrite N.compare_refl in H.
Qed.

Lemma located_le_refl a : located_le a a.
Proof. unfold cmp_le. by rewrite (proj2 (tcmp_eq a a) eq_refl). Qed.

Lemma unique_located_elem l d : d ∈ unique_located l <-> d ∈ l.
Proof.
  induction l as [|a l IH]; [done|]. destruct l as [|b l']; [done|]. cbn [unique_located].
  case_decide as E; [subst|]; rewrite ?elem_of_cons, IH, ?elem_of_cons; naive_solver.
Qed.

Lemma unique_located_sorted l : StronglySorted located_le l -> StronglySorted located_le (unique_located l).
Proof.
  induction l as [|a l IH]; [done|]. intros [Hle Hs]%StronglySorted_cons. destruct l as [|b l']; [by repeat constructor|].
  cbn [unique_located]. case_decide; [by apply IH|]. constructor; [by apply IH|].
  apply Forall_forall. intros d Hd. change (d ∈ unique_located (b :: l')) in Hd. rewrite unique_located_elem in Hd. by eapply Forall_forall in Hle.
Qed.

Lemma sort_entry_defs e d : d ∈ fe_defs (sort_entry e) <-> d ∈ fe_defs e.
Proof. cbn. by rewrite unique_located_elem, merge_sort_Permutation. Qed.

Lemma sort_entry_sites e d : d ∈ fe_sites (sort_entry e) <-> d ∈ fe_sites e.
Proof. cbn. by rewrite merge_sort_Permutation. Qed.

Definition entry_sorted (e : FileEntry) : Prop :=
  StronglySorted located_le (fe_defs e) /\ StronglySorted located_le (fe_sites e).

Lemma sort_entry_sorted e : entry_sorted (sort_entry e).
Proof. split; cbn; [apply unique_located_sorted|]; apply StronglySorted_merge_sort; apply _. Qed.

(** [upper_bound] splits a sorted list at a line. *)
Lemma upper_bound_split l at_ : StronglySorted located_le l ->
  Forall (fun d => (d.1 <= at_)%N) (take (upper_bound l at_) l) /\ Forall (fun d => (at_ < d.1)%N) (drop (upper_bound l at_) l).
Proof.
  induction l as [|d l IH]; [done|]. intros [Hle Hs]%StronglySorted_cons. cbn [upper_bound]. destruct (N.ltb_spec at_ d.1) as [Hlt|Hge].
  - split; [constructor|]. cbn. constructor; [done|]. eapply Forall_impl; [exact Hle|]. cbn. intros d' H%located_le_line. lia.
  - destruct (IH Hs) as [H1 H2]. split; [cbn; by constructor|done].
Qed.

Lemma upper_bound_le l at_ : upper_bound l at_ <= length l.
Proof. induction l as [|d l IH]; cbn [upper_bound length]; [done|]. case_match; lia. Qed.

(** The last anchor at or before the range. *)
Lemma lastBefore_Some l range i : StronglySorted located_le l -> lastBefore l range = Some i ->
  exists d, l !! i = Some d /\ (d.1 <= pr_firstLine range)%N /\
    forall d', d' ∈ l -> (d'.1 <= pr_firstLine range)%N -> located_le d' d.
Proof.
  unfold lastBefore. intros Hs E. destruct (upper_bound_split l (pr_firstLine range) Hs) as [H1 H2].
  pose proof (upper_bound_le l (pr_firstLine range)) as Hle.
  destruct (upper_bound l (pr_firstLine range)) as [|k]; [done|]. injection E as <-.
  destruct (lookup_lt_is_Some_2 l k) as [d Ed]; [lia|]. exists d. split; [done|]. rewrite (take_S_r _ _ _ Ed) in H1.
  apply Forall_app in H1 as [Hb Hd]. rewrite Forall_singleton in Hd. split; [exact Hd|]. intros d' Hd' Hl'.
  rewrite <- (take_drop_middle _ _ _ Ed) in Hs, Hd'. apply StronglySorted_app in Hs as (Hcross & _ & Hs').
  apply elem_of_app in Hd' as [Hin|[->|Hin]%elem_of_cons].
  - apply Hcross; [done|left].
  - apply located_le_refl.
  - eapply Forall_forall in H2; [|exact Hin]. cbn in H2. lia.
Qed.

Lemma lastBefore_None l range : StronglySorted located_le l -> lastBefore l range = None ->
  forall d, d ∈ l -> (pr_firstLine range < d.1)%N.
Proof.
  unfold lastBefore. intros Hs E d Hd. destruct (upper_bound_split l (pr_firstLine range) Hs) as [_ H2].
  destruct (upper_bound l (pr_firstLine range)); [|done]. by eapply Forall_forall in H2.
Qed.

(** The first anchor after the range. *)
Lemma firstAfter_Some l range d : StronglySorted located_le l -> l !! firstAfter l range = Some d ->
  (pr_lastLine range < d.1)%N /\ forall d', d' ∈ l -> (pr_lastLine range < d'.1)%N -> located_le d d'.
Proof.
  unfold firstAfter. intros Hs Ed. destruct (upper_bound_split l (pr_lastLine range) Hs) as [H1 H2].
  rewrite (drop_S _ _ _ Ed) in H2. apply Forall_cons in H2 as [Hd H2]. split; [done|]. intros d' Hd' Hl'.
  rewrite <- (take_drop_middle _ _ _ Ed) in Hs, Hd'. apply StronglySorted_app in Hs as (_ & _ & [Hdrop _]%StronglySorted_cons).
  apply elem_of_app in Hd' as [Hin|[->|Hin]%elem_of_cons].
  - eapply Forall_forall in H1; [|exact Hin]. cbn in H1. lia.
  - apply located_le_refl.
  - by eapply Forall_forall in Hdrop.
Qed.

Lemma firstAfter_None l range : StronglySorted located_le l -> l !! firstAfter l range = None ->
  forall d, d ∈ l -> (d.1 <= pr_lastLine range)%N.
Proof.
  unfold firstAfter. intros Hs E%lookup_ge_None d Hd. destruct (upper_bound_split l (pr_lastLine range) Hs) as [H1 _].
  rewrite take_ge in H1 by done. by eapply Forall_forall in H1.
Qed.

Lemma StronglySorted_impl_strong {A} (R S : A -> A -> Prop) l :
  StronglySorted R l -> (forall x y, x ∈ l -> y ∈ l -> R x y -> S x y) -> StronglySorted S l.
Proof.
  intros Hs. induction Hs as [|a l Hs IH Hle]; intros HI; constructor.
  - apply IH. intros x y Hx Hy. by apply HI; right.
  - apply Forall_forall. intros y Hy. eapply Forall_forall in Hle; [|exact Hy]. apply HI; [left|by right|done].
Qed.

(** The anchors on one line are a run around any of them. *)
Lemma line_run_elem l at_ u :
  StronglySorted (fun a b : Located => a.1 <> at_ -> b.1 <> at_) l -> u ∈ line_run l at_ <-> (at_, u) ∈ l.
Proof.
  intros Hs. induction Hs as [|d l Hs IH Hle]; cbn [line_run]; [split; by intros ?%not_elem_of_nil|].
  destruct (N.eqb_spec d.1 at_) as [E|E].
  - rewrite !elem_of_cons, IH by done. destruct d as [a v]; cbn in *. naive_solver.
  - split; [by intros ?%not_elem_of_nil|]. intros [Eq|Hin]%elem_of_cons; [subst d; by cbn in E|].
    eapply Forall_forall in Hle; [|exact Hin]. by apply Hle in E.
Qed.

Lemma StronglySorted_rev {A} (R : A -> A -> Prop) l : StronglySorted R l -> StronglySorted (flip R) (rev l).
Proof.
  induction 1 as [|a l Hs IH Hle]; cbn; [constructor|]. apply StronglySorted_app. split_and!; [|done|by repeat constructor].
  intros x y Hx ->%list_elem_of_singleton. rewrite elem_of_rev in Hx. rewrite Forall_forall in Hle. by apply Hle.
Qed.

(** The two runs from a position are the anchors of its line. *)
Lemma both_runs l pos d u : StronglySorted located_le l -> l !! pos = Some d ->
  u ∈ line_run (drop pos l) d.1 \/ u ∈ line_run (rev (take pos l)) d.1 <-> (d.1, u) ∈ l.
Proof.
  intros Hs Ed. pose proof Hs as Hs'. rewrite <- (take_drop_middle _ _ _ Ed) in Hs'.
  apply StronglySorted_app in Hs' as (Hcross & Hb & Ha). rewrite (drop_S _ _ _ Ed).
  assert (Hd : forall d', d' ∈ d :: drop (S pos) l -> (d.1 <= d'.1)%N).
  { intros d' [->|H]%elem_of_cons; [done|]. apply StronglySorted_cons in Ha as [Ha _]. eapply Forall_forall in Ha; [|exact H]. by apply located_le_line. }
  assert (Hd2 : forall d', d' ∈ take pos l -> (d'.1 <= d.1)%N) by (intros d' H; apply located_le_line, Hcross; [done|left]).
  rewrite !line_run_elem.
  - transitivity ((d.1, u) ∈ take pos l ++ d :: drop (S pos) l); [rewrite elem_of_app, elem_of_rev; tauto|].
    by rewrite (take_drop_middle _ _ _ Ed).
  - apply StronglySorted_rev in Hb. eapply StronglySorted_impl_strong; [exact Hb|]. cbn.
    intros x y Hx Hy Hle%located_le_line ? ?. rewrite elem_of_rev in Hx, Hy. apply Hd2 in Hx, Hy. lia.
  - eapply StronglySorted_impl_strong; [exact Ha|]. cbn. intros x y Hx Hy Hle%located_le_line ? ?. apply Hd in Hx, Hy. lia.
Qed.

(** * The file index *)

Lemma defs_push_def f d files f' d' :
  d' ∈ fe_defs (entry_at (push_def f d files) f') <-> d' ∈ fe_defs (entry_at files f') \/ (f' = f /\ d' = d).
Proof.
  unfold entry_at at 1, push_def. destruct (decide (f' = f)) as [->|E]; [rewrite lookup_insert_eq|rewrite lookup_insert_ne by done].
  - cbn. rewrite elem_of_app, list_elem_of_singleton. naive_solver.
  - fold (entry_at files f'). naive_solver.
Qed.

Lemma sites_push_site f d files f' d' :
  d' ∈ fe_sites (entry_at (push_call_site f d files) f') <-> d' ∈ fe_sites (entry_at files f') \/ (f' = f /\ d' = d).
Proof.
  unfold entry_at at 1, push_call_site. destruct (decide (f' = f)) as [->|E]; [rewrite lookup_insert_eq|rewrite lookup_insert_ne by done].
  - cbn. rewrite elem_of_app, list_elem_of_singleton. naive_solver.
  - fold (entry_at files f'). naive_solver.
Qed.

Lemma sites_push_def f d files f' : fe_sites (entry_at (push_def f d files) f') = fe_sites (entry_at files f').
Proof. unfold entry_at, push_def. destruct (decide (f' = f)) as [->|E]; [by rewrite lookup_insert_eq|by rewrite lookup_insert_ne]. Qed.

Lemma defs_push_site f d files f' : fe_defs (entry_at (push_call_site f d files) f') = fe_defs (entry_at files f').
Proof. unfold entry_at, push_call_site. destruct (decide (f' = f)) as [->|E]; [by rewrite lookup_insert_eq|by rewrite lookup_insert_ne]. Qed.

(** No entry is empty. *)
Definition no_empty_entry (files : gmap bytes FileEntry) : Prop :=
  forall f e, files !! f = Some e -> exists d, d ∈ fe_defs e \/ d ∈ fe_sites e.

Lemma no_empty_entry_nil : no_empty_entry ∅.
Proof. intros f e. by rewrite lookup_empty. Qed.

Lemma push_def_no_empty f d files : no_empty_entry files -> no_empty_entry (push_def f d files).
Proof.
  intros H f' e. unfold push_def. destruct (decide (f' = f)) as [->|E]; [rewrite lookup_insert_eq|rewrite lookup_insert_ne by done; apply H].
  intros [= <-]. exists d. left. cbn. rewrite elem_of_app. right. left.
Qed.

Lemma push_site_no_empty f d files : no_empty_entry files -> no_empty_entry (push_call_site f d files).
Proof.
  intros H f' e. unfold push_call_site. destruct (decide (f' = f)) as [->|E]; [rewrite lookup_insert_eq|rewrite lookup_insert_ne by done; apply H].
  intros [= <-]. exists d. right. cbn. rewrite elem_of_app. right. left.
Qed.

Section FileIndex.
Context `{UI : !UnorderedIter}.
Variable isValidUtf8 : bytes -> bool.
Variable g : CallGraph.

Abbreviation index_files := (file_index isValidUtf8 g).

Lemma add_sites_defs es files f : fe_defs (entry_at (foldl add_site files es) f) = fe_defs (entry_at files f).
Proof.
  revert files. induction es as [|e es IH]; intros files; [done|]. cbn [foldl]. rewrite IH. unfold add_site.
  destruct (splitSite (e_callSite e)) as [[f' l]|]; [apply defs_push_site|done].
Qed.

Lemma add_sites_sites es files f d : d ∈ fe_sites (entry_at (foldl add_site files es) f) <->
  d ∈ fe_sites (entry_at files f) \/ exists e, e ∈ es /\ splitSite (e_callSite e) = Some (f, d.1) /\ callerUsr e = d.2.
Proof.
  revert files. induction es as [|e es IH]; intros files; cbn [foldl].
  { split; [by left|]. intros [?|(e & He%not_elem_of_nil & _)]; done. }
  rewrite IH. setoid_rewrite elem_of_cons. unfold add_site. destruct (splitSite (e_callSite e)) as [[f' l]|] eqn:Es.
  - rewrite sites_push_site. destruct d as [l' u]; cbn. naive_solver.
  - naive_solver.
Qed.

Lemma add_sites_no_empty es files : no_empty_entry files -> no_empty_entry (foldl add_site files es).
Proof.
  revert files. induction es as [|e es IH]; intros files H; [done|]. cbn [foldl]. apply IH. unfold add_site.
  destruct (splitSite (e_callSite e)) as [[f l]|]; [by apply push_site_no_empty|done].
Qed.

Lemma add_nodes_spec ns files f d :
  let files' := foldl (add_node isValidUtf8 g) files ns in
  (d ∈ fe_defs (entry_at files' f) <-> d ∈ fe_defs (entry_at files f) \/ exists n, n ∈ ns /\ file n = f /\ d = (line n, usr n)) /\
  (d ∈ fe_sites (entry_at files' f) <-> d ∈ fe_sites (entry_at files f) \/
    exists n e, n ∈ ns /\ e ∈ calleesOf isValidUtf8 g (usr n) /\ splitSite (e_callSite e) = Some (f, d.1) /\ callerUsr e = d.2).
Proof.
  revert files. induction ns as [|n ns IH]; intros files; cbn [foldl].
  { split; (split; [by left|]); [intros [?|(n & Hn%not_elem_of_nil & _)]|intros [?|(n & e & Hn%not_elem_of_nil & _)]]; done. }
  cbn zeta in IH. destruct (IH (add_node isValidUtf8 g files n)) as [-> ->]. unfold add_node.
  rewrite add_sites_defs, add_sites_sites, defs_push_def, sites_push_def. setoid_rewrite elem_of_cons. split; naive_solver.
Qed.

Lemma add_nodes_no_empty ns files : no_empty_entry files -> no_empty_entry (foldl (add_node isValidUtf8 g) files ns).
Proof.
  revert files. induction ns as [|n ns IH]; intros files H; [done|]. cbn [foldl]. apply IH. by apply add_sites_no_empty, push_def_no_empty.
Qed.

Definition is_node (n : CallGraphNode) : Prop := exists id, nodes_ g !! id = Some n.

Lemma elem_of_graph_nodes n : n ∈ graph_nodes g <-> is_node n.
Proof.
  unfold graph_nodes, is_node. rewrite list_elem_of_fmap. split.
  - intros ([id n'] & -> & Hin). exists id. by apply elem_of_map_iter in Hin.
  - intros [id E]. exists (id, n). split; [done|]. by apply elem_of_map_iter.
Qed.

(** A function recorded at a line of a file, and a call made from one. *)
Definition defined_at (f : bytes) (d : Located) : Prop := exists n, is_node n /\ file n = f /\ d = (line n, usr n).
Definition called_at (f : bytes) (d : Located) : Prop :=
  exists n e, is_node n /\ e ∈ calleesOf isValidUtf8 g (usr n) /\ splitSite (e_callSite e) = Some (f, d.1) /\ callerUsr e = d.2.

Lemma file_index_entry f e : index_files !! f = Some e ->
  entry_sorted e /\ (forall d, d ∈ fe_defs e <-> defined_at f d) /\ (forall d, d ∈ fe_sites e <-> called_at f d) /\
  exists d, d ∈ fe_defs e \/ d ∈ fe_sites e.
Proof.
  unfold file_index. intros (e0 & <- & E)%lookup_fmap_Some. split; [apply sort_entry_sorted|].
  assert (He : entry_at (foldl (add_node isValidUtf8 g) ∅ (graph_nodes g)) f = e0) by (unfold entry_at; rewrite E; done).
  assert (Hnil : entry_at ∅ f = empty_entry) by done. split_and!.
  - intros d. rewrite sort_entry_defs, <- He, (proj1 (add_nodes_spec _ _ _ _)), Hnil. cbn. setoid_rewrite elem_of_graph_nodes.
    rewrite elem_of_nil. unfold defined_at. naive_solver.
  - intros d. rewrite sort_entry_sites, <- He, (proj2 (add_nodes_spec _ _ _ _)), Hnil. cbn. setoid_rewrite elem_of_graph_nodes.
    rewrite elem_of_nil. unfold called_at. naive_solver.
  - destruct (add_nodes_no_empty (graph_nodes g) ∅ no_empty_entry_nil f e0 E) as [d Hd]. exists d. by rewrite sort_entry_defs, sort_entry_sites.
Qed.

Lemma file_index_is_Some f : is_Some (index_files !! f) <-> exists d, defined_at f d \/ called_at f d.
Proof.
  split.
  - intros [e E]. destruct (file_index_entry f e E) as (_ & Hd & Hs & d & H). exists d. by rewrite <- Hd, <- Hs.
  - intros [d H]. unfold file_index. rewrite lookup_fmap, fmap_is_Some.
    destruct (foldl (add_node isValidUtf8 g) ∅ (graph_nodes g) !! f) as [e|] eqn:E; [by eexists|exfalso].
    pose proof (add_nodes_spec (graph_nodes g) ∅ f d) as [H1 H2]. unfold entry_at in H1, H2. rewrite E in H1, H2. cbn in H1, H2.
    setoid_rewrite elem_of_graph_nodes in H1. setoid_rewrite elem_of_graph_nodes in H2. rewrite elem_of_nil in H1, H2.
    unfold defined_at, called_at in H. naive_solver.
Qed.
End FileIndex.

(** * Candidates of a range *)

Section Candidates.
(** The functions recorded in a file and the calls made from it. *)
Variables D S : Located -> Prop.
Variable range : PatchRange.

Definition within (d : Located) : Prop := (pr_firstLine range <= d.1 <= pr_lastLine range)%N.

(** No anchor lies in the range. *)
Definition quiet : Prop := forall d, D d \/ S d -> ~ within d.

(** The last of some anchors at or before the first line of the range, and the first of them after
    its last line, by line and then usr. *)
Definition nearest_before (P : Located -> Prop) (d : Located) : Prop :=
  P d /\ (d.1 <= pr_firstLine range)%N /\ forall d', P d' -> (d'.1 <= pr_firstLine range)%N -> located_le d' d.
Definition nearest_after (P : Located -> Prop) (d : Located) : Prop :=
  P d /\ (pr_lastLine range < d.1)%N /\ forall d', P d' -> (pr_lastLine range < d'.1)%N -> located_le d d'.

(** Whose body the range starts in: the nearer of the last declaration and the last call before it,
    the declaration when they share a line. *)
Inductive owner : bool -> Located -> Prop :=
| owner_def d : nearest_before D d -> (forall s, nearest_before S s -> (s.1 <= d.1)%N) -> owner true d
| owner_site s : nearest_before S s -> (forall d, nearest_before D d -> (d.1 < s.1)%N) -> owner false s.

(** The anchors of the owner's kind. *)
Definition side (declared : bool) : Located -> Prop := if declared then D else S.

Inductive candidate : bytes -> MappingVia -> Prop :=
| cand_def d : D d -> within d -> candidate d.2 Definition_
| cand_site s : S s -> within s -> candidate s.2 CallSite
| cand_body b o u : quiet -> owner b o -> side b (o.1, u) -> candidate u Extent
| cand_next b o s u : quiet -> owner b o -> nearest_after S s -> s.2 <> o.2 ->
    (forall d, nearest_after D d -> (s.1 < d.1)%N) -> S (s.1, u) -> candidate u Extent
| cand_file u d : quiet -> (forall d', D d' \/ S d' -> (pr_firstLine range < d'.1)%N) -> D d \/ S d -> d.2 = u ->
    candidate u File.

Lemma nearest_before_unique P d d' : nearest_before P d -> nearest_before P d' -> d = d'.
Proof. intros (H1 & H2 & H3) (H1' & H2' & H3'). apply (anti_symm located_le); auto. Qed.

Lemma nearest_after_unique P d d' : nearest_after P d -> nearest_after P d' -> d = d'.
Proof. intros (H1 & H2 & H3) (H1' & H2' & H3'). apply (anti_symm located_le); auto. Qed.

Lemma owner_unique b b' o o' : owner b o -> owner b' o' -> b = b' /\ o = o'.
Proof.
  intros [d Hd Hs|s Hs Hd] [d' Hd' Hs'|s' Hs' Hd'].
  - split; [done|]. by eapply nearest_before_unique.
  - apply Hs in Hs'. apply Hd' in Hd. lia.
  - apply Hs' in Hs. apply Hd in Hd'. lia.
  - split; [done|]. by eapply nearest_before_unique.
Qed.
End Candidates.

Lemma nearest_before_ext P Q range d : (forall d, P d <-> Q d) -> nearest_before range P d -> nearest_before range Q d.
Proof. intros E (H1 & H2 & H3). split_and!; [by apply E|done|]. intros d' H%E. by apply H3. Qed.

Lemma nearest_after_ext P Q range d : (forall d, P d <-> Q d) -> nearest_after range P d -> nearest_after range Q d.
Proof. intros E (H1 & H2 & H3). split_and!; [by apply E|done|]. intros d' H%E. by apply H3. Qed.

Lemma candidate_ext D S D' S' range u v :
  (forall d, D d <-> D' d) -> (forall d, S d <-> S' d) -> candidate D S range u v -> candidate D' S' range u v.
Proof.
  intros ED ES. assert (ED' : forall d, D' d <-> D d) by done. assert (ES' : forall d, S' d <-> S d) by done.
  assert (HQ : quiet D S range -> quiet D' S' range) by (intros H d; rewrite <- ED, <- ES; apply H).
  assert (HP : forall b d, side D S b d -> side D' S' b d) by (intros [] d; cbn; [apply ED|apply ES]).
  assert (HO : forall b o, owner D S range b o -> owner D' S' range b o).
  { intros b o [d Hd Hs|s Hs Hd]; [apply owner_def|apply owner_site]; try (by eapply nearest_before_ext);
      intros x Hx; [apply Hs|apply Hd]; by eapply nearest_before_ext. }
  destruct 1 as [d Hd Hw|s Hs Hw|b o u Hq Ho Hp|b o s u Hq Ho Hn Hne Hd Hs|u d Hq Hall Hd Hu].
  - by apply cand_def; [apply ED|].
  - by apply cand_site; [apply ES|].
  - by eapply cand_body; eauto.
  - eapply cand_next with b o s; eauto; [by eapply nearest_after_ext| |by apply ES]. intros x Hx. apply Hd. by eapply nearest_after_ext.
  - eapply cand_file with d; eauto; [|by rewrite <- ED, <- ES]. intros d'. rewrite <- ED, <- ES. apply Hall.
Qed.

(** * Collecting attributions *)

Section Attribution.
Context `{UI : !UnorderedIter}.
Variable g : CallGraph.

(** What [attribute] records of a function. *)
Definition facts (u : bytes) (v : MappingVia) : MappedFunction :=
  match nodes_by_usr g !! u with
  | Some n => MkMapped u (qualifiedName n) (file n) (line n) v
  | None => MkMapped u u [] 0 v
  end.

Lemma facts_via u v : mf_via (facts u v) = v.
Proof. unfold facts. by destruct (nodes_by_usr g !! u). Qed.

Lemma facts_usr u v : mf_usr (facts u v) = u.
Proof. unfold facts. by destruct (nodes_by_usr g !! u). Qed.

Definition attributions := bytes -> MappingVia -> Prop.

(** The most precise of the attributions of a function. *)
Definition most_precise (T : attributions) (u : bytes) (v : MappingVia) : Prop :=
  T u v /\ forall v', T u v' -> (via_code v <= via_code v')%N.

Definition collects (T : attributions) (mapped : gmap bytes MappedFunction) : Prop :=
  forall u, match mapped !! u with
            | None => forall v, ~ T u v
            | Some f => exists v, f = facts u v /\ most_precise T u v
            end.

Lemma collects_ext T T' mapped : (forall u v, T u v <-> T' u v) -> collects T mapped -> collects T' mapped.
Proof.
  intros E H u. specialize (H u). destruct (mapped !! u) as [f|].
  - destruct H as (v & -> & H1 & H2). exists v. split; [done|]. split; [by apply E|]. intros v' H'%E. by apply H2.
  - intros v Hv%E. by apply (H v).
Qed.

(** A change to one function leaves what is said of the others. *)
Lemma collects_at T u via mapped f :
  collects T mapped -> (exists v, f = facts u v /\ most_precise (fun w v => T w v \/ (v = via /\ w = u)) u v) ->
  collects (fun w v => T w v \/ (v = via /\ w = u)) (<[u := f]> mapped).
Proof.
  intros H Hf w. destruct (decide (w = u)) as [->|Hne]; [by rewrite lookup_insert_eq|]. rewrite lookup_insert_ne by done.
  specialize (H w). destruct (mapped !! w) as [f'|]; [|naive_solver].
  destruct H as (v0 & -> & H1 & H2). exists v0. split; [done|]. split; [by left|]. intros v' [?|[_ ?]]; [by apply H2|done].
Qed.

Lemma attribute_collects T u via mapped :
  collects T mapped -> collects (fun w v => T w v \/ (v = via /\ w = u)) (attribute g u via mapped).
Proof.
  intros H. pose proof (H u) as Hu. unfold attribute. destruct (mapped !! u) as [f|] eqn:E.
  - destruct Hu as (v & -> & Hv & Hleast). rewrite facts_via. destruct (N.ltb_spec (via_code via) (via_code v)) as [Hlt|Hge].
    + apply collects_at; [done|]. exists via. split; [unfold facts; by destruct (nodes_by_usr g !! u)|]. split; [by right|].
      intros v' [H'|[-> _]]; [|done]. apply Hleast in H'. lia.
    + rewrite <- (insert_id mapped u _ E). apply collects_at; [done|]. exists v. split; [done|]. split; [by left|].
      intros v' [?|[-> _]]; [by apply Hleast|done].
  - apply collects_at; [done|]. exists via. split; [done|]. split; [by right|]. intros v' [?|[-> _]]; [by destruct (Hu v')|done].
Qed.

Lemma attribute_all_collects us via T mapped :
  collects T mapped -> collects (fun w v => T w v \/ (v = via /\ w ∈ us)) (attribute_all g us via mapped).
Proof.
  revert T mapped. induction us as [|u us IH]; intros T mapped H.
  - eapply collects_ext; [|exact H]. intros w v. rewrite elem_of_nil. tauto.
  - cbn [attribute_all foldl]. eapply collects_ext; [|by apply IH, attribute_collects]. cbn. intros w v. rewrite elem_of_cons. tauto.
Qed.

Lemma distinct_runs_elem last us u : u <> last -> u ∈ distinct_runs last us <-> u ∈ us.
Proof.
  revert last. induction us as [|v us IH]; intros last Hne; [done|]. cbn [distinct_runs]. rewrite elem_of_cons. case_decide as E.
  - rewrite IH by done. naive_solver.
  - rewrite elem_of_cons. destruct (decide (u = v)) as [->|Hv]; [naive_solver|]. rewrite IH by done. done.
Qed.

Lemma distinct_runs_subset last us u : u ∈ distinct_runs last us -> u ∈ us.
Proof.
  revert last. induction us as [|v us IH]; intros last; [done|]. cbn [distinct_runs]. rewrite elem_of_cons.
  case_decide; [naive_solver|]. rewrite elem_of_cons. naive_solver.
Qed.

Lemma sameLine_collects l pos d via T mapped : StronglySorted located_le l -> l !! pos = Some d -> collects T mapped ->
  collects (fun w v => T w v \/ (v = via /\ (d.1, w) ∈ l)) (sameLine g l pos via mapped).
Proof.
  intros Hs Ed H. unfold sameLine. rewrite Ed. eapply collects_ext; [|by apply attribute_all_collects, attribute_all_collects].
  cbn. intros w v. rewrite <- (both_runs l pos d w Hs Ed). tauto.
Qed.

(** ** One range *)

Section Range.
Variable e : FileEntry.
Variable range : PatchRange.
Hypothesis Hsorted : entry_sorted e.

Abbreviation D := (fun d => d ∈ fe_defs e).
Abbreviation S := (fun d => d ∈ fe_sites e).

Lemma lastBefore_nearest l i : StronglySorted located_le l -> lastBefore l range = Some i ->
  exists d, l !! i = Some d /\ nearest_before range (fun d => d ∈ l) d.
Proof.
  intros Hs E. destruct (lastBefore_Some l range i Hs E) as (d & Ed & Hd & Hmax). exists d. split; [done|].
  split_and!; [by eapply list_elem_of_lookup_2|done|done].
Qed.

Lemma lastBefore_none l d : StronglySorted located_le l -> lastBefore l range = None -> ~ nearest_before range (fun d => d ∈ l) d.
Proof. intros Hs E (Hd & Hle & _). apply (lastBefore_None l range Hs E) in Hd. lia. Qed.

Lemma firstAfter_nearest l d : StronglySorted located_le l -> l !! firstAfter l range = Some d ->
  nearest_after range (fun d => d ∈ l) d.
Proof.
  intros Hs E. destruct (firstAfter_Some l range d Hs E) as (Hd & Hmin). split_and!; [by eapply list_elem_of_lookup_2|done|done].
Qed.

Lemma firstAfter_none l d : StronglySorted located_le l -> l !! firstAfter l range = None -> ~ nearest_after range (fun d => d ∈ l) d.
Proof. intros Hs E (Hd & Hlt & _). apply (firstAfter_None l range Hs E) in Hd. lia. Qed.

(** In a quiet range with an owner, the candidates are the owner's line and perhaps the next call's. *)
Lemma candidate_of_owner b o u v : quiet D S range -> owner D S range b o ->
  candidate D S range u v <->
    v = Extent /\ (side D S b (o.1, u) \/
      exists s, nearest_after range S s /\ s.2 <> o.2 /\ (forall d, nearest_after range D d -> (s.1 < d.1)%N) /\ S (s.1, u)).
Proof.
  intros Hq Ho. split.
  - destruct 1 as [d Hd Hw|s Hs Hw|b' o' u Hq' Ho' Hp|b' o' s u Hq' Ho' Hn Hne Hd Hs|u d Hq' Hall Hd Hu].
    + destruct (Hq d); auto.
    + destruct (Hq s); auto.
    + destruct (owner_unique _ _ _ _ _ _ _ Ho Ho') as [-> ->]. auto.
    + destruct (owner_unique _ _ _ _ _ _ _ Ho Ho') as [-> ->]. split; [done|]. right. by exists s.
    + exfalso. destruct Ho as [d' (Hin & Hle & _) _|d' (Hin & Hle & _) _]; [pose proof (Hall d' (or_introl Hin))|pose proof (Hall d' (or_intror Hin))]; lia.
  - intros [-> [Hp|(s & Hn & Hne & Hd & Hs)]]; [by eapply cand_body|by eapply cand_next].
Qed.

Lemma estimate_from_collects b o pos T mapped : quiet D S range -> owner D S range b o ->
  (if b then fe_defs e else fe_sites e) !! pos = Some o -> collects T mapped ->
  collects (fun u v => T u v \/ candidate D S range u v) (estimate_from g e range (if b then fe_defs e else fe_sites e) pos mapped).
Proof.
  intros Hq Ho Epos H. destruct Hsorted as [Hsd Hss]. unfold estimate_from. rewrite Epos. cbn [fmap option_fmap option_map default id].
  assert (Hnear : collects (fun w v => T w v \/ v = Extent /\ side D S b (o.1, w)) (sameLine g (if b then fe_defs e else fe_sites e) pos Extent mapped)).
  { eapply collects_ext; [|apply (sameLine_collects _ _ o); [by destruct b|exact Epos|exact H]]. intros w v. by destruct b. }
  destruct (fe_sites e !! firstAfter (fe_sites e) range) as [s|] eqn:Es.
  - pose proof (firstAfter_nearest _ _ Hss Es) as Hs.
    set (ahead := match fe_defs e !! firstAfter (fe_defs e) range with None => true | Some d => (s.1 <? d.1)%N end).
    assert (Hbefore : ahead = true <-> forall d, nearest_after range D d -> (s.1 < d.1)%N).
    { unfold ahead. destruct (fe_defs e !! firstAfter (fe_defs e) range) as [d|] eqn:Ed.
      - pose proof (firstAfter_nearest _ _ Hsd Ed) as Hd. rewrite N.ltb_lt. split; [|auto]. intros Hlt d' Hd'. by rewrite (nearest_after_unique _ _ _ _ Hd' Hd).
      - split; [|done]. intros _ d Hd. by destruct (firstAfter_none _ _ Hsd Ed Hd). }
    destruct (negb (bool_decide (s.2 = o.2)) && ahead) eqn:Eb.
    + apply andb_true_iff in Eb as [Hne%negb_true_iff%bool_decide_eq_false Hd0]. pose proof (proj1 Hbefore Hd0) as Hd.
      eapply collects_ext; [|by eapply sameLine_collects]. cbn. intros u v. rewrite (candidate_of_owner b o u v Hq Ho). split.
      * intros [[?|[-> ?]]|[-> ?]]; [by left|by auto|]. right. split; [done|]. right. by exists s.
      * intros [?|[-> [?|(s' & Hs' & _ & _ & Hu)]]]; [by auto|by auto|]. right. split; [done|]. by rewrite (nearest_after_unique _ _ _ _ Hs Hs').
    + eapply collects_ext; [|exact Hnear]. cbn. intros u v. rewrite (candidate_of_owner b o u v Hq Ho). split; [naive_solver|].
      intros [?|[-> [?|(s' & Hs' & Hne & Hd & Hu)]]]; [by auto|by auto|exfalso].
      rewrite (nearest_after_unique _ _ _ _ Hs' Hs) in Hne, Hd. rewrite (proj2 Hbefore Hd), andb_true_r in Eb.
      apply negb_false_iff, bool_decide_eq_true in Eb. done.
  - eapply collects_ext; [|exact Hnear]. cbn. intros u v. rewrite (candidate_of_owner b o u v Hq Ho). split; [naive_solver|].
    intros [?|[-> [?|(s' & Hs' & _)]]]; [by auto|by auto|]. by destruct (firstAfter_none _ _ Hss Es Hs').
Qed.

(** The estimate follows an owner, unless the range is above every anchor. *)
Lemma estimate_cases :
  (exists b o pos, owner D S range b o /\ (if b then fe_defs e else fe_sites e) !! pos = Some o /\
    forall mapped, estimate g e range mapped = estimate_from g e range (if b then fe_defs e else fe_sites e) pos mapped) \/
  ((forall d, D d \/ S d -> (pr_firstLine range < d.1)%N) /\
    forall mapped, estimate g e range mapped = attribute_all g (distinct_runs [] (fe_sites e).*2) File (attribute_all g (fe_defs e).*2 File mapped)).
Proof.
  destruct Hsorted as [Hsd Hss]. unfold estimate.
  destruct (lastBefore (fe_defs e) range) as [i|] eqn:Ei, (lastBefore (fe_sites e) range) as [j|] eqn:Ej.
  - destruct (lastBefore_nearest _ _ Hsd Ei) as (d & Ed & Hd), (lastBefore_nearest _ _ Hss Ej) as (s & Es & Hs).
    rewrite Ed, Es. cbn. left. destruct (N.leb_spec s.1 d.1) as [Hle|Hlt].
    + exists true, d, i. split_and!; [|done|done]. constructor; [done|]. intros s' Hs'. by rewrite (nearest_before_unique _ _ _ _ Hs' Hs).
    + exists false, s, j. split_and!; [|done|done]. constructor; [done|]. intros d' Hd'. by rewrite (nearest_before_unique _ _ _ _ Hd' Hd).
  - left. destruct (lastBefore_nearest _ _ Hsd Ei) as (d & Ed & Hd). exists true, d, i. split_and!; [|done|done].
    constructor; [done|]. intros s Hs. by destruct (lastBefore_none _ _ Hss Ej Hs).
  - left. destruct (lastBefore_nearest _ _ Hss Ej) as (s & Es & Hs). exists false, s, j. split_and!; [|done|done].
    constructor; [done|]. intros d Hd. by destruct (lastBefore_none _ _ Hsd Ei Hd).
  - right. split; [|done]. intros d [Hd|Hd]; [by apply (lastBefore_None _ range Hsd Ei)|by apply (lastBefore_None _ range Hss Ej)].
Qed.

Lemma estimate_collects T mapped : quiet D S range -> (forall s, s ∈ fe_sites e -> s.2 <> []) -> collects T mapped ->
  collects (fun u v => T u v \/ candidate D S range u v) (estimate g e range mapped).
Proof.
  intros Hq Hne H. destruct estimate_cases as [(b & o & pos & Ho & Hpos & ->)|[Hall ->]]; [by eapply estimate_from_collects|].
  eapply collects_ext; [|by apply attribute_all_collects, attribute_all_collects]. cbn. intros u v.
  assert (Hno : forall b o, ~ owner D S range b o).
  { intros b o [d (Hd & Hle & _) _|s (Hd & Hle & _) _]; [pose proof (Hall d (or_introl Hd))|pose proof (Hall s (or_intror Hd))]; lia. }
  split.
  - intros [[?|[-> (d & -> & Hd)%list_elem_of_fmap]]|[-> Hu%distinct_runs_subset]]; [by left|right; eapply cand_file; eauto|].
    apply list_elem_of_fmap in Hu as (d & -> & Hd). right. eapply cand_file; eauto.
  - intros [?|Hc]; [by auto|].
    destruct Hc as [d Hd Hw|s Hs Hw|b o u' _ Ho _|b o s u' _ Ho _ _ _ _|u' d _ _ [Hd|Hd] <-]; try (by destruct (Hno _ _ Ho)).
    + destruct (Hq d); auto.
    + destruct (Hq s); auto.
    + left. right. split; [done|]. apply list_elem_of_fmap. by exists d.
    + right. split; [done|]. apply distinct_runs_elem; [by apply Hne|]. apply list_elem_of_fmap. by exists d.
Qed.

Lemma in_range_spec d : in_range range d = true <-> within range d.
Proof. unfold in_range, within. by rewrite andb_true_iff, !N.leb_le. Qed.

Abbreviation defs_in := (filter (fun d => in_range range d = true) (fe_defs e)).
Abbreviation sites_in := (filter (fun s => in_range range s = true) (fe_sites e)).

Lemma quiet_iff : quiet D S range <-> defs_in = [] /\ sites_in = [].
Proof.
  split.
  - intros Hq. split; apply elem_of_nil_inv; intros d [Hw%in_range_spec Hd]%list_elem_of_filter; apply (Hq d); auto.
  - intros [E1 E2] d [Hd|Hd] Hw%in_range_spec.
    + apply (not_elem_of_nil d). rewrite <- E1. by apply list_elem_of_filter.
    + apply (not_elem_of_nil d). rewrite <- E2. by apply list_elem_of_filter.
Qed.

Lemma nonempty_elem {A} (l : list A) : l <> [] -> exists x, x ∈ l.
Proof. destruct l as [|x l]; [done|]. exists x. left. Qed.

(** The exact attributions, and the estimate when there are none. *)
Lemma range_collects T mapped : (forall s, s ∈ fe_sites e -> s.2 <> []) -> collects T mapped ->
  let mapped1 := attribute_all g sites_in.*2 CallSite (attribute_all g defs_in.*2 Definition_ mapped) in
  collects (fun u v => T u v \/ candidate D S range u v)
    (match defs_in, sites_in with [], [] => estimate g e range mapped1 | _, _ => mapped1 end).
Proof.
  intros Hne H. cbn zeta. assert (Hex : collects (fun u v => T u v \/ (v = Definition_ /\ u ∈ defs_in.*2) \/ (v = CallSite /\ u ∈ sites_in.*2))
    (attribute_all g sites_in.*2 CallSite (attribute_all g defs_in.*2 Definition_ mapped))).
  { eapply collects_ext; [|by apply attribute_all_collects, attribute_all_collects]. cbn. tauto. }
  destruct (decide (defs_in = [] /\ sites_in = [])) as [Hq|Hq].
  - pose proof (proj2 quiet_iff Hq) as Hquiet. destruct Hq as [E1 E2]. rewrite E1, E2 in Hex |- *. cbn in Hex |- *.
    apply estimate_collects; [done|done|]. eapply collects_ext; [|exact Hex]. cbn. intros u v. rewrite elem_of_nil. tauto.
  - assert (Hnq : ~ quiet D S range) by (by rewrite quiet_iff).
    assert (Hloud : collects (fun u v => T u v \/ candidate D S range u v) (attribute_all g sites_in.*2 CallSite (attribute_all g defs_in.*2 Definition_ mapped))).
    { eapply collects_ext; [|exact Hex]. cbn. intros u v. split.
      - intros [?|[[-> Hu]|[-> Hu]]]; [by left|right|right]; apply list_elem_of_fmap in Hu as (d & -> & [Hw%in_range_spec Hd]%list_elem_of_filter); by constructor.
      - intros [?|Hc]; [by left|]. right. destruct Hc as [d Hd Hw|s Hs Hw|? ? ? Hq' _ _|? ? ? ? Hq' _ _ _ _ _|? ? Hq' _ _ _]; try done.
        + left. split; [done|]. apply list_elem_of_fmap. exists d. split; [done|]. apply list_elem_of_filter. split; [by apply in_range_spec|done].
        + right. split; [done|]. apply list_elem_of_fmap. exists s. split; [done|]. apply list_elem_of_filter. split; [by apply in_range_spec|done]. }
    destruct defs_in as [|d l] eqn:E1, sites_in as [|d' l'] eqn:E2; try done. by destruct Hq.
Qed.

(** A file with an anchor gives every range a candidate. *)
Lemma candidate_exists d : D d \/ S d -> exists u v, candidate D S range u v.
Proof.
  intros Hd. destruct (decide (defs_in = [] /\ sites_in = [])) as [Hq|Hq].
  - apply quiet_iff in Hq. destruct estimate_cases as [(b & o & pos & Ho & Hpos & _)|[Hall _]].
    + exists o.2, Extent. eapply cand_body; [done|exact Ho|]. destruct Ho as [d' (Hin & _) _|d' (Hin & _) _]; cbn; by destruct d'.
    + exists d.2, File. by apply (cand_file _ _ _ _ d).
  - destruct (decide (defs_in = [])) as [E1|(d1 & [Hw%in_range_spec H1]%list_elem_of_filter)%nonempty_elem].
    + destruct (decide (sites_in = [])) as [E2|(d1 & [Hw%in_range_spec H1]%list_elem_of_filter)%nonempty_elem]; [by destruct Hq|].
      exists d1.2, CallSite. by constructor.
    + exists d1.2, Definition_. by constructor.
Qed.
End Range.
End Attribution.

Section Theorems.
Context `{UI : !UnorderedIter} `{SS : !StdSort}.
Variable isValidUtf8 : bytes -> bool.
Variable g : CallGraph.
Hypothesis Hg : cg_ok g.
(** The usrs of nodes are index text. *)
Hypothesis Htext : forall n, is_node g n -> isValidUtf8 (usr n) = true /\ usr n <> [].

Lemma node_unique n n' : is_node g n -> is_node g n' -> usr n = usr n' -> n = n'.
Proof.
  intros [id E] [id' E'] Eu. pose proof (node_id g id n Hg E) as H. pose proof (node_id g id' n' Hg E') as H'. congruence.
Qed.

Lemma callee_edge_caller n e : is_node g n -> e ∈ calleesOf isValidUtf8 g (usr n) -> callerUsr e = usr n.
Proof.
  intros Hn. destruct (Htext n Hn) as [Hv _]. destruct Hn as [id E]. unfold calleesOf, resolveUsrIds, findText.
  rewrite Hv, (node_id g id n Hg E), E. intros (id' & (r & -> & Hr)%list_elem_of_fmap & ->%list_elem_of_singleton)%list_elem_of_bind.
  cbn. destruct (calleeRefsOf_spec g id Hg) as [H _]. destruct (H r Hr) as [_ ->].
  apply resolve_of_opt, (nodes_usr _ _ _ (ok_nodes _ Hg)), E.
Qed.

Lemma nodes_by_usr_fold (ns : list CallGraphNode) (m : gmap bytes CallGraphNode) (u : bytes) :
  foldl (fun m n => match m !! usr n with Some _ => m | None => <[usr n := n]> m end) m ns !! u =
    match m !! u with Some n => Some n | None => list_find (fun n => usr n = u) ns ≫= fun p => Some p.2 end.
Proof.
  revert m. induction ns as [|n ns IH]; intros m; cbn [foldl]; [by destruct (m !! u)|]. rewrite IH. cbn [list_find].
  destruct (decide (u = usr n)) as [->|Hne].
  - rewrite decide_True by done. cbn. destruct (m !! usr n) as [n'|] eqn:E; [by rewrite E|by rewrite lookup_insert_eq].
  - rewrite decide_False by done. assert (E : match m !! usr n with Some _ => m | None => <[usr n := n]> m end !! u = m !! u).
    { destruct (m !! usr n); [done|by rewrite lookup_insert_ne]. }
    rewrite E. destruct (m !! u); [done|]. by destruct (list_find _ ns) as [[]|].
Qed.

Lemma nodes_by_usr_spec n : is_node g n -> nodes_by_usr g !! usr n = Some n.
Proof.
  intros Hn. unfold nodes_by_usr. rewrite nodes_by_usr_fold, lookup_empty.
  destruct (list_find (fun n' => usr n' = usr n) (graph_nodes g)) as [[i n']|] eqn:E.
  - apply list_find_Some in E as (Hi & Eu & _). cbn. f_equal. apply node_unique; [|done|done].
    apply elem_of_graph_nodes. by eapply list_elem_of_lookup_2.
  - apply list_find_None in E. apply elem_of_graph_nodes in Hn. eapply Forall_forall in E; [|exact Hn]. done.
Qed.

(** ** Placing a range in a file *)

(** The indexed files a range may be of, and the one it is of. *)
Definition names_file (root : bytes) (r : PatchRange) (f : bytes) : Prop :=
  (exists d, defined_at g f d \/ called_at isValidUtf8 g f d) /\ pathsMatch f (wanted_path root r) = true.
Definition placed (root : bytes) (r : PatchRange) (f : bytes) : Prop :=
  names_file root r f /\ forall f', names_file root r f' -> f' = f.

(** The functions a range of a file may belong to. *)
Definition file_candidate (f : bytes) : PatchRange -> bytes -> MappingVia -> Prop :=
  candidate (defined_at g f) (called_at isValidUtf8 g f).

Abbreviation files := (file_index isValidUtf8 g).
Abbreviation hits_of root r := (matching_files files (wanted_path root r)).

Lemma elem_of_hits root r f e : (f, e) ∈ hits_of root r <-> files !! f = Some e /\ names_file root r f.
Proof.
  unfold matching_files, names_file. rewrite list_elem_of_filter, elem_of_entries, <- file_index_is_Some. cbn. split; [|tauto].
  intros [? E]. rewrite E. eauto.
Qed.

Lemma hits_keys root r f : f ∈ (hits_of root r).*1 <-> names_file root r f.
Proof.
  rewrite list_elem_of_fmap. split.
  - intros ([f' e] & -> & H%elem_of_hits). apply H.
  - intros H. destruct (proj2 (file_index_is_Some isValidUtf8 g f) (proj1 H)) as [e E]. exists (f, e). split; [done|]. by apply elem_of_hits.
Qed.

Lemma hits_nodup root r : NoDup (hits_of root r).*1.
Proof.
  unfold matching_files. eapply sublist_NoDup; [|apply fmap_sublist, sublist_filter].
  rewrite entries_keys. apply sorted_keys_NoDup.
Qed.

Lemma placed_hit root r f : placed root r f <-> exists e, hits_of root r = [(f, e)].
Proof.
  split.
  - intros [Hf Huniq]. pose proof (hits_nodup root r) as Hnd. pose proof (hits_keys root r) as Hk.
    destruct (hits_of root r) as [|[f1 e1] l] eqn:E.
    + apply Hk in Hf. by apply not_elem_of_nil in Hf.
    + assert (f1 = f) as -> by (apply Huniq, Hk; left). exists e1. f_equal. destruct l as [|[f2 e2] l]; [done|exfalso].
      cbn in Hnd. apply NoDup_cons in Hnd as [Hn _]. apply Hn. rewrite <- (Huniq f2); [left|]. apply Hk. right; left.
  - intros [e E]. pose proof (hits_keys root r) as Hk. rewrite E in Hk. cbn in Hk. split; [apply Hk; left|].
    intros f' Hf'%Hk. by apply list_elem_of_singleton in Hf'.
Qed.

(** ** Over the ranges *)

(** Why a range is left over: no indexed file has its name, or several have. *)
Definition unplaced_reason (root : bytes) (r : PatchRange) (why : bytes) : Prop :=
  exists fs, NoDup fs /\ (forall f, f ∈ fs <-> names_file root r f) /\
    (fs = [] /\ why = str "no function or call site indexed in this file" \/
     2 <= length fs /\ why = str "matches " ++ to_string (N.of_nat (length fs)) ++ str " indexed files; pass patch_root").

Abbreviation attributed root ranges :=
  (fun u v => exists r f, r ∈ ranges /\ placed root r f /\ file_candidate f r u v).

Record mapped_so_far (root : bytes) (ranges : list PatchRange) (st : gmap bytes MappedFunction * list UnmappedRange) : Prop := {
  ms_functions : collects g (attributed root ranges) st.1;
  ms_unmapped : forall um, um ∈ st.2 <-> um_range um ∈ ranges /\ unplaced_reason root (um_range um) (um_reason um)
}.

Lemma entry_usr_nonempty f e : files !! f = Some e -> forall s, s ∈ fe_sites e -> s.2 <> [].
Proof.
  intros E s Hs. destruct (file_index_entry _ _ _ _ E) as (_ & _ & H & _). apply H in Hs as (n & ed & Hn & He & _ & <-).
  rewrite (callee_edge_caller n ed Hn He). by apply Htext.
Qed.

(** A range leaves the accumulator alone, apart from one entry. *)
Lemma unmapped_step root ranges r l um :
  (forall um, um ∈ l <-> um_range um ∈ ranges /\ unplaced_reason root (um_range um) (um_reason um)) ->
  forall why, (forall why', unplaced_reason root r why' <-> why' = why) ->
  um ∈ l ++ [MkUnmapped r why] <-> um_range um ∈ ranges ++ [r] /\ unplaced_reason root (um_range um) (um_reason um).
Proof.
  intros H why Hw. rewrite !elem_of_app, !list_elem_of_singleton, H. split.
  - intros [?| ->]; [tauto|]. split; [by right|]. by apply Hw.
  - intros [[?|Er] Hr]; [by left|]. right. rewrite Er in Hr. apply Hw in Hr. destruct um; cbn in *; congruence.
Qed.

(** A range that is not placed attributes nothing. *)
Lemma unplaced_step root ranges r st why :
  mapped_so_far root ranges st -> (forall f, ~ placed root r f) -> (forall why', unplaced_reason root r why' <-> why' = why) ->
  mapped_so_far root (ranges ++ [r]) (st.1, st.2 ++ [MkUnmapped r why]).
Proof.
  intros [H1 H2] Hno Hwhy. split; cbn [fst snd].
  - eapply collects_ext; [|exact H1]. cbn. intros u v. setoid_rewrite elem_of_app. setoid_rewrite list_elem_of_singleton. naive_solver.
  - intros um. by apply unmapped_step.
Qed.

Lemma unplaced_reason_hits root r why : unplaced_reason root r why <->
  hits_of root r = [] /\ why = str "no function or call site indexed in this file" \/
  2 <= length (hits_of root r) /\ why = str "matches " ++ to_string (N.of_nat (length (hits_of root r))) ++ str " indexed files; pass patch_root".
Proof.
  pose proof (hits_nodup root r) as Hnd. pose proof (hits_keys root r) as Hk. split.
  - intros (fs & Hnd' & Hfs & H). assert (Hp : (hits_of root r).*1 ≡ₚ fs) by (apply NoDup_Permutation; [done|done|]; intros f; by rewrite Hk, Hfs).
    apply Permutation_length in Hp. rewrite length_fmap in Hp. rewrite Hp. destruct H as [[-> ->]|?]; [left|by right].
    split; [|done]. by apply nil_length_inv.
  - intros H. exists (hits_of root r).*1. split_and!; [done|done|]. rewrite length_fmap. destruct H as [[-> ->]|?]; [by left|by right].
Qed.

Lemma placed_step root ranges r f e st : hits_of root r = [(f, e)] -> mapped_so_far root ranges st ->
  mapped_so_far root (ranges ++ [r]) (map_range g files root st r).
Proof.
  intros E [H1 H2]. assert (Hp : placed root r f) by (apply placed_hit; by exists e).
  assert (Ef : files !! f = Some e) by (apply (elem_of_hits root r); rewrite E; left).
  destruct (file_index_entry _ _ _ _ Ef) as (Hs & HD & HS & d & Hd).
  pose proof (range_collects g e r Hs _ _ (entry_usr_nonempty f e Ef) H1) as Hc. cbn zeta in Hc.
  assert (Hmap : map_range g files root st r = (match filter (fun d => in_range r d = true) (fe_defs e), filter (fun s => in_range r s = true) (fe_sites e) with
    | [], [] => estimate g e r (attribute_all g (filter (fun s => in_range r s = true) (fe_sites e)).*2 CallSite (attribute_all g (filter (fun d => in_range r d = true) (fe_defs e)).*2 Definition_ st.1))
    | _, _ => attribute_all g (filter (fun s => in_range r s = true) (fe_sites e)).*2 CallSite (attribute_all g (filter (fun d => in_range r d = true) (fe_defs e)).*2 Definition_ st.1)
    end, st.2)).
  { destruct st as [mapped um]. cbn [map_range fst snd]. rewrite E. do 2 (destruct (filter _ _); try done).
    destruct (fe_defs e) as [|? ?], (fe_sites e) as [|? ?]; try done. destruct Hd as [Hd|Hd]; by apply not_elem_of_nil in Hd. }
  rewrite Hmap. split; cbn [fst snd].
  - eapply collects_ext; [|exact Hc]. cbn. intros u v. setoid_rewrite elem_of_app. setoid_rewrite list_elem_of_singleton. split.
    + intros [(r' & f' & ? & ? & ?)|Hcand]; [exists r', f'; auto|]. exists r, f. split_and!; [by right|done|].
      eapply candidate_ext; [exact HD|exact HS|exact Hcand].
    + intros (r' & f' & [?| ->] & Hp' & Hcand); [by left; exists r', f'|]. right. rewrite (proj2 Hp f' (proj1 Hp')) in Hcand.
      eapply candidate_ext; [..|exact Hcand]; intros; symmetry; [apply HD|apply HS].
  - intros um. rewrite H2, elem_of_app, list_elem_of_singleton. split; [tauto|]. intros [[?|Er] Hr]; [done|].
    rewrite Er in Hr. apply unplaced_reason_hits in Hr. rewrite E in Hr. cbn in Hr. destruct Hr as [[? _]|[? _]]; [done|lia].
Qed.

Lemma map_range_step root ranges st r : mapped_so_far root ranges st ->
  mapped_so_far root (ranges ++ [r]) (map_range g files root st r).
Proof.
  intros H. destruct (hits_of root r) as [|[f e] [|h l]] eqn:E; [| |].
  - unfold map_range. rewrite E. destruct st as [mapped um]. apply (unplaced_step root ranges r (mapped, um)); [done| |].
    + intros f (e & E')%placed_hit. by rewrite E in E'.
    + intros why. rewrite unplaced_reason_hits, E. cbn. split; [intros [[_ ?]|[? _]]; [done|lia]|by left].
  - by eapply placed_step.
  - unfold map_range. rewrite E. destruct st as [mapped um]. apply (unplaced_step root ranges r (mapped, um)); [done| |].
    + intros f' (e' & E')%placed_hit. by rewrite E in E'.
    + intros why. rewrite unplaced_reason_hits, E. cbn. split; [intros [[? _]|[_ ?]]; done|]. intros ->. right. split; [lia|done].
Qed.

Lemma map_ranges_all root ranges : mapped_so_far root ranges (foldl (map_range g files root) (∅, []) ranges).
Proof.
  induction ranges as [|r ranges IH] using rev_ind; [|by rewrite foldl_snoc; apply map_range_step].
  split; cbn.
  - intros u. rewrite lookup_empty. intros v (r & f & Hr & _). by apply not_elem_of_nil in Hr.
  - intros um. split; [by intros ?%not_elem_of_nil|]. by intros [?%not_elem_of_nil _].
Qed.

Lemma candidate_node f r u v : file_candidate f r u v -> exists n, is_node g n /\ usr n = u.
Proof.
  assert (HD : forall d, defined_at g f d -> exists n, is_node g n /\ usr n = d.2) by (intros d (n & Hn & _ & ->); by exists n).
  assert (HS : forall d, called_at isValidUtf8 g f d -> exists n, is_node g n /\ usr n = d.2).
  { intros d (n & e & Hn & He & _ & <-). exists n. split; [done|]. by rewrite (callee_edge_caller n e). }
  destruct 1 as [d Hd _|d Hd _|[] o u _ _ Hd|? ? d u _ _ _ _ _ Hd|u d _ _ Hd <-].
  - by apply HD.
  - by apply HS.
  - by apply HD in Hd.
  - by apply HS in Hd.
  - by apply HS in Hd.
  - destruct Hd; auto.
Qed.

Lemma candidate_via f r u v : file_candidate f r u v -> v = CallSite \/ v = Definition_ \/ v = Extent \/ v = File.
Proof. destruct 1; auto. Qed.

Lemma placed_candidate root r f : placed root r f -> exists u v, file_candidate f r u v.
Proof.
  intros (e & E)%placed_hit. assert (Ef : files !! f = Some e) by (apply (elem_of_hits root r); rewrite E; left).
  destruct (file_index_entry _ _ _ _ Ef) as (Hs & HD & HS & d & Hd).
  destruct (candidate_exists g e r Hs d Hd) as (u & v & H). exists u, v. eapply candidate_ext; [exact HD|exact HS|exact H].
Qed.

Lemma counts_partition fs : Forall (fun f => exists v, mf_via f = v /\ (v = CallSite \/ v = Definition_ \/ v = Extent \/ v = File)) fs ->
  count_via CallSite fs + count_via Definition_ fs + count_via Extent fs + count_via File fs = length fs.
Proof.
  unfold count_via. induction 1 as [|f fs (v & Ev & Hv) H IH]; [done|]. rewrite !filter_cons, Ev. cbn [length].
  destruct Hv as [-> |[-> |[-> | ->]]]; repeat case_decide; try congruence; cbn [length]; lia.
Qed.

Lemma unmapped_less_weak : StrictWeak unmapped_less.
Proof.
  apply (strict_weak_of_key (fun a => (pr_file (um_range a), pr_firstLine (um_range a))) (lex_cmp bytes_cmp N.compare)). done.
Qed.

(** The functions of a mapping are those of an accumulator that collects the attributions. *)
Lemma mapped_functions T mapped : (forall u v, T u v -> exists n, is_node g n /\ usr n = u) -> collects g T mapped ->
  forall f, f ∈ (entries bytes_cmp mapped).*2 <->
    exists n v, is_node g n /\ most_precise T (usr n) v /\ f = MkMapped (usr n) (qualifiedName n) (file n) (line n) v.
Proof.
  intros HT H f. rewrite list_elem_of_fmap. split.
  - intros ([u f'] & -> & E%elem_of_entries). specialize (H u). rewrite E in H. destruct H as (v & -> & Hv).
    destruct (HT u v (proj1 Hv)) as (n & Hn & <-). exists n, v. split_and!; [done|done|]. unfold facts. by rewrite nodes_by_usr_spec.
  - intros (n & v & Hn & Hv & ->). exists (usr n, MkMapped (usr n) (qualifiedName n) (file n) (line n) v). split; [done|].
    apply elem_of_entries. specialize (H (usr n)). destruct (mapped !! usr n) as [f'|]; [|by destruct (H v (proj1 Hv))].
    destruct H as (v' & -> & Hv'). f_equal. unfold facts. rewrite nodes_by_usr_spec by done. f_equal.
    assert (Ec : via_code v' = via_code v) by (pose proof (proj2 Hv' v (proj1 Hv)); pose proof (proj2 Hv v' (proj1 Hv')); lia).
    by destruct v, v'.
Qed.

Lemma functions_sorted T mapped : collects g T mapped ->
  StronglySorted (fun a b => bytes_cmp (mf_usr a) (mf_usr b) = Lt) (entries bytes_cmp mapped).*2.
Proof.
  intros H. destruct (entries_tail bytes_cmp mapped) as [Hs Hn Hi].
  assert (Hu : forall u f, (u, f) ∈ entries bytes_cmp mapped -> mf_usr f = u).
  { intros u f E%Hi. specialize (H u). rewrite E in H. destruct H as (v & -> & _). apply facts_usr. }
  clear Hi. revert Hs Hn Hu. generalize (entries bytes_cmp mapped). induction l as [|[u f] l IH]; intros Hs Hn Hu; [constructor|].
  cbn in Hs, Hn |- *. apply StronglySorted_cons in Hs as [Hle Hs]. apply NoDup_cons in Hn as [Hk Hn].
  constructor; [apply IH; try done; intros; apply Hu; by right|]. apply Forall_forall.
  intros f' ([u' f''] & -> & Hin)%list_elem_of_fmap. cbn. rewrite (Hu u f), (Hu u' f'') by (by (left || right)).
  assert (Hin' : u' ∈ l.*1) by (apply list_elem_of_fmap; by exists (u', f'')). eapply Forall_forall in Hle; [|exact Hin'].
  unfold cmp_le in Hle. destruct (bytes_cmp u u') eqn:Ec; [apply tcmp_eq in Ec; congruence|done|done].
Qed.
End Theorems.

(** C35. The mapping of a patch reports, sorted by usr and once each, exactly the functions that the
    declarations and call sites recorded in the files of the placed ranges make candidates, each with
    its own record and at its most precise attribution; every placed range has a candidate; the ranges
    left over are exactly those whose file name matches no indexed file or several, with the reason,
    in (file, line) order; and the four counts add up to the functions reported. *)
Theorem patch_mapping_exact `{!UnorderedIter} `{!StdSort} (isValidUtf8 : bytes -> bool) (g : CallGraph) (ranges : list PatchRange) (root : bytes)
    (Hg : cg_ok g) (Htext : forall n, is_node g n -> isValidUtf8 (usr n) = true /\ usr n <> []) :
  let m := mapRangesToFunctions isValidUtf8 g ranges root in
  let attributed u v := exists r f, r ∈ ranges /\ placed isValidUtf8 g root r f /\ file_candidate isValidUtf8 g f r u v in
  StronglySorted (fun a b => bytes_cmp (mf_usr a) (mf_usr b) = Lt) (pm_functions m) /\
  (forall f, f ∈ pm_functions m <-> exists n v, is_node g n /\ most_precise attributed (usr n) v /\
     f = MkMapped (usr n) (qualifiedName n) (file n) (line n) v) /\
  (forall r f, r ∈ ranges -> placed isValidUtf8 g root r f -> exists u v, file_candidate isValidUtf8 g f r u v) /\
  (forall um, um ∈ pm_unmapped m <-> um_range um ∈ ranges /\ unplaced_reason isValidUtf8 g root (um_range um) (um_reason um)) /\
  StronglySorted (no_less_before unmapped_less) (pm_unmapped m) /\
  pm_viaCallSite m + pm_viaDefinition m + pm_viaExtent m + pm_viaFile m = length (pm_functions m).
Proof.
  cbn zeta. unfold mapRangesToFunctions.
  destruct (map_ranges_all isValidUtf8 g Hg Htext root ranges) as [H1 H2].
  destruct (foldl (map_range g (file_index isValidUtf8 g) root) (∅, []) ranges) as [mapped um]. cbn [fst snd pm_functions pm_unmapped pm_viaCallSite pm_viaDefinition pm_viaExtent pm_viaFile] in *.
  pose proof (mapped_functions g Hg _ mapped (fun u v H => match H with ex_intro _ r (ex_intro _ f (conj _ (conj _ Hc))) => candidate_node isValidUtf8 g Hg Htext f r u v Hc end) H1) as Hf.
  split_and!.
  - by eapply functions_sorted.
  - exact Hf.
  - intros r f _ Hp. by apply (placed_candidate isValidUtf8 g root).
  - intros u. rewrite std_sort_perm. apply H2.
  - apply std_sort_sorted, unmapped_less_weak.
  - apply counts_partition, Forall_forall. intros f (n & v & _ & ((r & f' & _ & _ & Hc) & _) & ->)%Hf. exists v. split; [done|]. by eapply candidate_via.
Qed.

(** Two functions of one file, the first calling the second. *)
Definition patched_graph : CallGraph :=
  build [AddNode (MkNode (str "f") (str "src/a.cpp") 10 false false [] (str "c:@F@f")) [];
         AddNode (MkNode (str "g") (str "src/a.cpp") 30 false false [] (str "c:@F@g")) [];
         AddEdge (direct (str "c:@F@f") (str "c:@F@g") (str "src/a.cpp:14:3")) []] empty_graph.

Definition patched_ranges : list PatchRange :=
  [MkRange (str "a.cpp") 12 12 false; MkRange (str "a.cpp") 30 31 false; MkRange (str "b.cpp") 1 1 true].

Definition node_text (n : CallGraphNode) : bool := valid_utf8b (usr n) && negb (bool_decide (usr n = [])).

Lemma nodes_text g : map_Forall (fun _ n => node_text n = true) (nodes_ g) ->
  forall n, is_node g n -> valid_utf8b (usr n) = true /\ usr n <> [].
Proof.
  intros H n [id E]. apply H, andb_true_iff in E as [? E%negb_true_iff%bool_decide_eq_false]. done.
Qed.

Lemma patch_mapping_exact_witness :
  let m := @mapRangesToFunctions canonical_iter valid_utf8b patched_graph stable_std_sort patched_ranges (str "src") in
  mf_via <$> pm_functions m = [Extent; Definition_] /\ length (pm_unmapped m) = 1 /\
  StronglySorted (fun a b => bytes_cmp (mf_usr a) (mf_usr b) = Lt) (pm_functions m) /\
  forall um, um ∈ pm_unmapped m -> unplaced_reason valid_utf8b patched_graph (str "src") (um_range um) (um_reason um).
Proof.
  destruct (@patch_mapping_exact canonical_iter stable_std_sort valid_utf8b patched_graph patched_ranges (str "src"))
    as (H1 & _ & _ & H2 & _).
  - apply build_ok. by_computation.
  - apply nodes_text. by_computation.
  - split; [vm_compute; reflexivity|]. split; [vm_compute; reflexivity|]. split; [exact H1|]. intros um Hum. by apply H2 in Hum as [_ ?].
Defined.
