(* ===== verification/PatchParse.v ===== *)
(** Decimal numbers: what [std::to_string] writes, [StringRef::getAsInteger] reads back.

    Reading unified diffs (src/impact/PatchMapping.cpp, [parseUnifiedDiff]): a patch as
    [git diff] writes it, and that reading it gives back the after-side ranges of its hunks;
    and a removed or added line that the reader takes for a file header. *)

From stdpp Require Import pretty.
From S2P Require Import Prelude Utf8 StringInterner CallGraph Ordering Text Results SortedMap PatchMapping.

Lemma digit_text x s : (x < 10)%N ->
  exists b, str (String (pretty_N_char x) s) = b :: str s /\ is_digit b = true /\ (Byte.to_N b - 48)%N = x.
Proof.
  intros H. assert (x = 0 \/ x = 1 \/ x = 2 \/ x = 3 \/ x = 4 \/ x = 5 \/ x = 6 \/ x = 7 \/ x = 8 \/ x = 9)%N as Hx by lia.
  repeat destruct Hx as [-> |Hx]; subst; eexists; (split; [reflexivity|]); by vm_compute.
Qed.

Lemma digits_value_pretty x acc s : digits_value 0 (str (pretty_N_go x s)) = digits_value x (str s) /\
  (Forall (fun b => is_digit b = true) (str s) -> Forall (fun b => is_digit b = true) (str (pretty_N_go x s))) /\
  (acc = pretty_N_go x s -> (0 < x)%N \/ s <> "" -> str acc <> []).
Proof.
  revert s. induction (N.lt_wf_0 x) as [x _ IH]; intros s. destruct (decide (x = 0)%N) as [->|Hx].
  - rewrite pretty_N_go_0. split_and!; [done|done|]. intros -> [?|Hs]; [lia|]. by destruct s.
  - rewrite pretty_N_go_step by lia. destruct (digit_text (x `mod` 10) s) as (b & Eb & Hb & Hv); [apply N.mod_lt; lia|].
    destruct (IH (x `div` 10)%N (N.div_lt x 10 ltac:(lia) ltac:(lia)) (String (pretty_N_char (x `mod` 10)) s)) as (I1 & I2 & I3).
    split_and!.
    + rewrite I1, Eb. cbn [digits_value]. rewrite Hb, Hv. f_equal. pose proof (N.div_mod x 10). lia.
    + intros Hs. apply I2. rewrite Eb. by constructor.
    + intros ? _. apply I3; [done|by right].
Qed.

Lemma to_string_digits n : Forall (fun b => is_digit b = true) (to_string n).
Proof.
  unfold to_string, pretty, pretty_N. case_decide; [by repeat constructor|].
  apply (digits_value_pretty n (pretty_N_go n "")). constructor.
Qed.

Lemma to_string_nonempty n : to_string n <> [].
Proof.
  unfold to_string, pretty, pretty_N. case_decide; [done|]. eapply (digits_value_pretty n (pretty_N_go n "")); [done|]. left. lia.
Qed.

(** Reading a number back. *)
Lemma getAsInteger_to_string limit n : (n < limit)%N -> getAsInteger limit (to_string n) = Some n.
Proof.
  intros H. pose proof (to_string_nonempty n) as Hne. unfold getAsInteger.
  assert (E : digits_value 0 (to_string n) = Some n).
  { unfold to_string, pretty, pretty_N. case_decide as E; [by subst|]. by rewrite (proj1 (digits_value_pretty n "" "")). }
  destruct (to_string n) as [|b s]; [done|]. rewrite E. cbn. by rewrite (proj2 (N.ltb_lt _ _) H).
Qed.

(** No separator is a digit. *)
Lemma to_string_no c n : is_digit c = false -> c ∉ to_string n.
Proof. intros H Hin. pose proof (to_string_digits n) as Hd. rewrite Forall_forall in Hd. by rewrite (Hd c Hin) in H. Qed.

Lemma to_string_inj : Inj (=) (=) to_string.
Proof.
  intros n m E. pose proof (getAsInteger_to_string (N.max n m + 1) n ltac:(lia)) as Hn.
  rewrite E, getAsInteger_to_string in Hn by lia. congruence.
Qed.

(** * A patch and how it is written *)

Inductive BodyLine := Kept (l : bytes) | Added (l : bytes) | Removed (l : bytes) | NoNewline.

Record Hunk := MkHunk {
  hk_oldStart : N; hk_oldCount : option N;
  hk_newStart : N; hk_newCount : option N;
  hk_heading : bytes;
  hk_body : list BodyLine
}.

(** [fp_after] is [None] for a file the patch deletes. *)
Record FilePatch := MkFilePatch {
  fp_extended : list bytes;
  fp_before : bytes;
  fp_after : option bytes;
  fp_hunks : list Hunk
}.

Definition write_body (b : BodyLine) : bytes :=
  match b with
  | Kept l => Byte.x20 :: l
  | Added l => Byte.x2b :: l
  | Removed l => Byte.x2d :: l
  | NoNewline => str "\ No newline at end of file"
  end.

(** A count of one is left out. *)
Definition write_span (start : N) (count : option N) : bytes :=
  to_string start ++ match count with Some n => Byte.x2c :: to_string n | None => [] end.

Definition write_header (h : Hunk) : bytes :=
  str "@@ -" ++ write_span (hk_oldStart h) (hk_oldCount h) ++ str " +" ++ write_span (hk_newStart h) (hk_newCount h) ++ str " @@" ++ hk_heading h.

Definition write_hunk (h : Hunk) : list bytes := write_header h :: (write_body <$> hk_body h).

Definition write_file (p : FilePatch) : list bytes :=
  (str "diff --git " ++ fp_before p) :: fp_extended p ++
  (str "--- a/" ++ fp_before p) ::
  (match fp_after p with Some f => str "+++ b/" ++ f | None => str "+++ /dev/null" end) :: (fp_hunks p ≫= write_hunk).

Definition unlines (ls : list bytes) : bytes := ls ≫= fun l => l ++ [Byte.x0a].

Definition write_patch (ps : list FilePatch) : bytes := unlines (ps ≫= write_file).

(** * What the patch says *)

Definition new_count (h : Hunk) : N := default 1%N (hk_newCount h).

(** The after-side lines of a hunk; a hunk without any is recorded at the lines around it. *)
Definition after_lines (p : FilePatch) (h : Hunk) : PatchRange :=
  match fp_after p with
  | Some f =>
      if (new_count h =? 0)%N
      then MkRange f (N.max 1 (hk_newStart h)) (hk_newStart h + 1) true
      else MkRange f (hk_newStart h) (hk_newStart h + new_count h - 1) false
  | None => MkRange (fp_before p) (N.max 1 (hk_newStart h)) (hk_newStart h + 1) true
  end.

(** A path the reader keeps as it is. *)
Definition plain_path (p : bytes) : Prop :=
  p <> [] /\ p <> str "/dev/null" /\ (Byte.x09 ∉ p) /\ (Byte.x0a ∉ p) /\ rtrim p = p /\ starts_with p (str "./") = false.

Definition plain_body (b : BodyLine) : Prop :=
  match b with
  | Kept l => Byte.x0a ∉ l
  | Added l => (Byte.x0a ∉ l) /\ starts_with l (str "++ ") = false
  | Removed l => (Byte.x0a ∉ l) /\ starts_with l (str "-- ") = false
  | NoNewline => True
  end.

Record plain_hunk (h : Hunk) : Prop := {
  ph_start : (hk_newStart h + 1 < two32)%N;
  ph_count : (hk_newStart h + new_count h <= two32)%N;
  ph_count_fits : (new_count h < two32)%N;
  ph_heading : Byte.x0a ∉ hk_heading h;
  ph_body : Forall plain_body (hk_body h)
}.

(** The lines before the names, [index ...] and the like. *)
Definition plain_extended (l : bytes) : Prop :=
  (Byte.x0a ∉ l) /\ starts_with l (str "--- ") = false /\ starts_with l (str "+++ ") = false.

Record plain_file (p : FilePatch) : Prop := {
  pf_before : plain_path (fp_before p);
  pf_after : forall f, fp_after p = Some f -> plain_path f;
  pf_extended : Forall plain_extended (fp_extended p);
  pf_hunks : Forall plain_hunk (fp_hunks p)
}.

#[global] Instance plain_path_dec p : Decision (plain_path p).
Proof. unfold plain_path. apply _. Defined.

#[global] Instance plain_body_dec b : Decision (plain_body b).
Proof. destruct b; cbn; apply _. Defined.

#[global] Instance plain_extended_dec l : Decision (plain_extended l).
Proof. unfold plain_extended. apply _. Defined.

#[global] Instance plain_hunk_dec h : Decision (plain_hunk h).
Proof.
  refine (cast_if (decide ((hk_newStart h + 1 < two32)%N /\ (hk_newStart h + new_count h <= two32)%N /\ (new_count h < two32)%N /\
    (Byte.x0a ∉ hk_heading h) /\ Forall plain_body (hk_body h)))); [by destruct a as (? & ? & ? & ? & ?); split|intros []; tauto].
Defined.

Definition after_plain (o : option bytes) : Prop := match o with Some f => plain_path f | None => True end.

#[global] Instance after_plain_dec o : Decision (after_plain o).
Proof. destruct o; cbn; apply _. Defined.

#[global] Instance plain_file_dec p : Decision (plain_file p).
Proof.
  refine (cast_if (decide (plain_path (fp_before p) /\ after_plain (fp_after p) /\
    Forall plain_extended (fp_extended p) /\ Forall plain_hunk (fp_hunks p)))).
  - destruct a as (? & Ha & ? & ?). split; try done. intros f E. by rewrite E in Ha.
  - intros [H1 H2 H3 H4]. apply n. split_and!; [done| |done|done]. unfold after_plain. destruct (fp_after p); [by apply H2|done].
Defined.

(** * Lines *)

Lemma split_line l rest : Byte.x0a ∉ l -> split_char Byte.x0a (l ++ Byte.x0a :: rest) = (l, rest).
Proof. apply split_char_app. Qed.

Lemma read_patch_unlines ls fuel st : Forall (fun l => Byte.x0a ∉ l) ls -> length (unlines ls) <= fuel ->
  read_patch fuel (unlines ls) st = foldl read_line st ls.
Proof.
  revert fuel st. induction ls as [|l ls IH]; intros fuel st Hl Hf; [by destruct fuel|]. apply Forall_cons in Hl as [Hn Hl].
  assert (E : unlines (l :: ls) = l ++ Byte.x0a :: unlines ls) by (unfold unlines; cbn; by rewrite <- app_assoc).
  rewrite E in Hf |- *. rewrite length_app in Hf. cbn in Hf. destruct fuel as [|fuel]; [lia|]. cbn [read_patch foldl].
  destruct (l ++ Byte.x0a :: unlines ls) as [|x y] eqn:Es; [by destruct l|]. rewrite <- Es, split_line by done. apply IH; [done|lia].
Qed.

Lemma starts_with_cons x s y p : starts_with (x :: s) (y :: p) = bool_decide (x = y) && starts_with s p.
Proof.
  unfold starts_with. apply eq_bool_prop_intro. rewrite andb_True, !bool_decide_spec. split.
  - intros [k [= -> ->]]. split; [done|by exists k].
  - intros [-> [k ->]]. by exists k.
Qed.

Lemma starts_with_nil s : starts_with s [] = true.
Proof. unfold starts_with. apply bool_decide_eq_true, prefix_nil. Qed.

Ltac prefix_step :=
  first [ done | apply starts_with_nil
        | match goal with |- starts_with (?x :: ?l) ?p = ?r =>
            let q := eval vm_compute in p in change (starts_with (x :: l) q = r); rewrite starts_with_cons; cbn [andb];
            first [rewrite bool_decide_true by done; cbn [andb] | rewrite bool_decide_false by done; done]
          end ].

(** A line that opens no file and no hunk. *)
Record other_line (l : bytes) : Prop := {
  ol_before : starts_with l (str "--- ") = false;
  ol_after : starts_with l (str "+++ ") = false;
  ol_diff : starts_with l (str "diff ") = false;
  ol_hunk : starts_with l (str "@@ ") = false
}.

Lemma other_line_read l st : other_line l -> read_line st l = st.
Proof.
  intros [H1 H2 H3 H4]. unfold read_line, parseHunkHeader. rewrite H1, H2, H3, H4. by destruct (rd_inFile st).
Qed.

Lemma body_is_other b : plain_body b -> other_line (write_body b).
Proof.
  destruct b as [l|l|l|]; cbn [write_body plain_body]; [intros _|intros [_ H]|intros [_ H]|by intros _; split; vm_compute]; split;
    repeat prefix_step; exact H.
Qed.

(** * Headers *)

Lemma getAsInteger_digits n : (n < two32)%N -> getAsInteger two32 (to_string n) = Some n.
Proof. apply getAsInteger_to_string. Qed.

Lemma write_span_no c start count : is_digit c = false -> c <> Byte.x2c -> c ∉ write_span start count.
Proof.
  intros Hd Hc. unfold write_span. rewrite elem_of_app. intros [H|H]; [by apply (to_string_no c start)|].
  destruct count as [n|]; [|by apply not_elem_of_nil in H]. apply elem_of_cons in H as [?|H]; [done|]. by apply (to_string_no c n).
Qed.

Lemma split_span start count : split_char Byte.x2c (write_span start count) =
  (to_string start, match count with Some n => to_string n | None => [] end).
Proof.
  unfold write_span. destruct count as [n|].
  - apply split_char_app. by apply to_string_no.
  - rewrite app_nil_r. apply split_char_none. by apply to_string_no.
Qed.

Lemma parse_written_header h : (hk_newStart h < two32)%N -> (new_count h < two32)%N ->
  parseHunkHeader (write_header h) = Some (hk_newStart h, new_count h).
Proof.
  intros Hs Hc. unfold parseHunkHeader.
  assert (E : starts_with (write_header h) (str "@@ ") = true) by (unfold write_header; repeat prefix_step).
  rewrite E. cbn [negb]. set (lead := str "@@ -" ++ write_span (hk_oldStart h) (hk_oldCount h) ++ [Byte.x20]).
  assert (El : write_header h = lead ++ Byte.x2b :: write_span (hk_newStart h) (hk_newCount h) ++ Byte.x20 :: (str "@@" ++ hk_heading h)).
  { unfold write_header, lead. by rewrite <- !app_assoc. }
  assert (Hlead : Byte.x2b ∉ lead).
  { unfold lead. rewrite !elem_of_app, list_elem_of_singleton. intros [H|[H|H]]; [|by apply write_span_no in H|done].
    revert H. by_computation. }
  rewrite El, find_char_app by done.
  replace (drop (length lead + 1) (lead ++ Byte.x2b :: write_span (hk_newStart h) (hk_newCount h) ++ Byte.x20 :: str "@@" ++ hk_heading h))
    with (write_span (hk_newStart h) (hk_newCount h) ++ Byte.x20 :: str "@@" ++ hk_heading h)
    by (rewrite drop_app, drop_ge, Nat.add_comm, Nat.add_sub by lia; done).
  rewrite find_char_app by (by apply write_span_no). rewrite take_app_length, split_span, getAsInteger_digits by done.
  unfold new_count in *. destruct (hk_newCount h) as [n|]; [|done]. cbn in Hc |- *.
  pose proof (to_string_nonempty n). destruct (to_string n) eqn:En; [done|]. rewrite <- En, getAsInteger_digits by done. done.
Qed.

(** * Names *)

Lemma ltrim_length P s : length (ltrim_by P s) <= length s.
Proof. induction s as [|b s IH]; cbn [ltrim_by length]; [done|]. case_match; cbn; lia. Qed.

Lemma ltrim_stays P x l k : ltrim_by P (x :: l) = x :: l -> ltrim_by P ((x :: l) ++ k) = (x :: l) ++ k.
Proof.
  cbn. destruct (P x) eqn:E; [|done]. intros H. pose proof (ltrim_length P l) as Hl. rewrite H in Hl. cbn in Hl. lia.
Qed.

Lemma rtrim_prefix pre p : p <> [] -> rtrim p = p -> rtrim (pre ++ p) = pre ++ p.
Proof.
  unfold rtrim. intros Hne H. assert (E : ltrim_by is_space (rev p) = rev p) by (rewrite <- (rev_involutive (ltrim_by _ _)); by rewrite H).
  rewrite rev_app_distr. assert (Hr : rev p <> []) by (intros Hr; apply Hne; by rewrite <- (rev_involutive p), Hr).
  destruct (rev p) as [|x l] eqn:Er; [done|]. rewrite ltrim_stays by done. rewrite <- Er. by rewrite <- rev_app_distr, rev_involutive.
Qed.

Lemma strip_prefixes_none fuel q s : starts_with s q = false -> strip_prefixes fuel q s = s.
Proof. intros H. destruct fuel; cbn [strip_prefixes]; [done|]. by rewrite H. Qed.

(** The prefix [git] puts before a name is taken off. *)
Lemma strip_written side p : side = str "a/" \/ side = str "b/" -> plain_path p -> stripPatchPrefix (side ++ p) = p.
Proof.
  intros Hside (Hne & _ & Ht & _ & Hr & Hd). unfold stripPatchPrefix.
  rewrite split_char_none by (rewrite elem_of_app; intros [H|H]; [|done]; destruct Hside as [-> | ->]; revert H; by_computation).
  cbn [fst]. rewrite rtrim_prefix by done.
  assert (E : starts_with (side ++ p) (str "a/") || starts_with (side ++ p) (str "b/") = true).
  { unfold starts_with. apply orb_true_iff. rewrite !bool_decide_eq_true. destruct Hside as [-> | ->]; [left|right]; apply prefix_app_r, reflexivity. }
  rewrite E. replace (drop 2 (side ++ p)) with p by (by destruct Hside as [-> | ->]). by apply strip_prefixes_none.
Qed.

Lemma dev_null_plain : stripPatchPrefix (str "/dev/null") = str "/dev/null".
Proof. by_computation. Qed.

(** * Reading back *)

Lemma read_diff_line st l : read_line st (str "diff --git " ++ l) = MkReader (rd_out st) (rd_beforeName st) (rd_afterName st) false (rd_deletedFile st).
Proof.
  unfold read_line. assert (E1 : starts_with (str "diff --git " ++ l) (str "--- ") = false) by (repeat prefix_step).
  assert (E2 : starts_with (str "diff --git " ++ l) (str "+++ ") = false) by (repeat prefix_step).
  assert (E3 : starts_with (str "diff --git " ++ l) (str "diff ") = true) by (repeat prefix_step). by rewrite E1, E2, E3.
Qed.

Lemma read_extended st ls : Forall plain_extended ls -> rd_inFile st = false -> foldl read_line st ls = st.
Proof.
  intros H. revert st. induction H as [|l ls (Hn & H1 & H2) H IH]; intros st Hf; [done|]. cbn [foldl].
  assert (E : read_line st l = st).
  { unfold read_line. rewrite H1, H2, Hf. destruct st as [o bn an f d]. cbn [rd_out rd_inFile rd_beforeName rd_afterName rd_deletedFile] in Hf |- *. subst f. destruct (starts_with l (str "diff ")); done. }
  rewrite E. by apply IH.
Qed.

Lemma read_before st p : plain_path p ->
  read_line st (str "--- a/" ++ p) = MkReader (rd_out st) p (rd_afterName st) false (rd_deletedFile st).
Proof.
  intros Hp. unfold read_line. assert (E : starts_with (str "--- a/" ++ p) (str "--- ") = true) by (repeat prefix_step). rewrite E.
  change (drop 4 (str "--- a/" ++ p)) with (str "a/" ++ p). by rewrite strip_written by auto.
Qed.

(** The reader inside a file of the patch. *)
Definition in_file (p : FilePatch) (out : list PatchRange) : PatchReader :=
  match fp_after p with
  | Some f => MkReader out (fp_before p) f true false
  | None => MkReader out (fp_before p) (fp_before p) true true
  end.

Lemma read_after st p : plain_file p -> rd_beforeName st = fp_before p ->
  read_line st (match fp_after p with Some f => str "+++ b/" ++ f | None => str "+++ /dev/null" end) = in_file p (rd_out st).
Proof.
  intros Hp Hb. unfold in_file. destruct (fp_after p) as [f|] eqn:Ef.
  - pose proof (pf_after p Hp f Ef) as Hf. pose proof Hf as (Hne & Hdev & _). unfold read_line.
    assert (E : starts_with (str "+++ b/" ++ f) (str "--- ") = false) by (repeat prefix_step).
    assert (E' : starts_with (str "+++ b/" ++ f) (str "+++ ") = true) by (repeat prefix_step). rewrite E, E'.
    change (drop 4 (str "+++ b/" ++ f)) with (str "b/" ++ f). rewrite strip_written by auto.
    by rewrite !(bool_decide_false _ Hdev), (bool_decide_false _ Hne), Hb.
  - destruct (pf_before p Hp) as (Hne & Hdev & _). unfold read_line.
    assert (E : starts_with (str "+++ /dev/null") (str "--- ") = false) by by_computation.
    assert (E' : starts_with (str "+++ /dev/null") (str "+++ ") = true) by by_computation. rewrite E, E'.
    change (drop 4 (str "+++ /dev/null")) with (str "/dev/null"). rewrite dev_null_plain, bool_decide_true by done. rewrite Hb.
    by rewrite (bool_decide_false _ Hdev), (bool_decide_false _ Hne).
Qed.

Lemma read_header p h out : plain_hunk h -> read_line (in_file p out) (write_header h) = in_file p (out ++ [after_lines p h]).
Proof.
  intros [Hs Hc Hf _ _]. unfold read_line.
  assert (E1 : starts_with (write_header h) (str "--- ") = false) by (unfold write_header; repeat prefix_step).
  assert (E2 : starts_with (write_header h) (str "+++ ") = false) by (unfold write_header; repeat prefix_step).
  assert (E3 : starts_with (write_header h) (str "diff ") = false) by (unfold write_header; repeat prefix_step).
  rewrite E1, E2, E3, parse_written_header by lia. unfold in_file, after_lines, hunk_range.
  assert (Hdel : forall f, (MkRange f (if (hk_newStart h =? 0) then 1 else hk_newStart h) (if (hk_newStart h =? 0) then 1 else u32 (hk_newStart h + 1)) true
    = MkRange f (N.max 1 (hk_newStart h)) (hk_newStart h + 1) true)%N).
  { intros f. destruct (N.eqb_spec (hk_newStart h) 0) as [-> |Hnz]; [done|]. unfold u32. rewrite N.mod_small by lia. f_equal. lia. }
  destruct (fp_after p) as [f|]; cbn [rd_inFile rd_out rd_beforeName rd_afterName rd_deletedFile].
  - destruct (N.eqb_spec (new_count h) 0) as [E|E]; cbn [orb]; [by rewrite Hdel|]. unfold u32. by rewrite N.mod_small by lia.
  - rewrite orb_true_r. by rewrite Hdel.
Qed.

Lemma read_hunks p hs out : Forall plain_hunk hs -> foldl read_line (in_file p out) (hs ≫= write_hunk) = in_file p (out ++ (after_lines p <$> hs)).
Proof.
  intros H. revert out. induction H as [|h hs Hh H IH]; intros out; [cbn; by rewrite app_nil_r|]. rewrite bind_cons, fmap_cons.
  rewrite foldl_app. unfold write_hunk at 1. cbn [foldl]. rewrite read_header by done.
  assert (Hb : forall st bs, Forall plain_body bs -> foldl read_line st (write_body <$> bs) = st).
  { intros st bs Hbs. induction Hbs as [|b bs Hb0 _ IHb]; [done|]. cbn. by rewrite other_line_read by (by apply body_is_other). }
  rewrite Hb by (apply Hh). rewrite IH, <- app_assoc. done.
Qed.

Lemma read_file st p : plain_file p -> foldl read_line st (write_file p) = in_file p (rd_out st ++ (after_lines p <$> fp_hunks p)).
Proof.
  intros Hp. unfold write_file. cbn [foldl]. rewrite read_diff_line, foldl_app, (read_extended _ (fp_extended p)) by (apply Hp || done). cbn [foldl].
  rewrite read_before by apply Hp. rewrite read_after by done. cbn [rd_out]. apply read_hunks, Hp.
Qed.

Lemma read_files ps st : Forall plain_file ps -> rd_out (foldl read_line st (ps ≫= write_file)) = rd_out st ++ (ps ≫= fun p => after_lines p <$> fp_hunks p).
Proof.
  intros H. revert st. induction H as [|p ps Hp H IH]; intros st; [cbn; by rewrite app_nil_r|].
  rewrite !bind_cons, foldl_app, IH, read_file by done. unfold in_file. destruct (fp_after p); cbn; by rewrite <- app_assoc.
Qed.

Lemma unlines_ok ps : Forall plain_file ps -> Forall (fun l => Byte.x0a ∉ l) (ps ≫= write_file).
Proof.
  intros H. apply Forall_bind. eapply Forall_impl; [exact H|]. cbn. intros p Hp. unfold write_file.
  assert (Hpre : forall (pre l : bytes), bool_decide (Byte.x0a ∈ pre) = false -> (Byte.x0a ∉ l) -> Byte.x0a ∉ pre ++ l).
  { intros pre l Hb%bool_decide_eq_false Hl. rewrite elem_of_app. tauto. }
  pose proof (pf_before p Hp) as (_ & _ & _ & Hb & _).
  constructor; [by apply Hpre|]. apply Forall_app. split; [eapply Forall_impl; [apply Hp|]; cbn; by intros l [? _]|].
  constructor; [by apply Hpre|]. constructor.
  { destruct (fp_after p) as [f|] eqn:Ef; [|by_computation]. apply Hpre; [done|]. by destruct (pf_after p Hp f Ef) as (_ & _ & _ & ? & _). }
  apply Forall_bind. eapply Forall_impl; [apply Hp|]. cbn. intros h Hh. unfold write_hunk. constructor.
  - unfold write_header. rewrite !app_assoc. rewrite elem_of_app. intros [H0|H0]; [|by apply (ph_heading _ Hh)].
    rewrite !elem_of_app in H0.
    destruct H0 as [[[[H0|H0]|H0]|H0]|H0]; try (by apply write_span_no in H0); revert H0; by_computation.
  - apply Forall_fmap. eapply Forall_impl; [apply Hh|]. cbn. intros [l|l|l|]; cbn; [intros Hl|intros [Hl _]|intros [Hl _]|intros _; by_computation];
      rewrite elem_of_cons; by intros [?|?].
Qed.

(** Reading a patch back: a unified diff as [git diff] writes it, with removed lines that do not
    start with "-- " and added lines that do not start with "++ ", yields for every hunk, in patch
    order, the after-side lines its header states, a hunk without after-side lines the two lines
    around its position, marked as a deletion, and a deleted file its before-side name. *)
Theorem diff_reads_back (ps : list FilePatch) (Hp : Forall plain_file ps) :
  parseUnifiedDiff (write_patch ps) = ps ≫= fun p => after_lines p <$> fp_hunks p.
Proof.
  unfold parseUnifiedDiff, write_patch. rewrite read_patch_unlines by (done || by apply unlines_ok). by rewrite read_files.
Qed.

(** Two hunks of a file that changes, and a file that goes away. *)
Definition sample_patch : list FilePatch :=
  [MkFilePatch [str "index 1..2 100644"] (str "src/a.cpp") (Some (str "src/a.cpp"))
     [MkHunk 10 (Some 3%N) 10 (Some 4%N) (str " int f()") [Kept (str "x"); Added (str "y")]; MkHunk 40 (Some 2%N) 41 (Some 0%N) [] [Removed (str "z")]];
   MkFilePatch [] (str "b.cpp") None [MkHunk 1 None 0 (Some 0%N) [] [Removed (str "q")]]].

Lemma diff_reads_back_witness :
  parseUnifiedDiff (write_patch sample_patch) =
    [MkRange (str "src/a.cpp") 10 13 false; MkRange (str "src/a.cpp") 41 42 true; MkRange (str "b.cpp") 1 1 true].
Proof.
  rewrite diff_reads_back; [reflexivity|].
  by_computation.
Defined.

(** The hunks a reader loses: the first removes the line "-- note". *)
Definition comment_patch : list FilePatch :=
  [MkFilePatch [] (str "q.sql") (Some (str "q.sql"))
     [MkHunk 1 (Some 2%N) 1 (Some 1%N) [] [Kept (str "select 1;"); Removed (str "-- note")]; MkHunk 9 None 8 None [] [Added (str "select 2;")]]].

(** A removed line that starts with "-- " is written "--- " in a unified diff and read as the name of
    another file: the hunks after it in its file are not reported. *)
Theorem removed_comment_hides_hunks :
  parseUnifiedDiff (write_patch comment_patch) = [MkRange (str "q.sql") 1 1 false] /\
  (comment_patch ≫= fun p => after_lines p <$> fp_hunks p) = [MkRange (str "q.sql") 1 1 false; MkRange (str "q.sql") 8 8 false].
Proof. split; vm_compute; reflexivity. Qed.
