(* ===== verification/SemanticIdentity.v ===== *)
(** Cross-index identity (src/impact/SemanticDiff.cpp, [IdentityTable]): the key under which a
    function of one graph is compared with those of another, without the source positions that
    the usrs of lambdas and of functions instantiated with anonymous types carry. *)

From S2P Require Import Prelude Utf8 StringInterner CallGraph Ordering Text Results SortedMap PatchMapping.

Definition kLambdaPrefix : bytes := str "vycor-lambda:lambda#".

Record LambdaParts := MkLambdaParts {
  lp_file : bytes;
  lp_line : N;
  lp_col : N;
  lp_enclosing : bytes
}.

#[global] Instance LambdaParts_eq_dec : EqDecision LambdaParts.
Proof. solve_decision. Defined.

Definition allDigits (s : bytes) : bool := negb (bool_decide (s = [])) && forallb is_digit s.

(** The site that ends at a hash sign, and what follows it. *)
Definition lambda_at (rest : bytes) (hash : nat) : option LambdaParts :=
  let site := take hash rest in
  c2 ← rfind_char Byte.x3a site;
  c1 ← rfind_char_before Byte.x3a site c2;
  if (0 <? c1) && allDigits (substr site (c1 + 1) (c2 - c1 - 1)) && allDigits (drop (c2 + 1) site)
  then Some (MkLambdaParts (take c1 site) (default 0%N (getAsInteger two32 (substr site (c1 + 1) (c2 - c1 - 1))))
               (default 0%N (getAsInteger two32 (drop (c2 + 1) site))) (drop (hash + 1) rest))
  else None.

(** From one hash sign to the next; each round is further into the string. *)
Fixpoint first_site (fuel : nat) (rest : bytes) (hash : option nat) : option LambdaParts :=
  match fuel, hash with
  | S fuel', Some h =>
      match lambda_at rest h with
      | Some p => Some p
      | None => first_site fuel' rest (find_char_from Byte.x23 rest (h + 1))
      end
  | _, _ => None
  end.

Definition parseLambda (u : bytes) : option LambdaParts :=
  if negb (starts_with u kLambdaPrefix) then None
  else
    let rest := drop (length kLambdaPrefix) u in
    first_site (S (length rest)) rest (find_char Byte.x23 rest).

(** * Positions inside a usr *)

Record LocationFragment := MkFragment {
  lf_begin : nat;
  lf_end : nat;
  lf_file : bytes;
  lf_offset : N;
  lf_group : bytes
}.

Definition isUsrSeparator (c : Byte.byte) : bool :=
  existsb (fun d => bool_decide (c = d)) [Byte.x40; Byte.x23; Byte.x24; Byte.x3c; Byte.x3e; Byte.x28; Byte.x29; Byte.x2c; Byte.x26; Byte.x2a; Byte.x3a].

(** How many characters satisfy a test before the first that does not. *)
Fixpoint char_run (p : Byte.byte -> bool) (s : bytes) : nat :=
  match s with
  | b :: s' => if p b then S (char_run p s') else 0
  | [] => 0
  end.

(** The earliest of the tags of an anonymous type. *)
Definition anonymous_tag (rest : bytes) : option nat :=
  foldl (fun tag marker =>
           match str_find rest marker with
           | Some p => match tag with Some t => if p <? t then Some p else tag | None => Some p end
           | None => tag
           end) None [str "@Sa"; str "@Ua"; str "@Ea"].

Definition two64 : N := 18446744073709551616%N.

Definition fragment_at (u : bytes) (at_ : nat) : option LocationFragment :=
  let d := at_ + 1 + char_run is_digit (drop (at_ + 1) u) in
  if d =? at_ + 1 then None
  else if match u !! d with Some b => is_alnum b || bool_decide (b = Byte.x5f) | None => false end then None
  else
    let f := at_ - char_run (fun b => negb (isUsrSeparator b)) (rev (take at_ u)) in
    let fl := slice u f at_ in
    if bool_decide (fl = []) || negb (bool_decide (Byte.x2e ∈ fl)) then None
    else
      let rest := drop d u in
      Some (MkFragment (at_ + 1) d fl (default 0%N (getAsInteger two64 (slice u (at_ + 1) d)))
              (str "closure:" ++ fl ++ match anonymous_tag rest with None => [] | Some t => take (t + 3) rest end)).

(** The positions of a character, first to last. *)
Fixpoint char_positions (c : Byte.byte) (s : bytes) (from : nat) : list nat :=
  match s with
  | [] => []
  | b :: s' => (if decide (b = c) then [from] else []) ++ char_positions c s' (S from)
  end.

Definition locationFragments (u : bytes) : list LocationFragment := omap (fragment_at u) (char_positions Byte.x40 u 0).

(** * The table *)

Record IdentityTable := MkIdentity {
  keyByUsr : gmap bytes bytes;
  usrByKey : gmap bytes bytes;
  id_groups : gmap bytes (list bytes);
  groupSizes : gmap bytes nat;
  groupByKey : gmap bytes bytes;
  ambiguousKeys : gset bytes
}.

Definition empty_identity : IdentityTable := MkIdentity ∅ ∅ ∅ ∅ ∅ ∅.

Definition push_key (group key : bytes) (groups : gmap bytes (list bytes)) : gmap bytes (list bytes) :=
  <[group := default [] (groups !! group) ++ [key]]> groups.

Abbreviation Lambda := (bytes * LambdaParts)%type.

Definition lambda_less (a b : Lambda) : bool :=
  ltb_of (lex_cmp (lex_cmp (lex_cmp bytes_cmp N.compare) N.compare) bytes_cmp
            (lp_file a.2, lp_line a.2, lp_col a.2, a.1) (lp_file b.2, lp_line b.2, lp_col b.2, b.1)).

Definition enclosing_key (t : IdentityTable) (enclosing : bytes) : bytes :=
  if starts_with enclosing (str "lambda#") then default enclosing (keyByUsr t !! (str "vycor-lambda:" ++ enclosing)) else enclosing.

Definition lambda_group (t : IdentityTable) (l : Lambda) : bytes := lp_file l.2 ++ str "#" ++ enclosing_key t (lp_enclosing l.2).

Definition lambda_key (group : bytes) (ordinal : nat) : bytes :=
  str "vycor-lambda:" ++ group ++ str "#" ++ to_string (N.of_nat ordinal).

(** One lambda; the second component is [groupUsrs]. *)
Definition add_lambda (st : IdentityTable * gmap bytes (list bytes)) (l : Lambda) : IdentityTable * gmap bytes (list bytes) :=
  let '(t, groupUsrs) := st in
  let group := lambda_group t l in
  let members := default [] (groupUsrs !! group) in
  let key := lambda_key group (length members) in
  (MkIdentity (<[l.1 := key]> (keyByUsr t)) (<[key := l.1]> (usrByKey t)) (push_key group key (id_groups t))
     (<[group := S (length members)]> (groupSizes t)) (<[key := group]> (groupByKey t)) (ambiguousKeys t),
   <[group := members ++ [l.1]]> groupUsrs).

Definition add_lambdas (ls : list Lambda) : IdentityTable := (foldl add_lambda (empty_identity, ∅) ls).1.

(** The rank of an offset among those of its group. *)
Definition ordinal_of (offsets : gset N) (offset : N) : nat := length (filter (fun o => (o < offset)%N) (elements offsets)).

Definition note_offset (m : gmap bytes (gset N)) (f : LocationFragment) : gmap bytes (gset N) :=
  <[lf_group f := default ∅ (m !! lf_group f) ∪ {[lf_offset f]}]> m.

(** [key.replace(begin, end - begin, "%" + ordinal)], the last fragment first. *)
Definition replace_fragment (offsetsByGroup : gmap bytes (gset N)) (f : LocationFragment) (key : bytes) : bytes :=
  take (lf_begin f) key ++ str "%" ++ to_string (N.of_nat (ordinal_of (default ∅ (offsetsByGroup !! lf_group f)) (lf_offset f))) ++ drop (lf_end f) key.

Definition located_key (offsetsByGroup : gmap bytes (gset N)) (u : bytes) (frags : list LocationFragment) : bytes :=
  foldr (replace_fragment offsetsByGroup) u frags.

Section Build.
Context `{UI : !UnorderedIter} `{SS : !StdSort}.
Variable isValidUtf8 : bytes -> bool.
Variable g : CallGraph.

Definition graph_lambdas : list Lambda := omap (fun n => pair (usr n) <$> parseLambda (usr n)) (graph_nodes g).

(** Every usr the graph mentions, in order and once. *)
Definition mentioned_usrs : list bytes :=
  sorted_keys_of bytes_cmp (list_to_set (graph_nodes g ≫= fun n => usr n :: (calleeUsr <$> calleesOf isValidUtf8 g (usr n)))).

(** The mentioned usrs that carry positions and are not lambdas. *)
Definition located_usrs (t : IdentityTable) : list (bytes * list LocationFragment) :=
  omap (fun u => match keyByUsr t !! u, locationFragments u with
                 | None, (_ :: _) as frags => Some (u, frags)
                 | _, _ => None
                 end) mentioned_usrs.

Definition add_located (offsets : gmap bytes (gset N)) (t : IdentityTable) (uf : bytes * list LocationFragment) : IdentityTable :=
  let key := located_key offsets uf.1 uf.2 in
  match head uf.2 with
  | Some first =>
      MkIdentity (<[uf.1 := key]> (keyByUsr t))
        (match findNode isValidUtf8 g uf.1 with Some _ => <[key := uf.1]> (usrByKey t) | None => usrByKey t end)
        (push_key (lf_group first) key (id_groups t)) (groupSizes t) (<[key := lf_group first]> (groupByKey t)) (ambiguousKeys t)
  | None => t
  end.

Definition set_sizes (offsets : gmap bytes (gset N)) (t : IdentityTable) : IdentityTable :=
  MkIdentity (keyByUsr t) (usrByKey t) (id_groups t) ((size <$> offsets) ∪ groupSizes t) (groupByKey t) (ambiguousKeys t).

Definition add_plain (t : IdentityTable) (n : CallGraphNode) : IdentityTable :=
  match keyByUsr t !! usr n with
  | Some _ => t
  | None => MkIdentity (<[usr n := usr n]> (keyByUsr t)) (<[usr n := usr n]> (usrByKey t)) (id_groups t) (groupSizes t) (groupByKey t) (ambiguousKeys t)
  end.

Definition buildIdentity : IdentityTable :=
  let t1 := add_lambdas (std_sort lambda_less graph_lambdas) in
  let located := located_usrs t1 in
  let offsets := foldl note_offset ∅ (located ≫= snd) in
  let t2 := set_sizes offsets (foldl (add_located offsets) t1 located) in
  foldl add_plain t2 (graph_nodes g).
End Build.

(** * Queries *)

Definition id_groupOf (t : IdentityTable) (key : bytes) : bytes := default [] (groupByKey t !! key).
Definition id_keyOf (t : IdentityTable) (u : bytes) : bytes := default u (keyByUsr t !! u).
Definition usrOf (t : IdentityTable) (key : bytes) : option bytes := usrByKey t !! key.
Definition isAmbiguous (t : IdentityTable) (key : bytes) : bool := bool_decide (key ∈ ambiguousKeys t).

Definition mark_keys (keys : list bytes) (t : IdentityTable) : IdentityTable :=
  MkIdentity (keyByUsr t) (usrByKey t) (id_groups t) (groupSizes t) (groupByKey t) (list_to_set keys ∪ ambiguousKeys t).

(** One group of the first table. *)
Definition mark_group (st : IdentityTable * IdentityTable) (gk : bytes * list bytes) : IdentityTable * IdentityTable :=
  let '(a, b) := st in
  match id_groups b !! gk.1 with
  | None => st
  | Some keysB =>
      if decide (groupSizes a !! gk.1 = groupSizes b !! gk.1) then st
      else (mark_keys gk.2 a, mark_keys keysB b)
  end.

Definition markAmbiguousGroups (a b : IdentityTable) : IdentityTable * IdentityTable :=
  foldl mark_group (a, b) (entries bytes_cmp (id_groups a)).
