(* ===== verification/SemanticDiff.v ===== *)
(** The semantic comparison of two indexes (src/impact/SemanticDiff.cpp): whether two bakes are
    comparable, the functions and call relationships of each side under their cross-index keys,
    the ordered list of changes between them, and the comparison of routes. *)

From S2P Require Import Prelude Utf8 StringInterner CallGraph PathSearch Ordering Query ControlFlowIndex Text Results SnapshotMeta Staleness SemanticContext SortedMap PatchMapping SemanticIdentity.
Import Query.Serialize.

(** * Comparability *)

Record SideScope := MkScope {
  sc_bake : bytes;
  sc_coverage : IndexCoverage;
  sc_analyzer : bytes;
  sc_toolchain : bytes
}.

Record Comparability := MkComparability {
  comparable : bool;
  absenceReliable : bool;
  analyzerSame : bool;
  toolchainSame : bool;
  configSame : bool;
  contextsCompared : bool;
  cmp_reasons : list bytes;
  cmp_before : SideScope;
  cmp_after : SideScope;
  tusOnlyBefore : list bytes;
  tusOnlyAfter : list bytes;
  failedBefore : list bytes;
  failedAfter : list bytes;
  partialBefore : list bytes;
  partialAfter : list bytes
}.

Definition bakeRef (m : SnapshotMeta) : bytes :=
  match environment (provenance m) with
  | [] => []
  | env => toIndexText env ++ str "@" ++ to_string (bakeStartNs (provenance m))
  end.

Definition no_scope : SideScope := MkScope [] (MkCoverage 0 0 0 0) [] [].

Definition scopeOf (m : option SnapshotMeta) : SideScope :=
  match m with
  | None => no_scope
  | Some m => MkScope (bakeRef m) (coverageOf m) (toIndexText (analyzer (provenance m))) (toIndexText (toolchain (provenance m)))
  end.

Definition plural (n : nat) (noun : bytes) : bytes :=
  to_string (N.of_nat n) ++ str " " ++ noun ++ (if n =? 1 then [] else str "s").

Definition listSome (v : list bytes) : bytes :=
  join_with (str ", ") (take 3 v) ++ (if 3 <? length v then str ", ..." else []).

Definition sort_texts (l : list bytes) : list bytes := merge_sort (cmp_le bytes_cmp) l.

(** The units of a meta that failed, and those parsed partially. *)
Definition with_outcome (P : TuStatus -> bool) (m : SnapshotMeta) : list bytes :=
  sort_texts (toIndexText <$> (filter (fun po => P (oc_status po.2) = true) (map_to_list (outcomesOf m))).*1).

Definition is_partial (s : TuStatus) : bool := bool_decide (s = Partial).
Definition is_failed (s : TuStatus) : bool := negb (bool_decide (s = Partial)) && negb (bool_decide (s = Indexed)).

Definition requested_texts (m : SnapshotMeta) : gset bytes := list_to_set ((fun f => toIndexText (fs_path f)) <$> files m).

(** The reasons a meta comparison gives, in order. *)
Definition differs_reason (what before after consequence : bytes) : bytes :=
  what ++ str " differs (" ++ toIndexText before ++ str " vs " ++ toIndexText after ++ str "): " ++ consequence.

Definition only_reason (this other : bytes) (tus : list bytes) : list bytes :=
  match tus with
  | [] => []
  | _ => [this ++ str " requested " ++ plural (length tus) (str "TU") ++ str " the " ++ other ++ str " index does not (" ++ listSome tus ++ str ")"]
  end.

Definition side_reasons (side : bytes) (failed partial : list bytes) : list bytes :=
  (match failed with [] => [] | _ => [side ++ str ": " ++ plural (length failed) (str "requested TU") ++ str " failed (" ++ listSome failed ++ str ")"] end) ++
  (match partial with [] => [] | _ => [side ++ str ": " ++ plural (length partial) (str "requested TU") ++ str " parsed partially (" ++ listSome partial ++ str ")"] end).

Definition is_nil {A} (l : list A) : bool := match l with [] => true | _ => false end.

Definition checkComparability (before after : option SnapshotMeta) (contextsLoaded : bool) : Comparability :=
  let unloaded :=
    if contextsLoaded then [] else [str "call-site contexts were not compared (control-flow section not loaded on both sides)"] in
  match before, after with
  | Some b, Some a =>
      let collapseSame := bool_decide (collapsePaths b = collapsePaths a) in
      let locksSame := bool_decide (lockAllowlist b = lockAllowlist a) && bool_decide (lockBuiltins b = lockBuiltins a) in
      let channelsSame := bool_decide (channelTypes b = channelTypes a) in
      let config := collapseSame && locksSame && channelsSame in
      let analyzers := bool_decide (analyzer (provenance b) = analyzer (provenance a)) in
      let toolchains := bool_decide (toolchain (provenance b) = toolchain (provenance a)) in
      let onlyB := sorted_keys_of bytes_cmp (requested_texts b ∖ requested_texts a) in
      let onlyA := sorted_keys_of bytes_cmp (requested_texts a ∖ requested_texts b) in
      let fb := with_outcome is_failed b in
      let fa := with_outcome is_failed a in
      let pb := with_outcome is_partial b in
      let pa := with_outcome is_partial a in
      MkComparability config (is_nil onlyB && is_nil onlyA && is_nil fb && is_nil pb && is_nil fa && is_nil pa) analyzers toolchains config contextsLoaded
        (unloaded ++
         (if collapseSame then [] else [str "collapse paths differ"]) ++
         (if locksSame then [] else [str "lock type configuration differs"]) ++
         (if channelsSame then [] else [str "channel type registrations differ"]) ++
         (if analyzers then [] else [differs_reason (str "analyzer") (analyzer (provenance b)) (analyzer (provenance a)) (str "the model itself may differ")]) ++
         (if toolchains then [] else [differs_reason (str "toolchain") (toolchain (provenance b)) (toolchain (provenance a)) (str "the frontend may resolve differently")]) ++
         only_reason (str "before") (str "after") onlyB ++ only_reason (str "after") (str "before") onlyA ++
         side_reasons (str "before") fb pb ++ side_reasons (str "after") fa pa)
        (scopeOf before) (scopeOf after) onlyB onlyA fb fa pb pa
  | _, _ =>
      MkComparability true false true true true contextsLoaded
        (unloaded ++ [(match before with Some _ => str "after" | None => str "before" end) ++ str ": no bake metadata; coverage unknown"])
        (scopeOf before) (scopeOf after) [] [] [] [] [] []
  end.

(** * One side *)

Record SiteWitness := MkSite {
  sw_callSite : bytes;
  sw_confidence : Confidence;
  sw_execContext : ExecutionContext;
  sw_indirectionDepth : N;
  sw_signature : bytes
}.

#[global] Instance SiteWitness_eq_dec : EqDecision SiteWitness.
Proof. solve_decision. Defined.

Record RelationshipSide := MkRelSide {
  rs_sites : list SiteWitness;
  rs_attributes : list bytes;
  rs_signatures : list bytes
}.

Record FunctionFacts := MkFacts {
  ff_key : bytes;
  ff_usr : bytes;
  ff_name : bytes;
  ff_file : bytes;
  ff_line : N;
  ff_isEntryPoint : bool;
  ff_isVirtual : bool;
  ff_enclosingClass : bytes
}.

Definition no_function : FunctionFacts := MkFacts [] [] [] [] 0 false false [].

Definition kind_of_number (n : N) : EdgeKind :=
  match n with
  | 0 => DirectCall | 1 => VirtualDispatch | 2 => FunctionPointer | 3 => ConstructorCall | 4 => DestructorCall
  | 5 => OperatorCall | 6 => TemplateInstantiation | 7 => LambdaCall | 8 => ThreadEntry | _ => FunctionPointerReturn
  end%N.

#[global] Program Instance EdgeKind_countable : Countable EdgeKind := inj_countable' kind_code kind_of_number _.
Next Obligation. by intros []. Qed.

Definition edge_kind_cmp (a b : EdgeKind) : comparison := N.compare (kind_code a) (kind_code b).

(** [RelKey]: caller key, callee key, kind. *)
Abbreviation RelKey := (bytes * bytes * EdgeKind)%type.

Definition relkey_cmp : RelKey -> RelKey -> comparison := lex_cmp (lex_cmp bytes_cmp bytes_cmp) edge_kind_cmp.

Record RelValue := MkRelValue {
  rv_callerName : bytes;
  rv_calleeName : bytes;
  rv_side : RelationshipSide
}.

Abbreviation RelMap := (gmap RelKey RelValue).
Abbreviation FnMap := (gmap bytes FunctionFacts).

Definition attributeOf (s : SiteWitness) : bytes :=
  confidenceToString (sw_confidence s) ++ str "/" ++ executionContextToString (sw_execContext s) ++ str "/" ++ to_string (sw_indirectionDepth s).

Definition site_key (s : SiteWitness) : bytes * N * N * N :=
  (sw_callSite s, confidence_code (sw_confidence s), exec_code (sw_execContext s), sw_indirectionDepth s).

Definition siteLess (a b : SiteWitness) : bool :=
  ltb_of (lex_cmp (lex_cmp (lex_cmp bytes_cmp N.compare) N.compare) N.compare (site_key a) (site_key b)).

Definition usr_less (a b : CallGraphNode) : bool := bytes_ltb (usr a) (usr b).

Definition facts_of (key : bytes) (n : CallGraphNode) : FunctionFacts :=
  MkFacts key (usr n) (qualifiedName n) (file n) (line n) (isEntryPoint n) (isVirtual n) (enclosingClass n).

Definition witness_of (sg : option ContextSignatures) (e : CallGraphEdge) : SiteWitness :=
  MkSite (e_callSite e) (e_confidence e) (e_execContext e) (e_indirectionDepth e)
    (match sg with Some s => forEdge s (e_callSite e) (callerUsr e) (calleeUsr e) | None => [] end).

(** * Results *)

Inductive ChangeKind := FunctionRemoved | FunctionAdded | CallRemoved | CallAdded | CallChanged | ContextChanged.

#[global] Instance ChangeKind_eq_dec : EqDecision ChangeKind.
Proof. solve_decision. Defined.

Definition changeKindName (k : ChangeKind) : bytes :=
  match k with
  | FunctionRemoved => str "function_removed"
  | FunctionAdded => str "function_added"
  | CallRemoved => str "call_removed"
  | CallAdded => str "call_added"
  | CallChanged => str "call_changed"
  | ContextChanged => str "context_changed"
  end.

Definition change_code (k : ChangeKind) : N :=
  match k with
  | FunctionRemoved => 0 | FunctionAdded => 1 | CallRemoved => 2 | CallAdded => 3 | CallChanged => 4 | ContextChanged => 5
  end.

Record ChangeRecord := MkChange {
  ch_change : ChangeKind;
  ch_callerKey : bytes;
  ch_calleeKey : bytes;
  ch_callerName : bytes;
  ch_calleeName : bytes;
  ch_kind : EdgeKind;
  ch_before : option RelationshipSide;
  ch_after : option RelationshipSide;
  ch_function : FunctionFacts;
  ch_explanation : bytes
}.

Record AmbiguousIdentity := MkAmbiguous {
  am_group : bytes;
  am_beforeUsrs : list bytes;
  am_afterUsrs : list bytes;
  am_edgesWithheldBefore : nat;
  am_edgesWithheldAfter : nat
}.

Record RenameCandidate := MkRename {
  rn_name : bytes;
  rn_beforeKey : bytes;
  rn_afterKey : bytes;
  rn_beforeFile : bytes;
  rn_afterFile : bytes
}.

Record FunctionMove := MkMove {
  mv_key : bytes;
  mv_name : bytes;
  mv_beforeFile : bytes;
  mv_afterFile : bytes;
  mv_beforeLine : N;
  mv_afterLine : N
}.

Record SemanticDiffOptions := MkDiffOptions {
  compareContexts : bool;
  includeMoves : bool;
  maxSites : nat;
  allowMismatch : bool
}.

Record SemanticDiffResult := MkDiff {
  df_comparability : Comparability;
  df_refused : bool;
  df_changes : list ChangeRecord;
  df_ambiguous : list AmbiguousIdentity;
  df_renameCandidates : list RenameCandidate;
  df_moves : list FunctionMove;
  df_movedFunctions : nat;
  df_functionsBefore : nat;
  df_functionsAfter : nat;
  df_relationshipsBefore : nat;
  df_relationshipsAfter : nat
}.

Definition diff_count (r : SemanticDiffResult) (k : ChangeKind) : nat := length (filter (fun c => ch_change c = k) (df_changes r)).

Record DiffSide := MkSide {
  ds_graph : CallGraph;
  ds_cfIndex : option ControlFlowIndex;
  ds_meta : option SnapshotMeta;
  ds_signatures : option ContextSignatures
}.

Section Diff.
Context `{UI : !UnorderedIter} `{SS : !StdSort}.
Variable isValidUtf8 : bytes -> bool.
(** The order in which the hash table of choices is walked. *)
Variable table_iter : gmap SigKey Choice -> list (SigKey * Choice).

Definition nodesByUsr (g : CallGraph) : list CallGraphNode := std_sort usr_less (graph_nodes g).

Definition collect_function (identity : IdentityTable) (functions : FnMap) (n : CallGraphNode) : FnMap :=
  let key := id_keyOf identity (usr n) in
  if isAmbiguous identity key then functions
  else match functions !! key with
       | Some _ => functions
       | None => <[key := facts_of key n]> functions
       end.

Definition count_withheld (group : bytes) (withheld : gmap bytes nat) : gmap bytes nat :=
  <[group := S (default 0 (withheld !! group))]> withheld.

(** A site of a relationship; its names are those of the first edge that has any. *)
Definition push_rel (key : RelKey) (e : CallGraphEdge) (w : SiteWitness) (rels : RelMap) : RelMap :=
  let v := default (MkRelValue [] [] (MkRelSide [] [] [])) (rels !! key) in
  let '(cn, en) := match rv_callerName v with [] => (callerName e, calleeName e) | n => (n, rv_calleeName v) end in
  <[key := MkRelValue cn en (MkRelSide (rs_sites (rv_side v) ++ [w]) (rs_attributes (rv_side v)) (rs_signatures (rv_side v)))]> rels.

Definition collect_edge (identity : IdentityTable) (contexts : option ContextSignatures) (st : RelMap * gmap bytes nat) (e : CallGraphEdge)
  : RelMap * gmap bytes nat :=
  let '(rels, withheld) := st in
  let callerKey := id_keyOf identity (callerUsr e) in
  let calleeKey := id_keyOf identity (calleeUsr e) in
  if isAmbiguous identity callerKey then (rels, count_withheld (id_groupOf identity callerKey) withheld)
  else if isAmbiguous identity calleeKey then (rels, count_withheld (id_groupOf identity calleeKey) withheld)
  else (push_rel (callerKey, calleeKey, e_kind e) e (witness_of contexts e) rels, withheld).

Definition finish_rel (contexts : option ContextSignatures) (v : RelValue) : RelValue :=
  let sites := std_sort siteLess (rs_sites (rv_side v)) in
  MkRelValue (rv_callerName v) (rv_calleeName v)
    (MkRelSide sites (sort_texts (rs_attributes (rv_side v) ++ (attributeOf <$> sites)))
       (sort_texts (rs_signatures (rv_side v) ++ (match contexts with Some _ => sw_signature <$> sites | None => [] end)))).

(** The edges of a side, caller by caller. *)
Definition side_edges (g : CallGraph) : list CallGraphEdge := nodesByUsr g ≫= fun n => calleesOf isValidUtf8 g (usr n).

Definition collectSide (g : CallGraph) (identity : IdentityTable) (contexts : option ContextSignatures) : FnMap * RelMap * gmap bytes nat :=
  let functions := foldl (collect_function identity) ∅ (nodesByUsr g) in
  let '(rels, withheld) := foldl (collect_edge identity contexts) (∅, ∅) (side_edges g) in
  (functions, finish_rel contexts <$> rels, withheld).

(** ** Functions *)

Definition fileNamesTu (file0 tuPath : bytes) : bool :=
  let fl := strip_dots file0 in
  if bool_decide (fl = []) then false
  else bool_decide (fl = tuPath) ||
       ((length fl <? length tuPath) && ends_component tuPath fl) ||
       ((length tuPath <? length fl) && ends_component fl tuPath).

Definition explainAbsence (fl : bytes) (absent failed partial : list bytes) (suffix : bytes) : bytes :=
  if existsb (fileNamesTu fl) absent then str "tu_absent_" ++ suffix
  else if existsb (fileNamesTu fl) failed then str "tu_failed_" ++ suffix
  else if existsb (fileNamesTu fl) partial then str "tu_partial_" ++ suffix
  else [].

Definition function_change (change : ChangeKind) (key : bytes) (f : FunctionFacts) (explanation : bytes) : ChangeRecord :=
  MkChange change key [] [] [] DirectCall None None f explanation.

(** The record of one key of the merged walk. *)
Definition visit_function (c : Comparability) (t : bytes * option FunctionFacts * option FunctionFacts) : list ChangeRecord :=
  let '(key, ob, oa) := t in
  match ob, oa with
  | Some f, None => [function_change FunctionRemoved key f (explainAbsence (ff_file f) (tusOnlyBefore c) (failedAfter c) (partialAfter c) (str "after"))]
  | None, Some f => [function_change FunctionAdded key f (explainAbsence (ff_file f) (tusOnlyAfter c) (failedBefore c) (partialBefore c) (str "before"))]
  | _, _ => []
  end.

Definition visit_move (t : bytes * option FunctionFacts * option FunctionFacts) : list FunctionMove :=
  let '(key, ob, oa) := t in
  match ob, oa with
  | Some b, Some a =>
      if negb (bool_decide (ff_file b = ff_file a)) || negb (ff_line b =? ff_line a)%N
      then [MkMove key (ff_name a) (ff_file b) (ff_file a) (ff_line b) (ff_line a)] else []
  | _, _ => []
  end.

(** [removedByName] and [addedByName]. *)
Definition functions_by_name (change : ChangeKind) (changes : list ChangeRecord) : gmap bytes (list FunctionFacts) :=
  foldl (fun m rec => if decide (ch_change rec = change)
                      then <[ff_name (ch_function rec) := default [] (m !! ff_name (ch_function rec)) ++ [ch_function rec]]> m else m) ∅ changes.

Definition rename_less (x y : RenameCandidate) : bool :=
  ltb_of (lex_cmp bytes_cmp bytes_cmp (rn_beforeKey x, rn_afterKey x) (rn_beforeKey y, rn_afterKey y)).

Definition rename_candidates (removed added : gmap bytes (list FunctionFacts)) : list RenameCandidate :=
  std_sort rename_less
    (entries bytes_cmp removed ≫= fun '(name, rfs) =>
       rf ← rfs; af ← default [] (added !! name); [MkRename name (ff_key rf) (ff_key af) (ff_file rf) (ff_file af)]).

(** ** Relationships *)

Definition trimSites (maxSites : nat) (s : RelationshipSide) : RelationshipSide :=
  if negb (maxSites =? 0) && (maxSites <? length (rs_sites s))
  then MkRelSide (take maxSites (rs_sites s)) (rs_attributes s) (rs_signatures s) else s.

Definition call_change (maxSites : nat) (change : ChangeKind) (key : RelKey) (v : RelValue) (before after : option RelationshipSide) : ChangeRecord :=
  MkChange change key.1.1 key.1.2 (rv_callerName v) (rv_calleeName v) key.2
    (trimSites maxSites <$> before) (trimSites maxSites <$> after) no_function [].

Definition visit_relationship (maxSites : nat) (contexts : bool) (t : RelKey * option RelValue * option RelValue) : list ChangeRecord :=
  let '(key, ob, oa) := t in
  match ob, oa with
  | Some b, None => [call_change maxSites CallRemoved key b (Some (rv_side b)) None]
  | None, Some a => [call_change maxSites CallAdded key a None (Some (rv_side a))]
  | Some b, Some a =>
      (if bool_decide (rs_attributes (rv_side b) = rs_attributes (rv_side a)) then []
       else [call_change maxSites CallChanged key a (Some (rv_side b)) (Some (rv_side a))]) ++
      (if contexts && negb (bool_decide (rs_signatures (rv_side b) = rs_signatures (rv_side a)))
       then [call_change maxSites ContextChanged key a (Some (rv_side b)) (Some (rv_side a))] else [])
  | None, None => []
  end.

(** ** The comparison *)

Definition change_key (c : ChangeRecord) : N * bytes * bytes * N := (change_code (ch_change c), ch_callerKey c, ch_calleeKey c, kind_code (ch_kind c)).

Definition change_cmp : N * bytes * bytes * N -> N * bytes * bytes * N -> comparison :=
  lex_cmp (lex_cmp (lex_cmp N.compare bytes_cmp) bytes_cmp) N.compare.

Definition change_less (x y : ChangeRecord) : bool := ltb_of (change_cmp (change_key x) (change_key y)).

Definition ambiguous_group (idB idA : IdentityTable) (withheldB withheldA : gmap bytes nat) (gk : bytes * list bytes) : option AmbiguousIdentity :=
  match gk.2 with
  | [] => None
  | k :: _ =>
      if negb (isAmbiguous idB k) then None
      else Some (MkAmbiguous gk.1 (omap (usrOf idB) gk.2) (omap (usrOf idA) (default [] (id_groups idA !! gk.1)))
                   (default 0 (withheldB !! gk.1)) (default 0 (withheldA !! gk.1)))
  end.

Definition refused_diff (c : Comparability) : SemanticDiffResult := MkDiff c true [] [] [] [] 0 0 0 0 0.

Definition sides_contexts (before after : DiffSide) (opts : SemanticDiffOptions) : bool :=
  let has s := match ds_signatures s, ds_cfIndex s with None, None => false | _, _ => true end in
  compareContexts opts && has before && has after.

Definition side_signatures (contexts : bool) (s : DiffSide) : option ContextSignatures :=
  if contexts then
    match ds_signatures s with
    | Some sg => Some sg
    | None => (fun cf => buildSignatures (resident isValidUtf8 cf) (stringOf cf) (contextOfShape cf) table_iter) <$> ds_cfIndex s
    end
  else None.

(** What is computed once both sides are collected. *)
Definition compare_sides (c : Comparability) (opts : SemanticDiffOptions) (contexts : bool) (idB idA : IdentityTable)
    (sb sa : FnMap * RelMap * gmap bytes nat) : SemanticDiffResult :=
  let '(fnB, relB, withheldB) := sb in
  let '(fnA, relA, withheldA) := sa in
  let functions := walk_both bytes_cmp fnB fnA in
  let fnChanges := functions ≫= visit_function c in
  let moves := functions ≫= visit_move in
  let relChanges := walk_both relkey_cmp relB relA ≫= visit_relationship (maxSites opts) contexts in
  MkDiff c false (stable_sort (no_less_before change_less) (fnChanges ++ relChanges))
    (omap (ambiguous_group idB idA withheldB withheldA) (entries bytes_cmp (id_groups idB)))
    (rename_candidates (functions_by_name FunctionRemoved fnChanges) (functions_by_name FunctionAdded fnChanges))
    (if includeMoves opts then moves else []) (length moves)
    (size fnB) (size fnA) (size relB) (size relA).

(** The result, and the two tables with the ambiguity marks; a refused comparison leaves the tables alone. *)
Definition semanticDiff (before after : DiffSide) (opts : SemanticDiffOptions) : SemanticDiffResult * option (IdentityTable * IdentityTable) :=
  let contexts := sides_contexts before after opts in
  let c := checkComparability (ds_meta before) (ds_meta after) contexts in
  if negb (comparable c) && negb (allowMismatch opts) then (refused_diff c, None)
  else
    let '(idB, idA) := markAmbiguousGroups (buildIdentity isValidUtf8 (ds_graph before)) (buildIdentity isValidUtf8 (ds_graph after)) in
    (compare_sides c opts contexts idB idA
       (collectSide (ds_graph before) idB (side_signatures contexts before))
       (collectSide (ds_graph after) idA (side_signatures contexts after)),
     Some (idB, idA)).

Definition changedFunctionsAfter (diff : SemanticDiffResult) (after : IdentityTable) : list bytes :=
  sorted_keys_of bytes_cmp (list_to_set (omap (fun c =>
    match ch_change c with
    | FunctionAdded => Some (ff_usr (ch_function c))
    | FunctionRemoved => None
    | _ => usrOf after (ch_callerKey c)
    end) (df_changes diff))).

(** * Routes *)

Definition routeKey (identity : IdentityTable) (p : list PathHop) : bytes :=
  p ≫= fun hop => id_keyOf identity (h_callerUsr hop) ++ str ">" ++ id_keyOf identity (h_calleeUsr hop) ++ str "#" ++ edgeKindToString (h_kind hop) ++ str ";".

Record RouteDiff := MkRoutes {
  rd_before : PathSearchResult;
  rd_after : PathSearchResult;
  rd_added : list (list PathHop);
  rd_removed : list (list PathHop);
  rd_unchanged : nat;
  rd_complete : bool;
  rd_exhaustive : bool
}.

Definition count_key (m : gmap bytes nat) (k : bytes) : nat := default 0 (m !! k).

(** The after-side paths against the counts of the before side: the counts that remain, those matched, and the paths without a match. *)
Definition match_after (key : list PathHop -> bytes) (st : gmap bytes nat * gmap bytes nat * nat * list (list PathHop)) (p : list PathHop)
  : gmap bytes nat * gmap bytes nat * nat * list (list PathHop) :=
  let '(counts, matched, unchanged, added) := st in
  let k := key p in
  if 0 <? count_key counts k
  then (<[k := pred (count_key counts k)]> counts, <[k := S (count_key matched k)]> matched, S unchanged, added)
  else (counts, matched, unchanged, added ++ [p]).

Definition drop_matched (key : list PathHop -> bytes) (st : gmap bytes nat * list (list PathHop)) (p : list PathHop) : gmap bytes nat * list (list PathHop) :=
  let '(matched, removed) := st in
  let k := key p in
  if 0 <? count_key matched k then (<[k := pred (count_key matched k)]> matched, removed) else (matched, removed ++ [p]).

Definition compare_routes (keyB keyA : list PathHop -> bytes) (before after : PathSearchResult) : RouteDiff :=
  let counts := foldl (fun m p => <[keyB p := S (count_key m (keyB p))]> m) ∅ (paths before) in
  let '(_, matched, unchanged, added) := foldl (match_after keyA) (counts, ∅, 0, []) (paths after) in
  let '(_, removed) := foldl (drop_matched keyB) (matched, []) (paths before) in
  MkRoutes before after added removed unchanged (complete before && complete after) (exhaustive before && exhaustive after).

Definition diffRoutes (before after : DiffSide) (idB idA : IdentityTable) (target : bytes) (beforeStarts afterStarts : list bytes)
    (limits : SearchLimits) : RouteDiff :=
  compare_routes (routeKey idB) (routeKey idA)
    (findCallerPaths isValidUtf8 (ds_graph before) target beforeStarts limits SimpleNodes None)
    (findCallerPaths isValidUtf8 (ds_graph after) target afterStarts limits SimpleNodes None).
End Diff.
