(* ===== verification/SemanticIdentityCorrect.v ===== *)
(** What cross-index identity promises (src/impact/SemanticDiff.cpp, [IdentityTable]): the keys of
    the lambdas of a graph are distinct, a key leads back to a function with that key, a usr without
    positions is its own key, and moving code up or down a file changes no lambda's key. *)

From S2P Require Import Prelude Utf8 StringInterner CallGraph CallGraphInv CallGraphQuery CallGraphMerge Ordering Text Results SortedMap PatchMapping PatchMappingCorrect PatchParse SemanticIdentity.

(** * Lambda keys *)

Lemma app_last_inj (c : Byte.byte) (a b a' b' : bytes) : (c ∉ b) -> (c ∉ b') -> a ++ c :: b = a' ++ c :: b' -> a = a' /\ b = b'.
Proof.
  intros Hb Hb' E. assert (Er : forall x y : bytes, (c ∉ y) -> split_char c (rev (x ++ c :: y)) = (rev y, rev x)).
  { intros x y Hy. rewrite rev_app_distr. cbn [rev]. rewrite <- app_assoc. apply split_char_app. by rewrite elem_of_rev. }
  pose proof (Er a b Hb) as H1. rewrite E, Er in H1 by done. injection H1 as H1 H2.
  split; [rewrite <- (rev_involutive a), <- H2|rewrite <- (rev_involutive b), <- H1]; by rewrite rev_involutive.
Qed.

Lemma lambda_key_inj gr i gr' i' : lambda_key gr i = lambda_key gr' i' -> gr = gr' /\ i = i'.
Proof.
  unfold lambda_key. intros E%app_inv_head. cbn in E. apply app_last_inj in E as [-> E]; [|by apply to_string_no..].
  split; [done|]. apply to_string_inj in E. by apply Nat2N.inj in E.
Qed.

(** The members of a group so far. *)
Definition members_of (gu : gmap bytes (list bytes)) (gr : bytes) : list bytes := default [] (gu !! gr).

Lemma members_insert gu gr l gr' : members_of (<[gr := l]> gu) gr' = if decide (gr = gr') then l else members_of gu gr'.
Proof. unfold members_of. case_decide; [subst; by rewrite lookup_insert_eq|by rewrite lookup_insert_ne]. Qed.

Record lambdas_keyed (ls : list Lambda) (st : IdentityTable * gmap bytes (list bytes)) : Prop := {
  lk_dom : forall u, is_Some (keyByUsr st.1 !! u) <-> u ∈ ls.*1;
  lk_key : forall u k, keyByUsr st.1 !! u = Some k -> exists gr i, members_of st.2 gr !! i = Some u /\ k = lambda_key gr i;
  lk_back : forall k u, usrByKey st.1 !! k = Some u -> keyByUsr st.1 !! u = Some k;
  lk_both : forall u k, keyByUsr st.1 !! u = Some k -> is_Some (usrByKey st.1 !! k)
}.

Lemma add_lambda_keyed ls st l : l.1 ∉ ls.*1 -> lambdas_keyed ls st -> lambdas_keyed (ls ++ [l]) (add_lambda st l).
Proof.
  intros Hl [H1 H2 H3 H4]. destruct st as [t gu]. cbn [fst snd] in *. unfold add_lambda. fold (members_of gu (lambda_group t l)).
  set (gr := lambda_group t l). set (key := lambda_key gr (length (members_of gu gr))).
  assert (Hfresh : keyByUsr t !! l.1 = None) by (apply eq_None_not_Some; by rewrite H1).
  split; cbn [fst snd keyByUsr usrByKey].
  - intros u. rewrite fmap_app, elem_of_app. cbn. rewrite list_elem_of_singleton, lookup_insert_is_Some', H1. naive_solver.
  - intros u k. destruct (decide (u = l.1)) as [->|Hne].
    + rewrite lookup_insert_eq. intros [= <-]. exists gr, (length (members_of gu gr)). split; [|done].
      rewrite members_insert, decide_True by done. by apply list_lookup_middle.
    + rewrite lookup_insert_ne by done. intros (gr' & i & Hi & ->)%H2. exists gr', i. split; [|done]. rewrite members_insert.
      case_decide; [subst gr'; by apply lookup_app_l_Some|done].
  - intros k u [[<- <-]|[Hne E]]%lookup_insert_Some; [apply lookup_insert_eq|]. apply H3 in E. rewrite lookup_insert_ne by congruence. done.
  - intros u k. destruct (decide (u = l.1)) as [->|Hne].
    + rewrite lookup_insert_eq. intros [= <-]. rewrite lookup_insert_eq. by eexists.
    + rewrite lookup_insert_ne by done. intros E%H4. rewrite lookup_insert_is_Some'. by right.
Qed.

Lemma lambdas_all_keyed ls : NoDup ls.*1 -> lambdas_keyed ls (foldl add_lambda (empty_identity, ∅) ls).
Proof.
  induction ls as [|l ls IH] using rev_ind; intros Hnd.
  - split; cbn; intros; try (by rewrite lookup_empty in *); rewrite lookup_empty; split; [by intros [? ?]|by intros ?%not_elem_of_nil].
  - rewrite fmap_app in Hnd. apply NoDup_app in Hnd as (Hnd & Hl & _). rewrite foldl_snoc. apply add_lambda_keyed; [|by apply IH].
    intros Hin. apply (Hl l.1 Hin). left.
Qed.

(** Two lambdas never share a key. *)
Lemma lambda_keys_distinct ls u u' k : NoDup ls.*1 -> keyByUsr (add_lambdas ls) !! u = Some k -> keyByUsr (add_lambdas ls) !! u' = Some k -> u = u'.
Proof.
  intros Hnd. destruct (lambdas_all_keyed ls Hnd) as [_ H2 _ _]. unfold add_lambdas.
  intros (gr & i & Hi & ->)%H2 (gr' & i' & Hi' & E)%H2. apply lambda_key_inj in E as [<- <-]. congruence.
Qed.

(** * Moving code *)

(** The lambda an enclosing name is of has the same place on both sides. *)
Definition same_enclosing (ls ls' : list Lambda) (i : nat) (e e' : bytes) : Prop :=
  starts_with e (str "lambda#") = false /\ e' = e \/
  starts_with e (str "lambda#") = true /\ starts_with e' (str "lambda#") = true /\
  exists j p p', j < i /\ ls !! j = Some (str "vycor-lambda:" ++ e, p) /\ ls' !! j = Some (str "vycor-lambda:" ++ e', p').

(** The same lambdas of the same files and functions, in the same order, at other lines and columns. *)
Record shifted (ls ls' : list Lambda) : Prop := {
  sh_length : length ls = length ls';
  sh_file : forall i l l', ls !! i = Some l -> ls' !! i = Some l' -> lp_file l.2 = lp_file l'.2;
  sh_enclosing : forall i l l', ls !! i = Some l -> ls' !! i = Some l' -> same_enclosing ls ls' i (lp_enclosing l.2) (lp_enclosing l'.2)
}.

Lemma shifted_prefix ls ls' n : NoDup ls.*1 -> NoDup ls'.*1 -> shifted ls ls' -> n <= length ls ->
  let st := foldl add_lambda (empty_identity, ∅) (take n ls) in
  let st' := foldl add_lambda (empty_identity, ∅) (take n ls') in
  (forall gr, length (members_of st.2 gr) = length (members_of st'.2 gr)) /\
  forall j l l', j < n -> ls !! j = Some l -> ls' !! j = Some l' ->
    exists k, keyByUsr st.1 !! l.1 = Some k /\ keyByUsr st'.1 !! l'.1 = Some k.
Proof.
  intros Hnd Hnd' Hsh Hn. induction n as [|n IH]; [split; [done|]; intros; lia|]. destruct IH as [IH1 IH2]; [lia|].
  destruct (lookup_lt_is_Some_2 ls n) as [l El]; [lia|]. destruct (lookup_lt_is_Some_2 ls' n) as [l' El']; [rewrite <- (sh_length _ _ Hsh); lia|].
  rewrite (take_S_r _ _ _ El), (take_S_r _ _ _ El'), !foldl_snoc.
  destruct (foldl add_lambda (empty_identity, ∅) (take n ls)) as [t gu], (foldl add_lambda (empty_identity, ∅) (take n ls')) as [t' gu']. cbn [fst snd] in *.
  assert (Ee : enclosing_key t (lp_enclosing l.2) = enclosing_key t' (lp_enclosing l'.2)).
  { unfold enclosing_key. destruct (sh_enclosing _ _ Hsh n l l' El El') as [[E ->]|(E & E' & j & p & p' & Hj & Ej & Ej')]; [by rewrite E|].
    rewrite E, E'. destruct (IH2 j _ _ Hj Ej Ej') as (k & K1 & K2). cbn [fst] in K1, K2. by rewrite K1, K2. }
  assert (Eg : lambda_group t l = lambda_group t' l') by (unfold lambda_group; by rewrite Ee, (sh_file _ _ Hsh n l l' El El')).
  unfold add_lambda. fold (members_of gu (lambda_group t l)) (members_of gu' (lambda_group t' l')). rewrite <- Eg. cbn [fst snd keyByUsr].
  split.
  - intros gr. rewrite !members_insert. case_decide; [|apply IH1]. rewrite !length_app, IH1. done.
  - intros j m m' Hj Em Em'. destruct (decide (j = n)) as [->|Hne].
    + assert (m = l) as -> by congruence. assert (m' = l') as -> by congruence. rewrite !lookup_insert_eq, IH1. eauto.
    + assert (Hd : forall (ks : list Lambda) a b, NoDup ks.*1 -> ks !! j = Some a -> ks !! n = Some b -> b.1 <> a.1).
      { intros ks a b Hk Ea Eb E. apply Hne. eapply (NoDup_lookup _ _ _ a.1 Hk); rewrite list_lookup_fmap; [by rewrite Ea|rewrite Eb; cbn; congruence]. }
      pose proof (Hd ls m l Hnd Em El). pose proof (Hd ls' m' l' Hnd' Em' El'). rewrite !lookup_insert_ne by done. apply (IH2 j); [lia|done|done].
Qed.

(** * The whole table *)

(** What the later steps keep of a table: its entries, and that a key leads back to a usr with that key. *)
Record grown (t t' : IdentityTable) : Prop := {
  gr_keys : keyByUsr t ⊆ keyByUsr t';
  gr_back : (forall k u, usrByKey t !! k = Some u -> keyByUsr t !! u = Some k) -> forall k u, usrByKey t' !! k = Some u -> keyByUsr t' !! u = Some k;
  gr_known : forall k, is_Some (usrByKey t !! k) -> is_Some (usrByKey t' !! k)
}.

Lemma grown_refl t : grown t t.
Proof. by split. Qed.

Lemma grown_trans t1 t2 t3 : grown t1 t2 -> grown t2 t3 -> grown t1 t3.
Proof. intros [A1 A2 A3] [B1 B2 B3]. split; [by etrans|auto|auto]. Qed.

(** A fresh usr under some key, which may lead back to it. *)
Lemma grown_insert t u key (back : bool) grs sizes gks marks : keyByUsr t !! u = None ->
  grown t (MkIdentity (<[u := key]> (keyByUsr t)) (if back then <[key := u]> (usrByKey t) else usrByKey t) grs sizes gks marks).
Proof.
  intros Hu. split; cbn.
  - by apply insert_subseteq.
  - intros H k v. assert (Hold : usrByKey t !! k = Some v -> <[u := key]> (keyByUsr t) !! v = Some k).
    { intros E%H. rewrite lookup_insert_ne by congruence. done. }
    destruct back; [|done]. intros [[<- <-]|[_ E]]%lookup_insert_Some; [apply lookup_insert_eq|by apply Hold].
  - intros k Hk. destruct back; [rewrite lookup_insert_is_Some'; by right|done].
Qed.

Section Built.
Context `{UI : !UnorderedIter} `{SS : !StdSort}.
Variable isValidUtf8 : bytes -> bool.
Variable g : CallGraph.

Abbreviation ls := (std_sort lambda_less (graph_lambdas g)).
Abbreviation t1 := (add_lambdas ls).
Abbreviation t := (buildIdentity isValidUtf8 g).

Lemma add_located_grown offsets located t0 : NoDup located.*1 -> (forall u, u ∈ located.*1 -> keyByUsr t0 !! u = None) ->
  grown t0 (foldl (add_located isValidUtf8 g offsets) t0 located) /\
  (forall u, u ∉ located.*1 -> keyByUsr (foldl (add_located isValidUtf8 g offsets) t0 located) !! u = keyByUsr t0 !! u) /\
  (forall u frags n, (u, frags) ∈ located -> frags <> [] -> findNode isValidUtf8 g u = Some n ->
     exists k, keyByUsr (foldl (add_located isValidUtf8 g offsets) t0 located) !! u = Some k /\
       is_Some (usrByKey (foldl (add_located isValidUtf8 g offsets) t0 located) !! k)).
Proof.
  induction located as [|[u frags] located IH] using rev_ind; intros Hnd Hfresh.
  { split_and!; [apply grown_refl|done|by intros u frags n ?%not_elem_of_nil]. }
  rewrite fmap_app in Hnd, Hfresh |- *. cbn in Hnd, Hfresh |- *. apply NoDup_app in Hnd as (Hnd & Hu & _).
  assert (Hul : u ∉ located.*1) by (intros Hin; apply (Hu u Hin); left).
  destruct IH as (G & Hother & Hback); [done|intros v Hv; apply Hfresh, elem_of_app; by left|]. rewrite foldl_snoc.
  set (t2 := foldl (add_located isValidUtf8 g offsets) t0 located) in *.
  assert (Hn : keyByUsr t2 !! u = None) by (rewrite Hother by done; apply Hfresh, elem_of_app; right; left).
  unfold add_located. cbn [fst snd]. destruct (head frags) as [f|] eqn:Ef.
  2:{ split_and!; [done|intros v Hv; apply Hother; set_solver|]. intros v fs n [?|[= -> ->]%list_elem_of_singleton]%elem_of_app Hne E; [by eapply Hback|]. by destruct frags. }
  set (key := located_key offsets u frags).
  assert (Eb : (match findNode isValidUtf8 g u with Some _ => <[key := u]> (usrByKey t2) | None => usrByKey t2 end) =
    (if bool_decide (is_Some (findNode isValidUtf8 g u)) then <[key := u]> (usrByKey t2) else usrByKey t2)).
  { destruct (findNode isValidUtf8 g u); [by rewrite bool_decide_true by (by eexists)|by rewrite bool_decide_false by (by intros [? ?])]. }
  rewrite Eb. pose proof (grown_insert t2 u key (bool_decide (is_Some (findNode isValidUtf8 g u))) (push_key (lf_group f) key (id_groups t2)) (groupSizes t2)
    (<[key := lf_group f]> (groupByKey t2)) (ambiguousKeys t2) Hn) as G2. split_and!.
  - by eapply grown_trans.
  - intros v Hv. cbn. rewrite lookup_insert_ne by set_solver. apply Hother. set_solver.
  - intros v fs n [Hin|[= -> ->]%list_elem_of_singleton]%elem_of_app Hne E.
    + destruct (Hback v fs n Hin Hne E) as (k & Hk & Hs). exists k. split; [by eapply lookup_weaken, G2|by apply G2].
    + exists key. cbn. rewrite lookup_insert_eq. split; [done|]. rewrite E, bool_decide_true by (by eexists). rewrite lookup_insert_eq. by eexists.
Qed.

Lemma add_plain_grown ns t0 :
  grown t0 (foldl add_plain t0 ns) /\
  (forall u, u ∉ usr <$> ns -> keyByUsr (foldl add_plain t0 ns) !! u = keyByUsr t0 !! u) /\
  (forall n, n ∈ ns -> keyByUsr t0 !! usr n = None -> keyByUsr (foldl add_plain t0 ns) !! usr n = Some (usr n) /\ is_Some (usrByKey (foldl add_plain t0 ns) !! usr n)).
Proof.
  induction ns as [|n ns IH] using rev_ind; [split_and!; [apply grown_refl|done|by intros n ?%not_elem_of_nil]|].
  destruct IH as (G & Hother & Hin). rewrite foldl_snoc. set (t2 := foldl add_plain t0 ns) in *. rewrite fmap_app. cbn.
  assert (G2 : grown t2 (add_plain t2 n)).
  { unfold add_plain. destruct (keyByUsr t2 !! usr n) eqn:E; [apply grown_refl|]. by apply (grown_insert t2 (usr n) (usr n) true). }
  split_and!.
  - by eapply grown_trans.
  - intros u Hu. rewrite <- Hother by set_solver. unfold add_plain. destruct (keyByUsr t2 !! usr n); [done|]. cbn. rewrite lookup_insert_ne by set_solver. done.
  - intros m [Hm| ->%list_elem_of_singleton]%elem_of_app Hn.
    + destruct (Hin m Hm Hn) as [K1 K2]. split; [by eapply lookup_weaken, G2|by apply G2].
    + unfold add_plain. destruct (decide (usr n ∈ usr <$> ns)) as [Hu|Hu].
      * apply list_elem_of_fmap in Hu as (m & Em & Hm'). rewrite Em in Hn |- *. destruct (Hin m Hm' Hn) as [K1 K2]. by rewrite K1.
      * rewrite (Hother _ Hu), Hn. cbn. rewrite !lookup_insert_eq. split; [done|by eexists].
Qed.

Hypothesis Hg : cg_ok g.

Lemma graph_usrs_nodup : NoDup (usr <$> graph_nodes g).
Proof.
  unfold graph_nodes. rewrite <- list_fmap_compose. apply (NoDup_fmap_2_strong _ _).
  - intros [id n] [id' n'] H1 H2 E. apply elem_of_map_iter in H1, H2. cbn in E.
    pose proof (node_id g id n Hg H1) as K1. pose proof (node_id g id' n' Hg H2) as K2. rewrite E in K1. assert (id = id') as -> by congruence. congruence.
  - rewrite map_iter_perm. apply NoDup_map_to_list.
Qed.

Lemma graph_lambdas_elem l : l ∈ graph_lambdas g <-> exists n, is_node g n /\ usr n = l.1 /\ parseLambda l.1 = Some l.2.
Proof.
  unfold graph_lambdas. rewrite list_elem_of_omap. split.
  - intros (n & Hn%elem_of_graph_nodes & (p & Hp & ->)%fmap_Some). by exists n.
  - intros (n & Hn & E & Hp). exists n. split; [by apply elem_of_graph_nodes|]. rewrite E, Hp. by destruct l.
Qed.

Lemma lambdas_nodup : NoDup ls.*1.
Proof.
  assert (H : ls.*1 ≡ₚ (graph_lambdas g).*1) by (by rewrite std_sort_perm). rewrite H. unfold graph_lambdas.
  pose proof graph_usrs_nodup as Hnd. induction (graph_nodes g) as [|n ns IH]; [constructor|]. rewrite fmap_cons in Hnd. apply NoDup_cons in Hnd as [Hn Hnd].
  cbn [omap list_omap]. destruct (parseLambda (usr n)) as [p|]; cbn; [|by apply IH]. constructor; [|by apply IH].
  intros (l & El & (m & Hm & (p' & _ & ->)%fmap_Some)%list_elem_of_omap)%list_elem_of_fmap. apply Hn. rewrite El. apply list_elem_of_fmap. by exists m.
Qed.

Lemma t1_keyed : lambdas_keyed ls (foldl add_lambda (empty_identity, ∅) ls).
Proof. apply lambdas_all_keyed, lambdas_nodup. Qed.

Lemma located_elem u frags : (u, frags) ∈ located_usrs isValidUtf8 g t1 <->
  u ∈ mentioned_usrs isValidUtf8 g /\ keyByUsr t1 !! u = None /\ frags = locationFragments u /\ frags <> [].
Proof.
  unfold located_usrs. rewrite list_elem_of_omap. split.
  - intros (v & Hv & E). destruct (keyByUsr t1 !! v) eqn:Ek; [done|]. destruct (locationFragments v) eqn:Ef; [done|]. injection E as <- <-. done.
  - intros (Hu & Ek & -> & Hne). exists u. split; [done|]. rewrite Ek. by destruct (locationFragments u).
Qed.

Lemma located_nodup : NoDup (located_usrs isValidUtf8 g t1).*1.
Proof.
  unfold located_usrs. assert (Hnd : NoDup (mentioned_usrs isValidUtf8 g)) by apply sorted_keys_NoDup.
  induction Hnd as [|u us Hu Hnd IH]; [constructor|]. cbn [omap list_omap].
  destruct (keyByUsr t1 !! u); [done|]. destruct (locationFragments u) as [|f fs]; [done|]. cbn. constructor; [|done].
  intros ([v fr] & E & (w & Hw & Ew)%list_elem_of_omap)%list_elem_of_fmap. cbn in E. subst v. apply Hu.
  destruct (keyByUsr t1 !! w); [done|]. destruct (locationFragments w); [done|]. by injection Ew as <- _.
Qed.

Abbreviation offsets := (foldl note_offset ∅ (located_usrs isValidUtf8 g t1 ≫= snd)).
Abbreviation t2 := (set_sizes offsets (foldl (add_located isValidUtf8 g offsets) t1 (located_usrs isValidUtf8 g t1))).

Lemma located_grown : grown t1 t2 /\
  (forall u, u ∉ (located_usrs isValidUtf8 g t1).*1 -> keyByUsr t2 !! u = keyByUsr t1 !! u) /\
  (forall u frags n, (u, frags) ∈ located_usrs isValidUtf8 g t1 -> frags <> [] -> findNode isValidUtf8 g u = Some n ->
     exists k, keyByUsr t2 !! u = Some k /\ is_Some (usrByKey t2 !! k)).
Proof.
  destruct (add_located_grown offsets (located_usrs isValidUtf8 g t1) t1) as (G & Ho & Hb); [apply located_nodup| |].
  - intros u ([v fr] & -> & Hin)%list_elem_of_fmap. by apply located_elem in Hin as (_ & ? & _).
  - split_and!; [|done|done]. destruct G as [G1 G2 G3]. by split.
Qed.

Lemma t_grown : grown t1 t.
Proof.
  eapply grown_trans; [apply located_grown|]. unfold buildIdentity. apply add_plain_grown.
Qed.

(** A lambda keeps the key it was given first. *)
Lemma lambda_key_of u k : keyByUsr t1 !! u = Some k -> id_keyOf t u = k.
Proof. intros E. unfold id_keyOf. by rewrite (lookup_weaken _ _ _ _ E (gr_keys _ _ t_grown)). Qed.

Lemma key_back k u : usrOf t k = Some u -> keyByUsr t !! u = Some k.
Proof. apply (gr_back _ _ t_grown). intros k' u'. apply (lk_back _ _ t1_keyed). Qed.

Lemma lambda_is_keyed n p : is_node g n -> parseLambda (usr n) = Some p -> is_Some (keyByUsr t1 !! usr n).
Proof.
  intros Hn Hp. apply (lk_dom _ _ t1_keyed). apply list_elem_of_fmap. exists (usr n, p). split; [done|].
  rewrite std_sort_perm. apply graph_lambdas_elem. by exists n.
Qed.

Hypothesis Htext : forall n, is_node g n -> isValidUtf8 (usr n) = true.

Lemma node_found n : is_node g n -> exists n', findNode isValidUtf8 g (usr n) = Some n'.
Proof.
  intros Hn. pose proof (findNode_spec isValidUtf8 g (usr n) Hg) as HF. cbn zeta in HF.
  destruct (findNode isValidUtf8 g (usr n)) as [n'|]; [by exists n'|exfalso]. unfold key_text, lookupText in HF. rewrite (Htext n Hn) in HF.
  destruct Hn as [id E]. eapply HF; [exact E|]. by left.
Qed.

(** Every node has a key that leads back to a usr. *)
Lemma node_keyed n : is_node g n -> exists k, keyByUsr t !! usr n = Some k /\ is_Some (usrByKey t !! k).
Proof.
  intros Hn. destruct (add_plain_grown (graph_nodes g) t2) as (G & _ & Hplain). destruct located_grown as (_ & Ho & Hloc).
  change (foldl add_plain t2 (graph_nodes g)) with t in G, Hplain.
  destruct (keyByUsr t2 !! usr n) as [k|] eqn:E.
  - exists k. split; [by eapply lookup_weaken, G|]. apply G. destruct (decide (usr n ∈ (located_usrs isValidUtf8 g t1).*1)) as [Hin|Hout].
    + apply list_elem_of_fmap in Hin as ([u fr] & Eu & Hin). cbn in Eu. subst u. destruct (node_found n Hn) as [n' Hn'].
      destruct (proj1 (located_elem _ _) Hin) as (_ & _ & _ & Hne). destruct (Hloc _ _ n' Hin Hne Hn') as (k' & K1 & K2). congruence.
    + rewrite (Ho _ Hout) in E. destruct (located_grown) as ([_ _ G3] & _). apply G3. by apply (lk_both _ _ t1_keyed (usr n)).
  - exists (usr n). apply Hplain; [by apply elem_of_graph_nodes|done].
Qed.

Lemma plain_key n : is_node g n -> parseLambda (usr n) = None -> locationFragments (usr n) = [] -> id_keyOf t (usr n) = usr n.
Proof.
  intros Hn Hp Hl. destruct (add_plain_grown (graph_nodes g) t2) as (_ & _ & Hplain). destruct located_grown as (_ & Ho & _).
  change (foldl add_plain t2 (graph_nodes g)) with t in Hplain. unfold id_keyOf.
  assert (E1 : keyByUsr t1 !! usr n = None).
  { apply eq_None_not_Some. intros H%(lk_dom _ _ t1_keyed). apply list_elem_of_fmap in H as ([u p] & Eu & H). cbn in Eu. subst u.
    rewrite std_sort_perm in H. apply graph_lambdas_elem in H as (_ & _ & _ & H). cbn in H. congruence. }
  destruct (Hplain n) as [-> _]; [by apply elem_of_graph_nodes| |done].
  rewrite Ho; [done|]. intros ([u fr] & Eu & H)%list_elem_of_fmap. cbn in Eu. subst u. apply located_elem in H as (_ & _ & -> & Hne). congruence.
Qed.
End Built.

(** The identity table of a graph: every function has a key that leads back to a function with the
    same key, a key that leads to a usr is that usr's key, two lambdas never share a key, and a usr
    without a source position is its own key. *)
Theorem identity_table_sound `{!UnorderedIter} `{!StdSort} (isValidUtf8 : bytes -> bool) (g : CallGraph)
    (Hg : cg_ok g) (Htext : forall n, is_node g n -> isValidUtf8 (usr n) = true) :
  let t := buildIdentity isValidUtf8 g in
  (forall n, is_node g n -> exists u, usrOf t (id_keyOf t (usr n)) = Some u /\ id_keyOf t u = id_keyOf t (usr n)) /\
  (forall k u, usrOf t k = Some u -> id_keyOf t u = k) /\
  (forall n n', is_node g n -> is_node g n' -> is_Some (parseLambda (usr n)) -> is_Some (parseLambda (usr n')) ->
     id_keyOf t (usr n) = id_keyOf t (usr n') -> usr n = usr n') /\
  (forall n, is_node g n -> parseLambda (usr n) = None -> locationFragments (usr n) = [] -> id_keyOf t (usr n) = usr n).
Proof.
  cbn zeta. assert (Hback : forall k u, usrOf (buildIdentity isValidUtf8 g) k = Some u -> id_keyOf (buildIdentity isValidUtf8 g) u = k).
  { intros k u E. unfold id_keyOf. by rewrite (key_back isValidUtf8 g Hg k u E). }
  split_and!; [|done| |intros n Hn Hp Hl; by apply plain_key].
  - intros n Hn. destruct (node_keyed isValidUtf8 g Hg Htext n Hn) as (k & Hk & u & Hu). exists u.
    assert (E : id_keyOf (buildIdentity isValidUtf8 g) (usr n) = k) by (unfold id_keyOf; by rewrite Hk). rewrite E. split; [done|]. by apply Hback.
  - intros n n' Hn Hn' [p Hp] [p' Hp']. destruct (lambda_is_keyed g Hg n p Hn Hp) as [k Hk], (lambda_is_keyed g Hg n' p' Hn' Hp') as [k' Hk'].
    rewrite (lambda_key_of isValidUtf8 g _ _ Hk), (lambda_key_of isValidUtf8 g _ _ Hk'). intros ->.
    eapply lambda_keys_distinct; [by apply lambdas_nodup|exact Hk|exact Hk'].
Qed.

(** Moving code changes no lambda's key: when two graphs have the same lambdas, of the same files and
    enclosing functions and in the same order, at other lines and columns, the lambdas at the same
    place have the same key, nested ones included. *)
Theorem lambda_keys_survive_shift `{!UnorderedIter} `{!StdSort} (isValidUtf8 : bytes -> bool) (g g' : CallGraph)
    (Hg : cg_ok g) (Hg' : cg_ok g') (Hsh : shifted (std_sort lambda_less (graph_lambdas g)) (std_sort lambda_less (graph_lambdas g')))
    (i : nat) (l l' : Lambda) (Hl : std_sort lambda_less (graph_lambdas g) !! i = Some l) (Hl' : std_sort lambda_less (graph_lambdas g') !! i = Some l') :
  id_keyOf (buildIdentity isValidUtf8 g) l.1 = id_keyOf (buildIdentity isValidUtf8 g') l'.1.
Proof.
  set (ls := std_sort lambda_less (graph_lambdas g)) in *. set (ls' := std_sort lambda_less (graph_lambdas g')) in *.
  destruct (shifted_prefix ls ls' (length ls)) as [_ HK]; [by apply lambdas_nodup|by apply lambdas_nodup|done|done|].
  destruct (HK i l l' (lookup_lt_Some _ _ _ Hl) Hl Hl') as (k & K1 & K2). rewrite take_ge in K1 by done. rewrite take_ge in K2 by (by rewrite (sh_length _ _ Hsh)).
  by rewrite (lambda_key_of isValidUtf8 g _ _ K1), (lambda_key_of isValidUtf8 g' _ _ K2).
Qed.

(** A lambda of [f] and one nested in it, at some line. *)
Definition lambda_graph (outer inner : bytes) : CallGraph :=
  build [AddNode (MkNode (str "outer") (str "a.cpp") 3 false false [] (str "vycor-lambda:lambda#a.cpp:" ++ outer ++ str "#f")) [];
         AddNode (MkNode (str "inner") (str "a.cpp") 4 false false [] (str "vycor-lambda:lambda#a.cpp:" ++ inner ++ str "#lambda#a.cpp:" ++ outer ++ str "#f")) [];
         AddNode (MkNode (str "f") (str "a.cpp") 2 false false [] (str "c:@F@f#")) []] empty_graph.

Lemma identity_table_sound_witness :
  let t := @buildIdentity canonical_iter stable_std_sort valid_utf8b (lambda_graph (str "3:5") (str "4:7")) in
  id_keyOf t (str "c:@F@f#") = str "c:@F@f#" /\
  id_keyOf t (str "vycor-lambda:lambda#a.cpp:3:5#f") = str "vycor-lambda:a.cpp#f#0" /\
  forall k u, usrOf t k = Some u -> id_keyOf t u = k.
Proof.
  destruct (@identity_table_sound canonical_iter stable_std_sort valid_utf8b (lambda_graph (str "3:5") (str "4:7"))) as (_ & H & _).
  - apply build_ok. by_computation.
  - assert (Hall : map_Forall (fun _ n => valid_utf8b (usr n) = true) (nodes_ (lambda_graph (str "3:5") (str "4:7")))) by by_computation.
    intros n [id E]. by apply Hall in E.
  - split; [vm_compute; reflexivity|]. split; [vm_compute; reflexivity|]. exact H.
Defined.

Lemma lambda_keys_survive_shift_witness :
  let keyOf g u := id_keyOf (@buildIdentity canonical_iter stable_std_sort valid_utf8b g) u in
  keyOf (lambda_graph (str "3:5") (str "4:7")) (str "vycor-lambda:lambda#a.cpp:4:7#lambda#a.cpp:3:5#f") =
  keyOf (lambda_graph (str "13:5") (str "14:7")) (str "vycor-lambda:lambda#a.cpp:14:7#lambda#a.cpp:13:5#f").
Proof.
  refine (@lambda_keys_survive_shift canonical_iter stable_std_sort valid_utf8b (lambda_graph (str "3:5") (str "4:7")) (lambda_graph (str "13:5") (str "14:7"))
    _ _ _ 1 (_, MkLambdaParts (str "a.cpp") 4 7 (str "lambda#a.cpp:3:5#f")) (_, MkLambdaParts (str "a.cpp") 14 7 (str "lambda#a.cpp:13:5#f")) _ _).
  - apply build_ok. by_computation.
  - apply build_ok. by_computation.
  - replace (std_sort lambda_less (graph_lambdas (lambda_graph (str "3:5") (str "4:7")))) with
      [(str "vycor-lambda:lambda#a.cpp:3:5#f", MkLambdaParts (str "a.cpp") 3 5 (str "f"));
       (str "vycor-lambda:lambda#a.cpp:4:7#lambda#a.cpp:3:5#f", MkLambdaParts (str "a.cpp") 4 7 (str "lambda#a.cpp:3:5#f"))] by (vm_compute; reflexivity).
    replace (std_sort lambda_less (graph_lambdas (lambda_graph (str "13:5") (str "14:7")))) with
      [(str "vycor-lambda:lambda#a.cpp:13:5#f", MkLambdaParts (str "a.cpp") 13 5 (str "f"));
       (str "vycor-lambda:lambda#a.cpp:14:7#lambda#a.cpp:13:5#f", MkLambdaParts (str "a.cpp") 14 7 (str "lambda#a.cpp:13:5#f"))] by (vm_compute; reflexivity).
    split; [done| |]; intros [|[|i]] l l' Hl Hl'; try discriminate Hl; injection Hl as <-; injection Hl' as <-; try reflexivity.
    + left. split; vm_compute; reflexivity.
    + right. split; [vm_compute; reflexivity|]. split; [vm_compute; reflexivity|]. exists 0, (MkLambdaParts (str "a.cpp") 3 5 (str "f")), (MkLambdaParts (str "a.cpp") 13 5 (str "f")).
      split; [lia|]. split; vm_compute; reflexivity.
  - vm_compute; reflexivity.
  - vm_compute; reflexivity.
Defined.
