(* ===== verification/SemanticDiffCorrect.v ===== *)
(** What the semantic diff reports (src/impact/SemanticDiff.cpp): every function and every call
    relationship that one side has and the other has not, every relationship whose call sites differ,
    each once and in order, and nothing else. *)

From S2P Require Import Prelude Utf8 StringInterner CallGraph PathSearch Ordering Query ControlFlowIndex Text Results SnapshotMeta Staleness SemanticContext SortedMap PatchMapping SemanticIdentity SemanticDiff.

#[global] Instance kind_total_cmp : TotalCmp edge_kind_cmp.
Proof. apply (cmp_on_total kind_code N.compare); [by intros [] []|apply _]. Qed.

#[global] Instance relkey_total_cmp : TotalCmp relkey_cmp.
Proof. apply _. Qed.

Lemma sort_texts_same l k : sort_texts l = sort_texts k <-> l ≡ₚ k.
Proof.
  split; [|apply sort_canonical; apply _]. unfold sort_texts. intros E.
  rewrite <- (merge_sort_Permutation (cmp_le bytes_cmp) l), E. apply merge_sort_Permutation.
Qed.

(** * Ambiguous groups *)

(** A group both tables hold with different sizes. *)
Definition contested (a b : IdentityTable) (group : bytes) : Prop :=
  is_Some (id_groups a !! group) /\ is_Some (id_groups b !! group) /\ groupSizes a !! group <> groupSizes b !! group.

Definition same_but_marks (t t' : IdentityTable) : Prop :=
  keyByUsr t' = keyByUsr t /\ usrByKey t' = usrByKey t /\ id_groups t' = id_groups t /\ groupSizes t' = groupSizes t /\ groupByKey t' = groupByKey t.

(** A key of one of some contested groups. *)
Definition contested_in (a b t : IdentityTable) (grs : list bytes) (k : bytes) : Prop :=
  exists gr ks, gr ∈ grs /\ contested a b gr /\ id_groups t !! gr = Some ks /\ k ∈ ks.

Lemma contested_in_snoc a b t grs gr k : contested_in a b t (grs ++ [gr]) k <->
  contested_in a b t grs k \/ contested a b gr /\ exists ks, id_groups t !! gr = Some ks /\ k ∈ ks.
Proof.
  unfold contested_in. split.
  - intros (gr' & ks & [H| ->%list_elem_of_singleton]%elem_of_app & Hc & E & Hk); [left; by exists gr', ks|right; eauto].
  - intros [(gr' & ks & H & Hc & E & Hk)|(Hc & ks & E & Hk)]; [exists gr', ks|exists gr, ks]; split; try done; apply elem_of_app; [by left|right; left].
Qed.

Lemma mark_group_fold a b gks : (forall gk, gk ∈ gks -> id_groups a !! gk.1 = Some gk.2) ->
  let '(a', b') := foldl mark_group (a, b) gks in
  same_but_marks a a' /\ same_but_marks b b' /\
  (forall k, k ∈ ambiguousKeys a' <-> k ∈ ambiguousKeys a \/ contested_in a b a gks.*1 k) /\
  (forall k, k ∈ ambiguousKeys b' <-> k ∈ ambiguousKeys b \/ contested_in a b b gks.*1 k).
Proof.
  intros Hin. induction gks as [|gk gks IH] using rev_ind.
  { cbn. assert (Hno : forall t k, ~ contested_in a b t [] k) by (intros t k (? & ? & []%not_elem_of_nil & _)).
    split_and!; try done; intros k; (split; [by left|]); intros [?|H]; try done; by apply Hno in H. }
  assert (Hin' : forall gk', gk' ∈ gks -> id_groups a !! gk'.1 = Some gk'.2) by (intros; apply Hin, elem_of_app; by left).
  assert (Eg : id_groups a !! gk.1 = Some gk.2) by (apply Hin, elem_of_app; right; left).
  specialize (IH Hin'). rewrite foldl_snoc. destruct (foldl mark_group (a, b) gks) as [a' b'] eqn:E. destruct IH as (Ha & Hb & Ka & Kb).
  pose proof Ha as (A1 & A2 & A3 & A4 & A5). pose proof Hb as (B1 & B2 & B3 & B4 & B5).
  unfold mark_group. rewrite A4, B3, B4, fmap_app. cbn [fmap list_fmap].
  assert (Hskip : ~ contested a b gk.1 -> same_but_marks a a' /\ same_but_marks b b' /\
    (forall k, k ∈ ambiguousKeys a' <-> k ∈ ambiguousKeys a \/ contested_in a b a (gks.*1 ++ [gk.1]) k) /\
    (forall k, k ∈ ambiguousKeys b' <-> k ∈ ambiguousKeys b \/ contested_in a b b (gks.*1 ++ [gk.1]) k)).
  { intros Hnc. split_and!; [done|done| |]; intros k; rewrite contested_in_snoc; [rewrite Ka|rewrite Kb]; tauto. }
  destruct (id_groups b !! gk.1) as [keysB|] eqn:Eb; [case_decide as Es|].
  - apply Hskip. intros (_ & _ & Hc). congruence.
  - assert (Hc : contested a b gk.1) by (split_and!; [by eexists|by eexists|done]).
    split_and!; [done|done| |]; intros k; cbn [mark_keys ambiguousKeys]; rewrite elem_of_union, elem_of_list_to_set, contested_in_snoc; [rewrite Ka, Eg|rewrite Kb, Eb].
    + split; [intros [?|[?|?]]; eauto 10|]. intros [?|[?|(_ & ks & [= <-] & ?)]]; auto.
    + split; [intros [?|[?|?]]; eauto 10|]. intros [?|[?|(_ & ks & [= <-] & ?)]]; auto.
  - apply Hskip. intros (_ & [? Hc] & _). congruence.
Qed.

Lemma marked a b : ambiguousKeys a = ∅ -> ambiguousKeys b = ∅ ->
  let '(a', b') := markAmbiguousGroups a b in
  same_but_marks a a' /\ same_but_marks b b' /\
  (forall k, isAmbiguous a' k = true <-> exists gr ks, contested a b gr /\ id_groups a !! gr = Some ks /\ k ∈ ks) /\
  (forall k, isAmbiguous b' k = true <-> exists gr ks, contested a b gr /\ id_groups b !! gr = Some ks /\ k ∈ ks).
Proof.
  intros Ha Hb. unfold markAmbiguousGroups. pose proof (mark_group_fold a b (entries bytes_cmp (id_groups a))) as H.
  destruct (foldl mark_group (a, b) (entries bytes_cmp (id_groups a))) as [a' b'].
  destruct H as (S1 & S2 & K1 & K2); [by intros [gr ks]; apply elem_of_entries|].
  assert (Hall : forall t k, contested_in a b t (entries bytes_cmp (id_groups a)).*1 k <-> exists gr ks, contested a b gr /\ id_groups t !! gr = Some ks /\ k ∈ ks).
  { intros t k. unfold contested_in. rewrite entries_keys. split; [intros (gr & ks & _ & H); by exists gr, ks|].
    intros (gr & ks & Hc & H). exists gr, ks. split; [|done]. apply elem_of_key_order, elem_of_dom, Hc. }
  split_and!; [done|done| |]; intros k; unfold isAmbiguous; rewrite bool_decide_eq_true; [rewrite K1, Ha, Hall|rewrite K2, Hb, Hall]; set_solver.
Qed.

(** * One side *)

Section Side.
Context `{UI : !UnorderedIter} `{SS : !StdSort}.
Variable isValidUtf8 : bytes -> bool.
Variable g : CallGraph.
Variable identity : IdentityTable.
Variable contexts : option ContextSignatures.

(** The key a function is compared under, and the one a call is, unless they are withheld. *)
Definition function_key (u : bytes) : option bytes :=
  let key := id_keyOf identity u in if isAmbiguous identity key then None else Some key.
Definition call_key (e : CallGraphEdge) : option RelKey :=
  ck ← function_key (callerUsr e); ek ← function_key (calleeUsr e); Some (ck, ek, e_kind e).

Lemma elem_of_nodesByUsr n : n ∈ nodesByUsr g <-> exists id, nodes_ g !! id = Some n.
Proof.
  unfold nodesByUsr, graph_nodes. rewrite std_sort_perm, map_iter_perm, list_elem_of_fmap. split.
  - intros ([id n'] & -> & H%elem_of_map_to_list). by exists id.
  - intros [id E]. exists (id, n). split; [done|]. by apply elem_of_map_to_list.
Qed.

Lemma collect_functions_spec (ns : list CallGraphNode) (m : FnMap) (k : bytes) :
  is_Some (foldl (collect_function identity) m ns !! k) <-> is_Some (m !! k) \/ exists n, n ∈ ns /\ function_key (usr n) = Some k.
Proof.
  revert m. induction ns as [|n ns IH]; intros m; cbn [foldl].
  { split; [by left|]. intros [?|(n & []%not_elem_of_nil & _)]; done. }
  rewrite IH. setoid_rewrite elem_of_cons. assert (E : is_Some (collect_function identity m n !! k) <-> is_Some (m !! k) \/ function_key (usr n) = Some k).
  { unfold collect_function, function_key. set (key := id_keyOf identity (usr n)). destruct (isAmbiguous identity key); [split; [by left|by intros [?|?]]|].
    destruct (m !! key) as [f|] eqn:Ef.
    - split; [by left|]. intros [?|[= <-]]; [done|]. by rewrite Ef.
    - rewrite lookup_insert_is_Some'. split; intros [?|?]; [right; congruence|by left|by right|left; congruence]. }
  rewrite E. naive_solver.
Qed.

(** The facts recorded are those of a function with that key. *)
Lemma collect_functions_facts (ns : list CallGraphNode) (m : FnMap) :
  (forall k f, m !! k = Some f -> ff_key f = k) ->
  forall k f, foldl (collect_function identity) m ns !! k = Some f -> ff_key f = k.
Proof.
  revert m. induction ns as [|n ns IH]; intros m Hm; [done|]. cbn [foldl]. apply IH. intros k f. unfold collect_function.
  destruct (isAmbiguous identity _); [apply Hm|]. destruct (m !! id_keyOf identity (usr n)); [apply Hm|].
  intros [[<- <-]|[_ ?]]%lookup_insert_Some; [done|by apply Hm].
Qed.

(** The calls of a relationship. *)
Definition calls_of (k : RelKey) (es : list CallGraphEdge) : list CallGraphEdge := filter (fun e => call_key e = Some k) es.

Lemma collect_edge_spec rels withheld e :
  (collect_edge identity contexts (rels, withheld) e).1 =
    match call_key e with Some k => push_rel k e (witness_of contexts e) rels | None => rels end.
Proof.
  unfold collect_edge, call_key, function_key. destruct (isAmbiguous identity (id_keyOf identity (callerUsr e))); [done|]. cbn.
  by destruct (isAmbiguous identity (id_keyOf identity (calleeUsr e))).
Qed.

Lemma collect_edges_spec (es : list CallGraphEdge) (k : RelKey) :
  match (foldl (collect_edge identity contexts) (∅, ∅) es).1 !! k with
  | None => calls_of k es = []
  | Some v => calls_of k es <> [] /\ rv_side v = MkRelSide (witness_of contexts <$> calls_of k es) [] []
  end.
Proof.
  induction es as [|e es IH] using rev_ind; [done|]. rewrite foldl_snoc. destruct (foldl _ _ es) as [rels withheld].
  rewrite collect_edge_spec. cbn [fst] in IH. unfold calls_of in *. rewrite filter_app.
  destruct (call_key e) as [k'|] eqn:Ek; [|rewrite filter_cons_False, filter_nil, app_nil_r by (by rewrite Ek); done].
  destruct (decide (k' = k)) as [->|Hne].
  - rewrite filter_cons_True, filter_nil by done. unfold push_rel. destruct (rels !! k) as [v|] eqn:Ev.
    + destruct IH as [Hne Hs]. cbn [default from_option id]. destruct (match rv_callerName v with [] => _ | _ => _ end) as [cn en].
      rewrite lookup_insert_eq. cbn. rewrite Hs. cbn. split; [by destruct (filter _ es)|]. by rewrite fmap_app.
    + cbn. rewrite lookup_insert_eq. cbn. rewrite IH. done.
  - rewrite filter_cons_False, filter_nil, app_nil_r by congruence. unfold push_rel.
    destruct (match rv_callerName _ with [] => _ | _ => _ end) as [cn en]. by rewrite lookup_insert_ne.
Qed.

Abbreviation fns := (collectSide isValidUtf8 g identity contexts).1.1.
Abbreviation rels := (collectSide isValidUtf8 g identity contexts).1.2.

(** A function of the side, and the calls of a relationship of the side. *)
Definition has_function (k : bytes) : Prop := exists id n, nodes_ g !! id = Some n /\ function_key (usr n) = Some k.
Definition side_calls (k : RelKey) : list CallGraphEdge := calls_of k (side_edges isValidUtf8 g).

Lemma fns_spec k : is_Some (fns !! k) <-> has_function k.
Proof.
  unfold collectSide. destruct (foldl (collect_edge identity contexts) _ _) as [r w]. cbn [fst]. rewrite collect_functions_spec, lookup_empty.
  setoid_rewrite elem_of_nodesByUsr. unfold has_function. split; [intros [[? ?]|(n & [id ?] & ?)]; [done|by exists id, n]|intros (id & n & ? & ?); eauto].
Qed.

Lemma rels_spec k : match rels !! k with
  | None => side_calls k = []
  | Some v => side_calls k <> [] /\ rs_sites (rv_side v) ≡ₚ witness_of contexts <$> side_calls k /\
      rs_attributes (rv_side v) = sort_texts ((fun e => attributeOf (witness_of contexts e)) <$> side_calls k) /\
      rs_signatures (rv_side v) = sort_texts (match contexts with Some _ => (fun e => sw_signature (witness_of contexts e)) <$> side_calls k | None => [] end)
  end.
Proof.
  unfold collectSide. pose proof (collect_edges_spec (side_edges isValidUtf8 g) k) as H. destruct (foldl (collect_edge identity contexts) _ _) as [r w].
  cbn [fst snd] in H |- *. rewrite lookup_fmap. destruct (r !! k) as [v|]; [|done]. cbn [fmap option_fmap option_map]. destruct H as [Hne Hs].
  unfold finish_rel. rewrite Hs. cbn [rs_sites rs_attributes rs_signatures rv_side app]. split_and!; [done|by rewrite std_sort_perm| |].
  - apply sort_texts_same. rewrite std_sort_perm. by rewrite <- list_fmap_compose.
  - apply sort_texts_same. destruct contexts; [|done]. rewrite std_sort_perm. by rewrite <- list_fmap_compose.
Qed.
End Side.

(** * The changes *)

Lemma elem_of_walk {K V A} `{Countable K} (cmp : K -> K -> comparison) `{!TotalCmp cmp} (mb ma : gmap K V) (f : K * option V * option V -> list A) x :
  (forall k, f (k, None, None) = []) -> x ∈ walk_both cmp mb ma ≫= f <-> exists k, x ∈ f (k, mb !! k, ma !! k).
Proof.
  intros Hnone. rewrite walk_both_eq by done. rewrite list_elem_of_bind. split.
  - intros (t & Hx & (k & -> & _)%list_elem_of_fmap). by exists k.
  - intros [k Hx]. exists (k, mb !! k, ma !! k). split; [done|]. apply list_elem_of_fmap. exists k. split; [done|].
    apply elem_of_key_order, elem_of_union. rewrite !elem_of_dom. destruct (mb !! k) eqn:E; [left; by eexists|].
    destruct (ma !! k) eqn:E'; [right; by eexists|]. rewrite Hnone in Hx. by apply not_elem_of_nil in Hx.
Qed.

Lemma NoDup_fmap_bind {A B C} (key : B -> C) (f : A -> list B) l : NoDup l -> (forall a, NoDup (key <$> f a)) ->
  (forall a a' x x', x ∈ f a -> x' ∈ f a' -> key x = key x' -> a = a') -> NoDup (key <$> (l ≫= f)).
Proof.
  intros Hl Hf Hinj. induction Hl as [|a l Ha Hl IH]; [constructor|]. rewrite bind_cons, fmap_app. apply NoDup_app. split_and!; [apply Hf| |done].
  intros c (x & -> & Hx)%list_elem_of_fmap (x' & E & (a' & Hx' & Ha')%list_elem_of_bind)%list_elem_of_fmap.
  by rewrite (Hinj a a' x x' Hx Hx' E) in Ha.
Qed.

Lemma list_bind_fmap_eq {A B C} (f : A -> B) (g : B -> list C) l : (f <$> l) ≫= g = l ≫= fun a => g (f a).
Proof. induction l as [|a l IH]; [done|]. rewrite fmap_cons, !bind_cons. by rewrite IH. Qed.

Section Changes.
Variable c : Comparability.
Variable opts : SemanticDiffOptions.
Variable contexts : bool.

Abbreviation visit_rel := (visit_relationship (maxSites opts) contexts).

(** A change of a kind recorded under a key. *)
Definition rel_of (r : ChangeRecord) : RelKey := (ch_callerKey r, ch_calleeKey r, ch_kind r).

Lemma visit_function_shape t r : r ∈ visit_function c t ->
  rel_of r = (t.1.1, [], DirectCall) /\ (ch_change r = FunctionRemoved /\ is_Some t.1.2 /\ t.2 = None \/ ch_change r = FunctionAdded /\ t.1.2 = None /\ is_Some t.2).
Proof.
  destruct t as [[k [b|]] [a|]]; cbn; intros H; try (by apply not_elem_of_nil in H); apply list_elem_of_singleton in H as ->; cbn; (split; [done|]).
  - left. split_and!; [done|by eexists|done].
  - right. split_and!; [done|done|by eexists].
Qed.

Lemma visit_rel_shape t r : r ∈ visit_rel t -> rel_of r = t.1.1 /\
  (ch_change r = CallRemoved /\ is_Some t.1.2 /\ t.2 = None \/ ch_change r = CallAdded /\ t.1.2 = None /\ is_Some t.2 \/
   exists b a, t.1.2 = Some b /\ t.2 = Some a /\
     (ch_change r = CallChanged /\ rs_attributes (rv_side b) <> rs_attributes (rv_side a) \/
      ch_change r = ContextChanged /\ contexts = true /\ rs_signatures (rv_side b) <> rs_signatures (rv_side a))).
Proof.
  destruct t as [[[[ck ek] kd] [b|]] [a|]]; cbn; intros H; try (by apply not_elem_of_nil in H).
  - apply elem_of_app in H as [H|H].
    + case_bool_decide; [by apply not_elem_of_nil in H|]. apply list_elem_of_singleton in H as ->. cbn. split; [done|]. right; right. exists b, a. auto.
    + destruct contexts; cbn in H; [|by apply not_elem_of_nil in H]. case_bool_decide; cbn in H; [by apply not_elem_of_nil in H|].
      apply list_elem_of_singleton in H as ->. cbn. split; [done|]. right; right. exists b, a. auto 10.
  - apply list_elem_of_singleton in H as ->. cbn. split; [done|]. left. split_and!; [done|by eexists|done].
  - apply list_elem_of_singleton in H as ->. cbn. split; [done|]. right; left. split_and!; [done|done|by eexists].
Qed.

Lemma visit_function_nodup t : NoDup (change_key <$> visit_function c t).
Proof. destruct t as [[k [b|]] [a|]]; cbn; try constructor; try constructor; set_solver. Qed.

Lemma visit_rel_nodup t : NoDup (change_key <$> visit_rel t).
Proof.
  destruct t as [[[[ck ek] kd] [b|]] [a|]]; cbn; try (repeat constructor; set_solver).
  case_bool_decide; (destruct contexts; cbn; [case_bool_decide; cbn|]); try (repeat constructor; set_solver).
Qed.

Lemma change_key_rel r r' : change_key r = change_key r' -> ch_change r = ch_change r' /\ rel_of r = rel_of r'.
Proof.
  unfold change_key, rel_of. intros [= Ec E1 E2 Ek]. split; [by destruct (ch_change r), (ch_change r')|].
  rewrite E1, E2. f_equal. by destruct (ch_kind r), (ch_kind r').
Qed.

Lemma changes_nodup fnB fnA relB relA :
  NoDup (change_key <$> ((walk_both bytes_cmp fnB fnA ≫= visit_function c) ++ (walk_both relkey_cmp relB relA ≫= visit_rel))).
Proof.
  rewrite fmap_app. apply NoDup_app. split_and!.
  - rewrite walk_both_eq, list_bind_fmap_eq by apply _. apply NoDup_fmap_bind; [apply sorted_keys_NoDup|intros k; apply visit_function_nodup|].
    intros k k' r r' Hr Hr' [_ E]%change_key_rel. destruct (visit_function_shape _ _ Hr) as [Er _], (visit_function_shape _ _ Hr') as [Er' _]. cbn in *. congruence.
  - intros key (r & -> & (t & Hr & _)%list_elem_of_bind)%list_elem_of_fmap (r' & E & (t' & Hr' & _)%list_elem_of_bind)%list_elem_of_fmap.
    apply change_key_rel in E as [E _]. destruct (visit_function_shape _ _ Hr) as [_ Hk], (visit_rel_shape _ _ Hr') as [_ Hk'].
    rewrite E in Hk. naive_solver congruence.
  - rewrite walk_both_eq, list_bind_fmap_eq by apply _. apply NoDup_fmap_bind; [apply sorted_keys_NoDup|intros k; apply visit_rel_nodup|].
    intros k k' r r' Hr Hr' [_ E]%change_key_rel. destruct (visit_rel_shape _ _ Hr) as [Er _], (visit_rel_shape _ _ Hr') as [Er' _]. cbn in *. congruence.
Qed.
End Changes.

#[global] Instance change_total_cmp : TotalCmp change_cmp.
Proof. apply _. Qed.

Lemma change_less_weak : StrictWeak change_less.
Proof. by apply (strict_weak_of_key change_key change_cmp). Qed.

(** Sorted records with distinct keys are in strict order. *)
Lemma sorted_strict l : StronglySorted (no_less_before change_less) l -> NoDup (change_key <$> l) ->
  StronglySorted (fun a b => change_cmp (change_key a) (change_key b) = Lt) l.
Proof.
  induction 1 as [|a l Hs IH Hle]; [constructor|]. rewrite fmap_cons. intros [Ha Hn]%NoDup_cons. constructor; [by apply IH|].
  apply Forall_forall. intros b Hb. eapply Forall_forall in Hle; [|exact Hb]. unfold no_less_before, change_less in Hle.
  destruct (change_cmp (change_key a) (change_key b)) eqn:E; [|done|].
  - apply tcmp_eq in E. destruct Ha. rewrite E. apply list_elem_of_fmap. by exists b.
  - rewrite tcmp_antisym, E in Hle. done.
Qed.

Lemma add_lambda_marks st l : ambiguousKeys (add_lambda st l).1 = ambiguousKeys st.1.
Proof. by destruct st. Qed.

Lemma foldl_keeps {A B C} (f : A -> B -> A) (proj : A -> C) a l : (forall a b, proj (f a b) = proj a) -> proj (foldl f a l) = proj a.
Proof. intros H. revert a. induction l as [|b l IH]; intros a; [done|]. cbn. by rewrite IH, H. Qed.

Lemma built_unmarked `{!UnorderedIter} `{!StdSort} isValidUtf8 g : ambiguousKeys (buildIdentity isValidUtf8 g) = ∅.
Proof.
  unfold buildIdentity. rewrite (foldl_keeps _ ambiguousKeys) by (intros t n; unfold add_plain; by destruct (keyByUsr t !! usr n)).
  cbn [set_sizes ambiguousKeys]. rewrite (foldl_keeps _ ambiguousKeys) by (intros t uf; unfold add_located; by destruct (head uf.2)).
  unfold add_lambdas. by rewrite (foldl_keeps _ (fun st => ambiguousKeys st.1)) by (intros; apply add_lambda_marks).
Qed.

Section Exact.
Context `{UI : !UnorderedIter} `{SS : !StdSort}.
Variable isValidUtf8 : bytes -> bool.
Variable c : Comparability.
Variable opts : SemanticDiffOptions.
Variable contexts : bool.
Variables (gB gA : CallGraph) (idB idA : IdentityTable) (sigB sigA : option ContextSignatures).
Hypothesis Hsig : contexts = true -> is_Some sigB /\ is_Some sigA.

Abbreviation sideB := (collectSide isValidUtf8 gB idB sigB).
Abbreviation sideA := (collectSide isValidUtf8 gA idA sigA).
Abbreviation diff := (compare_sides c opts contexts idB idA sideB sideA).

(** A change listed under a key. *)
Definition listed (d : SemanticDiffResult) (change : ChangeKind) (k : RelKey) : Prop :=
  exists r, r ∈ df_changes d /\ ch_change r = change /\ rel_of r = k.

Lemma diff_changes r : r ∈ df_changes diff <->
  (exists k, r ∈ visit_function c (k, sideB.1.1 !! k, sideA.1.1 !! k)) \/
  (exists k, r ∈ visit_relationship (maxSites opts) contexts (k, sideB.1.2 !! k, sideA.1.2 !! k)).
Proof.
  unfold compare_sides. destruct sideB as [[fnB relB] wB], sideA as [[fnA relA] wA]. cbn [df_changes fst snd].
  rewrite stable_sort_perm, elem_of_app, !elem_of_walk; [done|apply _|done|apply _|done].
Qed.

Lemma diff_sorted : StronglySorted (fun a b => change_cmp (change_key a) (change_key b) = Lt) (df_changes diff).
Proof.
  unfold compare_sides. destruct sideB as [[fnB relB] wB], sideA as [[fnA relA] wA]. cbn [df_changes].
  pose proof change_less_weak as [? ?]. apply sorted_strict; [by apply stable_sort_sorted|].
  rewrite stable_sort_perm. apply changes_nodup.
Qed.

Lemma function_listed k :
  (listed diff FunctionRemoved (k, [], DirectCall) <-> has_function gB idB k /\ ~ has_function gA idA k) /\
  (listed diff FunctionAdded (k, [], DirectCall) <-> has_function gA idA k /\ ~ has_function gB idB k).
Proof.
  rewrite <- !(fns_spec isValidUtf8 gB idB sigB), <- !(fns_spec isValidUtf8 gA idA sigA), <- !eq_None_not_Some. split.
  - split.
    + intros (r & [[k' Hr]|[k' Hr]]%diff_changes & Hc & Hk).
      * apply visit_function_shape in Hr as [Er Hr]. cbn in Er, Hr. rewrite Er in Hk. injection Hk as ->. rewrite Hc in Hr. naive_solver.
      * apply visit_rel_shape in Hr as [_ Hr]. rewrite Hc in Hr. naive_solver.
    + intros [[f Ef] En]. eexists. split; [apply diff_changes; left; exists k; rewrite Ef, En; cbn; left|done].
  - split.
    + intros (r & [[k' Hr]|[k' Hr]]%diff_changes & Hc & Hk).
      * apply visit_function_shape in Hr as [Er Hr]. cbn in Er, Hr. rewrite Er in Hk. injection Hk as ->. rewrite Hc in Hr. naive_solver.
      * apply visit_rel_shape in Hr as [_ Hr]. rewrite Hc in Hr. naive_solver.
    + intros [[f Ef] En]. eexists. split; [apply diff_changes; left; exists k; rewrite Ef, En; cbn; left|done].
Qed.

(** A call change is looked up at its key. *)
Lemma call_listed_at change k : change <> FunctionRemoved -> change <> FunctionAdded ->
  listed diff change k <-> exists r, r ∈ visit_relationship (maxSites opts) contexts (k, sideB.1.2 !! k, sideA.1.2 !! k) /\ ch_change r = change.
Proof.
  intros H1 H2. split.
  - intros (r & [[k' Hr]|[k' Hr]]%diff_changes & Hc & Hk); [apply visit_function_shape in Hr as [_ Hr]; naive_solver|].
    pose proof (visit_rel_shape _ _ _ _ Hr) as [Er _]. cbn in Er. rewrite Hk in Er. subst k'. by exists r.
  - intros (r & Hr & Hc). exists r. split_and!; [apply diff_changes; right; by exists k|done|]. by apply visit_rel_shape in Hr as [-> _].
Qed.

(** The calls of a relationship on the two sides. *)
Abbreviation callsB := (side_calls isValidUtf8 gB idB).
Abbreviation callsA := (side_calls isValidUtf8 gA idA).
Definition call_attribute (e : CallGraphEdge) : bytes := attributeOf (witness_of None e).
Definition call_signature (sg : option ContextSignatures) (e : CallGraphEdge) : bytes := sw_signature (witness_of sg e).

#[local] Ltac by_shape Hr := apply visit_rel_shape in Hr as [_ [(? & ? & ?)|[(? & ? & ?)|(? & ? & ? & ? & [[? ?]|[? [? ?]]])]]]; cbn in *; simplify_eq; try congruence.

Lemma call_listed k :
  (listed diff CallRemoved k <-> callsB k <> [] /\ callsA k = []) /\
  (listed diff CallAdded k <-> callsB k = [] /\ callsA k <> []) /\
  (listed diff CallChanged k <-> callsB k <> [] /\ callsA k <> [] /\ ~ (call_attribute <$> callsB k ≡ₚ call_attribute <$> callsA k)) /\
  (listed diff ContextChanged k <-> contexts = true /\ callsB k <> [] /\ callsA k <> [] /\
     ~ (call_signature sigB <$> callsB k ≡ₚ call_signature sigA <$> callsA k)).
Proof.
  rewrite !call_listed_at by done. pose proof (rels_spec isValidUtf8 gB idB sigB k) as HB. pose proof (rels_spec isValidUtf8 gA idA sigA k) as HA.
  destruct (sideB.1.2 !! k) as [vb|], (sideA.1.2 !! k) as [va|]; cbn [visit_relationship].
  - destruct HB as (NB & _ & AB & SB), HA as (NA & _ & AA & SA). split_and!.
    + split; [|tauto]. intros (r & Hr & Hc). change (r ∈ visit_relationship (maxSites opts) contexts (k, Some vb, Some va)) in Hr. by_shape Hr.
    + split; [|tauto]. intros (r & Hr & Hc). change (r ∈ visit_relationship (maxSites opts) contexts (k, Some vb, Some va)) in Hr. by_shape Hr.
    + rewrite <- sort_texts_same. change (sort_texts (call_attribute <$> callsB k)) with (sort_texts ((fun e => attributeOf (witness_of sigB e)) <$> callsB k)).
      change (sort_texts (call_attribute <$> callsA k)) with (sort_texts ((fun e => attributeOf (witness_of sigA e)) <$> callsA k)). rewrite <- AB, <- AA. split.
      * intros (r & Hr & Hc). change (r ∈ visit_relationship (maxSites opts) contexts (k, Some vb, Some va)) in Hr. by_shape Hr. done.
      * intros (_ & _ & Hne). rewrite bool_decide_false by done. eexists. split; [left|done].
    + split.
      * intros (r & Hr & Hc). change (r ∈ visit_relationship (maxSites opts) contexts (k, Some vb, Some va)) in Hr.
        assert (Ht : contexts = true /\ rs_signatures (rv_side vb) <> rs_signatures (rv_side va)) by (by by_shape Hr). destruct Ht as [Ht Hne].
        destruct (Hsig Ht) as [[sgB EB] [sgA EA]]. rewrite EB in SB. rewrite EA in SA. split_and!; [done|done|done|]. intros Hp. apply Hne. rewrite SB, SA.
        apply sort_texts_same. by rewrite EB, EA in Hp.
      * intros (Ht & _ & _ & Hne). destruct (Hsig Ht) as [[sgB EB] [sgA EA]]. rewrite EB in SB. rewrite EA in SA. rewrite EB, EA in Hne. rewrite Ht.
        eexists. split; [apply elem_of_app; right; rewrite bool_decide_false; [left|]|done]. rewrite SB, SA. by intros E%sort_texts_same.
  - destruct HB as (NB & _). split_and!; (split; [intros (r & ->%list_elem_of_singleton & Hc); cbn in Hc; try done|]).
    + intros _. eexists. split; [left|done].
    + tauto.
    + tauto.
    + tauto.
  - destruct HA as (NA & _). split_and!; (split; [intros (r & ->%list_elem_of_singleton & Hc); cbn in Hc; try done|]).
    + tauto.
    + intros _. eexists. split; [left|done].
    + tauto.
    + tauto.
  - split_and!; (split; [by intros (r & ?%not_elem_of_nil & _)|]); tauto.
Qed.
End Exact.
