(* ===== verification/SemanticDiffTheorems.v ===== *)
(** The contract of the semantic diff (src/impact/SemanticDiff.cpp): the change list is exact, an
    index does not differ from itself, and the comparison of routes is a difference of multisets.

    Whether an absence in a diff can be trusted (src/impact/SemanticDiff.cpp, [checkComparability]):
    the flag the comparison reports, against the coverage of the two bakes. *)

From S2P Require Import Prelude Utf8 StringInterner CallGraph CallGraphInv PathSearch Ordering Query ControlFlowIndex Text Results SnapshotMeta Staleness SemanticContext SortedMap PatchMapping SemanticIdentity SemanticDiff SemanticDiffCorrect.

Lemma side_signatures_some isValidUtf8 table_iter before after opts : sides_contexts before after opts = true ->
  is_Some (side_signatures isValidUtf8 table_iter (sides_contexts before after opts) before) /\
  is_Some (side_signatures isValidUtf8 table_iter (sides_contexts before after opts) after).
Proof.
  intros H. rewrite H. unfold sides_contexts in H. rewrite !andb_true_iff in H. destruct H as [[_ HB] HA]. unfold side_signatures. split.
  - destruct (ds_signatures before); [by eexists|]. destruct (ds_cfIndex before); [by eexists|done].
  - destruct (ds_signatures after); [by eexists|]. destruct (ds_cfIndex after); [by eexists|done].
Qed.

(** C3. The diff of two indexes is exact. It is refused exactly when the configurations differ and a
    mismatch is not allowed. Otherwise the withheld identities are those of the groups both sides hold
    with different sizes, and a change is listed, once and in the documented order, exactly when it is
    there: a function removed or added, a call relationship only one side has, a relationship on both
    sides whose call sites differ in their attributes or, when contexts are compared, in their
    signatures, counted with multiplicity. *)
Theorem semantic_diff_exact `{!UnorderedIter} `{!StdSort} (isValidUtf8 : bytes -> bool)
    (table_iter : gmap SigKey Choice -> list (SigKey * Choice)) (before after : DiffSide) (opts : SemanticDiffOptions) :
  let contexts := sides_contexts before after opts in
  let sigB := side_signatures isValidUtf8 table_iter contexts before in
  let sigA := side_signatures isValidUtf8 table_iter contexts after in
  let tB := buildIdentity isValidUtf8 (ds_graph before) in
  let tA := buildIdentity isValidUtf8 (ds_graph after) in
  let c := checkComparability (ds_meta before) (ds_meta after) contexts in
  match semanticDiff isValidUtf8 table_iter before after opts with
  | (d, None) => comparable c = false /\ allowMismatch opts = false /\ d = refused_diff c
  | (d, Some (idB, idA)) =>
      (comparable c = true \/ allowMismatch opts = true) /\ df_refused d = false /\ df_comparability d = c /\
      (forall k, isAmbiguous idB k = true <-> exists gr ks, contested tB tA gr /\ id_groups tB !! gr = Some ks /\ k ∈ ks) /\
      (forall k, isAmbiguous idA k = true <-> exists gr ks, contested tB tA gr /\ id_groups tA !! gr = Some ks /\ k ∈ ks) /\
      StronglySorted (fun a b => change_cmp (change_key a) (change_key b) = Lt) (df_changes d) /\
      (forall k, listed d FunctionRemoved (k, [], DirectCall) <-> has_function (ds_graph before) idB k /\ ~ has_function (ds_graph after) idA k) /\
      (forall k, listed d FunctionAdded (k, [], DirectCall) <-> has_function (ds_graph after) idA k /\ ~ has_function (ds_graph before) idB k) /\
      forall k, let callsB := side_calls isValidUtf8 (ds_graph before) idB k in let callsA := side_calls isValidUtf8 (ds_graph after) idA k in
        (listed d CallRemoved k <-> callsB <> [] /\ callsA = []) /\
        (listed d CallAdded k <-> callsB = [] /\ callsA <> []) /\
        (listed d CallChanged k <-> callsB <> [] /\ callsA <> [] /\ ~ (call_attribute <$> callsB ≡ₚ call_attribute <$> callsA)) /\
        (listed d ContextChanged k <-> contexts = true /\ callsB <> [] /\ callsA <> [] /\
           ~ (call_signature sigB <$> callsB ≡ₚ call_signature sigA <$> callsA))
  end.
Proof.
  cbn zeta. unfold semanticDiff. set (contexts := sides_contexts before after opts). set (c := checkComparability _ _ _).
  destruct (negb (comparable c) && negb (allowMismatch opts)) eqn:E.
  { apply andb_true_iff in E as [?%negb_true_iff ?%negb_true_iff]. done. }
  apply andb_false_iff in E. rewrite !negb_false_iff in E.
  pose proof (marked (buildIdentity isValidUtf8 (ds_graph before)) (buildIdentity isValidUtf8 (ds_graph after)) (built_unmarked _ _) (built_unmarked _ _)) as HM.
  destruct (markAmbiguousGroups _ _) as [idB idA]. destruct HM as (_ & _ & HB & HA).
  pose proof (side_signatures_some isValidUtf8 table_iter before after opts) as Hsig. fold contexts in Hsig.
  split_and!; [done| | |done|done|apply diff_sorted|intros k; by apply function_listed|intros k; by apply function_listed|intros k; by apply call_listed].
  - unfold compare_sides. by repeat case_match.
  - unfold compare_sides. by repeat case_match.
Qed.

(** * An index against itself *)

Lemma mark_self t : ambiguousKeys t = ∅ -> markAmbiguousGroups t t = (t, t).
Proof.
  intros Ht. pose proof (marked t t Ht Ht) as HM. destruct (markAmbiguousGroups t t) as [a b]. destruct HM as (SA & SB & KA & KB).
  assert (Hno : forall gr, ~ contested t t gr) by (intros gr (_ & _ & Hc); by apply Hc).
  assert (HE : forall t', same_but_marks t t' -> (forall k, isAmbiguous t' k = true <-> exists gr ks, contested t t gr /\ id_groups t !! gr = Some ks /\ k ∈ ks) -> t' = t).
  { intros t' (E1 & E2 & E3 & E4 & E5) HK. assert (E6 : ambiguousKeys t' = ambiguousKeys t).
    { rewrite Ht. apply set_eq. intros k. rewrite elem_of_empty. split; [|done]. intros Hk. destruct (proj1 (HK k)) as (gr & ks & Hc & _); [by apply bool_decide_eq_true|]. by apply Hno in Hc. }
    destruct t, t'. cbn in *. congruence. }
  by rewrite (HE a), (HE b).
Qed.

Lemma comparable_self m contexts : comparable (checkComparability m m contexts) = true.
Proof. unfold checkComparability. destruct m as [m|]; [|done]. cbn [comparable]. by rewrite !bool_decide_true by done. Qed.

Lemma walk_self {K V A} `{Countable K} (cmp : K -> K -> comparison) `{!TotalCmp cmp} (m : gmap K V) (f : K * option V * option V -> list A) :
  (forall k o, f (k, o, o) = []) -> walk_both cmp m m ≫= f = [].
Proof.
  intros Hf. rewrite walk_both_eq by done. induction (sorted_keys_of cmp (dom m ∪ dom m)) as [|k ks IH]; [done|]. rewrite fmap_cons, bind_cons, Hf. exact IH.
Qed.

(** An index does not differ from itself: the comparison is not refused, whatever its coverage, and
    reports no change, no ambiguous identity, no rename and no move. *)
Theorem self_diff_is_empty `{!UnorderedIter} `{!StdSort} (isValidUtf8 : bytes -> bool)
    (table_iter : gmap SigKey Choice -> list (SigKey * Choice)) (side : DiffSide) (opts : SemanticDiffOptions) :
  let d := (semanticDiff isValidUtf8 table_iter side side opts).1 in
  df_refused d = false /\ df_changes d = [] /\ df_ambiguous d = [] /\ df_renameCandidates d = [] /\ df_moves d = [] /\
  df_movedFunctions d = 0 /\ df_functionsBefore d = df_functionsAfter d /\ df_relationshipsBefore d = df_relationshipsAfter d.
Proof.
  cbn zeta. unfold semanticDiff. rewrite comparable_self. cbn [negb andb]. rewrite mark_self by apply built_unmarked.
  set (t := buildIdentity _ _). set (s := collectSide _ _ _ _). unfold compare_sides. cbn [fst]. destruct s as [[fn rel] w].
  assert (Ef : walk_both bytes_cmp fn fn ≫= visit_function (checkComparability (ds_meta side) (ds_meta side) (sides_contexts side side opts)) = []).
  { apply walk_self; [apply _|]. by intros k [f|]. }
  assert (Em : walk_both bytes_cmp fn fn ≫= visit_move = []).
  { apply walk_self; [apply _|]. intros k [f|]; [|done]. cbn. by rewrite bool_decide_true, N.eqb_refl by done. }
  assert (Er : walk_both relkey_cmp rel rel ≫= visit_relationship (maxSites opts) (sides_contexts side side opts) = []).
  { apply walk_self; [apply _|]. intros k [v|]; [|done]. cbn. rewrite !bool_decide_true by done. by rewrite andb_false_r. }
  rewrite Ef, Em, Er. cbn [df_refused df_changes df_ambiguous df_renameCandidates df_moves df_movedFunctions df_functionsBefore df_functionsAfter df_relationshipsBefore df_relationshipsAfter].
  split_and!; try done.
  - apply elem_of_nil_inv. intros am ([gr ks] & _ & Ham)%list_elem_of_omap. unfold ambiguous_group in Ham. cbn in Ham.
    destruct ks as [|k ks]; [done|]. unfold isAmbiguous in Ham.
    rewrite bool_decide_false in Ham by (unfold t; rewrite built_unmarked; set_solver). done.
  - unfold rename_candidates, functions_by_name. cbn. apply Permutation_nil_r. by rewrite std_sort_perm.
  - by destruct (includeMoves opts).
Qed.

(** * Routes *)

Section Routes.
Variables keyB keyA : list PathHop -> bytes.

Definition with_key (key : list PathHop -> bytes) (k : bytes) (ps : list (list PathHop)) : nat := length (filter (fun p => key p = k) ps).

Lemma with_key_snoc key k ps p : with_key key k (ps ++ [p]) = with_key key k ps + (if decide (key p = k) then 1 else 0).
Proof. unfold with_key. rewrite filter_app, length_app, filter_cons, filter_nil. by case_decide. Qed.

Lemma count_key_insert (m : gmap bytes nat) k n k' : count_key (<[k := n]> m) k' = if decide (k = k') then n else count_key m k'.
Proof. unfold count_key. case_decide as E; [subst; by rewrite lookup_insert_eq|by rewrite lookup_insert_ne]. Qed.

Lemma counts_of_before ps k : count_key (foldl (fun m p => <[keyB p := S (count_key m (keyB p))]> m) ∅ ps) k = with_key keyB k ps.
Proof.
  induction ps as [|p ps IH] using rev_ind; [done|]. rewrite foldl_snoc, count_key_insert, with_key_snoc. case_decide as E.
  - subst k. rewrite IH. lia.
  - rewrite IH. lia.
Qed.

Lemma match_after_spec counts ps : let '(counts', matched, unchanged, added) := foldl (match_after keyA) (counts, ∅, 0, []) ps in
  unchanged + length added = length ps /\ added `sublist_of` ps /\
  forall k, count_key matched k = Nat.min (count_key counts k) (with_key keyA k ps) /\
    count_key counts' k = count_key counts k - with_key keyA k ps /\ with_key keyA k added = with_key keyA k ps - count_key counts k.
Proof.
  induction ps as [|p ps IH] using rev_ind.
  { cbn. split_and!; [done|done|]. intros k. unfold count_key at 1. rewrite lookup_empty. unfold with_key. cbn. lia. }
  rewrite foldl_snoc. destruct (foldl (match_after keyA) (counts, ∅, 0, []) ps) as [[[counts' matched] unchanged] added].
  destruct IH as (Hn & Hsub & Hk). unfold match_after. pose proof (Hk (keyA p)) as (P1 & P2 & P3).
  destruct (Nat.ltb_spec 0 (count_key counts' (keyA p))) as [Hpos|Hz].
  - split_and!; [rewrite length_app; cbn; lia|by apply sublist_inserts_r|]. intros k. rewrite !count_key_insert, with_key_snoc. destruct (Hk k) as (Q1 & Q2 & Q3).
    case_decide; [subst k|]; lia.
  - split_and!; [rewrite !length_app; cbn; lia|by apply sublist_app|]. intros k. rewrite !with_key_snoc. destruct (Hk k) as (Q1 & Q2 & Q3).
    case_decide; [subst k|]; lia.
Qed.

Lemma drop_matched_spec matched ps : let '(matched', removed) := foldl (drop_matched keyB) (matched, []) ps in
  removed `sublist_of` ps /\
  forall k, count_key matched' k = count_key matched k - with_key keyB k ps /\ with_key keyB k removed = with_key keyB k ps - count_key matched k.
Proof.
  induction ps as [|p ps IH] using rev_ind; [split; [done|]; intros k; unfold with_key; cbn; lia|].
  rewrite foldl_snoc. destruct (foldl (drop_matched keyB) (matched, []) ps) as [matched' removed]. destruct IH as (Hsub & Hk). unfold drop_matched.
  pose proof (Hk (keyB p)) as (P1 & P2). destruct (Nat.ltb_spec 0 (count_key matched' (keyB p))) as [Hpos|Hz].
  - split; [by apply sublist_inserts_r|]. intros k. rewrite count_key_insert, with_key_snoc. destruct (Hk k) as (Q1 & Q2). case_decide; [subst k|]; lia.
  - split; [by apply sublist_app|]. intros k. rewrite !with_key_snoc. destruct (Hk k) as (Q1 & Q2). case_decide; [subst k|]; lia.
Qed.
End Routes.

(** The comparison of routes is a difference of multisets of route keys: the added paths are paths of
    the after search, in its order, and the removed ones of the before search; of every key the added are
    those the after side has in excess and the removed those the before side has in excess; every after
    path is added or unchanged; and the answer is complete when both searches are. *)
Theorem routes_are_multiset_difference `{!UnorderedIter} (isValidUtf8 : bytes -> bool) (before after : DiffSide) (idB idA : IdentityTable)
    (target : bytes) (beforeStarts afterStarts : list bytes) (limits : SearchLimits) :
  let r := diffRoutes isValidUtf8 before after idB idA target beforeStarts afterStarts limits in
  let B k := with_key (routeKey idB) k (paths (rd_before r)) in
  let A k := with_key (routeKey idA) k (paths (rd_after r)) in
  rd_added r `sublist_of` paths (rd_after r) /\ rd_removed r `sublist_of` paths (rd_before r) /\
  (forall k, with_key (routeKey idA) k (rd_added r) = A k - B k /\ with_key (routeKey idB) k (rd_removed r) = B k - A k) /\
  rd_unchanged r + length (rd_added r) = length (paths (rd_after r)) /\
  (rd_complete r = true <-> complete (rd_before r) = true /\ complete (rd_after r) = true).
Proof.
  cbn zeta. unfold diffRoutes, compare_routes. set (before_ := findCallerPaths _ _ _ beforeStarts _ _ _). set (after_ := findCallerPaths _ _ _ afterStarts _ _ _).
  pose proof (match_after_spec (routeKey idA) (foldl (fun m p => <[routeKey idB p := S (count_key m (routeKey idB p))]> m) ∅ (paths before_)) (paths after_)) as HM.
  destruct (foldl (match_after (routeKey idA)) _ (paths after_)) as [[[counts' matched] unchanged] added]. destruct HM as (Hn & Hsub & Hk).
  pose proof (drop_matched_spec (routeKey idB) matched (paths before_)) as HD. destruct (foldl (drop_matched (routeKey idB)) (matched, []) (paths before_)) as [matched' removed].
  destruct HD as (Hsub' & Hk'). cbn [rd_added rd_removed rd_before rd_after rd_unchanged rd_complete]. split_and!; [done|done| |done|by rewrite andb_true_iff].
  intros k. destruct (Hk k) as (Q1 & _ & Q3), (Hk' k) as (_ & Q4). rewrite counts_of_before in Q1, Q3. split; [done|lia].
Qed.

(** * An ordinal that is not withheld *)

Definition plain_node (u : bytes) : mutation := AddNode (MkNode u (str "x.cpp") 3 false false [] u) [].

(** [h] is instantiated with a lambda of [x.cpp] and one of [y.cpp]; the edit adds a lambda to [y.cpp]
    above the one [h] uses, which only moves. *)
Definition h_before : CallGraph := build [plain_node (str "c:@F@h<x.cpp@10@Sa#y.cpp@20@Sa>"); plain_node (str "c:@F@k<y.cpp@20@Sa>")] empty_graph.
Definition h_after : CallGraph :=
  build [plain_node (str "c:@F@h<x.cpp@10@Sa#y.cpp@25@Sa>"); plain_node (str "c:@F@k<y.cpp@25@Sa>"); plain_node (str "c:@F@m<y.cpp@15@Sa>")] empty_graph.

(** A function whose usr holds two positions is withheld only for the group of the first: when the
    second group is ambiguous, [h] keeps being compared under the shifted ordinal and is reported removed
    and added, while [k], which holds the same position alone, is withheld. *)
Theorem second_position_not_withheld :
  let d := (@semanticDiff canonical_iter stable_std_sort valid_utf8b map_to_list (MkSide h_before None None None) (MkSide h_after None None None)
              (MkDiffOptions false false 8 false)).1 in
  (fun c => (ch_change c, ff_usr (ch_function c))) <$> df_changes d =
    [(FunctionRemoved, str "c:@F@h<x.cpp@10@Sa#y.cpp@20@Sa>"); (FunctionAdded, str "c:@F@h<x.cpp@10@Sa#y.cpp@25@Sa>")] /\
  am_group <$> df_ambiguous d = [str "closure:y.cpp@Sa"].
Proof. split; vm_compute; reflexivity. Qed.

(** Every requested unit has an outcome on record, and is requested once. *)
Definition outcomes_recorded (m : SnapshotMeta) : Prop := length (files m) <= length (outcomes m) /\ NoDup (fs_path <$> files m).

Lemma outcomesOf_spec m p o : outcomes_recorded m ->
  outcomesOf m !! p = Some o <-> exists i f, files m !! i = Some f /\ fs_path f = p /\ outcomes m !! i = Some o.
Proof.
  intros [_ Hnd]. unfold outcomesOf. set (step := fun out i => _).
  assert (H : forall n, foldl step ∅ (seq 0 n) !! p = Some o <-> exists i f, i < n /\ files m !! i = Some f /\ fs_path f = p /\ outcomes m !! i = Some o).
  { induction n as [|n IH]; [cbn; rewrite lookup_empty; split; [done|]; intros (i & f & ? & _); lia|].
    rewrite seq_S, foldl_snoc. cbn [Nat.add]. unfold step at 1. destruct (files m !! n) as [f|] eqn:Ef; [destruct (outcomes m !! n) as [o'|] eqn:Eo|].
    - destruct (decide (fs_path f = p)) as [Ep|Ep].
      + rewrite Ep, lookup_insert_eq. split; [intros [= <-]; exists n, f; split_and!; [lia|done..]|]. intros (i & f' & Hi & Ef' & Ep' & Eo').
        assert (i = n) as ->; [|congruence]. eapply (NoDup_lookup _ _ _ p Hnd); rewrite list_lookup_fmap; [rewrite Ef'|rewrite Ef]; cbn; congruence.
      + rewrite lookup_insert_ne, IH by done. split; intros (i & f' & Hi & Ef' & Ep' & Eo'); exists i, f'; (split_and!; [|done..]); [lia|].
        destruct (decide (i = n)) as [->|]; [congruence|lia].
    - rewrite IH. split; intros (i & f' & Hi & Ef' & Ep' & Eo'); exists i, f'; (split_and!; [|done..]); [lia|]. destruct (decide (i = n)) as [->|]; [congruence|lia].
    - rewrite IH. split; intros (i & f' & Hi & Ef' & Ep' & Eo'); exists i, f'; (split_and!; [|done..]); [lia|]. destruct (decide (i = n)) as [->|]; [congruence|lia]. }
  rewrite H. split; intros (i & f & Hi).
  - exists i, f. tauto.
  - exists i, f. split; [|done]. by eapply lookup_lt_Some, Hi.
Qed.

Lemma is_nil_spec {A} (l : list A) : is_nil l = true <-> l = [].
Proof. by destruct l. Qed.

Lemma with_outcome_nil P m : is_nil (with_outcome P m) = true <-> forall p o, outcomesOf m !! p = Some o -> P (oc_status o) = false.
Proof.
  rewrite is_nil_spec. unfold with_outcome, sort_texts. split.
  - intros E p o Hp. destruct (P (oc_status o)) eqn:HP; [exfalso|done].
    apply (f_equal length) in E. rewrite (Permutation_length (merge_sort_Permutation _ _)), !length_fmap in E. apply nil_length_inv in E.
    apply (not_elem_of_nil (p, o)). rewrite <- E. apply list_elem_of_filter. split; [done|]. by apply elem_of_map_to_list.
  - intros H. apply Permutation_nil_r. rewrite merge_sort_Permutation. 
    assert (E : filter (fun po : bytes * TuOutcome => P (oc_status po.2) = true) (map_to_list (outcomesOf m)) = []); [|by rewrite E].
    apply elem_of_nil_inv. intros [p o] [HP Hin%elem_of_map_to_list]%list_elem_of_filter. apply H in Hin. cbn in HP. congruence.
Qed.

Lemma only_nil (x y : gset bytes) : is_nil (sorted_keys_of bytes_cmp (x ∖ y)) = true <-> x ⊆ y.
Proof.
  rewrite is_nil_spec. split.
  - intros E k Hk. destruct (decide (k ∈ y)); [done|]. exfalso. apply (not_elem_of_nil k). rewrite <- E. apply elem_of_key_order. set_solver.
  - intros H. apply elem_of_nil_inv. intros k Hk%elem_of_key_order. set_solver.
Qed.

Lemma coverage_complete_spec m : coverage_complete (coverageOf m) = true <-> forall i, i < length (files m) -> status_at m i = Indexed.
Proof.
  unfold coverage_complete, coverageOf. pose proof (coverage_fold m (seq 0 (length (files m))) (MkCoverage (N.of_nat (length (files m))) 0 0 0)) as (E1 & E2 & _).
  rewrite E1, E2. cbn [requested indexed]. rewrite N.eqb_eq, N.add_0_l, Nat2N.inj_iff, <- (length_seq (length (files m)) 0) at 1.
  rewrite (comm (=)), filter_full, Forall_forall. setoid_rewrite elem_of_seq. split; intros H i Hi; apply H; lia.
Qed.

(** The units that neither failed nor were parsed partially are indexed. *)
Lemma clean_outcomes m : outcomes_recorded m ->
  is_nil (with_outcome is_failed m) = true /\ is_nil (with_outcome is_partial m) = true <-> coverage_complete (coverageOf m) = true.
Proof.
  intros Hm. rewrite !with_outcome_nil, coverage_complete_spec. unfold status_at. split.
  - intros [Hf Hp] i Hi. destruct (lookup_lt_is_Some_2 (files m) i Hi) as [f Ef], (lookup_lt_is_Some_2 (outcomes m) i) as [o Eo]; [destruct Hm; lia|].
    rewrite Eo. assert (E : outcomesOf m !! fs_path f = Some o) by (apply outcomesOf_spec; [done|]; by exists i, f).
    apply Hf in E as E1. apply Hp in E as E2. unfold is_failed, is_partial in *. by destruct (oc_status o).
  - intros H. split; intros p o (i & f & Ef & _ & Eo)%outcomesOf_spec; try done; apply lookup_lt_Some in Ef; apply H in Ef; rewrite Eo in Ef;
      unfold is_failed, is_partial; by rewrite Ef.
Qed.

(** The comparison says that absences are reliable exactly when both bakes cover every unit they
    requested and request the same units, for bakes with one outcome on record per unit. *)
Theorem absence_reliable_exact (b a : SnapshotMeta) (contextsLoaded : bool) (Hb : outcomes_recorded b) (Ha : outcomes_recorded a) :
  absenceReliable (checkComparability (Some b) (Some a) contextsLoaded) = true <->
  coverage_complete (coverageOf b) = true /\ coverage_complete (coverageOf a) = true /\ requested_texts b = requested_texts a.
Proof.
  cbn [checkComparability absenceReliable]. rewrite !andb_true_iff, !only_nil, <- (clean_outcomes b Hb), <- (clean_outcomes a Ha).
  split; [intros [[[[[? ?] ?] ?] ?] ?]; split_and!; try done; by apply (anti_symm (⊆))|]. intros ([? ?] & [? ?] & E). rewrite E. by split_and!.
Qed.

(** One unit, indexed cleanly on one side and failed on the other. *)
Definition one_unit (s : TuStatus) : SnapshotMeta :=
  MkMeta [] [] false [] [MkStamp (str "/src/a.cpp") 1 1] [] [[]] [] [[]] [MkOutcome s []] (MkProvenance [] [] [] 0).

Lemma absence_reliable_exact_witness :
  absenceReliable (checkComparability (Some (one_unit Indexed)) (Some (one_unit Indexed)) true) = true /\
  absenceReliable (checkComparability (Some (one_unit Indexed)) (Some (one_unit Crashed)) true) <> true.
Proof.
  assert (H : forall s, outcomes_recorded (one_unit s)) by (intros s; split; [done|apply NoDup_singleton]). split.
  - apply (absence_reliable_exact (one_unit Indexed) (one_unit Indexed) true (H _) (H _)). split_and!; by_computation.
  - intros E. apply (absence_reliable_exact (one_unit Indexed) (one_unit Crashed) true (H _) (H _)) in E as (_ & E & _). vm_compute in E. discriminate E.
Defined.
