(* ===== verification/Upsert.v ===== *)
(** Tables whose rows are merged by key: an entry whose key is new is appended, any other is
    merged into the row that has its key.  [upsert] is the table as a plain list;
    [upsert_at] is the vector with a hash index of key positions that the program keeps.
    Collapsing a sequence of entries first and merging the collapsed rows afterwards gives
    the same table as inserting the entries one by one. *)

From S2P Require Import Prelude.

Section Upsert.
Context {E K : Type} `{HK : Countable K} (key : E -> K) (merge : E -> E -> E).

Fixpoint upsert (l : list E) (e : E) : list E :=
  match l with
  | [] => [e]
  | x :: l' => if decide (key x = key e) then merge x e :: l' else x :: upsert l' e
  end.

Definition upsert_all (l es : list E) : list E := foldl upsert l es.

(** [it = byKey.find(k)]; a miss appends the entry and records its position, a hit merges
    into the row at the recorded position. *)
Definition upsert_at (k : K) (e : E) (t : list E * gmap K nat) : list E * gmap K nat :=
  let '(rows, byKey) := t in
  match byKey !! k with
  | None => (rows ++ [e], <[k := length rows]> byKey)
  | Some i => (alter (fun x => merge x e) i rows, byKey)
  end.

(** The index leads to the row of every key. *)
Record keyed_rows (rows : list E) (byKey : gmap K nat) : Prop := {
  ix_nodup : NoDup (key <$> rows);
  ix_at : forall k i, byKey !! k = Some i <-> (key <$> rows) !! i = Some k
}.

Class MergeKeepsKey : Prop := merge_key : forall x e, key x = key e -> key (merge x e) = key x.
Class MergeAssoc : Prop := merge_assoc : forall x y z, key x = key y -> key y = key z -> merge x (merge y z) = merge (merge x y) z.
Class MergeComm : Prop := merge_comm : forall x y z, key x = key y -> key y = key z -> merge (merge x y) z = merge (merge x z) y.

Context `{HMK : MergeKeepsKey}.

Lemma upsert_fresh l e : key e ∉ key <$> l -> upsert l e = l ++ [e].
Proof.
  induction l as [|x l IH]; cbn; [done|]. intros [Hx Hl]%not_elem_of_cons. rewrite decide_False by congruence. by rewrite IH.
Qed.

Lemma upsert_hit p x s e : key e ∉ key <$> p -> key x = key e -> upsert (p ++ x :: s) e = p ++ merge x e :: s.
Proof.
  intros Hp Hx. induction p as [|y p IH]; cbn in *; [by rewrite decide_True|].
  apply not_elem_of_cons in Hp as [Hy Hp]. rewrite decide_False by congruence. by rewrite IH.
Qed.

(** A key of the table is at a first row. *)
Lemma first_row l k : k ∈ key <$> l -> exists p x s, l = p ++ x :: s /\ key x = k /\ k ∉ key <$> p.
Proof.
  induction l as [|y l IH]; cbn; [by intros ?%elem_of_nil|]. intros Hk. destruct (decide (key y = k)) as [E1|E1].
  - exists [], y, l. split_and!; [done|done|]. apply not_elem_of_nil.
  - apply elem_of_cons in Hk as [->|Hk]; [done|]. destruct (IH Hk) as (p & x & s & -> & Hx & Hp).
    exists (y :: p), x, s. split_and!; [done|done|]. cbn. by apply not_elem_of_cons.
Qed.

Lemma upsert_keys l e : key <$> upsert l e = if decide (key e ∈ key <$> l) then key <$> l else (key <$> l) ++ [key e].
Proof.
  case_decide as H.
  - destruct (first_row l (key e) H) as (p & x & s & -> & Hx & Hp). rewrite upsert_hit by done.
    rewrite !fmap_app. cbn. by rewrite merge_key.
  - rewrite upsert_fresh by done. by rewrite fmap_app.
Qed.

(** The rows after an insertion. *)
Lemma elem_of_upsert l e x : NoDup (key <$> l) ->
  x ∈ upsert l e <-> (x ∈ l /\ key x <> key e) \/ (exists y, y ∈ l /\ key y = key e /\ x = merge y e) \/ (~ (key e ∈ key <$> l) /\ x = e).
Proof.
  intros Hnd. destruct (decide (key e ∈ key <$> l)) as [Hin|Hin].
  - destruct (first_row l (key e) Hin) as (p & y & s & -> & Hy & Hp). rewrite upsert_hit by done.
    rewrite fmap_app in Hnd. apply NoDup_app in Hnd as (_ & _ & Hs). cbn in Hs. apply NoDup_cons in Hs as [Hs _].
    assert (Hpk : forall z, z ∈ p -> key z <> key e) by (intros z Hz E1; apply Hp; rewrite <- E1; by apply list_elem_of_fmap_2).
    assert (Hsk : forall z, z ∈ s -> key z <> key e) by (intros z Hz E1; apply Hs; rewrite Hy, <- E1; by apply list_elem_of_fmap_2).
    rewrite elem_of_app, elem_of_cons. split.
    + intros [Hx|[->|Hx]]; [left|right; left|left]; [split; [|auto]; set_solver|exists y; set_solver|split; [|auto]; set_solver].
    + intros [[Hx Hk]|[(z & Hz & Hk & ->)|[[] _]]]; [|apply elem_of_app in Hz as [Hz|[->|Hz]%elem_of_cons]|done].
      * apply elem_of_app in Hx as [?|[->|?]%elem_of_cons]; tauto.
      * by destruct (Hpk z Hz).
      * by right; left.
      * by destruct (Hsk z Hz).
  - rewrite upsert_fresh by done. rewrite elem_of_app, list_elem_of_singleton. split.
    + intros [Hx| ->]; [left|by right; right]. split; [done|]. intros E1. apply Hin. rewrite <- E1. by apply list_elem_of_fmap_2.
    + intros [[Hx _]|[(y & Hy & Hk & _)|[_ ->]]]; [by left| |by right]. exfalso. apply Hin. rewrite <- Hk. by apply list_elem_of_fmap_2.
Qed.

Lemma upsert_all_app l a b : upsert_all l (a ++ b) = upsert_all (upsert_all l a) b.
Proof. apply foldl_app. Qed.

Lemma upsert_all_keys l es k : k ∈ key <$> upsert_all l es <-> k ∈ key <$> l \/ k ∈ key <$> es.
Proof.
  revert l. induction es as [|e es IH]; intros l; cbn; [rewrite elem_of_nil; tauto|].
  fold (upsert_all (upsert l e) es). rewrite IH, upsert_keys, elem_of_cons. case_decide as H.
  - split; [tauto|]. intros [?|[->|?]]; tauto.
  - rewrite elem_of_app, list_elem_of_singleton. tauto.
Qed.

Lemma upsert_NoDup l e : NoDup (key <$> l) -> NoDup (key <$> upsert l e).
Proof.
  intros H. rewrite upsert_keys. case_decide as He; [done|]. apply NoDup_app. split_and!; [done| |apply NoDup_singleton].
  intros k Hk ->%list_elem_of_singleton. done.
Qed.

Lemma upsert_all_NoDup l es : NoDup (key <$> l) -> NoDup (key <$> upsert_all l es).
Proof. revert l. induction es as [|e es IH]; intros l H; [done|]. cbn. apply IH. by apply upsert_NoDup. Qed.

(** ** The hash index *)

Lemma indexed_nil : keyed_rows [] ∅.
Proof. split; [constructor|]. intros k i. by rewrite lookup_empty. Qed.

Lemma indexed_hit rows byKey e : keyed_rows rows byKey ->
  forall i, byKey !! key e = Some i -> alter (fun x => merge x e) i rows = upsert rows e.
Proof.
  intros [Hnd Hat] i Hi%Hat. rewrite list_lookup_fmap in Hi. apply fmap_Some in Hi as (x & Hx & Hk).
  assert (Hlen := lookup_lt_Some _ _ _ Hx). rewrite <- (take_drop_middle rows i x Hx) at 2. rewrite upsert_hit; [|clear Hat|done].
  - apply list_eq. intros j. destruct (decide (i = j)) as [<-|Hj].
    + rewrite list_lookup_alter_eq, Hx. rewrite lookup_app_r by (rewrite length_take; lia).
      rewrite length_take, Nat.min_l by lia. by rewrite Nat.sub_diag.
    + rewrite list_lookup_alter_ne by done. rewrite <- (take_drop_middle rows i x Hx) at 1.
      destruct (decide (j < i)).
      * by rewrite !lookup_app_l by (rewrite length_take; lia).
      * rewrite !lookup_app_r by (rewrite length_take; lia). rewrite length_take, Nat.min_l by lia.
        destruct (j - i) eqn:E1; [lia|done].
  - rewrite <- (take_drop_middle rows i x Hx), fmap_app in Hnd. apply NoDup_app in Hnd as (_ & Hd & _).
    intros Hin. apply (Hd _ Hin). rewrite Hk. cbn. left.
Qed.

(** The indexed vector is the plain table. *)
Lemma upsert_at_spec rows byKey e : keyed_rows rows byKey ->
  (upsert_at (key e) e (rows, byKey)).1 = upsert rows e /\
  keyed_rows (upsert rows e) (upsert_at (key e) e (rows, byKey)).2.
Proof.
  intros Hix. pose proof Hix as [Hnd Hat]. unfold upsert_at. destruct (byKey !! key e) as [i|] eqn:Ei; cbn.
  - rewrite (indexed_hit rows byKey) by done. split; [done|]. assert (Hin : key e ∈ key <$> rows).
    { apply list_elem_of_lookup. exists i. by apply Hat. }
    split; [by apply upsert_NoDup|]. intros k j. rewrite upsert_keys, decide_True by done. apply Hat.
  - assert (Hin : key e ∉ key <$> rows).
    { intros [i Hi]%list_elem_of_lookup. apply Hat in Hi. congruence. }
    rewrite upsert_fresh by done. split; [done|]. split; [rewrite <- upsert_fresh by done; by apply upsert_NoDup|].
    intros k j. rewrite lookup_insert, fmap_app. case_decide as E1; [subst k|].
    + split; [intros [= <-]|].
      * rewrite lookup_app_r by (by rewrite length_fmap). by rewrite length_fmap, Nat.sub_diag.
      * intros Hj. apply lookup_app_Some in Hj as [Hj|[Hlen Hj]]; [apply Hat in Hj; congruence|].
        cbn in Hj. apply list_lookup_singleton_Some in Hj as [Hj _]. rewrite length_fmap in *. f_equal. lia.
    + rewrite Hat. split; [intros Hj; apply lookup_app_Some; by left|].
      intros [Hj|[_ [_ Hj]%list_lookup_singleton_Some]]%lookup_app_Some; [done|congruence].
Qed.

(** ** Collapsing first *)

Lemma upsert_other l e y : key y <> key e -> key e ∈ key <$> l -> upsert (upsert l e) y = upsert (upsert l y) e.
Proof.
  intros Hne Hin. induction l as [|x l IH]; [by apply elem_of_nil in Hin|]. cbn.
  destruct (decide (key x = key e)) as [E1|E1], (decide (key x = key y)) as [E2|E2]; cbn.
  - congruence.
  - rewrite merge_key, decide_False, decide_True by congruence. done.
  - rewrite decide_True by congruence. rewrite merge_key, decide_False by congruence. done.
  - rewrite decide_False, decide_False by congruence. f_equal. apply IH. cbn in Hin. apply elem_of_cons in Hin as [?|?]; [congruence|done].
Qed.

Lemma upsert_same `{!MergeComm} l e y : key y = key e -> key e ∈ key <$> l -> upsert (upsert l e) y = upsert (upsert l y) e.
Proof.
  intros Hk Hin. destruct (first_row l (key e) Hin) as (p & x & s & -> & Hx & Hp).
  rewrite (upsert_hit _ _ _ e), (upsert_hit _ _ _ y), !upsert_hit; try congruence.
  - f_equal. f_equal. apply merge_comm; congruence.
  - rewrite merge_key; congruence.
  - rewrite merge_key; congruence.
Qed.

Lemma upsert_merged `{!MergeAssoc} l x e : key x = key e -> upsert l (merge x e) = upsert (upsert l x) e.
Proof.
  intros Hk. destruct (decide (key x ∈ key <$> l)) as [Hin|Hin].
  - destruct (first_row l (key x) Hin) as (p & y & s & -> & Hy & Hp).
    assert (Hm : key (merge x e) = key x) by (by apply merge_key).
    rewrite (upsert_hit _ _ _ (merge x e)), (upsert_hit _ _ _ x) by congruence.
    rewrite upsert_hit; [|congruence|rewrite merge_key; congruence]. do 2 f_equal. by apply merge_assoc.
  - assert (Hm : key (merge x e) = key x) by (by apply merge_key).
    rewrite (upsert_fresh _ (merge x e)), (upsert_fresh _ x) by congruence. rewrite upsert_hit by congruence. done.
Qed.

(** One entry inserted late is inserted early, when merging does not depend on the order or
    when no key repeats. *)
Lemma upsert_all_late `{!MergeAssoc} l l0 e : NoDup (key <$> l0) \/ MergeComm ->
  upsert_all l (upsert l0 e) = upsert (upsert_all l l0) e.
Proof.
  intros Hor. destruct (decide (key e ∈ key <$> l0)) as [Hin|Hin].
  - destruct (first_row l0 (key e) Hin) as (p & x & s & -> & Hx & Hp). rewrite upsert_hit by done.
    rewrite !upsert_all_app. cbn. rewrite upsert_merged by done. generalize (upsert_all l p). intros m.
    fold (upsert_all (upsert (upsert m x) e) s). fold (upsert_all (upsert m x) s).
    assert (Hs : forall y, y ∈ s -> key y <> key e \/ MergeComm).
    { intros y Hy. destruct Hor as [Hnd|Hc]; [left|by right]. rewrite fmap_app in Hnd. apply NoDup_app in Hnd as (_ & _ & Hnd).
      cbn in Hnd. apply NoDup_cons in Hnd as [Hnd _]. intros Hk. apply Hnd. rewrite Hx, <- Hk. by apply list_elem_of_fmap_2. }
    assert (Hm : key e ∈ key <$> upsert m x).
    { rewrite <- Hx. rewrite upsert_keys. case_decide; [done|]. apply elem_of_app. right. left. }
    clear Hor Hin Hp. revert Hm. generalize (upsert m x). clear m. induction s as [|y s IH]; intros m Hm; [done|]. cbn.
    fold (upsert_all (upsert (upsert m e) y) s). fold (upsert_all (upsert m y) s).
    assert (E1 : upsert (upsert m e) y = upsert (upsert m y) e).
    { destruct (Hs y) as [Hne|Hc]; [left|by apply upsert_other|]. destruct (decide (key y = key e)); [by apply upsert_same|by apply upsert_other]. }
    rewrite E1. apply IH; [intros; apply Hs; by right|]. rewrite upsert_keys. case_decide; [done|]. apply elem_of_app. by left.
  - rewrite upsert_fresh by done. by rewrite upsert_all_app.
Qed.

Lemma upsert_all_assoc `{!MergeAssoc} l l0 es : NoDup (key <$> l0) \/ MergeComm ->
  upsert_all l (upsert_all l0 es) = upsert_all (upsert_all l l0) es.
Proof.
  intros Hor. revert l0 Hor. induction es as [|e es IH]; intros l0 Hor; [done|]. cbn.
  fold (upsert_all (upsert l0 e) es) (upsert_all (upsert (upsert_all l l0) e) es).
  rewrite IH, upsert_all_late; [done|done|]. destruct Hor as [Hc|Hc]; [left|by right]. by apply upsert_NoDup.
Qed.

(** Inserting the collapsed rows is inserting the entries. *)
Lemma upsert_collapse `{!MergeAssoc} l es : upsert_all l (upsert_all [] es) = upsert_all l es.
Proof. rewrite upsert_all_assoc; [done|]. left. constructor. Qed.
End Upsert.

(** ** Keeping the first entry of a key *)

Definition keep {E : Type} (x : E) (_ : E) : E := x.

#[global] Instance keep_key {E K} (key : E -> K) : MergeKeepsKey key keep.
Proof. by intros x e. Qed.
#[global] Instance keep_assoc {E K} (key : E -> K) : MergeAssoc key keep.
Proof. by intros x y z. Qed.
#[global] Instance keep_comm {E K} (key : E -> K) : MergeComm key keep.
Proof. by intros x y z. Qed.

(** [if (std::find(into, v) == end) into.push_back(v)] for every [v] of [from]. *)
Definition union_into {A : Type} `{!EqDecision A} `{!Countable A} (into from : list A) : list A := upsert_all id keep into from.

Lemma keep_hit {E K} `{HK : Countable K} (key : E -> K) (l : list E) (e : E) :
  upsert key keep l e = if decide (key e ∈ key <$> l) then l else l ++ [e].
Proof.
  case_decide as H; [|by apply upsert_fresh]. destruct (first_row key l (key e) H) as (p & x & s & -> & Hx & Hp).
  by rewrite upsert_hit.
Qed.
