(* ===== verification/GlobalIndex.v ===== *)
(** The project-wide index of the cross-unit checks: include/vycor/check/GlobalIndex.h and
    src/check/GlobalIndex.cpp.

    Every translation unit is indexed into a shard of its own and the shards are absorbed
    into one index, whose entries the checks compare.  Overloads, guides, coverage entries
    and specializations are filed under the interned id of a name; the other entries are
    vectors with a hash index that drops or merges repeats.  A call holds the write mutex
    for its whole body, so a call is one transition.  The iteration order of the hash maps
    that [absorb] walks is the interface [UnorderedIter]. *)

From S2P Require Import Prelude StringInterner Results Upsert.

(** * Entries *)

Record FunctionOverloadEntry := MkOverload {
  fo_qualifiedName : bytes;
  fo_headerPath : bytes;
  fo_paramTypes : list bytes;
  fo_returnType : bytes;
  fo_sourceLine : N
}.

Record DeductionGuideEntry := MkGuide {
  dg_templateName : bytes;
  dg_headerPath : bytes;
  dg_paramTypes : list bytes;
  dg_deducedType : bytes;
  dg_sourceLine : N
}.

Record CoveragePropertyEntry := MkCoverage {
  cp_qualifiedName : bytes;
  cp_headerPath : bytes;
  cp_sourceLine : N;
  cp_enclosingClass : bytes;
  cp_gvaLinkage : Z;
  cp_isInlined : bool;
  cp_isConstexpr : bool;
  cp_isDefaulted : bool;
  cp_isTrivial : bool;
  cp_isVirtual : bool;
  cp_isStaticMethod : bool;
  cp_isImplicitlyInstantiable : bool;
  cp_templatedKind : Z;
  cp_storageClass : Z;
  cp_formalLinkage : Z;
  cp_bodyStmtCount : N;
  cp_signature : bytes
}.

Record OdrEntry := MkOdr {
  od_qualifiedName : bytes;
  od_signature : bytes;
  od_isClass : bool;
  od_enclosingClass : bytes;
  od_filePath : bytes;
  od_line : N;
  od_odrHash : N;
  od_tuPath : bytes
}.

Record SpecializationEntry := MkSpecialization {
  sp_templateName : bytes;
  sp_argsString : bytes;
  sp_headerPath : bytes;
  sp_line : N;
  sp_resolutionSummary : bytes
}.

Record DefaultArgEntry := MkDefaultArg {
  da_qualifiedName : bytes;
  da_signature : bytes;
  da_paramIndex : N;
  da_paramName : bytes;
  da_defaultText : bytes;
  da_filePath : bytes;
  da_line : N
}.

Record StaticInitEntry := MkStaticInit {
  si_qualifiedName : bytes;
  si_filePath : bytes;
  si_line : N;
  si_dynamicInit : bool;
  si_isConstructorFn : bool;
  si_referencedGlobals : list bytes;
  si_calledFunctions : list bytes
}.

Record FunctionSummaryEntry := MkSummary {
  fs_qualifiedName : bytes;
  fs_filePath : bytes;
  fs_line : N;
  fs_isNoexcept : bool;
  fs_hasUncaughtThrow : bool;
  fs_calledFunctions : list bytes;
  fs_unguardedCalls : list bytes;
  fs_unguardedCallSites : list (bytes * bytes);
  fs_uncaughtThrowSite : bytes;
  fs_referencedGlobals : list bytes
}.

Record HeaderStaticEntry := MkHeaderStatic {
  hs_name : bytes;
  hs_filePath : bytes;
  hs_line : N;
  hs_isConst : bool;
  hs_tuPaths : list bytes
}.

Record ExceptionSpecEntry := MkExceptionSpec {
  es_qualifiedName : bytes;
  es_signature : bytes;
  es_isNoexcept : bool;
  es_filePath : bytes;
  es_line : N
}.

#[global] Instance CoveragePropertyEntry_eq_dec : EqDecision CoveragePropertyEntry.
Proof. solve_decision. Defined.
#[global] Instance StaticInitEntry_eq_dec : EqDecision StaticInitEntry.
Proof. solve_decision. Defined.
#[global] Instance FunctionSummaryEntry_eq_dec : EqDecision FunctionSummaryEntry.
Proof. solve_decision. Defined.
#[global] Instance HeaderStaticEntry_eq_dec : EqDecision HeaderStaticEntry.
Proof. solve_decision. Defined.
#[global] Instance ExceptionSpecEntry_eq_dec : EqDecision ExceptionSpecEntry.
Proof. solve_decision. Defined.

(** * Type relations *)

Record TypeRelationIndex := MkTypes {
  ty_interner : StringInterner;
  ty_bases : gmap N (list N);
  ty_ctorEdges : gmap N (list N);
  ty_convOpEdges : gmap N (list N)
}.

Definition empty_types : TypeRelationIndex := MkTypes empty_interner ∅ ∅ ∅.

Definition addBase (derived base : bytes) (t : TypeRelationIndex) : TypeRelationIndex :=
  let '(i1, derivedId) := intern (ty_interner t) derived in
  let '(i2, baseId) := intern i1 base in
  MkTypes i2 (push_unique derivedId baseId (ty_bases t)) (ty_ctorEdges t) (ty_convOpEdges t).

Definition addCtorEdge (toType fromType : bytes) (t : TypeRelationIndex) : TypeRelationIndex :=
  let '(i1, toId) := intern (ty_interner t) toType in
  let '(i2, fromId) := intern i1 fromType in
  MkTypes i2 (ty_bases t) (push_unique toId fromId (ty_ctorEdges t)) (ty_convOpEdges t).

Definition addConvOpEdge (fromType toType : bytes) (t : TypeRelationIndex) : TypeRelationIndex :=
  let '(i1, fromId) := intern (ty_interner t) fromType in
  let '(i2, toId) := intern i1 toType in
  MkTypes i2 (ty_bases t) (ty_ctorEdges t) (push_unique fromId toId (ty_convOpEdges t)).

(** The edges of a map with their names, in the order its entries are visited. *)
Definition named_edges `{!UnorderedIter} (t : TypeRelationIndex) (m : gmap N (list N)) : list (bytes * bytes) :=
  kv ← map_iter m; (fun v => (resolve (ty_interner t) kv.1, resolve (ty_interner t) v)) <$> kv.2.

Definition forEachBase `{!UnorderedIter} (t : TypeRelationIndex) : list (bytes * bytes) := named_edges t (ty_bases t).
Definition forEachCtorEdge `{!UnorderedIter} (t : TypeRelationIndex) : list (bytes * bytes) := named_edges t (ty_ctorEdges t).
Definition forEachConvOpEdge `{!UnorderedIter} (t : TypeRelationIndex) : list (bytes * bytes) := named_edges t (ty_convOpEdges t).

Definition absorb_types `{!UnorderedIter} (other t : TypeRelationIndex) : TypeRelationIndex :=
  let t := foldl (fun t e => addBase e.1 e.2 t) t (forEachBase other) in
  let t := foldl (fun t e => addCtorEdge e.1 e.2 t) t (forEachCtorEdge other) in
  foldl (fun t e => addConvOpEdge e.1 e.2 t) t (forEachConvOpEdge other).

(** The builtin arithmetic type names, normalized. *)
Definition arithmetic_names : list bytes :=
  str <$> ["bool"; "char"; "signedchar"; "unsignedchar"; "wchar_t"; "char8_t"; "char16_t"; "char32_t"; "short"; "shortint";
           "unsignedshort"; "unsignedshortint"; "int"; "unsigned"; "unsignedint"; "long"; "longint"; "unsignedlong";
           "unsignedlongint"; "longlong"; "longlongint"; "unsignedlonglong"; "unsignedlonglongint"; "float"; "double"; "longdouble"]%string.

Definition isArithmeticTypeName (normalized : bytes) : bool := bool_decide (normalized ∈ arithmetic_names).

(** One trailing star is dropped. *)
Definition stripPointer (s : bytes) : bytes :=
  match last s with
  | Some c => if decide (c = Byte.x2a) then take (length s - 1) s else s
  | None => s
  end.

(** The loop of [isBaseOrSelf]; the top of the stack is the head of the list, [None] is a
    loop that has not ended. *)
Fixpoint base_walk (bases : gmap N (list N)) (baseId : N) (fuel : nat) (seen : gset N) (stack : list N) : option bool :=
  match fuel with
  | O => None
  | S fuel' =>
      match stack with
      | [] => Some false
      | cur :: rest =>
          if decide (cur ∈ seen) then base_walk bases baseId fuel' seen rest
          else match bases !! cur with
               | None => base_walk bases baseId fuel' ({[cur]} ∪ seen) rest
               | Some v =>
                   if decide (baseId ∈ v) then Some true
                   else base_walk bases baseId fuel' ({[cur]} ∪ seen) (rev v ++ rest)
               end
      end
  end.

(** The number of edges: a name is expanded once, so the stack is popped at most that often
    and once for the start. *)
Definition edge_total {A} (m : gmap N (list A)) : nat := map_fold (fun _ v n => length v + n) 0 m.

Definition isBaseOrSelf (t : TypeRelationIndex) (derived maybeBase : bytes) : bool :=
  if decide (derived = maybeBase) then true
  else match find (ty_interner t) derived, find (ty_interner t) maybeBase with
       | Some d, Some b => default false (base_walk (ty_bases t) b (edge_total (ty_bases t) + 2) ∅ [d])
       | _, _ => false
       end.

(** [it = m.find(k)] and a scan of the vector for [v]. *)
Definition has_edge (t : TypeRelationIndex) (m : gmap N (list N)) (k v : bytes) : bool :=
  match find (ty_interner t) k with
  | None => false
  | Some kId =>
      match m !! kId with
      | None => false
      | Some vs => match find (ty_interner t) v with None => false | Some vId => bool_decide (vId ∈ vs) end
      end
  end.

Definition derived_to_base (t : TypeRelationIndex) (from to : bytes) : bool :=
  let fromClass := stripPointer from in
  let toClass := stripPointer to in
  if decide (fromClass <> from \/ toClass <> to) then
    bool_decide (fromClass <> from) && bool_decide (toClass <> to) && isBaseOrSelf t fromClass toClass
  else isBaseOrSelf t fromClass toClass && bool_decide (fromClass <> toClass).

Definition isConvertible (t : TypeRelationIndex) (from to : bytes) : bool :=
  if decide (from = to) then true
  else if isArithmeticTypeName from && isArithmeticTypeName to then true
  else if derived_to_base t from to then true
  else if has_edge t (ty_ctorEdges t) to from then true
  else has_edge t (ty_convOpEdges t) from to.

(** * The index *)

Record GlobalIndex := MkGlobalIndex {
  gi_interner : StringInterner;
  gi_overloads : gmap N (list FunctionOverloadEntry);
  gi_guides : gmap N (list DeductionGuideEntry);
  gi_coverageProps : gmap N (list CoveragePropertyEntry);
  gi_odrEntries : list OdrEntry;
  gi_odrByKey : gmap bytes nat;
  gi_specializations : gmap N (list SpecializationEntry);
  gi_defaultArgs : list DefaultArgEntry;
  gi_defaultArgKeys : gset bytes;
  gi_staticInits : list StaticInitEntry;
  gi_staticInitByName : gmap bytes nat;
  gi_staticInitKeys : gset bytes;
  gi_functionSummaries : list FunctionSummaryEntry;
  gi_functionSummaryByName : gmap bytes nat;
  gi_headerStatics : list HeaderStaticEntry;
  gi_headerStaticBySite : gmap bytes nat;
  gi_exceptionSpecs : list ExceptionSpecEntry;
  gi_exceptionSpecKeys : gset bytes;
  gi_types : TypeRelationIndex
}.

Definition empty_global_index : GlobalIndex :=
  MkGlobalIndex empty_interner ∅ ∅ ∅ [] ∅ ∅ [] ∅ [] ∅ ∅ [] ∅ [] ∅ [] ∅ empty_types.

Definition bar : bytes := str "|".

(** [if (!keys.insert(key).second) return; rows.push_back(entry);] *)
Definition insert_once {E} (k : bytes) (e : E) (rows : list E) (keys : gset bytes) : list E * gset bytes :=
  if decide (k ∈ keys) then (rows, keys) else (rows ++ [e], {[k]} ∪ keys).

(** [map.emplace(k, v)]: an entry that is there is kept. *)
Definition emplace_at (k : bytes) (v : nat) (m : gmap bytes nat) : gmap bytes nat :=
  match m !! k with Some _ => m | None => <[k := v]> m end.

(** The smaller of two paths or sites, the empty one standing for none. *)
Definition smaller_site (old new : bytes) : bytes :=
  if bool_decide (new <> []) && (bool_decide (old = []) || bytes_ltb new old) then new else old.

Definition addFunctionOverload (e : FunctionOverloadEntry) (g : GlobalIndex) : GlobalIndex :=
  let '(i, key) := intern (gi_interner g) (fo_qualifiedName e) in
  MkGlobalIndex i (push_back key e (gi_overloads g)) (gi_guides g) (gi_coverageProps g) (gi_odrEntries g) (gi_odrByKey g)
    (gi_specializations g) (gi_defaultArgs g) (gi_defaultArgKeys g) (gi_staticInits g) (gi_staticInitByName g) (gi_staticInitKeys g)
    (gi_functionSummaries g) (gi_functionSummaryByName g) (gi_headerStatics g) (gi_headerStaticBySite g) (gi_exceptionSpecs g)
    (gi_exceptionSpecKeys g) (gi_types g).

Definition addDeductionGuide (e : DeductionGuideEntry) (g : GlobalIndex) : GlobalIndex :=
  let '(i, key) := intern (gi_interner g) (dg_templateName e) in
  MkGlobalIndex i (gi_overloads g) (push_back key e (gi_guides g)) (gi_coverageProps g) (gi_odrEntries g) (gi_odrByKey g)
    (gi_specializations g) (gi_defaultArgs g) (gi_defaultArgKeys g) (gi_staticInits g) (gi_staticInitByName g) (gi_staticInitKeys g)
    (gi_functionSummaries g) (gi_functionSummaryByName g) (gi_headerStatics g) (gi_headerStaticBySite g) (gi_exceptionSpecs g)
    (gi_exceptionSpecKeys g) (gi_types g).

Definition addCoverageProperty (e : CoveragePropertyEntry) (g : GlobalIndex) : GlobalIndex :=
  let '(i, key) := intern (gi_interner g) (cp_enclosingClass e) in
  MkGlobalIndex i (gi_overloads g) (gi_guides g) (push_back key e (gi_coverageProps g)) (gi_odrEntries g) (gi_odrByKey g)
    (gi_specializations g) (gi_defaultArgs g) (gi_defaultArgKeys g) (gi_staticInits g) (gi_staticInitByName g) (gi_staticInitKeys g)
    (gi_functionSummaries g) (gi_functionSummaryByName g) (gi_headerStatics g) (gi_headerStaticBySite g) (gi_exceptionSpecs g)
    (gi_exceptionSpecKeys g) (gi_types g).

(** ** Exception specifications *)

Definition exception_spec_key (e : ExceptionSpecEntry) : bytes :=
  es_qualifiedName e ++ bar ++ es_signature e ++ bar ++ (if es_isNoexcept e then str "1|" else str "0|") ++ es_filePath e ++ bar ++
  to_string (es_line e).

Definition addExceptionSpec (e : ExceptionSpecEntry) (g : GlobalIndex) : GlobalIndex :=
  let '(rows, keys) := insert_once (exception_spec_key e) e (gi_exceptionSpecs g) (gi_exceptionSpecKeys g) in
  MkGlobalIndex (gi_interner g) (gi_overloads g) (gi_guides g) (gi_coverageProps g) (gi_odrEntries g) (gi_odrByKey g)
    (gi_specializations g) (gi_defaultArgs g) (gi_defaultArgKeys g) (gi_staticInits g) (gi_staticInitByName g) (gi_staticInitKeys g)
    (gi_functionSummaries g) (gi_functionSummaryByName g) (gi_headerStatics g) (gi_headerStaticBySite g) rows keys (gi_types g).

(** ** Header statics *)

Definition header_static_key (e : HeaderStaticEntry) : bytes := hs_filePath e ++ bar ++ to_string (hs_line e).

Definition merge_header_static (existing e : HeaderStaticEntry) : HeaderStaticEntry :=
  MkHeaderStatic (hs_name existing) (hs_filePath existing) (hs_line existing) (hs_isConst existing)
    (union_into (hs_tuPaths existing) (hs_tuPaths e)).

Definition addHeaderStatic (e : HeaderStaticEntry) (g : GlobalIndex) : GlobalIndex :=
  let '(rows, bySite) := upsert_at merge_header_static (header_static_key e) e (gi_headerStatics g, gi_headerStaticBySite g) in
  MkGlobalIndex (gi_interner g) (gi_overloads g) (gi_guides g) (gi_coverageProps g) (gi_odrEntries g) (gi_odrByKey g)
    (gi_specializations g) (gi_defaultArgs g) (gi_defaultArgKeys g) (gi_staticInits g) (gi_staticInitByName g) (gi_staticInitKeys g)
    (gi_functionSummaries g) (gi_functionSummaryByName g) rows bySite (gi_exceptionSpecs g) (gi_exceptionSpecKeys g) (gi_types g).

(** ** Function summaries *)

Definition merge_call_site (old new : bytes * bytes) : bytes * bytes := (old.1, smaller_site old.2 new.2).

Definition merge_summary (existing e : FunctionSummaryEntry) : FunctionSummaryEntry :=
  MkSummary (fs_qualifiedName existing) (fs_filePath existing) (fs_line existing)
    (fs_isNoexcept existing || fs_isNoexcept e) (fs_hasUncaughtThrow existing || fs_hasUncaughtThrow e)
    (union_into (fs_calledFunctions existing) (fs_calledFunctions e)) (union_into (fs_unguardedCalls existing) (fs_unguardedCalls e))
    (upsert_all fst merge_call_site (fs_unguardedCallSites existing) (fs_unguardedCallSites e))
    (smaller_site (fs_uncaughtThrowSite existing) (fs_uncaughtThrowSite e))
    (union_into (fs_referencedGlobals existing) (fs_referencedGlobals e)).

Definition addFunctionSummary (e : FunctionSummaryEntry) (g : GlobalIndex) : GlobalIndex :=
  let '(rows, byName) := upsert_at merge_summary (fs_qualifiedName e) e (gi_functionSummaries g, gi_functionSummaryByName g) in
  MkGlobalIndex (gi_interner g) (gi_overloads g) (gi_guides g) (gi_coverageProps g) (gi_odrEntries g) (gi_odrByKey g)
    (gi_specializations g) (gi_defaultArgs g) (gi_defaultArgKeys g) (gi_staticInits g) (gi_staticInitByName g) (gi_staticInitKeys g)
    rows byName (gi_headerStatics g) (gi_headerStaticBySite g) (gi_exceptionSpecs g) (gi_exceptionSpecKeys g) (gi_types g).

Definition findFunctionSummary (g : GlobalIndex) (name : bytes) : option FunctionSummaryEntry :=
  i ← gi_functionSummaryByName g !! name; gi_functionSummaries g !! i.

(** ** Static initializers *)

Definition static_init_key (e : StaticInitEntry) : bytes :=
  si_qualifiedName e ++ bar ++ si_filePath e ++ bar ++ to_string (si_line e).

Definition addStaticInit (e : StaticInitEntry) (g : GlobalIndex) : GlobalIndex :=
  if decide (static_init_key e ∈ gi_staticInitKeys g) then g
  else
    let rows := gi_staticInits g ++ [e] in
    MkGlobalIndex (gi_interner g) (gi_overloads g) (gi_guides g) (gi_coverageProps g) (gi_odrEntries g) (gi_odrByKey g)
      (gi_specializations g) (gi_defaultArgs g) (gi_defaultArgKeys g) rows
      (emplace_at (si_qualifiedName e) (length rows - 1) (gi_staticInitByName g)) ({[static_init_key e]} ∪ gi_staticInitKeys g)
      (gi_functionSummaries g) (gi_functionSummaryByName g) (gi_headerStatics g) (gi_headerStaticBySite g) (gi_exceptionSpecs g)
      (gi_exceptionSpecKeys g) (gi_types g).

Definition findStaticInit (g : GlobalIndex) (name : bytes) : option StaticInitEntry :=
  i ← gi_staticInitByName g !! name; gi_staticInits g !! i.

(** ** Default arguments *)

Definition default_arg_key (e : DefaultArgEntry) : bytes :=
  da_qualifiedName e ++ bar ++ da_signature e ++ bar ++ to_string (da_paramIndex e) ++ bar ++ da_defaultText e ++ bar ++ da_filePath e ++
  bar ++ to_string (da_line e).

Definition addDefaultArg (e : DefaultArgEntry) (g : GlobalIndex) : GlobalIndex :=
  let '(rows, keys) := insert_once (default_arg_key e) e (gi_defaultArgs g) (gi_defaultArgKeys g) in
  MkGlobalIndex (gi_interner g) (gi_overloads g) (gi_guides g) (gi_coverageProps g) (gi_odrEntries g) (gi_odrByKey g)
    (gi_specializations g) rows keys (gi_staticInits g) (gi_staticInitByName g) (gi_staticInitKeys g)
    (gi_functionSummaries g) (gi_functionSummaryByName g) (gi_headerStatics g) (gi_headerStaticBySite g) (gi_exceptionSpecs g)
    (gi_exceptionSpecKeys g) (gi_types g).

(** ** Specializations *)

Definition specialization_key (e : SpecializationEntry) : bytes * bytes * N := (sp_argsString e, sp_headerPath e, sp_line e).

Definition declaration_summary : bytes := str "explicit specialization declaration".

(** A summary that says more replaces one that says less. *)
Definition merge_specialization (existing e : SpecializationEntry) : SpecializationEntry :=
  if bool_decide (sp_resolutionSummary e <> []) &&
     (bool_decide (sp_resolutionSummary existing = []) ||
      (bool_decide (sp_resolutionSummary existing = declaration_summary) && bool_decide (sp_resolutionSummary e <> declaration_summary)))
  then MkSpecialization (sp_templateName existing) (sp_argsString existing) (sp_headerPath existing) (sp_line existing) (sp_resolutionSummary e)
  else existing.

Definition addSpecialization (e : SpecializationEntry) (g : GlobalIndex) : GlobalIndex :=
  let '(i, key) := intern (gi_interner g) (sp_templateName e) in
  MkGlobalIndex i (gi_overloads g) (gi_guides g) (gi_coverageProps g) (gi_odrEntries g) (gi_odrByKey g)
    (<[key := upsert specialization_key merge_specialization (vec_at (gi_specializations g) key) e]> (gi_specializations g))
    (gi_defaultArgs g) (gi_defaultArgKeys g) (gi_staticInits g) (gi_staticInitByName g) (gi_staticInitKeys g)
    (gi_functionSummaries g) (gi_functionSummaryByName g) (gi_headerStatics g) (gi_headerStaticBySite g) (gi_exceptionSpecs g)
    (gi_exceptionSpecKeys g) (gi_types g).

(** ** Definition sites *)

Definition odr_key (e : OdrEntry) : bytes :=
  od_qualifiedName e ++ bar ++ od_signature e ++ (if od_isClass e then str "|c|" else str "|f|") ++ od_filePath e ++ bar ++
  to_string (od_line e) ++ bar ++ to_string (od_odrHash e).

Definition merge_odr (existing e : OdrEntry) : OdrEntry :=
  MkOdr (od_qualifiedName existing) (od_signature existing) (od_isClass existing) (od_enclosingClass existing) (od_filePath existing)
    (od_line existing) (od_odrHash existing) (smaller_site (od_tuPath existing) (od_tuPath e)).

Definition addOdrEntry (e : OdrEntry) (g : GlobalIndex) : GlobalIndex :=
  let '(rows, byKey) := upsert_at merge_odr (odr_key e) e (gi_odrEntries g, gi_odrByKey g) in
  MkGlobalIndex (gi_interner g) (gi_overloads g) (gi_guides g) (gi_coverageProps g) rows byKey
    (gi_specializations g) (gi_defaultArgs g) (gi_defaultArgKeys g) (gi_staticInits g) (gi_staticInitByName g) (gi_staticInitKeys g)
    (gi_functionSummaries g) (gi_functionSummaryByName g) (gi_headerStatics g) (gi_headerStaticBySite g) (gi_exceptionSpecs g)
    (gi_exceptionSpecKeys g) (gi_types g).

(** ** Queries *)

(** [id = interner_.find(name)], then the vector filed under it. *)
Definition filed_under {E} (i : StringInterner) (m : gmap N (list E)) (name : bytes) : list E :=
  match find i name with Some id => vec_at m id | None => [] end.

Definition findOverloads (g : GlobalIndex) (name : bytes) : list FunctionOverloadEntry := filed_under (gi_interner g) (gi_overloads g) name.
Definition findDeductionGuides (g : GlobalIndex) (name : bytes) : list DeductionGuideEntry := filed_under (gi_interner g) (gi_guides g) name.
Definition findClassMethods (g : GlobalIndex) (name : bytes) : list CoveragePropertyEntry := filed_under (gi_interner g) (gi_coverageProps g) name.
Definition findSpecializations (g : GlobalIndex) (name : bytes) : list SpecializationEntry := filed_under (gi_interner g) (gi_specializations g) name.

Definition filed_count `{!UnorderedIter} {E} (m : gmap N (list E)) : nat := foldl (fun count kv => count + length kv.2) 0 (map_iter m).

Definition overloadCount `{!UnorderedIter} (g : GlobalIndex) : nat := filed_count (gi_overloads g).
Definition guideCount `{!UnorderedIter} (g : GlobalIndex) : nat := filed_count (gi_guides g).
Definition coverageEntryCount `{!UnorderedIter} (g : GlobalIndex) : nat := filed_count (gi_coverageProps g).
Definition specializationCount `{!UnorderedIter} (g : GlobalIndex) : nat := filed_count (gi_specializations g).

Definition allIndexedClasses `{!UnorderedIter} (g : GlobalIndex) : list bytes :=
  (fun kv => resolve (gi_interner g) kv.1) <$> map_iter (gi_coverageProps g).

(** The entries of a map of vectors, as the [forEach] functions visit them. *)
Definition filed_entries `{!UnorderedIter} {E} (m : gmap N (list E)) : list E := kv ← map_iter m; kv.2.

(** * Absorbing a shard *)

Definition absorb_index `{!UnorderedIter} (g shard : GlobalIndex) : GlobalIndex :=
  let g := foldl (fun g e => addFunctionOverload e g) g (filed_entries (gi_overloads shard)) in
  let g := foldl (fun g e => addDeductionGuide e g) g (filed_entries (gi_guides shard)) in
  let g := foldl (fun g e => addCoverageProperty e g) g (filed_entries (gi_coverageProps shard)) in
  let g := foldl (fun g e => addOdrEntry e g) g (gi_odrEntries shard) in
  let g := foldl (fun g e => addSpecialization e g) g (filed_entries (gi_specializations shard)) in
  let g := foldl (fun g e => addDefaultArg e g) g (gi_defaultArgs shard) in
  let g := foldl (fun g e => addStaticInit e g) g (gi_staticInits shard) in
  let g := foldl (fun g e => addFunctionSummary e g) g (gi_functionSummaries shard) in
  let g := foldl (fun g e => addHeaderStatic e g) g (gi_headerStatics shard) in
  let g := foldl (fun g e => addExceptionSpec e g) g (gi_exceptionSpecs shard) in
  MkGlobalIndex (gi_interner g) (gi_overloads g) (gi_guides g) (gi_coverageProps g) (gi_odrEntries g) (gi_odrByKey g)
    (gi_specializations g) (gi_defaultArgs g) (gi_defaultArgKeys g) (gi_staticInits g) (gi_staticInitByName g) (gi_staticInitKeys g)
    (gi_functionSummaries g) (gi_functionSummaryByName g) (gi_headerStatics g) (gi_headerStaticBySite g) (gi_exceptionSpecs g)
    (gi_exceptionSpecKeys g) (absorb_types (gi_types shard) (gi_types g)).
