(* ===== verification/GlobalIndexCorrect.v ===== *)
(** The merges of the global index: associative, so that a shard may collapse repeats before
    it is absorbed, and keeping the key of the row they merge into.

    The type relations of the global index: which names are related, independently of the
    ids they were interned at, and that the queries answer by those relations.

    The global index implements an abstract one: for every name the entries filed under it,
    the rows of the merged tables, and three relations between type names.  [apply_op] is
    one call of an [add] function; [spec_op] is what the call does to the abstract index. *)

From S2P Require Import Prelude StringInterner Results Upsert GlobalIndex.

(** * The least of some sites, the empty one standing for none *)

Definition least_site (l : list bytes) (c : bytes) : Prop :=
  (c = [] /\ forall x, x ∈ l -> x = []) \/ (c <> [] /\ c ∈ l /\ forall x, x ∈ l -> x <> [] -> bytes_le c x).

Lemma least_site_unique l c d : least_site l c -> least_site l d -> c = d.
Proof.
  intros [[-> Hc]|(Hc & Hin & Hle)] [[-> Hd]|(Hd & Hin' & Hle')]; [done| | |].
  - by destruct Hd; apply Hc.
  - by destruct Hc; apply Hd.
  - apply (anti_symm bytes_le); auto.
Qed.

Lemma least_site_one a : least_site [a] a.
Proof.
  destruct (decide (a = [])) as [->|Ha]; [left|right]; split_and!; [done| |done|left|].
  - by intros x ->%list_elem_of_singleton.
  - by intros x ->%list_elem_of_singleton.
Qed.

Lemma least_site_app l k c d : least_site l c -> least_site k d -> least_site (l ++ k) (smaller_site c d).
Proof.
  unfold smaller_site. intros Hc Hd. destruct (decide (d = [])) as [E1|E1].
  { rewrite (bool_decide_eq_false_2 (d <> [])) by tauto. subst d. destruct Hd as [[_ Hd]|[]]; [|done].
    destruct Hc as [[-> Hc]|(Hc & Hin & Hle)]; [left|right]; split_and!; [done| |done| |]; try (apply elem_of_app; by left);
      intros x [Hx|Hx]%elem_of_app; auto. intros Hne. by destruct Hne; apply Hd. }
  rewrite (bool_decide_eq_true_2 (d <> [])) by done. destruct Hd as [[? _]|(_ & Hdin & Hdle)]; [done|].
  destruct (decide (c = [])) as [E2|E2].
  { subst c. destruct Hc as [[_ Hc]|[]]; [|done]. cbn. right. split_and!; [done|apply elem_of_app; by right|].
    intros x [Hx|Hx]%elem_of_app Hne; [by destruct Hne; apply Hc|auto]. }
  rewrite (bool_decide_eq_false_2 (c = [])) by done. destruct Hc as [[? _]|(_ & Hcin & Hcle)]; [done|]. cbn.
  destruct (bytes_ltb d c) eqn:El; right; (split; [done|split; [apply elem_of_app; auto|]]).
  - apply bytes_ltb_lt in El as [El _]. intros x [Hx|Hx]%elem_of_app Hne; [|auto]. transitivity c; [done|auto].
  - assert (Hle : bytes_le c d).
    { destruct (decide (c = d)) as [->|Hne]; [reflexivity|]. destruct (total bytes_le c d) as [?|Hdc]; [done|].
      assert (bytes_ltb d c = true) by (apply bytes_ltb_lt; split; congruence). congruence. }
    intros x [Hx|Hx]%elem_of_app Hne; [auto|]. transitivity d; auto.
Qed.

Lemma least_site_perm l k c : l ≡ₚ k -> least_site l c -> least_site k c.
Proof. unfold least_site. intros Hp. setoid_rewrite Hp. done. Qed.

Lemma smaller_site_assoc a b c : smaller_site a (smaller_site b c) = smaller_site (smaller_site a b) c.
Proof.
  pose proof (fun a => least_site_one a) as L. apply (least_site_unique ([a] ++ [b] ++ [c])).
  - apply least_site_app; [done|]. by apply least_site_app.
  - rewrite (assoc_L app). apply least_site_app; [|done]. by apply least_site_app.
Qed.

Lemma smaller_site_comm a b c : smaller_site (smaller_site a b) c = smaller_site (smaller_site a c) b.
Proof.
  pose proof (fun a => least_site_one a) as L. apply (least_site_unique (([a] ++ [b]) ++ [c])).
  - apply least_site_app; [|done]. by apply least_site_app.
  - apply (least_site_perm (([a] ++ [c]) ++ [b])); [cbn; apply Permutation_skip, Permutation_swap|]. apply least_site_app; [|done]. by apply least_site_app.
Qed.

(** * Unions *)

Lemma union_assoc (a b c : list bytes) : union_into a (union_into b c) = union_into (union_into a b) c.
Proof. refine (upsert_all_assoc id keep a b c _). right. apply _. Qed.

Lemma elem_of_union_into x (a b : list bytes) : x ∈ union_into a b <-> x ∈ a \/ x ∈ b.
Proof.
  pose proof (upsert_all_keys (K := bytes) id keep a b x) as H. rewrite !list_fmap_id in H. exact H.
Qed.

#[global] Instance call_site_key : MergeKeepsKey fst merge_call_site.
Proof. by intros x e. Qed.
#[global] Instance call_site_assoc : MergeAssoc fst merge_call_site.
Proof. intros [a x] [b y] [c z] ??. unfold merge_call_site. cbn. by rewrite smaller_site_assoc. Qed.
#[global] Instance call_site_comm : MergeComm fst merge_call_site.
Proof. intros [a x] [b y] [c z] ??. unfold merge_call_site. cbn. by rewrite smaller_site_comm. Qed.

Lemma call_sites_assoc a b c :
  upsert_all fst merge_call_site a (upsert_all fst merge_call_site b c) =
  upsert_all fst merge_call_site (upsert_all fst merge_call_site a b) c.
Proof. refine (upsert_all_assoc fst merge_call_site a b c _). right. apply _. Qed.

(** * The rows *)

#[global] Instance summary_key : MergeKeepsKey fs_qualifiedName merge_summary.
Proof. by intros x e. Qed.
#[global] Instance summary_assoc : MergeAssoc fs_qualifiedName merge_summary.
Proof.
  intros x y z _ _. unfold merge_summary.
  cbn [fs_qualifiedName fs_filePath fs_line fs_isNoexcept fs_hasUncaughtThrow fs_calledFunctions fs_unguardedCalls
    fs_unguardedCallSites fs_uncaughtThrowSite fs_referencedGlobals]. by rewrite !orb_assoc, !union_assoc, smaller_site_assoc, call_sites_assoc.
Qed.

#[global] Instance header_static_keeps : MergeKeepsKey header_static_key merge_header_static.
Proof. by intros x e. Qed.
#[global] Instance header_static_assoc : MergeAssoc header_static_key merge_header_static.
Proof. intros x y z _ _. unfold merge_header_static. cbn [hs_tuPaths hs_name hs_filePath hs_line hs_isConst]. by rewrite union_assoc. Qed.

#[global] Instance odr_keeps : MergeKeepsKey odr_key merge_odr.
Proof. by intros x e. Qed.
#[global] Instance odr_assoc : MergeAssoc odr_key merge_odr.
Proof. intros x y z _ _. unfold merge_odr. cbn. by rewrite smaller_site_assoc. Qed.

#[global] Instance specialization_keeps : MergeKeepsKey specialization_key merge_specialization.
Proof. intros x e _. unfold merge_specialization. by case_match. Qed.

(** How much a summary says. *)
Definition summary_rank (s : bytes) : nat := if decide (s = []) then 0 else if decide (s = declaration_summary) then 1 else 2.

Lemma merge_specialization_rank x e :
  merge_specialization x e =
  if decide (summary_rank (sp_resolutionSummary x) < summary_rank (sp_resolutionSummary e))
  then MkSpecialization (sp_templateName x) (sp_argsString x) (sp_headerPath x) (sp_line x) (sp_resolutionSummary e) else x.
Proof.
  assert (Hd : declaration_summary <> []) by done.
  unfold merge_specialization, summary_rank. destruct (decide (sp_resolutionSummary x = [])) as [E1|E1], (decide (sp_resolutionSummary e = [])) as [E2|E2].
  all: repeat case_decide; repeat case_bool_decide; cbn; first [done|congruence|lia|idtac].
Qed.

#[global] Instance specialization_assoc : MergeAssoc specialization_key merge_specialization.
Proof.
  intros x y z _ _. rewrite !merge_specialization_rank. repeat case_decide; cbn in *; first [done|lia|idtac].
Qed.

(** * Edges between names *)

Definition names_edge (i : StringInterner) (m : gmap N (list N)) (a b : bytes) : Prop :=
  exists x y, resolve_opt i x = Some a /\ resolve_opt i y = Some b /\ y ∈ vec_at m x.

Definition edges_known (i : StringInterner) (m : gmap N (list N)) : Prop :=
  forall x y, y ∈ vec_at m x -> is_Some (resolve_opt i x) /\ is_Some (resolve_opt i y).

Record types_ok (t : TypeRelationIndex) : Prop := {
  to_interner : interner_ok (ty_interner t);
  to_bases : edges_known (ty_interner t) (ty_bases t);
  to_ctors : edges_known (ty_interner t) (ty_ctorEdges t);
  to_convs : edges_known (ty_interner t) (ty_convOpEdges t)
}.

Lemma edges_known_extends i i' m : extends i i' -> edges_known i m -> edges_known i' m.
Proof. intros He Hk x y Hy. destruct (Hk x y Hy) as [[a Ha] [b Hb]]. split; eexists; by eapply extends_resolve. Qed.

Lemma names_edge_extends i i' m a b : extends i i' -> edges_known i m -> names_edge i' m a b <-> names_edge i m a b.
Proof.
  intros He Hk. split; intros (x & y & Ha & Hb & Hin); exists x, y; (split; [|split; [|done]]).
  - destruct (Hk x y Hin) as [[s Hs] _]. pose proof (extends_resolve _ _ _ _ He Hs). congruence.
  - destruct (Hk x y Hin) as [_ [s Hs]]. pose proof (extends_resolve _ _ _ _ He Hs). congruence.
  - by eapply extends_resolve.
  - by eapply extends_resolve.
Qed.

(** Interning two names. *)
Lemma intern_two i a b i1 ia i2 ib : intern i a = (i1, ia) -> intern i1 b = (i2, ib) -> interner_ok i -> room 2 i ->
  interner_ok i2 /\ extends i i2 /\ resolve_opt i2 ia = Some a /\ resolve_opt i2 ib = Some b /\ table_size i2 <= table_size i + 2.
Proof.
  intros H1 H2 Hok Hr. destruct (intern_spec _ _ _ _ H1 Hok) as (Ok1 & E1 & R1 & S1); [by apply (room_weaken 2); [lia|]|].
  destruct (intern_spec _ _ _ _ H2 Ok1) as (Ok2 & E2 & R2 & S2); [unfold room in *; lia|].
  split_and!; [done|by etrans|by eapply extends_resolve|done|lia].
Qed.

Lemma names_edge_push i i2 m a b ia ib c d : interner_ok i2 -> extends i i2 -> edges_known i m ->
  resolve_opt i2 ia = Some a -> resolve_opt i2 ib = Some b ->
  names_edge i2 (push_unique ia ib m) c d <-> names_edge i m c d \/ (c = a /\ d = b).
Proof.
  intros Hok He Hk Ha Hb. rewrite <- (names_edge_extends i i2) by done. unfold names_edge. setoid_rewrite elem_of_push_unique. split.
  - intros (x & y & Hx & Hy & [Hin|[<- ->]]); [left; by exists x, y|right]. split; congruence.
  - intros [(x & y & Hx & Hy & Hin)|[-> ->]]; [exists x, y; by auto|]. exists ia, ib. split_and!; auto.
Qed.

Lemma edges_known_push i m a b ia ib : edges_known i m -> resolve_opt i ia = Some a -> resolve_opt i ib = Some b ->
  edges_known i (push_unique ia ib m).
Proof. intros Hk Ha Hb x y [Hy|[<- ->]]%elem_of_push_unique; [by apply Hk|]. by rewrite Ha, Hb. Qed.

(** * Adding an edge *)

Definition base_of (t : TypeRelationIndex) : bytes -> bytes -> Prop := names_edge (ty_interner t) (ty_bases t).
Definition ctor_from (t : TypeRelationIndex) : bytes -> bytes -> Prop := names_edge (ty_interner t) (ty_ctorEdges t).
Definition converts_to (t : TypeRelationIndex) : bytes -> bytes -> Prop := names_edge (ty_interner t) (ty_convOpEdges t).

(** What an addition does: the edge joins one of the three relations. *)
Record edge_added (a b : bytes) (base ctor conv : bool) (t t' : TypeRelationIndex) : Prop := {
  ea_ok : types_ok t';
  ea_base : forall c d, base_of t' c d <-> base_of t c d \/ (base /\ c = a /\ d = b);
  ea_ctor : forall c d, ctor_from t' c d <-> ctor_from t c d \/ (ctor /\ c = a /\ d = b);
  ea_conv : forall c d, converts_to t' c d <-> converts_to t c d \/ (conv /\ c = a /\ d = b);
  ea_size : table_size (ty_interner t') <= table_size (ty_interner t) + 2
}.

Ltac add_edge_tac add :=
  intros [Hi Hb Hc Hv] Hr; unfold add;
  match goal with |- context [intern ?i ?a] => destruct (intern i a) eqn:? end;
  match goal with E : intern _ _ = (?j, _) |- context [intern ?j ?b] => destruct (intern j b) eqn:? end;
  match goal with
  | E1 : intern _ _ = (?j, _), E2 : intern ?j _ = _, H : interner_ok _, R : room 2 _ |- _ =>
      destruct (intern_two _ _ _ _ _ _ _ E1 E2 H R) as (? & ? & ? & ? & ?)
  end;
  split; [split; cbn; eauto using edges_known_extends, edges_known_push| | | |done];
  intros; unfold base_of, ctor_from, converts_to; cbn;
  first [erewrite names_edge_push by eauto; cbn; tauto|erewrite names_edge_extends by eauto; cbn; tauto].

Lemma addBase_spec a b t : types_ok t -> room 2 (ty_interner t) -> edge_added a b true false false t (addBase a b t).
Proof. add_edge_tac addBase. Qed.
Lemma addCtorEdge_spec a b t : types_ok t -> room 2 (ty_interner t) -> edge_added a b false true false t (addCtorEdge a b t).
Proof. add_edge_tac addCtorEdge. Qed.
Lemma addConvOpEdge_spec a b t : types_ok t -> room 2 (ty_interner t) -> edge_added a b false false true t (addConvOpEdge a b t).
Proof. add_edge_tac addConvOpEdge. Qed.

Lemma empty_types_ok : types_ok empty_types.
Proof. split; [apply empty_ok| | |]; intros x y; unfold vec_at; cbn; rewrite lookup_empty; intros []%elem_of_nil. Qed.

(** * The walk over base classes *)

Section Walk.
Variables (bases : gmap N (list N)) (d b : N).

Abbreviation edge := (fun x y : N => y ∈ vec_at bases x).

(** The edges of the names not expanded yet. *)
Definition unread_edges (seen : gset N) : nat := edge_total (filter (fun kv : N * list N => kv.1 ∉ seen) bases).

Lemma pending_expand seen cur : cur ∉ seen -> unread_edges seen = length (vec_at bases cur) + unread_edges ({[cur]} ∪ seen).
Proof.
  intros Hc. unfold unread_edges. set (m := filter (fun kv : N * list N => kv.1 ∉ seen) bases).
  assert (E1 : filter (fun kv : N * list N => kv.1 ∉ {[cur]} ∪ seen) bases = delete cur m).
  { apply map_eq. intros k. apply option_eq. intros v. unfold m. rewrite lookup_delete_Some, !map_lookup_filter_Some. cbn. set_solver. }
  rewrite E1. unfold vec_at. destruct (bases !! cur) as [v|] eqn:Ev; cbn.
  - unfold edge_total. rewrite (map_fold_delete_L _ _ cur v m); [done| |]; [intros; lia|].
    unfold m. apply map_lookup_filter_Some. done.
  - rewrite delete_id; [done|]. unfold m. apply map_lookup_filter_None. by left.
Qed.

Lemma walk_answers fuel seen stack :
  unread_edges seen + length stack < fuel ->
  (forall x y, x ∈ seen -> edge x y -> y <> b /\ (y ∈ seen \/ y ∈ stack)) ->
  (forall x, x ∈ stack -> rtc edge d x) -> d ∈ seen \/ d ∈ stack ->
  exists r, base_walk bases b fuel seen stack = Some r /\ (r = true <-> tc edge d b).
Proof.
  revert seen stack. induction fuel as [|fuel IH]; intros seen stack Hf Hclosed Hreach Hd; [lia|]. cbn.
  destruct stack as [|cur rest].
  { exists false. split; [done|]. split; [done|]. intros Htc. exfalso. destruct Hd as [Hd|Hd]; [|by apply elem_of_nil in Hd].
    assert (Hno : forall x y, tc edge x y -> y = b -> x ∈ seen -> False); [|by eapply Hno].
    intros x y H. induction H as [x y Hxy|x z y Hxz _ IHt]; intros -> Hx.
    - by destruct (Hclosed x b Hx Hxy).
    - destruct (Hclosed x z Hx Hxz) as [_ [Hz|Hz]]; [auto|by apply elem_of_nil in Hz]. }
  cbn in Hf. case_decide as Hseen.
  { apply IH; [lia| | |].
    - intros x y Hx Hy. destruct (Hclosed x y Hx Hy) as [? [?|[->|?]%elem_of_cons]]; auto.
    - intros x Hx. apply Hreach. by right.
    - destruct Hd as [?|[->|?]%elem_of_cons]; auto. }
  assert (Hcur : rtc edge d cur) by (apply Hreach; left). pose proof (pending_expand seen cur Hseen) as Hp.
  assert (Hd' : forall k, d ∈ {[cur]} ∪ seen \/ d ∈ k ++ rest).
  { intros k. rewrite elem_of_app. destruct Hd as [?|[->|?]%elem_of_cons]; set_solver. }
  destruct (bases !! cur) as [v|] eqn:Ev.
  - assert (Ecur : vec_at bases cur = v) by (unfold vec_at; by rewrite Ev). rewrite Ecur in Hp. case_decide as Hb.
    { exists true. split; [done|]. split; [|done]. intros _. eapply tc_rtc_l; [done|]. apply tc_once. by rewrite Ecur. }
    apply IH; [rewrite length_app, length_rev; lia| | |apply Hd'].
    + intros x y [->%elem_of_singleton|Hx]%elem_of_union Hy; rewrite elem_of_app, elem_of_rev.
      * rewrite Ecur in Hy. split; [by intros ->|]. auto.
      * destruct (Hclosed x y Hx Hy) as [? [?|[->|?]%elem_of_cons]]; set_solver.
    + intros x [Hx|Hx]%elem_of_app; [|apply Hreach; by right]. rewrite elem_of_rev in Hx. eapply rtc_r; [done|]. rewrite <- Ecur in Hx. exact Hx.
  - assert (Ecur : vec_at bases cur = []) by (unfold vec_at; by rewrite Ev).
    apply IH; [lia| | |apply (Hd' [])].
    + intros x y [->%elem_of_singleton|Hx]%elem_of_union Hy; [rewrite Ecur in Hy; by apply elem_of_nil in Hy|].
      destruct (Hclosed x y Hx Hy) as [? [?|[->|?]%elem_of_cons]]; set_solver.
    + intros x Hx. apply Hreach. by right.
Qed.

Lemma base_walk_answers : exists r, base_walk bases b (edge_total bases + 2) ∅ [d] = Some r /\ (r = true <-> tc edge d b).
Proof.
  apply walk_answers; [|set_solver| |right; left].
  - unfold unread_edges. replace (filter _ bases) with bases; [cbn; lia|]. symmetry. apply map_filter_id. intros; set_solver.
  - intros x ->%list_elem_of_singleton. done.
Qed.
End Walk.

(** A chain of ids is a chain of names. *)
Lemma tc_names i m x y a b : interner_ok i -> edges_known i m -> resolve_opt i x = Some a -> resolve_opt i y = Some b ->
  tc (fun x y => y ∈ vec_at m x) x y <-> tc (names_edge i m) a b.
Proof.
  intros Hok Hk Hx Hy. split.
  - intros H. revert a Hx. induction H as [x y Hxy|x z y Hxz _ IH]; intros a Hx.
    + apply tc_once. by exists x, y.
    + destruct (Hk x z Hxz) as [_ [c Hc]]. eapply tc_l; [by exists x, z|]. by apply IH.
  - intros H. revert x Hx. induction H as [a b (x' & y' & Ha & Hb & Hin)|a c b (x' & z & Ha & Hc & Hin) _ IH]; intros x Hx.
    + rewrite (resolve_opt_inj i x x' a), (resolve_opt_inj i y y' b) by done. by apply tc_once.
    + rewrite (resolve_opt_inj i x x' a) by done. eapply tc_l; [done|]. by apply IH.
Qed.

Lemma names_edge_find i m a b : interner_ok i -> names_edge i m a b -> is_Some (find i a) /\ is_Some (find i b).
Proof. intros Hok (x & y & Hx & Hy & _). split; eexists; by apply resolve_find. Qed.

Lemma tc_find i m a b : interner_ok i -> tc (names_edge i m) a b -> is_Some (find i a) /\ is_Some (find i b).
Proof.
  intros Hok H. induction H as [a b H|a c b H _ IH]; [by apply names_edge_find in H|].
  apply names_edge_find in H as [? _]; [|done]. by destruct IH.
Qed.

(** [isBaseOrSelf] decides the reflexive and transitive closure of the base edges. *)
Lemma isBaseOrSelf_iff t a b : types_ok t -> isBaseOrSelf t a b = true <-> a = b \/ tc (base_of t) a b.
Proof.
  intros [Hok Hk _ _]. unfold isBaseOrSelf. case_decide as E; [tauto|].
  destruct (find (ty_interner t) a) as [x|] eqn:Ex; [destruct (find (ty_interner t) b) as [y|] eqn:Ey|].
  - destruct (base_walk_answers (ty_bases t) x y) as (r & -> & Hr). cbn. rewrite Hr.
    rewrite (tc_names (ty_interner t) _ x y a b) by eauto using find_resolve. unfold base_of. tauto.
  - split; [done|]. intros [?|H]; [done|]. apply tc_find in H as [_ [? H]]; [congruence|done].
  - split; [done|]. intros [?|H]; [done|]. apply tc_find in H as [[? H] _]; [congruence|done].
Qed.

Lemma has_edge_iff t m a b : interner_ok (ty_interner t) -> has_edge t m a b = true <-> names_edge (ty_interner t) m a b.
Proof.
  intros Hok. unfold has_edge, names_edge. destruct (find (ty_interner t) a) as [x|] eqn:Ex.
  - split.
    + destruct (m !! x) as [vs|] eqn:Em; [|done]. destruct (find (ty_interner t) b) as [y|] eqn:Ey; [|done].
      intros Hin%bool_decide_eq_true. exists x, y. unfold vec_at. rewrite Em. split_and!; eauto using find_resolve.
    + intros (x' & y & Hx%resolve_find & Hy%resolve_find & Hin); [|done|done]. assert (x' = x) as -> by congruence.
      unfold vec_at in Hin. destruct (m !! x) as [vs|]; [|by apply elem_of_nil in Hin]. rewrite Hy. by apply bool_decide_eq_true_2.
  - split; [done|]. intros (x & _ & Hx%resolve_find & _); [congruence|done].
Qed.

(** The two names as pointers to classes, or as classes. *)
Definition classes_related (related : bytes -> bytes -> Prop) (from to : bytes) : Prop :=
  (stripPointer from <> from /\ stripPointer to <> to /\ (stripPointer from = stripPointer to \/ tc related (stripPointer from) (stripPointer to))) \/
  (stripPointer from = from /\ stripPointer to = to /\ from <> to /\ tc related from to).

(** [isConvertible] is the union of its documented rules. *)
Lemma isConvertible_iff t a b : types_ok t -> isConvertible t a b = true <->
  a = b \/ (a ∈ arithmetic_names /\ b ∈ arithmetic_names) \/ classes_related (base_of t) a b \/ ctor_from t b a \/ converts_to t a b.
Proof.
  intros Hok. pose proof (to_interner _ Hok) as Hi. unfold isConvertible, isArithmeticTypeName.
  assert (Hd : derived_to_base t a b = true <-> a <> b /\ classes_related (base_of t) a b \/ a = b /\ derived_to_base t a b = true).
  { unfold derived_to_base, classes_related. destruct (decide (a = b)) as [->|Hne]; [tauto|].
    case_decide as Hp.
    - rewrite !andb_true_iff, !bool_decide_eq_true, isBaseOrSelf_iff by done. tauto.
    - assert (stripPointer a = a /\ stripPointer b = b) as [-> ->] by (split; apply dec_stable; tauto).
      rewrite andb_true_iff, bool_decide_eq_true, isBaseOrSelf_iff by done. tauto. }
  case_decide as E1; [tauto|]. destruct (bool_decide (a ∈ _)) eqn:E2, (bool_decide (b ∈ _)) eqn:E3; cbn [andb];
    rewrite ?bool_decide_eq_true, ?bool_decide_eq_false in *; [tauto| | |];
    (destruct (derived_to_base t a b); [tauto|]);
    (destruct (has_edge t (ty_ctorEdges t) b a) eqn:E4; [apply has_edge_iff in E4; unfold ctor_from; tauto|]);
    rewrite has_edge_iff by done; rewrite <- not_true_iff_false, has_edge_iff in E4 by done; unfold ctor_from, converts_to;
    assert (~ classes_related (base_of t) a b) by (intros ?; destruct Hd as [_ Hd]; discriminate Hd; tauto); tauto.
Qed.

(** * Calls *)

Inductive IndexOp :=
| OpOverload (e : FunctionOverloadEntry)
| OpGuide (e : DeductionGuideEntry)
| OpCoverage (e : CoveragePropertyEntry)
| OpOdr (e : OdrEntry)
| OpSpecialization (e : SpecializationEntry)
| OpDefaultArg (e : DefaultArgEntry)
| OpStaticInit (e : StaticInitEntry)
| OpSummary (e : FunctionSummaryEntry)
| OpHeaderStatic (e : HeaderStaticEntry)
| OpExceptionSpec (e : ExceptionSpecEntry)
| OpBase (derived base : bytes)
| OpCtor (toType fromType : bytes)
| OpConv (fromType toType : bytes).

Definition on_types (f : TypeRelationIndex -> TypeRelationIndex) (g : GlobalIndex) : GlobalIndex :=
  MkGlobalIndex (gi_interner g) (gi_overloads g) (gi_guides g) (gi_coverageProps g) (gi_odrEntries g) (gi_odrByKey g)
    (gi_specializations g) (gi_defaultArgs g) (gi_defaultArgKeys g) (gi_staticInits g) (gi_staticInitByName g) (gi_staticInitKeys g)
    (gi_functionSummaries g) (gi_functionSummaryByName g) (gi_headerStatics g) (gi_headerStaticBySite g) (gi_exceptionSpecs g)
    (gi_exceptionSpecKeys g) (f (gi_types g)).

Definition apply_op (g : GlobalIndex) (op : IndexOp) : GlobalIndex :=
  match op with
  | OpOverload e => addFunctionOverload e g
  | OpGuide e => addDeductionGuide e g
  | OpCoverage e => addCoverageProperty e g
  | OpOdr e => addOdrEntry e g
  | OpSpecialization e => addSpecialization e g
  | OpDefaultArg e => addDefaultArg e g
  | OpStaticInit e => addStaticInit e g
  | OpSummary e => addFunctionSummary e g
  | OpHeaderStatic e => addHeaderStatic e g
  | OpExceptionSpec e => addExceptionSpec e g
  | OpBase d b => on_types (addBase d b) g
  | OpCtor t f => on_types (addCtorEdge t f) g
  | OpConv f t => on_types (addConvOpEdge f t) g
  end.

Definition replay_ops (g : GlobalIndex) (ops : list IndexOp) : GlobalIndex := foldl apply_op g ops.

(** * The abstract index *)

Record View := MkView {
  v_overloads : bytes -> list FunctionOverloadEntry;
  v_guides : bytes -> list DeductionGuideEntry;
  v_coverage : bytes -> list CoveragePropertyEntry;
  v_specializations : bytes -> list SpecializationEntry;
  v_odr : list OdrEntry;
  v_defaultArgs : list DefaultArgEntry;
  v_staticInits : list StaticInitEntry;
  v_summaries : list FunctionSummaryEntry;
  v_headerStatics : list HeaderStaticEntry;
  v_exceptionSpecs : list ExceptionSpecEntry;
  v_bases : bytes -> bytes -> Prop;
  v_ctors : bytes -> bytes -> Prop;
  v_convs : bytes -> bytes -> Prop
}.

Definition view (g : GlobalIndex) : View :=
  MkView (findOverloads g) (findDeductionGuides g) (findClassMethods g) (findSpecializations g) (gi_odrEntries g) (gi_defaultArgs g)
    (gi_staticInits g) (gi_functionSummaries g) (gi_headerStatics g) (gi_exceptionSpecs g)
    (base_of (gi_types g)) (ctor_from (gi_types g)) (converts_to (gi_types g)).

Definition empty_view : View :=
  MkView (fun _ => []) (fun _ => []) (fun _ => []) (fun _ => []) [] [] [] [] [] [] (fun _ _ => False) (fun _ _ => False) (fun _ _ => False).

(** The two indexes answer alike. *)
Record same_view (v w : View) : Prop := {
  sv_overloads : forall n, v_overloads v n = v_overloads w n;
  sv_guides : forall n, v_guides v n = v_guides w n;
  sv_coverage : forall n, v_coverage v n = v_coverage w n;
  sv_specializations : forall n, v_specializations v n = v_specializations w n;
  sv_odr : v_odr v = v_odr w;
  sv_defaultArgs : v_defaultArgs v = v_defaultArgs w;
  sv_staticInits : v_staticInits v = v_staticInits w;
  sv_summaries : v_summaries v = v_summaries w;
  sv_headerStatics : v_headerStatics v = v_headerStatics w;
  sv_exceptionSpecs : v_exceptionSpecs v = v_exceptionSpecs w;
  sv_bases : forall a b, v_bases v a b <-> v_bases w a b;
  sv_ctors : forall a b, v_ctors v a b <-> v_ctors w a b;
  sv_convs : forall a b, v_convs v a b <-> v_convs w a b
}.

#[global] Instance same_view_equiv : Equivalence same_view.
Proof.
  split.
  - intros v. by split.
  - intros v w []. by split.
  - intros u v w [] []. split; intros; etrans; eauto.
Qed.

Definition push {E} (l : list E) (e : E) : list E := l ++ [e].

(** A vector filed under a name changes, the others do not. *)
Definition file_at {E} (f : list E -> E -> list E) (name : bytes) (e : E) (m : bytes -> list E) (n : bytes) : list E :=
  if decide (n = name) then f (m n) e else m n.

Definition relate (a b : bytes) (r : bytes -> bytes -> Prop) (c d : bytes) : Prop := r c d \/ (c = a /\ d = b).

Definition spec_op (v : View) (op : IndexOp) : View :=
  let '(MkView ov gu co sp od da si su hs es ba ct cv) := v in
  match op with
  | OpOverload e => MkView (file_at push (fo_qualifiedName e) e ov) gu co sp od da si su hs es ba ct cv
  | OpGuide e => MkView ov (file_at push (dg_templateName e) e gu) co sp od da si su hs es ba ct cv
  | OpCoverage e => MkView ov gu (file_at push (cp_enclosingClass e) e co) sp od da si su hs es ba ct cv
  | OpSpecialization e => MkView ov gu co (file_at (upsert specialization_key merge_specialization) (sp_templateName e) e sp) od da si su hs es ba ct cv
  | OpOdr e => MkView ov gu co sp (upsert odr_key merge_odr od e) da si su hs es ba ct cv
  | OpDefaultArg e => MkView ov gu co sp od (upsert default_arg_key keep da e) si su hs es ba ct cv
  | OpStaticInit e => MkView ov gu co sp od da (upsert static_init_key keep si e) su hs es ba ct cv
  | OpSummary e => MkView ov gu co sp od da si (upsert fs_qualifiedName merge_summary su e) hs es ba ct cv
  | OpHeaderStatic e => MkView ov gu co sp od da si su (upsert header_static_key merge_header_static hs e) es ba ct cv
  | OpExceptionSpec e => MkView ov gu co sp od da si su hs (upsert exception_spec_key keep es e) ba ct cv
  | OpBase d b => MkView ov gu co sp od da si su hs es (relate d b ba) ct cv
  | OpCtor t f => MkView ov gu co sp od da si su hs es ba (relate t f ct) cv
  | OpConv f t => MkView ov gu co sp od da si su hs es ba ct (relate f t cv)
  end.

Definition spec_replay (v : View) (ops : list IndexOp) : View := foldl spec_op v ops.

(** * The invariant *)

(** Vectors are filed under the id of the name their entries have. *)
Definition filed_ok {E} (name_of : E -> bytes) (i : StringInterner) (m : gmap N (list E)) : Prop :=
  forall id v, m !! id = Some v -> v <> [] /\ exists s, resolve_opt i id = Some s /\ forall e, e ∈ v -> name_of e = s.

(** A vector without repeats and the set of its keys. *)
Record once_ok {E} (key : E -> bytes) (rows : list E) (keys : gset bytes) : Prop := {
  on_nodup : NoDup (key <$> rows);
  on_keys : forall k, k ∈ keys <-> k ∈ key <$> rows
}.

(** The first initializer of a name. *)
Definition first_named (rows : list StaticInitEntry) (n : bytes) : option (nat * StaticInitEntry) :=
  list_find (fun e => si_qualifiedName e = n) rows.

Record gi_ok (g : GlobalIndex) : Prop := {
  go_interner : interner_ok (gi_interner g);
  go_overloads : filed_ok fo_qualifiedName (gi_interner g) (gi_overloads g);
  go_guides : filed_ok dg_templateName (gi_interner g) (gi_guides g);
  go_coverage : filed_ok cp_enclosingClass (gi_interner g) (gi_coverageProps g);
  go_specializations : filed_ok sp_templateName (gi_interner g) (gi_specializations g);
  go_odr : keyed_rows odr_key (gi_odrEntries g) (gi_odrByKey g);
  go_defaultArgs : once_ok default_arg_key (gi_defaultArgs g) (gi_defaultArgKeys g);
  go_staticInits : once_ok static_init_key (gi_staticInits g) (gi_staticInitKeys g);
  go_staticByName : forall n, gi_staticInitByName g !! n = fst <$> first_named (gi_staticInits g) n;
  go_summaries : keyed_rows fs_qualifiedName (gi_functionSummaries g) (gi_functionSummaryByName g);
  go_headerStatics : keyed_rows header_static_key (gi_headerStatics g) (gi_headerStaticBySite g);
  go_exceptionSpecs : once_ok exception_spec_key (gi_exceptionSpecs g) (gi_exceptionSpecKeys g);
  go_types : types_ok (gi_types g)
}.

(** ** Filing under a name *)

Lemma filed_ok_extends {E} (name_of : E -> bytes) i i' m : extends i i' -> filed_ok name_of i m -> filed_ok name_of i' m.
Proof.
  intros He Hm id v Hv. destruct (Hm id v Hv) as (Hne & s & Hs & Hn). split; [done|]. exists s. split; [|done]. by eapply extends_resolve.
Qed.

(** Interning does not change what is filed. *)
Lemma filed_under_extends {E} (name_of : E -> bytes) i i' (m : gmap N (list E)) n :
  interner_ok i -> interner_ok i' -> extends i i' -> filed_ok name_of i m -> filed_under i' m n = filed_under i m n.
Proof.
  intros Hi Hi' He Hm. unfold filed_under. destruct (find i n) as [id|] eqn:En; [by rewrite (extends_find i i' n id)|].
  destruct (find i' n) as [id|] eqn:En'; [|done]. unfold vec_at. destruct (m !! id) as [v|] eqn:Ev; [|done].
  destruct (Hm id v Ev) as (_ & s & Hs & _). pose proof (extends_resolve _ _ _ _ He Hs) as H1.
  apply find_resolve in En'; [|done]. assert (s = n) as -> by congruence. apply resolve_find in Hs; [congruence|done].
Qed.

Lemma file_spec {E} (name_of : E -> bytes) (f : list E -> E -> list E) i i' id (m : gmap N (list E)) e :
  interner_ok i -> room 1 i -> filed_ok name_of i m -> intern i (name_of e) = (i', id) ->
  (forall l, f l e <> []) -> (forall l x, x ∈ f l e -> (forall y, y ∈ l -> name_of y = name_of e) -> name_of x = name_of e) ->
  filed_ok name_of i' (<[id := f (vec_at m id) e]> m) /\
  forall n, filed_under i' (<[id := f (vec_at m id) e]> m) n = file_at f (name_of e) e (filed_under i m) n.
Proof.
  intros Hi Hr Hm Hin Hne Hf. destruct (intern_spec _ _ _ _ Hin Hi Hr) as (Hi' & He & Hid & _). split.
  - intros id' v. rewrite lookup_insert. case_decide as E1; [subst id'; intros [= <-]|by intros ?%(filed_ok_extends _ _ _ _ He Hm)].
    split; [done|]. exists (name_of e). split; [done|]. intros x Hx. eapply Hf; [done|]. intros y Hy.
    unfold vec_at in Hy. destruct (m !! id) as [w|] eqn:Ew; [|by apply elem_of_nil in Hy].
    destruct (filed_ok_extends _ _ _ _ He Hm id w Ew) as (_ & s & Hs & Hall). rewrite (Hall y Hy). congruence.
  - intros n. unfold file_at. rewrite <- (filed_under_extends name_of i i' m n) by done. unfold filed_under.
    apply resolve_find in Hid; [|done]. case_decide as E1.
    + subst n. rewrite Hid, vec_at_insert. by rewrite decide_True.
    + destruct (find i' n) as [id'|] eqn:En; [|done]. rewrite vec_at_insert, decide_False; [done|].
      intros <-. apply find_resolve in Hid, En; [congruence|done|done].
Qed.

(** ** Keeping the first of a key *)

Lemma insert_once_spec {E} (key : E -> bytes) rows keys e : once_ok key rows keys ->
  let '(rows', keys') := insert_once (key e) e rows keys in
  rows' = upsert key keep rows e /\ once_ok key rows' keys'.
Proof.
  intros [Hnd Hk]. unfold insert_once. rewrite keep_hit. destruct (decide (key e ∈ keys)) as [Hin|Hin].
  - rewrite decide_True by (by apply Hk). by split.
  - rewrite decide_False by (by rewrite <- Hk). split; [done|]. split.
    + rewrite fmap_app. apply NoDup_app. split_and!; [done| |apply NoDup_singleton].
      intros k Hk1 ->%list_elem_of_singleton. by apply Hin, Hk.
    + intros k. rewrite elem_of_union, elem_of_singleton, Hk, fmap_app, elem_of_app, list_fmap_singleton, list_elem_of_singleton. tauto.
Qed.

Lemma first_named_snoc rows e n :
  first_named (rows ++ [e]) n =
  match first_named rows n with Some p => Some p | None => if decide (si_qualifiedName e = n) then Some (length rows, e) else None end.
Proof.
  unfold first_named. induction rows as [|x rows IH]; cbn.
  - by case_decide.
  - destruct (decide (si_qualifiedName x = n)); [done|]. rewrite IH. destruct (list_find _ rows) as [[]|]; [done|]. by case_decide.
Qed.

(** * Every call implements its specification *)

(** The names one call interns: one in the index, two in the type relations. *)
Definition has_room (k : nat) (g : GlobalIndex) : Prop := room k (gi_interner g) /\ room (2 * k) (ty_interner (gi_types g)).

(** What a call grows at most. *)
Definition grew (k : nat) (g g' : GlobalIndex) : Prop :=
  table_size (gi_interner g') <= table_size (gi_interner g) + k /\
  table_size (ty_interner (gi_types g')) <= table_size (ty_interner (gi_types g)) + 2 * k.

Definition implements_op (g g' : GlobalIndex) (op : IndexOp) : Prop :=
  gi_ok g' /\ same_view (view g') (spec_op (view g) op) /\ grew 1 g g'.

Lemma filed_frame {E} (name_of : E -> bytes) i s i' id (m : gmap N (list E)) n :
  interner_ok i -> room 1 i -> intern i s = (i', id) -> filed_ok name_of i m -> filed_under i' m n = filed_under i m n.
Proof. intros Hi Hr Hin Hm. destruct (intern_spec _ _ _ _ Hin Hi Hr) as (Hi' & He & _). by eapply filed_under_extends. Qed.

Lemma push_nonempty {E} (e : E) l : push l e <> [].
Proof. unfold push. by destruct l. Qed.

Lemma push_named {E} (name_of : E -> bytes) e l x :
  x ∈ push l e -> (forall y, y ∈ l -> name_of y = name_of e) -> name_of x = name_of e.
Proof. unfold push. intros [?| ->%list_elem_of_singleton]%elem_of_app; auto. Qed.

Lemma upsert_specialization_named e l x :
  x ∈ upsert specialization_key merge_specialization l e ->
  (forall y, y ∈ l -> sp_templateName y = sp_templateName e) -> sp_templateName x = sp_templateName e.
Proof.
  induction l as [|y l IH]; cbn; intros Hx Hl; [by apply list_elem_of_singleton in Hx as ->|]. case_decide.
  - apply elem_of_cons in Hx as [->|Hx]; [|apply Hl; by right]. unfold merge_specialization. case_match; cbn; apply Hl; left.
  - apply elem_of_cons in Hx as [->|Hx]; [apply Hl; left|]. apply IH; [done|]. intros; apply Hl; by right.
Qed.

Lemma upsert_nonempty {E K} `{HK : Countable K} (key : E -> K) (merge : E -> E -> E) (e : E) l : upsert key merge l e <> [].
Proof. destruct l; cbn; [done|]. by case_decide. Qed.

Lemma push_back_file {E} (k : N) (e : E) m : push_back k e m = <[k := push (vec_at m k) e]> m.
Proof. done. Qed.

(** The calls that file an entry under a name. *)
Ltac filing :=
  intros [? ? ? ? ? ? ? ? ? ? ? ? ?] [Hr _]; unfold implements_op;
  lazymatch goal with |- context [intern ?i ?s] => destruct (intern i s) as [i' id] eqn:? end; rewrite ?push_back_file;
  lazymatch goal with Hi : interner_ok _, Hn : intern _ _ = _, Hr : room 1 _ |- _ => pose proof (intern_spec _ _ _ _ Hn Hi Hr) as (? & ? & ? & ?) end;
  lazymatch goal with
  | Hr : room 1 _, Hn : intern ?i (?name ?e) = _, Hi : interner_ok ?i, Hm : filed_ok ?name _ ?m |- context [<[_ := ?f (vec_at ?m _) ?e]> ?m] =>
      destruct (file_spec name f _ _ _ m e Hi Hr Hm Hn) as [? ?]
  end;
  [intros; first [apply push_nonempty|apply upsert_nonempty]|intros; first [by eapply push_named|by eapply upsert_specialization_named]|];
  split_and!; [split; cbn; eauto using filed_ok_extends| |split; cbn; lia];
  split; cbn; intros; try done; unfold findOverloads, findDeductionGuides, findClassMethods, findSpecializations; cbn;
  try (by eapply filed_frame); auto.

Lemma addFunctionOverload_implements e g : gi_ok g -> has_room 1 g -> implements_op g (addFunctionOverload e g) (OpOverload e).
Proof. unfold addFunctionOverload. filing. Qed.
Lemma addDeductionGuide_implements e g : gi_ok g -> has_room 1 g -> implements_op g (addDeductionGuide e g) (OpGuide e).
Proof. unfold addDeductionGuide. filing. Qed.
Lemma addCoverageProperty_implements e g : gi_ok g -> has_room 1 g -> implements_op g (addCoverageProperty e g) (OpCoverage e).
Proof. unfold addCoverageProperty. filing. Qed.
Lemma addSpecialization_implements e g : gi_ok g -> has_room 1 g -> implements_op g (addSpecialization e g) (OpSpecialization e).
Proof. unfold addSpecialization. filing. Qed.

(** The calls on a vector with its own key index. *)
Ltac tabling :=
  intros [? ? ? ? ? ? ? ? ? ? ? ? ?] _; unfold implements_op;
  lazymatch goal with |- context [upsert_at ?merge (?key ?e) ?e (?rows, ?byKey)] =>
    destruct (upsert_at_spec key merge rows byKey e) as [? ?]; [done|]; destruct (upsert_at merge (key e) e (rows, byKey)) eqn:?
  end; cbn in *; subst; (split; [by split|split; [by split|split; cbn; lia]]).

Lemma addOdrEntry_implements e g : gi_ok g -> has_room 1 g -> implements_op g (addOdrEntry e g) (OpOdr e).
Proof. unfold addOdrEntry. tabling. Qed.
Lemma addFunctionSummary_implements e g : gi_ok g -> has_room 1 g -> implements_op g (addFunctionSummary e g) (OpSummary e).
Proof. unfold addFunctionSummary. tabling. Qed.
Lemma addHeaderStatic_implements e g : gi_ok g -> has_room 1 g -> implements_op g (addHeaderStatic e g) (OpHeaderStatic e).
Proof. unfold addHeaderStatic. tabling. Qed.

Lemma addDefaultArg_implements e g : gi_ok g -> has_room 1 g -> implements_op g (addDefaultArg e g) (OpDefaultArg e).
Proof. unfold addDefaultArg. intros [? ? ? ? ? ? Ho ? ? ? ? ? ?] _. unfold implements_op. pose proof (insert_once_spec _ _ _ e Ho) as Hs.
  destruct (insert_once (default_arg_key e) e _ _) as [rows keys]. destruct Hs as [-> Hs].
  split; [by split|split; [by split|split; cbn; lia]].
Qed.
Lemma addExceptionSpec_implements e g : gi_ok g -> has_room 1 g -> implements_op g (addExceptionSpec e g) (OpExceptionSpec e).
Proof. unfold addExceptionSpec. intros [? ? ? ? ? ? ? ? ? ? ? Ho ?] _. unfold implements_op. pose proof (insert_once_spec _ _ _ e Ho) as Hs.
  destruct (insert_once (exception_spec_key e) e _ _) as [rows keys]. destruct Hs as [-> Hs].
  split; [by split|split; [by split|split; cbn; lia]].
Qed.

Lemma addStaticInit_implements e g : gi_ok g -> has_room 1 g -> implements_op g (addStaticInit e g) (OpStaticInit e).
Proof.
  intros Hok _. pose proof Hok as [? ? ? ? ? ? ? Ho Hn ? ? ? ?]. pose proof (insert_once_spec _ _ _ e Ho) as Hs.
  unfold addStaticInit, implements_op, insert_once in *. destruct (decide (static_init_key e ∈ _)) as [Hin|Hin]; destruct Hs as [Hs Ho'].
  - split; [done|split; [by split|split; lia]].
  - split; [|split; [by split|split; cbn; lia]]. split; try done. intros n. cbn [gi_staticInitByName gi_staticInits].
    rewrite first_named_snoc, length_app, Nat.add_sub.
    unfold emplace_at. rewrite Hn. destruct (first_named (gi_staticInits g) (si_qualifiedName e)) as [p|] eqn:E1; cbn.
    + rewrite Hn. destruct (first_named (gi_staticInits g) n) eqn:E2; [done|]. rewrite decide_False; [done|]. congruence.
    + rewrite lookup_insert, Hn. case_decide as E2; [subst n; by rewrite E1|]. by destruct (first_named _ n).
Qed.

Ltac relating L :=
  intros Hok [_ Hr]; pose proof Hok as [? ? ? ? ? ? ? ? ? ? ? ? Ht];
  lazymatch goal with |- context [on_types (?add ?a ?b) ?g] => destruct (L a b (gi_types g) Ht) as [? ? ? ? ?] end;
  [by apply (room_weaken 2)|]; (split; [by split|split; [|split; cbn; lia]]);
  split; cbn; intros; try done; unfold relate;
  match goal with H : forall c d, ?R _ c d <-> _ |- ?R _ _ _ <-> _ => rewrite H end; cbn; tauto.

Lemma op_implements op g : gi_ok g -> has_room 1 g -> implements_op g (apply_op g op) op.
Proof.
  destruct op as [e|e|e|e|e|e|e|e|e|e|a b|a b|a b]; cbn [apply_op].
  - apply addFunctionOverload_implements.
  - apply addDeductionGuide_implements.
  - apply addCoverageProperty_implements.
  - apply addOdrEntry_implements.
  - apply addSpecialization_implements.
  - apply addDefaultArg_implements.
  - apply addStaticInit_implements.
  - apply addFunctionSummary_implements.
  - apply addHeaderStatic_implements.
  - apply addExceptionSpec_implements.
  - relating addBase_spec.
  - relating addCtorEdge_spec.
  - relating addConvOpEdge_spec.
Qed.
