(* ===== verification/GlobalIndexTheorems.v ===== *)
(** The global index as a whole: a sequence of calls implements its specification, and
    absorbing a shard is replaying the calls that built it. *)

From S2P Require Import Prelude StringInterner CallGraphMerge Results Upsert GlobalIndex GlobalIndexCorrect.

(** * Sequences of calls *)

Lemma spec_op_same v w op : same_view v w -> same_view (spec_op v op) (spec_op w op).
Proof.
  destruct v, w. intros [? ? ? ? ? ? ? ? ? ? Hb Hc Hv]. cbn in *. subst. destruct op; cbn; split; cbn; intros; unfold file_at, relate; first
    [by auto|by rewrite Hb|by rewrite Hc|by rewrite Hv|case_decide; congruence].
Qed.

Lemma spec_replay_same v w ops : same_view v w -> same_view (spec_replay v ops) (spec_replay w ops).
Proof. revert v w. induction ops as [|op ops IH]; intros v w H; [done|]. apply IH. by apply spec_op_same. Qed.

Lemma has_room_grew k j g g' : has_room (k + j) g -> grew k g g' -> has_room j g'.
Proof. unfold has_room, grew, room. lia. Qed.

Lemma replay_implements ops g : gi_ok g -> has_room (length ops) g ->
  gi_ok (replay_ops g ops) /\ same_view (view (replay_ops g ops)) (spec_replay (view g) ops) /\ grew (length ops) g (replay_ops g ops).
Proof.
  revert g. induction ops as [|op ops IH]; intros g Hok Hr.
  { split_and!; [done|reflexivity|]. split; cbn; lia. }
  destruct (op_implements op g Hok) as (Hok1 & Hv & Hg); [split; eapply room_weaken; [|apply Hr| |apply Hr]; cbn; lia|].
  destruct (IH _ Hok1) as (Hok2 & Hv2 & Hg2); [by apply (has_room_grew 1 _ g)|].
  change (replay_ops g (op :: ops)) with (replay_ops (apply_op g op) ops). split_and!; [done| |].
  - etrans; [done|]. change (spec_replay (view g) (op :: ops)) with (spec_replay (spec_op (view g) op) ops). by apply spec_replay_same.
  - unfold grew in *. cbn [length]. lia.
Qed.

(** The entries of one kind among the calls. *)
Section Kinds.
Context {E : Type} (sel : IndexOp -> option E).

(** A component that only the calls of its kind change. *)
Lemma spec_replay_list (get : View -> list E) (f : list E -> E -> list E) v ops :
  (forall v op, get (spec_op v op) = match sel op with Some e => f (get v) e | None => get v end) ->
  get (spec_replay v ops) = foldl f (get v) (omap sel ops).
Proof.
  intros H. revert v. induction ops as [|op ops IH]; intros v; [done|]. cbn. fold (spec_replay (spec_op v op) ops). rewrite IH, H.
  by destruct (sel op).
Qed.

Lemma spec_replay_filed (name_of : E -> bytes) (get : View -> bytes -> list E) (f : list E -> E -> list E) v ops n :
  (forall v op, get (spec_op v op) n = match sel op with Some e => file_at f (name_of e) e (get v) n | None => get v n end) ->
  get (spec_replay v ops) n = foldl f (get v n) (filter (fun e => name_of e = n) (omap sel ops)).
Proof.
  intros H. revert v. induction ops as [|op ops IH]; intros v; [done|]. cbn. fold (spec_replay (spec_op v op) ops). rewrite IH, H.
  destruct (sel op) as [e|]; [|done]. unfold file_at. rewrite filter_cons. destruct (decide (name_of e = n)) as [E1|E1].
  - rewrite decide_True by done. done.
  - by rewrite decide_False by congruence.
Qed.
End Kinds.

Lemma spec_replay_rel (sel : IndexOp -> option (bytes * bytes)) (get : View -> bytes -> bytes -> Prop) v ops a b :
  (forall v op, get (spec_op v op) a b <-> get v a b \/ sel op = Some (a, b)) ->
  get (spec_replay v ops) a b <-> get v a b \/ (a, b) ∈ omap sel ops.
Proof.
  intros H. revert v. induction ops as [|op ops IH]; intros v; cbn; [rewrite elem_of_nil; tauto|].
  fold (spec_replay (spec_op v op) ops). rewrite IH, H. destruct (sel op) as [[c d]|]; [|naive_solver].
  rewrite elem_of_cons. naive_solver.
Qed.

Lemma push_all {E} (l k : list E) : foldl push l k = l ++ k.
Proof. revert l. induction k as [|e k IH]; intros l; cbn; [by rewrite app_nil_r|]. rewrite IH. unfold push. by rewrite <- app_assoc. Qed.

Definition overload_of (op : IndexOp) := match op with OpOverload e => Some e | _ => None end.
Definition guide_of (op : IndexOp) := match op with OpGuide e => Some e | _ => None end.
Definition coverage_of (op : IndexOp) := match op with OpCoverage e => Some e | _ => None end.
Definition specialization_of (op : IndexOp) := match op with OpSpecialization e => Some e | _ => None end.
Definition odr_of (op : IndexOp) := match op with OpOdr e => Some e | _ => None end.
Definition defaultArg_of (op : IndexOp) := match op with OpDefaultArg e => Some e | _ => None end.
Definition staticInit_of (op : IndexOp) := match op with OpStaticInit e => Some e | _ => None end.
Definition summaryEntry_of (op : IndexOp) := match op with OpSummary e => Some e | _ => None end.
Definition headerStatic_of (op : IndexOp) := match op with OpHeaderStatic e => Some e | _ => None end.
Definition exceptionSpec_of (op : IndexOp) := match op with OpExceptionSpec e => Some e | _ => None end.
Definition baseEdge_of (op : IndexOp) := match op with OpBase a b => Some (a, b) | _ => None end.
Definition ctorEdge_of (op : IndexOp) := match op with OpCtor a b => Some (a, b) | _ => None end.
Definition convEdge_of (op : IndexOp) := match op with OpConv a b => Some (a, b) | _ => None end.

(** The abstract index after some calls, one component at a time. *)
Definition view_after (v : View) (ops : list IndexOp) : View := {|
  v_overloads n := v_overloads v n ++ filter (fun e => fo_qualifiedName e = n) (omap overload_of ops);
  v_guides n := v_guides v n ++ filter (fun e => dg_templateName e = n) (omap guide_of ops);
  v_coverage n := v_coverage v n ++ filter (fun e => cp_enclosingClass e = n) (omap coverage_of ops);
  v_specializations n :=
    upsert_all specialization_key merge_specialization (v_specializations v n) (filter (fun e => sp_templateName e = n) (omap specialization_of ops));
  v_odr := upsert_all odr_key merge_odr (v_odr v) (omap odr_of ops);
  v_defaultArgs := upsert_all default_arg_key keep (v_defaultArgs v) (omap defaultArg_of ops);
  v_staticInits := upsert_all static_init_key keep (v_staticInits v) (omap staticInit_of ops);
  v_summaries := upsert_all fs_qualifiedName merge_summary (v_summaries v) (omap summaryEntry_of ops);
  v_headerStatics := upsert_all header_static_key merge_header_static (v_headerStatics v) (omap headerStatic_of ops);
  v_exceptionSpecs := upsert_all exception_spec_key keep (v_exceptionSpecs v) (omap exceptionSpec_of ops);
  v_bases a b := v_bases v a b \/ (a, b) ∈ omap baseEdge_of ops;
  v_ctors a b := v_ctors v a b \/ (a, b) ∈ omap ctorEdge_of ops;
  v_convs a b := v_convs v a b \/ (a, b) ∈ omap convEdge_of ops
|}.

Lemma spec_replay_after v ops : same_view (spec_replay v ops) (view_after v ops).
Proof.
  split; intros; cbn.
  - rewrite <- push_all. apply (spec_replay_filed overload_of fo_qualifiedName v_overloads push). by intros [] [].
  - rewrite <- push_all. apply (spec_replay_filed guide_of dg_templateName v_guides push). by intros [] [].
  - rewrite <- push_all. apply (spec_replay_filed coverage_of cp_enclosingClass v_coverage push). by intros [] [].
  - apply (spec_replay_filed specialization_of sp_templateName v_specializations). by intros [] [].
  - apply (spec_replay_list odr_of v_odr). by intros [] [].
  - apply (spec_replay_list defaultArg_of v_defaultArgs). by intros [] [].
  - apply (spec_replay_list staticInit_of v_staticInits). by intros [] [].
  - apply (spec_replay_list summaryEntry_of v_summaries). by intros [] [].
  - apply (spec_replay_list headerStatic_of v_headerStatics). by intros [] [].
  - apply (spec_replay_list exceptionSpec_of v_exceptionSpecs). by intros [] [].
  - apply (spec_replay_rel baseEdge_of v_bases). intros [] []; cbn; unfold relate; naive_solver.
  - apply (spec_replay_rel ctorEdge_of v_ctors). intros [] []; cbn; unfold relate; naive_solver.
  - apply (spec_replay_rel convEdge_of v_convs). intros [] []; cbn; unfold relate; naive_solver.
Qed.

(** * A shard as calls *)

Section Absorb.
Context `{HI : !UnorderedIter}.

Definition shard_ops (s : GlobalIndex) : list IndexOp :=
  (OpOverload <$> filed_entries (gi_overloads s)) ++ (OpGuide <$> filed_entries (gi_guides s)) ++
  (OpCoverage <$> filed_entries (gi_coverageProps s)) ++ (OpOdr <$> gi_odrEntries s) ++
  (OpSpecialization <$> filed_entries (gi_specializations s)) ++ (OpDefaultArg <$> gi_defaultArgs s) ++
  (OpStaticInit <$> gi_staticInits s) ++ (OpSummary <$> gi_functionSummaries s) ++ (OpHeaderStatic <$> gi_headerStatics s) ++
  (OpExceptionSpec <$> gi_exceptionSpecs s) ++ ((fun e => OpBase e.1 e.2) <$> forEachBase (gi_types s)) ++
  ((fun e => OpCtor e.1 e.2) <$> forEachCtorEdge (gi_types s)) ++ ((fun e => OpConv e.1 e.2) <$> forEachConvOpEdge (gi_types s)).

Lemma replay_app g a b : replay_ops g (a ++ b) = replay_ops (replay_ops g a) b.
Proof. apply foldl_app. Qed.

Lemma replay_fmap {E} (op : E -> IndexOp) (f : GlobalIndex -> E -> GlobalIndex) g l :
  (forall g e, apply_op g (op e) = f g e) -> replay_ops g (op <$> l) = foldl f g l.
Proof. intros H. revert g. induction l as [|e l IH]; intros g; [done|]. unfold replay_ops in *. cbn. by rewrite H, IH. Qed.

Lemma replay_types {E} (op : E -> IndexOp) (f : TypeRelationIndex -> E -> TypeRelationIndex) g l :
  (forall g e, apply_op g (op e) = on_types (fun t => f t e) g) -> replay_ops g (op <$> l) = on_types (fun t => foldl f t l) g.
Proof. intros H. revert g. induction l as [|e l IH]; intros g; [by destruct g|]. unfold replay_ops in *. cbn. by rewrite H, IH. Qed.

(** [absorb] makes the calls of the shard. *)
Lemma absorb_replays g s : absorb_index g s = replay_ops g (shard_ops s).
Proof.
  unfold shard_ops. rewrite !replay_app.
  rewrite (replay_types (fun e => OpConv e.1 e.2) (fun t e => addConvOpEdge e.1 e.2 t)) by done.
  rewrite (replay_types (fun e => OpCtor e.1 e.2) (fun t e => addCtorEdge e.1 e.2 t)) by done.
  rewrite (replay_types (fun e => OpBase e.1 e.2) (fun t e => addBase e.1 e.2 t)) by done.
  rewrite (replay_fmap OpExceptionSpec (fun g e => addExceptionSpec e g)) by done.
  rewrite (replay_fmap OpHeaderStatic (fun g e => addHeaderStatic e g)) by done.
  rewrite (replay_fmap OpSummary (fun g e => addFunctionSummary e g)) by done.
  rewrite (replay_fmap OpStaticInit (fun g e => addStaticInit e g)) by done.
  rewrite (replay_fmap OpDefaultArg (fun g e => addDefaultArg e g)) by done.
  rewrite (replay_fmap OpSpecialization (fun g e => addSpecialization e g)) by done.
  rewrite (replay_fmap OpOdr (fun g e => addOdrEntry e g)) by done.
  rewrite (replay_fmap OpCoverage (fun g e => addCoverageProperty e g)) by done.
  rewrite (replay_fmap OpGuide (fun g e => addDeductionGuide e g)) by done.
  rewrite (replay_fmap OpOverload (fun g e => addFunctionOverload e g)) by done. reflexivity.
Qed.

Lemma omap_app_split {A B} (f : A -> option B) (l k : list A) : omap f (l ++ k) = omap f l ++ omap f k.
Proof. induction l as [|a l IH]; [done|]. cbn. destruct (f a); [cbn; by f_equal|done]. Qed.

Lemma omap_fmap_none {A B C} (f : A -> option B) (g : C -> A) (l : list C) : (forall c, f (g c) = None) -> omap f (g <$> l) = [].
Proof. intros H. induction l as [|c l IH]; [done|]. cbn. by rewrite H. Qed.

Lemma omap_fmap_some {A B} (f : A -> option B) (g : B -> A) (l : list B) : (forall c, f (g c) = Some c) -> omap f (g <$> l) = l.
Proof. intros H. induction l as [|c l IH]; [done|]. cbn. rewrite H. by f_equal. Qed.

Ltac sel_tac := unfold shard_ops; rewrite !omap_app_split; repeat first
  [rewrite omap_fmap_none by done|rewrite omap_fmap_some by (done || by intros [])]; cbn [app]; by rewrite ?app_nil_r.

Lemma shard_overloads s : omap overload_of (shard_ops s) = filed_entries (gi_overloads s). Proof. sel_tac. Qed.
Lemma shard_guides s : omap guide_of (shard_ops s) = filed_entries (gi_guides s). Proof. sel_tac. Qed.
Lemma shard_coverage s : omap coverage_of (shard_ops s) = filed_entries (gi_coverageProps s). Proof. sel_tac. Qed.
Lemma shard_specializations s : omap specialization_of (shard_ops s) = filed_entries (gi_specializations s). Proof. sel_tac. Qed.
Lemma shard_odr s : omap odr_of (shard_ops s) = gi_odrEntries s. Proof. sel_tac. Qed.
Lemma shard_defaultArgs s : omap defaultArg_of (shard_ops s) = gi_defaultArgs s. Proof. sel_tac. Qed.
Lemma shard_staticInits s : omap staticInit_of (shard_ops s) = gi_staticInits s. Proof. sel_tac. Qed.
Lemma shard_summaries s : omap summaryEntry_of (shard_ops s) = gi_functionSummaries s. Proof. sel_tac. Qed.
Lemma shard_headerStatics s : omap headerStatic_of (shard_ops s) = gi_headerStatics s. Proof. sel_tac. Qed.
Lemma shard_exceptionSpecs s : omap exceptionSpec_of (shard_ops s) = gi_exceptionSpecs s. Proof. sel_tac. Qed.
Lemma shard_bases s : omap baseEdge_of (shard_ops s) = forEachBase (gi_types s). Proof. sel_tac. Qed.
Lemma shard_ctors s : omap ctorEdge_of (shard_ops s) = forEachCtorEdge (gi_types s). Proof. sel_tac. Qed.
Lemma shard_convs s : omap convEdge_of (shard_ops s) = forEachConvOpEdge (gi_types s). Proof. sel_tac. Qed.

Lemma filter_nobody {A} (P : A -> Prop) `{!forall x, Decision (P x)} (l : list A) : (forall x, x ∈ l -> ~ P x) -> filter P l = [].
Proof.
  induction l as [|x l IH]; intros H'; [done|]. rewrite filter_cons_False by (apply H'; left). apply IH. intros y Hy. apply H'. by right.
Qed.

(** The entries of a name, among the entries of all names. *)
Lemma filed_entries_named {E} (name_of : E -> bytes) i (m : gmap N (list E)) n : interner_ok i -> filed_ok name_of i m ->
  filter (fun e => name_of e = n) (filed_entries m) = filed_under i m n.
Proof.
  intros Hi Hm. unfold filed_entries.
  assert (Hkv : forall kv, kv ∈ map_iter m -> m !! kv.1 = Some kv.2) by (intros [k v] H; by apply elem_of_map_iter in H).
  assert (Hall : forall id, find i n = Some id -> forall v, m !! id = Some v -> (id, v) ∈ map_iter m) by (intros; by apply elem_of_map_iter).
  assert (Hnd : NoDup (map_iter m).*1) by (rewrite map_iter_perm; apply NoDup_fst_map_to_list).
  assert (Hpart : forall l, (forall kv, kv ∈ l -> m !! kv.1 = Some kv.2) -> NoDup l.*1 ->
    filter (fun e => name_of e = n) (l ≫= snd) = match find i n with Some id => if decide (id ∈ l.*1) then vec_at m id else [] | None => [] end).
  { induction l as [|[k v] l IH]; intros Hl Hn; cbn [mbind list_bind].
    { destruct (find i n); [|done]. by rewrite decide_False by apply not_elem_of_nil. }
    assert (Hv : m !! k = Some v) by (apply (Hl (k, v)); left). destruct (Hm k v Hv) as (_ & s & Hs & Hname).
    rewrite filter_app. cbn in Hn. apply NoDup_cons in Hn as [Hk Hn]. rewrite IH by (try done; intros; apply Hl; by right). cbn [fst snd fmap list_fmap].
    destruct (decide (s = n)) as [->|Hsn].
    - rewrite (filter_id _ v) by done. rewrite (resolve_find i n k) by done. rewrite decide_False by done.
      rewrite decide_True by left. rewrite app_nil_r. unfold vec_at. by rewrite Hv.
    - replace (filter (fun e => name_of e = n) v) with (@nil E).
      + cbn [app]. destruct (find i n) as [id|] eqn:En; [|done]. assert (id <> k) by (intros ->; apply find_resolve in En; [congruence|done]).
        destruct (decide (id ∈ l.*1)) as [Hid|Hid]; [by rewrite decide_True by (by right)|]. rewrite decide_False; [done|].
        by rewrite elem_of_cons; intros [].
      + symmetry. apply filter_nobody. intros e He E1. rewrite (Hname e He) in E1. done. }
  rewrite Hpart by done. unfold filed_under. destruct (find i n) as [id|] eqn:En; [|done]. destruct (decide (id ∈ _)) as [|Hid]; [done|].
  unfold vec_at. destruct (m !! id) as [v|] eqn:Ev; [|done]. destruct Hid. apply list_elem_of_fmap. exists (id, v). split; [done|by eapply Hall].
Qed.

Lemma named_edges_iff t m a b : edges_known (ty_interner t) m -> (a, b) ∈ named_edges t m <-> names_edge (ty_interner t) m a b.
Proof.
  intros Hk. unfold named_edges, names_edge. rewrite list_elem_of_bind. split.
  - intros ([k v] & (y & [= -> ->] & Hy)%list_elem_of_fmap & Hkv%elem_of_map_iter). cbn in *.
    assert (Hin : y ∈ vec_at m k) by (unfold vec_at; by rewrite Hkv). destruct (Hk k y Hin) as [[a' Ha] [b' Hb]].
    exists k, y. unfold resolve. rewrite Ha, Hb. done.
  - intros (x & y & Ha & Hb & Hin). unfold vec_at in Hin. destruct (m !! x) as [v|] eqn:Ev; [|by apply elem_of_nil in Hin].
    exists (x, v). split; [|by apply elem_of_map_iter]. apply list_elem_of_fmap. exists y. split; [|done]. cbn.
    by rewrite (resolve_of_opt _ _ _ Ha), (resolve_of_opt _ _ _ Hb).
Qed.

(** ** How many calls a shard is *)

Lemma edge_total_insert {A} (m : gmap N (list A)) k v : edge_total (<[k := v]> m) + length (vec_at m k) = edge_total m + length v.
Proof.
  assert (Hd : forall (m : gmap N (list A)) w, m !! k = Some w -> edge_total m = length w + edge_total (delete k m)).
  { intros m' w Hw. unfold edge_total. rewrite (map_fold_delete_L _ _ k w m'); [done|intros; lia|done]. }
  rewrite (Hd (<[k := v]> m) v) by apply lookup_insert_eq. rewrite delete_insert_eq. unfold vec_at.
  destruct (m !! k) as [w|] eqn:E1; cbn; [rewrite (Hd m w) by done; lia|rewrite delete_id by done; lia].
Qed.

Lemma edge_total_perm {A} (l : list (N * list A)) (m : gmap N (list A)) : l ≡ₚ map_to_list m ->
  length (kv ← l; kv.2) = edge_total m.
Proof.
  intros H. unfold edge_total. rewrite map_fold_foldr.
  assert (E1 : forall l : list (N * list A), length (kv ← l; kv.2) = foldr (fun kv n => length kv.2 + n) 0 l).
  { clear. induction l as [|kv l IH]; [done|]. rewrite bind_cons, length_app, IH. done. }
  rewrite E1. rewrite (foldr_sum_perm (fun kv => length kv.2) l (map_to_list m)) by done.
  clear H E1. induction (map_to_list m) as [|[k v] l' IH]; [done|]. cbn in *. by rewrite IH.
Qed.

Lemma filed_entries_length {A} (m : gmap N (list A)) : length (filed_entries m) = edge_total m.
Proof. apply edge_total_perm, map_iter_perm. Qed.

Lemma named_edges_length t m : length (named_edges t m) = edge_total m.
Proof.
  rewrite <- (filed_entries_length m). unfold named_edges, filed_entries. induction (map_iter m) as [|kv l IH]; [done|].
  rewrite !bind_cons, !length_app, length_fmap, IH. done.
Qed.

Lemma shard_ops_length s : length (shard_ops s) =
  edge_total (gi_overloads s) + edge_total (gi_guides s) + edge_total (gi_coverageProps s) + length (gi_odrEntries s) +
  edge_total (gi_specializations s) + length (gi_defaultArgs s) + length (gi_staticInits s) + length (gi_functionSummaries s) +
  length (gi_headerStatics s) + length (gi_exceptionSpecs s) + edge_total (ty_bases (gi_types s)) +
  edge_total (ty_ctorEdges (gi_types s)) + edge_total (ty_convOpEdges (gi_types s)).
Proof.
  unfold shard_ops, forEachBase, forEachCtorEdge, forEachConvOpEdge. rewrite !length_app, !length_fmap, !named_edges_length, !filed_entries_length. lia.
Qed.

Lemma upsert_length {E K} `{HK : Countable K} (key : E -> K) merge (l : list E) e : length (upsert key merge l e) <= S (length l).
Proof. induction l as [|x l IH]; cbn; [lia|]. case_decide; cbn; lia. Qed.

Lemma upsert_at_length {E K} `{HK : Countable K} merge (k : K) (e : E) rows byKey :
  length (upsert_at merge k e (rows, byKey)).1 <= S (length rows).
Proof. unfold upsert_at. destruct (byKey !! k); cbn; [rewrite length_alter|rewrite length_app; cbn]; lia. Qed.

Lemma push_unique_total k v (m : gmap N (list N)) : edge_total (push_unique k v m) <= S (edge_total m).
Proof.
  unfold push_unique. pose proof (edge_total_insert m k (if decide (v ∈ vec_at m k) then vec_at m k else vec_at m k ++ [v])) as H.
  case_decide; rewrite ?length_app in *; cbn in *; lia.
Qed.

(** A call adds at most one entry. *)
Lemma op_length g op : length (shard_ops (apply_op g op)) <= S (length (shard_ops g)).
Proof.
  rewrite !shard_ops_length. destruct op as [e|e|e|e|e|e|e|e|e|e|a b|a b|a b]; cbn [apply_op].
  - unfold addFunctionOverload. destruct (intern _ _) as [i k]. cbn. pose proof (edge_total_insert (gi_overloads g) k (vec_at (gi_overloads g) k ++ [e])) as H.
    unfold push_back. rewrite length_app in H. cbn in H. lia.
  - unfold addDeductionGuide. destruct (intern _ _) as [i k]. cbn. pose proof (edge_total_insert (gi_guides g) k (vec_at (gi_guides g) k ++ [e])) as H.
    unfold push_back. rewrite length_app in H. cbn in H. lia.
  - unfold addCoverageProperty. destruct (intern _ _) as [i k]. cbn.
    pose proof (edge_total_insert (gi_coverageProps g) k (vec_at (gi_coverageProps g) k ++ [e])) as H.
    unfold push_back. rewrite length_app in H. cbn in H. lia.
  - unfold addOdrEntry. pose proof (upsert_at_length merge_odr (odr_key e) e (gi_odrEntries g) (gi_odrByKey g)).
    destruct (upsert_at _ _ _ _). cbn in *. lia.
  - unfold addSpecialization. destruct (intern _ _) as [i k]. cbn.
    pose proof (edge_total_insert (gi_specializations g) k (upsert specialization_key merge_specialization (vec_at (gi_specializations g) k) e)) as H.
    pose proof (upsert_length specialization_key merge_specialization (vec_at (gi_specializations g) k) e). lia.
  - unfold addDefaultArg, insert_once. case_decide; cbn; rewrite ?length_app; cbn; lia.
  - unfold addStaticInit. case_decide; cbn; rewrite ?length_app; cbn; lia.
  - unfold addFunctionSummary. pose proof (upsert_at_length merge_summary (fs_qualifiedName e) e (gi_functionSummaries g) (gi_functionSummaryByName g)).
    destruct (upsert_at _ _ _ _). cbn in *. lia.
  - unfold addHeaderStatic. pose proof (upsert_at_length merge_header_static (header_static_key e) e (gi_headerStatics g) (gi_headerStaticBySite g)).
    destruct (upsert_at _ _ _ _). cbn in *. lia.
  - unfold addExceptionSpec, insert_once. case_decide; cbn; rewrite ?length_app; cbn; lia.
  - unfold addBase. unfold on_types. destruct (intern (ty_interner (gi_types g)) a) as [i1 x]. destruct (intern i1 b) as [i2 y]. cbn. pose proof (push_unique_total x y (ty_bases (gi_types g))). lia.
  - unfold addCtorEdge. unfold on_types. destruct (intern (ty_interner (gi_types g)) a) as [i1 x]. destruct (intern i1 b) as [i2 y]. cbn. pose proof (push_unique_total x y (ty_ctorEdges (gi_types g))). lia.
  - unfold addConvOpEdge. unfold on_types. destruct (intern (ty_interner (gi_types g)) a) as [i1 x]. destruct (intern i1 b) as [i2 y]. cbn. pose proof (push_unique_total x y (ty_convOpEdges (gi_types g))). lia.
Qed.

Lemma replay_length g ops : length (shard_ops (replay_ops g ops)) <= length (shard_ops g) + length ops.
Proof.
  revert g. induction ops as [|op ops IH]; intros g; [cbn; lia|]. change (replay_ops g (op :: ops)) with (replay_ops (apply_op g op) ops).
  pose proof (IH (apply_op g op)). pose proof (op_length g op). cbn [length]. lia.
Qed.
End Absorb.

(** * The same answers *)

Lemma empty_global_index_ok : gi_ok empty_global_index.
Proof.
  split; cbn; first [apply empty_ok|apply empty_types_ok|apply indexed_nil|by intros ?; rewrite lookup_empty|idtac];
    try (by intros id v; rewrite lookup_empty); (split; [constructor|by intros k; rewrite elem_of_empty, elem_of_nil]).
Qed.

Lemma empty_view_same : same_view (view empty_global_index) empty_view.
Proof.
  split; cbn; try done.
  - intros a b. split; [|done]. by intros (x & y & _ & _ & []%elem_of_nil).
  - intros a b. split; [|done]. by intros (x & y & _ & _ & []%elem_of_nil).
  - intros a b. split; [|done]. by intros (x & y & _ & _ & []%elem_of_nil).
Qed.

(** What the checks can ask of an index. *)
Record same_answers `{!UnorderedIter} (g h : GlobalIndex) : Prop := {
  sa_overloads : forall n, findOverloads g n = findOverloads h n;
  sa_guides : forall n, findDeductionGuides g n = findDeductionGuides h n;
  sa_methods : forall n, findClassMethods g n = findClassMethods h n;
  sa_specializations : forall n, findSpecializations g n = findSpecializations h n;
  sa_static : forall n, findStaticInit g n = findStaticInit h n;
  sa_summary : forall n, findFunctionSummary g n = findFunctionSummary h n;
  sa_odr : gi_odrEntries g = gi_odrEntries h;
  sa_defaultArgs : gi_defaultArgs g = gi_defaultArgs h;
  sa_staticInits : gi_staticInits g = gi_staticInits h;
  sa_summaries : gi_functionSummaries g = gi_functionSummaries h;
  sa_headerStatics : gi_headerStatics g = gi_headerStatics h;
  sa_exceptionSpecs : gi_exceptionSpecs g = gi_exceptionSpecs h;
  sa_classes : allIndexedClasses g ≡ₚ allIndexedClasses h;
  sa_base : forall a b, isBaseOrSelf (gi_types g) a b = isBaseOrSelf (gi_types h) a b;
  sa_convertible : forall a b, isConvertible (gi_types g) a b = isConvertible (gi_types h) a b
}.

Lemma findStaticInit_first g n : gi_ok g -> findStaticInit g n = snd <$> first_named (gi_staticInits g) n.
Proof.
  intros Hok. unfold findStaticInit. rewrite (go_staticByName _ Hok). destruct (first_named (gi_staticInits g) n) as [[i e]|] eqn:E1; [|done].
  cbn. by apply list_find_Some in E1 as (-> & _).
Qed.

Lemma findFunctionSummary_row g n e : gi_ok g -> findFunctionSummary g n = Some e <-> e ∈ gi_functionSummaries g /\ fs_qualifiedName e = n.
Proof.
  intros Hok. destruct (go_summaries _ Hok) as [Hnd Hat]. unfold findFunctionSummary. split.
  - destruct (gi_functionSummaryByName g !! n) as [i|] eqn:Ei; [|done]. cbn. intros He. apply Hat in Ei.
    rewrite list_lookup_fmap, He in Ei. injection Ei as Ei. split; [by eapply list_elem_of_lookup_2|done].
  - intros [[i Hi]%list_elem_of_lookup <-].
    assert (gi_functionSummaryByName g !! fs_qualifiedName e = Some i) as -> by (apply Hat; by rewrite list_lookup_fmap, Hi). done.
Qed.

Lemma indexed_classes `{!UnorderedIter} g : gi_ok g -> NoDup (allIndexedClasses g) /\ forall n, n ∈ allIndexedClasses g <-> findClassMethods g n <> [].
Proof.
  intros Hok. pose proof (go_interner _ Hok) as Hi. pose proof (go_coverage _ Hok) as Hc. unfold allIndexedClasses.
  assert (Hkv : forall k v, (k, v) ∈ map_iter (gi_coverageProps g) -> exists s, resolve_opt (gi_interner g) k = Some s /\ v <> [] /\ gi_coverageProps g !! k = Some v).
  { intros k v Hkv%elem_of_map_iter. destruct (Hc k v Hkv) as (? & s & ? & _). by exists s. }
  assert (Hnd : NoDup (map_iter (gi_coverageProps g)).*1) by (rewrite map_iter_perm; apply NoDup_fst_map_to_list). split.
  - revert Hkv Hnd. generalize (map_iter (gi_coverageProps g)). intros l. induction l as [|[k v] l IH]; intros Hkv Hnd; [constructor|].
    cbn in *. apply NoDup_cons in Hnd as [Hk Hnd]. apply NoDup_cons. split; [|apply IH; [|done]; intros; apply Hkv; by right].
    intros ([k' v'] & E1 & Hin)%list_elem_of_fmap. cbn in E1. destruct (Hkv k v) as (s & Hs & _ & _); [left|].
    destruct (Hkv k' v') as (s' & Hs' & _ & _); [by right|]. apply Hk. unfold resolve in E1. rewrite Hs, Hs' in E1. cbn in E1. subst s'.
    rewrite (resolve_opt_inj (gi_interner g) k k' s) by done. apply list_elem_of_fmap. by exists (k', v').
  - intros n. unfold findClassMethods, filed_under. rewrite list_elem_of_fmap. split.
    + intros ([k v] & -> & Hin). destruct (Hkv k v Hin) as (s & Hs & Hv & Hm). cbn. rewrite (resolve_of_opt _ _ _ Hs), (resolve_find _ s k) by done.
      unfold vec_at. by rewrite Hm.
    + destruct (find (gi_interner g) n) as [k|] eqn:Ek; [|done]. unfold vec_at. destruct (gi_coverageProps g !! k) as [v|] eqn:Ev; [|done].
      intros _. exists (k, v). split; [|by apply elem_of_map_iter]. cbn. symmetry. by apply resolve_of_opt, find_resolve.
Qed.

Lemma tc_ext (R S : bytes -> bytes -> Prop) a b : (forall x y, R x y <-> S x y) -> tc R a b <-> tc S a b.
Proof. intros H. split; induction 1; [apply tc_once|eapply tc_l|apply tc_once|eapply tc_l]; eauto; by apply H. Qed.

Lemma same_index_answers `{!UnorderedIter} g h : gi_ok g -> gi_ok h -> same_view (view g) (view h) -> same_answers g h.
Proof.
  intros Hg Hh [Hov Hgu Hco Hsp Hod Hda Hsi Hsu Hhs Hes Hb Hc Hv]. cbn in *. split; try done.
  - intros n. rewrite !findStaticInit_first by done. by rewrite Hsi.
  - intros n. apply option_eq. intros e. rewrite !findFunctionSummary_row by done. by rewrite Hsu.
  - destruct (indexed_classes g Hg) as [? Hn], (indexed_classes h Hh) as [? Hn']. apply NoDup_Permutation; [done|done|].
    intros n. by rewrite Hn, Hn', Hco.
  - intros a b. apply eq_true_iff_eq. rewrite !isBaseOrSelf_iff by (by apply go_types). by rewrite (tc_ext _ _ a b Hb).
  - intros a b. apply eq_true_iff_eq. rewrite !isConvertible_iff by (by apply go_types).
    unfold classes_related. rewrite Hc, Hv, !(tc_ext _ _ _ _ Hb). done.
Qed.

(** A shard's calls leave an abstract index as the calls that built the shard do. *)
Lemma shard_view_after `{HI : !UnorderedIter} v s ops : gi_ok s -> same_view (view s) (view_after empty_view ops) ->
  same_view (view_after v (shard_ops s)) (view_after v ops).
Proof.
  intros Hs [Hov Hgu Hco Hsp Hod Hda Hsi Hsu Hhs Hes Hb Hc Hv]. cbn in Hov, Hgu, Hco, Hsp, Hod, Hda, Hsi, Hsu, Hhs, Hes, Hb, Hc, Hv.
  pose proof (go_interner _ Hs) as Hi. pose proof (go_types _ Hs) as [? Tb Tc Tv]. split; intros; cbn.
  - rewrite shard_overloads, (filed_entries_named _ (gi_interner s)) by apply Hs. by rewrite <- Hov.
  - rewrite shard_guides, (filed_entries_named _ (gi_interner s)) by apply Hs. by rewrite <- Hgu.
  - rewrite shard_coverage, (filed_entries_named _ (gi_interner s)) by apply Hs. by rewrite <- Hco.
  - rewrite shard_specializations, (filed_entries_named _ (gi_interner s)) by apply Hs. fold (findSpecializations s n). rewrite Hsp. apply upsert_collapse; apply _.
  - rewrite shard_odr, Hod. apply upsert_collapse; apply _.
  - rewrite shard_defaultArgs, Hda. apply upsert_collapse; apply _.
  - rewrite shard_staticInits, Hsi. apply upsert_collapse; apply _.
  - rewrite shard_summaries, Hsu. apply upsert_collapse; apply _.
  - rewrite shard_headerStatics, Hhs. apply upsert_collapse; apply _.
  - rewrite shard_exceptionSpecs, Hes. apply upsert_collapse; apply _.
  - rewrite shard_bases. unfold forEachBase. rewrite named_edges_iff by done. fold (base_of (gi_types s) a b). rewrite Hb. tauto.
  - rewrite shard_ctors. unfold forEachCtorEdge. rewrite named_edges_iff by done. fold (ctor_from (gi_types s) a b). rewrite Hc. tauto.
  - rewrite shard_convs. unfold forEachConvOpEdge. rewrite named_edges_iff by done. fold (converts_to (gi_types s) a b). rewrite Hv. tauto.
Qed.

Lemma view_after_same v w ops : same_view v w -> same_view (view_after v ops) (view_after w ops).
Proof. intros H. by rewrite <- !spec_replay_after, spec_replay_same. Qed.

(** C30. Absorbing the index of a translation unit is making the calls that built it: whatever
    the iteration order of the hash maps, the merged index answers every query of the checks
    as an index that received those calls directly, and keeps its invariant.  This covers the
    merged rows (definition sites, summaries, header statics, specializations), where the
    shard has already collapsed repeats. *)
Theorem absorb_is_replay `{!UnorderedIter} (g : GlobalIndex) (ops : list IndexOp) :
  gi_ok g -> has_room (length ops) g ->
  gi_ok (absorb_index g (replay_ops empty_global_index ops)) /\ same_answers (absorb_index g (replay_ops empty_global_index ops)) (replay_ops g ops).
Proof.
  intros Hok Hr. assert (Hr0 : has_room (length ops) empty_global_index).
  { destruct Hr as [H1 H2]. unfold has_room, room in *. cbn in *. lia. }
  destruct (replay_implements ops empty_global_index empty_global_index_ok Hr0) as (Hs & Hvs & _).
  assert (Hvs' : same_view (view (replay_ops empty_global_index ops)) (view_after empty_view ops)).
  { rewrite Hvs, spec_replay_after. apply view_after_same, empty_view_same. }
  pose proof (replay_length empty_global_index ops) as Hlen. rewrite (shard_ops_length empty_global_index : _ = 0) in Hlen. cbn [Nat.add] in Hlen.
  rewrite absorb_replays. destruct (replay_implements (shard_ops (replay_ops empty_global_index ops)) g Hok) as (H1 & Hv1 & _).
  { destruct Hr as [Hr1 Hr2]. split; eapply room_weaken; [|done| |done]; lia. }
  destruct (replay_implements ops g Hok Hr) as (H2 & Hv2 & _). split; [done|]. apply same_index_answers; [done|done|].
  rewrite Hv1, Hv2, !spec_replay_after. by apply shard_view_after.
Qed.

Lemma absorb_is_replay_witness :
  let ops := [OpSummary (MkSummary (str "f") (str "a.cpp") 3 true false [str "g"] [str "g"] [(str "g", str "a.cpp:4")] [] []);
              OpSummary (MkSummary (str "f") (str "b.cpp") 9 false true [] [] [] (str "b.cpp:9") [])] in
  let g := replay_ops empty_global_index ops in
  gi_functionSummaries (@absorb_index canonical_iter g (replay_ops empty_global_index ops)) = gi_functionSummaries g /\
  @same_answers canonical_iter (@absorb_index canonical_iter g (replay_ops empty_global_index ops)) (replay_ops g ops).
Proof.
  intros ops g. split; [vm_compute; reflexivity|]. apply (@absorb_is_replay canonical_iter g ops).
  - apply replay_implements; [apply empty_global_index_ok|split; vm_compute; discriminate].
  - split; vm_compute; discriminate.
Defined.
