(* ===== verification/ReachAnalyses.v ===== *)
(** The breadth-first search the checks share: a queue of names with their depth, and a map
    from every name discovered to the name it was discovered from, which later gives the
    chain to a name.  A name is discovered once, so names are visited by increasing distance
    from the seeds and the chain to a name is a shortest one.

    The checks that follow calls: exception escape, static initialization order and static
    initialization hazards (src/check/Analyzer.cpp).

    They read the function summaries and the static initializers of the global index, and the
    last one the call graph, and search breadth-first from a root along names.  The order in
    which the roots are reported is the order [std::sort] leaves them in. *)

From S2P Require Import Prelude StringInterner CallGraph CallGraphQuery Ordering Results Upsert GlobalIndex.

Abbreviation Parents := (gmap bytes bytes).
Abbreviation Queue := (list (bytes * nat)).

(** [if (parent.emplace(callee, from).second) queue.push_back({callee, depth});] *)
Definition discover (from : bytes) (depth : nat) (st : Parents * Queue) (callee : bytes) : Parents * Queue :=
  match st.1 !! callee with
  | Some _ => st
  | None => (<[callee := from]> st.1, st.2 ++ [(callee, depth)])
  end.

(** The seeds have the empty name for a parent. *)
Definition discover_seeds (seeds : list bytes) : Parents * Queue := foldl (discover [] 0) (∅, []) seeds.

(** [for (cur = name; !cur.empty(); cur = parent\[cur\])], the names in the order seen; [None]
    is a loop that has not ended. *)
Fixpoint hops_up (parent : Parents) (fuel : nat) (cur : bytes) : option (list bytes) :=
  match fuel with
  | O => None
  | S fuel' => if decide (cur = []) then Some [] else cons cur <$> hops_up parent fuel' (default [] (parent !! cur))
  end.

(** The chain from a seed to a name. *)
Definition chain_to (parent : Parents) (name : bytes) : list bytes :=
  rev (default [] (hops_up parent (S (S (size parent))) name)).

Section Bfs.
Context {A : Type}.

(** What a visit does: go on with [inl], leave the loop with [inr]. *)
Variable visit : Parents -> bytes -> A -> A + A.
Variable succ : bytes -> list bytes.
Variable limit : nat.

Fixpoint parent_bfs (fuel : nat) (parent : Parents) (queue : Queue) (a : A) : option A :=
  match fuel with
  | O => None
  | S fuel' =>
      match queue with
      | [] => Some a
      | (name, depth) :: rest =>
          match visit parent name a with
          | inr a' => Some a'
          | inl a' =>
              if decide (limit <= depth + 1) then parent_bfs fuel' parent rest a'
              else let '(parent', queue') := foldl (discover name (depth + 1)) (parent, rest) (succ name) in parent_bfs fuel' parent' queue' a'
          end
      end
  end.
End Bfs.

(** * What the search has found so far *)

Section Search.
Variables (seeds : list bytes) (succ : bytes -> list bytes) (limit : nat).

(** A chain of names: it starts at a seed and every name calls the next one. *)
Fixpoint calls_along (l : list bytes) : Prop :=
  match l with
  | a :: (b :: _) as l' => b ∈ succ a /\ calls_along l'
  | _ => True
  end.

(** A chain from a seed to [n]. *)
Record seed_chain (l : list bytes) (n : bytes) : Prop := {
  sc_seed : exists s, head l = Some s /\ s ∈ seeds;
  sc_last : last l = Some n;
  sc_calls : calls_along l
}.

Lemma seed_chain_one s : s ∈ seeds -> seed_chain [s] s.
Proof. intros H. split; [by exists s|done|done]. Qed.

Lemma calls_along_snoc l a b : last l = Some a -> calls_along l -> b ∈ succ a -> calls_along (l ++ [b]).
Proof.
  induction l as [|x [|y l] IH]; [done|cbn; intros [= ->]; done|]. intros Hl [Hxy Hc] Hb. cbn. split; [done|]. apply IH; [done|done|done].
Qed.

Lemma seed_chain_snoc l a b : seed_chain l a -> b ∈ succ a -> seed_chain (l ++ [b]) b.
Proof.
  intros [(s & Hs & Hin) Hl Hc] Hb. split.
  - exists s. split; [|done]. by destruct l.
  - by rewrite last_snoc.
  - by eapply calls_along_snoc.
Qed.

(** How a name was discovered. *)
Definition origin (done : Queue) (from : bytes) (depth : nat) (n : bytes) : Prop :=
  (depth = 0 /\ n ∈ seeds /\ from = []) \/ (exists e, (from, e) ∈ done /\ depth = e + 1 /\ depth < limit /\ n ∈ succ from).

(** [done] are the names visited, [queue] those waiting; together, in this order, they are
    what was discovered. *)
Record found (done : Queue) (parent : Parents) (queue : Queue) : Prop := {
  fd_once : NoDup (done ++ queue).*1;
  fd_parent : forall n, is_Some (parent !! n) <-> n ∈ (done ++ queue).*1;
  fd_sorted : StronglySorted le (done ++ queue).*2;
  fd_spread : forall n d m e, (n, d) ∈ queue -> (m, e) ∈ queue -> e <= d + 1;
  fd_origin : forall n d, (n, d) ∈ done ++ queue -> exists p, parent !! n = Some p /\ origin done p d n
}.

(** The seeds and what visited names lead to have been discovered. *)
Record searched (done : Queue) (parent : Parents) (queue : Queue) : Prop := {
  se_found : found done parent queue;
  se_seeds : forall s, s ∈ seeds -> (s, 0) ∈ done ++ queue;
  se_succ : forall p d n, (p, d) ∈ done -> d + 1 < limit -> n ∈ succ p -> exists e, (n, e) ∈ done ++ queue /\ e <= d + 1
}.

Lemma sorted_snoc (l : list nat) d : StronglySorted le l -> (forall e, e ∈ l -> e <= d) -> StronglySorted le (l ++ [d]).
Proof.
  intros Hl Hd. induction Hl as [|a l Hl IH Ha]; cbn; [repeat constructor|]. constructor.
  - apply IH. intros; apply Hd; by right.
  - apply Forall_app. split; [done|]. constructor; [apply Hd; left|constructor].
Qed.

(** Everything waiting is one step from the depth of what is pushed, and nothing is deeper. *)
Definition pushable (done queue : Queue) (depth : nat) : Prop :=
  (forall n d, (n, d) ∈ done ++ queue -> d <= depth) /\ (forall n d, (n, d) ∈ queue -> depth <= d + 1).

Lemma discover_found done parent queue from depth n :
  found done parent queue -> origin done from depth n -> pushable done queue depth ->
  let st := discover from depth (parent, queue) n in
  found done st.1 st.2 /\ pushable done st.2 depth /\ (exists k, st.2 = queue ++ k) /\ (exists e, (n, e) ∈ done ++ st.2 /\ e <= depth).
Proof.
  intros Hf Ho [Hmax Hmin]. pose proof Hf as [Honce Hpar Hsort Hspread Horig]. unfold discover. cbn. destruct (parent !! n) as [p|] eqn:Ep; cbn.
  - split_and!; [done|done|exists []; by rewrite app_nil_r|].
    assert (Hin : n ∈ (done ++ queue).*1) by (apply Hpar; by eexists).
    apply list_elem_of_fmap in Hin as ([n' e] & -> & Hin). exists e. split; [done|]. by eapply Hmax.
  - assert (Hn : n ∉ (done ++ queue).*1) by (intros [? H]%Hpar; congruence). rewrite (assoc_L app).
    assert (Hin : forall m e, (m, e) ∈ (done ++ queue) ++ [(n, depth)] <-> (m, e) ∈ done ++ queue \/ (m = n /\ e = depth)).
    { intros m e. rewrite elem_of_app, list_elem_of_singleton. naive_solver. }
    split_and!; [split| |by eexists|exists depth; split; [apply Hin; by right|done]].
    + rewrite (assoc_L app), fmap_app. apply NoDup_app. split_and!; [done| |apply NoDup_singleton].
      by intros m Hm ->%list_elem_of_singleton.
    + intros m. rewrite (assoc_L app), fmap_app, elem_of_app, list_fmap_singleton, list_elem_of_singleton, <- Hpar. cbn.
      rewrite lookup_insert_is_Some. destruct (decide (n = m)); naive_solver.
    + rewrite (assoc_L app), fmap_app. apply sorted_snoc; [done|]. intros e ([m e'] & -> & Hm)%list_elem_of_fmap. by eapply Hmax.
    + intros m d m' e Hm Hm'. rewrite elem_of_app, list_elem_of_singleton in Hm, Hm'.
      destruct Hm as [Hm|[= -> ->]], Hm' as [Hm'|[= -> ->]]; [by eapply Hspread|by eapply Hmin| |lia].
      assert (e <= depth) by (eapply Hmax, elem_of_app; by right). lia.
    + intros m e Hm. rewrite (assoc_L app), Hin in Hm. destruct Hm as [Hm|[-> ->]].
      * destruct (Horig m e Hm) as (p & Hp & Hor). exists p. split; [|done]. rewrite lookup_insert_ne; [done|]. intros ->. congruence.
      * exists from. by rewrite lookup_insert_eq.
    + split.
      * intros m e. rewrite (assoc_L app), Hin. intros [Hm|[-> ->]]; [by eapply Hmax|done].
      * intros m e [Hm|[= -> ->]%list_elem_of_singleton]%elem_of_app; [by eapply Hmin|lia].
Qed.

Lemma discover_all_found done from depth ns parent queue :
  found done parent queue -> (forall n, n ∈ ns -> origin done from depth n) -> pushable done queue depth ->
  let st := foldl (discover from depth) (parent, queue) ns in
  found done st.1 st.2 /\ (exists k, st.2 = queue ++ k) /\ (forall n, n ∈ ns -> exists e, (n, e) ∈ done ++ st.2 /\ e <= depth).
Proof.
  revert parent queue. induction ns as [|n ns IH]; intros parent queue Hf Ho Hp; cbn.
  { split_and!; [done|exists []; by rewrite app_nil_r|by intros ? ?%elem_of_nil]. }
  destruct (discover_found done parent queue from depth n Hf) as (Hf1 & Hp1 & [k1 Hk1] & e & He & Hle); [apply Ho; left|done|].
  destruct (discover from depth (parent, queue) n) as [parent1 queue1] eqn:E1. cbn in *.
  destruct (IH parent1 queue1) as (Hf2 & [k2 Hk2] & Hns); [done|intros; apply Ho; by right|done|]. split_and!; [done| |].
  - exists (k1 ++ k2). rewrite Hk2, Hk1. by rewrite <- (assoc_L app).
  - intros m [->|Hm]%elem_of_cons; [|by apply Hns]. exists e. split; [|done]. rewrite Hk2, (assoc_L app). apply elem_of_app. by left.
Qed.

Lemma seeds_searched : let st := discover_seeds seeds in searched [] st.1 st.2.
Proof.
  unfold discover_seeds. destruct (discover_all_found [] [] 0 seeds ∅ []) as (Hf & _ & Hs).
  - split; cbn; [constructor| |constructor|by intros ???? ?%elem_of_nil|by intros ?? ?%elem_of_nil].
    intros n. rewrite lookup_empty, elem_of_nil. split; [by intros []|done].
  - intros n Hn. by left.
  - split; by intros n d ?%elem_of_nil.
  - split; [done| |by intros p d n ?%elem_of_nil]. intros s Hin. destruct (Hs s Hin) as (e & He & Hle). by assert (e = 0) as -> by lia.
Qed.

Lemma origin_mono done done' from depth n : (forall x, x ∈ done -> x ∈ done') -> origin done from depth n -> origin done' from depth n.
Proof. intros H [?|(e & He & Hr)]; [by left|right]. exists e. split; [by apply H|done]. Qed.

(** Taking a name from the queue. *)
Lemma pop_found done parent n d rest : found done parent ((n, d) :: rest) ->
  found (done ++ [(n, d)]) parent rest /\ pushable (done ++ [(n, d)]) rest (d + 1).
Proof.
  intros [Honce Hpar Hsort Hspread Horig]. assert (E1 : forall l : Queue, done ++ (n, d) :: l = (done ++ [(n, d)]) ++ l) by (intros; by rewrite <- (assoc_L app)).
  rewrite E1 in Honce, Hsort. setoid_rewrite E1 in Hpar. setoid_rewrite E1 in Horig. split; [split; try done|].
  - intros m e m' e' Hm Hm'. eapply Hspread; by right.
  - intros m e Hm. destruct (Horig m e Hm) as (p & Hp & Ho). exists p. split; [done|]. eapply origin_mono; [|done].
    intros x Hx. apply elem_of_app. by left.
  - split.
    + intros m e [[Hm|[= -> ->]%list_elem_of_singleton]%elem_of_app|Hm]%elem_of_app; [|lia|eapply Hspread; [left|by right]].
      rewrite <- E1, fmap_app in Hsort. apply StronglySorted_app in Hsort as [Hsort _].
      assert (e <= d); [|lia]. apply (Hsort e d); [|left]. apply list_elem_of_fmap. by exists (m, e).
    + intros m e Hm. rewrite fmap_app in Hsort. apply StronglySorted_app in Hsort as [Hsort _].
      assert (d <= e); [|lia]. apply Hsort; apply list_elem_of_fmap; [exists (n, d)|by exists (m, e)]. split; [done|]. apply elem_of_app. right. left.
Qed.

Lemma pop_searched done parent n d rest : searched done parent ((n, d) :: rest) ->
  let '(parent', queue') := if decide (limit <= d + 1) then (parent, rest) else foldl (discover n (d + 1)) (parent, rest) (succ n) in
  searched (done ++ [(n, d)]) parent' queue'.
Proof.
  intros [Hf Hs Hsucc]. destruct (pop_found done parent n d rest Hf) as [Hf' Hp].
  assert (Hin : forall x, x ∈ done ++ (n, d) :: rest <-> x ∈ (done ++ [(n, d)]) ++ rest) by (intros x; by rewrite <- (assoc_L app)).
  case_decide as Hlim.
  - split; [done|by intros s Hin'; apply Hin, Hs|]. intros p e m [Hpe|[= -> ->]%list_elem_of_singleton]%elem_of_app Hlt Hm; [|lia].
    destruct (Hsucc p e m Hpe Hlt Hm) as (e' & He' & Hle). exists e'. by rewrite <- Hin.
  - destruct (discover_all_found (done ++ [(n, d)]) n (d + 1) (succ n) parent rest Hf') as (Hf2 & [k Hk] & Hns); [|done|].
    { intros m Hm. right. exists d. split_and!; [apply elem_of_app; right; left|done|lia|done]. }
    destruct (foldl (discover n (d + 1)) (parent, rest) (succ n)) as [parent' queue']. cbn in *. subst queue'.
    assert (Hin' : forall x, x ∈ done ++ (n, d) :: rest -> x ∈ (done ++ [(n, d)]) ++ rest ++ k).
    { intros x Hx. apply Hin in Hx. rewrite (assoc_L app). apply elem_of_app. by left. }
    split; [done|by intros s ?; apply Hin', Hs|]. intros p e m [Hpe|[= -> ->]%list_elem_of_singleton]%elem_of_app Hlt Hm; [|by apply Hns].
    destruct (Hsucc p e m Hpe Hlt Hm) as (e' & He' & Hle). exists e'. split; [by apply Hin'|done].
Qed.

(** A name at the end of a chain has been discovered, no deeper than the chain, when the
    names before it have been visited. *)
Lemma chain_found done parent queue l n : searched done parent queue -> seed_chain l n -> length l <= limit ->
  (forall m e, (m, e) ∈ queue -> length l <= S e) -> exists d, (n, d) ∈ done ++ queue /\ S d <= length l.
Proof.
  intros [Hf Hs Hsucc]. revert n. induction l as [|n' l IH] using rev_ind; intros n [(s & Hh & Hseed) Hl Hc] Hlen Hq; [done|].
  rewrite last_snoc in Hl. injection Hl as ->. rewrite length_app in *. cbn [length] in *. destruct l as [|a l'] eqn:El.
  { cbn in Hh. injection Hh as ->. exists 0. split; [by apply Hs|cbn; lia]. }
  rewrite <- El in *. assert (Hlast : exists b, last l = Some b) by (rewrite El; apply last_is_Some; done). destruct Hlast as [b Hb].
  assert (Hcl : calls_along l /\ n ∈ succ b).
  { clear -Hc Hb. revert b Hb Hc. induction l as [|x [|y l] IH]; intros b Hb Hc; [done|cbn in *; injection Hb as ->; tauto|].
    destruct Hc as [Hxy Hc]. destruct (IH b Hb Hc) as [H1 H2]. split; [by split|done]. }
  destruct Hcl as [Hcl Hbn]. assert (Hlpos : 1 <= length l) by (rewrite El; cbn; lia).
  destruct (IH b) as (d & Hd & Hdl); [split; [exists s; split; [by rewrite El in *|done]|done|done]|lia|intros m e Hm; specialize (Hq m e Hm); lia|].
  apply elem_of_app in Hd as [Hd|Hd]; [|specialize (Hq b d Hd); lia].
  destruct (Hsucc b d n Hd) as (e & He & Hle); [lia|done|]. exists e. split; [done|lia].
Qed.

(** What waits is at least as deep as the next name. *)
Lemma queue_depth done parent n d rest m e : found done parent ((n, d) :: rest) -> (m, e) ∈ (n, d) :: rest -> d <= e.
Proof.
  intros Hf [[= -> ->]|Hm]%elem_of_cons; [done|]. pose proof (fd_sorted _ _ _ Hf) as Hs. rewrite fmap_app in Hs.
  apply StronglySorted_app in Hs as (_ & _ & Hs). cbn in Hs. apply StronglySorted_cons in Hs as [Hs _]. rewrite Forall_forall in Hs.
  apply Hs, list_elem_of_fmap. by exists (m, e).
Qed.

Lemma depth_limited done parent queue n d : 0 < limit -> found done parent queue -> (n, d) ∈ done ++ queue -> d < limit.
Proof. intros Hl Hf Hn. destruct (fd_origin _ _ _ Hf n d Hn) as (p & _ & [(-> & _)|(e & _ & _ & Hlt & _)]); done. Qed.

(** No shorter chain leads to a name that was not visited. *)
Lemma next_is_nearest done parent n d rest l m : searched done parent ((n, d) :: rest) -> seed_chain l m -> length l <= limit ->
  m ∉ done.*1 -> d < length l.
Proof.
  intros Hs Hc Hlen Hm. destruct (decide (length l <= d)) as [Hle|]; [|lia]. exfalso.
  destruct (chain_found done parent ((n, d) :: rest) l m Hs Hc Hlen) as (e & He & Hel).
  { intros m' e' Hm'. pose proof (queue_depth _ _ _ _ _ _ _ (se_found _ _ _ Hs) Hm'). lia. }
  apply elem_of_app in He as [He|He].
  - apply Hm, list_elem_of_fmap. by exists (m, e).
  - pose proof (queue_depth _ _ _ _ _ _ _ (se_found _ _ _ Hs) He). lia.
Qed.

(** ** Following the parents *)

Lemma depths_below done parent queue n d : found done parent queue -> (n, d) ∈ done ++ queue -> forall e, e <= d -> e ∈ (done ++ queue).*2.
Proof.
  intros Hf. revert n. induction d as [d IH] using lt_wf_ind. intros n Hn e He. destruct (decide (e = d)) as [->|Hne].
  { apply list_elem_of_fmap. by exists (n, d). }
  destruct (fd_origin _ _ _ Hf n d Hn) as (p & _ & [(-> & _)|(d' & Hp & -> & _)]); [lia|].
  apply (IH d' ltac:(lia) p); [apply elem_of_app; by left|lia].
Qed.

Lemma depth_size done parent queue n d : found done parent queue -> (n, d) ∈ done ++ queue -> d < size parent.
Proof.
  intros Hf Hn. assert (Hsz : size parent = length (done ++ queue)).
  { rewrite <- (length_fmap fst). rewrite <- size_dom. transitivity (size (list_to_set (C := gset bytes) (done ++ queue).*1)).
    - f_equal. apply set_eq. intros m. by rewrite elem_of_dom, (fd_parent _ _ _ Hf), elem_of_list_to_set.
    - apply size_list_to_set, Hf. }
  rewrite Hsz. rewrite <- (length_fmap snd). assert (Hsub : seq 0 (S d) ⊆+ (done ++ queue).*2).
  { apply NoDup_submseteq; [apply NoDup_seq|]. intros e He%elem_of_seq. eapply depths_below; [done|done|lia]. }
  apply submseteq_length in Hsub. rewrite length_seq in Hsub. lia.
Qed.

Lemma hops_up_chain done parent queue : found done parent queue -> (forall m e, (m, e) ∈ done ++ queue -> m <> []) ->
  forall d n fuel, (n, d) ∈ done ++ queue -> d + 2 <= fuel ->
  exists l, hops_up parent fuel n = Some l /\ length l = d + 1 /\ seed_chain (rev l) n.
Proof.
  intros Hf Hne d. induction d as [d IH] using lt_wf_ind. intros n fuel Hn Hfuel. destruct fuel as [|fuel]; [lia|]. cbn.
  rewrite decide_False by (by eapply Hne). destruct (fd_origin _ _ _ Hf n d Hn) as (p & -> & [(-> & Hs & ->)|(e & Hp & -> & _ & Hsucc)]); cbn.
  - destruct fuel as [|fuel]; [lia|]. cbn. exists [n]. split_and!; [done|done|]. by apply seed_chain_one.
  - destruct (IH e ltac:(lia) p fuel) as (l & -> & Hl & Hc); [apply elem_of_app; by left|lia|]. cbn. exists (n :: l). split_and!; [done|cbn; lia|].
    cbn. by eapply seed_chain_snoc.
Qed.

(** The chain to a discovered name is a chain of calls from a seed, as long as its depth. *)
Lemma chain_to_found done parent queue n d : found done parent queue -> (forall m e, (m, e) ∈ done ++ queue -> m <> []) ->
  (n, d) ∈ done ++ queue -> seed_chain (chain_to parent n) n /\ length (chain_to parent n) = d + 1.
Proof.
  intros Hf Hne Hn. pose proof (depth_size _ _ _ _ _ Hf Hn) as Hd. unfold chain_to.
  destruct (hops_up_chain _ _ _ Hf Hne d n (S (S (size parent))) Hn) as (l & -> & Hl & Hc); [lia|]. cbn. split; [done|].
  by rewrite length_rev.
Qed.

(** ** The search ends *)

Section Run.
Context {A : Type} (visit : Parents -> bytes -> A -> A + A) (universe : list bytes).
Hypothesis Hseeds : forall s, s ∈ seeds -> s ∈ universe.
Hypothesis Hsucc : forall p n, n ∈ succ p -> n ∈ universe.

Lemma found_in_universe done parent queue n d : found done parent queue -> (n, d) ∈ done ++ queue -> n ∈ universe.
Proof. intros Hf Hn. destruct (fd_origin _ _ _ Hf n d Hn) as (p & _ & [(_ & Hs & _)|(e & _ & _ & _ & Hs)]); eauto. Qed.

(** [P] holds of what has been visited; the search ends with everything visited, or at the
    name a visit stops at. *)
Lemma bfs_from (P : Queue -> A -> Prop) fuel done parent queue a :
  (forall done parent n d rest a a', searched done parent ((n, d) :: rest) -> P done a -> visit parent n a = inl a' -> P (done ++ [(n, d)]) a') ->
  length universe < length done + fuel -> searched done parent queue -> P done a ->
  exists a', parent_bfs visit succ limit fuel parent queue a = Some a' /\
    ((exists done' parent', searched done' parent' [] /\ P done' a') \/
     (exists done' parent' n d rest b, searched done' parent' ((n, d) :: rest) /\ P done' b /\ visit parent' n b = inr a')).
Proof.
  intros HP. revert done parent queue a. induction fuel as [|fuel IH]; intros done parent queue a Hfuel Hs Ha.
  { exfalso. assert (Hsub : done.*1 ⊆+ universe).
    { apply NoDup_submseteq.
      - pose proof (fd_once _ _ _ (se_found _ _ _ Hs)) as Hnd. rewrite fmap_app in Hnd. by apply NoDup_app in Hnd as [Hnd _].
      - intros n ([n' d] & -> & Hn)%list_elem_of_fmap. eapply found_in_universe; [apply Hs|]. apply elem_of_app. by left. }
    apply submseteq_length in Hsub. rewrite length_fmap in Hsub. lia. }
  destruct queue as [|[n d] rest]; cbn.
  { exists a. split; [done|]. left. by exists done, parent. }
  destruct (visit parent n a) as [a'|a'] eqn:Ev.
  - pose proof (pop_searched done parent n d rest Hs) as Hpop. pose proof (HP _ _ _ _ _ _ _ Hs Ha Ev) as Ha'.
    case_decide.
    + apply (IH (done ++ [(n, d)])); [rewrite length_app; cbn; lia|done|done].
    + destruct (foldl (discover n (d + 1)) (parent, rest) (succ n)) as [parent' queue'].
      apply (IH (done ++ [(n, d)])); [rewrite length_app; cbn; lia|done|done].
  - exists a'. split; [done|]. right. by exists done, parent, n, d, rest, a.
Qed.
End Run.
End Search.

(** * Diagnostics *)

Inductive DiagnosticKind :=
| ADL_Fallback | ADL_Ambiguity | ADL_SameScore | CTAD_Fallback | Coverage_GVAMismatch | Coverage_DiscardableODR
| Coverage_AvailableExternally | Coverage_PropertyDivergence | DeadCode_Pessimistic | DeadCode_Optimistic
| ODR_DuplicateDefinition | ODR_DivergentDefinition | Specialization_Invisible | DefaultArg_Divergent
| StaticInit_OrderDependency | StaticInit_Hazard | Exception_Escape | HeaderStatic_Duplicated | ExceptionSpec_Divergent | CustomCheck.

#[global] Instance DiagnosticKind_eq_dec : EqDecision DiagnosticKind.
Proof. solve_decision. Defined.

Record Diagnostic := MkDiagnostic {
  dx_kind : DiagnosticKind;
  dx_file : bytes;
  dx_callLocation : bytes;
  dx_resolvedDecl : bytes;
  dx_betterDecl : bytes;
  dx_missingHeader : bytes;
  dx_message : bytes;
  dx_checkName : bytes;
  dx_entities : list bytes;
  dx_scope : bytes
}.

#[global] Instance Diagnostic_eq_dec : EqDecision Diagnostic.
Proof. solve_decision. Defined.

(** A diagnostic of the whole-program checks: a kind, a place, the entities and the text. *)
Definition entity_diagnostic (kind : DiagnosticKind) (callLocation : bytes) (entities : list bytes) (message : bytes) : Diagnostic :=
  MkDiagnostic kind [] callLocation [] [] [] message [] entities [].

(** [file + ":" + std::to_string(line)] *)
Definition at_line (file : bytes) (line : N) : bytes := file ++ str ":" ++ to_string line.

(** [std::tie(a.file, a.line, a.name) < std::tie(b.file, b.line, b.name)] *)
Definition site_cmp : bytes * N * bytes -> bytes * N * bytes -> comparison := lex_cmp (lex_cmp bytes_cmp N.compare) bytes_cmp.

Definition summary_place (e : FunctionSummaryEntry) : bytes * N * bytes := (fs_filePath e, fs_line e, fs_qualifiedName e).
Definition summary_less (a b : FunctionSummaryEntry) : bool := ltb_of (site_cmp (summary_place a) (summary_place b)).
Definition static_place (e : StaticInitEntry) : bytes * N * bytes := (si_filePath e, si_line e, si_qualifiedName e).
Definition static_less (a b : StaticInitEntry) : bool := ltb_of (site_cmp (static_place a) (static_place b)).

(** * Exception escape *)

Module Escape.
Section Escape.
Variable g : GlobalIndex.

Definition kMaxDepth : nat := 16.

(** The throw a name ends the search with. *)
Definition throws (name : bytes) : bool :=
  match findFunctionSummary g name with Some s => fs_hasUncaughtThrow s | None => false end.

(** The calls an exception passes through: none for a name without summary, none out of a
    [noexcept] function. *)
Definition unguarded (name : bytes) : list bytes :=
  match findFunctionSummary g name with Some s => if fs_isNoexcept s then [] else fs_unguardedCalls s | None => [] end.

Definition escape_visit (parent : Parents) (name : bytes) (hit : option (bytes * Parents)) : option (bytes * Parents) + option (bytes * Parents) :=
  if throws name then inr (Some (name, parent)) else inl hit.

(** Every name the search can meet. *)
Definition all_names (root : FunctionSummaryEntry) : list bytes :=
  fs_unguardedCalls root ++ (s ← gi_functionSummaries g; fs_unguardedCalls s).

(** The search of one root: the name of the throwing function and the parents found. *)
Definition escape_search (root : FunctionSummaryEntry) : option (bytes * Parents) :=
  let '(parent, queue) := discover_seeds (fs_unguardedCalls root) in
  default None (parent_bfs escape_visit unguarded kMaxDepth (S (length (all_names root))) parent queue None).

Definition callSiteLoc (caller : option FunctionSummaryEntry) (callee : bytes) : bytes :=
  match caller with
  | None => []
  | Some c =>
      match list_find (fun kv => kv.1 = callee /\ kv.2 <> []) (fs_unguardedCallSites c) with
      | Some (_, kv) => kv.2
      | None => []
      end
  end.

(** The chain of hops, each after the first preceded by an arrow, with its call site. *)
Fixpoint chain_text (locations : bool) (caller : option FunctionSummaryEntry) (first : bool) (hops : list bytes) : bytes :=
  match hops with
  | [] => []
  | hop :: rest =>
      let loc := callSiteLoc caller hop in
      (if first then [] else str " -> ") ++ hop ++
      (if locations && bool_decide (loc <> []) then str " (" ++ loc ++ str ")" else []) ++
      chain_text locations (findFunctionSummary g hop) false rest
  end.

Definition escape_message (root : FunctionSummaryEntry) (hit throwSite chain : bytes) : bytes :=
  str "Exception escape: noexcept function '" ++ fs_qualifiedName root ++ str "' (" ++ at_line (fs_filePath root) (fs_line root) ++
  str ") can reach a throw in '" ++ hit ++ str "'" ++
  (if decide (throwSite = []) then [] else str " (" ++ throwSite ++ str ")") ++ str " (" ++ chain ++
  str ") with no intervening handler — an escaping exception calls std::terminate. Catch it inside, or drop the noexcept.".

(** One root: the diagnostic, if it can be escaped. *)
Definition escape_report (locations : bool) (root : FunctionSummaryEntry) : option Diagnostic :=
  let '(hit, throwSite, chain) :=
    if fs_hasUncaughtThrow root then
      (fs_qualifiedName root, [],
       if locations && bool_decide (fs_uncaughtThrowSite root <> [])
       then fs_qualifiedName root ++ str " (throw in its own body at " ++ fs_uncaughtThrowSite root ++ str ")"
       else fs_qualifiedName root ++ str " (throw in its own body)")
    else match escape_search root with
         | None => ([], [], [])
         | Some (name, parent) =>
             (name,
              if locations then default [] (fs_uncaughtThrowSite <$> findFunctionSummary g name) else [],
              chain_text locations (Some root) true (chain_to parent name))
         end in
  if decide (hit = []) then None
  else Some (entity_diagnostic Exception_Escape (at_line (fs_filePath root) (fs_line root)) [fs_qualifiedName root; hit]
               (escape_message root hit throwSite chain)).

Definition escape_roots `{!StdSort} : list FunctionSummaryEntry :=
  std_sort summary_less (filter (fun e => fs_isNoexcept e = true) (gi_functionSummaries g)).

Definition analyzeExceptionEscape `{!StdSort} (locations : bool) (diagnostics : list Diagnostic) : list Diagnostic :=
  diagnostics ++ omap (escape_report locations) escape_roots.
End Escape.
End Escape.

(** * Static initialization order *)

(** The names of a chain joined by arrows. *)
Fixpoint arrows (l : list bytes) : bytes :=
  match l with
  | [] => []
  | [a] => a
  | a :: l' => a ++ str " -> " ++ arrows l'
  end.

(** [chain = name; for (cur = parent\[name\]; !cur.empty(); cur = parent\[cur\]) chain = cur + " -> " + chain;] *)
Definition arrow_chain (parent : Parents) (name : bytes) : bytes :=
  arrows (rev (default [] (hops_up parent (S (size parent)) (default [] (parent !! name)))) ++ [name]).

Module InitOrder.
Section InitOrder.
Variable g : GlobalIndex.

Definition kMaxDepth : nat := 16.

Definition called (name : bytes) : list bytes :=
  match findFunctionSummary g name with Some s => fs_calledFunctions s | None => [] end.

Definition referenced_globals (name : bytes) : list bytes :=
  match findFunctionSummary g name with Some s => fs_referencedGlobals s | None => [] end.

(** The dynamically initialized variable of another file a reference leads to. *)
Definition resolveTarget (entry : StaticInitEntry) (ref : bytes) : option StaticInitEntry :=
  match findStaticInit g ref with
  | None => None
  | Some target =>
      if negb (si_dynamicInit target) || si_isConstructorFn target then None
      else if decide (si_filePath target = si_filePath entry) then None else Some target
  end.

Definition order_message (entry target : StaticInitEntry) (chain : bytes) : bytes :=
  str "Static initialization order fiasco: '" ++ si_qualifiedName entry ++ str "' (" ++ at_line (si_filePath entry) (si_line entry) ++
  str ") is dynamically initialized from '" ++ si_qualifiedName target ++ str "' (" ++ at_line (si_filePath target) (si_line target) ++ str ")" ++
  (if decide (chain = []) then [] else str " via " ++ chain) ++
  str ", which is itself dynamically initialized in a different TU. Cross-TU initialization order is unspecified — the reader may observe its zero/constant-initialized state. Use a construct-on-first-use function-local static, or make the dependency constinit/constexpr.".

(** The targets reported so far and their diagnostics. *)
Abbreviation Reported := (gset bytes * list Diagnostic)%type.

Definition order_report (entry target : StaticInitEntry) (chain : bytes) (a : Reported) : Reported :=
  if decide (si_qualifiedName target ∈ a.1) then a
  else ({[si_qualifiedName target]} ∪ a.1,
        a.2 ++ [entity_diagnostic StaticInit_OrderDependency (at_line (si_filePath entry) (si_line entry))
                  [si_qualifiedName entry; si_qualifiedName target] (order_message entry target chain)]).

Definition report_refs (entry : StaticInitEntry) (chain : bytes) (refs : list bytes) (a : Reported) : Reported :=
  foldl (fun a ref => match resolveTarget entry ref with Some target => order_report entry target chain a | None => a end) a refs.

Definition order_visit (entry : StaticInitEntry) (parent : Parents) (name : bytes) (a : Reported) : Reported + Reported :=
  inl (report_refs entry (arrow_chain parent name) (referenced_globals name) a).

Definition all_names (entry : StaticInitEntry) : list bytes :=
  si_calledFunctions entry ++ (s ← gi_functionSummaries g; fs_calledFunctions s).

(** The diagnostics of one variable: its own references first, then those of what it calls. *)
Definition entry_diagnostics (entry : StaticInitEntry) : list Diagnostic :=
  let direct := report_refs entry [] (si_referencedGlobals entry) (∅, []) in
  let '(parent, queue) := discover_seeds (si_calledFunctions entry) in
  (default direct (parent_bfs (order_visit entry) called kMaxDepth (S (length (all_names entry))) parent queue direct)).2.

Definition order_candidate (e : StaticInitEntry) : Prop :=
  si_dynamicInit e = true /\ si_isConstructorFn e = false /\ (si_referencedGlobals e <> [] \/ si_calledFunctions e <> []).

#[global] Instance candidate_dec e : Decision (order_candidate e).
Proof. unfold order_candidate. apply _. Defined.

Definition order_candidates `{!StdSort} : list StaticInitEntry := std_sort static_less (filter order_candidate (gi_staticInits g)).

Definition analyzeStaticInitOrder `{!StdSort} (diagnostics : list Diagnostic) : list Diagnostic :=
  diagnostics ++ (order_candidates ≫= entry_diagnostics).
End InitOrder.
End InitOrder.

(** * Static initialization hazards *)

Module Hazards.
Section Hazards.
Variable isValidUtf8 : bytes -> bool.
Variable g : GlobalIndex.
Variable graph : CallGraph.
(** The names the extension registry adds. *)
Variable registered : list bytes.

Definition builtin_hazards : list bytes :=
  str <$> ["dlopen"; "dlsym"; "dlclose"; "dladdr"; "pthread_create"; "pthread_join"; "std::thread::thread"; "std::thread::join";
           "std::async"; "std::call_once"]%string.

Definition hazards : gset bytes := list_to_set (builtin_hazards ++ registered).

Definition kMaxDepth : nat := 25.

(** The inner loop: a name that is new is recorded; a hazard ends the loop as the hit, any
    other name waits in the queue. *)
Fixpoint discover_until (from : bytes) (depth : nat) (names : list bytes) (parent : Parents) (queue : Queue) : Parents * Queue * bytes :=
  match names with
  | [] => (parent, queue, [])
  | n :: names' =>
      match parent !! n with
      | Some _ => discover_until from depth names' parent queue
      | None =>
          if decide (n ∈ hazards) then (<[n := from]> parent, queue, n)
          else discover_until from depth names' (<[n := from]> parent) (queue ++ [(n, depth)])
      end
  end.

(** [while (hit.empty() && !queue.empty())] *)
Fixpoint hazard_loop (fuel : nat) (parent : Parents) (queue : Queue) (hit : bytes) : option (bytes * Parents) :=
  match fuel with
  | O => None
  | S fuel' =>
      if decide (hit <> []) then Some (hit, parent)
      else match queue with
           | [] => Some (hit, parent)
           | (name, depth) :: rest =>
               if decide (kMaxDepth <= depth) then hazard_loop fuel' parent rest hit
               else let '(parent', queue', hit') := discover_until name (depth + 1) (calleeName <$> calleesOf isValidUtf8 graph name) parent rest in
                    hazard_loop fuel' parent' queue' hit'
           end
  end.

Definition root_seeds (root : StaticInitEntry) : list bytes :=
  if si_isConstructorFn root then [si_qualifiedName root] else si_calledFunctions root.

Definition hazard_search (root : StaticInitEntry) : bytes * Parents :=
  let '(parent, queue, hit) := discover_until [] 0 (root_seeds root) ∅ [] in
  default ([], ∅) (hazard_loop (S (S (length (root_seeds root) + table_size (interner_ graph)))) parent queue hit).

Definition hazard_message (root : StaticInitEntry) (hit chain : bytes) : bytes :=
  str "Static-init hazard: " ++
  (if si_isConstructorFn root then str "constructor function '" else str "the dynamic initializer of '") ++ si_qualifiedName root ++
  str "' (" ++ at_line (si_filePath root) (si_line root) ++ str ") reaches '" ++ hit ++ str "' (" ++ chain ++
  str "). Static initializers run under the dynamic linker's global lock when this library is loaded via dlopen/System.loadLibrary; re-entering the loader or creating-and-waiting-on threads there can deadlock, and whether it fires depends on link order. Defer this work to an explicit init call or a function-local static.".

Definition hazard_report (root : StaticInitEntry) : option Diagnostic :=
  let '(hit, parent) := hazard_search root in
  if decide (hit = []) then None
  else Some (entity_diagnostic StaticInit_Hazard (at_line (si_filePath root) (si_line root)) [si_qualifiedName root; hit]
               (hazard_message root hit (arrow_chain parent hit))).

Definition is_root (e : StaticInitEntry) : Prop :=
  si_dynamicInit e = true /\ (si_isConstructorFn e = true \/ si_calledFunctions e <> []).

#[global] Instance is_root_dec e : Decision (is_root e).
Proof. unfold is_root. apply _. Defined.

Definition hazard_roots `{!StdSort} : list StaticInitEntry := std_sort static_less (filter is_root (gi_staticInits g)).

Definition analyzeStaticInitHazards `{!StdSort} (diagnostics : list Diagnostic) : list Diagnostic := diagnostics ++ omap hazard_report hazard_roots.
End Hazards.
End Hazards.
