(* ===== verification/EscapeCorrect.v ===== *)
(** The exception-escape check against the documented propagation of exceptions
    (docs/checks/exception-escape.md): every [noexcept] function an exception can leave is
    reported, with a shortest chain of unguarded calls to the throw, and the only reports
    beyond those end at a [noexcept] function that throws and has a diagnostic of its own. *)

From S2P Require Import Prelude StringInterner Ordering Results Upsert GlobalIndex GlobalIndexCorrect GlobalIndexTheorems ReachAnalyses.
Import Escape.

#[global] Instance site_total_cmp : TotalCmp site_cmp.
Proof. unfold site_cmp. apply _. Qed.

#[global] Instance summary_less_weak : StrictWeak summary_less.
Proof. by apply (strict_weak_of_key summary_place site_cmp). Qed.

#[global] Instance static_less_weak : StrictWeak static_less.
Proof. by apply (strict_weak_of_key static_place site_cmp). Qed.

Section Escape.
Variable g : GlobalIndex.
Hypothesis Hok : gi_ok g.

(** The indexed names are not empty. *)
Definition names_given : Prop :=
  forall s, s ∈ gi_functionSummaries g -> fs_qualifiedName s <> [] /\ [] ∉ fs_unguardedCalls s.

(** A chain of unguarded calls from the root to a function with an uncaught throw; only the
    last one may be [noexcept]. *)
Definition escapes (root : FunctionSummaryEntry) (chain : list bytes) (n : bytes) : Prop :=
  seed_chain (fs_unguardedCalls root) (unguarded g) chain n /\ throws g n = true /\ length chain <= kMaxDepth.

Definition shortest_escape (root : FunctionSummaryEntry) (chain : list bytes) (n : bytes) : Prop :=
  escapes root chain n /\ forall chain' n', escapes root chain' n' -> length chain <= length chain'.

Lemma unguarded_in p n : n ∈ unguarded g p -> exists s, s ∈ gi_functionSummaries g /\ n ∈ fs_unguardedCalls s.
Proof.
  unfold unguarded. destruct (findFunctionSummary g p) as [s|] eqn:E; [|by intros ?%elem_of_nil].
  apply findFunctionSummary_row in E as [Hs _]; [|done]. destruct (fs_isNoexcept s); [by intros ?%elem_of_nil|]. by exists s.
Qed.

Lemma search_exact root : root ∈ gi_functionSummaries g -> names_given ->
  match escape_search g root with
  | Some (n, parent) => shortest_escape root (chain_to parent n) n
  | None => forall chain n, ~ escapes root chain n
  end.
Proof.
  intros Hroot Hnames. unfold escape_search. pose proof (seeds_searched (fs_unguardedCalls root) (unguarded g) kMaxDepth) as Hs.
  destruct (discover_seeds (fs_unguardedCalls root)) as [parent queue]. cbn in Hs.
  destruct (bfs_from (fs_unguardedCalls root) (unguarded g) kMaxDepth (escape_visit g) (all_names g root)
    (fun s Hs => proj2 (elem_of_app _ _ _) (or_introl Hs))
    (fun p n Hn => proj2 (elem_of_app _ _ _) (or_intror (proj2 (list_elem_of_bind _ _ _) (let '(ex_intro _ s (conj H1 H2)) := unguarded_in p n Hn in ex_intro _ s (conj H2 H1)))))
    (fun dn hit => hit = None /\ forall m e, (m, e) ∈ dn -> throws g m = false)
    (S (length (all_names g root))) [] parent queue None) as (hit & -> & Hend).
  { intros dn par m d rest a a' _ [-> Hno]. unfold escape_visit. destruct (throws g m) eqn:Et; [done|]. intros [= <-]. split; [done|].
    intros m' e [Hm|[= -> ->]%list_elem_of_singleton]%elem_of_app; [by eapply Hno|done]. }
  { cbn. lia. }
  { done. }
  { split; [done|]. by intros ?? ?%elem_of_nil. }
  change (default None (Some hit)) with hit. destruct Hend as [(dn & par & Hsd & -> & Hno)|(dn & par & m & d & rest & b & Hsd & [-> Hno] & Hv)].
  - intros chain n (Hc & Ht & Hlen). destruct (chain_found _ _ _ _ _ _ _ _ Hsd Hc Hlen) as (e & He & _); [by intros ?? ?%elem_of_nil|].
    rewrite app_nil_r in He. by rewrite (Hno n e He) in Ht.
  - unfold escape_visit in Hv. destruct (throws g m) eqn:Et; [|done]. injection Hv as <-. pose proof (se_found _ _ _ _ _ _ Hsd) as Hf.
    assert (Hin : (m, d) ∈ dn ++ (m, d) :: rest) by (apply elem_of_app; right; left).
    assert (Hne : forall m' e, (m', e) ∈ dn ++ (m, d) :: rest -> m' <> []).
    { intros m' e Hm'. destruct (fd_origin _ _ _ _ _ _ Hf m' e Hm') as (p & _ & [(_ & Hseed & _)|(e' & _ & _ & _ & Hcall)]).
      - intros ->. by apply (Hnames root Hroot).
      - apply unguarded_in in Hcall as (s & Hs' & Hcall). intros ->. by apply (Hnames s Hs'). }
    destruct (chain_to_found _ _ _ _ _ _ _ _ Hf Hne Hin) as [Hc Hl].
    pose proof (depth_limited _ _ kMaxDepth _ _ _ _ _ ltac:(unfold kMaxDepth; lia) Hf Hin) as Hd.
    split; [split_and!; [done|done|lia]|]. intros chain' n' (Hc' & Ht' & Hlen').
    assert (Hlt : d < length chain'); [|lia]. eapply next_is_nearest; [done|done|done|].
    intros ([n'' e] & -> & He)%list_elem_of_fmap. cbn in Ht'. by rewrite (Hno n'' e He) in Ht'.
Qed.
End Escape.

Definition can_escape (g : GlobalIndex) (root : FunctionSummaryEntry) : Prop :=
  fs_hasUncaughtThrow root = true \/ exists chain n, escapes g root chain n.

(** What one root's diagnostic says. *)
Definition escape_reported (g : GlobalIndex) (locations : bool) (root : FunctionSummaryEntry) (d : Diagnostic) : Prop :=
  exists hit, dx_kind d = Exception_Escape /\ dx_entities d = [fs_qualifiedName root; hit] /\
    ((fs_hasUncaughtThrow root = true /\ hit = fs_qualifiedName root) \/
     (fs_hasUncaughtThrow root = false /\ exists chain site, shortest_escape g root chain hit /\
        dx_message d = escape_message root hit site (chain_text g locations (Some root) true chain))).

Lemma report_exact g locations root : gi_ok g -> names_given g -> root ∈ gi_functionSummaries g ->
  match escape_report g locations root with Some d => escape_reported g locations root d /\ can_escape g root | None => ~ can_escape g root end.
Proof.
  intros Hok Hnames Hroot. pose proof (search_exact g Hok root Hroot Hnames) as Hs. pose proof (proj1 (Hnames root Hroot)) as Hname.
  unfold escape_report. destruct (fs_hasUncaughtThrow root) eqn:Et.
  - rewrite decide_False by done. split; [|by left]. exists (fs_qualifiedName root). split_and!; [done|done|]. by left.
  - destruct (escape_search g root) as [[n parent]|].
    + assert (Hn : n <> []).
      { destruct Hs as [(_ & Ht & _) _]. unfold throws in Ht. destruct (findFunctionSummary g n) as [s|] eqn:Es; [|done].
        apply findFunctionSummary_row in Es as [Hs' <-]; [|done]. by apply Hnames. }
      rewrite decide_False by done. split; [|right; eexists _, _; apply Hs]. exists n. split_and!; [done|done|]. right. split; [done|].
      eexists (chain_to parent n), _. split; [done|reflexivity].
    + cbn. intros [?|(chain & n & H)]; [congruence|by eapply Hs].
Qed.

Lemma summaries_distinct g a b : gi_ok g -> a ∈ gi_functionSummaries g -> b ∈ gi_functionSummaries g ->
  fs_qualifiedName a = fs_qualifiedName b -> a = b.
Proof.
  intros Hok Ha Hb E. assert (H1 : findFunctionSummary g (fs_qualifiedName a) = Some a) by (by apply findFunctionSummary_row).
  assert (H2 : findFunctionSummary g (fs_qualifiedName a) = Some b) by (by apply findFunctionSummary_row). congruence.
Qed.

Lemma roots_in `{!StdSort} g root : root ∈ escape_roots g <-> root ∈ gi_functionSummaries g /\ fs_isNoexcept root = true.
Proof. unfold escape_roots. rewrite std_sort_perm, list_elem_of_filter. tauto. Qed.

Lemma roots_once `{!StdSort} g : gi_ok g -> NoDup (fs_qualifiedName <$> escape_roots g).
Proof.
  intros Hok. unfold escape_roots. rewrite std_sort_perm. apply NoDup_fmap_filter_sub, (go_summaries _ Hok).
Qed.

(** What the search finds, whether or not the function that throws is [noexcept]. *)
Lemma escape_diagnostics `{!StdSort} (g : GlobalIndex) (locations : bool) :
  gi_ok g -> names_given g ->
  let reported := analyzeExceptionEscape g locations [] in
  Forall2 (fun root d => root ∈ gi_functionSummaries g /\ fs_isNoexcept root = true /\ escape_reported g locations root d)
    (filter (fun root => is_Some (escape_report g locations root)) (escape_roots g)) reported /\
  NoDup (head ∘ dx_entities <$> reported) /\
  forall root, root ∈ gi_functionSummaries g -> fs_isNoexcept root = true ->
    can_escape g root <-> exists d, d ∈ reported /\ head (dx_entities d) = Some (fs_qualifiedName root).
Proof.
  intros Hok Hnames reported.
  assert (HF : Forall2 (fun root d => root ∈ escape_roots g /\ escape_report g locations root = Some d) (filter (fun root => is_Some (escape_report g locations root)) (escape_roots g)) reported).
  { unfold reported, analyzeExceptionEscape. cbn [app]. assert (Hall : forall r, r ∈ escape_roots g -> r ∈ escape_roots g) by done. revert Hall.
    generalize (escape_roots g) at 1 4 5. intros l. induction l as [|r l IH]; intros Hall; [constructor|]. rewrite filter_cons. cbn.
    destruct (escape_report g locations r) as [d|] eqn:Er.
    - rewrite decide_True by done. constructor; [split; [apply Hall; left|done]|]. apply IH. intros; apply Hall; by right.
    - rewrite decide_False by (by intros []). apply IH. intros; apply Hall; by right. }
  assert (Hrep : forall root d, root ∈ escape_roots g -> escape_report g locations root = Some d ->
    escape_reported g locations root d /\ can_escape g root /\ head (dx_entities d) = Some (fs_qualifiedName root)).
  { intros root d [Hr _]%roots_in Hd. pose proof (report_exact g locations root Hok Hnames Hr) as HR. rewrite Hd in HR. destruct HR as [Hx Hc].
    split_and!; [done|done|]. destruct Hx as (hit & _ & -> & _). done. }
  split_and!.
  - eapply Forall2_impl; [done|]. intros root d [Hr Hd]. destruct (proj1 (roots_in g root) Hr). split_and!; [done|done|]. by apply Hrep.
  - assert (E : head ∘ dx_entities <$> reported = Some ∘ fs_qualifiedName <$> filter (fun root => is_Some (escape_report g locations root)) (escape_roots g)).
    { clear -HF Hrep. induction HF as [|r d l k [Hr Hd] _ IH]; [done|]. cbn. f_equal; [|exact IH]. by apply Hrep. }
    rewrite E, list_fmap_compose. apply (NoDup_fmap_2 Some). by apply NoDup_fmap_filter_sub, roots_once.
  - intros root Hr Hnx. assert (Hroot : root ∈ escape_roots g) by (by apply roots_in). unfold reported, analyzeExceptionEscape. cbn [app]. split.
    + intros Hc. pose proof (report_exact g locations root Hok Hnames Hr) as HR. destruct (escape_report g locations root) as [d|] eqn:Ed; [|done].
      exists d. split; [apply list_elem_of_omap; by exists root|]. by apply Hrep.
    + intros (d & (r & Hr' & Hd)%list_elem_of_omap & Hh). destruct (Hrep r d Hr' Hd) as (_ & Hc & Hh'). apply roots_in in Hr' as [Hr' _].
      assert (r = root) as -> by (eapply summaries_distinct; [done|done|done|congruence]). done.
Qed.

(** * The documented propagation *)

(** An exception leaves a body that makes the unguarded calls [calls]: one of them is to a
    function that is not [noexcept] and whose own body throws, or whose own unguarded calls
    let an exception out.  The chain holds the functions the exception leaves, [n] throws. *)
Inductive leaves (g : GlobalIndex) : list bytes -> list bytes -> bytes -> Prop :=
| leaves_throw calls s :
    s ∈ gi_functionSummaries g -> fs_qualifiedName s ∈ calls -> fs_isNoexcept s = false -> fs_hasUncaughtThrow s = true ->
    leaves g calls [fs_qualifiedName s] (fs_qualifiedName s)
| leaves_call calls s chain n :
    s ∈ gi_functionSummaries g -> fs_qualifiedName s ∈ calls -> fs_isNoexcept s = false ->
    leaves g (fs_unguardedCalls s) chain n -> leaves g calls (fs_qualifiedName s :: chain) n.

(** The [noexcept] functions, and those of them whose body throws. *)
Definition noexcept_function (g : GlobalIndex) (s : FunctionSummaryEntry) : Prop := s ∈ gi_functionSummaries g /\ fs_isNoexcept s = true.
Definition terminates_itself (g : GlobalIndex) (n : bytes) : Prop :=
  exists s, noexcept_function g s /\ fs_qualifiedName s = n /\ fs_hasUncaughtThrow s = true.

(** An exception reaches the frame of [root], within the sixteen calls that are followed. *)
Definition exception_reaches (g : GlobalIndex) (root : FunctionSummaryEntry) : Prop :=
  fs_hasUncaughtThrow root = true \/ exists chain n, leaves g (fs_unguardedCalls root) chain n /\ length chain <= 16.

Lemma seed_chain_cons seeds succ a b l n : seed_chain seeds succ (a :: b :: l) n <-> a ∈ seeds /\ seed_chain (succ a) succ (b :: l) n.
Proof.
  split.
  - intros [(s & [= <-] & Hs) Hl [Hab Hc]]. split; [done|]. split; [by exists b|done|done].
  - intros [Ha [(s & [= <-] & Hs) Hl Hc]]. split; [by exists a|done|done].
Qed.

Section Documented.
Variable g : GlobalIndex.
Hypothesis Hok : gi_ok g.

Lemma unguarded_row s : s ∈ gi_functionSummaries g -> fs_isNoexcept s = false -> unguarded g (fs_qualifiedName s) = fs_unguardedCalls s.
Proof.
  intros Hs Hn. unfold unguarded. assert (findFunctionSummary g (fs_qualifiedName s) = Some s) as -> by (by apply findFunctionSummary_row).
  by rewrite Hn.
Qed.

Lemma throws_row n : throws g n = true <-> exists s, s ∈ gi_functionSummaries g /\ fs_qualifiedName s = n /\ fs_hasUncaughtThrow s = true.
Proof.
  unfold throws. split.
  - destruct (findFunctionSummary g n) as [s|] eqn:E; [|done]. apply findFunctionSummary_row in E as [? ?]; [|done]. eauto.
  - intros (s & Hs & <- & Ht). assert (findFunctionSummary g (fs_qualifiedName s) = Some s) as -> by (by apply findFunctionSummary_row). done.
Qed.

Lemma leaves_chain calls chain n : leaves g calls chain n -> seed_chain calls (unguarded g) chain n /\ throws g n = true.
Proof.
  induction 1 as [calls s Hs Hin Hn Ht|calls s chain n Hs Hin Hn _ [IH Ht]].
  - split; [by apply seed_chain_one|]. apply throws_row. eauto.
  - split; [|done]. destruct chain as [|b l]; [by destruct IH|]. apply seed_chain_cons. by rewrite unguarded_row.
Qed.

Lemma chain_leaves calls chain n :
  seed_chain calls (unguarded g) chain n -> throws g n = true -> leaves g calls chain n \/ terminates_itself g n.
Proof.
  intros Hc Ht. revert calls Hc. induction chain as [|a [|b l] IH]; intros calls Hc; [by destruct Hc as [_ ? _]| |].
  - destruct Hc as [(s & [= <-] & Ha) [= <-] _]. apply throws_row in Ht as (s & Hs & <- & Ht).
    destruct (fs_isNoexcept s) eqn:En; [right; by exists s|left; by apply leaves_throw].
  - apply seed_chain_cons in Hc as [Ha Hc]. destruct (IH _ Hc) as [Hl|?]; [|by right]. left.
    destruct Hc as [(b' & [= <-] & Hb) _ _]. unfold unguarded in Hb, Hl. destruct (findFunctionSummary g a) as [s|] eqn:E; [|by apply elem_of_nil in Hb].
    apply findFunctionSummary_row in E as [Hs <-]; [|done]. destruct (fs_isNoexcept s) eqn:En; [by apply elem_of_nil in Hb|]. by eapply leaves_call.
Qed.

(** The end of a chain is called by the root or by a function of the index. *)
Lemma chain_called calls chain n :
  seed_chain calls (unguarded g) chain n -> n ∈ calls \/ exists s, s ∈ gi_functionSummaries g /\ n ∈ fs_unguardedCalls s.
Proof.
  revert calls. induction chain as [|a [|b l] IH]; intros calls Hc; [by destruct Hc as [_ ? _]| |].
  - destruct Hc as [(s & [= <-] & Ha) [= <-] _]. by left.
  - apply seed_chain_cons in Hc as [_ Hc]. destruct (IH _ Hc) as [Hin|?]; [|by right]. right. by apply (unguarded_in g Hok a).
Qed.

Lemma reaches_can_escape root : exception_reaches g root -> can_escape g root.
Proof.
  intros [Ht|(chain & n & [Hc Ht]%leaves_chain & Hl)]; [by left|right]. exists chain, n. by split_and!.
Qed.
End Documented.

(** What the diagnostic of a [noexcept] function shows: the throw of its own body, or a
    shortest chain an exception takes to it, or else a [noexcept] function that throws. *)
Definition escape_shown (g : GlobalIndex) (locations : bool) (root : FunctionSummaryEntry) (d : Diagnostic) : Prop :=
  exists hit, dx_kind d = Exception_Escape /\ dx_entities d = [fs_qualifiedName root; hit] /\
    ((fs_hasUncaughtThrow root = true /\ hit = fs_qualifiedName root) \/
     (exists chain site, leaves g (fs_unguardedCalls root) chain hit /\ length chain <= 16 /\
        (forall chain' n, leaves g (fs_unguardedCalls root) chain' n -> length chain <= length chain') /\
        dx_message d = escape_message root hit site (chain_text g locations (Some root) true chain)) \/
     terminates_itself g hit).

Lemma reported_shown g locations root d : gi_ok g -> escape_reported g locations root d -> escape_shown g locations root d.
Proof.
  intros Hok (hit & Hk & He & H). exists hit. split_and!; [done|done|]. destruct H as [?|(_ & chain & site & [(Hc & Ht & Hl) Hmin] & Hm)]; [by left|right].
  destruct (chain_leaves g Hok _ _ _ Hc Ht) as [Hlv|?]; [left|by right]. exists chain, site. split_and!; [done|done| |done].
  intros chain' n [Hc' Ht']%leaves_chain; [|done]. destruct (decide (length chain' <= kMaxDepth)) as [?|Hgt]; [by apply (Hmin chain' n)|lia].
Qed.

(** C31. The exception-escape check follows the documented propagation.  Every [noexcept]
    function that an exception reaches, by a throw in its own body or through at most sixteen
    unguarded calls that leave only functions that are not [noexcept], is reported.  Each
    diagnostic is about a [noexcept] function, one per function, in the order of file, line
    and name, and shows the throw in its own body or a shortest chain the exception takes; the
    one other thing it may show is a [noexcept] function that throws, and that function has
    a diagnostic of its own.  So where no [noexcept] function that throws is called unguarded,
    a [noexcept] function is reported if and only if an exception reaches it.  The search
    always ends. *)
Theorem exception_escape_exact `{!StdSort} (g : GlobalIndex) (locations : bool) :
  gi_ok g -> names_given g ->
  let reported := analyzeExceptionEscape g locations [] in
  let is_reported root := exists d, d ∈ reported /\ head (dx_entities d) = Some (fs_qualifiedName root) in
  (forall root, noexcept_function g root -> exception_reaches g root -> is_reported root) /\
  (exists roots, Forall2 (fun root d => noexcept_function g root /\ escape_shown g locations root d) roots reported /\
     StronglySorted (no_less_before summary_less) roots /\ NoDup (fs_qualifiedName <$> roots)) /\
  (forall s, noexcept_function g s -> terminates_itself g (fs_qualifiedName s) -> is_reported s) /\
  ((forall s n, s ∈ gi_functionSummaries g -> n ∈ fs_unguardedCalls s -> ~ terminates_itself g n) ->
   forall root, noexcept_function g root -> is_reported root <-> exception_reaches g root).
Proof.
  intros Hok Hnames reported is_reported. destruct (escape_diagnostics g locations Hok Hnames) as (HF & _ & Hiff). fold reported in HF, Hiff.
  assert (Hreach : forall root, noexcept_function g root -> exception_reaches g root -> is_reported root).
  { intros root [Hr Hn] Hx%reaches_can_escape; [|done]. by apply Hiff. }
  split_and!; [done| | |].
  - eexists. split; [eapply Forall2_impl; [exact HF|]|split].
    + intros root d (Hr & Hn & Hd). split; [done|by apply reported_shown].
    + apply StronglySorted_filter, std_sort_sorted, _.
    + by apply NoDup_fmap_filter_sub, roots_once.
  - intros s Hs (s' & Hs' & E & Ht). apply Hreach; [done|]. left. by rewrite <- (summaries_distinct g s' s Hok (proj1 Hs') (proj1 Hs) E).
  - intros Hfree root [Hr Hn]. split; [|by apply Hreach]. intros Hd. apply (Hiff root Hr Hn) in Hd as [Ht|(chain & n & Hc & Ht & Hl)]; [by left|right].
    destruct (chain_leaves g Hok _ _ _ Hc Ht) as [Hlv|Hself]; [by exists chain, n|exfalso].
    destruct (chain_called g Hok _ _ _ Hc) as [Hin|(s & Hs & Hin)]; [by apply (Hfree root n)|by apply (Hfree s n)].
Qed.

(** An index of [noexcept] function f that calls g, where g throws and may be [noexcept]. *)
Definition two_frames (callee_noexcept : bool) : GlobalIndex :=
  replay_ops empty_global_index
    [OpSummary (MkSummary (str "f") (str "a.cpp") 3 true false [str "g"] [str "g"] [(str "g", str "a.cpp:4")] [] []);
     OpSummary (MkSummary (str "g") (str "b.cpp") 9 callee_noexcept true [] [] [] (str "b.cpp:9") [])].

Lemma two_frames_ok b : gi_ok (two_frames b).
Proof. apply replay_implements; [apply empty_global_index_ok|split; by destruct b]. Qed.

Lemma exception_escape_exact_witness :
  exception_reaches (two_frames false) (MkSummary (str "f") (str "a.cpp") 3 true false [str "g"] [str "g"] [(str "g", str "a.cpp:4")] [] []) /\
  length (@analyzeExceptionEscape (two_frames false) stable_std_sort true []) = 1.
Proof.
  split; [|vm_compute; reflexivity].
  destruct (@exception_escape_exact stable_std_sort (two_frames false) true (two_frames_ok false)) as (_ & _ & _ & H).
  - assert (Hd : Forall (fun s => fs_qualifiedName s <> [] /\ [] ∉ fs_unguardedCalls s) (gi_functionSummaries (two_frames false))) by by_computation.
    rewrite Forall_forall in Hd. exact Hd.
  - apply H.
    + intros s n _ _ (t & [Ht Hn] & _ & Hthrow).
      assert (Hd : Forall (fun s => negb (fs_isNoexcept s && fs_hasUncaughtThrow s) = true) (gi_functionSummaries (two_frames false))) by by_computation.
      rewrite Forall_forall in Hd. specialize (Hd t Ht). cbv beta in Hd. rewrite Hn, Hthrow in Hd. discriminate Hd.
    + split; [vm_compute; left|reflexivity].
    + eexists. split; [vm_compute; left|reflexivity].
Defined.

(** The chain stops at a [noexcept] callee only on the way: a [noexcept] function whose
    callee is [noexcept] and throws is reported for the callee's throw, although that
    exception terminates in the callee's own frame and never reaches the caller. *)
Theorem noexcept_callee_is_crossed (locations : bool) :
  dx_entities <$> @analyzeExceptionEscape (two_frames true) stable_std_sort locations [] = [[str "f"; str "g"]; [str "g"; str "g"]].
Proof. by destruct locations; vm_compute. Qed.
