(* ===== verification/InitOrderCorrect.v ===== *)
(** The static-initialization-order check reports exactly the variables of other files a
    dynamic initializer can read, each once and over a shortest chain of calls. *)

From S2P Require Import Prelude StringInterner Ordering Results Upsert GlobalIndex GlobalIndexCorrect GlobalIndexTheorems ReachAnalyses EscapeCorrect.
Import InitOrder.

Section InitOrder.
Variables (g : GlobalIndex) (entry : StaticInitEntry).
Hypothesis Hok : gi_ok g.

(** One of the references leads to [target]. *)
Definition refers (refs : list bytes) (target : StaticInitEntry) : Prop :=
  exists ref, ref ∈ refs /\ resolveTarget g entry ref = Some target.

(** The initializer's own references. *)
Definition reads_itself (target : StaticInitEntry) : Prop := refers (si_referencedGlobals entry) target.

(** A chain of at most sixteen calls to a function that refers to the target. *)
Definition reads_through (chain : list bytes) (target : StaticInitEntry) : Prop :=
  exists n, seed_chain (si_calledFunctions entry) (called g) chain n /\ length chain <= kMaxDepth /\ refers (referenced_globals g n) target.

Definition reads (target : StaticInitEntry) : Prop := reads_itself target \/ exists chain, reads_through chain target.

Lemma resolveTarget_name ref target : resolveTarget g entry ref = Some target -> si_qualifiedName target = ref.
Proof.
  unfold resolveTarget. rewrite findStaticInit_first by done. destruct (first_named (gi_staticInits g) ref) as [[i e]|] eqn:E; [|done]. cbn.
  apply list_find_Some in E as (_ & E & _). case_match; [done|]. case_decide; [done|]. by intros [= <-].
Qed.

Lemma refers_name refs target target' : refers refs target -> resolveTarget g entry (si_qualifiedName target) = Some target' -> target = target'.
Proof. intros (ref & _ & H). rewrite (resolveTarget_name _ _ H). congruence. Qed.

(** The diagnostic of a target. *)
Definition order_diagnostic (target : StaticInitEntry) (chain : bytes) : Diagnostic :=
  entity_diagnostic StaticInit_OrderDependency (at_line (si_filePath entry) (si_line entry)) [si_qualifiedName entry; si_qualifiedName target]
    (order_message entry target chain).

(** The set of targets and the diagnostics agree. *)
Definition in_step (a : gset bytes * list Diagnostic) : Prop :=
  exists ts, NoDup ts /\ (forall t, t ∈ ts <-> t ∈ a.1) /\ dx_entities <$> a.2 = (fun t => [si_qualifiedName entry; t]) <$> ts.

Lemma report_spec target chain a : in_step a ->
  let a' := order_report entry target chain a in
  in_step a' /\ (forall t, t ∈ a'.1 <-> t ∈ a.1 \/ t = si_qualifiedName target) /\
  (forall d, d ∈ a'.2 -> d ∈ a.2 \/ (d = order_diagnostic target chain /\ si_qualifiedName target ∉ a.1)) /\
  (forall d, d ∈ a.2 -> d ∈ a'.2).
Proof.
  intros (ts & Hnd & Hts & He). unfold order_report. case_decide as Hin; cbn.
  - split_and!; [by exists ts| |by left|done]. intros t. split; [by left|]. intros [?| ->]; done.
  - split_and!.
    + exists (ts ++ [si_qualifiedName target]). split_and!.
      * apply NoDup_app. split_and!; [done| |apply NoDup_singleton]. intros t Ht ->%list_elem_of_singleton. by apply Hin, Hts.
      * intros t. cbn. rewrite elem_of_app, list_elem_of_singleton, Hts, elem_of_union, elem_of_singleton. tauto.
      * cbn. rewrite !fmap_app, He. done.
    + set_solver.
    + intros d [?| ->%list_elem_of_singleton]%elem_of_app; [by left|right]. done.
    + intros d Hd. apply elem_of_app. by left.
Qed.

Lemma report_refs_spec refs chain a : in_step a ->
  let a' := report_refs g entry chain refs a in
  in_step a' /\ (forall t, t ∈ a'.1 <-> t ∈ a.1 \/ exists target, refers refs target /\ si_qualifiedName target = t) /\
  (forall d, d ∈ a'.2 -> d ∈ a.2 \/ exists target, refers refs target /\ d = order_diagnostic target chain /\ si_qualifiedName target ∉ a.1) /\
  (forall d, d ∈ a.2 -> d ∈ a'.2).
Proof.
  unfold report_refs. revert a. induction refs as [|ref refs IH]; intros a Ha; cbn.
  { split_and!; [done| |by left|done]. intros t. split; [by left|]. intros [?|(target & (r & Hr%elem_of_nil & _) & _)]; done. }
  assert (Hcons : forall target, refers (ref :: refs) target <-> resolveTarget g entry ref = Some target \/ refers refs target).
  { intros target. unfold refers. setoid_rewrite elem_of_cons. naive_solver. }
  setoid_rewrite Hcons. destruct (resolveTarget g entry ref) as [target|] eqn:Er.
  - destruct (report_spec target chain a Ha) as (Ha1 & H1 & H2 & H3). destruct (IH _ Ha1) as (Ha2 & I1 & I2 & I3). split_and!; [done| | |auto].
    + intros t. rewrite I1, H1. split; [intros [[?| ->]|(x & ? & ?)]; eauto|]. intros [?|(x & [[= <-]|?] & <-)]; eauto.
    + intros d [Hd|(x & Hx & -> & Hnx)]%I2.
      * apply H2 in Hd as [?|[-> Hn]]; [by left|right]. exists target. auto.
      * right. exists x. split_and!; [by right|done|]. intros Hin. apply Hnx, H1. by left.
  - destruct (IH _ Ha) as (Ha2 & I1 & I2 & I3). split_and!; [done| | |done].
    + intros t. rewrite I1. split; [intros [?|(x & ? & ?)]; eauto|]. intros [?|(x & [?|?] & <-)]; [by left|done|eauto].
    + intros d [Hd|(x & Hx & -> & Hnx)]%I2; [by left|right]. exists x. auto.
Qed.

(** What a diagnostic shows: the target itself, or a shortest chain to it. *)
Definition shows (d : Diagnostic) : Prop :=
  exists target chain, d = order_diagnostic target (arrows chain) /\
    ((reads_itself target /\ chain = []) \/
     (~ reads_itself target /\ reads_through chain target /\ forall chain', reads_through chain' target -> length chain <= length chain')).

Lemma arrow_chain_to parent n : n <> [] -> chain_to parent n <> [] -> arrow_chain parent n = arrows (chain_to parent n).
Proof.
  intros Hn. unfold arrow_chain, chain_to. change (hops_up parent (S (S (size parent))) n) with
    (if decide (n = []) then Some [] else cons n <$> hops_up parent (S (size parent)) (default [] (parent !! n))).
  rewrite decide_False by done. by destruct (hops_up parent (S (size parent)) (default [] (parent !! n))).
Qed.

(** The calls that are recorded have names. *)
Definition calls_named : Prop :=
  ~ ([] ∈ si_calledFunctions entry) /\ (forall s, s ∈ gi_functionSummaries g -> ~ ([] ∈ fs_calledFunctions s)).

Lemma called_in p n : n ∈ called g p -> exists s, s ∈ gi_functionSummaries g /\ n ∈ fs_calledFunctions s.
Proof.
  unfold called. destruct (findFunctionSummary g p) as [s|] eqn:E; [|by intros ?%elem_of_nil].
  apply findFunctionSummary_row in E as [Hs _]; [|done]. by exists s.
Qed.

(** What the search keeps true: the targets found are those the initializer or a visited
    function refers to. *)
Definition covers (visited : Queue) (a : gset bytes * list Diagnostic) : Prop :=
  in_step a /\
  (forall t, t ∈ a.1 <-> exists target, si_qualifiedName target = t /\ (reads_itself target \/ exists m e, (m, e) ∈ visited /\ refers (referenced_globals g m) target)) /\
  (forall d, d ∈ a.2 -> shows d).

Lemma visit_covers visited parent n d rest a a' : calls_named ->
  searched (si_calledFunctions entry) (called g) kMaxDepth visited parent ((n, d) :: rest) -> covers visited a ->
  order_visit g entry parent n a = inl a' -> covers (visited ++ [(n, d)]) a'.
Proof.
  intros [Hne1 Hne2] Hs (Hin & Ht & Hd) [= <-]. pose proof (se_found _ _ _ _ _ _ Hs) as Hf.
  assert (Hn : (n, d) ∈ visited ++ (n, d) :: rest) by (apply elem_of_app; right; left).
  assert (Hne : forall m' e, (m', e) ∈ visited ++ (n, d) :: rest -> m' <> []).
  { intros m' e Hm'. destruct (fd_origin _ _ _ _ _ _ Hf m' e Hm') as (p & _ & [(_ & Hseed & _)|(e' & _ & _ & _ & Hcall)]).
    - by intros ->.
    - apply called_in in Hcall as (s & Hs' & Hcall). intros ->. by apply (Hne2 s Hs'). }
  destruct (chain_to_found _ _ _ _ _ _ _ _ Hf Hne Hn) as [Hc Hl].
  pose proof (depth_limited _ _ kMaxDepth _ _ _ _ _ ltac:(unfold kMaxDepth; lia) Hf Hn) as Hlim.
  destruct (report_refs_spec (referenced_globals g n) (arrow_chain parent n) a Hin) as (Hin' & Ht' & Hd' & _). split_and!; [done| |].
  - intros t. rewrite Ht', Ht. split.
    + intros [(x & <- & [?|(m & e & Hm & Hr)])|(x & Hx & <-)]; exists x; (split; [done|]); [by left|right; exists m, e|right; exists n, d];
        rewrite elem_of_app; auto. split; [right; left|done].
    + intros (x & <- & [?|(m & e & [Hm|[= -> ->]%list_elem_of_singleton]%elem_of_app & Hr)]); [left; eauto 10|left; eauto 10|right; eauto].
  - intros dx [Hdx|(x & Hx & -> & Hnx)]%Hd'; [by apply Hd|]. exists x, (chain_to parent n).
    assert (Hcne : chain_to parent n <> []) by (intros E; rewrite E in Hl; cbn in Hl; lia).
    rewrite arrow_chain_to by (done || by eapply Hne). split; [done|]. right. split_and!.
    + intros Hself. apply Hnx, Ht. exists x. auto.
    + exists n. split_and!; [done|lia|done].
    + intros chain' (m & Hc' & Hlen' & Hr). rewrite Hl. assert (d < length chain'); [|lia].
      eapply next_is_nearest; [done|done|done|]. intros ([m' e] & -> & Hm)%list_elem_of_fmap. apply Hnx, Ht. exists x. eauto 10.
Qed.

Lemma start_covers : covers [] (report_refs g entry [] (si_referencedGlobals entry) (∅, [])).
Proof.
  destruct (report_refs_spec (si_referencedGlobals entry) [] (∅, [])) as (Hin & Ht & Hd & _).
  { exists []. split_and!; [constructor|set_solver|done]. }
  split_and!; [done| |].
  - intros t. rewrite Ht. split.
    + intros [?|(x & Hx & <-)]; [set_solver|]. exists x. auto.
    + intros (x & <- & [?|(m & e & Hm%elem_of_nil & _)]); [right; eauto|done].
  - intros d [Hd'%elem_of_nil|(x & Hx & -> & _)]%Hd; [done|]. exists x, []. split; [done|]. by left.
Qed.

Lemma entry_covers : calls_named -> exists visited a, covers visited a /\ entry_diagnostics g entry = a.2 /\
  forall target, reads target <-> (reads_itself target \/ exists m e, (m, e) ∈ visited /\ refers (referenced_globals g m) target).
Proof.
  intros Hne. unfold entry_diagnostics. pose proof (seeds_searched (si_calledFunctions entry) (called g) kMaxDepth) as Hs.
  destruct (discover_seeds (si_calledFunctions entry)) as [parent queue]. cbn in Hs.
  destruct (bfs_from (si_calledFunctions entry) (called g) kMaxDepth (order_visit g entry) (all_names g entry)
    (fun s Hs => proj2 (elem_of_app _ _ _) (or_introl Hs))
    (fun p n Hn => proj2 (elem_of_app _ _ _) (or_intror (proj2 (list_elem_of_bind _ _ _) (let '(ex_intro _ s (conj H1 H2)) := called_in p n Hn in ex_intro _ s (conj H2 H1)))))
    covers (S (length (all_names g entry))) [] parent queue (report_refs g entry [] (si_referencedGlobals entry) (∅, []))) as (a & -> & Hend).
  - intros. by eapply visit_covers.
  - cbn. lia.
  - done.
  - apply start_covers.
  - destruct Hend as [(visited & parent' & Hs' & Ha)|(visited & parent' & n & d & rest & b & _ & _ & Hv)]; [|done].
    exists visited, a. split_and!; [done|done|]. intros target. unfold reads. split.
    + intros [?|(chain & n & Hc & Hlen & Hr)]; [by left|right]. destruct (chain_found _ _ _ _ _ _ _ _ Hs' Hc Hlen) as (e & He & _); [by intros ?? ?%elem_of_nil|].
      rewrite app_nil_r in He. eauto.
    + intros [?|(m & e & Hm & Hr)]; [by left|right]. pose proof (se_found _ _ _ _ _ _ Hs') as Hf.
      assert (Hm' : (m, e) ∈ visited ++ []) by (by rewrite app_nil_r).
      destruct (chain_to_found _ _ _ _ _ _ m e Hf) as [Hc Hl]; [|done|].
      { intros m' e' Hm''. destruct (fd_origin _ _ _ _ _ _ Hf m' e' Hm'') as (p & _ & [(_ & Hseed & _)|(e'' & _ & _ & _ & Hcall)]); destruct Hne as [Hne1 Hne2].
        - by intros ->.
        - apply called_in in Hcall as (s & Hs2 & Hcall). intros ->. by apply (Hne2 s Hs2). }
      exists (chain_to parent' m), m. split_and!; [done| |done]. pose proof (depth_limited _ _ kMaxDepth _ _ _ _ _ ltac:(unfold kMaxDepth; lia) Hf Hm'). lia.
Qed.
End InitOrder.


(** x.cpp initializes [x] from f(), which calls g(), which reads [y] of y.cpp. *)
Definition through_calls : GlobalIndex :=
  replay_ops empty_global_index
    [OpStaticInit (MkStaticInit (str "x") (str "x.cpp") 1 true false [] [str "f"]);
     OpStaticInit (MkStaticInit (str "y") (str "y.cpp") 2 true false [] []);
     OpSummary (MkSummary (str "f") (str "f.cpp") 3 false false [str "g"] [] [] [] []);
     OpSummary (MkSummary (str "g") (str "g.cpp") 4 false false [] [] [] [] [str "y"])].

Lemma through_calls_ok : gi_ok through_calls.
Proof. apply replay_implements; [apply empty_global_index_ok|split; by vm_compute]. Qed.

