(* ===== verification/HazardsCorrect.v ===== *)
(** The static-initialization-hazard check reports a root exactly when a chain of calls in
    the graph leads to a hazard, with a shortest such chain. *)

From S2P Require Import Prelude StringInterner CallGraph CallGraphInv CallGraphQuery Ordering Results Upsert GlobalIndex GlobalIndexCorrect ReachAnalyses EscapeCorrect InitOrderCorrect.
Import Hazards.

Section Hazards.
Variables (isValidUtf8 : bytes -> bool) (graph : CallGraph) (registered : list bytes) (root : StaticInitEntry).
Hypothesis Hgraph : cg_ok graph.

Abbreviation hazard := (hazards registered).

(** The names a function calls in the graph. *)
Definition callees (n : bytes) : list bytes := calleeName <$> calleesOf isValidUtf8 graph n.

(** Hazards and functions have names. *)
Hypothesis Hhazards : ~ ([] ∈ registered).
Hypothesis Hseeds : ~ ([] ∈ root_seeds root).
Hypothesis Hdisplays : Forall (fun i => displayFor graph (N.of_nat i) <> []) (seq 0 (table_size (interner_ graph))).

(** Every name the graph can add. *)
Definition graph_names : list bytes := root_seeds root ++ ((fun i => displayFor graph (N.of_nat i)) <$> seq 0 (table_size (interner_ graph))).

Lemma callees_displayed n m : m ∈ callees n -> exists i, i < table_size (interner_ graph) /\ m = displayFor graph (N.of_nat i).
Proof.
  unfold callees, calleesOf. intros (e & -> & (u & (r & -> & Hr)%list_elem_of_fmap & _)%list_elem_of_bind)%list_elem_of_fmap.
  exists (N.to_nat (r_callee r)). rewrite N2Nat.id. split; [|done].
  destruct (calleeRefsOf_spec graph u Hgraph) as [Hs _]. destruct (Hs r Hr) as [Hsh _].
  destruct (shown_known graph r Hgraph Hsh) as (_ & [s Hk] & _). by apply resolve_opt_lt in Hk.
Qed.

Lemma callees_in n m : m ∈ callees n -> m ∈ graph_names.
Proof.
  intros (i & Hi & ->)%callees_displayed. apply elem_of_app. right. apply list_elem_of_fmap. exists i. split; [done|]. apply elem_of_seq. lia.
Qed.

Lemma callees_named n : ~ ([] ∈ callees n).
Proof.
  intros (i & Hi & E)%callees_displayed. rewrite Forall_forall in Hdisplays. apply (Hdisplays i); [apply elem_of_seq; lia|done].
Qed.

(** A chain of calls from the root to a hazard, at most 25 calls after the first function. *)
Definition reaches_hazard (chain : list bytes) (n : bytes) : Prop :=
  seed_chain (root_seeds root) callees chain n /\ length chain <= S kMaxDepth /\ n ∈ hazard.

Abbreviation disc := (discover_until registered).
Abbreviation searching := (searched (root_seeds root) callees (S kMaxDepth)).
Abbreviation finding := (found (root_seeds root) callees (S kMaxDepth)).
Abbreviation starting := (origin (root_seeds root) callees (S kMaxDepth)).

Definition clean (l : Queue) : Prop := forall m e, (m, e) ∈ l -> m ∉ hazard.

Lemma no_empty_hazard : [] ∉ hazard.
Proof. unfold hazards. rewrite elem_of_list_to_set, elem_of_app. intros [H|H]; [|done]. revert H. by_computation. Qed.

(** The inner loop discovers names until one is a hazard. *)
Lemma until_spec dn from depth ns parent queue :
  finding dn parent queue -> (forall n, n ∈ ns -> starting dn from depth n) -> pushable dn queue depth -> clean (dn ++ queue) ->
  let '(parent', queue', hit) := disc from depth ns parent queue in
  (hit = [] /\ (parent', queue') = foldl (discover from depth) (parent, queue) ns /\ clean (dn ++ queue')) \/
  (hit <> [] /\ hit ∈ hazard /\ finding dn parent' (queue' ++ [(hit, depth)])).
Proof.
  revert parent queue. induction ns as [|n ns IH]; intros parent queue Hf Ho Hp Hc; [by left|].
  destruct (discover_found _ _ _ dn parent queue from depth n Hf) as (Hf1 & Hp1 & _ & _); [apply Ho; left|done|].
  assert (Ho' : forall m, m ∈ ns -> starting dn from depth m) by (intros; apply Ho; by right).
  assert (E : discover from depth (parent, queue) n = match parent !! n with Some _ => (parent, queue) | None => (<[n := from]> parent, queue ++ [(n, depth)]) end) by done.
  cbn [discover_until foldl]. rewrite E in *. destruct (parent !! n) as [p|] eqn:Ep.
  - by apply IH.
  - cbn [fst snd] in *. case_decide as Hh.
    + right. split_and!; [|done|done]. intros ->. by apply no_empty_hazard.
    + apply IH; [done|done|done|]. intros m e. rewrite (assoc_L app), elem_of_app, list_elem_of_singleton. intros [Hm|[= -> ->]]; [by eapply Hc|done].
Qed.

Lemma finding_named dn parent queue m e : finding dn parent queue -> (m, e) ∈ dn ++ queue -> m <> [].
Proof.
  intros Hf Hm. destruct (fd_origin _ _ _ _ _ _ Hf m e Hm) as (p & _ & [(_ & Hs & _)|(e' & _ & _ & _ & Hs)]); intros ->; [done|by apply (callees_named p)].
Qed.

(** What the search answers. *)
Definition answers (hit : bytes) (parent : Parents) : Prop :=
  (hit = [] /\ forall chain n, ~ reaches_hazard chain n) \/
  (hit <> [] /\ reaches_hazard (chain_to parent hit) hit /\ arrow_chain parent hit = arrows (chain_to parent hit) /\
   forall chain n, reaches_hazard chain n -> length (chain_to parent hit) <= length chain).

(** The hit ends a chain as long as its depth. *)
Lemma hit_chain dn parent queue hit depth : finding dn parent (queue ++ [(hit, depth)]) -> hit <> [] -> hit ∈ hazard ->
  reaches_hazard (chain_to parent hit) hit /\ arrow_chain parent hit = arrows (chain_to parent hit) /\ length (chain_to parent hit) = depth + 1.
Proof.
  intros Hf Hne Hh. assert (Hin : (hit, depth) ∈ dn ++ queue ++ [(hit, depth)]) by (rewrite (assoc_L app); apply elem_of_app; right; left).
  destruct (chain_to_found _ _ _ _ _ _ _ _ Hf (fun m e => finding_named _ _ _ m e Hf) Hin) as [Hc Hl].
  pose proof (depth_limited _ _ _ _ _ _ _ _ (Nat.lt_0_succ _) Hf Hin) as Hd. split_and!; [|apply arrow_chain_to|done].
  - split_and!; [done|lia|done].
  - done.
  - intros E. rewrite E in Hl. cbn in Hl. lia.
Qed.

Lemma hazard_loop_answers fuel dn parent queue :
  length graph_names < length dn + fuel -> searching dn parent queue -> clean (dn ++ queue) ->
  exists hit parent', hazard_loop isValidUtf8 graph registered (S fuel) parent queue [] = Some (hit, parent') /\ answers hit parent'.
Proof.
  revert dn parent queue. induction fuel as [|fuel IH]; intros dn parent queue Hfuel Hs Hc.
  { exfalso. assert (Hsub : dn.*1 ⊆+ graph_names).
    { apply NoDup_submseteq.
      - pose proof (fd_once _ _ _ _ _ _ (se_found _ _ _ _ _ _ Hs)) as Hnd. rewrite fmap_app in Hnd. by apply NoDup_app in Hnd as [Hnd _].
      - intros n ([n' d] & -> & Hn)%list_elem_of_fmap. eapply found_in_universe; [| |apply Hs|apply elem_of_app; by left].
        + intros s Hin. apply elem_of_app. by left.
        + apply callees_in. }
    apply submseteq_length in Hsub. rewrite length_fmap in Hsub. lia. }
  cbn [hazard_loop]. rewrite decide_False by tauto. destruct queue as [|[n d] rest].
  { exists [], parent. split; [done|]. left. split; [done|]. intros chain m (Hch & Hlen & Hm).
    destruct (chain_found _ _ _ _ _ _ _ _ Hs Hch Hlen) as (e & He & _); [by intros ?? ?%elem_of_nil|]. by apply (Hc m e He). }
  assert (Hmove : forall m e, (m, e) ∈ (dn ++ [(n, d)]) ++ rest -> m ∉ hazard) by (intros m e; rewrite <- (assoc_L app); apply Hc).
  pose proof (pop_searched _ _ _ dn parent n d rest Hs) as Hpop. destruct (decide (kMaxDepth <= d)) as [Hd|Hd].
  { rewrite decide_True in Hpop by lia. apply (IH (dn ++ [(n, d)])); [rewrite length_app; cbn; lia|done|exact Hmove]. }
  rewrite decide_False in Hpop by lia. destruct (pop_found _ _ _ dn parent n d rest (se_found _ _ _ _ _ _ Hs)) as [Hf Hp].
  pose proof (until_spec (dn ++ [(n, d)]) n (d + 1) (callees n) parent rest Hf) as Hu. fold (callees n).
  destruct (disc n (d + 1) (callees n) parent rest) as [[parent' queue'] hit]. destruct Hu as [(-> & E & Hcl)|(Hne & Hh & Hf')].
  { intros m Hm. right. exists d. split_and!; [apply elem_of_app; right; left|done|lia|done]. }
  { done. }
  { exact Hmove. }
  - rewrite <- E in Hpop. apply (IH (dn ++ [(n, d)])); [rewrite length_app; cbn; lia|done|done].
  - exists hit, parent'. destruct fuel as [|fuel]; [cbn in Hfuel|]; cbn [hazard_loop]; rewrite decide_True by done.
    all: split; [done|]; right; destruct (hit_chain _ _ _ _ _ Hf' Hne Hh) as (H1 & H2 & H3); split_and!; [done|done|done|];
      intros chain m (Hch & Hlen & Hm); rewrite H3; destruct (decide (length chain <= d + 1)) as [Hle|]; [|lia];
      destruct (chain_found _ _ _ _ _ _ _ _ Hs Hch Hlen) as (e & He & _); [|by destruct (Hc m e He)];
      intros m' e' Hm'; pose proof (queue_depth _ _ _ _ _ _ _ _ _ _ (se_found _ _ _ _ _ _ Hs) Hm'); lia.
Qed.

Lemma search_answers : let '(hit, parent) := hazard_search isValidUtf8 graph registered root in answers hit parent.
Proof.
  unfold hazard_search. pose proof (until_spec [] [] 0 (root_seeds root) ∅ []) as Hu. pose proof (seeds_searched (root_seeds root) callees (S kMaxDepth)) as Hs.
  destruct (disc [] 0 (root_seeds root) ∅ []) as [[parent queue] hit]. destruct Hu as [(-> & E & Hcl)|(Hne & Hh & Hf)].
  - split; cbn; [constructor| |constructor|by intros ???? ?%elem_of_nil|by intros ?? ?%elem_of_nil].
    intros n. rewrite lookup_empty, elem_of_nil. split; [by intros []|done].
  - intros n Hn. by left.
  - split; by intros n d ?%elem_of_nil.
  - by intros m e ?%elem_of_nil.
  - unfold discover_seeds in Hs. rewrite <- E in Hs. cbn in Hs.
    destruct (hazard_loop_answers (S (length (root_seeds root) + table_size (interner_ graph))) [] parent queue) as (hit & parent' & -> & Ha); [|done|done|done].
    unfold graph_names. rewrite length_app, length_fmap, length_seq. cbn. lia.
  - cbn [hazard_loop]. rewrite decide_True by done. cbn. right. destruct (hit_chain _ _ _ _ _ Hf Hne Hh) as (H1 & H2 & H3). split_and!; [done|done|done|].
    intros chain m ([(s & Hsd & _) _ _] & _). rewrite H3. destruct chain; [done|cbn; lia].
Qed.
End Hazards.

(** C34. The static-initialization-hazard check is exact for every root: nothing is reported
    when no chain of calls of the graph leads from the initializer to a hazard within
    twenty-five calls; otherwise the diagnostic names the hazard at the end of a shortest such
    chain and shows that chain.  The search ends on every graph, cyclic ones included. *)
Theorem static_init_hazards_exact (isValidUtf8 : bytes -> bool) (graph : CallGraph) (registered : list bytes) (root : StaticInitEntry) :
  cg_ok graph -> ~ ([] ∈ registered) -> ~ ([] ∈ root_seeds root) ->
  Forall (fun i => displayFor graph (N.of_nat i) <> []) (seq 0 (table_size (interner_ graph))) ->
  match hazard_report isValidUtf8 graph registered root with
  | None => forall chain n, ~ reaches_hazard isValidUtf8 graph registered root chain n
  | Some d =>
      exists hit chain, reaches_hazard isValidUtf8 graph registered root chain hit /\
        (forall chain' n, reaches_hazard isValidUtf8 graph registered root chain' n -> length chain <= length chain') /\
        d = entity_diagnostic StaticInit_Hazard (at_line (si_filePath root) (si_line root)) [si_qualifiedName root; hit]
              (hazard_message root hit (arrows chain))
  end.
Proof.
  intros Hg Hr Hs Hd. pose proof (search_answers isValidUtf8 graph registered root Hg Hr Hs Hd) as H. unfold hazard_report.
  destruct (hazard_search isValidUtf8 graph registered root) as [hit parent]. destruct H as [(-> & H)|(Hne & H1 & H2 & H3)]; [done|].
  rewrite decide_False by done. exists hit, (chain_to parent hit). split_and!; [done|done|]. by rewrite H2.
Qed.

(** The initializer of x calls init, which calls load, which calls dlopen. *)
Definition loading : CallGraph :=
  build [AddEdge (direct (str "init") (str "load") (str "a.cpp:2:1")) (str "a.cpp");
         AddEdge (direct (str "load") (str "init") (str "a.cpp:3:1")) (str "a.cpp");
         AddEdge (direct (str "load") (str "dlopen") (str "a.cpp:4:1")) (str "a.cpp")] empty_graph.

Lemma static_init_hazards_exact_witness :
  let root := MkStaticInit (str "x") (str "a.cpp") 7 true false [] [str "init"] in
  exists chain, reaches_hazard (fun _ => true) loading [] root chain (str "dlopen") /\ length chain <= 3.
Proof.
  intros root. pose proof (static_init_hazards_exact (fun _ => true) loading [] root) as H.
  assert (E : dx_entities <$> hazard_report (fun _ => true) loading [] root = Some [str "x"; str "dlopen"]) by (vm_compute; reflexivity).
  destruct (hazard_report (fun _ => true) loading [] root) as [d|]; [|done].
  destruct H as (hit & chain & Hc & Hmin & ->).
  - apply build_ok; vm_compute; discriminate.
  - by_computation.
  - by_computation.
  - by_computation.
  - cbn in E. injection E as ->. exists chain. split; [done|]. apply (Hmin [str "init"; str "load"; str "dlopen"] (str "dlopen")).
    split; [split; [by exists (str "init"); split; [|left]|done|split; [by_computation|split; [by_computation|done]]]|by split; by_computation].
Defined.
