(* ===== verification/IndexAnalyses.v ===== *)
(** The checks that compare the entries of the global index (src/check/Analyzer.cpp): coverage
    properties, one-definition-rule violations, default-argument and exception-specification
    divergence, and header statics. *)

From S2P Require Import Prelude StringInterner Ordering Results SortedMap Upsert GlobalIndex ReachAnalyses.

(** [m\[key(e)\]] is updated for every entry in turn; a missing group starts as [init]. *)
Definition group_by {E G} (key : E -> bytes) (init : G) (add : G -> E -> G) (l : list E) : gmap bytes G :=
  foldl (fun m e => <[key e := add (default init (m !! key e)) e]> m) ∅ l.

(** A definition or declaration site. *)
Abbreviation Site := (bytes * N)%type.

Definition formatSite (s : Site) : bytes := at_line s.1 s.2.

(** The texts joined by ", ", each after the first only when something was written before:
    the source tests whether the text so far is empty. *)
Definition append_listed (text item : bytes) : bytes := (if decide (text = []) then [] else text ++ str ", ") ++ item.

(** * Coverage properties *)

Module Coverage.

(** [std::unordered_map<int, V>] is visited in an order that is not fixed. *)
Class IntIter := {
  int_iter : forall {V : Type}, gmap Z V -> list (Z * V);
  int_iter_perm : forall V (m : gmap Z V), int_iter m ≡ₚ map_to_list m
}.

Definition canonical_int_iter : IntIter := {| int_iter := fun V m => map_to_list m; int_iter_perm := fun V m => reflexivity _ |}.

(** [std::to_string] of an [int]. *)
Definition to_string_int (z : Z) : bytes :=
  if (z <? 0)%Z then str "-" ++ to_string (Z.to_N (- z)) else to_string (Z.to_N z).

Definition gvaLinkageName (gva : Z) : bytes :=
  match gva with
  | 0%Z => str "GVA_Internal"
  | 1%Z => str "GVA_AvailableExternally"
  | 2%Z => str "GVA_DiscardableODR"
  | 3%Z => str "GVA_StrongODR"
  | 4%Z => str "GVA_StrongExternal"
  | _ => str "Unknown(" ++ to_string_int gva ++ str ")"
  end.

Definition coverage_diagnostic (kind : DiagnosticKind) (m : CoveragePropertyEntry) (better message : bytes) : Diagnostic :=
  MkDiagnostic kind [] (at_line (cp_headerPath m) (cp_sourceLine m)) (cp_signature m) better [] message [] [] [].

(** Phase A: linkage that loses instrumentation. *)
Definition risky (m : CoveragePropertyEntry) : list Diagnostic :=
  (if decide (cp_gvaLinkage m = 2%Z) then
     [coverage_diagnostic Coverage_DiscardableODR m []
        (str "Coverage risk: " ++ cp_signature m ++
         str " has GVA_DiscardableODR linkage. COMDAT deduplication at link time may replace the instrumented definition with an uninstrumented one from another TU, producing hash 0x0 in coverage data.")]
   else []) ++
  (if decide (cp_gvaLinkage m = 1%Z) then
     [coverage_diagnostic Coverage_AvailableExternally m []
        (str "Coverage risk: " ++ cp_signature m ++
         str " has GVA_AvailableExternally linkage. The optimizer may inline the body and then discard the standalone definition, eliminating coverage instrumentation.")]
   else []).

(** [byGVA\[m->gvaLinkage\].push_back(m)] for every method. *)
Definition by_linkage (methods : list CoveragePropertyEntry) : gmap Z (list CoveragePropertyEntry) :=
  foldl (fun byGVA m => push_back (cp_gvaLinkage m) m byGVA) ∅ methods.

(** The first largest group in iteration order, and its size. *)
Definition majority (groups : list (Z * list CoveragePropertyEntry)) : nat * Z :=
  foldl (fun best kv => if decide (best.1 < length kv.2) then (length kv.2, kv.1) else best) (0, (-1)%Z) groups.

(** Phase B: methods whose linkage is not the majority's. *)
Definition mismatches (className : bytes) (groups : list (Z * list CoveragePropertyEntry)) : list Diagnostic :=
  let '(maxGroupSize, majorityGVA) := majority groups in
  kv ← groups;
  if decide (kv.1 = majorityGVA) then []
  else (fun m =>
          coverage_diagnostic Coverage_GVAMismatch m (str "majority linkage: " ++ gvaLinkageName majorityGVA)
            (str "Coverage divergence in " ++ className ++ str ": " ++ cp_signature m ++ str " has " ++ gvaLinkageName kv.1 ++ str " linkage, but " ++
             to_string (N.of_nat maxGroupSize) ++ str " other method(s) in the same class have " ++ gvaLinkageName majorityGVA ++
             str " linkage. This difference may cause divergent coverage instrumentation behavior.")) <$> kv.2.

Definition bool_text (b : bool) : bytes := if b then str "true" else str "false".

Definition simple_body (m : CoveragePropertyEntry) : bool := (cp_bodyStmtCount m <=? 8)%N || cp_isTrivial m.

Definition described (m : CoveragePropertyEntry) : bytes :=
  cp_signature m ++ str " (body complexity: " ++ to_string (cp_bodyStmtCount m) ++ str " stmts, inline=" ++ bool_text (cp_isInlined m) ++
  str ", constexpr=" ++ bool_text (cp_isConstexpr m).

(** Phase C: a trivial and a complex method of one linkage. *)
Definition divergence (className : bytes) (a b : CoveragePropertyEntry) : list Diagnostic :=
  if eqb (simple_body a) (simple_body b) then []
  else
    let '(cplx, trivial) := if simple_body a then (b, a) else (a, b) in
    [coverage_diagnostic Coverage_PropertyDivergence cplx (cp_signature trivial)
       (str "Coverage property divergence in " ++ className ++ str ": " ++ described cplx ++ str ") vs " ++ described trivial ++
        str "). The more complex method may receive different optimization treatment affecting coverage instrumentation.")].

(** The pairs [i < j] of a vector. *)
Fixpoint pairs {A} (l : list A) : list (A * A) :=
  match l with
  | [] => []
  | a :: l' => (pair a <$> l') ++ pairs l'
  end.

Definition class_diagnostics `{!IntIter} (className : bytes) (methods : list CoveragePropertyEntry) : list Diagnostic :=
  (methods ≫= risky) ++
  (if decide (length methods < 2) then []
   else
     let groups := int_iter (by_linkage methods) in
     (if decide (1 < size (by_linkage methods)) then mismatches className groups else []) ++
     (kv ← groups; if decide (length kv.2 < 2) then [] else (ab ← pairs kv.2; divergence className ab.1 ab.2))).

Definition analyzeCoverageProperties `{!UnorderedIter} `{!IntIter} (g : GlobalIndex) (diagnostics : list Diagnostic) : list Diagnostic :=
  diagnostics ++ (className ← allIndexedClasses g; class_diagnostics className (findClassMethods g className)).
End Coverage.

(** * One-definition-rule violations *)

Module Odr.

(** Hash of a body to the smallest unit that compiled it. *)
Abbreviation HashTus := (gmap N bytes).

Record OdrGroup := MkOdrGroup {
  displayName : bytes;
  isClass : bool;
  enclosingClass : bytes;
  sites : list (Site * HashTus)
}.

Definition no_odr_group : OdrGroup := MkOdrGroup [] false [] [].

Definition odr_group_key (e : OdrEntry) : bytes :=
  od_qualifiedName e ++ bar ++ od_signature e ++ (if od_isClass e then str "|c" else str "|f").

(** [emplace(hash, tu)]; a smaller unit replaces the recorded one. *)
Definition observe (h : N) (tu : bytes) (m : HashTus) : HashTus :=
  <[h := match m !! h with None => tu | Some old => smaller_site old tu end]> m.

Definition add_odr_site (group : OdrGroup) (e : OdrEntry) : OdrGroup :=
  MkOdrGroup (od_qualifiedName e) (od_isClass e)
    (if decide (od_enclosingClass e = []) then enclosingClass group else od_enclosingClass e)
    (upsert fst (fun x _ => (x.1, observe (od_odrHash e) (od_tuPath e) x.2)) (sites group)
       ((od_filePath e, od_line e), {[od_odrHash e := od_tuPath e]})).

Definition odr_groups (g : GlobalIndex) : gmap bytes OdrGroup := group_by odr_group_key no_odr_group add_odr_site (gi_odrEntries g).

(** The variants of a site, those with a unit first. *)
Definition variant_less (a b : bytes * N) : bool :=
  if decide (bool_decide (a.1 = []) <> bool_decide (b.1 = [])) then bool_decide (a.1 <> [])
  else ltb_of (lex_cmp bytes_cmp N.compare a b).

Definition variant_text `{!StdSort} (hashes : HashTus) : bytes :=
  let variants := std_sort variant_less ((fun ht => (ht.2, ht.1)) <$> entries N.compare hashes) in
  if existsb (fun ht => bool_decide (ht.2 <> [])) (entries N.compare hashes) then
    str " [" ++
    (foldl (fun st v => ((st.1 ++ (if decide (0 < st.2) then str "; " else []) ++ str "variant " ++ to_string (N.of_nat (st.2 + 1)) ++ str " in " ++
                          (if decide (v.1 = []) then str "<unknown TU>" else v.1)), st.2 + 1)) ([], 0) variants).1 ++ str "]"
  else [].

Definition divergent_diagnostic `{!StdSort} (key : bytes) (group : OdrGroup) (site : Site) (hashes : HashTus) : Diagnostic :=
  entity_diagnostic ODR_DivergentDefinition (formatSite site) [key]
    (str "ODR violation: '" ++ displayName group ++ str "' at " ++ formatSite site ++ str " compiles to " ++ to_string (N.of_nat (size hashes)) ++
     str " different definitions across TUs in the same compile_commands.json database" ++ variant_text hashes ++
     str " — its body depends on preprocessor state that differs between compile commands. Every TU linked into the same target must see an identical definition.").

Definition duplicate_diagnostic (key : bytes) (group : OdrGroup) : Diagnostic :=
  entity_diagnostic ODR_DuplicateDefinition (formatSite (default ([], 0%N) (head (sites group).*1))) [key]
    (str "ODR violation: '" ++ displayName group ++ str "' has " ++ to_string (N.of_nat (length (sites group))) ++
     str " definitions with differing bodies (" ++ foldl (fun text s => append_listed text (formatSite s.1)) [] (sites group) ++
     str "). TUs including different ones link silently, and the linker keeps one arbitrarily — unify or rename.").

(** All hashes of a group. *)
Definition allHashes (group : OdrGroup) : gset N := ⋃ (dom <$> (sites group).*2).

(** One group in one of the two passes; the set holds the classes reported as duplicates. *)
Definition analyzeGroup `{!StdSort} (classesOnly : bool) (st : gset bytes * list Diagnostic) (kg : bytes * OdrGroup) : gset bytes * list Diagnostic :=
  let '(duplicated, diagnostics) := st in
  let '(key, group) := kg in
  if negb (eqb (isClass group) classesOnly) then st
  else match list_find (fun s => 2 <= size s.2) (sites group) with
       | Some (_, (site, hashes)) => (duplicated, diagnostics ++ [divergent_diagnostic key group site hashes])
       | None =>
           if decide (length (sites group) < 2) then st
           else if decide (size (allHashes group) < 2) then st
           else if negb (isClass group) && bool_decide (enclosingClass group ∈ duplicated) then st
           else (if isClass group then {[displayName group]} ∪ duplicated else duplicated, diagnostics ++ [duplicate_diagnostic key group])
       end.

Definition analyzeOdrViolations `{!StdSort} (g : GlobalIndex) (diagnostics : list Diagnostic) : list Diagnostic :=
  let all := entries bytes_cmp (odr_groups g) in
  let st := foldl (analyzeGroup true) (∅, diagnostics) all in
  (foldl (analyzeGroup false) st all).2.
End Odr.

(** * Default arguments *)

Module DefaultArgs.

Record DefaultSite := MkDefaultSite { file : bytes; line : N; text : bytes }.

#[global] Instance DefaultSite_eq_dec : EqDecision DefaultSite.
Proof. solve_decision. Defined.

Record DefaultGroup := MkDefaultGroup { displayName : bytes; paramName : bytes; sites : list DefaultSite }.

Definition no_default_group : DefaultGroup := MkDefaultGroup [] [] [].

Definition default_group_key (e : DefaultArgEntry) : bytes :=
  da_qualifiedName e ++ bar ++ da_signature e ++ bar ++ to_string (da_paramIndex e).

Definition default_site_of (e : DefaultArgEntry) : DefaultSite := MkDefaultSite (da_filePath e) (da_line e) (da_defaultText e).

Definition add_default_site (group : DefaultGroup) (e : DefaultArgEntry) : DefaultGroup :=
  MkDefaultGroup (da_qualifiedName e) (if decide (da_paramName e = []) then paramName group else da_paramName e)
    (if decide (default_site_of e ∈ sites group) then sites group else sites group ++ [default_site_of e]).

Definition default_groups (g : GlobalIndex) : gmap bytes DefaultGroup := group_by default_group_key no_default_group add_default_site (gi_defaultArgs g).

Definition site_text (s : DefaultSite) : bytes := str "'" ++ text s ++ str "' at " ++ at_line (file s) (line s).

Definition default_diagnostic (key : bytes) (group : DefaultGroup) : option Diagnostic :=
  if decide (size (list_to_set (C := gset bytes) (text <$> sites group)) < 2) then None
  else
    let first := default (MkDefaultSite [] 0 []) (head (sites group)) in
    Some (entity_diagnostic DefaultArg_Divergent (at_line (file first) (line first)) [key]
            (str "Default-argument divergence: parameter" ++
             (if decide (paramName group = []) then [] else str " '" ++ paramName group ++ str "'") ++ str " of '" ++ displayName group ++
             str "' has conflicting defaults (" ++ foldl (fun t s => append_listed t (site_text s)) [] (sites group) ++
             str "). Each TU silently calls with whichever value its includes provided — keep the default in exactly one declaration.")).

Definition analyzeDefaultArgDivergence (g : GlobalIndex) (diagnostics : list Diagnostic) : list Diagnostic :=
  diagnostics ++ omap (fun kg => default_diagnostic kg.1 kg.2) (entries bytes_cmp (default_groups g)).
End DefaultArgs.

(** * Exception specifications *)

Module ExceptionSpecs.

Record SpecGroup := MkSpecGroup { displayName : bytes; sites : list (Site * gset bool) }.

Definition no_spec_group : SpecGroup := MkSpecGroup [] [].

Definition spec_group_key (e : ExceptionSpecEntry) : bytes := es_qualifiedName e ++ bar ++ es_signature e.

Definition add_spec_site (group : SpecGroup) (e : ExceptionSpecEntry) : SpecGroup :=
  MkSpecGroup (es_qualifiedName e)
    (upsert fst (fun x _ => (x.1, {[es_isNoexcept e]} ∪ x.2)) (sites group) ((es_filePath e, es_line e), {[es_isNoexcept e]})).

Definition spec_groups (g : GlobalIndex) : gmap bytes SpecGroup := group_by spec_group_key no_spec_group add_spec_site (gi_exceptionSpecs g).

Definition allSpecs (group : SpecGroup) : gset bool := ⋃ (sites group).*2.

(** [*specs.begin()]: false comes first in a [std::set<bool>]. *)
Definition first_spec (specs : gset bool) : bool := bool_decide (false ∉ specs).

Definition both_ways_message (group : SpecGroup) (site : Site) : bytes :=
  str "Exception-spec divergence: '" ++ displayName group ++ str "' at " ++ formatSite site ++
  str " resolves to noexcept in some TUs and potentially-throwing in others — its specification depends on preprocessor state that differs between compile commands. All declarations of a function must agree (IFNDR); callers compile contradictory unwind assumptions.".

(** The sites of each specification, as listed. *)
Definition listed_sites (group : SpecGroup) (spec : bool) : bytes :=
  foldl (fun t s => if decide (first_spec s.2 = spec) then append_listed t (formatSite s.1) else t) [] (sites group).

Definition contradiction_message (group : SpecGroup) : bytes :=
  str "Exception-spec divergence: '" ++ displayName group ++ str "' is declared noexcept at " ++ listed_sites group true ++
  str " but potentially-throwing at " ++ listed_sites group false ++
  str ". No TU sees both declarations (the in-TU case is a compile error), so this contradiction is IFNDR: callers that saw noexcept elide unwind paths, and noexcept-dependent decisions (move_if_noexcept) fork per TU. Unify the declarations.".

Definition spec_diagnostic (key : bytes) (group : SpecGroup) : option Diagnostic :=
  if decide (size (allSpecs group) < 2) then None
  else match list_find (fun s => 1 < size s.2) (sites group) with
       | Some (_, (site, _)) => Some (entity_diagnostic ExceptionSpec_Divergent (formatSite site) [key] (both_ways_message group site))
       | None =>
           Some (entity_diagnostic ExceptionSpec_Divergent (formatSite (default ([], 0%N) (head (sites group).*1))) [key] (contradiction_message group))
       end.

Definition analyzeExceptionSpecDivergence (g : GlobalIndex) (diagnostics : list Diagnostic) : list Diagnostic :=
  diagnostics ++ omap (fun kg => spec_diagnostic kg.1 kg.2) (entries bytes_cmp (spec_groups g)).
End ExceptionSpecs.

(** * Header statics *)

Module HeaderStatics.

Definition header_less (a b : HeaderStaticEntry) : bool :=
  ltb_of (site_cmp (hs_filePath a, hs_line a, hs_name a) (hs_filePath b, hs_line b, hs_name b)).

(** A mutable static that at least two units have. *)
Definition duplicated (e : HeaderStaticEntry) : Prop := hs_isConst e = false /\ 2 <= length (hs_tuPaths e).

#[global] Instance duplicated_dec e : Decision (duplicated e).
Proof. unfold duplicated. apply _. Defined.

(** The first three units in order, and an ellipsis when there are more. *)
Definition tu_list `{!StdSort} (tus : list bytes) : bytes :=
  let sorted := std_sort bytes_ltb tus in
  (foldl (fun st tu => (st.1 ++ (if decide (0 < st.2) then str ", " else []) ++ tu, st.2 + 1)) ([], 0) (take 3 sorted)).1 ++
  (if decide (3 < length sorted) then str ", ..." else []).

Definition header_diagnostic `{!StdSort} (e : HeaderStaticEntry) : Diagnostic :=
  entity_diagnostic HeaderStatic_Duplicated (at_line (hs_filePath e) (hs_line e)) [hs_name e]
    (str "Header-static duplication: '" ++ hs_name e ++ str "' is defined static in " ++ at_line (hs_filePath e) (hs_line e) ++ str ", and " ++
     to_string (N.of_nat (length (hs_tuPaths e))) ++ str " TUs (" ++ tu_list (hs_tuPaths e) ++
     str ") each creates a separate copy at different addresses.").

Definition analyzeHeaderStaticDuplication `{!StdSort} (g : GlobalIndex) (diagnostics : list Diagnostic) : list Diagnostic :=
  diagnostics ++ (header_diagnostic <$> std_sort header_less (filter duplicated (gi_headerStatics g))).
End HeaderStatics.
