(* ===== verification/IndexAnalysesCorrect.v ===== *)
(** The comparing checks report exactly the groups whose entries disagree. *)

From S2P Require Import Prelude StringInterner Ordering Results SortedMap Upsert GlobalIndex GlobalIndexCorrect GlobalIndexTheorems ReachAnalyses EscapeCorrect IndexAnalyses.

(** * Groups *)

Lemma group_by_lookup {E G} (key : E -> bytes) (init : G) (add : G -> E -> G) (l : list E) k :
  group_by key init add l !! k =
  match filter (fun e => key e = k) l with [] => None | es => Some (foldl add init es) end.
Proof.
  unfold group_by. induction l as [|e l IH] using rev_ind; [done|]. rewrite foldl_snoc, filter_app, filter_cons, filter_nil. rewrite lookup_insert.
  destruct (decide (key e = k)) as [<-|Hne]; [|by rewrite app_nil_r, IH].
  rewrite IH. destruct (filter (fun e' => key e' = key e) l) as [|x es]; [done|]. cbn [app]. by rewrite app_comm_cons, foldl_snoc.
Qed.

(** The group of a key that occurs. *)
Lemma group_of {E G} (key : E -> bytes) (init : G) (add : G -> E -> G) (l : list E) k group :
  group_by key init add l !! k = Some group <->
  (exists e, e ∈ l /\ key e = k) /\ group = foldl add init (filter (fun e => key e = k) l).
Proof.
  rewrite group_by_lookup. destruct (filter (fun e => key e = k) l) as [|x es] eqn:Ef.
  - split; [done|]. intros [(e & He & Hk) _]. assert (H : e ∈ filter (fun e => key e = k) l) by (by apply list_elem_of_filter).
    rewrite Ef in H. by apply elem_of_nil in H.
  - assert (H : x ∈ filter (fun e => key e = k) l) by (rewrite Ef; left). apply list_elem_of_filter in H as [Hk Hx].
    split; [intros [= <-]; eauto|]. by intros [_ ->].
Qed.

(** A set has two elements or more when two of them differ. *)
Lemma two_elements {A} `{Countable A} (s : gset A) : ~ (size s < 2) <-> exists a b, a ∈ s /\ b ∈ s /\ a <> b.
Proof.
  split.
  - intros Hs. destruct (set_choose_or_empty s) as [[a Ha]|He].
    + destruct (set_choose_or_empty (s ∖ {[a]})) as [[b Hb]|He'].
      * exists a, b. set_solver.
      * exfalso. apply Hs. assert (Hsub : s ⊆ {[a]}) by (intros x Hx; destruct (decide (x = a)); set_solver). apply subseteq_size in Hsub. rewrite size_singleton in Hsub. lia.
    + exfalso. apply Hs. rewrite He, size_empty. lia.
  - intros (a & b & Ha & Hb & Hne) Hs. assert (Hsub : ({[a; b]} : gset A) ⊆ s) by set_solver. apply subseteq_size in Hsub.
    rewrite size_union, !size_singleton in Hsub by set_solver. lia.
Qed.

(** The rows of a map in key order: the values that are reported. *)
Lemma elem_of_omap_entries {V B} (f : bytes -> V -> option B) (m : gmap bytes V) d :
  d ∈ omap (fun kg => f kg.1 kg.2) (entries bytes_cmp m) <-> exists k v, m !! k = Some v /\ f k v = Some d.
Proof.
  rewrite list_elem_of_omap. split.
  - intros ([k v] & Hkv%elem_of_entries & Hf). by exists k, v.
  - intros (k & v & Hkv & Hf). exists (k, v). split; [by apply elem_of_entries|done].
Qed.

(** One diagnostic per group, in the strict order of the keys. *)
Definition strictly_ordered (l : list bytes) : Prop := StronglySorted (fun a b => bytes_cmp a b = Lt) l.

Lemma strictly_ordered_keys {V} (m : gmap bytes V) : strictly_ordered (entries bytes_cmp m).*1.
Proof.
  rewrite entries_keys. pose proof (sorted_keys_sorted bytes_cmp (dom m)) as Hs. pose proof (sorted_keys_NoDup bytes_cmp (dom m)) as Hn. revert Hs Hn.
  induction (sorted_keys_of bytes_cmp (dom m)) as [|k l IH]; [constructor|]. rewrite StronglySorted_cons. intros [Hk Hl] [Hkn Hn]%NoDup_cons.
  apply StronglySorted_cons. split; [|by apply IH]. rewrite Forall_forall in *. intros k' Hk'. specialize (Hk k' Hk'). unfold cmp_le in Hk.
  destruct (bytes_cmp k k') eqn:E; [|done|done]. apply bytes_cmp_eq in E as ->. done.
Qed.

Lemma reported_ordered {V} (f : bytes -> V -> option Diagnostic) (m : gmap bytes V) :
  (forall k v d, f k v = Some d -> dx_entities d = [k]) ->
  strictly_ordered (mjoin (dx_entities <$> omap (fun kg => f kg.1 kg.2) (entries bytes_cmp m))).
Proof.
  intros Hf. pose proof (strictly_ordered_keys m) as Hs. revert Hs. induction (entries bytes_cmp m) as [|[k v] l IH]; [constructor|].
  intros Hs. apply StronglySorted_cons in Hs as [Hk Hs]. rewrite omap_cons_eq. cbn [fst snd]. destruct (f k v) as [d|] eqn:E; [|by apply IH].
  change (mjoin (dx_entities <$> d :: omap (fun kg => f kg.1 kg.2) l)) with (dx_entities d ++ mjoin (dx_entities <$> omap (fun kg => f kg.1 kg.2) l)).
  rewrite (Hf k v d E). cbn [app]. apply StronglySorted_cons. split; [|by apply IH]. rewrite Forall_forall in *. intros k'.
  rewrite list_elem_of_join. intros (es & Hk' & (d' & -> & ([k'' v'] & Hin & Hd')%list_elem_of_omap)%list_elem_of_fmap). cbn in Hd'. rewrite (Hf _ _ _ Hd') in Hk'.
  apply list_elem_of_singleton in Hk' as ->. apply Hk, list_elem_of_fmap. by exists (k'', v').
Qed.

(** * Sites with what was observed at them *)

Section Observed.
Context {E M B : Type} (site : E -> Site) (value : E -> B) (single : E -> M) (more : E -> M -> M) (mem : B -> M -> Prop).
Hypothesis mem_single : forall e b, mem b (single e) <-> b = value e.
Hypothesis mem_more : forall e m b, mem b (more e m) <-> mem b m \/ b = value e.

Definition observe_entry (l : list (Site * M)) (e : E) : list (Site * M) := upsert fst (fun x _ => (x.1, more e x.2)) l (site e, single e).

(** The rows after the entries [es]. *)
Record observed (es : list E) (l : list (Site * M)) : Prop := {
  ob_once : NoDup l.*1;
  ob_sites : forall s, s ∈ l.*1 <-> exists e, e ∈ es /\ site e = s;
  ob_mem : forall s m b, (s, m) ∈ l -> mem b m <-> exists e, e ∈ es /\ site e = s /\ value e = b
}.

Lemma observe_all es : observed es (foldl observe_entry [] es).
Proof.
  induction es as [|e es [Hn Hs Hm]] using rev_ind.
  { split; [constructor| |by intros s m b ?%elem_of_nil]. intros s. rewrite elem_of_nil. split; [done|]. intros (e & He%elem_of_nil & _). done. }
  rewrite foldl_snoc. set (l := foldl observe_entry [] es) in *. assert (HK : MergeKeepsKey fst (fun (x : Site * M) (_ : Site * M) => (x.1, more e x.2))) by done.
  assert (Hin : forall e', e' ∈ es ++ [e] <-> e' ∈ es \/ e' = e) by (intros; by rewrite elem_of_app, list_elem_of_singleton). split.
  - by apply upsert_NoDup.
  - intros s. unfold observe_entry. rewrite upsert_keys by done. cbn [fst]. setoid_rewrite Hin. case_decide as H.
    + rewrite Hs. split; [naive_solver|]. intros (e' & [?| ->] & <-); [eauto|by apply Hs].
    + rewrite elem_of_app, list_elem_of_singleton, Hs. naive_solver.
  - intros s m b Hsm. unfold observe_entry in Hsm. apply elem_of_upsert in Hsm; [|done..]. cbn [fst] in Hsm. setoid_rewrite Hin.
    destruct Hsm as [[Hsm Hne]|[([s' m'] & Hsm & Heq & [= -> ->])|[Hnot [= -> ->]]]].
    + rewrite (Hm s m b Hsm). cbn in Hne. naive_solver.
    + cbn in *. subst s'. rewrite mem_more, (Hm (site e) m' b Hsm). naive_solver.
    + rewrite mem_single. split; [naive_solver|]. intros (e' & [He'| ->] & Hse & <-); [|done]. exfalso. apply Hnot, Hs. eauto.
Qed.
End Observed.

Lemma elem_of_keys {S M} (l : list (S * M)) s : s ∈ l.*1 <-> exists m, (s, m) ∈ l.
Proof. rewrite list_elem_of_fmap. split; [intros ([s' m] & -> & H); eauto|]. intros (m & H). by exists (s, m). Qed.

(** * Default arguments *)

Section DefaultArgs.
Import DefaultArgs.

Lemma default_sites es group s : s ∈ sites (foldl add_default_site group es) <-> s ∈ sites group \/ exists e, e ∈ es /\ default_site_of e = s.
Proof.
  revert group. induction es as [|e es IH]; intros group; cbn.
  { split; [by left|]. intros [?|(e & He%elem_of_nil & _)]; done. }
  rewrite IH. cbn. setoid_rewrite elem_of_cons. case_decide as Hin; [|rewrite elem_of_app, list_elem_of_singleton]; split; naive_solver.
Qed.

(** Default arguments: the check reports a parameter exactly when two recorded
    declarations of it give different default texts, once per parameter and in the order of
    the keys. *)
Theorem default_arg_divergence_exact (g : GlobalIndex) :
  let reported := analyzeDefaultArgDivergence g [] in
  (forall k, [k] ∈ dx_entities <$> reported <->
     exists a b, a ∈ gi_defaultArgs g /\ b ∈ gi_defaultArgs g /\ default_group_key a = k /\ default_group_key b = k /\ da_defaultText a <> da_defaultText b) /\
  (forall d, d ∈ reported -> dx_kind d = DefaultArg_Divergent /\ exists k, dx_entities d = [k]) /\
  strictly_ordered (mjoin (dx_entities <$> reported)).
Proof.
  intros reported. assert (Hent : forall k v d, default_diagnostic k v = Some d -> dx_entities d = [k] /\ dx_kind d = DefaultArg_Divergent).
  { intros k v d. unfold default_diagnostic. case_decide; [done|]. by intros [= <-]. }
  unfold reported, analyzeDefaultArgDivergence. cbn [app]. split_and!; [|intros d (k & v & _ & Hd)%elem_of_omap_entries|apply reported_ordered; intros; by eapply Hent].
  - intros k. rewrite list_elem_of_fmap. setoid_rewrite elem_of_omap_entries.
    assert (Htexts : forall t, t ∈ (list_to_set (text <$> sites (foldl add_default_site no_default_group (filter (fun e => default_group_key e = k) (gi_defaultArgs g)))) : gset bytes) <->
      exists e, e ∈ gi_defaultArgs g /\ default_group_key e = k /\ da_defaultText e = t).
    { intros t. rewrite elem_of_list_to_set, list_elem_of_fmap. setoid_rewrite default_sites. setoid_rewrite list_elem_of_filter. split.
      - intros (s & -> & [Hs%elem_of_nil|(e & [Hk He] & <-)]); [done|]. by exists e.
      - intros (e & He & Hk & <-). exists (default_site_of e). split; [done|]. right. by exists e. }
    split.
    + intros (d & Ed & k' & group & Hg & Hd). destruct (Hent _ _ _ Hd) as [Ek _]. rewrite Ek in Ed. injection Ed as <-.
      apply group_of in Hg as [_ ->]. unfold default_diagnostic in Hd. case_decide as Hsz; [done|].
      apply two_elements in Hsz as (t & t' & (a & Ha & Hka & Hta)%Htexts & (b & Hb & Hkb & Htb)%Htexts & Hne). exists a, b. split_and!; congruence.
    + intros (a & b & Ha & Hb & Hka & Hkb & Hne).
      assert (Hsz : ~ (size (list_to_set (C := gset bytes) (text <$> sites (foldl add_default_site no_default_group (filter (fun e => default_group_key e = k) (gi_defaultArgs g))))) < 2)).
      { apply two_elements. exists (da_defaultText a), (da_defaultText b). split_and!; [apply Htexts; eauto..|done]. }
      eexists. split; [|exists k, (foldl add_default_site no_default_group (filter (fun e => default_group_key e = k) (gi_defaultArgs g))); split; [apply group_of; eauto|]].
      2: { unfold default_diagnostic. by rewrite decide_False. }
      done.
  - destruct (Hent _ _ _ Hd) as [? ?]. eauto.
Qed.
End DefaultArgs.

(** * Exception specifications *)

Section ExceptionSpecs.
Import ExceptionSpecs.

Definition spec_site (e : ExceptionSpecEntry) : Site := (es_filePath e, es_line e).

Lemma spec_sites es : sites (foldl add_spec_site no_spec_group es) =
  foldl (observe_entry spec_site (fun e => {[es_isNoexcept e]}) (fun e m => {[es_isNoexcept e]} ∪ m)) [] es.
Proof. induction es as [|e es IH] using rev_ind; [done|]. rewrite !foldl_snoc. cbn [sites add_spec_site]. by rewrite IH. Qed.

Lemma spec_observed es : observed spec_site es_isNoexcept (fun b (m : gset bool) => b ∈ m) es (sites (foldl add_spec_site no_spec_group es)).
Proof. rewrite spec_sites. apply observe_all; set_solver. Qed.

(** The two specifications of one key. *)
Definition conflict (k : bytes) (a b : ExceptionSpecEntry) : Prop :=
  spec_group_key a = k /\ spec_group_key b = k /\ es_isNoexcept a <> es_isNoexcept b.

Lemma elem_of_allSpecs es b : b ∈ allSpecs (foldl add_spec_site no_spec_group es) <-> exists e, e ∈ es /\ es_isNoexcept e = b.
Proof.
  destruct (spec_observed es) as [Hn Hs Hm]. unfold allSpecs. rewrite elem_of_union_list. setoid_rewrite list_elem_of_fmap. split.
  - intros (m & ([s m'] & -> & Hsm) & Hb). apply (Hm s m' b Hsm) in Hb as (e & ? & _ & ?). eauto.
  - intros (e & He & <-). assert (Hin : spec_site e ∈ (sites (foldl add_spec_site no_spec_group es)).*1) by (apply Hs; eauto).
    apply elem_of_keys in Hin as (m & Hsm). exists m. split; [by exists (spec_site e, m)|]. apply (Hm _ _ _ Hsm). eauto.
Qed.

(** Exception specifications: the check reports a function exactly when two recorded
    declarations disagree on whether it can throw, once per function and in the order of the
    keys; when a single site resolves both ways the diagnostic is placed there and says so,
    and otherwise no site does. *)
Theorem exception_spec_divergence_exact (g : GlobalIndex) :
  let reported := analyzeExceptionSpecDivergence g [] in
  let recorded := gi_exceptionSpecs g in
  (forall k, [k] ∈ dx_entities <$> reported <-> exists a b, a ∈ recorded /\ b ∈ recorded /\ conflict k a b) /\
  (forall d, d ∈ reported -> dx_kind d = ExceptionSpec_Divergent /\ exists k group, dx_entities d = [k] /\ spec_groups g !! k = Some group /\
     ((exists a b, a ∈ recorded /\ b ∈ recorded /\ conflict k a b /\ spec_site a = spec_site b /\
         dx_callLocation d = formatSite (spec_site a) /\ dx_message d = both_ways_message group (spec_site a)) \/
      ((forall a b, a ∈ recorded -> b ∈ recorded -> conflict k a b -> spec_site a <> spec_site b) /\ dx_message d = contradiction_message group))) /\
  strictly_ordered (mjoin (dx_entities <$> reported)).
Proof.
  intros reported recorded.
  assert (Hent : forall k v d, spec_diagnostic k v = Some d -> dx_entities d = [k] /\ dx_kind d = ExceptionSpec_Divergent).
  { intros k v d. unfold spec_diagnostic. case_decide; [done|]. destruct (list_find _ _) as [[? []]|]; by intros [= <-]. }
  assert (Hmem : forall k e, e ∈ filter (fun e => spec_group_key e = k) recorded <-> spec_group_key e = k /\ e ∈ recorded) by (intros; by rewrite list_elem_of_filter).
  assert (Hspecs : forall k b, b ∈ allSpecs (foldl add_spec_site no_spec_group (filter (fun e => spec_group_key e = k) recorded)) <->
    exists e, e ∈ recorded /\ spec_group_key e = k /\ es_isNoexcept e = b).
  { intros k b. rewrite elem_of_allSpecs. setoid_rewrite Hmem. naive_solver. }
  unfold reported, analyzeExceptionSpecDivergence. cbn [app].
  split_and!; [|intros d (k & group & Hg & Hd)%elem_of_omap_entries|apply reported_ordered; intros; by eapply Hent].
  - intros k. rewrite list_elem_of_fmap. setoid_rewrite elem_of_omap_entries. split.
    + intros (d & Ed & k' & group & Hg & Hd). destruct (Hent _ _ _ Hd) as [Ek _]. rewrite Ek in Ed. injection Ed as <-.
      apply group_of in Hg as [_ ->]. unfold spec_diagnostic in Hd. case_decide as Hsz; [done|].
      apply two_elements in Hsz as (t & t' & (a & Ha & Hka & Hta)%Hspecs & (b & Hb & Hkb & Htb)%Hspecs & Hne). exists a, b. split_and!; [done|done|].
      split_and!; congruence.
    + intros (a & b & Ha & Hb & Hka & Hkb & Hne). set (group := foldl add_spec_site no_spec_group (filter (fun e => spec_group_key e = k) recorded)).
      assert (Hsz : ~ (size (allSpecs group) < 2)) by (apply two_elements; exists (es_isNoexcept a), (es_isNoexcept b); split_and!; [apply Hspecs; eauto..|done]).
      assert (Hd : exists d, spec_diagnostic k group = Some d).
      { unfold spec_diagnostic. rewrite decide_False by done. destruct (list_find _ _) as [[? []]|]; eauto. }
      destruct Hd as [d Hd]. exists d. split; [symmetry; by eapply Hent|]. exists k, group. split; [apply group_of; eauto|done].
  - destruct (Hent _ _ _ Hd) as [Ek Ekind]. split; [done|]. exists k, group. split_and!; [done|done|]. apply group_of in Hg as [_ Eg].
    pose proof (spec_observed (filter (fun e => spec_group_key e = k) recorded)) as [Hn Hs Hm].
    change (gi_exceptionSpecs g) with recorded in Eg. rewrite <- Eg in Hs, Hm.
    unfold spec_diagnostic in Hd. case_decide as Hsz; [done|]. destruct (list_find (fun s => 1 < size s.2) (sites group)) as [[i [s m]]|] eqn:Ef.
    + injection Hd as <-. apply list_find_Some in Ef as (Hi & Hgt & _). cbn in Hgt. apply list_elem_of_lookup_2 in Hi.
      assert (H2 : ~ (size m < 2)) by lia. left.
      apply two_elements in H2 as (x & y & (a & [Hka Ha]%Hmem & Hsa & Hxa)%(Hm s m x Hi) & (b & [Hkb Hb]%Hmem & Hsb & Hyb)%(Hm s m y Hi) & Hne).
      exists a, b. split_and!; [done|done|split_and!; congruence|congruence|by rewrite Hsa|by rewrite Hsa].
    + injection Hd as <-. right. split; [|done]. intros a b Ha Hb (Hka & Hkb & Hne) Es. apply list_find_None in Ef.
      assert (Hin : spec_site a ∈ (sites group).*1) by (apply Hs; exists a; by rewrite Hmem).
      apply elem_of_keys in Hin as (m & Hsm). rewrite Forall_forall in Ef. apply (Ef _ Hsm). cbn.
      assert (H2 : ~ (size m < 2)); [|lia]. apply two_elements. exists (es_isNoexcept a), (es_isNoexcept b).
      split_and!; [apply (Hm _ _ _ Hsm); exists a; by rewrite Hmem|apply (Hm _ _ _ Hsm); exists b; by rewrite Hmem|done].
Qed.
End ExceptionSpecs.

(** * Header statics *)

(** [static int a, b;] on one line of a header that x.cpp and y.cpp include; the first may be const. *)
Definition two_statics (first_const : bool) : GlobalIndex :=
  replay_ops empty_global_index
    [OpHeaderStatic (MkHeaderStatic (str "a") (str "s.h") 3 first_const [str "x.cpp"]);
     OpHeaderStatic (MkHeaderStatic (str "b") (str "s.h") 3 false [str "x.cpp"]);
     OpHeaderStatic (MkHeaderStatic (str "a") (str "s.h") 3 first_const [str "y.cpp"]);
     OpHeaderStatic (MkHeaderStatic (str "b") (str "s.h") 3 false [str "y.cpp"])].

(** Header statics are merged by file and line without their name: of two statics defined
    on one line only the first is ever reported, and when the first is const the duplicated
    mutable one is not reported at all. *)
Theorem second_static_of_a_line_is_lost :
  dx_entities <$> @HeaderStatics.analyzeHeaderStaticDuplication stable_std_sort (two_statics false) [] = [[str "a"]] /\
  @HeaderStatics.analyzeHeaderStaticDuplication stable_std_sort (two_statics true) [] = [].
Proof. by vm_compute. Qed.

(** * The one-definition-rule check reports exactly the entities whose definitions differ. *)
Import Odr.

Definition odr_site (e : OdrEntry) : Site := (od_filePath e, od_line e).

Lemma odr_sites es : sites (foldl add_odr_site no_odr_group es) =
  foldl (observe_entry odr_site (fun e => {[od_odrHash e := od_tuPath e]}) (fun e m => observe (od_odrHash e) (od_tuPath e) m)) [] es.
Proof. induction es as [|e es IH] using rev_ind; [done|]. rewrite !foldl_snoc. cbn [sites add_odr_site]. by rewrite IH. Qed.

Lemma odr_observed es : observed odr_site od_odrHash (fun h (m : HashTus) => h ∈ dom m) es (sites (foldl add_odr_site no_odr_group es)).
Proof.
  rewrite odr_sites. apply observe_all.
  - intros e h. rewrite dom_singleton. set_solver.
  - intros e m h. unfold observe. rewrite dom_insert. set_solver.
Qed.

(** * What the entries of a key say *)

Section Keys.
Variable g : GlobalIndex.

Definition with_key (k : bytes) (e : OdrEntry) : Prop := e ∈ gi_odrEntries g /\ odr_group_key e = k.

(** One site was compiled to different bodies. *)
Definition divergent (k : bytes) : Prop :=
  exists a b, with_key k a /\ with_key k b /\ odr_site a = odr_site b /\ od_odrHash a <> od_odrHash b.

(** No site was, but two sites have different bodies. *)
Definition duplicate (k : bytes) : Prop :=
  ~ divergent k /\ exists a b, with_key k a /\ with_key k b /\ od_odrHash a <> od_odrHash b.

(** The site a group diverges at, or that it is a duplicate. *)
Definition odr_verdict (group : OdrGroup) : option (option (Site * HashTus)) :=
  match list_find (fun s => 2 <= size s.2) (sites group) with
  | Some (_, s) => Some (Some s)
  | None => if decide (length (sites group) < 2) then None else if decide (size (allHashes group) < 2) then None else Some None
  end.

Lemma dom_size_two (m : HashTus) : 2 <= size m <-> exists h h', h ∈ dom m /\ h' ∈ dom m /\ h <> h'.
Proof. rewrite <- two_elements, size_dom. lia. Qed.

Lemma elem_of_allHashes es h : h ∈ allHashes (foldl add_odr_site no_odr_group es) <-> exists e, e ∈ es /\ od_odrHash e = h.
Proof.
  destruct (odr_observed es) as [Hn Hs Hm]. unfold allHashes. rewrite elem_of_union_list. setoid_rewrite list_elem_of_fmap. setoid_rewrite list_elem_of_fmap. split.
  - intros (x & (m & -> & [s m'] & -> & Hsm) & Hb). apply (Hm s m' h Hsm) in Hb as (e & ? & _ & ?). eauto.
  - intros (e & He & <-). assert (Hin : odr_site e ∈ (sites (foldl add_odr_site no_odr_group es)).*1) by (apply Hs; eauto).
    apply elem_of_keys in Hin as (m & Hsm). exists (dom m). split; [exists m; split; [done|]; by exists (odr_site e, m)|]. apply (Hm _ _ _ Hsm). eauto.
Qed.

Lemma group_entries k group : odr_groups g !! k = Some group ->
  group = foldl add_odr_site no_odr_group (filter (fun e => odr_group_key e = k) (gi_odrEntries g)) /\
  forall e, e ∈ filter (fun e => odr_group_key e = k) (gi_odrEntries g) <-> with_key k e.
Proof. intros [_ ->]%group_of. split; [done|]. intros e. rewrite list_elem_of_filter. unfold with_key. tauto. Qed.

Lemma verdict_exact k group : odr_groups g !! k = Some group ->
  match odr_verdict group with
  | Some (Some (s, hashes)) => (s, hashes) ∈ sites group /\ divergent k
  | Some None => duplicate k
  | None => ~ divergent k /\ ~ duplicate k
  end.
Proof.
  intros Hg. destruct (group_entries k group Hg) as [Eg Hk]. set (es := filter (fun e => odr_group_key e = k) (gi_odrEntries g)) in *.
  destruct (odr_observed es) as [Hn Hs Hm]. rewrite <- Eg in Hs, Hm, Hn.
  assert (Hh : forall h, h ∈ allHashes group <-> exists e, with_key k e /\ od_odrHash e = h).
  { intros h. rewrite Eg, elem_of_allHashes. by setoid_rewrite Hk. }
  assert (Hdiv : divergent k <-> exists s m, (s, m) ∈ sites group /\ 2 <= size m).
  { split.
    - intros (a & b & Ha & Hb & Es & Hne). assert (Hin : odr_site a ∈ (sites group).*1) by (apply Hs; exists a; by rewrite Hk).
      apply elem_of_keys in Hin as (m & Hsm). exists (odr_site a), m. split; [done|]. apply dom_size_two. exists (od_odrHash a), (od_odrHash b).
      split_and!; [apply (Hm _ _ _ Hsm); exists a; by rewrite Hk|apply (Hm _ _ _ Hsm); exists b; by rewrite Hk|done].
    - intros (s & m & Hsm & (h & h' & (a & Ha%Hk & Hsa & Hha)%(Hm s m h Hsm) & (b & Hb%Hk & Hsb & Hhb)%(Hm s m h' Hsm) & Hne)%dom_size_two).
      exists a, b. split_and!; [done|done|congruence|congruence]. }
  unfold odr_verdict. destruct (list_find (fun s => 2 <= size s.2) (sites group)) as [[i [s m]]|] eqn:Ef.
  { apply list_find_Some in Ef as (Hi%list_elem_of_lookup_2 & Hsz & _). split; [done|]. apply Hdiv. by exists s, m. }
  assert (Hnd : ~ divergent k).
  { rewrite Hdiv. intros (s & m & Hsm & Hsz). apply list_find_None in Ef. rewrite Forall_forall in Ef. by apply (Ef _ Hsm). }
  assert (Hdup : duplicate k <-> ~ (size (allHashes group) < 2)).
  { rewrite two_elements. setoid_rewrite Hh. split.
    - intros [_ (a & b & Ha & Hb & Hne)]. exists (od_odrHash a), (od_odrHash b). split_and!; eauto.
    - intros (h & h' & (a & Ha & <-) & (b & Hb & <-) & Hne). split; [done|]. by exists a, b. }
  case_decide as Hlen.
  { split; [done|]. intros [_ (a & b & Ha & Hb & Hne)]. apply Hnd. exists a, b. split_and!; [done|done| |done].
    assert (Ha' : odr_site a ∈ (sites group).*1) by (apply Hs; exists a; by rewrite Hk).
    assert (Hb' : odr_site b ∈ (sites group).*1) by (apply Hs; exists b; by rewrite Hk).
    destruct (sites group) as [|s1 [|s2 l]]; [by apply elem_of_nil in Ha'| |cbn in Hlen; lia].
    cbn in Ha', Hb'. rewrite list_elem_of_singleton in Ha', Hb'. congruence. }
  case_decide as Hsz; [|by apply Hdup]. split; [done|]. rewrite Hdup. tauto.
Qed.

End Keys.

(** * The two passes *)

Section Passes.
Context `{HS : !StdSort}.

Definition verdict_diagnostic (kg : bytes * OdrGroup) : option Diagnostic :=
  (fun v => match v with Some (site, hashes) => divergent_diagnostic kg.1 kg.2 site hashes | None => duplicate_diagnostic kg.1 kg.2 end) <$> odr_verdict kg.2.

Lemma analyzeGroup_eq classesOnly dups ds kg :
  analyzeGroup classesOnly (dups, ds) kg =
  if negb (eqb (isClass kg.2) classesOnly) then (dups, ds)
  else if negb (isClass kg.2) && bool_decide (odr_verdict kg.2 = Some None) && bool_decide (enclosingClass kg.2 ∈ dups) then (dups, ds)
  else (if isClass kg.2 && bool_decide (odr_verdict kg.2 = Some None) then {[displayName kg.2]} ∪ dups else dups,
        ds ++ option_list (verdict_diagnostic kg)).
Proof.
  destruct kg as [k group]. unfold analyzeGroup, verdict_diagnostic, odr_verdict. cbn [fst snd].
  destruct (negb (eqb (isClass group) classesOnly)); [done|]. destruct (list_find _ _) as [[i [s m]]|]; cbn.
  { rewrite andb_false_r. by destruct (isClass group). }
  destruct (isClass group); repeat case_decide; cbn; rewrite ?app_nil_r; repeat case_bool_decide; cbn; first [done|congruence|by rewrite ?app_nil_r].
Qed.

(** The classes reported as duplicates. *)
Definition class_pass (l : list (bytes * OdrGroup)) : list Diagnostic := omap (fun kg => if isClass kg.2 then verdict_diagnostic kg else None) l.

Lemma exists_cons {A} (P : A -> Prop) (x : A) l : (exists y, y ∈ x :: l /\ P y) <-> P x \/ exists y, y ∈ l /\ P y.
Proof.
  setoid_rewrite elem_of_cons. split.
  - intros (y & [-> |Hy] & HP); [by left|right; eauto].
  - intros [HP|(y & Hy & HP)]; eauto.
Qed.

Lemma class_pass_fold dups ds l :
  let st := foldl (analyzeGroup true) (dups, ds) l in
  st.2 = ds ++ class_pass l /\
  forall n, n ∈ st.1 <-> n ∈ dups \/ exists kg, kg ∈ l /\ isClass kg.2 = true /\ odr_verdict kg.2 = Some None /\ displayName kg.2 = n.
Proof.
  revert dups ds. induction l as [|kg l IH]; intros dups ds; cbn [foldl].
  { split; [by rewrite app_nil_r|]. intros n. split; [by left|]. intros [?|(kg & Hk%elem_of_nil & _)]; done. }
  rewrite analyzeGroup_eq. unfold class_pass. rewrite omap_cons_eq. setoid_rewrite exists_cons. destruct (isClass kg.2) eqn:Ec; cbn [eqb negb andb].
  - edestruct IH as [H1 H2]. split.
    + rewrite H1. destruct (verdict_diagnostic kg); cbn; [by rewrite <- (assoc_L app)|by rewrite app_nil_r].
    + intros n. rewrite H2. case_bool_decide as Ev; rewrite ?elem_of_union, ?elem_of_singleton; intuition congruence.
  - destruct (IH dups ds) as [H1 H2]. split; [done|]. intros n. rewrite H2. intuition congruence.
Qed.

Definition function_pass (dups : gset bytes) (l : list (bytes * OdrGroup)) : list Diagnostic :=
  omap (fun kg => if isClass kg.2 then None
                  else if bool_decide (odr_verdict kg.2 = Some None) && bool_decide (enclosingClass kg.2 ∈ dups) then None else verdict_diagnostic kg) l.

Lemma function_pass_fold dups ds l : foldl (analyzeGroup false) (dups, ds) l = (dups, ds ++ function_pass dups l).
Proof.
  revert ds. induction l as [|kg l IH]; intros ds; cbn [foldl]; [by rewrite app_nil_r|].
  rewrite analyzeGroup_eq. unfold function_pass in *. rewrite omap_cons_eq. destruct (isClass kg.2) eqn:Ec; cbn [eqb negb andb]; [apply IH|].
  destruct (bool_decide (odr_verdict kg.2 = Some None) && bool_decide (enclosingClass kg.2 ∈ dups)); [apply IH|]. rewrite IH.
  destruct (verdict_diagnostic kg); cbn; [by rewrite <- (assoc_L app)|by rewrite app_nil_r].
Qed.

(** The classes reported as duplicates, by name. *)
Definition duplicated_class (g : GlobalIndex) (n : bytes) : Prop :=
  exists k group, odr_groups g !! k = Some group /\ isClass group = true /\ duplicate g k /\ displayName group = n.

Lemma verdict_duplicate g k group : odr_groups g !! k = Some group -> odr_verdict group = Some None <-> duplicate g k.
Proof.
  intros Hg. pose proof (verdict_exact g k group Hg) as H. destruct (odr_verdict group) as [[[s m]|]|]; [|by split|].
  - split; [done|]. intros [Hnd _]. by destruct Hnd, H.
  - split; [done|]. tauto.
Qed.

Lemma reported_parts g : exists dups, (forall n, n ∈ dups <-> duplicated_class g n) /\
  analyzeOdrViolations g [] = class_pass (entries bytes_cmp (odr_groups g)) ++ function_pass dups (entries bytes_cmp (odr_groups g)).
Proof.
  unfold analyzeOdrViolations. destruct (class_pass_fold ∅ [] (entries bytes_cmp (odr_groups g))) as [H1 H2].
  destruct (foldl (analyzeGroup true) (∅, []) (entries bytes_cmp (odr_groups g))) as [dups ds]. cbn in H1, H2. subst ds.
  exists dups. split; [|by rewrite function_pass_fold]. intros n. rewrite H2. unfold duplicated_class. split.
  - intros [?|([k group] & Hin%elem_of_entries & Hc & Hv & Hd)]; [set_solver|]. exists k, group. split_and!; [done|done| |done]. by eapply verdict_duplicate.
  - intros (k & group & Hg & Hc & Hv & Hd). right. exists (k, group). split_and!; [by apply elem_of_entries|done| |done]. by eapply verdict_duplicate.
Qed.

(** What is said of a key. *)
Definition said (g : GlobalIndex) (d : Diagnostic) : Prop :=
  exists k group, odr_groups g !! k = Some group /\ dx_entities d = [k] /\ verdict_diagnostic (k, group) = Some d /\
    (odr_verdict group = Some None -> isClass group = false -> ~ duplicated_class g (enclosingClass group)).

Lemma reported_said g d : d ∈ analyzeOdrViolations g [] <-> said g d.
Proof.
  destruct (reported_parts g) as (dups & Hdups & ->). rewrite elem_of_app. unfold class_pass, function_pass. rewrite !list_elem_of_omap.
  assert (Hent : forall kg d, verdict_diagnostic kg = Some d -> dx_entities d = [kg.1]).
  { intros kg d' (v & _ & ->)%fmap_Some. by destruct v as [[]|]. }
  split.
  - intros [([k group] & Hin%elem_of_entries & Hd)|([k group] & Hin%elem_of_entries & Hd)]; cbn [fst snd] in Hd; destruct (isClass group) eqn:Ec; try done.
    + exists k, group. split_and!; [done|by eapply (Hent (k, group))|done|congruence].
    + destruct (bool_decide (odr_verdict group = Some None) && _) eqn:Eb; [done|]. exists k, group. split_and!; [done|by eapply (Hent (k, group))|done|].
      intros Hv _ Hdc. apply andb_false_iff in Eb as [Eb|Eb]; apply bool_decide_eq_false in Eb; [done|]. by apply Eb, Hdups.
  - intros (k & group & Hg & _ & Hd & Hno). destruct (isClass group) eqn:Ec; [left|right]; exists (k, group); cbn [fst snd]; rewrite Ec;
      (split; [by apply elem_of_entries|]); [done|].
    destruct (bool_decide (odr_verdict group = Some None)) eqn:Eb; [|done]. apply bool_decide_eq_true in Eb. cbn [andb].
    rewrite bool_decide_eq_false_2; [done|]. rewrite Hdups. by apply Hno.
Qed.
End Passes.

(** What is reported of a key, echoes included. *)
Lemma odr_diagnostics `{!StdSort} (g : GlobalIndex) (k : bytes) (group : OdrGroup) :
  odr_groups g !! k = Some group ->
  let reported := (fun d => (dx_kind d, dx_entities d)) <$> analyzeOdrViolations g [] in
  ((ODR_DivergentDefinition, [k]) ∈ reported <-> divergent g k) /\
  ((ODR_DuplicateDefinition, [k]) ∈ reported <-> duplicate g k /\ (isClass group = false -> ~ duplicated_class g (enclosingClass group))) /\
  (forall d, d ∈ analyzeOdrViolations g [] -> dx_kind d ∈ [ODR_DivergentDefinition; ODR_DuplicateDefinition] /\
     exists k' group', odr_groups g !! k' = Some group' /\ dx_entities d = [k']).
Proof.
  intros Hg reported. pose proof (verdict_exact g k group Hg) as Hv.
  assert (Hdup := verdict_duplicate g k group Hg).
  assert (Hrep : forall kind, (kind, [k]) ∈ reported <-> exists d, said g d /\ dx_kind d = kind /\ dx_entities d = [k]).
  { intros kind. unfold reported. rewrite list_elem_of_fmap. setoid_rewrite reported_said. split.
    - intros (d & [= -> E] & Hd). eauto.
    - intros (d & Hd & <- & E). exists d. by rewrite E. }
  assert (Hsaid : forall d, said g d -> dx_entities d = [k] -> verdict_diagnostic (k, group) = Some d /\
    (odr_verdict group = Some None -> isClass group = false -> ~ duplicated_class g (enclosingClass group))).
  { intros d (k' & group' & Hg' & Ek & Hd & Hno) Ek'. rewrite Ek' in Ek. injection Ek as <-. assert (group' = group) as -> by congruence. done. }
  rewrite !Hrep. split_and!.
  - split.
    + intros (d & Hd & Hk & He). destruct (Hsaid d Hd He) as [Hvd _]. unfold verdict_diagnostic in Hvd. cbn in Hvd.
      destruct (odr_verdict group) as [[[s m]|]|]; [by destruct Hv| |done]. cbn in Hvd. injection Hvd as <-. done.
    + intros Hdiv. destruct (odr_verdict group) as [[[s m]|]|] eqn:Ev; [|by destruct Hv|by destruct Hv].
      exists (divergent_diagnostic k group s m). split_and!; [|done|done]. exists k, group. split_and!; [done|done| |by rewrite Ev].
      unfold verdict_diagnostic. cbn. by rewrite Ev.
  - split.
    + intros (d & Hd & Hk & He). destruct (Hsaid d Hd He) as [Hvd Hno]. unfold verdict_diagnostic in Hvd. cbn in Hvd.
      destruct (odr_verdict group) as [[[s m]|]|]; [cbn in Hvd; injection Hvd as <-; done| |done]. split; [done|]. by apply Hno.
    + intros [Hd Hno]. apply Hdup in Hd as Ev. exists (duplicate_diagnostic k group). split_and!; [|done|done]. exists k, group.
      split_and!; [done|done| |by intros _]. unfold verdict_diagnostic. cbn. by rewrite Ev.
  - intros d (k' & group' & Hg' & Ek & Hd & _)%reported_said. split; [|by exists k', group']. apply fmap_Some in Hd as (v & _ & ->).
    destruct v as [[]|]; set_solver.
Qed.

(** A class that is flagged: a site of it was compiled to different bodies, or its sites differ. *)
Definition flagged_class (g : GlobalIndex) (n : bytes) : Prop :=
  exists k group, odr_groups g !! k = Some group /\ isClass group = true /\ displayName group = n /\ (divergent g k \/ duplicate g k).

(** A method inside a flagged class: what is said of it would echo what is said of the class. *)
Definition echo (g : GlobalIndex) (group : OdrGroup) : Prop := isClass group = false /\ flagged_class g (enclosingClass group).

Lemma duplicated_flagged g n : duplicated_class g n -> flagged_class g n.
Proof. intros (k & group & Hg & Hc & Hd & Hn). exists k, group. split_and!; [done|done|done|by right]. Qed.

(** C32. The one-definition-rule check reports what is documented.  A class, or a function
    that is no echo of its flagged class, is reported as divergent exactly when one of its sites
    was compiled to different bodies, and as a duplicate exactly when no site was but two of
    its definitions have different bodies.  A method of a class that is reported as a duplicate
    is not reported as a duplicate.  Every diagnostic is one of these two, about a recorded
    entity of which it is true; the two exclude each other. *)
Theorem odr_violations_exact `{!StdSort} (g : GlobalIndex) (k : bytes) (group : OdrGroup) :
  odr_groups g !! k = Some group ->
  let reported := (fun d => (dx_kind d, dx_entities d)) <$> analyzeOdrViolations g [] in
  (~ echo g group ->
     ((ODR_DivergentDefinition, [k]) ∈ reported <-> divergent g k) /\ ((ODR_DuplicateDefinition, [k]) ∈ reported <-> duplicate g k)) /\
  (forall kc class, odr_groups g !! kc = Some class -> isClass class = true -> displayName class = enclosingClass group ->
     (ODR_DuplicateDefinition, [kc]) ∈ reported -> isClass group = false -> (ODR_DuplicateDefinition, [k]) ∉ reported) /\
  (forall kind ks, (kind, ks) ∈ reported -> exists k', ks = [k'] /\ is_Some (odr_groups g !! k') /\
     ((kind = ODR_DivergentDefinition /\ divergent g k') \/ (kind = ODR_DuplicateDefinition /\ duplicate g k'))) /\
  ~ (divergent g k /\ duplicate g k).
Proof.
  intros Hg reported. pose proof (odr_diagnostics g) as Hall. fold reported in Hall. destruct (Hall k group Hg) as (Hdiv & Hdup & Hkinds). split_and!.
  - intros Hecho. split; [done|]. rewrite Hdup. split; [tauto|]. intros Hd. split; [done|]. intros Hc Hdc. apply Hecho. by split; [|apply duplicated_flagged].
  - intros kc class Hgc Hc Hn Hrep Hm [_ Hno]%Hdup. apply (Hno Hm). exists kc, class. destruct (Hall kc class Hgc) as (_ & Hdc & _).
    split_and!; [done|done|by apply Hdc|done].
  - intros kind ks Hin. pose proof Hin as (d & [= -> ->] & Hd)%list_elem_of_fmap. destruct (Hkinds d Hd) as [Hk (k' & group' & Hg' & E)]. exists k'.
    split_and!; [done|by rewrite Hg'|]. rewrite E in Hin. destruct (Hall k' group' Hg') as (H1 & H2 & _).
    rewrite !elem_of_cons, elem_of_nil in Hk. destruct Hk as [Hk|[Hk|[]]]; rewrite Hk in *; [left|right]; (split; [done|]); [by apply H1|by apply H2].
  - by intros [? [? _]].
Qed.

(** Class A is defined twice with different bodies, and so is its method A::f. *)
Definition two_classes : GlobalIndex :=
  replay_ops empty_global_index
    [OpOdr (MkOdr (str "A") [] true [] (str "a.h") 1 7 (str "a.cpp")); OpOdr (MkOdr (str "A") [] true [] (str "b.h") 4 8 (str "b.cpp"));
     OpOdr (MkOdr (str "A::f") (str "void ()") false (str "A") (str "a.h") 2 17 (str "a.cpp"));
     OpOdr (MkOdr (str "A::f") (str "void ()") false (str "A") (str "b.h") 5 18 (str "b.cpp"))].

Lemma odr_violations_exact_witness :
  duplicate two_classes (str "A||c") /\ dx_entities <$> @analyzeOdrViolations stable_std_sort two_classes [] = [[str "A||c"]].
Proof.
  split; [|vm_compute; reflexivity].
  destruct (@odr_violations_exact stable_std_sort two_classes (str "A||c")
    (foldl add_odr_site no_odr_group (filter (fun e => odr_group_key e = str "A||c") (gi_odrEntries two_classes)))) as (H & _).
  - vm_compute. reflexivity.
  - apply H; [by intros [[=] _]|]. vm_compute. left.
Defined.

(** Class A diverges at one site, and its method A::f at one site too: the class is flagged,
    and the method is still reported. *)
Definition divergent_class (method_line : N) : GlobalIndex :=
  replay_ops empty_global_index
    [OpOdr (MkOdr (str "A") [] true [] (str "a.h") 1 7 (str "a.cpp")); OpOdr (MkOdr (str "A") [] true [] (str "a.h") 1 8 (str "b.cpp"));
     OpOdr (MkOdr (str "A::f") (str "void ()") false (str "A") (str "a.h") 2 17 (str "a.cpp"));
     OpOdr (MkOdr (str "A::f") (str "void ()") false (str "A") (str "a.h") method_line 18 (str "b.cpp"))].

(** Only duplicates are suppressed, and only below duplicates: a method that diverges is
    reported beside its flagged class, and so is a duplicate method of a divergent class. *)
Theorem flagged_class_is_echoed :
  dx_entities <$> @analyzeOdrViolations stable_std_sort (divergent_class 2) [] = [[str "A||c"]; [str "A::f|void ()|f"]] /\
  dx_entities <$> @analyzeOdrViolations stable_std_sort (divergent_class 3) [] = [[str "A||c"]; [str "A::f|void ()|f"]].
Proof. by vm_compute. Qed.
