(* ===== verification/OverloadChecks.v ===== *)
(** The spelling of types, include/vycor/check/TypeNormalize.h: qualifiers, trailing reference
    markers and white space are removed.  The keyword stripper searches and erases in place;
    it is shown to do what its comment says: drop the whole words that are the keyword.

    The checks of one translation unit against the index (src/check/Analyzer.cpp): overloads,
    deduction guides and specializations the unit cannot see.  What the front end says of the
    unit (the call, the instantiations, the files included) is the input; the scoring of the
    candidates and the diagnostics are the program's. *)

From S2P Require Import Prelude StringInterner Text Results Upsert GlobalIndex ReachAnalyses.

Definition isIdent (c : Byte.byte) : bool := is_alnum c || bool_decide (c = Byte.x5f).

(** [s.find(kw, pos)] *)
Definition find_at (s kw : bytes) (pos : nat) : option nat := Nat.add pos <$> str_find (drop pos s) kw.

(** The character before a position, or at it, ends a word. *)
Definition boundary (c : option Byte.byte) : bool := match c with Some c => negb (isIdent c) | None => true end.

(** The loop of [stripKeyword]; [None] is a loop that has not ended. *)
Fixpoint strip_loop (kw : bytes) (fuel : nat) (s : bytes) (pos : nat) : option bytes :=
  match fuel with
  | O => None
  | S fuel' =>
      match find_at s kw pos with
      | None => Some s
      | Some p =>
          let boundaryLeft := if decide (p = 0) then true else boundary (s !! (p - 1)) in
          let boundaryRight := if decide (p + length kw = length s) then true else boundary (s !! (p + length kw)) in
          if boundaryLeft && boundaryRight then strip_loop kw fuel' (take p s ++ drop (p + length kw) s) p
          else strip_loop kw fuel' s (p + length kw)
      end
  end.

Definition stripKeyword (kw s : bytes) : bytes := default s (strip_loop kw (S (length s)) s 0).

(** [while (!s.empty() && s.back() == '&') s.pop_back()] *)
Definition strip_references (s : bytes) : bytes := rev (ltrim_by (fun c => bool_decide (c = Byte.x26)) (rev s)).

Definition blank (c : Byte.byte) : bool := existsb (fun b => bool_decide (c = b)) [Byte.x20; Byte.x09; Byte.x0a; Byte.x0d].

Definition normalizeTypeForMatching (s : bytes) : bytes :=
  filter (fun c => blank c = false) (strip_references (stripKeyword (str "volatile") (stripKeyword (str "const") s))).

(** * The words of a text *)

Section Words.
Variable kw : bytes.

Definition flush (word : bytes) : bytes := if decide (word = kw) then [] else word.

(** The text without the words that are the keyword; [word] is the part of a word read so far. *)
Fixpoint drop_words (word s : bytes) : bytes :=
  match s with
  | [] => flush word
  | c :: s' => if isIdent c then drop_words (word ++ [c]) s' else flush word ++ c :: drop_words [] s'
  end.

(** The rest of a word that is kept, and the text after it. *)
Fixpoint keep_word (s : bytes) : bytes :=
  match s with
  | [] => []
  | c :: s' => if isIdent c then c :: keep_word s' else c :: drop_words [] s'
  end.

(** What the loop leaves of the text after the position, which may be inside a word. *)
Definition leaves (inside : bool) (s : bytes) : bytes := if inside then keep_word s else drop_words [] s.

Hypothesis Hkw : kw <> [].
Hypothesis Hident : Forall (fun c => isIdent c = true) kw.

(** The keyword does not occur in a text. *)
Definition absent (s : bytes) : Prop := forall a b, s <> a ++ kw ++ b.

Lemma absent_tail w s : absent (w ++ s) -> absent s.
Proof. intros H a b ->. apply (H (w ++ a) b). by rewrite <- !(assoc_L app). Qed.

Lemma absent_head w s : absent (w ++ s) -> absent w.
Proof. intros H a b ->. apply (H a (b ++ s)). by rewrite <- !(assoc_L app). Qed.

Lemma flush_absent w : absent w -> flush w = w.
Proof. intros H. unfold flush. rewrite decide_False; [done|]. intros ->. apply (H [] []). by rewrite app_nil_r. Qed.

Lemma drop_words_idents w word v : Forall (fun c => isIdent c = true) w -> drop_words word (w ++ v) = drop_words (word ++ w) v.
Proof.
  intros Hw. revert word. induction Hw as [|c w Hc _ IH]; intros word; cbn; [by rewrite app_nil_r|]. rewrite Hc, IH. by rewrite <- (assoc_L app).
Qed.

Lemma keep_word_idents w v : Forall (fun c => isIdent c = true) w -> keep_word (w ++ v) = w ++ keep_word v.
Proof. induction 1 as [|c w Hc _ IH]; cbn; [done|]. by rewrite Hc, IH. Qed.

(** A word longer than the keyword is kept. *)
Lemma drop_words_long word v : length kw < length word -> drop_words word v = word ++ keep_word v.
Proof.
  revert word. induction v as [|c v IH]; intros word Hl; cbn; [rewrite app_nil_r|destruct (isIdent c)].
  - unfold flush. rewrite decide_False; [done|]. intros ->. lia.
  - rewrite IH by (rewrite length_app; cbn; lia). by rewrite <- (assoc_L app).
  - unfold flush. rewrite decide_False; [done|]. intros ->. lia.
Qed.

(** A text up to a character that ends words is kept when the keyword is not in it. *)
Lemma drop_words_upto c u word t : isIdent c = false -> absent (word ++ u) ->
  drop_words word (u ++ c :: t) = word ++ u ++ c :: drop_words [] t.
Proof.
  intros Hc. revert word. induction u as [|x u IH]; intros word Ha; cbn.
  - rewrite Hc, flush_absent by (by apply absent_head in Ha). done.
  - destruct (isIdent x) eqn:Ex.
    + rewrite IH; [by rewrite <- (assoc_L app)|]. by rewrite <- (assoc_L app).
    + rewrite flush_absent by (by apply absent_head in Ha). rewrite IH; [done|]. cbn. apply (absent_tail (word ++ [x])). by rewrite <- (assoc_L app).
Qed.

Lemma keep_word_upto c u t : isIdent c = false -> absent u -> keep_word (u ++ c :: t) = u ++ c :: drop_words [] t.
Proof.
  intros Hc. induction u as [|x u IH]; intros Ha; cbn; [by rewrite Hc|]. destruct (isIdent x) eqn:Ex.
  - rewrite IH; [done|]. by apply (absent_tail [x]).
  - rewrite drop_words_upto; [done|done|]. cbn. by apply (absent_tail [x]).
Qed.

Lemma leaves_upto inside c u t : isIdent c = false -> absent u -> leaves inside (u ++ c :: t) = u ++ c :: drop_words [] t.
Proof. intros Hc Ha. destruct inside; cbn; [by apply keep_word_upto|by apply drop_words_upto]. Qed.


Lemma drop_words_absent word s : absent (word ++ s) -> drop_words word s = word ++ s.
Proof.
  revert word. induction s as [|c s IH]; intros word Ha; cbn.
  - rewrite app_nil_r in *. by apply flush_absent.
  - destruct (isIdent c); [rewrite IH; [by rewrite <- (assoc_L app)|by rewrite <- (assoc_L app)]|].
    rewrite flush_absent by (by apply absent_head in Ha). rewrite IH; [done|]. cbn. apply (absent_tail (word ++ [c])). by rewrite <- (assoc_L app).
Qed.

Lemma leaves_absent inside s : absent s -> leaves inside s = s.
Proof.
  destruct inside; cbn [leaves]; [|exact (drop_words_absent [] s)]. induction s as [|c s IH]; intros Ha; cbn; [done|].
  apply (absent_tail [c]) in Ha. destruct (isIdent c); [by rewrite IH|]. by rewrite (drop_words_absent [] s).
Qed.

(** The maximal run of word characters at the end of a text. *)
Lemma last_run u : exists u' w, u = u' ++ w /\ Forall (fun c => isIdent c = true) w /\ (u' = [] \/ exists x c, u' = x ++ [c] /\ isIdent c = false).
Proof.
  induction u as [|c u (u' & w & -> & Hw & Hu)] using rev_ind; [exists [], []; auto|]. destruct (isIdent c) eqn:Ec.
  - exists u', (w ++ [c]). rewrite <- (assoc_L app). split_and!; [done| |done]. apply Forall_app. by repeat constructor.
  - exists ((u' ++ w) ++ [c]), []. rewrite app_nil_r. split_and!; [done|constructor|]. right. by exists (u' ++ w), c.
Qed.

Definition inside (a : bytes) : bool := match last a with Some c => isIdent c | None => false end.

Definition starts_word (v : bytes) : bool := match v with c :: _ => isIdent c | [] => false end.

(** An occurrence that is a whole word is dropped, any other is kept with the rest of its word. *)
Lemma leaves_occurrence a u v : absent u ->
  leaves (inside a) (u ++ kw ++ v) =
  if negb (inside (a ++ u)) && negb (starts_word v) then u ++ drop_words [] v else u ++ kw ++ keep_word v.
Proof.
  intros Ha. destruct (last_run u) as (u' & w & -> & Hw & Hu').
  assert (Hword : forall word, Forall (fun c => isIdent c = true) word ->
    drop_words [] (word ++ kw ++ v) = if bool_decide (word = []) && negb (starts_word v) then drop_words [] v else word ++ kw ++ keep_word v).
  { intros word Hword. rewrite (assoc_L app), drop_words_idents by (by apply Forall_app). cbn [app]. destruct word as [|x word].
    - rewrite bool_decide_eq_true_2 by done. cbn [app andb]. destruct v as [|c v]; cbn [starts_word negb drop_words].
      + unfold flush. rewrite decide_True, decide_False by done. done.
      + destruct (isIdent c) eqn:Ec; cbn [negb].
        * rewrite drop_words_long by (rewrite length_app; cbn; lia). rewrite <- (assoc_L app). cbn. by rewrite Ec.
        * unfold flush. by rewrite decide_True, decide_False.
    - rewrite bool_decide_eq_false_2 by done. cbn [andb]. rewrite drop_words_long by (rewrite length_app; cbn; lia). by rewrite <- (assoc_L app). }
  destruct Hu' as [->|(x & c & -> & Hc)].
  - cbn [app] in *. destruct w as [|y w].
    + rewrite app_nil_r. destruct (inside a) eqn:Ea; cbn [leaves negb andb app]; [by rewrite keep_word_idents|]. rewrite <- (app_nil_l (kw ++ v)). by rewrite Hword.
    + assert (Ei : inside (a ++ y :: w) = true).
      { unfold inside. destruct (exists_last (l := y :: w)) as (w' & z & E); [done|]. rewrite E in Hw |- *. apply Forall_app in Hw as [_ Hz].
        apply Forall_cons in Hz as [Hz _]. rewrite (assoc_L app), last_snoc. exact Hz. }
      rewrite Ei. cbn [negb andb]. destruct (inside a); cbn [leaves]; [rewrite (assoc_L app), keep_word_idents by (by apply Forall_app); by rewrite <- (assoc_L app)|].
      by rewrite Hword.
  - rewrite <- !(assoc_L app). cbn [app]. rewrite leaves_upto; [|done|].
    2: { apply absent_head in Ha. by apply absent_head in Ha. }
    rewrite Hword by done. replace (inside (a ++ x ++ c :: w)) with (negb (bool_decide (w = []))).
    { rewrite negb_involutive. destruct (bool_decide (w = []) && negb (starts_word v)) eqn:Eb; [|done].
      apply andb_true_iff in Eb as [->%bool_decide_eq_true _]. done. }
    unfold inside. destruct w as [|y w]; [rewrite (assoc_L app), last_snoc; by rewrite Hc|].
    destruct (exists_last (l := y :: w)) as (w' & z & E); [done|]. rewrite E in Hw |- *. apply Forall_app in Hw as [_ Hz]. apply Forall_cons in Hz as [Hz _].
    rewrite bool_decide_eq_false_2 by (by destruct w'). cbn. rewrite (app_comm_cons w' [z] c), !(assoc_L app), last_snoc. symmetry. exact Hz.
Qed.

Lemma str_find_first s : match str_find s kw with
  | Some i => exists u v, s = u ++ kw ++ v /\ length u = i /\ absent u
  | None => absent s
  end.
Proof.
  induction s as [|c s IH]; cbn [str_find]; destruct (starts_with _ kw) eqn:Es.
  - apply starts_with_spec in Es as [b E]. exists [], b. split_and!; [done|done|]. intros x y E'. destruct x; [|done]. by destruct kw.
  - intros a b E. destruct a; [|done]. destruct kw; [done|]. done.
  - apply starts_with_spec in Es as [b E]. exists [], b. split_and!; [done|done|]. intros x y E'. destruct x; [|done]. by destruct kw.
  - assert (Hno : forall b, c :: s <> kw ++ b) by (intros b E; apply not_true_iff_false in Es; apply Es, starts_with_spec; by exists b).
    assert (Hcons : forall w, (forall b, c :: w <> kw ++ b) -> absent w -> absent (c :: w)).
    { intros w Hw Ha [|x a] b E; [by apply (Hw b)|]. injection E as -> E. by apply (Ha a b). }
    destruct (str_find s kw) as [i|]; cbn; [|by apply Hcons].
    destruct IH as (u & v & -> & <- & Hu). exists (c :: u), v. split_and!; [done|done|]. apply Hcons; [|done].
    intros b E. apply (Hno (b ++ kw ++ v)). change (c :: u ++ kw ++ v) with ((c :: u) ++ kw ++ v). rewrite E. by rewrite <- (assoc_L app).
Qed.

Lemma boundary_left a v : (if decide (length a = 0) then true else boundary ((a ++ v) !! (length a - 1))) = negb (inside a).
Proof.
  unfold inside. destruct a as [|c a _] using rev_ind; [done|]. rewrite length_app, last_snoc. cbn [length]. rewrite decide_False by lia.
  rewrite <- (assoc_L app), lookup_app_r by lia. replace (length a + 1 - 1 - length a) with 0 by lia. done.
Qed.

Lemma boundary_right a v : (if decide (length a = length (a ++ v)) then true else boundary ((a ++ v) !! length a)) = negb (starts_word v).
Proof.
  destruct v as [|c v]; [by rewrite app_nil_r, decide_True|]. rewrite length_app. cbn [length]. rewrite decide_False by lia.
  rewrite lookup_app_r, Nat.sub_diag by lia. done.
Qed.

Lemma strip_loop_leaves fuel a s : length s < fuel -> strip_loop kw fuel (a ++ s) (length a) = Some (a ++ leaves (inside a) s).
Proof.
  revert a s. induction fuel as [|fuel IH]; intros a s Hf; [lia|]. cbn [strip_loop]. unfold find_at. rewrite drop_app_length.
  pose proof (str_find_first s) as Hfind. destruct (str_find s kw) as [i|]; cbn [fmap option_fmap option_map].
  2: { by rewrite leaves_absent. }
  destruct Hfind as (u & v & -> & <- & Hu). assert (Hk : 0 < length kw) by (destruct kw; [done|cbn; lia]).
  replace (length a + length u) with (length (a ++ u)) by (by rewrite length_app). rewrite (assoc_L app a u), boundary_left.
  replace (length (a ++ u) + length kw) with (length ((a ++ u) ++ kw)) by (by rewrite length_app). rewrite (assoc_L app (a ++ u) kw), boundary_right.
  rewrite (leaves_occurrence a u v Hu), !length_app in *. destruct (negb (inside (a ++ u)) && negb (starts_word v)) eqn:Eb.
  - rewrite <- (assoc_L app (a ++ u) kw v) at 1. rewrite <- length_app, take_app_length. replace (length (a ++ u) + length kw) with (length ((a ++ u) ++ kw)) by (by rewrite length_app).
    rewrite drop_app_length. rewrite IH by (rewrite ?length_app in *; lia). apply andb_true_iff in Eb as [Ei%negb_true_iff _]. rewrite Ei. cbn [leaves]. by rewrite <- (assoc_L app).
  - replace (length a + length u + length kw) with (length ((a ++ u) ++ kw)) by (by rewrite !length_app).
    rewrite IH by (rewrite ?length_app in *; lia). assert (Ei : inside ((a ++ u) ++ kw) = true).
    { unfold inside. destruct (exists_last (l := kw)) as (w & z & E); [done|]. rewrite E in Hident |- *. apply Forall_app in Hident as [_ Hz].
      apply Forall_cons in Hz as [Hz _]. rewrite (assoc_L app), last_snoc. exact Hz. }
    rewrite Ei. cbn [leaves]. by rewrite <- !(assoc_L app).
Qed.
End Words.

(** The keyword stripper, which searches for the keyword and erases in place, removes
    exactly the whole words that are the keyword: every occurrence that is not part of a
    longer identifier, and nothing else.  It always ends. *)
Theorem strip_keyword_drops_words (kw s : bytes) :
  kw <> [] -> Forall (fun c => isIdent c = true) kw -> stripKeyword kw s = drop_words kw [] s.
Proof.
  intros Hkw Hident. unfold stripKeyword. pose proof (strip_loop_leaves kw Hkw Hident (S (length s)) [] s ltac:(lia)) as H.
  cbn [app length] in H. rewrite H. done.
Qed.

Lemma strip_keyword_drops_words_witness :
  stripKeyword (str "const") (str "const char *const, constant") = drop_words (str "const") [] (str "const char *const, constant") /\
  stripKeyword (str "const") (str "const char *const, constant") = str " char *, constant".
Proof. split; [apply strip_keyword_drops_words; by_computation|vm_compute; reflexivity]. Defined.

(** * Scores *)

Section Scores.
Variable types : TypeRelationIndex.
Variable modelConvertibility : bool.

Definition scoreParamMatch (arg cand res : bytes) : N :=
  if decide (cand = arg) then 2
  else if decide (cand = res) then 1
  else if isArithmeticTypeName cand && isArithmeticTypeName arg then 1
  else if modelConvertibility && isConvertible types arg cand then 1
  else 0.

(** The loop over the positions; a position that scores 0 ends it with no scores. *)
Fixpoint score_positions (args cands ress : list bytes) : option (list N) :=
  match args, cands, ress with
  | a :: args', c :: cands', r :: ress' =>
      let s := scoreParamMatch a c r in
      if decide (s = 0%N) then None else cons s <$> score_positions args' cands' ress'
  | _, _, _ => Some []
  end.

(** No scores, the empty vector, for a candidate that cannot apply. *)
Definition scoreOverload (argTypes resolvedParamTypes candidateParamTypes : list bytes) : list N :=
  if decide (length candidateParamTypes <> length argTypes \/ length resolvedParamTypes <> length argTypes) then []
  else default [] (score_positions argTypes candidateParamTypes resolvedParamTypes).
End Scores.

(** [candidateBetter] and [resolvedBetter]; the vectors have one length. *)
Definition compareScores (resolvedScores candidateScores : list N) : bool * bool :=
  foldl (fun st rc => (st.1 || (rc.1 <? rc.2)%N, st.2 || (negb (rc.1 <? rc.2)%N && (rc.2 <? rc.1)%N))) (false, false) (zip resolvedScores candidateScores).

Definition normalizeAll (raw : list bytes) : list bytes := normalizeTypeForMatching <$> raw.

(** * Calls *)

(** A call the front end resolved to an unqualified, externally visible function of a namespace. *)
Record ResolvedCall := MkCallFacts {
  rc_qualifiedName : bytes;
  rc_paramTypes : list bytes;
  rc_argTypes : list bytes;
  rc_location : bytes;
  rc_scope : bytes
}.

(** The parameters joined by ", ". *)
Fixpoint comma_list (l : list bytes) : bytes :=
  match l with
  | [] => []
  | [a] => a
  | a :: l' => a ++ str ", " ++ comma_list l'
  end.

Definition buildSig (qname : bytes) (params : list bytes) : bytes := qname ++ str "(" ++ comma_list params ++ str ")".

Record AnalysisFlags := MkFlags { fl_modelConvertibility : bool; fl_warnSameScore : bool }.

Section Unit.
Variable g : GlobalIndex.
Variable flags : AnalysisFlags.
(** [isFileIncluded]: the files of the unit. *)
Variable included : bytes -> bool.

Definition overload_message (kind : DiagnosticKind) (candidateSig header resolvedSig : bytes) : bytes :=
  match kind with
  | ADL_SameScore =>
      str "Same-score ADL candidate: " ++ candidateSig ++ str " exists in " ++ header ++
      str " but is not visible here. It ties the resolved overload " ++ resolvedSig ++
      str " on every argument position — inclusion order silently decides which one the compiler picks."
  | ADL_Fallback =>
      str "Fragile ADL resolution: " ++ candidateSig ++ str " exists in " ++ header ++
      str " but is not visible here. The current call resolves to " ++ resolvedSig ++ str ". Include " ++ header ++ str " or explicitly qualify the call."
  | _ =>
      str "Potential ADL ambiguity: " ++ candidateSig ++ str " exists in " ++ header ++
      str " but is not visible here. Including it would make the call to " ++ resolvedSig ++ str " an ambiguous overload resolution."
  end.

(** The kind of diagnostic a pair of score vectors gives. *)
Definition classify_scores (resolvedScores candidateScores : list N) : option DiagnosticKind :=
  let '(candidateBetter, resolvedBetter) := compareScores resolvedScores candidateScores in
  if negb candidateBetter then
    if fl_warnSameScore flags && negb resolvedBetter && bool_decide (candidateScores = resolvedScores) then Some ADL_SameScore else None
  else if negb resolvedBetter then Some ADL_Fallback else Some ADL_Ambiguity.

Definition candidate_diagnostic (c : ResolvedCall) (resolvedScores : list N) (entry : FunctionOverloadEntry) : option Diagnostic :=
  if decide (fo_paramTypes entry = rc_paramTypes c) then None
  else if included (fo_headerPath entry) then None
  else if decide (length (fo_paramTypes entry) <> length (rc_argTypes c)) then None
  else
    let candidateScores := scoreOverload (gi_types g) (fl_modelConvertibility flags) (normalizeAll (rc_argTypes c))
                             (normalizeAll (rc_paramTypes c)) (normalizeAll (fo_paramTypes entry)) in
    if decide (candidateScores = []) then None
    else
      (fun kind =>
         let resolvedSig := buildSig (rc_qualifiedName c) (rc_paramTypes c) in
         let candidateSig := buildSig (fo_qualifiedName entry) (fo_paramTypes entry) in
         MkDiagnostic kind [] (rc_location c) resolvedSig candidateSig (fo_headerPath entry)
           (overload_message kind candidateSig (fo_headerPath entry) resolvedSig) [] [] (rc_scope c)) <$> classify_scores resolvedScores candidateScores.

(** [VisitCallExpr], once the front end has resolved the call. *)
Definition call_diagnostics (c : ResolvedCall) : list Diagnostic :=
  let overloads := findOverloads g (rc_qualifiedName c) in
  if decide (length overloads <= 1) then []
  else
    let resolvedScores := scoreOverload (gi_types g) (fl_modelConvertibility flags) (normalizeAll (rc_argTypes c))
                            (normalizeAll (rc_paramTypes c)) (normalizeAll (rc_paramTypes c)) in
    if decide (resolvedScores = []) then [] else omap (candidate_diagnostic c resolvedScores) overloads.

(** * Deduction guides: [VisitVarDecl] of a variable of a template's specialization *)

Definition guide_diagnostic (location scope deducedType : bytes) (entry : DeductionGuideEntry) : option Diagnostic :=
  if included (dg_headerPath entry) then None
  else if decide (dg_deducedType entry = deducedType) then None
  else Some (MkDiagnostic CTAD_Fallback [] location deducedType (dg_deducedType entry) (dg_headerPath entry)
         (str "Fragile CTAD resolution: deduction guide in " ++ dg_headerPath entry ++ str " would deduce " ++ dg_deducedType entry ++
          str " but is not visible here. The current deduction produces " ++ deducedType ++ str ". Include " ++ dg_headerPath entry ++
          str " to use the explicit guide.") [] [] scope).

Definition ctad_diagnostics (templateName deducedType location scope : bytes) : list Diagnostic :=
  omap (guide_diagnostic location scope deducedType) (findDeductionGuides g templateName).

(** * Specializations: [VisitClassTemplateDecl] *)

(** An implicit instantiation: its arguments and where it is. *)
Record Instantiation := MkInstantiation { in_args : bytes; in_location : bytes }.

Definition specialization_diagnostic (location args : bytes) (entry : SpecializationEntry) : Diagnostic :=
  entity_diagnostic Specialization_Invisible location [sp_templateName entry ++ str "<" ++ args ++ str ">"]
    (str "IFNDR: this TU instantiates the primary template '" ++ sp_templateName entry ++ str "<" ++ args ++
     str ">' but an explicit specialization exists at " ++ at_line (sp_headerPath entry) (sp_line entry) ++
     (if decide (sp_resolutionSummary entry = []) then [] else str " (resolves to " ++ sp_resolutionSummary entry ++ str ")") ++
     str " and is not visible here. TUs will disagree about which definition to use. Make the template specialization visible to both TUs.").

Definition with_missing_header (h : bytes) (d : Diagnostic) : Diagnostic :=
  MkDiagnostic (dx_kind d) (dx_file d) (dx_callLocation d) (dx_resolvedDecl d) (dx_betterDecl d) h (dx_message d) (dx_checkName d) (dx_entities d) (dx_scope d).

(** One known specialization against one instantiation; the set holds what was reported. *)
Definition check_known (i : Instantiation) (st : gset bytes * list Diagnostic) (entry : SpecializationEntry) : gset bytes * list Diagnostic :=
  if decide (sp_argsString entry <> in_args i) then st
  else if included (sp_headerPath entry) then st
  else
    let reportKey := sp_templateName entry ++ bar ++ in_args i ++ bar ++ sp_headerPath entry in
    if decide (reportKey ∈ st.1) then st
    else ({[reportKey]} ∪ st.1, st.2 ++ [with_missing_header (sp_headerPath entry) (specialization_diagnostic (in_location i) (in_args i) entry)]).

Definition template_diagnostics (templateName : bytes) (instantiations : list Instantiation) (st : gset bytes * list Diagnostic) : gset bytes * list Diagnostic :=
  let known := findSpecializations g templateName in
  foldl (fun st i => foldl (check_known i) st known) st instantiations.
End Unit.

(** * Which overload wins *)

(** The score of every position of a candidate, by position. *)
Definition scored (types : TypeRelationIndex) (model : bool) (args cands ress : list bytes) (scores : list N) : Prop :=
  length scores = length args /\ forall i a c r, args !! i = Some a -> cands !! i = Some c -> ress !! i = Some r ->
    scores !! i = Some (scoreParamMatch types model a c r) /\ scoreParamMatch types model a c r <> 0%N.

Lemma score_positions_spec types model args cands ress :
  length cands = length args -> length ress = length args ->
  match score_positions types model args cands ress with
  | Some scores => scored types model args cands ress scores
  | None => exists i a c r, args !! i = Some a /\ cands !! i = Some c /\ ress !! i = Some r /\ scoreParamMatch types model a c r = 0%N
  end.
Proof.
  revert cands ress. induction args as [|a args IH]; intros [|c cands] [|r ress]; cbn [length]; try lia.
  { intros _ _. split; [done|]. intros i x y z Hx. by rewrite lookup_nil in Hx. }
  intros [= H1] [= H2]. cbn [score_positions]. case_decide as Hs; [exists 0; cbn; eauto 10|].
  specialize (IH cands ress H1 H2). destruct (score_positions types model args cands ress) as [scores|]; cbn [fmap option_fmap option_map].
  - destruct IH as [Hl Hi]. split; [cbn; lia|]. intros [|i] x y z; cbn; [intros [= <-] [= <-] [= <-]; done|apply Hi].
  - destruct IH as (i & x & y & z & ?). by exists (S i), x, y, z.
Qed.

Lemma compareScores_spec rs cs : length rs = length cs ->
  let '(cb, rb) := compareScores rs cs in
  (cb = true <-> exists i r c, rs !! i = Some r /\ cs !! i = Some c /\ (r < c)%N) /\
  (rb = true <-> exists i r c, rs !! i = Some r /\ cs !! i = Some c /\ (c < r)%N).
Proof.
  intros Hlen. unfold compareScores.
  assert (Hfold : forall l st, foldl (fun st rc => (st.1 || (rc.1 <? rc.2)%N, st.2 || (negb (rc.1 <? rc.2)%N && (rc.2 <? rc.1)%N))) st l =
    (st.1 || existsb (fun rc => (rc.1 <? rc.2)%N) l, st.2 || existsb (fun rc => (rc.2 <? rc.1)%N) l)).
  { induction l as [|[r c] l IH]; intros [x y]; cbn [foldl existsb fst snd]; [by rewrite !orb_false_r|]. rewrite IH. cbn [fst snd].
    rewrite <- !orb_assoc. f_equal. f_equal. f_equal. destruct (N.ltb_spec r c), (N.ltb_spec c r); try done; lia. }
  rewrite Hfold. cbn [fst snd orb]. rewrite !existsb_exists.
  assert (Hz : forall i p, zip rs cs !! i = Some p <-> exists r c, p = (r, c) /\ rs !! i = Some r /\ cs !! i = Some c).
  { intros i p. rewrite lookup_zip_with_Some. done. }
  split; (split; [intros (p & (i & Hp)%list_elem_of_In%list_elem_of_lookup & Hlt); apply Hz in Hp as (r & c & -> & Hr & Hc); apply N.ltb_lt in Hlt; eauto 10|]).
  all: intros (i & r & c & Hr & Hc & Hlt); exists (r, c); split; [apply list_elem_of_In, list_elem_of_lookup; exists i; apply Hz; eauto|by apply N.ltb_lt].
Qed.

Section Classification.
Variables (g : GlobalIndex) (flags : AnalysisFlags) (included : bytes -> bool) (c : ResolvedCall).

Abbreviation score := (scoreParamMatch (gi_types g) (fl_modelConvertibility flags)).
Abbreviation argsN := (normalizeAll (rc_argTypes c)).
Abbreviation paramsN := (normalizeAll (rc_paramTypes c)).
Abbreviation scores_of cands := (scoreOverload (gi_types g) (fl_modelConvertibility flags) argsN paramsN cands).

(** The scores of the resolved overload and of a candidate at a position. *)
Definition scores_at (cands : list bytes) (i : nat) (r s : N) : Prop :=
  exists a p q, argsN !! i = Some a /\ paramsN !! i = Some p /\ cands !! i = Some q /\ r = score a p p /\ s = score a q p.

Definition candidate_wins (cands : list bytes) : Prop := exists i r s, scores_at cands i r s /\ (r < s)%N.
Definition resolved_wins (cands : list bytes) : Prop := exists i r s, scores_at cands i r s /\ (s < r)%N.

(** The candidate can be called with the arguments. *)
Definition applies (cands : list bytes) : Prop := length cands = length argsN /\ forall i r s, scores_at cands i r s -> s <> 0%N.

Lemma scoreOverload_scored cands : scores_of cands <> [] -> scored (gi_types g) (fl_modelConvertibility flags) argsN cands paramsN (scores_of cands) /\
  length cands = length argsN /\ length paramsN = length argsN.
Proof.
  unfold scoreOverload. case_decide as Hl; [done|]. assert (length cands = length argsN /\ length paramsN = length argsN) as [H1 H2] by lia.
  pose proof (score_positions_spec (gi_types g) (fl_modelConvertibility flags) argsN cands paramsN H1 H2) as H.
  destruct (score_positions _ _ argsN cands paramsN); [done|done].
Qed.

Lemma scoreOverload_applies cands : scores_of paramsN <> [] -> scores_of cands <> [] <-> applies cands.
Proof.
  intros Hr. destruct (scoreOverload_scored paramsN Hr) as ([Hlr _] & _ & Hlp). split.
  - intros Hc. destruct (scoreOverload_scored cands Hc) as ([_ Hs] & Hlc & _). split; [done|]. intros i r s (a & p & q & Ha & Hp & Hq & -> & ->).
    by apply (Hs i a q p Ha Hq Hp).
  - intros [Hlc Hs] E. assert (Hpos : 0 < length argsN) by (rewrite <- Hlr; destruct (scores_of paramsN); [done|cbn; lia]).
    unfold scoreOverload in E. rewrite decide_False in E by lia.
    pose proof (score_positions_spec (gi_types g) (fl_modelConvertibility flags) argsN cands paramsN Hlc Hlp) as H.
    destruct (score_positions _ _ argsN cands paramsN) as [l|]; cbn in E.
    + subst l. destruct H as [Hl _]. cbn in Hl. lia.
    + destruct H as (i & a & q & p & Ha & Hq & Hp & H0). apply (Hs i (score a p p) (score a q p)); [|done]. by exists a, p, q.
Qed.

Lemma scores_compared cands : scores_of paramsN <> [] -> scores_of cands <> [] ->
  let '(cb, rb) := compareScores (scores_of paramsN) (scores_of cands) in
  (cb = true <-> candidate_wins cands) /\ (rb = true <-> resolved_wins cands) /\
  (scores_of cands = scores_of paramsN <-> ~ candidate_wins cands /\ ~ resolved_wins cands).
Proof.
  intros Hr Hc. destruct (scoreOverload_scored paramsN Hr) as ([Hlr Hsr] & _ & Hlp). destruct (scoreOverload_scored cands Hc) as ([Hlc Hsc] & Hlq & _).
  assert (Hat : forall i r s, scores_at cands i r s <-> scores_of paramsN !! i = Some r /\ scores_of cands !! i = Some s).
  { intros i r s. split.
    - intros (a & p & q & Ha & Hp & Hq & -> & ->). split; [by apply (Hsr i a p p)|by apply (Hsc i a q p)].
    - intros [H1 H2]. pose proof (lookup_lt_Some _ _ _ H1) as Hlt.
      destruct (lookup_lt_is_Some_2 argsN i) as [a Ha]; [lia|]. destruct (lookup_lt_is_Some_2 paramsN i) as [p Hp]; [lia|].
      destruct (lookup_lt_is_Some_2 cands i) as [q Hq]; [lia|]. exists a, p, q. destruct (Hsr i a p p Ha Hp Hp), (Hsc i a q p Ha Hq Hp). split_and!; congruence. }
  pose proof (compareScores_spec (scores_of paramsN) (scores_of cands)) as H. destruct (compareScores (scores_of paramsN) (scores_of cands)) as [cb rb].
  destruct H as [Hcb Hrb]; [lia|]. unfold candidate_wins, resolved_wins. setoid_rewrite Hat. split_and!.
  - rewrite Hcb. split; intros (i & r & s & H); exists i, r, s; tauto.
  - rewrite Hrb. split; intros (i & r & s & H); exists i, r, s; tauto.
  - split.
    + intros E. rewrite E. split; intros (i & r & s & [H1 H2] & Hlt); assert (r = s) by congruence; lia.
    + intros [Hnc Hnr]. apply list_eq. intros i. destruct (scores_of cands !! i) as [s|] eqn:Es.
      * pose proof (lookup_lt_Some _ _ _ Es) as Hlt. destruct (lookup_lt_is_Some_2 (scores_of paramsN) i) as [r Er]; [lia|]. rewrite Er. f_equal.
        destruct (N.lt_trichotomy r s) as [Hrs|[->|Hrs]]; [|done|]; exfalso; [apply Hnc|apply Hnr]; exists i, r, s; done.
      * symmetry. apply lookup_ge_None. apply lookup_ge_None in Es. lia.
Qed.
End Classification.

(** Invisible overloads are classified by the scores of their positions: a candidate of
    another signature in a file the unit does not include is reported exactly when it can be
    called and either wins at some position (a fragile resolution if the resolved overload
    wins nowhere, an ambiguity if it wins elsewhere) or, on request, ties everywhere.  A
    candidate that only loses is never reported. *)
Theorem overload_diagnostics_exact (g : GlobalIndex) (flags : AnalysisFlags) (included : bytes -> bool) (c : ResolvedCall)
    (entry : FunctionOverloadEntry) (kind : DiagnosticKind) :
  let cands := normalizeAll (fo_paramTypes entry) in
  let resolved := scoreOverload (gi_types g) (fl_modelConvertibility flags) (normalizeAll (rc_argTypes c)) (normalizeAll (rc_paramTypes c)) (normalizeAll (rc_paramTypes c)) in
  resolved <> [] ->
  (exists d, candidate_diagnostic g flags included c resolved entry = Some d /\ dx_kind d = kind) <->
  fo_paramTypes entry <> rc_paramTypes c /\ included (fo_headerPath entry) = false /\ applies g flags c cands /\
  ((kind = ADL_Fallback /\ candidate_wins g flags c cands /\ ~ resolved_wins g flags c cands) \/
   (kind = ADL_Ambiguity /\ candidate_wins g flags c cands /\ resolved_wins g flags c cands) \/
   (kind = ADL_SameScore /\ fl_warnSameScore flags = true /\ ~ candidate_wins g flags c cands /\ ~ resolved_wins g flags c cands)).
Proof.
  intros cands resolved Hr. pose proof (scoreOverload_applies g flags c cands Hr) as Happ. pose proof (scores_compared g flags c cands Hr) as Hcmp.
  unfold candidate_diagnostic. case_decide as Hp; [split; [by intros (? & ? & _)|tauto]|].
  destruct (included (fo_headerPath entry)) eqn:Ei; [split; [by intros (? & ? & _)|by intros (_ & ? & _)]|].
  case_decide as Hlen.
  { split; [by intros (? & ? & _)|]. intros (_ & _ & [Hl _] & _). unfold cands, normalizeAll in Hl. rewrite !length_fmap in Hl. lia. }
  fold cands. fold resolved. case_decide as Hc.
  { split; [by intros (? & ? & _)|]. intros (_ & _ & Ha & _). by apply Happ in Ha. }
  specialize (Hcmp Hc). fold resolved in Hcmp. unfold classify_scores.
  destruct (compareScores resolved _) as [cb rb]. destruct Hcmp as (Hcb & Hrb & Heq). apply Happ in Hc.
  destruct cb, rb; cbn [negb andb]; rewrite ?andb_false_r, ?andb_true_r; cbn [fmap option_fmap option_map].
  - assert (candidate_wins g flags c cands) by tauto. assert (resolved_wins g flags c cands) by tauto. split.
    + intros (d & [= <-] & <-). cbn. tauto.
    + intros (_ & _ & _ & [?|[[-> _]|?]]); [tauto| |tauto]. by eexists.
  - assert (candidate_wins g flags c cands) by tauto. assert (~ resolved_wins g flags c cands) by (rewrite <- Hrb; done). split.
    + intros (d & [= <-] & <-). cbn. tauto.
    + intros (_ & _ & _ & [[-> _]|?]); [|tauto]. by eexists.
  - assert (~ candidate_wins g flags c cands) by (rewrite <- Hcb; done). assert (resolved_wins g flags c cands) by tauto. split; [by intros (? & ? & _)|tauto].
  - assert (~ candidate_wins g flags c cands) by (rewrite <- Hcb; done). assert (~ resolved_wins g flags c cands) by (rewrite <- Hrb; done).
    rewrite bool_decide_eq_true_2 by (apply Heq; tauto). rewrite andb_true_r. destruct (fl_warnSameScore flags); cbn [fmap option_fmap option_map]; split.
    + intros (d & [= <-] & <-). cbn. tauto.
    + intros (_ & _ & _ & [?|[?|[-> _]]]); [tauto|tauto|]. by eexists.
    + by intros (? & ? & _).
    + intros (_ & _ & _ & [?|[?|(_ & ? & _)]]); [tauto|tauto|done].
Qed.

(** A call f(2.0f) resolved to f(int), with f(float) in a header that is not included. *)
Definition float_call : ResolvedCall := MkCallFacts (str "f") [str "int"] [str "float"] (str "m.cpp:1:1") (str "main").
Definition float_overload : FunctionOverloadEntry := MkOverload (str "f") (str "f.h") [str "const float &"] (str "void") 3.

Lemma overload_diagnostics_exact_witness :
  candidate_wins empty_global_index (MkFlags false false) float_call (normalizeAll (fo_paramTypes float_overload)) /\
  dx_kind <$> candidate_diagnostic empty_global_index (MkFlags false false) (fun _ => false) float_call [1%N] float_overload = Some ADL_Fallback.
Proof.
  split; [|vm_compute; reflexivity].
  destruct (proj1 (overload_diagnostics_exact empty_global_index (MkFlags false false) (fun _ => false) float_call float_overload ADL_Fallback ltac:(by vm_compute))) as (_ & _ & _ & H).
  - eexists. split; vm_compute; reflexivity.
  - destruct H as [(_ & H & _)|[[H _]|[H _]]]; [exact H|discriminate H|discriminate H].
Defined.
