(* ===== verification/Checkpoint.v ===== *)
(** The checkpoint journal of the check tool and the files its workers hand over:
    include/vycor/check/Checkpoint.h and src/check/Checkpoint.cpp.

    A run appends a record before and after every parse; a killed run resumes from the
    records that are whole.  The writers and the bounds-checked reader are those of [Codec]
    (the source repeats them).  The file system is the bytes of the journal: [open] maps the
    file that is there to the checkpoint and the file it leaves, an append to the bytes that
    land.  What may fail (the lock, publishing, opening, truncating, writing) is an argument. *)

From S2P Require Import Prelude StringInterner Results Upsert GlobalIndex Ordering Codec SnapshotMeta ReachAnalyses.

(** * Hashes *)

(** [h ^= byte; h *= 16777619u] *)
Definition fnv32 (data : bytes) : N :=
  foldl (fun h b => u32 (N.lxor h (Byte.to_N b) * 16777619))%N 2166136261%N data.

Definition u64 (n : N) : N := (n mod 2 ^ 64)%N.

Definition fnv64 (data : bytes) (seed : N) : N :=
  foldl (fun h b => u64 (N.lxor h (Byte.to_N b) * 1099511628211))%N seed data.

Definition kFnv64Seed : N := 14695981039346656037.

Definition checkRecordChecksum (data : bytes) : N := fnv32 data.

Definition stamp_key (s : FileStamp) : bytes :=
  fs_path s ++ str "|" ++ to_string (fs_mtimeNs s) ++ str "|" ++ to_string (fs_size s).

Definition checkStampSetHash (stamps : list FileStamp) : N :=
  foldl (fun h k => fnv64 [Byte.x0a] (fnv64 k h)) kFnv64Seed (merge_sort bytes_le (stamp_key <$> stamps)).

(** ** The options a journal is valid for *)

Record AnalysisOptions := MkOptions {
  warnSameScore : bool;
  modelConvertibility : bool;
  enableOdrDiag : bool;
  enableAdlDiag : bool;
  enableCtadDiag : bool;
  enableSpecializationDiag : bool;
  enableDefaultArgDiag : bool;
  enableStaticInitOrderDiag : bool;
  enableExceptionEscapeDiag : bool;
  includeCallSiteLocations : bool;
  enableHeaderStaticDiag : bool;
  enableExceptionSpecDiag : bool;
  absolutePaths : bool;
  projectRoot : bytes
}.

Definition flag (b : bool) : bytes := if b then str "1" else str "0".

(** The text that is hashed; [version] is the version of the tool and [orgChecks] the names of
    the organization checks that run. *)
Definition options_canon (version : bytes) (orgChecks : list bytes) (opts : AnalysisOptions) : bytes :=
  version ++ str "|v1|ws=" ++ flag (warnSameScore opts) ++ str "|mc=" ++ flag (modelConvertibility opts) ++
  str "|odr=" ++ flag (enableOdrDiag opts) ++ str "|adl=" ++ flag (enableAdlDiag opts) ++
  str "|ctad=" ++ flag (enableCtadDiag opts) ++ str "|spec=" ++ flag (enableSpecializationDiag opts) ++
  str "|defarg=" ++ flag (enableDefaultArgDiag opts) ++ str "|sinit=" ++ flag (enableStaticInitOrderDiag opts) ++
  str "|xesc=" ++ flag (enableExceptionEscapeDiag opts) ++ str "|xescloc=" ++ flag (includeCallSiteLocations opts) ++
  str "|hsd=" ++ flag (enableHeaderStaticDiag opts) ++ str "|xsd=" ++ flag (enableExceptionSpecDiag opts) ++
  str "|abs=" ++ flag (absolutePaths opts) ++ str "|root=" ++ projectRoot opts ++
  str "|checks=" ++ (merge_sort bytes_le orgChecks ≫= fun n => n ++ str ",").

Definition checkOptionsFingerprint (version : bytes) (orgChecks : list bytes) (opts : AnalysisOptions) : N :=
  fnv64 (options_canon version orgChecks opts) kFnv64Seed.

(** * What one unit contributes to the index *)

Record CheckIndexPayload := MkPayload {
  pl_overloads : list FunctionOverloadEntry;
  pl_guides : list DeductionGuideEntry;
  pl_coverage : list CoveragePropertyEntry;
  pl_odrEntries : list OdrEntry;
  pl_specializations : list SpecializationEntry;
  pl_defaultArgs : list DefaultArgEntry;
  pl_staticInits : list StaticInitEntry;
  pl_functionSummaries : list FunctionSummaryEntry;
  pl_headerStatics : list HeaderStaticEntry;
  pl_exceptionSpecs : list ExceptionSpecEntry;
  pl_baseEdges : list (bytes * bytes);
  pl_ctorEdges : list (bytes * bytes);
  pl_convOpEdges : list (bytes * bytes)
}.

Definition capture `{!UnorderedIter} (shard : GlobalIndex) : CheckIndexPayload :=
  MkPayload (filed_entries (gi_overloads shard)) (filed_entries (gi_guides shard)) (filed_entries (gi_coverageProps shard))
    (gi_odrEntries shard) (filed_entries (gi_specializations shard)) (gi_defaultArgs shard) (gi_staticInits shard)
    (gi_functionSummaries shard) (gi_headerStatics shard) (gi_exceptionSpecs shard)
    (forEachBase (gi_types shard)) (forEachCtorEdge (gi_types shard)) (forEachConvOpEdge (gi_types shard)).

(** [into.mutableTypeRelations()], changed in place. *)
Definition update_types (f : TypeRelationIndex -> TypeRelationIndex) (g : GlobalIndex) : GlobalIndex :=
  MkGlobalIndex (gi_interner g) (gi_overloads g) (gi_guides g) (gi_coverageProps g) (gi_odrEntries g) (gi_odrByKey g)
    (gi_specializations g) (gi_defaultArgs g) (gi_defaultArgKeys g) (gi_staticInits g) (gi_staticInitByName g) (gi_staticInitKeys g)
    (gi_functionSummaries g) (gi_functionSummaryByName g) (gi_headerStatics g) (gi_headerStaticBySite g) (gi_exceptionSpecs g)
    (gi_exceptionSpecKeys g) (f (gi_types g)).

Definition applyTo (p : CheckIndexPayload) (into : GlobalIndex) : GlobalIndex :=
  let g := foldl (fun g e => addFunctionOverload e g) into (pl_overloads p) in
  let g := foldl (fun g e => addDeductionGuide e g) g (pl_guides p) in
  let g := foldl (fun g e => addCoverageProperty e g) g (pl_coverage p) in
  let g := foldl (fun g e => addOdrEntry e g) g (pl_odrEntries p) in
  let g := foldl (fun g e => addSpecialization e g) g (pl_specializations p) in
  let g := foldl (fun g e => addDefaultArg e g) g (pl_defaultArgs p) in
  let g := foldl (fun g e => addStaticInit e g) g (pl_staticInits p) in
  let g := foldl (fun g e => addFunctionSummary e g) g (pl_functionSummaries p) in
  let g := foldl (fun g e => addHeaderStatic e g) g (pl_headerStatics p) in
  let g := foldl (fun g e => addExceptionSpec e g) g (pl_exceptionSpecs p) in
  update_types (fun t =>
    let t := foldl (fun t e => addBase e.1 e.2 t) t (pl_baseEdges p) in
    let t := foldl (fun t e => addCtorEdge e.1 e.2 t) t (pl_ctorEdges p) in
    foldl (fun t e => addConvOpEdge e.1 e.2 t) t (pl_convOpEdges p)) g.

(** * Wire form *)

(** [uint32_t n = r.u32(); for (i = 0; i < n && r.ok; ++i) v.push_back(...)]: the count is
    not compared with the bytes left. *)
Definition r_each {A} (f : M A) : M (list A) :=
  n <-- r_u32;; loop (N.to_nat n) (fun l => a <-- f;; ret (l ++ [a])) [].

Definition putPair (p : bytes * bytes) : bytes := putLenStr p.1 ++ putLenStr p.2.
Definition readPair : M (bytes * bytes) := a <-- r_lenStr;; b <-- r_lenStr;; ret (a, b).

Definition putStringPairs (v : list (bytes * bytes)) : bytes := put_list putPair v.
Definition readStringPairs : M (list (bytes * bytes)) := r_each readPair.

(** [int32_t] in the 32 bits of a [uint32_t] and back. *)
Definition putI32 (z : Z) : bytes := putU32 (Z.to_N (z mod 4294967296)).
Definition r_i32 : M Z := n <-- r_u32;; ret (if (n <? 2147483648)%N then Z.of_N n else Z.of_N n - 4294967296)%Z.

(** [flags |= b ? 1 << i : 0] *)
Definition flag_bits (l : list bool) : N := foldr (fun (b : bool) n => (if b then 1 else 0) + 2 * n)%N 0%N l.

Definition encodeOverload (e : FunctionOverloadEntry) : bytes :=
  putLenStr (fo_qualifiedName e) ++ putLenStr (fo_headerPath e) ++ put_list putLenStr (fo_paramTypes e) ++ putLenStr (fo_returnType e) ++
  putU32 (fo_sourceLine e).

Definition decodeOverload : M FunctionOverloadEntry :=
  qualifiedName <-- r_lenStr;; headerPath <-- r_lenStr;; paramTypes <-- r_each r_lenStr;; returnType <-- r_lenStr;; sourceLine <-- r_u32;;
  ret (MkOverload qualifiedName headerPath paramTypes returnType sourceLine).

Definition encodeGuide (e : DeductionGuideEntry) : bytes :=
  putLenStr (dg_templateName e) ++ putLenStr (dg_headerPath e) ++ put_list putLenStr (dg_paramTypes e) ++ putLenStr (dg_deducedType e) ++
  putU32 (dg_sourceLine e).

Definition decodeGuide : M DeductionGuideEntry :=
  templateName <-- r_lenStr;; headerPath <-- r_lenStr;; paramTypes <-- r_each r_lenStr;; deducedType <-- r_lenStr;; sourceLine <-- r_u32;;
  ret (MkGuide templateName headerPath paramTypes deducedType sourceLine).

Definition coverage_flags (e : CoveragePropertyEntry) : N :=
  flag_bits [cp_isInlined e; cp_isConstexpr e; cp_isDefaulted e; cp_isTrivial e; cp_isVirtual e; cp_isStaticMethod e; cp_isImplicitlyInstantiable e].

Definition encodeCoverage (e : CoveragePropertyEntry) : bytes :=
  putLenStr (cp_qualifiedName e) ++ putLenStr (cp_headerPath e) ++ putU32 (cp_sourceLine e) ++ putLenStr (cp_enclosingClass e) ++
  putI32 (cp_gvaLinkage e) ++ putU8 (coverage_flags e) ++ putI32 (cp_templatedKind e) ++ putI32 (cp_storageClass e) ++
  putI32 (cp_formalLinkage e) ++ putU32 (cp_bodyStmtCount e) ++ putLenStr (cp_signature e).

Definition decodeCoverage : M CoveragePropertyEntry :=
  qualifiedName <-- r_lenStr;; headerPath <-- r_lenStr;; sourceLine <-- r_u32;; enclosingClass <-- r_lenStr;;
  gvaLinkage <-- r_i32;; flags <-- r_u8;; templatedKind <-- r_i32;; storageClass <-- r_i32;; formalLinkage <-- r_i32;;
  bodyStmtCount <-- r_u32;; signature <-- r_lenStr;;
  ret (MkCoverage qualifiedName headerPath sourceLine enclosingClass gvaLinkage (N.testbit flags 0) (N.testbit flags 1) (N.testbit flags 2)
    (N.testbit flags 3) (N.testbit flags 4) (N.testbit flags 5) (N.testbit flags 6) templatedKind storageClass formalLinkage bodyStmtCount
    signature).

Definition encodeOdr (e : OdrEntry) : bytes :=
  putLenStr (od_qualifiedName e) ++ putLenStr (od_signature e) ++ put_bool (od_isClass e) ++ putLenStr (od_enclosingClass e) ++
  putLenStr (od_filePath e) ++ putU32 (od_line e) ++ putU64 (od_odrHash e) ++ putLenStr (od_tuPath e).

Definition decodeOdr : M OdrEntry :=
  qualifiedName <-- r_lenStr;; signature <-- r_lenStr;; isClass <-- r_bool;; enclosingClass <-- r_lenStr;; filePath <-- r_lenStr;;
  line <-- r_u32;; odrHash <-- r_u64;; tuPath <-- r_lenStr;;
  ret (MkOdr qualifiedName signature isClass enclosingClass filePath line odrHash tuPath).

Definition encodeSpecialization (e : SpecializationEntry) : bytes :=
  putLenStr (sp_templateName e) ++ putLenStr (sp_argsString e) ++ putLenStr (sp_headerPath e) ++ putU32 (sp_line e) ++
  putLenStr (sp_resolutionSummary e).

Definition decodeSpecialization : M SpecializationEntry :=
  templateName <-- r_lenStr;; argsString <-- r_lenStr;; headerPath <-- r_lenStr;; line <-- r_u32;; resolutionSummary <-- r_lenStr;;
  ret (MkSpecialization templateName argsString headerPath line resolutionSummary).

Definition encodeDefaultArg (e : DefaultArgEntry) : bytes :=
  putLenStr (da_qualifiedName e) ++ putLenStr (da_signature e) ++ putU32 (da_paramIndex e) ++ putLenStr (da_paramName e) ++
  putLenStr (da_defaultText e) ++ putLenStr (da_filePath e) ++ putU32 (da_line e).

Definition decodeDefaultArg : M DefaultArgEntry :=
  qualifiedName <-- r_lenStr;; signature <-- r_lenStr;; paramIndex <-- r_u32;; paramName <-- r_lenStr;; defaultText <-- r_lenStr;;
  filePath <-- r_lenStr;; line <-- r_u32;;
  ret (MkDefaultArg qualifiedName signature paramIndex paramName defaultText filePath line).

Definition encodeStaticInit (e : StaticInitEntry) : bytes :=
  putLenStr (si_qualifiedName e) ++ putLenStr (si_filePath e) ++ putU32 (si_line e) ++
  putU8 (flag_bits [si_dynamicInit e; si_isConstructorFn e]) ++ put_list putLenStr (si_referencedGlobals e) ++
  put_list putLenStr (si_calledFunctions e).

Definition decodeStaticInit : M StaticInitEntry :=
  qualifiedName <-- r_lenStr;; filePath <-- r_lenStr;; line <-- r_u32;; flags <-- r_u8;; referencedGlobals <-- r_each r_lenStr;;
  calledFunctions <-- r_each r_lenStr;;
  ret (MkStaticInit qualifiedName filePath line (N.testbit flags 0) (N.testbit flags 1) referencedGlobals calledFunctions).

Definition encodeSummary (e : FunctionSummaryEntry) : bytes :=
  putLenStr (fs_qualifiedName e) ++ putLenStr (fs_filePath e) ++ putU32 (fs_line e) ++
  putU8 (flag_bits [fs_isNoexcept e; fs_hasUncaughtThrow e]) ++ put_list putLenStr (fs_calledFunctions e) ++
  put_list putLenStr (fs_unguardedCalls e) ++ putStringPairs (fs_unguardedCallSites e) ++ putLenStr (fs_uncaughtThrowSite e) ++
  put_list putLenStr (fs_referencedGlobals e).

Definition decodeSummary : M FunctionSummaryEntry :=
  qualifiedName <-- r_lenStr;; filePath <-- r_lenStr;; line <-- r_u32;; flags <-- r_u8;; calledFunctions <-- r_each r_lenStr;;
  unguardedCalls <-- r_each r_lenStr;; unguardedCallSites <-- readStringPairs;; uncaughtThrowSite <-- r_lenStr;;
  referencedGlobals <-- r_each r_lenStr;;
  ret (MkSummary qualifiedName filePath line (N.testbit flags 0) (N.testbit flags 1) calledFunctions unguardedCalls unguardedCallSites
    uncaughtThrowSite referencedGlobals).

Definition encodeHeaderStatic (e : HeaderStaticEntry) : bytes :=
  putLenStr (hs_name e) ++ putLenStr (hs_filePath e) ++ putU32 (hs_line e) ++ put_bool (hs_isConst e) ++ put_list putLenStr (hs_tuPaths e).

Definition decodeHeaderStatic : M HeaderStaticEntry :=
  name <-- r_lenStr;; filePath <-- r_lenStr;; line <-- r_u32;; isConst <-- r_bool;; tuPaths <-- r_each r_lenStr;;
  ret (MkHeaderStatic name filePath line isConst tuPaths).

Definition encodeExceptionSpec (e : ExceptionSpecEntry) : bytes :=
  putLenStr (es_qualifiedName e) ++ putLenStr (es_signature e) ++ put_bool (es_isNoexcept e) ++ putLenStr (es_filePath e) ++ putU32 (es_line e).

Definition decodeExceptionSpec : M ExceptionSpecEntry :=
  qualifiedName <-- r_lenStr;; signature <-- r_lenStr;; isNoexcept <-- r_bool;; filePath <-- r_lenStr;; line <-- r_u32;;
  ret (MkExceptionSpec qualifiedName signature isNoexcept filePath line).

Definition encodeIndexPayload (p : CheckIndexPayload) : bytes :=
  put_list encodeOverload (pl_overloads p) ++ put_list encodeGuide (pl_guides p) ++ put_list encodeCoverage (pl_coverage p) ++
  putStringPairs (pl_baseEdges p) ++ putStringPairs (pl_ctorEdges p) ++ putStringPairs (pl_convOpEdges p) ++
  put_list encodeOdr (pl_odrEntries p) ++ put_list encodeSpecialization (pl_specializations p) ++
  put_list encodeDefaultArg (pl_defaultArgs p) ++ put_list encodeStaticInit (pl_staticInits p) ++
  put_list encodeSummary (pl_functionSummaries p) ++ put_list encodeHeaderStatic (pl_headerStatics p) ++
  put_list encodeExceptionSpec (pl_exceptionSpecs p).

(** [decodeIndexPayload] answers [r.ok]. *)
Definition decodeIndexPayload : M CheckIndexPayload :=
  overloads <-- r_each decodeOverload;; guides <-- r_each decodeGuide;; coverage <-- r_each decodeCoverage;;
  baseEdges <-- readStringPairs;; ctorEdges <-- readStringPairs;; convOpEdges <-- readStringPairs;;
  odrEntries <-- r_each decodeOdr;; specializations <-- r_each decodeSpecialization;; defaultArgs <-- r_each decodeDefaultArg;;
  staticInits <-- r_each decodeStaticInit;; functionSummaries <-- r_each decodeSummary;; headerStatics <-- r_each decodeHeaderStatic;;
  exceptionSpecs <-- r_each decodeExceptionSpec;;
  ret (MkPayload overloads guides coverage odrEntries specializations defaultArgs staticInits functionSummaries headerStatics exceptionSpecs
    baseEdges ctorEdges convOpEdges).

Definition putOutcome (o : TuOutcome) : bytes := putU8 (status_code (oc_status o)) ++ putLenStr (oc_detail o).

(** A status out of range fails the reader; the value then read is not used. *)
Definition readTuOutcome : M TuOutcome :=
  status <-- r_u8;; detail <-- r_lenStr;;
  match status_of status with
  | Some s => ret (MkOutcome s detail)
  | None => _ <-- fail_reader;; ret (MkOutcome Skipped detail)
  end.

Definition all_kinds : list DiagnosticKind :=
  [ADL_Fallback; ADL_Ambiguity; ADL_SameScore; CTAD_Fallback; Coverage_GVAMismatch; Coverage_DiscardableODR; Coverage_AvailableExternally;
   Coverage_PropertyDivergence; DeadCode_Pessimistic; DeadCode_Optimistic; ODR_DuplicateDefinition; ODR_DivergentDefinition;
   Specialization_Invisible; DefaultArg_Divergent; StaticInit_OrderDependency; StaticInit_Hazard; Exception_Escape;
   HeaderStatic_Duplicated; ExceptionSpec_Divergent; CustomCheck].

(** [static_cast<uint32_t>(d.kind)] and back, [None] past [Custom]. *)
Definition diagnostic_code (k : DiagnosticKind) : N :=
  default 0%N ((fun ik : nat * DiagnosticKind => N.of_nat ik.1) <$> list_find (fun k' => k' = k) all_kinds).
Definition diagnostic_of (n : N) : option DiagnosticKind := all_kinds !! N.to_nat (N.min n 20).

Definition encodeDiagnostic (d : Diagnostic) : bytes :=
  putU32 (diagnostic_code (dx_kind d)) ++ putLenStr (dx_callLocation d) ++ putLenStr (dx_resolvedDecl d) ++ putLenStr (dx_betterDecl d) ++
  putLenStr (dx_missingHeader d) ++ putLenStr (dx_message d) ++ putLenStr (dx_checkName d) ++ put_list putLenStr (dx_entities d) ++
  putLenStr (dx_scope d) ++ putLenStr (dx_file d).

Definition decodeDiagnostic (out : list Diagnostic) : M (list Diagnostic) :=
  kind <-- r_u32;;
  match diagnostic_of kind with
  | None => _ <-- fail_reader;; ret out
  | Some kind =>
      callLocation <-- r_lenStr;; resolvedDecl <-- r_lenStr;; betterDecl <-- r_lenStr;; missingHeader <-- r_lenStr;; message <-- r_lenStr;;
      checkName <-- r_lenStr;; entities <-- r_each r_lenStr;; scope <-- r_lenStr;; file <-- r_lenStr;;
      ret (out ++ [MkDiagnostic kind file callLocation resolvedDecl betterDecl missingHeader message checkName entities scope])
  end.

Definition encodeDiagnostics (diags : list Diagnostic) : bytes := put_list encodeDiagnostic diags.
Definition decodeDiagnostics : M (list Diagnostic) := n <-- r_u32;; loop (N.to_nat n) decodeDiagnostic [].

(** * The journal *)

Definition kMagic : bytes := str "VYCJ".
Definition kVersion : N := 11.
Definition kHeaderSize : nat := 16.

Definition kKindAttempt : N := 1.
Definition kKindPhase1 : N := 2.
Definition kKindPhase2 : N := 3.

Definition kPhaseIndex : N := 1.
Definition kPhaseAnalyze : N := 2.
Definition kMaxAttempts : N := 2.

Definition kCleanParse : TuOutcome := MkOutcome Indexed [].

Record AttemptState := MkAttempts { as_stamp : FileStamp; as_count : N; as_why : option TuOutcome }.

Definition no_attempts : AttemptState := MkAttempts (MkStamp [] 0 0) 0 None.

Record Phase1Record := MkPhase1 { p1_stamp : FileStamp; p1_outcome : TuOutcome; p1_payload : CheckIndexPayload }.
Record Phase2Record := MkPhase2 { p2_stamp : FileStamp; p2_indexSetHash : N; p2_outcome : TuOutcome; p2_diagnostics : list Diagnostic }.

(** [cc_out] is whether the journal is still being appended to. *)
Record CheckCheckpoint := MkCheckpoint {
  cc_phase1 : gmap bytes Phase1Record;
  cc_phase2 : gmap bytes Phase2Record;
  cc_attempts : gmap bytes AttemptState;
  cc_out : bool
}.

Definition empty_checkpoint : CheckCheckpoint := MkCheckpoint ∅ ∅ ∅ false.

Definition attemptKey (phase : N) (tu : bytes) : bytes := [byte_of phase; Byte.x00] ++ tu.

Definition countAttempt (state : AttemptState) (stamp : FileStamp) (why : option TuOutcome) : AttemptState :=
  if decide (as_stamp state = stamp) then MkAttempts (as_stamp state) (u32 (as_count state + 1)) why else MkAttempts stamp 1 why.

(** [countAttempt(attempts_\[attemptKey(phase, tu)\], stamp, why)] *)
Definition count_attempt (phase : N) (tu : bytes) (stamp : FileStamp) (why : option TuOutcome) (c : CheckCheckpoint) : CheckCheckpoint :=
  let key := attemptKey phase tu in
  MkCheckpoint (cc_phase1 c) (cc_phase2 c) (<[key := countAttempt (default no_attempts (cc_attempts c !! key)) stamp why]> (cc_attempts c))
    (cc_out c).

Definition erase_attempts (phase : N) (tu : bytes) (c : CheckCheckpoint) : CheckCheckpoint :=
  MkCheckpoint (cc_phase1 c) (cc_phase2 c) (delete (attemptKey phase tu) (cc_attempts c)) (cc_out c).

(** ** Loading *)

Definition putStamp (s : FileStamp) : bytes := putU64 (fs_mtimeNs s) ++ putU64 (fs_size s).

(** [tu = r.str(); stamp.path = tu; stamp.mtimeNs = r.u64(); stamp.size = r.u64();] *)
Definition read_tu_stamp : M FileStamp := tu <-- r_lenStr;; mtimeNs <-- r_u64;; size <-- r_u64;; ret (MkStamp tu mtimeNs size).

(** The outcome an attempt may end with, when bytes are left. *)
Definition read_trailer : M (option TuOutcome) := fun r =>
  if ok r && bool_decide (rest r <> []) then (o <-- readTuOutcome;; ret (Some o)) r else (None, r).

Definition read_attempt : M (N * FileStamp * option TuOutcome) :=
  phase <-- r_u8;; stamp <-- read_tu_stamp;; why <-- read_trailer;; ret (phase, stamp, why).

Definition read_phase1 : M Phase1Record :=
  stamp <-- read_tu_stamp;; outcome <-- readTuOutcome;; payload <-- decodeIndexPayload;; ret (MkPhase1 stamp outcome payload).

Definition read_phase2 : M Phase2Record :=
  stamp <-- read_tu_stamp;; indexSetHash <-- r_u64;; outcome <-- readTuOutcome;; diags <-- decodeDiagnostics;;
  ret (MkPhase2 stamp indexSetHash outcome diags).

(** A payload read by a reader of its own; a record that does not decode changes nothing. *)
Definition decoded {A} (m : M A) (payload : bytes) : option A :=
  let '(a, r) := m (MkReader payload true) in if ok r then Some a else None.

Definition load_record (kind : N) (payload : bytes) (c : CheckCheckpoint) : CheckCheckpoint :=
  if (kind =? kKindAttempt)%N then
    match decoded read_attempt payload with
    | Some (phase, stamp, why) => count_attempt phase (fs_path stamp) stamp why c
    | None => c
    end
  else if (kind =? kKindPhase1)%N then
    match decoded read_phase1 payload with
    | Some rec =>
        let c := erase_attempts kPhaseIndex (fs_path (p1_stamp rec)) c in
        MkCheckpoint (<[fs_path (p1_stamp rec) := rec]> (cc_phase1 c)) (cc_phase2 c) (cc_attempts c) (cc_out c)
    | None => c
    end
  else if (kind =? kKindPhase2)%N then
    match decoded read_phase2 payload with
    | Some rec =>
        let c := erase_attempts kPhaseAnalyze (fs_path (p2_stamp rec)) c in
        MkCheckpoint (cc_phase1 c) (<[fs_path (p2_stamp rec) := rec]> (cc_phase2 c)) (cc_attempts c) (cc_out c)
    | None => c
    end
  else c.

(** Kind, length, payload and checksum; [None] is a truncated or damaged record. *)
Definition read_frame : M (option (N * bytes)) :=
  kind <-- r_u8;; len <-- r_u32;; fine <-- need (len + 4)%N;;
  if fine then (payload <-- advance (N.to_nat len);; checksum <-- r_u32;;
                ret (if (checksum =? fnv32 payload)%N then Some (kind, payload) else None))
  else ret None.

(** The loop of [loadRecords]: [validEnd] is the length of the prefix that holds whole records. *)
Fixpoint load_frames (fuel : nat) (size : nat) (c : CheckCheckpoint) (validEnd : nat) (stream : Reader) : option (CheckCheckpoint * nat) :=
  match fuel with
  | O => None
  | S fuel' =>
      if ok stream && bool_decide (rest stream <> []) then
        match read_frame stream with
        | (Some (kind, payload), stream') => load_frames fuel' size (load_record kind payload c) (size - length (rest stream')) stream'
        | (None, _) => Some (c, validEnd)
        end
      else Some (c, validEnd)
  end.

Definition loadRecords (data : bytes) (c : CheckCheckpoint) : CheckCheckpoint * nat :=
  default (c, 0) (load_frames (S (length data)) (length data) c 0 (MkReader data true)).

(** ** Opening *)

(** Whether the lock is held by another run, and whether publishing a fresh journal, opening
    it for appending and truncating it succeed. *)
Record OpenIO := MkOpenIO { io_busy : bool; io_publishes : bool; io_opens : bool; io_truncates : bool }.

Definition all_well : OpenIO := MkOpenIO false true true true.

Definition journal_header (fingerprint : N) : bytes := kMagic ++ putU32 kVersion ++ putU64 fingerprint.

Definition header_matches (buf : bytes) (fingerprint : N) : bool :=
  bool_decide (kHeaderSize <= length buf) && bool_decide (take 4 buf = kMagic) &&
  (let '((version, fp), _) := (v <-- r_u32;; f <-- r_u64;; ret (v, f)) (MkReader (take (kHeaderSize - 4) (drop 4 buf)) true) in
   (version =? kVersion)%N && (fp =? fingerprint)%N).

(** [CheckCheckpoint::open]: the checkpoint, or none, and the file that is left. *)
Definition open_journal (io : OpenIO) (file : option bytes) (fingerprint : N) : option CheckCheckpoint * option bytes :=
  if io_busy io then (None, file)
  else
    let reuse := match file with Some buf => if header_matches buf fingerprint then Some buf else None | None => None end in
    let start :=
      match reuse with
      | Some buf => let '(c, n) := loadRecords (drop kHeaderSize buf) empty_checkpoint in Some (c, kHeaderSize + n, buf)
      | None => if io_publishes io then Some (empty_checkpoint, kHeaderSize, journal_header fingerprint) else None
      end in
    match start with
    | None => (None, file)
    | Some (c, validEnd, buf) =>
        if negb (io_opens io) then (None, Some buf)
        else if decide (validEnd < length buf) then
          if io_truncates io then (Some (MkCheckpoint (cc_phase1 c) (cc_phase2 c) (cc_attempts c) true), Some (take validEnd buf))
          else (None, Some buf)
        else (Some (MkCheckpoint (cc_phase1 c) (cc_phase2 c) (cc_attempts c) true), Some buf)
    end.

(** ** Queries *)

Definition attempts (c : CheckCheckpoint) (phase : N) (tu : bytes) (stamp : FileStamp) : N * option TuOutcome :=
  match cc_attempts c !! attemptKey phase tu with
  | Some state => if decide (as_stamp state = stamp) then (as_count state, as_why state) else (0%N, None)
  | None => (0%N, None)
  end.

(** [None] is [false]: nothing is touched. *)
Definition replayPhase1 (c : CheckCheckpoint) (tu : bytes) (stamp : FileStamp) (into : GlobalIndex) : option (GlobalIndex * TuOutcome) :=
  match cc_phase1 c !! tu with
  | Some rec =>
      if decide (p1_stamp rec = stamp /\ oc_status (p1_outcome rec) = Indexed) then Some (applyTo (p1_payload rec) into, p1_outcome rec)
      else None
  | None => None
  end.

Definition replayPhase2 (c : CheckCheckpoint) (tu : bytes) (stamp : FileStamp) (indexSetHash : N) (out : list Diagnostic) :
    option (list Diagnostic * TuOutcome) :=
  match cc_phase2 c !! tu with
  | Some rec =>
      if decide (p2_stamp rec = stamp /\ p2_indexSetHash rec = indexSetHash /\ oc_status (p2_outcome rec) = Indexed)
      then Some (out ++ p2_diagnostics rec, p2_outcome rec) else None
  | None => None
  end.

(** ** Appending *)

(** The run's checkpoint and the bytes of the journal. *)
Abbreviation Journal := (CheckCheckpoint * bytes)%type.

Definition framed (kind : N) (payload : bytes) : bytes := putU8 kind ++ putU32 (size32 payload) ++ payload ++ putU32 (fnv32 payload).

(** [torn] is how many bytes of the record land when the write fails. *)
Definition appendRecord (torn : option nat) (kind : N) (payload : bytes) (j : Journal) : Journal :=
  let '(c, file) := j in
  if cc_out c then
    match torn with
    | None => (c, file ++ framed kind payload)
    | Some n => (MkCheckpoint (cc_phase1 c) (cc_phase2 c) (cc_attempts c) false, file ++ take n (framed kind payload))
    end
  else (c, file).

Definition attempt_payload (phase : N) (tu : bytes) (stamp : FileStamp) (why : option TuOutcome) : bytes :=
  putU8 phase ++ putLenStr tu ++ putStamp stamp ++ match why with Some o => putOutcome o | None => [] end.

Definition recordAttempt (torn : option nat) (phase : N) (tu : bytes) (stamp : FileStamp) (why : option TuOutcome) (j : Journal) : Journal :=
  let '(c, file) := appendRecord torn kKindAttempt (attempt_payload phase tu stamp why) j in
  (count_attempt phase tu stamp why c, file).

Definition phase1_payload (tu : bytes) (stamp : FileStamp) (contribution : CheckIndexPayload) (outcome : TuOutcome) : bytes :=
  putLenStr tu ++ putStamp stamp ++ putOutcome outcome ++ encodeIndexPayload contribution.

Definition recordPhase1 (torn : option nat) (tu : bytes) (stamp : FileStamp) (contribution : CheckIndexPayload) (outcome : TuOutcome)
    (j : Journal) : Journal :=
  let '(c, file) := appendRecord torn kKindPhase1 (phase1_payload tu stamp contribution outcome) j in
  (erase_attempts kPhaseIndex tu c, file).

(** [recordPhase1] of a whole index. *)
Definition recordPhase1_shard `{!UnorderedIter} (torn : option nat) (tu : bytes) (stamp : FileStamp) (shard : GlobalIndex)
    (outcome : TuOutcome) (j : Journal) : Journal := recordPhase1 torn tu stamp (capture shard) outcome j.

Definition phase2_payload (tu : bytes) (stamp : FileStamp) (indexSetHash : N) (diags : list Diagnostic) (outcome : TuOutcome) : bytes :=
  putLenStr tu ++ putStamp stamp ++ putU64 indexSetHash ++ putOutcome outcome ++ encodeDiagnostics diags.

Definition recordPhase2 (torn : option nat) (tu : bytes) (stamp : FileStamp) (indexSetHash : N) (diags : list Diagnostic)
    (outcome : TuOutcome) (j : Journal) : Journal :=
  let '(c, file) := appendRecord torn kKindPhase2 (phase2_payload tu stamp indexSetHash diags outcome) j in
  (erase_attempts kPhaseAnalyze tu c, file).

(** * Worker shard files *)

Definition kShardVersion : N := 11.
Definition kIndexShardMagic : bytes := str "VYAI".
Definition kDiagShardMagic : bytes := str "VYAD".
Definition kGlobalIndexMagic : bytes := str "VYGI".

Definition shard_entry (e : bytes * bytes) : bytes := putLenStr e.1 ++ putU32 (size32 e.2) ++ e.2 ++ putU32 (fnv32 e.2).

Definition writeShardFile (magic : bytes) (tuPayloads : list (bytes * bytes)) : bytes :=
  magic ++ putU32 kShardVersion ++ put_list shard_entry tuPayloads.

Section Shards.
Context {St : Type}.
(** What is done with an entry: the state after it, or a refusal, which keeps it. *)
Variable fn : bytes -> bytes -> St -> option St.

(** [for (i = 0; i < count; ++i)]; the effects of the entries before a refusal remain. *)
Fixpoint read_entries (count : nat) (st : St) (stream : Reader) : St * bool :=
  match count with
  | O => (st, ok stream)
  | S count' =>
      let '(tu, r1) := r_lenStr stream in
      let '(len, r2) := r_u32 r1 in
      let '(fine, r3) := need (len + 4)%N r2 in
      if negb fine then (st, false)
      else
        let '(payload, r4) := advance (N.to_nat len) r3 in
        let '(checksum, r5) := r_u32 r4 in
        if (checksum =? fnv32 payload)%N then
          match fn tu payload st with Some st' => read_entries count' st' r5 | None => (st, false) end
        else (st, false)
  end.

Definition readShardFile (magic : bytes) (file : option bytes) (st : St) : St * bool :=
  match file with
  | None => (st, false)
  | Some buf =>
      if negb (bool_decide (8 <= length buf) && bool_decide (take 4 buf = magic)) then (st, false)
      else
        let '(version, r1) := r_u32 (MkReader (drop 4 buf) true) in
        if negb (version =? kShardVersion)%N then (st, false)
        else let '(count, r2) := r_u32 r1 in read_entries (N.to_nat count) st r2
  end.
End Shards.

Definition outcomeAt (outcomes : list TuOutcome) (i : nat) : TuOutcome :=
  default (MkOutcome Skipped (str "no outcome reported")) (outcomes !! i).

Definition index_entry_bytes (outcome : TuOutcome) (payload : CheckIndexPayload) : bytes := putOutcome outcome ++ encodeIndexPayload payload.

Definition writeCheckIndexShard (tus : list (bytes * CheckIndexPayload)) (outcomes : list TuOutcome) : bytes :=
  writeShardFile kIndexShardMagic (imap (fun i tp => (tp.1, index_entry_bytes (outcomeAt outcomes i) tp.2)) tus).

Definition read_index_entry : M (TuOutcome * CheckIndexPayload) := o <-- readTuOutcome;; p <-- decodeIndexPayload;; ret (o, p).

(** The calls of [onOutcome] and [fn], in order. *)
Definition readCheckIndexShard (file : option bytes) : list (bytes * TuOutcome * CheckIndexPayload) * bool :=
  readShardFile (fun tu payload calls => (fun op => calls ++ [(tu, op.1, op.2)]) <$> decoded read_index_entry payload) kIndexShardMagic file [].

Definition diag_entry_bytes (outcome : TuOutcome) (diags : list Diagnostic) : bytes := putOutcome outcome ++ encodeDiagnostics diags.

Definition writeCheckDiagShard (tus : list (bytes * list Diagnostic)) (outcomes : list TuOutcome) : bytes :=
  writeShardFile kDiagShardMagic (imap (fun i td => (td.1, diag_entry_bytes (outcomeAt outcomes i) td.2)) tus).

Definition read_diag_entry : M (TuOutcome * list Diagnostic) := o <-- readTuOutcome;; d <-- decodeDiagnostics;; ret (o, d).

Definition readCheckDiagShard (file : option bytes) : list (bytes * TuOutcome * list Diagnostic) * bool :=
  readShardFile (fun tu payload calls => (fun od => calls ++ [(tu, od.1, od.2)]) <$> decoded read_diag_entry payload) kDiagShardMagic file [].

Definition writeGlobalIndexFile `{!UnorderedIter} (index : GlobalIndex) : bytes :=
  writeShardFile kGlobalIndexMagic [(str "<merged>", encodeIndexPayload (capture index))].

Definition readGlobalIndexFile (file : option bytes) (into : GlobalIndex) : GlobalIndex * bool :=
  readShardFile (fun _ payload g => (fun p => applyTo p g) <$> decoded decodeIndexPayload payload) kGlobalIndexMagic file into.
