(* ===== verification/CheckpointCodec.v ===== *)
(** The wire form of the checkpoint journal reads back as what was written.

    [Wire] is what a pair of an encoder and a decoder promises; every entry type is an
    instance, and the payloads follow field by field. *)

From S2P Require Import Prelude StringInterner Results Upsert GlobalIndex Ordering Codec SnapshotMeta ReachAnalyses Checkpoint.

Class Wire {A} (enc : A -> bytes) (dec : M A) (fits : A -> Prop) : Prop :=
  wire_reads : forall a, fits a -> reads dec (enc a) a.

Definition u64_fits (v : N) : Prop := (v < 2 ^ 64)%N.
Definition i32_fits (z : Z) : Prop := (-2147483648 <= z < 2147483648)%Z.
Definition u8_fits (v : N) : Prop := (v < 256)%N.
Definition list_fits {A} (fits : A -> Prop) (l : list A) : Prop := len_fits l /\ Forall fits l.

#[global] Instance wire_u8 : Wire putU8 r_u8 u8_fits.
Proof. intros v. apply reads_u8. Qed.
#[global] Instance wire_u32 : Wire putU32 r_u32 u32_fits.
Proof. intros v. apply reads_u32. Qed.
#[global] Instance wire_u64 : Wire putU64 r_u64 u64_fits.
Proof. intros v. apply reads_u64. Qed.
#[global] Instance wire_str : Wire putLenStr r_lenStr (fun s : bytes => len_fits s).
Proof. intros s. apply reads_lenStr. Qed.
#[global] Instance wire_bool : Wire put_bool r_bool (fun _ => True).
Proof. intros b _. apply reads_bool. Qed.

#[global] Instance wire_i32 : Wire putI32 r_i32 i32_fits.
Proof.
  intros z Hz. unfold i32_fits in Hz. eapply reads_bind_last.
  - apply reads_u32. unfold u32_fits, two32. pose proof (Z.mod_pos_bound z 4294967296 ltac:(lia)). lia.
  - intros tl. unfold ret. f_equal. pose proof (Z.mod_pos_bound z 4294967296 ltac:(lia)). rewrite Z2N.id by lia.
    destruct (N.ltb_spec (Z.to_N (z mod 4294967296)) 2147483648); divlia.
Qed.

#[global] Instance wire_list {A} (enc : A -> bytes) (dec : M A) (fits : A -> Prop) :
  Wire enc dec fits -> Wire (put_list enc) (r_each dec) (list_fits fits).
Proof.
  intros H l [Hl Hf]. eapply reads_bind; [apply reads_u32; by rewrite size32_fits|].
  rewrite size32_fits, Nat2N.id by done. pose proof (foldl_snoc l []) as E. cbn in E. rewrite <- E at 3.
  apply (reads_loop _ _ enc (fun _ => True)); [done|]. intros s a _ Ha. split; [|done].
  eapply reads_bind_last; [|apply reads_ret]. apply H. by eapply Forall_forall.
Qed.

(** Reads the fields of a record one after the other. *)
Ltac read_field :=
  lazymatch goal with
  | |- reads (bind _ _) (_ ++ _) _ => eapply reads_bind; [eapply wire_reads; done|]
  | |- reads (bind _ _) _ _ => eapply reads_bind_last; [eapply wire_reads; done|]
  end.
Ltac read_fields := repeat read_field; try apply reads_ret.

Definition pair_fits (p : bytes * bytes) : Prop := len_fits p.1 /\ len_fits p.2.

#[global] Instance wire_pair : Wire putPair readPair pair_fits.
Proof. intros [a b] [H1 H2]. unfold readPair, putPair. cbn [fst snd] in *. read_fields. Qed.

#[global] Instance wire_pairs : Wire putStringPairs readStringPairs (list_fits pair_fits).
Proof. apply wire_list, wire_pair. Qed.

Abbreviation str_list_fits := (list_fits (fun s : bytes => len_fits s)).

Definition overload_fits (e : FunctionOverloadEntry) : Prop :=
  len_fits (fo_qualifiedName e) /\ len_fits (fo_headerPath e) /\ str_list_fits (fo_paramTypes e) /\ len_fits (fo_returnType e) /\
  u32_fits (fo_sourceLine e).

#[global] Instance wire_overload : Wire encodeOverload decodeOverload overload_fits.
Proof. intros [] (? & ? & ? & ? & ?). unfold decodeOverload, encodeOverload. read_fields. Qed.

Definition guide_fits (e : DeductionGuideEntry) : Prop :=
  len_fits (dg_templateName e) /\ len_fits (dg_headerPath e) /\ str_list_fits (dg_paramTypes e) /\ len_fits (dg_deducedType e) /\
  u32_fits (dg_sourceLine e).

#[global] Instance wire_guide : Wire encodeGuide decodeGuide guide_fits.
Proof. intros [] (? & ? & ? & ? & ?). unfold decodeGuide, encodeGuide. read_fields. Qed.

(** ** Flags packed in a byte *)

Lemma flag_bits_bit l i : N.testbit (flag_bits l) (N.of_nat i) = nth i l false.
Proof.
  revert i. induction l as [|b l IH]; intros i; [destruct i; apply N.bits_0|].
  replace (flag_bits (b :: l)) with (2 * flag_bits l + N.b2n b)%N by (unfold flag_bits; destruct b; cbn [N.b2n foldr]; lia).
  destruct i as [|i]; [apply N.testbit_0_r|]. rewrite Nat2N.inj_succ, N.testbit_succ_r. apply IH.
Qed.

Lemma flag_bits_lt l : (flag_bits l < 2 ^ N.of_nat (length l))%N.
Proof.
  induction l as [|b l IH]; [done|]. cbn [flag_bits foldr length]. rewrite Nat2N.inj_succ, N.pow_succ_r'. unfold flag_bits in IH.
  destruct b; lia.
Qed.

Lemma flags_fit l : length l <= 8 -> u8_fits (flag_bits l).
Proof.
  intros Hl. unfold u8_fits. pose proof (flag_bits_lt l). pose proof (N.pow_le_mono_r 2 (N.of_nat (length l)) 8 ltac:(done) ltac:(lia)).
  change (2 ^ 8)%N with 256%N in *. lia.
Qed.

(** The record rebuilt from the bits of its flags. *)
Ltac same_flags :=
  intros tl; unfold ret; repeat f_equal;
  first [exact (flag_bits_bit _ 0)|exact (flag_bits_bit _ 1)|exact (flag_bits_bit _ 2)|exact (flag_bits_bit _ 3)
        |exact (flag_bits_bit _ 4)|exact (flag_bits_bit _ 5)|exact (flag_bits_bit _ 6)].

Definition coverage_fits (e : CoveragePropertyEntry) : Prop :=
  (len_fits (cp_qualifiedName e) /\ len_fits (cp_headerPath e) /\ u32_fits (cp_sourceLine e) /\ len_fits (cp_enclosingClass e)) /\
  (i32_fits (cp_gvaLinkage e) /\ i32_fits (cp_templatedKind e) /\ i32_fits (cp_storageClass e) /\ i32_fits (cp_formalLinkage e)) /\
  u32_fits (cp_bodyStmtCount e) /\ len_fits (cp_signature e).

#[global] Instance wire_coverage : Wire encodeCoverage decodeCoverage coverage_fits.
Proof.
  intros e ((? & ? & ? & ?) & (? & ? & ? & ?) & ? & ?). assert (u8_fits (coverage_flags e)) by (apply flags_fit; cbn; lia).
  unfold decodeCoverage, encodeCoverage. read_fields. destruct e. unfold coverage_flags. same_flags.
Qed.

Definition odr_fits (e : OdrEntry) : Prop :=
  len_fits (od_qualifiedName e) /\ len_fits (od_signature e) /\ len_fits (od_enclosingClass e) /\ len_fits (od_filePath e) /\
  u32_fits (od_line e) /\ u64_fits (od_odrHash e) /\ len_fits (od_tuPath e).

#[global] Instance wire_odr : Wire encodeOdr decodeOdr odr_fits.
Proof. intros [] (? & ? & ? & ? & ? & ? & ?). unfold decodeOdr, encodeOdr. read_fields. Qed.

Definition specialization_fits (e : SpecializationEntry) : Prop :=
  len_fits (sp_templateName e) /\ len_fits (sp_argsString e) /\ len_fits (sp_headerPath e) /\ u32_fits (sp_line e) /\
  len_fits (sp_resolutionSummary e).

#[global] Instance wire_specialization : Wire encodeSpecialization decodeSpecialization specialization_fits.
Proof. intros [] (? & ? & ? & ? & ?). unfold decodeSpecialization, encodeSpecialization. read_fields. Qed.

Definition default_arg_fits (e : DefaultArgEntry) : Prop :=
  len_fits (da_qualifiedName e) /\ len_fits (da_signature e) /\ u32_fits (da_paramIndex e) /\ len_fits (da_paramName e) /\
  len_fits (da_defaultText e) /\ len_fits (da_filePath e) /\ u32_fits (da_line e).

#[global] Instance wire_default_arg : Wire encodeDefaultArg decodeDefaultArg default_arg_fits.
Proof. intros [] (? & ? & ? & ? & ? & ? & ?). unfold decodeDefaultArg, encodeDefaultArg. read_fields. Qed.

Definition static_init_fits (e : StaticInitEntry) : Prop :=
  len_fits (si_qualifiedName e) /\ len_fits (si_filePath e) /\ u32_fits (si_line e) /\ str_list_fits (si_referencedGlobals e) /\
  str_list_fits (si_calledFunctions e).

#[global] Instance wire_static_init : Wire encodeStaticInit decodeStaticInit static_init_fits.
Proof.
  intros e (? & ? & ? & ? & ?). assert (u8_fits (flag_bits [si_dynamicInit e; si_isConstructorFn e])) by (apply flags_fit; cbn; lia).
  unfold decodeStaticInit, encodeStaticInit. read_fields. destruct e. same_flags.
Qed.

Definition summary_fits (e : FunctionSummaryEntry) : Prop :=
  len_fits (fs_qualifiedName e) /\ len_fits (fs_filePath e) /\ u32_fits (fs_line e) /\ str_list_fits (fs_calledFunctions e) /\
  str_list_fits (fs_unguardedCalls e) /\ list_fits pair_fits (fs_unguardedCallSites e) /\ len_fits (fs_uncaughtThrowSite e) /\
  str_list_fits (fs_referencedGlobals e).

#[global] Instance wire_summary : Wire encodeSummary decodeSummary summary_fits.
Proof.
  intros e (? & ? & ? & ? & ? & ? & ? & ?). assert (u8_fits (flag_bits [fs_isNoexcept e; fs_hasUncaughtThrow e])) by (apply flags_fit; cbn; lia).
  unfold decodeSummary, encodeSummary. read_fields. destruct e. same_flags.
Qed.

Definition header_static_fits (e : HeaderStaticEntry) : Prop :=
  len_fits (hs_name e) /\ len_fits (hs_filePath e) /\ u32_fits (hs_line e) /\ str_list_fits (hs_tuPaths e).

#[global] Instance wire_header_static : Wire encodeHeaderStatic decodeHeaderStatic header_static_fits.
Proof. intros [] (? & ? & ? & ?). unfold decodeHeaderStatic, encodeHeaderStatic. read_fields. Qed.

Definition exception_spec_fits (e : ExceptionSpecEntry) : Prop :=
  len_fits (es_qualifiedName e) /\ len_fits (es_signature e) /\ len_fits (es_filePath e) /\ u32_fits (es_line e).

#[global] Instance wire_exception_spec : Wire encodeExceptionSpec decodeExceptionSpec exception_spec_fits.
Proof. intros [] (? & ? & ? & ?). unfold decodeExceptionSpec, encodeExceptionSpec. read_fields. Qed.

(** ** Payloads *)

Record payload_fits (p : CheckIndexPayload) : Prop := {
  pf_overloads : list_fits overload_fits (pl_overloads p);
  pf_guides : list_fits guide_fits (pl_guides p);
  pf_coverage : list_fits coverage_fits (pl_coverage p);
  pf_odrEntries : list_fits odr_fits (pl_odrEntries p);
  pf_specializations : list_fits specialization_fits (pl_specializations p);
  pf_defaultArgs : list_fits default_arg_fits (pl_defaultArgs p);
  pf_staticInits : list_fits static_init_fits (pl_staticInits p);
  pf_functionSummaries : list_fits summary_fits (pl_functionSummaries p);
  pf_headerStatics : list_fits header_static_fits (pl_headerStatics p);
  pf_exceptionSpecs : list_fits exception_spec_fits (pl_exceptionSpecs p);
  pf_edges : list_fits pair_fits (pl_baseEdges p) /\ list_fits pair_fits (pl_ctorEdges p) /\ list_fits pair_fits (pl_convOpEdges p)
}.

#[global] Instance wire_payload : Wire encodeIndexPayload decodeIndexPayload payload_fits.
Proof. intros [] [? ? ? ? ? ? ? ? ? ? (? & ? & ?)]. unfold decodeIndexPayload, encodeIndexPayload. read_fields. Qed.

Definition outcome_fits (o : TuOutcome) : Prop := len_fits (oc_detail o).

#[global] Instance wire_outcome : Wire putOutcome readTuOutcome outcome_fits.
Proof.
  intros [s d] H. assert (u8_fits (status_code s)) by (by destruct s). unfold readTuOutcome, putOutcome. cbn [oc_status oc_detail].
  read_fields. rewrite status_roundtrip. apply reads_ret.
Qed.

Definition diagnostic_fits (d : Diagnostic) : Prop :=
  (len_fits (dx_callLocation d) /\ len_fits (dx_resolvedDecl d) /\ len_fits (dx_betterDecl d) /\ len_fits (dx_missingHeader d)) /\
  (len_fits (dx_message d) /\ len_fits (dx_checkName d) /\ str_list_fits (dx_entities d)) /\ len_fits (dx_scope d) /\ len_fits (dx_file d).

Lemma kind_roundtrip k : diagnostic_of (diagnostic_code k) = Some k.
Proof. by destruct k. Qed.

Lemma reads_diagnostic d out : diagnostic_fits d -> reads (decodeDiagnostic out) (encodeDiagnostic d) (out ++ [d]).
Proof.
  intros ((? & ? & ? & ?) & (? & ? & ?) & ? & ?). unfold decodeDiagnostic, encodeDiagnostic.
  eapply reads_bind; [apply reads_u32; by destruct (dx_kind d)|]. rewrite kind_roundtrip. read_fields. destruct d. apply reads_ret.
Qed.

#[global] Instance wire_diagnostics : Wire encodeDiagnostics decodeDiagnostics (list_fits diagnostic_fits).
Proof.
  intros l [Hl Hf]. eapply reads_bind; [apply reads_u32; by rewrite size32_fits|].
  rewrite size32_fits, Nat2N.id by done. pose proof (foldl_snoc l []) as E. cbn in E. rewrite <- E at 3.
  apply (reads_loop _ _ encodeDiagnostic (fun _ => True)); [done|]. intros s a _ Ha. split; [|done].
  apply reads_diagnostic. by eapply Forall_forall.
Qed.

(** ** Records *)

Definition put_tu_stamp (s : FileStamp) : bytes := putLenStr (fs_path s) ++ putStamp s.

#[global] Instance wire_tu_stamp : Wire put_tu_stamp read_tu_stamp stamp_fits.
Proof. intros [] (? & ? & ?). unfold read_tu_stamp, put_tu_stamp, putStamp. read_fields. Qed.

Lemma decoded_reads {A} (m : M A) enc a : reads m enc a -> decoded m enc = Some a.
Proof. intros H. unfold decoded. specialize (H []). rewrite app_nil_r in H. by rewrite H. Qed.
