(* ===== verification/CheckpointJournal.v ===== *)
(** A killed run loses at most the record it was writing.

    The journal's bytes are read as frames; [frames_of] says which prefix of arbitrary bytes
    holds whole frames, and the theorems about loading, resuming and appending follow from
    it.  [JournalEntry] is what a record means, independent of its bytes. *)

From S2P Require Import Prelude StringInterner Results Upsert GlobalIndex Ordering Codec SnapshotMeta ReachAnalyses Checkpoint CheckpointCodec.

(** * Bytes determine the numbers read from them, and the numbers the bytes *)

Lemma testbit_above v m n : (v < 2 ^ m)%N -> (m <= n)%N -> N.testbit v n = false.
Proof. intros Hv Hn. rewrite <- (N.mod_small v (2 ^ m)) by done. by apply N.mod_pow2_bits_high. Qed.

Lemma le_value_lt l : (le_value l < 2 ^ (8 * N.of_nat (length l)))%N.
Proof.
  induction l as [|b l IH] using rev_ind; [done|]. rewrite le_value_app, length_app. cbn [length].
  replace (8 * N.of_nat (length l + 1))%N with (8 * N.of_nat (length l) + 8)%N by lia.
  destruct (N.eq_0_gt_0_cases (N.lor (le_value l) (N.shiftl (Byte.to_N b) (8 * N.of_nat (length l))))) as [->|Hpos]; [by apply N.neq_0_lt_0, N.pow_nonzero|].
  apply N.log2_lt_pow2; [done|]. rewrite N.log2_lor. pose proof (Byte.to_N_bounded b) as Hb. apply N.max_lub_lt.
  - destruct (N.eq_0_gt_0_cases (le_value l)) as [->|Hl]; [cbn; lia|]. apply N.log2_lt_pow2 in IH; [lia|done].
  - destruct (N.eq_0_gt_0_cases (Byte.to_N b)) as [->|Hl]; [rewrite N.shiftl_0_l; cbn; lia|]. rewrite N.log2_shiftl by lia.
    assert (N.log2 (Byte.to_N b) < 8)%N; [|lia]. apply N.log2_lt_pow2; [done|]. change (2 ^ 8)%N with 256%N. lia.
Qed.

Lemma byte_of_self b : byte_of (Byte.to_N b) = b.
Proof. unfold byte_of. by rewrite Byte.of_to_N. Qed.

Lemma put_le_value l : put_le (length l) (le_value l) = l.
Proof.
  induction l as [|b l IH] using rev_ind; [done|]. rewrite length_app, Nat.add_comm. cbn [length Nat.add]. rewrite put_le_S, le_value_app.
  set (v := le_value l) in *. set (k := N.of_nat (length l)). assert (Hv : (v < 2 ^ (8 * k))%N) by apply le_value_lt.
  f_equal; [|f_equal].
  - rewrite <- IH at 2. unfold put_le. apply list_fmap_ext. intros i x Hi%lookup_seq. f_equal. apply N.bits_inj. intros n.
    rewrite !N.land_spec, !N.shiftr_spec, N.lor_spec by lia. change 255%N with (N.ones 8). rewrite testbit_ones_lt.
    destruct (N.ltb_spec n 8); [|by rewrite !andb_false_r]. rewrite N.shiftl_spec_low by lia. by rewrite orb_false_r.
  - rewrite <- (byte_of_self b) at 2. f_equal. apply N.bits_inj. intros n. pose proof (Byte.to_N_bounded b) as Hb.
    rewrite N.land_spec, N.shiftr_spec, N.lor_spec by lia. change 255%N with (N.ones 8). rewrite testbit_ones_lt.
    rewrite (testbit_above v (8 * k)) by lia. cbn [orb]. rewrite N.shiftl_spec_high by lia. replace (n + 8 * k - 8 * k)%N with n by lia.
    destruct (N.ltb_spec n 8); [by rewrite andb_true_r|]. rewrite andb_false_r. symmetry. apply (testbit_above _ 8); [|done].
    change (2 ^ 8)%N with 256%N. lia.
Qed.

(** * Frames *)

Lemma read_le_failed k b : read_le k (MkReader b false) = (0%N, MkReader b false).
Proof. done. Qed.

Lemma read_le_cases k b :
  (exists v b', read_le k (MkReader b true) = (v, MkReader b' true) /\ b = put_le k v ++ b' /\ (v < 2 ^ (8 * N.of_nat k))%N) \/
  (read_le k (MkReader b true) = (0%N, MkReader b false) /\ length b < k).
Proof.
  unfold read_le, bind, need, advance, ret. cbn [ok rest negb orb].
  destruct (N.ltb_spec (N.of_nat (length b)) (N.of_nat k)); [right; split; [done|lia]|]. left. cbn [rest ok].
  assert (Hl : length (take k b) = k) by (rewrite length_take; lia).
  exists (le_value (take k b)), (drop k b). split; [done|].
  pose proof (put_le_value (take k b)) as Hp. pose proof (le_value_lt (take k b)) as Hv. rewrite Hl in Hp, Hv.
  split; [|done]. by rewrite Hp, take_drop.
Qed.

Lemma fnv32_fits p : u32_fits (fnv32 p).
Proof.
  unfold fnv32, u32_fits. assert (H : forall l h, (h < two32)%N -> (foldl (fun h b => u32 (N.lxor h (Byte.to_N b) * 16777619)) h l < two32)%N).
  { induction l as [|b l IH]; intros h Hh; [done|]. cbn [foldl]. apply IH, u32_lt. }
  by apply H.
Qed.

(** A record that can be framed: its kind is a byte and its length a [uint32_t]. *)
Definition frame_ok (f : N * bytes) : Prop := u8_fits f.1 /\ len_fits f.2.

Lemma reads_frame f : frame_ok f -> reads read_frame (framed f.1 f.2) (Some f).
Proof.
  destruct f as [k p]. intros [Hk Hp] tl. unfold read_frame, framed, bind. cbn [fst snd] in *. rewrite <- !(assoc_L (++)).
  rewrite (reads_u8 k Hk), size32_fits, (reads_u32 _ Hp) by done.
  rewrite (assoc_L (++) p), need_fits by (rewrite length_app, length_putU32; lia). rewrite Nat2N.id, <- (assoc_L (++)).
  rewrite (reads_advance p), (reads_u32 _ (fnv32_fits p)). unfold ret. by rewrite N.eqb_refl.
Qed.

Definition no_frame (b : bytes) : Prop := forall f tl, frame_ok f -> b <> framed f.1 f.2 ++ tl.

Lemma read_frame_some b f r : read_frame (MkReader b true) = (Some f, r) -> frame_ok f /\ exists tl, b = framed f.1 f.2 ++ tl.
Proof.
  unfold read_frame, bind, r_u8, r_u32.
  destruct (read_le_cases 1 b) as [(k & b1 & -> & -> & Hk)|[-> _]]; [|done].
  destruct (read_le_cases 4 b1) as [(len & b2 & -> & -> & Hlen)|[-> _]]; [|done].
  unfold need at 1. cbn [ok rest negb orb]. destruct (N.ltb_spec (N.of_nat (length b2)) (len + 4)); [done|]. unfold advance. cbn [rest ok].
  destruct (read_le_cases 4 (drop (N.to_nat len) b2)) as [(sum & b3 & -> & Hb & Hsum)|[_ Hl]]; [|rewrite length_drop in Hl; lia].
  unfold ret. destruct (N.eqb_spec sum (fnv32 (take (N.to_nat len) b2))) as [->|]; [|done]. intros [= <- _].
  assert (Hp : length (take (N.to_nat len) b2) = N.to_nat len) by (rewrite length_take; lia).
  assert (Hf : len_fits (take (N.to_nat len) b2)) by (unfold len_fits; rewrite Hp, N2Nat.id; done). split; [by split|]. exists b3.
  unfold framed, putU8, putU32. cbn [fst snd]. rewrite size32_fits by done.
  rewrite Hp, N2Nat.id, <- !(assoc_L (++)). do 2 f_equal. rewrite <- Hb. by rewrite take_drop.
Qed.

Lemma read_frame_none b : no_frame b -> (read_frame (MkReader b true)).1 = None.
Proof.
  intros Hno. destruct (read_frame (MkReader b true)) as [[f|] r] eqn:E; [|done].
  apply read_frame_some in E as [Hf [tl ->]]. by destruct (Hno f tl).
Qed.

Lemma frame_length f : frame_ok f -> 9 <= length (framed f.1 f.2).
Proof. intros _. unfold framed. rewrite !length_app. unfold putU8, putU32. rewrite !length_put_le. lia. Qed.

Definition frames_bytes (fs : list (N * bytes)) : bytes := fs ≫= fun f => framed f.1 f.2.
Definition load_all (fs : list (N * bytes)) (c : CheckCheckpoint) : CheckCheckpoint := foldl (fun c f => load_record f.1 f.2 c) c fs.

Lemma frames_bytes_app fs gs : frames_bytes (fs ++ gs) = frames_bytes fs ++ frames_bytes gs.
Proof. apply bind_app. Qed.

(** Arbitrary bytes are whole frames and then bytes that do not begin with one. *)
Lemma frames_exist b : exists fs tl, b = frames_bytes fs ++ tl /\ Forall frame_ok fs /\ no_frame tl.
Proof.
  remember (length b) as n eqn:Hn. revert b Hn. induction (lt_wf n) as [n _ IH]; intros b ->.
  destruct (read_frame (MkReader b true)) as [[f|] r] eqn:Er.
  - apply read_frame_some in Er as [Hf [tl ->]].
    destruct (IH (length tl) ltac:(rewrite length_app; pose proof (frame_length f Hf); lia) tl eq_refl) as (fs & tl' & -> & Hfs & Hno).
    exists (f :: fs), tl'. split; [|split; [by constructor|done]]. unfold frames_bytes. by rewrite bind_cons, <- (assoc_L (++)).
  - exists [], b. split; [done|split; [constructor|]]. intros g tl Hg ->. by rewrite (reads_frame g Hg) in Er.
Qed.

(** * Loading *)

Lemma load_frames_exact fs tl fuel size c validEnd :
  Forall frame_ok fs -> no_frame tl -> length (frames_bytes fs ++ tl) < fuel -> size = validEnd + length (frames_bytes fs ++ tl) ->
  load_frames fuel size c validEnd (MkReader (frames_bytes fs ++ tl) true) = Some (load_all fs c, validEnd + length (frames_bytes fs)).
Proof.
  revert fuel c validEnd. induction fs as [|f fs IH]; intros fuel c validEnd Hfs Hno Hfuel Hsize; (destruct fuel as [|fuel]; [lia|]).
  - cbn [frames_bytes app load_frames ok rest] in *. cbn. rewrite Nat.add_0_r. destruct (bool_decide (tl <> [])); [|done].
    pose proof (read_frame_none tl Hno) as Hn. destruct (read_frame (MkReader tl true)) as [o r]. cbn [fst] in Hn. by subst.
  - apply Forall_cons in Hfs as [Hf Hfs]. change (frames_bytes (f :: fs)) with (framed f.1 f.2 ++ frames_bytes fs) in *.
    rewrite <- (assoc_L (++)) in *. pose proof (frame_length f Hf). rewrite !length_app in *. cbn [load_frames ok rest andb].
    rewrite bool_decide_eq_true_2 by (destruct (framed f.1 f.2); [cbn in *; lia|done]).
    rewrite (reads_frame f Hf). destruct f as [k p]. cbn [fst snd rest] in *. rewrite IH by (done || rewrite ?length_app; lia).
    rewrite ?length_app. f_equal. f_equal. lia.
Qed.

Lemma loadRecords_exact fs tl c : Forall frame_ok fs -> no_frame tl ->
  loadRecords (frames_bytes fs ++ tl) c = (load_all fs c, length (frames_bytes fs)).
Proof. intros Hfs Hno. unfold loadRecords. by rewrite load_frames_exact by (done || lia). Qed.

Lemma no_frame_nil : no_frame [].
Proof.
  intros f tl Hf H. pose proof (frame_length f Hf). symmetry in H. apply app_eq_nil in H as [H _]. rewrite H in *. cbn in *. lia.
Qed.

(** A frame cut short is no frame. *)
Lemma no_frame_torn f n : frame_ok f -> n < length (framed f.1 f.2) -> no_frame (take n (framed f.1 f.2)).
Proof.
  intros Hf Hn g tl Hg E. pose proof (reads_frame g Hg (tl ++ drop n (framed f.1 f.2))) as H1.
  rewrite (assoc_L (++)), <- E, take_drop in H1. pose proof (reads_frame f Hf []) as H2. rewrite app_nil_r, H1 in H2.
  injection H2 as _ H2. apply app_eq_nil in H2 as [_ H2]. apply (f_equal length) in H2. rewrite length_drop in H2. cbn in H2. lia.
Qed.

(** * Opening *)

Lemma header_length fp : length (journal_header fp) = kHeaderSize.
Proof. unfold journal_header. rewrite !length_app. unfold putU32, putU64. by rewrite !length_put_le. Qed.

Lemma header_roundtrip fp body : u64_fits fp -> header_matches (journal_header fp ++ body) fp = true.
Proof.
  intros Hfp. unfold header_matches. rewrite bool_decide_eq_true_2 by (rewrite length_app, header_length; lia). cbn [andb].
  unfold journal_header. rewrite <- !(assoc_L (++)). set (body' := putU32 kVersion ++ putU64 fp ++ body).
  assert (Ht : take 4 (kMagic ++ body') = kMagic) by apply (take_app_length kMagic body').
  assert (Hd : drop 4 (kMagic ++ body') = body') by apply (drop_app_length kMagic body'). rewrite Ht, Hd. unfold body'. clear Ht Hd.
  rewrite bool_decide_eq_true_2 by done. cbn [andb]. rewrite (assoc_L (++)).
  assert (Hl : length (putU32 kVersion ++ putU64 fp) = kHeaderSize - 4) by (rewrite length_app; unfold putU32, putU64; by rewrite !length_put_le).
  rewrite <- Hl, take_app_length.
  assert (H : reads (v <-- r_u32;; f <-- r_u64;; ret (v, f)) (putU32 kVersion ++ putU64 fp) (kVersion, fp)).
  { assert (u32_fits kVersion) by (vm_compute; reflexivity). read_fields. }
  specialize (H []). rewrite app_nil_r in H. rewrite H.
  by rewrite !N.eqb_refl.
Qed.

Lemma header_unique buf fp : header_matches buf fp = true -> exists body, buf = journal_header fp ++ body.
Proof.
  unfold header_matches. intros [[Hl%bool_decide_eq_true Hm%bool_decide_eq_true]%andb_true_iff H]%andb_true_iff.
  exists (drop kHeaderSize buf). unfold kHeaderSize in *.
  rewrite <- (take_drop 4 buf) at 1. rewrite Hm. rewrite <- (take_drop 12 (drop 4 buf)), drop_drop. unfold journal_header. rewrite <- !(assoc_L (++)).
  f_equal. rewrite (assoc_L (++)). f_equal. set (h := take 12 (drop 4 buf)) in *. assert (Hh : length h = 12) by (unfold h; rewrite length_take, length_drop; lia).
  replace (take (16 - 4) (drop 4 buf)) with h in H by done. unfold bind, ret, r_u32, r_u64 in H.
  destruct (read_le_cases 4 h) as [(v & b' & Hr & -> & _)|[_ Hlt]]; [|lia]. rewrite Hr in H. rewrite length_app, length_put_le in Hh.
  destruct (read_le_cases 8 b') as [(w & b'' & Hr' & -> & _)|[_ Hlt]]; [|lia]. rewrite Hr' in H. rewrite length_app, length_put_le in Hh.
  apply andb_true_iff in H as [<-%N.eqb_eq <-%N.eqb_eq]. destruct b''; [|cbn in Hh; lia]. by rewrite app_nil_r.
Qed.

Definition opened (c : CheckCheckpoint) : CheckCheckpoint := MkCheckpoint (cc_phase1 c) (cc_phase2 c) (cc_attempts c) true.

Lemma open_frames fs tl fp : u64_fits fp -> Forall frame_ok fs -> no_frame tl ->
  open_journal all_well (Some (journal_header fp ++ frames_bytes fs ++ tl)) fp =
  (Some (opened (load_all fs empty_checkpoint)), Some (journal_header fp ++ frames_bytes fs)).
Proof.
  intros Hfp Hfs Hno. unfold open_journal. cbn [io_busy all_well io_opens io_truncates negb]. rewrite header_roundtrip by done.
  rewrite <- (header_length fp), drop_app_length, loadRecords_exact by done. unfold opened.
  case_decide as Hd; rewrite !length_app in Hd.
  - do 2 f_equal. rewrite (assoc_L (++)), <- length_app, take_app_length. done.
  - destruct tl; [by rewrite app_nil_r|cbn in Hd; lia].
Qed.

Lemma open_fresh io file fp : io_busy io = false -> io_publishes io = true -> io_opens io = true ->
  (forall buf, file = Some buf -> header_matches buf fp = false) ->
  open_journal io file fp = (Some (opened empty_checkpoint), Some (journal_header fp)).
Proof.
  intros Hb Hp Ho Hf. unfold open_journal. rewrite Hb, Hp, Ho.
  assert (match file with Some buf => if header_matches buf fp then Some buf else None | None => None end = None) as ->.
  { destruct file as [buf|]; [|done]. by rewrite Hf. }
  cbn [negb]. case_decide as Hd; [rewrite header_length in Hd; lia|done].
Qed.

(** * What a record means *)

Inductive JournalEntry :=
| AttemptEntry (phase : N) (stamp : FileStamp) (why : option TuOutcome)
| Phase1Entry (rec : Phase1Record)
| Phase2Entry (rec : Phase2Record).

Definition entry_frame (e : JournalEntry) : N * bytes :=
  match e with
  | AttemptEntry phase stamp why => (kKindAttempt, attempt_payload phase (fs_path stamp) stamp why)
  | Phase1Entry rec => (kKindPhase1, phase1_payload (fs_path (p1_stamp rec)) (p1_stamp rec) (p1_payload rec) (p1_outcome rec))
  | Phase2Entry rec =>
      (kKindPhase2, phase2_payload (fs_path (p2_stamp rec)) (p2_stamp rec) (p2_indexSetHash rec) (p2_diagnostics rec) (p2_outcome rec))
  end.

(** Lengths and numbers are within the fields that hold them. *)
Definition entry_ok (e : JournalEntry) : Prop :=
  len_fits (entry_frame e).2 /\
  match e with
  | AttemptEntry phase stamp why => u8_fits phase /\ stamp_fits stamp /\ match why with Some o => outcome_fits o | None => True end
  | Phase1Entry rec => stamp_fits (p1_stamp rec) /\ outcome_fits (p1_outcome rec) /\ payload_fits (p1_payload rec)
  | Phase2Entry rec =>
      stamp_fits (p2_stamp rec) /\ u64_fits (p2_indexSetHash rec) /\ outcome_fits (p2_outcome rec) /\
      list_fits diagnostic_fits (p2_diagnostics rec)
  end.

(** What loading the record does. *)
Definition entry_effect (c : CheckCheckpoint) (e : JournalEntry) : CheckCheckpoint :=
  match e with
  | AttemptEntry phase stamp why => count_attempt phase (fs_path stamp) stamp why c
  | Phase1Entry rec =>
      MkCheckpoint (<[fs_path (p1_stamp rec) := rec]> (cc_phase1 c)) (cc_phase2 c)
        (delete (attemptKey kPhaseIndex (fs_path (p1_stamp rec))) (cc_attempts c)) (cc_out c)
  | Phase2Entry rec =>
      MkCheckpoint (cc_phase1 c) (<[fs_path (p2_stamp rec) := rec]> (cc_phase2 c))
        (delete (attemptKey kPhaseAnalyze (fs_path (p2_stamp rec))) (cc_attempts c)) (cc_out c)
  end.

(** The calls of a run; [torn] is the failure of the write, if it fails. *)
Definition record_entry (torn : option nat) (j : Journal) (e : JournalEntry) : Journal :=
  match e with
  | AttemptEntry phase stamp why => recordAttempt torn phase (fs_path stamp) stamp why j
  | Phase1Entry rec => recordPhase1 torn (fs_path (p1_stamp rec)) (p1_stamp rec) (p1_payload rec) (p1_outcome rec) j
  | Phase2Entry rec =>
      recordPhase2 torn (fs_path (p2_stamp rec)) (p2_stamp rec) (p2_indexSetHash rec) (p2_diagnostics rec) (p2_outcome rec) j
  end.

Definition session (es : list JournalEntry) (j : Journal) : Journal := foldl (record_entry None) j es.
Definition resumed (es : list JournalEntry) : CheckCheckpoint := foldl entry_effect empty_checkpoint es.
Definition fresh (fp : N) : Journal := (opened empty_checkpoint, journal_header fp).

Lemma entry_frame_ok e : entry_ok e -> frame_ok (entry_frame e).
Proof. intros [H _]. split; [by destruct e|done]. Qed.

Lemma reads_attempt phase stamp why : u8_fits phase -> stamp_fits stamp -> match why with Some o => outcome_fits o | None => True end ->
  decoded read_attempt (attempt_payload phase (fs_path stamp) stamp why) = Some (phase, stamp, why).
Proof.
  intros Hp Hs Hw. unfold decoded, read_attempt, attempt_payload, bind. rewrite (reads_u8 phase Hp).
  change (putLenStr (fs_path stamp) ++ putStamp stamp ++ ?x) with (putLenStr (fs_path stamp) ++ (putStamp stamp ++ x)).
  rewrite (assoc_L (++)), (wire_reads (Wire := wire_tu_stamp) stamp Hs). unfold read_trailer. cbn [ok rest andb].
  destruct why as [o|]; [|done]. rewrite bool_decide_eq_true_2 by (unfold putOutcome, putU8; by destruct (put_le 1 (status_code (oc_status o))) eqn:E;
    [apply (f_equal length) in E; rewrite length_put_le in E|]). unfold bind.
  pose proof (wire_reads (Wire := wire_outcome) o Hw []) as H. rewrite app_nil_r in H. by rewrite H.
Qed.

Lemma reads_phase1 rec : stamp_fits (p1_stamp rec) -> outcome_fits (p1_outcome rec) -> payload_fits (p1_payload rec) ->
  decoded read_phase1 (phase1_payload (fs_path (p1_stamp rec)) (p1_stamp rec) (p1_payload rec) (p1_outcome rec)) = Some rec.
Proof.
  intros Hs Ho Hp. apply decoded_reads. unfold read_phase1, phase1_payload. rewrite (assoc_L (++)). change (putLenStr _ ++ putStamp _) with (put_tu_stamp (p1_stamp rec)).
  read_fields. destruct rec. apply reads_ret.
Qed.

Lemma reads_phase2 rec : stamp_fits (p2_stamp rec) -> u64_fits (p2_indexSetHash rec) -> outcome_fits (p2_outcome rec) ->
  list_fits diagnostic_fits (p2_diagnostics rec) ->
  decoded read_phase2 (phase2_payload (fs_path (p2_stamp rec)) (p2_stamp rec) (p2_indexSetHash rec) (p2_diagnostics rec) (p2_outcome rec)) = Some rec.
Proof.
  intros Hs Hh Ho Hd. apply decoded_reads. unfold read_phase2, phase2_payload. rewrite (assoc_L (++)). change (putLenStr _ ++ putStamp _) with (put_tu_stamp (p2_stamp rec)).
  read_fields. destruct rec. apply reads_ret.
Qed.

Lemma load_entry e c : entry_ok e -> load_record (entry_frame e).1 (entry_frame e).2 c = entry_effect c e.
Proof.
  intros [_ He]. destruct e as [phase stamp why|rec|rec]; cbn [entry_frame fst snd entry_effect]; unfold load_record; cbn [N.eqb Pos.eqb kKindAttempt kKindPhase1 kKindPhase2].
  - destruct He as (? & ? & ?). by rewrite reads_attempt.
  - destruct He as (? & ? & ?). by rewrite reads_phase1.
  - destruct He as (? & ? & ? & ?). by rewrite reads_phase2.
Qed.

Lemma load_entries es c : Forall entry_ok es -> load_all (entry_frame <$> es) c = foldl entry_effect c es.
Proof.
  revert c. induction es as [|e es IH]; intros c H; [done|]. apply Forall_cons in H as [He Hes].
  unfold load_all in *. cbn [fmap list_fmap foldl]. by rewrite load_entry, IH.
Qed.

Definition entries_bytes (es : list JournalEntry) : bytes := frames_bytes (entry_frame <$> es).

(** A run that appends writes the frames, and counts attempts as a reload will. *)
Lemma session_exact es c file : cc_out c = true ->
  (session es (c, file)).2 = file ++ entries_bytes es /\
  cc_attempts (session es (c, file)).1 = cc_attempts (foldl entry_effect c es).
Proof.
  intros Hc. assert (H : forall d, cc_attempts d = cc_attempts c -> (session es (c, file)).2 = file ++ entries_bytes es /\
    cc_attempts (session es (c, file)).1 = cc_attempts (foldl entry_effect d es)); [|by apply H].
  revert c file Hc. induction es as [|e es IH]; intros c file Hc d Hd; [by rewrite app_nil_r|].
  unfold session, entries_bytes. cbn [foldl fmap list_fmap]. unfold frames_bytes. rewrite bind_cons, (assoc_L (++)).
  destruct e as [phase stamp why|rec|rec]; cbn [record_entry entry_effect entry_frame fst snd]; unfold recordAttempt, recordPhase1, recordPhase2, appendRecord; rewrite Hc;
    apply IH; try done; cbn; by rewrite Hd.
Qed.

Lemma session_cut fs n : Forall frame_ok fs -> exists k tl,
  k <= length fs /\ take n (frames_bytes fs) = frames_bytes (take k fs) ++ tl /\ no_frame tl /\ length (frames_bytes (take k fs)) <= n /\
  (k < length fs -> n < length (frames_bytes (take (S k) fs))).
Proof.
  revert n. induction fs as [|f fs IH]; intros n Hfs.
  { exists 0, []. cbn. rewrite take_nil. split_and!; auto using no_frame_nil; lia. }
  apply Forall_cons in Hfs as [Hf Hfs]. change (frames_bytes (f :: fs)) with (framed f.1 f.2 ++ frames_bytes fs).
  destruct (decide (n < length (framed f.1 f.2))) as [Hn|Hn].
  - exists 0, (take n (framed f.1 f.2)). rewrite take_app_le by lia. cbn [take length]. change (frames_bytes []) with (@nil Byte.byte). cbn [app length].
    split_and!; [lia|done|by apply no_frame_torn|lia|]. intros _.
    unfold frames_bytes. rewrite bind_cons, length_app. lia.
  - destruct (IH (n - length (framed f.1 f.2)) Hfs) as (k & tl & Hk & Ht & Hno & Hle & Hmax). exists (S k), tl.
    cbn [take length]. change (frames_bytes (f :: take k fs)) with (framed f.1 f.2 ++ frames_bytes (take k fs)).
    change (frames_bytes (f :: take (S k) fs)) with (framed f.1 f.2 ++ frames_bytes (take (S k) fs)).
    rewrite take_app_ge, Ht, <- (assoc_L (++)), !length_app by lia. split_and!; [lia|done|done|lia|]. intros Hlt. pose proof (Hmax ltac:(lia)). cbn. lia.
Qed.

(** * Killing and resuming *)

Lemma entries_bytes_app es fs : entries_bytes (es ++ fs) = entries_bytes es ++ entries_bytes fs.
Proof. unfold entries_bytes. by rewrite fmap_app, frames_bytes_app. Qed.

Lemma entries_frames_ok es : Forall entry_ok es -> Forall frame_ok (entry_frame <$> es).
Proof. intros H. apply Forall_fmap. eapply Forall_impl; [exact H|apply entry_frame_ok]. Qed.

Lemma session_fresh es fp : (session es (fresh fp)).2 = journal_header fp ++ entries_bytes es.
Proof. by apply session_exact. Qed.

(** What is found in the first [n] bytes of a journal: the records that lie in them whole. *)
Lemma open_cut es fp n : u64_fits fp -> Forall entry_ok es -> exists k,
  open_journal all_well (Some (take n (session es (fresh fp)).2)) fp =
    (Some (opened (resumed (take k es))), Some (session (take k es) (fresh fp)).2) /\
  k <= length es /\ length (session (take k es) (fresh fp)).2 <= max kHeaderSize n /\
  (k < length es -> n < length (session (take (S k) es) (fresh fp)).2).
Proof.
  intros Hfp Hes. rewrite session_fresh. destruct (decide (n < kHeaderSize)) as [Hn|Hn].
  - exists 0. rewrite !session_fresh, !length_app, header_length, take_0. change (entries_bytes []) with (@nil Byte.byte).
    rewrite app_nil_r. cbn [length]. split_and!; [|lia|lia|].
    + apply open_fresh; [done|done|done|]. intros buf [= <-]. unfold header_matches. rewrite bool_decide_eq_false_2; [done|].
      rewrite length_take. lia.
    + intros _. lia.
  - destruct (session_cut (entry_frame <$> es) (n - kHeaderSize) (entries_frames_ok es Hes)) as (k & tl & Hk & Ht & Hno & Hle & Hmax).
    rewrite length_fmap in Hk, Hmax. exists k. rewrite take_app_ge, header_length by (rewrite header_length; lia).
    unfold entries_bytes at 1. rewrite Ht, <- fmap_take. rewrite open_frames; [|done|apply entries_frames_ok, Forall_take, Hes|done].
    rewrite load_entries by (by apply Forall_take). rewrite !session_fresh, !length_app, header_length. fold (resumed (take k es)).
    rewrite <- !fmap_take in *. fold (entries_bytes (take k es)) in *. fold (entries_bytes (take (S k) es)) in *. split_and!; [done|done|lia|].
    intros Hlt. specialize (Hmax Hlt). lia.
Qed.

(** C7. A run killed at any byte of its journal loses at most the record it was writing: opening
    what is left of the file restores the state after exactly the records that are in it
    whole, and truncates the file to them, so that the run goes on behind them. *)
Theorem crash_loses_one_record (es : list JournalEntry) (fp : N) (n : nat) :
  u64_fits fp -> Forall entry_ok es ->
  exists k, open_journal all_well (Some (take n (session es (fresh fp)).2)) fp =
      (Some (opened (resumed (take k es))), Some (session (take k es) (fresh fp)).2) /\
    (forall j, j <= length es -> j <= k <-> length (session (take j es) (fresh fp)).2 <= max kHeaderSize n).
Proof.
  intros Hfp Hes. destruct (open_cut es fp n Hfp Hes) as (k & Ho & Hk & Hle & Hmax). exists k. split; [done|]. intros j Hj.
  assert (Hmono : forall a b, a <= b -> length (session (take a es) (fresh fp)).2 <= length (session (take b es) (fresh fp)).2).
  { intros a b Hab. rewrite !session_fresh, !length_app. rewrite <- (take_drop a (take b es)), entries_bytes_app, length_app, take_take.
    replace (min a b) with a by lia. lia. }
  split.
  - intros Hjk. pose proof (Hmono j k Hjk). lia.
  - intros Hlen. destruct (decide (j <= k)); [done|]. pose proof (Hmono (S k) j ltac:(lia)). pose proof (Hmax ltac:(lia)).
    assert (kHeaderSize < length (session (take (S k) es) (fresh fp)).2); [|lia].
    rewrite session_fresh, length_app, header_length. destruct (lookup_lt_is_Some_2 es k ltac:(lia)) as [e He].
    rewrite (take_S_r _ _ e He), entries_bytes_app, length_app. assert (entry_ok e) as Hok by (by eapply Forall_lookup_1).
    change (entries_bytes [e]) with (framed (entry_frame e).1 (entry_frame e).2 ++ []). rewrite app_nil_r.
    pose proof (frame_length _ (entry_frame_ok e Hok)). lia.
Qed.

Definition sample_entries : list JournalEntry :=
  [AttemptEntry kPhaseIndex (MkStamp (str "a.cpp") 5 7) None;
   Phase1Entry (MkPhase1 (MkStamp (str "a.cpp") 5 7) kCleanParse (MkPayload [] [] [] [] [] [] [] [] [] [] [(str "D", str "B")] [] []));
   AttemptEntry kPhaseIndex (MkStamp (str "b.cpp") 6 9) (Some (MkOutcome TimedOut (str "worker timed out")))].

Lemma sample_entries_ok : Forall entry_ok sample_entries.
Proof.
  unfold sample_entries, entry_ok. repeat constructor; cbn -[entry_frame]; try done; try (vm_compute; reflexivity).
Qed.

Lemma crash_loses_one_record_witness :
  (open_journal all_well (Some (take 170 (session sample_entries (fresh 42)).2)) 42).1 = Some (opened (resumed (take 2 sample_entries))) /\
  exists k, open_journal all_well (Some (take 170 (session sample_entries (fresh 42)).2)) 42 =
      (Some (opened (resumed (take k sample_entries))), Some (session (take k sample_entries) (fresh 42)).2) /\
    (forall j, j <= length sample_entries -> j <= k <-> length (session (take j sample_entries) (fresh 42)).2 <= max kHeaderSize 170).
Proof.
  split; [vm_compute; reflexivity|]. apply (crash_loses_one_record sample_entries 42 170); [vm_compute; reflexivity|apply sample_entries_ok].
Defined.

(** Whatever is in a file with this run's header, what the run appends to it is found again. *)
Lemma reopen_after buf fp es : header_matches buf fp = true -> Forall entry_ok es -> u64_fits fp -> exists c file,
  open_journal all_well (Some buf) fp = (Some c, Some file) /\ cc_out c = true /\ file `prefix_of` buf /\
  open_journal all_well (Some (session es (c, file)).2) fp = (Some (foldl entry_effect c es), Some (session es (c, file)).2).
Proof.
  intros Hh Hes Hfp. destruct (header_unique buf fp Hh) as [body ->]. destruct (frames_exist body) as (fs & tl & -> & Hfs & Hno).
  exists (opened (load_all fs empty_checkpoint)), (journal_header fp ++ frames_bytes fs).
  split_and!; [by apply open_frames|done|by exists tl; rewrite <- (assoc_L (++))|].
  rewrite (proj1 (session_exact es (opened (load_all fs empty_checkpoint)) _ eq_refl)), <- (assoc_L (++)). unfold entries_bytes. rewrite <- frames_bytes_app.
  rewrite <- (app_nil_r (frames_bytes (fs ++ _))) at 1. rewrite open_frames; [|done| |apply no_frame_nil].
  2: { apply Forall_app. split; [done|by apply entries_frames_ok]. }
  do 2 f_equal. unfold load_all. rewrite foldl_app. fold (load_all fs empty_checkpoint). change (foldl (fun c f => load_record f.1 f.2 c)) with (fun c fs => load_all fs c).
  cbv beta. rewrite load_entries by done. clear. generalize (load_all fs empty_checkpoint). intros c. unfold opened.
  assert (H : forall d, opened (foldl entry_effect d es) = foldl entry_effect (opened d) es); [|apply H]. clear. intros d. revert d.
  induction es as [|e es IH]; intros d; [done|]. cbn [foldl]. rewrite IH. f_equal. by destruct e.
Qed.

(** Damage at the end of a journal never hides what is recorded after it: whatever bytes
    follow the header, [open] keeps a prefix of them, and every record appended to that is
    found when the journal is opened again, with the attempt counts the run itself saw. *)
Theorem appended_records_are_found (buf : bytes) (fp : N) (es : list JournalEntry) :
  header_matches buf fp = true -> u64_fits fp -> Forall entry_ok es ->
  exists c file, open_journal all_well (Some buf) fp = (Some c, Some file) /\ file `prefix_of` buf /\
    open_journal all_well (Some (session es (c, file)).2) fp = (Some (foldl entry_effect c es), Some (session es (c, file)).2) /\
    forall phase tu stamp, attempts (session es (c, file)).1 phase tu stamp = attempts (foldl entry_effect c es) phase tu stamp.
Proof.
  intros Hh Hfp Hes. destruct (reopen_after buf fp es Hh Hes Hfp) as (c & file & Ho & Hc & Hp & Hr). exists c, file.
  split_and!; [done|done|done|]. intros phase tu stamp. unfold attempts. by rewrite (proj2 (session_exact es c file Hc)).
Qed.

Lemma appended_records_are_found_witness :
  let buf := journal_header 42 ++ str "torn" in
  (open_journal all_well (Some buf) 42).2 = Some (journal_header 42) /\
  exists c file, open_journal all_well (Some buf) 42 = (Some c, Some file) /\ file `prefix_of` buf /\
    open_journal all_well (Some (session sample_entries (c, file)).2) 42 =
      (Some (foldl entry_effect c sample_entries), Some (session sample_entries (c, file)).2) /\
    forall phase tu stamp, attempts (session sample_entries (c, file)).1 phase tu stamp = attempts (foldl entry_effect c sample_entries) phase tu stamp.
Proof.
  intros buf. split; [vm_compute; reflexivity|].
  apply (appended_records_are_found buf 42 sample_entries); [vm_compute; reflexivity|vm_compute; reflexivity|apply sample_entries_ok].
Defined.

(** * A resumed unit *)

Lemma applyTo_capture `{!UnorderedIter} (shard into : GlobalIndex) : applyTo (capture shard) into = absorb_index into shard.
Proof. reflexivity. Qed.

Lemma later_phase1 es c tu : (forall rec, Phase1Entry rec ∈ es -> fs_path (p1_stamp rec) <> tu) ->
  cc_phase1 (foldl entry_effect c es) !! tu = cc_phase1 c !! tu.
Proof.
  revert c. induction es as [|e es IH]; intros c H; [done|]. cbn [foldl]. rewrite IH by (intros rec Hr; apply H; by right).
  destruct e as [| rec |]; [done| |done]. cbn. rewrite lookup_insert_ne; [done|]. apply H. left.
Qed.

Lemma entries_take k es : length (entries_bytes (take k es)) <= length (entries_bytes es).
Proof. rewrite <- (take_drop k es) at 2. rewrite entries_bytes_app, length_app. lia. Qed.

(** C24. A run killed any time after a unit's record was written resumes without parsing the unit:
    replaying the record gives the index exactly what absorbing the parsed unit would. *)
Theorem killed_run_replays_unit `{!UnorderedIter} (es1 es2 : list JournalEntry) (stamp : FileStamp) (shard into : GlobalIndex) (fp : N) (n : nat) :
  let parsed := Phase1Entry (MkPhase1 stamp kCleanParse (capture shard)) in
  u64_fits fp -> Forall entry_ok (es1 ++ parsed :: es2) ->
  (forall rec, Phase1Entry rec ∈ es2 -> fs_path (p1_stamp rec) <> fs_path stamp) ->
  length (session (es1 ++ [parsed]) (fresh fp)).2 <= n ->
  exists c file, open_journal all_well (Some (take n (session (es1 ++ parsed :: es2) (fresh fp)).2)) fp = (Some c, Some file) /\
    replayPhase1 c (fs_path stamp) stamp into = Some (absorb_index into shard, kCleanParse).
Proof.
  intros parsed Hfp Hes Hlater Hn. destruct (open_cut _ fp n Hfp Hes) as (k & Ho & Hk & _ & Hmax). eexists _, _. split; [exact Ho|].
  assert (Hlt : length es1 < k).
  { destruct (decide (length es1 < k)); [done|]. exfalso. rewrite length_app in Hmax. cbn in Hmax.
    specialize (Hmax ltac:(lia)). rewrite session_fresh, length_app in *. rewrite (cons_middle parsed), (assoc_L (++)) in Hmax.
    rewrite take_app_le in Hmax by (rewrite length_app; cbn; lia). pose proof (entries_take (S k) (es1 ++ [parsed])). lia. }
  unfold resumed. rewrite take_app_ge by lia. replace (k - length es1) with (S (k - length es1 - 1)) by lia. cbn [take].
  rewrite foldl_app. cbn [foldl]. unfold replayPhase1, opened. cbn [cc_phase1]. rewrite later_phase1.
  - cbn [entry_effect parsed cc_phase1 p1_stamp]. rewrite lookup_insert_eq. cbn [p1_stamp p1_outcome p1_payload]. rewrite decide_True by done.
    by rewrite applyTo_capture.
  - intros rec Hr. apply Hlater. rewrite <- (take_drop (k - length es1 - 1) es2). apply elem_of_app. by left.
Qed.

Definition sample_shard : GlobalIndex := addHeaderStatic (MkHeaderStatic (str "s") (str "a.h") 3 false [str "a.cpp"]) (update_types (addBase (str "D") (str "B")) empty_global_index).

Lemma killed_run_replays_unit_witness :
  let stamp := MkStamp (str "a.cpp") 5 7 in
  let parsed := Phase1Entry (MkPhase1 stamp kCleanParse (@capture canonical_iter sample_shard)) in
  let es1 := [AttemptEntry kPhaseIndex stamp None] in
  let es2 := [AttemptEntry kPhaseIndex (MkStamp (str "b.cpp") 6 9) None] in
  exists c file, open_journal all_well (Some (take 300 (session (es1 ++ parsed :: es2) (fresh 42)).2)) 42 = (Some c, Some file) /\
    replayPhase1 c (str "a.cpp") stamp empty_global_index = Some (@absorb_index canonical_iter empty_global_index sample_shard, kCleanParse).
Proof.
  intros stamp parsed es1 es2.
  apply (@killed_run_replays_unit canonical_iter es1 es2 stamp sample_shard empty_global_index 42 300).
  - vm_compute; reflexivity.
  - unfold es1, es2, parsed, entry_ok. cbn [app]. repeat constructor; cbn -[entry_frame]; try done; vm_compute; reflexivity.
  - intros rec Hr. unfold es2 in Hr. apply list_elem_of_singleton in Hr. discriminate.
  - apply Nat.leb_le. vm_compute. reflexivity.
Defined.

(** * Attempts *)

(** The attempts on a unit, latest first: those with this stamp since the unit's last completed
    phase and its last attempt with another stamp. *)
Fixpoint tries (phase : N) (stamp : FileStamp) (latest : list JournalEntry) : nat :=
  match latest with
  | [] => 0
  | AttemptEntry p s _ :: older =>
      if decide (p = phase /\ fs_path s = fs_path stamp) then if decide (s = stamp) then S (tries phase stamp older) else 0
      else tries phase stamp older
  | Phase1Entry rec :: older => if decide (phase = kPhaseIndex /\ fs_path (p1_stamp rec) = fs_path stamp) then 0 else tries phase stamp older
  | Phase2Entry rec :: older => if decide (phase = kPhaseAnalyze /\ fs_path (p2_stamp rec) = fs_path stamp) then 0 else tries phase stamp older
  end.

Lemma attemptKey_inj p q a b : u8_fits p -> u8_fits q -> attemptKey p a = attemptKey q b <-> p = q /\ a = b.
Proof.
  intros Hp Hq. unfold attemptKey. split; [|by intros [-> ->]]. cbn. intros [= H ->]. split; [|done].
  rewrite <- (byte_of_to p), <- (byte_of_to q) by done. by rewrite H.
Qed.

Lemma attempts_count c phase stamp s why p : u8_fits phase -> u8_fits p ->
  attempts (count_attempt p (fs_path s) s why c) phase (fs_path stamp) stamp =
  if decide (p = phase /\ fs_path s = fs_path stamp)
  then if decide (s = stamp) then (u32 ((attempts c phase (fs_path stamp) stamp).1 + 1), why) else (0%N, None)
  else attempts c phase (fs_path stamp) stamp.
Proof.
  intros Hf Hp. unfold attempts, count_attempt. cbn [cc_attempts]. destruct (decide (p = phase /\ fs_path s = fs_path stamp)) as [[-> Ht]|Hne].
  - rewrite Ht, lookup_insert_eq. unfold countAttempt.
    destruct (cc_attempts c !! attemptKey phase (fs_path stamp)) as [st|]; cbn [default from_option id];
      destruct (decide (as_stamp _ = s)); cbn [as_stamp as_count as_why]; repeat case_decide; cbn [fst]; first [reflexivity|congruence].
  - rewrite lookup_insert_ne; [done|]. rewrite attemptKey_inj by done. done.
Qed.

Lemma attempts_erased (m : gmap bytes AttemptState) p1 p2 o phase p tu stamp : u8_fits phase -> u8_fits p ->
  attempts (MkCheckpoint p1 p2 (delete (attemptKey p tu) m) o) phase (fs_path stamp) stamp =
  if decide (phase = p /\ tu = fs_path stamp) then (0%N, None) else attempts (MkCheckpoint p1 p2 m o) phase (fs_path stamp) stamp.
Proof.
  intros Hf Hp. unfold attempts. cbn [cc_attempts]. case_decide as Hd.
  - destruct Hd as [-> ->]. by rewrite lookup_delete_eq.
  - rewrite lookup_delete_ne; [done|]. rewrite attemptKey_inj by done. naive_solver.
Qed.

Lemma attempts_resumed es phase stamp : u8_fits phase -> Forall entry_ok es -> len_fits es ->
  (attempts (resumed es) phase (fs_path stamp) stamp).1 = N.of_nat (tries phase stamp (rev es)) /\ tries phase stamp (rev es) <= length es.
Proof.
  intros Hp. unfold resumed, len_fits. induction es as [|e es IH] using rev_ind; intros Hes Hl; [done|].
  apply Forall_app in Hes as [Hes He]. apply Forall_cons in He as [He _]. rewrite length_app in Hl. cbn in Hl. destruct (IH Hes ltac:(lia)) as [IH1 IH2].
  rewrite foldl_app, rev_app_distr. cbn [foldl rev app]. set (c := foldl entry_effect empty_checkpoint es) in *. rewrite length_app. cbn [length].
  destruct e as [p s why|rec|rec]; cbn [entry_effect tries].
  - assert (Hp' : u8_fits p) by apply He. rewrite attempts_count by done. repeat case_decide; cbn [fst]; try (split; [done|lia]).
    rewrite IH1, u32_small by lia. split; lia.
  - rewrite attempts_erased by done. case_decide; cbn [fst]; (split; [|lia]); [done|]. exact IH1.
  - rewrite attempts_erased by done. case_decide; cbn [fst]; (split; [|lia]); [done|]. exact IH1.
Qed.

(** A unit is given up exactly when the journal has enough attempts at it, in this phase and
    with this stamp, since the phase was last completed for it: a completed parse and an
    edited file both start the count again, attempts of other units and phases never add. *)
Theorem attempts_are_since_completion (es : list JournalEntry) (phase : N) (stamp : FileStamp) :
  u8_fits phase -> Forall entry_ok es -> len_fits es ->
  (kMaxAttempts <=? (attempts (resumed es) phase (fs_path stamp) stamp).1)%N = bool_decide (2 <= tries phase stamp (rev es)).
Proof.
  intros Hp Hes Hl. rewrite (proj1 (attempts_resumed es phase stamp Hp Hes Hl)). unfold kMaxAttempts.
  destruct (N.leb_spec 2 (N.of_nat (tries phase stamp (rev es)))).
  - symmetry. apply bool_decide_eq_true. lia.
  - symmetry. apply bool_decide_eq_false. lia.
Qed.

Lemma attempts_are_since_completion_witness :
  let stamp := MkStamp (str "b.cpp") 6 9 in
  let es := sample_entries ++ [AttemptEntry kPhaseIndex stamp None] in
  (kMaxAttempts <=? (attempts (resumed es) kPhaseIndex (str "b.cpp") stamp).1)%N = true.
Proof.
  intros stamp es. etrans; [apply (attempts_are_since_completion es kPhaseIndex stamp)|vm_compute; reflexivity]; [vm_compute; reflexivity| |vm_compute; reflexivity].
  apply Forall_app. split; [apply sample_entries_ok|]. repeat constructor; vm_compute; reflexivity.
Defined.

(** * A write that fails *)

Definition record_all (j : Journal) (es : list (option nat * JournalEntry)) : Journal := foldl (fun j te => record_entry te.1 j te.2) j es.

Lemma record_closed es c file : cc_out c = false -> (record_all (c, file) es).2 = file.
Proof.
  revert c. induction es as [|[torn e] es IH]; intros c Hc; [done|]. unfold record_all. cbn [foldl fst snd].
  destruct e; cbn [record_entry]; unfold recordAttempt, recordPhase1, recordPhase2, appendRecord; rewrite Hc; by apply IH.
Qed.

Lemma record_torn e n c file : cc_out c = true -> exists c',
  record_entry (Some n) (c, file) e = (c', file ++ take n (framed (entry_frame e).1 (entry_frame e).2)) /\ cc_out c' = false.
Proof.
  intros Hc. destruct e; cbn [record_entry entry_frame fst snd]; unfold recordAttempt, recordPhase1, recordPhase2, appendRecord; rewrite Hc;
    eexists; (split; [reflexivity|done]).
Qed.

Lemma session_open es c file : cc_out c = true -> cc_out (session es (c, file)).1 = true.
Proof.
  revert c file. induction es as [|e es IH]; intros c file Hc; [done|]. unfold session. cbn [foldl].
  destruct e; cbn [record_entry]; unfold recordAttempt, recordPhase1, recordPhase2, appendRecord; rewrite Hc; by apply IH.
Qed.

(** A full disk costs the records that did not fit and nothing else: after an append that
    fails part of the way the run writes no more, and the journal still opens as it was before
    that append. *)
Theorem failed_append_keeps_journal (es : list JournalEntry) (e : JournalEntry) (n : nat) (later : list (option nat * JournalEntry)) (fp : N) :
  u64_fits fp -> Forall entry_ok es -> entry_ok e -> n < length (framed (entry_frame e).1 (entry_frame e).2) ->
  open_journal all_well (Some (record_all (record_entry (Some n) (session es (fresh fp)) e) later).2) fp =
  (Some (opened (resumed es)), Some (session es (fresh fp)).2).
Proof.
  intros Hfp Hes He Hn. pose proof (session_open es (opened empty_checkpoint) (journal_header fp) eq_refl) as Ho. fold (fresh fp) in Ho.
  pose proof (session_fresh es fp) as Hf. destruct (session es (fresh fp)) as [c file]. cbn [fst snd] in *.
  destruct (record_torn e n c file Ho) as (c' & -> & Hc'). rewrite record_closed, Hf, <- (assoc_L (++)) by done.
  unfold entries_bytes. rewrite open_frames; [|done|by apply entries_frames_ok|by apply no_frame_torn; [apply entry_frame_ok|]].
  by rewrite load_entries.
Qed.

Lemma failed_append_keeps_journal_witness :
  let e := AttemptEntry kPhaseAnalyze (MkStamp (str "b.cpp") 6 9) None in
  open_journal all_well (Some (record_all (record_entry (Some 7) (session sample_entries (fresh 42)) e) [(None, e)]).2) 42 =
  (Some (opened (resumed sample_entries)), Some (session sample_entries (fresh 42)).2).
Proof.
  intros e. apply (failed_append_keeps_journal sample_entries e 7 [(None, e)] 42);
    [vm_compute; reflexivity|apply sample_entries_ok|repeat constructor; vm_compute; reflexivity|apply Nat.ltb_lt; vm_compute; reflexivity].
Defined.

(** * Shard files *)

Section ShardFiles.
Context {St : Type} (fn : bytes -> bytes -> St -> option St) (step : St -> bytes * bytes -> St).

Definition shard_entry_ok (e : bytes * bytes) : Prop := len_fits e.1 /\ len_fits e.2.

Lemma read_shard_entry e count st tl : shard_entry_ok e -> fn e.1 e.2 st = Some (step st e) ->
  read_entries fn (S count) st (MkReader (shard_entry e ++ tl) true) = read_entries fn count (step st e) (MkReader tl true).
Proof.
  intros [H1 H2] Hfn. cbn [read_entries]. unfold shard_entry. rewrite <- !(assoc_L (++)), (reads_lenStr _ H1), size32_fits, (reads_u32 _ H2) by done.
  rewrite (assoc_L (++) e.2), need_fits by (rewrite length_app, length_putU32; lia). cbn [negb]. rewrite Nat2N.id, <- (assoc_L (++)), (reads_advance e.2).
  rewrite (reads_u32 _ (fnv32_fits e.2)), N.eqb_refl. by rewrite Hfn.
Qed.

Lemma read_entries_exact es st tl : Forall shard_entry_ok es -> (forall st e, e ∈ es -> fn e.1 e.2 st = Some (step st e)) ->
  read_entries fn (length es) st (MkReader ((es ≫= shard_entry) ++ tl) true) = (foldl step st es, true).
Proof.
  revert st. induction es as [|e es IH]; intros st Hes Hfn; [done|]. apply Forall_cons in Hes as [He Hes]. cbn [length foldl].
  rewrite bind_cons, <- (assoc_L (++)), read_shard_entry; [|done|apply Hfn; left]. apply IH; [done|]. intros st' e' He'. apply Hfn. by right.
Qed.

Definition entry_head : M (bytes * N * bool) := tu <-- r_lenStr;; len <-- r_u32;; fine <-- need (len + 4)%N;; ret (tu, len, fine).

Lemma read_entries_head count st r : (entry_head r).1.2 = false -> (read_entries fn (S count) st r).2 = false.
Proof.
  cbn [read_entries]. unfold entry_head, bind, ret. destruct (r_lenStr r) as [tu r1]. destruct (r_u32 r1) as [len r2].
  destruct (need (len + 4) r2) as [fine r3]. cbn. by intros ->.
Qed.

Lemma torn_entry e b tl : shard_entry_ok e -> tl <> [] -> shard_entry e = b ++ tl -> (entry_head (MkReader b true)).1.2 = false.
Proof.
  intros [H1 H2] Htl He. destruct (entry_head (MkReader b true)) as [[[tu len] fine] [b3 o]] eqn:E. cbn [fst snd]. destruct fine; [|done]. exfalso.
  assert (o = true /\ N.to_nat len + 4 <= length b3) as [-> Hl].
  { revert E. unfold entry_head, bind, ret. destruct (r_lenStr _) as [tu' r1]. destruct (r_u32 r1) as [len' r2]. unfold need.
    destruct (ok r2) eqn:Hok; cbn [negb orb]; [|done]. destruct (N.ltb_spec (N.of_nat (length (rest r2))) (len' + 4)); [done|]. intros [= -> -> ->].
    cbn [ok rest] in *. split; [done|lia]. }
  pose proof (decoder_stable (m := entry_head) b true tl) as Hs. rewrite E in Hs. cbn [fst snd rest ok] in Hs. specialize (Hs eq_refl). rewrite <- He in Hs.
  revert Hs. unfold entry_head, bind, ret, shard_entry.
  rewrite <- (app_nil_r (putU32 (fnv32 e.2))), (reads_lenStr _ H1), size32_fits, (reads_u32 _ H2) by done.
  rewrite (assoc_L (++)), need_fits by (rewrite length_app, length_putU32; lia). intros [= _ <- Hb]. apply (f_equal length) in Hb.
  rewrite !length_app, length_putU32, Nat2N.id in *. cbn [length] in Hb. destruct tl; [done|]. cbn in Hb. lia.
Qed.

Lemma read_entries_torn es st b tl : Forall shard_entry_ok es -> (forall st e, e ∈ es -> fn e.1 e.2 st = Some (step st e)) ->
  tl <> [] -> es ≫= shard_entry = b ++ tl -> (read_entries fn (length es) st (MkReader b true)).2 = false.
Proof.
  revert st b. induction es as [|e es IH]; intros st b Hes Hfn Htl Hb; [by destruct b; cbn in Hb; destruct tl|].
  apply Forall_cons in Hes as [He Hes]. rewrite bind_cons in Hb. cbn [length].
  destruct (decide (length b < length (shard_entry e))) as [Hlt|Hge].
  - apply read_entries_head. apply (torn_entry e b (drop (length b) (shard_entry e))); [done| |].
    + intros E. apply (f_equal length) in E. rewrite length_drop in E. cbn in E. lia.
    + apply (f_equal (take (length b))) in Hb. rewrite take_app_le, take_app_length in Hb by lia. rewrite <- Hb at 1. by rewrite take_drop.
  - assert (exists b', b = shard_entry e ++ b' /\ es ≫= shard_entry = b' ++ tl) as (b' & -> & Hb').
    { exists (drop (length (shard_entry e)) b). split.
      - apply (f_equal (take (length (shard_entry e)))) in Hb. rewrite take_app_length, take_app_le in Hb by lia. rewrite Hb at 1. by rewrite take_drop.
      - apply (f_equal (drop (length (shard_entry e)))) in Hb. rewrite drop_app_length, drop_app_le in Hb by lia. done. }
    rewrite read_shard_entry; [|done|apply Hfn; left]. apply IH; [done| |done|done]. intros st' e' He'. apply Hfn. by right.
Qed.
End ShardFiles.

Lemma magic_split (magic x : bytes) : length magic = 4 -> take 4 (magic ++ x) = magic /\ drop 4 (magic ++ x) = x.
Proof. intros <-. by rewrite take_app_length, drop_app_length. Qed.

Lemma shard_file_read {St} (fn : bytes -> bytes -> St -> option St) (step : St -> bytes * bytes -> St) magic es st :
  length magic = 4 -> len_fits es -> Forall shard_entry_ok es -> (forall st e, e ∈ es -> fn e.1 e.2 st = Some (step st e)) ->
  readShardFile fn magic (Some (writeShardFile magic es)) st = (foldl step st es, true) /\
  forall n, n < length (writeShardFile magic es) -> (readShardFile fn magic (Some (take n (writeShardFile magic es))) st).2 = false.
Proof.
  intros Hm Hl Hes Hfn. assert (Hv : u32_fits kShardVersion) by (vm_compute; reflexivity). split.
  - unfold readShardFile, writeShardFile, put_list. rewrite bool_decide_eq_true_2 by (rewrite !length_app, !length_putU32; lia). cbn [andb].
    rewrite <- Hm, take_app_length, bool_decide_eq_true_2 by done. cbn [negb]. rewrite drop_app_length, (reads_u32 _ Hv), N.eqb_refl. cbn [negb].
    rewrite size32_fits, (reads_u32 _ Hl), Nat2N.id by done. rewrite <- (app_nil_r (es ≫= _)). by apply read_entries_exact.
  - intros n Hn. unfold readShardFile. destruct (decide (n < 8)) as [H8|H8].
    { rewrite bool_decide_eq_false_2; [done|]. rewrite length_take. lia. }
    rewrite bool_decide_eq_true_2 by (rewrite length_take; lia). cbn [andb]. unfold writeShardFile, put_list in *.
    rewrite take_app_ge, (take_app_ge (putU32 kShardVersion)) by (rewrite ?length_putU32; lia). rewrite length_putU32, Hm.
    destruct (magic_split magic (putU32 kShardVersion ++ take (n - 4 - 4) (putU32 (size32 es) ++ (es ≫= shard_entry))) Hm) as [-> ->].
    rewrite bool_decide_eq_true_2 by done. cbn [negb]. rewrite (reads_u32 _ Hv), N.eqb_refl. cbn [negb]. rewrite size32_fits by done. rewrite !length_app, !length_putU32 in Hn.
    destruct (decide (n < 12)) as [H12|H12].
    + rewrite take_app_le by (rewrite length_putU32; lia). destruct (read_le_cases 4 (take (n - 4 - 4) (putU32 (N.of_nat (length es))))) as [(v & b & _ & E & _)|[E _]].
      * apply (f_equal length) in E. rewrite length_take, length_app, length_putU32, length_put_le in E. lia.
      * unfold r_u32. by rewrite E.
    + rewrite take_app_ge by (rewrite length_putU32; lia). rewrite (reads_u32 _ Hl), Nat2N.id, length_putU32.
      eapply (read_entries_torn fn step _ _ _ (drop (n - 4 - 4 - 4) (es ≫= shard_entry))); [done|done| |by rewrite take_drop].
      intros E. apply (f_equal length) in E. rewrite length_drop in E. cbn in E. lia.
Qed.

(** Shards of units: an outcome and what the unit contributed. *)
Section UnitShards.
Context {A : Type} (entry_bytes : TuOutcome -> A -> bytes) (read_entry : M (TuOutcome * A)) (magic : bytes).

Definition unit_call (tu payload : bytes) (calls : list (bytes * TuOutcome * A)) : option (list (bytes * TuOutcome * A)) :=
  (fun oa => calls ++ [(tu, oa.1, oa.2)]) <$> decoded read_entry payload.

(** An entry that is read back, with its name and its bytes within the width of a length. *)
Definition unit_ok (ta : bytes * A) (o : TuOutcome) : Prop :=
  len_fits ta.1 /\ len_fits (entry_bytes o ta.2) /\ reads read_entry (entry_bytes o ta.2) (o, ta.2).

Lemma unit_shard_read (tus : list (bytes * A)) (os : list TuOutcome) :
  length magic = 4 -> len_fits tus -> (forall i ta, tus !! i = Some ta -> unit_ok ta (outcomeAt os i)) ->
  let file := writeShardFile magic (imap (fun i ta => (ta.1, entry_bytes (outcomeAt os i) ta.2)) tus) in
  readShardFile unit_call magic (Some file) [] = (imap (fun i ta => (ta.1, outcomeAt os i, ta.2)) tus, true) /\
  forall n, n < length file -> (readShardFile unit_call magic (Some (take n file)) []).2 = false.
Proof.
  intros Hm Hl Hok file. unfold file. clear file. set (es := imap _ tus).
  set (step := fun (calls : list (bytes * TuOutcome * A)) (e : bytes * bytes) =>
    calls ++ from_option (fun oa : TuOutcome * A => [(e.1, oa.1, oa.2)]) [] (decoded read_entry e.2)).
  assert (Hes : forall e, e ∈ es -> exists i ta, tus !! i = Some ta /\ e = (ta.1, entry_bytes (outcomeAt os i) ta.2)).
  { intros e (i & He)%list_elem_of_lookup. unfold es in He. rewrite list_lookup_imap in He. destruct (tus !! i) as [ta|] eqn:E; [|done].
    injection He as <-. by exists i, ta. }
  assert (Hdec : forall i ta, tus !! i = Some ta -> decoded read_entry (entry_bytes (outcomeAt os i) ta.2) = Some (outcomeAt os i, ta.2)).
  { intros i ta Hi. destruct (Hok i ta Hi) as (_ & _ & Hr). by apply decoded_reads. }
  destruct (shard_file_read unit_call step magic es []) as [H1 H2].
  - done.
  - unfold len_fits, es. by rewrite length_imap.
  - apply Forall_forall. intros e He. destruct (Hes e He) as (i & ta & Hi & ->). destruct (Hok i ta Hi) as (? & ? & _). by split.
  - intros st e He. destruct (Hes e He) as (i & ta & Hi & ->). unfold step, unit_call. cbn [fst snd]. by rewrite (Hdec i ta Hi).
  - split; [|done]. rewrite H1. f_equal.
    assert (Hfold : forall calls, foldl step calls es = calls ++ imap (fun i ta => (ta.1, outcomeAt os i, ta.2)) tus); [|apply Hfold].
    unfold es. clear - Hdec. revert Hdec. set (o := fun i => outcomeAt os i). change (outcomeAt os) with o. clearbody o. revert o.
    induction tus as [|ta tus IH]; intros o Hdec calls; [by rewrite app_nil_r|]. cbn [imap foldl]. unfold step at 2. cbn [fst snd].
    rewrite (Hdec 0 ta eq_refl). cbn [from_option fst snd]. rewrite (IH (fun i => o (S i))); [by rewrite <- (assoc_L (++))|].
    intros i ta' Hi. by apply (Hdec (S i)).
Qed.
End UnitShards.

(** The fields of an entry of a shard are within their widths. *)
Definition index_entry_ok (tp : bytes * CheckIndexPayload) (o : TuOutcome) : Prop :=
  len_fits tp.1 /\ payload_fits tp.2 /\ outcome_fits o /\ len_fits (index_entry_bytes o tp.2).

Definition diag_entry_ok (td : bytes * list Diagnostic) (o : TuOutcome) : Prop :=
  len_fits td.1 /\ list_fits diagnostic_fits td.2 /\ outcome_fits o /\ len_fits (diag_entry_bytes o td.2).

(** What a worker hands over is read back whole or not at all: the shard of its units gives
    back every unit's contribution with how its parse ended, in order, a unit without a
    reported outcome as skipped; and a shard cut short at any byte is refused. *)
Theorem index_shard_roundtrip (tus : list (bytes * CheckIndexPayload)) (os : list TuOutcome) :
  len_fits tus -> (forall i tp, tus !! i = Some tp -> index_entry_ok tp (outcomeAt os i)) ->
  readCheckIndexShard (Some (writeCheckIndexShard tus os)) = (imap (fun i tp => (tp.1, outcomeAt os i, tp.2)) tus, true) /\
  forall n, n < length (writeCheckIndexShard tus os) -> (readCheckIndexShard (Some (take n (writeCheckIndexShard tus os)))).2 = false.
Proof.
  intros Hl Hok. apply (unit_shard_read index_entry_bytes read_index_entry kIndexShardMagic tus os); [done|done|].
  intros i tp Hi. destruct (Hok i tp Hi) as (? & ? & ? & ?). split_and!; [done|done|]. unfold read_index_entry, index_entry_bytes. read_fields.
Qed.

Lemma index_shard_roundtrip_witness :
  let tus := [(str "a.cpp", @capture canonical_iter sample_shard); (str "b.cpp", @capture canonical_iter empty_global_index)] in
  readCheckIndexShard (Some (writeCheckIndexShard tus [kCleanParse])) =
    ([(str "a.cpp", kCleanParse, @capture canonical_iter sample_shard);
      (str "b.cpp", MkOutcome Skipped (str "no outcome reported"), @capture canonical_iter empty_global_index)], true) /\
  (readCheckIndexShard (Some (take 100 (writeCheckIndexShard tus [kCleanParse])))).2 = false.
Proof.
  intros tus. destruct (index_shard_roundtrip tus [kCleanParse]) as [H1 H2].
  - vm_compute. reflexivity.
  - intros [|[|i]] tp [= <-]; unfold index_entry_ok; repeat split; repeat constructor; vm_compute; reflexivity.
  - split; [exact H1|]. apply H2. apply Nat.ltb_lt. vm_compute. reflexivity.
Defined.

Lemma diag_shard_roundtrip (tus : list (bytes * list Diagnostic)) (os : list TuOutcome) :
  len_fits tus -> (forall i td, tus !! i = Some td -> diag_entry_ok td (outcomeAt os i)) ->
  readCheckDiagShard (Some (writeCheckDiagShard tus os)) = (imap (fun i td => (td.1, outcomeAt os i, td.2)) tus, true) /\
  forall n, n < length (writeCheckDiagShard tus os) -> (readCheckDiagShard (Some (take n (writeCheckDiagShard tus os)))).2 = false.
Proof.
  intros Hl Hok. apply (unit_shard_read diag_entry_bytes read_diag_entry kDiagShardMagic tus os); [done|done|].
  intros i td Hi. destruct (Hok i td Hi) as (? & ? & ? & ?). split_and!; [done|done|]. unfold read_diag_entry, diag_entry_bytes. read_fields.
Qed.

(** The index handed to the workers of the second phase is absorbed as it is. *)
Lemma global_index_file_roundtrip `{!UnorderedIter} (index into : GlobalIndex) :
  payload_fits (capture index) -> len_fits (encodeIndexPayload (capture index)) ->
  readGlobalIndexFile (Some (writeGlobalIndexFile index)) into = (absorb_index into index, true).
Proof.
  intros Hp Hl. unfold readGlobalIndexFile, writeGlobalIndexFile.
  assert (Hd : decoded decodeIndexPayload (encodeIndexPayload (capture index)) = Some (capture index)) by (by apply decoded_reads, wire_reads).
  destruct (shard_file_read (fun _ payload g => (fun p => applyTo p g) <$> decoded decodeIndexPayload payload)
    (fun g _ => applyTo (capture index) g) kGlobalIndexMagic [(str "<merged>", encodeIndexPayload (capture index))] into) as [-> _].
  - done.
  - done.
  - repeat constructor. done.
  - intros st e ->%list_elem_of_singleton. cbn [fst snd]. by rewrite Hd.
  - by rewrite <- applyTo_capture.
Qed.
