(* ===== verification/DeadCode.v ===== *)
(** Dead-code analysis: src/check/DeadCodeAnalyzer.cpp and its header.

    A search over the call graph marks the functions reachable from the entry points.  The
    pessimistic search follows proven edges; the optimistic one also follows plausible edges,
    a virtual call only once a class that provides the target is constructed in what has been
    reached, so that calls are put aside and looked at again when a class appears.  [Alive]
    and [Built] say, without an order of visits, what the search must find; the proof is that
    it finds exactly that and ends. *)

From S2P Require Import Prelude Utf8 StringInterner CallGraph CallGraphInv CallGraphQuery Ordering Results Upsert GlobalIndex ReachAnalyses.

(** * The search *)

Section Search.
(** What the search asks of the graph: the calls of a function, the enclosing class of a
    node (empty for none) and the classes whose effective implementation a method is. *)
Variable callees : bytes -> list CallGraphEdge.
Variable class_of : bytes -> bytes.
Variable impl_classes : bytes -> list bytes.
Variable includeVirtualPlausible : bool.

(** [constructedClasses], [deferredVirtualEdges] and [changed] beside the set and the queue. *)
Record Walk := MkWalk {
  w_alive : gset bytes;
  w_queue : list bytes;
  w_constructed : gset bytes;
  w_deferred : list bytes;
  w_changed : bool
}.

(** [if (alive.insert(usr).second) queue.push(usr);] *)
Definition mark_alive (usr : bytes) (w : Walk) : Walk :=
  if decide (usr ∈ w_alive w) then w
  else MkWalk ({[usr]} ∪ w_alive w) (w_queue w ++ [usr]) (w_constructed w) (w_deferred w) (w_changed w).

(** The target's class is constructible. *)
Definition constructible (constructed : gset bytes) (usr : bytes) : bool :=
  existsb (fun cls => bool_decide (cls ∈ constructed)) (impl_classes usr) ||
  (bool_decide (class_of usr <> []) && bool_decide (class_of usr ∈ constructed)).

Definition shouldFollowEdge (constructed : gset bytes) (edge : CallGraphEdge) : bool :=
  if decide (e_confidence edge = Proven) then true
  else if negb includeVirtualPlausible then false
  else match e_kind edge with
       | FunctionPointer => true
       | VirtualDispatch => constructible constructed (calleeUsr edge)
       | _ => true
       end.

(** A constructor call makes the class of the constructor constructed. *)
Definition note_construction (edge : CallGraphEdge) (w : Walk) : Walk :=
  if decide (e_kind edge = ConstructorCall) then
    let cls := class_of (calleeUsr edge) in
    if bool_decide (cls <> []) && negb (bool_decide (cls ∈ w_constructed w))
    then MkWalk (w_alive w) (w_queue w) ({[cls]} ∪ w_constructed w) (w_deferred w) true
    else w
  else w.

Definition visit_edge (w : Walk) (edge : CallGraphEdge) : Walk :=
  let w := note_construction edge w in
  if shouldFollowEdge (w_constructed w) edge then mark_alive (calleeUsr edge) w
  else if includeVirtualPlausible && bool_decide (e_kind edge = VirtualDispatch) && bool_decide (e_confidence edge = Plausible)
  then MkWalk (w_alive w) (w_queue w) (w_constructed w) (w_deferred w ++ [calleeUsr edge]) (w_changed w)
  else w.

Definition pop (rest : list bytes) (w : Walk) : Walk := MkWalk (w_alive w) rest (w_constructed w) (w_deferred w) (w_changed w).

(** [while (!queue.empty())] *)
Fixpoint drain (fuel : nat) (w : Walk) : option Walk :=
  match fuel with
  | O => None
  | S fuel' =>
      match w_queue w with
      | [] => Some w
      | current :: rest => drain fuel' (foldl visit_edge (pop rest w) (callees current))
      end
  end.

(** One deferred call; the list is what stays deferred. *)
Definition recheck_one (st : Walk * list bytes) (callee : bytes) : Walk * list bytes :=
  let '(w, still) := st in
  if constructible (w_constructed w) callee then
    if decide (callee ∈ w_alive w) then (w, still)
    else (MkWalk ({[callee]} ∪ w_alive w) (w_queue w ++ [callee]) (w_constructed w) (w_deferred w) true, still)
  else (w, still ++ [callee]).

Definition recheck (w : Walk) : Walk :=
  let '(w', still) := foldl recheck_one (w, []) (w_deferred w) in
  MkWalk (w_alive w') (w_queue w') (w_constructed w') still (w_changed w').

(** [while (changed)], with [inner] the fuel of the inner loop. *)
Fixpoint rounds (fuel inner : nat) (w : Walk) : option Walk :=
  match fuel with
  | O => None
  | S fuel' =>
      if w_changed w then
        w' ← drain inner (MkWalk (w_alive w) (w_queue w) (w_constructed w) (w_deferred w) false);
        rounds fuel' inner (if w_changed w' && includeVirtualPlausible then recheck w' else w')
      else Some w
  end.

Definition start_walk (seeds : list bytes) : Walk := foldl (fun w u => mark_alive u w) (MkWalk ∅ [] ∅ [] true) seeds.

(** [universe] bounds the functions that can be found. *)
Definition bfs_alive (universe : nat) (seeds : list bytes) : option (gset bytes) :=
  w_alive <$> rounds (2 * universe + 2) (S universe) (start_walk seeds).
End Search.

(** * The analyzer *)

Inductive Liveness := LiveAlive | LiveOptimistic | LiveDead.

#[global] Instance Liveness_eq_dec : EqDecision Liveness.
Proof. solve_decision. Defined.

Section Analyzer.
Variable isValidUtf8 : bytes -> bool.
Variable graph : CallGraph.
Variables (entryPoints publicApi : list bytes).

Abbreviation node_of := (findNode isValidUtf8 graph).

Definition node_class (u : bytes) : bytes := match node_of u with Some node => CallGraph.enclosingClass node | None => [] end.

(** [publicApi_] is a [std::set]. *)
Definition api_set : list bytes := merge_sort bytes_le (remove_dups publicApi).

Definition seed_usrs : list bytes := (entryPoints ++ api_set) ≫= usrsForName isValidUtf8 graph.

(** The seeds, and at most every interned string. *)
Definition usr_bound : nat := length seed_usrs + table_size (interner_ graph).

Definition reached (includeVirtualPlausible : bool) : gset bytes :=
  default ∅ (bfs_alive (calleesOf isValidUtf8 graph) node_class (getClassesForImpl isValidUtf8 graph) includeVirtualPlausible usr_bound seed_usrs).

Definition analyzePessimistic : gset bytes := reached false.
Definition analyzeOptimistic : gset bytes := reached true.
End Analyzer.

Definition rank (l : Liveness) : nat := match l with LiveAlive => 2 | LiveOptimistic => 1 | LiveDead => 0 end.

(** [getResults] over the two sets the analyses filled; [nodes] is the order of [allNodes]. *)
Definition node_liveness (pessimistic optimistic : gset bytes) (node : CallGraphNode) : Liveness :=
  if decide (CallGraph.usr node ∈ pessimistic) then LiveAlive else if decide (CallGraph.usr node ∈ optimistic) then LiveOptimistic else LiveDead.

Definition merge_liveness (pessimistic optimistic : gset bytes) (results : gmap bytes Liveness) (node : CallGraphNode) : gmap bytes Liveness :=
  let l := node_liveness pessimistic optimistic node in
  match results !! qualifiedName node with
  | None => <[qualifiedName node := l]> results
  | Some l' => if decide (rank l' < rank l) then <[qualifiedName node := l]> results else results
  end.

Definition getResults (pessimistic optimistic : gset bytes) (nodes : list CallGraphNode) : gmap bytes Liveness :=
  foldl (merge_liveness pessimistic optimistic) ∅ nodes.

Section Diagnostics.
Variable node_of : bytes -> option CallGraphNode.

Definition dead_diagnostic (kv : bytes * Liveness) : option Diagnostic :=
  node ← node_of kv.1;
  if decide (take 1 (CallGraph.file node) = str "<") then None
  else match kv.2 with
       | LiveDead =>
           Some (MkDiagnostic DeadCode_Pessimistic [] (at_line (CallGraph.file node) (CallGraph.line node)) kv.1 [] []
                   (str "Dead code: " ++ kv.1 ++ str " is not reachable from any entry point.") [] [] [])
       | LiveOptimistic =>
           Some (MkDiagnostic DeadCode_Optimistic [] (at_line (CallGraph.file node) (CallGraph.line node)) kv.1 [] []
                   (str "Possibly dead code: " ++ kv.1 ++ str " is only reachable through plausible (not proven) call paths.") [] [] [])
       | LiveAlive => None
       end.

(** [results] in the order the hash map is walked in. *)
Definition getDiagnostics (results : list (bytes * Liveness)) : list Diagnostic := omap dead_diagnostic results.
End Diagnostics.

(** * What is alive *)

Section Spec.
Variable callees : bytes -> list CallGraphEdge.
Variable class_of : bytes -> bytes.
Variable impl_classes : bytes -> list bytes.
Variable optimistic : bool.
Variable seeds : list bytes.

(** [cls] is the class of the target or one whose effective implementation it is. *)
Definition provides (cls target : bytes) : Prop := cls ∈ impl_classes target \/ (cls = class_of target /\ cls <> []).

Inductive Alive : bytes -> Prop :=
| alive_seed u : u ∈ seeds -> Alive u
| alive_proven u e : Alive u -> e ∈ callees u -> e_confidence e = Proven -> Alive (calleeUsr e)
| alive_plausible u e : optimistic = true -> Alive u -> e ∈ callees u -> e_kind e <> VirtualDispatch -> Alive (calleeUsr e)
| alive_virtual u e cls : optimistic = true -> Alive u -> e ∈ callees u -> Built cls -> provides cls (calleeUsr e) -> Alive (calleeUsr e)
with Built : bytes -> Prop :=
| built_by u e : Alive u -> e ∈ callees u -> e_kind e = ConstructorCall -> class_of (calleeUsr e) <> [] -> Built (class_of (calleeUsr e)).

Scheme Alive_mut := Induction for Alive Sort Prop
  with Built_mut := Induction for Built Sort Prop.

Abbreviation buildable := (constructible class_of impl_classes).

Lemma constructible_iff s u : buildable s u = true <-> exists cls, cls ∈ s /\ provides cls u.
Proof.
  unfold constructible, provides. rewrite orb_true_iff, existsb_exists, andb_true_iff, !bool_decide_eq_true. split.
  - intros [(cls & Hin & Hc)|[H1 H2]]; [exists cls; split; [by eapply bool_decide_unpack, Is_true_true|left; by apply list_elem_of_In]|exists (class_of u); auto].
  - intros (cls & Hs & [Hin|[-> Hne]]); [left; exists cls; split; [by apply list_elem_of_In|by apply bool_decide_eq_true]|by right].
Qed.

Lemma constructible_mono s s' u : s ⊆ s' -> buildable s u = true -> buildable s' u = true.
Proof. rewrite !constructible_iff. intros Hs (cls & H & Hp). exists cls. split; [by apply Hs|done]. Qed.

Abbreviation visit := (visit_edge class_of impl_classes optimistic).
Abbreviation follows := (shouldFollowEdge class_of impl_classes optimistic).
Abbreviation noted := (note_construction class_of).

(** The functions that can be found, each named once. *)
Variable universe : list bytes.
Hypothesis Hseeds : forall u, u ∈ seeds -> u ∈ universe.
Hypothesis Hcallees : forall u e, e ∈ callees u -> calleeUsr e ∈ universe.
(** A virtual call has been resolved to proven or plausible targets. *)
Hypothesis Hvirtual : forall u e, e ∈ callees u -> e_kind e = VirtualDispatch -> e_confidence e <> Unknown.

Record walking (w : Walk) : Prop := {
  wk_sound : forall u, u ∈ w_alive w -> Alive u /\ u ∈ universe;
  wk_queue : NoDup (w_queue w) /\ forall u, u ∈ w_queue w -> u ∈ w_alive w;
  wk_built : forall c, c ∈ w_constructed w -> Built c /\ c ∈ class_of <$> universe;
  wk_deferred : forall d, d ∈ w_deferred w -> optimistic = true /\ exists u e, Alive u /\ e ∈ callees u /\ calleeUsr e = d
}.

(** Nothing found so far is lost, and whether a class or a function was added shows. *)
Record later (w w' : Walk) : Prop := {
  lt_alive : w_alive w ⊆ w_alive w';
  lt_constructed : w_constructed w ⊆ w_constructed w';
  lt_deferred : forall d, d ∈ w_deferred w -> d ∈ w_deferred w' \/ d ∈ w_alive w';
  lt_changed : w_changed w = true -> w_changed w' = true;
  lt_quiet : w_changed w' = false -> w_constructed w' = w_constructed w;
  lt_grew : w_changed w = false -> w_changed w' = true -> size (w_constructed w) < size (w_constructed w')
}.

#[local] Instance later_preorder : PreOrder later.
Proof.
  split.
  - intros w. split; auto. congruence.
  - intros a b c [] []. split.
    + set_solver.
    + set_solver.
    + intros d Hd. destruct (lt_deferred0 d Hd) as [H|H]; [by apply lt_deferred1|right; set_solver].
    + auto.
    + intros H. rewrite lt_quiet1 by done. apply lt_quiet0. destruct (w_changed b) eqn:E; [|done]. by rewrite lt_changed1 in H.
    + intros Ha Hc. pose proof (subseteq_size _ _ lt_constructed0). pose proof (subseteq_size _ _ lt_constructed1).
      destruct (w_changed b); [specialize (lt_grew0 Ha eq_refl)|specialize (lt_grew1 eq_refl Hc)]; lia.
Qed.

(** What has been done about a call. *)
Record handled (w : Walk) (e : CallGraphEdge) : Prop := {
  hd_built : e_kind e = ConstructorCall -> class_of (calleeUsr e) <> [] -> class_of (calleeUsr e) ∈ w_constructed w;
  hd_sure : e_confidence e = Proven \/ (optimistic = true /\ e_kind e <> VirtualDispatch) -> calleeUsr e ∈ w_alive w;
  hd_virtual : optimistic = true -> e_kind e = VirtualDispatch -> calleeUsr e ∈ w_alive w \/ calleeUsr e ∈ w_deferred w
}.

Lemma handled_later w w' e : later w w' -> handled w e -> handled w' e.
Proof.
  intros [] []. split; intros.
  - set_solver.
  - set_solver.
  - destruct (hd_virtual0 ltac:(done) ltac:(done)) as [?|Hd]; [left; set_solver|]. destruct (lt_deferred0 _ Hd); auto.
Qed.

(** ** One call *)

Lemma mark_alive_spec u w : walking w -> Alive u -> u ∈ universe ->
  walking (mark_alive u w) /\ later w (mark_alive u w) /\ u ∈ w_alive (mark_alive u w) /\
  w_constructed (mark_alive u w) = w_constructed w /\ w_deferred (mark_alive u w) = w_deferred w /\ w_changed (mark_alive u w) = w_changed w.
Proof.
  intros Hw Ha Hu. unfold mark_alive. case_decide as Hin; [split_and!; done|]. destruct Hw as [Hs [Hn Hq] Hb Hd]. cbn [w_alive w_constructed w_deferred w_changed w_queue].
  split_and!; [split; cbn [w_alive w_constructed w_deferred w_changed w_queue]| |set_solver|done|done|done].
  - intros v [->%elem_of_singleton|Hv]%elem_of_union; auto.
  - split.
    + apply NoDup_app. split_and!; [done| |apply NoDup_singleton]. intros x Hx ->%list_elem_of_singleton. by apply Hin, Hq.
    + intros v [Hv| ->%list_elem_of_singleton]%elem_of_app; set_solver.
  - done.
  - done.
  - split; cbn [w_alive w_constructed w_deferred w_changed]; auto; [set_solver|congruence].
Qed.

Lemma noted_spec u e w : walking w -> Alive u -> e ∈ callees u ->
  walking (noted e w) /\ later w (noted e w) /\ w_alive (noted e w) = w_alive w /\ w_queue (noted e w) = w_queue w /\ w_deferred (noted e w) = w_deferred w /\
  (e_kind e = ConstructorCall -> class_of (calleeUsr e) <> [] -> class_of (calleeUsr e) ∈ w_constructed (noted e w)).
Proof.
  intros Hw Ha He. unfold note_construction. case_decide as Hk; [|split_and!; done].
  destruct (bool_decide (class_of (calleeUsr e) <> []) && negb (bool_decide (class_of (calleeUsr e) ∈ w_constructed w))) eqn:Ec.
  - apply andb_true_iff in Ec as [Hne%bool_decide_eq_true Hnew%negb_true_iff%bool_decide_eq_false]. destruct Hw as [Hs Hq Hb Hd].
    cbn [w_alive w_constructed w_deferred w_changed w_queue].
    split_and!; [split; cbn [w_alive w_constructed w_deferred w_changed w_queue]; auto| |done|done|done|set_solver].
    + intros c [->%elem_of_singleton|Hc]%elem_of_union; [|by apply Hb]. split; [by eapply built_by|]. apply list_elem_of_fmap_2. by eapply Hcallees.
    + split; cbn [w_alive w_constructed w_deferred w_changed]; auto; [set_solver|done|]. rewrite size_union, size_singleton by set_solver. lia.
  - split_and!; [done|done|done|done|done|]. intros _ Hne. apply andb_false_iff in Ec as [H%bool_decide_eq_false|H%negb_false_iff%bool_decide_eq_true]; [tauto|done].
Qed.

(** No deferred call could be followed now. *)
Definition quiet (w : Walk) : Prop := forall d, d ∈ w_deferred w -> buildable (w_constructed w) d = false.
Definition balanced (w w' : Walk) : Prop := size (w_alive w') + length (w_queue w) = size (w_alive w) + length (w_queue w').

Lemma mark_balanced u w : balanced w (mark_alive u w).
Proof.
  unfold balanced, mark_alive. case_decide; cbn [w_alive w_queue]; [done|]. rewrite length_app, size_union, size_singleton by set_solver. cbn. lia.
Qed.

Lemma follows_sound u e w : walking w -> Alive u -> e ∈ callees u -> follows (w_constructed w) e = true -> Alive (calleeUsr e).
Proof.
  intros Hw Ha He. unfold shouldFollowEdge. case_decide as Hp; [intros _; by eapply alive_proven|].
  destruct optimistic eqn:Ho; [|done]. cbn [negb]. destruct (e_kind e) eqn:Hk; intros H; try (by eapply alive_plausible; [done|done|done|congruence]).
  apply constructible_iff in H as (cls & Hc & Hpr). eapply alive_virtual; [done|done|done| |done]. by apply (wk_built w Hw).
Qed.

Lemma visit_spec u e w : walking w -> Alive u -> e ∈ callees u ->
  walking (visit w e) /\ later w (visit w e) /\ handled (visit w e) e /\ balanced w (visit w e) /\
  (w_changed w = true \/ quiet w -> w_changed (visit w e) = true \/ quiet (visit w e)).
Proof.
  intros Hw Ha He. destruct (noted_spec u e w Hw Ha He) as (Hw1 & Hl1 & Hal & Hqu & Hde & Hb1). unfold visit_edge. set (w1 := noted e w) in *.
  assert (HJ : w_changed w = true \/ quiet w -> w_changed w1 = true \/ quiet w1).
  { intros [H|H]; [left; by apply (lt_changed _ _ Hl1)|]. destruct (w_changed w1) eqn:Ec; [by left|]. right. unfold quiet.
    rewrite Hde, (lt_quiet _ _ Hl1 Ec). exact H. }
  assert (Hbal : balanced w w1) by (unfold balanced; rewrite Hal, Hqu; lia).
  destruct (follows (w_constructed w1) e) eqn:Hf.
  - pose proof (follows_sound u e w1 Hw1 Ha He Hf) as Hlive.
    destruct (mark_alive_spec (calleeUsr e) w1 Hw1 Hlive ltac:(by eapply Hcallees)) as (Hw2 & Hl2 & Hin & Hc & Hd & Hch).
    split_and!; [done|by etrans| | |].
    + split; [|by intros; exact Hin|by intros; left]. rewrite Hc. exact Hb1.
    + pose proof (mark_balanced (calleeUsr e) w1). unfold balanced in *. lia.
    + unfold quiet. rewrite Hc, Hd, Hch. exact HJ.
  - assert (Hnp : e_confidence e <> Proven) by (intros Hp; unfold shouldFollowEdge in Hf; by rewrite decide_True in Hf).
    assert (Hnv : optimistic = true -> e_kind e = VirtualDispatch /\ e_confidence e = Plausible /\ buildable (w_constructed w1) (calleeUsr e) = false).
    { intros Ho. unfold shouldFollowEdge in Hf. rewrite decide_False, Ho in Hf by done. cbn [negb] in Hf. destruct (e_kind e) eqn:Hk; try done.
      split_and!; [done| |done]. pose proof (Hvirtual u e He Hk). by destruct (e_confidence e). }
    destruct optimistic eqn:Ho; cbn [andb].
    + destruct (Hnv eq_refl) as (Hk & Hp & Hnb). rewrite !bool_decide_eq_true_2 by done. cbn [andb].
      split_and!.
      * destruct Hw1 as [Hs Hq Hb Hd]. split; cbn [w_alive w_constructed w_deferred w_changed w_queue]; auto.
        intros d [Hin| ->%list_elem_of_singleton]%elem_of_app; [by apply Hd|]. split; [done|]. by exists u, e.
      * etrans; [exact Hl1|]. split; cbn [w_alive w_constructed w_deferred w_changed]; auto; [|congruence]. intros d Hd'. left. apply elem_of_app. by left.
      * split; cbn [w_alive w_constructed w_deferred]; [done|by intros [?|[_ ?]]|]. intros _ _. right. apply elem_of_app. right. left.
      * unfold balanced in *. cbn [w_alive w_queue]. lia.
      * intros HJ0. cbn [w_changed]. destruct (HJ HJ0) as [H|H]; [by left|]. right. intros d [Hin| ->%list_elem_of_singleton]%elem_of_app; [by apply H|done].
    + split_and!; [done|done| |done|done]. split; [done|intros [?|[? _]]; congruence|intros; congruence].
Qed.

Lemma visit_all u es w : walking w -> Alive u -> (forall e, e ∈ es -> e ∈ callees u) ->
  walking (foldl visit w es) /\ later w (foldl visit w es) /\ (forall e, e ∈ es -> handled (foldl visit w es) e) /\ balanced w (foldl visit w es) /\
  (w_changed w = true \/ quiet w -> w_changed (foldl visit w es) = true \/ quiet (foldl visit w es)).
Proof.
  revert w. induction es as [|e es IH]; intros w Hw Ha Hin.
  { cbn [foldl]. split_and!; [done|done|by intros e ?%elem_of_nil|done|done]. }
  cbn [foldl]. destruct (visit_spec u e w Hw Ha ltac:(apply Hin; left)) as (H1 & H2 & H3 & H4 & H5).
  destruct (IH (visit w e) H1 Ha ltac:(intros; apply Hin; by right)) as (I1 & I2 & I3 & I4 & I5).
  split_and!; [done|by etrans| |unfold balanced in *; lia|auto]. intros e' [-> |He']%elem_of_cons; [by eapply handled_later|by apply I3].
Qed.

(** ** The inner loop *)

(** Every call of a function that is no longer queued has been handled. *)
Definition processed (w : Walk) : Prop := forall u, u ∈ w_alive w -> ~ (u ∈ w_queue w) -> forall e, e ∈ callees u -> handled w e.

Lemma listed_size (s : gset bytes) (l : list bytes) : (forall x, x ∈ s -> x ∈ l) -> size s <= length l.
Proof.
  intros H. rewrite <- (list_to_set_elements_L s), size_list_to_set by apply NoDup_elements. apply submseteq_length, NoDup_submseteq; [apply NoDup_elements|].
  intros x Hx. apply H. by apply elem_of_elements.
Qed.

Lemma universe_bound w : walking w -> size (w_alive w) <= length universe /\ size (w_constructed w) <= length universe /\ length (w_queue w) <= size (w_alive w).
Proof.
  intros [Hs [Hn Hq] Hb _]. split_and!.
  - apply listed_size. intros u Hu. by apply Hs.
  - rewrite <- (length_fmap class_of universe). apply listed_size. intros c Hc. by apply Hb.
  - rewrite <- (size_list_to_set (C := gset bytes) (w_queue w)) by done. apply subseteq_size. intros u Hu. apply Hq. by apply elem_of_list_to_set in Hu.
Qed.

Abbreviation draining := (drain callees class_of impl_classes optimistic).

Lemma noted_same e w : w_alive (noted e w) = w_alive w /\ w_queue (noted e w) = w_queue w.
Proof. unfold note_construction. destruct (decide _); [|done]. by destruct (_ && _). Qed.

(** What a call adds to the living is queued. *)
Lemma visit_queue w e u : u ∈ w_alive (visit w e) -> u ∈ w_alive w \/ u ∈ w_queue (visit w e).
Proof.
  unfold visit_edge. destruct (noted_same e w) as [H1 _].
  destruct (follows _ e); [|destruct (_ && _); cbn [w_alive]; rewrite H1; by left]. unfold mark_alive. case_decide; cbn [w_alive w_queue]; rewrite H1; [by left|].
  intros [->%elem_of_singleton|?]%elem_of_union; [right; apply elem_of_app; right; left|by left].
Qed.

Lemma visit_keeps_queue w e u : u ∈ w_queue w -> u ∈ w_queue (visit w e).
Proof.
  unfold visit_edge. destruct (noted_same e w) as [_ H1].
  destruct (follows _ e); [|destruct (_ && _); cbn [w_queue]; by rewrite H1]. unfold mark_alive. case_decide; cbn [w_queue]; rewrite H1; [done|].
  intros Hu. apply elem_of_app. by left.
Qed.

Lemma visits_keep_queue es w u : u ∈ w_queue w -> u ∈ w_queue (foldl visit w es).
Proof. revert w. induction es as [|e es IH]; intros w Hu; [done|]. by apply IH, visit_keeps_queue. Qed.

Lemma visits_queue es w u : u ∈ w_alive (foldl visit w es) -> u ∈ w_alive w \/ u ∈ w_queue (foldl visit w es).
Proof.
  revert w. induction es as [|e es IH]; intros w Hu; [by left|]. cbn [foldl] in *. destruct (IH _ Hu) as [H|H]; [|by right].
  apply visit_queue in H as [H|H]; [by left|]. right. by apply visits_keep_queue.
Qed.

Lemma pop_walking cur rest w : walking w -> w_queue w = cur :: rest -> walking (pop rest w).
Proof.
  intros [Hs [Hn Hq] Hb Hd] E. rewrite E in *. apply NoDup_cons in Hn as [_ Hn]. split; cbn [pop w_alive w_queue w_constructed w_deferred]; auto.
  split; [done|]. intros u Hu. apply Hq. by right.
Qed.

Lemma drain_spec fuel w :
  walking w -> processed w -> w_changed w = true \/ quiet w -> length universe - size (w_alive w) + length (w_queue w) < fuel ->
  exists w', draining fuel w = Some w' /\ walking w' /\ processed w' /\ later w w' /\ w_queue w' = [] /\ (w_changed w' = true \/ quiet w').
Proof.
  revert w. induction fuel as [|fuel IH]; intros w Hw Hp HJ Hfuel; [lia|]. cbn [drain]. destruct (w_queue w) as [|cur rest] eqn:Eq.
  { exists w. split_and!; done. }
  pose proof (pop_walking cur rest w Hw Eq) as Hw0. set (w0 := pop rest w) in *.
  assert (Hcur : cur ∈ w_alive w) by (apply (wk_queue w Hw); rewrite Eq; left).
  destruct (visit_all cur (callees cur) w0 Hw0 (proj1 (wk_sound w Hw cur Hcur)) ltac:(done)) as (H1 & H2 & H3 & H4 & H5).
  set (w1 := foldl visit w0 (callees cur)) in *. assert (Hl : later w w1) by (etrans; [|exact H2]; split; auto; cbn [w0 pop w_changed]; congruence).
  destruct (IH w1) as (w' & Hd & Hw' & Hp' & Hl' & Hq' & HJ').
  - done.
  - intros u Hu Hnq e He. destruct (decide (u = cur)) as [->|Hne]; [by apply H3|]. apply (handled_later w); [done|].
    apply visits_queue in Hu as [Hu|Hu]; [|done]. apply (Hp u); [done| |done]. rewrite Eq. intros [->|Hr]%elem_of_cons; [done|].
    apply Hnq. by apply visits_keep_queue.
  - by apply H5.
  - destruct (universe_bound w1 H1) as (Hb & _ & _). destruct (universe_bound w Hw) as (Hb0 & _ & _). rewrite ?Eq in Hfuel. cbn [length] in Hfuel.
    unfold balanced in H4. cbn [w0 pop w_alive w_queue] in H4. lia.
  - exists w'. split_and!; [done|done|done|by etrans|done|done].
Qed.

(** ** Looking at deferred calls again *)

(** What the loop over deferred calls does to the walk. *)
Record rechecked (w w' : Walk) : Prop := {
  rc_walking : walking w';
  rc_constructed : w_constructed w' = w_constructed w;
  rc_deferred : w_deferred w' = w_deferred w;
  rc_alive : w_alive w ⊆ w_alive w';
  rc_queue : forall u, u ∈ w_queue w -> u ∈ w_queue w';
  rc_new : forall u, u ∈ w_alive w' -> u ∈ w_alive w \/ u ∈ w_queue w';
  rc_changed : w_changed w = true -> w_changed w' = true
}.

Lemma rechecked_refl w : walking w -> rechecked w w.
Proof. intros Hw. split; auto. Qed.

Lemma rechecked_trans a b c : rechecked a b -> rechecked b c -> rechecked a c.
Proof.
  intros [] []. split; [done|congruence|congruence|by etrans|auto| |auto]. intros u Hu. destruct (rc_new1 u Hu) as [H|H]; [|by right].
  destruct (rc_new0 u H) as [H'|H']; [by left|right; auto].
Qed.

Abbreviation recheck_step := (recheck_one class_of impl_classes).

Lemma recheck_one_spec w still d : walking w -> d ∈ w_deferred w ->
  rechecked w (recheck_step (w, still) d).1 /\
  (d ∈ w_alive (recheck_step (w, still) d).1 /\ (recheck_step (w, still) d).2 = still \/
   buildable (w_constructed w) d = false /\ recheck_step (w, still) d = (w, still ++ [d])).
Proof.
  intros Hw Hd. cbn [recheck_one]. destruct (buildable (w_constructed w) d) eqn:Hb; [|split; [by apply rechecked_refl|by right]].
  destruct (wk_deferred w Hw d Hd) as (Ho & u & e & Ha & He & <-). apply constructible_iff in Hb as (cls & Hc & Hp).
  assert (Hlive : Alive (calleeUsr e)) by (eapply alive_virtual; [done|done|done|by apply (wk_built w Hw)|done]).
  pose proof (mark_alive_spec (calleeUsr e) w Hw Hlive ltac:(by eapply Hcallees)) as (Hm & _). unfold mark_alive in Hm.
  case_decide as Hin; cbn [fst snd]; [split; [by apply rechecked_refl|by left]|]. destruct Hm as [M1 M2 M3 M4].
  cbn [w_alive w_queue w_constructed w_deferred] in *. split; [|left; split; [apply elem_of_union; left; by apply elem_of_singleton|done]].
  split; cbn [w_alive w_queue w_constructed w_deferred w_changed]; try done.
  - apply union_subseteq_r.
  - intros u' Hu. apply elem_of_app. by left.
  - intros u' [->%elem_of_singleton|?]%elem_of_union; [right; apply elem_of_app; right; left|by left].
Qed.

Lemma recheck_fold ds w still : walking w -> (forall d, d ∈ ds -> d ∈ w_deferred w) ->
  let st := foldl recheck_step (w, still) ds in
  rechecked w st.1 /\ (forall d, d ∈ ds -> d ∈ w_alive st.1 \/ d ∈ st.2) /\ (forall d, d ∈ still -> d ∈ st.2) /\
  (forall d, d ∈ st.2 -> d ∈ still \/ (d ∈ ds /\ buildable (w_constructed w) d = false)).
Proof.
  revert w still. induction ds as [|d ds IH]; intros w still Hw Hds; cbn [foldl].
  { split_and!; [by apply rechecked_refl|by intros d ?%elem_of_nil|done|by left]. }
  destruct (recheck_one_spec w still d Hw ltac:(apply Hds; left)) as [Hr Hc]. destruct (recheck_step (w, still) d) as [w1 still1]. cbn [fst snd] in *.
  destruct (IH w1 still1 (rc_walking _ _ Hr)) as (I1 & I2 & I3 & I4).
  { intros x Hx. rewrite (rc_deferred _ _ Hr). apply Hds. by right. }
  rewrite (rc_constructed _ _ Hr) in I4. split_and!.
  - by eapply rechecked_trans.
  - intros x [->|Hx]%elem_of_cons; [|by apply I2]. destruct Hc as [[Ha _]|[_ [= -> ->]]]; [left; by apply (rc_alive _ _ I1)|].
    right. apply I3, elem_of_app. right. left.
  - intros x Hx. apply I3. destruct Hc as [[_ ->]|[_ [= -> ->]]]; [done|]. apply elem_of_app. by left.
  - intros x Hx. destruct (I4 x Hx) as [Hx1|[Hx1 Hx2]]; [|right; split; [by right|done]].
    destruct Hc as [[_ ->]|[Hb [= -> ->]]]; [by left|]. apply elem_of_app in Hx1 as [?| ->%list_elem_of_singleton]; [by left|right; split; [left|done]].
Qed.

Abbreviation rechecking := (recheck class_of impl_classes).

Lemma recheck_spec w : walking w -> processed w -> w_queue w = [] ->
  walking (rechecking w) /\ processed (rechecking w) /\ quiet (rechecking w) /\ w_alive w ⊆ w_alive (rechecking w) /\
  w_constructed (rechecking w) = w_constructed w /\ (w_changed w = true -> w_changed (rechecking w) = true).
Proof.
  intros Hw Hp Hq. unfold recheck. destruct (recheck_fold (w_deferred w) w [] Hw ltac:(done)) as (Hr & H1 & _ & H2).
  destruct (foldl recheck_step (w, []) (w_deferred w)) as [w' still]. cbn [fst snd] in *. destruct Hr as [[R1 R2 R3 R4] Rc Rd Ra Rq Rn Rch].
  split_and!; cbn [w_alive w_queue w_constructed w_deferred w_changed].
  - split; cbn [w_alive w_queue w_constructed w_deferred w_changed]; auto. intros d Hd. destruct (H2 d Hd) as [?%elem_of_nil|[Hin _]]; [done|].
    apply R4. by rewrite Rd.
  - intros u Hu Hnq e He. cbn [w_alive w_queue] in *. destruct (Rn u Hu) as [Hu'|Hu']; [|done].
    destruct (Hp u Hu' ltac:(rewrite Hq; apply not_elem_of_nil) e He) as [A1 A2 A3]. split; cbn [w_alive w_constructed w_deferred].
    + rewrite Rc. exact A1.
    + intros H. by apply Ra, A2.
    + intros Ho Hk. destruct (A3 Ho Hk) as [H|H]; [left; by apply Ra|by apply H1].
  - intros d Hd. cbn [w_constructed w_deferred] in *. rewrite Rc. by destruct (H2 d Hd) as [?%elem_of_nil|[_ H]].
  - done.
  - done.
  - done.
Qed.

(** ** The rounds *)

Abbreviation round_loop := (rounds callees class_of impl_classes optimistic).

Lemma rounds_spec fuel w :
  walking w -> processed w -> quiet w -> (w_changed w = false -> w_queue w = []) ->
  (if w_changed w then length universe - size (w_constructed w) + 2 else 1) <= fuel ->
  exists w', round_loop fuel (S (length universe)) w = Some w' /\ walking w' /\ processed w' /\ quiet w' /\ w_queue w' = [] /\ w_alive w ⊆ w_alive w'.
Proof.
  revert w. induction fuel as [|fuel IH]; intros w Hw Hp Hqt Hq Hfuel; [destruct (w_changed w); lia|]. cbn [rounds].
  destruct (w_changed w) eqn:Ec; [|by exists w; split_and!; auto]. set (w0 := MkWalk _ _ _ _ false).
  assert (Hw0 : walking w0) by (destruct Hw; by split).
  assert (Hp0 : processed w0). { intros u Hu Hnq e He. destruct (Hp u Hu Hnq e He). by split. }
  destruct (universe_bound w0 Hw0) as (B1 & B2 & B3).
  destruct (drain_spec (S (length universe)) w0 Hw0 Hp0) as (w1 & Hd & Hw1 & Hp1 & Hl & Hq1 & HJ); [by right|lia|]. rewrite Hd. cbn [mbind option_bind].
  assert (Hsub : w_alive w ⊆ w_alive w1) by apply (lt_alive _ _ Hl).
  assert (Hnext : walking (if w_changed w1 && optimistic then rechecking w1 else w1) /\ processed (if w_changed w1 && optimistic then rechecking w1 else w1) /\
    quiet (if w_changed w1 && optimistic then rechecking w1 else w1) /\ w_alive w1 ⊆ w_alive (if w_changed w1 && optimistic then rechecking w1 else w1) /\
    w_constructed (if w_changed w1 && optimistic then rechecking w1 else w1) = w_constructed w1 /\
    (w_changed (if w_changed w1 && optimistic then rechecking w1 else w1) = w_changed w1) /\
    (w_changed w1 = false -> w_queue (if w_changed w1 && optimistic then rechecking w1 else w1) = [])).
  { destruct (w_changed w1) eqn:E1; cbn [andb]; [destruct optimistic eqn:Eo|].
    - destruct (recheck_spec w1 Hw1 Hp1 Hq1) as (R1 & R2 & R3 & R4 & R5 & R6). split_and!; auto. done.
    - split_and!; auto. intros d Hd'. destruct (wk_deferred w1 Hw1 d Hd') as [? _]. congruence.
    - split_and!; auto. by destruct HJ. }
  destruct Hnext as (N1 & N2 & N3 & N4 & N5 & N6 & N7). set (w2 := if w_changed w1 && optimistic then rechecking w1 else w1) in *.
  destruct (IH w2 N1 N2 N3) as (w' & Hr & R1 & R2 & R3 & R4 & R5).
  - rewrite N6. exact N7.
  - rewrite N6, N5. destruct (w_changed w1) eqn:E1; [|lia]. pose proof (lt_grew _ _ Hl eq_refl E1) as Hg. cbn [w0 w_constructed] in Hg.
    destruct (universe_bound w1 Hw1) as (_ & B & _). lia.
  - exists w'. split_and!; [done|done|done|done|done|]. etrans; [exact Hsub|]. by etrans.
Qed.

Lemma start_spec l w : walking w -> (forall u, u ∈ l -> u ∈ seeds) ->
  let w' := foldl (fun w u => mark_alive u w) w l in
  walking w' /\ w_alive w ⊆ w_alive w' /\ (forall u, u ∈ l -> u ∈ w_alive w') /\ w_constructed w' = w_constructed w /\ w_deferred w' = w_deferred w /\
  w_changed w' = w_changed w /\ ((forall u, u ∈ w_alive w -> u ∈ w_queue w) -> forall u, u ∈ w_alive w' -> u ∈ w_queue w').
Proof.
  revert w. induction l as [|s l IH]; intros w Hw Hl; cbn [foldl].
  { split_and!; try done. by intros u ?%elem_of_nil. }
  assert (Hs : s ∈ seeds) by (apply Hl; left).
  destruct (mark_alive_spec s w Hw (alive_seed s Hs) (Hseeds s Hs)) as (H1 & H2 & H3 & H4 & H5 & H6).
  destruct (IH (mark_alive s w) H1 ltac:(intros; apply Hl; by right)) as (I1 & I2 & I3 & I4 & I5 & I6 & I7). split_and!; try congruence.
  - etrans; [apply (lt_alive _ _ H2)|done].
  - intros u [->|Hu]%elem_of_cons; [by apply I2|by apply I3].
  - intros Hq. apply I7. intros u. unfold mark_alive. case_decide; cbn [w_alive w_queue]; [apply Hq|].
    intros [->%elem_of_singleton|Hu]%elem_of_union; apply elem_of_app; [right; left|left; by apply Hq].
Qed.

(** The search ends, and finds what is alive. *)
Lemma bfs_alive_exact : exists s, bfs_alive callees class_of impl_classes optimistic (length universe) seeds = Some s /\ forall u, u ∈ s <-> Alive u.
Proof.
  set (w0 := MkWalk ∅ [] ∅ [] true).
  assert (Hw0 : walking w0) by (split; cbn; [set_solver|split; [constructor|by intros u ?%elem_of_nil]|set_solver|by intros u ?%elem_of_nil]).
  destruct (start_spec seeds w0 Hw0 ltac:(done)) as (S1 & _ & S3 & S4 & S5 & S6 & S7). change (foldl _ w0 seeds) with (start_walk seeds) in *.
  assert (Hall : forall u, u ∈ w_alive (start_walk seeds) -> u ∈ w_queue (start_walk seeds)) by (apply S7; set_solver).
  destruct (rounds_spec (2 * length universe + 2) (start_walk seeds) S1) as (w & Hr & R1 & R2 & R3 & R4 & R5).
  - intros u Hu Hnq. by apply Hall in Hu.
  - intros d. rewrite S5. by intros ?%elem_of_nil.
  - by rewrite S6.
  - rewrite S6. cbn. lia.
  - unfold bfs_alive. rewrite Hr. cbn. eexists. split; [done|]. intros u. split; [intros H; apply (wk_sound w R1 u H)|]. intros Ha.
    revert u Ha. apply (Alive_mut (fun u _ => u ∈ w_alive w) (fun c _ => c ∈ w_constructed w)).
    + intros u Hu. by apply R5, S3.
    + intros u e _ Hu He Hp. apply (hd_sure w e); [|by left]. apply (R2 u Hu); [rewrite R4; apply not_elem_of_nil|done].
    + intros u e Ho _ Hu He Hk. apply (hd_sure w e); [|by right]. apply (R2 u Hu); [rewrite R4; apply not_elem_of_nil|done].
    + intros u e cls Ho _ Hu He _ Hc Hp. pose proof (R2 u Hu ltac:(rewrite R4; apply not_elem_of_nil) e He) as [_ A2 A3].
      destruct (decide (e_kind e = VirtualDispatch)) as [Hk|Hk]; [|by apply A2; right]. destruct (A3 Ho Hk) as [H|H]; [done|]. exfalso.
      pose proof (R3 _ H) as Hb. assert (buildable (w_constructed w) (calleeUsr e) = true) by (apply constructible_iff; eauto). congruence.
    + intros u e _ Hu He Hk Hne. apply (hd_built w e); [|done|done]. apply (R2 u Hu); [rewrite R4; apply not_elem_of_nil|done].
Qed.
End Spec.

(** * The analyses of a graph *)

Lemma alive_mono callees class_of impl_classes seeds u :
  Alive callees class_of impl_classes false seeds u -> Alive callees class_of impl_classes true seeds u.
Proof.
  revert u. apply (Alive_mut _ _ _ _ _ (fun u _ => Alive callees class_of impl_classes true seeds u)
    (fun c _ => Built callees class_of impl_classes true seeds c)); try done.
  - intros u Hu. by apply alive_seed.
  - intros u e _ Hu He Hp. by eapply alive_proven.
  - intros u e _ Hu He Hk Hne. by eapply built_by.
Qed.

(** Virtual calls are registered as proven or plausible, as the builder does. *)
Definition virtual_resolved (graph : CallGraph) : Prop := Forall (fun se => s_kind se = VirtualDispatch -> s_confidence se <> Unknown) (edges_ graph).

#[global] Instance virtual_resolved_dec graph : Decision (virtual_resolved graph).
Proof. unfold virtual_resolved. apply _. Defined.

Section Analyses.
Variables (isValidUtf8 : bytes -> bool) (graph : CallGraph) (entryPoints publicApi : list bytes).
Hypothesis Hgraph : cg_ok graph.
Hypothesis Hresolved : virtual_resolved graph.

Definition alive_in (optimistic : bool) : bytes -> Prop :=
  Alive (calleesOf isValidUtf8 graph) (node_class isValidUtf8 graph) (getClassesForImpl isValidUtf8 graph) optimistic
    (seed_usrs isValidUtf8 graph entryPoints publicApi).

Lemma callee_interned u e : e ∈ calleesOf isValidUtf8 graph u -> calleeUsr e ∈ strings_ (interner_ graph).
Proof.
  unfold calleesOf. intros (id & (r & -> & Hr)%list_elem_of_fmap & _)%list_elem_of_bind. cbn [materialize calleeUsr].
  destruct (calleeRefsOf_spec graph id Hgraph) as [Hs _]. destruct (Hs r Hr) as [Hsh _].
  destruct (shown_known graph r Hgraph Hsh) as (_ & [s Hk] & _). unfold resolve. rewrite Hk. cbn. by eapply list_elem_of_lookup_2.
Qed.

Lemma callee_resolved u e : e ∈ calleesOf isValidUtf8 graph u -> e_kind e = VirtualDispatch -> e_confidence e <> Unknown.
Proof.
  unfold calleesOf. intros (id & (r & -> & Hr)%list_elem_of_fmap & _)%list_elem_of_bind. cbn [materialize e_kind e_confidence].
  destruct (calleeRefsOf_spec graph id Hgraph) as [Hs _]. destruct (Hs r Hr) as [(i & se & Hi & _ & Hsh) _].
  pose proof (Forall_lookup_1 _ _ _ _ Hresolved Hi) as Hse. cbn beta in Hse. destruct Hsh as [Hk|v Hk Hp _|v Hk _]; cbn [ref_of retarget r_kind r_confidence]; auto.
  unfold return_kind. by destruct (s_execContext se).
Qed.

Lemma reached_exact optimistic u : u ∈ reached isValidUtf8 graph entryPoints publicApi optimistic <-> alive_in optimistic u.
Proof.
  destruct (bfs_alive_exact (calleesOf isValidUtf8 graph) (node_class isValidUtf8 graph) (getClassesForImpl isValidUtf8 graph) optimistic
    (seed_usrs isValidUtf8 graph entryPoints publicApi) (seed_usrs isValidUtf8 graph entryPoints publicApi ++ strings_ (interner_ graph))) as (s & Hs & Hex).
  - intros v Hv. apply elem_of_app. by left.
  - intros v e He. apply elem_of_app. right. by eapply callee_interned.
  - exact callee_resolved.
  - unfold reached. rewrite length_app in Hs. change (length (strings_ (interner_ graph))) with (table_size (interner_ graph)) in Hs.
    unfold usr_bound. rewrite Hs. apply Hex.
Qed.
End Analyses.

(** ** Verdicts by name *)

Definition named (nodes : list CallGraphNode) (name : bytes) (P : CallGraphNode -> Prop) : Prop :=
  exists node, node ∈ nodes /\ qualifiedName node = name /\ P node.

(** The most alive verdict among the nodes of a name. *)
Definition best_of (pess opt : gset bytes) (nodes : list CallGraphNode) (name : bytes) (l : Liveness) : Prop :=
  named nodes name (fun node => node_liveness pess opt node = l) /\
  forall node, node ∈ nodes -> qualifiedName node = name -> rank (node_liveness pess opt node) <= rank l.

Lemma getResults_best pess opt nodes name :
  match getResults pess opt nodes !! name with
  | Some l => best_of pess opt nodes name l
  | None => forall node, node ∈ nodes -> qualifiedName node <> name
  end.
Proof.
  unfold getResults. induction nodes as [|node nodes IH] using rev_ind; [cbn [foldl]; rewrite lookup_empty; by intros node ?%elem_of_nil|].
  rewrite foldl_app. cbn [foldl]. set (m := foldl (merge_liveness pess opt) ∅ nodes) in *. unfold merge_liveness.
  destruct (decide (qualifiedName node = name)) as [Hn|Hn].
  - destruct (m !! qualifiedName node) as [l'|] eqn:El.
    + rewrite Hn in El. rewrite El in IH. destruct IH as [(nd & Hin & Hq & Hl) Hmax].
      destruct (decide (rank l' < rank (node_liveness pess opt node))) as [Hlt|Hge].
      * rewrite Hn, lookup_insert_eq. split; [exists node; split_and!; [apply elem_of_app; right; left|done|done]|].
        intros nd' [Hin'| ->%list_elem_of_singleton]%elem_of_app Hq'; [|done]. specialize (Hmax nd' Hin' Hq'). lia.
      * rewrite El. split; [exists nd; split_and!; [apply elem_of_app; by left|done|done]|].
        intros nd' [Hin'| ->%list_elem_of_singleton]%elem_of_app Hq'; [by apply Hmax|lia].
    + rewrite Hn, lookup_insert_eq. rewrite Hn in El. rewrite El in IH. split; [exists node; split_and!; [apply elem_of_app; right; left|done|done]|].
      intros nd' [Hin'| ->%list_elem_of_singleton]%elem_of_app Hq'; [|done]. by destruct (IH nd' Hin').
  - assert (E : forall v, (<[qualifiedName node := v]> m) !! name = m !! name) by (intros; by rewrite lookup_insert_ne).
    assert (Hm : match m !! qualifiedName node with Some l' => if decide (rank l' < rank (node_liveness pess opt node)) then <[qualifiedName node := node_liveness pess opt node]> m else m
                 | None => <[qualifiedName node := node_liveness pess opt node]> m end !! name = m !! name) by (destruct (m !! qualifiedName node); [case_decide|]; auto).
    rewrite Hm. destruct (m !! name) as [l|].
    + destruct IH as [(nd & Hin & Hq & Hl) Hmax]. split; [exists nd; split_and!; [apply elem_of_app; by left|done|done]|].
      intros nd' [Hin'| ->%list_elem_of_singleton]%elem_of_app Hq'; [by apply Hmax|done].
    + intros nd' [Hin'| ->%list_elem_of_singleton]%elem_of_app; [by apply IH|done].
Qed.

(** C8. The liveness of a name is what the program's call graph says: [Alive] when some function
    of that name is reached over proven calls, [OptimisticallyAlive] when none is but one is
    reached over calls that are plausible, virtual calls only into classes constructed in code
    that is itself reached, and [Dead] when the name has functions and none is reached; a
    name without functions has no verdict.  The search that decides it ends. *)
Theorem liveness_exact (isValidUtf8 : bytes -> bool) (graph : CallGraph) (entryPoints publicApi : list bytes) (nodes : list CallGraphNode) (name : bytes) :
  cg_ok graph -> virtual_resolved graph ->
  let proven node := alive_in isValidUtf8 graph entryPoints publicApi false (CallGraph.usr node) in
  let plausible node := alive_in isValidUtf8 graph entryPoints publicApi true (CallGraph.usr node) in
  match getResults (analyzePessimistic isValidUtf8 graph entryPoints publicApi) (analyzeOptimistic isValidUtf8 graph entryPoints publicApi) nodes !! name with
  | Some LiveAlive => named nodes name proven
  | Some LiveOptimistic => named nodes name plausible /\ ~ named nodes name proven
  | Some LiveDead => named nodes name (fun _ => True) /\ ~ named nodes name plausible
  | None => ~ named nodes name (fun _ => True)
  end.
Proof.
  intros Hg Hv proven plausible. pose proof (reached_exact isValidUtf8 graph entryPoints publicApi Hg Hv) as Hex.
  pose proof (getResults_best (analyzePessimistic isValidUtf8 graph entryPoints publicApi) (analyzeOptimistic isValidUtf8 graph entryPoints publicApi) nodes name) as Hbest.
  assert (Hrank : forall node, match node_liveness (analyzePessimistic isValidUtf8 graph entryPoints publicApi) (analyzeOptimistic isValidUtf8 graph entryPoints publicApi) node with
    | LiveAlive => proven node | LiveOptimistic => plausible node /\ ~ proven node | LiveDead => ~ plausible node /\ ~ proven node end).
  { intros node. unfold node_liveness, analyzePessimistic, analyzeOptimistic, proven, plausible. 
    destruct (decide (_ ∈ reached _ _ _ _ false)); [by rewrite <- Hex|]. destruct (decide (_ ∈ reached _ _ _ _ true)); by rewrite <- !Hex. }
  destruct (getResults _ _ nodes !! name) as [l|]; [|intros (node & Hin & Hq & _); by apply (Hbest node)].
  destruct Hbest as [(node & Hin & Hq & Hl) Hmax]. pose proof (Hrank node) as Hr. rewrite Hl in Hr.
  destruct l.
  - by exists node.
  - split; [exists node; tauto|]. intros (nd & Hin' & Hq' & Hp). specialize (Hmax nd Hin' Hq'). specialize (Hrank nd).
    destruct (node_liveness _ _ nd); cbn in Hmax; [lia|tauto|tauto].
  - split; [by exists node|]. intros (nd & Hin' & Hq' & Hp). specialize (Hmax nd Hin' Hq'). specialize (Hrank nd).
    destruct (node_liveness _ _ nd); cbn in Hmax; [lia|lia|tauto].
Qed.

(** [main] constructs a [D] and calls [Base::f], which [D::f] overrides. *)
Definition live_graph : CallGraph :=
  build [AddMethodOverride (str "Base::f") (str "D::f");
         AddNode (MkNode (str "main") (str "m.cpp") 1 true false [] []) (str "m.cpp");
         AddNode (MkNode (str "D::D") (str "m.cpp") 2 false false (str "D") []) (str "m.cpp");
         AddNode (MkNode (str "D::f") (str "m.cpp") 3 false true (str "D") []) (str "m.cpp");
         AddNode (MkNode (str "Base::f") (str "m.cpp") 4 false true (str "Base") []) (str "m.cpp");
         AddEdge (virtual_call (str "main") (str "Base::f") (str "m.cpp:5:1")) [];
         AddEdge (MkEdge (str "main") (str "D::D") ConstructorCall Proven (str "m.cpp:6:1") 0 Synchronous [] []) []] empty_graph.

Definition live_nodes : list CallGraphNode := snd <$> map_to_list (nodes_ live_graph).

Definition live_results : gmap bytes Liveness :=
  getResults (analyzePessimistic (fun _ => true) live_graph [str "main"] []) (analyzeOptimistic (fun _ => true) live_graph [str "main"] []) live_nodes.

Example live_verdicts : (fun n => live_results !! str n) <$> ["main"; "D::D"; "D::f"; "Base::f"; "g"]%string =
  [Some LiveAlive; Some LiveAlive; Some LiveOptimistic; Some LiveDead; None].
Proof. vm_compute. reflexivity. Qed.

Lemma liveness_exact_witness :
  named live_nodes (str "D::f") (fun node => alive_in (fun _ => true) live_graph [str "main"] [] true (CallGraph.usr node)) /\
  ~ named live_nodes (str "Base::f") (fun node => alive_in (fun _ => true) live_graph [str "main"] [] true (CallGraph.usr node)).
Proof.
  assert (Hok : cg_ok live_graph) by (apply build_ok; vm_compute; discriminate). assert (Hr : virtual_resolved live_graph) by by_computation.
  pose proof (liveness_exact (fun _ => true) live_graph [str "main"] [] live_nodes (str "D::f") Hok Hr) as H1.
  pose proof (liveness_exact (fun _ => true) live_graph [str "main"] [] live_nodes (str "Base::f") Hok Hr) as H2. cbv zeta in H1, H2.
  fold live_results in H1, H2. replace (live_results !! str "D::f") with (Some LiveOptimistic) in H1 by (vm_compute; reflexivity).
  replace (live_results !! str "Base::f") with (Some LiveDead) in H2 by (vm_compute; reflexivity). tauto.
Defined.

(** The order of calls matters when a virtual call has no known confidence: such a call is
    looked at once and never put aside. *)
Example unknown_virtual_call_is_lost :
  let call k c callee := MkEdge (str "m") callee k c (str "s") 0 Synchronous (str "m") callee in
  let v := call VirtualDispatch Unknown (str "f") in
  let c := call ConstructorCall Proven (str "D") in
  let class_of u := if decide (u = str "m") then [] else str "D" in
  let run es := bfs_alive (fun u => if decide (u = str "m") then es else []) class_of (fun _ => []) true 9 [str "m"] in
  run [v; c] = Some {[str "m"; str "D"]} /\ run [c; v] = Some {[str "m"; str "D"; str "f"]}.
Proof. vm_compute. split; reflexivity. Qed.
