(* ===== verification/DeadCodeTool.v ===== *)
(** The analyze_dead_code tool (src/query/DeadCodeTools.cpp): filters and pages the liveness
    of every name, and keeps answers in the cache of the adapter (QueryCache in
    include/vycor/query/Tools.h).

    [int64_t] sums are checked: a request whose window is no [int64_t] has no answer, since
    signed overflow is undefined. *)

From S2P Require Import Prelude Registrations Utf8 StringInterner CallGraph CallGraphInv CallGraphQuery Ordering Query Text Results SortedMap PatchMapping PatchParse Upsert GlobalIndex ReachAnalyses DeadCode.

(** * The request *)

Definition system_prefixes : list bytes :=
  str <$> ["/usr/include/"; "/usr/lib/"; "/usr/local/include/"; "/usr/local/lib/"; "/Library/Developer/"; "/Applications/Xcode"; "/opt/homebrew/"]%string.

Definition isSystemPath (path : bytes) : bool :=
  if decide (path = []) then false
  else existsb (starts_with path) system_prefixes ||
       contains path (str "/lib/clang/") || contains path (str "/lib/gcc/") || contains path (str ".sdk/usr/include/") || contains path (str "/include/c++/").

Record DeadRequest := MkDeadRequest {
  dr_entryPoints : list bytes;
  dr_includeOptimistic : bool;
  dr_includeSystem : bool;
  dr_namePrefix : bytes;
  dr_filePrefix : bytes;
  dr_limit : Z;
  dr_offset : Z
}.

Definition parse_dead_request (args : JsonArgs) (ctxEntryPoints : list bytes) : DeadRequest :=
  let eps := match getArray args (str "entry_points") with Some l => omap id l | None => [] end in
  MkDeadRequest (if decide (eps = []) then ctxEntryPoints else eps) (default true (getBoolean args (str "include_optimistic")))
    (default false (getBoolean args (str "include_system"))) (default [] (getString args (str "name_prefix")))
    (default [] (getString args (str "file_prefix"))) (Z.max 0 (default 500%Z (getInteger args (str "limit"))))
    (Z.max 0 (default 0%Z (getInteger args (str "offset")))).

(** [std::to_string] of an [int64_t]. *)
Definition to_string_Z (z : Z) : bytes := if (z <? 0)%Z then str "-" ++ to_string (Z.to_N (- z)) else to_string (Z.to_N z).

Definition bit (b : bool) : bytes := if b then str "1" else str "0".

Definition entry_list_text (eps : list bytes) : bytes := eps ≫= fun ep => str "|" ++ ep.

(** [fullKey] and [cacheKey] *)
Definition json_key (r : DeadRequest) : bytes :=
  str "dead_code_json|" ++ bit (dr_includeOptimistic r) ++ bit (dr_includeSystem r) ++ str "|" ++ dr_namePrefix r ++ str "|" ++ dr_filePrefix r ++
  str "|" ++ to_string_Z (dr_limit r) ++ str "|" ++ to_string_Z (dr_offset r) ++ entry_list_text (dr_entryPoints r).

Definition liveness_key (r : DeadRequest) : bytes := str "dead_code|" ++ bit (dr_includeOptimistic r) ++ entry_list_text (dr_entryPoints r).

(** * The answer *)

Record DeadEntry := MkDeadEntry { de_name : bytes; de_node : option CallGraphNode }.

Definition entry_key (e : DeadEntry) : bytes := match de_node e with Some n => CallGraph.usr n | None => de_name e end.
Definition entry_place (e : DeadEntry) : bytes * N * bytes :=
  (match de_node e with Some n => CallGraph.file n | None => [] end, match de_node e with Some n => CallGraph.line n | None => 0%N end, entry_key e).

Definition byLocation (a b : DeadEntry) : bool := ltb_of (site_cmp (entry_place a) (entry_place b)).

Definition entry_json (e : DeadEntry) : json :=
  JObj (obj_of ((str "name", JStr (de_name e)) ::
    match de_node e with
    | Some n => [(str "file", JStr (CallGraph.file n)); (str "line", JInt (Z.of_N (CallGraph.line n))); (str "usr", JStr (CallGraph.usr n))]
    | None => []
    end)).

Definition passesFilter (r : DeadRequest) (e : DeadEntry) : bool :=
  negb (negb (dr_includeSystem r) && match de_node e with Some n => isSystemPath (CallGraph.file n) | None => false end) &&
  (bool_decide (dr_namePrefix r = []) || starts_with (de_name e) (dr_namePrefix r)) &&
  (bool_decide (dr_filePrefix r = []) || match de_node e with Some n => starts_with (CallGraph.file n) (dr_filePrefix r) | None => false end).

(** An [int64_t] sum, none where it overflows. *)
Definition add64 (a b : Z) : option Z := if decide (int64 (a + b)%Z) then Some (a + b)%Z else None.

#[global] Instance int64_dec z : Decision (int64 z).
Proof. unfold int64. apply _. Defined.

(** [start = min(offset, total); end = min(start + limit, total)] *)
Definition dead_window (r : DeadRequest) (total : Z) : option (Z * Z) :=
  let start := Z.min (dr_offset r) total in
  e ← add64 start (dr_limit r); Some (start, Z.min e total).

Definition in_window {A} (w : Z * Z) (l : list A) : list A := take (Z.to_nat (w.2 - w.1)) (drop (Z.to_nat w.1) l).

Section Tool.
Context `{!StdSort}.
Variable node_of : bytes -> option CallGraphNode.
(** The order the results map is walked in. *)
Variable results_order : gmap bytes Liveness -> list (bytes * Liveness).

Definition entries_with (l : Liveness) (results : gmap bytes Liveness) : list DeadEntry :=
  (fun kv => MkDeadEntry kv.1 (node_of kv.1)) <$> filter (fun kv => kv.2 = l) (results_order results).

Definition listed_entries (r : DeadRequest) (l : Liveness) (results : gmap bytes Liveness) : list DeadEntry :=
  std_sort byLocation (filter (fun e => passesFilter r e = true) (entries_with l results)).

Definition dead_answer (r : DeadRequest) (results : gmap bytes Liveness) : option json :=
  let optimisticAll := listed_entries r LiveOptimistic results in
  let deadAll := listed_entries r LiveDead results in
  let totalOptimistic := Z.of_nat (length optimisticAll) in
  let totalDead := Z.of_nat (length deadAll) in
  ow ← dead_window r totalOptimistic;
  dw ← dead_window r totalDead;
  let deadTruncated := (dw.2 <? totalDead)%Z in
  let optimisticTruncated := (ow.2 <? totalOptimistic)%Z in
  next ← (if (0 <? dr_limit r)%Z && (deadTruncated || optimisticTruncated) then n ← add64 (dr_offset r) (dr_limit r); Some [(str "nextOffset", JInt n)] else Some []);
  Some (JObj (obj_of ([
    (str "totalFunctions", JInt (Z.of_nat (size results)));
    (str "aliveCount", JInt (Z.of_nat (length (entries_with LiveAlive results))));
    (str "optimisticallyAliveCount", JInt (Z.of_nat (length (entries_with LiveOptimistic results))));
    (str "totalDead", JInt totalDead);
    (str "deadCount", JInt (Z.of_nat (length (in_window dw deadAll))));
    (str "offset", JInt (dr_offset r)); (str "limit", JInt (dr_limit r));
    (str "truncated", JBool (deadTruncated || optimisticTruncated));
    (str "total", JInt totalDead); (str "returned", JInt (dw.2 - dw.1))] ++ next ++ [
    (str "optimisticTotal", JInt totalOptimistic); (str "optimisticTruncated", JBool optimisticTruncated);
    (str "dead", JArr (entry_json <$> in_window dw deadAll));
    (str "optimisticallyAlive", JArr (entry_json <$> in_window ow optimisticAll))]))).

(** The analysis behind the answer: the map of the entry points and the optimistic flag. *)
Variable liveness_of : list bytes -> bool -> gmap bytes Liveness.

(** [QueryCache]: [byKey] and the liveness maps of [objects]. *)
Record QueryCache := MkCache { byKey : gmap bytes json; objects : gmap bytes (gmap bytes Liveness) }.

Definition handleAnalyzeDeadCode (r : DeadRequest) (cache : option QueryCache) : option (json * option QueryCache) :=
  match cache with
  | None => (fun v => (v, None)) <$> dead_answer r (liveness_of (dr_entryPoints r) (dr_includeOptimistic r))
  | Some c =>
      match byKey c !! json_key r with
      | Some v => Some (v, Some c)
      | None =>
          let results := default (liveness_of (dr_entryPoints r) (dr_includeOptimistic r)) (objects c !! liveness_key r) in
          let objects' := match objects c !! liveness_key r with Some _ => objects c | None => <[liveness_key r := results]> (objects c) end in
          (fun v => (v, Some (MkCache (<[json_key r := v]> (byKey c)) objects'))) <$> dead_answer r results
      end
  end.
End Tool.

(** [analyzer.getResults()] of the tool's run; without the optimistic analysis its set is empty. *)
Definition tool_liveness `{!UnorderedIter} (isValidUtf8 : bytes -> bool) (graph : CallGraph) (entryPoints : list bytes) (includeOptimistic : bool) :
    gmap bytes Liveness :=
  getResults (analyzePessimistic isValidUtf8 graph entryPoints [])
    (if includeOptimistic then analyzeOptimistic isValidUtf8 graph entryPoints [] else ∅) (snd <$> map_iter (nodes_ graph)).

(** * Keys *)

Definition plain (s : bytes) : Prop := ~ (Byte.x7c ∈ s).

Lemma cut_plain a b x y : plain a -> plain b -> a ++ Byte.x7c :: x = b ++ Byte.x7c :: y -> a = b /\ x = y.
Proof.
  unfold plain. revert b. induction a as [|c a IH]; intros [|d b] Ha Hb E; cbn in E; [by injection E| | |].
  - injection E as <- _. exfalso. apply Hb. left.
  - injection E as -> _. exfalso. apply Ha. left.
  - injection E as -> E. destruct (IH b) as [-> ->]; [set_solver|set_solver|done|done].
Qed.

Lemma cut_entries eps eps' a b : plain a -> plain b -> Forall plain eps -> Forall plain eps' ->
  a ++ entry_list_text eps = b ++ entry_list_text eps' -> a = b /\ eps = eps'.
Proof.
  unfold entry_list_text. revert eps' a b. induction eps as [|e eps IH]; intros [|e' eps'] a b Ha Hb He He' E; rewrite ?bind_cons in E.
  - change ([] ≫= _) with (@nil Byte.byte) in E. by rewrite !app_nil_r in E.
  - change ([] ≫= _) with (@nil Byte.byte) in E. rewrite app_nil_r in E. exfalso. apply Ha. rewrite E. apply elem_of_app. right. left.
  - change ([] ≫= _) with (@nil Byte.byte) in E. rewrite app_nil_r in E. exfalso. apply Hb. rewrite <- E. apply elem_of_app. right. left.
  - change (str "|" ++ ?x) with (Byte.x7c :: x) in E. cbn [app] in E. apply Forall_cons in He as [H1 H2], He' as [H3 H4].
    apply cut_plain in E as [-> E]; [|done|done]. apply IH in E as [-> ->]; done.
Qed.

Lemma plain_number z : plain (to_string_Z z).
Proof.
  unfold plain, to_string_Z. destruct (z <? 0)%Z; [|by apply to_string_no]. intros [H|H]%elem_of_app; [revert H; by_computation|by revert H; apply to_string_no].
Qed.

Lemma to_string_Z_inj a b : (0 <= a)%Z -> (0 <= b)%Z -> to_string_Z a = to_string_Z b -> a = b.
Proof.
  intros Ha Hb. unfold to_string_Z. rewrite !(proj2 (Z.ltb_ge _ _)) by done. intros E%to_string_inj. lia.
Qed.

(** A request whose texts have no separator in them, with the limits the tool reads. *)
Definition plain_request (r : DeadRequest) : Prop :=
  plain (dr_namePrefix r) /\ plain (dr_filePrefix r) /\ Forall plain (dr_entryPoints r) /\ (0 <= dr_limit r)%Z /\ (0 <= dr_offset r)%Z.

#[global] Instance plain_request_dec r : Decision (plain_request r).
Proof. unfold plain_request, plain. apply _. Defined.

Lemma bit_head b b' x y : bit b ++ x = bit b' ++ y -> b = b' /\ x = y.
Proof. by destruct b, b'; cbn; intros [=]. Qed.

Lemma json_key_inj r r' : plain_request r -> plain_request r' -> json_key r = json_key r' -> r = r'.
Proof.
  intros (P1 & P2 & P3 & P4 & P5) (Q1 & Q2 & Q3 & Q4 & Q5). unfold json_key. intros E%app_inv_head.
  apply bit_head in E as [E1 E]. apply bit_head in E as [E2 E]. apply app_inv_head in E.
  change (str "|" ++ ?x) with (Byte.x7c :: x) in E. cbn [app] in E.
  apply cut_plain in E as [E3 E]; [|done|done]. apply cut_plain in E as [E4 E]; [|done|done].
  apply cut_plain in E as [E5 E]; [|apply plain_number|apply plain_number].
  apply cut_entries in E as [E6 E7]; [|apply plain_number|apply plain_number|done|done].
  apply to_string_Z_inj in E5, E6; try done. destruct r, r'; cbn in *. congruence.
Qed.

Lemma liveness_key_inj r r' : plain_request r -> plain_request r' -> liveness_key r = liveness_key r' ->
  dr_entryPoints r = dr_entryPoints r' /\ dr_includeOptimistic r = dr_includeOptimistic r'.
Proof.
  intros (_ & _ & P3 & _) (_ & _ & Q3 & _). unfold liveness_key. intros E%app_inv_head. apply bit_head in E as [E1 E].
  apply (cut_entries _ _ [] []) in E as [_ E]; [done|unfold plain; by intros ?%elem_of_nil|unfold plain; by intros ?%elem_of_nil|done|done].
Qed.

(** * The cache *)

Section Cache.
Context `{!StdSort}.
Variable node_of : bytes -> option CallGraphNode.
Variable results_order : gmap bytes Liveness -> list (bytes * Liveness).
Variable liveness_of : list bytes -> bool -> gmap bytes Liveness.

Abbreviation handle := (handleAnalyzeDeadCode node_of results_order liveness_of).
Abbreviation answer := (dead_answer node_of results_order).

Definition empty_cache : QueryCache := MkCache ∅ ∅.

(** The requests of a batch, one after the other; a request without an answer changes nothing. *)
Fixpoint serve (cache : option QueryCache) (rs : list DeadRequest) : list (option json) :=
  match rs with
  | [] => []
  | r :: rs' =>
      match handle r cache with
      | Some (v, cache') => Some v :: serve cache' rs'
      | None => None :: serve cache rs'
      end
  end.

Definition fresh_answer (r : DeadRequest) : option json := answer r (liveness_of (dr_entryPoints r) (dr_includeOptimistic r)).

(** What the cache holds for a plain request is that request's. *)
Record honest (c : QueryCache) : Prop := {
  hc_json : forall r v, plain_request r -> byKey c !! json_key r = Some v -> fresh_answer r = Some v;
  hc_map : forall r m, plain_request r -> objects c !! liveness_key r = Some m -> m = liveness_of (dr_entryPoints r) (dr_includeOptimistic r)
}.

Lemma handle_honest c r : honest c -> plain_request r ->
  match handle r (Some c) with
  | Some (v, Some c') => fresh_answer r = Some v /\ honest c'
  | Some (v, None) => False
  | None => fresh_answer r = None
  end.
Proof.
  intros Hc Hr. unfold handleAnalyzeDeadCode. destruct (byKey c !! json_key r) as [v|] eqn:Ej; [split; [by apply (hc_json c Hc)|done]|].
  set (results := default (liveness_of (dr_entryPoints r) (dr_includeOptimistic r)) (objects c !! liveness_key r)).
  assert (Hres : results = liveness_of (dr_entryPoints r) (dr_includeOptimistic r)).
  { unfold results. destruct (objects c !! liveness_key r) as [m|] eqn:Em; [by apply (hc_map c Hc)|done]. }
  rewrite Hres. fold (fresh_answer r). destruct (fresh_answer r) as [v|] eqn:Ev; cbn [fmap option_fmap option_map]; [|done]. split; [done|]. split; cbn [byKey objects].
  - intros r' v' Hr' Hk. destruct (decide (json_key r = json_key r')) as [E|E].
    + apply json_key_inj in E as <-; [|done|done]. rewrite lookup_insert_eq in Hk. congruence.
    + rewrite lookup_insert_ne in Hk by done. by apply (hc_json c Hc).
  - intros r' m Hr' Hk. destruct (objects c !! liveness_key r) as [m0|] eqn:Em; [exact (hc_map c Hc r' m Hr' Hk)|].
    destruct (decide (liveness_key r = liveness_key r')) as [E|E].
    + rewrite <- E, lookup_insert_eq in Hk. apply liveness_key_inj in E as [E1 E2]; [|done|done]. rewrite <- E1, <- E2. congruence.
    + rewrite lookup_insert_ne in Hk by done. exact (hc_map c Hc r' m Hr' Hk).
Qed.

Lemma serve_honest c rs : honest c -> Forall plain_request rs -> serve (Some c) rs = serve None rs.
Proof.
  intros Hc Hrs. revert c Hc. induction Hrs as [|r rs Hr Hrs IH]; intros c Hc; [done|]. cbn [serve].
  pose proof (handle_honest c r Hc Hr) as Hh. assert (Hn : handle r None = (fun v => (v, None)) <$> fresh_answer r) by done. rewrite Hn.
  destruct (handle r (Some c)) as [[v [c'|]]|]; [|done|].
  - destruct Hh as [-> Hc']. cbn. f_equal. by apply IH.
  - rewrite Hh. cbn. f_equal. by apply IH.
Qed.
End Cache.

(** Sharing the cache changes no answer: a batch of requests in which no prefix and no entry
    point contains the separator of the cache keys is answered as if nothing were cached. *)
Theorem cached_answers_are_fresh `{!StdSort} (node_of : bytes -> option CallGraphNode) (results_order : gmap bytes Liveness -> list (bytes * Liveness))
    (liveness_of : list bytes -> bool -> gmap bytes Liveness) (rs : list DeadRequest) :
  Forall plain_request rs ->
  serve node_of results_order liveness_of (Some empty_cache) rs = serve node_of results_order liveness_of None rs.
Proof. intros Hrs. apply serve_honest; [|done]. split; cbn; intros r v _; by rewrite lookup_empty. Qed.

Lemma cached_answers_are_fresh_witness :
  let r1 := MkDeadRequest [str "main"] true false (str "a::") [] 5 0 in
  let r2 := MkDeadRequest [str "main"] true false [] (str "/src") 5 0 in
  let results := {[str "a::f" := LiveDead; str "g" := LiveDead]} in
  let run cache := @serve stable_std_sort (fun _ => None) map_to_list (fun _ _ => results) cache [r1; r2; r1] in
  run (Some empty_cache) = run None /\ (run None !! 0) <> (run None !! 1).
Proof.
  intros r1 r2 results run. split; [|vm_compute; discriminate].
  apply (@cached_answers_are_fresh stable_std_sort (fun _ => None) map_to_list (fun _ _ => results) [r1; r2; r1]).
  by_computation.
Defined.

(** With the separator in a prefix the cache answers one request with the answer of another:
    the name prefix [a|b] without a file prefix shares its key with the name prefix [a] and the
    file prefix [b|]. *)
Theorem cache_confuses_requests :
  let r1 := MkDeadRequest [] true false (str "a|b") [] 5 0 in
  let r2 := MkDeadRequest [] true false (str "a") (str "b|") 5 0 in
  let run cache := @serve stable_std_sort (fun _ => None) map_to_list (fun _ _ => {[str "a|b" := LiveDead]}) cache [r1; r2] in
  json_key r1 = json_key r2 /\ run (Some empty_cache) <> run None.
Proof. intros r1 r2 run. split; [vm_compute; reflexivity|vm_compute; discriminate]. Qed.

(** * Pages *)

(** The two lists of an answer and where the next page begins. *)
Definition page_of (v : json) : option (list json * list json * option Z) :=
  match v with
  | JObj o =>
      match obj_get (str "dead") o, obj_get (str "optimisticallyAlive") o with
      | Some (JArr d), Some (JArr a) => Some (d, a, match obj_get (str "nextOffset") o with Some (JInt n) => Some n | _ => None end)
      | _, _ => None
      end
  | _ => None
  end.

Lemma page_members v1 v2 v3 v4 v5 v6 v7 v8 v9 v10 next v11 v12 d a :
  page_of (JObj (obj_of ([(str "totalFunctions", v1); (str "aliveCount", v2); (str "optimisticallyAliveCount", v3); (str "totalDead", v4); (str "deadCount", v5);
    (str "offset", v6); (str "limit", v7); (str "truncated", v8); (str "total", v9); (str "returned", v10)] ++
    match next with Some n => [(str "nextOffset", JInt n)] | None => [] end ++
    [(str "optimisticTotal", v11); (str "optimisticTruncated", v12); (str "dead", JArr d); (str "optimisticallyAlive", JArr a)]))) = Some (d, a, next).
Proof. by destruct next; vm_compute. Qed.

Section Pages.
Context `{!StdSort}.
Variable node_of : bytes -> option CallGraphNode.
Variable results_order : gmap bytes Liveness -> list (bytes * Liveness).
Variable results : gmap bytes Liveness.

Abbreviation answer := (dead_answer node_of results_order).
Abbreviation all_entries r l := (listed_entries node_of results_order r l results).

Definition at_offset (r : DeadRequest) (offset : Z) : DeadRequest :=
  MkDeadRequest (dr_entryPoints r) (dr_includeOptimistic r) (dr_includeSystem r) (dr_namePrefix r) (dr_filePrefix r) (dr_limit r) offset.

(** A client that asks for the next page while there is one. *)
Fixpoint follow_pages (fuel : nat) (r : DeadRequest) : option (list json * list json) :=
  match fuel with
  | O => None
  | S fuel' =>
      v ← answer r results;
      '(d, a, next) ← page_of v;
      match next with
      | None => Some (d, a)
      | Some n => '(d', a') ← follow_pages fuel' (at_offset r n); Some (d ++ d', a ++ a')
      end
  end.

Lemma listed_offset r n l : all_entries (at_offset r n) l = all_entries r l.
Proof. done. Qed.

Lemma window_exact r total : (0 <= dr_offset r)%Z -> (0 < dr_limit r)%Z -> (0 <= total)%Z -> (total + dr_limit r < 2 ^ 63)%Z ->
  dead_window r total = Some (Z.min (dr_offset r) total, Z.min (dr_offset r + dr_limit r) total).
Proof.
  intros H1 H2 H3 H4. unfold dead_window, add64. rewrite decide_True by (unfold int64; lia). cbn. do 2 f_equal. lia.
Qed.

Lemma in_window_rest {A} (l : list A) off lim : (0 <= off)%Z -> (0 <= lim)%Z ->
  in_window (Z.min off (Z.of_nat (length l)), Z.min (off + lim) (Z.of_nat (length l))) l = take (Z.to_nat lim) (drop (Z.to_nat off) l).
Proof.
  intros H1 H2. unfold in_window. cbn [fst snd]. destruct (decide (off <= Z.of_nat (length l))%Z) as [Ho|Ho].
  - rewrite (Z.min_l off) by lia. destruct (decide (off + lim <= Z.of_nat (length l))%Z).
    + rewrite Z.min_l by lia. f_equal. lia.
    + rewrite Z.min_r by lia. rewrite !take_ge; [done| |]; rewrite length_drop; lia.
  - rewrite !Z.min_r by lia. rewrite Z.sub_diag. cbn. rewrite (drop_ge l (Z.to_nat off)) by lia. by destruct (Z.to_nat lim).
Qed.

Lemma answer_page r :
  let dead := all_entries r LiveDead in let opt := all_entries r LiveOptimistic in
  (0 <= dr_offset r)%Z -> (0 < dr_limit r)%Z -> (dr_offset r + dr_limit r < 2 ^ 63)%Z ->
  (Z.of_nat (length dead) + dr_limit r < 2 ^ 63)%Z -> (Z.of_nat (length opt) + dr_limit r < 2 ^ 63)%Z ->
  exists v, answer r results = Some v /\
    page_of v = Some (entry_json <$> take (Z.to_nat (dr_limit r)) (drop (Z.to_nat (dr_offset r)) dead),
                      entry_json <$> take (Z.to_nat (dr_limit r)) (drop (Z.to_nat (dr_offset r)) opt),
                      if decide (dr_offset r + dr_limit r < Z.max (Z.of_nat (length dead)) (Z.of_nat (length opt)))%Z
                      then Some (dr_offset r + dr_limit r)%Z else None).
Proof.
  intros dead opt H1 H2 H3 H4 H5. unfold dead_answer. fold dead opt. rewrite !window_exact by lia. cbn [mbind option_bind fst snd].
  set (more := (0 <? dr_limit r)%Z && _). assert (Hmore : more = bool_decide (dr_offset r + dr_limit r < Z.max (Z.of_nat (length dead)) (Z.of_nat (length opt)))%Z).
  { unfold more. rewrite (proj2 (Z.ltb_lt 0 (dr_limit r))) by done. cbn [andb]. apply eq_true_iff_eq. rewrite orb_true_iff, !Z.ltb_lt, bool_decide_eq_true. lia. }
  rewrite <- !in_window_rest by lia. destruct more.
  - symmetry in Hmore. apply bool_decide_eq_true in Hmore. rewrite decide_True by done. unfold add64. rewrite decide_True by (unfold int64; lia). cbn [mbind option_bind].
    eexists. split; [reflexivity|]. apply (page_members _ _ _ _ _ _ _ _ _ _ (Some (dr_offset r + dr_limit r)%Z)).
  - symmetry in Hmore. apply bool_decide_eq_false in Hmore. rewrite decide_False by done. cbn [mbind option_bind].
    eexists. split; [reflexivity|]. apply (page_members _ _ _ _ _ _ _ _ _ _ None).
Qed.

Lemma follow_exact fuel r :
  let dead := all_entries r LiveDead in let opt := all_entries r LiveOptimistic in
  (0 <= dr_offset r)%Z -> (0 < dr_limit r)%Z ->
  (dr_offset r + dr_limit r < 2 ^ 63)%Z -> (Z.max (Z.of_nat (length dead)) (Z.of_nat (length opt)) + 2 * dr_limit r < 2 ^ 63)%Z ->
  (Z.max (Z.of_nat (length dead)) (Z.of_nat (length opt)) - dr_offset r < Z.of_nat fuel)%Z -> 0 < fuel ->
  follow_pages fuel r = Some (entry_json <$> drop (Z.to_nat (dr_offset r)) dead, entry_json <$> drop (Z.to_nat (dr_offset r)) opt).
Proof.
  revert r. induction fuel as [|fuel IH]; intros r dead opt H1 H2 H3 H4 H5 H6; [lia|]. cbn [follow_pages].
  destruct (answer_page r H1 H2 H3) as (v & -> & Hv); [fold dead opt; lia|fold dead opt; lia|]. cbn [mbind option_bind]. rewrite Hv. clear v Hv. cbn [mbind option_bind]. fold dead opt.
  assert (Htake : forall l : list DeadEntry, take (Z.to_nat (dr_limit r)) (drop (Z.to_nat (dr_offset r)) l) ++ drop (Z.to_nat (dr_offset r + dr_limit r)) l = drop (Z.to_nat (dr_offset r)) l).
  { intros l. rewrite Z2Nat.inj_add, <- drop_drop, take_drop by lia. done. }
  case_decide as Hd.
  - rewrite (IH (at_offset r (dr_offset r + dr_limit r))); rewrite ?listed_offset; cbn [at_offset dr_offset dr_limit]; fold dead opt; try lia.
    cbn [mbind option_bind]. by rewrite <- !fmap_app, !Htake.
  - rewrite !take_ge by (rewrite length_drop; lia). done.
Qed.
End Pages.

(** One window pages both lists and misses nothing: a client that asks for the next page
    while the answer names one gets every dead function and every optimistically alive one
    that passes the filters, once, in the order of their locations. *)
Theorem dead_pages_cover `{!StdSort} (node_of : bytes -> option CallGraphNode) (results_order : gmap bytes Liveness -> list (bytes * Liveness))
    (results : gmap bytes Liveness) (r : DeadRequest) :
  let dead := listed_entries node_of results_order r LiveDead results in
  let opt := listed_entries node_of results_order r LiveOptimistic results in
  dr_offset r = 0%Z -> (0 < dr_limit r)%Z -> (Z.max (Z.of_nat (length dead)) (Z.of_nat (length opt)) + 2 * dr_limit r < 2 ^ 63)%Z ->
  follow_pages node_of results_order results (S (max (length dead) (length opt))) r = Some (entry_json <$> dead, entry_json <$> opt).
Proof.
  intros dead opt Ho Hl Hm. rewrite (follow_exact node_of results_order results); rewrite ?Ho; fold dead opt; try lia. done.
Qed.

Lemma dead_pages_cover_witness :
  let r := MkDeadRequest [] true false [] [] 2 0 in
  let results := {[str "a" := LiveDead; str "b" := LiveDead; str "c" := LiveDead; str "d" := LiveOptimistic]} in
  @follow_pages stable_std_sort (fun _ => None) map_to_list results 4 r =
  Some (entry_json <$> [MkDeadEntry (str "a") None; MkDeadEntry (str "b") None; MkDeadEntry (str "c") None], entry_json <$> [MkDeadEntry (str "d") None]).
Proof.
  intros r results. pose proof (@dead_pages_cover stable_std_sort (fun _ => None) map_to_list results r) as Hc. cbv zeta in Hc.
  assert (E1 : @listed_entries stable_std_sort (fun _ => None) map_to_list r LiveDead results =
    [MkDeadEntry (str "a") None; MkDeadEntry (str "b") None; MkDeadEntry (str "c") None]) by (vm_compute; reflexivity).
  assert (E2 : @listed_entries stable_std_sort (fun _ => None) map_to_list r LiveOptimistic results = [MkDeadEntry (str "d") None]) by (vm_compute; reflexivity).
  rewrite E1, E2 in Hc. apply Hc; by_computation.
Defined.

(** The window of a request with the largest limit is no [int64_t] past the first page: the sum
    overflows. *)
Lemma window_overflows : dead_window (MkDeadRequest [] true false [] [] (2 ^ 63 - 1) 1) 1 = None.
Proof. vm_compute. reflexivity. Qed.
