(* ===== verification/CheckSet.v ===== *)
(** The named checks of the check tool and how a run selects among them:
    include/vycor/check/CheckSet.h and src/check/CheckSet.cpp.

    The names and groups an organization registers ([ExtensionRegistry]) are arguments:
    [orgNames] is [allCheckNames()] and [orgGroups] the entries of [checkGroups()] in the order
    they are walked. *)

From S2P Require Import Prelude Ordering SortedMap Text Results.

Record CheckInfo := MkCheckInfo {
  ci_name : bytes;
  ci_summary : bytes;
  ci_defaultOn : bool;
  ci_groups : list bytes
}.

Definition builtinChecks : list CheckInfo :=
  [MkCheckInfo (str "adl-visibility") (str "Fragile ADL resolutions: an invisible overload would win or tie") true [];
   MkCheckInfo (str "ctad-visibility") (str "CTAD deducing differently because a deduction guide is not included") true [];
   MkCheckInfo (str "specialization-visibility")
     (str "TU instantiates a primary template whose explicit specialization exists elsewhere (IFNDR)") true [];
   MkCheckInfo (str "default-arg-divergence") (str "Declaration sites that disagree on a parameter's default argument") true [];
   MkCheckInfo (str "static-init-order") (str "Dynamic initializers reading another TU's dynamically-initialized global (SIOF)") true [];
   MkCheckInfo (str "static-init-hazards")
     (str "Static initializers reaching dlopen/dlsym or thread create/join (loader-lock deadlock risk)") false [str "compute-heavy"];
   MkCheckInfo (str "header-static-duplication")
     (str "Mutable header-defined statics materialized by multiple TUs (forked per-TU state)") true [];
   MkCheckInfo (str "exception-spec-divergence") (str "Declaration sites that disagree on whether a function can throw") true [];
   MkCheckInfo (str "exception-escape") (str "noexcept functions that can transitively reach an uncaught throw across TUs") false [str "noisy"];
   MkCheckInfo (str "odr-violations") (str "Vague-linkage definitions that differ across sites or TUs") false [str "compute-heavy"];
   MkCheckInfo (str "coverage-properties") (str "GVA linkage / COMDAT properties that make coverage records vanish") false [str "noisy"];
   MkCheckInfo (str "dead-code") (str "Functions unreachable from the entry points via the call graph") false [str "compute-heavy"]].

Section Selection.
Variable orgNames : list bytes.
Variable orgGroups : list (bytes * list bytes).

Definition defaultCheckSet : gset bytes :=
  list_to_set (ci_name <$> filter (fun c => ci_defaultOn c = true) builtinChecks) ∪ list_to_set orgNames.

Definition known_checks : gset bytes := list_to_set (ci_name <$> builtinChecks) ∪ list_to_set orgNames.

(** The groups as the loops fill them: the built-in checks, the organization's names and the
    organization's groups, which extend one of the same name. *)
Definition check_groups : gmap bytes (list bytes) :=
  let g := foldl (fun g c => foldl (fun g group => push_back group (ci_name c) g) (push_back (str "all") (ci_name c) g) (ci_groups c)) ∅ builtinChecks in
  let g := foldl (fun g name => push_back (str "all") name g) g orgNames in
  foldl (fun g '(group, members) => <[group := vec_at g group ++ members]> g) g orgGroups.

(** [-name] or [name]. *)
Definition entry_name (raw : bytes) : bool * bytes :=
  match raw with
  | b :: name => if decide (b = Byte.x2d) then (true, name) else (false, raw)
  | [] => (false, raw)
  end.

Definition unknown_message (name : bytes) : bytes :=
  str "unknown check or group '" ++ name ++ str "' (see docs/checks/README.md for the list)".

(** The checks an entry names, or why it names none. *)
Definition members_of (name : bytes) : bytes + list bytes :=
  match name with
  | [] => inl (str "empty entry in checks specification")
  | _ => match check_groups !! name with
         | Some members => inr members
         | None => if decide (name ∈ known_checks) then inr [name] else inl (unknown_message name)
         end
  end.

Definition set_all (disable : bool) (members : list bytes) (enabled : gset bytes) : gset bytes :=
  foldl (fun e m => if disable then e ∖ {[m]} else {[m]} ∪ e) enabled members.

(** The checks enabled in the end and the error; those of the entries before an error stay. *)
Fixpoint resolveCheckSpec (spec : list bytes) (enabled : gset bytes) : gset bytes * option bytes :=
  match spec with
  | [] => (enabled, None)
  | raw :: spec' =>
      let '(disable, name) := entry_name raw in
      match members_of name with
      | inl error => (enabled, Some error)
      | inr members => resolveCheckSpec spec' (set_all disable members enabled)
      end
  end.
End Selection.

(** ** The configuration file *)

(** [parsed] is what [json::parse] makes of the file, its message when it fails, with the
    members of an object in the order the map is walked in.  The entries read before a
    value that is no string stay in [outSpec]. *)
Fixpoint string_entries (arr : list json) : list bytes * bool :=
  match arr with
  | [] => ([], true)
  | JStr s :: arr' => let '(l, fine) := string_entries arr' in (s :: l, fine)
  | _ :: _ => ([], false)
  end.

Definition not_strings : bytes := str "'checks' must be an array of strings".

Definition parseChecksConfigJson (parsed : bytes + json) (outSpec : list bytes) : list bytes * option bytes :=
  match parsed with
  | inl message => (outSpec, Some (str "parse error: " ++ message))
  | inr v =>
      match as_object v with
      | None => (outSpec, Some (str "top level must be a JSON object"))
      | Some root =>
          match list_find (fun kv : bytes * json => kv.1 <> str "checks") root with
          | Some (_, (key, _)) => (outSpec, Some (str "unknown key '" ++ key ++ str "' (expected: checks)"))
          | None =>
              match obj_get (str "checks") root with
              | None => (outSpec, None)
              | Some (JArr arr) => let '(l, fine) := string_entries arr in (outSpec ++ l, if fine then None else Some not_strings)
              | Some _ => (outSpec, Some not_strings)
              end
          end
      end
  end.

(** [exists_], [append] and [parent_path] are those of LLVM's file system and paths; [start] is
    the absolute path of the start directory.  [None] is running out of fuel. *)
Section Config.
Variable fs_exists : bytes -> bool.
Variable path_append : bytes -> bytes -> bytes.
Variable parent_path : bytes -> bytes.

Definition config_in (dir : bytes) : bytes := path_append dir (str ".vycor-check.json").

Fixpoint find_config (fuel : nat) (dir : bytes) : option bytes :=
  match fuel with
  | O => None
  | S fuel' =>
      if fs_exists (config_in dir) then Some (config_in dir)
      else let parent := parent_path dir in
           if bool_decide (parent = []) || bool_decide (parent = dir) then Some [] else find_config fuel' parent
  end.

Definition findChecksConfig (start : bytes) : option bytes := find_config (S (length start)) start.
End Config.

(** ** Walking up *)

(** What [findChecksConfig] and the search for a repository share: from a directory upwards to
    the first that has what is looked for, at most to one where [stop] holds. *)
Section Climb.
Variable parent_path : bytes -> bytes.
Variables found stop : bytes -> bool.

Fixpoint climb (fuel : nat) (dir : bytes) : option (option bytes) :=
  match fuel with
  | O => None
  | S fuel' =>
      if found dir then Some (Some dir)
      else if stop dir || bool_decide (parent_path dir = []) || bool_decide (parent_path dir = dir) then Some None
      else climb fuel' (parent_path dir)
  end.

(** The directories from [dir] upwards that are looked at. *)
Inductive ancestor : bytes -> bytes -> Prop :=
| ancestor_self dir : ancestor dir dir
| ancestor_up dir a : stop dir = false -> parent_path dir <> [] -> parent_path dir <> dir -> ancestor (parent_path dir) a -> ancestor dir a.

Hypothesis parent_prefix : forall dir, parent_path dir `prefix_of` dir.

Lemma parent_shorter dir : parent_path dir <> dir -> length (parent_path dir) < length dir.
Proof.
  intros Hne. destruct (parent_prefix dir) as [k Hk]. destruct k as [|x k]; [rewrite app_nil_r in Hk; by rewrite <- Hk in Hne|].
  rewrite Hk at 2. rewrite length_app. cbn. lia.
Qed.

Lemma ancestor_length dir a : ancestor dir a -> length a <= length dir.
Proof. induction 1 as [|d a _ _ H2 _ IH]; [lia|]. pose proof (parent_shorter d H2). lia. Qed.

(** The walk ends, at the nearest directory that has it or at none. *)
Lemma climb_exact fuel dir : length dir < fuel ->
  match climb fuel dir with
  | Some (Some a) => ancestor dir a /\ found a = true /\ forall b, ancestor dir b -> length a < length b -> found b = false
  | Some None => forall a, ancestor dir a -> found a = false
  | None => False
  end.
Proof.
  revert dir. induction fuel as [|fuel IH]; intros dir Hf; [lia|]. cbn [climb]. destruct (found dir) eqn:E.
  - split_and!; [constructor|done|]. intros b Hb%ancestor_length Hl. lia.
  - destruct (stop dir) eqn:Es; cbn [orb]; [intros a Ha; inversion Ha; subst; [done|congruence]|].
    case_bool_decide as H1; [intros a Ha; inversion Ha; subst; [done|congruence]|].
    case_bool_decide as H2; cbn [orb]; [intros a Ha; inversion Ha; subst; [done|congruence]|].
    pose proof (parent_shorter dir H2) as Hs. specialize (IH (parent_path dir) ltac:(lia)). destruct (climb fuel (parent_path dir)) as [[a|]|]; [| |done].
    + destruct IH as (Ha & Hx & Hb). split_and!; [by constructor|done|]. intros b Hab Hl. inversion Hab; subst; [done|]. by apply Hb.
    + intros a Ha. inversion Ha; subst; [done|]. by apply IH.
Qed.
End Climb.

Lemma find_config_climb fs_exists path_append parent_path fuel dir :
  find_config fs_exists path_append parent_path fuel dir =
  (fun o => match o with Some a => config_in path_append a | None => [] end) <$>
    climb parent_path (fun d => fs_exists (config_in path_append d)) (fun _ => false) fuel dir.
Proof.
  revert dir. induction fuel as [|fuel IH]; intros dir; [done|]. cbn [find_config climb orb]. destruct (fs_exists _); [done|]. destruct (_ || _); [done|]. apply IH.
Qed.

(** The configuration of a run is that of the nearest directory that has one. *)
Lemma config_found fs_exists path_append parent_path start : (forall dir, parent_path dir `prefix_of` dir) ->
  let has dir := fs_exists (config_in path_append dir) in
  let above := ancestor parent_path (fun _ => false) start in
  (exists dir, findChecksConfig fs_exists path_append parent_path start = Some (config_in path_append dir) /\ above dir /\ has dir = true /\
     forall d, above d -> length dir < length d -> has d = false) \/
  (findChecksConfig fs_exists path_append parent_path start = Some [] /\ forall d, above d -> has d = false).
Proof.
  intros Hp has above. unfold findChecksConfig. rewrite find_config_climb.
  pose proof (climb_exact parent_path has (fun _ => false) Hp (S (length start)) start ltac:(lia)) as Hc. fold has.
  destruct (climb _ _ _ _ _) as [[a|]|]; [left|right|done]; cbn; [|done]. destruct Hc as (Ha & Hx & Hb). by exists a.
Qed.

(** ** The command line *)

(** [--checks]: the entries between commas, without the spaces around them, empty ones left
    out. *)
Definition is_blank (b : Byte.byte) : bool := bool_decide (b = Byte.x20).
Definition trim_blanks (s : bytes) : bytes := rev (ltrim_by is_blank (rev (ltrim_by is_blank s))).

Fixpoint cli_entries (fuel : nat) (cli : bytes) : list bytes :=
  match fuel, cli with
  | S fuel', _ :: _ =>
      let '(entry, rest) := split_char Byte.x2c cli in
      (if decide (trim_blanks entry = []) then [] else [trim_blanks entry]) ++ cli_entries fuel' rest
  | _, _ => []
  end.

(** The configuration file's entries, [--checks] and the older flags, in this order. *)
Definition full_spec (config : list bytes) (cli : bytes) (coverageDiag odrDiag deadCode : bool) : list bytes :=
  config ++ cli_entries (length cli) cli ++
  (if coverageDiag then [str "coverage-properties"] else []) ++ (if odrDiag then [str "odr-violations"] else []) ++
  (if deadCode then [str "dead-code"] else []).

(** The checks of a run, or the error. *)
Definition selected_checks (orgNames : list bytes) (orgGroups : list (bytes * list bytes)) (config : list bytes) (cli : bytes)
    (coverageDiag odrDiag deadCode : bool) : bytes + gset bytes :=
  match resolveCheckSpec orgNames orgGroups (full_spec config cli coverageDiag odrDiag deadCode) (defaultCheckSet orgNames) with
  | (enabled, None) => inr enabled
  | (_, Some error) => inl error
  end.

(** * What a specification selects *)

Section Spec.
Variable orgNames : list bytes.
Variable orgGroups : list (bytes * list bytes).

Abbreviation members := (members_of orgNames orgGroups).

(** What an entry says of a check: nothing, enable or disable. *)
Definition decides (raw check : bytes) : option bool :=
  match members (entry_name raw).2 with
  | inr ms => if decide (check ∈ ms) then Some (negb (entry_name raw).1) else None
  | inl _ => None
  end.

(** The last entry that names the check decides, and [was] when none does. *)
Definition last_word (spec : list bytes) (check : bytes) (was : bool) : bool := foldl (fun b raw => default b (decides raw check)) was spec.

Lemma set_all_elem disable ms enabled c : c ∈ set_all disable ms enabled <-> if decide (c ∈ ms) then disable = false else c ∈ enabled.
Proof.
  revert enabled. induction ms as [|m ms IH]; intros enabled; cbn [set_all foldl]; [by rewrite decide_False by apply not_elem_of_nil|].
  fold (set_all disable ms (if disable then enabled ∖ {[m]} else {[m]} ∪ enabled)). rewrite IH. repeat case_decide; set_unfold; destruct disable; set_solver.
Qed.

(** The first entry that names nothing. *)
Definition bad_entry (raw : bytes) : Prop := match members (entry_name raw).2 with inl _ => True | inr _ => False end.

#[global] Instance bad_entry_dec raw : Decision (bad_entry raw).
Proof. unfold bad_entry. destruct (members _); apply _. Defined.

Lemma resolve_good spec enabled : Forall (fun raw => ~ bad_entry raw) spec ->
  exists e, resolveCheckSpec orgNames orgGroups spec enabled = (e, None) /\ forall c, c ∈ e <-> last_word spec c (bool_decide (c ∈ enabled)) = true.
Proof.
  intros Hs. revert enabled. induction Hs as [|raw spec Hg Hs IH]; intros enabled; cbn [resolveCheckSpec].
  - exists enabled. split; [done|]. intros c. cbn. by rewrite bool_decide_eq_true.
  - unfold bad_entry in Hg. destruct (entry_name raw) as [disable name] eqn:En. cbn [snd] in Hg.
    destruct (members name) as [|ms] eqn:Em; [by destruct Hg|]. destruct (IH (set_all disable ms enabled)) as (e & -> & He). exists e.
    split; [done|]. intros c. rewrite He. unfold last_word. cbn [foldl].
    assert (bool_decide (c ∈ set_all disable ms enabled) = default (bool_decide (c ∈ enabled)) (decides raw c)) as ->; [|done].
    unfold decides. rewrite En. cbn [fst snd]. rewrite Em. pose proof (set_all_elem disable ms enabled c) as Hc.
    destruct (decide (c ∈ ms)); cbn [default]; rewrite (bool_decide_ext _ _ Hc); by destruct disable.
Qed.

Lemma resolve_app spec raw rest enabled : Forall (fun raw => ~ bad_entry raw) spec -> bad_entry raw ->
  exists error, members (entry_name raw).2 = inl error /\
    resolveCheckSpec orgNames orgGroups (spec ++ raw :: rest) enabled = ((resolveCheckSpec orgNames orgGroups spec enabled).1, Some error).
Proof.
  intros Hs Hb. revert enabled. induction Hs as [|r spec Hg Hs IH]; intros enabled; cbn [app resolveCheckSpec].
  - unfold bad_entry in Hb. destruct (entry_name raw) as [disable name]. cbn [snd] in *. destruct (members name); [|done]. by eexists.
  - unfold bad_entry in Hg. destruct (entry_name r) as [disable name]. cbn [snd] in Hg. destruct (members name); [by destruct Hg|]. apply IH.
Qed.
End Spec.

(** Entries apply left to right and the last one that names a check, itself or through a
    group, decides whether it runs; a check no entry names stays as it was.  The first entry
    that is empty or names no known check or group is the error, and the entries before it
    have taken effect. *)
Theorem check_spec_exact (orgNames : list bytes) (orgGroups : list (bytes * list bytes)) (spec : list bytes) (enabled : gset bytes) :
  exists good, good `prefix_of` spec /\ Forall (fun raw => ~ bad_entry orgNames orgGroups raw) good /\
    (forall c, c ∈ (resolveCheckSpec orgNames orgGroups spec enabled).1 <-> last_word orgNames orgGroups good c (bool_decide (c ∈ enabled)) = true) /\
    match (resolveCheckSpec orgNames orgGroups spec enabled).2 with
    | None => good = spec
    | Some error => exists raw rest, spec = good ++ raw :: rest /\
        ((error = str "empty entry in checks specification" /\ (raw = [] \/ raw = str "-")) \/
         exists name, error = unknown_message name /\ name <> [] /\ (raw = name \/ raw = str "-" ++ name) /\
           check_groups orgNames orgGroups !! name = None /\ ~ (name ∈ known_checks orgNames))
    end.
Proof.
  destruct (decide (Forall (fun raw => ~ bad_entry orgNames orgGroups raw) spec)) as [Hall|Hbad].
  - exists spec. destruct (resolve_good orgNames orgGroups spec enabled Hall) as (e & -> & He). by split_and!.
  - apply not_Forall_Exists, Exists_exists in Hbad; [|apply _]. destruct Hbad as (raw0 & Hin & Hraw0). apply dec_stable in Hraw0.
    destruct (list_find (bad_entry orgNames orgGroups) spec) as [[i raw]|] eqn:E;
      [|apply list_find_None in E; rewrite Forall_forall in E; by destruct (E raw0)].
    apply list_find_Some in E as (Hi & Hb & Hbefore).
    assert (Hgood : Forall (fun raw => ~ bad_entry orgNames orgGroups raw) (take i spec)).
    { apply Forall_lookup_2. intros j x [Hx Hj]%lookup_take_Some. by apply (Hbefore j). }
    exists (take i spec). destruct (resolve_app orgNames orgGroups (take i spec) raw (drop (S i) spec) enabled Hgood Hb) as (error & Hm & Hr).
    assert (Hsplit : take i spec ++ raw :: drop (S i) spec = spec) by by apply take_drop_middle. rewrite Hsplit in Hr. rewrite Hr.
    destruct (resolve_good orgNames orgGroups (take i spec) enabled Hgood) as (e & He & Hc). rewrite He. cbn [fst snd].
    split_and!; [by eexists; symmetry; apply take_drop|done|done|]. exists raw, (drop (S i) spec). split; [done|]. clear -Hm.
    assert (Hraw : raw = (entry_name raw).2 \/ raw = str "-" ++ (entry_name raw).2).
    { destruct raw as [|b r]; [by left|]. cbn [entry_name]. destruct (decide (b = Byte.x2d)) as [->|]; [by right|by left]. }
    destruct (entry_name raw) as [disable name]. cbn [snd] in *. unfold members_of in Hm. destruct name as [|b name].
    + left. injection Hm as <-. split; [done|]. destruct Hraw as [->| ->]; [by left|by right].
    + right. exists (b :: name). destruct (check_groups orgNames orgGroups !! (b :: name)); [done|]. case_decide; [done|]. injection Hm as <-. by split_and!.
Qed.

(** [all,-noisy,exception-escape] on top of the default set. *)
Example spec_sample :
  let '(e, error) := resolveCheckSpec [str "org-check"] [(str "ours", [str "org-check"])]
      [str "all"; str "-noisy"; str "exception-escape"; str "-ours"] (defaultCheckSet [str "org-check"]) in
  error = None /\ str "exception-escape" ∈ e /\ ~ (str "coverage-properties" ∈ e) /\ ~ (str "org-check" ∈ e) /\ str "dead-code" ∈ e.
Proof. vm_compute. repeat split; try discriminate; intros H; discriminate H. Qed.
