(* ===== verification/Report.v ===== *)
(** The report of a check run: include/vycor/check/Report.h and src/check/Report.cpp.

    Diagnostics become findings (located, fingerprinted, merged), findings are removed by
    inline suppressions, a baseline and a changed-lines filter, and what is left is rendered and
    decides the exit code.  LLVM's path functions, the file system, its regular expressions,
    its JSON reader and xxh3 are arguments; a [json::OStream] writes the value given here, the
    members of an object in the order they are written. *)

From S2P Require Import Prelude Ordering SortedMap Text Results PatchMapping Codec SnapshotMeta Staleness ReachAnalyses CheckSet.

(** * Names and severities *)

Inductive Severity := Note | Warning | Error.

#[global] Instance Severity_eq_dec : EqDecision Severity.
Proof. solve_decision. Defined.

Definition severity_rank (s : Severity) : nat := match s with Note => 0 | Warning => 1 | Error => 2 end.

Definition severityName (s : Severity) : bytes := str match s with Note => "note" | Warning => "warning" | Error => "error" end.

(** [None] is [false]; [Some None] leaves the severity empty. *)
Definition parseFailOn (text : bytes) : option (option Severity) :=
  if decide (text = str "none") then Some None
  else if decide (text = str "note" \/ text = str "any") then Some (Some Note)
  else if decide (text = str "warning") then Some (Some Warning)
  else if decide (text = str "error") then Some (Some Error)
  else None.

Definition diagnosticKindName (k : DiagnosticKind) : bytes :=
  str match k with
      | ADL_Fallback => "ADL_Fallback"
      | ADL_Ambiguity => "ADL_Ambiguity"
      | ADL_SameScore => "ADL_SameScore"
      | CTAD_Fallback => "CTAD_Fallback"
      | Coverage_GVAMismatch => "Coverage_GVAMismatch"
      | Coverage_DiscardableODR => "Coverage_DiscardableODR"
      | Coverage_AvailableExternally => "Coverage_AvailableExternally"
      | Coverage_PropertyDivergence => "Coverage_PropertyDivergence"
      | DeadCode_Pessimistic => "DeadCode_Pessimistic"
      | DeadCode_Optimistic => "DeadCode_Optimistic"
      | ODR_DuplicateDefinition => "ODR_DuplicateDefinition"
      | ODR_DivergentDefinition => "ODR_DivergentDefinition"
      | Specialization_Invisible => "Specialization_Invisible"
      | DefaultArg_Divergent => "DefaultArg_Divergent"
      | StaticInit_OrderDependency => "StaticInit_OrderDependency"
      | StaticInit_Hazard => "StaticInit_Hazard"
      | Exception_Escape => "Exception_Escape"
      | HeaderStatic_Duplicated => "HeaderStatic_Duplicated"
      | ExceptionSpec_Divergent => "ExceptionSpec_Divergent"
      | CustomCheck => "Custom"
      end.

Definition checkNameOf (d : Diagnostic) : bytes :=
  match dx_kind d with
  | ADL_Fallback | ADL_Ambiguity | ADL_SameScore => str "adl-visibility"
  | CTAD_Fallback => str "ctad-visibility"
  | Specialization_Invisible => str "specialization-visibility"
  | Coverage_GVAMismatch | Coverage_DiscardableODR | Coverage_AvailableExternally | Coverage_PropertyDivergence => str "coverage-properties"
  | DeadCode_Pessimistic | DeadCode_Optimistic => str "dead-code"
  | ODR_DuplicateDefinition | ODR_DivergentDefinition => str "odr-violations"
  | DefaultArg_Divergent => str "default-arg-divergence"
  | StaticInit_OrderDependency => str "static-init-order"
  | StaticInit_Hazard => str "static-init-hazards"
  | Exception_Escape => str "exception-escape"
  | HeaderStatic_Duplicated => str "header-static-duplication"
  | ExceptionSpec_Divergent => str "exception-spec-divergence"
  | CustomCheck => if decide (dx_checkName d = []) then str "custom" else dx_checkName d
  end.

Definition severity_table : list (bytes * Severity) :=
  [(str "adl-visibility", Warning); (str "ctad-visibility", Warning); (str "specialization-visibility", Error);
   (str "default-arg-divergence", Warning); (str "static-init-order", Warning); (str "static-init-hazards", Warning);
   (str "header-static-duplication", Warning); (str "exception-spec-divergence", Error); (str "exception-escape", Note);
   (str "odr-violations", Error); (str "coverage-properties", Note); (str "dead-code", Note)].

Definition checkSeverity (check : bytes) : Severity :=
  match list_find (fun e => e.1 = check) severity_table with Some (_, e) => e.2 | None => Warning end.

Definition diagnosticSeverity (d : Diagnostic) : Severity :=
  match dx_kind d with
  | ADL_SameScore | DeadCode_Optimistic => Note
  | _ => checkSeverity (checkNameOf d)
  end.

Definition isBuiltinCheck (check : bytes) : bool := existsb (fun i => bool_decide (ci_name i = check)) builtinChecks.

Definition builtinSummary (check : bytes) : bytes :=
  match list_find (fun i => ci_name i = check) builtinChecks with Some (_, i) => ci_summary i | None => [] end.

Definition kHelpBase : bytes := str "https://github.com/bearbones/vycor-cpp/blob/main/docs/checks/".
Definition kFingerprintKey : bytes := str "vycorFingerprint/v1".

Definition checkHelpUri (check : bytes) : bytes := if isBuiltinCheck check then kHelpBase ++ check ++ str ".md" else [].

(** * Text *)

(** [path:line:col] or [path:line], split from the right: at most two numbers. *)
Definition last_number (rest : bytes) : option (bytes * N) :=
  colon ← rfind_char Byte.x3a rest; value ← getAsInteger two32 (drop (S colon) rest); Some (take colon rest, value).

Definition splitLocation (loc : bytes) : bytes * N * N :=
  match last_number loc with
  | None => (loc, 0%N, 0%N)
  | Some (rest, n0) =>
      match last_number rest with
      | None => (rest, n0, 0%N)
      | Some (rest', n1) => (rest', n1, n0)
      end
  end.

Definition hex_digit (upper : bool) (n : N) : Byte.byte := byte_of (if (n <? 10)%N then 48 + n else (if upper then 55 else 87) + n)%N.

(** [utohexstr] of a number that fits in [width] digits. *)
Fixpoint hex_text (upper : bool) (width : nat) (n : N) : bytes :=
  match width with O => [] | S width' => hex_text upper width' (n / 16) ++ [hex_digit upper (n mod 16)] end.

Definition uri_plain (c : Byte.byte) : bool :=
  is_alnum c || existsb (fun b => bool_decide (c = b)) [Byte.x2d; Byte.x2e; Byte.x5f; Byte.x7e; Byte.x2f].

Definition uriEncodePath (path : bytes) : bytes :=
  path ≫= fun c => if uri_plain c then [c] else Byte.x25 :: hex_text true 2 (Byte.to_N c).

Definition fileUri (absPath : bytes) : bytes :=
  let p := (fun c => if decide (c = Byte.x5c) then Byte.x2f else c) <$> absPath in
  let p := match p with b :: _ => if decide (b = Byte.x2f) then p else str "/" ++ p | [] => str "/" end in
  str "file://" ++ uriEncodePath p.

(** * Paths *)

(** LLVM's path functions and what they ask of the file system; [None] is an error. *)
Class PathOps := {
  is_absolute : bytes -> bool;
  path_append : bytes -> bytes -> bytes;
  remove_dots : bytes -> bytes;
  real_path : bytes -> option bytes;
  parent_path : bytes -> bytes;
  path_filename : bytes -> bytes;
  path_components : bytes -> list bytes;
  fs_exists : bytes -> bool;
  fs_is_directory : bytes -> bool
}.

(** [while (r.size() > 1 && r.ends_with("/")) r = r.drop_back();], on the reversed text. *)
Fixpoint drop_slashes (r : bytes) : bytes :=
  match r with
  | b :: ((_ :: _) as r') => if decide (b = slash) then drop_slashes r' else r
  | _ => r
  end.

Definition strip_slashes (r : bytes) : bytes := rev (drop_slashes (rev r)).

Definition tryRelative (p r0 : bytes) : option bytes :=
  let r := strip_slashes r0 in
  if decide (p = r) then Some (str ".")
  else if decide (r = str "/") then Some (drop 1 p)
  else if starts_with p r && bool_decide (p !! length r = Some slash) then Some (drop (S (length r)) p)
  else None.

(** Every occurrence of [prefix] is left out, from the left. *)
Fixpoint remove_all (fuel : nat) (prefix s : bytes) : bytes :=
  match fuel with
  | O => s
  | S fuel' => match str_find s prefix with
               | None => s
               | Some at_ => take at_ s ++ remove_all fuel' prefix (drop (at_ + length prefix) s)
               end
  end.

Definition stripOne (r0 out : bytes) : bytes :=
  let r := strip_slashes r0 in
  if decide (length r <= 1) then out else remove_all (S (length out)) (r ++ str "/") out.

(** The first answer there is. *)
Abbreviation or_else o o' := (match o with Some x => Some x | None => o' end).

Section Paths.
Context `{!PathOps}.

Definition absolutePath (path base : bytes) : bytes :=
  match path with
  | [] => []
  | _ => remove_dots (if is_absolute path then path else path_append base path)
  end.

Definition relativeToRoot (path root : bytes) : bytes :=
  if decide (root = [] \/ path = []) then path
  else
    let realRoot := default [] (real_path root) in
    default path
      (or_else (tryRelative path root)
        (or_else (match real_path root with Some rr => if decide (rr = root) then None else tryRelative path rr | None => None end)
          (match real_path path with
           | Some rp =>
               if decide (rp = path) then None
               else or_else (tryRelative rp root) (if decide (realRoot = []) then None else tryRelative rp realRoot)
           | None => None
           end))).

Definition stripProjectRoot (text projectRoot : bytes) : bytes :=
  if decide (projectRoot = [] \/ text = []) then text
  else
    let out := stripOne projectRoot text in
    match real_path projectRoot with
    | Some rr => if decide (rr = projectRoot) then out else stripOne rr out
    | None => out
    end.

(** ** The project root *)

Fixpoint common_components (a b : list bytes) (common : bytes) : bytes :=
  match a, b with
  | x :: a', y :: b' => if decide (x = y) then common_components a' b' (path_append common x) else common
  | _, _ => common
  end.

Definition commonDirAncestor (a b : bytes) : bytes :=
  if decide (a = []) then b
  else if decide (b = []) then a
  else let common := common_components (path_components a) (path_components b) [] in if decide (common = []) then str "/" else common.

Definition isDirOrParent (ancestor child : bytes) : bool :=
  let a := strip_slashes ancestor in
  if decide (child = a) then true
  else if decide (a = str "/") then starts_with child (str "/")
  else starts_with child a && bool_decide (child !! length a = Some slash).

(** The walk of [findGitRoot]; [None] is running out of fuel and an empty answer is none. *)
Fixpoint git_walk (fuel : nat) (absCwd : bytes) (startedInCwd : bool) (cur : bytes) : option bytes :=
  match fuel with
  | O => None
  | S fuel' =>
      if decide (cur = []) then Some []
      else if fs_exists (path_append cur (str ".git")) then Some cur
      else if startedInCwd && bool_decide (cur = absCwd) then Some []
      else let parent := parent_path cur in
           if decide (parent = [] \/ parent = cur) then Some [] else git_walk fuel' absCwd startedInCwd (take (length parent) cur)
  end.

Definition findGitRoot (absCwd startDir : bytes) : bytes :=
  if decide (startDir = []) then [] else default [] (git_walk (S (length startDir)) absCwd (isDirOrParent absCwd startDir) startDir).

Definition source_common (absCwd : bytes) (sourceFiles : list bytes) : bytes :=
  foldl (fun srcCommon src =>
    if decide (src = []) then srcCommon
    else let dir := parent_path (absolutePath src absCwd) in
         if decide (dir = []) then srcCommon else commonDirAncestor srcCommon dir) [] sourceFiles.

Definition build_dir (absCwd buildPath : bytes) : bytes :=
  if decide (buildPath = []) then []
  else let absBuild := absolutePath buildPath absCwd in
       if fs_exists absBuild && negb (fs_is_directory absBuild) then parent_path absBuild else absBuild.

Definition inferProjectRoot (explicitRoot buildPath : bytes) (sourceFiles : list bytes) (cwd : bytes) : bytes :=
  let absCwd := absolutePath (if decide (cwd = []) then str "." else cwd) (str "/") in
  if decide (explicitRoot <> []) then absolutePath explicitRoot absCwd
  else
    let srcCommon := source_common absCwd sourceFiles in
    let buildDir := build_dir absCwd buildPath in
    if decide (srcCommon <> []) then
      let gitRoot := findGitRoot absCwd srcCommon in
      if decide (gitRoot <> []) then gitRoot
      else if isDirOrParent absCwd srcCommon then absCwd
      else
        let buildParent := parent_path buildDir in
        if decide (buildDir <> [] /\ buildParent <> [] /\ buildParent <> str "/" /\ path_filename buildDir = str "build" /\ buildParent = parent_path srcCommon)
        then buildParent else srcCommon
    else
      let common := if decide (buildDir <> []) then buildDir else absCwd in
      let gitRoot := findGitRoot absCwd common in
      if decide (gitRoot <> []) then gitRoot else if isDirOrParent absCwd common then absCwd else common.
End Paths.

(** * Findings *)

Record Finding := MkFinding {
  f_check : bytes;
  f_kind : bytes;
  f_severity : Severity;
  f_path : bytes;
  f_file : bytes;
  f_line : N;
  f_column : N;
  f_message : bytes;
  f_fingerprint : bytes
}.

#[global] Instance Finding_eq_dec : EqDecision Finding.
Proof. solve_decision. Defined.

(** The seven parts the order and the merge look at. *)
Definition finding_key (f : Finding) : bytes * (N * (N * (bytes * (bytes * (bytes * bytes))))) :=
  (f_file f, (f_line f, (f_column f, (f_check f, (f_kind f, (f_message f, f_fingerprint f)))))).

Definition finding_cmp : bytes * (N * (N * (bytes * (bytes * (bytes * bytes))))) -> _ -> comparison :=
  lex_cmp bytes_cmp (lex_cmp N.compare (lex_cmp N.compare (lex_cmp bytes_cmp (lex_cmp bytes_cmp (lex_cmp bytes_cmp bytes_cmp))))).

(** [std::tie(file, line, column, check, kind, message)] *)
Definition lessFinding (a b : Finding) : bool :=
  let t f := (f_file f, (f_line f, (f_column f, (f_check f, (f_kind f, f_message f))))) in
  ltb_of (lex_cmp bytes_cmp (lex_cmp N.compare (lex_cmp N.compare (lex_cmp bytes_cmp (lex_cmp bytes_cmp bytes_cmp)))) (t a) (t b)).

(** The comparator of the sort and the predicate of [std::unique]. *)
Definition finding_less (a b : Finding) : bool :=
  if lessFinding a b then true else if lessFinding b a then false else bytes_ltb (f_fingerprint a) (f_fingerprint b).

Definition same_finding (a b : Finding) : bool :=
  negb (lessFinding a b) && negb (lessFinding b a) && bool_decide (f_fingerprint a = f_fingerprint b).

(** [std::unique]: an element is dropped when it equals the last one kept. *)
Fixpoint unique_after {A} (same : A -> A -> bool) (last : A) (l : list A) : list A :=
  match l with
  | [] => []
  | x :: l' => if same last x then unique_after same last l' else x :: unique_after same x l'
  end.

Definition std_unique {A} (same : A -> A -> bool) (l : list A) : list A :=
  match l with [] => [] | x :: l' => x :: unique_after same x l' end.

Section Findings.
Context `{!PathOps}.
(** [xxh3_64bits], and [lineRef.sub] with nothing for the expression [:\[0-9\]+(:\[0-9\]+)?], which takes
    one match out. *)
Variable xxh3 : bytes -> N.
Variable lineRef_sub : bytes -> bytes.

Definition findingFingerprint (check kind file : bytes) (identity : list bytes) : bytes :=
  let key := str "vycor-finding/v1" ++ [Byte.x00] ++ check ++ [Byte.x00] ++ kind ++ [Byte.x00] ++ file ++ (identity ≫= fun part => Byte.x00 :: part) in
  hex_text false 16 (xxh3 key).

(** [while (out != previous) { previous = out; out = lineRef.sub(empty, out); }] *)
Fixpoint sub_all (fuel : nat) (out previous : bytes) : option bytes :=
  match fuel with
  | O => None
  | S fuel' => if decide (out = previous) then Some out else sub_all fuel' (lineRef_sub out) out
  end.

Definition messageIdentity (message projectRoot : bytes) : bytes :=
  let out := stripProjectRoot message projectRoot in default out (sub_all (length out + 2) out []).

Definition findingIdentity (d : Diagnostic) (projectRoot : bytes) : list bytes :=
  let identity :=
    if decide (dx_entities d <> []) then dx_entities d
    else if decide (dx_resolvedDecl d <> [] \/ dx_betterDecl d <> [] \/ dx_missingHeader d <> []) then
      [dx_resolvedDecl d; dx_betterDecl d;
       if decide (dx_missingHeader d = []) then [] else relativeToRoot (absolutePath (dx_missingHeader d) projectRoot) projectRoot]
    else [messageIdentity (dx_message d) projectRoot] in
  if decide (dx_scope d = []) then identity else identity ++ [str "scope=" ++ dx_scope d].

Definition finding_of (projectRoot : bytes) (absolutePaths : bool) (d : Diagnostic) : Finding :=
  let check := checkNameOf d in
  let kind := diagnosticKindName (dx_kind d) in
  let '(spelled0, line, column) := splitLocation (dx_callLocation d) in
  let spelled := if decide (spelled0 = []) then dx_file d else spelled0 in
  let path := absolutePath spelled projectRoot in
  let relFile := relativeToRoot path projectRoot in
  MkFinding check kind (diagnosticSeverity d) path (if absolutePaths then path else relFile) line column
    (if absolutePaths then dx_message d else stripProjectRoot (dx_message d) projectRoot)
    (findingFingerprint check kind relFile (findingIdentity d projectRoot)).

Definition buildFindings `{!StdSort} (diags : list Diagnostic) (projectRoot : bytes) (absolutePaths : bool) : list Finding :=
  std_unique same_finding (std_sort finding_less (finding_of projectRoot absolutePaths <$> diags)).
End Findings.

(** * Inline suppressions *)

Record Suppression := MkSuppression {
  sup_path : bytes;
  sup_file : bytes;
  sup_line : N;
  sup_ownLine : bool;
  sup_checks : list bytes;
  sup_used : bool
}.

#[global] Instance Suppression_eq_dec : EqDecision Suppression.
Proof. solve_decision. Defined.

Definition trim (s : bytes) : bytes := rtrim (ltrim_by is_space s).

(** [s.split(out, c, -1, false)]: the parts between the separators that are not empty. *)
Fixpoint split_parts (c : Byte.byte) (s part : bytes) : list bytes :=
  let close := if decide (part = []) then [] else [part] in
  match s with
  | [] => close
  | b :: s' => if decide (b = c) then close ++ split_parts c s' [] else split_parts c s' (part ++ [b])
  end.

Definition split_all (c : Byte.byte) (s : bytes) : list bytes := split_parts c s [].

(** [if (tok.starts_with("--")) break; if (!tok.empty()) push_back(tok);] *)
Fixpoint until_dashes (tokens : list bytes) : list bytes :=
  match tokens with
  | [] => []
  | t :: tokens' =>
      let tok := trim t in
      if starts_with tok (str "--") then [] else (if decide (tok = []) then [] else [tok]) ++ until_dashes tokens'
  end.

Section Suppressions.
(** The two expressions: [marker] answers where the comment starts and the text in the
    brackets, [disableMarker] whether it is [next-line] and the list of checks. *)
Variable marker : bytes -> option (nat * bytes).
Variable disableMarker : bytes -> option (bool * bytes).

Definition ignore_checks (text : bytes) : list bytes := filter (fun n => n <> []) (trim <$> split_all Byte.x2c text).

Definition disable_checks (text : bytes) : list bytes :=
  split_all Byte.x2c (trim text) ≫= fun part => until_dashes (split_all Byte.x20 (trim part)).

Definition line_suppression (path file line : bytes) (lineNo : N) : option Suppression :=
  if negb (contains line (str "vycor:")) && negb (contains line (str "vycor-disable-")) then None
  else
    let s :=
      match marker line with
      | Some (comment, text) => Some (MkSuppression path file lineNo (bool_decide (trim (take comment line) = [])) (ignore_checks text) false)
      | None =>
          match disableMarker line with
          | Some (next, text) => Some (MkSuppression path file lineNo next (disable_checks text) false)
          | None => None
          end
      end in
    match s with Some s' => if decide (sup_checks s' = []) then None else Some s' | None => None end.

(** [while (!text.empty()) { auto [line, rest] = text.split('\n'); ... ++lineNo; }] *)
Fixpoint parse_lines (fuel : nat) (text path file : bytes) (lineNo : N) : list Suppression :=
  match fuel, text with
  | S fuel', _ :: _ =>
      let '(line, rest) := split_char Byte.x0a text in
      let lineNo := u32 (lineNo + 1) in
      option_list (line_suppression path file line lineNo) ++ parse_lines fuel' rest path file lineNo
  | _, _ => []
  end.

Definition parseSuppressions (text path file : bytes) : list Suppression := parse_lines (length text) text path file 0.

(** [s] covers the place of [f] and names its check. *)
Definition at_place (s : Suppression) (f : Finding) : bool :=
  bool_decide (sup_line s = f_line f) || (sup_ownLine s && bool_decide (u32 (sup_line s + 1) = f_line f)).

Definition names_check (s : Suppression) (f : Finding) : bool :=
  existsb (fun name => bool_decide (name = str "*") || bool_decide (name = f_check f)) (sup_checks s).

Definition covers (f : Finding) (s : Suppression) : bool := at_place s f && names_check s f.

Definition mark_used (f : Finding) (s : Suppression) : Suppression :=
  if covers f s then MkSuppression (sup_path s) (sup_file s) (sup_line s) (sup_ownLine s) (sup_checks s) true else s.

(** One finding: the suppressions it uses are marked, and it is kept or removed. *)
Definition suppress_one (st : gmap bytes (list Suppression) * nat * list Finding) (f : Finding) : gmap bytes (list Suppression) * nat * list Finding :=
  let '(byPath, removed, kept) := st in
  match byPath !! f_path f with
  | Some l =>
      if decide (f_line f <> 0%N) then
        let byPath' := <[f_path f := mark_used f <$> l]> byPath in
        if existsb (covers f) l then (byPath', S removed, kept) else (byPath', removed, kept ++ [f])
      else (byPath, removed, kept ++ [f])
  | None => (byPath, removed, kept ++ [f])
  end.

Context `{!PathOps}.
(** The text of a file, when it can be read. *)
Variable read : bytes -> option bytes.

Definition scanned_paths (findings : list Finding) (extraFiles : list bytes) (projectRoot : bytes) : list bytes :=
  sorted_keys_of bytes_cmp (list_to_set (filter (fun p => p <> []) (f_path <$> findings)) ∪ list_to_set ((fun p => absolutePath p projectRoot) <$> extraFiles)).

Definition scan_file (projectRoot : bytes) (byPath : gmap bytes (list Suppression)) (path : bytes) : gmap bytes (list Suppression) :=
  match read path with
  | None => byPath
  | Some text =>
      let parsed := parseSuppressions text path (relativeToRoot path projectRoot) in
      if decide (parsed = []) then byPath else <[path := parsed]> byPath
  end.

Definition unused_less (a b : Suppression) : bool := ltb_of (lex_cmp bytes_cmp N.compare (sup_file a, sup_line a) (sup_file b, sup_line b)).

(** The findings kept, the unused suppressions and how many findings were removed. *)
Definition applyInlineSuppressions `{!StdSort} (findings : list Finding) (extraFiles : list bytes) (projectRoot : bytes) :
    list Finding * list Suppression * nat :=
  let byPath := foldl (scan_file projectRoot) ∅ (scanned_paths findings extraFiles projectRoot) in
  let '(byPath', removed, kept) := foldl suppress_one (byPath, 0, []) findings in
  let unused := entries bytes_cmp byPath' ≫= fun kv => filter (fun s => sup_used s = false) kv.2 in
  (kept, std_sort unused_less unused, removed).
End Suppressions.

(** * Baseline *)

Record BaselineEntry := MkBaseline {
  b_fingerprint : bytes;
  b_count : N;
  b_check : bytes;
  b_file : bytes;
  b_message : bytes
}.

#[global] Instance BaselineEntry_eq_dec : EqDecision BaselineEntry.
Proof. solve_decision. Defined.

Definition with_count (e : BaselineEntry) (n : N) : BaselineEntry := MkBaseline (b_fingerprint e) n (b_check e) (b_file e) (b_message e).

Definition kBaselineVersion : Z := 2.

(** [try_emplace], the fields of a first entry, and the count. *)
Definition count_entry (e : BaselineEntry) (n : N) (m : gmap bytes BaselineEntry) : gmap bytes BaselineEntry :=
  let e' := default (with_count e 0) (m !! b_fingerprint e) in <[b_fingerprint e := with_count e' (u32 (b_count e' + n))]> m.

Definition entry_of (f : Finding) : BaselineEntry := MkBaseline (f_fingerprint f) 0 (f_check f) (f_file f) (f_message f).

Definition baseline_of (findings : list Finding) : list BaselineEntry :=
  (entries bytes_cmp (foldl (fun m f => count_entry (entry_of f) 1 m) ∅ findings)).*2.

Definition baseline_entry_json (e : BaselineEntry) : json :=
  JObj [(str "fingerprint", JStr (b_fingerprint e)); (str "count", JInt (Z.of_N (b_count e))); (str "check", JStr (b_check e));
        (str "file", JStr (b_file e)); (str "message", JStr (b_message e))].

(** The value [writeBaselineFile] writes. *)
Definition baseline_json (findings : list Finding) : json :=
  JObj [(str "version", JInt kBaselineVersion); (str "tool", JStr (str "vycor-cpp check"));
        (str "findings", JArr (baseline_entry_json <$> baseline_of findings))].

Definition obj_integer (k : bytes) (o : object) : option Z := match obj_get k o with Some (JInt z) => Some z | _ => None end.
Definition obj_array (k : bytes) (o : object) : option (list json) := match obj_get k o with Some (JArr l) => Some l | _ => None end.

Definition in_quotes (s : bytes) : bytes := [Byte.x22] ++ s ++ [Byte.x22].

(** One entry: its fingerprint, without the suffix of version 1, and its count. *)
Definition read_baseline_entry (version : Z) (item : json) : bytes + (BaselineEntry * N) :=
  match as_object item with
  | None => inl (str "a baseline entry has no " ++ in_quotes (str "fingerprint"))
  | Some obj =>
      match obj_string (str "fingerprint") obj with
      | None => inl (str "a baseline entry has no " ++ in_quotes (str "fingerprint"))
      | Some fp =>
          let bare := if (version =? 1)%Z then (split_char Byte.x2d fp).1 else fp in
          let entry := MkBaseline bare 0 (default [] (obj_string (str "check") obj)) (default [] (obj_string (str "file") obj))
                         (default [] (obj_string (str "message") obj)) in
          match obj_integer (str "count") obj with
          | Some c => if (c <? 1)%Z then inl (str "baseline entry " ++ bare ++ str " has a count below 1") else inr (entry, u32 (Z.to_N c))
          | None => inr (entry, 1%N)
          end
      end
  end.

Fixpoint read_baseline_list (version : Z) (items : list json) (m : gmap bytes BaselineEntry) : bytes + gmap bytes BaselineEntry :=
  match items with
  | [] => inr m
  | item :: items' =>
      match read_baseline_entry version item with
      | inl error => inl error
      | inr (e, n) => read_baseline_list version items' (count_entry e n m)
      end
  end.

(** [parsed] is what [json::parse] makes of the text. *)
Definition parseBaseline (parsed : bytes + json) : bytes + list BaselineEntry :=
  match parsed with
  | inl message => inl (str "not JSON: " ++ message)
  | inr v =>
      match as_object v with
      | None => inl (str "not a JSON object")
      | Some root =>
          match obj_integer (str "version") root with
          | Some version =>
              if (version =? 1)%Z || (version =? kBaselineVersion)%Z then
                match obj_array (str "findings") root with
                | None => inl (str "no " ++ in_quotes (str "findings") ++ str " array")
                | Some items =>
                    match read_baseline_list version items ∅ with
                    | inl error => inl error
                    | inr m => inr (entries bytes_cmp m).*2
                    end
                end
              else inl (str "unsupported baseline version (expected 1 or 2)")
          | None => inl (str "unsupported baseline version (expected 1 or 2)")
          end
      end
  end.

(** [file] is the contents, or the message of the error; a failure is prefixed with the path. *)
Definition readBaselineFile (json_parse : bytes -> bytes + json) (path : bytes) (file : bytes + bytes) : bytes + list BaselineEntry :=
  match file with
  | inl message => inl (str "cannot read " ++ path ++ str ": " ++ message)
  | inr text => match parseBaseline (json_parse text) with inl error => inl (path ++ str ": " ++ error) | inr l => inr l end
  end.

(** * Changed lines *)

Section Changed.
Context `{!PathOps}.

Definition patchPathMatches (patchFile absPath : bytes) : bool :=
  let rel := remove_dots patchFile in
  if decide (rel = []) then false
  else if is_absolute rel then bool_decide (rel = absPath)
  else bool_decide (absPath = rel) ||
       (bool_decide (rel `suffix_of` absPath) && bool_decide (absPath !! (length absPath - length rel - 1) = Some slash)).

Definition onChangedLine (f : Finding) (ranges : list PatchRange) : bool :=
  if decide (f_line f = 0%N \/ f_path f = []) then false
  else existsb (fun r => patchPathMatches (pr_file r) (f_path f) && (pr_firstLine r <=? f_line f)%N && (f_line f <=? pr_lastLine r)%N) ranges.

(** * The baseline, applied *)

(** Which findings are reported, how many are removed and what is stale. *)
Record BaselineRun := MkRun { br_report : list bool; br_removed : nat; br_stale : list BaselineEntry }.

Definition hide (members : list nat) (report : list bool) : list bool := foldl (fun r i => <[i := false]> r) report members.

Definition fingerprint_groups (findings : list Finding) : gmap bytes (list nat) :=
  foldl (fun g '(i, f) => push_back (f_fingerprint f) i g) ∅ (imap pair findings).

Definition by_fingerprint (baseline : list BaselineEntry) : gmap bytes BaselineEntry :=
  foldl (fun m e => <[b_fingerprint e := e]> m) ∅ baseline.

(** [std::stable_partition] *)
Definition changed_first (changed : nat -> bool) (members : list nat) : list nat :=
  filter (fun i => changed i = true) members ++ filter (fun i => changed i = false) members.

Definition group_step (byFingerprint : gmap bytes BaselineEntry) (changed : nat -> bool) (st : BaselineRun) (group : bytes * list nat) : BaselineRun :=
  let '(fingerprint, members) := group in
  let known := match byFingerprint !! fingerprint with Some e => N.to_nat (b_count e) | None => 0 end in
  if decide (length members <= known) then
    MkRun (hide members (br_report st)) (br_removed st + length members)
      (match byFingerprint !! fingerprint with
       | Some e => if decide (length members < known) then br_stale st ++ [with_count e (u32 (N.of_nat (known - length members)))] else br_stale st
       | None => br_stale st
       end)
  else
    let surplus := length members - known in
    MkRun (hide (drop surplus (changed_first changed members)) (br_report st)) (br_removed st + known) (br_stale st).

Definition stale_less (a b : BaselineEntry) : bool :=
  let t e := (b_file e, (b_check e, b_fingerprint e)) in ltb_of (lex_cmp bytes_cmp (lex_cmp bytes_cmp bytes_cmp) (t a) (t b)).

(** The elements whose flag is set. *)
Definition reported {A} (flags : list bool) (l : list A) : list A := (filter (fun bf : bool * A => bf.1 = true) (zip flags l)).*2.

(** The findings reported, the stale entries and how many findings were removed. *)
Definition applyBaseline `{!StdSort} (findings : list Finding) (baseline : list BaselineEntry) (changedLines : option (list PatchRange)) :
    list Finding * list BaselineEntry * nat :=
  let changed i := match changedLines, findings !! i with Some ranges, Some f => onChangedLine f ranges | _, _ => false end in
  let groups := fingerprint_groups findings in
  let st := foldl (group_step (by_fingerprint baseline) changed) (MkRun (replicate (length findings) true) 0 []) (entries bytes_cmp groups) in
  let stale := br_stale st ++ filter (fun e => groups !! b_fingerprint e = None) baseline in
  (reported (br_report st) findings, std_sort stale_less stale, br_removed st).

Definition staleBaselineCount (stale : list BaselineEntry) : N := foldl (fun n e => n + b_count e)%N 0%N stale.

Definition filterToChangedLines (findings : list Finding) (ranges : list PatchRange) : list Finding * nat :=
  foldl (fun '(kept, removed) f => if onChangedLine f ranges then (kept ++ [f], removed) else (kept, S removed)) ([], 0) findings.
End Changed.

(** * The run and its rendering *)

Definition checkTuStatusName (s : TuStatus) : bytes := if decide (s = Indexed) then str "analyzed" else tuStatusName s.

Record CheckRun := MkCheckRun {
  cr_projectRoot : bytes;
  cr_absolutePaths : bool;
  cr_tus : list (bytes * TuOutcome);
  cr_findings : list Finding;
  cr_checks : list bytes;
  cr_suppressed : nat;
  cr_baselined : nat;
  cr_outsideChanges : nat;
  cr_baselineUsed : bool;
  cr_changedLinesUsed : bool;
  cr_staleBaseline : list BaselineEntry;
  cr_reportUnusedSuppressions : bool;
  cr_unusedSuppressions : list Suppression;
  cr_toolVersion : bytes
}.

Definition failedTuCount (run : CheckRun) : nat := length (filter (fun tu => oc_status tu.2 <> Indexed) (cr_tus run)).

Definition finding_text (f : Finding) : bytes :=
  (if decide (f_file f = []) then []
   else f_file f ++
        (if decide (f_line f = 0%N) then []
         else str ":" ++ to_string (f_line f) ++ (if decide (f_column f = 0%N) then [] else str ":" ++ to_string (f_column f))) ++ str ": ") ++
  str "[" ++ f_check f ++ str "] " ++ f_message f ++ [Byte.x0a].

Definition renderText (run : CheckRun) : bytes :=
  (cr_findings run ≫= finding_text) ++
  (if decide (cr_findings run = [] /\ failedTuCount run = 0) then str "check: no issues found." ++ [Byte.x0a] else []).

Definition JNat (n : nat) : json := JInt (Z.of_nat n).

(** [if (b) j.attribute(...)] *)
Definition when (b : bool) (o : object) : object := if b then o else [].

Definition kCheckExitClean : N := 0.
Definition kCheckExitFindings : N := 1.
Definition kCheckExitParseFailures : N := 3.

Definition checkExitCode (run : CheckRun) (failOn : option Severity) (allowParseFailures : bool) : N :=
  if negb allowParseFailures && bool_decide (0 < failedTuCount run) then kCheckExitParseFailures
  else match failOn with
       | Some s => if existsb (fun f => bool_decide (severity_rank s <= severity_rank (f_severity f))) (cr_findings run)
                   then kCheckExitFindings else kCheckExitClean
       | None => kCheckExitClean
       end.

Section Rendering.
Context `{!PathOps}.

Definition tu_json (run : CheckRun) (tu : bytes * TuOutcome) : json :=
  JObj ([(str "file", JStr (if cr_absolutePaths run then tu.1 else relativeToRoot tu.1 (cr_projectRoot run)));
         (str "status", JStr (checkTuStatusName (oc_status tu.2)))] ++
        when (bool_decide (oc_detail tu.2 <> []) && bool_decide (oc_status tu.2 <> Indexed)) [(str "detail", JStr (oc_detail tu.2))]).

Definition finding_json (f : Finding) : json :=
  JObj [(str "check", JStr (f_check f)); (str "kind", JStr (f_kind f)); (str "severity", JStr (severityName (f_severity f)));
        (str "file", JStr (f_file f)); (str "line", JInt (Z.of_N (f_line f))); (str "column", JInt (Z.of_N (f_column f)));
        (str "message", JStr (f_message f)); (str "fingerprint", JStr (f_fingerprint f))].

Definition unused_json (s : Suppression) : json :=
  JObj [(str "file", JStr (sup_file s)); (str "line", JInt (Z.of_N (sup_line s))); (str "checks", JArr (JStr <$> sup_checks s))].

Definition renderJson (run : CheckRun) : json :=
  let failed := failedTuCount run in
  JObj ([(str "version", JInt 1);
         (str "summary",
          JObj ([(str "tus", JNat (length (cr_tus run))); (str "analyzed", JNat (length (cr_tus run) - failed)); (str "failed", JNat failed);
                 (str "findings", JNat (length (cr_findings run))); (str "suppressed", JNat (cr_suppressed run))] ++
                when (cr_baselineUsed run) [(str "baselined", JNat (cr_baselined run));
                                            (str "staleBaseline", JInt (Z.of_N (staleBaselineCount (cr_staleBaseline run))))] ++
                when (cr_changedLinesUsed run) [(str "outsideChanges", JNat (cr_outsideChanges run))]));
         (str "tus", JArr (tu_json run <$> cr_tus run));
         (str "findings", JArr (finding_json <$> cr_findings run))] ++
        when (cr_baselineUsed run) [(str "staleBaseline", JArr (baseline_entry_json <$> cr_staleBaseline run))] ++
        when (cr_reportUnusedSuppressions run) [(str "unusedSuppressions", JArr (unused_json <$> cr_unusedSuppressions run))]).

(** ** SARIF *)

Definition sarif_rules (run : CheckRun) : list bytes :=
  sorted_keys_of bytes_cmp (list_to_set (cr_checks run) ∪ list_to_set (f_check <$> cr_findings run)).

(** [ruleIndex]; a name that is no rule would read as 0. *)
Definition rule_index (rules : list bytes) (check : bytes) : nat := match list_find (fun r => r = check) rules with Some (i, _) => i | None => 0 end.

Definition root_uri (run : CheckRun) : bytes :=
  let u := fileUri (cr_projectRoot run) in if decide (last u = Some slash) then u else u ++ str "/".

Definition artifactLocation (run : CheckRun) (absPath : bytes) : bytes * json :=
  let rel := relativeToRoot absPath (cr_projectRoot run) in
  (str "artifactLocation",
   JObj (if decide (rel = absPath) then [(str "uri", JStr (fileUri absPath))]
         else [(str "uri", JStr (uriEncodePath rel)); (str "uriBaseId", JStr (str "%SRCROOT%"))])).

Definition rule_json (id : bytes) : json :=
  let summary := builtinSummary id in
  JObj ([(str "id", JStr id); (str "name", JStr id);
         (str "shortDescription", JObj [(str "text", JStr (if decide (summary = []) then str "Organization check " ++ id else summary))])] ++
        when (bool_decide (checkHelpUri id <> [])) [(str "helpUri", JStr (checkHelpUri id))] ++
        [(str "defaultConfiguration", JObj [(str "level", JStr (severityName (checkSeverity id)))])]).

Definition notification_json (run : CheckRun) (tu : bytes * TuOutcome) : json :=
  let text := str "TU failed (" ++ checkTuStatusName (oc_status tu.2) ++
              (if decide (oc_detail tu.2 = []) then [] else str ": " ++ oc_detail tu.2) ++ str "): " ++ relativeToRoot tu.1 (cr_projectRoot run) in
  JObj [(str "level", JStr (str "error")); (str "message", JObj [(str "text", JStr text)]);
        (str "locations", JArr [JObj [(str "physicalLocation", JObj [artifactLocation run tu.1])]])].

Definition region_json (f : Finding) : object :=
  when (bool_decide (f_line f <> 0%N))
    [(str "region", JObj ((str "startLine", JInt (Z.of_N (f_line f))) ::
                          when (bool_decide (f_column f <> 0%N)) [(str "startColumn", JInt (Z.of_N (f_column f)))]))].

Definition result_json (run : CheckRun) (rules : list bytes) (f : Finding) : json :=
  JObj ([(str "ruleId", JStr (f_check f)); (str "ruleIndex", JNat (rule_index rules (f_check f)));
         (str "level", JStr (severityName (f_severity f))); (str "message", JObj [(str "text", JStr (f_message f))])] ++
        when (bool_decide (f_path f <> []))
          [(str "locations", JArr [JObj [(str "physicalLocation", JObj (artifactLocation run (f_path f) :: region_json f))]])] ++
        [(str "partialFingerprints", JObj [(kFingerprintKey, JStr (f_fingerprint f))]);
         (str "properties", JObj [(str "kind", JStr (f_kind f))])]).

Definition renderSarif (run : CheckRun) : json :=
  let rules := sarif_rules run in
  JObj [(str "$schema", JStr (str "https://json.schemastore.org/sarif-2.1.0.json")); (str "version", JStr (str "2.1.0"));
        (str "runs", JArr [JObj
          [(str "tool", JObj [(str "driver",
             JObj ([(str "name", JStr (str "vycor-cpp check"))] ++
                   when (bool_decide (cr_toolVersion run <> [])) [(str "version", JStr (cr_toolVersion run))] ++
                   [(str "informationUri", JStr (str "https://github.com/bearbones/vycor-cpp")); (str "rules", JArr (rule_json <$> rules))]))]);
           (str "originalUriBaseIds", JObj [(str "%SRCROOT%", JObj [(str "uri", JStr (root_uri run))])]);
           (str "invocations", JArr [JObj
              [(str "executionSuccessful", JBool (bool_decide (failedTuCount run = 0)));
               (str "toolExecutionNotifications", JArr (notification_json run <$> filter (fun tu => oc_status tu.2 <> Indexed) (cr_tus run)))]]);
           (str "results", JArr (result_json run rules <$> cr_findings run))]])].

(** ** The summary *)

Definition newline : bytes := [Byte.x0a].
Definition of_nat (n : nat) : bytes := to_string (N.of_nat n).

Definition failed_line (run : CheckRun) (tu : bytes * TuOutcome) : bytes :=
  if decide (oc_status tu.2 = Indexed) then []
  else str "check:   failed: " ++ (if cr_absolutePaths run then tu.1 else relativeToRoot tu.1 (cr_projectRoot run)) ++ str " (" ++
       checkTuStatusName (oc_status tu.2) ++ (if decide (oc_detail tu.2 = []) then [] else str ": " ++ oc_detail tu.2) ++ str ")" ++ newline.

Definition stale_line (e : BaselineEntry) : bytes :=
  str "check:   " ++ b_fingerprint e ++ str " [" ++ b_check e ++ str "] " ++ b_file e ++
  (if (1 <? b_count e)%N then str " (x" ++ to_string (b_count e) ++ str ")" else []) ++ newline.

Definition unused_line (s : Suppression) : bytes :=
  sup_file s ++ str ":" ++ to_string (sup_line s) ++ str ": unused suppression ignore[" ++
  mjoin (imap (fun i c => (if decide (i = 0) then [] else str ",") ++ c) (sup_checks s)) ++ str "]" ++ newline.

Definition renderSummary (run : CheckRun) : bytes :=
  let failed := failedTuCount run in
  str "check: " ++ of_nat (length (cr_tus run)) ++ str " TU(s): " ++ of_nat (length (cr_tus run) - failed) ++ str " analyzed, " ++
  of_nat failed ++ str " failed" ++ newline ++ (cr_tus run ≫= failed_line run) ++
  str "check: " ++ of_nat (length (cr_findings run)) ++ str " finding(s) reported" ++
  (if decide (cr_suppressed run = 0) then [] else str "; " ++ of_nat (cr_suppressed run) ++ str " suppressed inline") ++
  (if cr_baselineUsed run then str "; " ++ of_nat (cr_baselined run) ++ str " in the baseline" else []) ++
  (if cr_changedLinesUsed run then str "; " ++ of_nat (cr_outsideChanges run) ++ str " outside the changed lines" else []) ++ newline ++
  (if cr_baselineUsed run && bool_decide (cr_staleBaseline run <> []) then
     let stale := staleBaselineCount (cr_staleBaseline run) in
     str "check: " ++ to_string stale ++ str " baseline entr" ++ (if (stale =? 1)%N then str "y" else str "ies") ++
     str " no longer found (stale; rewrite the baseline with --write-baseline to drop):" ++ newline ++ (cr_staleBaseline run ≫= stale_line)
   else []) ++
  (if cr_reportUnusedSuppressions run then cr_unusedSuppressions run ≫= unused_line else []).
End Rendering.

(** * The report stage of a run *)

Definition kCheckExitUsage : N := 2.

(** The options of the command, and whether the two files it may write are written. *)
Record ReportArgs := MkReportArgs {
  ra_absolutePaths : bool;
  ra_verbose : bool;
  ra_writeBaseline : bool;
  ra_baselineWritable : bool;
  ra_baseline : option (list BaselineEntry);
  ra_changedRanges : option (list PatchRange);
  ra_outputWritten : bool;
  ra_failOn : option Severity;
  ra_allowParseFailures : bool
}.

Section Stage.
Context `{!PathOps} `{!StdSort}.
Variable xxh3 : bytes -> N.
Variable lineRef_sub : bytes -> bytes.
Variable marker : bytes -> option (nat * bytes).
Variable disableMarker : bytes -> option (bool * bytes).
Variable read : bytes -> option bytes.
Variable toolVersion : bytes.

(** The run after the findings are built and the inline suppressions applied. *)
Definition suppressed_run (args : ReportArgs) (projectRoot : bytes) (enabled : gset bytes) (files : list bytes) (tus : list (bytes * TuOutcome))
    (diagnostics : list Diagnostic) : CheckRun :=
  let findings := buildFindings xxh3 lineRef_sub diagnostics projectRoot (ra_absolutePaths args) in
  let '(kept, unused, removed) := applyInlineSuppressions marker disableMarker read findings (if ra_verbose args then files else []) projectRoot in
  MkCheckRun projectRoot (ra_absolutePaths args) tus kept (sorted_keys_of bytes_cmp enabled) removed 0 0 false false [] (ra_verbose args) unused toolVersion.

Definition baselined_run (args : ReportArgs) (run : CheckRun) : CheckRun :=
  match ra_baseline args with
  | None => run
  | Some baseline =>
      let '(kept, stale, removed) := applyBaseline (cr_findings run) baseline (ra_changedRanges args) in
      MkCheckRun (cr_projectRoot run) (cr_absolutePaths run) (cr_tus run) kept (cr_checks run) (cr_suppressed run) removed (cr_outsideChanges run)
        true (cr_changedLinesUsed run) stale (cr_reportUnusedSuppressions run) (cr_unusedSuppressions run) (cr_toolVersion run)
  end.

Definition filtered_run (args : ReportArgs) (run : CheckRun) : CheckRun :=
  match ra_changedRanges args with
  | None => run
  | Some ranges =>
      let '(kept, removed) := filterToChangedLines (cr_findings run) ranges in
      MkCheckRun (cr_projectRoot run) (cr_absolutePaths run) (cr_tus run) kept (cr_checks run) (cr_suppressed run) (cr_baselined run) removed
        (cr_baselineUsed run) true (cr_staleBaseline run) (cr_reportUnusedSuppressions run) (cr_unusedSuppressions run) (cr_toolVersion run)
  end.

(** The run that is reported, the baseline that is written and the exit code.  The baseline is
    not written when a unit failed, unless that is allowed; a baseline or an output that cannot
    be written is a usage error, the former before anything is reported. *)
Definition check_report (args : ReportArgs) (projectRoot : bytes) (enabled : gset bytes) (files : list bytes) (tus : list (bytes * TuOutcome))
    (diagnostics : list Diagnostic) : option CheckRun * option json * N :=
  let run := suppressed_run args projectRoot enabled files tus diagnostics in
  let writes := ra_writeBaseline args && negb (bool_decide (0 < failedTuCount run) && negb (ra_allowParseFailures args)) in
  if writes && negb (ra_baselineWritable args) then (None, None, kCheckExitUsage)
  else
    let written := if writes then Some (baseline_json (cr_findings run)) else None in
    let run := filtered_run args (baselined_run args run) in
    let code :=
      if ra_outputWritten args then checkExitCode run (if writes then None else ra_failOn args) (ra_allowParseFailures args)
      else kCheckExitUsage in
    (Some run, written, code).
End Stage.
