(* ===== verification/ReportCorrect.v ===== *)
(** What the report of a check run shows: findings in one order without repeats whatever the
    order of the diagnostics, fingerprints that name a finding and survive edits above it,
    suppressions and a baseline that remove exactly what they cover, and a gate that passes
    once its findings are accepted. *)

From S2P Require Import Prelude Ordering SortedMap Text Results PatchParse PatchMapping Codec SnapshotMeta ReachAnalyses CheckSet Report.

(** * Locations *)

Lemma rfind_char_app c a b : c ∉ b -> rfind_char c (a ++ c :: b) = Some (length a).
Proof.
  intros Hb. assert (Hn : rfind_char c b = None).
  { induction b as [|x b IH]; [done|]. apply not_elem_of_cons in Hb as [Hx Hb]. cbn [rfind_char]. rewrite (IH Hb). by rewrite decide_False. }
  induction a as [|x a IH]; cbn [app rfind_char length].
  - rewrite Hn. by rewrite decide_True.
  - by rewrite IH.
Qed.

Lemma last_number_app p n : (n < two32)%N -> last_number (p ++ str ":" ++ to_string n) = Some (p, n).
Proof.
  intros Hn. unfold last_number. change (str ":" ++ to_string n) with (Byte.x3a :: to_string n). rewrite rfind_char_app by by apply to_string_no.
  cbn [mbind option_bind]. rewrite drop_app_ge by lia. replace (S (length p) - length p) with 1 by lia. cbn [skipn]. rewrite drop_0.
  rewrite getAsInteger_to_string by done. cbn. by rewrite take_app_length.
Qed.

Definition location_text (path : bytes) (line column : N) : bytes := path ++ str ":" ++ to_string line ++ str ":" ++ to_string column.

(** A place is read back from its text, whatever the path contains. *)
Lemma split_location_text p line column : (line < two32)%N -> (column < two32)%N -> splitLocation (location_text p line column) = (p, line, column).
Proof.
  intros Hl Hc. unfold splitLocation, location_text. rewrite (assoc_L (++) p), (assoc_L (++) (p ++ str ":")), <- (assoc_L (++) p).
  rewrite last_number_app by done. by rewrite last_number_app.
Qed.

(** * Fingerprints *)

Lemma byte_of_inj m n : (m < 256)%N -> (n < 256)%N -> byte_of m = byte_of n -> m = n.
Proof.
  intros Hm Hn E. unfold byte_of in E.
  destruct (Byte.of_N m) as [x|] eqn:Ex; [|apply Byte.of_N_None_iff in Ex; lia].
  destruct (Byte.of_N n) as [y|] eqn:Ey; [|apply Byte.of_N_None_iff in Ey; lia].
  apply Byte.to_of_N in Ex, Ey. cbn in E. congruence.
Qed.

Lemma hex_digit_inj upper m n : (m < 16)%N -> (n < 16)%N -> hex_digit upper m = hex_digit upper n -> m = n.
Proof.
  unfold hex_digit. intros Hm Hn E. apply byte_of_inj in E; revert E;
    destruct (N.ltb_spec m 10), (N.ltb_spec n 10), upper; lia.
Qed.

Lemma hex_text_length upper width n : length (hex_text upper width n) = width.
Proof. revert n. induction width as [|w IH]; intros n; [done|]. cbn [hex_text]. rewrite length_app, IH. cbn. lia. Qed.

Lemma hex_text_inj upper width m n : (m < 16 ^ N.of_nat width)%N -> (n < 16 ^ N.of_nat width)%N ->
  hex_text upper width m = hex_text upper width n -> m = n.
Proof.
  revert m n. induction width as [|w IH]; intros m n Hm Hn E; [cbn in *; lia|]. cbn [hex_text] in E.
  apply app_inj_tail in E as [E1 E2]. replace (N.of_nat (S w)) with (N.succ (N.of_nat w)) in Hm, Hn by lia. rewrite N.pow_succ_r' in Hm, Hn.
  pose proof (N.div_mod m 16). pose proof (N.div_mod n 16). pose proof (N.mod_lt m 16). pose proof (N.mod_lt n 16).
  apply IH in E1; [|apply N.Div0.div_lt_upper_bound; lia..]. apply hex_digit_inj in E2; lia.
Qed.

(** Text with NUL as a separator. *)
Definition nul_free (s : bytes) : Prop := Byte.x00 ∉ s.

Definition fingerprint_key (check kind file : bytes) (identity : list bytes) : bytes :=
  str "vycor-finding/v1" ++ ((check :: kind :: file :: identity) ≫= fun part => Byte.x00 :: part).

Lemma fingerprint_of_key xxh3 check kind file identity :
  findingFingerprint xxh3 check kind file identity = hex_text false 16 (xxh3 (fingerprint_key check kind file identity)).
Proof. done. Qed.

Lemma nul_joined_inj (l k : list bytes) : Forall nul_free l -> Forall nul_free k ->
  l ≫= (fun part => Byte.x00 :: part) = k ≫= (fun part => Byte.x00 :: part) -> l = k.
Proof.
  intros Hl. revert k. induction Hl as [|x l Hx Hl IH]; intros [|y k] Hk E; [done|done|done|]. apply Forall_cons in Hk as [Hy Hk].
  assert (Hxy : forall (a b r s : bytes), nul_free a -> nul_free b -> (r = [] \/ exists r', r = Byte.x00 :: r') -> (s = [] \/ exists s', s = Byte.x00 :: s') ->
    a ++ r = b ++ s -> a = b /\ r = s).
  { intros a. induction a as [|c a IHa]; intros [|d b] r s Ha Hb Hr Hs E'; cbn in E'.
    - done.
    - destruct Hr as [-> | [r' ->]]; [done|]. injection E' as <- _. exfalso. apply Hb. left.
    - destruct Hs as [-> | [s' ->]]; [done|]. injection E' as -> _. exfalso. apply Ha. left.
    - injection E' as -> E'. apply not_elem_of_cons in Ha as [_ Ha]. apply not_elem_of_cons in Hb as [_ Hb].
      destruct (IHa b r s Ha Hb Hr Hs E') as [-> ->]. done. }
  assert (Hst : forall q : list bytes, (q ≫= fun part => Byte.x00 :: part) = [] \/ exists r', (q ≫= fun part => Byte.x00 :: part) = Byte.x00 :: r').
  { intros [|z q]; [by left|right]. cbn. by eexists. }
  cbn in E. injection E as E. apply Hxy in E as [-> E]; [|done|done|apply Hst|apply Hst]. f_equal. by apply IH.
Qed.

(** A fingerprint names a finding: unless the hash collides, two findings share it exactly when
    they have the same check, kind, file and identity. *)
Theorem fingerprint_names_finding (xxh3 : bytes -> N) (check kind file check' kind' file' : bytes) (identity identity' : list bytes) :
  (forall s, xxh3 s < 2 ^ 64)%N ->
  Forall nul_free (check :: kind :: file :: identity) -> Forall nul_free (check' :: kind' :: file' :: identity') ->
  (xxh3 (fingerprint_key check kind file identity) = xxh3 (fingerprint_key check' kind' file' identity') ->
   fingerprint_key check kind file identity = fingerprint_key check' kind' file' identity') ->
  findingFingerprint xxh3 check kind file identity = findingFingerprint xxh3 check' kind' file' identity' <->
  (check, kind, file, identity) = (check', kind', file', identity').
Proof.
  intros Hx H1 H2 Hinj. rewrite !fingerprint_of_key. split; [|by intros [= -> -> -> ->]]. intros E.
  apply hex_text_inj in E; [|apply Hx..]. apply Hinj in E. unfold fingerprint_key in E. apply app_inv_head in E.
  apply nul_joined_inj in E; [|done..]. by injection E as -> -> -> ->.
Qed.

Lemma fingerprint_names_finding_witness :
  let sum s := (foldl (fun h b => h * 257 + Byte.to_N b) 0 s mod 2 ^ 64)%N in
  findingFingerprint sum (str "dead-code") (str "DeadCode_Pessimistic") (str "a.cpp") [str "f"] <>
  findingFingerprint sum (str "dead-code") (str "DeadCode_Pessimistic") (str "a.cpp") [str "g"].
Proof.
  intros sum E. apply (fingerprint_names_finding sum) in E.
  - injection E. intros Hg. vm_compute in Hg. discriminate Hg.
  - intros s. apply N.mod_lt. discriminate.
  - repeat constructor; by_computation.
  - repeat constructor; by_computation.
  - intros Hk. exfalso. vm_compute in Hk. discriminate Hk.
Defined.

(** A diagnostic at another place and with another text. *)
Definition moved (d : Diagnostic) (location message : bytes) : Diagnostic :=
  MkDiagnostic (dx_kind d) (dx_file d) location (dx_resolvedDecl d) (dx_betterDecl d) (dx_missingHeader d) message (dx_checkName d) (dx_entities d)
    (dx_scope d).

(** C29. Edits above a finding do not change what it is: when lines are inserted or removed, the
    diagnostic moves and its text names other lines, and its fingerprint and file stay, with
    the new line and column read from its location. *)
Theorem fingerprint_survives_edits `{!PathOps} (xxh3 : bytes -> N) (lineRef_sub : bytes -> bytes) (root : bytes) (absolute : bool) (d : Diagnostic)
    (path message : bytes) (line column line' column' : N) :
  dx_callLocation d = location_text path line column -> (line < two32)%N -> (column < two32)%N -> (line' < two32)%N -> (column' < two32)%N ->
  dx_entities d <> [] \/ dx_resolvedDecl d <> [] \/ dx_betterDecl d <> [] \/ dx_missingHeader d <> [] ->
  let f := finding_of xxh3 lineRef_sub root absolute d in
  let f' := finding_of xxh3 lineRef_sub root absolute (moved d (location_text path line' column') message) in
  f_fingerprint f' = f_fingerprint f /\ f_file f' = f_file f /\ f_severity f' = f_severity f /\
  (f_line f, f_column f) = (line, column) /\ (f_line f', f_column f') = (line', column').
Proof.
  intros Hloc Hl Hc Hl' Hc' Hid f f'.
  assert (Hi : findingIdentity lineRef_sub (moved d (location_text path line' column') message) root = findingIdentity lineRef_sub d root).
  { unfold findingIdentity. cbn [moved dx_entities dx_resolvedDecl dx_betterDecl dx_missingHeader dx_message dx_scope].
    destruct (decide (dx_entities d <> [])); [done|]. destruct (decide (dx_resolvedDecl d <> [] \/ dx_betterDecl d <> [] \/ dx_missingHeader d <> [])); [done|tauto]. }
  unfold f, f', finding_of. cbn [moved dx_callLocation]. rewrite Hloc, !split_location_text by done. rewrite Hi.
  cbn [f_fingerprint f_file f_severity f_line f_column moved dx_file dx_kind]. done.
Qed.

(** Paths without dots and links, for samples. *)
Definition plain_paths : PathOps := {|
  is_absolute := fun p => starts_with p (str "/");
  path_append := fun a b => a ++ str "/" ++ b;
  remove_dots := fun p => p;
  real_path := fun _ => None;
  parent_path := fun p => match rfind_char slash p with Some i => take i p | None => [] end;
  path_filename := fun p => match rfind_char slash p with Some i => drop (S i) p | None => p end;
  path_components := components;
  fs_exists := fun _ => false;
  fs_is_directory := fun _ => true
|}.

Definition sample_diagnostic (location entity : bytes) : Diagnostic :=
  MkDiagnostic Exception_Escape [] location [] [] [] (str "at /w/" ++ location) [] [entity] [].

Lemma fingerprint_survives_edits_witness :
  let d := sample_diagnostic (location_text (str "/w/a:b.cpp") 7 3) (str "f") in
  let sum s := (foldl (fun h b => h * 257 + Byte.to_N b) 0 s mod 2 ^ 64)%N in
  let f := @finding_of plain_paths sum id (str "/w") false d in
  let f' := @finding_of plain_paths sum id (str "/w") false (moved d (location_text (str "/w/a:b.cpp") 19 3) (str "at 19")) in
  f_fingerprint f' = f_fingerprint f /\ f_file f' = f_file f /\ f_severity f' = f_severity f /\
  (f_line f, f_column f) = (7, 3)%N /\ (f_line f', f_column f') = (19, 3)%N.
Proof.
  intros d sum f f'. apply (@fingerprint_survives_edits plain_paths sum id (str "/w") false d (str "/w/a:b.cpp") (str "at 19") 7 3 19 3);
    [reflexivity|reflexivity|reflexivity|reflexivity|reflexivity|by left].
Defined.

(** * One order, no repeats *)

Lemma StronglySorted_sublist {A} (R : relation A) (l k : list A) : l `sublist_of` k -> StronglySorted R k -> StronglySorted R l.
Proof.
  induction 1 as [|x l k Hs IH|x l k Hs IH]; intros Hk; [done| |].
  - apply StronglySorted_inv in Hk as [Hk Hall]. constructor; [by apply IH|]. rewrite Forall_forall in *. intros y Hy. apply Hall. by eapply elem_of_sublist.
  - apply IH. by apply StronglySorted_inv in Hk as [Hk _].
Qed.

(** [std::unique] on a sorted list keeps one element of every key. *)
Section Unique.
Context {A K : Type} `{HK : Countable K} (key : A -> K) (cmp : K -> K -> comparison) `{HC : !TotalCmp cmp}.
Variable same : A -> A -> bool.
Hypothesis same_key : forall a b, same a b = true <-> key a = key b.

Lemma unique_after_spec last l : StronglySorted (cmp_le cmp) (key last :: (key <$> l)) ->
  unique_after same last l `sublist_of` l /\ NoDup (key last :: (key <$> unique_after same last l)) /\
  forall x, x ∈ l -> key x ∈ key last :: (key <$> unique_after same last l).
Proof.
  revert last. induction l as [|y l IH]; intros last Hs.
  - cbn. split_and!; [constructor|apply NoDup_singleton|by intros x ?%not_elem_of_nil].
  - cbn [unique_after]. apply StronglySorted_inv in Hs as [Hs Hall]. destruct (same last y) eqn:E.
    + apply same_key in E. destruct (IH last) as (Hsub & Hnd & Hin); [by rewrite E|]. split_and!; [by apply sublist_cons|done|].
      intros x [->|Hx]%elem_of_cons; [rewrite <- E; left|by apply Hin].
    + assert (Hne : key last <> key y) by (intros H; apply same_key in H; congruence). destruct (IH y Hs) as (Hsub & Hnd & Hin).
      split_and!; [by apply sublist_skip| |].
      * cbn. apply NoDup_cons. split; [|done]. intros Hl. apply Hne.
        assert (Hly : cmp_le cmp (key last) (key y)) by (rewrite Forall_forall in Hall; apply Hall; left).
        assert (Hyl : cmp_le cmp (key y) (key last)).
        { apply elem_of_cons in Hl as [Hl|Hl]; [by rewrite Hl|]. apply StronglySorted_inv in Hs as [_ Hs]. rewrite Forall_forall in Hs. apply Hs.
          apply list_elem_of_fmap in Hl as (z & -> & Hz). apply list_elem_of_fmap. exists z. split; [done|]. by eapply elem_of_sublist. }
        by apply (anti_symm (cmp_le cmp)).
      * intros x [->|Hx]%elem_of_cons; [right; left|]. right. by apply Hin.
Qed.

Lemma unique_sorted l : StronglySorted (cmp_le cmp) (key <$> l) -> key <$> std_unique same l = sorted_keys_of cmp (list_to_set (key <$> l)).
Proof.
  intros Hs. destruct l as [|x l]; [done|]. destruct (unique_after_spec x l Hs) as (Hsub & Hnd & Hin).
  apply sorted_keys_unique; [apply _| |done|].
  - cbn [std_unique]. eapply StronglySorted_sublist; [|exact Hs]. cbn. apply sublist_skip. by apply (fmap_sublist key).
  - intros k. rewrite elem_of_list_to_set. cbn [std_unique]. split.
    + intros [->|Hk]%elem_of_cons; [left|]. right. apply list_elem_of_fmap in Hk as (z & -> & Hz). apply list_elem_of_fmap. exists z. split; [done|].
      by eapply elem_of_sublist.
    + intros [->|Hk]%elem_of_cons; [left|]. apply list_elem_of_fmap in Hk as (z & -> & Hz). by apply Hin.
Qed.
End Unique.

(** The comparator of the sort compares the seven parts. *)
Lemma finding_less_key a b : finding_less a b = ltb_of (finding_cmp (finding_key a) (finding_key b)).
Proof.
  unfold finding_less, lessFinding, finding_cmp, finding_key, lex_cmp. cbn [fst snd].
  rewrite (bytes_cmp_antisym (f_file a) (f_file b)), (N.compare_antisym (f_line a) (f_line b)), (N.compare_antisym (f_column a) (f_column b)),
    (bytes_cmp_antisym (f_check a) (f_check b)), (bytes_cmp_antisym (f_kind a) (f_kind b)), (bytes_cmp_antisym (f_message a) (f_message b)), bytes_ltb_of.
  destruct (bytes_cmp (f_file a) (f_file b)); [|done..]. destruct (N.compare (f_line a) (f_line b)); [|done..].
  destruct (N.compare (f_column a) (f_column b)); [|done..]. destruct (bytes_cmp (f_check a) (f_check b)); [|done..].
  destruct (bytes_cmp (f_kind a) (f_kind b)); [|done..]. by destruct (bytes_cmp (f_message a) (f_message b)).
Qed.

Lemma same_finding_key a b : same_finding a b = true <-> finding_key a = finding_key b.
Proof.
  assert (Hk : finding_key a = finding_key b <-> finding_cmp (finding_key a) (finding_key b) = Eq) by (rewrite (tcmp_eq (cmp := finding_cmp)); done).
  rewrite Hk. unfold same_finding, lessFinding, finding_cmp, finding_key, lex_cmp. cbn [fst snd].
  rewrite (bytes_cmp_antisym (f_file a) (f_file b)), (N.compare_antisym (f_line a) (f_line b)), (N.compare_antisym (f_column a) (f_column b)),
    (bytes_cmp_antisym (f_check a) (f_check b)), (bytes_cmp_antisym (f_kind a) (f_kind b)), (bytes_cmp_antisym (f_message a) (f_message b)).
  destruct (bytes_cmp (f_file a) (f_file b)); [|done..]. destruct (N.compare (f_line a) (f_line b)); [|done..].
  destruct (N.compare (f_column a) (f_column b)); [|done..]. destruct (bytes_cmp (f_check a) (f_check b)); [|done..].
  destruct (bytes_cmp (f_kind a) (f_kind b)); [|done..]. destruct (bytes_cmp (f_message a) (f_message b)); [|done..].
  cbn. by rewrite bytes_cmp_eq, bool_decide_eq_true.
Qed.

Lemma std_unique_sublist {A} (same : A -> A -> bool) l : std_unique same l `sublist_of` l.
Proof.
  destruct l as [|x l]; [constructor|]. cbn [std_unique]. apply sublist_skip. revert x. induction l as [|y l IH]; intros x; [constructor|].
  cbn [unique_after]. destruct (same x y); [by apply sublist_cons|by apply sublist_skip].
Qed.

(** C27. The report does not depend on the order in which the units reported: it lists, for every
    combination of place, check, kind, text and fingerprint that occurs among the diagnostics,
    one finding, a finding of one of them, and it lists them in increasing order. *)
Theorem findings_exact `{!PathOps} `{!StdSort} (xxh3 : bytes -> N) (lineRef_sub : bytes -> bytes) (diags : list Diagnostic) (root : bytes) (absolute : bool) :
  let found := finding_of xxh3 lineRef_sub root absolute <$> diags in
  finding_key <$> buildFindings xxh3 lineRef_sub diags root absolute = sorted_keys_of finding_cmp (list_to_set (finding_key <$> found)) /\
  Forall (fun f => f ∈ found) (buildFindings xxh3 lineRef_sub diags root absolute).
Proof.
  intros found. unfold buildFindings. fold found. split.
  - assert (Hw : StrictWeak finding_less) by (apply (strict_weak_of_key finding_key finding_cmp); apply finding_less_key).
    pose proof (std_sort_sorted _ finding_less found Hw) as Hs. pose proof (std_sort_perm _ finding_less found) as Hp.
    rewrite (unique_sorted finding_key finding_cmp same_finding same_finding_key).
    + f_equal. apply set_eq. intros k. by rewrite !elem_of_list_to_set, Hp.
    + clear Hp. induction Hs as [|x l Hs IH Hall]; cbn; constructor; [done|]. apply Forall_fmap. eapply Forall_impl; [exact Hall|].
      intros y Hy. cbn. unfold no_less_before in Hy. rewrite finding_less_key in Hy. unfold cmp_le. rewrite (tcmp_antisym (cmp := finding_cmp) (finding_key y)).
      by destruct (finding_cmp (finding_key y) (finding_key x)).
  - apply Forall_forall. intros f Hf. rewrite <- (std_sort_perm _ finding_less found). eapply elem_of_sublist; [exact Hf|apply std_unique_sublist].
Qed.

(** * Comments *)

(** [part] is the item of [s] after [i] separators [c]. *)
Definition item_at (c : Byte.byte) (s : bytes) (i : nat) (part : bytes) : Prop :=
  exists pre post, s = pre ++ part ++ post /\ (c ∉ part) /\ (pre = [] \/ last pre = Some c) /\ (post = [] \/ head post = Some c) /\
    i = length (filter (fun b => b = c) pre).

(** All items, empty ones too. *)
Fixpoint items (c : Byte.byte) (s : bytes) : list bytes :=
  match s with
  | [] => [[]]
  | b :: s' => if decide (b = c) then [] :: items c s' else match items c s' with p :: ps => (b :: p) :: ps | [] => [[b]] end
  end.

Lemma items_cons c s : exists p ps, items c s = p :: ps.
Proof. destruct s as [|b s]; cbn; [eauto|]. case_decide; [eauto|]. destruct (items c s); eauto. Qed.

Lemma item_at_nil c i part : item_at c [] i part <-> i = 0 /\ part = [].
Proof.
  split.
  - intros (pre & post & E & _ & _ & _ & ->). symmetry in E. apply app_nil in E as [-> [-> ->]%app_nil]. done.
  - intros [-> ->]. exists [], []. split_and!; [done|by apply not_elem_of_nil|by left|by left|done].
Qed.

Lemma item_at_sep c s i part : item_at c (c :: s) i part <-> (i = 0 /\ part = []) \/ exists j, i = S j /\ item_at c s j part.
Proof.
  split.
  - intros (pre & post & E & Hn & Hpre & Hpost & ->). destruct pre as [|x pre].
    + left. destruct part as [|y part]; [done|]. injection E as <- _. exfalso. apply Hn. left.
    + injection E as <- E. right. rewrite filter_cons, decide_True by done. eexists. split; [done|]. exists pre, post.
      split_and!; [done|done| |done|done]. destruct pre; [by left|right]. by destruct Hpre.
  - intros [[-> ->]|(j & -> & pre & post & -> & Hn & Hpre & Hpost & ->)].
    + exists [], (c :: s). split_and!; [done|by apply not_elem_of_nil|by left|by right|done].
    + exists (c :: pre), post. split_and!; [done|done| |done|by rewrite filter_cons, decide_True]. right. destruct Hpre as [-> |Hp]; [done|]. by destruct pre.
Qed.

Lemma item_at_other c b s i part : b <> c ->
  item_at c (b :: s) i part <-> (i = 0 /\ exists p, part = b :: p /\ item_at c s 0 p) \/ (exists j, i = S j /\ item_at c s (S j) part).
Proof.
  intros Hb. split.
  - intros (pre & post & E & Hn & Hpre & Hpost & ->). destruct pre as [|x pre].
    + left. split; [done|]. destruct part as [|y part].
      * exfalso. cbn in E. subst post. destruct Hpost as [?|[= ?]]; done.
      * injection E as <- E. exists part. split; [done|]. exists [], post. split_and!; [done| |by left|done|done]. by apply not_elem_of_cons in Hn as [_ ?].
    + injection E as <- E. right. destruct Hpre as [?|Hpre]; [done|]. destruct pre as [|y pre]; [by injection Hpre|].
      rewrite filter_cons, decide_False by done. assert (Hc : exists j, length (filter (fun b => b = c) (y :: pre)) = S j).
      { assert (c ∈ filter (fun b => b = c) (y :: pre)) as Hin.
        { apply list_elem_of_filter. split; [done|]. by apply last_Some_elem_of. }
        destruct (filter _ (y :: pre)); [by apply not_elem_of_nil in Hin|by eexists]. }
      destruct Hc as [j Hj]. exists j. split; [done|]. exists (y :: pre), post. split_and!; [done|done|by right|done|done].
  - intros [(-> & p & -> & pre & post & -> & Hn & Hpre & Hpost & Hc)|(j & -> & pre & post & -> & Hn & Hpre & Hpost & Hc)].
    + destruct Hpre as [-> |Hpre].
      * exists [], post. split_and!; [done| |by left|done|done]. apply not_elem_of_cons. by split.
      * exfalso. assert (Hin : c ∈ filter (fun b => b = c) pre) by (apply list_elem_of_filter; split; [done|by apply last_Some_elem_of]).
        destruct (filter _ pre); [by apply not_elem_of_nil in Hin|done].
    + exists (b :: pre), post. split_and!; [done|done| |done|by rewrite filter_cons, decide_False]. right. destruct Hpre as [-> |Hpre]; [done|]. by destruct pre.
Qed.

Lemma items_spec c s i part : items c s !! i = Some part <-> item_at c s i part.
Proof.
  revert i part. induction s as [|b s IH]; intros i part; cbn [items].
  - rewrite item_at_nil. destruct i; cbn; [|by split; [|intros [? _]]]. split; [by intros [= <-]|]. by intros [_ ->].
  - case_decide as Hb.
    + subst b. rewrite item_at_sep. destruct i as [|i]; cbn [lookup list_lookup].
      * split; [by intros [= <-]; left|]. intros [[_ ->]|(j & ? & _)]; done.
      * rewrite IH. split; [intros H; right; by exists i|]. intros [[? _]|(j & [= <-] & H)]; done.
    + rewrite item_at_other by done. setoid_rewrite <- IH. destruct (items_cons c s) as (p & ps & ->). destruct i as [|i]; cbn [lookup list_lookup].
      * split; [intros [= <-]; left; split; [done|]; by exists p|]. intros [(_ & q & -> & [= <-])|(j & ? & _)]; done.
      * split; [intros H; right; by exists i|]. intros [[? _]|(j & [= <-] & H)]; done.
Qed.

Lemma split_parts_items c s part :
  split_parts c s part = filter (fun p => p <> []) (match items c s with p :: ps => (part ++ p) :: ps | [] => [part] end).
Proof.
  revert part. induction s as [|b s IH]; intros part; cbn [split_parts items].
  - rewrite app_nil_r, filter_cons, filter_nil. repeat case_decide; done.
  - destruct (decide (b = c)).
    + rewrite IH. destruct (items_cons c s) as (p & ps & ->). rewrite app_nil_r, (filter_cons _ part). cbn [app]. repeat case_decide; done.
    + rewrite IH. destruct (items_cons c s) as (p & ps & ->). by rewrite <- (assoc_L (++)).
Qed.

(** The parts that are split off are the items that are not empty. *)
Lemma split_all_items c s : split_all c s = filter (fun p => p <> []) (items c s).
Proof. unfold split_all. rewrite split_parts_items. by destruct (items_cons c s) as (p & ps & ->). Qed.

Lemma items_split c s : items c s = match split_char c s with (l, r) => l :: (if decide (c ∈ s) then items c r else []) end.
Proof.
  induction s as [|b s IH]; cbn [items split_char]; [by rewrite decide_False by apply not_elem_of_nil|].
  destruct (decide (b = c)) as [-> |Hb]; [by rewrite decide_True by left|]. rewrite IH. destruct (split_char c s) as [l r].
  destruct (decide (c ∈ s)); [rewrite decide_True by (by right)|rewrite decide_False by (apply not_elem_of_cons; split; [congruence|done])]; done.
Qed.

(** ** Blanks *)

Definition blank (s : bytes) : Prop := Forall (fun b => is_space b = true) s.

(** [t] is [s] without the blanks around it. *)
Definition stripped (s t : bytes) : Prop :=
  exists a b, s = a ++ t ++ b /\ blank a /\ blank b /\ (forall x, head t = Some x -> is_space x = false) /\ (forall x, last t = Some x -> is_space x = false).

Lemma ltrim_app a t : blank a -> (forall x, head t = Some x -> is_space x = false) -> ltrim_by is_space (a ++ t) = t.
Proof.
  intros Ha Ht. induction Ha as [|x a Hx _ IH]; cbn [app ltrim_by]; [|by rewrite Hx].
  destruct t as [|y t]; [done|]. cbn [ltrim_by]. by rewrite (Ht y eq_refl).
Qed.

Lemma ltrim_split s : exists a, s = a ++ ltrim_by is_space s /\ blank a /\ forall x, head (ltrim_by is_space s) = Some x -> is_space x = false.
Proof.
  induction s as [|b s (a & E & Ha & Hh)]; cbn [ltrim_by]; [exists []; by split_and!; [|constructor|]|]. destruct (is_space b) eqn:Eb.
  - exists (b :: a). cbn. rewrite <- E. split_and!; [done|by constructor|done].
  - exists []. split_and!; [done|constructor|by intros x [= <-]].
Qed.

Lemma head_rev {A} (l : list A) : head (rev l) = last l.
Proof. rewrite <- (rev_involutive l) at 2. destruct (rev l) as [|x k]; [done|]. cbn. by rewrite last_snoc. Qed.

Lemma blank_rev s : blank s -> blank (rev s).
Proof. unfold blank. rewrite !Forall_forall. intros H b Hb. apply H. by rewrite list_elem_of_In, in_rev, <- list_elem_of_In. Qed.

Lemma rtrim_app t b : blank b -> (forall x, last t = Some x -> is_space x = false) -> rtrim (t ++ b) = t.
Proof.
  intros Hb Ht. unfold rtrim. rewrite rev_app_distr, ltrim_app; [apply rev_involutive|by apply blank_rev|]. intros x. rewrite head_rev. apply Ht.
Qed.

Lemma trim_iff s t : trim s = t <-> stripped s t.
Proof.
  unfold trim. split.
  - intros <-. destruct (ltrim_split s) as (a & E & Ha & Hh). set (u := ltrim_by is_space s) in *.
    destruct (ltrim_split (rev u)) as (b & Eb & Hb & Hl). assert (Eu : u = rtrim u ++ rev b).
    { unfold rtrim. rewrite <- rev_app_distr, <- Eb. by rewrite rev_involutive. }
    exists a, (rev b). split_and!; [by rewrite <- Eu|done|by apply blank_rev| |].
    + intros x Hx. apply Hh. rewrite Eu. by destruct (rtrim u).
    + intros x Hx. apply Hl. unfold rtrim in Hx. by rewrite <- head_rev, rev_involutive in Hx.
  - intros (a & b & -> & Ha & Hb & Hh & Hl). destruct t as [|x t].
    + cbn [app]. assert (H : blank (a ++ b)) by (by apply Forall_app). rewrite <- (app_nil_r (a ++ b)), ltrim_app; done.
    + rewrite ltrim_app; [by apply rtrim_app|done|]. intros y [= <-]. by apply Hh.
Qed.

Lemma trim_blank s : trim s = [] <-> blank s.
Proof.
  rewrite trim_iff. split.
  - intros (a & b & -> & Ha & Hb & _). by apply Forall_app.
  - intros H. exists s, []. rewrite !app_nil_r. split_and!; [done|done|constructor|done|done].
Qed.

(** ** What a comment says *)

Section Comments.
Variable marker : bytes -> option (nat * bytes).
Variable disableMarker : bytes -> option (bool * bytes).

(** A name of the list in [vycor: ignore\[...\]]: what is between its commas. *)
Definition ignore_name (text name : bytes) : Prop := exists i part, item_at Byte.x2c text i part /\ stripped part name.

(** A name of the list after [vycor-disable-...]: a word between its commas with nothing
    that starts with two dashes before it. *)
Definition disable_name (text name : bytes) : Prop :=
  exists list i part words j word, stripped text list /\ item_at Byte.x2c list i part /\ stripped part words /\
    item_at Byte.x20 words j word /\ stripped word name /\
    forall j' word' name', j' <= j -> item_at Byte.x20 words j' word' -> stripped word' name' -> ~ (str "--" `prefix_of` name').

(** The line holds one of the two words. *)
Definition mentions (line : bytes) : Prop :=
  (exists a b, line = a ++ str "vycor:" ++ b) \/ (exists a b, line = a ++ str "vycor-disable-" ++ b).

(** The comment of a line names a check. *)
Definition comment_names (line name : bytes) : Prop :=
  mentions line /\ name <> [] /\
  match marker line with
  | Some (_, text) => ignore_name text name
  | None => exists next text, disableMarker line = Some (next, text) /\ disable_name text name
  end.

(** The comment of a line speaks for the next line too: it is alone on its line, or says so. *)
Definition comment_for_next (line : bytes) : Prop :=
  match marker line with
  | Some (comment, _) => blank (take comment line)
  | None => exists text, disableMarker line = Some (true, text)
  end.

Lemma elem_of_ignore_checks text name : name ∈ ignore_checks text <-> name <> [] /\ ignore_name text name.
Proof.
  unfold ignore_checks, ignore_name. rewrite list_elem_of_filter, list_elem_of_fmap, split_all_items. setoid_rewrite <- trim_iff.
  setoid_rewrite list_elem_of_filter. setoid_rewrite <- items_spec. setoid_rewrite list_elem_of_lookup. split.
  - intros (Hn & part & -> & _ & i & Hi). eauto.
  - intros (Hn & i & part & Hi & <-). split; [done|]. exists part. split_and!; [done|by intros ->|eauto].
Qed.

Lemma until_dashes_skip l : until_dashes (filter (fun p => p <> []) l) = until_dashes l.
Proof.
  induction l as [|t l IH]; [done|]. rewrite filter_cons. case_decide as Ht; cbn [until_dashes]; [by rewrite IH|].
  subst t. rewrite IH. by vm_compute.
Qed.

Lemma elem_of_until_dashes l name : name ∈ until_dashes l <-> name <> [] /\ exists j tok, l !! j = Some tok /\ trim tok = name /\
  forall j' tok', j' <= j -> l !! j' = Some tok' -> ~ (str "--" `prefix_of` trim tok').
Proof.
  induction l as [|t l IH]; cbn [until_dashes].
  { split; [by intros ?%not_elem_of_nil|]. by intros (_ & j & tok & ? & _). }
  unfold starts_with. case_bool_decide as Hd.
  - split; [by intros ?%not_elem_of_nil|]. intros (_ & j & tok & _ & _ & Hall). by destruct (Hall 0 t (Nat.le_0_l j) eq_refl).
  - rewrite elem_of_app, IH. split.
    + intros [Hin|(Hn & j & tok & Hj & Ht & Hall)].
      * case_decide as Ht; [by apply not_elem_of_nil in Hin|]. apply list_elem_of_singleton in Hin as ->. split; [done|]. exists 0, t.
        split_and!; [done|done|]. intros [|j'] tok' Hj' Htok; [|lia]. by injection Htok as <-.
      * split; [done|]. exists (S j), tok. split_and!; [done|done|]. intros [|j'] tok' Hj' Htok; [by injection Htok as <-|]. by eapply (Hall j'); [lia|].
    + intros (Hn & [|j] & tok & Hj & Ht & Hall).
      * left. injection Hj as ->. rewrite Ht, decide_False by done. by apply list_elem_of_singleton.
      * right. split; [done|]. exists j, tok. split_and!; [done|done|]. intros j' tok' Hj' Htok. by apply (Hall (S j')); [lia|].
Qed.

Lemma elem_of_disable_checks text name : name ∈ disable_checks text <-> name <> [] /\ disable_name text name.
Proof.
  unfold disable_checks, disable_name. rewrite list_elem_of_bind. setoid_rewrite split_all_items. setoid_rewrite until_dashes_skip.
  setoid_rewrite elem_of_until_dashes. setoid_rewrite <- items_spec. setoid_rewrite <- trim_iff. split.
  - intros (part & (Hn & j & word & Hj & Ht & Hall) & [_ (i & Hi)%list_elem_of_lookup]%list_elem_of_filter). split; [done|].
    exists (trim text), i, part, (trim part), j, word. split_and!; [done|done|done|done|done|]. intros j' word' name' Hj' Hw <-. by eapply Hall.
  - intros (Hn & list & i & part & words & j & word & <- & Hi & <- & Hj & Ht & Hall). exists part. split.
    + split; [done|]. exists j, word. split_and!; [done|done|]. intros j' word' Hj' Hw. by eapply Hall.
    + apply list_elem_of_filter. split; [|by eapply list_elem_of_lookup_2]. intros ->. change (trim []) with (@nil Byte.byte) in Hj. cbn in Hj.
      destruct j; [|done]. injection Hj as <-. by rewrite <- Ht in Hn.
Qed.

Lemma mentions_iff line : negb (contains line (str "vycor:")) && negb (contains line (str "vycor-disable-")) = false <->
  mentions line.
Proof. rewrite andb_false_iff, !negb_false_iff, !contains_spec. done. Qed.

(** The record of a line is its comment, if that names a check. *)
Lemma line_suppression_spec path file line n :
  match line_suppression marker disableMarker path file line n with
  | Some s => sup_path s = path /\ sup_file s = file /\ sup_line s = n /\ (sup_ownLine s = true <-> comment_for_next line) /\
      (forall name, name ∈ sup_checks s <-> comment_names line name) /\ exists name, comment_names line name
  | None => forall name, ~ comment_names line name
  end.
Proof.
  assert (Hex : forall (l : list bytes), l <> [] -> exists name, name ∈ l) by (intros [|x l] ?; [done|exists x; left]).
  unfold line_suppression. destruct (negb _ && negb _) eqn:Em.
  { intros name [H _]. apply mentions_iff in H. congruence. }
  apply mentions_iff in Em. unfold comment_for_next, comment_names. destruct (marker line) as [[c text]|].
  - cbn [sup_checks]. assert (Hin : forall name, name ∈ ignore_checks text <-> mentions line /\ name <> [] /\ ignore_name text name)
      by (intros; rewrite elem_of_ignore_checks; tauto).
    case_decide as Hc.
    + intros name Hn%Hin. rewrite Hc in Hn. by apply not_elem_of_nil in Hn.
    + cbn. split_and!; [done|done|done|by rewrite bool_decide_eq_true, trim_blank|done|]. destruct (Hex _ Hc) as [name ?]. exists name. by apply Hin.
  - destruct (disableMarker line) as [[next text]|]; [|by intros name (_ & _ & ? & ? & ? & _)]. cbn [sup_checks].
    assert (Hin : forall name, name ∈ disable_checks text <-> mentions line /\ name <> [] /\
      exists next' text', Some (next, text) = Some (next', text') /\ disable_name text' name).
    { intros name. rewrite elem_of_disable_checks. split; [intros [? ?]; eauto 10|]. by intros (_ & ? & ? & ? & [= <- <-] & ?). }
    case_decide as Hc.
    + intros name Hn%Hin. rewrite Hc in Hn. by apply not_elem_of_nil in Hn.
    + cbn. split_and!; [done|done|done| |done|].
      * split; [intros ->; by exists text|]. by intros (t & [= -> _]).
      * destruct (Hex _ Hc) as [name ?]. exists name. by apply Hin.
Qed.

(** ** The comments of a text *)

Lemma elem_of_option {A} (o : option A) x : x ∈ option_list o <-> o = Some x.
Proof. destruct o; cbn; [rewrite list_elem_of_singleton|rewrite elem_of_nil]; naive_solver. Qed.

Lemma parse_lines_items fuel text path file n s : length text <= fuel -> (n + N.of_nat (length text) < two32)%N ->
  s ∈ parse_lines marker disableMarker fuel text path file n <->
  exists i line, item_at Byte.x0a text i line /\ line_suppression marker disableMarker path file line (n + N.of_nat (S i)) = Some s.
Proof.
  revert text n. induction fuel as [|fuel IH]; intros text n Hf Hn.
  - destruct text; [|cbn in Hf; lia]. split; [by intros ?%not_elem_of_nil|]. by intros (i & line & [-> ->]%item_at_nil & ?).
  - cbn [parse_lines]. destruct text as [|b text].
    { split; [by intros ?%not_elem_of_nil|]. by intros (i & line & [-> ->]%item_at_nil & ?). }
    setoid_rewrite <- items_spec. rewrite items_split. pose proof (split_char_shorter Byte.x0a (b :: text)) as Hs.
    assert (Hrest : Byte.x0a ∈ b :: text -> length (split_char Byte.x0a (b :: text)).2 < length (b :: text)).
    { intros (l1 & l2 & E & Hn1)%list_elem_of_split_l. rewrite E, split_char_app by done. cbn [snd]. rewrite length_app. cbn. lia. }
    assert (Hnone : Byte.x0a ∉ b :: text -> (split_char Byte.x0a (b :: text)).2 = []) by (intros H; by rewrite split_char_none).
    destruct (split_char Byte.x0a (b :: text)) as [line rest]. cbn [snd length] in *. rewrite u32_small by lia. rewrite elem_of_app, elem_of_option.
    case_decide as Hnl.
    + rewrite IH by (specialize (Hrest Hnl); lia). setoid_rewrite <- items_spec. split.
      * intros [H|(i & l & Hi & H)]; [exists 0, line; by rewrite N.add_1_r, <- N.add_1_r in *|]. exists (S i), l. split; [done|].
        by replace (n + N.of_nat (S (S i)))%N with (n + 1 + N.of_nat (S i))%N by lia.
      * intros ([|i] & l & Hi & H); [left; by injection Hi as <-|]. right. exists i, l. split; [done|].
        by replace (n + 1 + N.of_nat (S i))%N with (n + N.of_nat (S (S i)))%N by lia.
    + rewrite (Hnone Hnl). assert (Hnil : parse_lines marker disableMarker fuel [] path file (n + 1) = []) by by destruct fuel. rewrite Hnil. split.
      * intros [H|?%not_elem_of_nil]; [|done]. by exists 0, line.
      * intros ([|i] & l & Hi & H); [left; by injection Hi as <-|done].
Qed.

Lemma parse_lines_once fuel text path file n : length text <= fuel -> (n + N.of_nat (length text) < two32)%N ->
  Forall (fun s => n < sup_line s)%N (parse_lines marker disableMarker fuel text path file n) /\
  NoDup (sup_line <$> parse_lines marker disableMarker fuel text path file n).
Proof.
  revert text n. induction fuel as [|fuel IH]; intros text n Hf Hn; [split; [done|constructor]|]. cbn [parse_lines].
  destruct text as [|b text]; [split; [done|constructor]|]. pose proof (split_char_shorter Byte.x0a text) as Hs.
  assert (Hlen : length (split_char Byte.x0a (b :: text)).2 <= length text).
  { cbn [split_char]. case_decide; [done|]. destruct (split_char Byte.x0a text). done. }
  destruct (split_char Byte.x0a (b :: text)) as [line rest]. cbn [length snd] in *. rewrite u32_small by lia.
  destruct (IH rest (n + 1)%N) as [Hall Hnd]; [lia|lia|]. pose proof (line_suppression_spec path file line (n + 1)) as Hl.
  destruct (line_suppression marker disableMarker path file line (n + 1)) as [s|]; cbn [option_list option_rect app].
  - destruct Hl as (_ & _ & Hl & _). split.
    + constructor; [lia|]. eapply Forall_impl; [done|]. intros ? H. cbn in H. lia.
    + rewrite fmap_cons. apply NoDup_cons. split; [|done]. intros (s' & E & Hs')%list_elem_of_fmap. rewrite Forall_forall in Hall. specialize (Hall s' Hs'). cbn in Hall. lia.
  - split; [|done]. eapply Forall_impl; [done|]. intros ? H. cbn in H. lia.
Qed.
End Comments.

(** * Inline suppressions *)

(** [f] is in the file of [s], at a line, and [s] covers it. *)
Definition hits (path : bytes) (f : Finding) (s : Suppression) : bool :=
  bool_decide (f_path f = path) && bool_decide (f_line f <> 0%N) && covers f s.

Definition uses (path : bytes) (fs : list Finding) (s : Suppression) : bool := existsb (fun f => hits path f s) fs.

Definition with_use (s : Suppression) (used : bool) : Suppression :=
  MkSuppression (sup_path s) (sup_file s) (sup_line s) (sup_ownLine s) (sup_checks s) (sup_used s || used).

Lemma with_use_false s : with_use s false = s.
Proof. destruct s as [? ? ? ? ? []]; done. Qed.

Lemma mark_used_with f s used : mark_used f (with_use s used) = with_use s (used || covers f s).
Proof.
  unfold mark_used. change (covers f (with_use s used)) with (covers f s). unfold with_use. cbn. destruct (covers f s); [|by rewrite orb_false_r].
  by rewrite orb_true_r, orb_true_r.
Qed.

Lemma covers_with f s used : covers f (with_use s used) = covers f s.
Proof. done. Qed.

(** The suppressions after some findings. *)
Definition mark_list (path : bytes) (fs : list Finding) (l : list Suppression) : list Suppression := (fun s => with_use s (uses path fs s)) <$> l.
Definition mark_all (fs : list Finding) (byPath : gmap bytes (list Suppression)) : gmap bytes (list Suppression) :=
  map_imap (fun path l => Some (mark_list path fs l)) byPath.

Definition suppressed_in (byPath : gmap bytes (list Suppression)) (f : Finding) : bool := existsb (hits (f_path f) f) (vec_at byPath (f_path f)).

Lemma hits_here f s : f_line f <> 0%N -> hits (f_path f) f s = covers f s.
Proof. intros Hl. unfold hits. by rewrite (bool_decide_eq_true_2 (f_path f = f_path f)), (bool_decide_eq_true_2 (f_line f <> 0%N)) by done. Qed.

Lemma hits_elsewhere path f s : f_path f <> path \/ f_line f = 0%N -> hits path f s = false.
Proof.
  unfold hits. intros [Hp|Hl]; [by rewrite (bool_decide_eq_false_2 (f_path f = path)) by done|].
  rewrite (bool_decide_eq_false_2 (f_line f <> 0%N)) by tauto. by rewrite andb_false_r.
Qed.

Lemma uses_snoc path fs f s : uses path (fs ++ [f]) s = uses path fs s || hits path f s.
Proof. unfold uses. rewrite existsb_app. cbn [existsb]. by rewrite orb_false_r. Qed.

Lemma mark_list_elsewhere path fs f l : f_path f <> path \/ f_line f = 0%N -> mark_list path (fs ++ [f]) l = mark_list path fs l.
Proof. intros Hne. apply list_fmap_ext. intros i s _. by rewrite uses_snoc, hits_elsewhere, orb_false_r. Qed.

Lemma mark_list_here fs f l : f_line f <> 0%N -> mark_used f <$> mark_list (f_path f) fs l = mark_list (f_path f) (fs ++ [f]) l.
Proof.
  intros Hl. unfold mark_list. rewrite <- list_fmap_compose. apply list_fmap_ext. intros i s _. cbn. by rewrite mark_used_with, uses_snoc, hits_here.
Qed.

Lemma covers_marked path fs f l : existsb (covers f) (mark_list path fs l) = existsb (covers f) l.
Proof. induction l as [|s l IH]; [done|]. cbn [existsb mark_list fmap list_fmap]. fold (mark_list path fs l). by rewrite IH, covers_with. Qed.

Lemma mark_all_here fs f byPath l : byPath !! f_path f = Some l -> f_line f <> 0%N ->
  <[f_path f := mark_used f <$> mark_list (f_path f) fs l]> (mark_all fs byPath) = mark_all (fs ++ [f]) byPath.
Proof.
  intros E Hl. apply map_eq. intros p. unfold mark_all. destruct (decide (p = f_path f)) as [->|Hp].
  - rewrite lookup_insert_eq, map_lookup_imap, E. cbn [mbind option_bind]. by rewrite mark_list_here.
  - rewrite lookup_insert_ne by done. rewrite !map_lookup_imap. destruct (byPath !! p); [|done]. cbn [mbind option_bind].
    rewrite mark_list_elsewhere; [done|]. left. congruence.
Qed.

Lemma mark_all_elsewhere fs f byPath : byPath !! f_path f = None \/ f_line f = 0%N -> mark_all (fs ++ [f]) byPath = mark_all fs byPath.
Proof.
  intros Hf. apply map_eq. intros p. unfold mark_all. rewrite !map_lookup_imap. destruct (byPath !! p) as [l|] eqn:E; [|done]. cbn [mbind option_bind].
  rewrite mark_list_elsewhere; [done|]. destruct Hf as [Hf|Hf]; [|by right]. left. intros <-. congruence.
Qed.

Lemma mark_all_nil byPath : mark_all [] byPath = byPath.
Proof.
  apply map_eq. intros p. unfold mark_all. rewrite map_lookup_imap. destruct (byPath !! p) as [l|]; [|done]. cbn [mbind option_bind]. f_equal.
  etrans; [|apply list_fmap_id]. apply list_fmap_ext. intros i s _. apply with_use_false.
Qed.

Lemma suppress_fold byPath fs : foldl suppress_one (byPath, 0, []) fs =
  (mark_all fs byPath, length (filter (fun f => suppressed_in byPath f = true) fs), filter (fun f => suppressed_in byPath f = false) fs).
Proof.
  induction fs as [|f fs IH] using rev_ind; [by rewrite mark_all_nil|].
  rewrite foldl_app, IH. cbn [foldl]. clear IH. unfold suppress_one at 1. rewrite !filter_app, length_app, !filter_cons, !filter_nil.
  unfold mark_all at 1. rewrite map_lookup_imap. 
  assert (Hs : suppressed_in byPath f = existsb (hits (f_path f) f) (default [] (byPath !! f_path f))) by done.
  destruct (byPath !! f_path f) as [l|] eqn:E; cbn [mbind option_bind from_option id] in Hs |- *; rewrite Hs; clear Hs.
  - destruct (decide (f_line f <> 0%N)) as [Hl|Hl].
    + rewrite mark_all_here, covers_marked by done.
      assert (existsb (covers f) l = existsb (hits (f_path f) f) l) as ->.
      { clear E. induction l as [|s l IHl]; [done|]. cbn [existsb]. by rewrite IHl, hits_here. }
      destruct (existsb (hits (f_path f) f) l) eqn:Eh; repeat case_decide; try congruence; cbn; by rewrite ?app_nil_r, ?Nat.add_1_r, ?Nat.add_0_r.
    + assert (existsb (hits (f_path f) f) l = false).
      { apply not_true_is_false. intros (s & _ & Hs)%existsb_exists. rewrite hits_elsewhere in Hs; [done|]. right. by apply dec_stable. }
      rewrite mark_all_elsewhere by (right; by apply dec_stable). repeat case_decide; try congruence. cbn. by rewrite Nat.add_0_r.
  - rewrite mark_all_elsewhere by by left. cbn. by rewrite Nat.add_0_r.
Qed.

Lemma unused_less_weak : StrictWeak unused_less.
Proof. by apply (strict_weak_of_key (fun s => (sup_file s, sup_line s)) (lex_cmp bytes_cmp N.compare)). Qed.

Lemma uses_true path fs s : uses path fs s = true <-> exists f, f ∈ fs /\ f_path f = path /\ f_line f <> 0%N /\ covers f s = true.
Proof.
  unfold uses. rewrite existsb_exists. setoid_rewrite <- list_elem_of_In. unfold hits.
  split; intros (f & Hf & Hx); exists f; revert Hx; rewrite !andb_true_iff, !bool_decide_eq_true; tauto.
Qed.

(** ** The files that are scanned *)

Section Suppressing.
Context `{!PathOps} `{!StdSort}.
Variable marker : bytes -> option (nat * bytes).
Variable disableMarker : bytes -> option (bool * bytes).
Variable read : bytes -> option bytes.

(** The suppressions a file holds. *)
Definition suppressions_in (root path : bytes) : list Suppression :=
  match read path with Some text => parseSuppressions marker disableMarker text path (relativeToRoot path root) | None => [] end.

Lemma scan_fold root paths byPath p :
  foldl (scan_file marker disableMarker read root) byPath paths !! p =
  if decide (p ∈ paths /\ suppressions_in root p <> []) then Some (suppressions_in root p) else byPath !! p.
Proof.
  revert byPath. induction paths as [|q paths IH]; intros byPath; cbn [foldl].
  - rewrite decide_False; [done|]. intros [Hx _]. by apply not_elem_of_nil in Hx.
  - rewrite IH. unfold scan_file, suppressions_in. destruct (decide (p ∈ paths /\ _)) as [Hin|Hni].
    + rewrite decide_True; [done|]. split; [right|]; apply Hin.
    + destruct (decide (p = q)) as [->|Hne].
      * destruct (read q) as [text|]; [|rewrite decide_False; [done|]; by intros [_ ?]]. case_decide as Hp.
        -- rewrite decide_False; [done|]. by intros [_ ?].
        -- rewrite lookup_insert_eq, decide_True; [done|]. by split; [left|].
      * assert (Hl : (match read q with
            | Some text => if decide (parseSuppressions marker disableMarker text q (relativeToRoot q root) = []) then byPath
                           else <[q := parseSuppressions marker disableMarker text q (relativeToRoot q root)]> byPath
            | None => byPath end) !! p = byPath !! p).
        { destruct (read q); [|done]. case_decide; [done|]. by rewrite lookup_insert_ne. }
        rewrite Hl, decide_False; [done|]. intros [[?|?]%elem_of_cons ?]; [done|tauto].
Qed.

(** What covers a finding, and what is used. *)
Definition scanned (fs : list Finding) (extra : list bytes) (root path : bytes) : Prop := path ∈ scanned_paths fs extra root.

Definition suppressed_by (fs : list Finding) (extra : list bytes) (root : bytes) (f : Finding) (s : Suppression) : Prop :=
  scanned fs extra root (f_path f) /\ s ∈ suppressions_in root (f_path f) /\ f_line f <> 0%N /\ covers f s = true.

Lemma parsed_unused text path file : Forall (fun s => sup_used s = false) (parseSuppressions marker disableMarker text path file).
Proof.
  unfold parseSuppressions. generalize 0%N, (length text). intros n fuel. revert text n.
  induction fuel as [|fuel IH]; intros text n; [done|]. cbn [parse_lines]. destruct text as [|b text]; [done|].
  destruct (split_char Byte.x0a (b :: text)) as [line rest]. apply Forall_app. split; [|apply IH].
  unfold line_suppression. destruct (_ && _); [done|]. destruct (marker line) as [[c t]|]; [|destruct (disableMarker line) as [[x t]|]; [|done]];
    (case_decide; [done|by repeat constructor]).
Qed.

Lemma suppressions_unused root path s : s ∈ suppressions_in root path -> sup_used s = false.
Proof.
  unfold suppressions_in. destruct (read path) as [text|]; [|by intros ?%not_elem_of_nil]. intros Hs.
  pose proof (parsed_unused text path (relativeToRoot path root)) as Hf. rewrite Forall_forall in Hf. by apply Hf.
Qed.

Lemma not_covered_iff fs extra root f :
  let byPath := foldl (scan_file marker disableMarker read root) ∅ (scanned_paths fs extra root) in
  suppressed_in byPath f = true <-> exists s, suppressed_by fs extra root f s.
Proof.
  intros byPath. unfold suppressed_in, vec_at, byPath. rewrite scan_fold, lookup_empty. unfold suppressed_by, scanned. rewrite existsb_exists.
  setoid_rewrite <- list_elem_of_In. case_decide as Hd; cbn [from_option id].
  - split.
    + intros (s & Hs & Hh). exists s. unfold hits in Hh. rewrite !andb_true_iff, !bool_decide_eq_true in Hh. tauto.
    + intros (s & _ & Hs & Hl & Hc). exists s. split; [done|]. by rewrite hits_here.
  - split; [by intros (s & ?%not_elem_of_nil & _)|]. intros (s & Hsc & Hs & _). exfalso. apply Hd. split; [done|]. intros E. rewrite E in Hs.
    by apply not_elem_of_nil in Hs.
Qed.
End Suppressing.

(** What is kept and what is unused, in terms of the records of the scanned files. *)
Lemma suppressions_applied `{!PathOps} `{!StdSort} (marker : bytes -> option (nat * bytes)) (disableMarker : bytes -> option (bool * bytes))
    (read : bytes -> option bytes) (fs : list Finding) (extra : list bytes) (root : bytes) :
  let '(kept, unused, removed) := applyInlineSuppressions marker disableMarker read fs extra root in
  kept `sublist_of` fs /\ removed + length kept = length fs /\
  (forall f, f ∈ kept <-> f ∈ fs /\ ~ exists s, suppressed_by marker disableMarker read fs extra root f s) /\
  (forall s, s ∈ unused <-> exists path, scanned fs extra root path /\ s ∈ suppressions_in marker disableMarker read root path /\
     ~ exists f, f ∈ fs /\ f_path f = path /\ f_line f <> 0%N /\ covers f s = true) /\
  StronglySorted (no_less_before unused_less) unused.
Proof.
  unfold applyInlineSuppressions. rewrite suppress_fold. set (byPath := foldl _ ∅ _). split_and!.
  - apply sublist_filter.
  - clearbody byPath. clear. induction fs as [|f fs IH]; [done|]. rewrite !filter_cons. destruct (suppressed_in byPath f) eqn:E; repeat case_decide; try congruence; cbn; lia.
  - intros f. rewrite list_elem_of_filter. pose proof (not_covered_iff marker disableMarker read fs extra root f) as Hc. cbv zeta in Hc. fold byPath in Hc.
    rewrite <- Hc. destruct (suppressed_in byPath f); naive_solver.
  - intros s. rewrite (std_sort_perm _ unused_less), list_elem_of_bind. split.
    + intros ([path l] & Hs & Hl). apply elem_of_entries in Hl. cbn [snd] in Hs. unfold mark_all in Hl. rewrite map_lookup_imap in Hl.
      unfold byPath in Hl. rewrite scan_fold, lookup_empty in Hl. case_decide as Hd; [|done]. injection Hl as <-.
      apply list_elem_of_filter in Hs as [Hu Hs]. apply list_elem_of_fmap in Hs as (s0 & -> & Hs0). cbn in Hu. apply orb_false_iff in Hu as [Hu1 Hu2].
      exists path. rewrite Hu2, with_use_false. split_and!; [apply Hd|done|]. rewrite <- uses_true. congruence.
    + intros (path & Hsc & Hs & Hn). exists (path, mark_list path fs (suppressions_in marker disableMarker read root path)). split.
      * cbn [snd]. apply list_elem_of_filter. split; [by eapply suppressions_unused|]. apply list_elem_of_fmap. exists s. split; [|done].
        destruct (uses path fs s) eqn:E; [by apply uses_true in E|by rewrite with_use_false].
      * apply elem_of_entries. unfold mark_all. rewrite map_lookup_imap. unfold byPath. rewrite scan_fold, decide_True; [done|].
        split; [done|]. intros E. rewrite E in Hs. by apply not_elem_of_nil in Hs.
  - apply std_sort_sorted, unused_less_weak.
Qed.

Lemma fmap_of_bind {A B C} (f : B -> C) (g : A -> list B) (l : list A) : f <$> (l ≫= g) = l ≫= fun x => f <$> g x.
Proof. induction l as [|x l IH]; [done|]. by rewrite !bind_cons, fmap_app, IH. Qed.

(** ** What the comments of the files say *)

Section Silenced.
Context `{!PathOps}.
Variable marker : bytes -> option (nat * bytes).
Variable disableMarker : bytes -> option (bool * bytes).
Variable read : bytes -> option bytes.

(** The files whose comments count: those of the findings and the further ones. *)
Definition searched (fs : list Finding) (extra : list bytes) (root path : bytes) : Prop :=
  (path <> [] /\ exists f, f ∈ fs /\ f_path f = path) \/ exists p, p ∈ extra /\ absolutePath p root = path.

(** Line [n] of the file, counted from one, is [line] and has a comment that names a check. *)
Definition comment_at (path : bytes) (n : N) (line : bytes) : Prop :=
  exists text i, read path = Some text /\ item_at Byte.x0a text i line /\ n = N.of_nat (S i) /\ exists name, comment_names marker disableMarker line name.

(** The comment on line [n] of the file of [f] is for [f]: it is on the line of [f], or on the
    line above and speaks for the next line; it names the check of [f] or every check. *)
Definition silences (path : bytes) (n : N) (f : Finding) : Prop :=
  f_path f = path /\ exists line, comment_at path n line /\
    (f_line f = n \/ (comment_for_next marker disableMarker line /\ f_line f = n + 1)%N) /\
    (comment_names marker disableMarker line (str "*") \/ comment_names marker disableMarker line (f_check f)).

Lemma scanned_searched fs extra root path : scanned fs extra root path <-> searched fs extra root path.
Proof.
  unfold scanned, scanned_paths, searched. rewrite elem_of_key_order, elem_of_union, !elem_of_list_to_set, list_elem_of_filter, !list_elem_of_fmap.
  split; (intros [(Hn & f & E & Hf)|(p & E & Hp)]; [left|right]; [split; [done|]; by exists f|by exists p]).
Qed.

Hypothesis small : forall path text, read path = Some text -> (N.of_nat (length text) + 1 < two32)%N.

Lemma item_line_bound c text i line : item_at c text i line -> line <> [] -> i < length text.
Proof.
  intros (pre & post & -> & _ & _ & _ & ->) Hl. rewrite !length_app. pose proof (length_filter (fun b => b = c) pre). destruct line; [done|]. cbn. lia.
Qed.

Lemma comment_nonempty line name : comment_names marker disableMarker line name -> line <> [].
Proof. intros [[(a & b & ->)|(a & b & ->)] _]; by destruct a. Qed.

(** The records of a file are its comments. *)
Lemma suppressions_in_iff root path s : s ∈ suppressions_in marker disableMarker read root path <->
  exists text i line, read path = Some text /\ item_at Byte.x0a text i line /\
    line_suppression marker disableMarker path (relativeToRoot path root) line (N.of_nat (S i)) = Some s.
Proof.
  unfold suppressions_in. destruct (read path) as [text|] eqn:Er.
  - specialize (small path text Er). unfold parseSuppressions. rewrite parse_lines_items by lia. split.
    + intros (i & line & ? & ?). by exists text, i, line.
    + intros (t & i & line & [= <-] & ? & ?). by exists i, line.
  - split; [by intros ?%not_elem_of_nil|]. by intros (? & ? & ? & ? & _).
Qed.

(** A record, and the comment it was made of. *)
Definition describes (root path : bytes) (n : N) (line : bytes) (s : Suppression) : Prop :=
  sup_path s = path /\ sup_file s = relativeToRoot path root /\ sup_line s = n /\
  (sup_ownLine s = true <-> comment_for_next marker disableMarker line) /\ forall name, name ∈ sup_checks s <-> comment_names marker disableMarker line name.

Lemma record_comment root path s : s ∈ suppressions_in marker disableMarker read root path ->
  exists line, comment_at path (sup_line s) line /\ describes root path (sup_line s) line s /\ (sup_line s + 1 < two32)%N.
Proof.
  intros (text & i & line & Hr & Hi & Hl)%suppressions_in_iff. pose proof (line_suppression_spec marker disableMarker path (relativeToRoot path root) line (N.of_nat (S i))) as HL.
  rewrite Hl in HL. destruct HL as (H1 & H2 & H3 & H4 & H5 & [name H6]). exists line. rewrite H3. split_and!.
  - exists text, i. split_and!; [done|done|done|by exists name].
  - by split_and!.
  - pose proof (item_line_bound _ _ _ _ Hi (comment_nonempty _ _ H6)). specialize (small path text Hr). lia.
Qed.

Lemma comment_record root path n line : comment_at path n line ->
  exists s, s ∈ suppressions_in marker disableMarker read root path /\ describes root path n line s.
Proof.
  intros (text & i & Hr & Hi & -> & name & Hn).
  pose proof (line_suppression_spec marker disableMarker path (relativeToRoot path root) line (N.of_nat (S i))) as HL.
  destruct (line_suppression _ _ path (relativeToRoot path root) line (N.of_nat (S i))) as [s|] eqn:E; [|by destruct (HL name)].
  exists s. split; [apply suppressions_in_iff; by exists text, i, line|]. destruct HL as (H1 & H2 & H3 & H4 & H5 & _). by split_and!.
Qed.

(** The test of the code on a record is what its comment says. *)
Lemma covers_silences root path line s f : describes root path (sup_line s) line s -> comment_at path (sup_line s) line -> (sup_line s + 1 < two32)%N -> f_path f = path ->
  f_line f <> 0%N /\ covers f s = true -> silences path (sup_line s) f.
Proof.
  intros (_ & _ & _ & Hnext & Hnames) Hc Hb Hp [_ Hcov]. split; [done|]. exists line. split; [done|].
  unfold covers, at_place, names_check in Hcov. rewrite u32_small in Hcov by lia.
  apply andb_true_iff in Hcov as [Hat Hname]. split.
  - apply orb_true_iff in Hat as [Hat%bool_decide_eq_true|[Hown Hat%bool_decide_eq_true]%andb_true_iff]; [by left|right]. split; [by apply Hnext|done].
  - apply existsb_exists in Hname as (name & Hin%list_elem_of_In & Hname). apply Hnames in Hin.
    apply orb_true_iff in Hname as [-> %bool_decide_eq_true| -> %bool_decide_eq_true]; [by left|by right].
Qed.

Lemma silences_covers root path n line s f : describes root path n line s -> comment_at path n line -> (n + 1 < two32)%N ->
  (f_line f = n \/ (comment_for_next marker disableMarker line /\ f_line f = n + 1)%N) ->
  (comment_names marker disableMarker line (str "*") \/ comment_names marker disableMarker line (f_check f)) -> f_line f <> 0%N /\ covers f s = true.
Proof.
  intros (_ & _ & <- & Hnext & Hnames) (text & i & _ & _ & Hn & _) Hb Hat Hname. split; [destruct Hat as [-> |[_ ->]]; lia|].
  unfold covers, at_place, names_check. rewrite u32_small by lia. apply andb_true_iff. split.
  - apply orb_true_iff. destruct Hat as [-> |[Hx ->]]; [left; by apply bool_decide_eq_true|right].
    apply andb_true_iff. split; [by apply Hnext|by apply bool_decide_eq_true].
  - apply existsb_exists. destruct Hname as [Hx|Hx]; apply Hnames in Hx; eexists; (split; [by apply list_elem_of_In|]); apply orb_true_iff; [left|right]; by apply bool_decide_eq_true.
Qed.

(** A line of a file has one comment. *)
Lemma comment_unique path n line line' : comment_at path n line -> comment_at path n line' -> line = line'.
Proof.
  intros (t & i & Hr & Hi & -> & _) (t' & i' & Hr' & Hi' & Hn & _). assert (t' = t) as -> by congruence. assert (i' = i) as -> by lia.
  apply items_spec in Hi, Hi'. congruence.
Qed.

Lemma suppressed_silenced fs extra root f : (exists s, suppressed_by marker disableMarker read fs extra root f s) <->
  searched fs extra root (f_path f) /\ exists n, silences (f_path f) n f.
Proof.
  unfold suppressed_by. setoid_rewrite scanned_searched. split.
  - intros (s & Hsc & Hs & Hl & Hc). split; [done|]. exists (sup_line s). destruct (record_comment root _ s Hs) as (line & Hat & Hd & Hb). by eapply covers_silences.
  - intros (Hsc & n & _ & line & Hat & Hline & Hname). destruct (comment_record root _ n line Hat) as (s & Hs & Hd). exists s.
    assert (Hb : (n + 1 < two32)%N) by (destruct (record_comment root _ s Hs) as (_ & _ & _ & Hb); by destruct Hd as (_ & _ & <- & _)).
    destruct (silences_covers root _ n line s f Hd Hat Hb Hline Hname). by split_and!.
Qed.

Lemma record_used root path line s (fs : list Finding) : s ∈ suppressions_in marker disableMarker read root path -> comment_at path (sup_line s) line ->
  (exists f, f ∈ fs /\ f_path f = path /\ f_line f <> 0%N /\ covers f s = true) <-> exists f, f ∈ fs /\ silences path (sup_line s) f.
Proof.
  intros Hs Hat. destruct (record_comment root path s Hs) as (line' & Hat' & Hd & Hb). assert (line' = line) as -> by by eapply comment_unique. split.
  - intros (f & Hf & Hp & Hl & Hc). exists f. split; [done|]. by eapply covers_silences.
  - intros (f & Hf & Hp & line' & Hat'' & Hline & Hname). assert (line' = line) as -> by by eapply comment_unique. exists f.
    destruct (silences_covers root path _ line s f Hd Hat Hb Hline Hname). by split_and!.
Qed.

(** A file has one record per line. *)
Lemma records_once root path : NoDup (sup_line <$> suppressions_in marker disableMarker read root path).
Proof.
  unfold suppressions_in. destruct (read path) as [text|] eqn:Er; [|constructor]. specialize (small path text Er). apply parse_lines_once; lia.
Qed.

Definition place_of (s : Suppression) : bytes * N := (sup_path s, sup_line s).

Lemma mark_list_places path (fs : list Finding) l : place_of <$> mark_list path fs l = place_of <$> l.
Proof. unfold mark_list. rewrite <- list_fmap_compose. by apply list_fmap_ext. Qed.

Lemma unused_once `{!StdSort} fs extra root : NoDup (place_of <$> (applyInlineSuppressions marker disableMarker read fs extra root).1.2).
Proof.
  unfold applyInlineSuppressions. rewrite suppress_fold. cbn [fst snd]. rewrite (std_sort_perm _ unused_less), fmap_of_bind.
  set (byPath := foldl _ ∅ _). assert (Hrows : forall path l, (path, l) ∈ entries bytes_cmp (mark_all fs byPath) ->
    place_of <$> l = place_of <$> suppressions_in marker disableMarker read root path).
  { intros path l Hl%elem_of_entries. unfold mark_all in Hl. rewrite map_lookup_imap in Hl. unfold byPath in Hl. rewrite scan_fold, lookup_empty in Hl.
    case_decide as Hd; [|done]. injection Hl as <-. apply mark_list_places. }
  assert (Hpath : forall path l p, (path, l) ∈ entries bytes_cmp (mark_all fs byPath) -> p ∈ place_of <$> l -> p.1 = path).
  { intros path l p Hl. rewrite (Hrows path l Hl). intros (s & -> & Hs)%list_elem_of_fmap. by destruct (record_comment root path s Hs) as (_ & _ & (? & _) & _). }
  assert (Hsub : forall (kv : bytes * list Suppression) p, p ∈ place_of <$> filter (fun s => sup_used s = false) kv.2 -> p ∈ place_of <$> kv.2).
  { intros kv p (s & -> & [_ Hs]%list_elem_of_filter)%list_elem_of_fmap. by apply list_elem_of_fmap_2. }
  apply NoDup_bind.
  - intros [p l] [p' l'] y Hl Hl' Hy%Hsub Hy'%Hsub. assert (p' = p) as -> by (by rewrite <- (Hpath _ _ _ Hl Hy), <- (Hpath _ _ _ Hl' Hy')).
    apply elem_of_entries in Hl, Hl'. congruence.
  - intros [p l] Hl. cbn [snd]. apply NoDup_fmap_filter_sub. rewrite (Hrows p l Hl). apply (NoDup_fmap_1 snd). rewrite <- list_fmap_compose.
    exact (records_once root p).
  - eapply (NoDup_fmap_1 fst). rewrite entries_keys. apply sorted_keys_NoDup.
Qed.
End Silenced.

(** C28. Inline suppressions remove exactly what their comments say.  A finding goes exactly when
    its file has a comment that names its check or [*], on the line of the finding, or on
    the line above it when that comment is alone on its line or is a
    [vycor-disable-next-line]; what is left keeps its order.  The names of a comment are the
    items of its list, without the blanks around them; those after [--] are not names.  The
    unused list has one record for every comment of the searched files that covers no finding
    and nothing else, in the order of file and line.  Files are smaller than 4 GiB, so that
    line numbers do not wrap. *)
Theorem suppressions_exact `{!PathOps} `{!StdSort} (marker : bytes -> option (nat * bytes)) (disableMarker : bytes -> option (bool * bytes))
    (read : bytes -> option bytes) (fs : list Finding) (extra : list bytes) (root : bytes)
    (small : forall path text, read path = Some text -> (N.of_nat (length text) + 1 < two32)%N) :
  let comment := comment_at marker disableMarker read in
  let covered path n := exists f, f ∈ fs /\ silences marker disableMarker read path n f in
  let '(kept, unused, removed) := applyInlineSuppressions marker disableMarker read fs extra root in
  kept `sublist_of` fs /\ removed + length kept = length fs /\
  (forall f, f ∈ kept <-> f ∈ fs /\ ~ (searched fs extra root (f_path f) /\ exists n, silences marker disableMarker read (f_path f) n f)) /\
  (forall s, s ∈ unused -> exists path n line, searched fs extra root path /\ comment path n line /\ ~ covered path n /\
     describes marker disableMarker root path n line s) /\
  (forall path n line, searched fs extra root path -> comment path n line -> ~ covered path n ->
     exists s, s ∈ unused /\ describes marker disableMarker root path n line s) /\
  NoDup (place_of <$> unused) /\
  StronglySorted (no_less_before unused_less) unused.
Proof.
  intros comment covered. pose proof (unused_once marker disableMarker read small fs extra root) as Honce.
  pose proof (suppressions_applied marker disableMarker read fs extra root) as HA.
  destruct (applyInlineSuppressions _ _ _ _ _ _) as [[kept unused] removed]. destruct HA as (H1 & H2 & H3 & H4 & H5). split_and!; [done|done| | | |done|done].
  - intros f. rewrite H3. by rewrite suppressed_silenced.
  - intros s (path & Hsc & Hs & Hn)%H4. destruct (record_comment marker disableMarker read small root path s Hs) as (line & Hat & Hd & _).
    exists path, (sup_line s), line. split_and!; [by apply scanned_searched|done| |done]. unfold covered.
    by rewrite <- (record_used marker disableMarker read small root path line s fs Hs Hat).
  - intros path n line Hsc Hat Hn. destruct (comment_record marker disableMarker read small root path n line Hat) as (s & Hs & Hd).
    exists s. split; [|done]. assert (n = sup_line s) as -> by (by destruct Hd as (_ & _ & <- & _)). apply H4. exists path. split_and!; [by apply scanned_searched|done|].
    by rewrite (record_used marker disableMarker read small root path line s fs Hs Hat).
Qed.

(** A matcher for samples: the comment and what is between its brackets. *)
Definition sample_marker (line : bytes) : option (nat * bytes) :=
  comment ← str_find line (str "//"); open_ ← str_find line (str "ignore["); Some (comment, (split_char Byte.x5d (drop (open_ + 7) line)).1).

Definition sample_finding (line : N) : Finding :=
  MkFinding (str "dead-code") (str "DeadCode_Pessimistic") Note (str "/w/a.cpp") (str "a.cpp") line 1 [] [].

(** Line 1 is a comment alone, line 3 has code before its comment. *)
Definition sample_text : bytes :=
  str "// vycor: ignore[odr-violations, dead-code]" ++ [Byte.x0a] ++ str "f();" ++ [Byte.x0a] ++ str "g(); // vycor: ignore[*]" ++ [Byte.x0a] ++ str "h();" ++ [Byte.x0a].

Lemma suppressions_exact_witness :
  let read path := if decide (path = str "/w/a.cpp") then Some sample_text else None in
  (@applyInlineSuppressions sample_marker (fun _ => None) plain_paths read stable_std_sort (sample_finding <$> [2; 3; 4]%N) [] (str "/w")).1.1 = [sample_finding 4] /\
  ~ exists n, silences sample_marker (fun _ => None) read (str "/w/a.cpp") n (sample_finding 4).
Proof.
  intros read. split; [vm_compute; reflexivity|].
  assert (small : forall path text, read path = Some text -> (N.of_nat (length text) + 1 < two32)%N).
  { intros path text. unfold read. case_decide; [|done]. intros [= <-]. vm_compute. reflexivity. }
  pose proof (@suppressions_exact plain_paths stable_std_sort sample_marker (fun _ => None) read (sample_finding <$> [2; 3; 4]%N) [] (str "/w") small) as H.
  cbv zeta in H. destruct (applyInlineSuppressions _ _ _ _ _ _) as [[kept unused] removed] eqn:E.
  destruct H as (_ & _ & H & _). assert (Hk : sample_finding 4 ∈ kept).
  { assert (kept = [sample_finding 4]) as ->; [|left]. apply (f_equal (fun x => x.1.1)) in E. cbn [fst] in E. rewrite <- E. vm_compute. reflexivity. }
  intros Hs. apply H in Hk as [_ Hk]. apply Hk. split; [|exact Hs]. left. split; [discriminate|]. exists (sample_finding 4). split; [right; right; left|reflexivity].
Defined.

(** * The text and the exit code *)

Definition clean_text : bytes := str "check: no issues found." ++ [Byte.x0a].

Lemma finding_text_bracket f : Byte.x5b ∈ finding_text f.
Proof. unfold finding_text. apply elem_of_app. right. apply elem_of_app. left. by left. Qed.

(** A run that says it found nothing found nothing: the text is the one line without issues
    exactly when the strictest gate exits clean, that is when there is no finding and no unit
    failed. *)
Theorem clean_text_is_clean (run : CheckRun) : renderText run = clean_text <-> checkExitCode run (Some Note) false = kCheckExitClean.
Proof.
  unfold renderText, checkExitCode. cbn [negb andb]. destruct (cr_findings run) as [|f fs] eqn:E.
  - cbn [existsb mbind list_bind app]. destruct (decide (failedTuCount run = 0)) as [Hz|Hz].
    + rewrite Hz. by rewrite decide_True, bool_decide_eq_false_2 by (done || lia).
    + rewrite decide_False by tauto. rewrite bool_decide_eq_true_2 by lia. split; discriminate.
  - rewrite decide_False by (intros [? _]; done). rewrite app_nil_r. split.
    + intros Ht. exfalso. assert (Hb : Byte.x5b ∈ clean_text); [|revert Hb; rewrite list_elem_of_In; vm_compute; intuition discriminate].
      rewrite <- Ht. cbn [mbind list_bind]. apply elem_of_app. left. apply finding_text_bracket.
    + cbn [existsb]. replace (bool_decide (severity_rank Note <= severity_rank (f_severity f))) with true by (symmetry; apply bool_decide_eq_true; cbn; lia).
      cbn [orb]. destruct (bool_decide _); discriminate.
Qed.

(** * SARIF *)

Definition in_object (k : bytes) (v : json) : option json := o ← as_object v; obj_get k o.

(** The rules and the results of the one run of a log. *)
Definition sarif_lists (v : json) : option (list json * list json) :=
  runs ← in_object (str "runs") v;
  match runs with
  | JArr [run] =>
      tool ← in_object (str "tool") run; driver ← in_object (str "driver") tool;
      rules ← in_object (str "rules") driver; results ← in_object (str "results") run;
      match rules, results with JArr l, JArr k => Some (l, k) | _, _ => None end
  | _ => None
  end.

Lemma rule_index_lookup rules check : check ∈ rules -> rules !! rule_index rules check = Some check.
Proof.
  intros Hin. unfold rule_index. destruct (list_find (fun r => r = check) rules) as [[i r]|] eqn:E.
  - by apply list_find_Some in E as (Hi & -> & _).
  - apply list_find_None in E. rewrite Forall_forall in E. by destruct (E check).
Qed.

(** Every result of a SARIF log points at its rule: there is a result for every finding, in
    order, and its rule index is the position of the rule whose id it names. *)
Theorem sarif_rules_resolve `{!PathOps} (run : CheckRun) :
  exists rules results, sarif_lists (renderSarif run) = Some (rules, results) /\ length results = length (cr_findings run) /\
    forall i f, cr_findings run !! i = Some f -> exists r n rule, results !! i = Some r /\
      in_object (str "ruleId") r = Some (JStr (f_check f)) /\ in_object (str "ruleIndex") r = Some (JInt (Z.of_nat n)) /\
      rules !! n = Some rule /\ in_object (str "id") rule = Some (JStr (f_check f)).
Proof.
  exists (rule_json <$> sarif_rules run), (result_json run (sarif_rules run) <$> cr_findings run). split_and!.
  - unfold renderSarif. destruct (bool_decide (cr_toolVersion run <> [])) eqn:E; cbn [when]; reflexivity.
  - by rewrite length_fmap.
  - intros i f Hi. exists (result_json run (sarif_rules run) f), (rule_index (sarif_rules run) (f_check f)), (rule_json (f_check f)).
    split_and!; [by rewrite list_lookup_fmap, Hi|reflexivity|reflexivity| |reflexivity].
    rewrite list_lookup_fmap, rule_index_lookup; [done|]. unfold sarif_rules. apply elem_of_key_order, elem_of_union. right.
    apply elem_of_list_to_set, list_elem_of_fmap. exists f. split; [done|]. by apply list_elem_of_lookup_2 in Hi.
Qed.

(** * URIs *)

Definition hex_value (b : Byte.byte) : option N :=
  let n := Byte.to_N b in
  if (48 <=? n)%N && (n <=? 57)%N then Some (n - 48)%N else if (65 <=? n)%N && (n <=? 70)%N then Some (n - 55)%N else None.

(** Percent-decoding. *)
Fixpoint uri_decode (s : bytes) : option bytes :=
  match s with
  | [] => Some []
  | b :: s' =>
      if decide (b = Byte.x25) then
        match s' with
        | h :: l :: s'' => x ← hex_value h; y ← hex_value l; rest ← uri_decode s''; Some (byte_of (16 * x + y) :: rest)
        | _ => None
        end
      else rest ← uri_decode s'; Some (b :: rest)
  end.

Definition encode_byte (c : Byte.byte) : bytes := if uri_plain c then [c] else Byte.x25 :: hex_text true 2 (Byte.to_N c).

Lemma uri_decode_byte c : uri_decode (encode_byte c) = Some [c] /\ (uri_plain c = true -> c <> Byte.x25).
Proof. destruct c; (split; [vm_compute; reflexivity|vm_compute; discriminate]). Qed.

(** An encoded path decodes to the path. *)
Lemma uri_roundtrip p : uri_decode (uriEncodePath p) = Some p.
Proof.
  induction p as [|c p IH]; [done|]. change (uriEncodePath (c :: p)) with (encode_byte c ++ uriEncodePath p).
  destruct (uri_decode_byte c) as [Hd Hp]. unfold encode_byte in *. destruct (uri_plain c).
  - cbn [app uri_decode]. rewrite decide_False by by apply Hp. by rewrite IH.
  - cbn [hex_text app uri_decode] in Hd |- *. rewrite decide_True in Hd |- * by done.
    revert Hd. generalize (hex_value (hex_digit true ((Byte.to_N c / 16) mod 16))), (hex_value (hex_digit true (Byte.to_N c mod 16))).
    intros [x|] [y|]; cbn; try discriminate. intros Hd. injection Hd as Hd. rewrite IH. cbn. by rewrite Hd.
Qed.

(** * The project root *)

Lemma git_walk_climb `{!PathOps} fuel absCwd inCwd cur : (forall dir, parent_path dir `prefix_of` dir) -> cur <> [] ->
  git_walk fuel absCwd inCwd cur =
  default [] <$> climb parent_path (fun d => fs_exists (path_append d (str ".git"))) (fun d => inCwd && bool_decide (d = absCwd)) fuel cur.
Proof.
  intros Hp. revert cur. induction fuel as [|fuel IH]; intros cur Hne; [done|]. cbn [git_walk climb]. rewrite decide_False by done.
  destruct (fs_exists _); [done|]. destruct (inCwd && _); cbn [orb]; [done|].
  destruct (decide (parent_path cur = [] \/ parent_path cur = cur)) as [[H1|H1]|Hn].
  - by rewrite H1.
  - rewrite H1, (bool_decide_eq_true_2 (cur = cur)) by done. by rewrite orb_true_r.
  - rewrite !bool_decide_eq_false_2 by tauto. cbn [orb]. destruct (Hp cur) as [k Hk].
    assert (take (length (parent_path cur)) cur = parent_path cur) as -> by (rewrite Hk at 2; apply take_app_length). apply IH. tauto.
Qed.

(** The root of a repository: the nearest directory with a [.git], and from inside the working
    directory never one above it. *)
Lemma git_root_nearest `{!PathOps} absCwd start : (forall dir, parent_path dir `prefix_of` dir) -> start <> [] ->
  let has dir := fs_exists (path_append dir (str ".git")) in
  let above := ancestor parent_path (fun d => isDirOrParent absCwd start && bool_decide (d = absCwd)) start in
  (above (findGitRoot absCwd start) /\ has (findGitRoot absCwd start) = true /\
     forall d, above d -> length (findGitRoot absCwd start) < length d -> has d = false) \/
  (findGitRoot absCwd start = [] /\ forall d, above d -> has d = false).
Proof.
  intros Hp Hne has above. unfold findGitRoot. rewrite decide_False, git_walk_climb by done.
  pose proof (climb_exact parent_path has (fun d => isDirOrParent absCwd start && bool_decide (d = absCwd)) Hp (S (length start)) start ltac:(lia)) as Hc.
  fold has. destruct (climb _ _ _ _ _) as [[a|]|]; [left|right|done]; cbn; [|done]. done.
Qed.

(** The text a message is identified by: the references to lines are taken out until none is
    left, which ends when an expression takes something out or nothing. *)
Lemma message_identity_stable `{!PathOps} (lineRef_sub : bytes -> bytes) message root :
  (forall s, lineRef_sub s = s \/ length (lineRef_sub s) < length s) ->
  messageIdentity lineRef_sub message root = [] \/ lineRef_sub (messageIdentity lineRef_sub message root) = messageIdentity lineRef_sub message root.
Proof.
  intros Hs. unfold messageIdentity. generalize (stripProjectRoot message root). intros out.
  assert (Hloop : forall fuel out previous, length out + 2 <= fuel -> (previous = [] \/ out = lineRef_sub previous) ->
    exists t, sub_all lineRef_sub fuel out previous = Some t /\ (t = [] \/ lineRef_sub t = t)).
  { intros fuel. induction fuel as [|fuel IH]; intros o prev Hf Hprev; [lia|]. cbn [sub_all]. case_decide as Ho.
    - exists o. split; [done|]. destruct Hprev as [-> | ->]; [by left|right]. by rewrite !Ho.
    - destruct (Hs o) as [Hst|Hlt]; [|apply IH; [lia|by right]]. destruct fuel as [|fuel]; [lia|]. cbn [sub_all]. rewrite Hst, decide_True by done. exists o.
      split; [done|by right]. }
  destruct (Hloop (length out + 2) out [] (le_n _) (or_introl eq_refl)) as (t & -> & Ht). exact Ht.
Qed.
