(* ===== verification/BaselineCorrect.v ===== *)
(** The baseline of a check run: applied, it is the difference of two multisets of
    fingerprints; written and read back, it accepts exactly the findings it was written from,
    and the run that uses it passes. *)

From S2P Require Import Prelude Ordering SortedMap Text Results PatchMapping Codec SnapshotMeta ReachAnalyses CheckSet Report ReportCorrect.

(** * Findings by position *)

Abbreviation indexed := (imap (@pair nat Finding)).

Definition with_fingerprint {A} (fp : bytes) (l : list (A * Finding)) : list (A * Finding) := filter (fun p => f_fingerprint p.2 = fp) l.

(** The findings that carry a fingerprint. *)
Definition occurrences (fs : list Finding) (fp : bytes) : list Finding := filter (fun f => f_fingerprint f = fp) fs.

Lemma imap_pair_snd {A} (l : list A) k : (imap (fun i => pair (k + i)) l).*2 = l.
Proof.
  revert k. induction l as [|x l IH]; intros k; [done|]. cbn. f_equal. rewrite <- (IH (S k)) at 2. f_equal.
  apply imap_ext. intros i y _. cbn. f_equal. lia.
Qed.

Lemma imap_pair_fst {A} (l : list A) k : (imap (fun i => pair (k + i)) l).*1 = seq k (length l).
Proof.
  revert k. induction l as [|x l IH]; intros k; [done|]. cbn. f_equal; [lia|]. rewrite <- (IH (S k)). f_equal.
  apply imap_ext. intros i y _. cbn. f_equal. lia.
Qed.

Lemma indexed_snd fs : (indexed fs).*2 = fs.
Proof. exact (imap_pair_snd fs 0). Qed.
Lemma indexed_fst fs : (indexed fs).*1 = seq 0 (length fs).
Proof. exact (imap_pair_fst fs 0). Qed.

Lemma elem_of_indexed fs i f : (i, f) ∈ indexed fs <-> fs !! i = Some f.
Proof.
  rewrite list_elem_of_lookup. split.
  - intros [j Hj]. rewrite list_lookup_imap in Hj. destruct (fs !! j) eqn:E; [|done]. cbn in Hj. by injection Hj as <- <-.
  - intros Hi. exists i. by rewrite list_lookup_imap, Hi.
Qed.

Lemma filter_snd {A} (P : Finding -> Prop) `{!forall f, Decision (P f)} (l : list (A * Finding)) : (filter (fun p => P p.2) l).*2 = filter P l.*2.
Proof. induction l as [|[a f] l IH]; [done|]. rewrite fmap_cons, !filter_cons. cbn [snd]. case_decide; rewrite ?fmap_cons, IH; done. Qed.

(** The groups hold the positions of every fingerprint. *)
Lemma groups_lookup fs fp : vec_at (fingerprint_groups fs) fp = (with_fingerprint fp (indexed fs)).*1.
Proof.
  unfold fingerprint_groups, with_fingerprint. induction (indexed fs) as [|[i f] l IH] using rev_ind; [done|].
  rewrite foldl_app, filter_app, fmap_app, <- IH. cbn [foldl]. rewrite vec_at_push_back, filter_cons, filter_nil. cbn [snd].
  by destruct (decide (f_fingerprint f = fp)).
Qed.

Lemma groups_none fs fp : fingerprint_groups fs !! fp = None <-> occurrences fs fp = [].
Proof.
  assert (Hne : forall k v, fingerprint_groups fs !! k = Some v -> v <> []).
  { unfold fingerprint_groups. generalize (indexed fs). intros l. induction l as [|[i f] l IH] using rev_ind; [done|]. rewrite foldl_app. cbn [foldl].
    intros k v. unfold push_back. destruct (decide (k = f_fingerprint f)) as [->|Hk]; [rewrite lookup_insert_eq|rewrite lookup_insert_ne by done; apply IH].
    intros [= <-]. by destruct (vec_at _ _). }
  assert (Hv : occurrences fs fp = (with_fingerprint fp (indexed fs)).*2).
  { symmetry. etrans; [exact (filter_snd (A := nat) (fun f => f_fingerprint f = fp) (indexed fs))|]. by rewrite indexed_snd. }
  rewrite Hv. pose proof (groups_lookup fs fp) as Hl. unfold vec_at in Hl. split.
  - intros E. rewrite E in Hl. cbn in Hl. by destruct (with_fingerprint fp (indexed fs)).
  - intros E. destruct (with_fingerprint fp (indexed fs)); [|done]. destruct (fingerprint_groups fs !! fp) as [v|] eqn:Eg; [|done]. cbn in Hl. by destruct (Hne _ _ Eg).
Qed.

(** * What a group hides *)

Lemma changed_first_perm changed members : changed_first changed members ≡ₚ members.
Proof.
  unfold changed_first. induction members as [|i l IH]; [done|]. rewrite !filter_cons. destruct (changed i) eqn:E.
  - rewrite decide_True, decide_False by congruence. cbn. by rewrite IH.
  - rewrite decide_False, decide_True by congruence. by rewrite <- Permutation_middle, IH.
Qed.

Section Groups.
Variable byFingerprint : gmap bytes BaselineEntry.
Variable changed : nat -> bool.

Definition known_of (fp : bytes) : nat := match byFingerprint !! fp with Some e => N.to_nat (b_count e) | None => 0 end.

Definition hidden_of (group : bytes * list nat) : list nat :=
  if decide (length group.2 <= known_of group.1) then group.2 else drop (length group.2 - known_of group.1) (changed_first changed group.2).

Definition stale_of (group : bytes * list nat) : list BaselineEntry :=
  match byFingerprint !! group.1 with
  | Some e => if decide (length group.2 < N.to_nat (b_count e)) then [with_count e (u32 (N.of_nat (N.to_nat (b_count e) - length group.2)))] else []
  | None => []
  end.

Lemma hidden_length group : length (hidden_of group) = min (length group.2) (known_of group.1).
Proof. unfold hidden_of. case_decide; [lia|]. rewrite length_drop, changed_first_perm. lia. Qed.

Lemma hide_app a b r : hide (a ++ b) r = hide b (hide a r).
Proof. apply foldl_app. Qed.

Lemma group_fold gs st :
  foldl (group_step byFingerprint changed) st gs =
  MkRun (hide (gs ≫= hidden_of) (br_report st)) (br_removed st + length (gs ≫= hidden_of)) (br_stale st ++ (gs ≫= stale_of)).
Proof.
  induction gs as [|[fp members] gs IH] using rev_ind.
  - cbn. rewrite Nat.add_0_r, app_nil_r. by destruct st.
  - rewrite foldl_app, IH, !bind_app, hide_app, length_app. cbn [foldl]. cbn [mbind list_bind]. rewrite !app_nil_r, hidden_length. cbn [fst snd].
    unfold group_step, stale_of, hidden_of. cbn [fst snd br_report br_removed br_stale]. fold (known_of fp). unfold known_of.
    destruct (byFingerprint !! fp) as [e|].
    + destruct (decide (length members <= N.to_nat (b_count e))).
      * f_equal; [lia|]. case_decide; by rewrite <- ?(assoc_L (++)), ?app_nil_r.
      * f_equal; [lia|]. rewrite decide_False by lia. by rewrite app_nil_r.
    + destruct (decide (length members <= 0)).
      * f_equal; [lia|]. by rewrite app_nil_r.
      * f_equal; [lia|]. by rewrite app_nil_r.
Qed.
End Groups.

Lemma hide_length l r : length (hide l r) = length r.
Proof. revert r. induction l as [|i l IH]; intros r; [done|]. cbn. unfold hide in IH. by rewrite IH, length_insert. Qed.

Lemma hide_lookup l r i : hide l r !! i = Some true <-> r !! i = Some true /\ i ∉ l.
Proof.
  revert r. induction l as [|j l IH]; intros r; [cbn; rewrite elem_of_nil; tauto|]. change (hide (j :: l) r) with (hide l (<[j := false]> r)).
  rewrite IH, not_elem_of_cons. destruct (decide (i = j)) as [->|Hne].
  - split; [|tauto]. intros [Hj _]. exfalso. destruct (decide (j < length r)) as [Hlt|Hge]; [by rewrite list_lookup_insert_eq in Hj|].
    rewrite list_insert_ge in Hj by lia. apply lookup_lt_Some in Hj. lia.
  - rewrite list_lookup_insert_ne by done. tauto.
Qed.

Lemma reported_indexed flags fs : length flags = length fs -> reported flags fs = (filter (fun p => flags !! p.1 = Some true) (indexed fs)).*2.
Proof.
  revert flags. induction fs as [|f fs IH] using rev_ind; intros flags Hl; [by destruct flags|].
  destruct flags as [|b flags _] using rev_ind; [rewrite length_app in Hl; cbn in Hl; lia|]. rewrite !length_app in Hl. cbn in Hl.
  assert (Hl' : length flags = length fs) by lia. unfold reported. rewrite zip_with_app by done. rewrite filter_app, fmap_app, imap_app, filter_app, fmap_app.
  f_equal.
  - unfold reported in IH. rewrite (IH flags Hl'). f_equal. apply filter_ext_in. intros [i g] Hi%elem_of_indexed%lookup_lt_Some. cbn.
    by rewrite lookup_app_l by lia.
  - cbn [zip_with imap]. rewrite !filter_cons, !filter_nil. cbn [fst]. unfold compose. rewrite lookup_app_r by lia.
    replace (length fs + 0 - length flags) with 0 by lia. cbn. by destruct b.
Qed.

(** The findings whose position is not hidden. *)
Lemma reported_hidden hidden fs :
  reported (hide hidden (replicate (length fs) true)) fs = (filter (fun p => p.1 ∉ hidden) (indexed fs)).*2.
Proof.
  rewrite reported_indexed by by rewrite hide_length, length_replicate. f_equal. apply filter_ext_in. intros [i f] Hi%elem_of_indexed%lookup_lt_Some. cbn.
  rewrite hide_lookup, lookup_replicate. tauto.
Qed.

(** * The difference *)

Lemma filter_fst {A B} (P : A -> Prop) `{!forall a, Decision (P a)} (l : list (A * B)) : (filter (fun p => P p.1) l).*1 = filter P l.*1.
Proof. induction l as [|[a f] l IH]; [done|]. rewrite fmap_cons, !filter_cons. cbn [fst]. case_decide; rewrite ?fmap_cons, IH; done. Qed.

Lemma filter_swap {A} (P Q : A -> Prop) `{!forall a, Decision (P a)} `{!forall a, Decision (Q a)} (l : list A) :
  filter P (filter Q l) = filter Q (filter P l).
Proof. induction l as [|x l IH]; [done|]. rewrite !filter_cons. do 2 case_decide; rewrite ?filter_cons, ?decide_True, ?decide_False, ?IH by done; done. Qed.

Lemma filter_out_all {A} (P : A -> Prop) `{!forall a, Decision (P a)} (l : list A) : (forall x, x ∈ l -> ~ P x) -> filter P l = [].
Proof.
  induction l as [|x l IH]; intros Hp; [done|]. rewrite filter_cons, decide_False by (apply Hp; left). apply IH. intros y Hy. apply Hp. by right.
Qed.

(** A list without repeats, less a tail of it. *)
Lemma filter_not_dropped {A B} `{!EqDecision A} (s : nat) (l : list (A * B)) : NoDup l.*1 -> filter (fun p => p.1 ∉ (drop s l).*1) l = take s l.
Proof.
  intros Hnd. etrans; [apply (f_equal (filter (fun p => p.1 ∉ (drop s l).*1))); symmetry; apply (take_drop s)|].
  rewrite filter_app, (filter_out_all _ (drop s l)), app_nil_r.
  - apply filter_id. intros p Hp Hd. rewrite <- (take_drop s l), fmap_app in Hnd. apply NoDup_app in Hnd as (_ & Hdis & _).
    apply (Hdis p.1); [|done]. apply list_elem_of_fmap. by exists p.
  - intros p Hp Hn. apply Hn, list_elem_of_fmap. by exists p.
Qed.

Section Difference.
Context `{!PathOps}.
Variables (fs : list Finding) (byFingerprint : gmap bytes BaselineEntry) (changedLines : option (list PatchRange)).

Definition on_changed (f : Finding) : bool := match changedLines with Some ranges => onChangedLine f ranges | None => false end.

Abbreviation changed := (fun i => match changedLines, fs !! i with Some ranges, Some f => onChangedLine f ranges | _, _ => false end).
Abbreviation known := (known_of byFingerprint).
Abbreviation group fp := (with_fingerprint fp (indexed fs)).
Definition hidden : list nat := entries bytes_cmp (fingerprint_groups fs) ≫= hidden_of byFingerprint changed.

(** Those on changed lines come first. *)
Definition preferred (l : list Finding) : list Finding := filter (fun f => on_changed f = true) l ++ filter (fun f => on_changed f = false) l.

Lemma changed_here i f : (i, f) ∈ indexed fs -> changed i = on_changed f.
Proof. intros Hi%elem_of_indexed. unfold on_changed. by rewrite Hi. Qed.

Lemma group_snd fp : (group fp).*2 = occurrences fs fp.
Proof. etrans; [exact (filter_snd (A := nat) (fun f => f_fingerprint f = fp) (indexed fs))|]. by rewrite indexed_snd. Qed.

Lemma group_length fp : length (group fp).*1 = length (occurrences fs fp).
Proof. by rewrite <- group_snd, !length_fmap. Qed.

Lemma group_entry fp : occurrences fs fp <> [] -> (fp, (group fp).*1) ∈ entries bytes_cmp (fingerprint_groups fs).
Proof.
  intros Hne. apply elem_of_entries. pose proof (groups_lookup fs fp) as Hg. pose proof (groups_none fs fp) as Hn. unfold vec_at in Hg.
  destruct (fingerprint_groups fs !! fp); [cbn in Hg; by rewrite Hg|]. exfalso. apply Hne. by apply Hn.
Qed.

Lemma entry_group fp members : (fp, members) ∈ entries bytes_cmp (fingerprint_groups fs) -> members = (group fp).*1.
Proof. intros Hm%elem_of_entries. pose proof (groups_lookup fs fp) as Hg. unfold vec_at in Hg. by rewrite Hm in Hg. Qed.

Lemma hidden_members g i : i ∈ hidden_of byFingerprint changed g -> i ∈ g.2.
Proof.
  unfold hidden_of. case_decide; [done|]. intros Hi. rewrite <- (changed_first_perm changed). rewrite <- (take_drop (length g.2 - known g.1) (changed_first changed g.2)).
  apply elem_of_app. by right.
Qed.

Lemma in_group fp i f : (i, f) ∈ indexed fs -> i ∈ (group fp).*1 -> f_fingerprint f = fp.
Proof.
  intros Hi%elem_of_indexed ([j g] & -> & [Hg Hj%elem_of_indexed]%list_elem_of_filter)%list_elem_of_fmap. cbn in *. congruence.
Qed.

Lemma hidden_here i f : (i, f) ∈ indexed fs ->
  i ∈ hidden <-> i ∈ hidden_of byFingerprint changed (f_fingerprint f, (group (f_fingerprint f)).*1).
Proof.
  intros Hi. unfold hidden. rewrite list_elem_of_bind. split.
  - intros ([fp members] & Hh & Hg). assert (Hm := entry_group _ _ Hg). pose proof (hidden_members _ _ Hh) as Hin. cbn [snd] in Hin.
    rewrite Hm in Hin, Hh. by rewrite (in_group fp i f Hi Hin).
  - intros Hh. eexists. split; [exact Hh|]. apply group_entry. intros E. apply elem_of_indexed, list_elem_of_lookup_2 in Hi.
    assert (f ∈ occurrences fs (f_fingerprint f)) as Hf by (apply list_elem_of_filter; by split). rewrite E in Hf. by apply not_elem_of_nil in Hf.
Qed.

Definition kept : list Finding := (filter (fun p => p.1 ∉ hidden) (indexed fs)).*2.

Lemma group_nodup fp : NoDup (group fp).*1.
Proof.
  assert (Hs : (group fp).*1 `sublist_of` (indexed fs).*1) by apply (fmap_sublist fst), sublist_filter. rewrite indexed_fst in Hs.
  eapply sublist_NoDup; [apply NoDup_seq|exact Hs].
Qed.

(** The members of a group as the code orders them. *)
Definition ordered_group (fp : bytes) : list (nat * Finding) :=
  filter (fun p => on_changed p.2 = true) (group fp) ++ filter (fun p => on_changed p.2 = false) (group fp).

Lemma ordered_fst fp : changed_first changed (group fp).*1 = (ordered_group fp).*1.
Proof.
  unfold changed_first, ordered_group. rewrite fmap_app.
  assert (Hin : forall p, p ∈ group fp -> changed p.1 = on_changed p.2).
  { intros [i f] [_ Hi]%list_elem_of_filter. by apply changed_here. }
  f_equal; (etrans; [symmetry; exact (filter_fst (fun i => changed i = _) (group fp))|]); f_equal; apply filter_ext_in; intros p Hp; by rewrite (Hin p Hp).
Qed.

Lemma ordered_snd fp : (ordered_group fp).*2 = preferred (occurrences fs fp).
Proof.
  unfold ordered_group, preferred. rewrite fmap_app, <- group_snd.
  f_equal; exact (filter_snd (A := nat) (fun f => on_changed f = _) (group fp)).
Qed.

Lemma ordered_perm fp : ordered_group fp ≡ₚ group fp.
Proof.
  unfold ordered_group. induction (group fp) as [|p l IH]; [done|]. rewrite !filter_cons. destruct (on_changed p.2).
  - rewrite decide_True, decide_False by done. cbn. by rewrite IH.
  - rewrite decide_False, decide_True by done. by rewrite <- Permutation_middle, IH.
Qed.

(** What is kept of a fingerprint: as many as the baseline does not know. *)
Lemma kept_occurrences fp :
  occurrences kept fp ≡ₚ take (length (occurrences fs fp) - known fp) (preferred (occurrences fs fp)).
Proof.
  assert (Hk : occurrences kept fp = (filter (fun p => p.1 ∉ hidden) (group fp)).*2).
  { unfold kept, occurrences. etrans; [symmetry; exact (filter_snd (A := nat) (fun f => f_fingerprint f = fp) _)|]. f_equal. apply filter_swap. }
  rewrite Hk. clear Hk.
  assert (Hh : filter (fun p => p.1 ∉ hidden) (group fp) = filter (fun p => p.1 ∉ hidden_of byFingerprint changed (fp, (group fp).*1)) (group fp)).
  { apply filter_ext_in. intros [i f] [Hfp Hi]%list_elem_of_filter. cbn [fst snd] in *. rewrite (hidden_here i f Hi), Hfp. done. }
  rewrite Hh. clear Hh. unfold hidden_of. cbn [fst snd]. rewrite group_length. destruct (decide (length (occurrences fs fp) <= known fp)) as [Hle|Hgt].
  - replace (length (occurrences fs fp) - known fp) with 0 by lia. rewrite filter_out_all; [done|]. intros p Hp Hn. apply Hn, list_elem_of_fmap. by exists p.
  - rewrite ordered_fst, <- fmap_drop, <- ordered_snd, <- fmap_take. apply fmap_Permutation.
    etrans; [apply filter_Permutation; symmetry; apply ordered_perm|]. rewrite filter_not_dropped; [done|]. rewrite (ordered_perm fp). apply group_nodup.
Qed.

Lemma hidden_nodup : NoDup hidden.
Proof.
  unfold hidden. assert (Hk : NoDup (entries bytes_cmp (fingerprint_groups fs)).*1) by (rewrite entries_keys; apply sorted_keys_NoDup).
  assert (Hg : Forall (fun g => g.2 = (group g.1).*1) (entries bytes_cmp (fingerprint_groups fs))).
  { apply Forall_forall. intros [fp m] Hm. by apply entry_group. }
  induction Hg as [|[fp m] gs Hm Hg IH]; [apply NoDup_nil; done|]. cbn [fst snd] in Hm. cbn [mbind list_bind]. apply NoDup_cons in Hk as [Hfp Hk]. apply NoDup_app. split_and!.
  - subst m. unfold hidden_of. case_decide; [apply group_nodup|]. eapply sublist_NoDup; [|apply sublist_drop]. rewrite changed_first_perm. apply group_nodup.
  - intros i Hi ([fp' m'] & Hi' & Hg')%list_elem_of_bind. apply hidden_members in Hi, Hi'. cbn [snd] in Hi, Hi'.
    rewrite Forall_forall in Hg. pose proof (Hg _ Hg') as Hm'. cbn [fst snd] in Hm'. subst m m'.
    apply list_elem_of_fmap in Hi as ([j f] & -> & [Hf Hj]%list_elem_of_filter). cbn [fst snd] in *. pose proof (in_group fp' j f Hj Hi') as Hfp'.
    apply Hfp, list_elem_of_fmap. exists (fp', (group fp').*1). cbn. split; [congruence|done].
  - by apply IH.
Qed.

Lemma hidden_count : length hidden + length kept = length fs.
Proof.
  unfold kept. rewrite length_fmap. assert (Hs : forall i, i ∈ hidden -> exists f, (i, f) ∈ indexed fs).
  { intros i ([fp m] & Hi & Hm)%list_elem_of_bind. apply hidden_members in Hi. rewrite (entry_group _ _ Hm) in Hi. cbn [snd] in Hi.
    apply list_elem_of_fmap in Hi as ([j f] & -> & [_ Hj]%list_elem_of_filter). by exists f. }
  assert (Hp : (filter (fun p => p.1 ∈ hidden) (indexed fs)).*1 ≡ₚ hidden).
  { apply NoDup_Permutation; [|apply hidden_nodup|].
    - eapply sublist_NoDup; [|apply (fmap_sublist fst), sublist_filter]. rewrite indexed_fst. apply NoDup_seq.
    - intros i. rewrite list_elem_of_fmap. split.
      + intros (p & -> & [Hp _]%list_elem_of_filter). done.
      + intros Hi. destruct (Hs i Hi) as [f Hf]. exists (i, f). split; [done|]. by apply list_elem_of_filter. }
  apply Permutation_length in Hp. rewrite length_fmap in Hp. rewrite <- Hp, <- (length_imap pair fs).
  clear. generalize hidden. intros h. induction (indexed fs) as [|p l IH]; [done|]. rewrite !filter_cons. repeat case_decide; cbn; try tauto; lia.
Qed.
End Difference.

(** * Stale entries *)

(** How many findings with a fingerprint a baseline knows. *)
Definition baseline_count (baseline : list BaselineEntry) (fp : bytes) : nat :=
  foldr (fun e n => if decide (b_fingerprint e = fp) then N.to_nat (b_count e) + n else n) 0 baseline.

Lemma by_fingerprint_lookup baseline fp e : NoDup (b_fingerprint <$> baseline) ->
  by_fingerprint baseline !! fp = Some e <-> e ∈ baseline /\ b_fingerprint e = fp.
Proof.
  unfold by_fingerprint. induction baseline as [|b l IH] using rev_ind; intros Hnd; [cbn; rewrite lookup_empty, elem_of_nil; naive_solver|].
  rewrite fmap_app in Hnd. apply NoDup_app in Hnd as (Hnd & Hdis & _). rewrite foldl_app, elem_of_app, list_elem_of_singleton. cbn [foldl].
  destruct (decide (fp = b_fingerprint b)) as [->|Hne].
  - rewrite lookup_insert_eq. split; [intros [= <-]; split; [by right|done]|]. intros [[Hin| ->] Hfp]; [|done]. exfalso.
    apply (Hdis (b_fingerprint e)); [by apply list_elem_of_fmap; exists e|]. rewrite Hfp. cbn. by left.
  - rewrite lookup_insert_ne, IH by done. split; [intros [? ?]; split; [by left|done]|]. intros [[Hin| ->] Hfp]; [done|]. congruence.
Qed.

Lemma baseline_count_cons b l fp : baseline_count (b :: l) fp = if decide (b_fingerprint b = fp) then N.to_nat (b_count b) + baseline_count l fp else baseline_count l fp.
Proof. done. Qed.

Lemma baseline_count_none baseline fp : ~ (fp ∈ b_fingerprint <$> baseline) -> baseline_count baseline fp = 0.
Proof.
  induction baseline as [|b l IH]; [done|]. rewrite fmap_cons, baseline_count_cons, not_elem_of_cons. intros [Hne Hn]. rewrite decide_False by congruence. by apply IH.
Qed.

Lemma baseline_count_in baseline e : NoDup (b_fingerprint <$> baseline) -> e ∈ baseline -> baseline_count baseline (b_fingerprint e) = N.to_nat (b_count e).
Proof.
  induction baseline as [|b l IH]; [by intros _ ?%not_elem_of_nil|]. rewrite fmap_cons, baseline_count_cons. intros [Hb Hnd]%NoDup_cons [->|Hin]%elem_of_cons.
  - rewrite decide_True by done. rewrite baseline_count_none by done. lia.
  - rewrite decide_False; [by apply IH|]. intros E. apply Hb. rewrite E. apply list_elem_of_fmap. by exists e.
Qed.

Lemma known_count baseline fp : NoDup (b_fingerprint <$> baseline) -> known_of (by_fingerprint baseline) fp = baseline_count baseline fp.
Proof.
  intros Hnd. unfold known_of. destruct (by_fingerprint baseline !! fp) as [e|] eqn:E.
  - apply by_fingerprint_lookup in E as [Hin <-]; [|done]. by rewrite baseline_count_in.
  - symmetry. apply baseline_count_none. intros (e & -> & Hin)%list_elem_of_fmap. assert (by_fingerprint baseline !! b_fingerprint e = Some e) as E' by by apply by_fingerprint_lookup.
    congruence.
Qed.

Lemma with_count_self e : with_count e (b_count e) = e.
Proof. by destruct e. Qed.

Definition counted (e : BaselineEntry) : Prop := (1 <= b_count e < two32)%N.

Lemma stale_members fs baseline e : NoDup (b_fingerprint <$> baseline) -> Forall counted baseline ->
  e ∈ (entries bytes_cmp (fingerprint_groups fs) ≫= stale_of (by_fingerprint baseline)) ++ filter (fun b => fingerprint_groups fs !! b_fingerprint b = None) baseline <->
  exists b, b ∈ baseline /\ length (occurrences fs (b_fingerprint b)) < N.to_nat (b_count b) /\
    e = with_count b (b_count b - N.of_nat (length (occurrences fs (b_fingerprint b)))).
Proof.
  intros Hnd Hc. rewrite Forall_forall in Hc. rewrite elem_of_app, list_elem_of_bind, list_elem_of_filter. split.
  - intros [([fp m] & Hs & Hg)|[Hn Hin]].
    + unfold stale_of in Hs. cbn [fst snd] in Hs. destruct (by_fingerprint baseline !! fp) as [b|] eqn:E; [|by apply not_elem_of_nil in Hs].
      apply by_fingerprint_lookup in E as [Hin <-]; [|done]. rewrite (entry_group _ _ _ Hg), group_length in Hs. case_decide as Hlt; [|by apply not_elem_of_nil in Hs].
      apply list_elem_of_singleton in Hs as ->. exists b. split_and!; [done|done|]. destruct (Hc b Hin). rewrite u32_small by lia. f_equal. lia.
    + apply groups_none in Hn. exists e. rewrite Hn. destruct (Hc e Hin). cbn [length]. split_and!; [done|lia|]. by rewrite N.sub_0_r, with_count_self.
  - intros (b & Hin & Hlt & ->). destruct (Hc b Hin) as [Hb1 Hb2].
    destruct (decide (occurrences fs (b_fingerprint b) = [])) as [Hz|Hnz].
    + right. rewrite Hz. cbn [length]. rewrite N.sub_0_r, with_count_self. split; [by apply groups_none|done].
    + left. exists (b_fingerprint b, (with_fingerprint (b_fingerprint b) (indexed fs)).*1). split; [|by apply group_entry].
      unfold stale_of. cbn [fst snd]. rewrite (proj2 (by_fingerprint_lookup baseline (b_fingerprint b) b Hnd)) by done. rewrite group_length, decide_True by done.
      apply list_elem_of_singleton. f_equal. rewrite u32_small by lia. lia.
Qed.

Lemma stale_nodup fs baseline : NoDup (b_fingerprint <$> baseline) ->
  NoDup (b_fingerprint <$> ((entries bytes_cmp (fingerprint_groups fs) ≫= stale_of (by_fingerprint baseline)) ++
                            filter (fun b => fingerprint_groups fs !! b_fingerprint b = None) baseline)).
Proof.
  intros Hnd. rewrite fmap_app.
  assert (Hsub : b_fingerprint <$> (entries bytes_cmp (fingerprint_groups fs) ≫= stale_of (by_fingerprint baseline)) `sublist_of` (entries bytes_cmp (fingerprint_groups fs)).*1).
  { induction (entries bytes_cmp (fingerprint_groups fs)) as [|[fp m] gs IH]; [constructor|]. cbn [mbind list_bind]. rewrite fmap_app, fmap_cons. cbn [fst].
    unfold stale_of at 1. cbn [fst snd]. destruct (by_fingerprint baseline !! fp) as [b|] eqn:E; [|by apply sublist_cons].
    apply by_fingerprint_lookup in E as [_ <-]; [|done]. case_decide; [by apply sublist_skip|by apply sublist_cons]. }
  apply NoDup_app. split_and!.
  - eapply sublist_NoDup; [|exact Hsub]. rewrite entries_keys. apply sorted_keys_NoDup.
  - intros fp Hfp (b & -> & [Hb _]%list_elem_of_filter)%list_elem_of_fmap. eapply elem_of_sublist in Hfp; [|exact Hsub].
    apply list_elem_of_fmap in Hfp as ([k v] & Hk & Hg%elem_of_entries). cbn in Hk. congruence.
  - eapply sublist_NoDup; [exact Hnd|]. apply (fmap_sublist b_fingerprint), sublist_filter.
Qed.

(** C26. The baseline is a multiset of fingerprints and applying it is a difference: of the
    findings with one fingerprint as many are reported as the baseline does not know, those on
    changed lines before the others and else the first ones; the rest is removed and counted,
    what is left keeps its order, and an entry is stale, once, by as much as it counts more than
    is found. *)
Theorem baseline_is_difference `{!PathOps} `{!StdSort} (fs : list Finding) (baseline : list BaselineEntry) (changedLines : option (list PatchRange)) :
  NoDup (b_fingerprint <$> baseline) -> Forall counted baseline ->
  let '(kept, stale, removed) := applyBaseline fs baseline changedLines in
  kept `sublist_of` fs /\ removed + length kept = length fs /\
  (forall fp, occurrences kept fp ≡ₚ take (length (occurrences fs fp) - baseline_count baseline fp) (preferred changedLines (occurrences fs fp))) /\
  (forall e, e ∈ stale <-> exists b, b ∈ baseline /\ length (occurrences fs (b_fingerprint b)) < N.to_nat (b_count b) /\
     e = with_count b (b_count b - N.of_nat (length (occurrences fs (b_fingerprint b))))) /\
  NoDup (b_fingerprint <$> stale).
Proof.
  intros Hnd Hc. unfold applyBaseline. rewrite group_fold. cbn [br_report br_removed br_stale]. rewrite reported_hidden, app_nil_l.
  change (entries bytes_cmp (fingerprint_groups fs) ≫= hidden_of _ _) with (hidden fs (by_fingerprint baseline) changedLines).
  change ((filter _ (indexed fs)).*2) with (kept fs (by_fingerprint baseline) changedLines). split_and!.
  - unfold kept. etrans; [apply (fmap_sublist snd), sublist_filter|by rewrite indexed_snd].
  - apply hidden_count.
  - intros fp. rewrite <- (known_count baseline fp Hnd). apply kept_occurrences.
  - intros e. rewrite (std_sort_perm _ stale_less). by apply stale_members.
  - rewrite (std_sort_perm _ stale_less). by apply stale_nodup.
Qed.

Definition sample_finding (fingerprint : bytes) (line : N) : Finding :=
  MkFinding (str "dead-code") (str "DeadCode_Pessimistic") Note (str "/w/a.cpp") (str "a.cpp") line 1 (str "dead") fingerprint.

Lemma baseline_is_difference_witness :
  let fs := [sample_finding (str "f1") 3; sample_finding (str "f2") 5; sample_finding (str "f1") 9] in
  let baseline := [MkBaseline (str "f1") 1 [] [] []; MkBaseline (str "f3") 2 [] [] []] in
  let ranges := Some [MkRange (str "a.cpp") 8 9 false] in
  let '(kept, stale, removed) := @applyBaseline plain_paths stable_std_sort fs baseline ranges in
  kept = [sample_finding (str "f2") 5; sample_finding (str "f1") 9] /\ removed + length kept = 3 /\
  occurrences kept (str "f1") ≡ₚ [sample_finding (str "f1") 9] /\ MkBaseline (str "f3") 2 [] [] [] ∈ stale.
Proof.
  intros fs baseline ranges. pose proof (@baseline_is_difference plain_paths stable_std_sort fs baseline ranges) as Hd.
  destruct (@applyBaseline plain_paths stable_std_sort fs baseline ranges) as [[kept stale] removed] eqn:E.
  destruct Hd as (_ & Hr & Ho & Hs & _).
  - by_computation.
  - by_computation.
  - split_and!; [vm_compute in E; injection E as <- _ _; reflexivity|exact Hr| |].
    + specialize (Ho (str "f1")). etrans; [exact Ho|]. assert (take (length (occurrences fs (str "f1")) - baseline_count baseline (str "f1"))
        (@preferred plain_paths ranges (occurrences fs (str "f1"))) = [sample_finding (str "f1") 9]) as -> by (vm_compute; reflexivity). done.
    + apply Hs. exists (MkBaseline (str "f3") 2 [] [] []). split_and!; [by_computation|by_computation|reflexivity].
Defined.

(** * Writing and reading a baseline *)

(** The entries of the findings, by fingerprint. *)
Definition counted_map (fs : list Finding) : gmap bytes BaselineEntry := foldl (fun m f => count_entry (entry_of f) 1 m) ∅ fs.

Lemma counted_map_lookup fs fp : (N.of_nat (length fs) < two32)%N ->
  match counted_map fs !! fp with
  | Some e => b_fingerprint e = fp /\ b_count e = N.of_nat (length (occurrences fs fp)) /\ occurrences fs fp <> []
  | None => occurrences fs fp = []
  end.
Proof.
  unfold counted_map. induction fs as [|f fs IH] using rev_ind; intros Hl; [cbn [foldl]; by rewrite lookup_empty|].
  rewrite length_app in Hl. cbn in Hl. specialize (IH ltac:(lia)). rewrite foldl_app. cbn [foldl]. set (m := foldl _ ∅ fs) in *. clearbody m.
  unfold occurrences in *. rewrite filter_app, filter_cons, filter_nil. unfold count_entry. cbn [entry_of b_fingerprint].
  assert (Hlen : (N.of_nat (length (filter (fun g => f_fingerprint g = fp) fs)) <= N.of_nat (length fs))%N).
  { pose proof (sublist_length _ _ (sublist_filter (fun g => f_fingerprint g = fp) fs)). lia. }
  destruct (decide (f_fingerprint f = fp)) as [<-|Hne].
  - rewrite lookup_insert_eq. cbn [with_count b_fingerprint b_count]. rewrite length_app. cbn [length].
    destruct (m !! f_fingerprint f) as [e|]; cbn [from_option id].
    + destruct IH as (-> & -> & _). split_and!; [done|rewrite u32_small by lia; lia|by destruct (filter _ fs)].
    + rewrite IH in *. cbn. split_and!; [done|done|done].
  - rewrite lookup_insert_ne, app_nil_r by done. exact IH.
Qed.

Lemma counted_map_entries fs e : (N.of_nat (length fs) < two32)%N -> e ∈ baseline_of fs ->
  counted_map fs !! b_fingerprint e = Some e /\ b_count e = N.of_nat (length (occurrences fs (b_fingerprint e))) /\ counted e.
Proof.
  intros Hl Hin. unfold baseline_of in Hin. fold (counted_map fs) in Hin. apply list_elem_of_fmap in Hin as ([fp e'] & -> & Hin%elem_of_entries). cbn [snd].
  pose proof (counted_map_lookup fs fp Hl) as Hm. rewrite Hin in Hm. destruct Hm as (<- & Hc & Hne). split_and!; [done|done|]. unfold counted. rewrite Hc.
  pose proof (sublist_length _ _ (sublist_filter (fun g => f_fingerprint g = b_fingerprint e') fs)) as Hs. unfold occurrences in *.
  destruct (filter _ fs); [done|]. cbn [length] in *. lia.
Qed.

Lemma baseline_of_fingerprints fs : (N.of_nat (length fs) < two32)%N -> b_fingerprint <$> baseline_of fs = sorted_keys_of bytes_cmp (dom (counted_map fs)).
Proof.
  intros Hl. rewrite <- entries_keys. unfold baseline_of. fold (counted_map fs). rewrite <- list_fmap_compose. apply list_fmap_ext. intros i [fp e] Hi.
  apply list_elem_of_lookup_2, elem_of_entries in Hi. pose proof (counted_map_lookup fs fp Hl) as Hm. rewrite Hi in Hm. by destruct Hm.
Qed.

Lemma baseline_of_nodup fs : (N.of_nat (length fs) < two32)%N -> NoDup (b_fingerprint <$> baseline_of fs).
Proof. intros Hl. rewrite baseline_of_fingerprints by done. apply sorted_keys_NoDup. Qed.

Lemma read_entry_back e : counted e -> read_baseline_entry kBaselineVersion (baseline_entry_json e) = inr (with_count e 0, b_count e).
Proof.
  intros [H1 H2]. unfold read_baseline_entry, baseline_entry_json. cbn [as_object]. set (o := [_; _; _; _; _]).
  assert (obj_string (str "fingerprint") o = Some (b_fingerprint e)) as -> by reflexivity.
  assert (obj_string (str "check") o = Some (b_check e)) as -> by reflexivity. assert (obj_string (str "file") o = Some (b_file e)) as -> by reflexivity.
  assert (obj_string (str "message") o = Some (b_message e)) as -> by reflexivity.
  assert (obj_integer (str "count") o = Some (Z.of_N (b_count e))) as -> by reflexivity. cbn [from_option id].
  destruct (Z.ltb_spec (Z.of_N (b_count e)) 1); [lia|]. change (kBaselineVersion =? 1)%Z with false. cbv iota. by rewrite N2Z.id, u32_small.
Qed.

Lemma read_list_back l m : Forall counted l -> NoDup (b_fingerprint <$> l) -> (forall e, e ∈ l -> m !! b_fingerprint e = None) ->
  exists m', read_baseline_list kBaselineVersion (baseline_entry_json <$> l) m = inr m' /\
    forall fp e, m' !! fp = Some e <-> m !! fp = Some e \/ (e ∈ l /\ b_fingerprint e = fp).
Proof.
  intros Hc. revert m. induction Hc as [|x l Hx Hc IH]; intros m Hnd Hm.
  - exists m. split; [done|]. intros fp e. rewrite elem_of_nil. naive_solver.
  - cbn [fmap list_fmap] in Hnd |- *. apply NoDup_cons in Hnd as [Hxl Hnd]. cbn [read_baseline_list]. rewrite read_entry_back by done.
    assert (Hins : count_entry (with_count x 0) (b_count x) m = <[b_fingerprint x := x]> m).
    { unfold count_entry. cbn [with_count b_fingerprint b_count]. rewrite (Hm x) by left. cbn [from_option id with_count b_count]. destruct Hx.
      rewrite N.add_0_l, u32_small by done. f_equal. by destruct x. }
    rewrite Hins. destruct (IH (<[b_fingerprint x := x]> m) Hnd) as (m' & Hr & Hm').
    { intros e He. rewrite lookup_insert_ne; [apply Hm; by right|]. intros E. apply Hxl. rewrite E. apply list_elem_of_fmap. by exists e. }
    exists m'. split; [done|]. intros fp e. rewrite Hm', elem_of_cons. destruct (decide (fp = b_fingerprint x)) as [->|Hne].
    + rewrite lookup_insert_eq, (Hm x) by left. split.
      * intros [[= <-]|[He Hfp]]; right; [split; [by left|done]|split; [by right|done]].
      * intros [?|[[->|He] Hfp]]; [done|by left|by right].
    + rewrite lookup_insert_ne by done. split; [intros [?|[? ?]]; [by left|right; split; [by right|done]]|]. intros [?|[[->|?] ?]]; [by left|congruence|by right].
Qed.

(** The baseline reads back as it was written. *)
Lemma baseline_reads_back fs : (N.of_nat (length fs) < two32)%N -> parseBaseline (inr (baseline_json fs)) = inr (baseline_of fs).
Proof.
  intros Hl. unfold parseBaseline, baseline_json. cbn [as_object]. set (o := [_; _; _]).
  assert (obj_integer (str "version") o = Some 2%Z) as -> by reflexivity. change ((2 =? 1)%Z || (2 =? kBaselineVersion)%Z) with true. cbv iota.
  assert (obj_array (str "findings") o = Some (baseline_entry_json <$> baseline_of fs)) as -> by reflexivity.
  destruct (read_list_back (baseline_of fs) ∅) as (m' & Hr & Hm').
  - apply Forall_forall. intros e He. by apply counted_map_entries in He as (_ & _ & ?).
  - by apply baseline_of_nodup.
  - intros e _. apply lookup_empty.
  - change 2%Z with kBaselineVersion. rewrite Hr. unfold baseline_of at 1. fold (counted_map fs). do 2 f_equal. f_equal. apply map_eq. intros fp. apply option_eq. intros e.
    rewrite Hm', lookup_empty. split.
    + intros [?|[He <-]]; [done|]. by apply counted_map_entries in He as (? & _ & _).
    + intros He. right. pose proof (counted_map_lookup fs fp Hl) as Hm. rewrite He in Hm. split; [|apply Hm]. unfold baseline_of. fold (counted_map fs).
      apply list_elem_of_fmap. exists (fp, e). split; [done|]. by apply elem_of_entries.
Qed.

Lemma no_occurrences fs : (forall fp, occurrences fs fp = []) -> fs = [].
Proof.
  intros Hn. destruct fs as [|f fs]; [done|]. specialize (Hn (f_fingerprint f)). unfold occurrences in Hn. by rewrite filter_cons, decide_True in Hn.
Qed.

Lemma baseline_accepts `{!PathOps} `{!StdSort} fs changedLines : (N.of_nat (length fs) < two32)%N ->
  (applyBaseline fs (baseline_of fs) changedLines).1 = ([], []).
Proof.
  intros Hl. pose proof (baseline_of_nodup fs Hl) as Hnd.
  assert (Hc : Forall counted (baseline_of fs)) by (apply Forall_forall; intros e He; by apply counted_map_entries in He as (_ & _ & ?)).
  assert (Hcount : forall fp, length (occurrences fs fp) <= baseline_count (baseline_of fs) fp).
  { intros fp. destruct (counted_map fs !! fp) as [e|] eqn:E; pose proof (counted_map_lookup fs fp Hl) as Hm; rewrite E in Hm; [|rewrite Hm; cbn; lia].
    assert (Hin : e ∈ baseline_of fs). { unfold baseline_of. apply list_elem_of_fmap. exists (fp, e). split; [done|]. by apply elem_of_entries. }
    destruct Hm as (<- & Hb & _). rewrite baseline_count_in by done. lia. }
  unfold applyBaseline. rewrite group_fold. cbn [br_report br_removed br_stale]. rewrite reported_hidden, app_nil_l.
  change (entries bytes_cmp (fingerprint_groups fs) ≫= hidden_of _ _) with (hidden fs (by_fingerprint (baseline_of fs)) changedLines).
  change ((filter _ (indexed fs)).*2) with (kept fs (by_fingerprint (baseline_of fs)) changedLines). cbn [fst]. f_equal.
  - apply no_occurrences. intros fp. apply Permutation_nil. symmetry. etrans; [apply kept_occurrences|]. rewrite known_count by done. specialize (Hcount fp).
    replace (length (occurrences fs fp) - _) with 0 by lia. done.
  - apply Permutation_nil. symmetry. etrans; [apply std_sort_perm|].
    assert (Hno : forall e, ~ e ∈ (entries bytes_cmp (fingerprint_groups fs) ≫= stale_of (by_fingerprint (baseline_of fs))) ++
        filter (fun b => fingerprint_groups fs !! b_fingerprint b = None) (baseline_of fs)).
    { intros e (b & Hb & Hlt & _)%stale_members; [|done|done]. specialize (Hcount (b_fingerprint b)). rewrite baseline_count_in in Hcount by done.
      apply counted_map_entries in Hb as (_ & Hb & _); [|done]. lia. }
    destruct (_ ++ _) as [|e l]; [done|]. exfalso. apply (Hno e). left.
Qed.

(** * The gate *)

Lemma filter_changed_nil `{!PathOps} ranges : filterToChangedLines [] ranges = ([], 0).
Proof. done. Qed.

(** C25. Accepting findings makes the gate pass: once a run has written its baseline, every later
    run with that baseline on the same diagnostics, whatever it fails on and whatever lines
    changed, reports nothing, has no stale entry and exits clean. *)
Theorem accepted_baseline_passes `{!PathOps} `{!StdSort} (xxh3 : bytes -> N) (lineRef_sub : bytes -> bytes) (marker : bytes -> option (nat * bytes))
    (disableMarker : bytes -> option (bool * bytes)) (read : bytes -> option bytes) (toolVersion root : bytes) (enabled : gset bytes) (files : list bytes)
    (tus : list (bytes * TuOutcome)) (diagnostics : list Diagnostic) (json_parse : bytes -> bytes + json) (json_print : json -> bytes) (path : bytes)
    (args : ReportArgs) (run : CheckRun) (v : json) (code : N) :
  let report args := check_report xxh3 lineRef_sub marker disableMarker read toolVersion args root enabled files tus diagnostics in
  report args = (Some run, Some v, code) -> (N.of_nat (length diagnostics) < two32)%N -> json_parse (json_print v) = inr v ->
  exists baseline, readBaselineFile json_parse path (inr (json_print v)) = inr baseline /\
    forall args', ra_absolutePaths args' = ra_absolutePaths args -> ra_verbose args' = ra_verbose args ->
      ra_allowParseFailures args' = ra_allowParseFailures args -> ra_writeBaseline args' = false -> ra_outputWritten args' = true ->
      ra_baseline args' = Some baseline ->
      exists run', report args' = (Some run', None, kCheckExitClean) /\ cr_findings run' = [] /\ cr_staleBaseline run' = [].
Proof.
  intros report Hrun Hlen Hjson. unfold report, check_report in Hrun.
  set (first := suppressed_run _ _ _ _ _ _ args root enabled files tus diagnostics) in *.
  set (writes := ra_writeBaseline args && negb (bool_decide (0 < failedTuCount first) && negb (ra_allowParseFailures args))) in *.
  destruct (writes && negb (ra_baselineWritable args)); [done|]. destruct writes eqn:Ew; [|done]. injection Hrun as _ <- _.
  unfold writes in Ew. apply andb_true_iff in Ew as [_ Hallowed]. apply negb_true_iff in Hallowed.
  assert (Hfs : (N.of_nat (length (cr_findings first)) < two32)%N).
  { unfold first, suppressed_run. pose proof (suppressions_applied marker disableMarker read (buildFindings xxh3 lineRef_sub diagnostics root (ra_absolutePaths args))
      (if ra_verbose args then files else []) root) as Hs. destruct (applyInlineSuppressions _ _ _ _ _ _) as [[kept unused] removed]. cbn [cr_findings].
    destruct Hs as (_ & Hs & _). assert (length (buildFindings xxh3 lineRef_sub diagnostics root (ra_absolutePaths args)) <= length diagnostics); [|lia].
    unfold buildFindings. etrans; [apply sublist_length, std_unique_sublist|]. by rewrite std_sort_perm, length_fmap. }
  exists (baseline_of (cr_findings first)). unfold readBaselineFile. rewrite Hjson, baseline_reads_back by done. split; [done|].
  intros args' Ha Hv Hp Hw Ho Hb. unfold report, check_report.
  assert (suppressed_run xxh3 lineRef_sub marker disableMarker read toolVersion args' root enabled files tus diagnostics = first) as ->
    by (unfold first, suppressed_run; by rewrite Ha, Hv).
  rewrite Hw, Ho. cbn [andb]. unfold baselined_run. rewrite Hb. pose proof (baseline_accepts (cr_findings first) (ra_changedRanges args') Hfs) as Hacc.
  destruct (applyBaseline (cr_findings first) (baseline_of (cr_findings first)) (ra_changedRanges args')) as [[kept stale] removed]. cbn [fst] in Hacc.
  injection Hacc as -> ->. unfold filtered_run. destruct (ra_changedRanges args') as [ranges|]; rewrite ?filter_changed_nil;
    (eexists; split; [apply (f_equal2 pair); [reflexivity|]|by split]); unfold checkExitCode; cbn [cr_findings existsb]; rewrite Hp;
    unfold failedTuCount in Hallowed |- *; cbn [cr_tus]; rewrite andb_comm, Hallowed; by destruct (ra_failOn args').
Qed.

Lemma accepted_baseline_passes_witness :
  let sum s := (foldl (fun h b => h * 257 + Byte.to_N b) 0 s mod 2 ^ 64)%N in
  let diags := [sample_diagnostic (location_text (str "/w/a.cpp") 7 3) (str "f"); sample_diagnostic (location_text (str "/w/b.cpp") 2 1) (str "g")] in
  let report args := @check_report plain_paths stable_std_sort sum id (fun _ => None) (fun _ => None) (fun _ => None) (str "1") args (str "/w") ∅ []
      [(str "/w/a.cpp", MkOutcome Indexed [])] diags in
  let args w b := MkReportArgs false false w true b None true (Some Note) false in
  (report (args false None)).2 = kCheckExitFindings /\
  exists baseline run', (report (args false (Some baseline))) = (Some run', None, kCheckExitClean) /\ cr_findings run' = [] /\ cr_staleBaseline run' = [].
Proof.
  intros sum diags report args. split; [vm_compute; reflexivity|].
  destruct (report (args true None)) as [[[run|] [v|]] code] eqn:E; [|vm_compute in E; discriminate E..].
  destruct (@accepted_baseline_passes plain_paths stable_std_sort sum id (fun _ => None) (fun _ => None) (fun _ => None) (str "1") (str "/w") ∅ []
    [(str "/w/a.cpp", MkOutcome Indexed [])] diags (fun _ => inr v) (fun _ => []) [] (args true None) run v code) as (baseline & _ & Hrun).
  - exact E.
  - reflexivity.
  - reflexivity.
  - destruct (Hrun (args false (Some baseline))) as (run' & Hr & Hf & Hs); [reflexivity..|]. exists baseline, run'. split_and!; [exact Hr|exact Hf|exact Hs].
Defined.

(** A count is narrowed to 32 bits after it is checked: a count of 2 to the 32 is accepted and
    then knows no finding. *)
Example huge_count_is_none :
  parseBaseline (inr (JObj [(str "version", JInt 2); (str "findings", JArr [JObj [(str "fingerprint", JStr (str "f")); (str "count", JInt 4294967296)]])])) =
  inr [MkBaseline (str "f") 0 [] [] []].
Proof. vm_compute. reflexivity. Qed.
