(* ===== verification/WorkerPool.v ===== *)
(** Worker isolation (src/callgraph/WorkerPool.cpp, src/callgraph/Interrupt.cpp): the parent
    hands batches of units to worker processes, consumes the shard of each batch that
    succeeded, and retries, splits or gives up the units of a batch that failed.

    The dispatcher is a concurrent program: [workers] threads that each run one worker at a
    time, the parent that handles results, and the interrupt flag.  [Pool] is its shared
    state with the position of every thread and of the parent, [fire] one atomic step of one
    of them (a critical section, a notification, or code that touches nothing shared), and a
    schedule is the list of steps in the order they happen.  A wait on a condition variable is
    a critical section that goes on when its predicate holds and otherwise puts the thread to
    sleep, where only a notification or a spurious wakeup finds it; the notifications are
    steps of their own, after the mutex is released, as in the source, and [notify_one] wakes
    any one of the sleeping threads.  What the runner does is its [Reply]: the exit
    code and the two files it leaves.  The clock, the process table and the file contents a
    waiting parent sees are the [Poll]s of [runWorkerProcess]. *)

From S2P Require Import Prelude Utf8 StringInterner CallGraph CallGraphMerge ControlFlowIndex ControlFlowMerge Text Results SnapshotMeta Staleness ChannelIndex SnapshotFile SnapshotMerge.

(** * The interrupt registry (Interrupt.cpp) *)

Record Registry := MkRegistry {
  children : gset Z;
  paths : list bytes;
  reg_interrupted : bool
}.

(** [spawnTrackedChild]: [spawn] is the pid the spawn would return. *)
Definition spawnTrackedChild (spawn : Z) (r : Registry) : Z * Registry :=
  if reg_interrupted r then (0%Z, r)
  else (spawn, if (0 <? spawn)%Z then MkRegistry ({[spawn]} ∪ children r) (paths r) (reg_interrupted r) else r).

Definition untrackChild (pid : Z) (r : Registry) : Registry :=
  MkRegistry (children r ∖ {[pid]}) (paths r) (reg_interrupted r).

(** [InterruptCleanup] is made: [r.paths.push_back(path_)]. *)
Definition add_cleanup (path : bytes) (r : Registry) : Registry :=
  MkRegistry (children r) (paths r ++ [path]) (reg_interrupted r).

(** The last entry equal to [path] is erased. *)
Fixpoint erase_first (path : bytes) (l : list bytes) : list bytes :=
  match l with
  | [] => []
  | p :: l' => if decide (p = path) then l' else p :: erase_first path l'
  end.

Definition drop_cleanup (path : bytes) (r : Registry) : Registry :=
  MkRegistry (children r) (rev (erase_first path (rev (paths r)))) (reg_interrupted r).

(** The critical section of [watcherMain]: the children it kills and the paths it then
    removes, in that order. *)
Definition watcher_takes (r : Registry) : gset Z * list bytes * Registry :=
  (children r, rev (paths r), MkRegistry (children r) (paths r) true).

(** * The log of a worker *)

Definition kMarker : bytes := str "WORKER-TU ".

(** The loop over the lines: [fuel] is the number of bytes, and a round takes at least one. *)
Fixpoint last_marker (fuel : nat) (text : bytes) (last : option bytes) : option bytes :=
  match fuel, text with
  | S fuel', _ :: _ =>
      let '(line, rest) := split_char Byte.x0a text in
      last_marker fuel' rest
        (if starts_with line kMarker then Some (rtrim (ltrim_by is_space (drop (length kMarker) line))) else last)
  | _, _ => last
  end.

(** [None] for a file that cannot be read. *)
Definition lastWorkerTuMarker (log : option bytes) : option bytes :=
  text ← log; last_marker (length text) text None.

(** ** MarkerWatch *)

Record MarkerWatch := MkWatch { offset_ : nat; state_ : Z }.

Definition new_watch : MarkerWatch := MkWatch 0 0.

(** [step(c)]: the new [state_] and whether a marker started. *)
Definition watch_step (state : Z) (c : Byte.byte) : Z * bool :=
  if decide (c = Byte.x0a) then (0%Z, false)
  else if (state <? 0)%Z then (state, false)
  else if decide (kMarker !! Z.to_nat state = Some c)
  then if (Z.to_nat (state + 1) =? length kMarker)%nat then ((-1)%Z, true) else ((state + 1)%Z, false)
  else ((-1)%Z, false).

(** [found |= step(buf\[i\])] over what was read. *)
Definition watch_bytes (st : Z * bool) (text : bytes) : Z * bool :=
  foldl (fun st c => let '(state, hit) := watch_step st.1 c in (state, st.2 || hit)) st text.

(** [advanced()], on the file as it is now ([None]: it cannot be read). *)
Definition advanced (log : option bytes) (w : MarkerWatch) : bool * MarkerWatch :=
  match log with
  | None => (false, w)
  | Some text =>
      if (length text <=? offset_ w)%nat then (false, w)
      else let '(state, found) := watch_bytes (state_ w, false) (drop (offset_ w) text) in
           (found, MkWatch (length text) state)
  end.

(** * One worker process *)

Definition kWorkerTimedOut : Z := -124.
Definition kWorkerInterrupted : Z := -130.

Record WorkerLimits := MkLimits { timeoutSeconds : N; memoryLimitMB : N }.

Definition WIFEXITED (status : Z) : bool := (Z.land status 127 =? 0)%Z.
Definition WEXITSTATUS (status : Z) : Z := Z.shiftr (Z.land status 65280) 8.

Definition exitCodeOf (status : Z) : Z := if WIFEXITED status then WEXITSTATUS status else (-2)%Z.

(** What a call of [waitpid] gives: the child still runs, its status, or an error
    ([eintr]: the call was interrupted). *)
Inductive WaitResult := StillRunning | Reaped (status : Z) | WaitFailed (eintr : bool).

(** One round of the loop: [waitpid], the clock and the log. *)
Record Poll := MkPoll { pl_wait : WaitResult; pl_now : Z; pl_log : option bytes }.

(** [while (waitpid(...) < 0 && errno == EINTR)]; [status] is 0 before it.  [None]: the
    child still runs after the calls given. *)
Fixpoint wait_blocking (waits : list WaitResult) : option Z :=
  match waits with
  | [] => None
  | StillRunning :: _ => None
  | Reaped status :: _ => Some (exitCodeOf status)
  | WaitFailed true :: waits' => wait_blocking waits'
  | WaitFailed false :: _ => Some (exitCodeOf 0)
  end.

(** The polling loop.  [None]: the child still runs after the rounds given. *)
Fixpoint wait_polling (window deadline : Z) (progress : MarkerWatch) (polls : list Poll) : option Z :=
  match polls with
  | [] => None
  | p :: polls' =>
      match pl_wait p with
      | Reaped status => Some (exitCodeOf status)
      | WaitFailed false => Some (-1)%Z
      | _ =>
          let '(moved, progress') := advanced (pl_log p) progress in
          if moved then wait_polling window (pl_now p + window) progress' polls'
          else if (deadline <=? pl_now p)%Z then Some kWorkerTimedOut
          else wait_polling window deadline progress' polls'
      end
  end.

(** [runWorkerProcess] for an [argv] that is [named] (not empty): [spawn] is the pid of the
    spawn, [irq] the flag when it is read, [start] the clock in seconds after the spawn, and
    [others] what other threads do to the registry while the child runs. *)
Definition runWorkerProcess (named : bool) (limits : WorkerLimits) (spawn : Z) (others : Registry -> Registry) (reg : Registry)
    (irq : bool) (start : Z) (polls : list Poll) : option (Z * Registry) :=
  if negb named then Some ((-1)%Z, reg)
  else
    let '(pid, reg1) := spawnTrackedChild spawn reg in
    if (pid <=? 0)%Z then Some (if irq then kWorkerInterrupted else (-1)%Z, reg1)
    else
      rc ← (if (timeoutSeconds limits =? 0)%N then wait_blocking (pl_wait <$> polls)
            else let window := Z.of_N (timeoutSeconds limits) in
                 wait_polling window (start + window) new_watch polls);
      Some (if negb (rc =? 0)%Z && negb (rc =? kWorkerTimedOut)%Z && irq then kWorkerInterrupted else rc,
            untrackChild pid (others reg1)).

(** ** The command line of a worker *)

Record BakeWorkerConfig := MkWorkerConfig {
  wc_buildPath : bytes;
  wc_collapsePaths : list bytes;
  wc_extraArgs : list bytes;
  wc_sysroot : bytes;
  wc_lockTypes : list bytes;
  wc_channelTypesJson : bytes;
  wc_orgConfig : bytes;
  wc_fixedCompileArgs : list bytes;
  wc_hasFixedCompileArgs : bool
}.

(** [if (!value.empty()) { push(name); push(value); }] *)
Definition opt_arg (name value : bytes) : list bytes := if no_items value then [] else [name; value].

Definition each_arg (name : bytes) (values : list bytes) : list bytes := values ≫= fun v => [name; v].

Definition worker_argv (selfExe : bytes) (cfg : BakeWorkerConfig) (batch : list bytes) (shardPath : bytes) : list bytes :=
  [selfExe; str "megascope"; str "--bake-worker"; str "--worker-out"; shardPath] ++
  opt_arg (str "--build-path") (wc_buildPath cfg) ++
  [str "--threads"; str "1"] ++
  each_arg (str "--collapse-paths") (wc_collapsePaths cfg) ++
  ((fun a => str "--extra-arg=" ++ a) <$> wc_extraArgs cfg) ++
  opt_arg (str "--sysroot") (wc_sysroot cfg) ++
  each_arg (str "--lock-types") (wc_lockTypes cfg) ++
  opt_arg (str "--channel-types-json") (wc_channelTypesJson cfg) ++
  opt_arg (str "--org-config") (wc_orgConfig cfg) ++
  each_arg (str "--source") batch ++
  (if wc_hasFixedCompileArgs cfg || no_items (wc_buildPath cfg) || negb (no_items (wc_fixedCompileArgs cfg))
   then str "--" :: wc_fixedCompileArgs cfg else []).

(** * The dispatcher *)

Definition kMaxTuRetries : Z := 2.

Abbreviation Batch := (list bytes).

Module Failure.
Inductive WorkerFailure := Crashed | TimedOut.
End Failure.
Import Failure (WorkerFailure).

(** The two paths of a result are those of its sequence number. *)
Record BatchResult := MkResult { br_batch : Batch; br_exitCode : Z; br_seq : N }.

Definition shardPath_of (dir : bytes) (seq : N) : bytes := dir ++ str "/shard-" ++ to_string seq ++ str ".snap".
Definition stderrPath_of (dir : bytes) (seq : N) : bytes := dir ++ str "/worker-" ++ to_string seq ++ str ".stderr".

(** What a call of the runner does: its exit code and the files it leaves ([None]: it does
    not write the file). *)
Record Reply := MkReply { rp_code : Z; rp_shard : option bytes; rp_log : option bytes }.

Abbreviation Disk := (gmap bytes bytes).

Definition leave_file (path : bytes) (content : option bytes) (d : Disk) : Disk :=
  match content with Some text => <[path := text]> d | None => d end.

(** Where a dispatch thread is: about to look for work, asleep on [workCv], holding a batch, in
    the runner, holding a result, about to notify the parent of the result it posted,
    returned. *)
Inductive Thread :=
| Idle
| Sleeping
| Pulled (b : Batch) (seq : N)
| Running (b : Batch) (seq : N)
| Finished (r : BatchResult)
| Posted
| Exited.

(** Where the parent is: at the head of its loop, asleep on [resultCv], woken there, handling
    a result (with the batches still to be queued), about to notify a thread of the batch
    it queued, past the loop, about to notify all threads of the stop, joining, returned, or
    asleep for good in [exitIfInterrupted]. *)
Inductive ParentState :=
| Waiting
| Blocked
| Woken
| Handling (pending : list Batch) (seq : N)
| Notifying (pending : list Batch) (seq : N)
| Broken
| Stopping
| Joining
| Returned
| Asleep.

(** The calls of the two callbacks, in order. *)
Inductive Call := ConsumeShard (tus : Batch) | OnPoison (tu : bytes) (why : WorkerFailure).

Section Dispatch.
(** The state of the caller behind its two callbacks. *)
Context {A : Type}.
Variable consumeShard : option bytes -> Batch -> A -> bool * A.
Variable onPoison : bytes -> WorkerFailure -> A -> A.
Variable shardDir : bytes.

(** What only the parent touches. *)
Record Local := MkLocal { retries : gmap bytes Z; caller : A; calls : list Call }.

Record Pool := MkPool {
  work : list Batch;
  results : list BatchResult;
  stop : bool;
  outstanding : Z;
  shardSeq : N;
  dispatched : list Batch;  (** every batch a thread took, in order *)
  interrupted : bool;
  disk : Disk;
  threads : list Thread;
  parent : ParentState;
  local : Local
}.

Definition poison (tu : bytes) (why : WorkerFailure) (l : Local) : Local :=
  MkLocal (retries l) (onPoison tu why (caller l)) (calls l ++ [OnPoison tu why]).

(** The predicate of [remove_if] on one unit; the units kept so far are the second part. *)
Definition retry_unit (why : WorkerFailure) (st : Local * Batch) (tu : bytes) : Local * Batch :=
  let '(l, kept) := st in
  let n := (default 0 (retries l !! tu) + 1)%Z in
  let l' := MkLocal (<[tu := n]> (retries l)) (caller l) (calls l) in
  if (kMaxTuRetries <? n)%Z then (poison tu why l', kept) else (l', kept ++ [tu]).

(** The batches to queue: none or one. *)
Definition requeue (tus : Batch) (why : WorkerFailure) (l : Local) : Local * list Batch :=
  let '(l', kept) := foldl (retry_unit why) (l, []) tus in
  (l', match kept with [] => [] | _ => [kept] end).

(** Without a marker: one unit is given up, more are split in half. *)
Definition bisect_batch (batch : Batch) (why : WorkerFailure) (l : Local) : Local * list Batch :=
  match batch with
  | [tu] => (poison tu why l, [])
  | _ =>
      let mid := (length batch / 2)%nat in
      let '(l1, q1) := requeue (take mid batch) why l in
      let '(l2, q2) := requeue (drop mid batch) why l1 in
      (l2, q1 ++ q2)
  end.

Definition handleFailure (code : Z) (batch : Batch) (log : option bytes) (l : Local) : Local * list Batch :=
  let why := if (code =? kWorkerTimedOut)%Z then Failure.TimedOut else Failure.Crashed in
  match lastWorkerTuMarker log with
  | Some marker =>
      if decide (marker ∈ batch)
      then requeue (filter (fun tu => tu <> marker) batch) Failure.Crashed (poison marker why l)
      else bisect_batch batch why l
  | None => bisect_batch batch why l
  end.

(** [consumeShard] is called for a result of exit code 0; a shard it refuses is a failure. *)
Definition consume (r : BatchResult) (shard : option bytes) (l : Local) : Z * Local :=
  if (br_exitCode r =? 0)%Z
  then let '(good, a) := consumeShard shard (br_batch r) (caller l) in
       if good then (0%Z, MkLocal (retries l) a (calls l ++ [ConsumeShard (br_batch r)]))
       else ((-1)%Z, MkLocal (retries l) a (calls l))
  else (br_exitCode r, l).

(** The body of the parent's loop, up to queueing the batches it makes. *)
Definition handle_result (r : BatchResult) (d : Disk) (l : Local) : Local * list Batch :=
  let '(code, l1) := consume r (d !! shardPath_of shardDir (br_seq r)) l in
  if negb (code =? 0)%Z && negb (code =? kWorkerInterrupted)%Z
  then handleFailure code (br_batch r) (d !! stderrPath_of shardDir (br_seq r)) l1
  else (l1, []).

(** One step of thread [i], of the parent, or of the watcher.  [ENotifyWork] names the thread
    that [notify_one] wakes, if one sleeps; the last two are spurious wakeups. *)
Inductive Event :=
| EWake (i : nat)
| EBegin (i : nat)
| EEnd (i : nat) (r : Reply)
| EPost (i : nat)
| ENotifyResult (i : nat)
| ETake
| EPush
| ENotifyWork (woken : option nat)
| EClean
| EBreak
| EStop
| ENotifyAll
| EJoin
| EInterrupt
| ESpuriousWork (i : nat)
| ESpuriousResult.

Definition set_thread (i : nat) (t : Thread) (s : Pool) : Pool :=
  MkPool (work s) (results s) (stop s) (outstanding s) (shardSeq s) (dispatched s) (interrupted s) (disk s)
    (<[i := t]> (threads s)) (parent s) (local s).

Definition set_parent (p : ParentState) (s : Pool) : Pool :=
  MkPool (work s) (results s) (stop s) (outstanding s) (shardSeq s) (dispatched s) (interrupted s) (disk s)
    (threads s) p (local s).

(** [workCv.wait(lock, \[&\] { return stop || !work.empty(); })]: the thread takes the first
    batch, returns when there is none and [stop] is set, and otherwise sleeps. *)
Definition wake (i : nat) (s : Pool) : option Pool :=
  match threads s !! i, work s with
  | Some Idle, b :: work' =>
      Some (MkPool work' (results s) (stop s) (outstanding s) (u32 (shardSeq s + 1)) (dispatched s ++ [b]) (interrupted s)
              (disk s) (<[i := Pulled b (shardSeq s)]> (threads s)) (parent s) (local s))
  | Some Idle, [] => Some (set_thread i (if stop s then Exited else Sleeping) s)
  | _, _ => None
  end.

(** [interruptRequested() ? kWorkerInterrupted : runner(...)] *)
Definition begin_batch (i : nat) (s : Pool) : option Pool :=
  match threads s !! i with
  | Some (Pulled b q) =>
      Some (set_thread i (if interrupted s then Finished (MkResult b kWorkerInterrupted q) else Running b q) s)
  | _ => None
  end.

(** The runner returns. *)
Definition end_batch (i : nat) (rp : Reply) (s : Pool) : option Pool :=
  match threads s !! i with
  | Some (Running b q) =>
      Some (MkPool (work s) (results s) (stop s) (outstanding s) (shardSeq s) (dispatched s) (interrupted s)
              (leave_file (stderrPath_of shardDir q) (rp_log rp) (leave_file (shardPath_of shardDir q) (rp_shard rp) (disk s)))
              (<[i := Finished (MkResult b (rp_code rp) q)]> (threads s)) (parent s) (local s))
  | _ => None
  end.

(** [results.push_back(std::move(res))] *)
Definition post (i : nat) (s : Pool) : option Pool :=
  match threads s !! i with
  | Some (Finished r) =>
      Some (MkPool (work s) (results s ++ [r]) (stop s) (outstanding s) (shardSeq s) (dispatched s) (interrupted s) (disk s)
              (<[i := Posted]> (threads s)) (parent s) (local s))
  | _ => None
  end.

(** [resultCv.notify_one()]: only the parent waits there. *)
Definition notify_result (i : nat) (s : Pool) : option Pool :=
  match threads s !! i with
  | Some Posted => Some (set_parent (match parent s with Blocked => Woken | p => p end) (set_thread i Idle s))
  | _ => None
  end.

(** The parent is at its wait: it found [outstanding] not zero, or was woken. *)
Definition at_wait (s : Pool) : bool := match parent s with Waiting => negb (outstanding s =? 0)%Z | Woken => true | _ => false end.

(** [resultCv.wait(lock, \[&\] { return !results.empty(); })]: the parent sleeps, or takes a
    result and handles it. *)
Definition take_result (s : Pool) : option Pool :=
  if at_wait s
  then match results s with
       | [] => Some (set_parent Blocked s)
       | r :: results' =>
           let '(l, pending) := handle_result r (disk s) (local s) in
           Some (MkPool (work s) results' (stop s) (outstanding s - 1) (shardSeq s) (dispatched s) (interrupted s) (disk s)
                   (threads s) (Handling pending (br_seq r)) l)
       end
  else None.

(** The critical section of [requeue]. *)
Definition push_batch (s : Pool) : option Pool :=
  match parent s with
  | Handling (b :: pending) q =>
      Some (MkPool (work s ++ [b]) (results s) (stop s) (outstanding s + 1) (shardSeq s) (dispatched s) (interrupted s)
              (disk s) (threads s) (Notifying pending q) (local s))
  | _ => None
  end.

Definition is_sleeping (t : Thread) : bool := match t with Sleeping => true | _ => false end.

(** A thread that sleeps on [workCv] wakes up. *)
Definition rouse (i : nat) (s : Pool) : option Pool :=
  match threads s !! i with Some Sleeping => Some (set_thread i Idle s) | _ => None end.

(** [workCv.notify_one()]: one of the threads that sleep wakes up, if there is one. *)
Definition notify_work (woken : option nat) (s : Pool) : option Pool :=
  match parent s with
  | Notifying pending q =>
      match woken with
      | Some i => rouse i (set_parent (Handling pending q) s)
      | None => if existsb is_sleeping (threads s) then None else Some (set_parent (Handling pending q) s)
      end
  | _ => None
  end.

(** [workCv.notify_all()] *)
Definition notify_all (s : Pool) : option Pool :=
  match parent s with
  | Stopping =>
      Some (MkPool (work s) (results s) (stop s) (outstanding s) (shardSeq s) (dispatched s) (interrupted s) (disk s)
              ((fun t => if is_sleeping t then Idle else t) <$> threads s) Joining (local s))
  | _ => None
  end.

(** The files of the result are removed. *)
Definition clean_files (s : Pool) : option Pool :=
  match parent s with
  | Handling [] q =>
      Some (MkPool (work s) (results s) (stop s) (outstanding s) (shardSeq s) (dispatched s) (interrupted s)
              (delete (stderrPath_of shardDir q) (delete (shardPath_of shardDir q) (disk s))) (threads s) Waiting (local s))
  | _ => None
  end.

Definition is_exited (t : Thread) : bool := match t with Exited => true | _ => false end.

Definition fire (e : Event) (s : Pool) : option Pool :=
  match e with
  | EWake i => wake i s
  | EBegin i => begin_batch i s
  | EEnd i rp => end_batch i rp s
  | EPost i => post i s
  | ENotifyResult i => notify_result i s
  | ETake => take_result s
  | EPush => push_batch s
  | ENotifyWork woken => notify_work woken s
  | EClean => clean_files s
  | EBreak => match parent s with Waiting => if (outstanding s =? 0)%Z then Some (set_parent Broken s) else None | _ => None end
  | EStop =>
      match parent s with
      | Broken => Some (MkPool (work s) (results s) true (outstanding s) (shardSeq s) (dispatched s) (interrupted s) (disk s)
                          (threads s) Stopping (local s))
      | _ => None
      end
  | ENotifyAll => notify_all s
  | EJoin =>
      match parent s with
      | Joining => if forallb is_exited (threads s) then Some (set_parent (if interrupted s then Asleep else Returned) s) else None
      | _ => None
      end
  | EInterrupt =>
      if interrupted s then None
      else Some (MkPool (work s) (results s) (stop s) (outstanding s) (shardSeq s) (dispatched s) true (disk s)
                   (threads s) (parent s) (local s))
  | ESpuriousWork i => rouse i s
  | ESpuriousResult => match parent s with Blocked => Some (set_parent Woken s) | _ => None end
  end.

(** Condition variables may wake up a thread for no reason. *)
Definition spurious (e : Event) : bool := match e with ESpuriousWork _ | ESpuriousResult => true | _ => false end.

(** A step that a thread or the parent takes by itself: not a spurious wakeup and not the
    interrupt. *)
Definition own_step (e : Event) : bool := match e with EInterrupt => false | _ => negb (spurious e) end.

(** ** The start *)

Definition effective_workers (files : Batch) (workers : N) : N :=
  let workers := if (workers =? 0)%N then 1%N else workers in
  if (N.of_nat (length files) <? workers)%N then N.max 1 (u32 (N.of_nat (length files))) else workers.

Definition batch_size (files : Batch) (workers batchSizeOverride : N) : N :=
  if (batchSizeOverride =? 0)%N then N.min 32 (N.max 1 (N.of_nat (length files) / (workers * 4))) else batchSizeOverride.

(** [for (size_t i = 0; i < files.size(); i += batchSize)]; a round takes at least one. *)
Fixpoint split_batches (fuel : nat) (size : nat) (files : Batch) : list Batch :=
  match fuel, files with
  | S fuel', _ :: _ => take size files :: split_batches fuel' size (drop size files)
  | _, _ => []
  end.

Definition initial_batches (files : Batch) (workers batchSizeOverride : N) : list Batch :=
  split_batches (length files) (N.to_nat (batch_size files (effective_workers files workers) batchSizeOverride)) files.

(** [dispatchIsolated] when its threads are made; without files it returns at once. *)
Definition dispatchIsolated (files : Batch) (workers batchSizeOverride : N) (irq : bool) (d : Disk) (a : A) : Pool :=
  let batches := initial_batches files workers batchSizeOverride in
  MkPool batches [] false (Z.of_nat (length batches)) 0 [] irq d
    (if no_items files then [] else replicate (N.to_nat (effective_workers files workers)) Idle)
    (if no_items files then Returned else Waiting) (MkLocal ∅ a []).

(** ** Runs *)

(** What the runner may do with a batch. *)
Variable Runner : Batch -> Reply -> Prop.

(** The runner reports an interrupt only after one. *)
Definition allowed (s : Pool) (e : Event) : Prop :=
  match e with
  | EEnd i rp =>
      (rp_code rp = kWorkerInterrupted -> interrupted s = true) /\
      (forall b q, threads s !! i = Some (Running b q) -> Runner b rp)
  | _ => True
  end.

Definition pool_step (s s' : Pool) : Prop := exists e, allowed s e /\ fire e s = Some s'.

(** The steps of a schedule, in order. *)
Inductive schedule : list Event -> Pool -> Pool -> Prop :=
| sched_nil s : schedule [] s s
| sched_step e es s s' s'' : allowed s e -> fire e s = Some s' -> schedule es s' s'' -> schedule (e :: es) s s''.

End Dispatch.

Arguments Local : clear implicits.
Arguments Pool : clear implicits.

(** * The isolated bake *)

Record BakedIndexes := MkBaked {
  bk_graph : CallGraph;
  bk_cfIndex : ControlFlowIndex;
  bk_channels : ChannelIndex;
  bk_deps : TuDependencies;
  bk_outcomes : TuOutcomes
}.

Definition no_baked : BakedIndexes := MkBaked empty_graph empty_index empty_channels ∅ ∅.

(** The file and the status of a [TuStat]; times are left out. *)
Record TuStat := MkTuStat { ts_file : bytes; ts_toolStatus : Z }.

(** The locals of [bakeIsolatedWithRunner]; without statistics [bs_stats] is [None]. *)
Record BakeState := MkBake {
  bs_out : BakedIndexes;
  bs_poisonedCount : N;
  bs_firstShard : bool;
  bs_stats : option (list TuStat)
}.

Definition bake_start (withStats : bool) : BakeState := MkBake no_baked 0 true (if withStats then Some [] else None).

Section Bake.
Context `{UI : !UnorderedIter, TI : !TextIter}.
(** [SnapshotIO::load(shardPath)] on the file that is there: mutable, every section. *)
Variable load_shard : option bytes -> option SnapshotData.

Definition absorb_shard (snap : SnapshotData) (first : bool) (out : BakedIndexes) : BakedIndexes :=
  let cfIndex := contexts_of (sd_cfIndex snap) in
  let deps := dependenciesOf (sd_meta snap) ∪ bk_deps out in
  let outcomes := outcomesOf (sd_meta snap) ∪ bk_outcomes out in
  if first then MkBaked (sd_graph snap) cfIndex (sd_channels snap) deps outcomes
  else MkBaked (absorb false (sd_graph snap) (bk_graph out)) (cf_absorb cfIndex (bk_cfIndex out))
         (ch_absorb false (sd_channels snap) (bk_channels out)) deps outcomes.

(** The [consumeShard] of the bake. *)
Definition bake_consume (shard : option bytes) (batchTus : Batch) (st : BakeState) : bool * BakeState :=
  match load_shard shard with
  | None => (false, st)
  | Some snap =>
      (true, MkBake (absorb_shard snap (bs_firstShard st) (bs_out st)) (bs_poisonedCount st) false
               ((fun l => l ++ ((fun tu => MkTuStat tu 0) <$> batchTus)) <$> bs_stats st))
  end.

Definition poison_outcome (why : WorkerFailure) : TuOutcome :=
  match why with
  | Failure.TimedOut => MkOutcome TimedOut (str "worker timed out")
  | Failure.Crashed => MkOutcome SnapshotMeta.Poisoned (str "worker crashed")
  end.

(** The [onPoison] of the bake. *)
Definition bake_poison (tu : bytes) (why : WorkerFailure) (st : BakeState) : BakeState :=
  let out := bs_out st in
  MkBake (MkBaked (bk_graph out) (bk_cfIndex out) (bk_channels out) (bk_deps out) (<[tu := poison_outcome why]> (bk_outcomes out)))
    (u32 (bs_poisonedCount st + 1)) (bs_firstShard st) ((fun l => l ++ [MkTuStat tu (-1)]) <$> bs_stats st).

(** [bakeIsolatedWithRunner] when its dispatcher starts. *)
Definition bakeIsolatedWithRunner (files : Batch) (workers batchSizeOverride : N) (withStats irq : bool) (d : Disk) : Pool BakeState :=
  dispatchIsolated files workers batchSizeOverride irq d (bake_start withStats).

(** [bakeIsolated] when the shard directory cannot be made. *)
Definition bake_aborted (files : Batch) : BakedIndexes :=
  MkBaked empty_graph empty_index empty_channels ∅
    (foldl (fun m f => <[f := MkOutcome Skipped (str "isolated bake aborted: no shard directory")]> m) ∅ files).
End Bake.

(** * Markers *)

(** How many lines start a marker; [bol]: the text starts at the beginning of a line. *)
Fixpoint markers (bol : bool) (text : bytes) : nat :=
  match text with
  | [] => 0
  | c :: text' => (if bol && starts_with text kMarker then 1 else 0) + markers (bool_decide (c = Byte.x0a)) text'
  end.

(** How many markers the watch sees in a text. *)
Fixpoint hits (state : Z) (text : bytes) : nat :=
  match text with
  | [] => 0
  | c :: text' => let '(state', hit) := watch_step state c in (if hit then 1 else 0) + hits state' text'
  end.

Lemma watch_bytes_hits st text : (watch_bytes st text).2 = st.2 || (0 <? hits st.1 text)%nat.
Proof.
  revert st. induction text as [|c text IH]; intros [state found]; cbn; [by rewrite orb_false_r|].
  destruct (watch_step state c) as [state' hit]. unfold watch_bytes in IH. rewrite IH. cbn. rewrite <- orb_assoc. f_equal.
  by destruct hit.
Qed.

Lemma watch_bytes_app st a b : watch_bytes st (a ++ b) = watch_bytes (watch_bytes st a) b.
Proof. apply foldl_app. Qed.

(** The state does not depend on what was found. *)
Lemma watch_bytes_state st found text : (watch_bytes (st, found) text).1 = (watch_bytes (st, false) text).1.
Proof.
  revert st found. induction text as [|c text IH]; intros st found; [done|]. cbn. destruct (watch_step st c) as [st' hit]. cbn.
  unfold watch_bytes in IH. by rewrite (IH _ (found || hit)), (IH _ hit).
Qed.

Lemma watch_bytes_cons state found c text :
  watch_bytes (state, found) (c :: text) = watch_bytes ((watch_step state c).1, found || (watch_step state c).2) text.
Proof. unfold watch_bytes. cbn. by destruct (watch_step state c). Qed.

Lemma hits_app state a b : hits state (a ++ b) = hits state a + hits (watch_bytes (state, false) a).1 b.
Proof.
  revert state. induction a as [|c a IH]; intros state; [done|]. rewrite watch_bytes_cons, watch_bytes_state. cbn [hits app].
  destruct (watch_step state c) as [state' hit]. cbn [fst]. rewrite IH. lia.
Qed.

Lemma starts_cons c s d p : starts_with (c :: s) (d :: p) = bool_decide (c = d) && starts_with s p.
Proof.
  unfold starts_with. destruct (decide (c = d)) as [->|Hne].
  - rewrite (bool_decide_eq_true_2 (d = d)) by done. apply bool_decide_ext. split; [apply prefix_cons_inv_2|apply prefix_cons].
  - rewrite (bool_decide_eq_false_2 (c = d)) by done. apply bool_decide_eq_false. intros H. by apply prefix_cons_inv_1 in H.
Qed.

Lemma marker_line c k : kMarker !! k = Some c -> c <> Byte.x0a.
Proof.
  intros H%list_elem_of_lookup_2 ->. revert H. by_computation.
Qed.

Lemma marker_suffix k c : kMarker !! k = Some c -> drop k kMarker = c :: drop (S k) kMarker.
Proof. apply drop_S. Qed.

(** In state [k] the watch has seen [k] bytes of a marker at the start of its line. *)
Lemma hits_state k text : k < length kMarker ->
  hits (Z.of_nat k) text = (if starts_with text (drop k kMarker) then 1 else 0) + markers false text /\
  hits (-1) text = markers false text.
Proof.
  revert k. induction text as [|c text IH]; intros k Hk.
  { split; [|done]. destruct (kMarker !! k) as [d|] eqn:E; [|apply lookup_ge_None in E; lia]. rewrite (marker_suffix _ _ E). done. }
  assert (Hnl : c = Byte.x0a -> hits 0 text = markers true text).
  { intros _. destruct (IH 0 ltac:(vm_compute; lia)) as [H0 _]. change (Z.of_nat 0) with 0%Z in H0. rewrite H0. rewrite drop_0. by destruct text. }
  destruct (kMarker !! k) as [d|] eqn:E; [|apply lookup_ge_None in E; lia]. rewrite (marker_suffix _ _ E), starts_cons.
  cbn [hits markers]. rewrite andb_false_l. unfold watch_step. destruct (decide (c = Byte.x0a)) as [Hc|Hc].
  - rewrite (bool_decide_eq_true_2 _ Hc), (bool_decide_eq_false_2 (c = d)) by (intros ->; by apply marker_line in E). cbn. split; by apply Hnl.
  - rewrite (bool_decide_eq_false_2 _ Hc). destruct (IH 0 ltac:(vm_compute; lia)) as [_ Hm]. split; [|by cbn; rewrite Hm].
    rewrite (proj2 (Z.ltb_ge _ _)) by lia. rewrite Nat2Z.id, E. destruct (decide (Some d = Some c)) as [[= ->]|Hne].
    + rewrite bool_decide_eq_true_2 by done. replace (Z.to_nat (Z.of_nat k + 1)) with (S k) by lia. cbn [andb].
      destruct (Nat.eqb_spec (S k) (length kMarker)) as [El|El].
      * rewrite Hm, El, drop_all. by destruct text.
      * replace (Z.of_nat k + 1)%Z with (Z.of_nat (S k)) by lia. cbn. apply IH. lia.
    + rewrite bool_decide_eq_false_2 by congruence. cbn. by rewrite Hm.
Qed.

Lemma hits_markers text : hits 0 text = markers true text.
Proof.
  destruct (hits_state 0 text) as [H _]; [vm_compute; lia|]. change (Z.of_nat 0) with 0%Z in H. rewrite H, drop_0. by destruct text.
Qed.

(** The watch has read exactly this text. *)
Definition has_read (text : bytes) (w : MarkerWatch) : Prop :=
  offset_ w = length text /\ state_ w = (watch_bytes (0%Z, false) text).1.

Lemma new_watch_read : has_read [] new_watch.
Proof. done. Qed.

Lemma split_first_line c s : let '(line, rest) := split_char c s in (c ∉ line) /\ (s = line ++ c :: rest \/ (s = line /\ rest = [])).
Proof.
  induction s as [|b s IH]; cbn; [split; [set_solver|by right]|]. case_decide as E; [subst; split; [set_solver|by left]|].
  destruct (split_char c s) as [line rest]. destruct IH as [Hn [-> |[-> ->]]]; (split; [set_solver|]); [by left|by right].
Qed.

Lemma starts_line p l rest : Byte.x0a ∉ p -> starts_with (l ++ Byte.x0a :: rest) p = starts_with l p.
Proof.
  revert l. induction p as [|d p IH]; intros [|c l] Hp; cbn [app].
  - by rewrite !(proj2 (starts_with_spec _ _)) by by eexists.
  - by rewrite !(proj2 (starts_with_spec _ _)) by by eexists.
  - rewrite starts_cons, bool_decide_eq_false_2 by set_solver. done.
  - rewrite !starts_cons, IH by set_solver. done.
Qed.

Lemma starts_nil p : p <> [] -> starts_with [] p = false.
Proof. intros Hp. apply not_true_iff_false. intros [b E]%starts_with_spec. by destruct p. Qed.

Lemma marker_no_newline : Byte.x0a ∉ kMarker.
Proof. by_computation. Qed.

Lemma markers_line b line rest : Byte.x0a ∉ line ->
  markers b (line ++ Byte.x0a :: rest) = (if b && starts_with line kMarker then 1 else 0) + markers true rest.
Proof.
  revert b. induction line as [|c line IH]; intros b Hn; cbn [app markers].
  - pose proof (starts_line kMarker [] rest marker_no_newline) as E. cbn [app] in E. by rewrite E, bool_decide_eq_true_2.
  - rewrite IH by set_solver. pose proof (starts_line kMarker (c :: line) rest marker_no_newline) as E. cbn [app] in E. rewrite E, bool_decide_eq_false_2 by set_solver. done.
Qed.

Lemma markers_last_line b line : Byte.x0a ∉ line -> markers b line = if b && starts_with line kMarker then 1 else 0.
Proof.
  revert b. induction line as [|c line IH]; intros b Hn; cbn [markers]; [by destruct b|].
  rewrite IH by set_solver. rewrite bool_decide_eq_false_2 by set_solver. cbn. lia.
Qed.

Lemma split_line_shorter c b s : length (split_char c (b :: s)).2 <= length s.
Proof. cbn. case_decide; [done|]. pose proof (split_char_shorter c s). by destruct (split_char c s). Qed.

(** More fuel changes nothing. *)
Lemma last_marker_fuel fuel text last : length text <= fuel -> last_marker fuel text last = last_marker (length text) text last.
Proof.
  revert text last. induction (lt_wf fuel) as [fuel _ IH]. intros [|b text] last Hl; [by destruct fuel|]. destruct fuel as [|fuel]; [simpl in Hl; lia|].
  cbn [length last_marker]. pose proof (split_line_shorter Byte.x0a b text) as Hs. destruct (split_char Byte.x0a (b :: text)) as [line rest]. simpl in Hl, Hs.
  rewrite (IH fuel) by lia. by rewrite (IH (length text)) by lia.
Qed.

(** One line at a time. *)
Lemma last_marker_line line rest last : Byte.x0a ∉ line ->
  last_marker (length (line ++ Byte.x0a :: rest)) (line ++ Byte.x0a :: rest) last =
  last_marker (length rest) rest (if starts_with line kMarker then Some (rtrim (ltrim_by is_space (drop (length kMarker) line))) else last).
Proof.
  intros Hn. pose proof (split_char_app Byte.x0a line rest Hn) as Hs. rewrite length_app. cbn [length]. rewrite Nat.add_succ_r.
  destruct (line ++ Byte.x0a :: rest) as [|b text] eqn:E; [by destruct line|]. cbn [last_marker]. rewrite Hs. rewrite last_marker_fuel; [done|lia].
Qed.

Lemma last_marker_end line last : Byte.x0a ∉ line ->
  last_marker (length line) line last = if starts_with line kMarker then Some (rtrim (ltrim_by is_space (drop (length kMarker) line))) else last.
Proof.
  intros Hn. destruct line as [|b line]; [by rewrite starts_nil|]. cbn [length last_marker]. rewrite split_char_none by done. by destruct (length line).
Qed.

Lemma last_marker_found text last :
  (markers true text = 0 -> last_marker (length text) text last = last) /\ (0 < markers true text -> is_Some (last_marker (length text) text last)).
Proof.
  assert (H : forall n text last, length text <= n ->
    (markers true text = 0 -> last_marker (length text) text last = last) /\ (0 < markers true text \/ is_Some last -> is_Some (last_marker (length text) text last))).
  { induction n as [|n IH]; intros t l Hl; [destruct t; simpl in Hl; [cbn; split; [done|by intros [|]; [lia|]]|lia]|].
    pose proof (split_first_line Byte.x0a t) as Hs. destruct (split_char Byte.x0a t) as [line rest]. destruct Hs as [Hn [->|[-> ->]]].
    - rewrite markers_line, last_marker_line by done. rewrite length_app in Hl. simpl in Hl. cbn [andb].
      destruct (starts_with line kMarker); cbn [Nat.add].
      + split; [lia|]. intros _. apply IH; [lia|]. right. by eexists.
      + apply IH. lia.
    - rewrite markers_last_line, last_marker_end by done. cbn [andb]. destruct (starts_with line kMarker); [|by split; [|intros [|]; [lia|]]].
      split; [lia|]. intros _. by eexists. }
  destruct (H (length text) text last) as [H1 H2]; [done|]. split; [done|]. auto.
Qed.

(** The watch and the last marker agree with the lines of the log. *)
Lemma watch_agrees text more w :
  has_read text w ->
  let '(moved, w') := advanced (Some (text ++ more)) w in
  (moved = true <-> markers true text < markers true (text ++ more)) /\ has_read (text ++ more) w' /\
  (is_Some (lastWorkerTuMarker (Some (text ++ more))) <-> 0 < markers true (text ++ more)).
Proof.
  intros [Ho Hs]. assert (Hlast : is_Some (lastWorkerTuMarker (Some (text ++ more))) <-> 0 < markers true (text ++ more)).
  { cbn. destruct (last_marker_found (text ++ more) None) as [H1 H2]. split; [|done]. intros [x Hx].
    destruct (markers true (text ++ more)); [|lia]. rewrite H1 in Hx; done. }
  unfold advanced. rewrite Ho, length_app. destruct (Nat.leb_spec (length text + length more) (length text)) as [Hle|Hlt].
  - assert (more = []) as -> by (apply nil_length_inv; lia). rewrite app_nil_r in *. split_and!; [split; [done|lia]| |done]. done.
  - rewrite drop_app_length. pose proof (watch_bytes_hits (state_ w, false) more) as Hh. pose proof (watch_bytes_state (state_ w) false more) as Hst.
    assert (Hm : markers true (text ++ more) = markers true text + hits (state_ w) more) by (rewrite <- !hits_markers, hits_app, Hs; done).
    destruct (watch_bytes (state_ w, false) more) as [st' found] eqn:Ew. cbn [fst snd orb] in Hh. subst found. split_and!; [|split|done].
    + rewrite Hm. destruct (Nat.ltb_spec 0 (hits (state_ w) more)); (split; [intros; first [lia|done]|intros; first [done|lia]]).
    + by rewrite length_app.
    + cbn. rewrite watch_bytes_app. destruct (watch_bytes (0%Z, false) text) as [st0 f0] eqn:E0. cbn in Hs. rewrite watch_bytes_state, <- Hs, Ew. done.
Qed.

(** C23. The parent's two readings of a worker's log agree with the lines of the log: the
    incremental watch, fed a log as it grows, reports progress exactly when a marker was
    completed since it last looked, however the log was cut in between; and a last marker is
    found exactly when some line starts one. *)
Theorem progress_is_a_marker text more w :
  has_read text w ->
  let '(moved, w') := advanced (Some (text ++ more)) w in
  (moved = true <-> markers true text < markers true (text ++ more)) /\ has_read (text ++ more) w' /\
  (is_Some (lastWorkerTuMarker (Some (text ++ more))) <-> 0 < markers true (text ++ more)).
Proof. exact (watch_agrees text more w). Qed.

(** The worker starts a unit with a marker line; what it prints while it parses the unit
    starts no other.  Then the last marker is the unit, for a path that is one line without
    blanks at its ends. *)
Lemma marker_names_unit before tu output : before = [] \/ (exists t, before = t ++ [Byte.x0a]) -> Byte.x0a ∉ tu ->
  rtrim (ltrim_by is_space tu) = tu -> markers true output = 0 ->
  lastWorkerTuMarker (Some (before ++ kMarker ++ tu ++ Byte.x0a :: output)) = Some tu.
Proof.
  intros Hb Hn Ht Ho. cbn. set (rest := kMarker ++ tu ++ Byte.x0a :: output).
  assert (Hrest : forall last, last_marker (length rest) rest last = Some tu).
  { intros last. unfold rest. rewrite (assoc_L (++)), last_marker_line by (pose proof marker_no_newline; set_solver).
    rewrite (proj2 (starts_with_spec _ _)) by by eexists. rewrite drop_app_length, Ht. by apply last_marker_found. }
  assert (Hall : forall n t last, length t <= n -> last_marker (length ((t ++ [Byte.x0a]) ++ rest)) ((t ++ [Byte.x0a]) ++ rest) last = Some tu).
  { induction n as [|n IH]; intros t last Hl; rewrite <- (assoc_L (++)); cbn [app].
    - destruct t; [|simpl in Hl; lia]. rewrite (last_marker_line []) by set_solver. apply Hrest.
    - pose proof (split_first_line Byte.x0a t) as Hs. destruct (split_char Byte.x0a t) as [line r]. destruct Hs as [Hnl [->|[-> ->]]].
      + rewrite <- (assoc_L (++)). cbn [app]. rewrite last_marker_line by done. rewrite length_app in Hl. simpl in Hl.
        change (r ++ Byte.x0a :: rest) with (r ++ [Byte.x0a] ++ rest). rewrite (assoc_L (++)). apply IH. lia.
      + rewrite last_marker_line by done. apply Hrest. }
  destruct Hb as [->|[t ->]]; [apply Hrest|]. by eapply Hall.
Qed.

(** A log read in two pieces that cut a marker: the first piece is no progress, the second
    is. *)
Lemma progress_is_a_marker_witness :
  has_read (str "WORK") (MkWatch 4 4) /\ (advanced (Some (str "WORK" ++ str "ER-TU /a.cpp")) (MkWatch 4 4)).1 = true.
Proof.
  assert (H : has_read (str "WORK") (MkWatch 4 4)) by (split; vm_compute; reflexivity). split; [exact H|].
  refine (proj2 (proj1 (progress_is_a_marker (str "WORK") (str "ER-TU /a.cpp") (MkWatch 4 4) H)) _). vm_compute. lia.
Defined.

(** * Processes *)

Lemma exitCodeOf_range status : (0 <= exitCodeOf status <= 255)%Z \/ exitCodeOf status = (-2)%Z.
Proof.
  unfold exitCodeOf, WEXITSTATUS. destruct (WIFEXITED status); [left|by right].
  assert (0 <= Z.land status 65280 <= 65280)%Z.
  { split; [apply Z.land_nonneg; lia|]. assert (Hb : (Z.land (Z.land status 65280) (Z.lnot 65280) = 0)%Z).
    { rewrite <- Z.land_assoc, Z.land_lnot_diag. apply Z.land_0_r. }
    apply Z.ldiff_le; [lia|]. exact Hb. }
  rewrite Z.shiftr_div_pow2 by lia. change (2 ^ 8)%Z with 256%Z. divlia.
Qed.

Lemma blocking_code waits : wait_blocking waits <> Some kWorkerInterrupted.
Proof.
  induction waits as [|[|st|[]] l IH]; cbn; try done. intros [= E]. destruct (exitCodeOf_range st) as [|E']; unfold kWorkerInterrupted in *; lia.
Qed.

Lemma polling_code window deadline w polls : wait_polling window deadline w polls <> Some kWorkerInterrupted.
Proof.
  revert w deadline. induction polls as [|[[|st|[]] now log] l IH]; intros w deadline; cbn; try done.
  - destruct (advanced log w) as [[] w']; [apply IH|]. destruct (_ <=? _)%Z; [done|apply IH].
  - intros [= E]. destruct (exitCodeOf_range st) as [|E']; unfold kWorkerInterrupted in *; lia.
  - destruct (advanced log w) as [[] w']; [apply IH|]. destruct (_ <=? _)%Z; [done|apply IH].
Qed.

(** The runner of the bake reports an interrupt only once one was requested. *)
Lemma interrupt_code_is_true named limits spawn others reg irq start polls reg' :
  runWorkerProcess named limits spawn others reg irq start polls = Some (kWorkerInterrupted, reg') -> irq = true.
Proof.
  unfold runWorkerProcess. destruct named; [|done]. cbn [negb]. destruct (spawnTrackedChild spawn reg) as [pid reg1].
  destruct (_ <=? 0)%Z; [by destruct irq|]. intros (rc & Hrc & H)%bind_Some. destruct irq; [done|]. rewrite andb_false_r in H. injection H as -> _.
  destruct (_ =? 0)%N; [by apply blocking_code in Hrc|by apply polling_code in Hrc].
Qed.

(** A child is tracked as long as it runs: with nothing else going on, the registry is left
    as it was found. *)
Lemma run_leaves_registry named limits spawn reg irq start polls code reg' : spawn ∉ children reg ->
  runWorkerProcess named limits spawn id reg irq start polls = Some (code, reg') -> reg' = reg.
Proof.
  intros Hs. unfold runWorkerProcess, spawnTrackedChild. destruct named; cbn [negb]; [|by intros [= _ <-]].
  destruct (reg_interrupted reg) eqn:Ei; [by intros [= _ <-]|]. destruct (Z.ltb_spec 0 spawn) as [Hp|Hp].
  - rewrite (proj2 (Z.leb_gt _ _)) by lia. intros (rc & _ & [= _ <-])%bind_Some. destruct reg as [c ps i]. cbn in *. unfold untrackChild. cbn. rewrite Ei. f_equal. set_solver.
  - rewrite (proj2 (Z.leb_le _ _)) by lia. by intros [= _ <-].
Qed.

(** A log that only grows. *)
Fixpoint growing (text : bytes) (polls : list Poll) : Prop :=
  match polls with [] => True | p :: polls' => exists more, pl_log p = Some (text ++ more) /\ growing (text ++ more) polls' end.

(** When, and with which log, a unit was last seen to start. *)
Definition last_progress (st : Z * bytes) (p : Poll) : Z * bytes :=
  match pl_log p with
  | Some text => if (markers true st.2 <? markers true text)%nat then (pl_now p, text) else st
  | None => st
  end.

(** A worker is killed only when it started no unit for the whole window. *)
Lemma timeout_needs_silence window since seen text w polls :
  has_read text w -> markers true text = markers true seen -> growing text polls ->
  wait_polling window (since + window) w polls = Some kWorkerTimedOut ->
  exists pre p post final, polls = pre ++ p :: post /\ pl_log p = Some final /\
    ((foldl last_progress (since, seen) pre).1 + window <= pl_now p)%Z /\
    markers true final = markers true (foldl last_progress (since, seen) pre).2.
Proof.
  revert since seen text w. induction polls as [|p polls IH]; intros since seen text w Hr Hm Hg H; [done|]. cbn in H.
  destruct Hg as (more & El & Hg). pose proof (watch_agrees text more w Hr) as Hp. rewrite El in H.
  destruct (advanced (Some (text ++ more)) w) as [moved w']. destruct Hp as (Hmoved & Hr' & _).
  assert (Hle : markers true text <= markers true (text ++ more)) by (rewrite <- !hits_markers, hits_app; lia).
  assert (Hstep : (if moved then wait_polling window (pl_now p + window) w' polls
    else if (since + window <=? pl_now p)%Z then Some kWorkerTimedOut else wait_polling window (since + window) w' polls) = Some kWorkerTimedOut).
  { destruct (pl_wait p) as [|st|[]]; try done. injection H as E. destruct (exitCodeOf_range st) as [|E']; unfold kWorkerTimedOut in *; lia. }
  clear H. destruct moved.
  - assert (Hl : markers true seen < markers true (text ++ more)) by (rewrite <- Hm; by apply Hmoved).
    destruct (IH _ (text ++ more) _ _ Hr' eq_refl Hg Hstep) as (pre & p' & post & final & -> & Ef & Hw & Hf).
    exists (p :: pre), p', post, final. cbn [foldl]. unfold last_progress at 2 4. rewrite El. cbn [snd]. rewrite (proj2 (Nat.ltb_lt _ _) Hl). done.
  - assert (Hsame : markers true (text ++ more) = markers true seen).
    { destruct (decide (markers true text < markers true (text ++ more))) as [Hx|]; [by apply Hmoved in Hx|lia]. }
    destruct (Z.leb_spec (since + window) (pl_now p)) as [Hz|Hz].
    + exists [], p, polls, (text ++ more). done.
    + destruct (IH _ seen _ _ Hr' Hsame Hg Hstep) as (pre & p' & post & final & -> & Ef & Hw & Hf).
      exists (p :: pre), p', post, final. cbn [foldl]. unfold last_progress at 2 4. rewrite El. cbn [snd]. rewrite (proj2 (Nat.ltb_ge _ _)) by lia. done.
Qed.

(** A child whose status is lost: without a timeout the worker passes for successful, with
    one it has failed. *)
Lemma lost_status_is_success p : pl_wait p = WaitFailed false ->
  wait_blocking [pl_wait p] = Some 0%Z /\ forall window deadline w, wait_polling window deadline w [p] = Some (-1)%Z.
Proof. intros E. cbn. by rewrite E. Qed.

(** * The interrupt registry *)

(** Cleanups that are made and end in nested order leave the registrations around them. *)
Lemma cleanup_nests inner r : foldr drop_cleanup (foldl (fun r p => add_cleanup p r) r inner) inner = r.
Proof.
  assert (Hone : forall p r, drop_cleanup p (add_cleanup p r) = r).
  { intros p [c ps i]. unfold drop_cleanup, add_cleanup. cbn. rewrite rev_app_distr. cbn. rewrite decide_True by done. by rewrite rev_involutive. }
  induction inner as [|p inner IH] using rev_ind; [done|]. by rewrite foldl_snoc, foldr_snoc, Hone.
Qed.
