(* ===== verification/WorkerPoolCorrect.v ===== *)
(** The dispatcher of worker processes: under every schedule and whatever the workers do, it
    accounts for every unit, bounds how often a unit is tried, cannot deadlock and finishes;
    a worker killed by a unit costs that unit as long as a batch holds at most two of them. *)

From S2P Require Import Prelude Utf8 StringInterner CallGraph ControlFlowIndex Text Results PatchParse SnapshotMeta Staleness ChannelIndex SnapshotFile SnapshotMerge WorkerPool.
Import Failure (WorkerFailure).

(** * Sums over units *)

Lemma sum_le {X} (f g : X -> nat) l : (forall x, x ∈ l -> f x <= g x) -> sum_list_with f l <= sum_list_with g l.
Proof. induction l as [|x l IH]; [done|]. intros H. simpl. pose proof (H x ltac:(left)). specialize (IH ltac:(set_solver)). lia. Qed.

Lemma sum_add {X} (f g : X -> nat) l : sum_list_with (fun x => f x + g x) l = sum_list_with f l + sum_list_with g l.
Proof. induction l as [|x l IH]; [done|]. simpl. rewrite IH. lia. Qed.

Lemma sum_one {X} (l : list X) : sum_list_with (fun _ => 1) l = length l.
Proof. induction l as [|x l IH]; [done|]. simpl. by rewrite IH. Qed.

(** A list with one element replaced, as a bag. *)
Lemma insert_bag {X Y} (f : X -> list Y) (l : list X) i x : l !! i = Some x ->
  exists R, l ≫= f ≡ₚ f x ++ R /\ forall y, <[i := y]> l ≫= f ≡ₚ f y ++ R.
Proof.
  intros H. exists ((take i l ++ drop (S i) l) ≫= f). split.
  - rewrite <- (take_drop_middle l i x H) at 1. rewrite !bind_app, bind_cons. solve_Permutation.
  - intros y. rewrite insert_take_drop by by eapply lookup_lt_Some. rewrite !bind_app, bind_cons. solve_Permutation.
Qed.

Lemma insert_sum {X} (f : X -> nat) (l : list X) i x y : l !! i = Some x ->
  sum_list_with f (<[i := y]> l) + f x = sum_list_with f l + f y.
Proof.
  intros H. rewrite <- (take_drop_middle l i x H) at 2. rewrite insert_take_drop by by eapply lookup_lt_Some.
  rewrite !sum_list_with_app. simpl. lia.
Qed.

Lemma elem_insert {X} (l : list X) i x y : x ∈ <[i := y]> l -> x = y \/ x ∈ l.
Proof.
  intros [j Hj]%list_elem_of_lookup. destruct (decide (i = j)) as [<-|Hne].
  - destruct (decide (i < length l)); [rewrite list_lookup_insert_eq in Hj by done; left; congruence|].
    right. rewrite list_insert_ge in Hj by lia. by eapply list_elem_of_lookup_2.
  - rewrite list_lookup_insert_ne in Hj by done. right. by eapply list_elem_of_lookup_2.
Qed.

Lemma insert_nonempty {X} (l : list X) i x : l <> [] -> <[i := x]> l <> [].
Proof. intros H E. apply (f_equal length) in E. rewrite length_insert in E. by destruct l. Qed.

Lemma join_cons' {X} (x : list X) l : mjoin (x :: l) = x ++ mjoin l.
Proof. done. Qed.

(** * A result is handled *)

(** The units a call settles. *)
Definition settled_by (c : Call) : Batch := match c with ConsumeShard tus => tus | OnPoison tu _ => [tu] end.

Definition settled (cs : list Call) : Batch := cs ≫= settled_by.

(** The units given up, and those consumed. *)
Definition given_up (cs : list Call) : Batch := cs ≫= fun c => match c with OnPoison tu _ => [tu] | _ => [] end.
Definition consumed (cs : list Call) : Batch := cs ≫= fun c => match c with ConsumeShard tus => tus | _ => [] end.

Section Correct.
Context {A : Type} (consumeShard : option bytes -> Batch -> A -> bool * A) (onPoison : bytes -> WorkerFailure -> A -> A).
Variable shardDir : bytes.

Definition tries (l : Local A) (tu : bytes) : Z := default 0%Z (retries l !! tu).

(** The units of a batch that were re-dispatched as often as allowed. *)
Definition worn (l : Local A) (tu : bytes) : Prop := (kMaxTuRetries <= tries l tu)%Z.
#[local] Instance worn_dec l tu : Decision (worn l tu).
Proof. unfold worn. apply _. Defined.

Definition bumped (tus : Batch) (l l' : Local A) : Prop :=
  forall tu, tries l' tu = (tries l tu + if decide (tu ∈ tus) then 1 else 0)%Z.

Lemma retry_units why tus l kept : NoDup tus ->
  exists l', foldl (retry_unit onPoison why) (l, kept) tus = (l', kept ++ filter (fun tu => ~ worn l tu) tus) /\
  bumped tus l l' /\ calls l' = calls l ++ ((fun tu => OnPoison tu why) <$> filter (worn l) tus).
Proof.
  revert l kept. induction tus as [|tu tus IH]; intros l kept Hnd.
  { exists l. rewrite !app_nil_r. split_and!; [done| |done]. intros tu. rewrite decide_False by set_solver. lia. }
  apply NoDup_cons in Hnd as [Hni Hnd]. cbn [foldl retry_unit].
  set (n := (default 0 (retries l !! tu) + 1)%Z). set (l1 := MkLocal (<[tu := n]> (retries l)) (caller l) (calls l)).
  assert (Ht : forall u, tries l1 u = (tries l u + if decide (u = tu) then 1 else 0)%Z).
  { intros u. unfold tries, l1. cbn. rewrite lookup_insert. destruct (decide (tu = u)) as [->|]; [by rewrite decide_True|]. rewrite decide_False by congruence. lia. }
  assert (Hw : forall u, u ∈ tus -> worn l1 u <-> worn l u).
  { intros u Hu. unfold worn. rewrite Ht, decide_False by set_solver. lia. }
  assert (Hf : forall l2, (forall u, tries l2 u = tries l1 u) -> filter (fun u => ~ worn l2 u) tus = filter (fun u => ~ worn l u) tus /\ filter (worn l2) tus = filter (worn l) tus).
  { intros l2 H2. assert (forall u, u ∈ tus -> worn l2 u <-> worn l u) by (intros u Hu; rewrite <- Hw by done; unfold worn; by rewrite H2).
    split; apply filter_ext_in; naive_solver. }
  assert (Hb : forall l2 l3, (forall u, tries l2 u = tries l1 u) -> bumped tus l2 l3 -> bumped (tu :: tus) l l3).
  { intros l2 l3 H2 H3 u. rewrite H3, H2, Ht. destruct (decide (u = tu)) as [->|]; [rewrite (decide_False (P := tu ∈ tus)), decide_True by set_solver; lia|].
    rewrite (decide_ext (u ∈ tu :: tus) (u ∈ tus)) by set_solver. lia. }
  rewrite !filter_cons. destruct (decide (worn l tu)) as [Hwt|Hwt].
  - rewrite (proj2 (Z.ltb_lt _ _)) by (unfold worn, tries in Hwt; lia). rewrite decide_False by tauto.
    destruct (IH (poison onPoison tu why l1) kept Hnd) as (l' & E & B & C). destruct (Hf (poison onPoison tu why l1)) as [F1 F2]; [done|]. rewrite F1 in E. rewrite F2 in C.
    exists l'. split_and!; [done|by eapply Hb|]. rewrite C. cbn. by rewrite <- app_assoc.
  - rewrite (proj2 (Z.ltb_ge _ _)) by (unfold worn, tries in Hwt; lia). rewrite decide_True by done.
    destruct (IH l1 (kept ++ [tu]) Hnd) as (l' & E & B & C). destruct (Hf l1) as [F1 F2]; [done|]. rewrite F1 in E. rewrite F2 in C.
    exists l'. split_and!; [by rewrite E, <- app_assoc|by eapply Hb|done].
Qed.

(** What handling a result does with its batch: some units are queued again, the others
    settled; only the units queued again count a try more and stay below the bound. *)
Record handled (l : Local A) (batch : Batch) (l' : Local A) (q : list Batch) (out : Batch) : Prop := {
  hd_units : mjoin q ++ out ≡ₚ batch;
  hd_calls : settled (calls l') = settled (calls l) ++ out;
  hd_full : Forall (fun b => b <> []) q;
  hd_few : length q <= 2;
  hd_tries : forall tu, tu ∈ mjoin q -> tries l' tu = (tries l tu + 1)%Z /\ ~ worn l tu;
  hd_others : forall tu, tu ∉ batch -> tries l' tu = tries l tu;
  hd_more : forall tu, (tries l tu <= tries l' tu)%Z
}.

Lemma settled_app a b : settled (a ++ b) = settled a ++ settled b.
Proof. apply bind_app. Qed.

Lemma settled_poisoned why tus : settled ((fun tu => OnPoison tu why) <$> tus) = tus.
Proof. induction tus as [|tu tus IH]; [done|]. by rewrite fmap_cons; cbn; f_equal. Qed.

Lemma requeue_spec tus why l : NoDup tus ->
  exists l' q, requeue onPoison tus why l = (l', q) /\ mjoin q = filter (fun tu => ~ worn l tu) tus /\ Forall (fun b => b <> []) q /\
  length q <= 1 /\ bumped tus l l' /\ calls l' = calls l ++ ((fun tu => OnPoison tu why) <$> filter (worn l) tus).
Proof.
  intros Hnd. unfold requeue. destruct (retry_units why tus l [] Hnd) as (l' & E & B & C). rewrite E. cbn [app].
  destruct (filter _ tus) as [|x k] eqn:F.
  - exists l', []. split_and!; [done|done|done|simpl; lia|done|done].
  - exists l', [x :: k]. split_and!; [done|cbn; by rewrite app_nil_r|by constructor|done|done|done].
Qed.

Lemma split_worn l tus : filter (fun tu => ~ worn l tu) tus ++ filter (worn l) tus ≡ₚ tus.
Proof. rewrite Permutation_app_comm. apply filter_app_complement. Qed.

Lemma requeue_handled tus why l : NoDup tus ->
  exists out, handled l tus (requeue onPoison tus why l).1 (requeue onPoison tus why l).2 out /\ length (requeue onPoison tus why l).2 <= 1.
Proof.
  intros Hnd. destruct (requeue_spec tus why l Hnd) as (l' & q & -> & J & F & L & B & C). cbn [fst snd]. exists (filter (worn l) tus). split; [|done].
  split; try done.
  - rewrite J. apply split_worn.
  - by rewrite C, settled_app, settled_poisoned.
  - lia.
  - intros tu. rewrite J, list_elem_of_filter. intros [Hw Hin]. split; [|done]. by rewrite B, decide_True.
  - intros tu Hn. rewrite B, decide_False by done. lia.
  - intros tu. rewrite B. case_decide; lia.
Qed.

Lemma handled_weaken l tus l' q out batch rest : handled l tus l' q out -> tus ++ rest ≡ₚ batch -> forall l0,
  settled (calls l) = settled (calls l0) ++ rest -> (forall tu, tries l tu = tries l0 tu) -> handled l0 batch l' q (rest ++ out).
Proof.
  intros H P l0 C T. assert (W : forall tu, worn l tu <-> worn l0 tu) by (intros tu; unfold worn; by rewrite T).
  split; try apply H.
  - rewrite <- P, <- (hd_units _ _ _ _ _ H). solve_Permutation.
  - by rewrite (hd_calls _ _ _ _ _ H), C, app_assoc.
  - intros tu Hin. rewrite <- T, <- W. by apply H.
  - intros tu Hn. rewrite <- T. apply H. intros Hin. apply Hn. rewrite <- P. set_solver.
  - intros tu. rewrite <- T. apply H.
Qed.

(** The two halves, one after the other. *)
Lemma handled_both l a b l1 q1 o1 l2 q2 o2 : NoDup (a ++ b) -> length q1 <= 1 -> length q2 <= 1 ->
  handled l a l1 q1 o1 -> handled l1 b l2 q2 o2 -> handled l (a ++ b) l2 (q1 ++ q2) (o1 ++ o2).
Proof.
  intros (Ha & Hd & Hb)%NoDup_app L1 L2 H1 H2.
  assert (I1 : forall tu, tu ∈ mjoin q1 -> tu ∈ a) by (intros tu Hin; rewrite <- (hd_units _ _ _ _ _ H1); set_solver).
  assert (I2 : forall tu, tu ∈ mjoin q2 -> tu ∈ b) by (intros tu Hin; rewrite <- (hd_units _ _ _ _ _ H2); set_solver).
  split.
  - rewrite join_app, <- (hd_units _ _ _ _ _ H1), <- (hd_units _ _ _ _ _ H2). solve_Permutation.
  - by rewrite (hd_calls _ _ _ _ _ H2), (hd_calls _ _ _ _ _ H1), app_assoc.
  - apply Forall_app. split; [apply H1|apply H2].
  - rewrite length_app. lia.
  - intros tu. rewrite join_app, elem_of_app. intros [Hin|Hin].
    + rewrite (hd_others _ _ _ _ _ H2) by eauto. by apply H1.
    + assert (Ht : tries l1 tu = tries l tu) by (apply H1; intros Hin'; by apply (Hd tu), I2).
      destruct (hd_tries _ _ _ _ _ H2 tu Hin) as [E W]. unfold worn in *. by rewrite <- Ht.
  - intros tu Hn. rewrite (hd_others _ _ _ _ _ H2), (hd_others _ _ _ _ _ H1) by set_solver. done.
  - intros tu. etrans; [apply H1|apply H2].
Qed.

Lemma bisect_batch_handled batch why l : NoDup batch ->
  exists out, handled l batch (bisect_batch onPoison batch why l).1 (bisect_batch onPoison batch why l).2 out.
Proof.
  intros Hnd.
  assert (Hs : exists out, handled l batch
    (let '(l1, q1) := requeue onPoison (take (length batch / 2) batch) why l in
     let '(l2, q2) := requeue onPoison (drop (length batch / 2) batch) why l1 in (l2, q1 ++ q2)).1
    (let '(l1, q1) := requeue onPoison (take (length batch / 2) batch) why l in
     let '(l2, q2) := requeue onPoison (drop (length batch / 2) batch) why l1 in (l2, q1 ++ q2)).2 out).
  { rewrite <- (take_drop (length batch / 2) batch) in Hnd. pose proof Hnd as (N1 & _ & N2)%NoDup_app.
    destruct (requeue_handled _ why l N1) as (o1 & H1 & L1). destruct (requeue _ (take _ _) _ _) as [l1 q1].
    destruct (requeue_handled _ why l1 N2) as (o2 & H2 & L2). destruct (requeue _ (drop _ _) _ _) as [l2 q2]. exists (o1 ++ o2).
    rewrite <- (take_drop (length batch / 2) batch) at 1. by eapply handled_both. }
  destruct batch as [|tu [|tu' batch]]; [exact Hs| |exact Hs]. exists [tu]. cbn [bisect_batch fst snd].
  split; try done; cbn [poison calls]; [by rewrite settled_app|simpl; lia|set_solver].
Qed.

Lemma handleFailure_handled code batch log l : NoDup batch ->
  exists out, handled l batch (handleFailure onPoison code batch log l).1 (handleFailure onPoison code batch log l).2 out.
Proof.
  intros Hnd. unfold handleFailure. cbv zeta. set (why := if (code =? kWorkerTimedOut)%Z then Failure.TimedOut else Failure.Crashed).
  pose proof (bisect_batch_handled batch why l Hnd) as Hh.
  destruct (lastWorkerTuMarker log) as [m|]; [|done]. case_decide as Hm; [|done].
  destruct (requeue_handled (filter (fun tu : bytes => tu <> m) batch) Failure.Crashed (poison onPoison m why l)) as (out & H & _); [by apply NoDup_filter|].
  exists ([m] ++ out). eapply handled_weaken; [done| |by cbn; rewrite settled_app|done].
  rewrite Permutation_app_comm. cbn. symmetry. apply NoDup_Permutation; [done| |].
  - constructor; [rewrite list_elem_of_filter; tauto|by apply NoDup_filter].
  - intros u. rewrite elem_of_cons, list_elem_of_filter. destruct (decide (u = m)) as [->|]; tauto.
Qed.
Lemma handle_result_cases r d l l' q : NoDup (br_batch r) -> handle_result consumeShard onPoison shardDir r d l = (l', q) ->
  (exists out, handled l (br_batch r) l' q out) \/ (br_exitCode r = kWorkerInterrupted /\ l' = l /\ q = []).
Proof.
  intros Hnd. unfold handle_result, consume.
  assert (Hf : forall code l1, settled (calls l1) = settled (calls l) -> (forall tu, tries l1 tu = tries l tu) ->
    handleFailure onPoison code (br_batch r) (d !! stderrPath_of shardDir (br_seq r)) l1 = (l', q) -> exists out, handled l (br_batch r) l' q out).
  { intros code l1 C T E. destruct (handleFailure_handled code (br_batch r) (d !! stderrPath_of shardDir (br_seq r)) l1 Hnd) as (out & H).
    rewrite E in H. exists ([] ++ out). eapply handled_weaken; [done|by rewrite app_nil_r|by rewrite app_nil_r|done]. }
  destruct (Z.eqb_spec (br_exitCode r) 0) as [E0|E0].
  - destruct (consumeShard _ _ _) as [[] a]; cbn.
    + intros [= <- <-]. left. exists (br_batch r). split; try done; [cbn; by rewrite settled_app; cbn; rewrite app_nil_r|simpl; lia|set_solver].
    + intros E. left. by eapply Hf, E.
  - rewrite (proj2 (Z.eqb_neq (br_exitCode r) 0)) by done. cbn.
    destruct (Z.eqb_spec (br_exitCode r) kWorkerInterrupted) as [Ei|Ei]; cbn; [by intros [= <- <-]; right|]. intros E. left. by eapply Hf, E.
Qed.

(** * The pool as bags of batches *)

Definition thread_batches (t : Thread) : list Batch :=
  match t with Pulled b _ | Running b _ => [b] | Finished r => [br_batch r] | _ => [] end.

Definition pending_of (p : ParentState) : list Batch := match p with Handling pending _ | Notifying pending _ => pending | _ => [] end.

(** Batches waiting for a thread, and batches between their thread and the parent. *)
Definition queued (s : Pool A) : list Batch := work s ++ pending_of (parent s).
Definition flying (s : Pool A) : list Batch := (threads s ≫= thread_batches) ++ (br_batch <$> results s).

(** The units not settled yet. *)
Definition open_units (s : Pool A) : Batch := mjoin (queued s) ++ mjoin (flying s).

(** What a step does to them. *)
Inductive effect (e : Event) (s s' : Pool A) : Prop :=
| eff_quiet :
    queued s' ≡ₚ queued s -> flying s' ≡ₚ flying s -> local s' = local s -> dispatched s' = dispatched s -> shardSeq s' = shardSeq s ->
    (e = ETake -> pending_of (parent s') = []) -> effect e s s'
| eff_pull b Q :
    queued s ≡ₚ b :: Q -> queued s' ≡ₚ Q -> flying s' ≡ₚ b :: flying s -> local s' = local s -> dispatched s' = dispatched s ++ [b] ->
    shardSeq s' = u32 (shardSeq s + 1) -> e <> ETake -> effect e s s'
| eff_settle r results' q :
    results s = r :: results' -> parent s' = Handling q (br_seq r) -> queued s' ≡ₚ q ++ queued s -> flying s ≡ₚ br_batch r :: flying s' ->
    handle_result consumeShard onPoison shardDir r (disk s) (local s) = (local s', q) -> dispatched s' = dispatched s ->
    shardSeq s' = shardSeq s -> e = ETake -> effect e s s'.

Abbreviation next := (fire consumeShard onPoison shardDir).

Ltac thread_step s i Ht :=
  let R := fresh "R" in let Hr := fresh in let Hr' := fresh in
  destruct (insert_bag thread_batches (threads s) i _ Ht) as (R & Hr & Hr');
  unfold flying; cbn; rewrite Hr, Hr'; cbn; try solve_Permutation.

(** A step of one thread that moves no batch. *)
Lemma thread_quiet e s i t t' p :
  threads s !! i = Some t -> thread_batches t' = thread_batches t -> pending_of p = pending_of (parent s) -> e <> ETake ->
  effect e s (set_parent p (set_thread i t' s)).
Proof.
  intros Ht Hb Hp He. apply eff_quiet; try done.
  - unfold queued. cbn. by rewrite Hp.
  - destruct (insert_bag thread_batches (threads s) i _ Ht) as (R & Hr & Hr'). unfold flying. cbn. by rewrite Hr, Hr', Hb.
Qed.

Lemma set_parent_same (s : Pool A) p : parent s = p -> set_parent p s = s.
Proof. intros <-. by destruct s. Qed.

Lemma rouse_effect e s i s' : rouse i s = Some s' -> e <> ETake -> effect e s s'.
Proof.
  unfold rouse. destruct (threads s !! i) as [[| | | | | |]|] eqn:Ht; try done. intros [= <-] He.
  rewrite <- (set_parent_same (set_thread i Idle s) (parent s)) by done. by eapply thread_quiet.
Qed.

Lemma roused_batches (ts : list Thread) : ((fun t => if is_sleeping t then Idle else t) <$> ts) ≫= thread_batches = ts ≫= thread_batches.
Proof. induction ts as [|t ts IH]; [done|]. rewrite fmap_cons, !bind_cons, IH. by destruct t. Qed.

(** The parent moves and touches no batch. *)
Lemma parent_quiet e (s s' : Pool A) :
  work s' = work s -> results s' = results s -> threads s' = threads s -> local s' = local s -> dispatched s' = dispatched s -> shardSeq s' = shardSeq s ->
  pending_of (parent s') = pending_of (parent s) -> (e = ETake -> pending_of (parent s') = []) -> effect e s s'.
Proof. intros W R T L D S P He. apply eff_quiet; try done; [unfold queued; by rewrite W, P|unfold flying; by rewrite T, R]. Qed.

Lemma notify_work_effect woken s s' : notify_work woken s = Some s' -> effect (ENotifyWork woken) s s'.
Proof.
  unfold notify_work. destruct (parent s) as [| | | |p q| | | | |] eqn:Ep; try done. destruct woken as [i|].
  - unfold rouse. cbn [set_parent threads]. destruct (threads s !! i) as [[| | | | | |]|] eqn:Ht; try done. intros [= <-].
    change (effect (ENotifyWork (Some i)) s (set_parent (Handling p q) (set_thread i Idle s))). eapply thread_quiet; [done|done| |done]. by rewrite Ep.
  - destruct (existsb _ _); [done|]. intros [= <-]. apply parent_quiet; try done. by rewrite Ep.
Qed.

Lemma take_effect s s' : take_result consumeShard onPoison shardDir s = Some s' -> effect ETake s s'.
Proof.
  unfold take_result, at_wait. intros H.
  assert (Hp : pending_of (parent s) = []) by (by destruct (parent s)). destruct (match parent s with Waiting => _ | _ => _ end); [|done].
  destruct (results s) as [|r rs] eqn:Er; [injection H as <-; by apply parent_quiet|].
  destruct (handle_result _ _ _ _ _ _) as [l q] eqn:Eh. injection H as <-. apply (eff_settle _ _ _ r rs q); try done.
  - unfold queued. cbn. rewrite Hp. cbn. solve_Permutation.
  - unfold flying. cbn. rewrite Er. cbn. solve_Permutation.
Qed.

Lemma fire_effect e s s' : next e s = Some s' -> effect e s s'.
Proof.
  destruct e as [i|i|i rp|i|i| | |woken| | | | | | |i|]; cbn [fire].
  - unfold wake. destruct (threads s !! i) as [[| | | | | |]|] eqn:Ht; try done. destruct (work s) as [|b w] eqn:Ew.
    + intros [= <-]. apply eff_quiet; try done. destruct (stop s); thread_step s i Ht.
    + intros [= <-]. apply (eff_pull _ _ _ b (w ++ pending_of (parent s))); try done; [unfold queued; by rewrite Ew|].
      thread_step s i Ht.
  - unfold begin_batch. destruct (threads s !! i) as [[| |b q| | | |]|] eqn:Ht; try done. intros [= <-]. apply eff_quiet; try done.
    destruct (interrupted s); thread_step s i Ht.
  - unfold end_batch. destruct (threads s !! i) as [[| | |b q| | |]|] eqn:Ht; try done. intros [= <-]. apply eff_quiet; try done. thread_step s i Ht.
  - unfold post. destruct (threads s !! i) as [[| | | |r| |]|] eqn:Ht; try done. intros [= <-]. apply eff_quiet; try done.
    destruct (insert_bag thread_batches (threads s) i _ Ht) as (R & Hr & Hr'). unfold flying. cbn. rewrite Hr, Hr', fmap_app. cbn. solve_Permutation.
  - unfold notify_result. destruct (threads s !! i) as [[| | | | | |]|] eqn:Ht; try done. intros [= <-]. eapply thread_quiet; [done|done| |done].
    by destruct (parent s).
  - apply take_effect.
  - unfold push_batch. destruct (parent s) as [| | |[|b pend] q| | | | | |] eqn:Ep; try done. intros [= <-]. apply eff_quiet; try done.
    unfold queued. cbn. rewrite Ep. cbn. solve_Permutation.
  - apply notify_work_effect.
  - unfold clean_files. destruct (parent s) as [| | |[|b pend] q| | | | | |] eqn:Ep; try done. intros [= <-]. apply eff_quiet; try done. unfold queued. cbn. by rewrite Ep.
  - destruct (parent s) eqn:Ep; try done. destruct (_ =? 0)%Z; [|done]. intros [= <-]. apply parent_quiet; try done. by rewrite Ep.
  - destruct (parent s) eqn:Ep; try done. intros [= <-]. apply parent_quiet; try done. by rewrite Ep.
  - unfold notify_all. destruct (parent s) eqn:Ep; try done. intros [= <-]. apply eff_quiet; try done; [unfold queued; cbn; by rewrite Ep|].
    unfold flying. cbn. by rewrite roused_batches.
  - destruct (parent s) eqn:Ep; try done. destruct (forallb _ _); [|done]. intros [= <-]. apply parent_quiet; try done. rewrite Ep. by destruct (interrupted s).
  - destruct (interrupted s); [done|]. intros [= <-]. by apply parent_quiet.
  - intros H. by eapply rouse_effect.
  - destruct (parent s) eqn:Ep; try done. intros [= <-]. apply parent_quiet; try done. by rewrite Ep.
Qed.

(** Every branch of a step that was taken. *)
Ltac fire_cases e H :=
  destruct e as [?i|?i|?i ?rp|?i|?i| | |?woken| | | | | | |?i|]; cbn [fire] in H;
  unfold wake, begin_batch, end_batch, post, notify_result, take_result, at_wait, push_batch, notify_work, notify_all, rouse, clean_files, set_thread, set_parent in H;
  cbn [threads parent] in H; repeat case_match; simplify_eq; cbn.

Lemma fire_interrupted e s s' : next e s = Some s' -> interrupted s = true -> interrupted s' = true.
Proof. intros H Hi. fire_cases e H; congruence. Qed.

Lemma fire_returned e s s' : next e s = Some s' -> parent s' = Returned -> parent s = Returned \/ interrupted s = false.
Proof. intros H. fire_cases e H; try (by auto); congruence. Qed.

(** ** Accounting *)

Definition units_ok (files : Batch) (s : Pool A) : Prop :=
  exists lost, open_units s ++ settled (calls (local s)) ++ lost ≡ₚ files /\
    (lost <> [] -> interrupted s = true /\ parent s <> Returned).

(** A unit that is not settled was re-dispatched at most twice. *)
Definition tries_ok (s : Pool A) : Prop :=
  (forall tu, 0 <= tries (local s) tu)%Z /\ forall tu, tu ∈ open_units s -> (tries (local s) tu <= kMaxTuRetries)%Z.

Definition full_ok (s : Pool A) : Prop := Forall (fun b => b <> []) (queued s ++ flying s ++ dispatched s).

Definition codes_ok (s : Pool A) : Prop :=
  forall r, r ∈ results s \/ Finished r ∈ threads s -> br_exitCode r = kWorkerInterrupted -> interrupted s = true.

Lemma open_batch files s r rs : NoDup files -> units_ok files s -> results s = r :: rs -> NoDup (br_batch r).
Proof.
  intros Hnd (lost & P & _) Er. rewrite <- P in Hnd. unfold open_units, flying in Hnd. rewrite Er, fmap_cons, join_app in Hnd.
  apply NoDup_app in Hnd as (Hnd & _ & _). apply NoDup_app in Hnd as (_ & _ & Hnd). apply NoDup_app in Hnd as (_ & _ & Hnd).
  by apply NoDup_app in Hnd as (Hnd & _ & _).
Qed.

Lemma open_settle s s' r q : queued s' ≡ₚ q ++ queued s -> flying s ≡ₚ br_batch r :: flying s' ->
  exists R, open_units s ≡ₚ br_batch r ++ R /\ open_units s' ≡ₚ mjoin q ++ R.
Proof.
  intros Q F. exists (mjoin (queued s) ++ mjoin (flying s')). unfold open_units. split; [rewrite F|rewrite Q, join_app]; cbn; solve_Permutation.
Qed.

Lemma open_same s s' b Q : queued s ≡ₚ b :: Q -> queued s' ≡ₚ Q -> flying s' ≡ₚ b :: flying s -> open_units s' ≡ₚ open_units s.
Proof. intros H1 H2 H3. unfold open_units. rewrite H1, H2, H3. cbn. solve_Permutation. Qed.

Lemma open_quiet s s' : queued s' ≡ₚ queued s -> flying s' ≡ₚ flying s -> open_units s' ≡ₚ open_units s.
Proof. intros H1 H2. unfold open_units. by rewrite H1, H2. Qed.

Lemma accounting_step files e s s' : NoDup files -> next e s = Some s' -> codes_ok s -> units_ok files s -> units_ok files s'.
Proof.
  intros Hnd H Hc Hu. pose proof Hu as (lost & P & Hl).
  assert (Hl' : lost <> [] -> interrupted s' = true /\ parent s' <> Returned).
  { intros [Hi Hp]%Hl. split; [by eapply fire_interrupted|]. intros Hr. destruct (fire_returned e s s' H Hr); congruence. }
  pose proof (fire_effect e s s' H) as [Q F L _|b Q H1 H2 H3 L _|r rs q Er Ep Q F E _].
  - exists lost. by rewrite (open_quiet _ _ Q F), L.
  - exists lost. by rewrite (open_same _ _ _ _ H1 H2 H3), L.
  - destruct (open_settle _ _ _ _ Q F) as (R & P1 & P2). rewrite P1 in P.
    destruct (handle_result_cases r _ _ _ _ (open_batch files s r rs Hnd Hu Er) E) as [(out & Hd)|(Ei & L & ->)].
    + exists lost. split; [|done]. rewrite P2, (hd_calls _ _ _ _ _ Hd), <- P, <- (hd_units _ _ _ _ _ Hd). solve_Permutation.
    + exists (br_batch r ++ lost). rewrite P2, L. split; [rewrite <- P; cbn; solve_Permutation|]. intros _.
      assert (Hi : interrupted s = true) by (apply (Hc r); [left; rewrite Er; left|done]). split; [by eapply fire_interrupted|].
      congruence.
Qed.

Lemma tries_step files e s s' : NoDup files -> next e s = Some s' -> units_ok files s -> tries_ok s -> tries_ok s'.
Proof.
  intros Hnd H Hu [Hp Ht]. pose proof (fire_effect e s s' H) as [Q F L _|b Q H1 H2 H3 L _|r rs q Er Ep Q F E _].
  - split; rewrite L; [done|]. intros tu. rewrite (open_quiet _ _ Q F). apply Ht.
  - split; rewrite L; [done|]. intros tu. rewrite (open_same _ _ _ _ H1 H2 H3). apply Ht.
  - destruct (open_settle _ _ _ _ Q F) as (R & P1 & P2). pose proof (open_batch files s r rs Hnd Hu Er) as Hb.
    assert (HR : forall tu, tu ∈ R -> tu ∉ br_batch r).
    { destruct Hu as (lost & P & _). rewrite <- P, P1 in Hnd. apply NoDup_app in Hnd as (Hnd & _ & _). apply NoDup_app in Hnd as (_ & Hd & _). set_solver. }
    destruct (handle_result_cases r _ _ _ _ Hb E) as [(out & Hd)|(Ei & L & ->)].
    + split; [intros tu; etrans; [apply Hp|apply (hd_more _ _ _ _ _ Hd)]|]. intros tu. rewrite P2, elem_of_app. intros [Hin|Hin].
      * destruct (hd_tries _ _ _ _ _ Hd tu Hin) as [-> W]. unfold worn in W. lia.
      * rewrite (hd_others _ _ _ _ _ Hd tu) by auto. apply Ht. rewrite P1. set_solver.
    + split; rewrite L; [done|]. intros tu. rewrite P2. cbn. intros Hin. apply Ht. rewrite P1. set_solver.
Qed.

Lemma full_step files e s s' : NoDup files -> next e s = Some s' -> units_ok files s -> full_ok s -> full_ok s'.
Proof.
  intros Hnd H Hu. unfold full_ok. pose proof (fire_effect e s s' H) as [Q F L D|b Q H1 H2 H3 L D|r rs q Er Ep Q F E D]; rewrite D.
  - by rewrite Q, F.
  - rewrite H1, H2, H3. rewrite !Forall_app, !Forall_cons. intros ([Hb HQ] & HF & HD). by split_and!.
  - rewrite Q, F, !Forall_app, Forall_cons. intros (HQ & [Hb HF] & HD). split_and!; try done.
    destruct (handle_result_cases r _ _ _ _ (open_batch files s r rs Hnd Hu Er) E) as [(out & Hd)|(_ & _ & ->)]; [apply Hd|done].
Qed.

Lemma elem_roused t (ts : list Thread) : t ∈ (fun t => if is_sleeping t then Idle else t) <$> ts -> t = Idle \/ t ∈ ts.
Proof. intros (u & -> & Hu)%list_elem_of_fmap. by destruct u; auto. Qed.

Lemma codes_step e s s' : (forall i rp, e = EEnd i rp -> rp_code rp = kWorkerInterrupted -> interrupted s = true) ->
  next e s = Some s' -> codes_ok s -> codes_ok s'.
Proof.
  intros Ha H Hc r Hr Hcode. destruct (decide (interrupted s = true)) as [Hi|Hi]; [by eapply fire_interrupted|].
  assert (Hold : r ∈ results s \/ Finished r ∈ threads s -> interrupted s' = true).
  { intros Hin. destruct Hi. by eapply Hc. }
  fire_cases e H; cbn in *; try (by apply Hold); try (destruct Hr as [Hr|[Hr|Hr]%elem_insert]; simplify_eq; try (by auto)).
  - by eapply Ha.
  - apply elem_of_app in Hr as [Hr|Hr]; [|apply list_elem_of_singleton in Hr as ->]; apply Hold; [by left|right; by eapply list_elem_of_lookup_2].
  - apply Hold. left. set_solver.
  - apply Hold. left. set_solver.
  - destruct Hr as [Hr|[Hr|Hr]%elem_roused]; [|done|]; auto.
Qed.

(** ** Phases *)

Definition past_loop (p : ParentState) : bool := match p with Waiting | Blocked | Woken | Handling _ _ | Notifying _ _ => false | _ => true end.
Definition past_stop (p : ParentState) : bool := match p with Stopping | Joining | Returned | Asleep => true | _ => false end.
Definition in_wait (p : ParentState) : bool := match p with Blocked | Woken => true | _ => false end.
Definition stopping (p : ParentState) : bool := match p with Stopping | Joining => true | _ => false end.

Record phase_ok (s : Pool A) : Prop := {
  ph_count : outstanding s = Z.of_nat (length (work s) + length (flying s));
  ph_done : past_loop (parent s) = true -> outstanding s = 0%Z;
  ph_stop : stop s = true -> past_stop (parent s) = true;
  ph_wait : in_wait (parent s) = true -> outstanding s <> 0%Z;
  ph_joining : stopping (parent s) = true -> stop s = true;
  ph_exited : Exited ∈ threads s -> stop s = true;
  ph_threads : parent s <> Returned -> threads s <> [];
  ph_asleep : parent s = Asleep -> interrupted s = true
}.

Lemma flying_insert (s : Pool A) i t t' : threads s !! i = Some t ->
  length (<[i := t']> (threads s) ≫= thread_batches) + length (thread_batches t) =
  length (threads s ≫= thread_batches) + length (thread_batches t').
Proof.
  intros H. destruct (insert_bag thread_batches _ _ _ H) as (R & P & P'). rewrite P, (P' t'), !length_app. lia.
Qed.

Lemma phase_step e s s' : next e s = Some s' -> phase_ok s -> phase_ok s'.
Proof.
  intros H [Hc Hd Hs Hw Hj He Ht Hz]. unfold flying in Hc. rewrite length_app, length_fmap in Hc.
  fire_cases e H; cbn in *; split; cbn in *; unfold flying; cbn; rewrite ?roused_batches, ?length_app, ?length_fmap, ?length_app;
    repeat match goal with
    | H : threads s !! ?i = Some ?t |- context [<[?i := ?t']> (threads s) ≫= thread_batches] =>
        pose proof (flying_insert s i t t' H); generalize dependent (length (<[i := t']> (threads s) ≫= thread_batches)); intros
    | H : work s = _ |- _ => rewrite H in *
    | H : results s = _ |- _ => rewrite H in *
    end; cbn in *; try done; try lia;
    solve [intros [|]%elem_insert; by auto | intros [|]%elem_roused; by auto | intros; apply insert_nonempty; auto | intros; apply Ht; congruence
          | intros _ E%fmap_nil_inv; by apply Ht | intros; by apply Z.eqb_neq, negb_true_iff].
Qed.

(** ** No lost wakeup *)

Definition awake (t : Thread) : bool := match t with Sleeping | Exited => false | _ => true end.

(** A sleeper that has something to do is about to be notified: results for a parent that
    sleeps come with a thread about to notify it, work comes with a thread that is awake or
    with a parent about to notify one, and no thread sleeps once the parent joins. *)
Record signals_ok (s : Pool A) : Prop := {
  sg_result : parent s = Blocked -> results s <> [] -> Posted ∈ threads s;
  sg_work : work s <> [] -> (exists t, t ∈ threads s /\ awake t = true) \/ exists p q, parent s = Notifying p q;
  sg_stop : parent s = Joining -> Sleeping ∉ threads s
}.

Lemma elem_insert_here {X} (l : list X) i x y : l !! i = Some x -> y ∈ <[i := y]> l.
Proof. intros H%lookup_lt_Some. eapply list_elem_of_lookup_2. by apply list_lookup_insert_eq. Qed.

Lemma elem_insert_other {X} (l : list X) i x y z : l !! i = Some x -> z ∈ l -> z <> x -> z ∈ <[i := y]> l.
Proof.
  intros Hx [j Hj]%list_elem_of_lookup Hne. apply list_elem_of_lookup. exists j. rewrite list_lookup_insert_ne; [done|]. intros ->. congruence.
Qed.

Lemma result_signal e s s' : next e s = Some s' -> signals_ok s -> parent s' = Blocked -> results s' <> [] -> Posted ∈ threads s'.
Proof.
  intros H [Hr _ _]. fire_cases e H; cbn in *; intros Hp Hn; try congruence; try (by apply Hr);
    first [by eapply elem_insert_here | (eapply elem_insert_other; [done|by apply Hr|done])].
Qed.

(** When no thread sleeps before the stop, all are awake. *)
Lemma none_sleeps s : phase_ok s -> past_stop (parent s) = false -> existsb is_sleeping (threads s) = false -> exists t, t ∈ threads s /\ awake t = true.
Proof.
  intros H Hp Hs. destruct (threads s) as [|t ts] eqn:Et; [destruct (ph_threads _ H); [by intros E; rewrite E in Hp|done]|]. exists t. split; [left|].
  destruct t; try done.
  assert (stop s = true) as Hst%(ph_stop _ H) by (apply (ph_exited _ H); rewrite Et; left). congruence.
Qed.

Lemma work_signal e s s' : next e s = Some s' -> phase_ok s -> signals_ok s -> work s' <> [] ->
  (exists t, t ∈ threads s' /\ awake t = true) \/ exists p q, parent s' = Notifying p q.
Proof.
  intros H Hph [_ Hw _]. fire_cases e H; cbn in *; intros Hn; try congruence; try (by apply Hw);
    try (by left; eexists; split; [by eapply elem_insert_here|]); try (by right; eauto);
    try (destruct (Hw Hn) as [|(p' & q' & E)]; [by left|congruence]).
  - left. apply none_sleeps; [done|by rewrite H0|done].
  - destruct (Hw Hn) as [(t & Ht & Ha)|(p' & q' & E)]; [left|congruence]. exists t. split; [|done]. apply list_elem_of_fmap. exists t. by destruct t.
Qed.

Lemma stop_signal e s s' : next e s = Some s' -> phase_ok s -> signals_ok s -> parent s' = Joining -> Sleeping ∉ threads s'.
Proof.
  intros H Hph [_ _ Hs]. pose proof (ph_joining _ Hph) as Hj. fire_cases e H; cbn in *; intros Hp; try congruence; try (by apply Hs);
    try (intros [Hin|Hin]%elem_insert; [done|by apply Hs]); try (rewrite Hp in Hj; specialize (Hj eq_refl); congruence).
  intros (t & E & Ht)%list_elem_of_fmap. by destruct t.
Qed.

Lemma signals_step e s s' : next e s = Some s' -> phase_ok s -> signals_ok s -> signals_ok s'.
Proof. intros. split; [by eapply result_signal|by eapply work_signal|by eapply stop_signal]. Qed.

(** * Every run *)

Variable Runner : Batch -> Reply -> Prop.

Abbreviation moves := (pool_step consumeShard onPoison shardDir Runner).

Record pool_ok (files : Batch) (s : Pool A) : Prop := {
  po_units : units_ok files s;
  po_tries : tries_ok s;
  po_full : full_ok s;
  po_codes : codes_ok s;
  po_phase : phase_ok s;
  po_signals : signals_ok s
}.

Lemma step_ok files s s' : NoDup files -> moves s s' -> pool_ok files s -> pool_ok files s'.
Proof.
  intros Hnd (e & Ha & H) [H1 H2 H3 H4 H5 H6]. split.
  - by eapply accounting_step.
  - by eapply tries_step.
  - by eapply full_step.
  - eapply codes_step; [|done|done]. intros i rp ->. apply Ha.
  - by eapply phase_step.
  - by eapply signals_step.
Qed.

Lemma split_batches_join fuel size files : 0 < size -> length files <= fuel -> mjoin (split_batches fuel size files) = files.
Proof.
  intros Hs. revert files. induction fuel as [|fuel IH]; intros [|f files] Hl; simpl in Hl; try done; try lia.
  cbn [split_batches mjoin]. change (take size (f :: files) ++ mjoin (split_batches fuel size (drop size (f :: files))) = f :: files).
  rewrite IH; [apply take_drop|]. rewrite length_drop. simpl. lia.
Qed.

Lemma split_batches_full fuel size files : 0 < size -> Forall (fun b => b <> [] /\ length b <= size) (split_batches fuel size files).
Proof.
  intros Hs. revert files. induction fuel as [|fuel IH]; intros [|f files]; try done. cbn [split_batches]. constructor; [|apply IH].
  split; [destruct size; [lia|done]|]. rewrite length_take. lia.
Qed.

Lemma batch_size_pos files workers size : (0 < batch_size files workers size)%N.
Proof. unfold batch_size. destruct (N.eqb_spec size 0); lia. Qed.

Lemma effective_workers_pos files workers : (0 < effective_workers files workers)%N.
Proof. unfold effective_workers. repeat case_match; lia. Qed.

Lemma initial_join files workers size : mjoin (initial_batches files workers size) = files.
Proof. apply split_batches_join; [|done]. pose proof (batch_size_pos files (effective_workers files workers) size). lia. Qed.

Lemma initial_full files workers size : Forall (fun b => b <> []) (initial_batches files workers size).
Proof.
  eapply Forall_impl; [apply split_batches_full|naive_solver]. pose proof (batch_size_pos files (effective_workers files workers) size). lia.
Qed.

Abbreviation start files workers size irq d a := (dispatchIsolated files workers size irq d a).

Lemma start_flying files workers size irq d (a : A) : flying (start files workers size irq d a) = [].
Proof. unfold flying. cbn. case_match; [done|]. rewrite app_nil_r. generalize (N.to_nat (effective_workers files workers)). by induction n. Qed.

Lemma start_queued files workers size irq d (a : A) : queued (start files workers size irq d a) = initial_batches files workers size.
Proof. unfold queued. cbn. by case_match; rewrite app_nil_r. Qed.

Lemma start_ok files workers size irq d (a : A) : pool_ok files (start files workers size irq d a).
Proof.
  split.
  - exists []. unfold open_units. rewrite start_flying, start_queued, initial_join. cbn. by rewrite !app_nil_r.
  - split; intros tu; cbn; unfold tries, kMaxTuRetries; cbn; rewrite lookup_empty; cbn; lia.
  - unfold full_ok. rewrite start_flying, start_queued, !app_nil_r. apply initial_full.
  - intros r [Hr|Hr]; [set_solver|]. cbn in Hr. case_match; [set_solver|]. by apply elem_of_replicate in Hr as [? _].
  - split; [rewrite start_flying; cbn; lia|..]; cbn; try done.
    + unfold no_items. by destruct files.
    + by case_match.
    + by case_match.
    + case_match; [set_solver|]. by intros [? _]%elem_of_replicate.
    + pose proof (effective_workers_pos files workers). unfold no_items. destruct files; [done|]. intros _ E%(f_equal length).
      rewrite length_replicate in E. simpl in E. lia.
    + by case_match.
  - pose proof (effective_workers_pos files workers). split; cbn; [done| |by case_match].
    intros Hw. left. exists Idle. split; [|done]. unfold no_items. destruct files; [done|]. apply elem_of_replicate. split; [done|lia].
Qed.

Lemma run_ok files workers size irq d (a : A) s : NoDup files -> rtc moves (start files workers size irq d a) s -> pool_ok files s.
Proof. intros Hnd H. pose proof (start_ok files workers size irq d a) as H0. induction H; [done|]. eauto using step_ok. Qed.

(** ** How often a unit is dispatched *)

(** The runs a unit may still begin: at most three. *)
Definition runs_left (l : Local A) (tu : bytes) : nat := Z.to_nat (kMaxTuRetries + 1 - tries l tu).

(** Runs begun and runs that may still begin, each unit counted with its weight. *)
Definition potential (weight : bytes -> nat) (s : Pool A) : nat :=
  sum_list_with weight (mjoin (dispatched s)) + sum_list_with (fun tu => weight tu * runs_left (local s) tu) (mjoin (queued s)) +
  sum_list_with (fun tu => weight tu * (runs_left (local s) tu - 1)) (mjoin (flying s)).

Lemma start_left (a : A) tu : runs_left (MkLocal ∅ a []) tu = 3.
Proof. unfold runs_left, tries. cbn. by rewrite lookup_empty. Qed.

Lemma left_pos s tu : tries_ok s -> tu ∈ open_units s -> 1 <= runs_left (local s) tu.
Proof. intros [_ H] Hin%H. unfold runs_left. lia. Qed.

Lemma handled_left l batch l' q out tu : handled l batch l' q out -> runs_left l' tu <= runs_left l tu.
Proof. intros H. pose proof (hd_more _ _ _ _ _ H tu). unfold runs_left. lia. Qed.

Lemma requeued_left l batch l' q out tu : handled l batch l' q out -> tu ∈ mjoin q -> runs_left l' tu + 1 <= runs_left l tu.
Proof. intros H Hin. destruct (hd_tries _ _ _ _ _ H tu Hin) as [E W]. unfold worn, runs_left in *. lia. Qed.

(** Handling a batch uses up a run of every unit queued again. *)
Lemma handled_sum (weight : bytes -> nat) l batch l' q out : handled l batch l' q out ->
  sum_list_with (fun tu => weight tu * runs_left l' tu) (mjoin q) <= sum_list_with (fun tu => weight tu * (runs_left l tu - 1)) batch.
Proof.
  intros H. rewrite <- (hd_units _ _ _ _ _ H), sum_list_with_app. etrans; [|apply Nat.le_add_r].
  apply sum_le. intros tu Hin. apply Nat.mul_le_mono_l. pose proof (requeued_left _ _ _ _ _ _ H Hin). lia.
Qed.

Lemma potential_step weight files e s s' : NoDup files -> next e s = Some s' -> pool_ok files s -> potential weight s' <= potential weight s.
Proof.
  intros Hnd H Hok. unfold potential. pose proof (fire_effect e s s' H) as [Q F L D _ _|b Q H1 H2 H3 L D _ _|r rs q Er Ep Q F E D _ _].
  - by rewrite Q, F, L, D.
  - rewrite H1, H2, H3, L, D, join_app, !join_cons', app_nil_r, !sum_list_with_app.
    assert (Hb : sum_list_with weight b + sum_list_with (fun tu => weight tu * (runs_left (local s) tu - 1)) b <= sum_list_with (fun tu => weight tu * runs_left (local s) tu) b).
    { rewrite <- sum_add. apply sum_le. intros tu Hin. assert (1 <= runs_left (local s) tu); [|nia].
      apply left_pos; [apply Hok|]. unfold open_units. rewrite H1. set_solver. }
    lia.
  - rewrite Q, F, D, join_app, join_cons', !sum_list_with_app.
    destruct (handle_result_cases r _ _ _ _ (open_batch files s r rs Hnd (po_units _ _ Hok) Er) E) as [(out & Hd)|(_ & L & ->)]; [|rewrite L; simpl; lia].
    pose proof (handled_sum weight _ _ _ _ _ Hd).
    assert (H1 : sum_list_with (fun tu => weight tu * runs_left (local s') tu) (mjoin (queued s)) <= sum_list_with (fun tu => weight tu * runs_left (local s) tu) (mjoin (queued s))).
    { apply sum_le. intros tu _. pose proof (handled_left _ _ _ _ _ tu Hd). nia. }
    assert (H2 : sum_list_with (fun tu => weight tu * (runs_left (local s') tu - 1)) (mjoin (flying s')) <= sum_list_with (fun tu => weight tu * (runs_left (local s) tu - 1)) (mjoin (flying s'))).
    { apply sum_le. intros tu _. pose proof (handled_left _ _ _ _ _ tu Hd). nia. }
    lia.
Qed.

Lemma run_potential weight files workers size irq d (a : A) s : NoDup files -> rtc moves (start files workers size irq d a) s ->
  potential weight s <= 3 * sum_list_with weight files.
Proof.
  intros Hnd H. pose proof (start_ok files workers size irq d a) as Hok.
  assert (H0 : potential weight (start files workers size irq d a) <= 3 * sum_list_with weight files).
  { unfold potential. rewrite start_flying, start_queued, initial_join. cbn.
    assert (E : forall l, sum_list_with (fun tu => weight tu * runs_left (MkLocal ∅ a []) tu) l = 3 * sum_list_with weight l) by (induction l; simpl; rewrite ?start_left; lia). rewrite E. simpl. lia. }
  revert Hok H0. induction H as [|s1 s2 s3 (e & Ha & Hf) Hr IH]; [done|]. intros Hok H0. apply IH; [eapply step_ok; [exact Hnd|by exists e|exact Hok]|].
  etrans; [by eapply potential_step|done].
Qed.
(** ** Every run is finite *)

(** Steps still ahead of a thread, of the parent beside [n] threads, and of what is queued. *)
Definition thread_cost (t : Thread) : nat :=
  match t with Exited => 0 | Sleeping => 1 | Idle => 2 | Posted => 4 | Finished _ => 7 | Running _ _ => 8 | Pulled _ _ => 9 end.

Definition parent_cost (n : nat) (p : ParentState) : nat :=
  match p with
  | Handling pending _ => 11 * length pending + 5 + n
  | Notifying pending _ => 11 * length pending + 7 + n
  | Waiting | Woken => 4 + n
  | Blocked | Broken => 3 + n
  | Stopping => 2 + n
  | Joining => 1
  | _ => 0
  end.

Definition cost (s : Pool A) : nat :=
  8 * length (work s) + sum_list_with thread_cost (threads s) + 2 * length (results s) + parent_cost (length (threads s)) (parent s) +
  (if interrupted s then 0 else 1).

Definition measure (s : Pool A) : nat := 22 * sum_list_with (runs_left (local s)) (open_units s) + cost s.

Lemma roused_cost (ts : list Thread) :
  sum_list_with thread_cost ((fun t => if is_sleeping t then Idle else t) <$> ts) <= sum_list_with thread_cost ts + length ts.
Proof. induction ts as [|t ts IH]; [done|]. rewrite fmap_cons. cbn [sum_list_with length]. destruct t; cbn [is_sleeping thread_cost]; lia. Qed.

(** What a step may add: the cost of the batches to queue, and one for a spurious wakeup. *)
Definition added (e : Event) (s' : Pool A) : nat :=
  match e with ETake => 11 * length (pending_of (parent s')) | _ => if spurious e then 2 else 0 end.

Lemma cost_step e s s' : next e s = Some s' -> cost s' < cost s + added e s'.
Proof.
  intros H. unfold cost. pose proof (roused_cost (threads s)) as Hr.
  fire_cases e H; cbn in *; rewrite ?length_app, ?length_insert, ?length_fmap;
    repeat match goal with
    | H : threads s !! ?i = Some ?t |- context [sum_list_with thread_cost (<[?i := ?t']> (threads s))] =>
        pose proof (insert_sum thread_cost (threads s) i t t' H);
        generalize dependent (sum_list_with thread_cost (<[i := t']> (threads s))); intros
    | H : work s = _ |- _ => rewrite H in *
    | H : results s = _ |- _ => rewrite H in *
    | H : parent s = _ |- _ => rewrite H in *
    | H : interrupted s = _ |- _ => rewrite H in *
    end; cbn in *; try (destruct (interrupted s)); try (destruct (stop s)); cbn in *; lia.
Qed.

Lemma handled_shrinks l batch l' q out : handled l batch l' q out -> (forall tu, tu ∈ batch -> 1 <= runs_left l tu) ->
  sum_list_with (runs_left l') (mjoin q) + length batch <= sum_list_with (runs_left l) batch.
Proof.
  intros H Hp. rewrite <- (sum_one batch), <- (hd_units _ _ _ _ _ H), !sum_list_with_app.
  assert (sum_list_with (runs_left l') (mjoin q) + sum_list_with (fun _ => 1) (mjoin q) <= sum_list_with (runs_left l) (mjoin q)).
  { rewrite <- sum_add. apply sum_le. intros tu Hin. by eapply requeued_left. }
  assert (sum_list_with (fun _ => 1) out <= sum_list_with (runs_left l) out); [|lia].
  apply sum_le. intros tu Hin. apply Hp. rewrite <- (hd_units _ _ _ _ _ H). set_solver.
Qed.

Lemma measure_step files e s s' : NoDup files -> next e s = Some s' -> pool_ok files s -> measure s' < measure s + if spurious e then 2 else 0.
Proof.
  intros Hnd H Hok. pose proof (cost_step e s s' H) as Hc. unfold measure.
  pose proof (fire_effect e s s' H) as [Q F L D _ He|b Q H1 H2 H3 L D _ He|r rs q Er Ep Q F E D _ ->].
  - rewrite (open_quiet _ _ Q F), L. destruct e; cbn [added spurious] in *; try lia. rewrite He in Hc by done. simpl in *. lia.
  - rewrite (open_same _ _ _ _ H1 H2 H3), L. destruct e; cbn [added spurious] in *; try lia. done.
  - destruct (open_settle _ _ _ _ Q F) as (R & P1 & P2). rewrite P1, P2, !sum_list_with_app. cbn [added] in Hc. rewrite Ep in Hc. cbn [pending_of spurious] in *.
    assert (Hne : br_batch r <> []).
    { pose proof (po_full _ _ Hok) as Hf. unfold full_ok in Hf. rewrite F, !Forall_app, Forall_cons in Hf. naive_solver. }
    assert (Hl : 1 <= length (br_batch r)) by (destruct (br_batch r); simpl; [done|lia]).
    assert (Hp : forall tu, tu ∈ br_batch r -> 1 <= runs_left (local s) tu).
    { intros tu Hin. apply left_pos; [apply Hok|]. rewrite P1. set_solver. }
    destruct (handle_result_cases r _ _ _ _ (open_batch files s r rs Hnd (po_units _ _ Hok) Er) E) as [(out & Hd)|(_ & L & ->)].
    + pose proof (handled_shrinks _ _ _ _ _ Hd Hp). pose proof (hd_few _ _ _ _ _ Hd).
      assert (sum_list_with (runs_left (local s')) R <= sum_list_with (runs_left (local s)) R) by (apply sum_le; intros; by eapply handled_left). lia.
    + rewrite L. simpl in *. lia.
Qed.

Abbreviation sched := (schedule consumeShard onPoison shardDir Runner).

Lemma schedule_run es s s' : sched es s s' -> rtc moves s s'.
Proof. induction 1 as [|e es s1 s2 s3 Ha Hf _ IH]; [done|]. eapply rtc_l; [|done]. by exists e. Qed.

Lemma run_bounded files es s s' : NoDup files -> pool_ok files s -> sched es s s' ->
  length es + measure s' <= measure s + 2 * length (filter (fun e => spurious e = true) es).
Proof.
  intros Hnd Hok H. revert Hok. induction H as [|e es s1 s2 s3 Ha Hf _ IH]; [simpl; lia|]. intros Hok.
  pose proof (measure_step _ _ _ _ Hnd Hf Hok) as Hm. assert (Hok' : pool_ok files s2) by (eapply step_ok; [exact Hnd|by exists e|exact Hok]). specialize (IH Hok').
  rewrite filter_cons. destruct (spurious e); [rewrite decide_True by done|rewrite decide_False by done]; cbn [length]; lia.
Qed.

Lemma start_measure files workers size irq d (a : A) :
  measure (start files workers size irq d a) <= 74 * length files + 3 * N.to_nat (effective_workers files workers) + 5.
Proof.
  unfold measure, open_units, cost. rewrite start_flying, start_queued, initial_join. cbn [mjoin]. rewrite app_nil_r. cbn [work threads results parent interrupted local dispatchIsolated].
  assert (H1 : forall l, sum_list_with (runs_left (MkLocal ∅ a [])) l = 3 * length l) by (induction l; simpl; rewrite ?start_left; lia). rewrite H1.
  assert (H2 : length (initial_batches files workers size) <= length files).
  { rewrite <- (initial_join files workers size) at 2. pose proof (initial_full files workers size) as Hf. induction Hf as [|b l Hb _ IH]; [done|].
    rewrite join_cons', length_app. destruct b; [done|]. simpl in *. lia. }
  assert (H3 : forall n, sum_list_with thread_cost (replicate n Idle) = 2 * n) by (induction n; simpl; lia).
  destruct (no_items files), irq; rewrite ?H3, ?length_replicate; cbn [parent_cost length sum_list_with]; lia.
Qed.

Lemma run_ok_from files s s' : NoDup files -> pool_ok files s -> rtc moves s s' -> pool_ok files s'.
Proof. intros Hnd Hok H. revert Hok. induction H; [done|]. eauto using step_ok. Qed.

(** ** No deadlock *)

Definition ended (s : Pool A) : Prop := parent s = Returned \/ parent s = Asleep.

(** The runner returns, and not with the code of an interrupt. *)
Definition runner_returns : Prop := forall b, exists rp, Runner b rp /\ rp_code rp <> kWorkerInterrupted.

(** A thread or the parent can take a step by itself. *)
Definition progress (s : Pool A) : Prop := exists e s', own_step e = true /\ allowed Runner s e /\ next e s = Some s'.

Lemma awake_moves s t : runner_returns -> t ∈ threads s -> awake t = true -> progress s.
Proof.
  intros Hr [i Ht]%list_elem_of_lookup Ha. destruct t as [| |b q|b q|r| |]; try done.
  - destruct (wake i s) as [s'|] eqn:E; [by exists (EWake i), s'|]. unfold wake in E. rewrite Ht in E. by destruct (work s).
  - eexists (EBegin i), _. split_and!; [done|done|]. cbn. unfold begin_batch. by rewrite Ht.
  - destruct (Hr b) as (rp & H & Hc). eexists (EEnd i rp), _. split_and!; [done| |cbn; unfold end_batch; by rewrite Ht].
    split; [done|]. intros b' q' E. by simplify_eq.
  - eexists (EPost i), _. split_and!; [done|done|]. cbn. unfold post. by rewrite Ht.
  - eexists (ENotifyResult i), _. split_and!; [done|done|]. cbn. unfold notify_result. by rewrite Ht.
Qed.

Lemma joining_moves s : runner_returns -> signals_ok s -> parent s = Joining -> progress s.
Proof.
  intros Hr H Ep. destruct (forallb is_exited (threads s)) eqn:Ex.
  - eexists EJoin, _. split_and!; [done|done|]. cbn. by rewrite Ep, Ex.
  - assert (exists t, t ∈ threads s /\ is_exited t = false) as (t & Ht & Hx).
    { clear -Ex. induction (threads s) as [|t ts IH]; [done|]. cbn in Ex. apply andb_false_iff in Ex as [Ex|Ex]; [exists t; split; [left|done]|].
      destruct (IH Ex) as (u & Hu & ?). exists u. split; [by right|done]. }
    apply (awake_moves s t); [done|done|]. destruct t; try done. by destruct (sg_stop _ H Ep).
Qed.

(** A sleeping parent has a thread that goes on. *)
Lemma blocked_moves s : runner_returns -> phase_ok s -> signals_ok s -> parent s = Blocked -> progress s.
Proof.
  intros Hr Hph H Ep. destruct (decide (results s = [])) as [Er|Er].
  - pose proof (ph_wait _ Hph) as Ho. rewrite Ep, (ph_count _ Hph) in Ho. specialize (Ho eq_refl). unfold flying in Ho. rewrite Er, app_nil_r in Ho.
    destruct (decide (work s = [])) as [Ew|Ew].
    + rewrite Ew in Ho. destruct (threads s ≫= thread_batches) as [|b l] eqn:Eb; [done|].
      assert (b ∈ threads s ≫= thread_batches) as (t & Hb & Ht)%list_elem_of_bind by (rewrite Eb; left).
      apply (awake_moves s t); [done|done|]. destruct t; try done; by apply not_elem_of_nil in Hb.
    + destruct (sg_work _ H Ew) as [(t & Ht & Ha)|(p & q & E)]; [by apply (awake_moves s t)|congruence].
  - by apply (awake_moves s Posted); [|apply H|].
Qed.

Lemma take_moves s : at_wait s = true -> progress s.
Proof.
  intros Hw. assert (Hs : exists s', take_result consumeShard onPoison shardDir s = Some s').
  { unfold take_result. rewrite Hw. destruct (results s); [eauto|]. destruct (handle_result _ _ _ _ _ _). eauto. }
  destruct Hs as [s' Hs]. by exists ETake, s'.
Qed.

Lemma notifying_moves s p q : parent s = Notifying p q -> progress s.
Proof.
  intros Ep. destruct (existsb is_sleeping (threads s)) eqn:Es.
  - apply existsb_exists in Es as (t & [i Hi]%list_elem_of_In%list_elem_of_lookup & Ht). destruct t; try done.
    eexists (ENotifyWork (Some i)), _. split_and!; [done|done|]. cbn. unfold notify_work, rouse. rewrite Ep. cbn. by rewrite Hi.
  - eexists (ENotifyWork None), _. split_and!; [done|done|]. cbn. unfold notify_work. by rewrite Ep, Es.
Qed.

Lemma never_stuck s : runner_returns -> phase_ok s -> signals_ok s -> ended s \/ progress s.
Proof.
  intros Hr Hph H. destruct (parent s) as [| | |[|b pend] q|p q| | | | |] eqn:Ep; try (by left; unfold ended; rewrite Ep; auto); right.
  - destruct (Z.eqb_spec (outstanding s) 0) as [Eo|Eo]; [eexists EBreak, _; split_and!; [done|done|]; cbn; by rewrite Ep, Eo|].
    apply take_moves. unfold at_wait. rewrite Ep. by apply negb_true_iff, Z.eqb_neq.
  - by apply blocked_moves.
  - apply take_moves. unfold at_wait. by rewrite Ep.
  - eexists EClean, _. split_and!; [done|done|]. cbn. unfold clean_files. by rewrite Ep.
  - eexists EPush, _. split_and!; [done|done|]. cbn. unfold push_batch. by rewrite Ep.
  - by eapply notifying_moves.
  - eexists EStop, _. split_and!; [done|done|]. cbn. by rewrite Ep.
  - eexists ENotifyAll, _. split_and!; [done|done|]. cbn. unfold notify_all. by rewrite Ep.
  - by apply joining_moves.
Qed.

(** * The files of a batch *)

(** The sequence numbers of runs that are not over, and of runs that are and whose files are
    kept. *)
Definition running (t : Thread) : list N := match t with Pulled _ q | Running _ q => [q] | _ => [] end.
Definition written (t : Thread) : list N := match t with Finished r => [br_seq r] | _ => [] end.
Definition handled_seq (p : ParentState) : list N := match p with Handling _ q | Notifying _ q => [q] | _ => [] end.

Definition active_seqs (s : Pool A) : list N := threads s ≫= running.
Definition written_seqs (s : Pool A) : list N := (threads s ≫= written) ++ (br_seq <$> results s) ++ handled_seq (parent s).

Definition no_files (d : Disk) (q : N) : Prop := d !! shardPath_of shardDir q = None /\ d !! stderrPath_of shardDir q = None.

(** What a result says its runner did. *)
Definition reply_of (d : Disk) (r : BatchResult) : Reply :=
  MkReply (br_exitCode r) (d !! shardPath_of shardDir (br_seq r)) (d !! stderrPath_of shardDir (br_seq r)).

Record disk_ok (s : Pool A) : Prop := {
  dk_distinct : NoDup (active_seqs s ++ written_seqs s);
  dk_below : Forall (fun q => (q < shardSeq s)%N) (active_seqs s ++ written_seqs s);
  dk_clear : forall q, q ∉ written_seqs s -> no_files (disk s) q;
  dk_reply : forall r, r ∈ results s \/ Finished r ∈ threads s -> br_exitCode r <> kWorkerInterrupted -> Runner (br_batch r) (reply_of (disk s) r);
  dk_count : shardSeq s = N.of_nat (length (dispatched s))
}.

Lemma shardPath_inj q q' : shardPath_of shardDir q = shardPath_of shardDir q' -> q = q'.
Proof. unfold shardPath_of. intros E%app_inv_head%app_inv_head%app_inv_tail. by apply to_string_inj. Qed.

Lemma stderrPath_inj q q' : stderrPath_of shardDir q = stderrPath_of shardDir q' -> q = q'.
Proof. unfold stderrPath_of. intros E%app_inv_head%app_inv_head%app_inv_tail. by apply to_string_inj. Qed.

Lemma paths_differ q q' : shardPath_of shardDir q <> stderrPath_of shardDir q'.
Proof. unfold shardPath_of, stderrPath_of. intros E%app_inv_head. discriminate E. Qed.

Lemma write_other (path path' : bytes) (c : option bytes) (d : Disk) : path <> path' -> leave_file path c d !! path' = d !! path'.
Proof. intros Hne. destruct c; [|done]. by apply lookup_insert_ne. Qed.

Lemma write_here (path : bytes) (c : option bytes) (d : Disk) : d !! path = None -> leave_file path c d !! path = c.
Proof. intros H. destruct c; [|done]. by apply lookup_insert_eq. Qed.

(** The state of the two files of a number is not touched. *)
Definition same_files (q : N) (d d' : Disk) : Prop :=
  d' !! shardPath_of shardDir q = d !! shardPath_of shardDir q /\ d' !! stderrPath_of shardDir q = d !! stderrPath_of shardDir q.

Abbreviation write_reply q rp d := (leave_file (stderrPath_of shardDir q) (rp_log rp) (leave_file (shardPath_of shardDir q) (rp_shard rp) d)).
Abbreviation remove_files q d := (delete (stderrPath_of shardDir q) (delete (shardPath_of shardDir q) d)).

Lemma write_same (q q' : N) (rp : Reply) (d : Disk) : q <> q' -> same_files q' d (write_reply q rp d).
Proof.
  intros Hne. split; rewrite !write_other; try done; try (by apply paths_differ); try (by intros E; apply (paths_differ q' q));
    by intros ?%shardPath_inj || by intros ?%stderrPath_inj.
Qed.

Lemma remove_same (q q' : N) (d : Disk) : q <> q' -> same_files q' d (remove_files q d).
Proof.
  intros Hne. split; rewrite !lookup_delete_ne; try done; try (by apply paths_differ); try (by intros E; apply (paths_differ q' q));
    by intros ?%shardPath_inj || by intros ?%stderrPath_inj.
Qed.

Lemma write_reply_here (q : N) (rp : Reply) (d : Disk) : no_files d q ->
  write_reply q rp d !! shardPath_of shardDir q = rp_shard rp /\ write_reply q rp d !! stderrPath_of shardDir q = rp_log rp.
Proof.
  intros [H1 H2]. split.
  - rewrite write_other by (by intros E; apply (paths_differ q q)). by apply write_here.
  - apply write_here. by rewrite write_other by apply paths_differ.
Qed.

Lemma same_no_files (q : N) (d d' : Disk) : same_files q d d' -> no_files d q -> no_files d' q.
Proof. unfold no_files. by intros [-> ->]. Qed.

Lemma same_reply (r : BatchResult) (d d' : Disk) : same_files (br_seq r) d d' -> reply_of d' r = reply_of d r.
Proof. intros [H1 H2]. unfold reply_of. by rewrite H1, H2. Qed.

(** ** The files stay apart *)

Abbreviation held_by s r := (r ∈ results s \/ Finished r ∈ threads s).

(** A step that keeps the files: a run may be over, for an interrupt. *)
Lemma disk_ok_same s s' : active_seqs s' ++ written_seqs s' ≡ₚ active_seqs s ++ written_seqs s -> written_seqs s ⊆ written_seqs s' ->
  disk s' = disk s -> shardSeq s' = shardSeq s -> dispatched s' = dispatched s ->
  (forall r, held_by s' r -> held_by s r \/ br_exitCode r = kWorkerInterrupted) -> disk_ok s -> disk_ok s'.
Proof.
  intros P W D S N R [H1 H2 H3 H4 H5]. split.
  - by rewrite P.
  - by rewrite P, S.
  - intros q Hq. rewrite D. apply H3. auto.
  - intros r Hr Hc. rewrite D. apply H4; [|done]. by destruct (R r Hr).
  - by rewrite S, N.
Qed.

Lemma wake_disk i s s' : wake i s = Some s' -> (N.of_nat (length (dispatched s')) < two32)%N -> disk_ok s -> disk_ok s'.
Proof.
  unfold wake. destruct (threads s !! i) as [[| | | | | |]|] eqn:Ht; try done.
  destruct (insert_bag running (threads s) i _ Ht) as (R1 & P1 & P1'). destruct (insert_bag written (threads s) i _ Ht) as (R2 & P2 & P2').
  destruct (work s) as [|b w].
  - intros [= <-] _. apply disk_ok_same; cbn; try done; unfold active_seqs, written_seqs; cbn; rewrite ?P1, ?P1', ?P2, ?P2'; destruct (stop s); try done;
      intros r [|[|]%elem_insert]; naive_solver.
  - intros [= <-] Hl [H1 H2 H3 H4 H5]. cbn in Hl. rewrite length_app in Hl. simpl in Hl. unfold active_seqs, written_seqs in *.
    split; cbn; unfold active_seqs, written_seqs; cbn; rewrite ?P1', ?P2'; rewrite P1, P2 in *; cbn.
    + constructor; [|done]. intros Hin. rewrite Forall_forall in H2. specialize (H2 _ Hin). lia.
    + rewrite u32_small by lia. constructor; [lia|]. eapply Forall_impl; [exact H2|]. cbn. lia.
    + intros q Hq. apply H3. rewrite P2' in Hq. rewrite P2. done.
    + intros r Hr. apply H4. destruct Hr as [|[|]%elem_insert]; naive_solver.
    + rewrite u32_small by lia. rewrite length_app. simpl. lia.
Qed.

Lemma end_disk i rp s s' : end_batch shardDir i rp s = Some s' -> (forall b q, threads s !! i = Some (Running b q) -> Runner b rp) -> disk_ok s -> disk_ok s'.
Proof.
  unfold end_batch. destruct (threads s !! i) as [[| | |b q| | |]|] eqn:Ht; try done. intros [= <-] Hr [H1 H2 H3 H4 H5].
  destruct (insert_bag running (threads s) i _ Ht) as (R1 & P1 & P1'). destruct (insert_bag written (threads s) i _ Ht) as (R2 & P2 & P2').
  assert (Hq : q ∉ written_seqs s).
  { unfold active_seqs in H1. rewrite P1 in H1. cbn in H1. apply NoDup_cons in H1 as [H1 _]. set_solver. }
  pose proof (H3 q Hq) as Hn.
  assert (P : (<[i:=Finished (MkResult b (rp_code rp) q)]> (threads s) ≫= running) ++ ((<[i:=Finished (MkResult b (rp_code rp) q)]> (threads s) ≫= written) ++ (br_seq <$> results s) ++ handled_seq (parent s)) ≡ₚ active_seqs s ++ written_seqs s).
  { unfold active_seqs, written_seqs. rewrite P1, P1', P2, P2'. cbn. solve_Permutation. }
  split; cbn; unfold active_seqs, written_seqs; cbn; rewrite ?P; try done.
  - intros x. rewrite P2'. cbn. intros Hx. eapply same_no_files; [apply write_same; set_solver|]. apply H3. unfold written_seqs. rewrite P2. set_solver.
  - intros r Hin Hc. assert (Hcase : r = MkResult b (rp_code rp) q \/ held_by s r) by (destruct Hin as [|[|]%elem_insert]; naive_solver).
    destruct Hcase as [->|Hold].
    + unfold reply_of. cbn. destruct (write_reply_here q rp (disk s) Hn) as [-> ->]. destruct rp. by eapply Hr.
    + rewrite (same_reply r (disk s)); [by apply H4|]. apply write_same. intros ->. apply Hq. unfold written_seqs. rewrite !elem_of_app.
      destruct Hold as [Ho|Ho]; [right; left; by apply list_elem_of_fmap_2|left]. apply list_elem_of_bind. exists (Finished r). split; [left|done].
Qed.

Lemma clean_disk s s' : clean_files shardDir s = Some s' -> disk_ok s -> disk_ok s'.
Proof.
  unfold clean_files. destruct (parent s) as [| | |[|b pend] q| | | | | |] eqn:Ep; try done. intros [= <-] [H1 H2 H3 H4 H5].
  assert (P : active_seqs s ++ written_seqs s ≡ₚ q :: (threads s ≫= running) ++ (threads s ≫= written) ++ (br_seq <$> results s) ++ []).
  { unfold active_seqs, written_seqs. rewrite Ep. cbn. solve_Permutation. }
  rewrite P in H1. rewrite P in H2. apply NoDup_cons in H1 as [Hq H1]. apply Forall_cons in H2 as [_ H2]. split; cbn; try done.
  - intros x Hx. destruct (decide (q = x)) as [->|Hne].
    + split; [|by apply lookup_delete_eq]. rewrite lookup_delete_ne by (by intros E; apply (paths_differ x x)). by apply lookup_delete_eq.
    + eapply same_no_files; [by apply remove_same|]. apply H3. unfold written_seqs in *. rewrite Ep. cbn in *. set_solver.
  - intros r Hr Hc. rewrite (same_reply r (disk s)); [by apply H4|]. apply remove_same. intros ->. apply Hq. rewrite !elem_of_app. right.
    destruct Hr as [Ho|Ho]; [right; left; by apply list_elem_of_fmap_2|left]. apply list_elem_of_bind. exists (Finished r). split; [left|done].
Qed.

Lemma begin_disk i s s' : begin_batch i s = Some s' -> disk_ok s -> disk_ok s'.
Proof.
  unfold begin_batch. destruct (threads s !! i) as [[| |b q| | | |]|] eqn:Ht; try done. intros [= <-].
  destruct (insert_bag running (threads s) i _ Ht) as (R1 & P1 & P1'). destruct (insert_bag written (threads s) i _ Ht) as (R2 & P2 & P2').
  apply disk_ok_same; try done; unfold active_seqs, written_seqs; cbn; rewrite ?P1, ?P1', ?P2, ?P2'; destruct (interrupted s); cbn; try solve_Permutation; try done; try (by intros x Hx; right).
  - intros r [|[Hr|]%elem_insert]; [naive_solver| |naive_solver]. injection Hr as ->. by right.
  - intros r [|[|]%elem_insert]; naive_solver.
Qed.

Lemma post_disk i s s' : post i s = Some s' -> disk_ok s -> disk_ok s'.
Proof.
  unfold post. destruct (threads s !! i) as [[| | | |r| |]|] eqn:Ht; try done. intros [= <-].
  destruct (insert_bag running (threads s) i _ Ht) as (R1 & P1 & P1'). destruct (insert_bag written (threads s) i _ Ht) as (R2 & P2 & P2').
  apply disk_ok_same; try done; unfold active_seqs, written_seqs; cbn; rewrite ?P1, ?P1', ?P2, ?P2', ?fmap_app; cbn; [solve_Permutation|set_solver|].
  intros r' [Hr|[|]%elem_insert]; [|done|naive_solver]. apply elem_of_app in Hr as [Hr|Hr%list_elem_of_singleton]; [naive_solver|subst].
  left. right. by eapply list_elem_of_lookup_2.
Qed.

(** A step that changes only where a thread without files, or the parent, is. *)
Lemma disk_quiet s s' : active_seqs s' ≡ₚ active_seqs s -> written_seqs s' ≡ₚ written_seqs s -> disk s' = disk s -> shardSeq s' = shardSeq s ->
  dispatched s' = dispatched s -> (forall r, held_by s' r -> held_by s r) -> disk_ok s -> disk_ok s'.
Proof. intros P W D S N R. apply disk_ok_same; [by rewrite P, W|by rewrite W|done|done|done|auto]. Qed.

(** A thread without a batch changes to another place without one. *)
Lemma disk_thread s i t t' p : threads s !! i = Some t -> thread_batches t = [] -> thread_batches t' = [] -> handled_seq p = handled_seq (parent s) ->
  disk_ok s -> disk_ok (set_parent p (set_thread i t' s)).
Proof.
  intros Ht Hb Hb' Hp. assert (Hn : forall u, thread_batches u = [] -> running u = [] /\ written u = []) by by intros [].
  destruct (Hn t Hb) as [R1 W1], (Hn t' Hb') as [R2 W2].
  destruct (insert_bag running (threads s) i _ Ht) as (R & P & P'). destruct (insert_bag written (threads s) i _ Ht) as (W & Q & Q').
  apply disk_quiet; try done; unfold active_seqs, written_seqs; cbn.
  - by rewrite P, P', R1, R2.
  - by rewrite Q, Q', W1, W2, Hp.
  - intros r [|[<-|]%elem_insert]; [by left|done|by right].
Qed.

Lemma disk_parent s s' : threads s' = threads s -> results s' = results s -> disk s' = disk s -> shardSeq s' = shardSeq s -> dispatched s' = dispatched s ->
  handled_seq (parent s') = handled_seq (parent s) -> disk_ok s -> disk_ok s'.
Proof. intros T R D S N P. apply disk_quiet; try done; unfold active_seqs, written_seqs; [by rewrite T|by rewrite T, R, P|by rewrite T, R]. Qed.

Lemma rouse_disk i s s' : rouse i s = Some s' -> disk_ok s -> disk_ok s'.
Proof.
  unfold rouse. destruct (threads s !! i) as [[| | | | | |]|] eqn:Ht; try done. intros [= <-].
  rewrite <- (set_parent_same (set_thread i Idle s) (parent s)) by done. by eapply disk_thread.
Qed.

Lemma notify_work_disk woken s s' : notify_work woken s = Some s' -> disk_ok s -> disk_ok s'.
Proof.
  unfold notify_work. destruct (parent s) as [| | | |p q| | | | |] eqn:Ep; try done. destruct woken as [i|].
  - intros H Hd. eapply rouse_disk; [done|]. eapply disk_parent; [..|exact Hd]; try done. by rewrite Ep.
  - destruct (existsb _ _); [done|]. intros [= <-]. apply disk_parent; try done. by rewrite Ep.
Qed.

Lemma take_disk s s' : take_result consumeShard onPoison shardDir s = Some s' -> disk_ok s -> disk_ok s'.
Proof.
  unfold take_result, at_wait. intros H. assert (Hp : handled_seq (parent s) = []) by (by destruct (parent s)).
  destruct (match parent s with Waiting => _ | _ => _ end); [|done].
  destruct (results s) as [|r rs] eqn:Er; [injection H as <-; by apply disk_parent|]. destruct (handle_result _ _ _ _ _ _) as [l q]. injection H as <-.
  apply disk_quiet; cbn; try done; unfold active_seqs, written_seqs; cbn; rewrite ?Er, ?Hp; cbn; [solve_Permutation|]. intros x [|]; [left; by right|by right].
Qed.

Lemma roused_bind (f : Thread -> list N) (ts : list Thread) : f Sleeping = f Idle -> ((fun t => if is_sleeping t then Idle else t) <$> ts) ≫= f = ts ≫= f.
Proof. intros Hf. induction ts as [|t ts IH]; [done|]. rewrite fmap_cons, !bind_cons, IH. by destruct t; cbn [is_sleeping]; rewrite ?Hf. Qed.

Lemma disk_step e s s' : allowed Runner s e -> next e s = Some s' -> (N.of_nat (length (dispatched s')) < two32)%N -> disk_ok s -> disk_ok s'.
Proof.
  intros Ha H Hl. destruct e as [i|i|i rp|i|i| | |woken| | | | | | |i|]; cbn [fire] in H.
  - by apply (wake_disk i).
  - by apply (begin_disk i).
  - apply (end_disk i rp); [done|apply Ha].
  - by apply (post_disk i).
  - unfold notify_result in H. destruct (threads s !! i) as [[| | | | | |]|] eqn:Ht; try done. injection H as <-. eapply disk_thread; [done|done|done|].
    by destruct (parent s).
  - by apply take_disk.
  - unfold push_batch in H. destruct (parent s) as [| | |[|b pend] q| | | | | |] eqn:Ep; try done. injection H as <-. apply disk_parent; try done. by rewrite Ep.
  - by apply (notify_work_disk woken).
  - by apply clean_disk.
  - destruct (parent s) eqn:Ep; try done. destruct (_ =? 0)%Z; [|done]. injection H as <-. apply disk_parent; try done. by rewrite Ep.
  - destruct (parent s) eqn:Ep; try done. injection H as <-. apply disk_parent; try done. by rewrite Ep.
  - unfold notify_all in H. destruct (parent s) eqn:Ep; try done. injection H as <-.
    apply disk_quiet; cbn; try done; unfold active_seqs, written_seqs; cbn; rewrite ?roused_bind, ?Ep by done; try done. intros r [|[|]%elem_roused]; [by left|done|by right].
  - destruct (parent s) eqn:Ep; try done. destruct (forallb _ _); [|done]. injection H as <-. apply disk_parent; try done. rewrite Ep. by destruct (interrupted s).
  - destruct (interrupted s); [done|]. injection H as <-. by apply disk_parent.
  - by apply (rouse_disk i).
  - destruct (parent s) eqn:Ep; try done. injection H as <-. apply disk_parent; try done. by rewrite Ep.
Qed.

Lemma start_disk files workers size irq d (a : A) : (forall q, no_files d q) -> disk_ok (start files workers size irq d a).
Proof.
  intros Hd.
  assert (H : forall (f : Thread -> list N) n, f Idle = [] -> replicate n Idle ≫= f = []) by (intros f n Hf; induction n; [done|]; simpl; by rewrite Hf).
  assert (H1 : active_seqs (start files workers size irq d a) = []) by (unfold active_seqs; cbn; case_match; [done|by apply H]).
  assert (H2 : written_seqs (start files workers size irq d a) = []).
  { unfold written_seqs. cbn. case_match; [done|]. rewrite app_nil_r. by apply H. }
  split; rewrite ?H1, ?H2; [constructor|constructor|..].
  - intros q _. apply Hd.
  - intros r [Hr|Hr]; [set_solver|]. cbn in Hr. case_match; [set_solver|]. by apply elem_of_replicate in Hr as [? _].
  - done.
Qed.

Lemma run_dispatched files workers size irq d (a : A) s : NoDup files -> rtc moves (start files workers size irq d a) s ->
  length (dispatched s) <= 3 * length files.
Proof.
  intros Hnd H. pose proof (run_potential (fun _ => 1) _ _ _ _ _ _ _ Hnd H) as Hp. rewrite sum_one in Hp. unfold potential in Hp. rewrite sum_one in Hp.
  pose proof (po_full _ _ (run_ok _ _ _ _ _ _ _ Hnd H)) as Hf. unfold full_ok in Hf. rewrite !Forall_app in Hf. destruct Hf as (_ & _ & Hf).
  assert (length (dispatched s) <= length (mjoin (dispatched s))); [|lia]. clear -Hf.
  induction Hf as [|b l Hb _ IH]; [done|]. rewrite join_cons', length_app. destruct b; [done|]. simpl in *. lia.
Qed.

Lemma run_disk files workers size irq d (a : A) s : NoDup files -> (3 * N.of_nat (length files) < two32)%N -> (forall q, no_files d q) ->
  rtc moves (start files workers size irq d a) s -> disk_ok s.
Proof.
  intros Hnd Hl Hd. revert s. apply (rtc_ind_r disk_ok); [by apply start_disk|]. intros s1 s2 Hs (e & Ha & Hf) Hk.
  apply (disk_step e s1 s2); [done..| |done].
  assert (Hr : rtc moves (start files workers size irq d a) s2) by (eapply rtc_r; [done|by exists e]).
  pose proof (run_dispatched _ _ _ _ _ _ _ Hnd Hr). lia.
Qed.

(** * What a finished run has done *)

Lemma returned_empty s : phase_ok s -> parent s = Returned -> open_units s = [] /\ written_seqs s = [].
Proof.
  intros H Ep. pose proof (ph_done _ H) as Hd. rewrite Ep, (ph_count _ H) in Hd. specialize (Hd eq_refl).
  assert (Hw : work s = []) by (apply nil_length_inv; lia). assert (Hf : flying s = []) by (apply nil_length_inv; lia).
  unfold open_units, queued, written_seqs. rewrite Hw, Hf, Ep. split; [done|]. cbn. unfold flying in Hf. apply app_nil in Hf as [Ht Hr].
  rewrite app_nil_r, fmap_nil_inv with (f := br_batch) (k := results s) by done. rewrite app_nil_r. clear -Ht.
  induction (threads s) as [|t ts IH]; [done|]. rewrite bind_cons in *. apply app_nil in Ht as [Hb Ht]. rewrite IH by done. by destruct t.
Qed.

Lemma returned_settled files s : pool_ok files s -> parent s = Returned -> settled (calls (local s)) ≡ₚ files.
Proof.
  intros Hok Ep. destruct (po_units _ _ Hok) as (lost & P & Hl). rewrite (proj1 (returned_empty s (po_phase _ _ Hok) Ep)) in P.
  destruct lost as [|x lost]; [by rewrite app_nil_r in P|]. by destruct (Hl ltac:(done)).
Qed.

Lemma times_dispatched (tu : bytes) l : length (filter (fun b : Batch => tu ∈ b) l) <= sum_list_with (fun u => if decide (u = tu) then 1 else 0) (mjoin l).
Proof.
  induction l as [|b l IH]; [done|]. rewrite join_cons', sum_list_with_app, filter_cons. case_decide as Hin; [|lia].
  pose proof (sum_list_with_in tu (fun u => if decide (u = tu) then 1 else 0) b Hin) as H. cbn beta in H. rewrite decide_True in H by done. simpl. lia.
Qed.

Lemma weight_once (tu : bytes) files : NoDup files -> sum_list_with (fun u => if decide (u = tu) then 1 else 0) files <= 1.
Proof.
  induction 1 as [|x l Hx _ IH]; [simpl; lia|]. simpl. case_decide as E; [|lia]. subst.
  assert (H : sum_list_with (fun u => if decide (u = tu) then 1 else 0) l = 0); [|lia]. clear IH.
  induction l as [|y l IH]; [done|]. simpl. rewrite decide_False by set_solver. apply IH. set_solver.
Qed.

Lemma unit_dispatched files workers size irq d (a : A) s tu : NoDup files -> rtc moves (start files workers size irq d a) s ->
  length (filter (fun b : Batch => tu ∈ b) (dispatched s)) <= 3.
Proof.
  intros Hnd H. pose proof (run_potential (fun u => if decide (u = tu) then 1 else 0) _ _ _ _ _ _ _ Hnd H) as Hp. unfold potential in Hp.
  pose proof (times_dispatched tu (dispatched s)). pose proof (weight_once tu files Hnd). lia.
Qed.

(** C5. The dispatcher accounts for every unit: under every schedule, whatever the workers do, a
    unit is handed to a worker at most three times; and when the dispatcher returns, every
    unit was in exactly one consumed shard or was given up exactly once, and no file is left
    in the shard directory. *)
Theorem dispatcher_accounts files workers size irq d (a : A) s :
  NoDup files -> (3 * N.of_nat (length files) < two32)%N -> (forall q, no_files d q) ->
  rtc moves (start files workers size irq d a) s ->
  (forall tu, length (filter (fun b : Batch => tu ∈ b) (dispatched s)) <= 3) /\
  (parent s = Returned -> settled (calls (local s)) ≡ₚ files /\ forall q, no_files (disk s) q).
Proof.
  intros Hnd Hl Hd H. pose proof (run_ok _ _ _ _ _ _ _ Hnd H) as Hok. split; [by intros; eapply unit_dispatched|]. intros Ep. split; [by apply returned_settled|].
  intros q. apply (dk_clear _ (run_disk _ _ _ _ _ _ _ Hnd Hl Hd H)). rewrite (proj2 (returned_empty s (po_phase _ _ Hok) Ep)). set_solver.
Qed.

(** C6. The dispatcher finishes.  No schedule takes more steps than a number linear in the units
    and the workers, with two more for every spurious wakeup of a condition variable; and no
    wakeup is lost: until the dispatcher has returned, or sleeps until the interrupt ends the
    process, a thread or the parent can take a step of its own, which neither waits for the
    interrupt nor for a spurious wakeup. *)
Theorem dispatcher_finishes files workers size irq d (a : A) :
  NoDup files -> runner_returns ->
  (forall es s, sched es (start files workers size irq d a) s ->
     length es <= 74 * length files + 3 * N.to_nat (effective_workers files workers) + 5 + 2 * length (filter (fun e => spurious e = true) es)) /\
  (forall s, rtc moves (start files workers size irq d a) s ->
     parent s = Returned \/ (parent s = Asleep /\ interrupted s = true) \/
     exists e s', own_step e = true /\ allowed Runner s e /\ next e s = Some s').
Proof.
  intros Hnd Hr. pose proof (start_ok files workers size irq d a) as Hok. split.
  - intros es s H. pose proof (run_bounded _ _ _ _ Hnd Hok H) as Hb. pose proof (start_measure files workers size irq d a). lia.
  - intros s H. pose proof (run_ok _ _ _ _ _ _ _ Hnd H) as Hs. destruct (never_stuck s Hr (po_phase _ _ Hs) (po_signals _ _ Hs)) as [[E|E]|E]; [by left| |by do 2 right].
    right. left. split; [done|]. by apply (ph_asleep _ (po_phase _ _ Hs)).
Qed.

(** * What the caller sees *)

(** The caller's state after a sequence of callbacks: a shard that is consumed is what a
    successful run of its batch left. *)
Inductive explains (a0 : A) : list Call -> A -> Prop :=
| ex_nil : explains a0 [] a0
| ex_poison cs a tu why : explains a0 cs a -> explains a0 (cs ++ [OnPoison tu why]) (onPoison tu why a)
| ex_consume cs a b rp a' :
    explains a0 cs a -> Runner b rp -> rp_code rp = 0%Z -> consumeShard (rp_shard rp) b a = (true, a') -> explains a0 (cs ++ [ConsumeShard b]) a'
| ex_refuse cs a b rp a' :
    explains a0 cs a -> Runner b rp -> rp_code rp = 0%Z -> consumeShard (rp_shard rp) b a = (false, a') -> explains a0 cs a'.

Definition explained (a0 : A) (l : Local A) : Prop := explains a0 (calls l) (caller l).

Lemma requeue_explained a0 tus why l : explained a0 l -> explained a0 (requeue onPoison tus why l).1.
Proof.
  intros H. unfold requeue. assert (Hf : forall kept, explained a0 (foldl (retry_unit onPoison why) (l, kept) tus).1).
  { revert l H. induction tus as [|tu tus IH]; intros l H kept; [done|]. cbn [foldl retry_unit]. case_match; apply IH; [|done]. by apply ex_poison. }
  specialize (Hf []). by destruct (foldl _ _ _).
Qed.

Lemma handleFailure_explained a0 code batch log l : explained a0 l -> explained a0 (handleFailure onPoison code batch log l).1.
Proof.
  intros H. unfold handleFailure. cbv zeta. set (why := if (code =? kWorkerTimedOut)%Z then Failure.TimedOut else Failure.Crashed).
  assert (Hb : explained a0 (bisect_batch onPoison batch why l).1).
  { assert (Hs : explained a0 (let '(l1, q1) := requeue onPoison (take (length batch / 2) batch) why l in
     let '(l2, q2) := requeue onPoison (drop (length batch / 2) batch) why l1 in (l2, q1 ++ q2)).1).
    { pose proof (requeue_explained a0 (take (length batch / 2) batch) why l H) as H1. destruct (requeue _ (take _ _) _ _) as [l1 q1].
      pose proof (requeue_explained a0 (drop (length batch / 2) batch) why l1 H1) as H2. by destruct (requeue _ (drop _ _) _ _) as [l2 q2]. }
    destruct batch as [|tu [|tu' batch]]; [exact Hs|by apply ex_poison|exact Hs]. }
  destruct (lastWorkerTuMarker log); [|done]. case_decide; [|done]. apply requeue_explained. by apply ex_poison.
Qed.

Lemma result_explained a0 r d l l' q : (br_exitCode r <> kWorkerInterrupted -> Runner (br_batch r) (reply_of d r)) ->
  handle_result consumeShard onPoison shardDir r d l = (l', q) -> explained a0 l -> explained a0 l'.
Proof.
  intros Hr E H. unfold handle_result in E.
  assert (Hc : explained a0 (consume consumeShard r (d !! shardPath_of shardDir (br_seq r)) l).2).
  { unfold consume. destruct (Z.eqb_spec (br_exitCode r) 0) as [E0|]; [|done]. specialize (Hr ltac:(by rewrite E0)).
    destruct (consumeShard _ _ _) as [[] a] eqn:Ec; cbn.
    - by eapply (ex_consume a0 (calls l) (caller l) _ (reply_of d r)).
    - by eapply (ex_refuse a0 (calls l) (caller l) _ (reply_of d r)). }
  destruct (consume _ _ _ _) as [code l1]. destruct (_ && _); [|by simplify_eq].
  pose proof (handleFailure_explained a0 code (br_batch r) (d !! stderrPath_of shardDir (br_seq r)) l1 Hc) as Hh. by rewrite E in Hh.
Qed.

(** Whatever the schedule, the caller sees one sequence of callbacks. *)
Lemma run_explained files workers size irq d (a : A) s : NoDup files -> (3 * N.of_nat (length files) < two32)%N -> (forall q, no_files d q) ->
  rtc moves (start files workers size irq d a) s -> explained a (local s).
Proof.
  intros Hnd Hl Hd. revert s. apply (rtc_ind_r (fun s => explained a (local s))); [apply ex_nil|].
  intros s1 s2 Hs (e & Ha & Hf) He. pose proof (run_disk _ _ _ _ _ _ _ Hnd Hl Hd Hs) as Hk.
  pose proof (fire_effect e s1 s2 Hf) as [Q F L _ _ _|b Q H1 H2 H3 L _ _ _|r rs q Er Ep Q F E _ _ _]; [by rewrite L|by rewrite L|].
  eapply result_explained; [|done|done]. intros Hc. apply (dk_reply _ Hk); [left; rewrite Er; left|done].
Qed.

(** * Units that kill their worker *)

Variable deadly : bytes -> Prop.
Context `{deadly_dec : !forall tu, Decision (deadly tu)}.

(** A worker dies exactly on a batch with a deadly unit, and its last marker names one; the
    shard of any other batch is written and consumed. *)
Definition exact_markers : Prop := forall b rp, Runner b rp ->
  if decide (Exists deadly b)
  then rp_code rp <> 0%Z /\ exists tu, tu ∈ b /\ deadly tu /\ lastWorkerTuMarker (rp_log rp) = Some tu
  else rp_code rp = 0%Z /\ forall a, (consumeShard (rp_shard rp) b a).1 = true.

Definition right_call (c : Call) : Prop :=
  match c with OnPoison tu _ => deadly tu | ConsumeShard tus => Forall (fun tu => ~ deadly tu) tus end.

(** Every unit of a batch was tried equally often, and there are tries left for the deadly
    ones. *)
Definition batch_spared (l : Local A) (b : Batch) : Prop :=
  exists n, (0 <= n)%Z /\ (forall tu, tu ∈ b -> tries l tu = n) /\ (n + Z.of_nat (length (filter deadly b)) <= kMaxTuRetries)%Z.

Definition spared (s : Pool A) : Prop :=
  Forall right_call (calls (local s)) /\ Forall (batch_spared (local s)) (queued s ++ flying s).

(** A marker in the batch, with tries left: that unit is given up and all others are queued. *)
Lemma marker_handled code batch log l m : NoDup batch -> lastWorkerTuMarker log = Some m -> m ∈ batch -> deadly m -> batch_spared l batch ->
  exists l' q, handleFailure onPoison code batch log l = (l', q) /\ Forall (batch_spared l') q /\
    exists why, calls l' = calls l ++ [OnPoison m why].
Proof.
  intros Hnd Em Hm Hd (n & Hn & Ht & Hc). unfold handleFailure. rewrite Em, decide_True by done. cbv zeta.
  set (why := if (code =? kWorkerTimedOut)%Z then Failure.TimedOut else Failure.Crashed). set (rest := filter (fun tu : bytes => tu <> m) batch).
  destruct (requeue_spec rest Failure.Crashed (poison onPoison m why l)) as (l' & q & E & J & F & L & B & C); [by apply NoDup_filter|].
  assert (Hk : (Z.of_nat (length (filter deadly rest)) + 1 <= Z.of_nat (length (filter deadly batch)))%Z).
  { assert (P : batch ≡ₚ m :: rest).
    { apply NoDup_Permutation; [done|constructor; [unfold rest; rewrite list_elem_of_filter; tauto|by apply NoDup_filter]|].
      intros u. unfold rest. rewrite elem_of_cons, list_elem_of_filter. destruct (decide (u = m)) as [->|]; tauto. }
    rewrite P, filter_cons, decide_True by done. simpl. lia. }
  assert (Hw : forall tu, tu ∈ rest -> ~ worn (poison onPoison m why l) tu).
  { intros tu [_ Hin]%list_elem_of_filter. unfold worn. change (tries (poison onPoison m why l) tu) with (tries l tu). rewrite (Ht tu Hin). lia. }
  rewrite (filter_id _ rest) in J by done. rewrite (filter_empty _ rest) in C by done.
  exists l', q. split; [done|]. split; [|exists why; by rewrite C, app_nil_r].
  assert (Hq : q = [] \/ q = [rest]).
  { destruct q as [|b [|]]; [by left|right|simpl in L; lia]. rewrite join_cons' in J. cbn in J. by rewrite app_nil_r in J; subst. }
  destruct Hq as [->| ->]; [done|]. constructor; [|done]. exists (n + 1)%Z. split_and!; [lia| |lia].
  intros tu Hin. rewrite B, decide_True by done. apply list_elem_of_filter in Hin as [_ Hin]. change (tries (poison onPoison m why l) tu) with (tries l tu). by rewrite (Ht tu Hin).
Qed.

Lemma result_spared r d l l' q : NoDup (br_batch r) -> exact_markers -> (br_exitCode r <> kWorkerInterrupted -> Runner (br_batch r) (reply_of d r)) ->
  batch_spared l (br_batch r) -> handle_result consumeShard onPoison shardDir r d l = (l', q) ->
  Forall (batch_spared l') q /\ exists cs, calls l' = calls l ++ cs /\ Forall right_call cs.
Proof.
  intros Hnd Hx Hr Hb. unfold handle_result, consume.
  destruct (Z.eqb_spec (br_exitCode r) kWorkerInterrupted) as [Ei|Ei].
  { rewrite Ei. cbn. intros [= <- <-]. split; [done|]. exists []. by rewrite app_nil_r. }
  specialize (Hx _ _ (Hr Ei)). cbn in Hx. destruct (decide (Exists deadly (br_batch r))) as [Hd|Hd].
  - destruct Hx as (E0 & tu & Hin & Htu & Em). rewrite (proj2 (Z.eqb_neq _ _) E0). cbn. rewrite (proj2 (Z.eqb_neq _ _) E0), (proj2 (Z.eqb_neq _ _) Ei). cbn.
    destruct (marker_handled (br_exitCode r) (br_batch r) _ l tu Hnd Em Hin Htu Hb) as (l1 & q1 & -> & Hq & why & C). intros [= <- <-].
    split; [done|]. exists [OnPoison tu why]. split; [done|]. by constructor.
  - destruct Hx as [E0 Hgood]. rewrite E0. cbn. specialize (Hgood (caller l)). destruct (consumeShard _ _ _) as [good a]. cbn in Hgood. subst good. cbn.
    intros [= <- <-]. split; [done|]. exists [ConsumeShard (br_batch r)]. split; [done|]. constructor; [|done].
    apply Forall_forall. intros tu Hin Htu. apply Hd, Exists_exists. by exists tu.
Qed.

Lemma spared_elsewhere l l' b : (forall tu, tu ∈ b -> tries l' tu = tries l tu) -> batch_spared l b -> batch_spared l' b.
Proof. intros H (n & Hn & Ht & Hc). exists n. split_and!; [done| |done]. intros tu Hin. rewrite H by done. auto. Qed.

Lemma spared_step files e s s' : NoDup files -> exact_markers -> next e s = Some s' -> pool_ok files s -> disk_ok s -> spared s -> spared s'.
Proof.
  intros Hnd Hx H Hok Hk [Hc Hs]. unfold spared. pose proof (fire_effect e s s' H) as [Q F L _ _ _|b Q H1 H2 H3 L _ _ _|r rs q Er Ep Q F E _ _ _].
  - by rewrite Q, F, L.
  - rewrite H1 in Hs. rewrite H2, H3, L. split; [done|]. rewrite Permutation_app_comm. cbn. rewrite Permutation_app_comm. exact Hs.
  - rewrite F in Hs. rewrite Q. apply Forall_app in Hs as [HQ Hs]. apply Forall_cons in Hs as [Hb HF].
    pose proof (open_batch files s r rs Hnd (po_units _ _ Hok) Er) as Hbn.
    destruct (result_spared r _ _ _ _ Hbn Hx ltac:(intros; apply (dk_reply _ Hk); [left; rewrite Er; left|done]) Hb E) as (Hq & cs & C & Hcs).
    rewrite C. split; [by apply Forall_app|].
    assert (Hdis : forall b tu, b ∈ queued s ++ flying s' -> tu ∈ b -> tu ∉ br_batch r).
    { intros b tu Hbin Htu Htr. destruct (po_units _ _ Hok) as (lost & P & _). unfold open_units in P. rewrite F, join_cons' in P.
      rewrite <- P in Hnd. apply NoDup_app in Hnd as (Hnd & _ & _). rewrite (Permutation_app_comm (br_batch r)), (assoc_L (++)) in Hnd.
      apply NoDup_app in Hnd as (_ & Hd & _). apply (Hd tu); [|done]. rewrite <- join_app. apply list_elem_of_join. by exists b. }
    assert (Hoth : forall b, b ∈ queued s ++ flying s' -> batch_spared (local s) b -> batch_spared (local s') b).
    { intros b Hbin. apply spared_elsewhere. intros tu Htu.
      destruct (handle_result_cases r _ _ _ _ Hbn E) as [(out & Hd)|(_ & -> & _)]; [|done]. apply (hd_others _ _ _ _ _ Hd). by eapply Hdis. }
    rewrite <- (assoc_L (++)). apply Forall_app. split; [done|]. apply Forall_forall. intros b Hbin. apply Hoth; [done|].
    apply elem_of_app in Hbin as [Hbin|Hbin]; [by eapply Forall_forall in HQ|by eapply Forall_forall in HF].
Qed.

Lemma start_spared files workers size irq d (a : A) :
  Forall (fun b => length (filter deadly b) <= 2) (initial_batches files workers size) -> spared (start files workers size irq d a).
Proof.
  intros H. split; [done|]. rewrite start_flying, start_queued, app_nil_r. eapply Forall_impl; [exact H|]. intros b Hb. cbn in Hb. exists 0%Z.
  split_and!; [done| |unfold kMaxTuRetries; lia]. intros tu _. unfold tries. cbn. by rewrite lookup_empty.
Qed.

Lemma right_calls cs : Forall right_call cs -> given_up cs = filter deadly (settled cs) /\ consumed cs = filter (fun tu => ~ deadly tu) (settled cs).
Proof.
  induction 1 as [|c cs Hc _ [IH1 IH2]]; [done|]. unfold given_up, consumed, settled in *. rewrite !bind_cons, !filter_app, <- IH1, <- IH2.
  destruct c as [tus|tu why]; cbn in *.
  - rewrite Forall_forall in Hc. by rewrite (filter_empty _ tus), (filter_id _ tus).
  - by rewrite decide_True, decide_False by tauto.
Qed.

(** C21. A deadly unit costs exactly itself, as long as no batch of the start holds more than two
    of them: when the markers are exact, a run that returns has given up the deadly units,
    each once, and consumed all others. *)
Theorem deadly_unit_costs_itself files workers size irq d (a : A) s :
  NoDup files -> (3 * N.of_nat (length files) < two32)%N -> (forall q, no_files d q) -> exact_markers ->
  Forall (fun b => length (filter deadly b) <= 2) (initial_batches files workers size) ->
  rtc moves (start files workers size irq d a) s -> parent s = Returned ->
  given_up (calls (local s)) ≡ₚ filter deadly files /\ consumed (calls (local s)) ≡ₚ filter (fun tu => ~ deadly tu) files.
Proof.
  intros Hnd Hl Hd Hx H2 H Ep.
  assert (Hsp : spared s /\ disk_ok s /\ pool_ok files s).
  { clear Ep. revert s H. apply (rtc_ind_r (fun s => spared s /\ disk_ok s /\ pool_ok files s)).
    - split_and!; [by apply start_spared|by apply start_disk|apply start_ok].
    - intros s1 s2 Hs (e & Ha & Hf) (I1 & I2 & I3). assert (Hm : moves s1 s2) by by exists e. assert (Hr : rtc moves (start files workers size irq d a) s2) by by eapply rtc_r.
      split_and!; [by eapply spared_step|by eapply run_disk|by eapply run_ok]. }
  destruct Hsp as ([Hc _] & _ & Hok). destruct (right_calls _ Hc) as [-> ->]. pose proof (returned_settled _ _ Hok Ep) as P. by rewrite P.
Qed.
End Correct.

(** * The isolated bake *)

Section Bake.
Context `{UI : !UnorderedIter, TI : !TextIter} (load_shard : option bytes -> option SnapshotData) (Runner : Batch -> Reply -> Prop).

Abbreviation bake_moves shardDir := (pool_step (bake_consume load_shard) bake_poison shardDir Runner).

(** A worker that succeeds records the outcome of every unit of its batch, and of no other. *)
Definition records_batch : Prop := forall b rp snap, Runner b rp -> rp_code rp = 0%Z -> load_shard (rp_shard rp) = Some snap ->
  dom (outcomesOf (sd_meta snap)) = (list_to_set b : gset bytes).

(** The statistics the calls leave. *)
Definition stats_of (cs : list Call) : list TuStat :=
  cs ≫= fun c => match c with ConsumeShard tus => (fun tu => MkTuStat tu 0) <$> tus | OnPoison tu _ => [MkTuStat tu (-1)] end.

Record bake_ok (cs : list Call) (st : BakeState) : Prop := {
  bk_dom : dom (bk_outcomes (bs_out st)) = (list_to_set (settled cs) : gset bytes);
  bk_poisoned : forall tu why, OnPoison tu why ∈ cs -> bk_outcomes (bs_out st) !! tu = Some (poison_outcome why);
  bk_count : bs_poisonedCount st = u32 (N.of_nat (length (given_up cs)));
  bk_stats : forall l, bs_stats st = Some l -> l = stats_of cs
}.

Lemma bake_poison_ok cs st tu why : NoDup (settled (cs ++ [OnPoison tu why])) -> bake_ok cs st -> bake_ok (cs ++ [OnPoison tu why]) (bake_poison tu why st).
Proof.
  intros Hnd [H1 H2 H3 H4]. rewrite settled_app in Hnd. apply NoDup_app in Hnd as (_ & Hd & _). split; cbn.
  - rewrite settled_app, list_to_set_app_L, dom_insert_L, H1. cbn. set_solver.
  - intros u w [Hin|Hin%list_elem_of_singleton]%elem_of_app.
    + rewrite lookup_insert_ne; [by apply H2|]. intros ->. apply (Hd u); [|left]. apply list_elem_of_bind. exists (OnPoison u w). split; [left|done].
    + injection Hin as -> ->. by rewrite lookup_insert_eq.
  - unfold given_up. rewrite bind_app, length_app, H3. cbn. unfold u32. rewrite N.Div0.add_mod_idemp_l. f_equal. unfold given_up. lia.
  - destruct (bs_stats st) as [l0|]; cbn; [|done]. intros l [= <-]. rewrite (H4 _ eq_refl). unfold stats_of. by rewrite bind_app.
Qed.

Lemma bake_consume_ok cs st st' b rp : records_batch -> Runner b rp -> rp_code rp = 0%Z -> NoDup (settled (cs ++ [ConsumeShard b])) ->
  bake_consume load_shard (rp_shard rp) b st = (true, st') -> bake_ok cs st -> bake_ok (cs ++ [ConsumeShard b]) st'.
Proof.
  intros Hrec Hr H0 Hnd. unfold bake_consume. destruct (load_shard _) as [snap|] eqn:El; [|done]. intros [= <-] [H1 H2 H3 H4].
  rewrite settled_app in Hnd. apply NoDup_app in Hnd as (_ & Hd & _). cbn in Hd. rewrite app_nil_r in Hd. pose proof (Hrec b rp snap Hr H0 El) as Hb.
  assert (Ho : bk_outcomes (absorb_shard snap (bs_firstShard st) (bs_out st)) = outcomesOf (sd_meta snap) ∪ bk_outcomes (bs_out st)) by (unfold absorb_shard; by case_match).
  split; cbn [bs_out bs_poisonedCount bs_stats]; rewrite ?Ho.
  - rewrite settled_app, list_to_set_app_L, dom_union_L, H1, Hb. cbn. rewrite app_nil_r. set_solver.
  - intros u w [Hin|Hin%list_elem_of_singleton]%elem_of_app; [|done]. rewrite lookup_union_r; [by apply H2|].
    apply not_elem_of_dom. rewrite Hb, elem_of_list_to_set. apply Hd. apply list_elem_of_bind. exists (OnPoison u w). split; [left|done].
  - unfold given_up. rewrite bind_app, app_nil_r. exact H3.
  - destruct (bs_stats st) as [l0|]; cbn; [|done]. intros l [= <-]. rewrite (H4 _ eq_refl). unfold stats_of. rewrite bind_app. cbn. by rewrite app_nil_r.
Qed.

Lemma explains_bake withStats cs st : records_batch -> NoDup (settled cs) ->
  explains (bake_consume load_shard) bake_poison Runner (bake_start withStats) cs st -> bake_ok cs st.
Proof.
  intros Hrec Hnd H. revert Hnd. induction H as [|cs st tu why H IH|cs st b rp st' H IH Hr H0 Hc|cs st b rp st' H IH Hr H0 Hc]; intros Hnd.
  - split; cbn; [done|set_solver|done|]. by destruct withStats; intros l [= <-].
  - apply bake_poison_ok; [done|]. apply IH. rewrite settled_app in Hnd. by apply NoDup_app in Hnd as [? _].
  - eapply bake_consume_ok; [done..|]. apply IH. rewrite settled_app in Hnd. by apply NoDup_app in Hnd as [? _].
  - unfold bake_consume in Hc. destruct (load_shard _); [done|]. injection Hc as <-. by apply IH.
Qed.

Lemma given_up_settled cs : length (given_up cs) <= length (settled cs).
Proof. unfold given_up, settled. induction cs as [|[tus|tu why] cs IH]; [done|..]; rewrite !bind_cons, !length_app; cbn; lia. Qed.

Lemma stats_files cs : ts_file <$> stats_of cs = settled cs.
Proof.
  unfold stats_of, settled. induction cs as [|[tus|tu why] cs IH]; [done|..]; rewrite !bind_cons, fmap_app, IH; [|done]. f_equal. cbn.
  rewrite <- list_fmap_compose. apply list_fmap_id.
Qed.

Lemma stats_status cs tu : MkTuStat tu (-1) ∈ stats_of cs <-> tu ∈ given_up cs.
Proof.
  unfold stats_of, given_up. induction cs as [|[tus|u why] cs IH]; [set_solver|..]; rewrite !bind_cons, !elem_of_app, IH; cbn.
  - split; [intros [(x & ? & _)%list_elem_of_fmap|]; [done|by right]|intros [[]%not_elem_of_nil|]; by right].
  - rewrite !list_elem_of_singleton. split; intros [Hx|]; [left; congruence|by right|left; congruence|by right].
Qed.

(** C22. An isolated bake that returns reports every unit: each has an outcome and exactly one
    entry in the statistics, a unit given up has the outcome of what dropped it and the
    status -1, and the count of given-up units is theirs. *)
Theorem isolated_bake_reports_every_unit files workers size irq shardDir d s :
  NoDup files -> (3 * N.of_nat (length files) < two32)%N -> (forall q, no_files shardDir d q) -> records_batch ->
  rtc (bake_moves shardDir) (bakeIsolatedWithRunner files workers size true irq d) s -> parent s = Returned ->
  let st := caller (local s) in
  dom (bk_outcomes (bs_out st)) = (list_to_set files : gset bytes) /\
  (forall tu why, OnPoison tu why ∈ calls (local s) -> bk_outcomes (bs_out st) !! tu = Some (poison_outcome why)) /\
  bs_poisonedCount st = N.of_nat (length (given_up (calls (local s)))) /\
  (forall l, bs_stats st = Some l ->
     ts_file <$> l ≡ₚ files /\ forall tu, MkTuStat tu (-1) ∈ l <-> tu ∈ given_up (calls (local s))).
Proof.
  intros Hnd Hl Hd Hrec H Ep st. pose proof (run_explained _ _ _ _ _ _ _ _ _ _ _ Hnd Hl Hd H) as He.
  pose proof (returned_settled _ _ (run_ok _ _ _ _ _ _ _ _ _ _ _ Hnd H) Ep) as P.
  assert (Hns : NoDup (settled (calls (local s)))) by by rewrite P.
  destruct (explains_bake true (calls (local s)) st Hrec Hns He) as [H1 H2 H3 H4]. split_and!.
  - rewrite H1. apply set_eq. intros tu. rewrite !elem_of_list_to_set. by rewrite P.
  - done.
  - rewrite H3. apply u32_small. pose proof (given_up_settled (calls (local s))) as Hg. rewrite P in Hg. lia.
  - intros l ->%H4. split; [by rewrite stats_files, P|]. intros tu. apply stats_status.
Qed.
End Bake.

(** * Concrete runs *)

Section Drive.
Context {A : Type} (consumeShard : option bytes -> Batch -> A -> bool * A) (onPoison : bytes -> WorkerFailure -> A -> A).
Variable shardDir : bytes.
(** A runner that is a function of its batch. *)
Variable runner : Batch -> Reply.

(** The reply of a run that ends is the runner's. *)
Definition with_reply (s : Pool A) (e : Event) : Event :=
  match e with
  | EEnd i rp => match threads s !! i with Some (Running b _) => EEnd i (runner b) | _ => e end
  | _ => e
  end.

Fixpoint drive (es : list Event) (s : Pool A) : option (Pool A) :=
  match es with [] => Some s | e :: es' => s' ← fire consumeShard onPoison shardDir (with_reply s e) s; drive es' s' end.

Lemma drive_run es s s' : (forall b, rp_code (runner b) <> kWorkerInterrupted) -> drive es s = Some s' ->
  rtc (pool_step consumeShard onPoison shardDir (fun b rp => rp = runner b)) s s'.
Proof.
  intros Hr. revert s. induction es as [|e es IH]; intros s; cbn [drive]; [by intros [= ->]|].
  intros (s1 & Hf & H)%bind_Some. eapply rtc_l; [|by apply IH]. exists (with_reply s e). split; [|done].
  destruct e as [| |i rp| | | | | | | | | | | | |]; try done. cbn [with_reply] in *. destruct (threads s !! i) as [[| | |b q| | |]|] eqn:Ht;
    cbn [fire] in Hf; unfold end_batch in Hf; rewrite ?Ht in Hf; try done.
  split; [intros E; by destruct (Hr b)|]. intros b' q' E. simplify_eq. congruence.
Qed.

(** Where the schedule leads; it must be one that can happen. *)
Lemma drive_default es s : (forall b, rp_code (runner b) <> kWorkerInterrupted) ->
  match drive es s with Some _ => true | None => false end = true ->
  rtc (pool_step consumeShard onPoison shardDir (fun b rp => rp = runner b)) s (default s (drive es s)).
Proof. intros Hr H. apply (drive_run es); [done|]. by destruct (drive es s). Qed.
End Drive.

(** A worker that dies on the first unit of [bad], after its marker. *)
Definition dies_on (bad : Batch) (b : Batch) : Reply :=
  match filter (fun tu => tu ∈ bad) b with
  | tu :: _ => MkReply (-2) None (Some (kMarker ++ tu ++ [Byte.x0a]))
  | [] => MkReply 0 (Some []) None
  end.

Definition accepts (shard : option bytes) (b : Batch) (n : nat) : bool * nat := (bool_decide (is_Some shard), n + length b).
Definition counts (tu : bytes) (why : WorkerFailure) (n : nat) : nat := n.

Definition unit_names : Batch := [str "/a.cpp"; str "/b.cpp"; str "/c.cpp"; str "/d.cpp"; str "/e.cpp"].

(** All units in one batch, one thread. *)
Definition small_pool : Pool nat := dispatchIsolated unit_names 1 5 false ∅ 0.

(** The parent sleeps until the result is there; the thread looks for work and sleeps until
    the batch that is queued again, or the stop, wakes it. *)
Definition one_round : list Event := [ETake; EWake 0; EBegin 0; EEnd 0 (MkReply 0 None None); EPost 0; ENotifyResult 0; EWake 0; ETake].
Definition push_again : list Event := [EPush; ENotifyWork (Some 0); EClean].
Definition wind_up : list Event := [EClean; EBreak; EStop; ENotifyAll; EWake 0; EJoin].
Definition two_failures : list Event := one_round ++ push_again ++ one_round ++ push_again ++ one_round ++ wind_up.

Abbreviation driven bad es := (default small_pool (drive accepts counts (str "/tmp") (dies_on bad) es small_pool)).

Lemma dies_code bad b : rp_code (dies_on bad b) <> kWorkerInterrupted.
Proof. unfold dies_on. by destruct (filter _ b). Qed.

Lemma dies_exact bad : (forall tu, tu ∈ bad -> lastWorkerTuMarker (Some (kMarker ++ tu ++ [Byte.x0a])) = Some tu) ->
  exact_markers accepts (fun b rp => rp = dies_on bad b) (fun tu => tu ∈ bad).
Proof.
  intros Hm b rp ->. unfold dies_on. destruct (filter (fun tu => tu ∈ bad) b) as [|tu l] eqn:E.
  - rewrite decide_False; [done|]. intros (tu & Hb & Hin)%Exists_exists.
    assert (H : tu ∈ filter (fun tu => tu ∈ bad) b) by by apply list_elem_of_filter. rewrite E in H. set_solver.
  - assert (H : tu ∈ filter (fun tu => tu ∈ bad) b) by (rewrite E; left). apply list_elem_of_filter in H as [Hin Hb].
    rewrite decide_True by (apply Exists_exists; by exists tu). split; [done|]. exists tu. split_and!; [done|done|by apply Hm].
Qed.

Lemma small_names : NoDup unit_names.
Proof. by apply (bool_decide_unpack _); vm_compute. Qed.

Lemma empty_directory q : no_files (str "/tmp") ∅ q.
Proof. split; apply lookup_empty. Qed.

Abbreviation two_bad := [str "/b.cpp"; str "/d.cpp"].

Lemma dispatcher_accounts_witness :
  parent (driven two_bad two_failures) = Returned /\ settled (calls (local (driven two_bad two_failures))) ≡ₚ unit_names.
Proof.
  assert (H : rtc (pool_step accepts counts (str "/tmp") (fun b rp => rp = dies_on two_bad b)) small_pool (driven two_bad two_failures)).
  { apply drive_default; [apply dies_code|vm_compute; reflexivity]. }
  split; [vm_compute; reflexivity|].
  apply (dispatcher_accounts accepts counts (str "/tmp") (fun b rp => rp = dies_on two_bad b) unit_names 1 5 false ∅ 0 _ small_names
           ltac:(vm_compute; reflexivity) empty_directory H). vm_compute. reflexivity.
Defined.

Lemma dispatcher_finishes_witness :
  parent (driven two_bad two_failures) = Returned \/
  (parent (driven two_bad two_failures) = Asleep /\ interrupted (driven two_bad two_failures) = true) \/
  exists e s', own_step e = true /\ allowed (fun b rp => rp = dies_on two_bad b) (driven two_bad two_failures) e /\
    fire accepts counts (str "/tmp") e (driven two_bad two_failures) = Some s'.
Proof.
  apply (dispatcher_finishes accepts counts (str "/tmp") (fun b rp => rp = dies_on two_bad b) unit_names 1 5 false ∅ 0 small_names).
  - intros b. exists (dies_on two_bad b). split; [reflexivity|apply dies_code].
  - apply drive_default; [apply dies_code|vm_compute; reflexivity].
Defined.

Lemma deadly_unit_costs_itself_witness :
  given_up (calls (local (driven two_bad two_failures))) ≡ₚ two_bad.
Proof.
  assert (H : rtc (pool_step accepts counts (str "/tmp") (fun b rp => rp = dies_on two_bad b)) small_pool (driven two_bad two_failures)).
  { apply drive_default; [apply dies_code|vm_compute; reflexivity]. }
  refine (proj1 (deadly_unit_costs_itself accepts counts (str "/tmp") (fun b rp => rp = dies_on two_bad b) (fun tu => tu ∈ two_bad)
           unit_names 1 5 false ∅ 0 _ small_names ltac:(vm_compute; reflexivity) empty_directory _ _ H _)).
  - apply dies_exact. intros tu Hin. repeat (apply elem_of_cons in Hin as [->|Hin]; [vm_compute; reflexivity|]). set_solver.
  - apply (bool_decide_unpack _). vm_compute. exact I.
  - vm_compute. reflexivity.
Defined.

(** Three deadly units in one batch cost every unit of it: after the third failure the units
    that are left were tried as often as allowed and are given up with it. *)
Theorem three_deadly_units_cost_the_batch : exists es s,
  drive accepts counts (str "/tmp") (dies_on [str "/b.cpp"; str "/c.cpp"; str "/d.cpp"]) es small_pool = Some s /\
  parent s = Returned /\ given_up (calls (local s)) ≡ₚ unit_names.
Proof.
  exists (one_round ++ push_again ++ one_round ++ push_again ++ one_round ++ wind_up).
  eexists. split; [vm_compute; reflexivity|]. split; [reflexivity|].
  apply (bool_decide_unpack _). vm_compute. exact I.
Qed.

(** One unit whose worker succeeds. *)
Definition one_unit : Batch := [str "/a.cpp"].

Definition one_shard : SnapshotData :=
  MkData empty_graph (Resident empty_index) empty_channels
    (MkMeta [] [] true [] [MkStamp (str "/a.cpp") 0 0] [] [] [] [] [MkOutcome Indexed []] (MkProvenance [] [] [] 0)) (MkSummary 0 0 0 0) kSectionAll.

Definition load_one (shard : option bytes) : option SnapshotData := match shard with Some _ => Some one_shard | None => None end.

Definition run_one (b : Batch) : Reply := if decide (b = one_unit) then MkReply 0 (Some []) None else MkReply 1 None None.

Definition one_bake : Pool BakeState :=
  default (bakeIsolatedWithRunner one_unit 1 0 true false ∅)
    (drive (@bake_consume canonical_iter canonical_text_iter load_one) bake_poison (str "/tmp") run_one (one_round ++ wind_up)
       (bakeIsolatedWithRunner one_unit 1 0 true false ∅)).

Lemma run_one_code b : rp_code (run_one b) <> kWorkerInterrupted.
Proof. unfold run_one. by case_decide. Qed.

Lemma one_bake_records : records_batch load_one (fun b rp => rp = run_one b).
Proof.
  intros b rp snap -> H0 E. unfold run_one in *. destruct (decide (b = one_unit)) as [->|]; [|done]. injection E as <-. by_computation.
Qed.

Lemma isolated_bake_reports_every_unit_witness : dom (bk_outcomes (bs_out (caller (local one_bake)))) = (list_to_set one_unit : gset bytes).
Proof.
  refine (proj1 (@isolated_bake_reports_every_unit canonical_iter canonical_text_iter load_one (fun b rp => rp = run_one b)
    one_unit 1 0 false (str "/tmp") ∅ one_bake _ _ _ one_bake_records _ _)).
  - apply (bool_decide_unpack _). vm_compute. exact I.
  - vm_compute. reflexivity.
  - intros q. apply empty_directory.
  - apply drive_default; [apply run_one_code|]. vm_compute. reflexivity.
  - vm_compute. reflexivity.
Defined.
